(* ===== verification/_CoqProject ===== *)
-Q . S2P
Prelude.v
GoBytes.v
BTree.v
Metapb.v
Region.v
RegionTree.v
RegionMap.v
RegionsInfo.v
RegionsInfoProps.v
Codec.v
Strconv.v
KV.v
HistoryBuffer.v
Storage.v
StorageProps.v
Cache.v
CacheProps.v
Etcd.v
IdAlloc.v
Tso.v
TsoProps.v
Operator.v
OperatorProps.v
Float.v
FloatInt.v
WaitingOperator.v
Heap.v
OperatorController.v
OperatorControllerInv.v
OperatorControllerProps.v
Strings.v
Store.v
StoreStorage.v
Statistics.v
StatisticsProps.v
Config.v
ConfigProps.v
ClusterInfo.v
ClusterInfoProps.v
RaftCluster.v
RaftClusterProps.v
Schedule.v
ScheduleProps.v
Structure.v
Checkers.v
CheckersProps.v
LocationProps.v
Plugin.v
PluginProps.v
Schedulers.v
SchedulersProps.v
NamespaceCluster.v
NamespaceClusterProps.v
HotRegion.v
HotRegionProps.v
Scatter.v
ScatterProps.v
Adjacent.v
AdjacentProps.v
RangeCluster.v
RangeClusterProps.v
Coordinator.v
Handler.v
CoordinatorProps.v
PatrolProps.v
HandlerProps.v
SchedulersDemo.v
CoordinatorDemo.v
HandlerDemo.v
Namespaces.v
NamespacesProps.v
NamespacesDemo.v
