(* ===== verification/Prelude.v ===== *)
(** * A verification development for the PD placement driver

    PD keeps the state of a TiKV cluster and decides where the replicas of its
    data live.  The data is split into regions, ranges of keys with a few replicas
    (peers) on different stores, one of which is the leader.  This library is a
    shallow embedding of the server in src/: Go functions are Rocq functions, and
    the theorems are about these functions.

    ** The program and how its parts interact

    Stores and regions report to the leading PD server by heartbeats.  The cached
    cluster keeps what they report (regions by key and by id, stores, statistics)
    and saves it in the storage, on top of etcd or LevelDB.  The coordinator runs
    the checkers over all regions and the schedulers over the whole cluster; they
    propose operators, sequences of steps that move peers and leaders.  The
    operator controller admits, limits, runs and ends operators, and sends their
    steps to the stores with the answers to heartbeats.  Administrators add
    operators and schedulers by requests, and this fork of PD adds a plugin with
    the user's own rules for leaders and regions.  Beside that PD allocates ids
    and timestamps, for which servers compete through etcd.

    ** Conventions

    - An effectful method is a function of the monad [M S A := S → S * result A]
      of KV.v: state passing with Go errors and panics as values.  Pure code that
      can panic returns an [option].
    - A method that holds a lock throughout is one step.  Code that runs without a
      lock or releases it in between is split into steps, whose interleavings are
      a step relation ([tso_step], [oc_step], [co_step], the steps of the id
      allocator and of the region heartbeat).
    - Objects that are shared by pointer and written in place live in a heap (the
      messages of stores, the operators of the controller) or are entries of the
      map that owns them (the namespaces).
    - [uint64] and [int64] values are integers [Z] with the wrap-around written
      out ([uint64], [int64] below); [float64] is IEEE binary64 (Float.v); strings
      and keys are lists of bytes.
    - The clock, random draws and the iteration order of a Go map are arguments;
      the theorems hold for all of them, a map order being any permutation.
    - Code outside src/ is a class of operations with a class of laws, which state
      its documentation: google/btree ([BTreeOps]), etcd ([Etcd]), LevelDB
      ([LevelDB]), protobuf, JSON and TOML encodings ([Proto], [ConfigJson],
      [NamespaceJson]), go-semver ([Semver]), juju/ratelimit ([RateLimit]),
      montanaflynn/stats ([Stats]) and the tables of package unicode ([Unicode]).
      The Modules named [...Demo] and [SortedList], [MapEtcd], [MemLevel], [Latin]
      have concrete instances, on which the theorems are applied.
    - Interfaces of the program are classes too, and theorems about a client are
      proved against the laws: [KVBase], [Cache], [Cluster], [ScheduleCluster],
      [SchedulerCluster], [Classifier], [Scheduler], [IDAllocator].

    ** The files

    Standard library and messages: GoBytes (package bytes, key order), Strconv
    (strconv, fmt, path), Strings (utf8, strings.EqualFold), Float and FloatInt
    (float64), Heap (container/heap), BTree (interface), Metapb (messages).

    Regions, server/core: Region (region.go, region_option.go), RegionTree
    (region_tree.go), RegionMap and RegionsInfo (region.go).  RegionsInfoProps
    shows that the tree and the indexes by store are functions of the map of
    regions after every operation ([SetRegion_refines], [reachable_store_stats]),
    that searches find the region of a key and that nothing panics.

    Storage: KV (server/kv), Storage, StoreStorage (core/storage.go,
    region_storage.go), HistoryBuffer (region_syncer/history_buffer.go), Cache
    (pkg/cache), Codec (table/codec.go), Etcd (server/util.go, kv/etcd_kv.go), with
    round trips of codec and storage, the paginated loads and the laws of caches.

    Ids and timestamps: IdAlloc (server/id.go), Tso (server/tso.go, leader.go);
    IdAlloc and TsoProps show that ids and timestamps are unique for all
    interleavings of several servers, lost requests and restarts.

    The cluster: Store (core/store.go), Statistics (server/statistics), Config
    (config.go, option.go, version.go and the setters of server.go), ClusterInfo
    (cluster_info.go), RaftCluster (cluster.go, cluster_worker.go), Namespaces
    (table/namespace_classifier.go, server/namespace).  ClusterInfoProps has the
    effect of a heartbeat on cache and storage, RaftClusterProps that of the store
    commands, NamespacesProps the invariant and the round trip of the namespaces, and
    what a removal that is not saved does to them.

    Operators, server/schedule: Operator (operator.go), WaitingOperator,
    OperatorController.  OperatorProps defines what TiKV does with a step
    ([exec_safe]) and shows that the operators reach their goal without losing a
    voter or removing the leader.  OperatorControllerInv has a calculus of weakest
    preconditions and the invariant; OperatorControllerProps the theorems about
    all interleavings.

    Decisions: Schedule (filters, scores, selectors), Checkers (server/checker),
    Structure and Plugin (plugin/), Schedulers, HotRegion, Adjacent
    (server/schedulers), Scatter (region_scatterer.go), RangeCluster,
    NamespaceCluster.  The files with Props say when a proposal is made, that it
    returns, and that its operator is safe and goes to a store that may take it;
    LocationProps shows that relocations end.

    Composition: Coordinator (coordinator.go), Handler (handler.go), with
    CoordinatorProps (the goroutines of the schedulers, the configuration and a
    restart), PatrolProps (a region is checked by all checkers and the controller
    together; the patrol passes over all regions) and HandlerProps (the requests of
    administrators).  SchedulersDemo, CoordinatorDemo, HandlerDemo and
    NamespacesDemo apply the theorems to concrete clusters.

    ** Loops and fuel

    Loops over slices and maps are structural.  Loops without an obvious measure
    take fuel, and the theorems give an amount that is enough: the loads of
    regions, stores and namespaces one page per stored pair and one more; the scan
    of a key range one page per region; the codec one group per eight bytes; the
    heap its length; the promotion of waiting operators their number; the polling
    of the notifier queue five times its length, while the clock advances by less
    than two seconds; the patrol one round per region and one more.  The loops of
    the coordinator and of the leader are unbounded and are step relations.

    ** Not modelled

    - Network and processes: gRPC (server/grpc_service.go, heartbeat_streams.go,
      region_syncer/client.go and server.go), HTTP (server/api,
      table/namespace_handler.go), starting and joining a server (server.go,
      join.go, cmd), the client library (client/).  They decode requests, call what
      is modelled here and encode answers; their goroutines and reconnections are
      I/O.
    - The configuration file and command line flags of config.go, logging, metrics
      and the statistics that are only shown (statistics/store_collection.go).
    - server/placement, which nothing uses, tools/, tests/ and the mocks.
    - Weak memory: fields read without a lock are read atomically here.
    - The time a computation takes: a step happens at one time of the clock.  A
      tick of a scheduler's goroutine and a check of a region are one step each, in
      which a store is overloaded throughout or not at all; the goroutines
      interleave between the steps. *)

From Stdlib Require Export ZArith Lia.
From Stdlib Require Export Strings.Byte.
From stdpp Require Export sorting strings.
From stdpp Require Export base option gmap list.

(** ** Scope and notations *)

Declare Scope pd_scope.
Delimit Scope pd_scope with pd.
Open Scope Z_scope.

(** Go code that can hit a run-time panic (nil dereference, index out of
    range) is modelled in the option monad; [None] is the panic. *)
Notation "'panic'" := (@None _) (only parsing) : pd_scope.

(** ** Hint databases and tactics *)

Create HintDb pd.
Create Rewrite HintDb pd.

(** Case analysis on every [match] and [if] the goal is stuck on. *)
Ltac go_cases :=
  repeat (case_match || case_decide || case_bool_decide); simplify_eq/=.

(** Destructs the conjunctions and existentials of the context. *)
Ltac split_hyps :=
  repeat match goal with
  | H : _ ∧ _ |- _ => destruct H
  | H : ∃ _, _ |- _ => destruct H
  end.

(** ** Machine integers *)

(** Two's complement wrap-around of Go's [int64] (and [int] on 64-bit
    targets) and the wrap-around of [uint64]. *)
Definition int64 (x : Z) : Z := (x + 2 ^ 63) mod 2 ^ 64 - 2 ^ 63.
Definition uint64 (x : Z) : Z := x mod 2 ^ 64.

Lemma int64_small x : - 2 ^ 63 ≤ x < 2 ^ 63 → int64 x = x.
Proof. intros H. unfold int64. rewrite Z.mod_small by lia. lia. Qed.

Lemma uint64_small x : 0 ≤ x < 2 ^ 64 → uint64 x = x.
Proof. apply Z.mod_small. Qed.

Lemma int64_range x : - 2 ^ 63 ≤ int64 x < 2 ^ 63.
Proof. unfold int64. pose proof (Z.mod_pos_bound (x + 2 ^ 63) (2 ^ 64)). lia. Qed.

Lemma uint64_range x : 0 ≤ uint64 x < 2 ^ 64.
Proof. apply Z.mod_pos_bound. lia. Qed.

(** Wrapping an operand first does not change a wrapped sum. *)
Lemma int64_add_l x y : int64 (int64 x + y) = int64 (x + y).
Proof.
  unfold int64.
  replace ((x + 2 ^ 63) mod 2 ^ 64 - 2 ^ 63 + y + 2 ^ 63)
    with ((x + 2 ^ 63) mod 2 ^ 64 + y) by lia.
  rewrite Zplus_mod_idemp_l. do 2 f_equal. lia.
Qed.

Lemma int64_add_r x y : int64 (x + int64 y) = int64 (x + y).
Proof. rewrite Z.add_comm, int64_add_l. f_equal. lia. Qed.

Lemma int64_sub_r x y : int64 (x - int64 y) = int64 (x - y).
Proof.
  unfold int64.
  replace (x - ((y + 2 ^ 63) mod 2 ^ 64 - 2 ^ 63) + 2 ^ 63)
    with (x + 2 ^ 64 - (y + 2 ^ 63) mod 2 ^ 64) by lia.
  rewrite Zminus_mod_idemp_r.
  replace (x + 2 ^ 64 - (y + 2 ^ 63)) with (x - y + 2 ^ 63) by lia. done.
Qed.

Lemma int64_sub_l x y : int64 (int64 x - y) = int64 (x - y).
Proof. apply (int64_add_l x (- y)). Qed.

Lemma int64_idemp x : int64 (int64 x) = int64 x.
Proof. apply int64_small, int64_range. Qed.

Lemma int64_uint64 x : int64 (uint64 x) = int64 x.
Proof. unfold int64, uint64. by rewrite Zplus_mod_idemp_l. Qed.

Lemma uint64_int64 x : uint64 (int64 x) = uint64 x.
Proof.
  unfold int64, uint64. rewrite Zminus_mod_idemp_l. f_equal. lia.
Qed.

(** [math/rand.Intn]: the draw [d] stands for the state of the generator;
    every value of [0 .. n-1] is the result of some draw. *)
Definition rand_Intn (d : nat) (n : nat) : nat := d mod n.

Lemma rand_Intn_lt d n : (0 < n)%nat → (rand_Intn d n < n)%nat.
Proof. intros. apply Nat.mod_upper_bound. lia. Qed.

(** ** Lists *)

(** Sum of an integer measure over a list. *)
Definition sumZ {A} (f : A → Z) (l : list A) : Z := foldr (λ x s, f x + s) 0 l.

Lemma sumZ_cons {A} (f : A → Z) x l : sumZ f (x :: l) = f x + sumZ f l.
Proof. done. Qed.

Lemma sumZ_app {A} (f : A → Z) l1 l2 : sumZ f (l1 ++ l2) = sumZ f l1 + sumZ f l2.
Proof. induction l1; simpl; [done|]. rewrite IHl1. lia. Qed.

#[export] Instance sumZ_perm {A} (f : A → Z) : Proper ((≡ₚ) ==> (=)) (sumZ f).
Proof. induction 1; simpl; lia. Qed.

Lemma sumZ_ext {A} (f g : A → Z) l : (∀ x, x ∈ l → f x = g x) → sumZ f l = sumZ g l.
Proof.
  induction l as [|x l IH]; intros Hfg; [done|]. rewrite !sumZ_cons, (Hfg x) by by left.
  rewrite IH; [done|]. intros y Hy. apply Hfg. by right.
Qed.

Lemma sumZ_add {A} (f g : A → Z) l : sumZ (λ x, f x + g x) l = sumZ f l + sumZ g l.
Proof. induction l as [|x l IH]; [done|]. rewrite !sumZ_cons, IH. lia. Qed.

Lemma sumZ_bound {A} (f : A → Z) l b : (∀ x, x ∈ l → 0 ≤ f x ≤ b) → 0 ≤ sumZ f l ≤ Z.of_nat (length l) * b.
Proof.
  induction l as [|x l IH]; intros Hf; [done|]. rewrite sumZ_cons. cbn [length]. rewrite Nat2Z.inj_succ.
  pose proof (Hf x (list_elem_of_here _ _)). destruct IH; [intros y Hy; apply Hf; by right|]. lia.
Qed.

(** A loop over a list whose body returns [false] to stop it, the way a Go
    callback stops an iteration. *)
Fixpoint iter_while {A S} (f : A → S → S * bool) (l : list A) (s : S) : S :=
  match l with
  | [] => s
  | x :: l' => let '(s', go) := f x s in if go then iter_while f l' s' else s'
  end.

(** The loop [for _, x := range l { if p(x) { return x } }; return nil]. *)
Definition find_first {A} (p : A → bool) (l : list A) : option A := List.find p l.

Lemma find_first_Some {A} (p : A → bool) l x :
  find_first p l = Some x → x ∈ l ∧ p x = true.
Proof. intros [? ?]%List.find_some. by rewrite list_elem_of_In. Qed.

Lemma find_first_None {A} (p : A → bool) l :
  find_first p l = None ↔ ∀ x, x ∈ l → p x = false.
Proof.
  split.
  - intros H x Hx%list_elem_of_In. by apply (List.find_none _ _ H).
  - intros H. unfold find_first. destruct (List.find p l) eqn:E; [|done].
    apply find_first_Some in E as [? ?]. rewrite H in *; done.
Qed.


(** Bytes are decidable and countable. *)
#[export] Instance byte_eq_dec : EqDecision Byte.byte := Byte.byte_eq_dec.

#[export, refine] Instance byte_countable : Countable Byte.byte :=
  inj_countable Byte.to_N Byte.of_N _.
Proof. apply Byte.of_to_N. Defined.

Lemma StronglySorted_middle {A} (R : A → A → Prop) l1 x l2 :
  StronglySorted R (l1 ++ x :: l2) →
  Forall (λ y, R y x) l1 ∧ Forall (R x) l2.
Proof.
  induction l1 as [|y l1 IH]; simpl; intros H; inversion H as [|?? Hs Hf]; subst.
  { by split. }
  apply IH in Hs as [??]. split; [|done]. constructor; [|done].
  apply Forall_app in Hf as [_ Hf]. by inversion Hf.
Qed.

(** In a sorted list two elements are equal or ordered. *)
Lemma StronglySorted_trichotomy {A} (R : A → A → Prop) l x y :
  StronglySorted R l → x ∈ l → y ∈ l → x = y ∨ R x y ∨ R y x.
Proof.
  intros Hl (l1 & l2 & ->)%list_elem_of_split Hy.
  apply StronglySorted_middle in Hl as [H1 H2].
  rewrite list.Forall_forall in H1, H2.
  apply elem_of_app in Hy as [Hy|[->|Hy]%elem_of_cons]; eauto.
Qed.

Lemma StronglySorted_filter {A} (R : A → A → Prop) (P : A → Prop)
    `{!∀ x, Decision (P x)} l :
  StronglySorted R l → StronglySorted R (filter P l).
Proof.
  induction 1 as [|x l Hl IH Hx]; [constructor|].
  rewrite filter_cons. case_decide; [|done]. constructor; [done|].
  apply list.Forall_forall. intros y [_ Hy]%list_elem_of_filter.
  by eapply list.Forall_forall in Hx.
Qed.

Lemma StronglySorted_app_intro {A} (R : A → A → Prop) l1 l2 :
  StronglySorted R l1 → StronglySorted R l2 →
  (∀ x y, x ∈ l1 → y ∈ l2 → R x y) → StronglySorted R (l1 ++ l2).
Proof.
  intros H1 H2 H. induction H1 as [|x l Hl IH Hx]; simpl; [done|].
  constructor; [set_solver|]. apply Forall_app. split; [done|].
  apply list.Forall_forall. set_solver.
Qed.

Lemma StronglySorted_impl {A} (R R' : A → A → Prop) l :
  StronglySorted R l → (∀ x y, x ∈ l → y ∈ l → R x y → R' x y) →
  StronglySorted R' l.
Proof.
  induction 1 as [|x l Hl IH Hx]; intros H; constructor; [set_solver|].
  rewrite list.Forall_forall in *. set_solver.
Qed.

Lemma filter_ext_in {A} (P Q : A → Prop) `{!∀ x, Decision (P x), !∀ x, Decision (Q x)} (l : list A) :
  (∀ x, x ∈ l → P x ↔ Q x) → filter P l = filter Q l.
Proof.
  induction l as [|x l IH]; intros Hl; [done|]. rewrite !filter_cons.
  rewrite IH by set_solver. pose proof (Hl x) as Hx.
  repeat case_decide; try done; exfalso; set_solver.
Qed.

Lemma filter_all {A} (P : A → Prop) `{!∀ x, Decision (P x)} (l : list A) :
  (∀ x, x ∈ l → P x) → filter P l = l.
Proof.
  induction l as [|x l IH]; intros Hl; [done|]. rewrite filter_cons.
  rewrite decide_True by set_solver. rewrite IH; set_solver.
Qed.

Lemma filter_none {A} (P : A → Prop) `{!∀ x, Decision (P x)} (l : list A) :
  (∀ x, x ∈ l → ¬ P x) → filter P l = [].
Proof.
  induction l as [|x l IH]; intros Hl; [done|]. rewrite filter_cons.
  rewrite decide_False by set_solver. apply IH. set_solver.
Qed.

(** A callback that keeps the first item it sees. *)
Lemma iter_while_first {A} (l : list A) (s : option A) :
  iter_while (λ i _, (Some i, false)) l s = if l is x :: _ then Some x else s.
Proof. by destruct l. Qed.

(** A callback that collects items until a test fails, on a list sorted so
    that the test stays false once it is. *)
Lemma iter_while_collect {A} (R : A → A → Prop) (P : A → Prop)
    `{!∀ x, Decision (P x)} (stop : A → bool) (l acc : list A) :
  (∀ x, stop x = true ↔ ¬ P x) →
  (∀ x y, R x y → ¬ P x → ¬ P y) → StronglySorted R l →
  iter_while (λ i acc, if stop i then (acc, false) else (acc ++ [i], true)) l acc
  = acc ++ filter P l.
Proof.
  intros Hstop HR Hl. revert acc. induction Hl as [|x l Hl IH Hx]; intros acc; simpl.
  { by rewrite app_nil_r. }
  rewrite filter_cons. destruct (stop x) eqn:E.
  - apply Hstop in E. rewrite decide_False by done.
    rewrite filter_none; [by rewrite app_nil_r|].
    intros y Hy. rewrite list.Forall_forall in Hx. eauto.
  - rewrite decide_True; [by rewrite IH, <-app_assoc|].
    apply dec_stable. by rewrite <-Hstop, E.
Qed.

(** A callback that skips the items satisfying a test and keeps the next. *)
Lemma iter_while_skip {A} (P : A → Prop) `{!∀ x, Decision (P x)} (skip : A → bool) (l : list A) :
  (∀ x, skip x = true ↔ ¬ P x) →
  iter_while (λ i acc, if skip i then (acc, true) else (Some i, false)) l None
  = head (filter P l).
Proof.
  intros Hskip. induction l as [|x l IH]; [done|]. rewrite filter_cons. simpl.
  destruct (skip x) eqn:E.
  - apply Hskip in E. by rewrite decide_False.
  - rewrite decide_True; [done|]. apply dec_stable. by rewrite <-Hskip, E.
Qed.

(** A loop whose body can panic. *)
Fixpoint foldlM {A S} (f : S → A → option S) (s : S) (l : list A) : option S :=
  match l with
  | [] => Some s
  | x :: l' => s' ← f s x; foldlM f s' l'
  end.

Lemma foldlM_app {A S} (f : S → A → option S) s l1 l2 :
  foldlM f s (l1 ++ l2) = (s' ← foldlM f s l1; foldlM f s' l2).
Proof.
  revert s. induction l1 as [|x l1 IH]; intros s; simpl; [done|].
  destruct (f s x); simpl; [apply IH|done].
Qed.

(** A callback that appends to a slice until it has [limit] elements; it
    appends before it tests, so a limit of zero acts as one. *)
Lemma iter_while_limit {A B} (g : A → B) (limit : Z) (l : list A) (acc : list B) :
  iter_while (λ i acc, let acc := acc ++ [g i] in
                       (acc, Z.of_nat (length acc) <? limit)) l acc
  = acc ++ (g <$> take (Z.to_nat (Z.max 1 (limit - Z.of_nat (length acc)))) l).
Proof.
  revert acc. induction l as [|x l IH]; intros acc; simpl.
  { rewrite take_nil. by rewrite app_nil_r. }
  rewrite length_app; simpl. set (n := Z.of_nat (length acc)).
  replace (Z.of_nat (length acc + 1)) with (n + 1) by (unfold n; lia).
  destruct (Z.ltb_spec (n + 1) limit).
  - rewrite IH, <-app_assoc, length_app. simpl. f_equal. fold n.
    replace (Z.to_nat (Z.max 1 (limit - n)))
      with (S (Z.to_nat (Z.max 1 (limit - Z.of_nat (length acc + 1)))))
      by (unfold n in *; lia).
    done.
  - replace (Z.to_nat (Z.max 1 (limit - n))) with 1%nat by lia.
    done.
Qed.

(** Collecting the defined images of a function. *)
Lemma iter_while_omap {A B} (R : A → A → Prop) (P : A → Prop)
    `{!∀ x, Decision (P x)} (stop : A → bool) (g : A → option B) (l : list A) acc :
  (∀ x, stop x = true ↔ ¬ P x) →
  (∀ x y, x ∈ l → y ∈ l → R x y → ¬ P x → ¬ P y) → StronglySorted R l →
  iter_while (λ i acc, if stop i then (acc, false)
                       else (match g i with Some b => acc ++ [b] | None => acc end, true))
    l acc
  = acc ++ omap g (filter P l).
Proof.
  intros Hstop HR Hl. revert acc. induction Hl as [|x l Hl IH Hx]; intros acc; simpl.
  { by rewrite app_nil_r. }
  rewrite filter_cons. destruct (stop x) eqn:E.
  - apply Hstop in E. rewrite decide_False by done.
    rewrite filter_none; [by rewrite app_nil_r|].
    intros y Hy. rewrite list.Forall_forall in Hx.
    apply (HR x y); [set_solver..| |done]. auto.
  - rewrite decide_True by (apply dec_stable; by rewrite <-Hstop, E).
    rewrite IH by set_solver. simpl. destruct (g x); [|done]. by rewrite <-app_assoc.
Qed.

(** A map without duplicate images is injective on the list. *)
Lemma NoDup_fmap_inj {A B} (f : A → B) (l : list A) x y :
  NoDup (f <$> l) → x ∈ l → y ∈ l → f x = f y → x = y.
Proof.
  induction l as [|z l IH]; simpl; intros Hnd Hx Hy E; [by apply elem_of_nil in Hx|].
  apply NoDup_cons in Hnd as [Hz Hnd].
  apply elem_of_cons in Hx as [->|Hx]; apply elem_of_cons in Hy as [->|Hy]; [done|..|by apply IH];
    exfalso; apply Hz, list_elem_of_fmap; eauto.
Qed.

Lemma NoDup_fmap_filter {A B} (f : A → B) (P : A → Prop) `{!∀ x, Decision (P x)} (l : list A) :
  NoDup (f <$> l) → NoDup (f <$> filter P l).
Proof.
  induction l as [|x l IH]; simpl; [done|]. intros [Hx Hnd]%NoDup_cons.
  rewrite filter_cons. case_decide; [|by apply IH]. simpl. apply NoDup_cons. split; [|by apply IH].
  intros (y & E & [_ Hy]%list_elem_of_filter)%list_elem_of_fmap. apply Hx, list_elem_of_fmap. eauto.
Qed.

Lemma filter_fmap_comm {A B} (f : A → B) (P : A → Prop) (Q : B → Prop)
    `{!∀ x, Decision (P x), !∀ x, Decision (Q x)} (l : list A) :
  (∀ x, x ∈ l → P x ↔ Q (f x)) → f <$> filter P l = filter Q (f <$> l).
Proof.
  induction l as [|x l IH]; intros Hl; [done|]. rewrite fmap_cons, !filter_cons.
  rewrite <-IH by (intros y Hy; apply Hl; by right). pose proof (Hl x ltac:(left)).
  repeat case_decide; try done; exfalso; tauto.
Qed.
