(* ===== verification/GoBytes.v ===== *)
(** * Byte slices

    The functions of Go's [bytes] package the sources use on region keys,
    and the total order they define. *)

From S2P Require Import Prelude.
From Stdlib Require Import Orders OrdersTac.

Abbreviation bytes := (list Byte.byte).

Definition byte_val (b : Byte.byte) : Z := Z.of_N (Byte.to_N b).

(** [bytes.Compare]: lexicographic, -1, 0 or 1. *)
Fixpoint Compare (a b : bytes) : Z :=
  match a, b with
  | [], [] => 0
  | [], _ :: _ => -1
  | _ :: _, [] => 1
  | x :: a', y :: b' =>
      if byte_val x <? byte_val y then -1
      else if byte_val y <? byte_val x then 1
      else Compare a' b'
  end.

(** [bytes.Equal] and [bytes.HasPrefix]. *)
Definition Equal (a b : bytes) : bool := bool_decide (a = b).
Definition HasPrefix (s prefix : bytes) : bool :=
  Equal (take (length prefix) s) prefix.

(** ** The order of keys *)

Definition key_lt (a b : bytes) : Prop := Compare a b < 0.
Definition key_le (a b : bytes) : Prop := Compare a b ≤ 0.

#[export] Instance key_lt_dec : RelDecision key_lt := λ a b, Z_lt_dec _ _.
#[export] Instance key_le_dec : RelDecision key_le := λ a b, Z_le_dec _ _.

Declare Scope key_scope.
Delimit Scope key_scope with key.
Infix "<" := key_lt : key_scope.
Infix "≤" := key_le : key_scope.

Lemma byte_val_inj x y : byte_val x = byte_val y → x = y.
Proof.
  unfold byte_val. intros H%N2Z.inj.
  apply (f_equal Byte.of_N) in H. rewrite !Byte.of_to_N in H. by simplify_eq.
Qed.

Lemma byte_val_range x : 0 ≤ byte_val x < 256.
Proof. unfold byte_val. pose proof (Byte.to_N_bounded x). lia. Qed.

(** Splits the byte comparisons [Compare] is stuck on. *)
Ltac byte_cases :=
  repeat match goal with
  | |- context [?x <? ?y] => destruct (Z.ltb_spec x y)
  | H : context [?x <? ?y] |- _ => destruct (Z.ltb_spec x y)
  end.

Lemma Compare_refl a : Compare a a = 0.
Proof. induction a; simpl; [done|]. byte_cases; lia. Qed.

Lemma Compare_eq a b : Compare a b = 0 ↔ a = b.
Proof.
  split; [|intros ->; apply Compare_refl].
  revert b. induction a as [|x a IH]; intros [|y b]; simpl; try done.
  byte_cases; try done. intros ?%IH. f_equal; [|done].
  apply byte_val_inj. lia.
Qed.

Lemma Compare_antisym a b : Compare b a = - Compare a b.
Proof.
  revert b. induction a as [|x a IH]; intros [|y b]; simpl; try done.
  byte_cases; try lia. apply IH.
Qed.

Lemma Compare_trans_lt a b c : (a < b → b ≤ c → a < c)%key.
Proof.
  unfold key_lt, key_le. revert b c.
  induction a as [|x a IH]; intros [|y b] [|z c]; simpl; try lia.
  byte_cases; try lia. apply IH.
Qed.

Lemma key_lt_le a b : (a < b → a ≤ b)%key.
Proof. unfold key_lt, key_le. lia. Qed.

Lemma key_le_lt_iff a b : (a ≤ b)%key ↔ (a < b)%key ∨ a = b.
Proof. unfold key_lt, key_le. rewrite <-Compare_eq. lia. Qed.

(** ** The [key_order] tactic

    Decides linear-order goals over keys. *)

Module KeyTotalOrder <: TotalOrder.
Definition t := bytes.
Definition eq := @Logic.eq bytes.
Definition lt := key_lt.
Definition le := key_le.
Definition eq_equiv : Equivalence eq := eq_equivalence.
Lemma lt_strorder : StrictOrder lt.
Proof.
  split.
  - intros a. unfold complement, lt, key_lt. rewrite Compare_refl. lia.
  - intros a b c ??. eapply Compare_trans_lt; eauto using key_lt_le.
Qed.
Lemma lt_compat : Proper (eq ==> eq ==> iff) lt.
Proof. by intros ?? -> ?? ->. Qed.
Lemma le_lteq a b : le a b ↔ lt a b ∨ eq a b.
Proof. apply key_le_lt_iff. Qed.
Lemma lt_total a b : lt a b ∨ eq a b ∨ lt b a.
Proof.
  unfold lt, eq, key_lt. rewrite (Compare_antisym a b), <-Compare_eq. lia.
Qed.
End KeyTotalOrder.

Module KeyOrderTac := MakeOrderTac KeyTotalOrder KeyTotalOrder.

Ltac key_order :=
  change key_lt with KeyTotalOrder.lt in *;
  change key_le with KeyTotalOrder.le in *;
  change (@Logic.eq (list Byte.byte)) with KeyTotalOrder.eq in *;
  KeyOrderTac.order.

(** ** The comparisons the code writes, as order facts *)

Lemma key_nlt_le a b : ¬ (a < b)%key ↔ (b ≤ a)%key.
Proof. split; intros; [|intros ?]; key_order. Qed.

Lemma key_nle_lt a b : ¬ (a ≤ b)%key ↔ (b < a)%key.
Proof. split; intros; [|intros ?]; key_order. Qed.

Lemma Compare_ltb a b : (Compare a b <? 0) = bool_decide (a < b)%key.
Proof. unfold key_lt. by case_bool_decide; lia. Qed.

Lemma Compare_leb a b : (Compare a b <=? 0) = bool_decide (a ≤ b)%key.
Proof. unfold key_le. by case_bool_decide; lia. Qed.

Lemma Compare_geb a b : (0 <=? Compare a b) = bool_decide (b ≤ a)%key.
Proof.
  pose proof (Compare_antisym a b). unfold key_le. by case_bool_decide; lia.
Qed.

#[export] Hint Rewrite Compare_ltb Compare_leb Compare_geb : pd.

Lemma nil_key_le a : ([] ≤ a)%key.
Proof. unfold key_le. destruct a; simpl; lia. Qed.

Lemma Equal_true a b : Equal a b = true ↔ a = b.
Proof. unfold Equal. by rewrite bool_decide_eq_true. Qed.

#[export] Hint Resolve nil_key_le : pd.

Lemma key_ne_iff (a b : bytes) : a ≠ b ↔ (a < b)%key ∨ (b < a)%key.
Proof.
  split.
  - intros H. destruct (KeyTotalOrder.lt_total a b) as [?|[?|?]]; tauto.
  - intros [?|?] ->; key_order.
Qed.

(** The conversion [byte(z)]. *)
Definition byte_of_Z (z : Z) : Byte.byte :=
  default Byte.x00 (Byte.of_N (Z.to_N (z mod 256))).

Lemma byte_val_of_Z z : byte_val (byte_of_Z z) = z mod 256.
Proof.
  unfold byte_of_Z, byte_val. pose proof (Z.mod_pos_bound z 256).
  destruct (Byte.of_N _) as [b|] eqn:E; simpl.
  - apply Byte.to_of_N in E. rewrite E. lia.
  - apply Byte.of_N_None_iff in E. lia.
Qed.

Lemma byte_of_Z_val b : byte_of_Z (byte_val b) = b.
Proof.
  apply byte_val_inj. rewrite byte_val_of_Z. pose proof (byte_val_range b).
  by apply Z.mod_small.
Qed.
