(* ===== verification/BTree.v ===== *)
(** * The interface of github.com/google/btree

    The B-tree is a dependency of PD, not part of its sources: the operations
    the sources call are a class of operations over an abstract tree type, and
    what their documentation promises is a class of laws, stated on the
    ascending list of the items of a tree.  [SortedList] is an instance of both,
    so the laws are satisfiable. *)

From S2P Require Import Prelude.

(** ** Operations *)

(** A callback of type [ItemIterator] threads the variables it captures as a
    state [S] and returns whether the iteration goes on. *)
Class BTreeOps (Item T : Type) := {
  bt_New : nat → T;
  bt_Len : T → nat;
  bt_Get : T → Item → option Item;
  bt_ReplaceOrInsert : T → Item → T;
  bt_Delete : T → Item → T;
  bt_AscendGreaterOrEqual : ∀ {S}, T → Item → (Item → S → S * bool) → S → S;
  bt_DescendLessOrEqual : ∀ {S}, T → Item → (Item → S → S * bool) → S → S;
  bt_AscendRange : ∀ {S}, T → Item → Item → (Item → S → S * bool) → S → S;
}.

(** ** Laws *)

(** The order of an item type: [Item.Less] of the package, a strict weak
    order. *)
Class ItemLess (Item : Type) := Less : Item → Item → bool.

Class ItemLessLaws (Item : Type) `{!ItemLess Item} : Prop := {
  Less_irrefl x : Less x x = false;
  Less_trans x y z : Less x y = true → Less y z = true → Less x z = true;
  Less_weak x y z : Less x y = false → Less y z = false → Less x z = false;
}.

(** What an iteration visits, on the ascending list of items. *)
Section views.
Context `{!ItemLess Item}.
Definition items_ge (x : Item) (l : list Item) : list Item :=
  filter (λ y, Less y x = false) l.
Definition items_le (x : Item) (l : list Item) : list Item :=
  filter (λ y, Less x y = false) l.
Definition items_lt (x : Item) (l : list Item) : list Item :=
  filter (λ y, Less y x = true) l.
Definition items_gt (x : Item) (l : list Item) : list Item :=
  filter (λ y, Less x y = true) l.
Definition items_ne (x : Item) (l : list Item) : list Item :=
  filter (λ y, Less x y || Less y x = true) l.
Definition items_equiv (x y : Item) : bool := negb (Less x y) && negb (Less y x).
Definition ascending (l : list Item) : Prop :=
  StronglySorted (λ x y, Less x y = true) l.
End views.

(** [bt_ok] singles out the trees built by the operations, [bt_items] lists
    the items in ascending order. *)
Class BTreeLaws (Item T : Type) `{!ItemLess Item, !BTreeOps Item T} := {
  bt_ok : T → Prop;
  bt_items : T → list Item;
  bt_items_sorted t : bt_ok t → ascending (bt_items t);
  bt_New_ok d : bt_ok (bt_New d);
  bt_New_items d : bt_items (bt_New d) = [];
  bt_Len_items t : bt_ok t → bt_Len t = length (bt_items t);
  bt_Get_items t x :
    bt_ok t → bt_Get t x = find_first (items_equiv x) (bt_items t);
  bt_Insert_ok t x : bt_ok t → bt_ok (bt_ReplaceOrInsert t x);
  bt_Insert_items t x :
    bt_ok t →
    bt_items (bt_ReplaceOrInsert t x) =
      items_lt x (bt_items t) ++ x :: items_gt x (bt_items t);
  bt_Delete_ok t x : bt_ok t → bt_ok (bt_Delete t x);
  bt_Delete_items t x :
    bt_ok t → bt_items (bt_Delete t x) = items_ne x (bt_items t);
  bt_AscendGreaterOrEqual_items {S} t x (f : Item → S → S * bool) s :
    bt_ok t →
    bt_AscendGreaterOrEqual t x f s = iter_while f (items_ge x (bt_items t)) s;
  bt_DescendLessOrEqual_items {S} t x (f : Item → S → S * bool) s :
    bt_ok t →
    bt_DescendLessOrEqual t x f s =
      iter_while f (reverse (items_le x (bt_items t))) s;
  bt_AscendRange_items {S} t x y (f : Item → S → S * bool) s :
    bt_ok t →
    bt_AscendRange t x y f s =
      iter_while f (items_lt y (items_ge x (bt_items t))) s;
}.

#[export] Hint Resolve bt_New_ok bt_Insert_ok bt_Delete_ok : pd.

(** ** An instance: sorted lists *)

Module SortedList.
Section instance.
Context {Item : Type} `{!ItemLess Item, !ItemLessLaws Item}.

#[export] Instance ops : BTreeOps Item (list Item) := {
  bt_New _ := [];
  bt_Len := length;
  bt_Get t x := find_first (items_equiv x) t;
  bt_ReplaceOrInsert t x := items_lt x t ++ x :: items_gt x t;
  bt_Delete t x := items_ne x t;
  bt_AscendGreaterOrEqual S t x f s := iter_while f (items_ge x t) s;
  bt_DescendLessOrEqual S t x f s := iter_while f (reverse (items_le x t)) s;
  bt_AscendRange S t x y f s := iter_while f (items_lt y (items_ge x t)) s;
}.

#[export, refine] Instance laws : BTreeLaws Item (list Item) := {
  bt_ok := ascending;
  bt_items t := t;
}.
Proof.
all: try done.
- intros. constructor.
- intros t x Ht. apply StronglySorted_app_intro.
  + by apply StronglySorted_filter.
  + constructor; [by apply StronglySorted_filter|].
    apply list.Forall_forall. intros y [??]%list_elem_of_filter. done.
  + intros y z [??]%list_elem_of_filter [->|[??]%list_elem_of_filter]%elem_of_cons; [done|].
    eauto using Less_trans.
- intros t x Ht. by apply StronglySorted_filter.
Defined.
End instance.
End SortedList.
