(* ===== verification/Metapb.v ===== *)
(** * Protocol messages

    The messages of kvproto (packages [metapb] and [pdpb]) with the fields the
    modelled code reads.  A message pointer that may be nil is an [option], and
    the generated getters return the zero value on nil.  Identifiers, epochs and
    counters are [uint64] values, kept as [Z]. *)

From S2P Require Import Prelude GoBytes.

(** [metapb.Peer]. *)
Record Peer := mkPeer {
  Peer_Id : Z;
  Peer_StoreId : Z;
  Peer_IsLearner : bool;
}.

(** [metapb.RegionEpoch]. *)
Record RegionEpoch := mkRegionEpoch {
  ConfVer : Z;
  Version : Z;
}.

(** [metapb.Region]. *)
Record Region := mkRegion {
  Region_Id : Z;
  StartKey : bytes;
  EndKey : bytes;
  Epoch : option RegionEpoch;
  Peers : list Peer;
}.

(** [pdpb.PeerStats]. *)
Record PeerStats := mkPeerStats {
  PeerStats_Peer : option Peer;
  DownSeconds : Z;
}.

(** [pdpb.RegionHeartbeatRequest]. *)
Record RegionHeartbeatRequest := mkRegionHeartbeatRequest {
  hb_Region : option Region;
  hb_Leader : option Peer;
  hb_DownPeers : list PeerStats;
  hb_PendingPeers : list Peer;
  hb_BytesWritten : Z;
  hb_BytesRead : Z;
  hb_ApproximateSize : Z;
  hb_ApproximateKeys : Z;
}.

(** [metapb.StoreState], [metapb.StoreLabel] and [metapb.Store]. *)
Inductive StoreState := Up | Offline | Tombstone.

Record StoreLabel := mkStoreLabel {
  Label_Key : bytes;
  Label_Value : bytes;
}.

Record Store := mkStore {
  Store_Id : Z;
  Address : bytes;
  State : StoreState;
  Labels : list StoreLabel;
  Store_Version : bytes;
}.

(** [metapb.Cluster]. *)
Record ClusterMeta := mkClusterMeta {
  Cluster_Id : Z;
  MaxPeerCount : Z;
}.

(** [pdpb.TimeInterval] and [pdpb.StoreStats]. *)
Record TimeInterval := mkTimeInterval {
  StartTimestamp : Z;
  EndTimestamp : Z;
}.

Record StoreStats := mkStoreStats {
  Stats_StoreId : Z;
  Capacity : Z;
  Available : Z;
  UsedSize : Z;
  SendingSnapCount : Z;
  ReceivingSnapCount : Z;
  ApplyingSnapCount : Z;
  StartTime : Z;
  IsBusy : bool;
  BytesWritten : Z;
  BytesRead : Z;
  KeysWritten : Z;
  KeysRead : Z;
  Interval : option TimeInterval;
}.

(** [&pdpb.StoreStats{}], which is also what the getters read on nil. *)
Definition noStats : StoreStats := mkStoreStats 0 0 0 0 0 0 0 0 false 0 0 0 0 None.

#[export] Instance Peer_eq_dec : EqDecision Peer.
Proof. solve_decision. Defined.
#[export] Instance RegionEpoch_eq_dec : EqDecision RegionEpoch.
Proof. solve_decision. Defined.
#[export] Instance Region_eq_dec : EqDecision Region.
Proof. solve_decision. Defined.
#[export] Instance PeerStats_eq_dec : EqDecision PeerStats.
Proof. solve_decision. Defined.
#[export] Instance StoreState_eq_dec : EqDecision StoreState.
Proof. solve_decision. Defined.
#[export] Instance StoreLabel_eq_dec : EqDecision StoreLabel.
Proof. solve_decision. Defined.
#[export] Instance Store_eq_dec : EqDecision Store.
Proof. solve_decision. Defined.
#[export] Instance TimeInterval_eq_dec : EqDecision TimeInterval.
Proof. solve_decision. Defined.
#[export] Instance StoreStats_eq_dec : EqDecision StoreStats.
Proof. solve_decision. Defined.

(** ** Getters on a possibly nil message *)

Definition Peer_GetId (p : option Peer) : Z := from_option Peer_Id 0 p.
Definition Peer_GetStoreId (p : option Peer) : Z := from_option Peer_StoreId 0 p.
Definition Epoch_GetVersion (e : option RegionEpoch) : Z := from_option Version 0 e.
Definition Epoch_GetConfVer (e : option RegionEpoch) : Z := from_option ConfVer 0 e.
