(* ===== verification/Region.v ===== *)
(** * Region information (server/core/region.go, server/core/region_option.go)

    [RegionInfo] with its constructors, its accessors and the options that
    build it.  [classified] is the invariant the constructors establish: the
    voter and learner slices are the two halves of the peers of the meta. *)

From S2P Require Import Prelude GoBytes Metapb.

Record RegionInfo := mkRegionInfo {
  meta : Region;
  learners : list Peer;
  voters : list Peer;
  leader : option Peer;
  downPeers : list PeerStats;
  pendingPeers : list Peer;
  writtenBytes : Z;
  readBytes : Z;
  approximateSize : Z;
  approximateKeys : Z;
}.

#[export] Instance RegionInfo_eq_dec : EqDecision RegionInfo.
Proof. solve_decision. Defined.

(** A [RegionCreateOption] mutates the region under construction. *)
Definition RegionCreateOption := RegionInfo → RegionInfo.

(** The loop [for _, opt := range opts { opt(region) }]. *)
Definition apply_opts (opts : list RegionCreateOption) (r : RegionInfo) : RegionInfo :=
  foldl (λ r opt, opt r) r opts.

(** ** Field updates *)

Definition set_meta (m : Region) (r : RegionInfo) : RegionInfo :=
  mkRegionInfo m (learners r) (voters r) (leader r) (downPeers r)
    (pendingPeers r) (writtenBytes r) (readBytes r) (approximateSize r)
    (approximateKeys r).

Definition set_peers (ps : list Peer) (m : Region) : Region :=
  mkRegion (Region_Id m) (StartKey m) (EndKey m) (Epoch m) ps.

Definition set_epoch (e : option RegionEpoch) (m : Region) : Region :=
  mkRegion (Region_Id m) (StartKey m) (EndKey m) e (Peers m).

Definition set_roles (ls vs : list Peer) (r : RegionInfo) : RegionInfo :=
  mkRegionInfo (meta r) ls vs (leader r) (downPeers r) (pendingPeers r)
    (writtenBytes r) (readBytes r) (approximateSize r) (approximateKeys r).

(** ** Constructors *)

(** The loop appends each peer to one of two slices. *)
Definition classifyVoterAndLearner (region : RegionInfo) : RegionInfo :=
  let '(learners, voters) :=
    foldl (λ '(ls, vs) p,
      if Peer_IsLearner p then (ls ++ [p], vs) else (ls, vs ++ [p]))
      ([], []) (Peers (meta region)) in
  set_roles learners voters region.

Definition NewRegionInfo (region : Region) (leader : option Peer)
    (opts : list RegionCreateOption) : RegionInfo :=
  classifyVoterAndLearner
    (apply_opts opts (mkRegionInfo region [] [] leader [] [] 0 0 0 0)).

Definition EmptyRegionApproximateSize : Z := 1.

(** The heartbeat without a region dereferences nil in
    [classifyVoterAndLearner]. *)
Definition RegionFromHeartbeat (heartbeat : RegionHeartbeatRequest) : option RegionInfo :=
  let regionSize := hb_ApproximateSize heartbeat / 2 ^ 20 in
  let regionSize :=
    if regionSize <? EmptyRegionApproximateSize
    then EmptyRegionApproximateSize else regionSize in
  meta ← hb_Region heartbeat;
  Some (classifyVoterAndLearner
    (mkRegionInfo meta [] [] (hb_Leader heartbeat) (hb_DownPeers heartbeat)
      (hb_PendingPeers heartbeat) (hb_BytesWritten heartbeat)
      (hb_BytesRead heartbeat) (int64 regionSize)
      (int64 (hb_ApproximateKeys heartbeat)))).

(** [Clone] copies every message, so the options act on fresh values. *)
Definition Clone (r : RegionInfo) (opts : list RegionCreateOption) : RegionInfo :=
  classifyVoterAndLearner
    (apply_opts opts
      (mkRegionInfo (meta r) [] [] (leader r) (downPeers r) (pendingPeers r)
        (writtenBytes r) (readBytes r) (approximateSize r) (approximateKeys r))).

(** ** Accessors *)

Definition GetLearners (r : RegionInfo) : list Peer := learners r.
Definition GetVoters (r : RegionInfo) : list Peer := voters r.

Definition GetPeer (r : RegionInfo) (peerID : Z) : option Peer :=
  find_first (λ peer, Peer_Id peer =? peerID) (Peers (meta r)).

Fixpoint GetDownPeer_loop (downs : list PeerStats) (peerID : Z) : option Peer :=
  match downs with
  | [] => None
  | down :: downs' =>
      if Peer_GetId (PeerStats_Peer down) =? peerID then PeerStats_Peer down
      else GetDownPeer_loop downs' peerID
  end.

Definition GetDownPeer (r : RegionInfo) (peerID : Z) : option Peer :=
  GetDownPeer_loop (downPeers r) peerID.

(** The field access [.IsLearner] panics on a statistics entry without peer;
    the outer [option] is that panic. *)
Fixpoint GetDownRole_loop (learner : bool) (downs : list PeerStats) (peerID : Z)
    : option (option Peer) :=
  match downs with
  | [] => Some None
  | down :: downs' =>
      if Peer_GetId (PeerStats_Peer down) =? peerID then
        peer ← PeerStats_Peer down;
        if eqb (Peer_IsLearner peer) learner then Some (Some peer)
        else GetDownRole_loop learner downs' peerID
      else GetDownRole_loop learner downs' peerID
  end.

Definition GetDownVoter (r : RegionInfo) (peerID : Z) : option (option Peer) :=
  GetDownRole_loop false (downPeers r) peerID.

Definition GetDownLearner (r : RegionInfo) (peerID : Z) : option (option Peer) :=
  GetDownRole_loop true (downPeers r) peerID.

Definition GetPendingPeer (r : RegionInfo) (peerID : Z) : option Peer :=
  find_first (λ peer, Peer_Id peer =? peerID) (pendingPeers r).

Definition GetPendingVoter (r : RegionInfo) (peerID : Z) : option Peer :=
  find_first (λ peer, (Peer_Id peer =? peerID) && negb (Peer_IsLearner peer))
    (pendingPeers r).

Definition GetPendingLearner (r : RegionInfo) (peerID : Z) : option Peer :=
  find_first (λ peer, (Peer_Id peer =? peerID) && Peer_IsLearner peer)
    (pendingPeers r).

Definition GetStorePeer (r : RegionInfo) (storeID : Z) : option Peer :=
  find_first (λ peer, Peer_StoreId peer =? storeID) (Peers (meta r)).

Definition GetStoreVoter (r : RegionInfo) (storeID : Z) : option Peer :=
  find_first (λ peer, Peer_StoreId peer =? storeID) (voters r).

Definition GetStoreLearner (r : RegionInfo) (storeID : Z) : option Peer :=
  find_first (λ peer, Peer_StoreId peer =? storeID) (learners r).

Definition GetStoreIds (r : RegionInfo) : gset Z :=
  foldl (λ stores peer, {[Peer_StoreId peer]} ∪ stores) ∅ (Peers (meta r)).

(** The test [r.leader == nil || r.leader.GetId() != peer.GetId()]. *)
Definition is_follower (r : RegionInfo) (peer : Peer) : bool :=
  match leader r with
  | None => true
  | Some l => negb (Peer_Id l =? Peer_Id peer)
  end.

Definition GetFollowers (r : RegionInfo) : gmap Z Peer :=
  foldl (λ followers peer,
    if is_follower r peer then <[Peer_StoreId peer := peer]> followers
    else followers) ∅ (GetVoters r).

Definition GetFollower (r : RegionInfo) : option Peer :=
  find_first (is_follower r) (GetVoters r).

(** The order in which Go ranges over the two maps is unspecified; the model
    ranges in the order of [map_to_list]. *)
Definition GetDiffFollowers (r other : RegionInfo) : list Peer :=
  foldl (λ res p,
    let diff := negb (existsb (λ o, Peer_StoreId p =? Peer_StoreId o)
                        (map_to_list (GetFollowers other)).*2) in
    if diff then res ++ [p] else res) [] (map_to_list (GetFollowers r)).*2.

Definition GetID (r : RegionInfo) : Z := Region_Id (meta r).
Definition GetMeta (r : RegionInfo) : Region := meta r.
Definition GetApproximateSize (r : RegionInfo) : Z := approximateSize r.
Definition GetApproximateKeys (r : RegionInfo) : Z := approximateKeys r.
Definition GetDownPeers (r : RegionInfo) : list PeerStats := downPeers r.
Definition GetPendingPeers (r : RegionInfo) : list Peer := pendingPeers r.
Definition GetBytesRead (r : RegionInfo) : Z := readBytes r.
Definition GetBytesWritten (r : RegionInfo) : Z := writtenBytes r.
Definition GetLeader (r : RegionInfo) : option Peer := leader r.
Definition GetStartKey (r : RegionInfo) : bytes := StartKey (meta r).
Definition GetEndKey (r : RegionInfo) : bytes := EndKey (meta r).
Definition GetPeers (r : RegionInfo) : list Peer := Peers (meta r).
Definition GetRegionEpoch (r : RegionInfo) : option RegionEpoch := Epoch (meta r).

(** ** Selection options (region_option.go) *)

Definition RegionOption := RegionInfo → bool.

Definition HealthRegion : RegionOption := λ region,
  (length (downPeers region) =? 0)%nat && (length (pendingPeers region) =? 0)%nat
  && (length (learners region) =? 0)%nat.

Definition HealthRegionAllowPending : RegionOption := λ region,
  (length (downPeers region) =? 0)%nat && (length (learners region) =? 0)%nat.

(** ** Creation options (region_option.go) *)

Definition WithDownPeers (downs : list PeerStats) : RegionCreateOption := λ r,
  mkRegionInfo (meta r) (learners r) (voters r) (leader r) downs (pendingPeers r)
    (writtenBytes r) (readBytes r) (approximateSize r) (approximateKeys r).

Definition WithPendingPeers (pending : list Peer) : RegionCreateOption := λ r,
  mkRegionInfo (meta r) (learners r) (voters r) (leader r) (downPeers r) pending
    (writtenBytes r) (readBytes r) (approximateSize r) (approximateKeys r).

Definition WithLearners (ls : list Peer) : RegionCreateOption := λ r,
  set_roles ls (voters r) r.

Definition WithLeader (l : option Peer) : RegionCreateOption := λ r,
  mkRegionInfo (meta r) (learners r) (voters r) l (downPeers r) (pendingPeers r)
    (writtenBytes r) (readBytes r) (approximateSize r) (approximateKeys r).

Definition WithStartKey (key : bytes) : RegionCreateOption := λ r,
  let m := meta r in
  set_meta (mkRegion (Region_Id m) key (EndKey m) (Epoch m) (Peers m)) r.

Definition WithEndKey (key : bytes) : RegionCreateOption := λ r,
  let m := meta r in
  set_meta (mkRegion (Region_Id m) (StartKey m) key (Epoch m) (Peers m)) r.

Definition WithNewRegionID (id : Z) : RegionCreateOption := λ r,
  let m := meta r in
  set_meta (mkRegion id (StartKey m) (EndKey m) (Epoch m) (Peers m)) r.

Definition WithNewPeerIds (peerIds : list Z) : RegionCreateOption := λ r,
  if negb (length peerIds =? length (Peers (meta r)))%nat then r
  else
    set_meta (set_peers
      (zip_with (λ p id, mkPeer id (Peer_StoreId p) (Peer_IsLearner p))
         (Peers (meta r)) peerIds) (meta r)) r.

(** The four options that step one half of the epoch when there is one. *)
Definition map_epoch (f : RegionEpoch → RegionEpoch) : RegionCreateOption := λ r,
  set_meta (set_epoch (f <$> Epoch (meta r)) (meta r)) r.

Definition WithIncVersion : RegionCreateOption :=
  map_epoch (λ e, mkRegionEpoch (ConfVer e) (uint64 (Version e + 1))).
Definition WithDecVersion : RegionCreateOption :=
  map_epoch (λ e, mkRegionEpoch (ConfVer e) (uint64 (Version e - 1))).
Definition WithIncConfVer : RegionCreateOption :=
  map_epoch (λ e, mkRegionEpoch (uint64 (ConfVer e + 1)) (Version e)).
Definition WithDecConfVer : RegionCreateOption :=
  map_epoch (λ e, mkRegionEpoch (uint64 (ConfVer e - 1)) (Version e)).

Definition SetWrittenBytes (v : Z) : RegionCreateOption := λ r,
  mkRegionInfo (meta r) (learners r) (voters r) (leader r) (downPeers r)
    (pendingPeers r) v (readBytes r) (approximateSize r) (approximateKeys r).

Definition WithRemoveStorePeer (storeID : Z) : RegionCreateOption := λ r,
  set_meta (set_peers
    (foldl (λ peers peer,
       if negb (Peer_StoreId peer =? storeID) then peers ++ [peer] else peers)
       [] (Peers (meta r))) (meta r)) r.

Definition SetReadBytes (v : Z) : RegionCreateOption := λ r,
  mkRegionInfo (meta r) (learners r) (voters r) (leader r) (downPeers r)
    (pendingPeers r) (writtenBytes r) v (approximateSize r) (approximateKeys r).

Definition SetApproximateSize (v : Z) : RegionCreateOption := λ r,
  mkRegionInfo (meta r) (learners r) (voters r) (leader r) (downPeers r)
    (pendingPeers r) (writtenBytes r) (readBytes r) v (approximateKeys r).

Definition SetApproximateKeys (v : Z) : RegionCreateOption := λ r,
  mkRegionInfo (meta r) (learners r) (voters r) (leader r) (downPeers r)
    (pendingPeers r) (writtenBytes r) (readBytes r) (approximateSize r) v.

Definition SetRegionConfVer (confVer : Z) : RegionCreateOption := λ r,
  set_meta (set_epoch (Some
    (match Epoch (meta r) with
     | None => mkRegionEpoch confVer 1
     | Some e => mkRegionEpoch confVer (Version e)
     end)) (meta r)) r.

Definition SetRegionVersion (version : Z) : RegionCreateOption := λ r,
  set_meta (set_epoch (Some
    (match Epoch (meta r) with
     | None => mkRegionEpoch 1 version
     | Some e => mkRegionEpoch (ConfVer e) version
     end)) (meta r)) r.

Definition SetPeers (ps : list Peer) : RegionCreateOption := λ r,
  set_meta (set_peers ps (meta r)) r.

Definition WithAddPeer (peer : Peer) : RegionCreateOption := λ r,
  let r' := set_meta (set_peers (Peers (meta r) ++ [peer]) (meta r)) r in
  if Peer_IsLearner peer then set_roles (learners r ++ [peer]) (voters r) r'
  else set_roles (learners r) (voters r ++ [peer]) r'.

Definition WithPromoteLearner (peerID : Z) : RegionCreateOption := λ r,
  set_meta (set_peers
    (map (λ p, if Peer_Id p =? peerID
               then mkPeer (Peer_Id p) (Peer_StoreId p) false else p)
       (Peers (meta r))) (meta r)) r.

(** ** The classification invariant *)

Record classified (r : RegionInfo) : Prop := {
  classified_learners : learners r = filter (λ p, Peer_IsLearner p = true) (Peers (meta r));
  classified_voters : voters r = filter (λ p, Peer_IsLearner p = false) (Peers (meta r));
}.

Lemma classify_loop ps ls vs :
  foldl (λ '(ls, vs) p,
      if Peer_IsLearner p then (ls ++ [p], vs) else (ls, vs ++ [p])) (ls, vs) ps
  = (ls ++ filter (λ p, Peer_IsLearner p = true) ps,
     vs ++ filter (λ p, Peer_IsLearner p = false) ps).
Proof.
  revert ls vs. induction ps as [|p ps IH]; intros ls vs; simpl.
  { by rewrite !app_nil_r. }
  rewrite !filter_cons. destruct (Peer_IsLearner p) eqn:Hp; rewrite IH; simpl;
    by rewrite <-app_assoc.
Qed.

Lemma classifyVoterAndLearner_eq r :
  classifyVoterAndLearner r =
    set_roles (filter (λ p, Peer_IsLearner p = true) (Peers (meta r)))
      (filter (λ p, Peer_IsLearner p = false) (Peers (meta r))) r.
Proof. unfold classifyVoterAndLearner. by rewrite classify_loop. Qed.

Lemma classify_classified r : classified (classifyVoterAndLearner r).
Proof. by rewrite classifyVoterAndLearner_eq. Qed.

Lemma NewRegionInfo_classified m l opts : classified (NewRegionInfo m l opts).
Proof. apply classify_classified. Qed.

Lemma Clone_classified r opts : classified (Clone r opts).
Proof. apply classify_classified. Qed.

Lemma RegionFromHeartbeat_classified hb r :
  RegionFromHeartbeat hb = Some r → classified r.
Proof.
  unfold RegionFromHeartbeat. intros H.
  apply bind_Some in H as (m & _ & [= <-]). apply classify_classified.
Qed.

#[export] Hint Resolve classify_classified NewRegionInfo_classified
  Clone_classified RegionFromHeartbeat_classified : pd.

Lemma classified_voter r p :
  classified r → p ∈ voters r ↔ p ∈ Peers (meta r) ∧ Peer_IsLearner p = false.
Proof. intros [_ ->]. rewrite list_elem_of_filter. tauto. Qed.

Lemma classified_learner r p :
  classified r → p ∈ learners r ↔ p ∈ Peers (meta r) ∧ Peer_IsLearner p = true.
Proof. intros [-> _]. rewrite list_elem_of_filter. tauto. Qed.

Lemma Clone_nil r : classified r → Clone r [] = r.
Proof.
  intros [Hl Hv]. unfold Clone. rewrite classifyVoterAndLearner_eq. simpl.
  destruct r; unfold set_roles; simpl in *. by rewrite Hl, Hv.
Qed.

(** ** Theorems *)

(** C23: whatever the options, a region built by [NewRegionInfo], by [Clone] or
    from a heartbeat has as voters and learners the two halves of the peers of
    its meta, and cloning such a region without options is the identity. *)
Theorem constructors_classify m l opts r hb r' :
  RegionFromHeartbeat hb = Some r' →
  classified (NewRegionInfo m l opts) ∧ classified (Clone r opts) ∧ classified r' ∧
  Clone r' [] = r' ∧ voters r' ++ learners r' ≡ₚ Peers (meta r').
Proof.
  intros H. pose proof (RegionFromHeartbeat_classified _ _ H) as Hc.
  split_and!; auto with pd; [by apply Clone_nil|].
  destruct Hc as [-> ->]. generalize (Peers (meta r')) as ps. induction ps as [|p ps IH]; [done|].
  rewrite !filter_cons. destruct (Peer_IsLearner p) eqn:E; simpl.
  - by rewrite <-Permutation_middle, IH.
  - by rewrite IH.
Qed.

(** The approximate size of a region built from a heartbeat is at least
    one megabyte and below [2^44], and is the reported size in megabytes when
    that is at least one; the conversion to [int64] loses nothing. *)
Theorem heartbeat_size_bounds hb r :
  0 ≤ hb_ApproximateSize hb < 2 ^ 64 → RegionFromHeartbeat hb = Some r →
  1 ≤ approximateSize r < 2 ^ 44 ∧
  approximateSize r = Z.max 1 (hb_ApproximateSize hb / 2 ^ 20).
Proof.
  unfold RegionFromHeartbeat. intros Hs H. apply bind_Some in H as (m & _ & [= <-]).
  rewrite classifyVoterAndLearner_eq. unfold EmptyRegionApproximateSize.
  cbn [approximateSize set_roles].
  assert (0 ≤ hb_ApproximateSize hb / 2 ^ 20 < 2 ^ 44).
  { split; [apply Z.div_pos; lia|]. apply Z.div_lt_upper_bound; lia. }
  generalize dependent (hb_ApproximateSize hb / 2 ^ 20). intros n Hn.
  destruct (Z.ltb_spec n 1); rewrite int64_small by lia; lia.
Qed.

Module RegionDemo.
Definition hb : RegionHeartbeatRequest :=
  mkRegionHeartbeatRequest
    (Some (mkRegion 7 [] [] None [mkPeer 1 1 true; mkPeer 2 2 false]))
    None [] [] 0 0 (96 * 2 ^ 20) 5.
Definition r : RegionInfo :=
  NewRegionInfo (mkRegion 7 [] [] None [mkPeer 1 1 true; mkPeer 2 2 false]) None
    [SetApproximateSize 96; SetApproximateKeys 5].

Lemma constructors_classify_witness :
  RegionFromHeartbeat hb = Some r ∧ voters r ++ learners r ≡ₚ Peers (meta r).
Proof.
  split; [vm_compute; reflexivity|].
  apply (constructors_classify (meta r) None [] r hb r). vm_compute. reflexivity.
Defined.

Lemma heartbeat_size_bounds_witness :
  RegionFromHeartbeat hb = Some r ∧ approximateSize r = Z.max 1 (hb_ApproximateSize hb / 2 ^ 20).
Proof.
  split; [vm_compute; reflexivity|].
  apply (heartbeat_size_bounds hb r); [|vm_compute; reflexivity].
  split; [vm_compute; discriminate|vm_compute; reflexivity].
Defined.
End RegionDemo.
