(* ===== verification/RegionTree.v ===== *)
(** * The region tree (server/core/region_tree.go)

    The tree indexes the metas of the known regions by start key.  The B-tree
    under it is the interface [BTree]; the properties say that the tree holds
    pairwise disjoint key ranges and that its operations are the expected
    functions of the set of ranges. *)

From S2P Require Import Prelude GoBytes BTree Metapb.

(** [regionItem] wraps a region; the model uses the region itself. *)
#[export] Instance regionItem_Less : ItemLess Region := λ r other,
  Compare (StartKey r) (StartKey other) <? 0.

Definition Contains (r : Region) (key : bytes) : bool :=
  let start := StartKey r in
  let end_ := EndKey r in
  (0 <=? Compare key start)
  && ((length end_ =? 0)%nat || (Compare key end_ <? 0)).

Definition defaultBTreeDegree : nat := 64.

(** The probe [&metapb.Region{StartKey: key}]. *)
Definition probe (key : bytes) : Region := mkRegion 0 key [] None [].

Section tree.
Context {T : Type} `{!BTreeOps Region T}.

Definition newRegionTree : T := bt_New defaultBTreeDegree.

Definition tree_length (t : T) : nat := bt_Len t.

Definition find (t : T) (region : Region) : option Region :=
  let result :=
    bt_DescendLessOrEqual t region (λ i _, (Some i, false)) None in
  match result with
  | None => None
  | Some r => if Contains r (StartKey region) then Some r else None
  end.

Definition getOverlaps (t : T) (region : Region) : list Region :=
  let result := default region (find t region) in
  bt_AscendGreaterOrEqual t result (λ over overlaps,
    if (0 <? length (EndKey region))%nat
       && (Compare (EndKey region) (StartKey over) <=? 0)
    then (overlaps, false)
    else (overlaps ++ [over], true)) [].

Definition update (t : T) (region : Region) : T * list Region :=
  let overlaps := getOverlaps t region in
  let t := foldl bt_Delete t overlaps in
  (bt_ReplaceOrInsert t region, overlaps).

Definition remove (t : T) (region : Region) : T :=
  match find t region with
  | None => t
  | Some result =>
      if negb (Region_Id result =? Region_Id region) then t
      else bt_Delete t result
  end.

Definition search (t : T) (regionKey : bytes) : option Region :=
  find t (probe regionKey).

Definition getAdjacentRegions (t : T) (region : Region)
    : option Region * option Region :=
  let item := probe (StartKey region) in
  let next := bt_AscendGreaterOrEqual t item (λ i next,
    if Equal (StartKey item) (StartKey i) then (next, true)
    else (Some i, false)) None in
  let prev := bt_DescendLessOrEqual t item (λ i prev,
    if Equal (StartKey item) (StartKey i) then (prev, true)
    else (Some i, false)) None in
  (prev, next).

Definition searchPrev (t : T) (regionKey : bytes) : option Region :=
  match find t (probe regionKey) with
  | None => None
  | Some curRegionItem =>
      match fst (getAdjacentRegions t curRegionItem) with
      | None => None
      | Some prevRegionItem =>
          if negb (Equal (EndKey prevRegionItem) (StartKey curRegionItem))
          then None else Some prevRegionItem
      end
  end.

Definition scanRange {S} (t : T) (startKey : bytes)
    (f : Region → S → S * bool) (s : S) : S :=
  bt_AscendGreaterOrEqual t (probe startKey) f s.
End tree.

(** ** Key ranges *)

(** [k] lies in the range of [r]; an empty end key is unbounded. *)
Definition in_range (r : Region) (k : bytes) : Prop :=
  (StartKey r ≤ k)%key ∧ (EndKey r = [] ∨ (k < EndKey r)%key).

(** The range is not empty. *)
Definition valid_range (r : Region) : Prop :=
  EndKey r = [] ∨ (StartKey r < EndKey r)%key.

(** The two ranges intersect. *)
Definition overlap (a b : Region) : Prop :=
  (EndKey a = [] ∨ (StartKey b < EndKey a)%key)
  ∧ (EndKey b = [] ∨ (StartKey a < EndKey b)%key).

(** [a] ends at or before the start of [b]. *)
Definition before (a b : Region) : Prop :=
  EndKey a ≠ [] ∧ (EndKey a ≤ StartKey b)%key.

#[export] Instance in_range_dec r k : Decision (in_range r k).
Proof. unfold in_range. apply _. Defined.
#[export] Instance valid_range_dec r : Decision (valid_range r).
Proof. unfold valid_range. apply _. Defined.
#[export] Instance overlap_dec : RelDecision overlap.
Proof. intros a b. unfold overlap. apply _. Defined.

Lemma Contains_true r k : Contains r k = true ↔ in_range r k.
Proof.
  unfold Contains, in_range. rewrite andb_true_iff, orb_true_iff.
  rewrite Compare_geb, Compare_ltb, !bool_decide_eq_true, Nat.eqb_eq.
  by rewrite length_zero_iff_nil.
Qed.

Lemma Less_spec a b : Less a b = bool_decide (StartKey a < StartKey b)%key.
Proof. apply Compare_ltb. Qed.

Lemma Less_true a b : Less a b = true ↔ (StartKey a < StartKey b)%key.
Proof. by rewrite Less_spec, bool_decide_eq_true. Qed.

Lemma Less_false a b : Less a b = false ↔ (StartKey b ≤ StartKey a)%key.
Proof. by rewrite Less_spec, bool_decide_eq_false, key_nlt_le. Qed.

#[export] Instance regionItem_LessLaws : ItemLessLaws Region.
Proof.
  split; intros *; rewrite ?Less_true, ?Less_false; intros; key_order.
Qed.

(** Two ranges overlap when they share a key, for non-empty ranges. *)
Lemma overlap_shared a b :
  valid_range a → valid_range b →
  overlap a b ↔ ∃ k, in_range a k ∧ in_range b k.
Proof.
  unfold valid_range, overlap, in_range. intros Ha Hb. split.
  - intros [H1 H2]. destruct (decide (StartKey a ≤ StartKey b)%key).
    + exists (StartKey b). repeat split; try key_order; naive_solver.
    + exists (StartKey a). rewrite key_nle_lt in *.
      repeat split; try key_order; naive_solver.
  - intros (k & [??] & [??]). split; [destruct H0|destruct H2]; eauto;
      right; key_order.
Qed.

Lemma overlap_sym a b : overlap a b → overlap b a.
Proof. unfold overlap. tauto. Qed.

Lemma not_overlap a b :
  ¬ overlap a b ↔ before a b ∨ before b a.
Proof.
  unfold overlap, before. split.
  - intros H. destruct (decide (EndKey a ≠ [] ∧ (EndKey a ≤ StartKey b)%key)) as [|Ha];
      [by left|]. right.
    apply dec_stable. intros Hb. apply H. split; apply dec_stable; intros Hc.
    + apply Ha. apply Decidable.not_or in Hc as [? Hc]. by rewrite key_nlt_le in Hc.
    + apply Hb. apply Decidable.not_or in Hc as [? Hc]. by rewrite key_nlt_le in Hc.
  - intros [[??]|[??]] [[?|?] [?|?]]; try done; key_order.
Qed.

(** ** Correctness *)

Section correctness.
Context {T : Type} `{!BTreeOps Region T, !BTreeLaws Region T}.
Implicit Types t : T.

(** The invariant: the ranges of the tree are non-empty, sorted and pairwise
    disjoint. *)
Record tree_wf t : Prop := {
  tree_ok : bt_ok t;
  tree_valid : Forall valid_range (bt_items t);
  tree_before : StronglySorted before (bt_items t);
}.

Lemma tree_item_valid t x : tree_wf t → x ∈ bt_items t → valid_range x.
Proof. intros [_ H _]. rewrite list.Forall_forall in H. auto. Qed.

Lemma tree_items_cases t x y :
  tree_wf t → x ∈ bt_items t → y ∈ bt_items t → x = y ∨ before x y ∨ before y x.
Proof. intros []. by apply StronglySorted_trichotomy. Qed.

(** A key lies in the range of at most one item. *)
Lemma tree_in_range_unique t x y k :
  tree_wf t → x ∈ bt_items t → y ∈ bt_items t →
  in_range x k → in_range y k → x = y.
Proof.
  intros Ht Hx Hy [? H1] [? H2].
  destruct (tree_items_cases t x y) as [|[[??]|[??]]]; try done.
  - destruct H1; [done|]. key_order.
  - destruct H2; [done|]. key_order.
Qed.

Lemma valid_in_range x : valid_range x → in_range x (StartKey x).
Proof. unfold valid_range, in_range. intros. split; [key_order|done]. Qed.

Lemma tree_start_unique t x y :
  tree_wf t → x ∈ bt_items t → y ∈ bt_items t → StartKey x = StartKey y → x = y.
Proof.
  intros Ht Hx Hy Hk. eapply tree_in_range_unique; eauto using valid_in_range, tree_item_valid.
  rewrite <-Hk || rewrite Hk. eauto using valid_in_range, tree_item_valid.
Qed.

Lemma newRegionTree_wf : tree_wf newRegionTree.
Proof.
  unfold newRegionTree.
  split; rewrite ?bt_New_items; auto with pd; constructor.
Qed.

(** *** find *)

Lemma find_spec t r x :
  tree_wf t →
  find t r = Some x ↔ x ∈ bt_items t ∧ in_range x (StartKey r).
Proof.
  intros Ht. unfold find. rewrite bt_DescendLessOrEqual_items by apply Ht.
  rewrite iter_while_first. split.
  - destruct (reverse _) as [|y l] eqn:E; [done|].
    destruct (Contains y _) eqn:Hc; [|done]. intros [= <-].
    split; [|by apply Contains_true].
    assert (y ∈ reverse (items_le r (bt_items t))) as Hy by (rewrite E; left).
    rewrite elem_of_reverse in Hy. by apply list_elem_of_filter in Hy as [_ Hy].
  - intros [Hx Hr]. apply list_elem_of_split in Hx as (l1 & l2 & E).
    assert (reverse (items_le r (bt_items t)) = x :: reverse (items_le r l1)) as ->.
    { unfold items_le. rewrite E, filter_app, filter_cons.
      rewrite decide_True by (apply Less_false; apply Hr).
      rewrite (filter_none _ l2), reverse_app; [done|].
      intros y Hy. rewrite Less_false, key_nle_lt.
      pose proof (tree_before _ Ht) as Hs. rewrite E in Hs.
      apply StronglySorted_middle in Hs as [_ Hs].
      rewrite list.Forall_forall in Hs. destruct (Hs y Hy), Hr as [_ [?|?]]; [done|].
      key_order. }
    by rewrite (proj2 (Contains_true _ _) Hr).
Qed.

Lemma find_None t r :
  tree_wf t →
  find t r = None ↔ ∀ x, x ∈ bt_items t → ¬ in_range x (StartKey r).
Proof.
  intros Ht. split.
  - intros Hn x Hx Hr. assert (find t r = Some x) by by apply find_spec. congruence.
  - intros Hx. destruct (find t r) as [x|] eqn:E; [|done].
    apply find_spec in E as [??]; naive_solver.
Qed.

(** *** getOverlaps *)

Lemma overlap_left t r y :
  tree_wf t → y ∈ bt_items t →
  (StartKey (default r (find t r)) ≤ StartKey y)%key ↔
  EndKey y = [] ∨ (StartKey r < EndKey y)%key.
Proof.
  intros Ht Hy. pose proof (tree_item_valid _ _ Ht Hy) as Hv.
  destruct (find t r) as [x|] eqn:E; simpl.
  - apply find_spec in E as [Hx [Hr1 Hr2]]; [|done].
    destruct (tree_items_cases t x y) as [->|[[??]|[??]]]; try done.
    + split; [done|]. intros. key_order.
    + destruct Hr2 as [?|?]; [done|]. destruct Hv as [?|?].
      * split; [by left|]. intros; key_order.
      * split; [right; key_order|]. intros; key_order.
    + assert (StartKey y < StartKey x)%key.
      { destruct Hv; [done|]. key_order. }
      split; [intros; key_order|]. intros [?|?]; [done|]. key_order.
  - rewrite find_None in E by done. split.
    + intros. destruct Hv; [by left|]. right. key_order.
    + intros Hk. apply dec_stable. intros Hn%key_nle_lt.
      apply (E y Hy). split; [key_order|done].
Qed.

(** [getOverlaps] returns the items that overlap the region, in key order. *)
Lemma getOverlaps_spec t r :
  tree_wf t → getOverlaps t r = filter (overlap r) (bt_items t).
Proof.
  intros Ht. unfold getOverlaps. rewrite bt_AscendGreaterOrEqual_items by apply Ht.
  rewrite (iter_while_collect (λ x y, Less x y = true)
    (λ y, EndKey r = [] ∨ (StartKey y < EndKey r)%key)).
  - simpl. unfold items_ge. rewrite list_filter_filter. apply filter_ext_in.
    intros y Hy. rewrite Less_false, overlap_left by done. unfold overlap. tauto.
  - intros x. rewrite andb_true_iff, Compare_leb, bool_decide_eq_true, Nat.ltb_lt.
    rewrite <-key_nlt_le. destruct (EndKey r); simpl; naive_solver lia.
  - intros x y Hxy%Less_true Hx Hy. apply Hx.
    destruct Hy as [?|?]; [by left|]. right. key_order.
  - by apply StronglySorted_filter, bt_items_sorted, tree_ok.
Qed.

(** *** update *)

Lemma foldl_Delete_items l t :
  bt_ok t →
  bt_ok (foldl bt_Delete t l) ∧
  bt_items (foldl bt_Delete t l) =
    filter (λ y, Forall (λ x, StartKey x ≠ StartKey y) l) (bt_items t).
Proof.
  revert t. induction l as [|x l IH]; intros t Ht; simpl.
  { split; [done|]. symmetry. apply filter_all. by constructor. }
  destruct (IH (bt_Delete t x)) as [? ->]; [auto with pd|]. split; [done|].
  rewrite bt_Delete_items by done. unfold items_ne. rewrite list_filter_filter.
  apply filter_ext_in. intros y _.
  assert (Less x y || Less y x = true ↔ StartKey x ≠ StartKey y) as ->.
  { by rewrite orb_true_iff, !Less_true, key_ne_iff. }
  rewrite Forall_cons. tauto.
Qed.

Lemma valid_not_before_self r : valid_range r → ¬ before r r.
Proof. intros [?|?] [??]; [done|]. key_order. Qed.

Lemma before_start x y : valid_range x → before x y → (StartKey x < StartKey y)%key.
Proof. intros [?|?] [??]; [done|]. key_order. Qed.

(** The items after [update]: those that lie before the region, the region,
    those that lie after it. *)
Lemma update_items t r :
  tree_wf t → valid_range r →
  bt_ok (update t r).1 ∧
  bt_items (update t r).1 =
    filter (λ y, before y r) (bt_items t) ++ r :: filter (before r) (bt_items t).
Proof.
  intros Ht Hr. unfold update; simpl. rewrite getOverlaps_spec by done.
  destruct (foldl_Delete_items (filter (overlap r) (bt_items t)) t) as [Hok Hit];
    [apply Ht|].
  split; [auto with pd|]. rewrite bt_Insert_items, Hit by done.
  unfold items_lt, items_gt. rewrite !list_filter_filter.
  assert (∀ y, y ∈ bt_items t →
    Forall (λ x, StartKey x ≠ StartKey y) (filter (overlap r) (bt_items t)) ↔
    before r y ∨ before y r) as Hne.
  { intros y Hy. rewrite <-not_overlap, list.Forall_forall. split.
    - intros Hx Ho. by apply (Hx y); [apply list_elem_of_filter|].
    - intros Hno x [Ho Hx]%list_elem_of_filter Hk.
      by rewrite (tree_start_unique t x y) in Ho by done. }
  f_equal; [|f_equal]; apply filter_ext_in; intros y Hy;
    rewrite Hne, Less_true by done;
    pose proof (tree_item_valid _ _ Ht Hy) as Hv; split.
  - intros [? [?%before_start|?]]; try done. key_order.
  - intros ?. split; [by apply before_start|by right].
  - intros [? [?|?%before_start]]; try done. key_order.
  - intros ?. split; [by apply before_start|by left].
Qed.

Lemma update_elem t r x :
  tree_wf t → valid_range r →
  x ∈ bt_items (update t r).1 ↔ x = r ∨ (x ∈ bt_items t ∧ ¬ overlap r x).
Proof.
  intros Ht Hr. destruct (update_items t r) as [_ ->]; [done..|].
  rewrite elem_of_app, elem_of_cons, !list_elem_of_filter, not_overlap. tauto.
Qed.

Lemma before_trans x y z : valid_range y → before x y → before y z → before x z.
Proof. intros Hv [??] [??]. destruct Hv; [done|]. split; [done|]. key_order. Qed.

Lemma update_wf t r : tree_wf t → valid_range r → tree_wf (update t r).1.
Proof.
  intros Ht Hr. destruct (update_items t r) as [Hok Hit]; [done..|].
  split; [done|..]; rewrite Hit.
  - apply list.Forall_forall. intros x Hx.
    apply elem_of_app in Hx as [Hx|[->|Hx]%elem_of_cons]; [|done|];
      apply list_elem_of_filter in Hx as [_ Hx]; eauto using tree_item_valid.
  - apply StronglySorted_app_intro.
    + apply StronglySorted_filter, Ht.
    + constructor; [apply StronglySorted_filter, Ht|].
      apply list.Forall_forall. by intros y [??]%list_elem_of_filter.
    + intros x y [??]%list_elem_of_filter [->|[??]%list_elem_of_filter]%elem_of_cons;
        [done|]. eauto using before_trans.
Qed.

Lemma update_overlaps t r : tree_wf t → (update t r).2 = filter (overlap r) (bt_items t).
Proof. apply getOverlaps_spec. Qed.

(** *** remove *)

Lemma Delete_items_ne t x :
  tree_wf t → x ∈ bt_items t →
  bt_items (bt_Delete t x) = filter (.≠ x) (bt_items t).
Proof.
  intros Ht Hx. rewrite bt_Delete_items by apply Ht. apply filter_ext_in.
  intros y Hy. rewrite orb_true_iff, !Less_true, <-key_ne_iff. split.
  - by intros ? ->.
  - intros Hn Hk. by apply Hn, (tree_start_unique t).
Qed.

Lemma filter_ne_wf t t' x :
  tree_wf t → bt_ok t' → bt_items t' = filter (.≠ x) (bt_items t) → tree_wf t'.
Proof.
  intros [? Hv Hb] ? E. split; [done|..]; rewrite E.
  - rewrite list.Forall_forall in *. intros y [_ ?]%list_elem_of_filter. auto.
  - by apply StronglySorted_filter.
Qed.

(** [remove] deletes the item that holds the start key of the region when it
    has the id of the region, and does nothing otherwise. *)
Lemma remove_in t r x :
  tree_wf t → x ∈ bt_items t → in_range x (StartKey r) → Region_Id x = Region_Id r →
  tree_wf (remove t r) ∧ bt_items (remove t r) = filter (.≠ x) (bt_items t).
Proof.
  intros Ht Hx Hr Hid. unfold remove. rewrite (proj2 (find_spec t r x Ht)) by done.
  rewrite Hid, Z.eqb_refl. simpl. pose proof (Delete_items_ne t x Ht Hx).
  split; [|done]. eapply filter_ne_wf; [done| |done]. apply bt_Delete_ok, Ht.
Qed.

Lemma remove_noop t r :
  tree_wf t →
  (∀ x, x ∈ bt_items t → in_range x (StartKey r) → Region_Id x ≠ Region_Id r) →
  remove t r = t.
Proof.
  intros Ht Hn. unfold remove. destruct (find t r) as [x|] eqn:E; [|done].
  apply find_spec in E as [??]; [|done].
  rewrite (proj2 (Z.eqb_neq _ _)) by eauto. done.
Qed.

Lemma remove_wf t r : tree_wf t → tree_wf (remove t r).
Proof.
  intros Ht. destruct (find t r) as [x|] eqn:E.
  - pose proof (proj1 (find_spec t r x Ht) E) as [??].
    destruct (decide (Region_Id x = Region_Id r)).
    + by eapply remove_in.
    + unfold remove. rewrite E, (proj2 (Z.eqb_neq _ _)) by done. done.
  - unfold remove. by rewrite E.
Qed.

(** *** search and scan *)

Lemma search_Some t k r :
  tree_wf t → search t k = Some r ↔ r ∈ bt_items t ∧ in_range r k.
Proof. intros Ht. unfold search. by rewrite find_spec. Qed.

Lemma getAdjacentRegions_spec t r :
  tree_wf t →
  getAdjacentRegions t r =
    (head (reverse (filter (λ y, StartKey y < StartKey r)%key (bt_items t))),
     head (filter (λ y, StartKey r < StartKey y)%key (bt_items t))).
Proof.
  intros Ht. unfold getAdjacentRegions.
  rewrite bt_AscendGreaterOrEqual_items, bt_DescendLessOrEqual_items by apply Ht.
  rewrite !(iter_while_skip (λ i, StartKey r ≠ StartKey i))
    by (intros; rewrite Equal_true; simpl; split; [tauto|apply dec_stable]).
  f_equal; f_equal; [rewrite filter_reverse; f_equal|];
    unfold items_le, items_ge; rewrite list_filter_filter; apply filter_ext_in;
    intros y Hy; rewrite Less_false; simpl;
    (split; [intros [??]|intros ?; split]; key_order).
Qed.

(** The last item that starts before [cur]. *)
Lemma last_before t cur p :
  tree_wf t → cur ∈ bt_items t → EndKey p = StartKey cur →
  head (reverse (filter (λ y, StartKey y < StartKey cur)%key (bt_items t))) = Some p
  ↔ p ∈ bt_items t ∧ before p cur.
Proof.
  intros Ht Hcur Hk. split.
  - intros Hh%head_Some_elem_of.
    rewrite elem_of_reverse, list_elem_of_filter in Hh. destruct Hh as [Hlt Hp].
    split; [done|].
    destruct (tree_items_cases t p cur) as [->|[?|Hb%before_start]];
      eauto using tree_item_valid; key_order.
  - intros [Hp Hb]. pose proof (before_start _ _ (tree_item_valid _ _ Ht Hp) Hb).
    apply list_elem_of_split in Hp as (l1 & l2 & E).
    rewrite E, filter_app, filter_cons, decide_True by done.
    rewrite (filter_none _ l2), reverse_app; [done|].
    intros y Hy. pose proof (tree_before _ Ht) as Hs. rewrite E in Hs.
    apply StronglySorted_middle in Hs as [_ Hs]. rewrite list.Forall_forall in Hs.
    destruct (Hs y Hy). key_order.
Qed.

(** The first item that starts after [cur]. *)
Lemma first_after t cur n :
  tree_wf t → cur ∈ bt_items t → EndKey cur = StartKey n →
  head (filter (λ y, StartKey cur < StartKey y)%key (bt_items t)) = Some n
  ↔ n ∈ bt_items t ∧ before cur n.
Proof.
  intros Ht Hcur Hk. split.
  - intros Hh%head_Some_elem_of. rewrite list_elem_of_filter in Hh.
    destruct Hh as [Hlt Hn]. split; [done|].
    destruct (tree_items_cases t n cur) as [->|[Hb%before_start|?]];
      eauto using tree_item_valid; key_order.
  - intros [Hn Hb]. pose proof (before_start _ _ (tree_item_valid _ _ Ht Hcur) Hb).
    apply list_elem_of_split in Hn as (l1 & l2 & E).
    rewrite E, filter_app, filter_cons, decide_True by done.
    rewrite (filter_none _ l1); [done|].
    intros y Hy Hlt. pose proof (tree_before _ Ht) as Hs. rewrite E in Hs.
    apply StronglySorted_middle in Hs as [Hs _]. rewrite list.Forall_forall in Hs.
    assert (y ∈ bt_items t) as Hyt by (rewrite E; set_solver).
    pose proof (before_start _ _ (tree_item_valid _ _ Ht Hyt) (Hs y Hy)).
    destruct (tree_items_cases t cur y) as [->|[[_ ?]|?%before_start]];
      eauto using tree_item_valid; key_order.
Qed.

(** [searchPrev] finds the item that ends where the item holding the key
    starts. *)
Lemma searchPrev_spec t k p :
  tree_wf t →
  searchPrev t k = Some p ↔
  ∃ cur, search t k = Some cur ∧ p ∈ bt_items t ∧ before p cur ∧
         EndKey p = StartKey cur.
Proof.
  intros Ht. unfold searchPrev, search.
  destruct (find t (probe k)) as [cur|] eqn:E; [|naive_solver].
  apply find_spec in E as [Hcur _]; [|done].
  rewrite getAdjacentRegions_spec by done. simpl.
  trans (head (reverse (filter (λ y, StartKey y < StartKey cur)%key (bt_items t))) = Some p
         ∧ EndKey p = StartKey cur).
  { destruct (head _) as [q|]; [|naive_solver].
    destruct (Equal _ _) eqn:Hq; simpl; [apply Equal_true in Hq|];
      [naive_solver|]. split; [done|]. intros [[= ->] Hk].
    by rewrite (proj2 (Equal_true _ _) Hk) in Hq. }
  split.
  - intros [Hh Hk]. apply last_before in Hh as [??]; eauto 6.
  - intros (? & [= <-] & ? & ? & Hk). split; [by apply last_before|done].
Qed.
End correctness.

Section theorems.
Context {T : Type} `{!BTreeOps Region T, !BTreeLaws Region T}.

(** Inserting a non-empty range keeps the tree disjoint, returns exactly
    the items it overlaps, and afterwards a key lookup finds the new range
    for its keys and, for other keys, what it found before unless that item
    was overlapped. *)
Theorem update_search (t : T) r :
  tree_wf t → valid_range r →
  tree_wf (update t r).1 ∧
  (update t r).2 = filter (overlap r) (bt_items t) ∧
  ∀ k, search (update t r).1 k =
    if decide (in_range r k) then Some r
    else x ← search t k; if decide (overlap r x) then None else Some x.
Proof.
  intros Ht Hr. pose proof (update_wf t r Ht Hr) as Hu.
  split; [done|]. split; [by apply update_overlaps|]. intros k.
  apply option_eq. intros x. rewrite search_Some, update_elem by done.
  case_decide as Hk.
  - split.
    + intros [[->|[Hx Hno]] Hxk]; [done|]. exfalso. apply Hno.
      apply overlap_shared; eauto using tree_item_valid.
    + intros [= <-]. auto.
  - rewrite bind_Some. setoid_rewrite search_Some; [|done]. split.
    + intros [[->|[Hx Hno]] Hxk]; [done|]. exists x. by rewrite decide_False.
    + intros (y & [Hy Hyk] & E). case_decide; simplify_eq. auto.
Qed.

(** Removing a region of the tree makes exactly its keys unknown; removing
    a region whose start key lies in an item with another id, or in none,
    changes nothing. *)
Theorem remove_search (t : T) r :
  tree_wf t →
  (r ∈ bt_items t → ∀ k, search (remove t r) k =
    if decide (in_range r k) then None else search t k) ∧
  (from_option Region_Id (Region_Id r + 1) (search t (StartKey r)) ≠ Region_Id r →
    remove t r = t).
Proof.
  intros Ht. split.
  - intros Hr k.
    destruct (remove_in t r r) as [Hwf Hit];
      eauto using valid_in_range, tree_item_valid.
    apply option_eq. intros x. rewrite search_Some, Hit, list_elem_of_filter by done.
    case_decide as Hk.
    + split; [|done]. intros [[Hne Hx] Hxk]. exfalso. apply Hne.
      by eapply (tree_in_range_unique t).
    + rewrite search_Some by done. split; [tauto|]. intros [Hx Hxk].
      split; [|done]. split; [|done]. intros ->. done.
  - intros Hid. apply remove_noop; [done|]. intros x Hx Hxr E. apply Hid.
    rewrite (proj2 (search_Some t (StartKey r) x Ht)) by done. done.
Qed.
End theorems.

(** ** Witnesses *)

Module TreeDemo.
Import SortedList.
Definition k (b : Byte.byte) : bytes := [b].
Definition a := mkRegion 1 (k Byte.x61) (k Byte.x64) None [].
Definition b := mkRegion 2 (k Byte.x63) (k Byte.x66) None [].
Definition t1 : list Region := (update newRegionTree a).1.

Lemma t1_wf : tree_wf t1.
Proof. apply update_wf; [apply newRegionTree_wf|by right]. Qed.

Lemma update_search_witness :
  (update t1 b).2 = [a] ∧ search (update t1 b).1 (k Byte.x61) = None ∧
  search (update t1 b).1 (k Byte.x63) =
    (if decide (in_range b (k Byte.x63)) then Some b
     else x ← search t1 (k Byte.x63); if decide (overlap b x) then None else Some x).
Proof.
  split; [vm_compute; reflexivity|]. split; [vm_compute; reflexivity|].
  apply (update_search t1 b); [apply t1_wf|by right].
Defined.

Lemma remove_search_witness :
  a ∈ t1 ∧ search (remove t1 a) (k Byte.x61) = None ∧ remove t1 b = t1.
Proof.
  split; [vm_compute; left|].
  destruct (remove_search t1 a t1_wf) as [H _].
  split; [rewrite H by (vm_compute; left); vm_compute; reflexivity|].
  destruct (remove_search t1 b t1_wf) as [_ H']. apply H'.
  vm_compute. discriminate.
Defined.
End TreeDemo.
