(* ===== verification/RegionMap.v ===== *)
(** * regionMap (server/core/region.go, lines 365-455)

    A map of regions that also keeps the ids in a slice, so that a region can
    be drawn at random in constant time, and running totals of size and keys.
    The invariant [rm_ok] relates the four fields; [Delete] moves the last id
    into the hole it makes. *)

From S2P Require Import Prelude GoBytes Metapb Region.

Record regionEntry := mkEntry {
  entry_region : RegionInfo;
  pos : nat;
}.

Record regionMap := mkRegionMap {
  m : gmap Z regionEntry;
  ids : list Z;
  totalSize : Z;
  totalKeys : Z;
}.

Module RMap.

Definition newRegionMap : regionMap := mkRegionMap ∅ [] 0 0.

(** The methods accept a nil receiver, which is what a missing key of a
    [map[uint64]*regionMap] yields. *)
Definition Len (rm : option regionMap) : nat :=
  match rm with None => 0 | Some rm => size (m rm) end.

Definition Get (rm : option regionMap) (id : Z) : option RegionInfo :=
  match rm with None => None | Some rm => entry_region <$> m rm !! id end.

Definition Put (rm : regionMap) (region : RegionInfo) : regionMap :=
  match m rm !! GetID region with
  | Some old =>
      mkRegionMap
        (<[GetID region := mkEntry region (pos old)]> (m rm))
        (ids rm)
        (int64 (totalSize rm + int64 (approximateSize region - approximateSize (entry_region old))))
        (int64 (totalKeys rm + int64 (approximateKeys region - approximateKeys (entry_region old))))
  | None =>
      mkRegionMap
        (<[GetID region := mkEntry region (length (ids rm))]> (m rm))
        (ids rm ++ [GetID region])
        (int64 (totalSize rm + approximateSize region))
        (int64 (totalKeys rm + approximateKeys region))
  end.

(** [None] is a run-time panic; [d] is the random draw. *)
Definition RandomRegion (d : nat) (rm : option regionMap) : option (option RegionInfo) :=
  match rm with
  | None => Some None
  | Some rm' =>
      if (Len rm =? 0)%nat then Some None
      else id ← ids rm' !! rand_Intn d (Len rm); Some (Get rm id)
  end.

(** The two index expressions and the nil dereference of [last] can panic. *)
Definition Delete (rm : regionMap) (id : Z) : option regionMap :=
  match m rm !! id with
  | None => Some rm
  | Some old =>
      let len := size (m rm) in
      if (len =? 0)%nat then None
      else
        last_id ← ids rm !! (len - 1)%nat;
        last ← m rm !! last_id;
        let m1 := <[last_id := mkEntry (entry_region last) (pos old)]> (m rm) in
        guard (pos old < length (ids rm))%nat;;
        let ids1 := <[pos old := GetID (entry_region last)]> (ids rm) in
        Some (mkRegionMap
          (delete id m1)
          (take (len - 1) ids1)
          (int64 (totalSize rm - approximateSize (entry_region old)))
          (int64 (totalKeys rm - approximateKeys (entry_region old))))
  end.

(** [Delete] through a possibly nil pointer. *)
Definition DeleteNil (rm : option regionMap) (id : Z) : option (option regionMap) :=
  match rm with None => Some None | Some rm => Some <$> Delete rm id end.

Definition TotalSize (rm : option regionMap) : Z :=
  match rm with
  | None => 0
  | Some rm' => if (Len rm =? 0)%nat then 0 else totalSize rm'
  end.

(** ** Invariant *)

(** The sum of a measure over the regions of the map. *)
Definition rm_sum (f : RegionInfo → Z) (mm : gmap Z regionEntry) : Z :=
  sumZ (λ '(_, e), f (entry_region e)) (map_to_list mm).

Record rm_ok (rm : regionMap) : Prop := {
  rm_pos : ∀ i id, ids rm !! i = Some id ↔ ∃ e, m rm !! id = Some e ∧ pos e = i;
  rm_id : ∀ id e, m rm !! id = Some e → GetID (entry_region e) = id;
  rm_len : size (m rm) = length (ids rm);
  rm_size : totalSize rm = int64 (rm_sum approximateSize (m rm));
  rm_keys : totalKeys rm = int64 (rm_sum approximateKeys (m rm));
}.

(** The regions of the map, without the bookkeeping. *)
Definition rm_regions (rm : regionMap) : gmap Z RegionInfo := entry_region <$> m rm.

Lemma rm_sum_empty f : rm_sum f ∅ = 0.
Proof. unfold rm_sum. by rewrite map_to_list_empty. Qed.

Lemma rm_sum_insert f mm id e :
  mm !! id = None → rm_sum f (<[id := e]> mm) = f (entry_region e) + rm_sum f mm.
Proof. intros H. unfold rm_sum. by rewrite map_to_list_insert. Qed.

Lemma rm_sum_delete f mm id e :
  mm !! id = Some e → rm_sum f (delete id mm) = rm_sum f mm - f (entry_region e).
Proof.
  intros H. rewrite <-(insert_delete_id mm id e H) at 2.
  rewrite rm_sum_insert by apply lookup_delete_eq. lia.
Qed.

Lemma rm_sum_replace f mm id e e' :
  mm !! id = Some e →
  rm_sum f (<[id := e']> mm) =
    rm_sum f mm + (f (entry_region e') - f (entry_region e)).
Proof.
  intros H. rewrite <-insert_delete_eq, rm_sum_insert by apply lookup_delete_eq.
  rewrite (rm_sum_delete f mm id e H). lia.
Qed.

Lemma newRegionMap_ok : rm_ok newRegionMap.
Proof.
  split; simpl.
  - intros i id. rewrite lookup_nil. setoid_rewrite lookup_empty. naive_solver.
  - intros id e. by rewrite lookup_empty.
  - by rewrite map_size_empty.
  - by rewrite rm_sum_empty.
  - by rewrite rm_sum_empty.
Qed.

(** ** Put *)

Lemma Put_ok rm region : rm_ok rm → rm_ok (Put rm region).
Proof.
  intros [Hpos Hid Hlen Hsz Hk]. unfold Put.
  destruct (m rm !! GetID region) as [old|] eqn:E; split; simpl.
  - intros i id. rewrite Hpos. destruct (decide (id = GetID region)) as [->|].
    + rewrite E. setoid_rewrite lookup_insert_eq. naive_solver.
    + by setoid_rewrite lookup_insert_ne; [|done].
  - intros id e [[<- <-]|[? He]]%lookup_insert_Some; eauto.
  - rewrite map_size_insert_Some by eauto. done.
  - rewrite int64_add_r, Hsz, int64_add_l. f_equal.
    by rewrite (rm_sum_replace _ _ _ old) by done.
  - rewrite int64_add_r, Hk, int64_add_l. f_equal.
    by rewrite (rm_sum_replace _ _ _ old) by done.
  - intros i id. rewrite lookup_snoc_Some, Hpos.
    destruct (decide (id = GetID region)) as [->|].
    + rewrite E. setoid_rewrite lookup_insert_eq. split.
      * intros [(? & ? & ? & _)|[-> _]]; [done|]. eauto.
      * intros (e & [= <-] & <-). by right.
    + setoid_rewrite lookup_insert_ne; [|done]. split.
      * intros [[_ ?]|[_ ?]]; [done|congruence].
      * intros He. left. split; [|done]. by eapply lookup_lt_Some, Hpos.
  - intros id e [[<- <-]|[? He]]%lookup_insert_Some; eauto.
  - rewrite map_size_insert_None by done. rewrite length_app. simpl. lia.
  - rewrite Hsz, int64_add_l. f_equal. rewrite rm_sum_insert by done. simpl. lia.
  - rewrite Hk, int64_add_l. f_equal. rewrite rm_sum_insert by done. simpl. lia.
Qed.

Lemma Put_regions rm region :
  rm_regions (Put rm region) = <[GetID region := region]> (rm_regions rm).
Proof.
  unfold rm_regions, Put. destruct (m rm !! _); simpl; by rewrite fmap_insert.
Qed.

(** ** Delete *)

Section delete.
Context (rm : regionMap) (Hok : rm_ok rm) (id : Z) (old : regionEntry)
  (Hold : m rm !! id = Some old).

Lemma pos_lt : (pos old < length (ids rm))%nat.
Proof. eapply lookup_lt_Some, Hok. eauto. Qed.

(** The last id of the slice and its entry. *)
Lemma last_entry :
  ∃ last_id last, ids rm !! (size (m rm) - 1)%nat = Some last_id ∧
    m rm !! last_id = Some last ∧ pos last = (size (m rm) - 1)%nat ∧
    GetID (entry_region last) = last_id.
Proof.
  pose proof pos_lt as Hlt. rewrite (rm_len _ Hok).
  destruct (lookup_lt_is_Some_2 (ids rm) (length (ids rm) - 1)%nat) as [l Hl]; [lia|].
  destruct (proj1 (rm_pos _ Hok _ _) Hl) as (e & He & Hp).
  exists l, e. eauto using rm_id.
Qed.

(** Moving the last id into the hole keeps the positions right. *)
Lemma delete_pos last_id last i x :
  ids rm !! (size (m rm) - 1)%nat = Some last_id → m rm !! last_id = Some last →
  take (size (m rm) - 1) (<[pos old := last_id]> (ids rm)) !! i = Some x ↔
  ∃ e, delete id (<[last_id := mkEntry (entry_region last) (pos old)]> (m rm)) !! x
         = Some e ∧ pos e = i.
Proof.
  intros Hl Hlast. pose proof pos_lt as Hlt. pose proof (rm_len _ Hok) as Hlen.
  pose proof (rm_pos _ Hok) as Hpos.
  assert (ids rm !! pos old = Some id) as Hid by (apply Hpos; eauto).
  rewrite lookup_take_Some, list_lookup_insert_Some.
  destruct (decide (x = id)) as [->|Hx].
  { rewrite lookup_delete_eq. split; [|naive_solver].
    intros [[(<- & -> & _)|[Hne Hi]] Hilt].
    - assert (pos old = (size (m rm) - 1)%nat); [|lia].
      apply Hpos in Hl as (e & He & <-). congruence.
    - apply Hpos in Hi as (e & He & <-). congruence. }
  rewrite lookup_delete_ne by done. destruct (decide (x = last_id)) as [->|Hxl].
  - rewrite lookup_insert_eq. split.
    + intros [[(<- & _ & _)|[Hne Hi]] Hilt]; [eauto|].
      apply Hpos in Hi as (e & He & <-). apply Hpos in Hl as (e' & He' & ?).
      simplify_eq. lia.
    + intros (e & [= <-] & <-). simpl. split; [by left|].
      assert (pos old ≠ (size (m rm) - 1)%nat); [|lia].
      intros Hp. rewrite Hp, Hl in Hid. congruence.
  - rewrite lookup_insert_ne, <-Hpos by done. split.
    + intros [[(_ & ? & _)|[_ Hi]] _]; [congruence|done].
    + intros Hi. pose proof (lookup_lt_Some _ _ _ Hi).
      assert (i ≠ (size (m rm) - 1)%nat) by congruence.
      split; [right; split; [congruence|done]|lia].
Qed.

Lemma delete_sum f last_id last :
  m rm !! last_id = Some last →
  rm_sum f (delete id (<[last_id := mkEntry (entry_region last) (pos old)]> (m rm)))
  = rm_sum f (m rm) - f (entry_region old).
Proof.
  intros Hlast. set (mm := <[last_id := _]> (m rm)).
  assert (∃ p, mm !! id = Some (mkEntry (entry_region old) p)) as [p Hp].
  { unfold mm. destruct (decide (last_id = id)) as [->|].
    - rewrite lookup_insert_eq. simplify_eq. eauto.
    - rewrite lookup_insert_ne by done. rewrite Hold. destruct old; eauto. }
  rewrite (rm_sum_delete _ _ _ _ Hp). unfold mm.
  rewrite (rm_sum_replace _ _ _ last) by done. simpl. lia.
Qed.

Lemma Delete_present :
  ∃ rm', Delete rm id = Some rm' ∧ rm_ok rm' ∧
    rm_regions rm' = delete id (rm_regions rm).
Proof.
  destruct last_entry as (last_id & last & Hl & Hlast & Hp & Hlid).
  pose proof pos_lt as Hlt. pose proof (rm_len _ Hok) as Hlen.
  unfold Delete. rewrite Hold. rewrite (proj2 (Nat.eqb_neq _ _)) by lia.
  rewrite Hl; simpl. rewrite Hlast; simpl. rewrite option_guard_True by done. simpl.
  eexists; split; [done|]. split; [split; simpl|].
  - intros. rewrite Hlid. by apply delete_pos.
  - intros x e [Hx [[<- <-]|[_ He]]%lookup_insert_Some]%lookup_delete_Some;
      [done|eauto using rm_id].
  - rewrite map_size_delete_Some.
    + rewrite map_size_insert_Some, length_take, length_insert by eauto. lia.
    + apply lookup_insert_is_Some'. eauto.
  - by rewrite (rm_size _ Hok), delete_sum, int64_sub_l.
  - by rewrite (rm_keys _ Hok), delete_sum, int64_sub_l.
  - unfold rm_regions; simpl. rewrite fmap_delete, fmap_insert. simpl.
    by rewrite insert_id; [|rewrite lookup_fmap, Hlast].
Qed.
End delete.

Lemma Delete_spec rm id :
  rm_ok rm →
  ∃ rm', Delete rm id = Some rm' ∧ rm_ok rm' ∧
    rm_regions rm' = delete id (rm_regions rm).
Proof.
  intros Hok. destruct (m rm !! id) as [old|] eqn:E.
  - by eapply Delete_present.
  - exists rm. unfold Delete. rewrite E. split; [done|]. split; [done|].
    rewrite delete_id; [done|]. unfold rm_regions. by rewrite lookup_fmap, E.
Qed.

(** ** The view of a possibly nil map *)

Definition rm_view (rm : option regionMap) : gmap Z RegionInfo :=
  from_option rm_regions ∅ rm.

Definition rm_ok_nil (rm : option regionMap) : Prop := from_option rm_ok True rm.

Lemma Get_view rm id : Get rm id = rm_view rm !! id.
Proof.
  destruct rm; simpl; [|by rewrite lookup_empty].
  unfold rm_regions. by rewrite lookup_fmap.
Qed.

Lemma Len_view rm : Len rm = size (rm_view rm).
Proof.
  destruct rm; simpl; [|by rewrite map_size_empty].
  unfold rm_regions. by rewrite map_size_fmap.
Qed.

Lemma DeleteNil_spec rm id :
  rm_ok_nil rm →
  ∃ rm', DeleteNil rm id = Some rm' ∧ rm_ok_nil rm' ∧
    rm_view rm' = delete id (rm_view rm).
Proof.
  destruct rm as [rm|]; simpl; intros Hok.
  - destruct (Delete_spec rm id Hok) as (rm' & -> & ? & ?). by exists (Some rm').
  - exists None. by rewrite delete_empty.
Qed.

(** Sum of a measure over the regions of a view. *)
Definition view_sum (f : RegionInfo → Z) (v : gmap Z RegionInfo) : Z :=
  sumZ f (map_to_list v).*2.

Lemma rm_sum_view f rm : rm_sum f (m rm) = view_sum f (rm_regions rm).
Proof.
  unfold rm_sum, view_sum, rm_regions. rewrite map_to_list_fmap.
  induction (map_to_list (m rm)) as [|[k e] l IH]; [done|]. simpl in *. by rewrite IH.
Qed.

Lemma TotalSize_view rm :
  rm_ok_nil rm → TotalSize rm = int64 (view_sum approximateSize (rm_view rm)).
Proof.
  destruct rm as [rm|]; simpl; intros Hok; [|done].
  destruct (Nat.eqb_spec (size (m rm)) 0) as [E|].
  - apply map_size_empty_inv in E. unfold rm_regions.
    by rewrite E, fmap_empty.
  - by rewrite (rm_size _ Hok), rm_sum_view.
Qed.

(** Drawing at random never panics and yields a region of the map; every
    region is the result of some draw. *)
Lemma RandomRegion_sound d rm :
  rm_ok_nil rm →
  (rm_view rm = ∅ ∧ RandomRegion d rm = Some None) ∨
  ∃ id r, rm_view rm !! id = Some r ∧ RandomRegion d rm = Some (Some r).
Proof.
  destruct rm as [rm|]; simpl; intros Hok; [|by left].
  destruct (Nat.eqb_spec (size (m rm)) 0) as [E|Hne].
  { left. apply map_size_empty_inv in E. unfold rm_regions. by rewrite E, fmap_empty. }
  right. pose proof (rand_Intn_lt d (size (m rm))) as Hd. rewrite (rm_len _ Hok) in *.
  destruct (lookup_lt_is_Some_2 (ids rm) (rand_Intn d (length (ids rm)))) as [id Hi]; [lia|].
  rewrite Hi. simpl. apply (rm_pos _ Hok) in Hi as (e & He & _).
  exists id, (entry_region e). unfold rm_regions. by rewrite lookup_fmap, He.
Qed.

Lemma RandomRegion_complete rm id r :
  rm_ok_nil rm → rm_view rm !! id = Some r → ∃ d, RandomRegion d rm = Some (Some r).
Proof.
  destruct rm as [rm|]; simpl; intros Hok Hr; [|by rewrite lookup_empty in Hr].
  unfold rm_regions in Hr. rewrite lookup_fmap in Hr.
  apply fmap_Some in Hr as (e & He & ->). exists (pos e).
  pose proof (pos_lt rm Hok id e He) as Hlt. rewrite (rm_len _ Hok).
  rewrite (proj2 (Nat.eqb_neq _ _)) by lia. unfold rand_Intn.
  rewrite Nat.mod_small by lia.
  rewrite (proj2 (rm_pos _ Hok _ id)) by eauto. simpl. by rewrite He.
Qed.
End RMap.

(** ** Theorems *)

(** On a well-formed [regionMap], [Put] and [Delete] do not panic, keep it
    well formed (the id slice enumerates the map through the recorded positions
    and the totals are the [int64] sums of the stored regions) and act on the
    stored regions as insertion and deletion. *)
Theorem regionMap_refines rm x id :
  RMap.rm_ok rm →
  RMap.rm_ok (RMap.Put rm x) ∧
  RMap.rm_regions (RMap.Put rm x) = <[GetID x := x]> (RMap.rm_regions rm) ∧
  ∃ rm', RMap.Delete rm id = Some rm' ∧ RMap.rm_ok rm' ∧
    RMap.rm_regions rm' = delete id (RMap.rm_regions rm).
Proof.
  intros Hok. split; [by apply RMap.Put_ok|]. split; [apply RMap.Put_regions|].
  by apply RMap.Delete_spec.
Qed.

Module MapDemo.
Definition x (i : Z) : RegionInfo :=
  NewRegionInfo (mkRegion i [] [] None []) None [SetApproximateSize (10 * i)].
Definition rm : regionMap :=
  RMap.Put (RMap.Put (RMap.Put RMap.newRegionMap (x 1)) (x 2)) (x 3).

Lemma rm_is_ok : RMap.rm_ok rm.
Proof. unfold rm. auto using RMap.Put_ok, RMap.newRegionMap_ok. Qed.

Lemma regionMap_refines_witness :
  (ids <$> RMap.Delete rm 1) = Some [3; 2] ∧ totalSize rm = 60 ∧
  ∃ rm', RMap.Delete rm 1 = Some rm' ∧ RMap.rm_ok rm' ∧
    RMap.rm_regions rm' = delete 1 (RMap.rm_regions rm).
Proof.
  split; [vm_compute; reflexivity|]. split; [vm_compute; reflexivity|].
  apply (regionMap_refines rm (x 1) 1), rm_is_ok.
Defined.
End MapDemo.
