(* ===== verification/RegionsInfo.v ===== *)
(** * RegionsInfo (server/core/region.go, lines 457-780)

    The cache of all regions: the region tree, the regions by id, and for every
    store the regions it leads, follows, learns and has a pending peer of.  The
    abstract state is the finite map of regions by id; the refinement theorems
    say that the tree and the four indexes are functions of it after every
    operation. *)

From S2P Require Import Prelude GoBytes BTree Metapb Region RegionTree RegionMap.

Record RegionsInfo (T : Type) := mkRegionsInfo {
  tree : T;
  regions : regionMap;
  ri_leaders : gmap Z regionMap;
  ri_followers : gmap Z regionMap;
  ri_learners : gmap Z regionMap;
  ri_pendingPeers : gmap Z regionMap;
}.
Arguments mkRegionsInfo {T}.
Arguments tree {T}.
Arguments regions {T}.
Arguments ri_leaders {T}.
Arguments ri_followers {T}.
Arguments ri_learners {T}.
Arguments ri_pendingPeers {T}.

(** [store, ok := idx[storeID]; if !ok { store = newRegionMap(); idx[storeID] =
    store }; store.Put(region)]. *)
Definition put_at (idx : gmap Z regionMap) (storeID : Z) (region : RegionInfo)
    : gmap Z regionMap :=
  let store := default RMap.newRegionMap (idx !! storeID) in
  <[storeID := RMap.Put store region]> idx.

(** [idx[storeID].Delete(id)]; a missing key is a nil receiver. *)
Definition delete_at (idx : gmap Z regionMap) (storeID : Z) (id : Z)
    : option (gmap Z regionMap) :=
  match idx !! storeID with
  | None => Some idx
  | Some store => store' ← RMap.Delete store id; Some (<[storeID := store']> idx)
  end.

Section ops.
Context {T : Type} `{!BTreeOps Region T}.
Abbreviation RegionsInfo := (RegionsInfo T).

Definition NewRegionsInfo : RegionsInfo :=
  mkRegionsInfo newRegionTree RMap.newRegionMap ∅ ∅ ∅ ∅.

Definition GetRegion (r : RegionsInfo) (regionID : Z) : option RegionInfo :=
  RMap.Get (Some (regions r)) regionID.

(** The body of the loop of [RemoveRegion]. *)
Definition RemoveRegion_peer (id : Z) (r : RegionsInfo) (peer : Peer)
    : option RegionsInfo :=
  let storeID := Peer_StoreId peer in
  ld ← delete_at (ri_leaders r) storeID id;
  fl ← delete_at (ri_followers r) storeID id;
  ln ← delete_at (ri_learners r) storeID id;
  pd ← delete_at (ri_pendingPeers r) storeID id;
  Some (mkRegionsInfo (tree r) (regions r) ld fl ln pd).

Definition RemoveRegion (r : RegionsInfo) (region : RegionInfo) : option RegionsInfo :=
  let tree' := remove (tree r) (meta region) in
  regions' ← RMap.Delete (regions r) (GetID region);
  foldlM (RemoveRegion_peer (GetID region))
    (mkRegionsInfo tree' regions' (ri_leaders r) (ri_followers r)
       (ri_learners r) (ri_pendingPeers r))
    (Peers (meta region)).

(** The voters go to the leaders or the followers of their store. *)
Definition add_voters (region : RegionInfo)
    (idx : gmap Z regionMap * gmap Z regionMap) : gmap Z regionMap * gmap Z regionMap :=
  foldl (λ '(ld, fl) peer,
    let storeID := Peer_StoreId peer in
    if Peer_Id peer =? Peer_GetId (leader region)
    then (put_at ld storeID region, fl)
    else (ld, put_at fl storeID region)) idx (GetVoters region).

Definition add_peers (region : RegionInfo) (ps : list Peer)
    (idx : gmap Z regionMap) : gmap Z regionMap :=
  foldl (λ idx peer, put_at idx (Peer_StoreId peer) region) idx ps.

(** An overlapping item whose region is unknown is a nil dereference. *)
Definition AddRegion (r : RegionsInfo) (region : RegionInfo)
    : option (RegionsInfo * list Region) :=
  let '(tree', overlaps) := update (tree r) (meta region) in
  r ← foldlM (λ r item, old ← GetRegion r (Region_Id item); RemoveRegion r old)
    (mkRegionsInfo tree' (regions r) (ri_leaders r) (ri_followers r)
       (ri_learners r) (ri_pendingPeers r)) overlaps;
  let regions' := RMap.Put (regions r) region in
  let '(ld, fl) := add_voters region (ri_leaders r, ri_followers r) in
  let ln := add_peers region (GetLearners region) (ri_learners r) in
  let pd := add_peers region (pendingPeers region) (ri_pendingPeers r) in
  Some (mkRegionsInfo (tree r) regions' ld fl ln pd, overlaps).

Definition SetRegion (r : RegionsInfo) (region : RegionInfo)
    : option (RegionsInfo * list Region) :=
  r ← match RMap.Get (Some (regions r)) (GetID region) with
      | Some origin => RemoveRegion r origin
      | None => Some r
      end;
  AddRegion r region.

(** ** Queries *)

Definition Length (r : RegionsInfo) : nat := RMap.Len (Some (regions r)).
Definition TreeLength (r : RegionsInfo) : nat := tree_length (tree r).
Definition GetOverlaps (r : RegionsInfo) (region : RegionInfo) : list Region :=
  getOverlaps (tree r) (meta region).

Definition SearchRegion (r : RegionsInfo) (regionKey : bytes) : option RegionInfo :=
  match search (tree r) regionKey with
  | None => None
  | Some metaRegion => GetRegion r (Region_Id metaRegion)
  end.

Definition SearchPrevRegion (r : RegionsInfo) (regionKey : bytes) : option RegionInfo :=
  match searchPrev (tree r) regionKey with
  | None => None
  | Some metaRegion => GetRegion r (Region_Id metaRegion)
  end.

(** Ranging over a map; Go leaves the order unspecified. *)
Definition range_regions (rm : option regionMap) : list RegionInfo :=
  match rm with
  | None => []
  | Some rm => entry_region <$> (map_to_list (m rm)).*2
  end.

Definition GetRegions (r : RegionsInfo) : list RegionInfo :=
  range_regions (Some (regions r)).

Definition GetStoreRegions (r : RegionsInfo) (storeID : Z) : list RegionInfo :=
  range_regions (ri_leaders r !! storeID) ++ range_regions (ri_followers r !! storeID).

Definition GetStoreLeaderRegionSize (r : RegionsInfo) (storeID : Z) : Z :=
  RMap.TotalSize (ri_leaders r !! storeID).
Definition GetStoreFollowerRegionSize (r : RegionsInfo) (storeID : Z) : Z :=
  RMap.TotalSize (ri_followers r !! storeID).
Definition GetStoreLearnerRegionSize (r : RegionsInfo) (storeID : Z) : Z :=
  RMap.TotalSize (ri_learners r !! storeID).
Definition GetStoreRegionSize (r : RegionsInfo) (storeID : Z) : Z :=
  int64 (int64 (GetStoreLeaderRegionSize r storeID + GetStoreFollowerRegionSize r storeID)
         + GetStoreLearnerRegionSize r storeID).

Definition GetMetaRegions (r : RegionsInfo) : list Region :=
  meta <$> range_regions (Some (regions r)).
Definition GetRegionCount (r : RegionsInfo) : nat := RMap.Len (Some (regions r)).

Definition GetStorePendingPeerCount (r : RegionsInfo) (storeID : Z) : nat :=
  RMap.Len (ri_pendingPeers r !! storeID).
Definition GetStoreLeaderCount (r : RegionsInfo) (storeID : Z) : nat :=
  RMap.Len (ri_leaders r !! storeID).
Definition GetStoreFollowerCount (r : RegionsInfo) (storeID : Z) : nat :=
  RMap.Len (ri_followers r !! storeID).
Definition GetStoreLearnerCount (r : RegionsInfo) (storeID : Z) : nat :=
  RMap.Len (ri_learners r !! storeID).
Definition GetStoreRegionCount (r : RegionsInfo) (storeID : Z) : nat :=
  (GetStoreLeaderCount r storeID + GetStoreFollowerCount r storeID
   + GetStoreLearnerCount r storeID)%nat.

(** ** Random selection *)

Definition randomRegionMaxRetry : nat := 10.

(** [draws i] is the random draw of the [i]-th attempt; [None] is a panic. *)
Fixpoint randRegion_loop (fuel : nat) (draws : nat → nat) (i : nat)
    (rm : option regionMap) (opts : list RegionOption) : option (option RegionInfo) :=
  match fuel with
  | O => Some None
  | S fuel' =>
      region ← RMap.RandomRegion (draws i) rm;
      match region with
      | None => Some None
      | Some region =>
          let isSelect := forallb (λ opt : RegionOption, opt region) opts in
          if isSelect then Some (Some region)
          else randRegion_loop fuel' draws (S i) rm opts
      end
  end.

Definition randRegion (draws : nat → nat) (rm : option regionMap)
    (opts : list RegionOption) : option (option RegionInfo) :=
  randRegion_loop randomRegionMaxRetry draws 0 rm opts.

Definition RandRegion draws (r : RegionsInfo) opts := randRegion draws (Some (regions r)) opts.
Definition RandPendingRegion draws (r : RegionsInfo) (storeID : Z) opts :=
  randRegion draws (ri_pendingPeers r !! storeID) opts.
Definition RandLeaderRegion draws (r : RegionsInfo) (storeID : Z) opts :=
  randRegion draws (ri_leaders r !! storeID) opts.
Definition RandFollowerRegion draws (r : RegionsInfo) (storeID : Z) opts :=
  randRegion draws (ri_followers r !! storeID) opts.

Definition Regions_GetLeader (r : RegionsInfo) (storeID regionID : Z) : option RegionInfo :=
  RMap.Get (ri_leaders r !! storeID) regionID.
Definition Regions_GetFollower (r : RegionsInfo) (storeID regionID : Z) : option RegionInfo :=
  RMap.Get (ri_followers r !! storeID) regionID.

(** ** Scans *)

(** The slice holds region pointers, nil when the id is unknown; making it
    with a negative capacity panics. *)
Definition ScanRange (r : RegionsInfo) (startKey : bytes) (limit : Z)
    : option (list (option RegionInfo)) :=
  if limit <? 0 then None
  else Some (scanRange (tree r) startKey (λ metaRegion res,
    let res := res ++ [GetRegion r (Region_Id metaRegion)] in
    (res, Z.of_nat (length res) <? limit)) []).

Definition ScanRangeWithEndKey (r : RegionsInfo) (startKey endKey : bytes)
    : list RegionInfo :=
  scanRange (tree r) startKey (λ meta regions,
    if (0 <? length endKey)%nat
       && ((length (EndKey meta) =? 0)%nat || (0 <=? Compare (EndKey meta) endKey))
    then (regions, false)
    else
      (match GetRegion r (Region_Id meta) with
       | Some region => regions ++ [region]
       | None => regions
       end, true)) [].

Definition ScanRangeWithIterator {S} (r : RegionsInfo) (startKey : bytes)
    (iterator : Region → S → S * bool) (s : S) : S :=
  scanRange (tree r) startKey iterator s.

Definition GetAdjacentRegions (r : RegionsInfo) (region : RegionInfo)
    : option RegionInfo * option RegionInfo :=
  let '(metaPrev, metaNext) := getAdjacentRegions (tree r) (meta region) in
  let prev :=
    match metaPrev with
    | Some p => if Equal (EndKey p) (StartKey (meta region))
                then GetRegion r (Region_Id p) else None
    | None => None
    end in
  let next :=
    match metaNext with
    | Some n => if Equal (EndKey (meta region)) (StartKey n)
                then GetRegion r (Region_Id n) else None
    | None => None
    end in
  (prev, next).

(** Go's integer division truncates toward zero. *)
Definition GetAverageRegionSize (r : RegionsInfo) : Z :=
  if (RMap.Len (Some (regions r)) =? 0)%nat then 0
  else Z.quot (RMap.TotalSize (Some (regions r)))
         (Z.of_nat (RMap.Len (Some (regions r)))).
End ops.

(** ** The abstract state *)

(** A region the cache accepts: its roles are those of its meta, its key range
    is not empty, and its pending peers are peers of the region. *)
Record region_wf (r : RegionInfo) : Prop := {
  wf_classified : classified r;
  wf_range : valid_range (meta r);
  wf_pending : ∀ p, p ∈ pendingPeers r →
    ∃ q, q ∈ Peers (meta r) ∧ Peer_StoreId q = Peer_StoreId p;
}.

(** The roles of a store in a region. *)
Definition leads (s : Z) (r : RegionInfo) : Prop :=
  Exists (λ p, Peer_Id p = Peer_GetId (leader r) ∧ Peer_StoreId p = s) (voters r).
Definition follows (s : Z) (r : RegionInfo) : Prop :=
  Exists (λ p, Peer_Id p ≠ Peer_GetId (leader r) ∧ Peer_StoreId p = s) (voters r).
Definition learns (s : Z) (r : RegionInfo) : Prop :=
  Exists (λ p, Peer_StoreId p = s) (learners r).
Definition pends (s : Z) (r : RegionInfo) : Prop :=
  Exists (λ p, Peer_StoreId p = s) (pendingPeers r).

#[export] Instance leads_dec : RelDecision leads.
Proof. intros s r. unfold leads. apply _. Defined.
#[export] Instance follows_dec : RelDecision follows.
Proof. intros s r. unfold follows. apply _. Defined.
#[export] Instance learns_dec : RelDecision learns.
Proof. intros s r. unfold learns. apply _. Defined.
#[export] Instance pends_dec : RelDecision pends.
Proof. intros s r. unfold pends. apply _. Defined.

(** The regions of the map a store has a role in. *)
Definition with_role (role : Z → RegionInfo → Prop) `{!RelDecision role} (s : Z)
    (v : gmap Z RegionInfo) : gmap Z RegionInfo :=
  filter (λ p, role s p.2) v.

(** An index is exact: for every store it holds the regions with the role. *)
Definition index_ok (role : Z → RegionInfo → Prop) `{!RelDecision role}
    (idx : gmap Z regionMap) (v : gmap Z RegionInfo) : Prop :=
  ∀ s, RMap.rm_ok_nil (idx !! s) ∧ RMap.rm_view (idx !! s) = with_role role s v.

(** The tree holds exactly the metas of the map. *)
Definition tree_index {T} `{!BTreeOps Region T, !BTreeLaws Region T} (t : T)
    (v : gmap Z RegionInfo) : Prop :=
  tree_wf t ∧ ∀ x, x ∈ bt_items t ↔ ∃ id r, v !! id = Some r ∧ meta r = x.

(** ** Index lemmas *)

Definition idx_wf (idx : gmap Z regionMap) : Prop := ∀ s, RMap.rm_ok_nil (idx !! s).

Lemma put_at_view idx s r s' :
  RMap.rm_view (put_at idx s r !! s') =
    if decide (s = s') then <[GetID r := r]> (RMap.rm_view (idx !! s'))
    else RMap.rm_view (idx !! s').
Proof.
  unfold put_at. rewrite lookup_insert. case_decide; [subst|done]. simpl.
  rewrite RMap.Put_regions. by destruct (idx !! s').
Qed.

Lemma put_at_wf idx s r : idx_wf idx → idx_wf (put_at idx s r).
Proof.
  intros Hi s'. unfold put_at. rewrite lookup_insert. case_decide; [|apply Hi].
  apply RMap.Put_ok. specialize (Hi s).
  destruct (idx !! s); [done|apply RMap.newRegionMap_ok].
Qed.

(** Adding a region to the stores of the peers that satisfy a test. *)
Definition add_if (P : Peer → bool) (r : RegionInfo) (ps : list Peer)
    (idx : gmap Z regionMap) : gmap Z regionMap :=
  foldl (λ idx p, if P p then put_at idx (Peer_StoreId p) r else idx) idx ps.

Lemma add_if_view P r ps idx s :
  RMap.rm_view (add_if P r ps idx !! s) =
    if decide (Exists (λ p, P p = true ∧ Peer_StoreId p = s) ps)
    then <[GetID r := r]> (RMap.rm_view (idx !! s))
    else RMap.rm_view (idx !! s).
Proof.
  revert idx. induction ps as [|p ps IH]; intros idx; [done|].
  change (add_if P r (p :: ps) idx) with
    (add_if P r ps (if P p then put_at idx (Peer_StoreId p) r else idx)).
  rewrite IH. destruct (P p) eqn:HP; [rewrite put_at_view|];
    repeat case_decide; rewrite ?Exists_cons in *; try done; try tauto.
  - by rewrite insert_insert_eq.
  - exfalso. intuition congruence.
Qed.

Lemma add_if_wf P r ps idx : idx_wf idx → idx_wf (add_if P r ps idx).
Proof.
  revert idx. induction ps as [|p ps IH]; intros idx Hi; simpl; [done|].
  apply IH. destruct (P p); auto using put_at_wf.
Qed.

Lemma add_peers_if r ps idx : add_peers r ps idx = add_if (λ _, true) r ps idx.
Proof. done. Qed.

Lemma add_voters_if r idx :
  add_voters r idx =
    (add_if (λ p, Peer_Id p =? Peer_GetId (leader r)) r (voters r) idx.1,
     add_if (λ p, negb (Peer_Id p =? Peer_GetId (leader r))) r (voters r) idx.2).
Proof.
  unfold add_voters, GetVoters. generalize (voters r) as ps. intros ps.
  revert idx. induction ps as [|p ps IH]; intros [ld fl]; simpl; [done|].
  rewrite IH. by destruct (Peer_Id p =? Peer_GetId (leader r)).
Qed.

(** Deleting an id at one store. *)
Lemma delete_at_spec idx s id :
  idx_wf idx →
  ∃ idx', delete_at idx s id = Some idx' ∧ idx_wf idx' ∧
    ∀ s', RMap.rm_view (idx' !! s') =
      if decide (s' = s) then delete id (RMap.rm_view (idx !! s'))
      else RMap.rm_view (idx !! s').
Proof.
  intros Hi. unfold delete_at. pose proof (Hi s) as Hs.
  destruct (idx !! s) as [rm|] eqn:E; simpl in *.
  - destruct (RMap.Delete_spec rm id Hs) as (rm' & -> & Hok & Hv).
    eexists. split; [done|]. split; intros s'; rewrite lookup_insert.
    + case_decide; [done|apply Hi].
    + destruct (decide (s = s')) as [->|]; repeat case_decide; try done.
      by rewrite E.
  - exists idx. split; [done|]. split; [done|]. intros s'. case_decide; [subst|done].
    rewrite E. simpl. by rewrite delete_empty.
Qed.

(** The effect on one index of deleting an id at the stores of some peers. *)
Definition deleted_at (ps : list Peer) (id : Z) (idx idx' : gmap Z regionMap) : Prop :=
  idx_wf idx' ∧
  ∀ s, RMap.rm_view (idx' !! s) =
    if decide (Exists (λ p, Peer_StoreId p = s) ps)
    then delete id (RMap.rm_view (idx !! s)) else RMap.rm_view (idx !! s).

Lemma deleted_at_cons p ps id idx1 idx2 idx3 :
  (∀ s, RMap.rm_view (idx2 !! s) =
      if decide (s = Peer_StoreId p) then delete id (RMap.rm_view (idx1 !! s))
      else RMap.rm_view (idx1 !! s)) →
  deleted_at ps id idx2 idx3 → deleted_at (p :: ps) id idx1 idx3.
Proof.
  intros H12 [Hwf H23]. split; [done|]. intros s. rewrite H23, H12.
  repeat case_decide; rewrite ?Exists_cons in *; try done;
    try (exfalso; intuition congruence).
  by rewrite delete_delete_eq.
Qed.

Lemma index_delete role `{!RelDecision role} idx idx' v x :
  index_ok role idx v → v !! GetID x = Some x →
  (∀ s, role s x → Exists (λ p, Peer_StoreId p = s) (Peers (meta x))) →
  deleted_at (Peers (meta x)) (GetID x) idx idx' →
  index_ok role idx' (delete (GetID x) v).
Proof.
  intros Hi Hx Hrole [Hwf Hd] s. split; [apply Hwf|]. rewrite Hd.
  rewrite (proj2 (Hi s)). unfold with_role. rewrite map_filter_delete.
  case_decide as HE; [done|]. rewrite delete_id; [done|].
  apply map_lookup_filter_None. right. intros y Hy Hr. simplify_eq/=. auto.
Qed.

Lemma index_add role `{!RelDecision role} P idx v x ps :
  index_ok role idx v → v !! GetID x = None →
  (∀ s, role s x ↔ Exists (λ p, P p = true ∧ Peer_StoreId p = s) ps) →
  index_ok role (add_if P x ps idx) (<[GetID x := x]> v).
Proof.
  intros Hi Hx Hrole s. split; [apply add_if_wf; intros s'; apply Hi|].
  rewrite add_if_view, (proj2 (Hi s)). unfold with_role. rewrite map_filter_insert.
  simpl. rewrite (delete_id v) by done.
  repeat case_decide; naive_solver.
Qed.

Section correctness.
Context {T : Type} `{!BTreeOps Region T, !BTreeLaws Region T}.
Implicit Types (r : RegionsInfo T) (x z : RegionInfo) (v : gmap Z RegionInfo).

(** The regions by id and the four indexes represent the abstract map. *)
Record cache_ok r v : Prop := {
  cache_rm : RMap.rm_ok (regions r);
  cache_regions : RMap.rm_regions (regions r) = v;
  cache_wf : ∀ id x, v !! id = Some x → region_wf x;
  cache_leaders : index_ok leads (ri_leaders r) v;
  cache_followers : index_ok follows (ri_followers r) v;
  cache_learners : index_ok learns (ri_learners r) v;
  cache_pending : index_ok pends (ri_pendingPeers r) v;
}.

(** The representation relation of the whole cache. *)
Definition represents r v : Prop := cache_ok r v ∧ tree_index (tree r) v.

Lemma cache_id r v id x : cache_ok r v → v !! id = Some x → GetID x = id.
Proof.
  intros [Hrm <- _ _ _ _ _] Hx. unfold RMap.rm_regions in Hx.
  rewrite lookup_fmap in Hx. apply fmap_Some in Hx as (e & He & ->).
  by eapply RMap.rm_id.
Qed.

Lemma GetRegion_abs r v id : cache_ok r v → GetRegion r id = v !! id.
Proof. intros H. unfold GetRegion. by rewrite RMap.Get_view, <-(cache_regions _ _ H). Qed.

Lemma NewRegionsInfo_represents : represents NewRegionsInfo ∅.
Proof.
  split; [split; simpl|split].
  - apply RMap.newRegionMap_ok.
  - apply fmap_empty.
  - intros id x. by rewrite lookup_empty.
  - intros s. unfold with_role. by rewrite lookup_empty, map_filter_empty.
  - intros s. unfold with_role. by rewrite lookup_empty, map_filter_empty.
  - intros s. unfold with_role. by rewrite lookup_empty, map_filter_empty.
  - intros s. unfold with_role. by rewrite lookup_empty, map_filter_empty.
  - apply newRegionTree_wf.
  - intros x. simpl. unfold newRegionTree. rewrite bt_New_items. split.
    + by intros ?%not_elem_of_nil.
    + intros (id & y & Hy & _). by rewrite lookup_empty in Hy.
Qed.

(** Every role of a store in a well-formed region comes from one of its
    peers. *)
Lemma voter_store s x (P : Peer → Prop) :
  region_wf x → Exists (λ p, P p ∧ Peer_StoreId p = s) (voters x) →
  Exists (λ p, Peer_StoreId p = s) (Peers (meta x)).
Proof.
  intros [Hc _ _] (p & Hp & _ & Hs)%Exists_exists.
  apply Exists_exists. apply classified_voter in Hp as [??]; eauto.
Qed.

Lemma leader_store s x :
  region_wf x → leads s x → Exists (λ p, Peer_StoreId p = s) (Peers (meta x)).
Proof. apply (voter_store s x (λ p, Peer_Id p = Peer_GetId (leader x))). Qed.

Lemma follower_store s x :
  region_wf x → follows s x → Exists (λ p, Peer_StoreId p = s) (Peers (meta x)).
Proof. apply (voter_store s x (λ p, Peer_Id p ≠ Peer_GetId (leader x))). Qed.

Lemma learner_store s x :
  region_wf x → learns s x → Exists (λ p, Peer_StoreId p = s) (Peers (meta x)).
Proof.
  intros [Hc _ _] (p & Hp & Hs)%Exists_exists.
  apply Exists_exists. apply classified_learner in Hp as [??]; eauto.
Qed.

Lemma pending_store s x :
  region_wf x → pends s x → Exists (λ p, Peer_StoreId p = s) (Peers (meta x)).
Proof.
  intros [_ _ Hw] (p & Hp & Hs)%Exists_exists. apply Exists_exists.
  destruct (Hw p Hp) as (q & ? & ?). exists q. split; [done|congruence].
Qed.

(** *** RemoveRegion *)

Lemma RemoveRegion_loop id ps r :
  idx_wf (ri_leaders r) → idx_wf (ri_followers r) →
  idx_wf (ri_learners r) → idx_wf (ri_pendingPeers r) →
  ∃ r', foldlM (RemoveRegion_peer id) r ps = Some r' ∧
    tree r' = tree r ∧ regions r' = regions r ∧
    deleted_at ps id (ri_leaders r) (ri_leaders r') ∧
    deleted_at ps id (ri_followers r) (ri_followers r') ∧
    deleted_at ps id (ri_learners r) (ri_learners r') ∧
    deleted_at ps id (ri_pendingPeers r) (ri_pendingPeers r').
Proof.
  revert r. induction ps as [|p ps IH]; intros r H1 H2 H3 H4.
  { exists r. by repeat split. }
  destruct (delete_at_spec _ (Peer_StoreId p) id H1) as (i1 & E1 & ? & V1).
  destruct (delete_at_spec _ (Peer_StoreId p) id H2) as (i2 & E2 & ? & V2).
  destruct (delete_at_spec _ (Peer_StoreId p) id H3) as (i3 & E3 & ? & V3).
  destruct (delete_at_spec _ (Peer_StoreId p) id H4) as (i4 & E4 & ? & V4).
  destruct (IH (mkRegionsInfo (tree r) (regions r) i1 i2 i3 i4))
    as (r' & Hr' & ? & ? & D1 & D2 & D3 & D4); [done..|].
  assert (RemoveRegion_peer id r p
          = Some (mkRegionsInfo (tree r) (regions r) i1 i2 i3 i4)) as E.
  { unfold RemoveRegion_peer. by simplify_option_eq. }
  exists r'. simpl. rewrite E. simpl.
  split_and!; try done; by eapply deleted_at_cons.
Qed.

Lemma index_idx_wf role `{!RelDecision role} idx v : index_ok role idx v → idx_wf idx.
Proof. intros H s. apply H. Qed.

Lemma RemoveRegion_cache r v x :
  cache_ok r v → v !! GetID x = Some x →
  ∃ r', RemoveRegion r x = Some r' ∧ cache_ok r' (delete (GetID x) v) ∧
    tree r' = remove (tree r) (meta x).
Proof.
  intros [Hrm Hv Hwf H1 H2 H3 H4] Hx. unfold RemoveRegion.
  destruct (RMap.Delete_spec (regions r) (GetID x) Hrm) as (rm' & -> & Hrm' & Hv').
  simpl. edestruct RemoveRegion_loop as (r' & -> & Ht & Hr & D1 & D2 & D3 & D4);
    [by eapply index_idx_wf..|].
  exists r'. split; [done|]. split; [|done]. pose proof (Hwf _ _ Hx) as Hwx.
  split.
  - by rewrite Hr.
  - by rewrite Hr, <-Hv.
  - intros id y [_ Hy]%lookup_delete_Some. eauto.
  - eapply index_delete; eauto using leader_store.
  - eapply index_delete; eauto using follower_store.
  - eapply index_delete; eauto using learner_store.
  - eapply index_delete; eauto using pending_store.
Qed.

(** The abstract effect of dropping every region that overlaps [x]. *)
Definition without_overlaps x v : gmap Z RegionInfo :=
  filter (λ p, ¬ overlap (meta x) (meta p.2)) v.

Lemma tree_item_region r v y :
  cache_ok r v → tree_index (tree r) v → y ∈ bt_items (tree r) →
  ∃ z, v !! Region_Id y = Some z ∧ meta z = y.
Proof.
  intros Hc [_ Ht] Hy. apply Ht in Hy as (id & z & Hz & <-).
  exists z. split; [|done]. by rewrite <-(cache_id r v id z Hc Hz) in Hz.
Qed.

Lemma region_tree_item r v id x :
  tree_index (tree r) v → v !! id = Some x → meta x ∈ bt_items (tree r).
Proof. intros [_ Ht] Hx. apply Ht. eauto. Qed.

Lemma bt_items_NoDup (t : T) : tree_wf t → NoDup (bt_items t).
Proof.
  intros Ht. pose proof (bt_items_sorted t (tree_ok _ Ht)) as Hs.
  induction Hs as [|y l Hs IH Hf]; constructor; [|done].
  intros Hy. rewrite list.Forall_forall in Hf. specialize (Hf y Hy).
  by rewrite Less_irrefl in Hf.
Qed.

Lemma overlap_ids_NoDup r v x :
  cache_ok r v → tree_index (tree r) v →
  NoDup (Region_Id <$> filter (overlap (meta x)) (bt_items (tree r))).
Proof.
  intros Hc Ht. apply NoDup_fmap_2_strong.
  - intros y z [_ Hy]%list_elem_of_filter [_ Hz]%list_elem_of_filter Hid.
    apply (tree_item_region r v) in Hy as (y' & Hy & <-); [|done..].
    apply (tree_item_region r v) in Hz as (z' & Hz & <-); [|done..].
    rewrite Hid in Hy. by simplify_eq.
  - apply NoDup_filter, bt_items_NoDup, Ht.
Qed.

(** Removing the overlapping regions one by one; the tree has already
    dropped their metas, so [remove] leaves it alone. *)
Lemma remove_overlaps_loop l r v :
  cache_ok r v → NoDup (Region_Id <$> l) →
  (∀ y, y ∈ l → ∃ z, v !! Region_Id y = Some z ∧ meta z = y) →
  (∀ y, y ∈ l → remove (tree r) y = tree r) →
  ∃ r', foldlM (λ r item, old ← GetRegion r (Region_Id item); RemoveRegion r old) r l
          = Some r' ∧
    cache_ok r' (filter (λ p, p.1 ∉ Region_Id <$> l) v) ∧ tree r' = tree r.
Proof.
  revert r v. induction l as [|y l IH]; intros r v Hc Hnd Hl Ht.
  { exists r. split; [done|]. split; [|done].
    replace (filter _ v) with v; [done|]. symmetry. apply map_filter_id. set_solver. }
  rewrite fmap_cons, NoDup_cons in Hnd. destruct Hnd as [Hy Hnd].
  destruct (Hl y) as (z & Hz & Hm); [set_solver|].
  pose proof (cache_id _ _ _ _ Hc Hz) as Hid.
  destruct (RemoveRegion_cache r v z) as (r1 & E1 & Hc1 & Ht1); [done|by rewrite Hid|].
  rewrite Hm, Ht in Ht1 by set_solver. rewrite Hid in Hc1.
  destruct (IH r1 (delete (Region_Id y) v)) as (r' & E' & Hc' & Ht'); [done|done| | |].
  { intros y' Hy'. destruct (Hl y') as (z' & Hz' & ?); [set_solver|]. exists z'.
    rewrite lookup_delete_ne; [done|]. intros E. apply Hy. rewrite E.
    by apply list_elem_of_fmap_2. }
  { intros y' Hy'. rewrite Ht1. apply Ht. set_solver. }
  exists r'. simpl. rewrite (GetRegion_abs r v) by done. rewrite Hz. simpl.
  rewrite E1. simpl. split; [done|]. split; [|congruence].
  eapply eq_rect; [exact Hc'|]. apply map_eq. intros id. apply option_eq. intros w.
  rewrite !map_lookup_filter_Some, lookup_delete_Some. simpl.
  rewrite not_elem_of_cons. naive_solver.
Qed.

Lemma overlap_ids_filter r v x :
  cache_ok r v → tree_index (tree r) v →
  filter (λ p, p.1 ∉ Region_Id <$> filter (overlap (meta x)) (bt_items (tree r))) v
  = without_overlaps x v.
Proof.
  intros Hc Ht. unfold without_overlaps. apply map_filter_ext. intros id z Hz. simpl.
  split; intros H Ho; apply H; clear H.
  - apply list_elem_of_fmap. exists (meta z).
    split; [symmetry; by eapply (cache_id r v)|].
    apply list_elem_of_filter. eauto using region_tree_item.
  - apply list_elem_of_fmap in Ho as (y & -> & [Ho Hy]%list_elem_of_filter).
    apply (tree_item_region r v) in Hy as (z' & Hz' & Hm); [|done..]. by simplify_eq.
Qed.

(** Dropping the overlapping regions does nothing to a tree that already
    holds [x] in their place. *)
Lemma remove_after_update r v x y :
  cache_ok r v → tree_index (tree r) v → region_wf x → v !! GetID x = None →
  y ∈ filter (overlap (meta x)) (bt_items (tree r)) →
  remove (update (tree r) (meta x)).1 y = (update (tree r) (meta x)).1.
Proof.
  intros Hc Ht Hx Hn [Ho Hy]%list_elem_of_filter. pose proof (proj1 Ht) as Hwf.
  apply remove_noop; [by apply update_wf, Hx|].
  intros i Hi Hr. apply update_elem in Hi; [|done|apply Hx].
  destruct Hi as [->|[Hi Hno]].
  - intros Hid. destruct (tree_item_region r v y) as (z & Hz & _); [done..|].
    unfold GetID in Hn. congruence.
  - exfalso. rewrite (tree_in_range_unique (tree r) i y (StartKey y)) in Hno;
      eauto using valid_in_range, tree_item_valid.
Qed.

(** *** AddRegion and SetRegion *)

Lemma add_indexes_cache r v x ld fl :
  cache_ok r v → region_wf x → v !! GetID x = None →
  add_voters x (ri_leaders r, ri_followers r) = (ld, fl) →
  cache_ok (mkRegionsInfo (tree r) (RMap.Put (regions r) x) ld fl
              (add_peers x (GetLearners x) (ri_learners r))
              (add_peers x (pendingPeers x) (ri_pendingPeers r)))
    (<[GetID x := x]> v).
Proof.
  intros [Hrm Hv Hwf H1 H2 H3 H4] Hx Hn. rewrite add_voters_if. intros [= <- <-].
  split; simpl.
  - by apply RMap.Put_ok.
  - by rewrite RMap.Put_regions, Hv.
  - intros id z [[_ <-]|[_ Hz]]%lookup_insert_Some; eauto.
  - apply index_add; [done..|]. intros s. by setoid_rewrite Z.eqb_eq.
  - apply index_add; [done..|]. intros s. by setoid_rewrite negb_true_iff;
      setoid_rewrite Z.eqb_neq.
  - apply (index_add _ (λ _, true)); [done..|]. intros s. unfold learns, GetLearners.
    apply Exists_proper; [|done]. intros p. split; [done|by intros [_ ?]].
  - apply (index_add _ (λ _, true)); [done..|]. intros s. unfold pends.
    apply Exists_proper; [|done]. intros p. split; [done|by intros [_ ?]].
Qed.

Lemma AddRegion_represents r v x :
  represents r v → region_wf x → v !! GetID x = None →
  ∃ r', AddRegion r x = Some (r', filter (overlap (meta x)) (bt_items (tree r))) ∧
    represents r' (<[GetID x := x]> (without_overlaps x v)).
Proof.
  intros [Hc Ht] Hx Hn. pose proof (proj1 Ht) as Hwf. unfold AddRegion.
  rewrite (surjective_pairing (update _ _)), update_overlaps by done.
  set (r0 := mkRegionsInfo (update (tree r) (meta x)).1 (regions r) (ri_leaders r)
    (ri_followers r) (ri_learners r) (ri_pendingPeers r)).
  assert (cache_ok r0 v) as Hc0 by by destruct Hc.
  destruct (remove_overlaps_loop (filter (overlap (meta x)) (bt_items (tree r))) r0 v)
    as (r1 & -> & Hc1 & Ht1); [done|by apply (overlap_ids_NoDup r v)|..].
  { intros y [_ Hy]%list_elem_of_filter. by apply (tree_item_region r v). }
  { intros y Hy. by apply (remove_after_update r v). }
  rewrite (overlap_ids_filter r v) in Hc1 by done. simpl.
  destruct (add_voters x _) as [ld fl] eqn:Ev. eexists. split; [done|].
  assert (without_overlaps x v !! GetID x = None) as Hn'.
  { apply map_lookup_filter_None. by left. }
  split; [by apply add_indexes_cache|]. cbn [tree]. rewrite Ht1. unfold r0. cbn [tree].
  split.
  - by apply update_wf, Hx.
  - intros y. rewrite update_elem by (done || apply Hx). split.
    + intros [->|[Hy Hno]]; [exists (GetID x), x; by rewrite lookup_insert_eq|].
      destruct (tree_item_region r v y) as (z & Hz & <-); [done..|].
      exists (Region_Id (meta z)), z. split; [|done].
      rewrite lookup_insert_ne by (intros E; congruence).
      by apply map_lookup_filter_Some.
    + intros (id & z & [[<- <-]|[_ Hz]]%lookup_insert_Some & <-); [by left|right].
      apply map_lookup_filter_Some in Hz as [Hz Hno]. split; [|done].
      by eapply (region_tree_item r v).
Qed.

Lemma RemoveRegion_represents r v x :
  represents r v → v !! GetID x = Some x →
  ∃ r', RemoveRegion r x = Some r' ∧ represents r' (delete (GetID x) v).
Proof.
  intros [Hc Ht] Hx. destruct (RemoveRegion_cache r v x) as (r' & -> & Hc' & Ht'); [done..|].
  exists r'. split; [done|]. split; [done|]. rewrite Ht'.
  assert (meta x ∈ bt_items (tree r)) as Hm by by eapply (region_tree_item r v).
  destruct (remove_in (tree r) (meta x) (meta x)) as [Hwf Hit];
    [apply Ht|done|eapply valid_in_range, tree_item_valid; [apply Ht|done]|done|].
  split; [done|]. intros y. rewrite Hit, list_elem_of_filter. split.
  - intros [Hne Hy]. destruct (tree_item_region r v y) as (z & Hz & <-); [done..|].
    exists (Region_Id (meta z)), z. split; [|done]. apply lookup_delete_Some.
    split; [|done]. intros E. congruence.
  - intros (id & z & [Hne Hz]%lookup_delete_Some & <-).
    split; [|by eapply (region_tree_item r v)]. intros E. apply Hne.
    rewrite <-(cache_id r v id z Hc Hz). unfold GetID. by rewrite E.
Qed.

(** The abstract effect of [SetRegion]. *)
Definition spec_SetRegion x v : gmap Z RegionInfo :=
  <[GetID x := x]> (without_overlaps x v).

Lemma without_overlaps_delete x v :
  <[GetID x := x]> (without_overlaps x (delete (GetID x) v)) = spec_SetRegion x v.
Proof.
  unfold spec_SetRegion, without_overlaps.
  by rewrite map_filter_delete, insert_delete_eq.
Qed.

Lemma SetRegion_represents r v x :
  represents r v → region_wf x →
  ∃ r' overlaps, SetRegion r x = Some (r', overlaps) ∧
    represents r' (spec_SetRegion x v) ∧
    (∀ y, y ∈ overlaps ↔
      ∃ id z, v !! id = Some z ∧ id ≠ GetID x ∧ overlap (meta x) (meta z) ∧ meta z = y).
Proof.
  intros Hr Hx. pose proof (proj1 Hr) as Hc. unfold SetRegion.
  assert (∃ r1, (match RMap.Get (Some (regions r)) (GetID x) with
      | Some origin => RemoveRegion r origin | None => Some r end) = Some r1 ∧
    represents r1 (delete (GetID x) v)) as (r1 & -> & Hr1).
  { fold (GetRegion r (GetID x)). rewrite (GetRegion_abs r v) by done.
    destruct (v !! GetID x) as [o|] eqn:E.
    - pose proof (cache_id _ _ _ _ Hc E) as Ho. rewrite <-Ho.
      apply RemoveRegion_represents; [done|]. by rewrite Ho.
    - exists r. by rewrite delete_id. }
  simpl. destruct (AddRegion_represents r1 (delete (GetID x) v) x) as (r' & -> & Hr');
    [done|done|apply lookup_delete_eq|].
  rewrite without_overlaps_delete in Hr'.
  eexists _, _. split; [done|]. split; [done|]. intros y.
  rewrite list_elem_of_filter, (proj2 (proj2 Hr1)).
  setoid_rewrite lookup_delete_Some. naive_solver.
Qed.
End correctness.
