(* ===== verification/RegionsInfoProps.v ===== *)
(** * Properties of the region cache

    The states the region cache reaches, the correctness of its queries on
    them, and the theorems of the component with their witnesses. *)

From S2P Require Import Prelude GoBytes BTree Metapb Region RegionTree RegionMap RegionsInfo.

Section queries.
Context {T : Type} `{!BTreeOps Region T, !BTreeLaws Region T}.
Implicit Types (r : RegionsInfo T) (v : gmap Z RegionInfo).

(** ** Reachable caches *)

(** The cache starts empty and changes by [SetRegion] on well-formed regions
    and by [RemoveRegion] on a region it holds. *)
Inductive reachable : RegionsInfo T → Prop :=
| reach_new : reachable NewRegionsInfo
| reach_set r x r' overlaps :
    reachable r → region_wf x → SetRegion r x = Some (r', overlaps) → reachable r'
| reach_drop r id x r' :
    reachable r → GetRegion r id = Some x → RemoveRegion r x = Some r' → reachable r'.

(** The regions of the cache by id. *)
Definition abs r : gmap Z RegionInfo := RMap.rm_regions (regions r).

Lemma represents_abs r v : represents r v → v = abs r.
Proof. intros [Hc _]. symmetry. apply Hc. Qed.

Lemma GetRegion_id r v id x :
  represents r v → GetRegion r id = Some x → v !! GetID x = Some x.
Proof.
  intros [Hc _]. rewrite (GetRegion_abs r v) by done. intros Hx.
  by rewrite (cache_id r v id x).
Qed.

Lemma reachable_represents r : reachable r → represents r (abs r).
Proof.
  induction 1 as [|r x r' ov _ IH Hx E|r id x r' _ IH Hg E].
  - rewrite <-(represents_abs _ ∅); apply NewRegionsInfo_represents.
  - destruct (SetRegion_represents r (abs r) x) as (r1 & ov1 & E1 & Hr & _); [done..|].
    simplify_eq. by rewrite <-(represents_abs _ _ Hr).
  - destruct (RemoveRegion_represents r (abs r) x) as (r1 & E1 & Hr);
      [done|by eapply GetRegion_id|].
    simplify_eq. by rewrite <-(represents_abs _ _ Hr).
Qed.

(** ** Queries on a represented cache *)

Lemma item_lookup r v y :
  represents r v → y ∈ bt_items (tree r) →
  ∃ x, GetRegion r (Region_Id y) = Some x ∧ meta x = y ∧ v !! GetID x = Some x.
Proof.
  intros [Hc Ht] Hy. destruct (tree_item_region r v y) as (x & Hx & <-); [done..|].
  exists x. by rewrite (GetRegion_abs r v).
Qed.

Lemma SearchRegion_spec r v k x :
  represents r v →
  SearchRegion r k = Some x ↔ v !! GetID x = Some x ∧ in_range (meta x) k.
Proof.
  intros Hr. pose proof Hr as [Hc Ht]. unfold SearchRegion.
  assert (tree_wf (tree r)) as Hwf by apply Ht. split.
  - destruct (search (tree r) k) as [y|] eqn:E; [|done].
    apply search_Some in E as [Hy Hk]; [|done].
    destruct (item_lookup r v y) as (x' & -> & <- & Hx'); [done..|].
    by intros [= <-].
  - intros [Hx Hk].
    rewrite (proj2 (search_Some (tree r) k (meta x) Hwf));
      [|split; [by eapply (region_tree_item r v)|done]].
    by rewrite (GetRegion_abs r v).
Qed.

Lemma cache_disjoint r v id1 id2 x1 x2 :
  represents r v → v !! id1 = Some x1 → v !! id2 = Some x2 → id1 ≠ id2 →
  ¬ overlap (meta x1) (meta x2).
Proof.
  intros [Hc Ht] H1 H2 Hne. apply not_overlap.
  destruct (tree_items_cases (tree r) (meta x1) (meta x2)) as [E|?];
    [apply Ht|by eapply (region_tree_item r v)..| |done].
  exfalso. apply Hne. rewrite <-(cache_id _ _ _ _ Hc H1), <-(cache_id _ _ _ _ Hc H2).
  unfold GetID. by rewrite E.
Qed.

Lemma items_length r v : represents r v → length (bt_items (tree r)) = size v.
Proof.
  intros [Hc Ht]. rewrite <-length_map_to_list, <-(length_fmap (meta ∘ snd)).
  apply Permutation_length, NoDup_Permutation.
  - apply bt_items_NoDup, Ht.
  - apply NoDup_fmap_2_strong; [|apply NoDup_map_to_list].
    intros [i x] [j z] Hi%elem_of_map_to_list Hj%elem_of_map_to_list E.
    simpl in E. pose proof (cache_id _ _ _ _ Hc Hi). pose proof (cache_id _ _ _ _ Hc Hj).
    assert (i = j) as -> by (unfold GetID in *; congruence). by simplify_eq.
  - intros y. rewrite (proj2 Ht), list_elem_of_fmap. split.
    + intros (id & x & Hx & <-). exists (id, x). by rewrite elem_of_map_to_list.
    + intros ([id x] & -> & Hx%elem_of_map_to_list). eauto.
Qed.

(** The per-store statistics of the cache, as functions of the map. *)
Lemma store_counts r v s :
  represents r v →
  GetStoreLeaderCount r s = size (with_role leads s v) ∧
  GetStoreFollowerCount r s = size (with_role follows s v) ∧
  GetStoreLearnerCount r s = size (with_role learns s v) ∧
  GetStorePendingPeerCount r s = size (with_role pends s v).
Proof.
  intros [Hc _]. unfold GetStoreLeaderCount, GetStoreFollowerCount,
    GetStoreLearnerCount, GetStorePendingPeerCount. rewrite !RMap.Len_view.
  rewrite (proj2 (cache_leaders _ _ Hc s)), (proj2 (cache_followers _ _ Hc s)),
    (proj2 (cache_learners _ _ Hc s)), (proj2 (cache_pending _ _ Hc s)). done.
Qed.

Definition total_size v : Z := RMap.view_sum approximateSize v.

Lemma store_sizes r v s :
  represents r v →
  GetStoreLeaderRegionSize r s = int64 (total_size (with_role leads s v)) ∧
  GetStoreFollowerRegionSize r s = int64 (total_size (with_role follows s v)) ∧
  GetStoreLearnerRegionSize r s = int64 (total_size (with_role learns s v)) ∧
  GetStoreRegionSize r s =
    int64 (total_size (with_role leads s v) + total_size (with_role follows s v)
           + total_size (with_role learns s v)).
Proof.
  intros [Hc _]. unfold GetStoreRegionSize, GetStoreLeaderRegionSize,
    GetStoreFollowerRegionSize, GetStoreLearnerRegionSize.
  rewrite !RMap.TotalSize_view
    by (apply (cache_leaders _ _ Hc) || apply (cache_followers _ _ Hc)
        || apply (cache_learners _ _ Hc)).
  rewrite (proj2 (cache_leaders _ _ Hc s)), (proj2 (cache_followers _ _ Hc s)),
    (proj2 (cache_learners _ _ Hc s)). split; [done|].
  fold (total_size (with_role leads s v)) (total_size (with_role follows s v))
    (total_size (with_role learns s v)).
  generalize (total_size (with_role leads s v)), (total_size (with_role follows s v)),
    (total_size (with_role learns s v)); intros a b c.
  by rewrite (int64_add_l a), (int64_add_r a b), int64_add_l, int64_add_r.
Qed.

(** ** Scans and neighbours *)

(** The items that start at or after a key, in key order. *)
Definition items_from r (k : bytes) : list Region :=
  filter (λ y, (k ≤ StartKey y)%key) (bt_items (tree r)).

Lemma scan_items r k : items_ge (probe k) (bt_items (tree r)) = items_from r k.
Proof. unfold items_ge, items_from. apply filter_ext_in. intros y _. by rewrite Less_false. Qed.

Lemma items_lookup r v l :
  represents r v → (∀ y, y ∈ l → y ∈ bt_items (tree r)) →
  ∃ xs, (λ y, GetRegion r (Region_Id y)) <$> l = Some <$> xs ∧ meta <$> xs = l ∧
    Forall (λ x, v !! GetID x = Some x) xs.
Proof.
  intros Hr. induction l as [|y l IH]; intros Hl.
  { exists []. by repeat split. }
  destruct IH as (xs & E1 & E2 & E3); [set_solver|].
  destruct (item_lookup r v y) as (x & Hx & Hm & Hv); [done|set_solver|].
  exists (x :: xs). rewrite !fmap_cons, Hx, E1, Hm, E2. by repeat constructor.
Qed.

Lemma ScanRange_spec r v k limit :
  represents r v → 0 ≤ limit →
  ∃ xs, ScanRange r k limit = Some (Some <$> xs) ∧
    meta <$> xs = take (Z.to_nat (Z.max 1 limit)) (items_from r k) ∧
    Forall (λ x, v !! GetID x = Some x) xs.
Proof.
  intros Hr Hl. unfold ScanRange, scanRange.
  rewrite (proj2 (Z.ltb_ge _ _)) by done.
  rewrite bt_AscendGreaterOrEqual_items by apply (proj2 Hr).
  rewrite (iter_while_limit (λ y, GetRegion r (Region_Id y))), scan_items. simpl.
  rewrite Z.sub_0_r.
  destruct (items_lookup r v (take (Z.to_nat (Z.max 1 limit)) (items_from r k)))
    as (xs & -> & ? & ?); [done| |by exists xs].
  intros y (i & Hy & _)%elem_of_take. apply list_elem_of_lookup_2 in Hy.
  by apply list_elem_of_filter in Hy as [_ ?].
Qed.

Lemma omap_fmap_Some {A B} (g : A → option B) (l : list A) xs :
  g <$> l = Some <$> xs → omap g l = xs.
Proof.
  revert xs. induction l as [|a l IH]; intros [|x xs]; try done.
  simpl. intros [= Hg E]. rewrite Hg. simpl. f_equal. by apply IH.
Qed.

(** The regions that start at or after [startKey] and end strictly before
    [endKey]. *)
Definition ends_before (endKey : bytes) (y : Region) : Prop :=
  endKey = [] ∨ (EndKey y ≠ [] ∧ (EndKey y < endKey)%key).

#[global] Instance ends_before_dec k y : Decision (ends_before k y).
Proof. unfold ends_before. apply _. Defined.

Lemma ScanRangeWithEndKey_spec r v k e :
  represents r v →
  meta <$> ScanRangeWithEndKey r k e = filter (ends_before e) (items_from r k) ∧
  Forall (λ x, v !! GetID x = Some x) (ScanRangeWithEndKey r k e).
Proof.
  intros Hr. unfold ScanRangeWithEndKey, scanRange.
  assert (tree_wf (tree r)) as Hwf by apply (proj2 Hr).
  rewrite bt_AscendGreaterOrEqual_items, scan_items by apply Hwf.
  rewrite (iter_while_omap before (ends_before e) _
    (λ y, GetRegion r (Region_Id y))).
  - simpl. destruct (items_lookup r v (filter (ends_before e) (items_from r k)))
      as (xs & E & ? & ?); [done| |].
    { intros y [_ [_ Hy]%list_elem_of_filter]%list_elem_of_filter. done. }
    by rewrite (omap_fmap_Some _ _ _ E).
  - intros y. unfold ends_before.
    rewrite andb_true_iff, orb_true_iff, Compare_geb, bool_decide_eq_true, Nat.ltb_lt,
      Nat.eqb_eq, length_zero_iff_nil, <-key_nlt_le.
    assert ((0 < length e)%nat ↔ e ≠ []) as -> by (destruct e; simpl; split; lia || done).
    destruct (decide (e = [])), (decide (EndKey y = [])),
      (decide (EndKey y < e)%key); tauto.
  - intros x y [_ Hx]%list_elem_of_filter [_ Hy]%list_elem_of_filter [Hne Hle] Hnx Hny.
    apply Hnx. destruct Hny as [?|[? ?]]; [by left|right]. split; [done|].
    destruct (tree_item_valid _ _ Hwf Hy); [done|]. key_order.
  - apply StronglySorted_filter, Hwf.
Qed.

Lemma GetAdjacentRegions_spec r v x :
  represents r v → v !! GetID x = Some x →
  (∀ p, (GetAdjacentRegions r x).1 = Some p ↔
    v !! GetID p = Some p ∧ before (meta p) (meta x) ∧
    EndKey (meta p) = StartKey (meta x)) ∧
  (∀ n, (GetAdjacentRegions r x).2 = Some n ↔
    v !! GetID n = Some n ∧ before (meta x) (meta n) ∧
    EndKey (meta x) = StartKey (meta n)).
Proof.
  intros Hr Hx. pose proof Hr as [Hc Ht]. pose proof (proj1 Ht) as Hwf.
  assert (meta x ∈ bt_items (tree r)) as Hm by by eapply (region_tree_item r v).
  unfold GetAdjacentRegions. rewrite getAdjacentRegions_spec by done. simpl.
  split; intros p.
  - split.
    + destruct (head _) as [y|] eqn:E; [|done].
      destruct (Equal _ _) eqn:Eq; [apply Equal_true in Eq|done].
      apply last_before in E as [Hy Hb]; [|done..].
      destruct (item_lookup r v y) as (z & -> & <- & ?); [done..|]. by intros [= <-].
    + intros (Hp & Hb & Hk).
      rewrite (proj2 (last_before (tree r) (meta x) (meta p) Hwf Hm Hk))
        by (split; [by eapply (region_tree_item r v)|done]).
      rewrite (proj2 (Equal_true _ _) Hk). by rewrite (GetRegion_abs r v).
  - split.
    + destruct (head _) as [y|] eqn:E; [|done].
      destruct (Equal _ _) eqn:Eq; [apply Equal_true in Eq|done].
      apply first_after in E as [Hy Hb]; [|done..].
      destruct (item_lookup r v y) as (z & -> & <- & ?); [done..|]. by intros [= <-].
    + intros (Hp & Hb & Hk).
      rewrite (proj2 (first_after (tree r) (meta x) (meta p) Hwf Hm Hk))
        by (split; [by eapply (region_tree_item r v)|done]).
      rewrite (proj2 (Equal_true _ _) Hk). by rewrite (GetRegion_abs r v).
Qed.

(** ** Random selection *)

Lemma randRegion_sound draws rm opts res :
  RMap.rm_ok_nil rm → randRegion draws rm opts = Some (Some res) →
  (∃ id, RMap.rm_view rm !! id = Some res) ∧
  forallb (λ opt : RegionOption, opt res) opts = true.
Proof.
  intros Hok. unfold randRegion. generalize randomRegionMaxRetry as fuel, 0%nat as i.
  intros fuel. induction fuel as [|fuel IH]; intros i; simpl; [done|].
  destruct (RMap.RandomRegion_sound (draws i) rm Hok) as [[_ ->]|(id & x & Hx & ->)];
    simpl; [done|].
  destruct (forallb (λ opt : RegionOption, opt x) opts) eqn:E; [|apply IH].
  intros [= <-]. eauto.
Qed.

Lemma randRegion_total draws rm opts :
  RMap.rm_ok_nil rm → ∃ res, randRegion draws rm opts = Some res.
Proof.
  intros Hok. unfold randRegion. generalize randomRegionMaxRetry as fuel, 0%nat as i.
  intros fuel. induction fuel as [|fuel IH]; intros i; simpl; [by eexists|].
  destruct (RMap.RandomRegion_sound (draws i) rm Hok) as [[_ ->]|(id & x & Hx & ->)];
    simpl; [by eexists|]. destruct (forallb _ opts); [by eexists|apply IH].
Qed.

Lemma randRegion_complete rm opts id x :
  RMap.rm_ok_nil rm → RMap.rm_view rm !! id = Some x →
  forallb (λ opt : RegionOption, opt x) opts = true →
  ∃ draws, randRegion draws rm opts = Some (Some x).
Proof.
  intros Hok Hx Ho. destruct (RMap.RandomRegion_complete rm id x Hok Hx) as [d Hd].
  exists (λ _, d). unfold randRegion, randomRegionMaxRetry. simpl. rewrite Hd. simpl.
  by rewrite Ho.
Qed.
End queries.

(** ** Theorems *)

Section theorems.
Context {T : Type} `{!BTreeOps Region T, !BTreeLaws Region T}.

(** C1: [SetRegion] refines its specification: on a cache that represents a
    map of regions it does not panic, the new cache represents the map in
    which the region is stored under its id and every region whose key range
    overlaps it is gone, and the metas it returns are those of the dropped
    regions with another id. *)
Theorem SetRegion_refines (r : RegionsInfo T) v x :
  represents r v → region_wf x →
  ∃ r' overlaps, SetRegion r x = Some (r', overlaps) ∧
    represents r' (<[GetID x := x]> (filter (λ p, ¬ overlap (meta x) (meta p.2)) v)) ∧
    (∀ y, y ∈ overlaps ↔
      ∃ id z, v !! id = Some z ∧ id ≠ GetID x ∧ overlap (meta x) (meta z) ∧ meta z = y).
Proof. apply SetRegion_represents. Qed.

(** C16: the operations of a reachable cache that could dereference nil or index
    out of range do not: storing a well-formed region, removing a stored one, and
    drawing a region at random from all of them or from those a store leads,
    follows or has a pending peer of.  A scan panics exactly when its limit is
    negative, and otherwise finds a region for every item of the tree. *)
Theorem reachable_no_panic (r : RegionsInfo T) :
  reachable r →
  (∀ x, region_wf x → is_Some (SetRegion r x)) ∧
  (∀ id x, GetRegion r id = Some x → is_Some (RemoveRegion r x)) ∧
  (∀ k limit, ScanRange r k limit = None ↔ limit < 0) ∧
  (∀ k limit, 0 ≤ limit → ∃ xs, ScanRange r k limit = Some (Some <$> xs)) ∧
  (∀ draws opts, is_Some (RandRegion draws r opts)) ∧
  (∀ draws s opts, is_Some (RandLeaderRegion draws r s opts)) ∧
  (∀ draws s opts, is_Some (RandFollowerRegion draws r s opts)) ∧
  (∀ draws s opts, is_Some (RandPendingRegion draws r s opts)).
Proof.
  intros Hr%reachable_represents. pose proof (proj1 Hr) as Hc. split_and!.
  - intros x Hx. destruct (SetRegion_represents r (abs r) x) as (? & ? & -> & _); eauto.
  - intros id x Hx. destruct (RemoveRegion_represents r (abs r) x) as (? & -> & _);
      eauto using GetRegion_id.
  - intros k limit. unfold ScanRange. destruct (Z.ltb_spec limit 0); split; done || lia.
  - intros k limit Hl. destruct (ScanRange_spec r (abs r) k limit) as (? & -> & _); eauto.
  - intros draws opts. apply randRegion_total, Hc.
  - intros draws s opts. apply randRegion_total, (cache_leaders _ _ Hc).
  - intros draws s opts. apply randRegion_total, (cache_followers _ _ Hc).
  - intros draws s opts. apply randRegion_total, (cache_pending _ _ Hc).
Qed.

(** C14: in a reachable cache a key lookup finds exactly the stored region
    whose range contains the key, so no key belongs to two regions. *)
Theorem reachable_search (r : RegionsInfo T) k x :
  reachable r →
  SearchRegion r k = Some x ↔
  GetRegion r (GetID x) = Some x ∧ in_range (meta x) k.
Proof.
  intros Hr%reachable_represents.
  rewrite (GetRegion_abs r (abs r)) by apply Hr. by apply SearchRegion_spec.
Qed.

(** C5: the indexes of a reachable cache are exact: the leader, follower, learner
    and pending counts of a store count the stored regions with that role, the
    leader, follower and learner sizes are their [int64] sums, and so is the size
    of all of them; the tree holds the metas of the stored regions and no others,
    each once. *)
Theorem reachable_store_stats (r : RegionsInfo T) s :
  reachable r →
  GetStoreLeaderCount r s = size (filter (λ p, leads s p.2) (abs r)) ∧
  GetStoreFollowerCount r s = size (filter (λ p, follows s p.2) (abs r)) ∧
  GetStoreLearnerCount r s = size (filter (λ p, learns s p.2) (abs r)) ∧
  GetStorePendingPeerCount r s = size (filter (λ p, pends s p.2) (abs r)) ∧
  GetStoreLeaderRegionSize r s = int64 (total_size (filter (λ p, leads s p.2) (abs r))) ∧
  GetStoreFollowerRegionSize r s = int64 (total_size (filter (λ p, follows s p.2) (abs r))) ∧
  GetStoreLearnerRegionSize r s = int64 (total_size (filter (λ p, learns s p.2) (abs r))) ∧
  GetStoreRegionSize r s =
    int64 (total_size (filter (λ p, leads s p.2) (abs r))
           + total_size (filter (λ p, follows s p.2) (abs r))
           + total_size (filter (λ p, learns s p.2) (abs r))) ∧
  NoDup (bt_items (tree r)) ∧
  (∀ y, y ∈ bt_items (tree r) ↔ ∃ x, GetRegion r (Region_Id y) = Some x ∧ meta x = y) ∧
  TreeLength r = Length r.
Proof.
  intros Hr%reachable_represents.
  destruct (store_counts r (abs r) s Hr) as (-> & -> & -> & ->).
  destruct (store_sizes r (abs r) s Hr) as (-> & -> & -> & ->). split_and!; try done.
  - apply bt_items_NoDup, Hr.
  - intros y. rewrite (proj2 (proj2 Hr) y). rewrite (GetRegion_abs r (abs r)) by apply Hr. split.
    + intros (id & x & Hx & <-). exists x. split; [|done]. by rewrite <-(cache_id r (abs r) id x (proj1 Hr) Hx) in Hx.
    + intros (x & Hx & <-). eauto.
  - unfold TreeLength, tree_length, Length. rewrite bt_Len_items by apply (proj2 Hr).
    rewrite (items_length r (abs r)), RMap.Len_view by done. done.
Qed.

(** The neighbours of a stored region are the stored regions that touch
    it, and looking up the previous region of a key is looking up the key and
    taking the left neighbour. *)
Theorem reachable_neighbours (r : RegionsInfo T) x :
  reachable r → GetRegion r (GetID x) = Some x →
  (∀ p, (GetAdjacentRegions r x).1 = Some p ↔
    GetRegion r (GetID p) = Some p ∧ before (meta p) (meta x) ∧
    EndKey (meta p) = StartKey (meta x)) ∧
  (∀ n, (GetAdjacentRegions r x).2 = Some n ↔
    GetRegion r (GetID n) = Some n ∧ before (meta x) (meta n) ∧
    EndKey (meta x) = StartKey (meta n)) ∧
  (∀ k, in_range (meta x) k → SearchPrevRegion r k = (GetAdjacentRegions r x).1).
Proof.
  intros Hr%reachable_represents Hx. pose proof (proj1 Hr) as Hc.
  pose proof (proj1 (proj2 Hr)) as Hwf.
  setoid_rewrite (GetRegion_abs r (abs r) _ Hc).
  rewrite (GetRegion_abs r (abs r) _ Hc) in Hx.
  destruct (GetAdjacentRegions_spec r (abs r) x Hr Hx) as [Hp Hn].
  split; [done|]. split; [done|]. intros k Hk. apply option_eq. intros p. rewrite Hp.
  assert (search (tree r) k = Some (meta x)) as Hs.
  { apply search_Some; [done|]. split; [|done].
    by eapply (region_tree_item r (abs r)); [apply Hr|]. }
  unfold SearchPrevRegion. split.
  - destruct (searchPrev (tree r) k) as [y|] eqn:E; [|done].
    apply searchPrev_spec in E as (c & Hc' & Hy & Hb & He); [|done].
    destruct (item_lookup r (abs r) y Hr Hy) as (z & -> & <- & Hz).
    intros [= <-]. rewrite Hs in Hc'. by simplify_eq.
  - intros (Hp' & Hb & He).
    rewrite (proj2 (searchPrev_spec (tree r) k (meta p) Hwf)).
    + by rewrite (GetRegion_abs r (abs r)).
    + exists (meta x). split; [done|]. split; [|done].
      by eapply (region_tree_item r (abs r)); [apply Hr|].
Qed.

(** A scan of a reachable cache returns stored regions in key order: with
    a limit the first [max 1 limit] regions that start at or after the key,
    with an end key those of them that end strictly before the end key. *)
Theorem reachable_scans (r : RegionsInfo T) k :
  reachable r →
  (∀ limit, 0 ≤ limit → ∃ xs, ScanRange r k limit = Some (Some <$> xs) ∧
    meta <$> xs = take (Z.to_nat (Z.max 1 limit))
                    (filter (λ y, k ≤ StartKey y)%key (bt_items (tree r))) ∧
    Forall (λ x, GetRegion r (GetID x) = Some x) xs) ∧
  (∀ e, meta <$> ScanRangeWithEndKey r k e =
    filter (ends_before e) (filter (λ y, k ≤ StartKey y)%key (bt_items (tree r)))).
Proof.
  intros Hr%reachable_represents. split.
  - intros limit Hl. destruct (ScanRange_spec r (abs r) k limit Hr Hl) as (xs & ? & ? & Hf).
    exists xs. split; [done|]. split; [done|].
    eapply Forall_impl; [exact Hf|]. intros x. by rewrite (GetRegion_abs r (abs r)) by apply Hr.
  - intros e. by apply (ScanRangeWithEndKey_spec r (abs r)).
Qed.

(** A random leader region of a store satisfies every selection option
    and is led by the store, and every such region is drawn by some sequence
    of random numbers. *)
Theorem reachable_random_leader (r : RegionsInfo T) s opts x :
  reachable r →
  (∃ draws, RandLeaderRegion draws r s opts = Some (Some x)) ↔
  GetRegion r (GetID x) = Some x ∧ leads s x ∧
  forallb (λ opt : RegionOption, opt x) opts = true.
Proof.
  intros Hr%reachable_represents. pose proof (proj1 Hr) as Hc.
  destruct (cache_leaders _ _ Hc s) as [Hok Hv].
  rewrite (GetRegion_abs r (abs r) _ Hc). split.
  - intros [draws Hd]. apply randRegion_sound in Hd as [[id Hx] Ho]; [|done].
    rewrite Hv in Hx. apply map_lookup_filter_Some in Hx as [Hx Hl].
    by rewrite (cache_id r (abs r) id x Hc Hx).
  - intros (Hx & Hl & Ho). apply (randRegion_complete _ _ (GetID x)); [done| |done].
    rewrite Hv. by apply map_lookup_filter_Some.
Qed.
End theorems.

(** ** Witnesses

    The cache over the sorted-list instance of the B-tree interface. *)

Import SortedList.

Module Demo.
(** Two adjacent regions on stores 1, 2 and 3. *)
Definition peers (i : Z) : list Peer :=
  [mkPeer (10 * i + 1) 1 false; mkPeer (10 * i + 2) 2 false; mkPeer (10 * i + 3) 3 true].
Definition key (b : Byte.byte) : bytes := [b].
Definition meta1 : Region := mkRegion 1 [] (key Byte.x6d) (Some (mkRegionEpoch 1 1)) (peers 1).
Definition meta2 : Region := mkRegion 2 (key Byte.x6d) [] (Some (mkRegionEpoch 1 1)) (peers 2).
Definition region1 : RegionInfo :=
  NewRegionInfo meta1 (Some (mkPeer 11 1 false)) [SetApproximateSize 10].
Definition region2 : RegionInfo :=
  NewRegionInfo meta2 (Some (mkPeer 22 2 false)) [SetApproximateSize 20].

Lemma region1_wf : region_wf region1.
Proof. split; [apply NewRegionInfo_classified|by right|by intros p Hp%not_elem_of_nil]. Qed.
Lemma region2_wf : region_wf region2.
Proof. split; [apply NewRegionInfo_classified|by left|by intros p Hp%not_elem_of_nil]. Qed.

Definition set (r : RegionsInfo (list Region)) (x : RegionInfo) : RegionsInfo (list Region) :=
  from_option fst r (SetRegion r x).
Definition cache1 := set NewRegionsInfo region1.
Definition cache := set cache1 region2.

Lemma cache1_reachable : reachable cache1.
Proof.
  apply (reach_set NewRegionsInfo region1 _ []); [apply reach_new|apply region1_wf|].
  vm_compute. reflexivity.
Qed.
Lemma cache_reachable : reachable cache.
Proof.
  apply (reach_set cache1 region2 _ []); [apply cache1_reachable|apply region2_wf|].
  vm_compute. reflexivity.
Qed.
End Demo.
Import Demo.

Lemma SetRegion_refines_witness :
  ∃ r' overlaps, SetRegion cache1 region2 = Some (r', overlaps) ∧
    represents r' (<[2 := region2]> (filter (λ p, ¬ overlap meta2 (meta p.2)) (abs cache1))) ∧
    (∀ y, y ∈ overlaps ↔
      ∃ id z, abs cache1 !! id = Some z ∧ id ≠ 2 ∧ overlap meta2 (meta z) ∧ meta z = y).
Proof.
  apply (SetRegion_refines cache1 (abs cache1) region2).
  - apply reachable_represents, cache1_reachable.
  - apply region2_wf.
Defined.

Lemma reachable_no_panic_witness :
  reachable cache ∧ is_Some (SetRegion cache region1).
Proof.
  split; [apply cache_reachable|].
  destruct (reachable_no_panic cache cache_reachable) as [H _]. apply H, region1_wf.
Defined.

Lemma reachable_search_witness :
  SearchRegion cache (key Byte.x61) = Some region1 ∧
  (GetRegion cache 1 = Some region1 ∧ in_range meta1 (key Byte.x61)).
Proof.
  split; [vm_compute; reflexivity|].
  apply (reachable_search cache (key Byte.x61) region1 cache_reachable).
  vm_compute. reflexivity.
Defined.

Lemma reachable_store_stats_witness :
  GetStoreLeaderCount cache 2 = size (filter (λ p, leads 2 p.2) (abs cache)) ∧
  GetStoreRegionSize cache 2 = 30.
Proof.
  split; [|vm_compute; reflexivity].
  apply (reachable_store_stats cache 2 cache_reachable).
Defined.

Lemma reachable_neighbours_witness :
  (GetAdjacentRegions cache region2).1 = Some region1.
Proof.
  destruct (reachable_neighbours cache region2 cache_reachable) as [H _];
    [vm_compute; reflexivity|]. apply H.
  split; [vm_compute; reflexivity|]. split; [|reflexivity].
  split; [discriminate|]. vm_compute. discriminate.
Defined.

Lemma reachable_scans_witness :
  meta <$> ScanRangeWithEndKey cache [] (key Byte.x6d) =
    filter (ends_before (key Byte.x6d)) (filter (λ y, [] ≤ StartKey y)%key (bt_items (tree cache))) ∧
  ScanRangeWithEndKey cache [] (key Byte.x6d) = [].
Proof.
  split; [|vm_compute; reflexivity].
  destruct (reachable_scans cache [] cache_reachable) as [_ H]. apply H.
Defined.

Lemma reachable_random_leader_witness :
  ∃ draws, RandLeaderRegion draws cache 1 [HealthRegionAllowPending] = Some None ∧
    ∃ draws, RandLeaderRegion draws cache 2 [] = Some (Some region2).
Proof.
  exists (λ _, O). split; [vm_compute; reflexivity|].
  apply (reachable_random_leader cache 2 [] region2 cache_reachable).
  split; [vm_compute; reflexivity|]. split; [|reflexivity].
  apply Exists_cons. right. apply Exists_cons. left. by vm_compute.
Defined.
