(* ===== verification/Codec.v ===== *)
(** * Memory-comparable keys (table/codec.go)

    The encoding of byte strings and integers whose byte order is the order of
    the encoded values, the decoders, and the table id of a key.  The loops are
    written as in the source, over slice indices with fuel; [encode_groups] and
    [decode_groups] are the structural reference definitions. *)

From S2P Require Import Prelude GoBytes.

Definition tablePrefix : bytes := [Byte.x74].
Definition metaPrefix : bytes := [Byte.x6d].
Definition recordPrefix : bytes := [Byte.x72].

Definition signMask : Z := 0x8000000000000000.
Definition encGroupSize : nat := 8.
Definition encMarker : Byte.byte := Byte.xff.
Definition encPad : Byte.byte := Byte.x00.
Definition pads : bytes := replicate encGroupSize Byte.x00.

(** Subtraction of bytes wraps around. *)
Definition byte_sub (a b : Byte.byte) : Byte.byte := byte_of_Z (byte_val a - byte_val b).

Inductive codec_error :=
| ErrInsufficient
| ErrInvalidMarker
| ErrInvalidPadding.

(** ** EncodeBytes *)

(** [for idx := 0; idx <= dLen; idx += encGroupSize]. *)
Fixpoint EncodeBytes_loop (fuel : nat) (data : bytes) (idx : nat) (result : bytes) : bytes :=
  match fuel with
  | O => result
  | S fuel' =>
      let dLen := length data in
      if (idx <=? dLen)%nat then
        let remain := (dLen - idx)%nat in
        let '(padCount, result) :=
          if (encGroupSize <=? remain)%nat
          then (0%nat, result ++ take encGroupSize (drop idx data))
          else
            let padCount := (encGroupSize - remain)%nat in
            (padCount, (result ++ drop idx data) ++ take padCount pads) in
        let marker := byte_sub encMarker (byte_of_Z (Z.of_nat padCount)) in
        EncodeBytes_loop fuel' data (idx + encGroupSize) (result ++ [marker])
      else result
  end.

Definition EncodeBytes (data : bytes) : bytes :=
  EncodeBytes_loop (S (length data)) data 0 [].

(** ** DecodeBytes *)

Fixpoint DecodeBytes_loop (fuel : nat) (b data : bytes) : codec_error + bytes * bytes :=
  match fuel with
  | O => inl ErrInsufficient
  | S fuel' =>
      if (length b <? encGroupSize + 1)%nat then inl ErrInsufficient
      else
        let groupBytes := take (encGroupSize + 1) b in
        let group := take encGroupSize groupBytes in
        let marker := List.nth encGroupSize groupBytes Byte.x00 in
        let padCount := byte_sub encMarker marker in
        if Z.of_nat encGroupSize <? byte_val padCount then inl ErrInvalidMarker
        else
          let realGroupSize := (encGroupSize - Z.to_nat (byte_val padCount))%nat in
          let data := data ++ take realGroupSize group in
          let b := drop (encGroupSize + 1) b in
          if negb (byte_val padCount =? 0) then
            if forallb (λ v, bool_decide (v = encPad)) (drop realGroupSize group)
            then inr (b, data) else inl ErrInvalidPadding
          else DecodeBytes_loop fuel' b data
  end.

Definition DecodeBytes (b : bytes) : codec_error + bytes * bytes :=
  DecodeBytes_loop (S (length b)) b [].

(** ** Integers *)

(** [binary.BigEndian.PutUint64] and [binary.BigEndian.Uint64] on [n] bytes. *)
Fixpoint be_put (n : nat) (u : Z) : bytes :=
  match n with
  | O => []
  | S n' => byte_of_Z (Z.shiftr u (8 * Z.of_nat n')) :: be_put n' u
  end.

Definition be_get (b : bytes) : Z :=
  foldl (λ acc x, Z.lor (Z.shiftl acc 8) (byte_val x)) 0 b.

Definition encodeIntToCmpUint (v : Z) : Z := Z.lxor (uint64 v) signMask.
Definition decodeCmpUintToInt (u : Z) : Z := int64 (Z.lxor u signMask).

Definition EncodeInt (b : bytes) (v : Z) : bytes :=
  b ++ be_put 8 (encodeIntToCmpUint v).

Definition DecodeInt (b : bytes) : codec_error + bytes * Z :=
  if (length b <? 8)%nat then inl ErrInsufficient
  else
    let u := be_get (take 8 b) in
    inr (drop 8 b, decodeCmpUintToInt u).

(** ** Keys *)

(** [_, tableID, _ := DecodeInt(key)]: on an error the id is 0. *)
Definition decoded_id (key : bytes) : Z :=
  match DecodeInt key with inl _ => 0 | inr (_, tableID) => tableID end.

Definition TableID (k : bytes) : Z :=
  match DecodeBytes k with
  | inl _ => 0
  | inr (_, key) =>
      if negb (HasPrefix key tablePrefix) then 0
      else decoded_id (drop (length tablePrefix) key)
  end.

Definition MetaOrTable (k : bytes) : bool * Z :=
  match DecodeBytes k with
  | inl _ => (false, 0)
  | inr (_, key) =>
      if HasPrefix key metaPrefix then (true, 0)
      else if HasPrefix key tablePrefix
      then (false, decoded_id (drop (length tablePrefix) key))
      else (false, 0)
  end.

Definition GenerateTableKey (tableID : Z) : bytes := EncodeInt ([] ++ tablePrefix) tableID.

Definition GenerateRowKey (tableID rowID : Z) : bytes :=
  EncodeInt (EncodeInt ([] ++ tablePrefix) tableID ++ recordPrefix) rowID.

(** ** Reference definitions *)

(** The last group: fewer than eight bytes, padded, with its marker. *)
Definition pad_group (d : bytes) : bytes :=
  d ++ replicate (8 - length d) Byte.x00 ++ [byte_of_Z (247 + Z.of_nat (length d))].

Fixpoint encode_groups (data : bytes) : bytes :=
  match data with
  | a :: b :: c :: d :: e :: f :: g :: h :: rest =>
      [a; b; c; d; e; f; g; h; Byte.xff] ++ encode_groups rest
  | _ => pad_group data
  end.

(** A group of eight bytes and a marker [m]: how many of its bytes are data. *)
Definition group_data (grp : bytes) (m : Byte.byte) : codec_error + bytes :=
  let size := byte_val m - 247 in
  if size <? 0 then inl ErrInvalidMarker
  else if forallb (λ v, bool_decide (v = Byte.x00)) (drop (Z.to_nat size) grp)
  then inr (take (Z.to_nat size) grp) else inl ErrInvalidPadding.

Fixpoint decode_groups (s : bytes) : codec_error + bytes * bytes :=
  match s with
  | a :: b :: c :: d :: e :: f :: g :: h :: m :: rest =>
      if bool_decide (m = Byte.xff) then
        match decode_groups rest with
        | inl err => inl err
        | inr (leftover, data) => inr (leftover, [a; b; c; d; e; f; g; h] ++ data)
        end
      else
        match group_data [a; b; c; d; e; f; g; h] m with
        | inl err => inl err
        | inr data => inr (rest, data)
        end
  | _ => inl ErrInsufficient
  end.

Example encode_doc1 : EncodeBytes [] =
  replicate 8 Byte.x00 ++ [Byte.xf7].
Proof. reflexivity. Qed.
Example encode_doc2 : EncodeBytes [Byte.x01; Byte.x02; Byte.x03] =
  [Byte.x01; Byte.x02; Byte.x03] ++ replicate 5 Byte.x00 ++ [Byte.xfa].
Proof. reflexivity. Qed.

(** ** Bytes and groups *)

Lemma marker_pad (m : Byte.byte) : byte_val (byte_sub encMarker m) = 255 - byte_val m.
Proof.
  unfold byte_sub. rewrite byte_val_of_Z. pose proof (byte_val_range m).
  change (byte_val encMarker) with 255. apply Z.mod_small. lia.
Qed.

(** Induction over the groups of eight bytes of a string. *)
Lemma groups_ind (P : bytes → Prop) :
  (∀ d, (length d < 8)%nat → P d) →
  (∀ g d, length g = 8%nat → P d → P (g ++ d)) → ∀ d, P d.
Proof.
  intros Hs Hg d. induction (Nat.lt_wf_0_projected length d) as [d _ IH].
  destruct (decide (length d < 8)%nat) as [|H]; [by apply Hs|].
  rewrite <-(take_drop 8 d). apply Hg; [rewrite length_take; lia|].
  apply IH. rewrite length_drop. lia.
Qed.

(** Splits a list of known length into its elements. *)
Ltac explode l := repeat (destruct l as [|? l]; simpl in *; try lia).

Lemma encode_groups_short d :
  (length d < 8)%nat → encode_groups d = pad_group d.
Proof. intros. by explode d. Qed.

Lemma encode_groups_group g d :
  length g = 8%nat → encode_groups (g ++ d) = g ++ Byte.xff :: encode_groups d.
Proof. intros. by explode g. Qed.

Lemma decode_groups_short s :
  (length s < 9)%nat → decode_groups s = inl ErrInsufficient.
Proof. intros. by explode s. Qed.

Lemma decode_groups_group g m s :
  length g = 8%nat →
  decode_groups (g ++ m :: s) =
    if bool_decide (m = Byte.xff) then
      match decode_groups s with
      | inl err => inl err
      | inr (leftover, data) => inr (leftover, g ++ data)
      end
    else
      match group_data g m with inl err => inl err | inr data => inr (s, data) end.
Proof. intros. by explode g. Qed.

(** Induction over the groups of nine bytes of an encoded string. *)
Lemma encoded_ind (P : bytes → Prop) :
  (∀ s, (length s < 9)%nat → P s) →
  (∀ g m s, length g = 8%nat → P s → P (g ++ m :: s)) → ∀ s, P s.
Proof.
  intros Hs Hg s. induction (Nat.lt_wf_0_projected length s) as [s _ IH].
  destruct (decide (length s < 9)%nat) as [|H]; [by apply Hs|].
  rewrite <-(take_drop 8 s). destruct (drop 8 s) as [|m s'] eqn:E.
  - apply (f_equal length) in E. rewrite length_drop in E. simpl in E. lia.
  - apply Hg; [rewrite length_take; lia|]. apply IH.
    apply (f_equal length) in E. rewrite length_drop in E. simpl in E. lia.
Qed.

(** ** The loops compute the reference definitions *)

Lemma pad_count_marker (d : bytes) : (length d < 8)%nat →
  byte_sub encMarker (byte_of_Z (Z.of_nat (8 - length d)))
  = byte_of_Z (247 + Z.of_nat (length d)).
Proof.
  intros H. unfold byte_sub. rewrite byte_val_of_Z, Z.mod_small by lia.
  change (byte_val encMarker) with 255. f_equal. lia.
Qed.

Lemma EncodeBytes_loop_spec fuel data idx result :
  (idx ≤ length data)%nat → (length data - idx < fuel)%nat →
  EncodeBytes_loop fuel data idx result = result ++ encode_groups (drop idx data).
Proof.
  revert idx result. induction fuel as [|fuel IH]; intros idx result Hi Hf; [lia|].
  cbn [EncodeBytes_loop]. rewrite (proj2 (Nat.leb_le _ _) Hi). unfold encGroupSize.
  destruct (Nat.leb_spec 8 (length data - idx)) as [H|H].
  - rewrite IH, <-drop_drop by lia.
    pose proof (encode_groups_group (take 8 (drop idx data)) (drop 8 (drop idx data))) as E.
    rewrite take_drop in E. rewrite E by (rewrite length_take, length_drop; lia).
    by rewrite <-!app_assoc.
  - assert (Hd : length (drop idx data) = (length data - idx)%nat) by apply length_drop.
    rewrite encode_groups_short by lia.
    transitivity ((result ++ drop idx data) ++
      take (8 - (length data - idx)) pads ++
      [byte_sub encMarker (byte_of_Z (Z.of_nat (8 - (length data - idx))))]).
    + rewrite <-!app_assoc. destruct fuel; cbn [EncodeBytes_loop]; [done|].
      by rewrite (proj2 (Nat.leb_gt _ _)) by lia.
    + rewrite <-Hd, pad_count_marker by lia. unfold pads, encGroupSize, pad_group.
      rewrite <-app_assoc, take_replicate. do 4 f_equal. lia.
Qed.

Lemma EncodeBytes_groups data : EncodeBytes data = encode_groups data.
Proof. apply EncodeBytes_loop_spec; lia. Qed.

Lemma DecodeBytes_loop_spec s : ∀ fuel data,
  (length s < fuel)%nat →
  DecodeBytes_loop fuel s data =
    match decode_groups s with
    | inl err => inl err
    | inr (leftover, d) => inr (leftover, data ++ d)
    end.
Proof.
  induction s as [s Hs|g m s Hg IH] using encoded_ind; intros [|fuel] data Hf; try lia.
  { simpl. rewrite decode_groups_short by done.
    by rewrite (proj2 (Nat.ltb_lt _ _)). }
  rewrite length_app in Hf. simpl in Hf.
  rewrite decode_groups_group by done. cbn [DecodeBytes_loop]. unfold encGroupSize.
  rewrite (proj2 (Nat.ltb_ge _ _)) by (rewrite length_app; simpl; lia).
  replace (take (8 + 1) (g ++ m :: s)) with (g ++ [m]) by (by explode g).
  replace (drop (8 + 1) (g ++ m :: s)) with s by (by explode g).
  replace (take 8 (g ++ [m])) with g by (by explode g).
  replace (List.nth 8 (g ++ [m]) Byte.x00) with m by (by explode g).
  rewrite marker_pad. unfold group_data. pose proof (byte_val_range m) as Hm.
  case_bool_decide as Hx.
  - subst m. simpl. rewrite IH by lia. rewrite take_ge by lia.
    destruct (decode_groups s) as [|[??]]; [done|]. by rewrite app_assoc.
  - assert (byte_val m ≠ 255) by (intros E; apply Hx; by apply byte_val_inj).
    replace (negb (255 - byte_val m =? 0)) with true by (symmetry; apply negb_true_iff, Z.eqb_neq; lia).
    replace (8 - Z.to_nat (255 - byte_val m))%nat with (Z.to_nat (byte_val m - 247)) by lia.
    replace (Z.of_nat 8 <? 255 - byte_val m) with (byte_val m - 247 <? 0)
      by (apply eq_true_iff_eq; rewrite !Z.ltb_lt; lia).
    unfold encPad. by repeat case_match; simplify_eq.
Qed.

Lemma DecodeBytes_groups s : DecodeBytes s = decode_groups s.
Proof.
  unfold DecodeBytes. rewrite DecodeBytes_loop_spec by lia.
  by destruct (decode_groups s) as [|[??]].
Qed.

(** ** Round trip *)

Lemma forallb_zeros n : forallb (λ v, bool_decide (v = Byte.x00)) (replicate n Byte.x00) = true.
Proof. by induction n. Qed.

Lemma forallb_zeros_inv d :
  forallb (λ v, bool_decide (v = Byte.x00)) d = true → d = replicate (length d) Byte.x00.
Proof.
  induction d as [|x d IH]; simpl; [done|]. rewrite andb_true_iff, bool_decide_eq_true.
  intros [-> ?]. by rewrite <-IH.
Qed.

Lemma group_data_pad d : (length d < 8)%nat →
  group_data (d ++ replicate (8 - length d) Byte.x00)
    (byte_of_Z (247 + Z.of_nat (length d))) = inr d.
Proof.
  intros H. unfold group_data. rewrite byte_val_of_Z, Z.mod_small by lia.
  replace (247 + Z.of_nat (length d) - 247) with (Z.of_nat (length d)) by lia.
  rewrite (proj2 (Z.ltb_ge _ _)) by lia. rewrite Nat2Z.id.
  by rewrite drop_app_length, take_app_length, forallb_zeros.
Qed.

Lemma decode_groups_encode data s : decode_groups (encode_groups data ++ s) = inr (s, data).
Proof.
  induction data as [d Hd|g d Hg IH] using groups_ind.
  - rewrite encode_groups_short by done. unfold pad_group.
    rewrite (app_assoc d), <-(app_assoc (d ++ _)). cbn [app].
    rewrite decode_groups_group by (rewrite length_app, length_replicate; lia).
    rewrite bool_decide_eq_false_2, group_data_pad; [done..|].
    intros E%(f_equal byte_val). rewrite byte_val_of_Z, Z.mod_small in E by lia.
    change (byte_val Byte.xff) with 255 in E. lia.
  - rewrite encode_groups_group, <-app_assoc by done. simpl.
    rewrite decode_groups_group by done. by rewrite bool_decide_eq_true_2, IH.
Qed.

Lemma group_data_inv g m d : length g = 8%nat → m ≠ Byte.xff →
  group_data g m = inr d → (length d < 8)%nat ∧ pad_group d = g ++ [m].
Proof.
  unfold group_data. intros Hg Hm H.
  assert (byte_val m ≠ 255) by (intros E; apply Hm; by apply byte_val_inj).
  pose proof (byte_val_range m). destruct (Z.ltb_spec (byte_val m - 247) 0); [done|].
  destruct (forallb _ _) eqn:E; [|done]. simplify_eq.
  assert (Hl : length (take (Z.to_nat (byte_val m - 247)) g) = Z.to_nat (byte_val m - 247))
    by (rewrite length_take; lia).
  split; [lia|]. unfold pad_group. rewrite Hl, app_assoc. f_equal.
  - apply forallb_zeros_inv in E. rewrite length_drop, Hg in E.
    by rewrite <-E, take_drop.
  - replace (247 + _) with (byte_val m) by lia. by rewrite byte_of_Z_val.
Qed.

Lemma decode_groups_canonical s leftover data :
  decode_groups s = inr (leftover, data) → s = encode_groups data ++ leftover.
Proof.
  revert leftover data. induction s as [s Hs|g m s Hg IH] using encoded_ind; intros l d.
  { by rewrite decode_groups_short. }
  rewrite decode_groups_group by done. case_bool_decide as Hm.
  - destruct (decode_groups s) as [|[l' d']]; [done|]. intros [= -> <-].
    rewrite encode_groups_group by done. subst m. rewrite <-app_assoc. simpl.
    by rewrite <-(IH _ _ eq_refl).
  - destruct (group_data g m) eqn:E; [done|]. intros [= -> ->].
    apply group_data_inv in E as [? E]; [|done..].
    by rewrite encode_groups_short, E, <-app_assoc.
Qed.

(** ** Order *)

Lemma Compare_app_length a b s t : length a = length b →
  Compare (a ++ s) (b ++ t) = if Compare a b =? 0 then Compare s t else Compare a b.
Proof.
  revert b. induction a as [|x a IH]; intros [|y b] H; simpl in *; try done.
  byte_cases; try done. apply IH. lia.
Qed.

Lemma Compare_app_r a b t : (length a ≤ length b)%nat → Compare a b ≠ 0 →
  Compare a (b ++ t) = Compare a b.
Proof.
  revert b. induction a as [|x a IH]; intros [|y b] H; simpl in *; try done; try lia.
  byte_cases; try done. apply IH. lia.
Qed.

Lemma Compare_sgn a b : Compare a b = Z.sgn (Compare a b).
Proof.
  revert b. induction a as [|x a IH]; intros [|y b]; simpl; try done.
  by byte_cases.
Qed.

Definition pad_to (n : nat) (d : bytes) : bytes := d ++ replicate (n - length d) Byte.x00.

Lemma length_pad_to n d : (length d ≤ n)%nat → length (pad_to n d) = n.
Proof. intros. unfold pad_to. rewrite length_app, length_replicate. lia. Qed.

Lemma pad_to_nil n : pad_to (S n) [] = Byte.x00 :: pad_to n [].
Proof. unfold pad_to. simpl. by rewrite Nat.sub_0_r. Qed.

(** Comparing padded strings, then the lengths, is comparing the strings. *)
Lemma Compare_pad n a b : (length a ≤ n)%nat → (length b ≤ n)%nat →
  Compare a b =
    if Compare (pad_to n a) (pad_to n b) =? 0
    then Z.sgn (Z.of_nat (length a) - Z.of_nat (length b))
    else Compare (pad_to n a) (pad_to n b).
Proof.
  revert a b. induction n as [|n IH]; intros a b Ha Hb.
  { by destruct a, b; simpl in *; try lia. }
  destruct a as [|x a], b as [|y b]; simpl in Ha, Hb.
  - by rewrite (Compare_refl (pad_to _ _)).
  - specialize (IH [] b ltac:(simpl; lia) ltac:(lia)). rewrite pad_to_nil.
    change (pad_to (S n) (y :: b)) with (y :: pad_to n b).
    simpl Compare at 2 3. change (byte_val Byte.x00) with 0.
    pose proof (byte_val_range y). cbn [Compare length] in *.
    byte_cases; try done; try lia.
    revert IH. generalize (Compare (pad_to n []) (pad_to n b)).
    intros c IH. destruct (Z.eqb_spec c 0), b; simpl in *; lia.
  - specialize (IH a [] ltac:(lia) ltac:(simpl; lia)). rewrite pad_to_nil.
    change (pad_to (S n) (x :: a)) with (x :: pad_to n a).
    simpl Compare at 2 3. change (byte_val Byte.x00) with 0.
    pose proof (byte_val_range x). cbn [Compare length] in *.
    byte_cases; try done; try lia.
    revert IH. generalize (Compare (pad_to n a) (pad_to n [])).
    intros c IH. destruct (Z.eqb_spec c 0), a; simpl in *; lia.
  - specialize (IH a b). change (pad_to (S n) (x :: a)) with (x :: pad_to n a).
    change (pad_to (S n) (y :: b)) with (y :: pad_to n b). cbn [Compare length].
    byte_cases; try done; try lia. rewrite IH by lia. case_match; lia.
Qed.

(** The first group of an encoding: eight bytes of data or padding, and the
    count of data bytes. *)
Lemma encode_groups_first d : ∃ d0 d1 s,
  d = d0 ++ d1 ∧ (length d0 ≤ 8)%nat ∧ (length d0 < 8 → d1 = [] ∧ s = [])%nat ∧
  (length d0 = 8 → s = encode_groups d1)%nat ∧
  encode_groups d = pad_to 8 d0 ++ byte_of_Z (247 + Z.of_nat (length d0)) :: s.
Proof.
  destruct (decide (length d < 8)%nat) as [H|H].
  - exists d, [], []. rewrite (encode_groups_short d) by done.
    split_and!; [by rewrite app_nil_r|lia|done|lia|].
    unfold pad_group, pad_to. by rewrite <-app_assoc.
  - assert (Ht : length (take 8 d) = 8%nat) by (rewrite length_take; lia).
    exists (take 8 d), (drop 8 d), (encode_groups (drop 8 d)). rewrite Ht.
    split_and!; [by rewrite take_drop|lia|lia|done|].
    rewrite <-(take_drop 8 d) at 1. rewrite encode_groups_group by done.
    unfold pad_to. rewrite Ht, Nat.sub_diag. cbn [replicate].
    by rewrite app_nil_r.
Qed.

Lemma Compare_markers m n s t : (m ≤ 8)%nat → (n ≤ 8)%nat →
  Compare (byte_of_Z (247 + Z.of_nat m) :: s) (byte_of_Z (247 + Z.of_nat n) :: t)
  = if (m <? n)%nat then -1 else if (n <? m)%nat then 1 else Compare s t.
Proof.
  intros. cbn [Compare]. rewrite !byte_val_of_Z, !Z.mod_small by lia.
  byte_cases; destruct (Nat.ltb_spec m n), (Nat.ltb_spec n m); try done; lia.
Qed.

Lemma encode_groups_order a : ∀ b s t,
  Compare (encode_groups a ++ s) (encode_groups b ++ t)
  = if Compare a b =? 0 then Compare s t else Compare a b.
Proof.
  induction (Nat.lt_wf_0_projected length a) as [a _ IH]. intros b s t.
  destruct (encode_groups_first a) as (a0 & a1 & x & -> & Ha & Ha1 & Ha2 & ->).
  destruct (encode_groups_first b) as (b0 & b1 & y & -> & Hb & Hb1 & Hb2 & ->).
  rewrite <-!app_assoc. cbn [app].
  rewrite Compare_app_length, Compare_markers by (rewrite ?length_pad_to; lia).
  pose proof (Compare_pad 8 a0 b0 Ha Hb) as Hp.
  destruct (Z.eqb_spec (Compare (pad_to 8 a0) (pad_to 8 b0)) 0) as [Hc|Hc].
  - destruct (Nat.ltb_spec (length a0) (length b0)) as [Hl|Hl].
    { destruct (Ha1 ltac:(lia)) as [-> _]. rewrite app_nil_r.
      rewrite Compare_app_r by lia. rewrite Hp.
      replace (Z.sgn _) with (-1) by lia. done. }
    destruct (Nat.ltb_spec (length b0) (length a0)) as [Hl'|Hl'].
    { destruct (Hb1 ltac:(lia)) as [-> _]. rewrite app_nil_r.
      rewrite (Compare_antisym b0), Compare_app_r by (rewrite (Compare_antisym a0) || lia; lia).
      rewrite (Compare_antisym a0), Hp. replace (Z.sgn _) with 1 by lia. done. }
    rewrite (Compare_app_length a0 b0) by lia. rewrite Hp.
    replace (Z.sgn _) with 0 by lia. simpl.
    destruct (decide (length a0 = 8)%nat) as [H8|H8].
    + rewrite Ha2, Hb2 by lia. apply IH. rewrite length_app. lia.
    + destruct (Ha1 ltac:(lia)) as [-> ->], (Hb1 ltac:(lia)) as [-> ->]. done.
  - rewrite <-Hp in Hc |- *. destruct (decide (length a0 = length b0)) as [Hl|Hl].
    + by rewrite Compare_app_length, (proj2 (Z.eqb_neq _ _) Hc), (proj2 (Z.eqb_neq _ _) Hc).
    + assert (Compare (a0 ++ a1) (b0 ++ b1) = Compare a0 b0) as ->.
      { destruct (decide (length a0 < 8)%nat).
        - destruct (Ha1 ltac:(lia)) as [-> _]. rewrite app_nil_r.
          destruct (decide (length b0 < 8)%nat).
          + destruct (Hb1 ltac:(lia)) as [-> _]. by rewrite app_nil_r.
          + apply Compare_app_r; lia.
        - destruct (Hb1 ltac:(lia)) as [-> _]. rewrite app_nil_r.
          rewrite (Compare_antisym b0), Compare_app_r, (Compare_antisym a0); [lia|lia|].
          rewrite (Compare_antisym a0). lia. }
      by rewrite (proj2 (Z.eqb_neq _ _) Hc).
Qed.

Lemma EncodeBytes_Compare a b : Compare (EncodeBytes a) (EncodeBytes b) = Compare a b.
Proof.
  rewrite !EncodeBytes_groups, <-(app_nil_r (encode_groups a)), <-(app_nil_r (encode_groups b)).
  rewrite encode_groups_order. by destruct (Z.eqb_spec (Compare a b) 0).
Qed.

(** ** Big-endian integers *)

Lemma lor_shift8 a x : 0 ≤ x < 256 → Z.lor (Z.shiftl a 8) x = a * 256 + x.
Proof.
  intros Hx. rewrite Z.shiftl_mul_pow2 by lia. change 256 with (2 ^ 8).
  assert (Z.land (a * 2 ^ 8) x = 0) as Hl.
  { apply Z.bits_inj'. intros n Hn. rewrite Z.land_spec, Z.bits_0.
    destruct (Z.lt_ge_cases n 8).
    - by rewrite Z.mul_pow2_bits_low.
    - rewrite <-(Z.mod_small x (2 ^ 8)), Z.mod_pow2_bits_high by lia. apply andb_false_r. }
  by rewrite <-Z.lxor_lor, <-Z.add_nocarry_lxor.
Qed.

Lemma be_get_acc acc b :
  foldl (λ acc x, Z.lor (Z.shiftl acc 8) (byte_val x)) acc b
  = acc * 256 ^ Z.of_nat (length b) + be_get b.
Proof.
  unfold be_get. revert acc. induction b as [|x b IH]; intros acc; cbn [foldl length].
  { rewrite Z.pow_0_r. lia. }
  rewrite IH, (IH (Z.lor _ _)), !lor_shift8 by apply byte_val_range.
  rewrite Nat2Z.inj_succ, Z.pow_succ_r by lia. lia.
Qed.

Lemma be_get_cons x b :
  be_get (x :: b) = byte_val x * 256 ^ Z.of_nat (length b) + be_get b.
Proof.
  unfold be_get at 1. cbn [foldl]. rewrite be_get_acc, lor_shift8 by apply byte_val_range. lia.
Qed.

Lemma be_get_range b : 0 ≤ be_get b < 256 ^ Z.of_nat (length b).
Proof.
  induction b as [|x b IH]; [done|]. rewrite be_get_cons. cbn [length].
  rewrite Nat2Z.inj_succ, Z.pow_succ_r by lia. pose proof (byte_val_range x). nia.
Qed.

Lemma length_be_put n u : length (be_put n u) = n.
Proof. induction n; simpl; lia. Qed.

Lemma be_get_put n u : be_get (be_put n u) = u mod 256 ^ Z.of_nat n.
Proof.
  induction n as [|n IH]; [by rewrite Z.mod_1_r|].
  cbn [be_put]. rewrite be_get_cons, length_be_put, IH, byte_val_of_Z.
  rewrite Nat2Z.inj_succ, Z.pow_succ_r by lia.
  rewrite Z.shiftr_div_pow2, (Z.mul_comm 256), Z.rem_mul_r by lia.
  replace (2 ^ (8 * Z.of_nat n)) with (256 ^ Z.of_nat n); [lia|].
  change 256 with (2 ^ 8). by rewrite <-Z.pow_mul_r by lia.
Qed.

(** Big-endian strings of one length are ordered as the numbers they are. *)
Lemma Compare_be a b : length a = length b → Compare a b = Z.sgn (be_get a - be_get b).
Proof.
  revert b. induction a as [|x a IH]; intros [|y b] H; simpl in H; try done.
  cbn [Compare]. rewrite IH by lia. rewrite !be_get_cons.
  replace (length b) with (length a) by lia.
  pose proof (be_get_range a). pose proof (be_get_range b).
  replace (length b) with (length a) in * by lia.
  set (p := 256 ^ _) in *. byte_cases; nia.
Qed.

(** Flipping the sign bit of a 64-bit word adds [2^63]. *)
Lemma lxor_sign u : 0 ≤ u < 2 ^ 64 → Z.lxor u signMask = uint64 (u + 2 ^ 63).
Proof.
  assert (Hlow : ∀ w, 0 ≤ w < 2 ^ 63 → Z.lxor w signMask = w + 2 ^ 63).
  { intros w Hw. change signMask with (2 ^ 63). rewrite <-Z.add_nocarry_lxor; [done|].
    apply Z.bits_inj'. intros n Hn. rewrite Z.land_spec, Z.bits_0, Z.pow2_bits_eqb by lia.
    destruct (Z.eqb_spec 63 n) as [<-|]; [|apply andb_false_r].
    by rewrite <-(Z.mod_small w (2 ^ 63)), Z.mod_pow2_bits_high by lia. }
  intros Hu. unfold uint64. destruct (Z.lt_ge_cases u (2 ^ 63)).
  - by rewrite Hlow, Z.mod_small by lia.
  - replace u with (Z.lxor (u - 2 ^ 63) signMask) at 1 by (rewrite Hlow; lia).
    rewrite Z.lxor_assoc, Z.lxor_nilpotent, Z.lxor_0_r.
    replace (u + 2 ^ 63) with (u - 2 ^ 63 + 1 * 2 ^ 64) by lia.
    rewrite Z.mod_add, Z.mod_small by lia. done.
Qed.

Definition is_int64 (v : Z) : Prop := - 2 ^ 63 ≤ v < 2 ^ 63.

Lemma encodeIntToCmpUint_val v : is_int64 v → encodeIntToCmpUint v = v + 2 ^ 63.
Proof.
  unfold is_int64. intros H. unfold encodeIntToCmpUint. rewrite lxor_sign by apply uint64_range.
  unfold uint64. rewrite Zplus_mod_idemp_l. apply Z.mod_small. lia.
Qed.

Lemma decode_encodeCmp v : is_int64 v → decodeCmpUintToInt (encodeIntToCmpUint v) = v.
Proof.
  intros H. unfold decodeCmpUintToInt, encodeIntToCmpUint.
  rewrite Z.lxor_assoc, Z.lxor_nilpotent, Z.lxor_0_r, int64_uint64. by apply int64_small.
Qed.

Lemma be_get_EncodeInt v : is_int64 v → be_get (be_put 8 (encodeIntToCmpUint v)) = v + 2 ^ 63.
Proof.
  intros H. rewrite be_get_put, encodeIntToCmpUint_val by done.
  apply Z.mod_small. unfold is_int64 in H. change (256 ^ Z.of_nat 8) with (2 ^ 64). lia.
Qed.

Lemma DecodeInt_put v s : is_int64 v →
  DecodeInt (be_put 8 (encodeIntToCmpUint v) ++ s) = inr (s, v).
Proof.
  intros H. unfold DecodeInt. rewrite length_app, length_be_put.
  rewrite (proj2 (Nat.ltb_ge _ _)) by lia.
  rewrite (take_app_length' _ _ 8), (drop_app_length' _ _ 8) by by rewrite length_be_put.
  rewrite be_get_EncodeInt, <-encodeIntToCmpUint_val, decode_encodeCmp; done.
Qed.

Lemma Compare_put v w : is_int64 v → is_int64 w →
  Compare (be_put 8 (encodeIntToCmpUint v)) (be_put 8 (encodeIntToCmpUint w)) = Z.sgn (v - w).
Proof.
  intros. rewrite Compare_be by by rewrite !length_be_put.
  rewrite !be_get_EncodeInt by done. f_equal. lia.
Qed.

(** A table key followed by anything. *)
Lemma table_key_decoded id s : is_int64 id →
  let k := EncodeBytes (GenerateTableKey id ++ s) in
  TableID k = id ∧ MetaOrTable k = (false, id).
Proof.
  intros H k. unfold TableID, MetaOrTable, k.
  rewrite DecodeBytes_groups, EncodeBytes_groups.
  rewrite <-(app_nil_r (encode_groups _)), decode_groups_encode.
  change (GenerateTableKey id ++ s)
    with (Byte.x74 :: (be_put 8 (encodeIntToCmpUint id) ++ s)).
  set (r := _ ++ s).
  change (HasPrefix (Byte.x74 :: r) tablePrefix) with true.
  change (HasPrefix (Byte.x74 :: r) metaPrefix) with false.
  unfold decoded_id. cbn [negb tablePrefix length drop]. unfold r.
  by rewrite drop_0, DecodeInt_put.
Qed.

Lemma GenerateRowKey_table id row :
  GenerateRowKey id row =
  GenerateTableKey id ++ recordPrefix ++ be_put 8 (encodeIntToCmpUint row).
Proof. unfold GenerateRowKey, GenerateTableKey, EncodeInt. by rewrite <-!app_assoc. Qed.

Lemma length_GenerateTableKey id : length (GenerateTableKey id) = 9%nat.
Proof. unfold GenerateTableKey, EncodeInt. by rewrite length_app, length_be_put. Qed.

(** A table key is a proper prefix of the row keys of the table. *)
Lemma Compare_row_key id s : Compare (GenerateTableKey id) (GenerateTableKey id ++ recordPrefix ++ s) = -1.
Proof.
  rewrite <-(app_nil_r (GenerateTableKey id)) at 1.
  rewrite Compare_app_length by reflexivity. by rewrite Compare_refl.
Qed.

(** Every key with a table's prefix is below the next table. *)
Lemma Compare_next_table id s : is_int64 id → is_int64 (id + 1) →
  Compare (GenerateTableKey id ++ s) (GenerateTableKey (id + 1)) = -1.
Proof.
  intros H H'. rewrite <-(app_nil_r (GenerateTableKey (id + 1))).
  rewrite Compare_app_length by by rewrite !length_GenerateTableKey.
  unfold GenerateTableKey, EncodeInt.
  rewrite Compare_app_length, Compare_refl, Compare_put by done.
  by replace (id - (id + 1)) with (-1) by lia.
Qed.

(** ** Properties *)

(** C22: the decoder accepts exactly the canonical encodings, whatever follows
    them: [DecodeBytes s] returns [(leftover, data)] if and only if [s] is the
    encoding of [data] followed by [leftover].  Encoding then decoding is the
    identity and no other string decodes to the same data. *)
Theorem DecodeBytes_iff s leftover data :
  DecodeBytes s = inr (leftover, data) ↔ s = EncodeBytes data ++ leftover.
Proof.
  rewrite DecodeBytes_groups, EncodeBytes_groups. split.
  - apply decode_groups_canonical.
  - intros ->. apply decode_groups_encode.
Qed.

(** Encoded strings, whatever follows them, compare as the strings they
    encode, so a range of raw keys is a range of encoded keys. *)
Theorem EncodeBytes_order a b s t :
  Compare (EncodeBytes a ++ s) (EncodeBytes b ++ t)
  = if bool_decide (a = b) then Compare s t else Compare a b.
Proof.
  rewrite !EncodeBytes_groups, encode_groups_order.
  destruct (Z.eqb_spec (Compare a b) 0) as [H|H]; rewrite Compare_eq in H.
  - by rewrite bool_decide_eq_true_2.
  - by rewrite bool_decide_eq_false_2.
Qed.

(** For 64-bit integers [DecodeInt] inverts [EncodeInt] and leaves the
    bytes that follow; the encodings compare as the integers, negative ones
    included. *)
Theorem EncodeInt_correct v w s :
  is_int64 v → is_int64 w →
  DecodeInt (EncodeInt [] v ++ s) = inr (s, v) ∧
  Compare (EncodeInt [] v) (EncodeInt [] w) = Z.sgn (v - w).
Proof. intros. by split; [apply DecodeInt_put|apply Compare_put]. Qed.

Lemma EncodeInt_correct_witness :
  DecodeInt (EncodeInt [] (-5) ++ [Byte.x01]) = inr ([Byte.x01], -5) ∧
  Compare (EncodeInt [] (-5)) (EncodeInt [] 7) = -1.
Proof. apply (EncodeInt_correct (-5) 7 [Byte.x01]); unfold is_int64; lia. Defined.

(** The encoded table key and every encoded row key of a table give back
    the table's id, and the rows of a table lie between its table key and the
    table key of the next id. *)
Theorem table_keys_correct id row :
  is_int64 id → is_int64 (id + 1) →
  TableID (EncodeBytes (GenerateTableKey id)) = id ∧
  TableID (EncodeBytes (GenerateRowKey id row)) = id ∧
  MetaOrTable (EncodeBytes (GenerateRowKey id row)) = (false, id) ∧
  (EncodeBytes (GenerateTableKey id) < EncodeBytes (GenerateRowKey id row))%key ∧
  (EncodeBytes (GenerateRowKey id row) < EncodeBytes (GenerateTableKey (id + 1)))%key.
Proof.
  intros H H'. rewrite GenerateRowKey_table.
  pose proof (table_key_decoded id [] H) as [T _]. rewrite app_nil_r in T.
  destruct (table_key_decoded id (recordPrefix ++ be_put 8 (encodeIntToCmpUint row)) H) as [T1 T2].
  unfold key_lt. rewrite !EncodeBytes_Compare.
  split; [exact T|]. split; [exact T1|]. split; [exact T2|].
  rewrite Compare_row_key. split; [exact eq_refl|].
  rewrite Compare_next_table by assumption. exact eq_refl.
Qed.

Lemma table_keys_correct_witness :
  TableID (EncodeBytes (GenerateTableKey 45)) = 45 ∧
  (EncodeBytes (GenerateRowKey 45 (-3)) < EncodeBytes (GenerateTableKey 46))%key.
Proof.
  destruct (table_keys_correct 45 (-3)) as (H & _ & _ & _ & H');
    [unfold is_int64; lia..|]. by split.
Defined.
