(* ===== verification/Strconv.v ===== *)
(** * Go's standard library on strings: [strconv], [fmt] and [path]

    The functions of the standard library with which the sources build and read
    the keys and values of the storage: [strconv.FormatUint],
    [strconv.ParseUint], [fmt.Sprintf("%020d")] and [path.Join].  A Go string is
    a string of bytes. *)

From S2P Require Import Prelude GoBytes.

(** ** [strconv.FormatUint] *)

(** The digits 0-9a-f. *)
Definition digit_chr (d : Z) : Byte.byte := if d <? 10 then byte_of_Z (48 + d) else byte_of_Z (87 + d).

(** The digits of [n], least significant first in the order they are computed;
    64 digits are enough for any base from 2 on. *)
Fixpoint format_digits (fuel : nat) (n base : Z) (acc : bytes) : bytes :=
  match fuel with
  | O => acc
  | S fuel' =>
      let acc := digit_chr (n mod base) :: acc in
      if n / base =? 0 then acc else format_digits fuel' (n / base) base acc
  end.

Definition FormatUint (n base : Z) : bytes := format_digits 64 n base [].

(** ** [strconv.ParseUint] with an explicit base and 64 bits *)

Inductive num_error := ErrSyntax | ErrRange.

Definition parse_digit (c : Byte.byte) : option Z :=
  let c := byte_val c in
  let lower := Z.lor c 32 in
  if (48 <=? c) && (c <=? 57) then Some (c - 48)
  else if (97 <=? lower) && (lower <=? 122) then Some (lower - 97 + 10)
  else None.

Definition maxUint64 : Z := 2 ^ 64 - 1.

Definition parse_step (base n : Z) (c : Byte.byte) : num_error + Z :=
  match parse_digit c with
  | None => inl ErrSyntax
  | Some d =>
      if base <=? d then inl ErrSyntax
      else if maxUint64 / base + 1 <=? n then inl ErrRange
      else
        let n := uint64 (n * base) in
        let n1 := uint64 (n + d) in
        if (n1 <? n) || (maxUint64 <? n1) then inl ErrRange else inr n1
  end.

Fixpoint parse_loop (base n : Z) (s : bytes) : num_error + Z :=
  match s with
  | [] => inr n
  | c :: s' => match parse_step base n c with inl e => inl e | inr n' => parse_loop base n' s' end
  end.

Definition ParseUint (s : bytes) (base : Z) : num_error + Z :=
  match s with [] => inl ErrSyntax | _ => parse_loop base 0 s end.

(** ** [fmt.Sprintf("%020d", n)] for an unsigned integer *)

Definition Sprintf_020d (n : Z) : bytes :=
  let s := FormatUint n 10 in replicate (20 - length s) Byte.x30 ++ s.

(** ** [path.Join] *)

Definition slash : Byte.byte := Byte.x2f.

(** The elements of a path between slashes. *)
Fixpoint split_slash (s cur : bytes) : list bytes :=
  match s with
  | [] => [cur]
  | c :: s' => if bool_decide (c = slash) then cur :: split_slash s' [] else split_slash s' (cur ++ [c])
  end.

Fixpoint join_slash (l : list bytes) : bytes :=
  match l with
  | [] => []
  | [x] => x
  | x :: l' => x ++ slash :: join_slash l'
  end.

(** [path.Clean]: drops empty and [.] elements and resolves [..]; the stack
    holds the elements kept, last first. *)
Definition dot : bytes := [Byte.x2e].
Definition dotdot : bytes := [Byte.x2e; Byte.x2e].

Definition clean_elem (rooted : bool) (stack : list bytes) (e : bytes) : list bytes :=
  if bool_decide (e = [] ∨ e = dot) then stack
  else if bool_decide (e = dotdot) then
    match stack with
    | [] => if rooted then [] else [dotdot]
    | x :: stack' => if bool_decide (x = dotdot) then dotdot :: stack else stack'
    end
  else e :: stack.

Definition Clean (s : bytes) : bytes :=
  let rooted := bool_decide (head s = Some slash) in
  let out := (if rooted then [slash] else []) ++
             join_slash (reverse (foldl (clean_elem rooted) [] (split_slash s []))) in
  match out with [] => dot | _ => out end.

Definition Join (elems : list bytes) : bytes :=
  match filter (λ e, e ≠ []) elems with
  | [] => []
  | l => Clean (join_slash l)
  end.

Definition str (s : string) : bytes := String.list_byte_of_string s.

Example Clean_ex : Clean (str "/a/../b//./c/") = str "/b/c".
Proof. vm_compute. reflexivity. Qed.
Example Clean_ex2 : Clean (str "../../a") = str "../../a".
Proof. vm_compute. reflexivity. Qed.
Example Sprintf_ex : Sprintf_020d 1234567 = str "00000000000001234567".
Proof. vm_compute. reflexivity. Qed.
Example Join_ex : Join [str "raft"; str "r"; Sprintf_020d 7] = str "raft/r/00000000000000000007".
Proof. vm_compute. reflexivity. Qed.

(** ** Formatting and parsing are inverse *)

Lemma digit_chr_val d : 0 ≤ d < 16 →
  byte_val (digit_chr d) = if d <? 10 then 48 + d else 87 + d.
Proof.
  intros. unfold digit_chr. destruct (Z.ltb_spec d 10);
    rewrite byte_val_of_Z; apply Z.mod_small; lia.
Qed.

Lemma parse_digit_chr d : 0 ≤ d < 16 → parse_digit (digit_chr d) = Some d.
Proof.
  intros. unfold parse_digit. rewrite digit_chr_val by done.
  assert (d = 0 ∨ d = 1 ∨ d = 2 ∨ d = 3 ∨ d = 4 ∨ d = 5 ∨ d = 6 ∨ d = 7 ∨ d = 8 ∨ d = 9 ∨
    d = 10 ∨ d = 11 ∨ d = 12 ∨ d = 13 ∨ d = 14 ∨ d = 15) as Hd by lia.
  by repeat destruct Hd as [->|Hd]; subst.
Qed.

Lemma format_digits_acc fuel n base acc :
  format_digits fuel n base acc = format_digits fuel n base [] ++ acc.
Proof.
  revert n acc. induction fuel as [|fuel IH]; intros n acc; [done|]. cbn [format_digits].
  case_match; [done|]. rewrite IH, (IH _ [_]), <-app_assoc. done.
Qed.

(** The digits of [n] are those of [n / base] and the last one. *)
Lemma format_digits_snoc fuel n base :
  format_digits (S fuel) n base [] =
    (if n / base =? 0 then [] else format_digits fuel (n / base) base [])
    ++ [digit_chr (n mod base)].
Proof.
  cbn [format_digits]. case_match; [done|]. by rewrite format_digits_acc.
Qed.

Lemma parse_loop_app base n s t :
  parse_loop base n (s ++ t) =
    match parse_loop base n s with inl e => inl e | inr n' => parse_loop base n' t end.
Proof.
  revert n. induction s as [|c s IH]; intros n; [done|]. cbn [app parse_loop].
  destruct (parse_step base n c); [done|]. apply IH.
Qed.

Lemma parse_step_digit base n : 2 ≤ base ≤ 16 → 0 ≤ n ≤ maxUint64 →
  parse_step base (n / base) (digit_chr (n mod base)) = inr n.
Proof.
  intros Hb Hn. unfold parse_step. pose proof (Z.mod_pos_bound n base).
  rewrite parse_digit_chr by lia. rewrite (proj2 (Z.leb_gt _ _)) by lia.
  assert (n / base ≤ maxUint64 / base) by (apply Z.div_le_mono; lia).
  rewrite (proj2 (Z.leb_gt _ _)) by lia.
  pose proof (Z.div_mod n base). pose proof (Z.div_pos n base).
  unfold maxUint64 in *. rewrite (uint64_small (n / base * base)) by nia.
  replace (n / base * base + n mod base) with n by lia.
  rewrite uint64_small by lia.
  rewrite (proj2 (Z.ltb_ge _ _)) by nia. by rewrite (proj2 (Z.ltb_ge _ _)) by lia.
Qed.

Lemma parse_format_digits fuel base n : 2 ≤ base ≤ 16 →
  0 ≤ n ≤ maxUint64 → n < base ^ Z.of_nat (S fuel) →
  parse_loop base 0 (format_digits (S fuel) n base []) = inr n.
Proof.
  intros Hb. revert n. induction fuel as [|fuel IH]; intros n Hn Hf.
  - rewrite Z.pow_1_r in Hf. cbn [format_digits]. rewrite Z.div_small by lia. simpl.
    rewrite <-(Z.div_small n base) at 1 by lia. by rewrite parse_step_digit.
  - rewrite format_digits_snoc. destruct (Z.eqb_spec (n / base) 0) as [E|E].
    { simpl. rewrite <-E at 1. by rewrite parse_step_digit. }
    rewrite parse_loop_app, IH.
    + simpl. by rewrite parse_step_digit.
    + split; [apply Z.div_pos; lia|].
      transitivity n; [|lia]. apply Z.div_le_upper_bound; nia.
    + apply Z.div_lt_upper_bound; [lia|].
      rewrite (Nat2Z.inj_succ (S fuel)), Z.pow_succ_r in Hf by lia. lia.
Qed.

Lemma format_digits_nonempty fuel n base acc : format_digits (S fuel) n base acc ≠ [].
Proof.
  cbn [format_digits]. case_match; [done|]. rewrite format_digits_acc. by destruct (format_digits _ _ _ _).
Qed.

(** Parsing what [FormatUint] prints gives the number back. *)
Lemma ParseUint_FormatUint base n : base = 10 ∨ base = 16 → 0 ≤ n < 2 ^ 64 →
  ParseUint (FormatUint n base) base = inr n.
Proof.
  intros Hb Hn. unfold ParseUint, FormatUint.
  destruct (format_digits 64 n base []) eqn:E; [by apply format_digits_nonempty in E|].
  rewrite <-E. apply parse_format_digits; [lia|unfold maxUint64; lia|].
  destruct Hb as [-> | ->]; change (Z.of_nat 64) with 64; lia.
Qed.

(** ** Zero-padded decimals are ordered as numbers *)

Definition is_digit (c : Byte.byte) : Prop := 48 ≤ byte_val c ≤ 57.

Definition dec_val (s : bytes) : Z := foldl (λ acc c, acc * 10 + (byte_val c - 48)) 0 s.

Lemma dec_val_snoc s c : dec_val (s ++ [c]) = dec_val s * 10 + (byte_val c - 48).
Proof. unfold dec_val. by rewrite foldl_app. Qed.

Lemma dec_val_acc acc s :
  foldl (λ acc c, acc * 10 + (byte_val c - 48)) acc s = acc * 10 ^ Z.of_nat (length s) + dec_val s.
Proof.
  induction s as [|c s IH] using rev_ind; [unfold dec_val; simpl; lia|].
  rewrite foldl_snoc, IH, dec_val_snoc, length_app. cbn [length].
  rewrite Nat.add_1_r, Nat2Z.inj_succ, Z.pow_succ_r by lia. lia.
Qed.

Lemma dec_val_cons c s :
  dec_val (c :: s) = (byte_val c - 48) * 10 ^ Z.of_nat (length s) + dec_val s.
Proof. unfold dec_val at 1. cbn [foldl]. rewrite dec_val_acc. lia. Qed.

Lemma dec_val_range s : Forall is_digit s → 0 ≤ dec_val s < 10 ^ Z.of_nat (length s).
Proof.
  induction 1 as [|c s Hc Hs IH]; [done|]. rewrite dec_val_cons. cbn [length].
  rewrite Nat2Z.inj_succ, Z.pow_succ_r by lia. unfold is_digit in Hc. nia.
Qed.

Lemma Compare_dec a b : Forall is_digit a → Forall is_digit b → length a = length b →
  Compare a b = Z.sgn (dec_val a - dec_val b).
Proof.
  intros Ha. revert b. induction Ha as [|x a Hx Ha IH]; intros b Hb Hl.
  { by destruct b. }
  destruct Hb as [|y b Hy Hb]; simpl in Hl; [done|].
  cbn [Compare]. rewrite IH by (done || lia). rewrite !dec_val_cons.
  pose proof (dec_val_range a Ha). pose proof (dec_val_range b Hb).
  replace (length b) with (length a) in * by lia.
  unfold is_digit in *. set (p := 10 ^ _) in *. byte_cases; nia.
Qed.

Lemma digit_chr_dec n : is_digit (digit_chr (n mod 10)) ∧ byte_val (digit_chr (n mod 10)) - 48 = n mod 10.
Proof.
  pose proof (Z.mod_pos_bound n 10). unfold is_digit. rewrite digit_chr_val by lia.
  rewrite (proj2 (Z.ltb_lt _ _)) by lia. lia.
Qed.

Lemma format_digits_dec fuel n : 0 ≤ n < 10 ^ Z.of_nat (S fuel) →
  Forall is_digit (format_digits (S fuel) n 10 []) ∧
  dec_val (format_digits (S fuel) n 10 []) = n.
Proof.
  revert n. induction fuel as [|fuel IH]; intros n Hn; rewrite format_digits_snoc.
  - rewrite Z.pow_1_r in Hn. rewrite Z.div_small by lia. simpl.
    destruct (digit_chr_dec n) as [H1 H2]. split; [by apply Forall_singleton|].
    change (dec_val [digit_chr (n mod 10)]) with (0 + (byte_val (digit_chr (n mod 10)) - 48)).
    rewrite H2, Z.mod_small; lia.
  - destruct (digit_chr_dec n) as [H1 H2].
    pose proof (Z.div_mod n 10). pose proof (Z.div_pos n 10).
    rewrite Nat2Z.inj_succ, Z.pow_succ_r in Hn by lia.
    destruct (IH (n / 10)) as [IH1 IH2]; [split; [lia|apply Z.div_lt_upper_bound; lia]|].
    destruct (Z.eqb_spec (n / 10) 0) as [E|E].
    + split; [by apply Forall_singleton|]. rewrite dec_val_snoc, H2. unfold dec_val. simpl. lia.
    + split; [apply Forall_app_2; [done|by apply Forall_singleton]|].
      rewrite dec_val_snoc, H2, IH2. lia.
Qed.

Lemma format_digits_length fuel k n : (1 ≤ k ≤ fuel)%nat → 0 ≤ n < 10 ^ Z.of_nat k →
  (length (format_digits fuel n 10 []) ≤ k)%nat.
Proof.
  revert k n. induction fuel as [|fuel IH]; intros k n Hk Hn; [simpl; lia|].
  rewrite format_digits_snoc, length_app. cbn [length].
  destruct (Z.eqb_spec (n / 10) 0) as [E|E]; [simpl; lia|].
  destruct k as [|k]; [lia|]. rewrite Nat2Z.inj_succ, Z.pow_succ_r in Hn by lia.
  assert (k ≠ 0%nat).
  { intros ->. apply E. apply Z.div_small. rewrite Z.pow_0_r in Hn. lia. }
  assert (length (format_digits fuel (n / 10) 10 []) ≤ k)%nat; [|lia].
  apply IH; [lia|]. split; [apply Z.div_pos; lia|apply Z.div_lt_upper_bound; lia].
Qed.

Definition is_uint64 (n : Z) : Prop := 0 ≤ n < 2 ^ 64.

Lemma dec_val_zeros k s : dec_val (replicate k Byte.x30 ++ s) = dec_val s.
Proof.
  induction k as [|k IH]; [done|]. simpl. rewrite dec_val_cons, IH.
  change (byte_val Byte.x30) with 48. lia.
Qed.

Lemma Sprintf_020d_spec n : is_uint64 n →
  Forall is_digit (Sprintf_020d n) ∧ length (Sprintf_020d n) = 20%nat ∧
  dec_val (Sprintf_020d n) = n.
Proof.
  unfold is_uint64. intros Hn.
  destruct (format_digits_dec 63 n) as [Hd Hv]; [change (Z.of_nat 64) with 64; lia|].
  pose proof (format_digits_length 64 20 n ltac:(lia)
    ltac:(change (Z.of_nat 20) with 20; lia)) as Hl.
  unfold Sprintf_020d, FormatUint. split_and!.
  - apply Forall_app_2; [|done]. apply Forall_replicate. unfold is_digit.
    change (byte_val Byte.x30) with 48. lia.
  - rewrite length_app, length_replicate. lia.
  - by rewrite dec_val_zeros.
Qed.

Lemma Compare_Sprintf_020d a b : is_uint64 a → is_uint64 b →
  Compare (Sprintf_020d a) (Sprintf_020d b) = Z.sgn (a - b).
Proof.
  intros (? & ? & Ea)%Sprintf_020d_spec (? & ? & Eb)%Sprintf_020d_spec.
  rewrite Compare_dec, Ea, Eb by (done || lia). done.
Qed.

(** ** Joining simple elements *)

Definition simple_elem (e : bytes) : Prop :=
  e ≠ [] ∧ (slash ∉ e) ∧ e ≠ dot ∧ e ≠ dotdot.

#[export] Instance simple_elem_dec e : Decision (simple_elem e).
Proof. unfold simple_elem. apply _. Defined.

Lemma split_slash_plain e s cur : slash ∉ e →
  split_slash (e ++ s) cur = split_slash s (cur ++ e).
Proof.
  revert cur. induction e as [|c e IH]; intros cur He; simpl.
  { by rewrite app_nil_r. }
  rewrite bool_decide_eq_false_2 by set_solver. rewrite IH by set_solver.
  by rewrite <-app_assoc.
Qed.

Lemma split_join_slash l : l ≠ [] → Forall (λ e, slash ∉ e) l →
  split_slash (join_slash l) [] = l.
Proof.
  induction l as [|x l IH]; intros Hn Hl; [done|]. inversion Hl as [|?? Hx Hl']; subst.
  destruct l as [|y l].
  - simpl. by rewrite <-(app_nil_r x), split_slash_plain, app_nil_r.
  - change (join_slash (x :: y :: l)) with (x ++ slash :: join_slash (y :: l)).
    rewrite split_slash_plain by done. cbn [split_slash].
    rewrite bool_decide_eq_true_2 by done. by rewrite IH.
Qed.

Lemma clean_simple rooted l stack : Forall simple_elem l →
  foldl (clean_elem rooted) stack l = reverse l ++ stack.
Proof.
  intros Hl. revert stack. induction Hl as [|x l Hx Hl IH]; intros stack; [done|].
  cbn [foldl]. rewrite IH, reverse_cons, <-app_assoc. destruct Hx as (? & ? & ? & ?).
  unfold clean_elem. rewrite bool_decide_eq_false_2 by naive_solver.
  by rewrite bool_decide_eq_false_2.
Qed.

Lemma Join_simple l : l ≠ [] → Forall simple_elem l → Join l = join_slash l.
Proof.
  intros Hn Hl. unfold Join. rewrite filter_all.
  2:{ intros x Hx. rewrite list.Forall_forall in Hl. by apply Hl in Hx as []. }
  destruct l as [|x l]; [done|]. unfold Clean.
  rewrite split_join_slash, clean_simple, app_nil_r, reverse_involutive; [|done..|].
  2:{ eapply Forall_impl; [done|]. by intros ? (? & ? & ?). }
  inversion Hl as [|?? (Hx & Hs & _) _]; subst. destruct x as [|c x]; [done|].
  assert (head (join_slash ((c :: x) :: l)) = Some c) as -> by (by destruct l).
  rewrite bool_decide_eq_false_2 by (intros [= ->]; set_solver).
  by destruct l.
Qed.

Lemma join_slash_app l k : l ≠ [] → k ≠ [] → join_slash l ++ slash :: join_slash k = join_slash (l ++ k).
Proof.
  intros Hl Hk. induction l as [|x l IH]; [done|]. destruct l as [|y l].
  - destruct k; done.
  - change (join_slash (x :: y :: l)) with (x ++ slash :: join_slash (y :: l)).
    rewrite <-app_assoc, <-app_comm_cons, IH by done. done.
Qed.

Lemma join_slash_nonempty l : l ≠ [] → Forall simple_elem l → join_slash l ≠ [].
Proof. intros Hn Hl. destruct Hl as [|[|? ?] [|??] [Hx _]]; done. Qed.

Lemma join_slash_inj l k : l ≠ [] → k ≠ [] → Forall simple_elem l → Forall simple_elem k →
  join_slash l = join_slash k → l = k.
Proof.
  intros ? ? Hl Hk E. rewrite <-(split_join_slash l), <-(split_join_slash k), E; try done;
    (eapply Forall_impl; [done|]; by intros ? (? & ? & ?)).
Qed.

(** Joining a relative path to a rooted one, both clean. *)
Lemma Join_rooted l k : l ≠ [] → k ≠ [] → Forall simple_elem l → Forall simple_elem k →
  Join [slash :: join_slash l; join_slash k] = slash :: join_slash (l ++ k).
Proof.
  intros Hl Hk Fl Fk. assert (Hs : Forall simple_elem (l ++ k)) by by apply Forall_app.
  unfold Join. rewrite filter_all.
  2:{ intros x [->|[->|[]%elem_of_nil]%elem_of_cons]%elem_of_cons; [done|by apply join_slash_nonempty]. }
  change (join_slash [slash :: join_slash l; join_slash k]) with (slash :: join_slash l ++ slash :: join_slash k).
  rewrite join_slash_app by done. unfold Clean. cbn [head].
  rewrite bool_decide_eq_true_2 by done. cbn [split_slash]. rewrite bool_decide_eq_true_2 by done.
  rewrite split_join_slash; [| |eapply Forall_impl; [done|]; by intros ? (? & ? & ?)].
  2:{ destruct l; done. }
  cbn [foldl]. rewrite clean_simple, app_nil_r by done. by rewrite reverse_involutive.
Qed.

Lemma digits_simple s : Forall is_digit s → s ≠ [] → simple_elem s.
Proof.
  intros Hs Hn. assert (∀ c, c ∈ s → is_digit c) as Hd by by apply list.Forall_forall.
  destruct s as [|c s]; [done|]. pose proof (Hd c ltac:(set_solver)) as Hc.
  split_and!; [done| |intros [= -> _]|intros [= -> _]].
  - intros Hsl%Hd. unfold is_digit in Hsl. change (byte_val slash) with 47 in Hsl. lia.
  - unfold is_digit in Hc. change (byte_val Byte.x2e) with 46 in Hc. lia.
  - unfold is_digit in Hc. change (byte_val Byte.x2e) with 46 in Hc. lia.
Qed.

Lemma parse_loop_range base n s m : 0 ≤ n < 2 ^ 64 → parse_loop base n s = inr m → 0 ≤ m < 2 ^ 64.
Proof.
  revert n. induction s as [|c s IH]; intros n Hn; simpl; [by intros [= <-]|].
  destruct (parse_step base n c) as [e|n'] eqn:E; [done|]. apply IH.
  unfold parse_step in E. repeat case_match; simplify_eq. apply uint64_range.
Qed.

Lemma ParseUint_range s base m : ParseUint s base = inr m → is_uint64 m.
Proof. destruct s; [done|]. apply parse_loop_range. lia. Qed.
