(* ===== verification/KV.v ===== *)
(** * The key-value interface and the in-memory store (server/kv)

    [kv.Base] is a class of operations in a state-and-error monad; what its
    clients rely on is a class of laws over an abstract view of the store, a
    finite map from keys to values.  An operation that fails leaves the view
    unchanged or, for a write, may have taken effect: the error of a remote
    store does not say which.  [memoryKV] (mem_kv.go), over any B-tree, is
    proved to be an instance. *)

From S2P Require Import Prelude GoBytes BTree.

(** ** State and errors *)

(** An error value, or a run-time panic (a nil dereference). *)
Inductive go_error := Error (msg : string) | Panic (msg : string).

#[export] Instance go_error_eq_dec : EqDecision go_error.
Proof. solve_decision. Defined.

Abbreviation result A := (sum go_error A).

#[export] Instance result_bind : MBind (sum go_error) := λ A B f r,
  match r with inl err => inl err | inr x => f x end.

(** A computation over a store [S] that can fail. *)
Definition M (S A : Type) : Type := S → S * result A.

#[export] Instance M_ret {S} : MRet (M S) := λ A x s, (s, inr x).
#[export] Instance M_bind {S} : MBind (M S) := λ A B f m s,
  match m s with
  | (s', inl e) => (s', inl e)
  | (s', inr x) => f x s'
  end.

Definition mfail {S A} (e : go_error) : M S A := λ s, (s, inl e).

(** A pure function that returns an error. *)
Definition lift_result {S A} (r : result A) : M S A := λ s, (s, r).

(** [x, err := m]: the error is a value. *)
Definition mcatch {S A} (m : M S A) : M S (result A) := λ s,
  let '(s', r) := m s in (s', inr r).

Lemma M_bind_inr {S A B} (m : M S A) (f : A → M S B) s s' b :
  (x ← m; f x) s = (s', inr b) ↔ ∃ s1 a, m s = (s1, inr a) ∧ f a s1 = (s', inr b).
Proof.
  unfold mbind, M_bind. destruct (m s) as [s1 [e|a]]; split.
  - done.
  - by intros (? & ? & ? & ?).
  - eauto.
  - intros (? & ? & ? & ?). by simplify_eq.
Qed.

Lemma M_bind_eq {S A B} (m : M S A) (f : A → M S B) s :
  (x ← m; f x) s = match m s with (s', inl e) => (s', inl e) | (s', inr x) => f x s' end.
Proof. done. Qed.

(** What holds of the state and the result after a computation. *)
Definition mpost {S A} (m : M S A) (s : S) (Q : S → result A → Prop) : Prop := Q (m s).1 (m s).2.

Lemma mpost_mono {S A} (m : M S A) s (Q Q' : S → result A → Prop) :
  mpost m s Q → (∀ s' r, Q s' r → Q' s' r) → mpost m s Q'.
Proof. intros H HQ. by apply HQ. Qed.

Lemma mpost_bind {S A B} (m : M S A) (f : A → M S B) s (Q : S → result B → Prop) :
  mpost m s (λ s' r, match r with inl e => Q s' (inl e) | inr a => mpost (f a) s' Q end) →
  mpost (x ← m; f x) s Q.
Proof. unfold mpost. rewrite M_bind_eq. by destruct (m s) as [s' [e|a]]. Qed.

Lemma mpost_eq {S A} (m : M S A) s (Q : S → result A → Prop) s' r : mpost m s Q → m s = (s', r) → Q s' r.
Proof. intros H E. unfold mpost in H. by rewrite E in H. Qed.

(** ** kv.Base *)

Class KVBase (S : Type) := {
  Load : bytes → M S bytes;
  LoadRange : bytes → bytes → Z → M S (list bytes * list bytes);
  Save : bytes → bytes → M S unit;
  Remove : bytes → M S unit;
}.

(** The pairs of a store in a range of keys, in key order. *)
Definition range_items (m : gmap bytes bytes) (key endKey : bytes) (l : list (bytes * bytes)) : Prop :=
  StronglySorted (λ p q, (p.1 < q.1)%key) l ∧
  ∀ k v, (k, v) ∈ l ↔ m !! k = Some v ∧ (key ≤ k)%key ∧ (k < endKey)%key.

Class KVLaws (S : Type) `{!KVBase S} := {
  kv_ok : S → Prop;
  kv_view : S → gmap bytes bytes;
  Load_law s k s' r : kv_ok s → Load k s = (s', r) →
    kv_ok s' ∧ kv_view s' = kv_view s ∧
    ∀ v, r = inr v → v = default [] (kv_view s !! k);
  LoadRange_law s k e limit s' r : kv_ok s → 1 ≤ limit → LoadRange k e limit s = (s', r) →
    kv_ok s' ∧ kv_view s' = kv_view s ∧
    ∀ ks vs, r = inr (ks, vs) →
      ∃ l, range_items (kv_view s) k e l ∧
        (ks, vs) = (take (Z.to_nat limit) l.*1, take (Z.to_nat limit) l.*2);
  Save_law s k v s' r : kv_ok s → Save k v s = (s', r) →
    kv_ok s' ∧ (kv_view s' = <[k := v]> (kv_view s) ∨ kv_view s' = kv_view s ∧ ∃ e, r = inl e);
  Remove_law s k s' r : kv_ok s → Remove k s = (s', r) →
    kv_ok s' ∧ (kv_view s' = delete k (kv_view s) ∨ kv_view s' = kv_view s ∧ ∃ e, r = inl e);
}.

(** ** The in-memory store *)

Record memoryKVItem := mkItem { item_key : bytes; item_value : bytes }.

(** Go compares strings by bytes. *)
#[export] Instance memoryKVItem_Less : ItemLess memoryKVItem := λ s than,
  Compare (item_key s) (item_key than) <? 0.

#[export] Instance memoryKVItem_Less_laws : ItemLessLaws memoryKVItem.
Proof.
  split; unfold Less, memoryKVItem_Less; intros; rewrite ?Compare_ltb in *;
    rewrite ?bool_decide_eq_true, ?bool_decide_eq_false in *.
  - apply key_nlt_le. key_order.
  - key_order.
  - apply key_nlt_le in H. apply key_nlt_le in H0. apply key_nlt_le. key_order.
Qed.

Section memoryKV.
Context {T : Type} `{!BTreeOps memoryKVItem T}.

Record memoryKV := mkMemoryKV { mem_tree : T }.

Definition NewMemoryKV : memoryKV := mkMemoryKV (bt_New 2).

Definition mem_Load (key : bytes) : M memoryKV bytes := λ kv,
  match bt_Get (mem_tree kv) (mkItem key []) with
  | None => (kv, inr [])
  | Some item => (kv, inr (item_value item))
  end.

Definition mem_LoadRange (key endKey : bytes) (limit : Z) : M memoryKV (list bytes * list bytes) := λ kv,
  (kv, inr (bt_AscendRange (mem_tree kv) (mkItem key []) (mkItem endKey [])
    (λ item '(keys, values),
       let keys := keys ++ [item_key item] in
       let values := values ++ [item_value item] in
       ((keys, values), Z.of_nat (length keys) <? limit)) ([], []))).

Definition mem_Save (key value : bytes) : M memoryKV unit := λ kv,
  (mkMemoryKV (bt_ReplaceOrInsert (mem_tree kv) (mkItem key value)), inr ()).

Definition mem_Remove (key : bytes) : M memoryKV unit := λ kv,
  (mkMemoryKV (bt_Delete (mem_tree kv) (mkItem key [])), inr ()).

#[export] Instance memoryKV_Base : KVBase memoryKV := {
  Load := mem_Load;
  LoadRange := mem_LoadRange;
  Save := mem_Save;
  Remove := mem_Remove;
}.
End memoryKV.
Arguments memoryKV : clear implicits.

(** ** The in-memory store satisfies the laws *)

Definition item_pair (i : memoryKVItem) : bytes * bytes := (item_key i, item_value i).

Lemma Less_key (x y : memoryKVItem) : Less x y = true ↔ (item_key x < item_key y)%key.
Proof. unfold Less, memoryKVItem_Less. by rewrite Compare_ltb, bool_decide_eq_true. Qed.

Lemma Less_key_false (x y : memoryKVItem) : Less x y = false ↔ (item_key y ≤ item_key x)%key.
Proof.
  unfold Less, memoryKVItem_Less. by rewrite Compare_ltb, bool_decide_eq_false, key_nlt_le.
Qed.

Section memory_laws.
Context {T : Type} `{!BTreeOps memoryKVItem T, !BTreeLaws memoryKVItem T}.
Implicit Type s : memoryKV T.

Definition mem_ok s : Prop := bt_ok (mem_tree s).
Definition mem_items s : list memoryKVItem := bt_items (mem_tree s).
Definition mem_view s : gmap bytes bytes := list_to_map (item_pair <$> mem_items s).

Lemma mem_keys_NoDup s : mem_ok s → NoDup ((item_pair <$> mem_items s).*1).
Proof.
  intros Hs%bt_items_sorted. unfold mem_items. rewrite <-list_fmap_compose.
  induction Hs as [|x l Hl IH Hx]; [constructor|]. simpl. constructor; [|done].
  intros (y & E & Hy)%list_elem_of_fmap. rewrite list.Forall_forall in Hx.
  apply Hx, Less_key in Hy. simpl in E. unfold compose in E. simpl in E. key_order.
Qed.

Lemma mem_view_Some s k v : mem_ok s →
  mem_view s !! k = Some v ↔ mkItem k v ∈ mem_items s.
Proof.
  intros Hs. unfold mem_view. rewrite <-elem_of_list_to_map by by apply mem_keys_NoDup.
  rewrite list_elem_of_fmap. split.
  - intros ([k' v'] & E & Hy). unfold item_pair in E. simpl in E. by simplify_eq.
  - intros H. by exists (mkItem k v).
Qed.

(** The items of a store determine its view. *)
Lemma mem_view_ext s (m : gmap bytes bytes) : mem_ok s →
  (∀ k v, mkItem k v ∈ mem_items s ↔ m !! k = Some v) → mem_view s = m.
Proof.
  intros Hs H. apply map_eq. intros k. apply option_eq. intros v.
  by rewrite mem_view_Some, H.
Qed.

Lemma mem_Load_spec s k : mem_ok s →
  mem_Load k s = (s, inr (default [] (mem_view s !! k))).
Proof.
  intros Hs. unfold mem_Load. rewrite bt_Get_items by done.
  fold (mem_items s). destruct (find_first _ _) as [[k' v]|] eqn:E.
  - apply find_first_Some in E as [Hin E]. unfold items_equiv in E.
    apply andb_true_iff in E as [E1 E2]. apply negb_true_iff in E1, E2.
    apply Less_key_false in E1. apply Less_key_false in E2. simpl in *.
    assert (k' = k) as -> by key_order. apply mem_view_Some in Hin; [|done].
    by rewrite Hin.
  - destruct (mem_view s !! k) as [v|] eqn:Ev; [|done].
    apply mem_view_Some in Ev; [|done].
    rewrite find_first_None in E. apply E in Ev. unfold items_equiv in Ev.
    apply andb_false_iff in Ev as [H|H]; apply negb_false_iff, Less_key in H;
      simpl in H; key_order.
Qed.

(** The callback of [LoadRange] collects up to [limit] pairs. *)
Lemma load_range_iter limit (l : list memoryKVItem) ks vs :
  iter_while (λ item '(keys, values),
       let keys := keys ++ [item_key item] in
       let values := values ++ [item_value item] in
       ((keys, values), Z.of_nat (length keys) <? limit)) l (ks, vs)
  = let n := Z.to_nat (Z.max 1 (limit - Z.of_nat (length ks))) in
    (ks ++ take n (item_key <$> l), vs ++ take n (item_value <$> l)).
Proof.
  revert ks vs. induction l as [|x l IH]; intros ks vs; simpl.
  { by rewrite !take_nil, !app_nil_r. }
  rewrite length_app; simpl. set (n := Z.of_nat (length ks)).
  replace (Z.of_nat (length ks + 1)) with (n + 1) by (unfold n; lia).
  destruct (Z.ltb_spec (n + 1) limit).
  - rewrite IH. cbv zeta. rewrite <-!app_assoc, length_app. simpl. fold n.
    replace (Z.to_nat (Z.max 1 (limit - n)))
      with (S (Z.to_nat (Z.max 1 (limit - Z.of_nat (length ks + 1)))))
      by (unfold n in *; lia).
    done.
  - by replace (Z.to_nat (Z.max 1 (limit - n))) with 1%nat by lia.
Qed.

Lemma mem_range_items s k e : mem_ok s →
  range_items (mem_view s) k e
    (item_pair <$> items_lt (mkItem e []) (items_ge (mkItem k []) (mem_items s))).
Proof.
  intros Hs. split.
  - pose proof (bt_items_sorted _ Hs) as Hl. fold (mem_items s) in Hl.
    unfold items_lt, items_ge. apply (StronglySorted_filter _ (λ y, Less y (mkItem k []) = false)) in Hl.
    apply (StronglySorted_filter _ (λ y, Less y (mkItem e []) = true)) in Hl.
    induction Hl as [|x l Hl IH Hx]; [constructor|]. simpl. constructor; [done|].
    apply list.Forall_forall. intros ? (y & -> & Hy)%list_elem_of_fmap.
    rewrite list.Forall_forall in Hx. by apply Less_key, Hx.
  - intros k' v. rewrite mem_view_Some, list_elem_of_fmap by done. split.
    + intros ([k1 v1] & E & H). unfold item_pair in E. simpl in E. simplify_eq.
      apply list_elem_of_filter in H as [He H]. apply list_elem_of_filter in H as [Hk H].
      apply Less_key in He. apply Less_key_false in Hk. done.
    + intros (H & Hk & He). exists (mkItem k' v). split; [done|].
      apply list_elem_of_filter. split; [by apply Less_key|].
      apply list_elem_of_filter. split; [by apply Less_key_false|done].
Qed.

Lemma mem_Save_view s k v : mem_ok s →
  mem_ok (mem_Save k v s).1 ∧ mem_view (mem_Save k v s).1 = <[k := v]> (mem_view s).
Proof.
  intros Hs. assert (mem_ok (mem_Save k v s).1) as Hs' by by apply bt_Insert_ok.
  split; [done|]. apply mem_view_ext; [done|]. intros k' v'.
  unfold mem_Save, mem_items. simpl. rewrite bt_Insert_items by done.
  rewrite elem_of_app, elem_of_cons. unfold items_lt, items_gt.
  rewrite !list_elem_of_filter, !Less_key. simpl. rewrite lookup_insert_Some, mem_view_Some by done.
  split.
  - intros [[??]|[E|[??]]]; [|by simplify_eq; left|]; right; (split; [intros ->; key_order|done]).
  - intros [[-> ->]|[Hne H]]; [by right; left|].
    apply key_ne_iff in Hne as [?|?]; [right; right|left]; done.
Qed.

Lemma mem_Remove_view s k : mem_ok s →
  mem_ok (mem_Remove k s).1 ∧ mem_view (mem_Remove k s).1 = delete k (mem_view s).
Proof.
  intros Hs. assert (mem_ok (mem_Remove k s).1) as Hs' by by apply bt_Delete_ok.
  split; [done|]. apply mem_view_ext; [done|]. intros k' v'.
  unfold mem_Remove, mem_items. simpl. rewrite bt_Delete_items by done.
  unfold items_ne. rewrite list_elem_of_filter, orb_true_iff, !Less_key. simpl.
  rewrite lookup_delete_Some, mem_view_Some, key_ne_iff by done. done.
Qed.

#[export, refine] Instance memoryKV_laws : KVLaws (memoryKV T) := {
  kv_ok := mem_ok;
  kv_view := mem_view;
}.
Proof.
  - intros s k s' r Hs. cbn. rewrite mem_Load_spec by done. intros [= <- <-].
    split_and!; [done..|]. intros v [= <-]. done.
  - intros s k e limit s' r Hs Hlim [= <- <-]. split_and!; [done..|].
    intros ks vs E. rewrite bt_AscendRange_items, load_range_iter in E by done.
    eexists. split; [by apply mem_range_items|].
    cbn [length Z.of_nat app] in E. rewrite Z.sub_0_r, Z.max_r in E by done.
    injection E as <- <-. by rewrite <-!list_fmap_compose.
  - intros s k v s' r Hs [= <- <-]. destruct (mem_Save_view s k v Hs) as [H1 H2].
    split; [done|]. by left.
  - intros s k s' r Hs [= <- <-]. destruct (mem_Remove_view s k Hs) as [H1 H2].
    split; [done|]. by left.
Defined.
End memory_laws.

(** The in-memory store never fails. *)
Lemma mem_no_error {T} `{!BTreeOps memoryKVItem T} (s : memoryKV T) k e v limit :
  (∃ x, (Load k s).2 = inr x) ∧ (∃ x, (LoadRange k e limit s).2 = inr x) ∧
  (Save k v s).2 = inr () ∧ (Remove k s).2 = inr ().
Proof.
  split_and!; [|by eexists|done..]. cbn. unfold mem_Load. case_match; by eexists.
Qed.

(** ** LevelDB (levedb_kv.go)

    goleveldb is a dependency: its operations are a class, with the laws its
    documentation states over the map the database holds.  [Get] fails on a
    missing key, a batch is written atomically, an iterator yields the pairs of
    its range in key order. *)

Class LevelDB (D : Type) := {
  db_Get : bytes → M D bytes;
  db_Put : bytes → bytes → M D unit;
  db_Delete : bytes → M D unit;
  db_Write : list (bytes * bytes) → M D unit;
  db_Iterate : bytes → bytes → D → list (bytes * bytes);
}.

(** A batch of puts applied to a map, in order. *)
Definition apply_batch (batch : list (bytes * bytes)) (m : gmap bytes bytes) : gmap bytes bytes :=
  foldl (λ m p, <[p.1 := p.2]> m) m batch.

Class LevelDBLaws (D : Type) `{!LevelDB D} := {
  db_ok : D → Prop;
  db_view : D → gmap bytes bytes;
  db_Get_law d k d' r : db_ok d → db_Get k d = (d', r) →
    db_ok d' ∧ db_view d' = db_view d ∧ ∀ v, r = inr v → db_view d !! k = Some v;
  db_Put_law d k v d' r : db_ok d → db_Put k v d = (d', r) →
    db_ok d' ∧ (db_view d' = <[k := v]> (db_view d) ∨ db_view d' = db_view d ∧ ∃ e, r = inl e);
  db_Delete_law d k d' r : db_ok d → db_Delete k d = (d', r) →
    db_ok d' ∧ (db_view d' = delete k (db_view d) ∨ db_view d' = db_view d ∧ ∃ e, r = inl e);
  db_Write_law d b d' r : db_ok d → db_Write b d = (d', r) →
    db_ok d' ∧ (db_view d' = apply_batch b (db_view d) ∨ db_view d' = db_view d ∧ ∃ e, r = inl e);
  db_Iterate_law d k e : db_ok d → range_items (db_view d) k e (db_Iterate k e d);
}.

Section leveldb.
Context {D : Type} `{!LevelDB D}.

Definition level_Load (key : bytes) : M D bytes := db_Get key.

(** [for iter.Next() { if count >= limit { break } ... }]. *)
Definition level_LoadRange (startKey endKey : bytes) (limit : Z) : M D (list bytes * list bytes) := λ d,
  let '(keys, values, _) :=
    iter_while (λ kv '(keys, values, count),
      if limit <=? count then ((keys, values, count), false)
      else ((keys ++ [kv.1], values ++ [kv.2], count + 1), true))
      (db_Iterate startKey endKey d) ([], [], 0) in
  (d, inr (keys, values)).

Definition level_Save (key value : bytes) : M D unit := db_Put key value.
Definition level_Remove (key : bytes) : M D unit := db_Delete key.

Definition level_Base : KVBase D := {|
  Load := level_Load;
  LoadRange := level_LoadRange;
  Save := level_Save;
  Remove := level_Remove;
|}.

Lemma level_range_iter limit l ks vs count :
  iter_while (λ kv '(keys, values, count),
      if limit <=? count then ((keys, values, count), false)
      else ((keys ++ [kv.1], values ++ [kv.2], count + 1), true)) l (ks, vs, count)
  = let n := Z.to_nat (limit - count) in
    (ks ++ take n (l.*1 : list bytes), vs ++ take n (l.*2 : list bytes),
     count + Z.of_nat (length (take n l))).
Proof.
  revert ks vs count. induction l as [|[k v] l IH]; intros ks vs count; simpl.
  { rewrite !take_nil, !app_nil_r. simpl. by rewrite Z.add_0_r. }
  destruct (Z.leb_spec limit count).
  - replace (Z.to_nat (limit - count)) with 0%nat by lia. simpl.
    by rewrite !app_nil_r, Z.add_0_r.
  - rewrite IH. cbv zeta.
    replace (Z.to_nat (limit - count)) with (Datatypes.S (Z.to_nat (limit - (count + 1)))) by lia.
    simpl. rewrite <-!app_assoc. simpl. f_equal. lia.
Qed.

#[refine] Definition level_laws `{!LevelDBLaws D} : @KVLaws D level_Base := {|
  kv_ok := db_ok;
  kv_view := db_view;
|}.
Proof.
  - intros d k d' r Hd E. apply db_Get_law in E as (? & ? & Hr); [|done].
    split_and!; [done..|]. intros v Ev. by rewrite (Hr v Ev).
  - intros d k e limit d' r Hd Hl E. cbn in E. unfold level_LoadRange in E.
    rewrite level_range_iter in E. cbn in E. rewrite Z.sub_0_r in E. injection E as <- <-.
    split_and!; [done..|]. intros ks vs [= <- <-]. eexists. split; [by apply db_Iterate_law|done].
  - intros d k v d' r Hd E. by apply db_Put_law in E.
  - intros d k d' r Hd E. by apply db_Delete_law in E.
Defined.
End leveldb.

(** An instance of the database: the in-memory store over sorted lists. *)
Module MemLevel.
Import SortedList.
Definition db : Type := memoryKV (list memoryKVItem).
Implicit Type d : db.

Definition mem_Write (b : list (bytes * bytes)) : M db unit := λ d,
  (foldl (λ d p, (mem_Save p.1 p.2 d).1) d b, inr ()).

#[export] Instance ops : LevelDB db := {
  db_Get k d := (d, match mem_view d !! k with
                    | Some v => inr v | None => inl (Error "leveldb: not found") end);
  db_Put := mem_Save;
  db_Delete := mem_Remove;
  db_Write := mem_Write;
  db_Iterate k e d := item_pair <$> items_lt (mkItem e []) (items_ge (mkItem k []) (mem_items d));
}.

Lemma mem_Write_view b d : mem_ok d →
  mem_ok (mem_Write b d).1 ∧ mem_view (mem_Write b d).1 = apply_batch b (mem_view d).
Proof.
  unfold mem_Write, apply_batch. cbn [fst]. revert d. induction b as [|p b IH]; intros d Hd; [done|].
  cbn [foldl]. destruct (mem_Save_view d p.1 p.2 Hd) as [Hd' <-]. by apply IH.
Qed.

#[export, refine] Instance laws : LevelDBLaws db := {
  db_ok := mem_ok;
  db_view := mem_view;
}.
Proof.
  - intros d k d' r Hd [= <- <-]. split_and!; [done..|]. intros v. case_match; congruence.
  - intros d k v d' r Hd [= <- <-]. destruct (mem_Save_view d k v Hd). by split; [|left].
  - intros d k d' r Hd [= <- <-]. destruct (mem_Remove_view d k Hd). by split; [|left].
  - intros d b d' r Hd [= <- <-]. destruct (mem_Write_view b d Hd). by split; [|left].
  - intros d k e Hd. by apply mem_range_items.
Defined.
End MemLevel.

(** ** Properties *)

Inductive kv_op := OpSave (key value : bytes) | OpRemove (key : bytes).

Definition run_op {S} `{!KVBase S} (o : kv_op) : M S unit :=
  match o with OpSave k v => Save k v | OpRemove k => Remove k end.

Definition run_ops {S} `{!KVBase S} (ops : list kv_op) (s : S) : S :=
  foldl (λ s o, (run_op o s).1) s ops.

(** What a sequence of writes does to a map. *)
Definition spec_ops (ops : list kv_op) : gmap bytes bytes :=
  foldl (λ m o, match o with OpSave k v => <[k := v]> m | OpRemove k => delete k m end) ∅ ops.

Lemma run_ops_view {T} `{!BTreeOps memoryKVItem T, !BTreeLaws memoryKVItem T} ops :
  mem_ok (run_ops ops NewMemoryKV) ∧ mem_view (run_ops ops (NewMemoryKV (T:=T))) = spec_ops ops.
Proof.
  unfold run_ops, spec_ops. induction ops as [|o ops [IH1 IH2]] using rev_ind.
  - split; [apply bt_New_ok|]. unfold mem_view, mem_items. simpl. by rewrite bt_New_items.
  - rewrite !foldl_snoc, <-IH2. destruct o as [k v|k].
    + by apply mem_Save_view.
    + by apply mem_Remove_view.
Qed.

(** An in-memory store filled by any sequence of [Save] and [Remove] calls
    loads for every key the value last saved and not removed, or the empty
    string, and [LoadRange] returns the first [limit] pairs of the range in key
    order; no call fails. *)
Theorem memoryKV_refines {T} `{!BTreeOps memoryKVItem T, !BTreeLaws memoryKVItem T}
    (ops : list kv_op) (k e : bytes) (limit : Z) :
  1 ≤ limit →
  let s := run_ops ops (NewMemoryKV (T:=T)) in
  Load k s = (s, inr (default [] (spec_ops ops !! k))) ∧
  ∃ l, range_items (spec_ops ops) k e l ∧
    LoadRange k e limit s =
      (s, inr (take (Z.to_nat limit) l.*1, take (Z.to_nat limit) l.*2)).
Proof.
  intros Hlim s. destruct (run_ops_view (T:=T) ops) as [Hok Hv]. fold s in Hok, Hv.
  rewrite <-Hv. split; [by apply mem_Load_spec|].
  destruct (LoadRange k e limit s) as [s' r] eqn:E.
  pose proof (LoadRange_law s k e limit s' r Hok Hlim E) as (_ & _ & Hr).
  unfold LoadRange in E. simpl in E. unfold mem_LoadRange in E. injection E as <- Er.
  destruct r as [|[ks vs]]; [done|]. destruct (Hr ks vs eq_refl) as (l & Hl & El).
  exists l. split; [done|]. by rewrite El.
Qed.

Module KVDemo.
Import SortedList.
Definition demo_ops : list kv_op :=
  [OpSave [Byte.x61] [Byte.x01]; OpSave [Byte.x62] [Byte.x02]; OpRemove [Byte.x61]].
Lemma memoryKV_refines_witness :
  Load [Byte.x62] (run_ops demo_ops (NewMemoryKV (T:=list memoryKVItem)))
  = (run_ops demo_ops NewMemoryKV, inr [Byte.x02]).
Proof.
  destruct (memoryKV_refines (T:=list memoryKVItem) demo_ops [Byte.x62] [Byte.x7a] 10) as [H _];
    [lia|]. rewrite H. vm_compute. reflexivity.
Defined.
End KVDemo.
