(* ===== verification/HistoryBuffer.v ===== *)
(** * The change log of the region syncer (server/region_syncer/history_buffer.go)

    A ring buffer of the last records with a running index, whose index is
    saved in a [kv.Base] every hundred records.  It is proved to keep exactly the
    last [size] records of everything recorded. *)

From S2P Require Import Prelude GoBytes BTree KV Strconv Metapb Region.

Definition historyKey : bytes := str "historyIndex".
Definition defaultFlushCount : Z := 100.

(** The [kv] field is the store the operations run in. *)
Record historyBuffer := mkHistory {
  h_index : Z;
  h_records : list (option RegionInfo);
  h_head : nat;
  h_tail : nat;
  h_size : nat;
  h_flushCount : Z;
}.

Section history.
Context {S : Type} `{!KVBase S}.

Definition distanceToTail (h : historyBuffer) (pos : nat) : nat :=
  if (h_tail h <? pos)%nat then (h_tail h + h_size h - pos)%nat else (h_tail h - pos)%nat.

Definition hist_len (h : historyBuffer) : nat := distanceToTail h (h_head h).

Definition nextIndex (h : historyBuffer) : Z := h_index h.

Definition firstIndex (h : historyBuffer) : Z := uint64 (h_index h - Z.of_nat (hist_len h)).

(** A failed save is only logged. *)
Definition persist (h : historyBuffer) (s : S) : S :=
  (Save historyKey (FormatUint (nextIndex h) 10) s).1.

(** [log.Fatal] ends the process: [None].  A failed load leaves [v] empty. *)
Definition reload (h : historyBuffer) (s : S) : S * option historyBuffer :=
  let '(s, r) := Load historyKey s in
  let v := match r with inl _ => [] | inr v => v end in
  if bool_decide (v = []) then (s, Some h)
  else
    match ParseUint v 10 with
    | inl _ => (s, None)
    | inr idx => (s, Some (mkHistory idx (h_records h) (h_head h) (h_tail h) (h_size h) (h_flushCount h)))
    end.

Definition newHistoryBuffer (size : Z) (s : S) : S * option historyBuffer :=
  let size := size + 1 in
  let size := if size <? 2 then 2 else size in
  let records := replicate (Z.to_nat size) None in
  reload (mkHistory 0 records 0 0 (Z.to_nat size) defaultFlushCount) s.

Definition Record_ (h : historyBuffer) (r : option RegionInfo) (s : S) : historyBuffer * S :=
  let records := <[h_tail h := r]> (h_records h) in
  let tail := ((h_tail h + 1) mod h_size h)%nat in
  let head := if (tail =? h_head h)%nat then ((h_head h + 1) mod h_size h)%nat else h_head h in
  let index := uint64 (h_index h + 1) in
  let flushCount := h_flushCount h - 1 in
  let h := mkHistory index records head tail (h_size h) flushCount in
  if flushCount <=? 0 then
    let s := persist h s in
    (mkHistory index records head tail (h_size h) defaultFlushCount, s)
  else (h, s).

(** [for i := pos; i != h.tail; i = (i + 1) % h.size]: the ring has [size]
    positions, so [size] steps reach the tail. *)
Fixpoint RecordsFrom_loop (fuel : nat) (h : historyBuffer) (i : nat)
    (records : list (option RegionInfo)) : list (option RegionInfo) :=
  match fuel with
  | O => records
  | Datatypes.S fuel' =>
      if (i =? h_tail h)%nat then records
      else RecordsFrom_loop fuel' h ((i + 1) mod h_size h)%nat
             (records ++ [default None (h_records h !! i)])
  end.

Definition in_history (h : historyBuffer) (index : Z) : bool :=
  (index <? nextIndex h) && (firstIndex h <=? index).

Definition history_pos (h : historyBuffer) (index : Z) : nat :=
  ((h_head h + Z.to_nat (uint64 (index - firstIndex h))) mod h_size h)%nat.

(** [None] is the nil slice. *)
Definition RecordsFrom (h : historyBuffer) (index : Z) : option (list (option RegionInfo)) :=
  if in_history h index then
    Some (RecordsFrom_loop (h_size h) h (history_pos h index) [])
  else None.

Definition ResetWithIndex (h : historyBuffer) (index : Z) : historyBuffer :=
  mkHistory index (h_records h) 0 0 (h_size h) defaultFlushCount.

Definition GetNextIndex (h : historyBuffer) : Z := h_index h.

Definition hist_get (h : historyBuffer) (index : Z) : option RegionInfo :=
  if in_history h index then default None (h_records h !! history_pos h index) else None.
End history.

(** ** Invariant and contents *)

(** Positions stay inside the slice, so no access is out of range, and the
    index has counted at least the records held. *)
Record history_ok (h : historyBuffer) : Prop := {
  ho_size : (2 ≤ h_size h)%nat;
  ho_length : length (h_records h) = h_size h;
  ho_head : (h_head h < h_size h)%nat;
  ho_tail : (h_tail h < h_size h)%nat;
  ho_index : Z.of_nat (hist_len h) ≤ h_index h < 2 ^ 64;
  ho_flush : 1 ≤ h_flushCount h ≤ defaultFlushCount;
}.

(** The record at distance [i] from the head, and all records, oldest first. *)
Definition slot (h : historyBuffer) (i : nat) : option RegionInfo :=
  default None (h_records h !! ((h_head h + i) mod h_size h)%nat).

Definition contents (h : historyBuffer) : list (option RegionInfo) :=
  slot h <$> seq 0 (hist_len h).

(** The last [n] elements of a list. *)
Definition lastn {A} (n : nat) (l : list A) : list A := drop (length l - n) l.

Section ring.
Local Open Scope nat_scope.

Lemma ring_inj h i j n : i < n → j < n → (h + i) mod n = (h + j) mod n → i = j.
Proof.
  intros Hi Hj E.
  pose proof (Nat.div_mod_eq (h + i) n). pose proof (Nat.div_mod_eq (h + j) n).
  assert ((h + i) / n = (h + j) / n ∨ (h + i) / n < (h + j) / n ∨ (h + j) / n < (h + i) / n)
    as [?|[?|?]] by lia; nia.
Qed.

Lemma ring_step h i n : n ≠ 0 → ((h + i) mod n + 1) mod n = (h + (i + 1)) mod n.
Proof. intros. rewrite Nat.Div0.add_mod_idemp_l. f_equal. lia. Qed.

Lemma distance_ring (h : historyBuffer) pos :
  h_tail h < h_size h → pos < h_size h →
  distanceToTail h pos < h_size h ∧ h_tail h = (pos + distanceToTail h pos) mod h_size h.
Proof.
  intros Ht Hp. unfold distanceToTail. destruct (Nat.ltb_spec (h_tail h) pos).
  - split; [lia|]. replace (pos + _) with (h_tail h + 1 * h_size h) by lia.
    rewrite Nat.Div0.mod_add. symmetry. by apply Nat.mod_small.
  - split; [lia|]. replace (pos + _) with (h_tail h) by lia.
    symmetry. by apply Nat.mod_small.
Qed.

(** The distance is determined by the positions. *)
Lemma distance_unique (h : historyBuffer) pos d :
  h_tail h < h_size h → pos < h_size h → d < h_size h →
  h_tail h = (pos + d) mod h_size h → distanceToTail h pos = d.
Proof.
  intros Ht Hp Hd E. destruct (distance_ring h pos Ht Hp) as [Hl E'].
  apply (ring_inj pos _ _ (h_size h)); [done..|]. by rewrite <-E', <-E.
Qed.

Lemma lastn_app_full {A} n (l : list A) x : length l = n → 0 < n →
  lastn n (l ++ [x]) = drop 1 l ++ [x].
Proof.
  intros. unfold lastn. rewrite length_app. simpl.
  replace (length l + 1 - n) with 1 by lia. destruct l; simpl in *; [lia|done].
Qed.

Lemma lastn_le {A} n (l : list A) : length l ≤ n → lastn n l = l.
Proof. intros. unfold lastn. by replace (length l - n) with 0 by lia. Qed.

Lemma lastn_snoc {A} n (l : list A) x : 0 < n → lastn n (lastn n l ++ [x]) = lastn n (l ++ [x]).
Proof.
  intros Hn. unfold lastn. rewrite !length_app, length_drop. simpl.
  destruct (decide (n <= length l)) as [H|H].
  - rewrite <-drop_app_le by lia. rewrite drop_drop. f_equal. lia.
  - replace (length l - n) with 0 by lia. rewrite drop_0. f_equal. lia.
Qed.
End ring.

Section history_laws.
Context {S : Type} `{!KVBase S}.
Implicit Type s : S.

Lemma hist_len_lt h : history_ok h → (hist_len h < h_size h)%nat.
Proof. intros []. by apply distance_ring. Qed.

Lemma tail_slot h : history_ok h → h_tail h = ((h_head h + hist_len h) mod h_size h)%nat.
Proof. intros []. by apply distance_ring. Qed.

Lemma firstIndex_val h : history_ok h → firstIndex h = h_index h - Z.of_nat (hist_len h).
Proof. intros []. unfold firstIndex. apply uint64_small. lia. Qed.

(** The buffer after [Record], before the flush. *)
Lemma Record_slots h r :
  history_ok h →
  (λ i, default None ((<[h_tail h := r]> (h_records h)) !! ((h_head h + i) mod h_size h)%nat))
    <$> seq 0 (Datatypes.S (hist_len h))
  = contents h ++ [r].
Proof.
  intros Hh. pose proof (hist_len_lt h Hh). pose proof (tail_slot h Hh) as Ht. destruct Hh.
  rewrite seq_S, fmap_app. simpl. f_equal.
  - apply list_fmap_ext. intros i j Hj. apply lookup_seq in Hj as [-> ?]. simpl.
    unfold slot. rewrite list_lookup_insert_ne; [done|].
    rewrite Ht. intros E%ring_inj; lia.
  - rewrite <-Ht, list_lookup_insert_eq by lia. done.
Qed.

(** The positions after [Record]: the tail advances, and the head too when the
    ring is full. *)
Definition ring_tail (h : historyBuffer) : nat := ((h_tail h + 1) mod h_size h)%nat.
Definition ring_full (h : historyBuffer) : bool := (ring_tail h =? h_head h)%nat.
Definition ring_head (h : historyBuffer) : nat :=
  if ring_full h then ((h_head h + 1) mod h_size h)%nat else h_head h.
Definition ring_push (h : historyBuffer) (r : option RegionInfo) (idx fc : Z) : historyBuffer :=
  mkHistory idx (<[h_tail h := r]> (h_records h)) (ring_head h) (ring_tail h) (h_size h) fc.

Lemma ring_tail_slot h : history_ok h →
  ring_tail h = ((h_head h + Datatypes.S (hist_len h)) mod h_size h)%nat.
Proof.
  intros Hh. unfold ring_tail. pose proof (ho_size h Hh).
  rewrite (tail_slot h Hh), ring_step, Nat.add_1_r by lia. done.
Qed.

Lemma ring_full_spec h : history_ok h →
  ring_full h = bool_decide (hist_len h = h_size h - 1)%nat.
Proof.
  intros Hh. unfold ring_full. rewrite ring_tail_slot by done.
  pose proof (hist_len_lt h Hh). pose proof (ho_head h Hh).
  apply eq_true_iff_eq. rewrite Nat.eqb_eq, bool_decide_eq_true.
  rewrite <-(Nat.mod_small (h_head h) (h_size h)) at 2 by done. split; intros E.
  - destruct (decide (Datatypes.S (hist_len h) = h_size h)); [lia|].
    rewrite <-(Nat.add_0_r (h_head h)) in E at 2. apply ring_inj in E; lia.
  - replace (Datatypes.S (hist_len h)) with (1 * h_size h)%nat by lia.
    apply Nat.Div0.mod_add.
Qed.

Lemma ring_push_bounds h : history_ok h →
  (ring_head h < h_size h)%nat ∧ (ring_tail h < h_size h)%nat.
Proof.
  intros Hh. pose proof (ho_size h Hh). pose proof (ho_head h Hh).
  split; [unfold ring_head; case_match; [|done]|]; apply Nat.mod_upper_bound; lia.
Qed.

Lemma ring_push_len h r idx fc : history_ok h →
  hist_len (ring_push h r idx fc) =
    if ring_full h then hist_len h else Datatypes.S (hist_len h).
Proof.
  intros Hh. pose proof (ring_push_bounds h Hh) as [??]. pose proof (hist_len_lt h Hh).
  pose proof (ring_full_spec h Hh) as Hfull.
  apply distance_unique; [done|done|..]; cbn [ring_push h_size h_tail h_head].
  - destruct (ring_full h); [done|]. symmetry in Hfull. apply bool_decide_eq_false in Hfull. lia.
  - rewrite ring_tail_slot by done. unfold ring_head. destruct (ring_full h); [|done].
    rewrite Nat.Div0.add_mod_idemp_l. f_equal. lia.
Qed.

(** The contents after [Record]: one record more, the oldest one dropped when
    the ring is full. *)
Lemma ring_push_contents h r idx fc : history_ok h →
  contents (ring_push h r idx fc) = lastn (h_size h - 1) (contents h ++ [r]).
Proof.
  intros Hh. unfold contents at 1. rewrite ring_push_len by done.
  pose proof (hist_len_lt h Hh). pose proof (Record_slots h r Hh) as Hs.
  assert (length (contents h) = hist_len h) as Hc.
  { unfold contents. by rewrite length_fmap, length_seq. }
  pose proof (ring_full_spec h Hh) as Hfull. destruct (ring_full h) eqn:Ef; symmetry in Hfull.
  - apply bool_decide_eq_true in Hfull. unfold lastn. rewrite length_app, Hc. simpl.
    replace (hist_len h + 1 - (h_size h - 1))%nat with 1%nat by lia.
    rewrite <-Hs. simpl. rewrite <-(fmap_S_seq 0), <-list_fmap_compose, drop_0.
    apply list_fmap_ext. intros i j Hj. unfold slot. simpl. unfold ring_head. rewrite Ef.
    rewrite Nat.Div0.add_mod_idemp_l. do 3 f_equal. lia.
  - apply bool_decide_eq_false in Hfull.
    rewrite lastn_le by (rewrite length_app, Hc; simpl; lia).
    rewrite <-Hs. apply list_fmap_ext. intros i j Hj. unfold slot. simpl.
    unfold ring_head. by rewrite Ef.
Qed.

Lemma Record_push h r s : (Record_ h r s).1 =
  ring_push h r (uint64 (h_index h + 1))
    (if h_flushCount h - 1 <=? 0 then defaultFlushCount else h_flushCount h - 1).
Proof. unfold Record_. by destruct (h_flushCount h - 1 <=? 0). Qed.

(** Recording keeps the invariant, appends to the contents and counts. *)
Lemma Record_spec h r s : history_ok h → h_index h + 1 < 2 ^ 64 →
  let h' := (Record_ h r s).1 in
  history_ok h' ∧ h_size h' = h_size h ∧ h_index h' = h_index h + 1 ∧
  contents h' = lastn (h_size h - 1) (contents h ++ [r]).
Proof.
  intros Hh Hi h'. unfold h'. rewrite Record_push.
  rewrite uint64_small by (destruct Hh; lia).
  pose proof (ring_push_bounds h Hh) as [??]. split_and!; [|done..|by apply ring_push_contents].
  split; cbn [h_size h_records h_head h_tail h_index h_flushCount ring_push]; [apply Hh| |done..| |].
  - rewrite length_insert. apply Hh.
  - rewrite ring_push_len by done. destruct Hh. case_match; lia.
  - pose proof (ho_flush h Hh). unfold defaultFlushCount in *. case_match; lia.
Qed.

Lemma Reset_spec h idx : history_ok h → 0 ≤ idx < 2 ^ 64 →
  let h' := ResetWithIndex h idx in
  history_ok h' ∧ h_size h' = h_size h ∧ h_index h' = idx ∧ contents h' = [].
Proof.
  intros Hh Hi h'. split_and!; [|done..].
  split; simpl; try apply Hh; try (pose proof (ho_size h Hh); lia).
  - unfold hist_len, distanceToTail. simpl. lia.
  - unfold defaultFlushCount. lia.
Qed.

(** ** Reading the buffer *)

Lemma RecordsFrom_loop_spec h fuel k acc :
  history_ok h → (k ≤ hist_len h)%nat → (hist_len h - k < fuel)%nat →
  RecordsFrom_loop fuel h ((h_head h + k) mod h_size h)%nat acc
  = acc ++ (slot h <$> seq k (hist_len h - k)).
Proof.
  intros Hh. pose proof (hist_len_lt h Hh). revert k acc.
  induction fuel as [|fuel IH]; intros k acc Hk Hf; [lia|]. cbn [RecordsFrom_loop].
  destruct (Nat.eqb_spec ((h_head h + k) mod h_size h) (h_tail h)) as [E|E].
  - rewrite (tail_slot h Hh) in E. apply ring_inj in E; [|lia..]. subst k.
    rewrite Nat.sub_diag. simpl. by rewrite app_nil_r.
  - assert (k ≠ hist_len h) by (intros ->; apply E; by rewrite <-tail_slot).
    rewrite ring_step by lia. rewrite IH, <-app_assoc by lia.
    replace (hist_len h - k)%nat with (Datatypes.S (hist_len h - (k + 1))) by lia.
    simpl. by rewrite Nat.add_1_r.
Qed.

(** The records from an index on, and the record at an index, of the contents. *)
Lemma read_spec h i : history_ok h → 0 ≤ i →
  let first := h_index h - Z.of_nat (length (contents h)) in
  let inside := bool_decide (first ≤ i < h_index h) in
  RecordsFrom h i = (if inside then Some (drop (Z.to_nat (i - first)) (contents h)) else None) ∧
  hist_get h i = (if inside then default None (contents h !! Z.to_nat (i - first)) else None).
Proof.
  intros Hh Hi. assert (length (contents h) = hist_len h) as Hc.
  { unfold contents. by rewrite length_fmap, length_seq. }
  rewrite Hc. intros first inside. pose proof (hist_len_lt h Hh). pose proof (ho_index h Hh).
  assert (in_history h i = inside) as Hin.
  { unfold in_history, inside, nextIndex. rewrite firstIndex_val by done. fold first.
    apply eq_true_iff_eq. rewrite bool_decide_eq_true, andb_true_iff, Z.ltb_lt, Z.leb_le. lia. }
  unfold RecordsFrom, hist_get. rewrite Hin. unfold inside. case_bool_decide; [|done].
  assert (history_pos h i = ((h_head h + Z.to_nat (i - first)) mod h_size h)%nat) as ->.
  { unfold history_pos. rewrite firstIndex_val by done. fold first.
    rewrite uint64_small by (unfold first in *; lia). done. }
  set (k := Z.to_nat (i - first)). assert (k < hist_len h)%nat by (unfold k, first in *; lia).
  split.
  - rewrite RecordsFrom_loop_spec by (done || lia). simpl. f_equal.
    unfold contents. rewrite <-fmap_drop. f_equal. by rewrite drop_seq.
  - unfold contents. rewrite list_lookup_fmap, lookup_seq_lt by lia. done.
Qed.
End history_laws.

(** ** Properties *)

Inductive hist_op := HRecord (r : option RegionInfo) | HReset (index : Z).

(** The log: the index it starts at and everything recorded since. *)
Definition spec_step (l : Z * list (option RegionInfo)) (o : hist_op) : Z * list (option RegionInfo) :=
  match o with
  | HRecord r => (l.1, l.2 ++ [r])
  | HReset index => (index, [])
  end.

Definition spec_next (l : Z * list (option RegionInfo)) : Z := l.1 + Z.of_nat (length l.2).

(** No index on the way exceeds a [uint64]. *)
Fixpoint spec_fits (l : Z * list (option RegionInfo)) (ops : list hist_op) : Prop :=
  match ops with
  | [] => True
  | o :: ops' => 0 ≤ spec_next (spec_step l o) < 2 ^ 64 ∧ spec_fits (spec_step l o) ops'
  end.

Section properties.
Context {S : Type} `{!KVBase S}.

Definition hist_step (hs : historyBuffer * S) (o : hist_op) : historyBuffer * S :=
  match o with
  | HRecord r => Record_ hs.1 r hs.2
  | HReset index => (ResetWithIndex hs.1 index, hs.2)
  end.

(** A buffer that holds the last records of a log. *)
Definition hist_sim (h : historyBuffer) (n : nat) (l : Z * list (option RegionInfo)) : Prop :=
  history_ok h ∧ h_size h = Datatypes.S n ∧ h_index h = spec_next l ∧ contents h = lastn n l.2.

Lemma hist_step_sim h s n l o :
  hist_sim h n l → 0 ≤ spec_next (spec_step l o) < 2 ^ 64 →
  hist_sim (hist_step (h, s) o).1 n (spec_step l o).
Proof.
  intros (Hh & Hn & Hi & Hc) Hb. pose proof (ho_size h Hh). destruct o as [r|idx]; simpl.
  - unfold spec_next in *. simpl in Hb. rewrite length_app in Hb. simpl in Hb.
    destruct (Record_spec h r s Hh) as (? & E1 & E2 & E3); [lia|].
    split_and!; [done|congruence|..].
    + rewrite E2, Hi. unfold spec_next. simpl. rewrite length_app. simpl. lia.
    + rewrite E3, Hc, Hn. replace (Datatypes.S n - 1)%nat with n by lia.
      simpl. rewrite lastn_snoc by lia. done.
  - unfold spec_next in Hb. simpl in Hb.
    destruct (Reset_spec h idx Hh) as (? & E1 & E2 & E3); [lia|].
    split_and!; [done|congruence| |].
    + rewrite E2. unfold spec_next. simpl. lia.
    + rewrite E3. done.
Qed.

Lemma hist_run_sim ops h s n l :
  hist_sim h n l → spec_fits l ops →
  hist_sim (foldl hist_step (h, s) ops).1 n (foldl spec_step l ops).
Proof.
  revert h s l. induction ops as [|o ops IH]; intros h s l Hs Hf; [done|].
  destruct Hf as [Hb Hf]. cbn [foldl]. pose proof (hist_step_sim h s n l o Hs Hb).
  destruct (hist_step (h, s) o) as [h' s']. by apply IH.
Qed.

Lemma newHistoryBuffer_sim size s s' h :
  newHistoryBuffer size s = (s', Some h) →
  hist_sim h (Z.to_nat (Z.max 1 size)) (h_index h, []).
Proof.
  unfold newHistoryBuffer, reload. destruct (Load historyKey s) as [s1 r]. intros E.
  assert (∃ idx, is_uint64 idx ∧ h = mkHistory idx (replicate (Z.to_nat (Z.max 1 size + 1)) None) 0 0
    (Z.to_nat (Z.max 1 size + 1)) defaultFlushCount) as (idx & Hidx & ->).
  { replace (if size + 1 <? 2 then 2 else size + 1) with (Z.max 1 size + 1) in E
      by (destruct (Z.ltb_spec (size + 1) 2); lia).
    case_bool_decide; [simplify_eq; eexists; split; [|done]; unfold is_uint64; lia|].
    destruct (ParseUint _ _) eqn:Ep; simplify_eq. apply ParseUint_range in Ep. eauto. }
  unfold hist_sim, spec_next, lastn, is_uint64 in *. simpl. split_and!; [|lia..|done].
  split; simpl; rewrite ?length_replicate; unfold hist_len, distanceToTail, defaultFlushCount; simpl; lia.
Qed.

(** A history buffer created with room for [size] records (at least one)
    holds, after any sequence of records and resets, exactly the last [size]
    records of the log since the last reset; its next index is the index the
    log started at plus the records made, [RecordsFrom] returns the kept
    records from an index on and nothing for an index outside the buffer, and
    [get] the record at an index. *)
Theorem history_refines (size : Z) (s s' : S) (h0 : historyBuffer) (ops : list hist_op) :
  newHistoryBuffer size s = (s', Some h0) →
  spec_fits (h_index h0, []) ops →
  let h := (foldl hist_step (h0, s') ops).1 in
  let l := foldl spec_step (h_index h0, []) ops in
  let kept := lastn (Z.to_nat (Z.max 1 size)) l.2 in
  let first := spec_next l - Z.of_nat (length kept) in
  GetNextIndex h = spec_next l ∧
  ∀ i, 0 ≤ i →
    let inside := bool_decide (first ≤ i < spec_next l) in
    RecordsFrom h i = (if inside then Some (drop (Z.to_nat (i - first)) kept) else None) ∧
    hist_get h i = (if inside then default None (kept !! Z.to_nat (i - first)) else None).
Proof.
  intros Hnew Hfits h l kept first.
  destruct (hist_run_sim ops h0 s' _ _ (newHistoryBuffer_sim _ _ _ _ Hnew) Hfits)
    as (Hh & _ & Hi & Hc). fold h l in Hh, Hi, Hc. split; [done|].
  intros i Hi0. pose proof (read_spec h i Hh Hi0) as Hr. rewrite Hc, Hi in Hr. exact Hr.
Qed.
End properties.

(** ** The saved index *)

Section saved_index.
Context {S : Type} `{!KVBase S, !KVLaws S}.
Hypothesis Save_succeeds : ∀ (s : S) k v, (Save k v s).2 = inr ().
Hypothesis Load_succeeds : ∀ (s : S) k, ∃ v, (Load k s).2 = inr v.

Definition saved (s : S) (index : Z) : Prop :=
  kv_view s !! historyKey = Some (FormatUint index 10).

(** The index saved last trails the buffer by the records since. *)
Definition saved_ok (h : historyBuffer) (s : S) : Prop :=
  history_ok h ∧ kv_ok s ∧
  saved s (h_index h - (defaultFlushCount - h_flushCount h)) ∧
  0 ≤ h_index h - (defaultFlushCount - h_flushCount h).

Lemma persist_saved h s : kv_ok s → kv_ok (persist h s) ∧ saved (persist h s) (h_index h).
Proof.
  intros Hs. unfold persist, saved.
  destruct (Save historyKey (FormatUint (nextIndex h) 10) s) as [s' r] eqn:E.
  pose proof (Save_succeeds s historyKey (FormatUint (nextIndex h) 10)) as Hr.
  rewrite E in Hr. simpl in *. apply Save_law in E as [? [Ev|[_ [e ?]]]]; [|congruence|done].
  split; [done|]. by rewrite Ev, lookup_insert_eq.
Qed.

(** One record: an index due is saved, a saved one stays. *)
Lemma Record_saved h s r : history_ok h → kv_ok s → h_index h + 1 < 2 ^ 64 →
  let hs := Record_ h r s in
  history_ok hs.1 ∧ kv_ok hs.2 ∧ h_index hs.1 = h_index h + 1 ∧
  (h_flushCount h = 1 → saved_ok hs.1 hs.2) ∧
  (saved_ok h s → saved_ok hs.1 hs.2) ∧
  (h_flushCount h ≠ 1 → h_flushCount hs.1 = h_flushCount h - 1).
Proof.
  intros Hh Hs Hi. destruct (Record_spec h r s Hh Hi) as (Hh' & _ & Hi' & _).
  pose proof (ho_flush h Hh) as Hf. pose proof (ho_index h Hh).
  revert Hh' Hi'. unfold Record_.
  destruct (Z.leb_spec (h_flushCount h - 1) 0); simpl; intros Hh' Hi'.
  - match goal with |- context [persist ?hh s] =>
      destruct (persist_saved hh s Hs) as [Hk Hv] end.
    split_and!; [done..| | |lia]; intros _; (split_and!; [done..| |]); simpl in *;
      rewrite Hi' in *; unfold defaultFlushCount; rewrite ?Z.sub_diag, ?Z.sub_0_r; done || lia.
  - split_and!; [done..|lia| |done].
    intros (_ & _ & Hv & Hn). split_and!; [done..| |]; simpl in *; rewrite Hi'.
    + by replace (h_index h + 1 - _) with (h_index h - (defaultFlushCount - h_flushCount h)) by lia.
    + lia.
Qed.

Definition record_all (h : historyBuffer) (s : S) (rs : list (option RegionInfo)) : historyBuffer * S :=
  foldl (λ hs r, Record_ hs.1 r hs.2) (h, s) rs.

Lemma record_all_saved rs h s :
  history_ok h → kv_ok s → h_index h + Z.of_nat (length rs) < 2 ^ 64 →
  saved_ok h s ∨ h_flushCount h ≤ Z.of_nat (length rs) →
  saved_ok (record_all h s rs).1 (record_all h s rs).2.
Proof.
  revert h s. induction rs as [|r rs IH]; intros h s Hh Hs Hi Hor; simpl in Hi.
  { destruct Hor as [?|Hf]; [done|]. pose proof (ho_flush h Hh). simpl in Hf. lia. }
  destruct (Record_saved h s r Hh Hs) as (Hh' & Hs' & Hi' & H1 & H2 & H3); [lia|].
  change (record_all h s (r :: rs)) with (foldl (λ hs r, Record_ hs.1 r hs.2) (Record_ h r s) rs).
  destruct (Record_ h r s) as [h' s']. apply IH; simpl in *; [done..|lia|].
  destruct Hor as [Hsv|Hf]; [auto|].
  destruct (decide (h_flushCount h = 1)); [auto|]. right. rewrite H3 by done. lia.
Qed.

Lemma reload_saved size s idx : kv_ok s → is_uint64 idx → saved s idx →
  ∃ s' h, newHistoryBuffer size s = (s', Some h) ∧ h_index h = idx.
Proof.
  intros Hs Hidx Hsv. unfold newHistoryBuffer, reload.
  destruct (Load historyKey s) as [s' r] eqn:E.
  destruct (Load_succeeds s historyKey) as [v Hv]. rewrite E in Hv. simpl in Hv. subst r.
  apply Load_law in E as (_ & _ & Ev); [|done]. rewrite (Ev v eq_refl), Hsv. simpl.
  rewrite bool_decide_eq_false_2 by apply format_digits_nonempty.
  rewrite ParseUint_FormatUint by (auto || lia). eauto.
Qed.

(** When the store works, a buffer that has made the records up to its next
    flush can be rebuilt from the store with an index fewer than a hundred
    behind the one lost, and never ahead of it. *)
Theorem history_reload (size : Z) (h : historyBuffer) (s : S) (rs : list (option RegionInfo)) :
  history_ok h → kv_ok s → h_index h + Z.of_nat (length rs) < 2 ^ 64 →
  h_flushCount h ≤ Z.of_nat (length rs) →
  let lost := GetNextIndex (record_all h s rs).1 in
  ∃ s' h', newHistoryBuffer size (record_all h s rs).2 = (s', Some h') ∧
    lost - defaultFlushCount < GetNextIndex h' ≤ lost.
Proof.
  intros Hh Hs Hi Hf lost.
  destruct (record_all_saved rs h s Hh Hs Hi (or_intror Hf)) as (Hh' & Hs' & Hsv & Hn).
  pose proof (ho_flush _ Hh'). pose proof (ho_index _ Hh').
  destruct (λ Hu, reload_saved size _ _ Hs' Hu Hsv) as (s' & h' & E & Ei);
    [unfold is_uint64; lia|].
  exists s', h'. split; [done|]. unfold lost, GetNextIndex. rewrite Ei. lia.
Qed.
End saved_index.

Module HistoryDemo.
Import SortedList.
Definition demo_kv : memoryKV (list memoryKVItem) := NewMemoryKV.
Definition demo_region (id : Z) : option RegionInfo :=
  Some (NewRegionInfo (mkRegion id [] [] (Some (mkRegionEpoch 1 1)) []) None []).
Definition demo_history : historyBuffer :=
  default (mkHistory 0 [] 0 0 0 0) (newHistoryBuffer 2 demo_kv).2.
Definition demo_ops : list hist_op :=
  [HRecord (demo_region 1); HReset 40; HRecord (demo_region 2); HRecord (demo_region 3);
   HRecord (demo_region 4)].

Lemma history_refines_witness :
  let h := (foldl hist_step (demo_history, demo_kv) demo_ops).1 in
  GetNextIndex h = 43 ∧ RecordsFrom h 42 = Some [demo_region 4] ∧ RecordsFrom h 40 = None.
Proof.
  destruct (history_refines 2 demo_kv demo_kv demo_history demo_ops) as [H1 H2];
    [vm_compute; reflexivity|vm_compute; intuition congruence|].
  split; [exact H1|]. split; [apply (H2 42)|apply (H2 40)]; lia.
Defined.

Lemma history_reload_witness :
  ∃ s' h', newHistoryBuffer 2 (record_all demo_history demo_kv (replicate 130 None)).2 = (s', Some h') ∧
    130 - defaultFlushCount < GetNextIndex h' ≤ 130.
Proof.
  destruct (history_reload (S:=memoryKV (list memoryKVItem))
    (λ s k v, proj1 (proj2 (proj2 (mem_no_error s k [] v 1)))) (λ s k, proj1 (mem_no_error s k [] [] 1))
    2 demo_history demo_kv (replicate 130 None)) as (s' & h' & H1 & H2).
  - split; vm_compute; intuition (congruence || lia).
  - apply bt_New_ok.
  - vm_compute. reflexivity.
  - vm_compute. discriminate.
  - exists s', h'. split; [exact H1|exact H2].
Defined.
End HistoryDemo.
