(* ===== verification/Storage.v ===== *)
(** * Storage of the cluster's meta data (server/core/storage.go, region_storage.go)

    The keys under which stores, regions and the GC safe point are saved, the
    region storage that batches region writes into LevelDB, the storage that
    switches between the two, and the paginated load of all regions.  The
    protobuf encodings of the messages are parameters. *)

From S2P Require Import Prelude GoBytes BTree Strconv KV Metapb Region RegionTree RegionMap RegionsInfo.

Definition clusterPath : bytes := str "raft".
Definition configPath : bytes := str "config".
Definition schedulePath : bytes := str "schedule".
Definition gcPath : bytes := str "gc".
Definition maxKVRangeLimit : Z := 10000.
Definition minKVRangeLimit : Z := 100.

Definition storePath (storeID : Z) : bytes := Join [clusterPath; str "s"; Sprintf_020d storeID].
Definition regionPath (regionID : Z) : bytes := Join [clusterPath; str "r"; Sprintf_020d regionID].
Definition ClusterStatePath (option : bytes) : bytes := Join [clusterPath; str "status"; option].
Definition storeLeaderWeightPath (storeID : Z) : bytes :=
  Join [schedulePath; str "store_weight"; Sprintf_020d storeID; str "leader"].
Definition storeRegionWeightPath (storeID : Z) : bytes :=
  Join [schedulePath; str "store_weight"; Sprintf_020d storeID; str "region"].

(** The generated protobuf code of a message type. *)
Class Proto (A : Type) := {
  Marshal : A → result bytes;
  Unmarshal : bytes → result A;
}.

(** Unmarshalling what was marshalled gives the message back. *)
Class ProtoLaws (A : Type) `{!Proto A} : Prop := {
  Unmarshal_Marshal x b : Marshal x = inr b → Unmarshal b = inr x;
}.

Section proto.
Context {S : Type} `{!KVBase S} {A : Type} `{!Proto A}.

(** [None]: the key holds nothing and the message is left as it was. *)
Definition loadProto (key : bytes) : M S (option A) :=
  value ← Load key;
  if bool_decide (value = []) then mret None
  else
    msg ← lift_result (Unmarshal value);
    mret (Some msg).

Definition saveProto (key : bytes) (msg : A) : M S unit :=
  value ← lift_result (Marshal msg);
  Save key value.
End proto.

(** ** RegionStorage *)

Record RegionStorage (D : Type) := mkRegionStorage {
  LeveldbKV : D;
  batchRegions : gmap bytes Region;
  batchSize : Z;
  cacheSize : Z;
  flushRate : Z;
  flushTime : Z;
}.
Arguments mkRegionStorage {D}.
Arguments LeveldbKV {D}.
Arguments batchRegions {D}.
Arguments batchSize {D}.
Arguments cacheSize {D}.
Arguments flushRate {D}.
Arguments flushTime {D}.

Definition second : Z := 1000000000.
Definition defaultFlushRegionRate : Z := 3 * second.
Definition defaultBatchSize : Z := 100.

Section region_storage.
Context {D : Type} `{!LevelDB D} `{!Proto Region}.
Abbreviation RegionStorage := (RegionStorage D).

Definition with_leveldb {A} (m : M D A) : M RegionStorage A := λ s,
  let '(d, r) := m (LeveldbKV s) in
  (mkRegionStorage d (batchRegions s) (batchSize s) (cacheSize s) (flushRate s) (flushTime s), r).

(** The methods promoted from the embedded [LeveldbKV]. *)
#[export] Instance RegionStorage_Base : KVBase RegionStorage := {
  Load key := with_leveldb (level_Load key);
  LoadRange key endKey limit := with_leveldb (level_LoadRange key endKey limit);
  Save key value := with_leveldb (level_Save key value);
  Remove key := with_leveldb (level_Remove key);
}.

(** [NewRegionStorage] with an opened database. *)
Definition NewRegionStorage (levelDB : D) (now : Z) : RegionStorage :=
  mkRegionStorage levelDB ∅ defaultBatchSize 0 defaultFlushRegionRate (now + defaultFlushRegionRate).

(** The loop over the map stops at the first region that does not marshal. *)
Fixpoint marshal_batch (regions : list (bytes * Region)) (batch : list (bytes * bytes))
    : result (list (bytes * bytes)) :=
  match regions with
  | [] => inr batch
  | (key, r) :: regions' =>
      match Marshal r with
      | inl e => inl e
      | inr value => marshal_batch regions' (batch ++ [(key, value)])
      end
  end.

Definition SaveRegions (regions : gmap bytes Region) : M D unit :=
  batch ← lift_result (marshal_batch (map_to_list regions) []);
  db_Write batch.

Definition flush : M RegionStorage unit := λ s,
  match with_leveldb (SaveRegions (batchRegions s)) s with
  | (s, inl e) => (s, inl e)
  | (s, inr _) =>
      (mkRegionStorage (LeveldbKV s) ∅ (batchSize s) 0 (flushRate s) (flushTime s), inr ())
  end.

Definition FlushRegion : M RegionStorage unit := flush.

Definition RegionStorage_SaveRegion (now : Z) (region : Region) : M RegionStorage unit := λ s,
  let batch := <[regionPath (Region_Id region) := region]> (batchRegions s) in
  if cacheSize s <? batchSize s - 1 then
    (mkRegionStorage (LeveldbKV s) batch (batchSize s) (cacheSize s + 1) (flushRate s)
       (now + flushRate s), inr ())
  else
    flush (mkRegionStorage (LeveldbKV s) batch (batchSize s) (cacheSize s) (flushRate s) (flushTime s)).

(** One tick of [backgroundFlush]; an error is only logged. *)
Definition backgroundFlush_tick (now : Z) (s : RegionStorage) : RegionStorage :=
  if flushTime s <? now then (FlushRegion s).1 else s.

(** An error of the flush is only logged.  [close] is the database's own; no tick
    follows, as the context is cancelled. *)
Definition RegionStorage_Close (close : M D unit) : M RegionStorage unit := λ s,
  let '(s, _) := FlushRegion s in with_leveldb close s.
End region_storage.

Definition deleteRegion {S} `{!KVBase S} (region : Region) : M S unit :=
  Remove (regionPath (Region_Id region)).

(** ** loadRegions

    The state is the store and the cache the regions are loaded into. *)

Section load_regions.
Context {S T : Type} `{!KVBase S} `{!BTreeOps Region T} `{!Proto Region}.

Definition on_kv {A} (m : M S A) : M (S * RegionsInfo T) A := λ '(s, ri),
  let '(s, r) := m s in ((s, ri), r).

Definition set_region (region : RegionInfo) : M (S * RegionsInfo T) (list Region) := λ '(s, ri),
  match SetRegion ri region with
  | None => ((s, ri), inl (Panic "SetRegion"))
  | Some (ri, overlaps) => ((s, ri), inr overlaps)
  end.

Fixpoint delete_regions (overlaps : list Region) : M (S * RegionsInfo T) unit :=
  match overlaps with
  | [] => mret ()
  | item :: overlaps' => on_kv (deleteRegion item) ;; delete_regions overlaps'
  end.

(** The loop over one page; the result is the next id. *)
Fixpoint load_page (res : list bytes) (nextID : Z) : M (S * RegionsInfo T) Z :=
  match res with
  | [] => mret nextID
  | s :: res' =>
      region ← lift_result (Unmarshal s);
      overlaps ← set_region (NewRegionInfo region None []);
      delete_regions overlaps ;;
      load_page res' (uint64 (Region_Id region + 1))
  end.

(** The loop over pages; [fuel] bounds the pages and failed attempts. *)
Fixpoint loadRegions_loop (fuel : nat) (nextID rangeLimit : Z) : M (S * RegionsInfo T) unit :=
  match fuel with
  | O => mfail (Error "out of fuel")
  | Datatypes.S fuel' =>
      let startKey := regionPath nextID in
      let endKey := regionPath maxUint64 in
      page ← mcatch (on_kv (LoadRange startKey endKey rangeLimit));
      match page with
      | inl err =>
          let rangeLimit := rangeLimit / 2 in
          if minKVRangeLimit <=? rangeLimit then loadRegions_loop fuel' nextID rangeLimit
          else mfail err
      | inr (_, res) =>
          nextID ← load_page res nextID;
          if Z.of_nat (length res) <? rangeLimit then mret ()
          else loadRegions_loop fuel' nextID rangeLimit
      end
  end.

Definition loadRegions (fuel : nat) : M (S * RegionsInfo T) unit :=
  loadRegions_loop fuel 0 maxKVRangeLimit.
End load_regions.

(** ** Storage *)

Record Storage (S D : Type) := mkStorage {
  st_Base : S;
  st_regionStorage : option (RegionStorage D);
  st_useRegionStorage : Z;
}.
Arguments mkStorage {S D}.
Arguments st_Base {S D}.
Arguments st_regionStorage {S D}.
Arguments st_useRegionStorage {S D}.

(** The message types stored as protobuf other than regions. *)
Section storage.
Context {S D T : Type} `{!KVBase S} `{!LevelDB D} `{!BTreeOps Region T} `{!Proto Region}.
Context {Store Cluster : Type} `{!Proto Store} `{!Proto Cluster}.
Variable Store_GetId : Store → Z.
Abbreviation Storage := (Storage S D).

Definition NewStorage (base : S) : Storage := mkStorage base None 0.
Definition SetRegionStorage (s : Storage) (rs : RegionStorage D) : Storage :=
  mkStorage (st_Base s) (Some rs) (st_useRegionStorage s).
Definition GetRegionStorage (s : Storage) : option (RegionStorage D) := st_regionStorage s.
Definition SwitchToRegionStorage (s : Storage) : Storage :=
  mkStorage (st_Base s) (st_regionStorage s) 1.
Definition SwitchToDefaultStorage (s : Storage) : Storage :=
  mkStorage (st_Base s) (st_regionStorage s) 0.

Definition with_base {A} (m : M S A) : M Storage A := λ s,
  let '(b, r) := m (st_Base s) in (mkStorage b (st_regionStorage s) (st_useRegionStorage s), r).

(** A call on the region storage, which must not be nil. *)
Definition with_regionStorage {A} (m : M (RegionStorage D) A) : M Storage A := λ s,
  match st_regionStorage s with
  | None => (s, inl (Panic "nil regionStorage"))
  | Some rs => let '(rs, r) := m rs in (mkStorage (st_Base s) (Some rs) (st_useRegionStorage s), r)
  end.

Definition Storage_Close (close : M D unit) : M Storage unit := λ s,
  match st_regionStorage s with
  | None => (s, inr ())
  | Some _ => with_regionStorage (RegionStorage_Close close) s
  end.

Definition useRegionStorage (s : Storage) : bool := 0 <? st_useRegionStorage s.

Definition LoadMeta : M Storage (option Cluster) := with_base (loadProto clusterPath).
Definition SaveMeta (meta : Cluster) : M Storage unit := with_base (saveProto clusterPath meta).
Definition LoadStore (storeID : Z) : M Storage (option Store) := with_base (loadProto (storePath storeID)).
Definition SaveStore (store : Store) : M Storage unit :=
  with_base (saveProto (storePath (Store_GetId store)) store).
Definition DeleteStore (store : Store) : M Storage unit :=
  with_base (Remove (storePath (Store_GetId store))).

Definition LoadRegion (regionID : Z) : M Storage (option Region) := λ s,
  if useRegionStorage s then with_regionStorage (loadProto (regionPath regionID)) s
  else with_base (loadProto (regionPath regionID)) s.

(** The cache is threaded with the storage. *)
Definition LoadRegions (fuel : nat) : M (Storage * RegionsInfo T) unit := λ '(s, ri),
  if useRegionStorage s then
    match st_regionStorage s with
    | None => ((s, ri), inl (Panic "nil regionStorage"))
    | Some rs =>
        let '((rs, ri), r) := loadRegions fuel (rs, ri) in
        ((mkStorage (st_Base s) (Some rs) (st_useRegionStorage s), ri), r)
    end
  else
    let '((b, ri), r) := loadRegions fuel (st_Base s, ri) in
    ((mkStorage b (st_regionStorage s) (st_useRegionStorage s), ri), r).

Definition SaveRegion (now : Z) (region : Region) : M Storage unit := λ s,
  if useRegionStorage s then with_regionStorage (RegionStorage_SaveRegion now region) s
  else with_base (saveProto (regionPath (Region_Id region)) region) s.

Definition DeleteRegion (region : Region) : M Storage unit := λ s,
  if useRegionStorage s then with_regionStorage (deleteRegion region) s
  else with_base (deleteRegion region) s.

Definition Flush : M Storage unit := λ s,
  match st_regionStorage s with
  | Some _ => with_regionStorage FlushRegion s
  | None => (s, inr ())
  end.

Definition gc_safe_point_path : bytes := Join [gcPath; str "safe_point"].

Definition SaveGCSafePoint (safePoint : Z) : M Storage unit :=
  with_base (Save gc_safe_point_path (FormatUint safePoint 16)).

Definition LoadGCSafePoint : M Storage Z :=
  value ← with_base (Load gc_safe_point_path);
  if bool_decide (value = []) then mret 0
  else
    match ParseUint value 16 with
    | inl _ => mfail (Error "strconv.ParseUint")
    | inr safePoint => mret safePoint
    end.
End storage.
