(* ===== verification/StorageProps.v ===== *)
(** * Properties of the storage

    The order and independence of the storage keys, the paginated load of all
    regions, the batching region storage and the GC safe point. *)

From S2P Require Import Prelude GoBytes BTree Strconv KV Metapb Region RegionTree RegionMap RegionsInfo RegionsInfoProps Storage.

(** ** Keys *)

Lemma Sprintf_simple id : is_uint64 id → simple_elem (Sprintf_020d id).
Proof.
  intros (? & Hl & _)%Sprintf_020d_spec. apply digits_simple; [done|].
  intros E. by rewrite E in Hl.
Qed.

Lemma const_simple (e : bytes) :
  bool_decide (e ≠ [] ∧ (slash ∉ e) ∧ e ≠ dot ∧ e ≠ dotdot) = true → simple_elem e.
Proof. by rewrite bool_decide_eq_true. Qed.

(** Every element of a path is plain. *)
Ltac simple_path :=
  repeat (apply Forall_cons_2; [first [by apply const_simple | by apply Sprintf_simple]|]);
  apply Forall_nil_2.

Lemma regionPath_eq id : is_uint64 id →
  regionPath id = str "raft/r/" ++ Sprintf_020d id.
Proof.
  intros H. unfold regionPath. rewrite Join_simple; [done|done|].
  simple_path.
Qed.

Lemma storePath_eq id : is_uint64 id →
  storePath id = str "raft/s/" ++ Sprintf_020d id.
Proof.
  intros H. unfold storePath. rewrite Join_simple; [done|done|].
  simple_path.
Qed.

Lemma Compare_app_same (p a b : bytes) : Compare (p ++ a) (p ++ b) = Compare a b.
Proof. induction p as [|x p IH]; [done|]. simpl. by byte_cases; try lia. Qed.

(** Region keys are ordered as region ids. *)
Lemma regionPath_lt a b : is_uint64 a → is_uint64 b →
  (regionPath a < regionPath b)%key ↔ a < b.
Proof.
  intros. unfold key_lt. rewrite !regionPath_eq, Compare_app_same, Compare_Sprintf_020d by done. lia.
Qed.

Lemma regionPath_le a b : is_uint64 a → is_uint64 b →
  (regionPath a ≤ regionPath b)%key ↔ a ≤ b.
Proof.
  intros. unfold key_le. rewrite !regionPath_eq, Compare_app_same, Compare_Sprintf_020d by done. lia.
Qed.

Lemma regionPath_inj a b : is_uint64 a → is_uint64 b → regionPath a = regionPath b → a = b.
Proof.
  intros Ha Hb E.
  apply Z.le_antisymm; [apply (regionPath_le a b)|apply (regionPath_le b a)]; try done;
    rewrite E; key_order.
Qed.

#[local] Opaque regionPath.

(** ** The region load *)

Section load_regions.
Context {S T : Type} `{!KVBase S, !KVLaws S} `{!BTreeOps Region T, !BTreeLaws Region T}.
Context `{!Proto Region}.
Implicit Types (s : S) (ri : RegionsInfo T) (m : gmap Z RegionInfo) (V : gmap bytes bytes).

Definition decode (b : bytes) : option Region :=
  match Unmarshal b with inl _ => None | inr r => Some r end.

(** The region stored under an id. *)
Definition stored V (id : Z) : option Region := b ← V !! regionPath id; decode b.

(** Every key of the region range holds a region under its own id, with a
    non-empty key range. *)
Definition region_keys_ok V : Prop := ∀ k b,
  V !! k = Some b → (regionPath 0 ≤ k)%key → (k < regionPath maxUint64)%key →
  ∃ r, Unmarshal b = inr r ∧ k = regionPath (Region_Id r) ∧
    0 ≤ Region_Id r < maxUint64 ∧ valid_range r.

Definition load_info (r : Region) : RegionInfo := NewRegionInfo r None [].

(** The state of the load before the region [nextID]: below it the store and
    the cache hold the same regions, from it on the store is untouched. *)
Record loaded V0 s ri m (nextID : Z) : Prop := {
  ld_kv : kv_ok s;
  ld_next : 0 ≤ nextID ≤ maxUint64;
  ld_cache : represents ri m;
  ld_dom id x : m !! id = Some x → 0 ≤ id < nextID;
  ld_agree id : 0 ≤ id < nextID → stored (kv_view s) id = meta <$> m !! id;
  ld_sub : kv_view s ⊆ V0;
  ld_rest k : ¬ (regionPath 0 ≤ k ∧ k < regionPath nextID)%key → kv_view s !! k = V0 !! k;
  ld_lost id r : 0 ≤ id < nextID → stored V0 id = Some r → m !! id = None →
    ∃ id' r', id < id' < nextID ∧ stored V0 id' = Some r' ∧ overlap r' r;
}.

Lemma load_info_meta r : meta (load_info r) = r ∧ pendingPeers (load_info r) = [].
Proof.
  unfold load_info, NewRegionInfo, classifyVoterAndLearner. by destruct (foldl _ _ _).
Qed.

Lemma load_info_wf r : valid_range r → region_wf (load_info r).
Proof.
  intros H. destruct (load_info_meta r) as [Em Ep].
  split; [apply NewRegionInfo_classified|by rewrite Em|].
  intros p Hp. rewrite Ep in Hp. by apply elem_of_nil in Hp.
Qed.

(** The keys [delete_regions] removes. *)
Definition without_regions (l : list Region) V : gmap bytes bytes :=
  foldl (λ V y, delete (regionPath (Region_Id y)) V) V l.

Lemma without_regions_None l V k :
  (∃ y, y ∈ l ∧ k = regionPath (Region_Id y)) → without_regions l V !! k = None.
Proof.
  unfold without_regions. induction l as [|y l IH] using rev_ind; intros (z & Hz & ->); [set_solver|].
  rewrite foldl_snoc. destruct (decide (regionPath (Region_Id y) = regionPath (Region_Id z))) as [->|Hne].
  { apply lookup_delete_eq. }
  rewrite lookup_delete_ne by done. apply IH. exists z. split; [|done].
  apply elem_of_app in Hz as [?| ->%list_elem_of_singleton]; done.
Qed.

Lemma without_regions_ne l V k :
  (∀ y, y ∈ l → k ≠ regionPath (Region_Id y)) → without_regions l V !! k = V !! k.
Proof.
  unfold without_regions. revert V. induction l as [|y l IH]; intros V H; [done|]. simpl.
  rewrite IH by set_solver. apply lookup_delete_ne. specialize (H y). set_solver.
Qed.

Lemma without_regions_sub l V : without_regions l V ⊆ V.
Proof.
  unfold without_regions. revert V. induction l as [|y l IH]; intros V; [done|]. simpl.
  etrans; [apply IH|]. apply delete_subseteq.
Qed.

(** An error of the store. *)
Definition kv_failed (e : go_error) : Prop :=
  (∃ s k s', Remove k s = (s', inl e)) ∨ (∃ s k k' l s', LoadRange k k' l s = (s', inl e)).

Lemma delete_regions_spec l s ri st res :
  kv_ok s → delete_regions l (s, ri) = (st, res) →
  (∃ s', st = (s', ri) ∧ kv_ok s' ∧ res = inr () ∧ kv_view s' = without_regions l (kv_view s))
  ∨ (∃ e, res = inl e ∧ kv_failed e).
Proof.
  revert s. induction l as [|y l IH]; intros s Hs E.
  { injection E as <- <-. left. by exists s. }
  cbn [delete_regions] in E. rewrite M_bind_eq in E. unfold on_kv, deleteRegion in E.
  destruct (Remove (regionPath (Region_Id y)) s) as [s' [e|[]]] eqn:Er.
  - injection E as <- <-. right. exists e. split; [done|]. left. eauto.
  - apply Remove_law in Er as [Hs' [Hv|[_ [? ?]]]]; [|done..].
    apply IH in E as [(s1 & -> & ? & -> & Hv')|?]; [|by right|done].
    left. exists s1. split_and!; [done..|]. by rewrite Hv', Hv.
Qed.

(** The pairs of a page: stored, in order, and with no stored key skipped. *)
Record page_of (hi : bytes) V (lo : bytes) (l : list (bytes * bytes)) : Prop := {
  pg_sorted : StronglySorted (λ p q, (p.1 < q.1)%key) l;
  pg_in p : p ∈ l → V !! p.1 = Some p.2 ∧ (lo ≤ p.1)%key ∧ (p.1 < hi)%key;
  pg_all p k b : p ∈ l → V !! k = Some b → (lo ≤ k)%key → (k ≤ p.1)%key → (k, b) ∈ l;
}.

Lemma range_page hi V lo l n : range_items V lo hi l → page_of hi V lo (take n l).
Proof.
  intros [Hs Hl]. rewrite <-(take_drop n l) in Hs, Hl. split.
  - by apply StronglySorted_app_1_l in Hs.
  - intros [k b] Hp. apply Hl, elem_of_app. by left.
  - intros p k b Hp Hk Hlo Hle. assert ((k, b) ∈ take n l ++ drop n l) as Hin.
    { apply Hl. split_and!; [done..|]. destruct p as [kp bp]. simpl in Hle.
      assert ((kp, bp) ∈ take n l ++ drop n l) as (_ & _ & ?)%Hl
        by (apply elem_of_app; by left). key_order. }
    apply elem_of_app in Hin as [?|Hd]; [done|].
    pose proof (StronglySorted_app_1_elem_of _ _ _ _ _ Hs Hp Hd) as Hlt. simpl in Hlt.
    exfalso. key_order.
Qed.

(** The page without its first pair. *)
Lemma page_tail hi V V' lo lo' p l :
  page_of hi V lo (p :: l) → (lo ≤ lo')%key → (p.1 < lo')%key →
  (∀ q, q ∈ l → (lo' ≤ q.1)%key) →
  (∀ k, (lo' ≤ k)%key → V' !! k = V !! k) → page_of hi V' lo' l.
Proof.
  intros [Hs Hin Hall] Hlo Hp Hq HV. split.
  - by inversion Hs.
  - intros q Hq'. rewrite HV by auto. destruct (Hin q) as (? & ? & ?); [by right|]. auto.
  - intros q k b Hq' Hk Hlok Hle. rewrite HV in Hk by done.
    assert ((k, b) ∈ p :: l) as Hkb by (eapply (Hall q); [by right|done|key_order|done]).
    apply elem_of_cons in Hkb as [<-|?]; [|done]. simpl in Hp. exfalso. key_order.
Qed.

Lemma in_range_uint64 id n : 0 ≤ id < n → n ≤ maxUint64 → is_uint64 id.
Proof. unfold is_uint64, maxUint64. lia. Qed.

(** No stored key lies before the first key of a page. *)
Lemma page_first hi V lo k b l k' : page_of hi V lo ((k, b) :: l) →
  (lo ≤ k')%key → (k' < k)%key → V !! k' = None.
Proof.
  intros [Hs Hin Hall] Hlo Hlt. destruct (V !! k') as [b'|] eqn:E; [|done].
  assert ((k', b') ∈ (k, b) :: l) as Hk.
  { eapply Hall; [by left|done|done|]. simpl. key_order. }
  apply elem_of_cons in Hk as [[= -> ->]|Hk]; [key_order|].
  inversion Hs as [|?? _ Hf]; subst. rewrite list.Forall_forall in Hf. apply Hf in Hk.
  simpl in Hk. exfalso. key_order.
Qed.

(** The effect of one loaded region on store and cache. *)
Section load_one.
Variables (V0 : gmap bytes bytes) (s s' : S) (ri ri' : RegionsInfo T) (m : gmap Z RegionInfo).
Variables (nextID : Z) (r : Region) (b : bytes) (l : list (bytes * bytes)) (ov : list Region).
Let id := Region_Id r.
Hypothesis Hld : loaded V0 s ri m nextID.
Hypothesis Hpage : page_of (regionPath maxUint64) (kv_view s) (regionPath nextID) ((regionPath id, b) :: l).
Hypothesis Hb : Unmarshal b = inr r.
Hypothesis Hid : 0 ≤ id < maxUint64.
Hypothesis Hov : ∀ y, y ∈ ov ↔
  ∃ id' z, m !! id' = Some z ∧ id' ≠ GetID (load_info r) ∧ overlap (meta (load_info r)) (meta z) ∧ meta z = y.
Hypothesis Hs' : kv_ok s'.
Hypothesis Hv' : kv_view s' = without_regions ov (kv_view s).
Hypothesis Hri' : represents ri' (spec_SetRegion (load_info r) m).

Lemma load_one_id : nextID ≤ id ∧ GetID (load_info r) = id.
Proof.
  split.
  - destruct (pg_in _ _ _ _ Hpage (regionPath id, b)) as (_ & Hle & _); [by left|].
    pose proof (ld_next _ _ _ _ _ Hld). simpl in Hle.
    rewrite regionPath_le in Hle by (unfold is_uint64, maxUint64 in *; lia). lia.
  - unfold GetID. by rewrite (proj1 (load_info_meta r)).
Qed.

Lemma load_one_ov y : y ∈ ov ↔ ∃ z, m !! Region_Id y = Some z ∧ overlap r y ∧ meta z = y.
Proof.
  destruct load_one_id as [Hn Hg]. rewrite Hov, Hg, (proj1 (load_info_meta r)).
  pose proof (ld_cache _ _ _ _ _ Hld) as [Hc _]. split.
  - intros (id' & z & Hz & _ & Ho & <-). exists z.
    pose proof (cache_id _ _ _ _ Hc Hz) as E. unfold GetID in E. by rewrite E.
  - intros (z & Hz & Ho & <-). exists (Region_Id (meta z)), z. split_and!; [done| |done..].
    pose proof (ld_dom _ _ _ _ _ Hld _ _ Hz). unfold id in Hn. lia.
Qed.

Lemma load_one_same id' : is_uint64 id' →
  (∀ z, m !! id' = Some z → ¬ overlap r (meta z)) →
  kv_view s' !! regionPath id' = kv_view s !! regionPath id'.
Proof.
  intros Hu Hno. rewrite Hv'. apply without_regions_ne. intros y (z & Hz & Ho & Hy)%load_one_ov E.
  pose proof (ld_next _ _ _ _ _ Hld). pose proof (ld_dom _ _ _ _ _ Hld _ _ Hz).
  apply regionPath_inj in E; [|done|unfold is_uint64, maxUint64 in *; lia].
  subst id'. apply (Hno z Hz). by rewrite Hy.
Qed.

Lemma load_one_rest k : ¬ (regionPath 0 ≤ k ∧ k < regionPath nextID)%key →
  kv_view s' !! k = kv_view s !! k.
Proof.
  intros Hk. rewrite Hv'. apply without_regions_ne. intros y (z & Hz & _ & _)%load_one_ov ->.
  pose proof (ld_next _ _ _ _ _ Hld). pose proof (ld_dom _ _ _ _ _ Hld _ _ Hz).
  apply Hk. rewrite regionPath_le, regionPath_lt by (unfold is_uint64, maxUint64 in *; lia). lia.
Qed.

(** Nothing is stored between the ids already loaded and this one. *)
Lemma load_one_gap id' : nextID ≤ id' < id → kv_view s !! regionPath id' = None ∧ m !! id' = None.
Proof.
  intros H. pose proof (ld_next _ _ _ _ _ Hld). split.
  - eapply page_first; [exact Hpage|..]; [rewrite regionPath_le|rewrite regionPath_lt];
      unfold is_uint64, maxUint64 in *; lia.
  - destruct (m !! id') eqn:E; [|done]. pose proof (ld_dom _ _ _ _ _ Hld _ _ E). lia.
Qed.

Lemma load_one_agree id' : 0 ≤ id' < id + 1 →
  stored (kv_view s') id' = meta <$> spec_SetRegion (load_info r) m !! id'.
Proof.
  intros Hi. destruct load_one_id as [Hn Hg]. pose proof (ld_next _ _ _ _ _ Hld).
  assert (is_uint64 id') by (unfold is_uint64, maxUint64 in *; lia).
  unfold stored, spec_SetRegion, without_overlaps. rewrite Hg.
  destruct (decide (id' = id)) as [->|Hne].
  { rewrite lookup_insert_eq, load_one_same; [|done|].
    - destruct (pg_in _ _ _ _ Hpage (regionPath id, b)) as (E & _); [by left|].
      simpl in E. rewrite E. unfold decode. simpl. rewrite Hb. by rewrite (proj1 (load_info_meta r)).
    - intros z Hz. pose proof (ld_dom _ _ _ _ _ Hld _ _ Hz). lia. }
  rewrite lookup_insert_ne by done. destruct (decide (nextID ≤ id')) as [Hge|Hlt].
  { destruct (load_one_gap id') as [E1 E2]; [lia|]. rewrite map_lookup_filter, E2.
    rewrite load_one_same by (done || by rewrite E2). by rewrite E1. }
  pose proof (ld_agree _ _ _ _ _ Hld id' ltac:(lia)) as Ha. unfold stored in Ha.
  rewrite map_lookup_filter. destruct (m !! id') as [z|] eqn:Ez; simpl.
  - rewrite (proj1 (load_info_meta r)). case_guard as Ho; simpl.
    + rewrite load_one_same; [by rewrite Ha|done|]. intros z'. by rewrite Ez; intros [= <-].
    + rewrite Hv', without_regions_None; [done|].
      exists (meta z). pose proof (ld_cache _ _ _ _ _ Hld) as [Hc _].
      pose proof (cache_id _ _ _ _ Hc Ez) as E. unfold GetID in E. rewrite load_one_ov, E. eauto.
  - rewrite load_one_same by (done || by rewrite Ez). by rewrite Ha.
Qed.

Lemma load_one_lost id' r' : 0 ≤ id' < id + 1 → stored V0 id' = Some r' →
  spec_SetRegion (load_info r) m !! id' = None →
  ∃ id'' r'', id' < id'' < id + 1 ∧ stored V0 id'' = Some r'' ∧ overlap r'' r'.
Proof.
  intros Hi Hst. destruct load_one_id as [Hn Hg]. pose proof (ld_next _ _ _ _ _ Hld).
  unfold spec_SetRegion, without_overlaps. rewrite Hg, lookup_insert_None, map_lookup_filter.
  intros [Hm Hne].
  assert (Hrest : ∀ i, nextID ≤ i → is_uint64 i → stored V0 i = stored (kv_view s) i).
  { intros i Hge Hu. unfold stored. rewrite (ld_rest _ _ _ _ _ Hld); [done|].
    rewrite regionPath_lt by (done || unfold is_uint64, maxUint64 in *; lia). lia. }
  destruct (decide (nextID ≤ id')) as [Hge|Hlt].
  { destruct (load_one_gap id') as [E _]; [lia|]. rewrite Hrest in Hst;
      [|done|unfold is_uint64, maxUint64 in *; lia]. unfold stored in Hst. by rewrite E in Hst. }
  destruct (m !! id') as [z|] eqn:Ez; simpl in Hm.
  - rewrite (proj1 (load_info_meta r)) in Hm. case_guard as Ho; [done|].
    pose proof (ld_agree _ _ _ _ _ Hld id' ltac:(lia)) as Ha. rewrite Ez in Ha. unfold stored in Ha, Hst.
    destruct (kv_view s !! regionPath id') as [b'|] eqn:Eb; [|done].
    rewrite (lookup_weaken _ _ _ _ Eb (ld_sub _ _ _ _ _ Hld)) in Hst. simpl in Ha, Hst.
    exists id, r. split_and!; [lia..| |by simplify_eq].
    rewrite Hrest by (lia || unfold is_uint64, maxUint64 in *; lia). unfold stored.
    destruct (pg_in _ _ _ _ Hpage (regionPath id, b)) as (E & _); [by left|]. simpl in E.
    rewrite E. unfold decode. simpl. by rewrite Hb.
  - destruct (ld_lost _ _ _ _ _ Hld id' r' ltac:(lia) Hst Ez) as (i'' & r'' & ? & ? & ?).
    exists i'', r''. split_and!; [lia..|done|done].
Qed.

Lemma load_one_loaded : loaded V0 s' ri' (spec_SetRegion (load_info r) m) (id + 1).
Proof.
  destruct load_one_id as [Hn Hg]. split.
  - done.
  - lia.
  - done.
  - intros id' x. unfold spec_SetRegion, without_overlaps.
    rewrite Hg, lookup_insert_Some, map_lookup_filter_Some. intros [[<- _]|(_ & Hx & _)]; [lia|].
    pose proof (ld_dom _ _ _ _ _ Hld _ _ Hx). lia.
  - exact load_one_agree.
  - rewrite Hv'. etrans; [apply without_regions_sub|]. apply Hld.
  - pose proof (ld_next _ _ _ _ _ Hld).
    intros k Hk. assert (¬ (regionPath 0 ≤ k ∧ k < regionPath nextID)%key) as Hk'.
    { intros [H1 H2]. apply Hk. split; [done|].
      assert (regionPath nextID < regionPath (id + 1))%key; [|key_order].
      rewrite regionPath_lt; unfold is_uint64, maxUint64 in *; lia. }
    rewrite load_one_rest by done. by apply Hld.
  - exact load_one_lost.
Qed.
End load_one.

Variable V0 : gmap bytes bytes.
Hypothesis HV0 : region_keys_ok V0.

(** What the load of a page or of everything ends in: a state, or an error of
    the store. *)
Definition ends_in {A} (P : S → RegionsInfo T → A → Prop) (o : S * RegionsInfo T * result A) : Prop :=
  (∃ s ri a, o = ((s, ri), inr a) ∧ P s ri a) ∨ (∃ st e, o = (st, inl e) ∧ kv_failed e).

Lemma page_region s ri m nextID l k b :
  loaded V0 s ri m nextID → page_of (regionPath maxUint64) (kv_view s) (regionPath nextID) l → (k, b) ∈ l →
  ∃ r, Unmarshal b = inr r ∧ k = regionPath (Region_Id r) ∧ 0 ≤ Region_Id r < maxUint64 ∧ valid_range r.
Proof.
  intros Hld Hp Hk. destruct (pg_in _ _ _ _ Hp _ Hk) as (E & Hlo & Hhi). simpl in *.
  apply (HV0 k b); [|pose proof (ld_next _ _ _ _ _ Hld) as Hn|done].
  - eapply lookup_weaken; [done|apply Hld].
  - assert (regionPath 0 ≤ regionPath nextID)%key; [|key_order].
    rewrite regionPath_le; unfold is_uint64, maxUint64 in *; lia.
Qed.

Lemma load_page_spec l s ri m nextID :
  loaded V0 s ri m nextID → page_of (regionPath maxUint64) (kv_view s) (regionPath nextID) l →
  ends_in (λ s' ri' n', ∃ m', loaded V0 s' ri' m' n' ∧ nextID ≤ n' ∧
      ∀ p, p ∈ l → (p.1 < regionPath n')%key)
    (load_page (l.*2) nextID (s, ri)).
Proof.
  revert s ri m nextID. induction l as [|[k b] l IH]; intros s ri m nextID Hld Hp.
  { left. exists s, ri, nextID. split; [done|]. exists m. split_and!; [done|lia|set_solver]. }
  destruct (page_region s ri m nextID ((k, b) :: l) k b) as (r & Hb & -> & Hid & Hv); [done|done|by left|].
  destruct (SetRegion_represents ri m (load_info r)) as (ri' & ov & Eset & Hri' & Hov);
    [apply Hld|by apply load_info_wf|].
  cbn [fmap list_fmap load_page snd]. rewrite M_bind_eq. unfold lift_result at 1. rewrite Hb.
  rewrite M_bind_eq. unfold set_region at 1. fold (load_info r). rewrite Eset, M_bind_eq.
  destruct (delete_regions ov (s, ri')) as [st res] eqn:Ed.
  apply delete_regions_spec in Ed as [(s' & -> & Hs' & -> & Hv')|(e & -> & He)];
    [|by right; eauto|apply Hld].
  pose proof (load_one_loaded V0 s s' ri ri' m nextID r b l ov Hld Hp Hb Hid Hov Hs' Hv' Hri') as Hld'.
  pose proof (load_one_id V0 s ri m nextID r b l Hld Hp Hid) as [Hn _].
  lazy beta iota. rewrite uint64_small by (unfold maxUint64 in *; lia).
  assert (Hp' : page_of (regionPath maxUint64) (kv_view s') (regionPath (Region_Id r + 1)) l).
  { eapply page_tail; [exact Hp|..].
    - rewrite regionPath_le; pose proof (ld_next _ _ _ _ _ Hld); unfold is_uint64, maxUint64 in *; lia.
    - simpl. rewrite regionPath_lt; unfold is_uint64, maxUint64 in *; lia.
    - intros [k' b'] Hq. destruct (page_region s ri m nextID _ k' b' Hld Hp) as (r' & _ & -> & Hr' & _);
        [by right|]. inversion Hp as [Hsort _ _]. inversion Hsort as [|?? _ Hf]; subst.
      rewrite list.Forall_forall in Hf. apply Hf in Hq. simpl in Hq |- *.
      rewrite regionPath_lt in Hq by (unfold is_uint64, maxUint64 in *; lia).
      rewrite regionPath_le; unfold is_uint64, maxUint64 in *; lia.
    - intros k' Hk'. eapply load_one_rest; [exact Hld|exact Hp|exact Hid|exact Hov|exact Hv'|].
      intros [_ Hlt]. pose proof (ld_next _ _ _ _ _ Hld).
      assert (regionPath nextID ≤ regionPath (Region_Id r + 1))%key; [|key_order].
      rewrite regionPath_le; unfold is_uint64, maxUint64 in *; lia. }
  destruct (IH _ _ _ _ Hld' Hp') as [(s2 & ri2 & n2 & E & m2 & Hl2 & Hn2 & Hall)|?]; [|by right].
  left. exists s2, ri2, n2. split; [done|]. exists m2. split_and!; [done|lia|].
  intros p [->|?]%elem_of_cons; [|auto]. simpl. pose proof (ld_next _ _ _ _ _ Hl2).
  rewrite regionPath_lt; unfold is_uint64, maxUint64 in *; lia.
Qed.

(** ** The loop over pages *)

(** The stored pairs from an id on. *)
Definition pending (n : Z) : gmap bytes bytes :=
  filter (λ p, (regionPath n ≤ p.1)%key ∧ (p.1 < regionPath maxUint64)%key) V0.

Lemma loaded_same s s' ri m n :
  loaded V0 s ri m n → kv_ok s' → kv_view s' = kv_view s → loaded V0 s' ri m n.
Proof. intros [] ? E. split; rewrite ?E; auto. Qed.

Lemma pending_shrinks s ri m n n' p l :
  loaded V0 s ri m n → page_of (regionPath maxUint64) (kv_view s) (regionPath n) (p :: l) →
  n ≤ n' ≤ maxUint64 → (p.1 < regionPath n')%key → (size (pending n') < size (pending n))%nat.
Proof.
  intros Hld Hp Hn Hlt. pose proof (ld_next _ _ _ _ _ Hld). apply map_subset_size.
  destruct (pg_in _ _ _ _ Hp p) as (E & H1 & H2); [by left|].
  assert (V0 !! p.1 = Some p.2) as E0 by (eapply lookup_weaken; [done|apply Hld]).
  assert (regionPath n ≤ regionPath n')%key
    by (rewrite regionPath_le; unfold is_uint64, maxUint64 in *; lia).
  apply strict_spec_alt. split.
  - apply map_filter_subseteq_ext. intros k b _ [??]. simpl in *. split; [key_order|done].
  - intros E'. assert (pending n !! p.1 = Some p.2) as Hk by by apply map_lookup_filter_Some.
    rewrite <-E' in Hk. apply map_lookup_filter_Some in Hk as [_ [Hk _]]. simpl in Hk. key_order.
Qed.

Definition all_loaded s ri : Prop :=
  ∃ m n, loaded V0 s ri m n ∧
    ∀ k, (regionPath n ≤ k)%key → (k < regionPath maxUint64)%key → V0 !! k = None.

(** A page shorter than the limit is the last one. *)
Lemma last_page s ri m n limit l :
  loaded V0 s ri m n → range_items (kv_view s) (regionPath n) (regionPath maxUint64) l →
  (length l < limit)%nat → ∀ n', n ≤ n' ≤ maxUint64 →
  (∀ p, p ∈ take limit l → (p.1 < regionPath n')%key) →
  ∀ k, (regionPath n' ≤ k)%key → (k < regionPath maxUint64)%key → V0 !! k = None.
Proof.
  intros Hld [_ Hl] Hlen n' Hn' Hall k H1 H2. pose proof (ld_next _ _ _ _ _ Hld).
  assert (regionPath n ≤ regionPath n')%key
    by (rewrite regionPath_le; unfold is_uint64, maxUint64 in *; lia).
  destruct (V0 !! k) as [b|] eqn:E; [|done].
  rewrite <-(ld_rest _ _ _ _ _ Hld) in E by (intros [_ ?]; key_order).
  assert ((k, b) ∈ l) as Hk by (apply Hl; split_and!; [done|key_order|done]).
  rewrite take_ge in Hall by lia. apply Hall in Hk. simpl in Hk. exfalso. key_order.
Qed.

Lemma loadRegions_loop_spec fuel s ri m n limit :
  loaded V0 s ri m n → minKVRangeLimit ≤ limit →
  (size (pending n) + Z.to_nat limit < fuel)%nat →
  ends_in (λ s' ri' _, all_loaded s' ri') (loadRegions_loop fuel n limit (s, ri)).
Proof.
  revert s ri m n limit. induction fuel as [|fuel IH]; intros s ri m n limit Hld Hlim Hf; [lia|].
  unfold minKVRangeLimit in Hlim. cbn [loadRegions_loop]. rewrite M_bind_eq. unfold mcatch at 1, on_kv at 1.
  destruct (LoadRange (regionPath n) (regionPath maxUint64) limit s) as [s1 r] eqn:El.
  assert (1 ≤ limit) as H1 by lia.
  pose proof (LoadRange_law _ _ _ _ _ _ (ld_kv _ _ _ _ _ Hld) H1 El) as (Hk1 & Hv1 & Hr).
  pose proof (loaded_same _ s1 _ _ _ Hld Hk1 Hv1) as Hld1.
  destruct r as [e|[ks vs]]; lazy beta iota.
  { unfold minKVRangeLimit. destruct (Z.leb_spec 100 (limit / 2)).
    - apply (IH _ _ m); [done|unfold minKVRangeLimit; lia|].
      assert (limit / 2 < limit) by (apply Z.div_lt; lia). lia.
    - right. exists (s1, ri), e. split; [done|]. right. eauto 10. }
  destruct (Hr ks vs eq_refl) as (l & Hl & [= -> ->]). rewrite <-Hv1 in Hl.
  rewrite <-!fmap_take. pose proof (range_page _ _ _ _ (Z.to_nat limit) Hl) as Hp.
  rewrite M_bind_eq.
  destruct (load_page_spec _ _ _ _ _ Hld1 Hp) as [(s2 & ri2 & n2 & -> & m2 & Hld2 & Hn2 & Hall)|(st & e & -> & He)];
    [|by right; eauto]. lazy beta iota. rewrite length_fmap, length_take.
  pose proof (ld_next _ _ _ _ _ Hld2).
  destruct (Z.ltb_spec (Z.of_nat (Z.to_nat limit `min` length l)) limit).
  - left. exists s2, ri2, (). split; [done|]. exists m2, n2. split; [done|].
    eapply (last_page s1 ri m n (Z.to_nat limit) l); [done|done|lia|lia|done].
  - apply (IH _ _ m2); [done|done|].
    destruct l as [|p l]; [simpl in *; lia|].
    destruct (Z.to_nat limit) as [|k] eqn:Ek; [lia|]. cbn [take] in Hp, Hall.
    pose proof (pending_shrinks s1 ri m n n2 p (take k l) Hld1 Hp ltac:(lia) (Hall p ltac:(left))). lia.
Qed.
End load_regions.

Section load_theorem.
Context {S T : Type} `{!KVBase S, !KVLaws S} `{!BTreeOps Region T, !BTreeLaws Region T}.
Context `{!Proto Region}.

Lemma loaded_start (s : S) : kv_ok s →
  loaded (kv_view s) s (NewRegionsInfo (T:=T)) ∅ 0.
Proof.
  intros Hs. split; [done|unfold maxUint64; lia|apply NewRegionsInfo_represents| |intros; lia|done|done|intros; lia].
  intros id x Hx. by rewrite lookup_empty in Hx.
Qed.

(** C20: [loadRegions] into an empty cache from a store whose region keys hold
    their regions ends, within one attempt per stored pair and 10001 more, in
    success or in an error of the store.  On success the cache and the store
    hold the same regions, these do not overlap, and only regions overlapped by
    one with a greater id were deleted from the store; nothing else of the
    store changed. *)
Theorem loadRegions_correct (s : S) (fuel : nat) :
  kv_ok s → region_keys_ok (kv_view s) → Z.of_nat (size (kv_view s)) + 10001 ≤ Z.of_nat fuel →
  match loadRegions fuel (s, NewRegionsInfo (T:=T)) with
  | ((s', ri), inr _) =>
      (∀ id, 0 ≤ id < maxUint64 → stored (kv_view s') id = meta <$> GetRegion ri id) ∧
      (∀ id1 id2 x1 x2, GetRegion ri id1 = Some x1 → GetRegion ri id2 = Some x2 →
         id1 ≠ id2 → ¬ overlap (meta x1) (meta x2)) ∧
      kv_view s' ⊆ kv_view s ∧
      (∀ k, ¬ (regionPath 0 ≤ k ∧ k < regionPath maxUint64)%key → kv_view s' !! k = kv_view s !! k) ∧
      (∀ id r, 0 ≤ id < maxUint64 → stored (kv_view s) id = Some r → GetRegion ri id = None →
         ∃ id' r', id < id' ∧ stored (kv_view s) id' = Some r' ∧ overlap r' r)
  | (_, inl e) => kv_failed e
  end.
Proof.
  intros Hs Hk Hf. unfold loadRegions.
  destruct (loadRegions_loop_spec (kv_view s) Hk fuel s NewRegionsInfo ∅ 0 maxKVRangeLimit)
    as [(s' & ri & [] & -> & m & n & Hld & Hend)|([s' ri] & e & -> & He)]; [by apply loaded_start|by vm_compute| | |done].
  { assert (size (pending (kv_view s) 0) ≤ size (kv_view s))%nat
      by apply map_size_filter.
    unfold maxKVRangeLimit. lia. }
  pose proof (ld_next _ _ _ _ _ Hld) as Hn. pose proof (ld_cache _ _ _ _ _ Hld) as Hr.
  pose proof (proj1 Hr) as Hc.
  assert (Hge : ∀ id, n ≤ id < maxUint64 → stored (kv_view s) id = None ∧ stored (kv_view s') id = None).
  { intros id Hid. assert (kv_view s !! regionPath id = None) as E
      by (apply Hend; [rewrite regionPath_le|rewrite regionPath_lt]; unfold is_uint64, maxUint64 in *; lia).
    unfold stored. rewrite E. split; [done|]. destruct (kv_view s' !! regionPath id) eqn:E'; [|done].
    by rewrite (lookup_weaken _ _ _ _ E' (ld_sub _ _ _ _ _ Hld)) in E. }
  split_and!.
  - intros id Hid. rewrite (GetRegion_abs ri m) by done. destruct (decide (id < n)).
    + apply Hld. lia.
    + rewrite (proj2 (Hge id ltac:(lia))). destruct (m !! id) eqn:E; [|done].
      apply (ld_dom _ _ _ _ _ Hld) in E. lia.
  - intros id1 id2 x1 x2. rewrite !(GetRegion_abs ri m) by done. intros H1 H2 Hne.
    by eapply (cache_disjoint ri m id1 id2).
  - apply Hld.
  - intros k Hk'. apply Hld. intros [??]. apply Hk'. split; [done|].
    assert (regionPath n ≤ regionPath maxUint64)%key; [|key_order].
    rewrite regionPath_le; unfold is_uint64, maxUint64 in *; lia.
  - intros id r Hid Hst. rewrite (GetRegion_abs ri m) by done. intros Hm.
    destruct (decide (id < n)).
    + destruct (ld_lost _ _ _ _ _ Hld id r ltac:(lia) Hst Hm) as (i & r' & ? & ? & ?).
      exists i, r'. split_and!; [lia|done|done].
    + by rewrite (proj1 (Hge id ltac:(lia))) in Hst.
Qed.
End load_theorem.

(** ** The batching region storage *)

Section region_storage.
Context {D : Type} `{!LevelDB D, !LevelDBLaws D} `{!Proto Region, !ProtoLaws Region}.
Implicit Types (s : RegionStorage D) (d : D).

(** What a reader sees once the batch is written. *)
Definition logical s (id : Z) : option Region :=
  match batchRegions s !! regionPath id with
  | Some r => Some r
  | None => stored (db_view (LeveldbKV s)) id
  end.

Lemma marshal_batch_spec l acc batch :
  marshal_batch l acc = inr batch →
  ∃ b, batch = acc ++ b ∧ Forall2 (λ p q, p.1 = q.1 ∧ Marshal p.2 = inr q.2) l b.
Proof.
  revert acc. induction l as [|[k r] l IH]; intros acc; simpl.
  { intros [= <-]. exists []. by rewrite app_nil_r. }
  destruct (Marshal r) as [e|v] eqn:E; [done|]. intros (b & -> & Hb)%IH.
  exists ((k, v) :: b). rewrite <-app_assoc. split; [done|]. by constructor.
Qed.

Lemma apply_batch_lookup b V k :
  NoDup b.*1 →
  apply_batch b V !! k = match (list_to_map b : gmap bytes bytes) !! k with Some v => Some v | None => V !! k end.
Proof.
  unfold apply_batch. revert V. induction b as [|[k' v] b IH]; intros V Hnd; simpl; [done|].
  inversion Hnd as [|?? Hnin Hnd']; subst. rewrite IH by done.
  destruct (decide (k = k')) as [->|Hne].
  - rewrite lookup_insert_eq, (not_elem_of_list_to_map_1 b k' Hnin). by rewrite lookup_insert_eq.
  - by rewrite !(lookup_insert_ne _ k') by done.
Qed.

(** The written batch holds the encodings of the regions of the map. *)
Lemma marshal_map_lookup (m : gmap bytes Region) batch V k :
  marshal_batch (map_to_list m) [] = inr batch →
  apply_batch batch V !! k =
    match m !! k with
    | Some r => match Marshal r with inr v => Some v | inl _ => None end
    | None => V !! k
    end ∧
  (∀ r, m !! k = Some r → ∃ v, Marshal r = inr v).
Proof.
  intros (b & -> & Hb)%marshal_batch_spec. simpl.
  assert (b.*1 = (map_to_list m).*1) as Ek.
  { clear V k. induction Hb as [|[??] [??] ?? [? _] _ IH]; [done|]. simpl in *. subst. by f_equal. }
  assert (NoDup b.*1) as Hnd by (rewrite Ek; apply NoDup_fst_map_to_list).
  rewrite apply_batch_lookup by done.
  assert (Hin : ∀ r, m !! k = Some r → ∃ v, Marshal r = inr v ∧ (k, v) ∈ b).
  { intros r Hr%elem_of_map_to_list. apply list_elem_of_lookup in Hr as [i Hi].
    destruct (Forall2_lookup_l _ _ _ _ _ Hb Hi) as ([k' v] & Hv & [Hk Hm]). simpl in *. subst.
    exists v. split; [done|]. by eapply list_elem_of_lookup_2. }
  split; [|intros r Hr; destruct (Hin r Hr) as (v & ? & _); eauto].
  destruct (m !! k) as [r|] eqn:Er.
  - destruct (Hin r eq_refl) as (v & -> & Hv).
    by rewrite (elem_of_list_to_map_1 b k v Hnd Hv).
  - rewrite not_elem_of_list_to_map_1; [done|]. rewrite Ek, list_elem_of_fmap.
    intros ([k' r] & -> & Hr%elem_of_map_to_list). simpl in Er. congruence.
Qed.

(** Flushing changes no region, whether it succeeds or fails, and on success
    everything is in the database. *)
Lemma flush_spec s s' r : db_ok (LeveldbKV s) → flush s = (s', r) →
  db_ok (LeveldbKV s') ∧ (∀ id, logical s' id = logical s id) ∧ batchSize s' = batchSize s ∧
  match r with
  | inr _ => batchRegions s' = ∅ ∧ cacheSize s' = 0
  | inl _ => batchRegions s' = batchRegions s ∧ cacheSize s' = cacheSize s
  end.
Proof.
  intros Hd. unfold flush, with_leveldb, SaveRegions. rewrite M_bind_eq. unfold lift_result.
  destruct (marshal_batch (map_to_list (batchRegions s)) []) as [e|batch] eqn:Em.
  { intros [= <- <-]. by destruct s. }
  destruct (db_Write batch (LeveldbKV s)) as [d' rw] eqn:Ew.
  pose proof (db_Write_law _ _ _ _ Hd Ew) as [Hd' Hv].
  assert (Hlog : db_view d' = apply_batch batch (db_view (LeveldbKV s)) → ∀ id,
    stored (db_view d') id = logical s id).
  { intros E id. unfold stored, logical. rewrite E.
    destruct (marshal_map_lookup _ _ (db_view (LeveldbKV s)) (regionPath id) Em) as [-> Hm].
    destruct (batchRegions s !! regionPath id) as [r0|]; [|done].
    destruct (Hm r0 eq_refl) as [v Hv0]. rewrite Hv0. simpl. unfold decode.
    by rewrite (Unmarshal_Marshal _ _ Hv0). }
  destruct rw as [e|[]]; intros [= <- <-]; cbn.
  - split_and!; [done| |done..]. intros id. destruct Hv as [E|[E _]].
    + specialize (Hlog E id). unfold logical in *. simpl.
      destruct (batchRegions s !! regionPath id); [done|]. by rewrite Hlog.
    + unfold logical. simpl. by rewrite E.
  - destruct Hv as [E|[_ [e ?]]]; [|done]. split_and!; [done| |done..]. intros id.
    unfold logical at 1. simpl. rewrite lookup_empty. by apply Hlog.
Qed.

(** ** Sequences of operations *)

Inductive rs_op := RSave (now : Z) (region : Region) | RFlush | RTick (now : Z).

Definition rs_step s (o : rs_op) : RegionStorage D :=
  match o with
  | RSave now region => (RegionStorage_SaveRegion now region s).1
  | RFlush => (FlushRegion s).1
  | RTick now => backgroundFlush_tick now s
  end.

(** The regions saved last. *)
Definition saved_regions (ops : list rs_op) : gmap Z Region :=
  foldl (λ m o, match o with RSave _ r => <[Region_Id r := r]> m | _ => m end) ∅ ops.

Definition rs_ids_ok (ops : list rs_op) : Prop :=
  Forall (λ o, match o with RSave _ r => is_uint64 (Region_Id r) | _ => True end) ops.

Lemma SaveRegion_logical s now r id : db_ok (LeveldbKV s) → is_uint64 (Region_Id r) → is_uint64 id →
  db_ok (LeveldbKV (RegionStorage_SaveRegion now r s).1) ∧
  logical (RegionStorage_SaveRegion now r s).1 id = if bool_decide (id = Region_Id r) then Some r else logical s id.
Proof.
  intros Hd Hr Hi. unfold RegionStorage_SaveRegion.
  assert (Hlog : ∀ s1, LeveldbKV s1 = LeveldbKV s →
    batchRegions s1 = <[regionPath (Region_Id r) := r]> (batchRegions s) →
    logical s1 id = if bool_decide (id = Region_Id r) then Some r else logical s id).
  { intros s1 E1 E2. unfold logical. rewrite E1, E2. case_bool_decide as Hc.
    - subst. by rewrite lookup_insert_eq.
    - rewrite lookup_insert_ne; [done|]. intros E. apply Hc. by apply regionPath_inj. }
  destruct (cacheSize s <? batchSize s - 1); cbn [fst].
  - split; [exact Hd|]. by apply Hlog.
  - match goal with |- context [flush ?s1] => destruct (flush s1) as [s2 r2] eqn:E end.
    apply flush_spec in E as (? & Hl & _); [|done]. split; [done|]. simpl. rewrite Hl. by apply Hlog.
Qed.

Lemma rs_run_spec d now ops : db_ok d → rs_ids_ok ops →
  let s := foldl rs_step (NewRegionStorage d now) ops in
  db_ok (LeveldbKV s) ∧
  ∀ id, is_uint64 id →
    logical s id = match saved_regions ops !! id with Some r => Some r | None => stored (db_view d) id end.
Proof.
  intros Hd. induction ops as [|o ops IH] using rev_ind; intros Hops.
  { split; [done|]. intros id Hi. unfold logical. simpl. by rewrite lookup_empty. }
  apply Forall_app in Hops as [Hops Ho]. rewrite Forall_singleton in Ho.
  destruct (IH Hops) as [Hok Hl]. unfold saved_regions. rewrite !foldl_snoc. fold (saved_regions ops).
  set (s := foldl rs_step (NewRegionStorage d now) ops) in *.
  assert (Hfl : db_ok (LeveldbKV (FlushRegion s).1) ∧ ∀ id, logical (FlushRegion s).1 id = logical s id).
  { destruct (FlushRegion s) as [s2 r2] eqn:E. by apply flush_spec in E as (? & ? & _). }
  destruct o as [now' r| |now']; simpl.
  - split; [exact (proj1 (SaveRegion_logical s now' r (Region_Id r) Hok Ho Ho))|]. intros id Hi.
    rewrite (proj2 (SaveRegion_logical s now' r id Hok Ho Hi)).
    case_bool_decide as Hc; [subst; by rewrite lookup_insert_eq|].
    rewrite lookup_insert_ne by done. by apply Hl.
  - destruct Hfl as [? Hf]. split; [done|]. intros id Hi. rewrite Hf. by apply Hl.
  - unfold backgroundFlush_tick. case_match; [|done].
    destruct Hfl as [? Hf]. split; [done|]. intros id Hi. rewrite Hf. by apply Hl.
Qed.

(** C21: whatever the interleaving of saves, flushes and background ticks, and
    whether writes to the database fail, the region storage loses no region:
    the batch over the database holds for every id the region saved last, or
    what the database held at the start.  A flush that succeeds leaves all of it
    in the database and nothing in the batch. *)
Theorem region_storage_correct d now ops : db_ok d → rs_ids_ok ops →
  let s := foldl rs_step (NewRegionStorage d now) ops in
  let expected id :=
    match saved_regions ops !! id with Some r => Some r | None => stored (db_view d) id end in
  (∀ id, is_uint64 id → logical s id = expected id) ∧
  (∀ s', FlushRegion s = (s', inr ()) → batchRegions s' = ∅ ∧ cacheSize s' = 0 ∧
     ∀ id, is_uint64 id → stored (db_view (LeveldbKV s')) id = expected id).
Proof.
  intros Hd Hops s expected. destruct (rs_run_spec d now ops Hd Hops) as [Hok Hl]. split; [done|].
  intros s' E. apply flush_spec in E as (_ & Hl' & _ & Hb & Hc); [|done]. split_and!; [done..|].
  intros id Hi. unfold expected. rewrite <-(Hl id Hi), <-Hl'. unfold logical. by rewrite Hb, lookup_empty.
Qed.

(** A region saved and then deleted while it is still in the batch is in the
    database after the flush: [deleteRegion] only removes it from LevelDB. *)
Theorem pending_delete_resurrected s now region s1 s2 s3 :
  db_ok (LeveldbKV s) → is_uint64 (Region_Id region) → cacheSize s < batchSize s - 1 →
  RegionStorage_SaveRegion now region s = (s1, inr ()) →
  deleteRegion region s1 = (s2, inr ()) → FlushRegion s2 = (s3, inr ()) →
  stored (db_view (LeveldbKV s3)) (Region_Id region) = Some region.
Proof.
  intros Hd Hr Hc E1 E2 E3. unfold RegionStorage_SaveRegion in E1.
  rewrite (proj2 (Z.ltb_lt _ _) Hc) in E1. injection E1 as <-.
  unfold deleteRegion in E2. cbn in E2. unfold with_leveldb in E2. cbn in E2.
  destruct (level_Remove (regionPath (Region_Id region)) (LeveldbKV s)) as [d' r] eqn:Er.
  pose proof (db_Delete_law _ _ _ _ Hd Er) as [Hd' _].
  injection E2 as <- _. apply flush_spec in E3 as (_ & Hl & _ & Hb & _); [|done].
  specialize (Hl (Region_Id region)). unfold logical in Hl. rewrite Hb, lookup_empty in Hl.
  cbn in Hl. by rewrite lookup_insert_eq in Hl.
Qed.
End region_storage.

(** ** The GC safe point *)

Section gc.
Context {S D : Type} `{!KVBase S, !KVLaws S} `{!LevelDB D}.

(** A GC safe point that was saved is loaded back, for every 64-bit value,
    as long as the store answers. *)
Theorem gc_safe_point_roundtrip (s s1 s2 : Storage S D) (safePoint v : Z) :
  kv_ok (st_Base s) → is_uint64 safePoint →
  SaveGCSafePoint safePoint s = (s1, inr ()) → LoadGCSafePoint s1 = (s2, inr v) → v = safePoint.
Proof.
  intros Hs Hp. unfold SaveGCSafePoint, LoadGCSafePoint, with_base at 1. rewrite M_bind_eq.
  destruct (Save _ _ (st_Base s)) as [b1 r1] eqn:E1. intros [= <- ->].
  apply Save_law in E1 as [Hb1 [Hv|[_ [e ?]]]]; [|done..]. unfold with_base. cbn [st_Base].
  destruct (Load gc_safe_point_path b1) as [b2 [e|value]] eqn:E2; [done|].
  apply Load_law in E2 as (_ & _ & Hval); [|done].
  rewrite (Hval value eq_refl), Hv, lookup_insert_eq. cbn [default].
  rewrite bool_decide_eq_false_2 by apply format_digits_nonempty.
  unfold id. rewrite ParseUint_FormatUint by (auto || done). by intros [= _ <-].
Qed.
End gc.

(** ** Witnesses *)

Module StorageDemo.
Import SortedList MemLevel.

(** A small encoding of regions without peers and with short keys and ids; it
    refuses the others. *)
Definition demo_Unmarshal (b : bytes) : result Region :=
  match b with
  | id :: n :: keys =>
      inr (mkRegion (byte_val id) (take (Z.to_nat (byte_val n)) keys)
             (drop (Z.to_nat (byte_val n)) keys) None [])
  | _ => inl (Error "unmarshal")
  end.

Definition demo_Marshal (r : Region) : result bytes :=
  let b := byte_of_Z (Region_Id r) :: byte_of_Z (Z.of_nat (length (StartKey r)))
             :: StartKey r ++ EndKey r in
  if bool_decide (demo_Unmarshal b = inr r) then inr b else inl (Error "marshal").

#[export] Instance demo_proto : Proto Region := {
  Marshal := demo_Marshal;
  Unmarshal := demo_Unmarshal;
}.

#[export] Instance demo_proto_laws : ProtoLaws Region.
Proof.
  split. intros x b. cbn. unfold demo_Marshal. case_bool_decide; [|done]. by intros [= <-].
Qed.

Definition kA : bytes := [Byte.x61].
Definition kM : bytes := [Byte.x6d].
Definition kZ : bytes := [Byte.x7a].
Definition r1 : Region := mkRegion 1 kA kM None [].
Definition r2 : Region := mkRegion 2 kM kZ None [].
Definition r3 : Region := mkRegion 3 kA kZ None [].
Definition enc (r : Region) : bytes := match demo_Marshal r with inr b => b | inl _ => [] end.

Definition demo_ops : list kv_op :=
  [OpSave (regionPath 1) (enc r1); OpSave (regionPath 2) (enc r2); OpSave (regionPath 3) (enc r3)].
Definition demo_kv : memoryKV (list memoryKVItem) := run_ops demo_ops NewMemoryKV.

Lemma demo_keys_ok : region_keys_ok (kv_view demo_kv).
Proof.
  change (kv_view demo_kv) with (mem_view demo_kv). unfold demo_kv.
  rewrite (proj2 (run_ops_view demo_ops)). intros k b. unfold spec_ops. cbn [foldl demo_ops].
  rewrite !lookup_insert_Some, lookup_empty. intros Hk _ _.
  destruct Hk as [[<- <-]|[_ [[<- <-]|[_ [[<- <-]|[_ ?]]]]]]; [..|done];
    [exists r3|exists r2|exists r1]; (split_and!; [by vm_compute|done|by vm_compute|by vm_compute|by right; vm_compute]).
Qed.

(** The whole-range region with id 3 replaces the two halves. *)
Lemma loadRegions_correct_witness :
  match loadRegions (Z.to_nat 10100) (demo_kv, NewRegionsInfo (T:=list Region)) with
  | ((s', ri), inr _) => stored (kv_view s') 3 = meta <$> GetRegion ri 3
  | (_, inl e) => kv_failed (S:=memoryKV (list memoryKVItem)) e
  end.
Proof.
  pose proof (loadRegions_correct (T:=list Region) demo_kv (Z.to_nat 10100)) as H.
  destruct (loadRegions (Z.to_nat 10100) (demo_kv, NewRegionsInfo)) as [[s' ri] [e|[]]].
  - apply H; [apply (run_ops_view demo_ops)|apply demo_keys_ok|].
    vm_compute. discriminate.
  - apply H; [apply (run_ops_view demo_ops)|apply demo_keys_ok| |].
    + vm_compute. discriminate.
    + unfold maxUint64. lia.
Defined.

Lemma loads_three : ∃ s ri, loadRegions 20 (demo_kv, NewRegionsInfo (T:=list Region)) = ((s, ri), inr ()) ∧
  (meta <$> GetRegion ri 3) = Some r3 ∧ GetRegion ri 1 = None ∧ GetRegion ri 2 = None.
Proof. eexists _, _. split; [vm_compute; reflexivity|]. vm_compute. done. Qed.

Lemma region_storage_correct_witness :
  let s := foldl rs_step (NewRegionStorage (NewMemoryKV : MemLevel.db) 0) [RSave 5 r1; RTick 9; RSave 7 r2] in
  logical s 2 = Some r2 ∧
  ∀ s', FlushRegion s = (s', inr ()) → stored (db_view (LeveldbKV s')) 1 = Some r1.
Proof.
  destruct (region_storage_correct (NewMemoryKV : MemLevel.db) 0 [RSave 5 r1; RTick 9; RSave 7 r2])
    as [H1 H2]; [apply bt_New_ok|repeat constructor; unfold is_uint64; simpl; lia|].
  split; [apply (H1 2); unfold is_uint64; lia|].
  intros s' E. destruct (H2 s' E) as (_ & _ & H). apply (H 1). unfold is_uint64. lia.
Defined.

Definition demo_storage : Storage (memoryKV (list memoryKVItem)) MemLevel.db := NewStorage demo_kv.

Lemma gc_safe_point_roundtrip_witness :
  (LoadGCSafePoint (SaveGCSafePoint 255 demo_storage).1).2 = inr 255.
Proof.
  destruct (LoadGCSafePoint (SaveGCSafePoint 255 demo_storage).1) as [s2 [e|v]] eqn:E;
    [vm_compute in E; discriminate|].
  cbn [snd]. f_equal. apply (gc_safe_point_roundtrip demo_storage (SaveGCSafePoint 255 demo_storage).1 s2 255 v).
  - apply (run_ops_view demo_ops).
  - unfold is_uint64. lia.
  - vm_compute. reflexivity.
  - exact E.
Defined.

Lemma pending_delete_resurrected_witness :
  let s0 : RegionStorage MemLevel.db := NewRegionStorage (NewMemoryKV : MemLevel.db) 0 in
  let s1 := (RegionStorage_SaveRegion 5 r1 s0).1 in
  let s2 := (deleteRegion r1 s1).1 in
  stored (db_view (LeveldbKV (FlushRegion s2).1)) 1 = Some r1.
Proof.
  intros s0 s1 s2.
  apply (pending_delete_resurrected s0 5 r1 s1 s2 (FlushRegion s2).1).
  - apply bt_New_ok.
  - unfold is_uint64. simpl. lia.
  - reflexivity.
  - reflexivity.
  - vm_compute. reflexivity.
  - vm_compute. reflexivity.
Defined.
End StorageDemo.
