(* ===== verification/Cache.v ===== *)
(** * Caches (pkg/cache)

    The LRU, 2Q, FIFO and TTL caches.  [container/list] of the standard library
    is a list of elements with handles, so that the map of the LRU cache holds
    pointers to elements as in the source.  The value of an item is an
    [interface{}]: [None] is nil. *)

From S2P Require Import Prelude.

(** ** container/list *)

Record glist (A : Type) := mkList { gl_next : nat; gl_elems : list (nat * A) }.
Arguments mkList {A}.
Arguments gl_next {A}.
Arguments gl_elems {A}.

Section glist.
Context {A : Type}.
Implicit Type l : glist A.

Definition gl_New : glist A := mkList 0 [].
Definition gl_Len l : Z := Z.of_nat (length (gl_elems l)).
Definition gl_value l (e : nat) : option A := snd <$> find_first (λ p, p.1 =? e)%nat (gl_elems l).
Definition gl_PushFront (x : A) l : nat * glist A :=
  (gl_next l, mkList (S (gl_next l)) ((gl_next l, x) :: gl_elems l)).
Definition gl_Remove (e : nat) l : glist A := mkList (gl_next l) (filter (λ p, p.1 ≠ e) (gl_elems l)).
Definition gl_MoveToFront (e : nat) l : glist A :=
  match gl_value l e with
  | Some x => mkList (gl_next l) ((e, x) :: filter (λ p, p.1 ≠ e) (gl_elems l))
  | None => l
  end.
Definition gl_Back l : option nat := fst <$> last (gl_elems l).
(** Assignment through the pointer an element holds. *)
Definition gl_update (e : nat) (f : A → A) l : glist A :=
  mkList (gl_next l) ((λ p, if (p.1 =? e)%nat then (p.1, f p.2) else p) <$> gl_elems l).
End glist.

Record Item (V : Type) := mkItem { Key : Z; Value : option V }.
Arguments mkItem {V}.
Arguments Key {V}.
Arguments Value {V}.

(** ** LRU (lru.go) *)

Record LRU (V : Type) := mkLRU { maxCount : Z; ll : glist (Item V); cache : gmap Z nat }.
Arguments mkLRU {V}.
Arguments maxCount {V}.
Arguments ll {V}.
Arguments cache {V}.

Module Lru.
Section lru.
Context {V : Type}.
Implicit Type c : LRU V.

Definition newLRU (maxCount : Z) : LRU V := mkLRU maxCount gl_New ∅.

(** An element that is not of the list has no item: its dereference is nil. *)
Definition removeElement c (ele : nat) : LRU V :=
  match gl_value (ll c) ele with
  | Some kv => mkLRU (maxCount c) (gl_Remove ele (ll c)) (delete (Key kv) (cache c))
  | None => c
  end.

Definition removeOldest c : LRU V :=
  match gl_Back (ll c) with
  | Some ele => removeElement c ele
  | None => c
  end.

Definition getAndRemoveOldest c : Z * option V * bool * LRU V :=
  match gl_Back (ll c) with
  | Some ele =>
      match gl_value (ll c) ele with
      | Some kv => (Key kv, Value kv, true, removeElement c ele)
      | None => (0, None, false, c)
      end
  | None => (0, None, false, c)
  end.

Definition Put c (key : Z) (value : option V) : LRU V :=
  match cache c !! key with
  | Some ele =>
      mkLRU (maxCount c)
        (gl_update ele (λ it, mkItem (Key it) value) (gl_MoveToFront ele (ll c))) (cache c)
  | None =>
      let '(ele, ll') := gl_PushFront (mkItem key value) (ll c) in
      let c := mkLRU (maxCount c) ll' (<[key := ele]> (cache c)) in
      if negb (maxCount c =? 0) && (maxCount c <? gl_Len (ll c)) then removeOldest c else c
  end.

Definition Get c (key : Z) : option V * bool * LRU V :=
  match cache c !! key with
  | Some ele =>
      let ll' := gl_MoveToFront ele (ll c) in
      (gl_value ll' ele ≫= Value, true, mkLRU (maxCount c) ll' (cache c))
  | None => (None, false, c)
  end.

Definition Peek c (key : Z) : option V * bool :=
  match cache c !! key with
  | Some ele => (gl_value (ll c) ele ≫= Value, true)
  | None => (None, false)
  end.

Definition contains c (key : Z) : bool := bool_decide (is_Some (cache c !! key)).

Definition remove c (key : Z) : bool * LRU V :=
  match cache c !! key with
  | Some ele => (true, removeElement c ele)
  | None => (false, c)
  end.

Definition Remove c (key : Z) : LRU V := (remove c key).2.

Definition Elems c : list (Item V) := (gl_elems (ll c)).*2.

Definition Len c : Z := gl_Len (ll c).
End lru.
End Lru.

(** ** 2Q (two_queue.go) *)

Record TwoQueue (V : Type) := mkTwoQueue {
  tq_size : Z;
  tq_recentSize : Z;
  recent : LRU V;
  frequent : LRU V;
  ghost : LRU V;
}.
Arguments mkTwoQueue {V}.
Arguments tq_size {V}.
Arguments tq_recentSize {V}.
Arguments recent {V}.
Arguments frequent {V}.
Arguments ghost {V}.

Module TwoQ.
Section two_queue.
Context {V : Type}.
Implicit Type c : TwoQueue V.

Definition with_recent (r : LRU V) c : TwoQueue V :=
  mkTwoQueue (tq_size c) (tq_recentSize c) r (frequent c) (ghost c).
Definition with_frequent (f : LRU V) c : TwoQueue V :=
  mkTwoQueue (tq_size c) (tq_recentSize c) (recent c) f (ghost c).
Definition with_ghost (g : LRU V) c : TwoQueue V :=
  mkTwoQueue (tq_size c) (tq_recentSize c) (recent c) (frequent c) g.

(** The ratios are fractions [num / den]: [int(float64(size) * ratio)] truncates
    toward zero, and the product is exact for the ratios 1/4 and 1/2 and sizes
    below 2^53. *)
Definition newTwoQueueParams (size : Z) (recentRatio ghostRatio : Z * Z) : TwoQueue V :=
  let recentSize := Z.quot (size * recentRatio.1) recentRatio.2 in
  let ghostSize := Z.quot (size * ghostRatio.1) ghostRatio.2 in
  mkTwoQueue size recentSize (Lru.newLRU size) (Lru.newLRU size) (Lru.newLRU ghostSize).

Definition defaultRecentRatio : Z * Z := (1, 4).
Definition defaultGhostRatio : Z * Z := (1, 2).

Definition newTwoQueue (size : Z) : TwoQueue V :=
  newTwoQueueParams size defaultRecentRatio defaultGhostRatio.

Definition ensureSpace c (isGhost : bool) : TwoQueue V :=
  let recentLen := Lru.Len (recent c) in
  let frequentLen := Lru.Len (frequent c) in
  if recentLen + frequentLen <? tq_size c then c
  else if (0 <? recentLen) && ((tq_recentSize c <? recentLen) || ((recentLen =? tq_recentSize c) && negb isGhost))
  then
    let '(k, _, _, r) := Lru.getAndRemoveOldest (recent c) in
    with_ghost (Lru.Put (ghost c) k None) (with_recent r c)
  else with_frequent (Lru.removeOldest (frequent c)) c.

Definition Put c (key : Z) (value : option V) : TwoQueue V :=
  if Lru.contains (frequent c) key then with_frequent (Lru.Put (frequent c) key value) c
  else if Lru.contains (recent c) key then
    let c := with_recent (Lru.Remove (recent c) key) c in
    with_frequent (Lru.Put (frequent c) key value) c
  else if Lru.contains (ghost c) key then
    let c := ensureSpace c true in
    let c := with_ghost (Lru.Remove (ghost c) key) c in
    with_frequent (Lru.Put (frequent c) key value) c
  else
    let c := ensureSpace c false in
    with_recent (Lru.Put (recent c) key value) c.

Definition Get c (key : Z) : option V * bool * TwoQueue V :=
  let '(val, ok, f) := Lru.Get (frequent c) key in
  let c := with_frequent f c in
  if (ok : bool) then (val, ok, c)
  else
    let '(val, ok) := Lru.Peek (recent c) key in
    if (ok : bool) then
      let c := with_recent (Lru.Remove (recent c) key) c in
      (val, ok, with_frequent (Lru.Put (frequent c) key val) c)
    else (None, false, c).

Definition Peek c (key : Z) : option V * bool :=
  let '(val, ok) := Lru.Peek (frequent c) key in
  if (ok : bool) then (val, ok) else Lru.Peek (recent c) key.

Definition Remove c (key : Z) : TwoQueue V :=
  let '(ok, f) := Lru.remove (frequent c) key in
  if (ok : bool) then with_frequent f c
  else
    let '(ok, r) := Lru.remove (recent c) key in
    if (ok : bool) then with_recent r c
    else with_ghost (Lru.remove (ghost c) key).2 c.

Definition Elems c : list (Item V) := Lru.Elems (recent c) ++ Lru.Elems (frequent c).

Definition Len c : Z := Lru.Len (recent c) + Lru.Len (frequent c).
End two_queue.
End TwoQ.

(** ** The interface and the thread-safe wrapper (cache.go) *)

Class Cache (V C : Type) := {
  c_Put : C → Z → option V → C;
  c_Get : C → Z → option V * bool * C;
  c_Peek : C → Z → option V * bool;
  c_Remove : C → Z → C;
  c_Elems : C → list (Item V);
  c_Len : C → Z;
}.

#[export] Instance LRU_Cache {V} : Cache V (LRU V) := {
  c_Put := Lru.Put; c_Get := Lru.Get; c_Peek := Lru.Peek;
  c_Remove := Lru.Remove; c_Elems := Lru.Elems; c_Len := Lru.Len;
}.

#[export] Instance TwoQueue_Cache {V} : Cache V (TwoQueue V) := {
  c_Put := TwoQ.Put; c_Get := TwoQ.Get; c_Peek := TwoQ.Peek;
  c_Remove := TwoQ.Remove; c_Elems := TwoQ.Elems; c_Len := TwoQ.Len;
}.

(** [threadSafeCache] holds a value of the interface; every method runs under
    the lock, so a concurrent history is a sequence of these steps. *)
Inductive threadSafeCache (V : Type) :=
| tsLRU (c : LRU V)
| tsTwoQueue (c : TwoQueue V).
Arguments tsLRU {V}.
Arguments tsTwoQueue {V}.

#[export] Instance threadSafeCache_Cache {V} : Cache V (threadSafeCache V) := {
  c_Put c key value :=
    match c with
    | tsLRU c => tsLRU (c_Put c key value)
    | tsTwoQueue c => tsTwoQueue (c_Put c key value)
    end;
  c_Get c key :=
    match c with
    | tsLRU c => let '(v, ok, c) := c_Get c key in (v, ok, tsLRU c)
    | tsTwoQueue c => let '(v, ok, c) := c_Get c key in (v, ok, tsTwoQueue c)
    end;
  c_Peek c key := match c with tsLRU c => c_Peek c key | tsTwoQueue c => c_Peek c key end;
  c_Remove c key :=
    match c with
    | tsLRU c => tsLRU (c_Remove (V:=V) c key)
    | tsTwoQueue c => tsTwoQueue (c_Remove (V:=V) c key)
    end;
  c_Elems c := match c with tsLRU c => c_Elems c | tsTwoQueue c => c_Elems c end;
  c_Len c := match c with tsLRU c => c_Len (V:=V) c | tsTwoQueue c => c_Len (V:=V) c end;
}.

Definition LRUCache : Z := 1.
Definition TwoQueueCache : Z := 2.
Definition DefaultCacheType : Z := LRUCache.

(** An unknown type panics. *)
Definition NewCache {V} (size cacheType : Z) : option (threadSafeCache V) :=
  if cacheType =? LRUCache then Some (tsLRU (Lru.newLRU size))
  else if cacheType =? TwoQueueCache then Some (tsTwoQueue (TwoQ.newTwoQueue size))
  else None.

Definition NewDefaultCache {V} (size : Z) : option (threadSafeCache V) :=
  NewCache size DefaultCacheType.

(** ** FIFO (fifo.go) *)

Record FIFO (V : Type) := mkFIFO { fifo_maxCount : Z; fifo_ll : glist (Item V) }.
Arguments mkFIFO {V}.
Arguments fifo_maxCount {V}.
Arguments fifo_ll {V}.

Module Fifo.
Section fifo.
Context {V : Type}.
Implicit Type c : FIFO V.

Definition NewFIFO (maxCount : Z) : FIFO V := mkFIFO maxCount gl_New.

(** [c.ll.Remove(c.ll.Back())]; with an empty list the nil element is
    dereferenced: [None]. *)
Definition Remove c : option (FIFO V) :=
  ele ← gl_Back (fifo_ll c);
  Some (mkFIFO (fifo_maxCount c) (gl_Remove ele (fifo_ll c))).

Definition Put c (key : Z) (value : option V) : option (FIFO V) :=
  let '(_, ll') := gl_PushFront (mkItem key value) (fifo_ll c) in
  let c := mkFIFO (fifo_maxCount c) ll' in
  if negb (fifo_maxCount c =? 0) && (fifo_maxCount c <? gl_Len (fifo_ll c)) then Remove c else Some c.

(** Oldest first. *)
Definition Elems c : list (Item V) := reverse ((gl_elems (fifo_ll c)).*2).

Definition FromElems c (key : Z) : list (Item V) :=
  filter (λ kv, key < Key kv) (reverse ((gl_elems (fifo_ll c)).*2)).

Definition Len c : Z := gl_Len (fifo_ll c).
End fifo.
End Fifo.

(** ** TTL (ttl.go); instants and durations in nanoseconds *)

Record ttlCacheItem (V : Type) := mkTTLItem { ttl_value : option V; expire : Z }.
Arguments mkTTLItem {V}.
Arguments ttl_value {V}.
Arguments expire {V}.

Record TTL (V : Type) := mkTTL { ttl_items : gmap Z (ttlCacheItem V); ttl : Z; gcInterval : Z }.
Arguments mkTTL {V}.
Arguments ttl_items {V}.
Arguments ttl {V}.
Arguments gcInterval {V}.

Module Ttl.
Section ttl.
Context {V : Type}.
Implicit Type c : TTL V.

Definition NewTTL (gcInterval ttl : Z) : TTL V := mkTTL ∅ ttl gcInterval.

Definition PutWithTTL c (now key : Z) (value : option V) (t : Z) : TTL V :=
  mkTTL (<[key := mkTTLItem value (now + t)]> (ttl_items c)) (ttl c) (gcInterval c).

Definition Put c (now key : Z) (value : option V) : TTL V := PutWithTTL c now key value (ttl c).

Definition Get c (now key : Z) : option V * bool :=
  match ttl_items c !! key with
  | None => (None, false)
  | Some item => if expire item <? now then (None, false) else (ttl_value item, true)
  end.

Definition Remove c (key : Z) : TTL V := mkTTL (delete key (ttl_items c)) (ttl c) (gcInterval c).

Definition Len c : nat := size (ttl_items c).

Definition Clear c : TTL V :=
  mkTTL (foldl (λ m k, delete k m) (ttl_items c) (map_to_list (ttl_items c)).*1) (ttl c) (gcInterval c).

(** One tick of the garbage collection: the items that expired before [now]. *)
Definition doGC_tick c (now : Z) : TTL V :=
  mkTTL (foldl (λ m key,
           match m !! key with
           | Some value => if expire value <? now then delete key m else m
           | None => m
           end) (ttl_items c) (map_to_list (ttl_items c)).*1)
    (ttl c) (gcInterval c).
End ttl.

(** TTLUint64 saves ids without values. *)
Definition IDTTL : Type := TTL unit.
Definition NewIDTTL (gcInterval ttl : Z) : IDTTL := NewTTL gcInterval ttl.
Definition id_Put (c : IDTTL) (now id : Z) : IDTTL := Put c now id None.
Definition id_Exists (c : IDTTL) (now id : Z) : bool := (Get c now id).2.
End Ttl.
