(* ===== verification/CacheProps.v ===== *)
(** * Properties of the caches

    The list an LRU cache keeps, the interface both caches implement and its
    laws, the invariants of the 2Q cache, and the FIFO and TTL caches. *)

From S2P Require Import Prelude Cache.

(** ** Lists with handles *)

Lemma gl_value_Some {A} (l : glist A) e x :
  NoDup (gl_elems l).*1 → gl_value l e = Some x ↔ (e, x) ∈ gl_elems l.
Proof.
  unfold gl_value. intros Hnd. rewrite fmap_Some. split.
  - intros ([e' y] & [Hin E]%find_first_Some & ->). apply Nat.eqb_eq in E. simpl in E. by subst.
  - intros Hin. destruct (find_first _ _) as [[e' y]|] eqn:E.
    + apply find_first_Some in E as [Hin' E]. apply Nat.eqb_eq in E. simpl in E. subst e'.
      exists (e, y). split; [done|]. pose proof (NoDup_fmap_inj fst _ (e, x) (e, y) Hnd Hin Hin' eq_refl). by simplify_eq.
    + rewrite find_first_None in E. apply E in Hin. simpl in Hin. by rewrite Nat.eqb_refl in Hin.
Qed.

Section lru.
Context {V : Type}.
Implicit Types (c : LRU V) (l : list (Item V)).

(** The map holds exactly the handles of the items, by key. *)
Record lru_ok c : Prop := {
  lo_handles : NoDup (gl_elems (ll c)).*1;
  lo_fresh e x : (e, x) ∈ gl_elems (ll c) → (e < gl_next (ll c))%nat;
  lo_cache k e : cache c !! k = Some e ↔ ∃ v, (e, mkItem k v) ∈ gl_elems (ll c);
}.

Definition key_ne (k : Z) l : list (Item V) := filter (λ it, Key it ≠ k) l.

Lemma lru_item c p : lru_ok c → p ∈ gl_elems (ll c) → cache c !! Key p.2 = Some p.1.
Proof. intros Hc Hp. apply lo_cache; [done|]. destruct p as [e [k v]]. by exists v. Qed.

(** A handle and a key of the cache denote the same item. *)
Lemma lru_handle_key c p e k : lru_ok c → cache c !! k = Some e →
  p ∈ gl_elems (ll c) → p.1 = e ↔ Key p.2 = k.
Proof.
  intros Hc Hk Hp. pose proof (lru_item c p Hc Hp) as Hi. split.
  - intros <-. apply (lo_cache _ Hc) in Hk as [v Hv].
    pose proof (NoDup_fmap_inj fst _ p (p.1, mkItem k v) (lo_handles _ Hc) Hp Hv eq_refl) as E.
    by rewrite E.
  - intros <-. congruence.
Qed.

Lemma lru_keys_NoDup c : lru_ok c → NoDup (Key <$> Lru.Elems c).
Proof.
  intros Hc. unfold Lru.Elems. rewrite <-list_fmap_compose. apply NoDup_fmap_2_strong.
  - intros p q Hp Hq E. unfold compose in E. simpl in E.
    pose proof (lru_item c p Hc Hp) as H1. pose proof (lru_item c q Hc Hq) as H2.
    apply (NoDup_fmap_inj fst _ p q (lo_handles _ Hc) Hp Hq). congruence.
  - apply (NoDup_fmap_1 fst), Hc.
Qed.

Lemma lru_lookup c k e : lru_ok c → cache c !! k = Some e →
  ∃ v, gl_value (ll c) e = Some (mkItem k v) ∧ mkItem k v ∈ Lru.Elems c ∧ (e, mkItem k v) ∈ gl_elems (ll c).
Proof.
  intros Hc Hk. pose proof Hk as Hk'. apply (lo_cache _ Hc) in Hk' as [v Hv]. exists v.
  split_and!; [by apply gl_value_Some; [apply Hc|]| |done].
  unfold Lru.Elems. apply list_elem_of_fmap. by exists (e, mkItem k v).
Qed.

Lemma lru_contains c k : lru_ok c → Lru.contains c k = true ↔ k ∈ Key <$> Lru.Elems c.
Proof.
  intros Hc. unfold Lru.contains. rewrite bool_decide_eq_true. split.
  - intros [e He]. destruct (lru_lookup c k e Hc He) as (v & _ & Hin & _).
    apply list_elem_of_fmap. by exists (mkItem k v).
  - intros (it & -> & Hit)%list_elem_of_fmap. unfold Lru.Elems in Hit.
    apply list_elem_of_fmap in Hit as (p & -> & Hp). rewrite (lru_item c p) by done. eauto.
Qed.

Lemma newLRU_ok n : lru_ok (Lru.newLRU n).
Proof.
  split; simpl.
  - constructor.
  - intros e x H. by apply elem_of_nil in H.
  - intros k e. rewrite lookup_empty. split; [done|]. intros [v Hv]. by apply elem_of_nil in Hv.
Qed.

(** The elements without one handle. *)
Lemma filter_handle c e k : lru_ok c → cache c !! k = Some e →
  (filter (λ p, p.1 ≠ e) (gl_elems (ll c))).*2 = key_ne k (Lru.Elems c).
Proof.
  intros Hc Hk. unfold key_ne, Lru.Elems. apply filter_fmap_comm.
  intros p Hp. by rewrite (lru_handle_key c p e k).
Qed.

Lemma removeElement_spec c k e : lru_ok c → cache c !! k = Some e →
  lru_ok (Lru.removeElement c e) ∧ maxCount (Lru.removeElement c e) = maxCount c ∧
  Lru.Elems (Lru.removeElement c e) = key_ne k (Lru.Elems c).
Proof.
  intros Hc Hk. destruct (lru_lookup c k e Hc Hk) as (v & Hv & _ & Hin).
  unfold Lru.removeElement. rewrite Hv. cbn [Key]. split_and!; [|done|by apply filter_handle].
  split; simpl.
  - by apply NoDup_fmap_filter, Hc.
  - intros e' x [_ ?]%list_elem_of_filter. by eapply (lo_fresh _ Hc).
  - intros k' e'. rewrite lookup_delete_Some, (lo_cache _ Hc). split.
    + intros [Hne [v' Hv']]. exists v'. apply list_elem_of_filter. split; [|done]. simpl.
      intros ->. apply Hne. symmetry. by apply (lru_handle_key c (e, mkItem k' v') e k Hc Hk Hv').
    + intros [v' [Hne Hv']%list_elem_of_filter]. split; [|eauto]. intros ->.
      apply Hne. by apply (lru_handle_key c (e', mkItem k' v') e k' Hc Hk Hv').
Qed.

(** Dropping the last item. *)
Definition drop_last {A} (l : list A) : list A := take (length l - 1) l.

Lemma drop_last_snoc {A} (l : list A) x : drop_last (l ++ [x]) = l.
Proof.
  unfold drop_last. rewrite length_app. simpl. rewrite take_app_le by lia.
  by rewrite take_ge by lia.
Qed.

Lemma key_ne_id k l : k ∉ Key <$> l → key_ne k l = l.
Proof.
  intros H. apply filter_all. intros x Hx E. apply H, list_elem_of_fmap. by exists x.
Qed.

Lemma key_ne_last l it : NoDup (Key <$> (l ++ [it])) → key_ne (Key it) (l ++ [it]) = l.
Proof.
  rewrite fmap_app. intros (_ & Hd & _)%NoDup_app. unfold key_ne. rewrite filter_app.
  rewrite filter_cons_False by (intros H; by apply H). rewrite app_nil_r.
  apply key_ne_id. intros Hin. apply (Hd _ Hin). simpl. set_solver.
Qed.

Lemma lru_last c (p : nat * Item V) (l : list (nat * Item V)) : lru_ok c → gl_elems (ll c) = l ++ [p] →
  gl_Back (ll c) = Some p.1 ∧ cache c !! Key p.2 = Some p.1 ∧ gl_value (ll c) p.1 = Some p.2 ∧
  key_ne (Key p.2) (Lru.Elems c) = l.*2 ∧ Lru.Elems c = l.*2 ++ [p.2].
Proof.
  intros Hc E. assert (p ∈ gl_elems (ll c)) as Hp by (rewrite E; set_solver).
  unfold gl_Back. rewrite E, last_snoc. split_and!.
  - done.
  - by apply lru_item.
  - apply gl_value_Some; [apply Hc|]. by destruct p.
  - pose proof (lru_keys_NoDup c Hc) as Hnd. unfold Lru.Elems in *. rewrite E, fmap_app in *.
    by apply key_ne_last.
  - unfold Lru.Elems. by rewrite E, fmap_app.
Qed.

Lemma removeOldest_spec c : lru_ok c →
  lru_ok (Lru.removeOldest c) ∧ maxCount (Lru.removeOldest c) = maxCount c ∧
  Lru.Elems (Lru.removeOldest c) = drop_last (Lru.Elems c).
Proof.
  intros Hc. destruct (gl_elems (ll c)) as [|p l _] eqn:E using rev_ind.
  - assert (Lru.removeOldest c = c) as -> by (unfold Lru.removeOldest, gl_Back; by rewrite E).
    split_and!; [done..|]. unfold Lru.Elems. by rewrite E.
  - destruct (lru_last c p l Hc E) as (Hb & Hk & _ & Hne & El). unfold Lru.removeOldest. rewrite Hb.
    destruct (removeElement_spec c (Key p.2) p.1 Hc Hk) as (? & ? & ->).
    by rewrite Hne, El, drop_last_snoc.
Qed.

Lemma getAndRemoveOldest_spec c l it : lru_ok c → Lru.Elems c = l ++ [it] →
  ∃ c', Lru.getAndRemoveOldest c = (Key it, Value it, true, c') ∧ lru_ok c' ∧
    maxCount c' = maxCount c ∧ Lru.Elems c' = l.
Proof.
  intros Hc El. destruct (gl_elems (ll c)) as [|p l' _] eqn:E using rev_ind.
  { unfold Lru.Elems in El. rewrite E in El. by destruct l. }
  destruct (lru_last c p l' Hc E) as (Hb & Hk & Hv & Hne & El').
  rewrite El in El'. apply app_inj_2 in El' as [-> [= ->]]; [|done].
  unfold Lru.getAndRemoveOldest. rewrite Hb, Hv. eexists. split; [done|].
  destruct (removeElement_spec c (Key p.2) p.1 Hc Hk) as (? & ? & ->). by rewrite Hne.
Qed.

(** Moving an element to the front. *)
Lemma MoveToFront_spec c k e : lru_ok c → cache c !! k = Some e →
  ∃ v, mkItem k v ∈ Lru.Elems c ∧
    gl_MoveToFront e (ll c) =
      mkList (gl_next (ll c)) ((e, mkItem k v) :: filter (λ p, p.1 ≠ e) (gl_elems (ll c))) ∧
    lru_ok (mkLRU (maxCount c) (gl_MoveToFront e (ll c)) (cache c)).
Proof.
  intros Hc Hk. destruct (lru_lookup c k e Hc Hk) as (v & Hv & Hin & Hel).
  exists v. unfold gl_MoveToFront. rewrite Hv. split_and!; [done..|]. split; simpl.
  - apply NoDup_cons. split; [|by apply NoDup_fmap_filter, Hc].
    intros (p & E & [Hp _]%list_elem_of_filter)%list_elem_of_fmap. by apply Hp.
  - intros e' x [[= -> ->]|[_ ?]%list_elem_of_filter]%elem_of_cons; by eapply (lo_fresh _ Hc).
  - intros k' e'. rewrite (lo_cache _ Hc). setoid_rewrite elem_of_cons.
    setoid_rewrite list_elem_of_filter. simpl. split; intros [v' Hv']; exists v'.
    + destruct (decide (e' = e)) as [->|]; [left|by right].
      pose proof (NoDup_fmap_inj fst _ _ _ (lo_handles _ Hc) Hv' Hel eq_refl) as E. by simplify_eq.
    + destruct Hv' as [[= -> -> ->]|[_ ?]]; done.
Qed.

(** ** What the operations do to the list of items, most recent first *)

Definition spec_Put (max k : Z) (v : option V) l : list (Item V) :=
  if bool_decide (k ∈ Key <$> l) then mkItem k v :: key_ne k l
  else
    let l' := mkItem k v :: l in
    if negb (max =? 0) && (max <? Z.of_nat (length l')) then drop_last l' else l'.

Lemma Put_update_spec c k e v : lru_ok c → cache c !! k = Some e →
  lru_ok (Lru.Put c k v) ∧ Lru.Elems (Lru.Put c k v) = mkItem k v :: key_ne k (Lru.Elems c).
Proof.
  intros Hc Hk. unfold Lru.Put. rewrite Hk.
  destruct (MoveToFront_spec c k e Hc Hk) as (v0 & _ & -> & Hm). revert Hm.
  set (els := filter (λ p, p.1 ≠ e) (gl_elems (ll c))). intros Hm.
  assert (Hels : (λ p : nat * Item V, if (p.1 =? e)%nat then (p.1, mkItem (Key p.2) v) else p) <$> els = els).
  { rewrite <-(list_fmap_id els) at 2. apply list_fmap_ext. intros i p Hp%list_elem_of_lookup_2.
    apply list_elem_of_filter in Hp as [Hp _]. by rewrite (proj2 (Nat.eqb_neq _ _)). }
  unfold gl_update. cbn [gl_next gl_elems fmap list_fmap fst snd Key].
  rewrite Nat.eqb_refl, Hels. split.
  - pose proof (lo_handles _ Hm) as H1. pose proof (lo_fresh _ Hm) as H2.
    pose proof (lo_cache _ Hm) as H3. simpl in H1, H2, H3. split; simpl; [done| |].
    + intros e' x [[= -> ->]|Hx]%elem_of_cons; [by eapply H2; left|by eapply H2; right].
    + intros k' e'. rewrite H3. setoid_rewrite elem_of_cons. split; intros [v' [E|Hv']].
      * simplify_eq. eexists. by left.
      * exists v'. by right.
      * simplify_eq. eexists. by left.
      * exists v'. by right.
  - unfold Lru.Elems at 1. simpl. f_equal. by apply filter_handle.
Qed.

Lemma Put_new_ok c k v : lru_ok c → cache c !! k = None →
  let '(ele, ll') := gl_PushFront (mkItem k v) (ll c) in
  lru_ok (mkLRU (maxCount c) ll' (<[k := ele]> (cache c))).
Proof.
  intros Hc Hk. split; simpl.
  - apply NoDup_cons. split; [|apply Hc].
    intros ([e x] & E & Hp)%list_elem_of_fmap. apply (lo_fresh _ Hc) in Hp. simpl in E. lia.
  - intros e x [[= -> ->]|Hx]%elem_of_cons; [lia|]. apply (lo_fresh _ Hc) in Hx. lia.
  - intros k' e. rewrite lookup_insert_Some, (lo_cache _ Hc). setoid_rewrite elem_of_cons. split.
    + intros [[<- <-]|[_ [v' Hv']]]; [eexists; by left|exists v'; by right].
    + intros [v' [E|Hv']]; [simplify_eq; by left|]. right. split; [|eauto].
      intros ->. pose proof (lru_item c _ Hc Hv') as Hk'. simpl in Hk'. congruence.
Qed.

Lemma Put_spec c k v : lru_ok c →
  lru_ok (Lru.Put c k v) ∧ maxCount (Lru.Put c k v) = maxCount c ∧
  Lru.Elems (Lru.Put c k v) = spec_Put (maxCount c) k v (Lru.Elems c).
Proof.
  intros Hc. pose proof (lru_contains c k Hc) as Hk. unfold Lru.contains in Hk.
  rewrite bool_decide_eq_true in Hk. unfold spec_Put.
  destruct (cache c !! k) as [e|] eqn:E.
  - rewrite bool_decide_eq_true_2 by (apply Hk; eauto).
    destruct (Put_update_spec c k e v Hc E) as [? ?]. split_and!; [done| |done].
    unfold Lru.Put. by rewrite E.
  - rewrite bool_decide_eq_false_2 by (intros H%Hk; by destruct H).
    pose proof (Put_new_ok c k v Hc E) as Hn. unfold Lru.Put. rewrite E.
    cbn [gl_PushFront] in *.
    match type of Hn with lru_ok ?c1 => set (c' := c1) in *; assert (Lru.Elems c' = mkItem k v :: Lru.Elems c) as El by done end.
    assert (gl_Len (ll c') = Z.of_nat (length (mkItem k v :: Lru.Elems c))) as Hlen.
    { unfold gl_Len. rewrite <-El. unfold Lru.Elems. by rewrite length_fmap. }
    change (maxCount c') with (maxCount c). rewrite Hlen.
    destruct (negb (maxCount c =? 0) && _); [|by rewrite El].
    destruct (removeOldest_spec c' Hn) as (? & ? & ->). by rewrite El.
Qed.

Lemma Get_spec c k : lru_ok c →
  let '(v, ok, c') := Lru.Get c k in
  lru_ok c' ∧ maxCount c' = maxCount c ∧ (v, ok) = Lru.Peek c k ∧
  (ok = true → mkItem k v ∈ Lru.Elems c ∧ Lru.Elems c' = mkItem k v :: key_ne k (Lru.Elems c)) ∧
  (ok = false → (k ∉ Key <$> Lru.Elems c) ∧ c' = c).
Proof.
  intros Hc. pose proof (lru_contains c k Hc) as Hk. unfold Lru.contains in Hk.
  rewrite bool_decide_eq_true in Hk. unfold Lru.Get, Lru.Peek.
  destruct (cache c !! k) as [e|] eqn:E.
  - destruct (MoveToFront_spec c k e Hc E) as (v & Hin & Hm & Hok).
    destruct (lru_lookup c k e Hc E) as (v' & Hv' & Hin' & _).
    assert (v' = v) as ->.
    { pose proof (NoDup_fmap_inj Key _ _ _ (lru_keys_NoDup c Hc) Hin Hin' eq_refl). by simplify_eq. }
    assert (gl_value (gl_MoveToFront e (ll c)) e = Some (mkItem k v)) as ->.
    { apply (gl_value_Some _ _ _ (lo_handles _ Hok)). simpl. rewrite Hm. simpl. by left. }
    rewrite Hv'. cbn. split_and!; [done..| |done]. intros _. split; [done|].
    unfold Lru.Elems at 1. simpl. rewrite Hm. simpl. f_equal. by apply filter_handle.
  - split_and!; [done..|]. intros _. split; [|done]. intros H%Hk. by destruct H.
Qed.

Lemma remove_spec c k : lru_ok c →
  let '(ok, c') := Lru.remove c k in
  ok = Lru.contains c k ∧ lru_ok c' ∧ maxCount c' = maxCount c ∧ Lru.Elems c' = key_ne k (Lru.Elems c).
Proof.
  intros Hc. pose proof (lru_contains c k Hc) as Hk. unfold Lru.remove. unfold Lru.contains in *.
  destruct (cache c !! k) as [e|] eqn:E.
  - by destruct (removeElement_spec c k e Hc E) as (? & ? & ?).
  - split_and!; [done..|]. symmetry. apply key_ne_id. intros H%Hk. by rewrite bool_decide_eq_true in H; destruct H.
Qed.
End lru.

(** ** The laws of the interface

    A cache holds items with distinct keys; a put item is in the cache and every
    other item was there before, [Get] and [Peek] return the item of a key or
    miss, [Remove] drops the key, and the size stays within the capacity. *)

Class CacheLaws (V C : Type) `{!Cache V C} := {
  c_ok : C → Prop;
  c_cap : C → Z;
  c_keys_law c : c_ok c → NoDup (Key <$> c_Elems c);
  c_Len_law c : c_ok c → c_Len c = Z.of_nat (length (c_Elems c));
  c_cap_law c : c_ok c → c_Len c ≤ c_cap c;
  c_Put_law c k v : c_ok c →
    c_ok (c_Put c k v) ∧ c_cap (c_Put c k v) = c_cap c ∧ mkItem k v ∈ c_Elems (c_Put c k v) ∧
    ∀ it, it ∈ c_Elems (c_Put c k v) → it = mkItem k v ∨ (it ∈ c_Elems c ∧ Key it ≠ k);
  c_Get_law c k : c_ok c →
    let '(v, ok, c') := c_Get c k in
    c_ok c' ∧ c_cap c' = c_cap c ∧ c_Elems c' ≡ₚ c_Elems c ∧ (v, ok) = c_Peek c k;
  c_Peek_law c k : c_ok c →
    let '(v, ok) := c_Peek c k in
    (ok = true → mkItem k v ∈ c_Elems c) ∧ (ok = false → k ∉ Key <$> c_Elems c);
  c_Remove_law c k : c_ok c →
    c_ok (c_Remove c k) ∧ c_cap (c_Remove c k) = c_cap c ∧
    ∀ it, it ∈ c_Elems (c_Remove c k) ↔ it ∈ c_Elems c ∧ Key it ≠ k;
}.

(** ** LRU implements the interface *)

Section lru_laws.
Context {V : Type}.
Implicit Types (c : LRU V) (l : list (Item V)).

Lemma elem_of_key_ne k l it : it ∈ key_ne k l ↔ it ∈ l ∧ Key it ≠ k.
Proof. unfold key_ne. rewrite list_elem_of_filter. tauto. Qed.

Lemma length_key_ne_le k l : (length (key_ne k l) ≤ length l)%nat.
Proof. apply length_filter. Qed.

Lemma length_key_ne k l : NoDup (Key <$> l) → k ∈ Key <$> l → S (length (key_ne k l)) = length l.
Proof.
  induction l as [|x l IH]; simpl; [by intros _ H%elem_of_nil|].
  intros [Hx Hnd]%NoDup_cons [->|Hk]%elem_of_cons; unfold key_ne in *; rewrite filter_cons.
  - rewrite decide_False by (intros H; by apply H). fold (key_ne (Key x) l). by rewrite key_ne_id.
  - rewrite decide_True by (intros E; apply Hx; by rewrite E). simpl. by rewrite IH.
Qed.

Lemma key_ne_perm k v l : NoDup (Key <$> l) → mkItem k v ∈ l → mkItem k v :: key_ne k l ≡ₚ l.
Proof.
  induction l as [|x l IH]; simpl; [by intros _ H%elem_of_nil|].
  intros [Hx Hnd]%NoDup_cons [<-|Hk]%elem_of_cons; unfold key_ne in *; rewrite filter_cons.
  - simpl. rewrite decide_False by (intros H; by apply H). fold (key_ne k l).
    simpl in Hx. by rewrite key_ne_id.
  - rewrite decide_True by (intros E; apply Hx; rewrite E; apply list_elem_of_fmap; by exists (mkItem k v)).
    rewrite Permutation_swap. constructor. by apply IH.
Qed.

Lemma drop_last_in {A} (l : list A) x : x ∈ drop_last l → x ∈ l.
Proof. unfold drop_last. intros H. rewrite <-(take_drop (length l - 1) l). apply elem_of_app. by left. Qed.

Lemma length_drop_last {A} (l : list A) : length (drop_last l) = (length l - 1)%nat.
Proof. unfold drop_last. rewrite length_take. lia. Qed.

(** The items after a [Put] into a list that respects the limit. *)
Lemma spec_Put_spec max k v l : NoDup (Key <$> l) → 1 ≤ max → Z.of_nat (length l) ≤ max →
  mkItem k v ∈ spec_Put max k v l ∧
  (∀ it, it ∈ spec_Put max k v l → it = mkItem k v ∨ (it ∈ l ∧ Key it ≠ k)) ∧
  Z.of_nat (length (spec_Put max k v l)) ≤ max ∧
  (k ∉ Key <$> l → Z.of_nat (length l) < max → spec_Put max k v l = mkItem k v :: l).
Proof.
  intros Hnd Hm Hl. unfold spec_Put. case_bool_decide as Hk.
  - split_and!; [by left| | |done].
    + intros it [->|[? ?]%elem_of_key_ne]%elem_of_cons; auto.
    + simpl. pose proof (length_key_ne k l Hnd Hk). lia.
  - rewrite (proj2 (Z.eqb_neq max 0)) by lia. cbn [negb andb].
    assert (Hin : ∀ it, it ∈ mkItem k v :: l → it = mkItem k v ∨ (it ∈ l ∧ Key it ≠ k)).
    { intros it [->|Hit]%elem_of_cons; [by left|right]. split; [done|]. intros E. apply Hk, list_elem_of_fmap. eauto. }
    destruct (Z.ltb_spec max (Z.of_nat (length (mkItem k v :: l)))) as [H|H]; simpl in H.
    + split_and!; [|intros it Hit; by apply Hin, drop_last_in| |lia].
      * destruct l as [|x l]; [simpl in H; lia|]. unfold drop_last. simpl. by left.
      * rewrite length_drop_last. simpl. lia.
    + split_and!; [by left|done| |done]. simpl. lia.
Qed.

Definition lru_cap_ok c : Prop := lru_ok c ∧ 1 ≤ maxCount c ∧ Z.of_nat (length (Lru.Elems c)) ≤ maxCount c.

#[export, refine] Instance LRU_laws : CacheLaws V (LRU V) := {
  c_ok := lru_cap_ok;
  c_cap := maxCount;
}.
Proof.
  - intros c [Hc _]. by apply lru_keys_NoDup.
  - intros c _. cbn. unfold Lru.Len, gl_Len, Lru.Elems. by rewrite length_fmap.
  - intros c (_ & _ & H). cbn. unfold Lru.Len, gl_Len. unfold Lru.Elems in H. by rewrite length_fmap in H.
  - intros c k v (Hc & Hm & Hl). destruct (Put_spec c k v Hc) as (Hc' & Em & El).
    destruct (spec_Put_spec (maxCount c) k v (Lru.Elems c)) as (H1 & H2 & H3 & _);
      [by apply lru_keys_NoDup|done|done|].
    cbn. unfold lru_cap_ok. rewrite El, Em. done.
  - intros c k (Hc & Hm & Hl). cbn. pose proof (Get_spec c k Hc) as Hg.
    destruct (Lru.Get c k) as [[v ok] c']. destruct Hg as (Hc' & Em & Ep & Ht & Hf).
    assert (Lru.Elems c' ≡ₚ Lru.Elems c) as Hp.
    { destruct ok; [destruct (Ht eq_refl) as [? ->]|by destruct (Hf eq_refl) as [_ ->]].
      apply key_ne_perm; [by apply lru_keys_NoDup|done]. }
    split_and!; [split_and!; [done|lia|rewrite Hp; lia]|done..].
  - intros c k (Hc & _ & _). cbn. pose proof (Get_spec c k Hc) as Hg.
    destruct (Lru.Get c k) as [[v ok] c']. destruct Hg as (_ & _ & <- & Ht & Hf).
    split; [intros H; by apply Ht|intros H; by apply Hf].
  - intros c k (Hc & Hm & Hl). cbn. unfold Lru.Remove. pose proof (remove_spec c k Hc) as Hr.
    destruct (Lru.remove c k) as [ok c']. destruct Hr as (_ & Hc' & Em & El). simpl.
    split_and!; [|done|].
    + split_and!; [done|lia|]. rewrite El, Em. pose proof (length_key_ne_le k (Lru.Elems c)). lia.
    + intros it. by rewrite El, elem_of_key_ne.
Defined.
End lru_laws.

(** ** 2Q implements the interface *)

Section two_queue.
Context {V : Type}.
Implicit Types (c : TwoQueue V) (r f g : LRU V).

Definition lkeys (c : LRU V) : list Z := Key <$> Lru.Elems c.

(** The three lists have no key in common, and recent and frequent together
    respect the size. *)
Record tq_ok c : Prop := {
  to_recent : lru_ok (recent c);
  to_frequent : lru_ok (frequent c);
  to_ghost : lru_ok (ghost c);
  to_size : 1 ≤ tq_size c;
  to_recentSize : 0 ≤ tq_recentSize c < tq_size c;
  to_maxr : maxCount (recent c) = tq_size c;
  to_maxf : maxCount (frequent c) = tq_size c;
  to_maxg : 0 ≤ maxCount (ghost c);
  to_rf k : k ∈ lkeys (recent c) → k ∉ lkeys (frequent c);
  to_rg k : k ∈ lkeys (recent c) → k ∉ lkeys (ghost c);
  to_fg k : k ∈ lkeys (frequent c) → k ∉ lkeys (ghost c);
  to_len : Lru.Len (recent c) + Lru.Len (frequent c) ≤ tq_size c;
  to_glen : maxCount (ghost c) ≠ 0 → Lru.Len (ghost c) ≤ maxCount (ghost c);
}.

Lemma Len_Elems (c : LRU V) : Lru.Len c = Z.of_nat (length (Lru.Elems c)).
Proof. unfold Lru.Len, gl_Len, Lru.Elems. by rewrite length_fmap. Qed.

(** Inserting a key that is not there into a list with room. *)
Lemma Put_fresh (c : LRU V) k v : lru_ok c → 1 ≤ maxCount c → k ∉ lkeys c → Lru.Len c < maxCount c →
  lru_ok (Lru.Put c k v) ∧ maxCount (Lru.Put c k v) = maxCount c ∧
  Lru.Elems (Lru.Put c k v) = mkItem k v :: Lru.Elems c.
Proof.
  intros Hc Hm Hk Hl. rewrite Len_Elems in Hl. destruct (Put_spec c k v Hc) as (H1 & H2 & ->).
  destruct (spec_Put_spec (maxCount c) k v (Lru.Elems c)) as (_ & _ & _ & ->);
    [by apply lru_keys_NoDup|done|lia|done|done|done].
Qed.

(** Inserting into the ghost list: its keys are among the old ones and [k]. *)
Lemma Put_ghost g k v : lru_ok g → 0 ≤ maxCount g → k ∉ lkeys g →
  (maxCount g ≠ 0 → Lru.Len g ≤ maxCount g) →
  lru_ok (Lru.Put g k v) ∧ maxCount (Lru.Put g k v) = maxCount g ∧
  (∀ k', k' ∈ lkeys (Lru.Put g k v) → k' = k ∨ k' ∈ lkeys g) ∧
  (maxCount g ≠ 0 → Lru.Len (Lru.Put g k v) ≤ maxCount g).
Proof.
  intros Hg Hm Hk Hl. destruct (Put_spec g k v Hg) as (H1 & H2 & H3). split_and!; [done..| |].
  - intros k' (it & -> & Hit)%list_elem_of_fmap. rewrite H3 in Hit. unfold spec_Put in Hit.
    rewrite bool_decide_eq_false_2 in Hit by done. cbv zeta in Hit.
    assert (it ∈ mkItem k v :: Lru.Elems g) as [->|Hin]%elem_of_cons
      by (destruct (negb _ && _); [by apply drop_last_in|done]); [by left|].
    right. apply list_elem_of_fmap. eauto.
  - intros Hne. rewrite Len_Elems, H3.
    destruct (spec_Put_spec (maxCount g) k v (Lru.Elems g)) as (_ & _ & ? & _);
      [by apply lru_keys_NoDup|lia|rewrite <-Len_Elems; auto|done].
Qed.

(** An item of the list has its key in it. *)
Lemma item_key (c : LRU V) it : it ∈ Lru.Elems c → Key it ∈ lkeys c.
Proof. intros. apply list_elem_of_fmap. eauto. Qed.

Lemma sub_keys (c c' : LRU V) k :
  (∀ it, it ∈ Lru.Elems c' → it ∈ Lru.Elems c) → k ∈ lkeys c' → k ∈ lkeys c.
Proof. intros H (it & -> & Hit)%list_elem_of_fmap. apply list_elem_of_fmap. eauto. Qed.

Definition makes_room c c' : Prop :=
  tq_ok c' ∧ tq_size c' = tq_size c ∧ Lru.Len (recent c') + Lru.Len (frequent c') < tq_size c ∧
  (∀ it, it ∈ Lru.Elems (recent c') → it ∈ Lru.Elems (recent c)) ∧
  (∀ it, it ∈ Lru.Elems (frequent c') → it ∈ Lru.Elems (frequent c)) ∧
  (∀ k, k ∈ lkeys (ghost c') → k ∈ lkeys (ghost c) ∨ k ∈ lkeys (recent c)).

(** Evicting the oldest recent item into the ghost list. *)
Lemma evict_recent c : tq_ok c → 0 < Lru.Len (recent c) →
  let '(k, _, _, r) := Lru.getAndRemoveOldest (recent c) in
  makes_room c (TwoQ.with_ghost (Lru.Put (ghost c) k None) (TwoQ.with_recent r c)).
Proof.
  intros Hc Hl. rewrite Len_Elems in Hl. pose proof (to_recent _ Hc) as Hr.
  destruct (Lru.Elems (recent c)) as [|it l _] eqn:E using rev_ind; [simpl in Hl; lia|].
  destruct (getAndRemoveOldest_spec (recent c) l it Hr E) as (r' & -> & Hr' & Em & El).
  assert (Hit : Key it ∈ lkeys (recent c)) by (apply item_key; rewrite E; set_solver).
  assert (Hsub : ∀ x, x ∈ Lru.Elems r' → x ∈ Lru.Elems (recent c))
    by (intros x; rewrite El, E; set_solver).
  assert (Hnot : Key it ∉ lkeys r').
  { pose proof (lru_keys_NoDup _ Hr) as Hnd. rewrite E, fmap_app in Hnd.
    apply NoDup_app in Hnd as (_ & Hd & _). unfold lkeys. rewrite El. intros H. apply (Hd _ H). simpl. by left. }
  destruct (Put_ghost (ghost c) (Key it) None) as (Hg & Emg & Hgk & Hgl);
    [apply Hc|apply Hc|by apply Hc|apply Hc|].
  pose proof (to_len _ Hc) as Hlen. rewrite Len_Elems, E, length_app in Hlen. simpl in Hlen.
  assert (Lru.Len r' + Lru.Len (frequent c) < tq_size c) by (rewrite (Len_Elems r'), El; lia).
  unfold makes_room. cbn [TwoQ.with_ghost TwoQ.with_recent recent frequent ghost tq_size].
  split_and!; [|done..|intros k [->|?]%Hgk; auto].
  split; cbn [TwoQ.with_ghost TwoQ.with_recent recent frequent ghost tq_size tq_recentSize]; try apply Hc; try done.
  - by rewrite Em; apply Hc.
  - rewrite Emg. apply Hc.
  - intros k Hk. eapply (to_rf _ Hc), sub_keys; done.
  - intros k Hk [->|Hk']%Hgk; [done|]. revert Hk'. eapply (to_rg _ Hc), sub_keys; done.
  - intros k Hk [->|Hk']%Hgk; [by apply (to_rf _ Hc) in Hit|]. by revert Hk'; apply (to_fg _ Hc).
  - lia.
  - rewrite Emg. done.
Qed.

Lemma evict_frequent c : tq_ok c → 0 < Lru.Len (frequent c) →
  makes_room c (TwoQ.with_frequent (Lru.removeOldest (frequent c)) c).
Proof.
  intros Hc Hl. destruct (removeOldest_spec (frequent c) (to_frequent _ Hc)) as (Hf & Em & El).
  assert (Hsub : ∀ x, x ∈ Lru.Elems (Lru.removeOldest (frequent c)) → x ∈ Lru.Elems (frequent c))
    by (intros x; rewrite El; apply drop_last_in).
  pose proof (to_len _ Hc). rewrite (Len_Elems (frequent c)) in *.
  assert (Lru.Len (Lru.removeOldest (frequent c)) = Z.of_nat (length (Lru.Elems (frequent c))) - 1) as Hn
    by (rewrite Len_Elems, El, length_drop_last; lia).
  unfold makes_room. cbn [TwoQ.with_frequent recent frequent ghost tq_size].
  split_and!; [|done|lia|done|done|auto].
  split; cbn [TwoQ.with_frequent recent frequent ghost tq_size tq_recentSize]; try apply Hc; try done.
  - rewrite Em. apply Hc.
  - intros k Hk Hk'. by eapply (to_rf _ Hc k), sub_keys.
  - intros k Hk. eapply (to_fg _ Hc), sub_keys; done.
  - lia.
Qed.

Lemma ensureSpace_spec c b : tq_ok c → makes_room c (TwoQ.ensureSpace c b).
Proof.
  intros Hc. unfold TwoQ.ensureSpace.
  destruct (Z.ltb_spec (Lru.Len (recent c) + Lru.Len (frequent c)) (tq_size c)).
  { unfold makes_room. split_and!; auto. }
  pose proof (to_recentSize _ Hc). pose proof (evict_recent c Hc) as Hr.
  destruct (Z.ltb_spec 0 (Lru.Len (recent c))); cbn [andb];
    [|apply evict_frequent; [done|lia]].
  destruct ((tq_recentSize c <? Lru.Len (recent c)) || _) eqn:E.
  - destruct (Lru.getAndRemoveOldest (recent c)) as [[[k ?] ?] r]. by apply Hr.
  - apply orb_false_iff in E as [E _]. apply Z.ltb_ge in E. apply evict_frequent; [done|lia].
Qed.

Lemma Remove_lru (c : LRU V) k : lru_ok c →
  lru_ok (Lru.Remove c k) ∧ maxCount (Lru.Remove c k) = maxCount c ∧
  Lru.Elems (Lru.Remove c k) = key_ne k (Lru.Elems c) ∧ (k ∉ lkeys (Lru.Remove c k)) ∧
  Lru.Len (Lru.Remove c k) ≤ Lru.Len c ∧ (k ∈ lkeys c → Lru.Len (Lru.Remove c k) < Lru.Len c).
Proof.
  intros Hc. pose proof (remove_spec c k Hc) as Hr. unfold Lru.Remove.
  destruct (Lru.remove c k) as [ok c']. destruct Hr as (_ & ? & ? & El). cbn [snd].
  rewrite !Len_Elems, El. split_and!; [done..| | |].
  - intros (it & -> & Hit)%list_elem_of_fmap. rewrite El in Hit. by apply elem_of_key_ne in Hit as [_ ?].
  - pose proof (length_key_ne_le k (Lru.Elems c)). lia.
  - intros Hk. pose proof (length_key_ne k (Lru.Elems c) (lru_keys_NoDup c Hc) Hk). lia.
Qed.

Lemma Remove_sub (c : LRU V) k : lru_ok c → ∀ it, it ∈ Lru.Elems (Lru.Remove c k) → it ∈ Lru.Elems c.
Proof. intros Hc it. destruct (Remove_lru c k Hc) as (_ & _ & -> & _). rewrite elem_of_key_ne. tauto. Qed.

(** Removing a key from one of the lists. *)
Lemma with_recent_remove c k : tq_ok c → tq_ok (TwoQ.with_recent (Lru.Remove (recent c) k) c).
Proof.
  intros Hc. destruct (Remove_lru (recent c) k (to_recent _ Hc)) as (? & Em & _ & _ & ? & _).
  pose proof (Remove_sub (recent c) k (to_recent _ Hc)). pose proof (to_len _ Hc).
  split; cbn [TwoQ.with_recent recent frequent ghost tq_size tq_recentSize]; try apply Hc; try done.
  - rewrite Em. apply Hc.
  - intros k' Hk. eapply (to_rf _ Hc), sub_keys; done.
  - intros k' Hk. eapply (to_rg _ Hc), sub_keys; done.
  - lia.
Qed.

Lemma with_frequent_remove c k : tq_ok c → tq_ok (TwoQ.with_frequent (Lru.Remove (frequent c) k) c).
Proof.
  intros Hc. destruct (Remove_lru (frequent c) k (to_frequent _ Hc)) as (? & Em & _ & _ & ? & _).
  pose proof (Remove_sub (frequent c) k (to_frequent _ Hc)). pose proof (to_len _ Hc).
  split; cbn [TwoQ.with_frequent recent frequent ghost tq_size tq_recentSize]; try apply Hc; try done.
  - rewrite Em. apply Hc.
  - intros k' Hk Hk'. by eapply (to_rf _ Hc k'), sub_keys.
  - intros k' Hk. eapply (to_fg _ Hc), sub_keys; done.
  - lia.
Qed.

Lemma with_ghost_remove c k : tq_ok c → tq_ok (TwoQ.with_ghost (Lru.Remove (ghost c) k) c).
Proof.
  intros Hc. destruct (Remove_lru (ghost c) k (to_ghost _ Hc)) as (? & Em & _ & _ & ? & _).
  pose proof (Remove_sub (ghost c) k (to_ghost _ Hc)). pose proof (to_glen _ Hc).
  split; cbn [TwoQ.with_ghost recent frequent ghost tq_size tq_recentSize]; try apply Hc; try done.
  - rewrite Em. apply Hc.
  - intros k' Hk Hk'. by eapply (to_rg _ Hc k'), sub_keys.
  - intros k' Hk Hk'. by eapply (to_fg _ Hc k'), sub_keys.
  - rewrite Em. lia.
Qed.

Definition absent k c : Prop :=
  (k ∉ lkeys (recent c)) ∧ (k ∉ lkeys (frequent c)) ∧ (k ∉ lkeys (ghost c)).

Definition inserted c c' k v : Prop :=
  tq_ok c' ∧ tq_size c' = tq_size c ∧ mkItem k v ∈ TwoQ.Elems c' ∧
  ∀ it, it ∈ TwoQ.Elems c' → it = mkItem k v ∨ (it ∈ TwoQ.Elems c ∧ Key it ≠ k).

Lemma elem_Elems c it : it ∈ TwoQ.Elems c ↔ it ∈ Lru.Elems (recent c) ∨ it ∈ Lru.Elems (frequent c).
Proof. unfold TwoQ.Elems. apply elem_of_app. Qed.

Lemma absent_item c k it : absent k c → it ∈ TwoQ.Elems c → Key it ≠ k.
Proof. intros (Hr & Hf & _) [?|?]%elem_Elems <-; [apply Hr|apply Hf]; by apply item_key. Qed.

(** Putting an absent key into the frequent or the recent list. *)
Lemma insert_frequent c k v : tq_ok c → absent k c →
  Lru.Len (recent c) + Lru.Len (frequent c) < tq_size c →
  inserted c (TwoQ.with_frequent (Lru.Put (frequent c) k v) c) k v.
Proof.
  intros Hc Ha Hl. pose proof Ha as (Hr & Hf & Hg). pose proof (to_maxf _ Hc). pose proof (to_size _ Hc).
  pose proof (Len_Elems (recent c)).
  destruct (Put_fresh (frequent c) k v) as (Hok & Em & El); [apply Hc|lia|done|lia|].
  assert (Hk : ∀ k', k' ∈ lkeys (Lru.Put (frequent c) k v) ↔ k' = k ∨ k' ∈ lkeys (frequent c))
    by (intros k'; unfold lkeys; rewrite El; simpl; apply elem_of_cons).
  split_and!; [|done|..].
  - split; cbn [TwoQ.with_frequent recent frequent ghost tq_size tq_recentSize]; try apply Hc; try done.
    + rewrite Em. apply Hc.
    + intros k' Hk'. rewrite Hk. intros [->|?]; [done|]. by apply (to_rf _ Hc k').
    + intros k'. rewrite Hk. intros [->|?]; [done|]. by apply (to_fg _ Hc k').
    + rewrite (Len_Elems (Lru.Put _ _ _)), El. simpl. rewrite (Len_Elems (frequent c)) in Hl. lia.
  - apply elem_Elems. right. simpl. rewrite El. by left.
  - intros it [Hi|Hi]%elem_Elems; simpl in Hi; [right; split; [apply elem_Elems; by left|]|].
    + eapply absent_item; [done|]. apply elem_Elems. by left.
    + rewrite El in Hi. apply elem_of_cons in Hi as [->|Hi]; [by left|right].
      split; [apply elem_Elems; by right|]. eapply absent_item; [done|]. apply elem_Elems. by right.
Qed.

Lemma insert_recent c k v : tq_ok c → absent k c →
  Lru.Len (recent c) + Lru.Len (frequent c) < tq_size c →
  inserted c (TwoQ.with_recent (Lru.Put (recent c) k v) c) k v.
Proof.
  intros Hc Ha Hl. pose proof Ha as (Hr & Hf & Hg). pose proof (to_maxr _ Hc). pose proof (to_size _ Hc).
  pose proof (Len_Elems (frequent c)).
  destruct (Put_fresh (recent c) k v) as (Hok & Em & El); [apply Hc|lia|done|lia|].
  assert (Hk : ∀ k', k' ∈ lkeys (Lru.Put (recent c) k v) ↔ k' = k ∨ k' ∈ lkeys (recent c))
    by (intros k'; unfold lkeys; rewrite El; simpl; apply elem_of_cons).
  split_and!; [|done|..].
  - split; cbn [TwoQ.with_recent recent frequent ghost tq_size tq_recentSize]; try apply Hc; try done.
    + rewrite Em. apply Hc.
    + intros k'. rewrite Hk. intros [->|?]; [done|]. by apply (to_rf _ Hc k').
    + intros k'. rewrite Hk. intros [->|?]; [done|]. by apply (to_rg _ Hc k').
    + rewrite (Len_Elems (Lru.Put _ _ _)), El. simpl. rewrite (Len_Elems (recent c)) in Hl. lia.
  - apply elem_Elems. left. simpl. rewrite El. by left.
  - intros it [Hi|Hi]%elem_Elems; simpl in Hi; [|right; split; [apply elem_Elems; by right|]].
    + rewrite El in Hi. apply elem_of_cons in Hi as [->|Hi]; [by left|right].
      split; [apply elem_Elems; by left|]. eapply absent_item; [done|]. apply elem_Elems. by left.
    + eapply absent_item; [done|]. apply elem_Elems. by right.
Qed.

(** Updating a key of the frequent list. *)
Lemma update_frequent c k v : tq_ok c → k ∈ lkeys (frequent c) →
  inserted c (TwoQ.with_frequent (Lru.Put (frequent c) k v) c) k v.
Proof.
  intros Hc Hk. destruct (Put_spec (frequent c) k v (to_frequent _ Hc)) as (Hok & Em & El).
  unfold spec_Put in El. rewrite bool_decide_eq_true_2 in El by done.
  pose proof (length_key_ne k _ (lru_keys_NoDup _ (to_frequent _ Hc)) Hk) as Hlen.
  assert (Hkeys : ∀ k', k' ∈ lkeys (Lru.Put (frequent c) k v) → k' ∈ lkeys (frequent c)).
  { intros k' (it & -> & Hit)%list_elem_of_fmap. rewrite El in Hit.
    apply elem_of_cons in Hit as [->|[? _]%elem_of_key_ne]; [done|by apply item_key]. }
  split_and!; [|done|..].
  - split; cbn [TwoQ.with_frequent recent frequent ghost tq_size tq_recentSize]; try apply Hc; try done.
    + rewrite Em. apply Hc.
    + intros k' Hr Hf%Hkeys. by apply (to_rf _ Hc k').
    + intros k' Hf%Hkeys. by apply (to_fg _ Hc).
    + pose proof (to_len _ Hc). rewrite (Len_Elems (Lru.Put _ _ _)), El. simpl.
      rewrite (Len_Elems (frequent c)) in *. lia.
  - apply elem_Elems. right. simpl. rewrite El. by left.
  - intros it [Hi|Hi]%elem_Elems; simpl in Hi.
    + right. split; [apply elem_Elems; by left|]. intros <-. apply (to_rf _ Hc (Key it)); [by apply item_key|done].
    + rewrite El in Hi. apply elem_of_cons in Hi as [->|[Hi ?]%elem_of_key_ne]; [by left|right].
      split; [apply elem_Elems; by right|done].
Qed.

Lemma inserted_weaken c c1 c' k v : inserted c1 c' k v → tq_size c1 = tq_size c →
  (∀ it, it ∈ TwoQ.Elems c1 → it ∈ TwoQ.Elems c) → inserted c c' k v.
Proof.
  intros (? & ? & ? & Hin) Hs Hsub. split_and!; [done|lia|done|].
  intros it [->|[? ?]]%Hin; [by left|right; auto].
Qed.

(** A key with no recent copy may be moved into the frequent list. *)
Lemma promote c k v : tq_ok c → k ∈ lkeys (recent c) →
  inserted c (let c1 := TwoQ.with_recent (Lru.Remove (recent c) k) c in
              TwoQ.with_frequent (Lru.Put (frequent c1) k v) c1) k v.
Proof.
  intros Hc Hk. destruct (Remove_lru (recent c) k (to_recent _ Hc)) as (_ & _ & _ & Hnk & _ & Hlt).
  specialize (Hlt Hk). pose proof (to_len _ Hc).
  eapply (inserted_weaken c (TwoQ.with_recent (Lru.Remove (recent c) k) c)).
  - apply insert_frequent; [by apply with_recent_remove| |simpl; lia].
    split_and!; [done|by apply (to_rf _ Hc)|by apply (to_rg _ Hc)].
  - done.
  - intros it [Hi|Hi]%elem_Elems; apply elem_Elems; [left|by right].
    by apply (Remove_sub (recent c) k (to_recent _ Hc)).
Qed.

Lemma TwoQ_Put_spec c k v : tq_ok c → inserted c (TwoQ.Put c k v) k v.
Proof.
  intros Hc. unfold TwoQ.Put.
  pose proof (lru_contains (frequent c) k (to_frequent _ Hc)) as Hf.
  pose proof (lru_contains (recent c) k (to_recent _ Hc)) as Hr.
  pose proof (lru_contains (ghost c) k (to_ghost _ Hc)) as Hg. fold (lkeys (frequent c)) in Hf.
  fold (lkeys (recent c)) in Hr. fold (lkeys (ghost c)) in Hg.
  destruct (Lru.contains (frequent c) k); [by apply update_frequent, Hf|].
  destruct (Lru.contains (recent c) k); [by apply promote, Hr|].
  assert (k ∉ lkeys (frequent c)) as Hnf by (by intros ?%Hf).
  assert (k ∉ lkeys (recent c)) as Hnr by (by intros ?%Hr).
  destruct (Lru.contains (ghost c) k) eqn:Eg.
  - destruct (ensureSpace_spec c true Hc) as (Hc1 & Hs & Hlt & H1 & H2 & _).
    set (c1 := TwoQ.ensureSpace c true) in *.
    eapply (inserted_weaken c (TwoQ.with_ghost (Lru.Remove (ghost c1) k) c1)).
    + apply insert_frequent; [by apply with_ghost_remove| |simpl; lia].
      destruct (Remove_lru (ghost c1) k (to_ghost _ Hc1)) as (_ & _ & _ & ? & _).
      split_and!; simpl; [intros Hx; apply Hnr; by eapply sub_keys|intros Hx; apply Hnf; by eapply sub_keys|done].
    + done.
    + intros it [Hi|Hi]%elem_Elems; apply elem_Elems; [left; by apply H1|right; by apply H2].
  - destruct (ensureSpace_spec c false Hc) as (Hc1 & Hs & Hlt & H1 & H2 & H3).
    set (c1 := TwoQ.ensureSpace c false) in *. eapply (inserted_weaken c c1); [|done|].
    + apply insert_recent; [done| |lia]. assert (k ∉ lkeys (ghost c)) by (by intros ?%Hg).
      split_and!; [intros Hx; apply Hnr; by eapply sub_keys|intros Hx; apply Hnf; by eapply sub_keys|].
      by intros [?|?]%H3.
    + intros it [Hi|Hi]%elem_Elems; apply elem_Elems; [left; by apply H1|right; by apply H2].
Qed.

Lemma Elems_keys_NoDup c : tq_ok c → NoDup (Key <$> TwoQ.Elems c).
Proof.
  intros Hc. unfold TwoQ.Elems. rewrite fmap_app. apply NoDup_app.
  split_and!; [by apply lru_keys_NoDup, Hc|apply (to_rf _ Hc)|by apply lru_keys_NoDup, Hc].
Qed.

(** Reading an item of the frequent list moves it to the front. *)
Lemma Lru_Get_ok (c : LRU V) k : lru_ok c →
  let '(v, ok, c') := Lru.Get c k in
  lru_ok c' ∧ maxCount c' = maxCount c ∧ Lru.Elems c' ≡ₚ Lru.Elems c.
Proof.
  intros Hc. pose proof (Get_spec c k Hc) as Hg. destruct (Lru.Get c k) as [[v ok] c'].
  destruct Hg as (? & ? & _ & Ht & Hf). split_and!; [done..|]. destruct ok.
  - destruct (Ht eq_refl) as [? ->]. by apply key_ne_perm; [apply lru_keys_NoDup|].
  - by destruct (Hf eq_refl) as [_ ->].
Qed.

Lemma with_frequent_perm c f : tq_ok c → lru_ok f → maxCount f = maxCount (frequent c) →
  Lru.Elems f ≡ₚ Lru.Elems (frequent c) → tq_ok (TwoQ.with_frequent f c).
Proof.
  intros Hc Hf Em El.
  assert (∀ k, k ∈ lkeys f ↔ k ∈ lkeys (frequent c)) as Hk by (intros k; unfold lkeys; by rewrite El).
  split; cbn [TwoQ.with_frequent recent frequent ghost tq_size tq_recentSize]; try apply Hc; try done.
  - rewrite Em. apply Hc.
  - intros k. rewrite Hk. apply Hc.
  - intros k. rewrite Hk. apply Hc.
  - rewrite (Len_Elems f), El, <-Len_Elems. apply Hc.
Qed.

Lemma tq_Peek c k : tq_ok c →
  let '(v, ok) := TwoQ.Peek c k in
  (ok = true → mkItem k v ∈ TwoQ.Elems c) ∧ (ok = false → k ∉ Key <$> TwoQ.Elems c).
Proof.
  intros Hc. unfold TwoQ.Peek.
  pose proof (Get_spec (frequent c) k (to_frequent _ Hc)) as Hg.
  destruct (Lru.Get (frequent c) k) as [[v ok] f]. destruct Hg as (_ & _ & <- & Ht & Hf).
  destruct ok; [destruct (Ht eq_refl); split; [|done]; intros _; apply elem_Elems; by right|].
  destruct (Hf eq_refl) as [Hnf _].
  pose proof (Get_spec (recent c) k (to_recent _ Hc)) as Hg.
  destruct (Lru.Get (recent c) k) as [[v' ok'] r]. destruct Hg as (_ & _ & <- & Ht' & Hf').
  destruct ok'; [destruct (Ht' eq_refl); split; [|done]; intros _; apply elem_Elems; by left|].
  destruct (Hf' eq_refl) as [Hnr _]. split; [done|]. intros _.
  unfold TwoQ.Elems. rewrite fmap_app, elem_of_app. tauto.
Qed.

Lemma Peek_miss (c : LRU V) k v : Lru.Peek c k = (v, false) → v = None.
Proof. unfold Lru.Peek. case_match; congruence. Qed.

Lemma tq_Get c k : tq_ok c →
  let '(v, ok, c') := TwoQ.Get c k in
  tq_ok c' ∧ tq_size c' = tq_size c ∧ TwoQ.Elems c' ≡ₚ TwoQ.Elems c ∧ (v, ok) = TwoQ.Peek c k.
Proof.
  intros Hc. unfold TwoQ.Get, TwoQ.Peek.
  pose proof (Get_spec (frequent c) k (to_frequent _ Hc)) as Hg.
  pose proof (Lru_Get_ok (frequent c) k (to_frequent _ Hc)) as Hp.
  destruct (Lru.Get (frequent c) k) as [[v ok] f]. destruct Hg as (_ & _ & <- & Ht & Hf).
  destruct Hp as (Hfok & Em & El). destruct ok.
  { split_and!; [by apply with_frequent_perm|done| |done]. unfold TwoQ.Elems. simpl. by rewrite El. }
  destruct (Hf eq_refl) as [Hnf ->].
  replace (TwoQ.with_frequent (frequent c) c) with c by by destruct c.
  pose proof (Get_spec (recent c) k (to_recent _ Hc)) as Hg.
  destruct (Lru.Get (recent c) k) as [[v' ok'] r]. destruct Hg as (_ & _ & Ep & Ht' & _). rewrite <-Ep.
  destruct ok'; [|symmetry in Ep; by rewrite (Peek_miss _ _ _ Ep)].
  destruct (Ht' eq_refl) as [Hin _].
  destruct (promote c k v' Hc (item_key _ _ Hin)) as (Hok & Hs & _ & _). split_and!; [done..| |done].
  pose proof (Remove_lru (recent c) k (to_recent _ Hc)) as (_ & _ & Er & _ & _ & Hlt).
  specialize (Hlt (item_key _ _ Hin)). pose proof (to_len _ Hc). pose proof (to_maxf _ Hc).
  pose proof (to_size _ Hc). pose proof (Len_Elems (Lru.Remove (recent c) k)).
  destruct (Put_fresh (frequent c) k v' (to_frequent _ Hc)) as (_ & _ & Ef); [lia|done|lia|].
  unfold TwoQ.Elems. simpl. rewrite Er, Ef.
  rewrite <-Permutation_middle. change (?x :: ?a ++ ?b) with ((x :: a) ++ b).
  apply Permutation_app_tail, key_ne_perm; [apply lru_keys_NoDup, Hc|done].
Qed.

Lemma tq_Remove c k : tq_ok c →
  tq_ok (TwoQ.Remove c k) ∧ tq_size (TwoQ.Remove c k) = tq_size c ∧ absent k (TwoQ.Remove c k) ∧
  ∀ it, it ∈ TwoQ.Elems (TwoQ.Remove c k) ↔ it ∈ TwoQ.Elems c ∧ Key it ≠ k.
Proof.
  intros Hc. unfold TwoQ.Remove.
  pose proof (remove_spec (frequent c) k (to_frequent _ Hc)) as Hf.
  pose proof (remove_spec (recent c) k (to_recent _ Hc)) as Hr.
  pose proof (lru_contains (frequent c) k (to_frequent _ Hc)) as Cf.
  pose proof (lru_contains (recent c) k (to_recent _ Hc)) as Cr.
  pose proof (with_frequent_remove c k Hc) as Of. pose proof (with_recent_remove c k Hc) as Or.
  pose proof (with_ghost_remove c k Hc) as Og.
  pose proof (Remove_lru (frequent c) k (to_frequent _ Hc)) as (_ & _ & _ & Nf & _).
  pose proof (Remove_lru (recent c) k (to_recent _ Hc)) as (_ & _ & _ & Nr & _).
  pose proof (Remove_lru (ghost c) k (to_ghost _ Hc)) as (_ & _ & _ & Ng & _).
  unfold Lru.Remove in *.
  destruct (Lru.remove (frequent c) k) as [okf f]. destruct Hf as (Ef & _ & _ & Elf). rewrite <-Ef in Cf.
  fold (lkeys (frequent c)) in Cf. fold (lkeys (recent c)) in Cr. cbn [snd] in *.
  assert (Hne : ∀ (l : LRU V) it, k ∉ lkeys l → it ∈ Lru.Elems l → Key it ≠ k)
    by (intros l it Hn Hi <-; by apply Hn, item_key).
  destruct okf.
  { pose proof (proj1 Cf eq_refl) as Hk.
    assert (k ∉ lkeys (recent c)) as Hnr by (intros ?; by apply (to_rf _ Hc k)).
    split_and!; [done|done|split_and!; [done|done|by apply (to_fg _ Hc)]|].
    intros it. rewrite !elem_Elems. simpl. rewrite Elf, elem_of_key_ne. specialize (Hne (recent c) it Hnr). tauto. }
  assert (k ∉ lkeys (frequent c)) as Hnf by (by intros ?%Cf).
  destruct (Lru.remove (recent c) k) as [okr r]. destruct Hr as (Er & _ & _ & Elr). rewrite <-Er in Cr.
  cbn [snd] in *. pose proof (Hne (frequent c)) as Hnef. destruct okr.
  { pose proof (proj1 Cr eq_refl) as Hk.
    split_and!; [done|done|split_and!; [done|done|by apply (to_rg _ Hc)]|].
    intros it. rewrite !elem_Elems. simpl. rewrite Elr, elem_of_key_ne. specialize (Hnef it Hnf). tauto. }
  assert (k ∉ lkeys (recent c)) as Hnr by (by intros ?%Cr).
  split_and!; [done|done|done|].
  intros it. rewrite !elem_Elems. simpl. specialize (Hnef it Hnf). specialize (Hne (recent c) it Hnr). tauto.
Qed.

#[export, refine] Instance TwoQueue_laws : CacheLaws V (TwoQueue V) := {
  c_ok := tq_ok;
  c_cap := tq_size;
}.
Proof.
  - exact Elems_keys_NoDup.
  - intros c _. cbn. unfold TwoQ.Len, TwoQ.Elems. rewrite length_app, !Len_Elems. lia.
  - intros c Hc. apply (to_len _ Hc).
  - intros c k v Hc. apply (TwoQ_Put_spec c k v Hc).
  - exact tq_Get.
  - exact tq_Peek.
  - intros c k Hc. destruct (tq_Remove c k Hc) as (? & ? & _ & ?). done.
Defined.

Lemma newTwoQueue_ok n : 1 ≤ n → tq_ok (TwoQ.newTwoQueue n).
Proof.
  intros Hn. assert (0 ≤ Z.quot n 4 < n ∧ 0 ≤ Z.quot n 2) as [H4 H2].
  { rewrite !Z.quot_div_nonneg by lia. pose proof (Z.div_pos n 4). pose proof (Z.div_pos n 2).
    pose proof (Z.div_lt n 4). lia. }
  unfold TwoQ.newTwoQueue, TwoQ.newTwoQueueParams. cbn [TwoQ.defaultRecentRatio TwoQ.defaultGhostRatio fst snd].
  rewrite !Z.mul_1_r.
  split; cbn [recent frequent ghost tq_size tq_recentSize]; try apply newLRU_ok; try done;
    try (intros k Hk; by apply elem_of_nil in Hk).
  unfold Lru.Len, gl_Len. simpl. lia.
Qed.
End two_queue.

#[export, refine] Instance threadSafeCache_laws {V} : CacheLaws V (threadSafeCache V) := {
  c_ok c := match c with tsLRU c => c_ok (V:=V) c | tsTwoQueue c => c_ok (V:=V) c end;
  c_cap c := match c with tsLRU c => c_cap (V:=V) c | tsTwoQueue c => c_cap (V:=V) c end;
}.
Proof.
  - intros [c|c]; [apply (c_keys_law (C:=LRU V) c)|apply (c_keys_law (C:=TwoQueue V) c)].
  - intros [c|c]; [apply (c_Len_law (C:=LRU V) c)|apply (c_Len_law (C:=TwoQueue V) c)].
  - intros [c|c]; [apply (c_cap_law (C:=LRU V) c)|apply (c_cap_law (C:=TwoQueue V) c)].
  - intros [c|c]; [apply (c_Put_law (C:=LRU V) c)|apply (c_Put_law (C:=TwoQueue V) c)].
  - intros [c|c] k Hc; cbn.
    + pose proof (c_Get_law (C:=LRU V) c k Hc) as Hg. cbn in Hg. by destruct (Lru.Get c k) as [[??] ?].
    + pose proof (c_Get_law (C:=TwoQueue V) c k Hc) as Hg. cbn in Hg. by destruct (TwoQ.Get c k) as [[??] ?].
  - intros [c|c]; [apply (c_Peek_law (C:=LRU V) c)|apply (c_Peek_law (C:=TwoQueue V) c)].
  - intros [c|c]; [apply (c_Remove_law (C:=LRU V) c)|apply (c_Remove_law (C:=TwoQueue V) c)].
Defined.

(** ** Clients of the interface *)

Inductive cache_op (V : Type) := CPut (k : Z) (v : option V) | CGet (k : Z) | CRemove (k : Z).
Arguments CPut {V}.
Arguments CGet {V}.
Arguments CRemove {V}.

Section client.
Context {V C : Type} `{!Cache V C, !CacheLaws V C}.

Definition cache_step (c : C) (o : cache_op V) : C :=
  match o with
  | CPut k v => c_Put c k v
  | CGet k => (c_Get c k).2
  | CRemove k => c_Remove (V:=V) c k
  end.

(** The value put last under each key and not removed since. *)
Definition last_put (ops : list (cache_op V)) : gmap Z (option V) :=
  foldl (λ m o, match o with
                | CPut k v => <[k := v]> m | CGet _ => m | CRemove k => delete k m end) ∅ ops.

Lemma cache_run c0 ops : c_ok c0 → c_Elems c0 = [] →
  let c := foldl cache_step c0 ops in
  c_ok c ∧ c_cap c = c_cap c0 ∧
  ∀ it, it ∈ c_Elems c → last_put ops !! Key it = Some (Value it).
Proof.
  intros Hc E. induction ops as [|o ops (IH1 & IH2 & IH3)] using rev_ind.
  { split_and!; [done..|]. simpl. rewrite E. intros it H. by apply elem_of_nil in H. }
  unfold last_put. rewrite !foldl_snoc. fold (last_put ops).
  set (c := foldl cache_step c0 ops) in *. destruct o as [k v|k|k]; simpl.
  - destruct (c_Put_law c k v IH1) as (? & ? & _ & Hin). split_and!; [done|lia|].
    intros it [->|[Hit Hne]]%Hin; [by rewrite lookup_insert_eq|].
    rewrite lookup_insert_ne by done. by apply IH3.
  - pose proof (c_Get_law c k IH1) as Hg. destruct (c_Get c k) as [[v ok] c'].
    destruct Hg as (? & ? & Hp & _). simpl. split_and!; [done|lia|].
    intros it. rewrite Hp. apply IH3.
  - destruct (c_Remove_law c k IH1) as (? & ? & Hin). split_and!; [done|lia|].
    intros it [Hit Hne]%Hin. rewrite lookup_delete_ne by done. by apply IH3.
Qed.
End client.

(** A cache of either type and any size from one on never returns a stale
    value: after any sequence of operations [Get] and [Peek] of a key return the
    value put last and not removed, or miss; an item just put is found; keys are
    distinct and the cache never exceeds its size. *)
Theorem cache_coherent {V} (size cacheType : Z) (c0 : threadSafeCache V) (ops : list (cache_op V)) :
  1 ≤ size → NewCache size cacheType = Some c0 →
  let c := foldl cache_step c0 ops in
  (∀ k v, c_Peek c k = (v, true) → last_put ops !! k = Some v) ∧
  (∀ k, (c_Get c k).1 = c_Peek c k) ∧
  (∀ k v, c_Peek (c_Put c k v) k = (v, true)) ∧
  c_Len (V:=V) c ≤ size ∧ NoDup (Key <$> c_Elems c).
Proof.
  intros Hs Hnew c.
  assert (c_ok c0 ∧ c_Elems c0 = [] ∧ c_cap c0 = size) as (Hok & He & Hcap).
  { unfold NewCache in Hnew. repeat case_match; simplify_eq; cbn.
    - split_and!; [|done..]. split_and!; [apply newLRU_ok|done|simpl; lia].
    - split_and!; [by apply newTwoQueue_ok|done..]. }
  destruct (cache_run c0 ops Hok He) as (H1 & H2 & H3). fold c in H1, H2, H3. split_and!.
  - intros k v E. pose proof (c_Peek_law c k H1) as Hp. rewrite E in Hp.
    by apply (H3 (mkItem k v)), Hp.
  - intros k. pose proof (c_Get_law c k H1) as Hg. destruct (c_Get c k) as [[v ok] c'].
    by destruct Hg as (_ & _ & _ & ->).
  - intros k v. destruct (c_Put_law c k v H1) as (Hok' & _ & Hin & _).
    pose proof (c_Peek_law _ k Hok') as Hp. destruct (c_Peek (c_Put c k v) k) as [v' ok].
    destruct ok; [|exfalso; apply (proj2 Hp eq_refl), list_elem_of_fmap; by exists (mkItem k v)].
    pose proof (NoDup_fmap_inj Key _ _ _ (c_keys_law _ Hok') Hin (proj1 Hp eq_refl) eq_refl). by simplify_eq.
  - rewrite <-Hcap, <-H2. by apply c_cap_law.
  - by apply c_keys_law.
Qed.

(** ** Exact behaviour *)

(** The LRU cache on the list of its items, most recently used first. *)
Definition lru_spec_step {V} (max : Z) (l : list (Item V)) (o : cache_op V) : list (Item V) :=
  match o with
  | CPut k v => spec_Put max k v l
  | CGet k => match find_first (λ it, Key it =? k) l with
              | Some it => it :: key_ne k l
              | None => l
              end
  | CRemove k => key_ne k l
  end.

(** The LRU cache, with any limit, keeps exactly the list of items ordered
    by last use: a used or updated item moves to the front, and a new item over
    the limit evicts the item used least recently. *)
Theorem lru_refines {V} (max : Z) (ops : list (cache_op V)) :
  Lru.Elems (foldl cache_step (Lru.newLRU max) ops) = foldl (lru_spec_step max) [] ops.
Proof.
  assert (lru_ok (foldl cache_step (Lru.newLRU max) ops) ∧
    maxCount (foldl cache_step (Lru.newLRU max) ops) = max ∧
    Lru.Elems (foldl cache_step (Lru.newLRU max) ops) = foldl (lru_spec_step max) [] ops) as H; [|apply H].
  induction ops as [|o ops (H1 & H2 & H3)] using rev_ind; [by split_and!; [apply newLRU_ok|..]|].
  rewrite !foldl_snoc. set (c := foldl cache_step (Lru.newLRU max) ops) in *. rewrite <-H3.
  destruct o as [k v|k|k]; cbn [cache_step lru_spec_step].
  - destruct (Put_spec c k v H1) as (? & ? & E). cbn. rewrite E, H2. split_and!; [done|lia|done].
  - pose proof (Get_spec c k H1) as Hg. cbn. destruct (Lru.Get c k) as [[v ok] c'].
    destruct Hg as (? & ? & _ & Ht & Hf). cbn. split_and!; [done|lia|].
    destruct (find_first _ _) as [it|] eqn:E.
    + apply find_first_Some in E as [Hit E]. apply Z.eqb_eq in E. destruct ok.
      * destruct (Ht eq_refl) as [Hin ->]. f_equal.
        by apply (NoDup_fmap_inj Key _ _ _ (lru_keys_NoDup c H1) Hin Hit).
      * exfalso. apply (proj1 (Hf eq_refl)), list_elem_of_fmap. eauto.
    + rewrite find_first_None in E. destruct ok; [|by destruct (Hf eq_refl) as [_ ->]].
      destruct (Ht eq_refl) as [Hin _]. apply E in Hin. by rewrite Z.eqb_refl in Hin.
  - cbn. unfold Lru.Remove. pose proof (remove_spec c k H1) as Hr.
    destruct (Lru.remove c k) as [ok c']. destruct Hr as (_ & ? & ? & E). cbn. split_and!; [done|lia|done].
Qed.

(** The limits of the lists never change. *)
Lemma removeElement_max {V} (c : LRU V) e : maxCount (Lru.removeElement c e) = maxCount c.
Proof. unfold Lru.removeElement. by case_match. Qed.

Lemma Put_max {V} (c : LRU V) k v : maxCount (Lru.Put c k v) = maxCount c.
Proof.
  unfold Lru.Put. case_match; [done|]. simpl. case_match; [|done].
  unfold Lru.removeOldest. case_match; [|done]. by rewrite removeElement_max.
Qed.

Lemma Remove_max {V} (c : LRU V) k : maxCount (Lru.remove c k).2 = maxCount c.
Proof. unfold Lru.remove. case_match; [apply removeElement_max|done]. Qed.

Lemma ensureSpace_ghost {V} (c : TwoQueue V) b :
  maxCount (ghost (TwoQ.ensureSpace c b)) = maxCount (ghost c).
Proof.
  unfold TwoQ.ensureSpace. case_match; [done|]. case_match; [|done].
  destruct (Lru.getAndRemoveOldest (recent c)) as [[[??]?]?]. simpl. apply Put_max.
Qed.

Lemma cache_step_ghost {V} (c : TwoQueue V) o :
  maxCount (ghost (cache_step c o)) = maxCount (ghost c).
Proof.
  destruct o as [k v|k|k]; cbn.
  - unfold TwoQ.Put. repeat case_match; simpl; try done.
    + unfold Lru.Remove. by rewrite Remove_max, ensureSpace_ghost.
    + apply ensureSpace_ghost.
  - unfold TwoQ.Get. by repeat case_match; simplify_eq.
  - unfold TwoQ.Remove. repeat case_match; simpl; try done. apply Remove_max.
Qed.

(** In a 2Q cache no key is in two of the recent, frequent and ghost lists,
    recent and frequent together never exceed the size, and the ghost list
    never exceeds half of it (from size two on; a ghost list of size zero is not
    limited). *)
Theorem two_queue_invariant {V} (size : Z) (ops : list (cache_op V)) :
  1 ≤ size →
  let c := foldl cache_step (TwoQ.newTwoQueue size) ops in
  NoDup (lkeys (recent c) ++ lkeys (frequent c) ++ lkeys (ghost c)) ∧
  Lru.Len (recent c) + Lru.Len (frequent c) ≤ size ∧
  (2 ≤ size → Lru.Len (ghost c) ≤ size / 2).
Proof.
  intros Hs c. destruct (cache_run (TwoQ.newTwoQueue size) ops) as (Hc & Hsz & _);
    [by apply newTwoQueue_ok|done|]. fold c in Hc, Hsz. cbn in Hc, Hsz.
  assert (maxCount (ghost c) = size / 2) as Hg.
  { unfold c. clear - Hs. induction ops as [|o ops IH] using rev_ind.
    - simpl. rewrite Z.mul_1_r. apply Z.quot_div_nonneg; lia.
    - by rewrite foldl_snoc, cache_step_ghost. }
  split_and!.
  - apply NoDup_app. split_and!; [by apply lru_keys_NoDup, Hc| |].
    + intros k Hk [Hf|Hgk]%elem_of_app; [by apply (to_rf _ Hc k)|by apply (to_rg _ Hc k)].
    + apply NoDup_app. split_and!; [by apply lru_keys_NoDup, Hc|apply (to_fg _ Hc)|by apply lru_keys_NoDup, Hc].
  - rewrite <-Hsz. apply (to_len _ Hc).
  - intros H2. rewrite <-Hg. apply (to_glen _ Hc). rewrite Hg.
    assert (1 ≤ size / 2) by (apply Z.div_le_lower_bound; lia). lia.
Qed.

(** ** FIFO *)

Definition fifo_puts {V} (c : FIFO V) (l : list (Item V)) : option (FIFO V) :=
  foldlM (λ c it, Fifo.Put c (Key it) (Value it)) c l.

Record fifo_ok {V} (c : FIFO V) : Prop := {
  fo_handles : NoDup (gl_elems (fifo_ll c)).*1;
  fo_fresh e x : (e, x) ∈ gl_elems (fifo_ll c) → (e < gl_next (fifo_ll c))%nat;
}.

(** The last [n] elements of a list. *)
Definition keep_last {A} (n : nat) (l : list A) : list A := drop (length l - n) l.

Lemma gl_Remove_last {A} (l : glist A) p els :
  NoDup (gl_elems l).*1 → gl_elems l = els ++ [p] → gl_elems (gl_Remove p.1 l) = els.
Proof.
  intros Hn Ee. cbn. rewrite Ee, filter_app, filter_cons_False by (intros Hx; by apply Hx).
  rewrite app_nil_r. apply filter_all. intros q Hq Hqp.
  rewrite Ee, fmap_app in Hn. apply NoDup_app in Hn as (_ & Hd & _).
  apply (Hd p.1); [apply list_elem_of_fmap; by exists q|simpl; by left].
Qed.

Lemma Fifo_Put_spec {V} (c : FIFO V) k v : fifo_ok c → 0 ≤ fifo_maxCount c →
  (fifo_maxCount c ≠ 0 → Fifo.Len c ≤ fifo_maxCount c) →
  ∃ c', Fifo.Put c k v = Some c' ∧ fifo_ok c' ∧ fifo_maxCount c' = fifo_maxCount c ∧
    (fifo_maxCount c ≠ 0 → Fifo.Len c' ≤ fifo_maxCount c) ∧
    Fifo.Elems c' = if fifo_maxCount c =? 0 then Fifo.Elems c ++ [mkItem k v]
                    else keep_last (Z.to_nat (fifo_maxCount c)) (Fifo.Elems c ++ [mkItem k v]).
Proof.
  intros [Hnd Hfr] Hm Hl. unfold Fifo.Put. cbn [gl_PushFront fifo_maxCount fifo_ll].
  set (ll' := mkList _ _).
  assert (fifo_ok (mkFIFO (fifo_maxCount c) ll')) as Hok.
  { split; simpl.
    - apply NoDup_cons. split; [|done]. intros ([e x] & E & Hp)%list_elem_of_fmap. apply Hfr in Hp. simpl in E. lia.
    - intros e x [[= -> ->]|Hx%Hfr]%elem_of_cons; simpl; lia. }
  assert (Fifo.Elems (mkFIFO (fifo_maxCount c) ll') = Fifo.Elems c ++ [mkItem k v]) as El
    by (unfold Fifo.Elems; simpl; by rewrite reverse_cons).
  assert (Hlen : ∀ c : FIFO V, length (Fifo.Elems c) = length (gl_elems (fifo_ll c)))
    by (intros; unfold Fifo.Elems; by rewrite length_reverse, length_fmap).
  destruct (Z.eqb_spec (fifo_maxCount c) 0) as [E0|E0]; cbn [negb andb].
  { eexists. split_and!; done. }
  assert (gl_Len ll' = Fifo.Len c + 1) as HL by (unfold Fifo.Len, gl_Len; simpl; lia).
  clearbody ll'. rewrite HL. destruct (Z.ltb_spec (fifo_maxCount c) (Fifo.Len c + 1)).
  - unfold Fifo.Remove, gl_Back. cbn [fifo_ll fifo_maxCount].
    destruct (gl_elems ll') as [|p els _] eqn:Ee using rev_ind.
    { unfold Fifo.Len, gl_Len in HL. rewrite Ee in HL. simpl in HL. lia. }
    rewrite last_snoc. cbn. eexists. split; [done|].
    pose proof (gl_Remove_last ll' p els (fo_handles _ Hok) Ee) as Hf. cbn in Hf.
    assert (Fifo.Elems (mkFIFO (fifo_maxCount c) (gl_Remove p.1 ll')) = drop 1 (Fifo.Elems c ++ [mkItem k v])) as E1.
    { rewrite <-El. unfold Fifo.Elems. simpl. rewrite Hf, Ee, fmap_app, reverse_app. done. }
    assert (length (Fifo.Elems c) = Z.to_nat (fifo_maxCount c)) as E2.
    { rewrite Hlen. unfold Fifo.Len, gl_Len in *. specialize (Hl E0). lia. }
    split_and!; [|done| |].
    + split; simpl; [by apply NoDup_fmap_filter, Hok|].
      intros e x [_ Hx]%list_elem_of_filter. by eapply (fo_fresh _ Hok).
    + intros _. unfold Fifo.Len, gl_Len. rewrite <-Hlen, E1, length_drop, length_app. simpl. lia.
    + rewrite E1. unfold keep_last. rewrite length_app. simpl. f_equal. lia.
  - eexists. split_and!; [done..| |].
    + intros _. unfold Fifo.Len. simpl. lia.
    + rewrite El. unfold keep_last. rewrite length_app, Hlen. simpl.
      unfold Fifo.Len, gl_Len in *. by replace (_ - _)%nat with 0%nat by lia.
Qed.

Lemma keep_last_snoc {A} n (l : list A) x : (0 < n)%nat → keep_last n (keep_last n l ++ [x]) = keep_last n (l ++ [x]).
Proof.
  intros Hn. unfold keep_last. rewrite !length_app, length_drop. simpl.
  destruct (decide (n ≤ length l)%nat) as [Hl|Hl].
  - rewrite <-drop_app_le by lia. rewrite drop_drop. f_equal. lia.
  - replace (length l - n)%nat with 0%nat by lia. rewrite drop_0. f_equal. lia.
Qed.

(** A FIFO cache never panics on [Put] and holds the last [maxCount] items
    put, oldest first (all of them when the limit is zero); [FromElems] selects
    those with a greater key. *)
Theorem fifo_refines {V} (max key : Z) (l : list (Item V)) :
  0 ≤ max →
  ∃ c, fifo_puts (Fifo.NewFIFO max) l = Some c ∧
    Fifo.Elems c = (if max =? 0 then l else keep_last (Z.to_nat max) l) ∧
    Fifo.FromElems c key = filter (λ it, key < Key it) (Fifo.Elems c).
Proof.
  intros Hm.
  assert (∃ c, fifo_puts (Fifo.NewFIFO max) l = Some c ∧ fifo_ok c ∧ fifo_maxCount c = max ∧
    (max ≠ 0 → Fifo.Len c ≤ max) ∧
    Fifo.Elems c = (if max =? 0 then l else keep_last (Z.to_nat max) l)) as (c & ? & _ & _ & _ & ?); [|eauto].
  induction l as [|x l (c & E & Hc & Hmc & Hlen & He)] using rev_ind.
  - exists (Fifo.NewFIFO max). split_and!; [done| |done|intros; unfold Fifo.Len, gl_Len; simpl; lia|].
    + split; simpl; [constructor|]. intros e x Hx. by apply elem_of_nil in Hx.
    + by destruct (max =? 0).
  - destruct (Fifo_Put_spec c (Key x) (Value x)) as (c' & E' & Hc' & Hmc' & Hlen' & He');
      [done|lia|by rewrite Hmc|]. rewrite Hmc in *.
    exists c'. split_and!; [|done..|].
    + unfold fifo_puts in *. rewrite foldlM_app, E. simpl. by rewrite E'.
    + rewrite He', He. replace (mkItem (Key x) (Value x)) with x by by destruct x.
      destruct (Z.eqb_spec max 0); [done|]. apply keep_last_snoc. lia.
Qed.

(** ** TTL *)

Section ttl.
Context {V : Type}.
Implicit Type c : TTL V.

Lemma gc_items (l : list Z) (now : Z) (m : gmap Z (ttlCacheItem V)) k :
  foldl (λ m key, match m !! key with
           | Some value => if expire value <? now then delete key m else m
           | None => m end) m l !! k =
  match m !! k with
  | Some it => if bool_decide (k ∈ l) && (expire it <? now) then None else Some it
  | None => None
  end.
Proof.
  revert m. induction l as [|x l IH]; intros m; simpl; [by destruct (m !! k)|]. rewrite IH.
  destruct (decide (k = x)) as [->|Hne].
  - rewrite (bool_decide_eq_true_2 (x ∈ x :: l)) by by left.
    destruct (m !! x) as [it|] eqn:E; [|by rewrite E]. destruct (expire it <? now) eqn:Ex.
    + by rewrite lookup_delete_eq.
    + rewrite E, Ex. by rewrite andb_false_r.
  - rewrite (bool_decide_ext (k ∈ x :: l) (k ∈ l)) by (rewrite elem_of_cons; tauto).
    destruct (m !! x) as [it|] eqn:E; [|done]. destruct (expire it <? now); [|done].
    by rewrite lookup_delete_ne.
Qed.

Lemma doGC_tick_items c now k :
  ttl_items (Ttl.doGC_tick c now) !! k =
  match ttl_items c !! k with
  | Some it => if expire it <? now then None else Some it
  | None => None
  end.
Proof.
  unfold Ttl.doGC_tick. cbn [ttl_items]. rewrite gc_items.
  destruct (ttl_items c !! k) as [it|] eqn:E; [|done].
  rewrite bool_decide_eq_true_2; [done|]. apply list_elem_of_fmap. exists (k, it).
  split; [done|]. by apply elem_of_map_to_list.
Qed.

(** An item put with a time to live is found until it expires and never
    after; garbage collection is invisible to reads at or after its time, leaves
    no expired item behind, and [Clear] leaves nothing. *)
Theorem ttl_correct c (now now' key k : Z) (v : option V) (t : Z) :
  now ≤ now' →
  Ttl.Get (Ttl.PutWithTTL c now key v t) now' k =
    (if k =? key then if now + t <? now' then (None, false) else (v, true) else Ttl.Get c now' k) ∧
  Ttl.Get (Ttl.doGC_tick c now) now' k = Ttl.Get c now' k ∧
  (∀ it, ttl_items (Ttl.doGC_tick c now) !! k = Some it → now ≤ expire it) ∧
  Ttl.Len (Ttl.Clear c) = 0%nat.
Proof.
  intros Hn. split_and!.
  - unfold Ttl.Get, Ttl.PutWithTTL. cbn [ttl_items].
    destruct (Z.eqb_spec k key) as [->|Hne]; [by rewrite lookup_insert_eq|].
    by rewrite lookup_insert_ne.
  - unfold Ttl.Get. rewrite doGC_tick_items. destruct (ttl_items c !! k) as [it|]; [|done].
    destruct (Z.ltb_spec (expire it) now); [|done]. by rewrite (proj2 (Z.ltb_lt _ _)) by lia.
  - intros it. rewrite doGC_tick_items. destruct (ttl_items c !! k) as [it'|]; [|done].
    destruct (Z.ltb_spec (expire it') now); [done|]. by intros [= <-].
  - unfold Ttl.Len, Ttl.Clear. cbn [ttl_items]. apply map_size_empty_iff, map_eq. intros i. rewrite lookup_empty.
    assert (Hd : ∀ (l : list Z) (m : gmap Z (ttlCacheItem V)), i ∈ l ∨ m !! i = None →
      foldl (λ m k, delete k m) m l !! i = None).
    { induction l as [|x l IH]; intros m [Hi|Hi]; simpl; [by apply elem_of_nil in Hi|done|..]; apply IH.
      - apply elem_of_cons in Hi as [->|?]; [right; apply lookup_delete_eq|by left].
      - right. by apply lookup_delete_None; right. }
    apply Hd. destruct (ttl_items c !! i) as [it|] eqn:E; [left|by right].
    apply list_elem_of_fmap. exists (i, it). by rewrite elem_of_map_to_list.
Qed.
End ttl.

(** ** Witnesses *)

Module CacheDemo.
Definition demo_ops : list (cache_op Z) :=
  [CPut 1 (Some 10); CPut 2 (Some 20); CGet 1; CPut 3 (Some 30); CRemove 2; CPut 4 (Some 40)].
Definition demo_cache : threadSafeCache Z := tsTwoQueue (TwoQ.newTwoQueue 2).

Lemma cache_coherent_witness :
  c_Peek (c_Put (foldl cache_step demo_cache demo_ops) 7 (Some 70)) 7 = (Some 70, true) ∧
  c_Len (V:=Z) (foldl cache_step demo_cache demo_ops) ≤ 2.
Proof.
  destruct (cache_coherent 2 TwoQueueCache demo_cache demo_ops) as (_ & _ & H & H' & _);
    [lia|reflexivity|]. split; [apply H|exact H'].
Defined.

Lemma two_queue_invariant_witness :
  Lru.Len (ghost (foldl cache_step (TwoQ.newTwoQueue 4) demo_ops)) ≤ 4 / 2.
Proof. apply (two_queue_invariant 4 demo_ops); lia. Defined.

Lemma fifo_refines_witness : ∃ c,
  fifo_puts (Fifo.NewFIFO 2) [mkItem 1 (Some 10); mkItem 2 None; mkItem 3 (Some 30)] = Some c ∧
  Fifo.Elems c = [mkItem 2 None; mkItem 3 (Some 30)].
Proof.
  destruct (fifo_refines 2 0 [mkItem 1 (Some 10); mkItem 2 None; mkItem 3 (Some 30)]) as (c & H1 & H2 & _);
    [lia|]. exists c. split; [exact H1|exact H2].
Defined.

Lemma ttl_correct_witness :
  Ttl.Get (Ttl.PutWithTTL (Ttl.NewTTL 5 10) 100 1 (Some 7) 10) 105 1 = (Some 7, true).
Proof. apply (ttl_correct (Ttl.NewTTL 5 10) 100 105 1 1 (Some 7) 10); lia. Defined.
End CacheDemo.
