(* ===== verification/Etcd.v ===== *)
(** * etcd and the helpers on it

    The etcd cluster is a dependency: the requests the sources make are a class
    of operations, and what etcd documents about them is a class of laws over
    the map of keys to values.  A transaction is atomic; one that returns an
    error has taken effect or not.  [MapEtcd] is an instance.  The helpers of
    server/util.go, the leader transaction and the etcd implementation of
    [kv.Base] (server/kv/etcd_kv.go) are defined over the class. *)

From S2P Require Import Prelude GoBytes Codec Strconv KV.

(** ** Requests *)

(** [clientv3.Compare(clientv3.CreateRevision(key), "=", 0)] and
    [clientv3.Compare(clientv3.Value(key), "=", value)]. *)
Inductive Cmp :=
| CmpCreateRevision0 (key : bytes)
| CmpValue (key value : bytes).

Inductive Op :=
| OpPut (key value : bytes)
| OpDelete (key : bytes).

(** [Get] returns the values of the pairs found, [GetRange] the pairs of a range
    with a limit, [Txn] whether the comparisons held, [TxnElseGet] the values of
    a key when they did not. *)
Class Etcd (E : Type) := {
  etcd_Get : bytes → M E (list bytes);
  etcd_GetRange : bytes → bytes → Z → M E (list (bytes * bytes));
  etcd_Txn : list Cmp → list Op → M E bool;
  etcd_TxnElseGet : list Cmp → list Op → bytes → M E (option (list bytes));
}.

(** ** Laws *)

(** The key must be absent; the value comparison fails on a missing key. *)
Definition cmp_holds (v : gmap bytes bytes) (c : Cmp) : Prop :=
  match c with
  | CmpCreateRevision0 key => v !! key = None
  | CmpValue key value => v !! key = Some value
  end.

#[export] Instance cmp_holds_dec v c : Decision (cmp_holds v c).
Proof. destruct c; unfold cmp_holds; apply _. Defined.

Definition apply_op (v : gmap bytes bytes) (o : Op) : gmap bytes bytes :=
  match o with
  | OpPut key value => <[key := value]> v
  | OpDelete key => delete key v
  end.

Definition apply_ops (v : gmap bytes bytes) (ops : list Op) : gmap bytes bytes := foldl apply_op v ops.

Class EtcdLaws (E : Type) `{!Etcd E} := {
  etcd_ok : E → Prop;
  etcd_view : E → gmap bytes bytes;
  etcd_Get_law e k e' r : etcd_ok e → etcd_Get k e = (e', r) →
    etcd_ok e' ∧ etcd_view e' = etcd_view e ∧
    ∀ l, r = inr l → l = option_list (etcd_view e !! k);
  etcd_GetRange_law e k k' limit e' r : etcd_ok e → 1 ≤ limit → etcd_GetRange k k' limit e = (e', r) →
    etcd_ok e' ∧ etcd_view e' = etcd_view e ∧
    ∀ l, r = inr l → ∃ all, range_items (etcd_view e) k k' all ∧ l = take (Z.to_nat limit) all;
  etcd_Txn_law e cs ops e' r : etcd_ok e → etcd_Txn cs ops e = (e', r) →
    etcd_ok e' ∧
    match r with
    | inr true => Forall (cmp_holds (etcd_view e)) cs ∧ etcd_view e' = apply_ops (etcd_view e) ops
    | inr false => ¬ Forall (cmp_holds (etcd_view e)) cs ∧ etcd_view e' = etcd_view e
    | inl _ => etcd_view e' = etcd_view e ∨
        (Forall (cmp_holds (etcd_view e)) cs ∧ etcd_view e' = apply_ops (etcd_view e) ops)
    end;
  etcd_TxnElseGet_law e cs ops k e' r : etcd_ok e → etcd_TxnElseGet cs ops k e = (e', r) →
    etcd_ok e' ∧
    match r with
    | inr None => Forall (cmp_holds (etcd_view e)) cs ∧ etcd_view e' = apply_ops (etcd_view e) ops
    | inr (Some l) => ¬ Forall (cmp_holds (etcd_view e)) cs ∧ etcd_view e' = etcd_view e ∧
        l = option_list (etcd_view e !! k)
    | inl _ => etcd_view e' = etcd_view e ∨
        (Forall (cmp_holds (etcd_view e)) cs ∧ etcd_view e' = apply_ops (etcd_view e) ops)
    end;
}.

(** ** An instance: a map, with a script of failures *)

Module MapEtcd.
(** What happens to the next requests: served, lost, or served with the answer
    lost.  After the script everything is served. *)
Inductive fault := Served | Lost | AnswerLost.
Record etcd := mkEtcd { e_map : gmap bytes bytes; e_script : list fault }.

Definition next_fault (e : etcd) : fault * etcd :=
  match e_script e with
  | [] => (Served, e)
  | f :: s => (f, mkEtcd (e_map e) s)
  end.

Definition timeout : go_error := Error "context deadline exceeded".

Definition pair_le (p q : bytes * bytes) : Prop := (p.1 ≤ q.1)%key.

#[export] Instance pair_le_dec : RelDecision pair_le := λ p q, key_le_dec p.1 q.1.

(** Pairs of a range in key order. *)
Definition sorted_range (v : gmap bytes bytes) (k k' : bytes) : list (bytes * bytes) :=
  merge_sort pair_le (filter (λ p, (k ≤ p.1)%key ∧ (p.1 < k')%key) (map_to_list v)).

Definition txn (cs : list Cmp) (ops : list Op) : M etcd bool := λ e,
  let '(f, e) := next_fault e in
  match f with
  | Lost => (e, inl timeout)
  | _ =>
      let ok := bool_decide (Forall (cmp_holds (e_map e)) cs) in
      let e := if ok then mkEtcd (apply_ops (e_map e) ops) (e_script e) else e in
      (e, match f with Served => inr ok | _ => inl timeout end)
  end.

#[export] Instance ops : Etcd etcd := {
  etcd_Get k e :=
    let '(f, e) := next_fault e in
    (e, match f with Served => inr (option_list (e_map e !! k)) | _ => inl timeout end);
  etcd_GetRange k k' limit e :=
    let '(f, e) := next_fault e in
    (e, match f with
        | Served => inr (take (Z.to_nat limit) (sorted_range (e_map e) k k'))
        | _ => inl timeout end);
  etcd_Txn := txn;
  etcd_TxnElseGet cs ops k e :=
    let '(e', r) := txn cs ops e in
    (e', match r with
         | inr true => inr None
         | inr false => inr (Some (option_list (e_map e !! k)))
         | inl err => inl err
         end);
}.

#[local] Instance key_pair_total : Total pair_le.
Proof. intros [p ?] [q ?]. unfold pair_le. simpl. destruct (decide (p ≤ q)%key); [by left|right]. key_order. Qed.
#[local] Instance key_pair_trans : Transitive pair_le.
Proof. intros [p ?] [q ?] [r ?]. unfold pair_le. simpl. intros. key_order. Qed.

Lemma sorted_range_items v k k' : range_items v k k' (sorted_range v k k').
Proof.
  unfold sorted_range. set (l := filter _ (map_to_list v)).
  assert (Hp : merge_sort pair_le l ≡ₚ l) by apply merge_sort_Permutation.
  assert (Hnd : NoDup (merge_sort pair_le l).*1).
  { rewrite Hp. apply NoDup_fmap_filter, NoDup_fst_map_to_list. }
  split.
  - assert (Hs : StronglySorted pair_le (merge_sort pair_le l))
      by (apply StronglySorted_merge_sort; apply _).
    revert Hnd Hs. generalize (merge_sort pair_le l). clear. intros l Hnd Hs. revert Hnd.
    induction Hs as [|p l' Hs IH Hf]; simpl; intros Hnd; [constructor|].
    apply NoDup_cons in Hnd as [Hp' Hnd]. constructor; [by apply IH|].
    rewrite list.Forall_forall in Hf |- *. intros q Hq. specialize (Hf q Hq). unfold pair_le in Hf.
    assert (p.1 ≠ q.1) by (intros E; apply Hp', list_elem_of_fmap; by exists q).
    apply key_le_lt_iff in Hf as [?|?]; [done|congruence].
  - intros i b. rewrite Hp. unfold l. rewrite list_elem_of_filter, elem_of_map_to_list. simpl. tauto.
Qed.

#[export, refine] Instance laws : EtcdLaws etcd := {
  etcd_ok _ := True;
  etcd_view := e_map;
}.
Proof.
  - intros e k e' r _. cbn. unfold next_fault. intros H.
    split; [done|]. repeat case_match; simplify_eq/=; (split; [done|]); intros ? ?; congruence.
  - intros e k k' limit e' r _ _. cbn. unfold next_fault. intros H.
    split; [done|]. repeat case_match; simplify_eq/=; (split; [done|]); intros ? ?; simplify_eq;
      (eexists; split; [apply sorted_range_items|done]).
  - intros e cs ops e' r _. cbn. unfold txn, next_fault. intros H. split; [done|].
    repeat (case_match || case_bool_decide); simplify_eq/=; auto.
  - intros e cs ops k e' r _. cbn. unfold txn, next_fault. intros H. split; [done|].
    repeat (case_match || case_bool_decide); simplify_eq/=; auto.
Defined.
End MapEtcd.

(** ** Helpers of server/util.go *)

Section helpers.
Context {E : Type} `{!Etcd E}.

Definition get (key : bytes) : M E (option bytes) :=
  kvs ← etcd_Get key;
  match kvs with
  | [] => mret None
  | [v] => mret (Some v)
  | _ => mfail (Error "invalid get value resp, must only one")
  end.

Definition getValue (key : bytes) : M E (option bytes) :=
  resp ← get key;
  mret resp.

Definition bytesToUint64 (b : bytes) : go_error + Z :=
  if negb (length b =? 8)%nat then inl (Error "invalid data, must 8 bytes")
  else inr (be_get b).

Definition uint64ToBytes (v : Z) : bytes := be_put 8 v.

(** [unixNow] is [time.Now().Unix()] and [random] is [rand.Uint32()]. *)
Definition initOrGetClusterID (key : bytes) (unixNow random : Z) : M E Z :=
  let ts := uint64 unixNow in
  let clusterID := uint64 (uint64 (Z.shiftl ts 32) + random) in
  let value := uint64ToBytes clusterID in
  resp ← etcd_TxnElseGet [CmpCreateRevision0 key] [OpPut key value] key;
  match resp with
  | None => mret clusterID
  | Some [v] => lift_result (bytesToUint64 v)
  | Some _ => mfail (Error "txn returns invalid range response")
  end.

(** ** The leader key *)

(** The part of the server the transactions use. *)
Record serverCfg := mkServerCfg {
  rootPath : bytes;
  memberValue : bytes;
  TsoSaveInterval : Z;
}.

Definition getLeaderPath (s : serverCfg) : bytes := Join [rootPath s; str "leader"].
Definition getTimestampPath (s : serverCfg) : bytes := Join [rootPath s; str "timestamp"].
Definition getAllocIDPath (s : serverCfg) : bytes := Join [rootPath s; str "alloc_id"].

Definition leaderCmp (s : serverCfg) : Cmp := CmpValue (getLeaderPath s) (memberValue s).

Definition LeaderTxn (s : serverCfg) (cs : list Cmp) (ops : list Op) : M E bool :=
  etcd_Txn (cs ++ [leaderCmp s]) ops.

(** The transaction of [campaignLeader]; the lease that expires the key is in
    the environment. *)
Definition campaignTxn (s : serverCfg) : M E unit :=
  ok ← etcd_Txn [CmpCreateRevision0 (getLeaderPath s)] [OpPut (getLeaderPath s) (memberValue s)];
  if ok : bool then mret ()
  else mfail (Error "failed to campaign leader, other server may campaign ok").

Definition deleteLeaderKey (s : serverCfg) : M E unit :=
  ok ← LeaderTxn s [] [OpDelete (getLeaderPath s)];
  if ok : bool then mret ()
  else mfail (Error "resign leader failed, we are not leader already").

(** ** server/kv/etcd_kv.go *)

Definition etcd_Load (root key : bytes) : M E bytes :=
  kvs ← etcd_Get (Join [root; key]);
  match kvs with
  | [] => mret []
  | [v] => mret v
  | _ => mfail (Error "load more than one kvs")
  end.

(** [strings.TrimPrefix]. *)
Definition TrimPrefix (s prefix : bytes) : bytes :=
  if HasPrefix s prefix then drop (length prefix) s else s.

Definition etcd_LoadRange (root key endKey : bytes) (limit : Z) : M E (list bytes * list bytes) :=
  kvs ← etcd_GetRange (Join [root; key]) (Join [root; endKey]) limit;
  mret ((λ p : bytes * bytes, TrimPrefix (TrimPrefix p.1 root) [slash]) <$> kvs, kvs.*2).

Definition errTxnFailed : go_error := Error "failed to commit transaction".

Definition etcd_Save (root key value : bytes) : M E unit :=
  ok ← etcd_Txn [] [OpPut (Join [root; key]) value];
  if ok : bool then mret () else mfail errTxnFailed.

Definition etcd_Remove (root key : bytes) : M E unit :=
  ok ← etcd_Txn [] [OpDelete (Join [root; key])];
  if ok : bool then mret () else mfail errTxnFailed.

End helpers.

(** ** What the helpers do, from the laws of etcd *)

Lemma bytesToUint64_put v : is_uint64 v → bytesToUint64 (uint64ToBytes v) = inr v.
Proof.
  intros Hv. unfold bytesToUint64, uint64ToBytes. rewrite length_be_put, Nat.eqb_refl. cbn [negb].
  rewrite be_get_put. f_equal. apply Z.mod_small. done.
Qed.

Lemma bytesToUint64_inv b v : bytesToUint64 b = inr v → b = uint64ToBytes v ∧ is_uint64 v.
Proof.
  unfold bytesToUint64. destruct (Nat.eqb_spec (length b) 8) as [Hl|]; [|done].
  intros [= <-]. pose proof (be_get_range b) as Hr. rewrite Hl in Hr. change (256 ^ Z.of_nat 8) with (2 ^ 64) in Hr.
  split; [|done]. apply Compare_eq. rewrite Compare_be by (unfold uint64ToBytes; by rewrite length_be_put).
  unfold uint64ToBytes. rewrite be_get_put. change (256 ^ Z.of_nat 8) with (2 ^ 64).
  rewrite Z.mod_small by done. by rewrite Z.sub_diag.
Qed.

(** Evaluates the comparisons and operations of a transaction in a law. *)
Ltac txn_cbn H :=
  rewrite ?Forall_singleton in H; unfold apply_ops in H; cbn [foldl apply_op cmp_holds] in H.

Section helper_laws.
Context {E : Type} `{!Etcd E, !EtcdLaws E}.
Implicit Types (e : E) (s : serverCfg).

Lemma get_law e k e' r : etcd_ok e → get k e = (e', r) →
  etcd_ok e' ∧ etcd_view e' = etcd_view e ∧ ∀ o, r = inr o → o = etcd_view e !! k.
Proof.
  intros He. unfold get. rewrite M_bind_eq. destruct (etcd_Get k e) as [e1 r1] eqn:E1.
  apply etcd_Get_law in E1 as (Hok & Hv & Hl); [|done].
  destruct r1 as [err|l]; [intros [= <- <-]; done|].
  rewrite (Hl l eq_refl). by destruct (etcd_view e !! k); intros [= <- <-]; split_and!; try congruence.
Qed.

Lemma getValue_law e k e' r : etcd_ok e → getValue k e = (e', r) →
  etcd_ok e' ∧ etcd_view e' = etcd_view e ∧ ∀ o, r = inr o → o = etcd_view e !! k.
Proof.
  intros He. unfold getValue. rewrite M_bind_eq. destruct (get k e) as [e1 [err|o]] eqn:E1.
  - intros [= <- <-]. by apply get_law in E1.
  - intros [= <- <-]. by apply get_law in E1.
Qed.

(** A leader transaction that took effect did so while the server's value was
    under the leader key. *)
Definition txn_effect s (cs : list Cmp) (ops : list Op) (v v' : gmap bytes bytes) : Prop :=
  v' = v ∨ v !! getLeaderPath s = Some (memberValue s) ∧ Forall (cmp_holds v) cs ∧ v' = apply_ops v ops.

Lemma LeaderTxn_law e s cs ops e' r : etcd_ok e → LeaderTxn s cs ops e = (e', r) →
  etcd_ok e' ∧ txn_effect s cs ops (etcd_view e) (etcd_view e') ∧
  (r = inr true → etcd_view e !! getLeaderPath s = Some (memberValue s) ∧
     Forall (cmp_holds (etcd_view e)) cs ∧ etcd_view e' = apply_ops (etcd_view e) ops) ∧
  (r = inr false → etcd_view e' = etcd_view e).
Proof.
  intros He Ht. apply etcd_Txn_law in Ht as [Hok Ht]; [|done]. split; [done|]. unfold txn_effect.
  destruct r as [err|[]].
  - split; [|done]. destruct Ht as [?|[Hf ?]]; [by left|right].
    apply Forall_app in Hf as [? Hf]. rewrite Forall_singleton in Hf. done.
  - destruct Ht as [Hf ?]. apply Forall_app in Hf as [? Hf]. rewrite Forall_singleton in Hf.
    split; [by right|]. done.
  - destruct Ht as [_ ?]. split; [by left|]. done.
Qed.

Lemma campaignTxn_law e s e' r : etcd_ok e → campaignTxn s e = (e', r) →
  etcd_ok e' ∧
  (etcd_view e' = etcd_view e ∧ r ≠ inr () ∨
   etcd_view e !! getLeaderPath s = None ∧
   etcd_view e' = <[getLeaderPath s := memberValue s]> (etcd_view e)).
Proof.
  intros He. unfold campaignTxn. rewrite M_bind_eq.
  destruct (etcd_Txn _ _ e) as [e1 r1] eqn:E1. apply etcd_Txn_law in E1 as [Hok Ht]; [|done].
  destruct r1 as [err|[]]; intros [= <- <-]; (split; [done|]); txn_cbn Ht.
  - destruct Ht as [?|[? ?]]; [by left|by right].
  - by right.
  - left. by destruct Ht.
Qed.

Lemma deleteLeaderKey_law e s e' r : etcd_ok e → deleteLeaderKey s e = (e', r) →
  etcd_ok e' ∧ (etcd_view e' = etcd_view e ∨
    etcd_view e !! getLeaderPath s = Some (memberValue s) ∧
    etcd_view e' = delete (getLeaderPath s) (etcd_view e)).
Proof.
  intros He. unfold deleteLeaderKey. rewrite M_bind_eq.
  destruct (LeaderTxn s _ _ e) as [e1 r1] eqn:E1. apply LeaderTxn_law in E1 as (Hok & Ht & _); [|done].
  intros H. assert (e1 = e') as <- by (destruct r1 as [?|[]]; by injection H).
  split; [done|]. destruct Ht as [?|(? & _ & ?)]; [by left|by right].
Qed.

(** ** The cluster id *)

(** Servers call [initOrGetClusterID] in any order and the environment leaves
    the key alone; the results in the order of the calls. *)
Inductive cluster_id_run (key : bytes) : E → list (result Z) → Prop :=
| cluster_id_done e : cluster_id_run key e []
| cluster_id_call e unixNow random e' r rs :
    initOrGetClusterID key unixNow random e = (e', r) →
    cluster_id_run key e' rs → cluster_id_run key e (r :: rs)
| cluster_id_env e e' rs :
    etcd_ok e' → etcd_view e' !! key = etcd_view e !! key →
    cluster_id_run key e' rs → cluster_id_run key e rs.

Lemma initOrGetClusterID_law key unixNow random e e' r : etcd_ok e →
  initOrGetClusterID key unixNow random e = (e', r) →
  etcd_ok e' ∧ (∀ v, etcd_view e !! key = Some v → etcd_view e' !! key = Some v) ∧
  (∀ c, r = inr c → etcd_view e' !! key = Some (uint64ToBytes c) ∧ is_uint64 c).
Proof.
  intros He. unfold initOrGetClusterID. set (c := uint64 (uint64 _ + random)). rewrite M_bind_eq.
  destruct (etcd_TxnElseGet _ _ _ e) as [e1 r1] eqn:E1. apply etcd_TxnElseGet_law in E1 as [Hok Ht]; [|done].
  destruct r1 as [err|[l|]]; txn_cbn Ht.
  - intros [= <- <-]. split_and!; [done| |done].
    destruct Ht as [->|[Hn ->]]; [done|]. intros v. congruence.
  - destruct Ht as (_ & Hv & Hl). intros H. assert (e1 = e') as <- by (destruct l as [|? []]; by injection H).
    rewrite Hv. split_and!; [done..|]. intros c' ->.
    destruct (etcd_view e !! key) as [v|]; simplify_eq/=.
    injection H as H. apply bytesToUint64_inv in H as [-> ?]. done.
  - intros [= <- <-]. destruct Ht as [Hn ->]. rewrite lookup_insert_eq. split_and!; [done| |].
    + intros v. congruence.
    + intros ? [= <-]. split; [done|]. apply uint64_range.
Qed.

Lemma cluster_id_run_stored key e rs v : etcd_ok e → cluster_id_run key e rs →
  etcd_view e !! key = Some v → ∀ c, inr c ∈ rs → v = uint64ToBytes c ∧ is_uint64 c.
Proof.
  intros He Hr. revert He. induction Hr as [|e now rnd e' r rs Hc _ IH|e e' rs Hok Hv _ IH]; intros He Hkey c Hc'.
  - by apply not_elem_of_nil in Hc'.
  - apply initOrGetClusterID_law in Hc as (Hok & Hkeep & Hres); [|done]. apply Hkeep in Hkey as Hkey'.
    apply elem_of_cons in Hc' as [<-|Hc']; [|by apply IH].
    destruct (Hres c eq_refl) as [H ?]. rewrite Hkey' in H. injection H as ->. done.
  - apply IH; [done|congruence|done].
Qed.
End helper_laws.

Lemma uint64ToBytes_inj a b : is_uint64 a → is_uint64 b → uint64ToBytes a = uint64ToBytes b → a = b.
Proof.
  intros Ha Hb H. apply (f_equal bytesToUint64) in H. rewrite !bytesToUint64_put in H by done. congruence.
Qed.

Section cluster_id.
Context {E : Type} `{!Etcd E, !EtcdLaws E}.

(** Whatever the servers that start at the same time, the losses of requests
    and of answers, and the clocks and random numbers they use, all calls of
    [initOrGetClusterID] that return an id return the same one. *)
Theorem cluster_id_agreement key (e : E) rs a b :
  etcd_ok e → cluster_id_run key e rs → inr a ∈ rs → inr b ∈ rs → a = b.
Proof.
  intros He Hr. revert He. induction Hr as [|e now rnd e' r rs Hc Hr IH|e e' rs Hok Hv _ IH]; intros He Ha Hb.
  - by apply not_elem_of_nil in Ha.
  - apply initOrGetClusterID_law in Hc as (Hok & _ & Hres); [|done].
    assert (Hrest : ∀ c d, r = inr c → inr d ∈ rs → c = d).
    { intros c d -> Hd. destruct (Hres c eq_refl) as [Hk Hc].
      destruct (cluster_id_run_stored _ _ _ _ Hok Hr Hk d Hd) as [Hcd ?]. by apply uint64ToBytes_inj. }
    apply elem_of_cons in Ha as [Ha|Ha], Hb as [Hb|Hb].
    + congruence.
    + by apply Hrest.
    + symmetry. by apply Hrest.
    + by apply IH.
  - by apply IH.
Qed.
End cluster_id.

(** ** The key-value store of a server *)

Definition clean_root (root : bytes) : Prop :=
  ∃ l, l ≠ [] ∧ Forall simple_elem l ∧ root = slash :: join_slash l.

Definition clean_path (key : bytes) : Prop :=
  ∃ k, k ≠ [] ∧ Forall simple_elem k ∧ key = join_slash k.

Lemma Join_clean root key : clean_root root → clean_path key → Join [root; key] = root ++ slash :: key.
Proof.
  intros (l & Hl & Fl & ->) (k & Hk & Fk & ->). rewrite Join_rooted by done.
  by rewrite <-join_slash_app.
Qed.

Lemma simple_path e : simple_elem e → clean_path e.
Proof. intros He. exists [e]. split_and!; [done|by apply Forall_singleton|done]. Qed.

Lemma Compare_app_l a x y : Compare (a ++ x) (a ++ y) = Compare x y.
Proof. induction a as [|c a IH]; [done|]. simpl. byte_cases; lia. Qed.

(** A key between two keys with a common prefix has that prefix. *)
Lemma between_prefix a x y k : (a ++ x ≤ k)%key → (k < a ++ y)%key → ∃ z, k = a ++ z.
Proof.
  revert k. induction a as [|c a IH]; intros k; [by exists k|].
  unfold key_le, key_lt in *. destruct k as [|d k]; simpl; [lia|].
  byte_cases; try lia. intros ? ?.
  assert (c = d) as -> by (apply byte_val_inj; lia). destruct (IH k) as [z ->]; [done..|]. by exists z.
Qed.

Lemma TrimPrefix_app a s : TrimPrefix (a ++ s) a = s.
Proof.
  unfold TrimPrefix, HasPrefix. rewrite take_app_length. unfold Equal.
  rewrite bool_decide_eq_true_2 by done. apply drop_app_length.
Qed.

(** The pairs under a root, by their relative keys, in a range. *)
Definition root_items (m : gmap bytes bytes) (root key endKey : bytes) (l : list (bytes * bytes)) : Prop :=
  StronglySorted (λ p q, (p.1 < q.1)%key) l ∧
  ∀ k v, (k, v) ∈ l ↔ m !! (root ++ slash :: k) = Some v ∧ (key ≤ k)%key ∧ (k < endKey)%key.

Definition relative_key (root : bytes) (p : bytes * bytes) : bytes * bytes :=
  (TrimPrefix (TrimPrefix p.1 root) [slash], p.2).

Lemma range_root_items m root key endKey l :
  range_items m (root ++ slash :: key) (root ++ slash :: endKey) l →
  root_items m root key endKey (relative_key root <$> l).
Proof.
  intros [Hs Hm].
  assert (Hk : ∀ p, p ∈ l → ∃ k, p = (root ++ slash :: k, p.2) ∧ relative_key root p = (k, p.2)).
  { intros [k v] Hp. pose proof Hp as (_ & H1 & H2)%Hm.
    change (slash :: key) with ([slash] ++ key) in H1. change (slash :: endKey) with ([slash] ++ endKey) in H2.
    rewrite app_assoc in H1, H2. destruct (between_prefix _ _ _ _ H1 H2) as [z ->].
    exists z. rewrite <-app_assoc. split; [done|]. unfold relative_key. cbn [fst snd].
    by rewrite TrimPrefix_app, TrimPrefix_app. }
  split.
  - clear Hm. induction Hs as [|p l Hs IH Hf]; [constructor|]. cbn [fmap list_fmap].
    constructor; [apply IH; intros; apply Hk; by right|].
    apply list.Forall_forall. intros q (r & -> & Hr)%list_elem_of_fmap.
    destruct (Hk p) as (a & Ep & ->); [by left|]. destruct (Hk r) as (b & Er & ->); [by right|].
    rewrite list.Forall_forall in Hf. specialize (Hf r Hr). rewrite Ep, Er in Hf.
    unfold key_lt in *. cbn [fst] in *. rewrite Compare_app_l in Hf.
    by change (Compare ([slash] ++ a) ([slash] ++ b) < 0) in Hf; rewrite Compare_app_l in Hf.
  - intros k v. rewrite list_elem_of_fmap. assert (Hrel : ∀ k x, (key ≤ k)%key ∧ (k < x)%key ↔
        (root ++ slash :: key ≤ root ++ slash :: k)%key ∧ (root ++ slash :: k < root ++ slash :: x)%key).
    { intros k' x. unfold key_le, key_lt. rewrite !Compare_app_l.
      change (slash :: key) with ([slash] ++ key). change (slash :: k') with ([slash] ++ k').
      change (slash :: x) with ([slash] ++ x). by rewrite !Compare_app_l. }
    rewrite Hrel, <-Hm. split.
    + intros (p & E & Hp). destruct (Hk p Hp) as (a & Ep & Ea). rewrite Ea in E. injection E as -> ->. by rewrite <-Ep.
    + intros Hp. exists (root ++ slash :: k, v). split; [|done].
      destruct (Hk _ Hp) as (a & Ep & ->). injection Ep as Ep. apply app_inv_head in Ep. by injection Ep as ->.
Qed.

Section kv_laws.
Context {E : Type} `{!Etcd E, !EtcdLaws E}.
Implicit Types (e : E).

(** The etcd implementation of [kv.Base] under a root path: [Load] returns
    the value under the root or the empty string, [Save] and [Remove] change
    that key only (or, when they return an error, possibly nothing), and
    [LoadRange] returns in key order the first [limit] pairs of the range, with
    the root stripped from their keys. *)
Theorem etcd_kv_correct root key endKey value limit e :
  clean_root root → clean_path key → clean_path endKey → 1 ≤ limit → etcd_ok e →
  (∀ e' r, etcd_Load root key e = (e', r) → etcd_view e' = etcd_view e ∧
     ∀ v, r = inr v → v = default [] (etcd_view e !! (root ++ slash :: key))) ∧
  (∀ e' r, etcd_LoadRange root key endKey limit e = (e', r) → etcd_view e' = etcd_view e ∧
     ∀ ks vs, r = inr (ks, vs) → ∃ all, root_items (etcd_view e) root key endKey all ∧
       ks = take (Z.to_nat limit) all.*1 ∧ vs = take (Z.to_nat limit) all.*2) ∧
  (∀ e' r, etcd_Save root key value e = (e', r) →
     etcd_view e' = <[root ++ slash :: key := value]> (etcd_view e) ∨
     etcd_view e' = etcd_view e ∧ r ≠ inr ()) ∧
  (∀ e' r, etcd_Remove root key e = (e', r) →
     etcd_view e' = delete (root ++ slash :: key) (etcd_view e) ∨
     etcd_view e' = etcd_view e ∧ r ≠ inr ()).
Proof.
  intros Hroot Hkey Hend Hlim He. split_and!; intros e' r.
  - unfold etcd_Load. rewrite Join_clean, M_bind_eq by done. destruct (etcd_Get _ e) as [e1 r1] eqn:E1.
    apply etcd_Get_law in E1 as (_ & Hv & Hl); [|done]. destruct r1 as [err|l]; [by intros [= <- <-]|].
    rewrite (Hl l eq_refl). destruct (etcd_view e !! _); intros [= <- <-]; (split; [done|]); by intros ? [= <-].
  - unfold etcd_LoadRange. rewrite !Join_clean, M_bind_eq by done. destruct (etcd_GetRange _ _ _ e) as [e1 r1] eqn:E1.
    apply etcd_GetRange_law in E1 as (_ & Hv & Hl); [|done..]. destruct r1 as [err|l]; [by intros [= <- <-]|].
    intros [= <- <-]. split; [done|]. intros ks vs [= <- <-]. destruct (Hl l eq_refl) as (all & Hall & ->).
    exists (relative_key root <$> all). split; [by apply range_root_items|].
    rewrite !fmap_take, <-!list_fmap_compose. done.
  - unfold etcd_Save. rewrite Join_clean, M_bind_eq by done. destruct (etcd_Txn _ _ e) as [e1 r1] eqn:E1.
    apply etcd_Txn_law in E1 as [_ Ht]; [|done]. destruct r1 as [err|[]]; intros [= <- <-].
    + destruct Ht as [?|[_ ?]]; [by right|by left].
    + left. apply Ht.
    + by destruct Ht as [[] _].
  - unfold etcd_Remove. rewrite Join_clean, M_bind_eq by done. destruct (etcd_Txn _ _ e) as [e1 r1] eqn:E1.
    apply etcd_Txn_law in E1 as [_ Ht]; [|done]. destruct r1 as [err|[]]; intros [= <- <-].
    + destruct Ht as [?|[_ ?]]; [by right|by left].
    + left. apply Ht.
    + by destruct Ht as [[] _].
Qed.
End kv_laws.

Module EtcdDemo.
Import MapEtcd.
Definition key : bytes := str "/pd/cluster_id".

(** The answer of the first call is lost after the transaction; two more servers
    then get the id it stored. *)
Definition start : MapEtcd.etcd := MapEtcd.mkEtcd ∅ [MapEtcd.AnswerLost].
Definition first := (initOrGetClusterID key 1560000000 7 start).1.
Definition second := (initOrGetClusterID key 1560000001 9 first).1.

Lemma cluster_id_agreement_witness : 1560000000 * 2 ^ 32 + 7 = 1560000000 * 2 ^ 32 + 7.
Proof.
  apply (cluster_id_agreement key start
    [inl MapEtcd.timeout; inr (1560000000 * 2 ^ 32 + 7); inr (1560000000 * 2 ^ 32 + 7)]).
  - exact I.
  - eapply (cluster_id_call key start 1560000000 7 first); [vm_compute; reflexivity|].
    eapply (cluster_id_call key first 1560000001 9 second); [vm_compute; reflexivity|].
    eapply (cluster_id_call key second 1560000002 11); [vm_compute; reflexivity|constructor].
  - right. left.
  - right. right. left.
Defined.

Definition root : bytes := str "/pd/6500".

Lemma etcd_kv_correct_witness :
  (etcd_Save root (str "raft") (str "x") (MapEtcd.mkEtcd ∅ [MapEtcd.Lost])).2 = inl MapEtcd.timeout ∧
  ∀ e' r, etcd_Save root (str "raft") (str "x") (MapEtcd.mkEtcd ∅ [MapEtcd.Lost]) = (e', r) →
     etcd_view e' = <[root ++ slash :: str "raft" := str "x"]> ∅ ∨ etcd_view e' = ∅ ∧ r ≠ inr ().
Proof.
  split; [reflexivity|].
  refine (proj1 (proj2 (proj2 (etcd_kv_correct root (str "raft") (str "s") (str "x") 1 (MapEtcd.mkEtcd ∅ [MapEtcd.Lost]) _ _ _ _ _)))).
  - exists [str "pd"; str "6500"]. split_and!; [done| |reflexivity].
    apply (bool_decide_unpack _). exact I.
  - apply simple_path, (bool_decide_unpack _). exact I.
  - apply simple_path, (bool_decide_unpack _). exact I.
  - lia.
  - exact I.
Defined.
End EtcdDemo.
