(* ===== verification/IdAlloc.v ===== *)
(** * The id allocator

    server/id.go: ids are handed out from a block of [allocStep] ids reserved by
    moving the counter under [alloc_id] with a leader transaction.  The
    allocators of several servers interleave between reading the counter and
    the transaction, lose requests and answers, and restart. *)

From S2P Require Import Prelude GoBytes Codec Strconv KV Etcd.

(** ** Operations *)

Definition allocStep : Z := 1000.

Record idAllocator := mkIdAllocator { alloc_base : Z; alloc_end : Z }.

Section alloc.
Context {E : Type} `{!Etcd E}.

(** The comparison of [generate] and the counter it starts from. *)
Definition generate_cmp (key : bytes) (value : option bytes) : result (Cmp * Z) :=
  match value with
  | None => inr (CmpCreateRevision0 key, 0)
  | Some value =>
      match bytesToUint64 value with
      | inl err => inl err
      | inr end_ => inr (CmpValue key value, end_)
      end
  end.

(** [generate] after the read of the counter. *)
Definition generate_commit (s : serverCfg) (value : option bytes) : M E Z :=
  let key := getAllocIDPath s in
  '(cmp, end_) ← lift_result (generate_cmp key value);
  let end_ := uint64 (end_ + allocStep) in
  let value := uint64ToBytes end_ in
  ok ← LeaderTxn s [cmp] [OpPut key value];
  if ok : bool then mret end_
  else mfail (Error "generate id failed, we may not leader").

Definition generate (s : serverCfg) : M E Z :=
  value ← getValue (getAllocIDPath s);
  generate_commit s value.

(** The local part of [Alloc]: the block set from [generate], the next id. *)
Definition set_block (end_ : Z) : idAllocator := mkIdAllocator (uint64 (end_ - allocStep)) end_.

Definition next_id (alloc : idAllocator) : idAllocator * Z :=
  let base := uint64 (alloc_base alloc + 1) in
  (mkIdAllocator base (alloc_end alloc), base).

Definition Alloc (s : serverCfg) : M (E * idAllocator) Z := λ '(e, alloc),
  if alloc_base alloc =? alloc_end alloc then
    match generate s e with
    | (e', inl err) => ((e', alloc), inl err)
    | (e', inr end_) => let '(alloc', id) := next_id (set_block end_) in ((e', alloc'), inr id)
    end
  else let '(alloc', id) := next_id alloc in ((e, alloc'), inr id).

(** ** Interleavings *)

(** Where the holder of an allocator's lock is: outside [Alloc], or in
    [generate] with the counter read. *)
Inductive alloc_pc := AIdle | ARead (value : option bytes).

Record server_alloc := mkServerAlloc { sa_cfg : serverCfg; sa_alloc : idAllocator; sa_pc : alloc_pc }.

(** etcd, the servers, and the ids returned so far, last first. *)
Record alloc_world := mkAllocWorld {
  aw_etcd : E;
  aw_servers : gmap Z server_alloc;
  aw_ids : list Z;
}.
End alloc.

Arguments alloc_world : clear implicits.

Section interleaving.
Context {E : Type} `{!Etcd E, !EtcdLaws E}.

(** [key] is the path of the counter, the same for all servers. *)
Inductive alloc_step (key : bytes) : alloc_world E → alloc_world E → Prop :=
| alloc_from_block e servers ids i s a a' id :
    servers !! i = Some (mkServerAlloc s a AIdle) →
    alloc_base a ≠ alloc_end a → next_id a = (a', id) →
    alloc_step key (mkAllocWorld e servers ids)
      (mkAllocWorld e (<[i := mkServerAlloc s a' AIdle]> servers) (id :: ids))
| alloc_read e servers ids i s a e' r :
    servers !! i = Some (mkServerAlloc s a AIdle) →
    alloc_base a = alloc_end a → getValue (getAllocIDPath s) e = (e', r) →
    alloc_step key (mkAllocWorld e servers ids)
      (mkAllocWorld e' (<[i := mkServerAlloc s a (match r with inr v => ARead v | inl _ => AIdle end)]> servers) ids)
| alloc_commit e servers ids i s a v e' end_ a' id :
    servers !! i = Some (mkServerAlloc s a (ARead v)) →
    generate_commit s v e = (e', inr end_) → next_id (set_block end_) = (a', id) →
    alloc_step key (mkAllocWorld e servers ids)
      (mkAllocWorld e' (<[i := mkServerAlloc s a' AIdle]> servers) (id :: ids))
| alloc_commit_fails e servers ids i s a v e' err :
    servers !! i = Some (mkServerAlloc s a (ARead v)) →
    generate_commit s v e = (e', inl err) →
    alloc_step key (mkAllocWorld e servers ids)
      (mkAllocWorld e' (<[i := mkServerAlloc s a AIdle]> servers) ids)
| alloc_restart e servers ids i s a pc :
    servers !! i = Some (mkServerAlloc s a pc) →
    alloc_step key (mkAllocWorld e servers ids)
      (mkAllocWorld e (<[i := mkServerAlloc s (mkIdAllocator 0 0) AIdle]> servers) ids)
| alloc_env e servers ids e' :
    (* elections and every other key *)
    etcd_ok e' →
    etcd_view e' !! key = etcd_view e !! key →
    alloc_step key (mkAllocWorld e servers ids) (mkAllocWorld e' servers ids).

Inductive alloc_run (key : bytes) : nat → alloc_world E → alloc_world E → Prop :=
| alloc_run_nil w : alloc_run key 0 w w
| alloc_run_step n w w' w'' : alloc_run key n w w' → alloc_step key w' w'' → alloc_run key (S n) w w''.

(** ** The invariant *)

(** The value under the key is the counter [c]; no key is the counter 0. *)
Definition counter_is (key : bytes) (c : Z) (v : gmap bytes bytes) : Prop :=
  is_uint64 c ∧ (v !! key = Some (uint64ToBytes c) ∨ v !! key = None ∧ c = 0).

Definition in_block (a : idAllocator) (id : Z) : Prop := alloc_base a < id ≤ alloc_end a.

Record alloc_inv (key : bytes) (c0 c : Z) (w : alloc_world E) : Prop := {
  ai_etcd : etcd_ok (aw_etcd w);
  ai_counter : counter_is key c (etcd_view (aw_etcd w));
  ai_key i s : aw_servers w !! i = Some s → getAllocIDPath (sa_cfg s) = key;
  ai_range i s : aw_servers w !! i = Some s → 0 ≤ alloc_base (sa_alloc s) ≤ alloc_end (sa_alloc s) ∧
    (∀ id, in_block (sa_alloc s) id → c0 < id ≤ c);
  ai_disjoint i j s t id : aw_servers w !! i = Some s → aw_servers w !! j = Some t → i ≠ j →
    in_block (sa_alloc s) id → ¬ in_block (sa_alloc t) id;
  ai_fresh i s id : aw_servers w !! i = Some s → in_block (sa_alloc s) id → id ∉ aw_ids w;
  ai_ids id : id ∈ aw_ids w → c0 < id ≤ c;
  ai_nodup : NoDup (aw_ids w);
}.

Lemma counter_inj key c c' v : counter_is key c v → counter_is key c' v → c = c'.
Proof.
  intros [Hc [H|[H ->]]] [Hc' [H'|[H' ->]]]; rewrite H in H'; try done.
  apply (inj Some) in H'. by apply uint64ToBytes_inj.
Qed.

Lemma generate_cmp_counter key v cmp end_ : generate_cmp key v = inr (cmp, end_) →
  is_uint64 end_ ∧ ∀ m, cmp_holds m cmp → counter_is key end_ m.
Proof.
  destruct v as [v|]; cbn [generate_cmp].
  - destruct (bytesToUint64 v) eqn:Ev; [done|]. intros [= <- <-].
    apply bytesToUint64_inv in Ev as [-> ?]. split; [done|]. intros m Hm. split; [done|by left].
  - intros [= <- <-]. split; [done|]. intros m Hm. split; [done|by right].
Qed.

(** A commit moves the counter from the value read, and only then. *)
Lemma generate_commit_law e s v e' r c : etcd_ok e →
  generate_commit s v e = (e', r) → counter_is (getAllocIDPath s) c (etcd_view e) → c + allocStep < 2 ^ 64 →
  etcd_ok e' ∧
  (r = inr (c + allocStep) ∧ counter_is (getAllocIDPath s) (c + allocStep) (etcd_view e') ∨
   (∃ err, r = inl err) ∧ (etcd_view e' = etcd_view e ∨ counter_is (getAllocIDPath s) (c + allocStep) (etcd_view e'))).
Proof.
  intros He Hg Hc Hb. unfold generate_commit in Hg. rewrite M_bind_eq in Hg.
  set (key := getAllocIDPath s) in *.
  unfold lift_result in Hg. destruct (generate_cmp key v) as [err|[cmp end_]] eqn:Ec.
  { injection Hg as <- <-. eauto 10. }
  apply generate_cmp_counter in Ec as [Hend Hcmp].
  cbn beta iota in Hg. rewrite M_bind_eq in Hg. destruct (LeaderTxn s _ _ e) as [e2 r2] eqn:Et.
  apply LeaderTxn_law in Et as (Hok & Heff & Hyes & Hno); [|done].
  assert (Hmove : cmp_holds (etcd_view e) cmp → end_ = c) by (intros ?%Hcmp; by eapply counter_inj).
  assert (Hput : end_ = c → counter_is key (c + allocStep)
    (apply_ops (etcd_view e) [OpPut key (uint64ToBytes (uint64 (end_ + allocStep)))])).
  { intros ->. unfold is_uint64, allocStep in *. rewrite uint64_small by lia.
    split; [unfold is_uint64; lia|left]. unfold apply_ops. cbn [foldl apply_op]. apply lookup_insert_eq. }
  destruct r2 as [err|[]]; injection Hg as <- <-; (split; [done|]).
  - right. split; [eauto|]. destruct Heff as [?|(_ & Hf & ->)]; [by left|right].
    rewrite Forall_singleton in Hf. auto.
  - left. destruct (Hyes eq_refl) as (_ & Hf & ->). rewrite Forall_singleton in Hf. pose proof (Hmove Hf) as Heq.
    split; [|auto]. rewrite Heq. unfold is_uint64, allocStep in *. rewrite uint64_small by lia. done.
  - right. split; [eauto|]. left. by apply Hno.
Qed.
(** A server's allocator replaced by one whose block is new or a part of the old. *)
Lemma alloc_inv_update key c0 c c' e servers ids e' i s a pc a' pc' ids' :
  alloc_inv key c0 c (mkAllocWorld e servers ids) → servers !! i = Some (mkServerAlloc s a pc) → c ≤ c' →
  etcd_ok e' → counter_is key c' (etcd_view e') →
  0 ≤ alloc_base a' ≤ alloc_end a' →
  (∀ id, in_block a' id → (in_block a id ∨ c < id ≤ c') ∧ c0 < id ∧ (id ∉ ids')) →
  (ids' = ids ∨ ∃ id, ids' = id :: ids ∧ (in_block a id ∨ c < id ≤ c') ∧ c0 < id) →
  alloc_inv key c0 c' (mkAllocWorld e' (<[i := mkServerAlloc s a' pc']> servers) ids').
Proof.
  intros [He Hc Hk Hr Hd Hf Hi Hn] Hs Hcc He' Hc' Ha' Hblk Hids. cbn [aw_etcd aw_servers aw_ids] in *.
  assert (Hnew : ∀ id, (in_block a id ∨ c < id ≤ c') → id ≤ c' ∧ (id ∉ ids) ∧
    ∀ j t, servers !! j = Some t → i ≠ j → ¬ in_block (sa_alloc t) id).
  { intros id [Hb|Hb].
    - destruct (Hr i _ Hs) as [_ Hr']. specialize (Hr' id Hb). split_and!; [lia|by eapply Hf|].
      intros j t Ht Hij. by eapply (Hd i j).
    - split_and!; [lia|intros ?%Hi; lia|]. intros j t Ht _ Hb'. apply (Hr j t Ht) in Hb'. lia. }
  assert (Hids' : ∀ j t id, servers !! j = Some t → i ≠ j → in_block (sa_alloc t) id → id ∉ ids').
  { intros j t id Ht Hij Hb. destruct Hids as [->|(x & -> & Hx & _)]; [by eapply Hf|].
    intros [->|Hin]%elem_of_cons; [|by eapply Hf]. by eapply (Hnew x). }
  split; cbn [aw_etcd aw_servers aw_ids]; try done.
  - intros j t [[<- <-]|[_ ?]]%lookup_insert_Some; [by apply Hk in Hs|by eapply Hk].
  - intros j t [[<- <-]|[_ Ht]]%lookup_insert_Some; cbn [sa_alloc].
    + split; [done|]. intros id [Hb [? _]]%Hblk. apply Hnew in Hb. lia.
    + destruct (Hr j t Ht) as [? Hr']. split; [done|]. intros id ?%Hr'. lia.
  - intros j k t u id [[<- <-]|[Hj Ht]]%lookup_insert_Some [[<- <-]|[Hk' Hu]]%lookup_insert_Some Hjk;
      cbn [sa_alloc]; [done| | |by eapply Hd].
    + intros [Hb _]%Hblk. by eapply (Hnew id).
    + intros Hb [Hb' _]%Hblk. by eapply (Hnew id).
  - intros j t id [[<- <-]|[Hj Ht]]%lookup_insert_Some; cbn [sa_alloc].
    + intros Hb. by apply Hblk.
    + by eapply Hids'.
  - intros id Hid. destruct Hids as [->|(x & -> & Hx & Hx0)]; [apply Hi in Hid; lia|].
    apply elem_of_cons in Hid as [->|Hid%Hi]; [|lia]. apply Hnew in Hx. lia.
  - destruct Hids as [->|(x & -> & Hx & _)]; [done|]. constructor; [by apply Hnew|done].
Qed.

Lemma next_id_inv a a' id : next_id a = (a', id) → 0 ≤ alloc_base a < alloc_end a → alloc_end a < 2 ^ 64 →
  id = alloc_base a + 1 ∧ a' = mkIdAllocator id (alloc_end a).
Proof. unfold next_id. intros [= <- <-] ??. rewrite uint64_small by lia. done. Qed.

Lemma counter_keep key c v v' : counter_is key c v → v' !! key = v !! key → counter_is key c v'.
Proof. intros [? H] Hv. split; [done|]. by rewrite Hv. Qed.

(** One step keeps the invariant and moves the counter by at most a block. *)
Lemma alloc_step_inv key c0 c w w' : c + allocStep < 2 ^ 64 → 0 ≤ c0 ≤ c →
  alloc_inv key c0 c w → alloc_step key w w' → ∃ c', c ≤ c' ≤ c + allocStep ∧ alloc_inv key c0 c' w'.
Proof.
  intros Hb Hc0 Hi Hst. assert (Hstep : allocStep = 1000) by done. pose proof (ai_counter _ _ _ _ Hi) as Hc. pose proof (ai_etcd _ _ _ _ Hi) as He.
  destruct Hst as [e servers ids i s a a' id Hs Hne Hid|e servers ids i s a e' r Hs _ Hg
    |e servers ids i s a v e' end_ a' id Hs Hg Hid|e servers ids i s a v e' err Hs Hg
    |e servers ids i s a pc Hs|e servers ids e' Hok Hv]; cbn [aw_etcd aw_servers aw_ids] in *;
    try pose proof (ai_range _ _ _ _ Hi _ _ Hs) as [Ha Hin]; try pose proof (ai_key _ _ _ _ Hi _ _ Hs) as Hk;
    cbn [sa_cfg sa_alloc] in *.
  - exists c. split; [unfold allocStep; lia|]. unfold in_block in Hin.
    pose proof (Hin (alloc_end a) ltac:(lia)). apply next_id_inv in Hid as [Hid ->]; [|lia..].
    eapply alloc_inv_update; try done; cbn [alloc_base alloc_end sa_alloc aw_ids].
    + lia.
    + unfold in_block. cbn. intros x Hx. pose proof (Hin x ltac:(lia)). split_and!; [left; lia|lia|].
      intros [->|Hx']%elem_of_cons; [lia|]. eapply (ai_fresh _ _ _ _ Hi); [done| |done]. unfold in_block. cbn. lia.
    + right. exists id. unfold in_block. split_and!; [done|left; lia|]. apply (Hin id). lia.
  - exists c. split; [unfold allocStep; lia|]. apply getValue_law in Hg as (Hok & Hv & _); [|done].
    eapply alloc_inv_update; try done; [| |by left].
    + by rewrite Hv.
    + intros x Hx. split_and!; [by left|by apply Hin|by eapply (ai_fresh _ _ _ _ Hi)].
  - subst key. apply (generate_commit_law _ _ _ _ _ c) in Hg as (Hok & [[Heq Hc']|[[? ?] _]]); [|done..].
    injection Heq as ->.
    exists (c + allocStep). split; [lia|].
    assert (set_block (c + allocStep) = mkIdAllocator c (c + allocStep)) as Hblk.
    { unfold set_block. rewrite uint64_small by lia. f_equal. lia. }
    rewrite Hblk in Hid. apply next_id_inv in Hid as [-> ->]; cbn [alloc_base alloc_end] in *; [|lia..].
    eapply alloc_inv_update; try done; cbn [alloc_base alloc_end].
    + lia.
    + lia.
    + unfold in_block. cbn. intros x Hx. split_and!; [right; lia|lia|].
      intros [->|Hx'%(ai_ids _ _ _ _ Hi)]%elem_of_cons; lia.
    + right. eexists. split_and!; [done|right; lia|lia].
  - subst key. apply (generate_commit_law _ _ _ _ _ c) in Hg as (Hok & [[? _]|[_ Hv]]); [done| |done..].
    assert (∃ c', c ≤ c' ≤ c + allocStep ∧ counter_is (getAllocIDPath s) c' (etcd_view e')) as (c' & Hc' & Hcnt).
    { destruct Hv as [->|?]; [exists c|exists (c + allocStep)]; split; try done; lia. }
    exists c'. split; [done|]. eapply alloc_inv_update; try done; [lia| |by left].
    intros x Hx. split_and!; [by left|by apply Hin|by eapply (ai_fresh _ _ _ _ Hi)].
  - exists c. split; [unfold allocStep; lia|].
    eapply alloc_inv_update; try done; [|by left].
    unfold in_block. cbn. lia.
  - exists c. split; [unfold allocStep; lia|]. destruct Hi as [_ _ ? ? ? ? ? ?]. split; cbn in *; try done.
    by eapply counter_keep.
Qed.
Lemma alloc_run_inv key c0 n w w' : c0 + allocStep * Z.of_nat n < 2 ^ 64 →
  0 ≤ c0 → alloc_inv key c0 c0 w → alloc_run key n w w' →
  ∃ c, c0 ≤ c ≤ c0 + allocStep * Z.of_nat n ∧ alloc_inv key c0 c w'.
Proof.
  assert (Hstep : allocStep = 1000) by done. intros Hn Hc0 Hi Hr. revert Hn.
  induction Hr as [w|n w w' w'' Hr IH Hst]; intros Hn; [exists c0; split; [lia|done]|].
  destruct IH as (c & Hc & Hi'); [done|lia|]. destruct (alloc_step_inv key c0 c w' w'') as (c' & ? & ?); [lia|lia|done..|].
  exists c'. split; [lia|done].
Qed.

(** Servers that have not allocated yet. *)
Definition alloc_start (key : bytes) (w : alloc_world E) : Prop :=
  aw_ids w = [] ∧ ∀ i s, aw_servers w !! i = Some s →
    getAllocIDPath (sa_cfg s) = key ∧ sa_alloc s = mkIdAllocator 0 0 ∧ sa_pc s = AIdle.

(** C24: However the allocators of several servers interleave, with requests and
    answers lost, leaders changing and servers restarting, all ids returned are
    different, lie above the counter at the start, and use at most a block per
    step; the runs are those in which the counter cannot overflow. *)
Theorem alloc_unique key c0 n w w' :
  etcd_ok (aw_etcd w) → counter_is key c0 (etcd_view (aw_etcd w)) → alloc_start key w →
  c0 + allocStep * Z.of_nat n < 2 ^ 64 → alloc_run key n w w' →
  NoDup (aw_ids w') ∧ ∀ id, id ∈ aw_ids w' → c0 < id ≤ c0 + allocStep * Z.of_nat n.
Proof.
  intros He Hc [Hids Hs] Hn Hr. assert (0 ≤ c0) by apply Hc.
  destruct (alloc_run_inv key c0 n w w') as (c & Hc' & [_ _ _ _ _ _ Hin Hnd]); [done..| |done|].
  - assert (Hno : ∀ i s id, aw_servers w !! i = Some s → ¬ in_block (sa_alloc s) id).
    { intros i s id Hi. apply Hs in Hi as (_ & -> & _). unfold in_block. cbn. lia. }
    split; try done.
    + intros i s Hi. by apply Hs in Hi as [].
    + intros i s Hi. split; [apply Hs in Hi as (_ & -> & _); cbn; lia|]. intros id Hb. by destruct (Hno i s id).
    + intros i j s t id Hi _ _ Hb. by destruct (Hno i s id).
    + intros i s id Hi Hb. by destruct (Hno i s id).
    + rewrite Hids. by intros id ?%not_elem_of_nil.
    + rewrite Hids. constructor.
  - split; [done|]. intros id ?%Hin. lia.
Qed.

(** [Alloc] is the steps of one server with nothing in between. *)
Lemma Alloc_run key e servers ids i s a e' a' r :
  servers !! i = Some (mkServerAlloc s a AIdle) → Alloc s (e, a) = ((e', a'), r) →
  ∃ n, alloc_run key n (mkAllocWorld e servers ids)
    (mkAllocWorld e' (<[i := mkServerAlloc s a' AIdle]> servers)
       (match r with inr id => id :: ids | inl _ => ids end)).
Proof.
  intros Hs. unfold Alloc. destruct (Z.eqb_spec (alloc_base a) (alloc_end a)) as [Hb|Hb].
  - unfold generate. rewrite M_bind_eq. destruct (getValue _ e) as [e1 rv] eqn:Eg.
    pose proof (alloc_read key e servers ids i s a e1 rv Hs Hb Eg) as Hst1.
    destruct rv as [err|v].
    { intros [= <- <- <-]. exists 1%nat. by eapply alloc_run_step; [constructor|]. }
    destruct (generate_commit s v e1) as [e2 [err|end_]] eqn:Ec.
    + intros [= <- <- <-]. exists 2%nat. eapply alloc_run_step; [by eapply alloc_run_step; [constructor|]|].
      rewrite <-(insert_insert_eq servers i (mkServerAlloc s a AIdle) (mkServerAlloc s a (ARead v))).
      eapply alloc_commit_fails; [apply lookup_insert_eq|done].
    + destruct (next_id _) as [a2 id] eqn:En. intros [= <- <- <-]. exists 2%nat.
      eapply alloc_run_step; [by eapply alloc_run_step; [constructor|]|].
      rewrite <-(insert_insert_eq servers i (mkServerAlloc s a2 AIdle) (mkServerAlloc s a (ARead v))).
      eapply alloc_commit; [apply lookup_insert_eq|done..].
  - destruct (next_id a) as [a2 id] eqn:En. intros [= <- <- <-]. exists 1%nat.
    eapply alloc_run_step; [constructor|]. by eapply alloc_from_block.
Qed.
End interleaving.

(** Two servers of which the second wins the leadership while the first is
    between its read and its transaction. *)
Module AllocDemo.
Import MapEtcd.
Definition cfg (value : string) : serverCfg := mkServerCfg (str "/pd/1") (str value) 3000000000.
Definition key : bytes := getAllocIDPath (cfg "a").
Definition idle (s : serverCfg) : server_alloc := mkServerAlloc s (mkIdAllocator 0 0) AIdle.
Definition servers : gmap Z server_alloc := {[ 1 := idle (cfg "a"); 2 := idle (cfg "b") ]}.
Definition leader (value : string) : etcd := mkEtcd {[ getLeaderPath (cfg "a") := str value ]} [].

Definition after_read : gmap Z server_alloc := <[1 := mkServerAlloc (cfg "a") (mkIdAllocator 0 0) (ARead None)]> servers.
Definition after_b : etcd * idAllocator := (Alloc (cfg "b") (leader "b", mkIdAllocator 0 0)).1.

Lemma alloc_unique_witness :
  ∃ w' : alloc_world etcd, aw_ids w' = [1] ∧ NoDup (aw_ids w') ∧ ∀ id, id ∈ aw_ids w' → 0 < id ≤ 0 + allocStep * 5.
Proof.
  set (w := mkAllocWorld (leader "a") servers []).
  assert (∃ w', alloc_run key 5 w w' ∧ aw_ids w' = [1]) as (w' & Hr & Hids).
  { eexists. split; [|shelve].
    eapply alloc_run_step; [eapply alloc_run_step; [eapply alloc_run_step;
      [eapply alloc_run_step; [eapply alloc_run_step; [constructor|]|]|]|]|].
    - apply (alloc_read key _ _ _ 1 (cfg "a") (mkIdAllocator 0 0) (leader "a") (inr None));
        vm_compute; reflexivity.
    - apply (alloc_env key _ _ _ (leader "b")); vm_compute; [exact I|reflexivity].
    - apply (alloc_read key _ _ _ 2 (cfg "b") (mkIdAllocator 0 0) (leader "b") (inr None));
        vm_compute; reflexivity.
    - apply (alloc_commit key _ _ _ 2 (cfg "b") (mkIdAllocator 0 0) None (fst after_b) 1000 (snd after_b) 1);
        vm_compute; reflexivity.
    - apply (alloc_commit_fails key _ _ _ 1 (cfg "a") (mkIdAllocator 0 0) None (fst after_b)
        (Error "generate id failed, we may not leader")); vm_compute; reflexivity.
    Unshelve. reflexivity. }
  exists w'. split; [done|].
  apply (alloc_unique key 0 5 w w'); [exact I| | |vm_compute; reflexivity|exact Hr].
  - split; [by vm_compute|]. right. split; vm_compute; reflexivity.
  - split; [reflexivity|]. intros i s. unfold w, servers. cbn [aw_servers].
    rewrite lookup_insert_Some, lookup_singleton_Some.
    intros [[_ <-]|[_ [_ <-]]]; by vm_compute.
Defined.
End AllocDemo.
