(* ===== verification/Tso.v ===== *)
(** * The timestamp oracle

    server/tso.go and the part of server/leader.go that drives it.  A server
    that wins the leader key synchronises its time with the one saved in etcd,
    then hands out timestamps from an object [(physical, logical)] that requests
    share and its leader goroutine replaces.  The handlers are functions; the
    interleavings of several servers, their goroutines, elections, lost requests
    and restarts are the step relation [tso_step]. *)

From S2P Require Import Prelude GoBytes Codec Strconv KV Etcd.

(** ** Time

    A [time.Time] is its nanoseconds since 1970; [time.Time{}] is year 1. *)

Definition Millisecond : Z := 1000000.
Definition updateTimestampStep : Z := 50 * Millisecond.
Definition updateTimestampGuard : Z := Millisecond.
Definition maxLogical : Z := Z.shiftl 1 18.
Definition zeroTime : Z := -62135596800 * 1000000000.

Definition UnixNano (t : Z) : Z := int64 t.

Definition subTimeByWallClock (after before : Z) : Z := int64 (UnixNano after - UnixNano before).

Definition parseTimestamp (data : bytes) : result Z :=
  match bytesToUint64 data with
  | inl err => inl err
  | inr nano => inr (int64 nano)
  end.

(** ** The state of the oracle *)

Record atomicObject := mkAtomicObject { physical : Z; logical : Z }.

(** [ts] holds a pointer to one of the objects allocated so far. *)
Record tsoState := mkTsoState {
  lastSavedTime : Z;
  ts : option nat;
  objs : list atomicObject;
}.

Definition tso_init : tsoState := mkTsoState zeroTime None [].

(** [s.ts.Store(&atomicObject{physical: t})] *)
Definition store_ts (t : Z) (st : tsoState) : tsoState :=
  mkTsoState (lastSavedTime st) (Some (length (objs st))) (objs st ++ [mkAtomicObject t 0]).

(** [s.ts.Load().( *atomicObject)] and the object; [None] when nothing was stored. *)
Definition load_ts (st : tsoState) : option (nat * atomicObject) :=
  l ← ts st; o ← objs st !! l; Some (l, o).

Definition set_lastSaved (t : Z) (st : tsoState) : tsoState := mkTsoState t (ts st) (objs st).

(** ** Synchronisation and update *)

Section tso.
Context {E : Type} `{!Etcd E}.

Definition loadTimestamp (s : serverCfg) : M E Z :=
  data ← getValue (getTimestampPath s);
  match data with
  | None | Some [] => mret zeroTime
  | Some data => lift_result (parseTimestamp data)
  end.

(** The transaction of [saveTimestamp]. *)
Definition saveTxn (s : serverCfg) (t : Z) : M E unit :=
  let data := uint64ToBytes (uint64 (UnixNano t)) in
  ok ← LeaderTxn s [] [OpPut (getTimestampPath s) data];
  if ok : bool then mret ()
  else mfail (Error "save timestamp failed, maybe we lost leader").

Definition saveTimestamp (s : serverCfg) (t : Z) : M (E * tsoState) unit := λ '(e, st),
  match saveTxn s t e with
  | (e', inl err) => ((e', st), inl err)
  | (e', inr _) => ((e', set_lastSaved t st), inr ())
  end.

(** Where the allocation starts, from the saved time and the clock. *)
Definition sync_next (last now : Z) : Z :=
  if subTimeByWallClock now last <? updateTimestampGuard then last + updateTimestampGuard else now.

Definition syncTimestamp (s : serverCfg) (now : Z) : M (E * tsoState) unit := λ '(e, st),
  match loadTimestamp s e with
  | (e', inl err) => ((e', st), inl err)
  | (e', inr last) =>
      let next := sync_next last now in
      match saveTimestamp s (next + TsoSaveInterval s) (e', st) with
      | (est, inl err) => (est, inl err)
      | ((e'', st'), inr _) => ((e'', store_ts next st'), inr ())
      end
  end.

(** The new physical time, if it changes. *)
Definition update_next (prev : atomicObject) (now : Z) : option Z :=
  let jetLag := subTimeByWallClock now (physical prev) in
  if updateTimestampGuard <? jetLag then Some now
  else if maxLogical / 2 <? logical prev then Some (physical prev + Millisecond)
  else None.

(** The saved window does not cover [next]. *)
Definition must_save (st : tsoState) (next : Z) : bool :=
  subTimeByWallClock (lastSavedTime st) next <=? updateTimestampGuard.

Definition updateTimestamp (s : serverCfg) (now : Z) : M (E * tsoState) unit := λ '(e, st),
  match load_ts st with
  | None => ((e, st), inl (Panic "interface conversion: interface is nil"))
  | Some (_, prev) =>
      match update_next prev now with
      | None => ((e, st), inr ())
      | Some next =>
          if must_save st next then
            match saveTimestamp s (next + TsoSaveInterval s) (e, st) with
            | (est, inl err) => (est, inl err)
            | ((e', st'), inr _) => ((e', store_ts next st'), inr ())
            end
          else ((e, store_ts next st), inr ())
      end
  end.
End tso.

(** ** Requests *)

Definition maxRetryCount : nat := 100.

(** [atomic.AddInt64(&current.logical, count)] on the object [l]. *)
Definition add_logical (l : nat) (count : Z) (st : tsoState) : tsoState :=
  mkTsoState (lastSavedTime st) (ts st)
    (alter (λ o, mkAtomicObject (physical o) (int64 (logical o + count))) l (objs st)).

Definition resp_physical (o : atomicObject) : Z := Z.quot (UnixNano (physical o)) Millisecond.
Definition resp_logical (o : atomicObject) (count : Z) : Z := int64 (logical o + count).

(** One round of [getRespTS]: the state after, and the response or a retry. *)
Definition try_getRespTS (count : Z) (st : tsoState) : tsoState * option (Z * Z) :=
  match load_ts st with
  | None => (st, None)
  | Some (l, current) =>
      if physical current =? zeroTime then (st, None)
      else
        let st' := add_logical l count st in
        if maxLogical <=? resp_logical current count then (st', None)
        else (st', Some (resp_physical current, resp_logical current count))
  end.

(** The loop; [env i] is what the other goroutines do during the [i]th sleep. *)
Fixpoint getRespTS_loop (fuel : nat) (env : nat → tsoState → tsoState) (count : Z) : M tsoState (Z * Z) := λ st,
  match fuel with
  | O => (st, inl (Error "can not get timestamp"))
  | S fuel' =>
      match try_getRespTS count st with
      | (st', Some resp) => (st', inr resp)
      | (st', None) => getRespTS_loop fuel' env count (env (maxRetryCount - fuel)%nat st')
      end
  end.

Definition getRespTS (env : nat → tsoState → tsoState) (count : Z) : M tsoState (Z * Z) := λ st,
  if count =? 0 then (st, inl (Error "tso count should be positive"))
  else getRespTS_loop maxRetryCount env count st.

(** ** Interleavings *)

(** Where the leader goroutine of a server is, in [campaignLeader]: not leading;
    the leader key won; [syncTimestamp] after the load and after the save;
    between two ticks; [updateTimestamp] before and after the save; returning
    with an error of [updateTimestamp]. *)
Inductive tso_pc :=
| PIdle
| PSync
| PSyncLoaded (last : Z)
| PSyncSaved (next : Z)
| PServe
| PUpdate (next : Z)
| PUpdateSaved (next : Z)
| PExit.

Record tso_server := mkTsoServer { sv_cfg : serverCfg; sv_tso : tsoState; sv_pc : tso_pc }.

(** A response stands for the [g_count] timestamps up to [g_logical]. *)
Record grant := mkGrant { g_physical : Z; g_logical : Z; g_count : Z }.

(** A request that has loaded the object and not yet added to it. *)
Record request := mkRequest { r_server : Z; r_obj : nat; r_count : Z }.

Record tso_world (E : Type) := mkTsoWorld {
  tw_etcd : E;
  tw_servers : gmap Z tso_server;
  tw_reqs : list request;
  tw_grants : list grant;
}.
Arguments mkTsoWorld {E} _ _ _ _.
Arguments tw_etcd {E} _.
Arguments tw_servers {E} _.
Arguments tw_reqs {E} _.
Arguments tw_grants {E} _.

(** The clocks are between 1970 and 2043 and the times saved before 2116, where
    the differences of [int64] nanoseconds do not wrap. *)
Definition clock_ok (now : Z) : Prop := 0 ≤ now < 2 ^ 61.
Definition time_ok (t : Z) : Prop := 0 ≤ t < 2 ^ 62.

Section steps.
Context {E : Type} `{!Etcd E, !EtcdLaws E}.
(** The root path of the cluster. *)
Variable root : bytes.

Definition leader_path : bytes := Join [root; str "leader"].
Definition timestamp_path : bytes := Join [root; str "timestamp"].

Inductive tso_step : tso_world E → tso_world E → Prop :=
| tso_campaign e srv reqs gs i s st e' r :
    srv !! i = Some (mkTsoServer s st PIdle) → campaignTxn s e = (e', r) →
    tso_step (mkTsoWorld e srv reqs gs)
      (mkTsoWorld e' (<[i := mkTsoServer s st (match r with inr _ => PSync | inl _ => PIdle end)]> srv) reqs gs)
| tso_delete_leader e srv reqs gs i s st e' r :
    srv !! i = Some (mkTsoServer s st PIdle) → deleteLeaderKey s e = (e', r) →
    tso_step (mkTsoWorld e srv reqs gs) (mkTsoWorld e' srv reqs gs)
| tso_sync_load e srv reqs gs i s st e' r :
    srv !! i = Some (mkTsoServer s st PSync) → loadTimestamp s e = (e', r) →
    tso_step (mkTsoWorld e srv reqs gs)
      (mkTsoWorld e' (<[i := mkTsoServer s st (match r with inr last => PSyncLoaded last | inl _ => PIdle end)]> srv) reqs gs)
| tso_sync_save e srv reqs gs i s st last now e' st' r :
    srv !! i = Some (mkTsoServer s st (PSyncLoaded last)) → clock_ok now →
    time_ok (sync_next last now + TsoSaveInterval s) →
    saveTimestamp s (sync_next last now + TsoSaveInterval s) (e, st) = ((e', st'), r) →
    tso_step (mkTsoWorld e srv reqs gs)
      (mkTsoWorld e' (<[i := mkTsoServer s st' (match r with inr _ => PSyncSaved (sync_next last now) | inl _ => PIdle end)]> srv) reqs gs)
| tso_sync_store e srv reqs gs i s st next :
    srv !! i = Some (mkTsoServer s st (PSyncSaved next)) →
    tso_step (mkTsoWorld e srv reqs gs)
      (mkTsoWorld e (<[i := mkTsoServer s (store_ts next st) PServe]> srv) reqs gs)
| tso_update_start e srv reqs gs i s st l prev now next :
    srv !! i = Some (mkTsoServer s st PServe) → clock_ok now →
    load_ts st = Some (l, prev) → update_next prev now = Some next →
    time_ok (next + TsoSaveInterval s) →
    tso_step (mkTsoWorld e srv reqs gs)
      (mkTsoWorld e (<[i := mkTsoServer s st (if must_save st next then PUpdate next else PUpdateSaved next)]> srv) reqs gs)
| tso_update_save e srv reqs gs i s st next e' st' r :
    srv !! i = Some (mkTsoServer s st (PUpdate next)) →
    saveTimestamp s (next + TsoSaveInterval s) (e, st) = ((e', st'), r) →
    tso_step (mkTsoWorld e srv reqs gs)
      (mkTsoWorld e' (<[i := mkTsoServer s st' (match r with inr _ => PUpdateSaved next | inl _ => PExit end)]> srv) reqs gs)
| tso_update_store e srv reqs gs i s st next :
    srv !! i = Some (mkTsoServer s st (PUpdateSaved next)) →
    tso_step (mkTsoWorld e srv reqs gs)
      (mkTsoWorld e (<[i := mkTsoServer s (store_ts next st) PServe]> srv) reqs gs)
| tso_exit e srv reqs gs i s st pc :
    (* the deferred store of [zeroTime] *)
    srv !! i = Some (mkTsoServer s st pc) → pc = PServe ∨ pc = PExit →
    tso_step (mkTsoWorld e srv reqs gs)
      (mkTsoWorld e (<[i := mkTsoServer s (store_ts zeroTime st) PIdle]> srv) reqs gs)
| tso_request_load e srv reqs gs i s st pc l o count :
    (* any goroutine of the server, whatever the leader goroutine does *)
    srv !! i = Some (mkTsoServer s st pc) → load_ts st = Some (l, o) →
    physical o ≠ zeroTime → 0 < count < 2 ^ 32 →
    tso_step (mkTsoWorld e srv reqs gs) (mkTsoWorld e srv (mkRequest i l count :: reqs) gs)
| tso_request_add e srv reqs1 reqs2 gs i s st pc l o count :
    srv !! i = Some (mkTsoServer s st pc) → objs st !! l = Some o →
    logical o + count < 2 ^ 63 →
    tso_step (mkTsoWorld e srv (reqs1 ++ mkRequest i l count :: reqs2) gs)
      (mkTsoWorld e (<[i := mkTsoServer s (add_logical l count st) pc]> srv) (reqs1 ++ reqs2)
         (if maxLogical <=? resp_logical o count then gs
          else mkGrant (resp_physical o) (resp_logical o count) count :: gs))
| tso_restart e srv reqs gs i s st pc :
    (* the process dies, its requests with it *)
    srv !! i = Some (mkTsoServer s st pc) →
    tso_step (mkTsoWorld e srv reqs gs)
      (mkTsoWorld e (<[i := mkTsoServer s tso_init PIdle]> srv) (filter (λ r, r_server r ≠ i) reqs) gs)
| tso_env e srv reqs gs e' :
    (* a lease expires, and the other keys change *)
    etcd_ok e' → etcd_view e' !! timestamp_path = etcd_view e !! timestamp_path →
    (etcd_view e' !! leader_path = None ∨ etcd_view e' !! leader_path = etcd_view e !! leader_path) →
    tso_step (mkTsoWorld e srv reqs gs) (mkTsoWorld e' srv reqs gs).

Definition tso_run : tso_world E → tso_world E → Prop := rtc tso_step.
End steps.
