(* ===== verification/TsoProps.v ===== *)
(** * Timestamps are unique

    The invariant of the timestamp oracle and the theorems on [tso_step]:
    timestamps of different responses never coincide, the saved time bounds the
    physical times and only grows, and a server's own timestamps grow. *)

From S2P Require Import Prelude GoBytes Codec Strconv KV Etcd Tso.

(** ** Milliseconds *)

Definition ms (t : Z) : Z := Z.quot (UnixNano t) Millisecond.

Lemma time_int64 t : time_ok t → UnixNano t = t.
Proof. unfold time_ok. intros. apply int64_small. lia. Qed.

Lemma ms_div t : time_ok t → ms t = t / Millisecond.
Proof.
  intros Ht. unfold ms. rewrite time_int64 by done. apply Z.quot_div_nonneg; [apply Ht|done].
Qed.

Lemma ms_mono t u : time_ok t → time_ok u → t ≤ u → ms t ≤ ms u.
Proof. intros. rewrite !ms_div by done. by apply Z.div_le_mono. Qed.

Lemma ms_step t u : time_ok t → time_ok u → t + Millisecond ≤ u → ms t < ms u.
Proof.
  intros Ht Hu Htu. rewrite !ms_div by done. apply (Z.div_le_mono _ _ Millisecond) in Htu; [|done].
  rewrite <-(Z.mul_1_l Millisecond) in Htu at 1. rewrite Z.div_add in Htu by done. lia.
Qed.

Lemma ms_nonneg t : time_ok t → 0 ≤ ms t.
Proof. intros Ht. rewrite ms_div by done. apply Z.div_pos; [apply Ht|done]. Qed.

Lemma ms_zeroTime : ms zeroTime < 0.
Proof. by vm_compute. Qed.

Lemma zeroTime_not_ok : ¬ time_ok zeroTime.
Proof. unfold time_ok, zeroTime. lia. Qed.

Lemma sub_time a b : time_ok a → time_ok b → subTimeByWallClock a b = a - b.
Proof.
  intros Ha Hb. unfold subTimeByWallClock. rewrite (time_int64 a), (time_int64 b) by done.
  unfold time_ok in *. apply int64_small. lia.
Qed.

(** ** The decisions of the handlers *)

Lemma sync_next_zero now : clock_ok now → sync_next zeroTime now = now.
Proof.
  unfold clock_ok. intros H. unfold sync_next, subTimeByWallClock.
  change (UnixNano zeroTime) with (-6795364578871345152). unfold UnixNano.
  rewrite (int64_small now) by lia. rewrite int64_small by lia.
  unfold updateTimestampGuard, Millisecond. by destruct (Z.ltb_spec (now - -6795364578871345152) 1000000); [lia|].
Qed.

(** Before any time was saved, a clock from December 2046 on makes the difference
    to [zeroTime] wrap and the allocation start in year 1. *)
Lemma sync_next_overflow now : 2 ^ 63 - 6795364578871345152 ≤ now < 2 ^ 62 →
  sync_next zeroTime now = zeroTime + updateTimestampGuard.
Proof.
  intros H. unfold sync_next, subTimeByWallClock. change (UnixNano zeroTime) with (-6795364578871345152).
  rewrite (time_int64 now) by (unfold time_ok; lia). unfold int64.
  rewrite <-(Z.mod_unique_pos _ (2 ^ 64) 1 (now + 6795364578871345152 + 2 ^ 63 - 2 ^ 64)) by lia.
  destruct (Z.ltb_spec (now + 6795364578871345152 + 2 ^ 63 - 2 ^ 64 - 2 ^ 63) updateTimestampGuard) as [|Hge]; [done|].
  unfold updateTimestampGuard, Millisecond in Hge. lia.
Qed.

Lemma clock_time now : clock_ok now → time_ok now.
Proof. unfold clock_ok, time_ok. lia. Qed.

(** The start is a millisecond or more after the saved time. *)
Lemma sync_next_after last now : time_ok last → clock_ok now → last + Millisecond ≤ sync_next last now.
Proof.
  intros Hl Hn. unfold sync_next, updateTimestampGuard. rewrite sub_time by (done || by apply clock_time).
  destruct (Z.ltb_spec (now - last) Millisecond); lia.
Qed.

Lemma update_next_after prev now next : time_ok (physical prev) → clock_ok now →
  update_next prev now = Some next → physical prev + Millisecond ≤ next.
Proof.
  intros Hl Hn. unfold update_next, updateTimestampGuard. rewrite sub_time by (done || by apply clock_time).
  destruct (Z.ltb_spec Millisecond (now - physical prev)); [intros [= <-]; lia|].
  case_match; [intros [= <-]; lia|done].
Qed.

Lemma must_save_spec st next : time_ok (lastSavedTime st) → time_ok next →
  must_save st next = true ↔ lastSavedTime st ≤ next + Millisecond.
Proof.
  intros. unfold must_save, updateTimestampGuard. rewrite sub_time by done. rewrite Z.leb_le. lia.
Qed.

(** ** The invariant *)

(** The saved time, [zeroTime] when there is none. *)
Definition saved_is (tspath : bytes) (S : Z) (v : gmap bytes bytes) : Prop :=
  time_ok S ∧ v !! tspath = Some (uint64ToBytes S) ∨ S = zeroTime ∧ v !! tspath = None.

(** The object a server serves from. *)
Definition current (st : tsoState) (t : Z) : Prop :=
  ∃ l o, load_ts st = Some (l, o) ∧ physical o = t.

(** Milliseconds a server may still use without asking etcd. *)
Definition in_zone (sv : tso_server) (x : Z) : Prop :=
  x ≤ ms (lastSavedTime (sv_tso sv)) ∧
  match sv_pc sv with
  | PSyncSaved next => ms next ≤ x
  | PServe | PUpdate _ | PUpdateSaved _ => ∀ t, current (sv_tso sv) t → ms t < x
  | _ => False
  end.

Definition obj_ok (S : Z) (o : atomicObject) : Prop :=
  (physical o = zeroTime ∨ time_ok (physical o) ∧ ms (physical o) ≤ ms S) ∧ 0 ≤ logical o.

(** A leader goroutine whose window is saved, serving from [t]. *)
Definition serving (S : Z) (st : tsoState) (t : Z) : Prop :=
  current st t ∧ time_ok t ∧ t < lastSavedTime st ∧ lastSavedTime st ≤ S ∧ time_ok (lastSavedTime st).

Record server_inv (S : Z) (sv : tso_server) : Prop := {
  si_interval : updateTimestampGuard ≤ TsoSaveInterval (sv_cfg sv);
  si_objs : Forall (obj_ok S) (objs (sv_tso sv));
  si_pc : match sv_pc sv with
    | PSyncLoaded last => last ≤ S ∧ (time_ok last ∨ last = zeroTime)
    | PSyncSaved next => time_ok next ∧ next < lastSavedTime (sv_tso sv) ∧
        lastSavedTime (sv_tso sv) ≤ S ∧ time_ok (lastSavedTime (sv_tso sv))
    | PServe => ∃ t, serving S (sv_tso sv) t
    | PUpdate next => ∃ t, serving S (sv_tso sv) t ∧ t + Millisecond ≤ next ∧
        time_ok (next + TsoSaveInterval (sv_cfg sv)) ∧ lastSavedTime (sv_tso sv) ≤ next + Millisecond
    | PUpdateSaved next => ∃ t, serving S (sv_tso sv) t ∧ t + Millisecond ≤ next ∧
        next < lastSavedTime (sv_tso sv)
    | _ => True
    end;
}.

(** While the leader key holds a server's value, nobody else saves a time. *)
Definition leader_inv (lpath : bytes) (S : Z) (v : gmap bytes bytes) (sv : tso_server) : Prop :=
  v !! lpath = Some (memberValue (sv_cfg sv)) →
  match sv_pc sv with
  | PSyncLoaded last => S = last
  | PSyncSaved _ | PServe | PUpdate _ | PUpdateSaved _ => S = lastSavedTime (sv_tso sv)
  | _ => True
  end.

(** Two responses share no timestamp. *)
Definition grants_disjoint (g h : grant) : Prop :=
  g_physical g = g_physical h →
  g_logical g ≤ g_logical h - g_count h ∨ g_logical h ≤ g_logical g - g_count g.

Section invariant.
Context {E : Type} `{!Etcd E, !EtcdLaws E}.
Variable root : bytes.
Hypothesis Hroot : clean_root root.
Implicit Types (w : tso_world E).

Definition is_obj (srv : gmap Z tso_server) (i : Z) (l : nat) (o : atomicObject) : Prop :=
  ∃ sv, srv !! i = Some sv ∧ objs (sv_tso sv) !! l = Some o ∧ physical o ≠ zeroTime.

Definition used w (x : Z) : Prop :=
  (∃ i l o, is_obj (tw_servers w) i l o ∧ ms (physical o) = x) ∨ (∃ g, g ∈ tw_grants w ∧ g_physical g = x).

Record tso_inv (S : Z) w : Prop := {
  ti_etcd : etcd_ok (tw_etcd w);
  ti_saved : saved_is (timestamp_path root) S (etcd_view (tw_etcd w));
  ti_root i sv : tw_servers w !! i = Some sv → rootPath (sv_cfg sv) = root;
  ti_member i j sv sv' : tw_servers w !! i = Some sv → tw_servers w !! j = Some sv' →
    memberValue (sv_cfg sv) = memberValue (sv_cfg sv') → i = j;
  ti_server i sv : tw_servers w !! i = Some sv → server_inv S sv;
  ti_leader i sv : tw_servers w !! i = Some sv → leader_inv (leader_path root) S (etcd_view (tw_etcd w)) sv;
  ti_used x : used w x → x ≤ ms S;
  ti_zone i sv x : tw_servers w !! i = Some sv → in_zone sv x → ¬ used w x;
  ti_zones i j sv sv' x : tw_servers w !! i = Some sv → tw_servers w !! j = Some sv' → i ≠ j →
    in_zone sv x → ¬ in_zone sv' x;
  ti_objs i j l m o p : is_obj (tw_servers w) i l o → is_obj (tw_servers w) j m p →
    ms (physical o) = ms (physical p) → i = j ∧ l = m;
  ti_logical i l o g : is_obj (tw_servers w) i l o → g ∈ tw_grants w → g_physical g = ms (physical o) →
    g_logical g ≤ logical o;
  ti_grants : ForallOrdPairs grants_disjoint (tw_grants w);
  ti_counts g : g ∈ tw_grants w → 0 < g_count g ≤ g_logical g ∧ g_logical g < maxLogical;
  ti_reqs r : r ∈ tw_reqs w → 0 < r_count r ∧ ∃ o, is_obj (tw_servers w) (r_server r) (r_obj r) o;
}.

(** ** Laws of the handlers' etcd operations *)

Lemma paths_differ : timestamp_path root ≠ leader_path root.
Proof.
  unfold timestamp_path, leader_path.
  rewrite !Join_clean by (done || by apply simple_path, (bool_decide_unpack _)).
  intros H%app_inv_head. by vm_compute in H.
Qed.

Lemma loadTimestamp_law e s e' r S : etcd_ok e → rootPath s = root →
  saved_is (timestamp_path root) S (etcd_view e) → loadTimestamp s e = (e', r) →
  etcd_ok e' ∧ etcd_view e' = etcd_view e ∧ ∀ last, r = inr last → last = S.
Proof.
  intros He Hs HS. unfold loadTimestamp. rewrite M_bind_eq. unfold getTimestampPath. rewrite Hs.
  fold (timestamp_path root). destruct (getValue _ e) as [e1 rv] eqn:Eg.
  apply getValue_law in Eg as (Hok & Hv & Hval); [|done].
  destruct rv as [err|o]; [by intros [= <- <-]|]. rewrite (Hval o eq_refl).
  destruct HS as [[Ht ->]|[-> ->]].
  - assert (Hp : parseTimestamp (uint64ToBytes S) = inr S).
    { unfold parseTimestamp. unfold time_ok in Ht. rewrite bytesToUint64_put by (unfold is_uint64; lia).
      by rewrite int64_small by lia. }
    pose proof (length_be_put 8 S) as Hlen. fold (uint64ToBytes S) in Hlen.
    destruct (uint64ToBytes S) as [|b bs]; [done|].
    intros [= <- <-]. split_and!; [done..|]. intros last Hl. congruence.
  - intros [= <- <-]. split_and!; [done..|]. by intros last [= <-].
Qed.

Lemma saveTimestamp_law e s st t e' st' r : etcd_ok e → rootPath s = root → time_ok t →
  saveTimestamp s t (e, st) = ((e', st'), r) →
  etcd_ok e' ∧ etcd_view e' !! leader_path root = etcd_view e !! leader_path root ∧
  (etcd_view e' !! timestamp_path root = etcd_view e !! timestamp_path root ∨
   etcd_view e !! leader_path root = Some (memberValue s) ∧
   etcd_view e' !! timestamp_path root = Some (uint64ToBytes t)) ∧
  (r = inr () ∧ st' = set_lastSaved t st ∧ etcd_view e !! leader_path root = Some (memberValue s) ∧
     etcd_view e' !! timestamp_path root = Some (uint64ToBytes t) ∨
   (∃ err, r = inl err) ∧ st' = st).
Proof.
  intros He Hs Ht. unfold saveTimestamp, saveTxn. rewrite M_bind_eq.
  rewrite time_int64, uint64_small by (done || unfold time_ok in Ht; lia).
  destruct (LeaderTxn s _ _ e) as [e1 r1] eqn:Et. apply LeaderTxn_law in Et as (Hok & Heff & Hyes & Hno); [|done].
  unfold txn_effect, getLeaderPath, getTimestampPath in *. rewrite Hs in *.
  fold (leader_path root) (timestamp_path root) in *. unfold apply_ops in *. cbn [foldl apply_op] in *.
  assert (Hfacts : etcd_view e1 !! leader_path root = etcd_view e !! leader_path root ∧
    (etcd_view e1 !! timestamp_path root = etcd_view e !! timestamp_path root ∨
     etcd_view e !! leader_path root = Some (memberValue s) ∧
     etcd_view e1 !! timestamp_path root = Some (uint64ToBytes t))).
  { destruct Heff as [->|(? & _ & ->)]; [by split; [|left]|].
    rewrite lookup_insert_eq, lookup_insert_ne by apply paths_differ. auto. }
  destruct r1 as [err|[]]; intros [= <- <- <-]; (split; [done|]); destruct Hfacts as [Hf1 Hf2]; split_and!; try done.
  - right. eauto.
  - left. destruct (Hyes eq_refl) as (Hl & _ & Hv). rewrite Hv, lookup_insert_eq. done.
  - right. eauto.
Qed.

(** ** Changing one server *)

Lemma saved_time S v p : saved_is p S v → time_ok S ∨ S = zeroTime.
Proof. intros [[? _]|[? _]]; auto. Qed.

Lemma le_saved S t : time_ok S ∨ S = zeroTime → time_ok t → t ≤ S → time_ok S ∧ ms t ≤ ms S.
Proof.
  intros [HS| ->] Ht Hle; [by auto using ms_mono|]. unfold time_ok, zeroTime in *. lia.
Qed.

Lemma zone_le S sv x : time_ok S ∨ S = zeroTime → server_inv S sv → in_zone sv x → x ≤ ms S.
Proof.
  intros HS [_ _ Hpc] [Hx Hz]. etrans; [exact Hx|].
  assert (time_ok (lastSavedTime (sv_tso sv)) ∧ lastSavedTime (sv_tso sv) ≤ S) as [? ?].
  { destruct (sv_pc sv); try done; unfold serving in Hpc; naive_solver. }
  by apply le_saved.
Qed.

Lemma serving_mono S S' st t : S ≤ S' → serving S st t → serving S' st t.
Proof. intros ? (? & ? & ? & ? & ?). unfold serving. split_and!; try done. lia. Qed.

Lemma server_inv_mono S S' sv : S ≤ S' → ms S ≤ ms S' → server_inv S sv → server_inv S' sv.
Proof.
  intros HS Hms [Hi Ho Hpc]. split; [done| |].
  - eapply Forall_impl; [exact Ho|]. intros o [[?|[? ?]] ?]; split; auto. right. split; [done|lia].
  - destruct (sv_pc sv); try done.
    + destruct Hpc. split; [lia|done].
    + destruct Hpc as (? & ? & ? & ?). split_and!; try done. lia.
    + destruct Hpc as [t ?]. eauto using serving_mono.
    + destruct Hpc as (t & ? & ?). eauto using serving_mono.
    + destruct Hpc as (t & ? & ?). eauto using serving_mono.
Qed.

(** What a step of server [i] may do: its objects are kept, dropped, or joined by
    one from its window; its window only grows beyond the saved time. *)
Definition objs_from (sv sv' : tso_server) : Prop :=
  ∀ l o, objs (sv_tso sv') !! l = Some o → physical o ≠ zeroTime →
    objs (sv_tso sv) !! l = Some o ∨
    l = length (objs (sv_tso sv)) ∧ logical o = 0 ∧ in_zone sv (ms (physical o)) ∧ ¬ in_zone sv' (ms (physical o)).

Lemma tso_inv_update S S' e srv reqs gs i sv sv' e' reqs' :
  tso_inv S (mkTsoWorld e srv reqs gs) → srv !! i = Some sv → sv_cfg sv' = sv_cfg sv →
  etcd_ok e' → saved_is (timestamp_path root) S' (etcd_view e') → S ≤ S' → ms S ≤ ms S' →
  (∀ v, v ≠ memberValue (sv_cfg sv) → etcd_view e' !! leader_path root = Some v →
     etcd_view e !! leader_path root = Some v ∧ S' = S) →
  server_inv S' sv' → leader_inv (leader_path root) S' (etcd_view e') sv' →
  (∀ x, in_zone sv' x → in_zone sv x ∨ ms S < x) →
  objs_from sv sv' →
  (∀ r, r ∈ reqs' → r ∈ reqs ∧ (r_server r = i → ∀ o, objs (sv_tso sv) !! r_obj r = Some o →
     objs (sv_tso sv') !! r_obj r = Some o)) →
  tso_inv S' (mkTsoWorld e' (<[i := sv']> srv) reqs' gs).
Proof.
  intros Hinv Hsv Hcfg He' HS' HSS Hms Hlead Hsi Hli Hz Ho Hr.
  pose proof (saved_time _ _ _ (ti_saved _ _ Hinv)) as HSt.
  set (w := mkTsoWorld e srv reqs gs) in *. set (w' := mkTsoWorld e' _ reqs' gs).
  assert (Hobj : ∀ j l o, is_obj (<[i := sv']> srv) j l o → is_obj srv j l o ∨
    j = i ∧ l = length (objs (sv_tso sv)) ∧ logical o = 0 ∧ in_zone sv (ms (physical o)) ∧ ¬ in_zone sv' (ms (physical o))).
  { intros j l o (sv0 & [[<- <-]|[Hj Hs]]%lookup_insert_Some & Hl & Hp).
    - destruct (Ho l o Hl Hp) as [?|?]; [left|right; tauto]. by exists sv.
    - left. by exists sv0. }
  assert (Hused : ∀ x, used w' x → used w x ∨ in_zone sv x ∧ ¬ in_zone sv' x).
  { intros x [(j & l & o & [Hjo|(-> & _ & _ & Hzo)]%Hobj & <-)|Hg]; [left; left; eauto|by right|by left; right]. }
  assert (Hzs : ∀ j svj x, srv !! j = Some svj → in_zone svj x → x ≤ ms S)
    by (intros j svj x Hj; apply zone_le; [done|by eapply (ti_server _ _ Hinv)]).
  split; cbn [tw_etcd tw_servers tw_grants tw_reqs w' w]; try done.
  - intros j svj [[<- <-]|[_ Hj]]%lookup_insert_Some; [rewrite Hcfg; by eapply (ti_root _ _ Hinv)|by eapply (ti_root _ _ Hinv)].
  - assert (Hc : ∀ j svj, <[i:=sv']> srv !! j = Some svj → ∃ sv0, srv !! j = Some sv0 ∧ sv_cfg sv0 = sv_cfg svj).
    { intros j svj [[<- <-]|[_ Hj]]%lookup_insert_Some; eauto. }
    intros j k svj svk (sv1 & H1 & <-)%Hc (sv2 & H2 & <-)%Hc. by eapply (ti_member _ _ Hinv).
  - intros j svj [[<- <-]|[_ Hj]]%lookup_insert_Some; [done|].
    eapply server_inv_mono; [done..|]. by eapply (ti_server _ _ Hinv).
  - intros j svj [[<- <-]|[Hij Hj]]%lookup_insert_Some; [done|]. intros Hl.
    destruct (Hlead _ (λ Heq, Hij (ti_member _ _ Hinv _ _ _ _ Hsv Hj (eq_sym Heq))) Hl) as [Hl' ->].
    by apply (ti_leader _ _ Hinv _ _ Hj).
  - intros x [Hu|[Hzx _]]%Hused; [apply (ti_used _ _ Hinv) in Hu; lia|]. apply (Hzs i sv) in Hzx; [lia|done].
  - intros j svj x [[<- <-]|[Hij Hj]]%lookup_insert_Some Hzx [Hu|[Hzi Hni]]%Hused.
    + apply Hz in Hzx as [Hzx|Hzx]; [by eapply (ti_zone _ _ Hinv)|]. apply (ti_used _ _ Hinv) in Hu. lia.
    + done.
    + by eapply (ti_zone _ _ Hinv).
    + exact (ti_zones _ _ Hinv i j sv svj x Hsv Hj Hij Hzi Hzx).
  - assert (Hd : ∀ j svj x, srv !! j = Some svj → i ≠ j → in_zone sv' x → ¬ in_zone svj x).
    { intros j svj x Hj Hij Hx Hx'. apply Hz in Hx as [Hx|Hx];
        [exact (ti_zones _ _ Hinv i j sv svj x Hsv Hj Hij Hx Hx')|].
      apply (Hzs j svj) in Hx'; [lia|done]. }
    intros j k svj svk x [[<- <-]|[Hij Hj]]%lookup_insert_Some [[<- <-]|[Hik Hk]]%lookup_insert_Some Hjk Hx Hx';
      [done|by eapply (Hd k svk x)|by eapply (Hd j svj x)|exact (ti_zones _ _ Hinv j k svj svk x Hj Hk Hjk Hx Hx')].
  - assert (Hfresh : ∀ j l o, is_obj srv j l o → ¬ in_zone sv (ms (physical o))).
    { intros j l o Hjo Hzo. eapply (ti_zone _ _ Hinv); [done|exact Hzo|]. left. eauto. }
    intros j k l m o p [Hjo|(-> & -> & _ & Hzo & _)]%Hobj [Hkp|(-> & -> & _ & Hzp & _)]%Hobj Heq; try done.
    + by eapply (ti_objs _ _ Hinv).
    + rewrite <-Heq in Hzp. by eapply Hfresh in Hzp.
    + rewrite Heq in Hzo. by eapply Hfresh in Hzo.
  - intros j l o g [Hjo|(-> & -> & _ & Hzo & _)]%Hobj Hg Hp; [by eapply (ti_logical _ _ Hinv)|].
    destruct (ti_zone _ _ Hinv _ _ _ Hsv Hzo). right. eauto.
  - by apply (ti_grants _ _ Hinv).
  - by apply (ti_counts _ _ Hinv).
  - intros r [Hrr Hri]%Hr. destruct (ti_reqs _ _ Hinv r Hrr) as (Hc & o & sv0 & H0 & Hl & Hp).
    split; [done|]. exists o. destruct (decide (r_server r = i)) as [Heq|Hne].
    + exists sv'. rewrite Heq in *. rewrite lookup_insert_eq. split_and!; [done| |done]. apply Hri; [done|]. cbn in H0. congruence.
    + exists sv0. by rewrite lookup_insert_ne.
Qed.

(** ** The steps *)

Lemma saved_keep S v v' p : saved_is p S v → v' !! p = v !! p → saved_is p S v'.
Proof. unfold saved_is. intros H ->. done. Qed.

Lemma objs_from_same sv sv' : objs (sv_tso sv') = objs (sv_tso sv) → objs_from sv sv'.
Proof. intros H l o. rewrite H. by left. Qed.

(** Not leading: the window is empty. *)
Definition pc_out (pc : tso_pc) : Prop :=
  match pc with PIdle | PSync | PSyncLoaded _ | PExit => True | _ => False end.

Lemma pc_out_zone s st pc x : pc_out pc → ¬ in_zone (mkTsoServer s st pc) x.
Proof. intros Hpc [_ Hz]. by destruct pc. Qed.

(** A step of a server that keeps its objects and after which it does not lead. *)
Lemma tso_inv_out S S' e srv reqs gs i s st pc e' pc' :
  tso_inv S (mkTsoWorld e srv reqs gs) → srv !! i = Some (mkTsoServer s st pc) → pc_out pc' →
  etcd_ok e' → saved_is (timestamp_path root) S' (etcd_view e') → S ≤ S' → ms S ≤ ms S' →
  (∀ v, v ≠ memberValue s → etcd_view e' !! leader_path root = Some v →
     etcd_view e !! leader_path root = Some v ∧ S' = S) →
  (∀ last, pc' = PSyncLoaded last → last = S') →
  tso_inv S' (mkTsoWorld e' (<[i := mkTsoServer s st pc']> srv) reqs gs).
Proof.
  intros Hinv Hs Hout He' HS' HSS Hms Hlead Hlast.
  destruct (ti_server _ _ Hinv _ _ Hs) as [Hi Ho _].
  eapply (tso_inv_update S S'); try done.
  - split; [done| |].
    + eapply Forall_impl; [exact Ho|]. intros o [[?|[? ?]] ?]; split; auto. right. split; [done|lia].
    + cbn. destruct pc'; try done. rewrite (Hlast _ eq_refl). split; [done|]. by eapply saved_time.
  - intros _. cbn. destruct pc'; try done. by rewrite (Hlast _ eq_refl).
  - intros x Hx. by apply pc_out_zone in Hx.
  - by apply objs_from_same.
Qed.

Lemma campaign_inv S e srv reqs gs i s st e' r :
  tso_inv S (mkTsoWorld e srv reqs gs) → srv !! i = Some (mkTsoServer s st PIdle) → campaignTxn s e = (e', r) →
  tso_inv S (mkTsoWorld e' (<[i := mkTsoServer s st (match r with inr _ => PSync | inl _ => PIdle end)]> srv) reqs gs).
Proof.
  intros Hinv Hs Hc. pose proof (ti_root _ _ Hinv _ _ Hs) as Hr. cbn in Hr.
  apply campaignTxn_law in Hc as [Hok Hv]; [|apply (ti_etcd _ _ Hinv)].
  unfold getLeaderPath in Hv. rewrite Hr in Hv. fold (leader_path root) in Hv.
  eapply tso_inv_out; try done; [by destruct r| | |by destruct r].
  - eapply saved_keep; [apply (ti_saved _ _ Hinv)|]. cbn [tw_etcd].
    destruct Hv as [[-> _]|[_ ->]]; [done|]. apply lookup_insert_ne. intros H. by apply paths_differ.
  - intros v Hne. destruct Hv as [[-> _]|[_ ->]]; [done|]. rewrite lookup_insert_eq. congruence.
Qed.

Lemma delete_leader_inv S e srv reqs gs i s st e' r :
  tso_inv S (mkTsoWorld e srv reqs gs) → srv !! i = Some (mkTsoServer s st PIdle) → deleteLeaderKey s e = (e', r) →
  tso_inv S (mkTsoWorld e' srv reqs gs).
Proof.
  intros Hinv Hs Hc. pose proof (ti_root _ _ Hinv _ _ Hs) as Hr. cbn in Hr.
  apply deleteLeaderKey_law in Hc as [Hok Hv]; [|apply (ti_etcd _ _ Hinv)].
  unfold getLeaderPath in Hv. rewrite Hr in Hv. fold (leader_path root) in Hv.
  rewrite <-(insert_id srv i (mkTsoServer s st PIdle)) by done.
  eapply tso_inv_out; try done.
  - eapply saved_keep; [apply (ti_saved _ _ Hinv)|]. cbn [tw_etcd].
    destruct Hv as [->|[_ ->]]; [done|]. apply lookup_delete_ne. intros H. by apply paths_differ.
  - intros v Hne. destruct Hv as [->|[_ ->]]; [done|]. by rewrite lookup_delete_eq.
Qed.

Lemma sync_load_inv S e srv reqs gs i s st e' r :
  tso_inv S (mkTsoWorld e srv reqs gs) → srv !! i = Some (mkTsoServer s st PSync) → loadTimestamp s e = (e', r) →
  tso_inv S (mkTsoWorld e' (<[i := mkTsoServer s st (match r with inr last => PSyncLoaded last | inl _ => PIdle end)]> srv) reqs gs).
Proof.
  intros Hinv Hs Hl. apply (loadTimestamp_law _ _ _ _ S) in Hl as (Hok & Hv & Hlast);
    [|apply (ti_etcd _ _ Hinv)|apply (ti_root _ _ Hinv _ _ Hs)|apply (ti_saved _ _ Hinv)].
  eapply tso_inv_out; try done; [by destruct r| | |].
  - rewrite Hv. apply (ti_saved _ _ Hinv).
  - intros v _. by rewrite Hv.
  - intros last Hr. destruct r as [?|t]; [done|]. injection Hr as ->. by apply Hlast.
Qed.

(** A save that returned an error, from a server that then does not lead. *)
Lemma save_fails_inv S e srv reqs gs i s st pc t e' pc' :
  tso_inv S (mkTsoWorld e srv reqs gs) → srv !! i = Some (mkTsoServer s st pc) → pc' = PIdle ∨ pc' = PExit →
  etcd_ok e' → etcd_view e' !! leader_path root = etcd_view e !! leader_path root →
  (etcd_view e' !! timestamp_path root = etcd_view e !! timestamp_path root ∨
   etcd_view e !! leader_path root = Some (memberValue s) ∧
   etcd_view e' !! timestamp_path root = Some (uint64ToBytes t)) →
  time_ok t → (etcd_view e !! leader_path root = Some (memberValue s) → S ≤ t ∧ ms S ≤ ms t) →
  ∃ S', S ≤ S' ∧ tso_inv S' (mkTsoWorld e' (<[i := mkTsoServer s st pc']> srv) reqs gs).
Proof.
  intros Hinv Hs Hpc Hok Hlp Hts Ht HSt. destruct Hts as [Hts|[Hl Hts]].
  - exists S. split; [done|]. eapply tso_inv_out; try done; [by destruct Hpc as [->| ->]| | |by destruct Hpc as [->| ->]].
    + eapply saved_keep; [apply (ti_saved _ _ Hinv)|done].
    + intros v _. by rewrite Hlp.
  - destruct (HSt Hl) as [? ?]. exists t. split; [done|].
    eapply tso_inv_out; try done; [by destruct Hpc as [->| ->]| | |by destruct Hpc as [->| ->]].
    + by left.
    + intros v Hne. rewrite Hlp. congruence.
Qed.

Lemma sync_save_bounds S s next_last now : time_ok S ∨ S = zeroTime → clock_ok now → next_last = sync_next S now →
  updateTimestampGuard ≤ TsoSaveInterval s → time_ok (next_last + TsoSaveInterval s) →
  time_ok next_last ∧ S < next_last ∧ ms S < ms next_last.
Proof.
  intros HS Hnow -> Hint Ht. unfold updateTimestampGuard in Hint. assert (HM : Millisecond = 1000000) by done.
  destruct HS as [HS| ->].
  - pose proof (sync_next_after S now HS Hnow) as Hn. unfold time_ok in *.
    split_and!; [lia..|]. apply ms_step; unfold time_ok; lia.
  - rewrite sync_next_zero in * by done. apply clock_time in Hnow as Hn. pose proof (ms_nonneg _ Hn).
    pose proof ms_zeroTime. split_and!; [done| |lia]. unfold time_ok, zeroTime in *. lia.
Qed.

Lemma sync_save_inv S e srv reqs gs i s st last now e' st' r :
  tso_inv S (mkTsoWorld e srv reqs gs) → srv !! i = Some (mkTsoServer s st (PSyncLoaded last)) → clock_ok now →
  time_ok (sync_next last now + TsoSaveInterval s) →
  saveTimestamp s (sync_next last now + TsoSaveInterval s) (e, st) = ((e', st'), r) →
  ∃ S', S ≤ S' ∧ tso_inv S' (mkTsoWorld e' (<[i := mkTsoServer s st'
    (match r with inr _ => PSyncSaved (sync_next last now) | inl _ => PIdle end)]> srv) reqs gs).
Proof.
  intros Hinv Hs Hnow Ht Hsave. destruct (ti_server _ _ Hinv _ _ Hs) as [Hint Ho [Hle Hlt]]. cbn in Hint, Ho.
  pose proof (ti_leader _ _ Hinv _ _ Hs) as Hlead. unfold leader_inv in Hlead. cbn in Hlead.
  pose proof (saved_time _ _ _ (ti_saved _ _ Hinv)) as HS.
  apply saveTimestamp_law in Hsave as (Hok & Hlp & Hts & Hres);
    [|apply (ti_etcd _ _ Hinv)|apply (ti_root _ _ Hinv _ _ Hs)|done].
  set (next := sync_next last now) in *.
  assert (HM : 0 < updateTimestampGuard) by done.
  assert (Hb : S = last → time_ok next ∧ S < next ∧ ms S < ms next).
  { intros Heq. apply (sync_save_bounds S s next now); try done. unfold next. by rewrite Heq. }
  assert (Hms : time_ok next → ms next ≤ ms (next + TsoSaveInterval s)) by (intros; apply ms_mono; [done..|lia]).
  destruct Hres as [(-> & -> & Hl & Hts')|([err ->] & ->)].
  - destruct (Hb (Hlead Hl)) as (Hn & Hlt' & Hmlt). specialize (Hms Hn). exists (next + TsoSaveInterval s). split; [lia|].
    eapply (tso_inv_update S); try done.
    + by left.
    + lia.
    + lia.
    + intros v Hne. rewrite Hlp. cbn in Hne. congruence.
    + split; [done| |].
      * eapply Forall_impl; [exact Ho|]. intros o [[?|[? ?]] ?]; split; auto. right. split; [done|lia].
      * cbn. split_and!; [done|lia|lia|done].
    + intros x [Hx1 Hx2]. cbn in Hx1, Hx2. right. lia.
    + by apply objs_from_same.
  - eapply save_fails_inv; try done; [by left|]. intros Hl. destruct (Hb (Hlead Hl)) as (Hn & ? & ?).
    specialize (Hms Hn). lia.
Qed.

Lemma load_ts_Some st l o : load_ts st = Some (l, o) ↔ ts st = Some l ∧ objs st !! l = Some o.
Proof.
  unfold load_ts. destruct (ts st) as [m|]; [|by split; [|intros []]]. cbn.
  destruct (objs st !! m) as [b|] eqn:Eb; cbn.
  - split; [intros [= -> ->]; done|]. intros [[= ->] ?]. congruence.
  - split; [done|]. intros [[= ->] ?]. congruence.
Qed.

Lemma load_store t st : load_ts (store_ts t st) = Some (length (objs st), mkAtomicObject t 0).
Proof. unfold load_ts, store_ts. cbn. by rewrite list_lookup_middle. Qed.

Lemma current_store t u st : current (store_ts t st) u ↔ u = t.
Proof.
  unfold current. rewrite load_store. split.
  - by intros (? & ? & [= <- <-] & <-).
  - intros ->. eauto.
Qed.

Lemma current_inj st t u : current st t → current st u → t = u.
Proof. intros (? & ? & H & <-) (? & ? & H' & <-). congruence. Qed.

(** Storing an object from the window. *)
Lemma store_inv S e srv reqs gs i s st pc next :
  tso_inv S (mkTsoWorld e srv reqs gs) → srv !! i = Some (mkTsoServer s st pc) →
  time_ok next → next < lastSavedTime st → lastSavedTime st ≤ S → time_ok (lastSavedTime st) →
  (∀ x, ms next ≤ x ≤ ms (lastSavedTime st) → in_zone (mkTsoServer s st pc) x) →
  (etcd_view e !! leader_path root = Some (memberValue s) → S = lastSavedTime st) →
  tso_inv S (mkTsoWorld e (<[i := mkTsoServer s (store_ts next st) PServe]> srv) reqs gs).
Proof.
  intros Hinv Hs Hn Hlt HlS Hlo Hz Hlead. destruct (ti_server _ _ Hinv _ _ Hs) as [Hint Ho _]. cbn in Hint, Ho.
  pose proof (saved_time _ _ _ (ti_saved _ _ Hinv)) as HS.
  destruct (le_saved S next) as [_ HnS]; [done..|lia|].
  assert (Hms : ms next ≤ ms (lastSavedTime st)) by (apply ms_mono; [done..|lia]).
  eapply (tso_inv_update S); try done.
  - apply (ti_etcd _ _ Hinv).
  - apply (ti_saved _ _ Hinv).
  - split; [done| |].
    + cbn. apply Forall_app. split; [done|]. apply Forall_singleton. split; [by right|done].
    + cbn. exists next. split; [by apply current_store|done].
  - intros x [Hx1 Hx2]. cbn in Hx1, Hx2. left. apply Hz. specialize (Hx2 next (proj2 (current_store _ _ _) eq_refl)). lia.
  - intros l o. cbn. intros [?|[Hl Ho']]%lookup_app_Some _; [by left|right].
    apply list_lookup_singleton_Some in Ho' as [Hl' <-]. cbn. split_and!; [lia|done|apply Hz; lia|].
    intros [_ Hx]. cbn in Hx. specialize (Hx next (proj2 (current_store _ _ _) eq_refl)). lia.
  - intros r Hr. split; [done|]. intros _ o Ho'. cbn. by apply lookup_app_l_Some.
Qed.

Lemma sync_store_inv S e srv reqs gs i s st next :
  tso_inv S (mkTsoWorld e srv reqs gs) → srv !! i = Some (mkTsoServer s st (PSyncSaved next)) →
  tso_inv S (mkTsoWorld e (<[i := mkTsoServer s (store_ts next st) PServe]> srv) reqs gs).
Proof.
  intros Hinv Hs. destruct (ti_server _ _ Hinv _ _ Hs) as [_ _ (H1 & H2 & H3 & H4)]. cbn in *.
  eapply store_inv; try done.
  - intros x [Hx1 Hx2]. by split.
  - apply (ti_leader _ _ Hinv _ _ Hs).
Qed.

Lemma update_start_inv S e srv reqs gs i s st l prev now next :
  tso_inv S (mkTsoWorld e srv reqs gs) → srv !! i = Some (mkTsoServer s st PServe) → clock_ok now →
  load_ts st = Some (l, prev) → update_next prev now = Some next → time_ok (next + TsoSaveInterval s) →
  tso_inv S (mkTsoWorld e (<[i := mkTsoServer s st (if must_save st next then PUpdate next else PUpdateSaved next)]> srv) reqs gs).
Proof.
  intros Hinv Hs Hnow Hl Hnext Ht. destruct (ti_server _ _ Hinv _ _ Hs) as [Hint Ho [t Hserv]]. cbn in Hint, Ho, Hserv.
  assert (HM : 0 < updateTimestampGuard ∧ 0 < Millisecond) by done. pose proof Hserv as (Hcur & Hto & Hlt & HlS & Hlo).
  assert (physical prev = t) as Hp by (destruct Hcur as (? & ? & ? & <-); congruence).
  apply update_next_after in Hnext; [|by rewrite Hp|done]. rewrite Hp in Hnext.
  assert (Hno : time_ok next) by (unfold time_ok in *; lia).
  pose proof (must_save_spec st next Hlo Hno) as Hms.
  eapply (tso_inv_update S); try done.
  - apply (ti_etcd _ _ Hinv).
  - apply (ti_saved _ _ Hinv).
  - split; [done..|]. cbn. destruct (must_save st next).
    + exists t. split_and!; [done..|]. by apply Hms.
    + exists t. split_and!; [done..|]. destruct (decide (lastSavedTime st ≤ next + Millisecond)) as [Hd|Hd]; [by apply Hms in Hd|lia].
  - pose proof (ti_leader _ _ Hinv _ _ Hs) as Hlead. unfold leader_inv in *. cbn in *. by destruct (must_save st next).
  - intros x [Hx1 Hx2]. left. split; [done|]. cbn in *. by destruct (must_save st next).
  - by apply objs_from_same.
Qed.

Lemma update_save_inv S e srv reqs gs i s st next e' st' r :
  tso_inv S (mkTsoWorld e srv reqs gs) → srv !! i = Some (mkTsoServer s st (PUpdate next)) →
  saveTimestamp s (next + TsoSaveInterval s) (e, st) = ((e', st'), r) →
  ∃ S', S ≤ S' ∧ tso_inv S' (mkTsoWorld e' (<[i := mkTsoServer s st'
    (match r with inr _ => PUpdateSaved next | inl _ => PExit end)]> srv) reqs gs).
Proof.
  intros Hinv Hs Hsave. destruct (ti_server _ _ Hinv _ _ Hs) as [Hint Ho (t & Hserv & Hnext & Ht & Hmust)]. cbn in Hint, Ho, Hserv, Ht, Hmust.
  pose proof (ti_leader _ _ Hinv _ _ Hs) as Hlead. unfold leader_inv in Hlead. cbn in Hlead.
  pose proof Hserv as (Hcur & Hto & Hlt & HlS & Hlo).
  apply saveTimestamp_law in Hsave as (Hok & Hlp & Hts & Hres);
    [|apply (ti_etcd _ _ Hinv)|apply (ti_root _ _ Hinv _ _ Hs)|done].
  assert (HM : 0 < updateTimestampGuard ∧ updateTimestampGuard = Millisecond) by done.
  assert (Hb : S = lastSavedTime st → S ≤ next + TsoSaveInterval s ∧ ms S ≤ ms (next + TsoSaveInterval s)).
  { intros ->. split; [lia|]. apply ms_mono; [done..|lia]. }
  destruct Hres as [(-> & -> & Hl & Hts')|([err ->] & ->)].
  - pose proof (Hlead Hl) as HS. destruct (Hb HS) as [Hb1 Hb2]. exists (next + TsoSaveInterval s). split; [lia|].
    eapply (tso_inv_update S); try done.
    + by left.
    + intros v Hne. rewrite Hlp. cbn in Hne. congruence.
    + split; [done| |].
      * eapply Forall_impl; [exact Ho|]. intros o [[?|[? ?]] ?]; split; auto. right. split; [done|lia].
      * cbn. exists t. unfold serving. cbn. split_and!; [done|done|lia|lia|done|done|lia].
    + intros x [Hx1 Hx2]. cbn in Hx1, Hx2. destruct (decide (x ≤ ms S)); [left|right; lia].
      split; cbn; [by rewrite <-HS|done].
    + by apply objs_from_same.
  - eapply save_fails_inv; try done; [by right|]. intros Hl. by apply Hb, Hlead.
Qed.

Lemma update_store_inv S e srv reqs gs i s st next :
  tso_inv S (mkTsoWorld e srv reqs gs) → srv !! i = Some (mkTsoServer s st (PUpdateSaved next)) →
  tso_inv S (mkTsoWorld e (<[i := mkTsoServer s (store_ts next st) PServe]> srv) reqs gs).
Proof.
  intros Hinv Hs. destruct (ti_server _ _ Hinv _ _ Hs) as [_ _ (t & (Hcur & Hto & Hlt & HlS & Hlo) & Hnext & Hlt')]. cbn in *.
  assert (HM : 0 < Millisecond) by done. assert (Hn : time_ok next) by (unfold time_ok in *; lia).
  eapply store_inv; try done.
  - intros x [Hx1 Hx2]. split; [done|]. cbn. intros u Hu. rewrite (current_inj _ _ _ Hu Hcur).
    pose proof (ms_step t next Hto Hn Hnext). lia.
  - apply (ti_leader _ _ Hinv _ _ Hs).
Qed.

Lemma exit_inv S e srv reqs gs i s st pc :
  tso_inv S (mkTsoWorld e srv reqs gs) → srv !! i = Some (mkTsoServer s st pc) →
  tso_inv S (mkTsoWorld e (<[i := mkTsoServer s (store_ts zeroTime st) PIdle]> srv) reqs gs).
Proof.
  intros Hinv Hs. destruct (ti_server _ _ Hinv _ _ Hs) as [Hint Ho _]. cbn in Hint, Ho.
  eapply (tso_inv_update S); try done.
  - apply (ti_etcd _ _ Hinv).
  - apply (ti_saved _ _ Hinv).
  - split; [done| |done]. cbn. apply Forall_app. split; [done|]. apply Forall_singleton. split; [by left|done].
  - intros x Hx. by apply pc_out_zone in Hx.
  - intros l o. cbn. intros [?|[_ Ho']]%lookup_app_Some Hp; [by left|].
    apply list_lookup_singleton_Some in Ho' as [_ <-]. done.
  - intros r Hr. split; [done|]. intros _ o Ho'. cbn. by apply lookup_app_l_Some.
Qed.

Lemma restart_inv S e srv reqs gs i s st pc :
  tso_inv S (mkTsoWorld e srv reqs gs) → srv !! i = Some (mkTsoServer s st pc) →
  tso_inv S (mkTsoWorld e (<[i := mkTsoServer s tso_init PIdle]> srv) (filter (λ r, r_server r ≠ i) reqs) gs).
Proof.
  intros Hinv Hs. destruct (ti_server _ _ Hinv _ _ Hs) as [Hint Ho _]. cbn in Hint.
  eapply (tso_inv_update S); try done.
  - apply (ti_etcd _ _ Hinv).
  - apply (ti_saved _ _ Hinv).
  - intros x Hx. by apply pc_out_zone in Hx.
  - intros r [Hne Hr]%list_elem_of_filter. by split.
Qed.

Lemma request_load_inv S e srv reqs gs i s st pc l o count :
  tso_inv S (mkTsoWorld e srv reqs gs) → srv !! i = Some (mkTsoServer s st pc) → load_ts st = Some (l, o) →
  physical o ≠ zeroTime → 0 < count →
  tso_inv S (mkTsoWorld e srv (mkRequest i l count :: reqs) gs).
Proof.
  intros [] Hs Hl Hp Hc. split; try done. intros r [->|Hr]%elem_of_cons; [|by auto].
  split; [done|]. exists o, (mkTsoServer s st pc). split_and!; [done| |done].
  by apply load_ts_Some in Hl as [_ ?].
Qed.

Lemma env_inv S e srv reqs gs e' :
  tso_inv S (mkTsoWorld e srv reqs gs) → etcd_ok e' →
  etcd_view e' !! timestamp_path root = etcd_view e !! timestamp_path root →
  (etcd_view e' !! leader_path root = None ∨ etcd_view e' !! leader_path root = etcd_view e !! leader_path root) →
  tso_inv S (mkTsoWorld e' srv reqs gs).
Proof.
  intros [] Hok Hts Hlp. split; try done.
  - by eapply saved_keep.
  - intros i sv Hs Hl. apply (ti_leader0 i sv Hs). cbn in *. destruct Hlp; congruence.
Qed.

(** ** The atomic addition *)

Definition bump (count : Z) (o : atomicObject) : atomicObject :=
  mkAtomicObject (physical o) (int64 (logical o + count)).

Lemma add_logical_lookup st l count m o : objs (add_logical l count st) !! m = Some o ↔
  m ≠ l ∧ objs st !! m = Some o ∨ m = l ∧ ∃ o0, objs st !! l = Some o0 ∧ o = bump count o0.
Proof.
  unfold add_logical. cbn [objs]. destruct (decide (m = l)) as [->|Hne].
  - rewrite list_lookup_alter_eq. destruct (objs st !! l) as [o0|]; split; cbn.
    + intros Heq. right. split; [done|]. exists o0. unfold bump. split; [done|congruence].
    + intros [[? _]|(_ & ? & [= <-] & ->)]; done.
    + done.
    + by intros [[? _]|(_ & ? & ? & _)].
  - rewrite list_lookup_alter_ne by done. split; [by left|]. by intros [[_ ?]|[? _]].
Qed.

Lemma current_add st l count t : current (add_logical l count st) t ↔ current st t.
Proof.
  assert (Hobj : ∀ m, physical <$> objs (add_logical l count st) !! m = physical <$> objs st !! m).
  { intros m. unfold add_logical. cbn [objs]. destruct (decide (l = m)) as [->|].
    - rewrite list_lookup_alter_eq. by destruct (objs st !! m).
    - by rewrite list_lookup_alter_ne. }
  unfold current. split; intros (m & o & [Ht Ho]%load_ts_Some & <-); specialize (Hobj m); rewrite Ho in Hobj.
  - destruct (objs st !! m) as [b|] eqn:Eb; [|done]. exists m, b. rewrite load_ts_Some. injection Hobj as Hobj. done.
  - destruct (objs (add_logical l count st) !! m) as [b|] eqn:Eb; [|done].
    exists m, b. rewrite load_ts_Some. injection Hobj as Hobj. done.
Qed.

Lemma zone_add s st pc l count x :
  in_zone (mkTsoServer s (add_logical l count st) pc) x ↔ in_zone (mkTsoServer s st pc) x.
Proof.
  unfold in_zone. cbn. destruct pc; try done; (split; intros [? H]; (split; [done|]);
    intros t Ht; apply H; by apply current_add in Ht || apply current_add).
Qed.

Lemma server_inv_add S s st pc l o count : objs st !! l = Some o → 0 < count → logical o + count < 2 ^ 63 →
  server_inv S (mkTsoServer s st pc) → server_inv S (mkTsoServer s (add_logical l count st) pc).
Proof.
  intros Hl Hc Hb [Hi Ho Hpc]. cbn in *. rewrite Forall_lookup in Ho.
  assert (Hserv : ∀ t, serving S st t → serving S (add_logical l count st) t).
  { intros t (? & ?). split; [by apply current_add|done]. }
  split; cbn; [done| |destruct pc; try done; destruct Hpc as [t Ht]; exists t; tauto || intuition auto].
  apply Forall_lookup. intros m p [[_ Hp]|(-> & o0 & Ho0 & ->)]%add_logical_lookup; [by eapply Ho|].
  destruct (Ho _ _ Ho0) as [? ?]. simplify_eq. split; [done|]. cbn. rewrite int64_small; lia.
Qed.

Lemma is_obj_add srv i s st pc l count j m p : srv !! i = Some (mkTsoServer s st pc) →
  is_obj (<[i := mkTsoServer s (add_logical l count st) pc]> srv) j m p →
  ∃ p0, is_obj srv j m p0 ∧ physical p = physical p0 ∧
    ((j, m) ≠ (i, l) ∧ p = p0 ∨ (j, m) = (i, l) ∧ p = bump count p0).
Proof.
  intros Hs (sv & [[<- <-]|[Hne Hj]]%lookup_insert_Some & Hm & Hp); cbn in Hm.
  - apply add_logical_lookup in Hm as [[Hml Hm]|(-> & p0 & Hp0 & ->)].
    + exists p. split_and!; [by eexists|done|left]. split; [congruence|done].
    + exists p0. split_and!; [by eexists|done|by right].
  - exists p. split_and!; [by eexists|done|left]. split; [congruence|done].
Qed.

(** The response of an addition takes timestamps above all given from the object. *)
Lemma request_add_inv S e srv reqs1 reqs2 gs i s st pc l o count :
  tso_inv S (mkTsoWorld e srv (reqs1 ++ mkRequest i l count :: reqs2) gs) →
  srv !! i = Some (mkTsoServer s st pc) → objs st !! l = Some o → logical o + count < 2 ^ 63 →
  tso_inv S (mkTsoWorld e (<[i := mkTsoServer s (add_logical l count st) pc]> srv) (reqs1 ++ reqs2)
    (if maxLogical <=? resp_logical o count then gs
     else mkGrant (resp_physical o) (resp_logical o count) count :: gs)).
Proof.
  intros Hinv Hs Hl Hb. set (sv' := mkTsoServer s (add_logical l count st) pc).
  destruct (ti_reqs _ _ Hinv (mkRequest i l count)) as (Hc & o1 & Ho1); [apply elem_of_app; right; left|].
  cbn in Hc, Ho1. assert (o1 = o) as -> by (destruct Ho1 as (? & ? & ? & _); simplify_eq/=; congruence).
  destruct (ti_server _ _ Hinv _ _ Hs) as [_ Ho _]. cbn in Ho. rewrite Forall_lookup in Ho.
  destruct (Ho l o Hl) as [_ Hpos].
  assert (Hlog : resp_logical o count = logical o + count) by (unfold resp_logical; rewrite int64_small; lia).
  set (g := mkGrant (resp_physical o) (resp_logical o count) count).
  set (gs' := if _ <=? _ then gs else _).
  assert (Hgs : ∀ h, h ∈ gs' → h ∈ gs ∨ h = g).
  { unfold gs'. case_match; [by left|]. intros h [->|?]%elem_of_cons; auto. }
  assert (Hobj : ∀ j m p, is_obj (<[i := sv']> srv) j m p → ∃ p0, is_obj srv j m p0 ∧ physical p = physical p0 ∧
    ((j, m) ≠ (i, l) ∧ p = p0 ∨ (j, m) = (i, l) ∧ p = bump count p0)) by (intros; by eapply is_obj_add).
  assert (Hused : ∀ x, used (mkTsoWorld e (<[i := sv']> srv) (reqs1 ++ reqs2) gs') x →
    used (mkTsoWorld e srv (reqs1 ++ mkRequest i l count :: reqs2) gs) x).
  { intros x [(j & m & p & (p0 & Hp0 & Hph & _)%Hobj & Hx)|(h & [Hh| ->]%Hgs & Hx)].
    - left. rewrite Hph in Hx. cbn. eauto.
    - right. eauto.
    - left. exists i, l, o. done. }
  assert (Hsv : ∀ j svj, <[i := sv']> srv !! j = Some svj → ∃ sv0, srv !! j = Some sv0 ∧ sv_cfg sv0 = sv_cfg svj ∧
    (∀ x, in_zone svj x ↔ in_zone sv0 x) ∧ server_inv S svj ∧
    leader_inv (leader_path root) S (etcd_view e) svj).
  { intros j svj [[<- <-]|[_ Hj]]%lookup_insert_Some.
    - eexists. split_and!; [done|done|by intros; apply zone_add| |].
      + eapply server_inv_add; [done..|]. by eapply (ti_server _ _ Hinv).
      + pose proof (ti_leader _ _ Hinv _ _ Hs) as Hli. done.
    - exists svj. split_and!; try done; [by eapply (ti_server _ _ Hinv)|by eapply (ti_leader _ _ Hinv _ _ Hj)]. }
  assert (Hmax : ∀ j m p h, is_obj srv j m p → h ∈ gs → g_physical h = ms (physical p) → g_logical h ≤ logical p)
    by (intros; by eapply (ti_logical _ _ Hinv)).
  split; cbn [tw_etcd tw_servers tw_reqs tw_grants].
  - apply (ti_etcd _ _ Hinv).
  - apply (ti_saved _ _ Hinv).
  - intros j svj (sv0 & Hj & <- & _)%Hsv. by eapply (ti_root _ _ Hinv).
  - intros j k svj svk (sv0 & Hj & <- & _)%Hsv (sv1 & Hk & <- & _)%Hsv. by eapply (ti_member _ _ Hinv).
  - intros j svj (sv0 & _ & _ & _ & ? & _)%Hsv. done.
  - intros j svj (sv0 & _ & _ & _ & _ & ?)%Hsv. done.
  - intros x Hx%Hused. by apply (ti_used _ _ Hinv).
  - intros j svj x (sv0 & Hj & _ & Hz & _)%Hsv Hx%Hz Hu%Hused. by eapply (ti_zone _ _ Hinv).
  - intros j k svj svk x (sv0 & Hj & _ & Hz & _)%Hsv (sv1 & Hk & _ & Hz' & _)%Hsv Hne Hx%Hz Hx'%Hz'.
    exact (ti_zones _ _ Hinv j k sv0 sv1 x Hj Hk Hne Hx Hx').
  - intros j k m n p q (p0 & Hp & Hpe & _)%Hobj (q0 & Hq & Hqe & _)%Hobj. rewrite Hpe, Hqe. by apply (ti_objs _ _ Hinv).
  - intros j m p h (p0 & Hp & Hpe & Hcase)%Hobj [Hh| ->]%Hgs.
    + rewrite Hpe. intros Hph. specialize (Hmax _ _ _ _ Hp Hh Hph).
      destruct Hcase as [[_ ->]|[[= -> ->] ->]]; [done|]. assert (p0 = o) as ->.
      { destruct Hp as (? & ? & ? & _). simplify_eq/=. congruence. }
      cbn. unfold resp_logical in Hlog. lia.
    + cbn. intros Hph. destruct (ti_objs _ _ Hinv _ _ _ _ _ _ Ho1 Hp) as [-> ->]; [by rewrite <-Hpe|].
      destruct Hcase as [[? _]|[_ ->]]; [done|]. assert (p0 = o) as ->; [|done].
      destruct Hp as (? & ? & ? & _). simplify_eq/=. congruence.
  - unfold gs'. case_match; [apply (ti_grants _ _ Hinv)|]. constructor; [|apply (ti_grants _ _ Hinv)].
    apply list.Forall_forall. intros h Hh Hph. right. cbn in Hph |- *.
    specialize (Hmax _ _ _ h Ho1 Hh (eq_sym Hph)). lia.
  - unfold gs'. destruct (Z.leb_spec maxLogical (resp_logical o count)); [apply (ti_counts _ _ Hinv)|].
    intros h [->|Hh]%elem_of_cons; [cbn; lia|by apply (ti_counts _ _ Hinv)].
  - intros r Hr. destruct (ti_reqs _ _ Hinv r) as (Hrc & p & svr & Hsr & Hpr & Hpz).
    { cbn. rewrite elem_of_app in *. rewrite elem_of_cons. tauto. }
    split; [done|]. cbn in Hsr. destruct (decide (r_server r = i)) as [Heq|Hne].
    + rewrite Heq in Hsr. rewrite Hs in Hsr. injection Hsr as <-. cbn in Hpr.
      destruct (decide (r_obj r = l)) as [Heq'|Hne'].
      * exists (bump count p), sv'. rewrite Heq, lookup_insert_eq. split_and!; [done| |done].
        apply add_logical_lookup. right. split; [done|]. exists p. by rewrite <-Heq'.
      * exists p, sv'. rewrite Heq, lookup_insert_eq. split_and!; [done| |done]. apply add_logical_lookup. by left.
    + exists p, svr. by rewrite lookup_insert_ne.
Qed.

Lemma tso_step_inv S w w' : tso_inv S w → tso_step root w w' → ∃ S', S ≤ S' ∧ tso_inv S' w'.
Proof.
  intros Hinv Hst. destruct Hst.
  - exists S. split; [done|]. by eapply campaign_inv.
  - exists S. split; [done|]. by eapply delete_leader_inv.
  - exists S. split; [done|]. by eapply sync_load_inv.
  - by eapply sync_save_inv.
  - exists S. split; [done|]. by eapply sync_store_inv.
  - exists S. split; [done|]. by eapply update_start_inv.
  - by eapply update_save_inv.
  - exists S. split; [done|]. by eapply update_store_inv.
  - exists S. split; [done|]. by eapply exit_inv.
  - exists S. split; [done|]. eapply request_load_inv; try done. lia.
  - exists S. split; [done|]. by eapply request_add_inv.
  - exists S. split; [done|]. by eapply restart_inv.
  - exists S. split; [done|]. by eapply env_inv.
Qed.

(** ** Uniqueness *)

(** The servers before any of them campaigned. *)
Record tso_start (S : Z) w : Prop := {
  ts_etcd : etcd_ok (tw_etcd w);
  ts_saved : saved_is (timestamp_path root) S (etcd_view (tw_etcd w));
  ts_servers i sv : tw_servers w !! i = Some sv →
    rootPath (sv_cfg sv) = root ∧ updateTimestampGuard ≤ TsoSaveInterval (sv_cfg sv) ∧
    sv_tso sv = tso_init ∧ sv_pc sv = PIdle;
  ts_member i j sv sv' : tw_servers w !! i = Some sv → tw_servers w !! j = Some sv' →
    memberValue (sv_cfg sv) = memberValue (sv_cfg sv') → i = j;
  ts_quiet : tw_reqs w = [] ∧ tw_grants w = [];
}.

Lemma tso_start_inv S w : tso_start S w → tso_inv S w.
Proof.
  intros [He HS Hs Hm [Hr Hg]].
  assert (Hno : ∀ i l o, ¬ is_obj (tw_servers w) i l o).
  { intros i l o (sv & Hi & Hl & _). apply Hs in Hi as (_ & _ & H & _). by rewrite H in Hl. }
  assert (Hnz : ∀ i sv x, tw_servers w !! i = Some sv → ¬ in_zone sv x).
  { intros i sv x Hi [_ Hz]. apply Hs in Hi as (_ & _ & _ & Hpc). by rewrite Hpc in Hz. }
  assert (Hnu : ∀ x, ¬ used w x).
  { intros x [(? & ? & ? & ? & _)|(g & H & _)]; [by eapply Hno|]. rewrite Hg in H. by apply not_elem_of_nil in H. }
  split; try done.
  - intros i sv Hi. by apply Hs in Hi as (? & _).
  - intros i sv Hi. apply Hs in Hi as (_ & Hint & Hst & Hpc). split; [done| |by rewrite Hpc]. rewrite Hst. constructor.
  - intros i sv Hi _. apply Hs in Hi as (_ & _ & _ & Hpc). by rewrite Hpc.
  - intros x Hu. by apply Hnu in Hu.
  - intros i j sv sv' x Hi _ _ Hz. by destruct (Hnz i sv x).
  - intros i j l m o p Ho. by apply Hno in Ho.
  - intros i l o g Ho. by apply Hno in Ho.
  - rewrite Hg. constructor.
  - rewrite Hg. by intros g ?%not_elem_of_nil.
  - rewrite Hr. by intros r ?%not_elem_of_nil.
Qed.

Lemma tso_run_inv S w w' : tso_inv S w → tso_run root w w' → ∃ S', S ≤ S' ∧ tso_inv S' w'.
Proof.
  intros Hi Hr. revert S Hi. induction Hr as [w|w w1 w' Hst _ IH]; intros S Hi; [by exists S|].
  destruct (tso_step_inv _ _ _ Hi Hst) as (S1 & ? & H1). destruct (IH _ H1) as (S2 & ? & ?). exists S2. split; [lia|done].
Qed.

(** The 64-bit timestamp a client makes of a response's physical part and one of
    its logical parts, and the timestamps a response stands for. *)
Definition compose_ts (p l : Z) : Z := Z.shiftl p 18 + l.

Definition granted (g : grant) (t : Z) : Prop :=
  ∃ l, g_logical g - g_count g < l ≤ g_logical g ∧ t = compose_ts (g_physical g) l.

Lemma ForallOrdPairs_lookup {A} (R : A → A → Prop) l i j x y : ForallOrdPairs R l →
  (i < j)%nat → l !! i = Some x → l !! j = Some y → R x y.
Proof.
  intros Hl. revert i j. induction Hl as [|z l Hz Hl IH]; intros i j Hij Hi Hj; [done|].
  destruct j as [|j]; [lia|]. destruct i as [|i]; simplify_eq/=.
  - rewrite list.Forall_forall in Hz. eapply Hz. by eapply list_elem_of_lookup_2.
  - eapply (IH i j); [lia|done..].
Qed.

Lemma compose_ts_inj p l q m : 0 ≤ l < maxLogical → 0 ≤ m < maxLogical →
  compose_ts p l = compose_ts q m → p = q ∧ l = m.
Proof.
  unfold compose_ts, maxLogical. rewrite !Z.shiftl_mul_pow2 by lia. change (1 * 2 ^ 18) with (2 ^ 18). lia.
Qed.

(** C3: However the servers' leader goroutines and requests interleave, with
    elections, expired leases, lost requests and answers, clocks that disagree
    and go back, and restarts, no timestamp belongs to two responses. *)
Theorem tso_unique S w w' i j g h t :
  tso_start S w → tso_run root w w' →
  tw_grants w' !! i = Some g → tw_grants w' !! j = Some h → granted g t → granted h t → i = j.
Proof.
  intros Hs Hr Hg Hh (l & Hl & ->) (m & Hm & Heq).
  destruct (tso_run_inv _ _ _ (tso_start_inv _ _ Hs) Hr) as (S' & _ & Hi).
  pose proof (ti_counts _ _ Hi g) as Hcg. pose proof (ti_counts _ _ Hi h) as Hch.
  specialize (Hcg ltac:(by eapply list_elem_of_lookup_2)). specialize (Hch ltac:(by eapply list_elem_of_lookup_2)).
  apply compose_ts_inj in Heq as [Hp Hlm]; [|lia..]. pose proof (ti_grants _ _ Hi) as Hd.
  destruct (Nat.lt_trichotomy i j) as [Hij|[->|Hij]]; [|done|].
  - apply (ForallOrdPairs_lookup _ _ _ _ _ _ Hd Hij Hg) in Hh. unfold grants_disjoint in Hh. lia.
  - apply (ForallOrdPairs_lookup _ _ _ _ _ _ Hd Hij Hh) in Hg. unfold grants_disjoint in Hg. lia.
Qed.

(** ** The window *)

Definition pc_serving (pc : tso_pc) : bool :=
  match pc with PServe | PUpdate _ | PUpdateSaved _ => true | _ => false end.

Lemma serving_current S sv : server_inv S sv → pc_serving (sv_pc sv) = true →
  ∃ t, serving S (sv_tso sv) t.
Proof. intros [_ _ H] Hpc. destruct (sv_pc sv); try done; destruct H as [t ?]; exists t; intuition. Qed.

(** The physical time of a serving server does not go back in a step. *)
Lemma physical_grows S w w' i sv sv' t t' : tso_inv S w → tso_step root w w' →
  tw_servers w !! i = Some sv → tw_servers w' !! i = Some sv' →
  pc_serving (sv_pc sv) = true → pc_serving (sv_pc sv') = true →
  current (sv_tso sv) t → current (sv_tso sv') t' → t ≤ t'.
Proof.
  intros Hinv Hst Hs Hs' Hpc Hpc' Hc Hc'.
  assert (Hsame : sv_tso sv' = sv_tso sv → t ≤ t').
  { intros He. rewrite He in Hc'. by rewrite (current_inj _ _ _ Hc Hc'). }
  destruct Hst as [|? ? ? ? j s st e' r Hj|? ? ? ? j s st e' r Hj|? ? ? ? j s st ? ? e' st' r Hj|? ? ? ? j s st ? Hj|? ? ? ? j s st ? ? ? ? Hj
    |? ? ? ? j s st ? e' st' r Hj Hsave|? ? ? ? j s st next Hj| | |? ? ? ? ? j s st pc l o count Hj| |];
    cbn in Hs, Hs'; try (apply lookup_insert_Some in Hs' as [[<- <-]|[_ Hs']]); simplify_eq/=; try (by apply Hsame); try done.
  - assert (Hk : current st t').
    { unfold saveTimestamp in Hsave. destruct (saveTxn _ _ _) as [? [?|?]]; injection Hsave as <- <- <-; exact Hc'. }
    by rewrite (current_inj _ _ _ Hc Hk).
  - apply current_store in Hc' as ->. destruct (ti_server _ _ Hinv _ _ Hj) as [_ _ (u & (Hu & _) & Hn & _)].
    rewrite (current_inj _ _ _ Hc Hu). assert (0 < Millisecond) by done. lia.
  - apply (current_add st l count) in Hc'. by rewrite (current_inj _ _ _ Hc Hc').
Qed.

(** C19: The constraints stated at [updateTimestamp], in every state reached and
    for every further step: the saved time never decreases, the physical time of
    a serving server is less than the saved one, and it never decreases while the
    server serves. *)
Theorem tso_window S w w1 w2 : tso_start S w → tso_run root w w1 → tso_step root w1 w2 →
  ∃ S1 S2, saved_is (timestamp_path root) S1 (etcd_view (tw_etcd w1)) ∧
    saved_is (timestamp_path root) S2 (etcd_view (tw_etcd w2)) ∧ S ≤ S1 ≤ S2 ∧
    ∀ i sv, tw_servers w1 !! i = Some sv → pc_serving (sv_pc sv) = true →
      ∃ t, current (sv_tso sv) t ∧ t < lastSavedTime (sv_tso sv) ≤ S1 ∧
      ∀ sv' t', tw_servers w2 !! i = Some sv' → pc_serving (sv_pc sv') = true →
        current (sv_tso sv') t' → t ≤ t'.
Proof.
  intros Hs Hr Hst. destruct (tso_run_inv _ _ _ (tso_start_inv _ _ Hs) Hr) as (S1 & ? & Hi).
  destruct (tso_step_inv _ _ _ Hi Hst) as (S2 & ? & Hi2). exists S1, S2.
  split_and!; [apply (ti_saved _ _ Hi)|apply (ti_saved _ _ Hi2)|lia|lia|].
  intros i sv Hsv Hpc. destruct (serving_current S1 sv) as (t & Hc & _ & Hlt & Hle & _);
    [by eapply (ti_server _ _ Hi)|done|].
  exists t. split_and!; [done|done|done|]. intros sv' t' Hsv' Hpc' Hc'.
  exact (physical_grows S1 w1 w2 i sv sv' t t' Hi Hst Hsv Hsv' Hpc Hpc' Hc Hc').
Qed.
End invariant.

(** ** One leader *)

Section leader.
Context {E : Type} `{!Etcd E}.

(** A leader's updates that succeed and the rounds of its requests, in some
    order; the responses with their counts. *)
Inductive leader_run (s : serverCfg) : E → tsoState → list grant → Prop :=
| leader_stop e st : leader_run s e st []
| leader_update e st now e' st' gs :
    clock_ok now → updateTimestamp s now (e, st) = ((e', st'), inr ()) →
    (∀ t, current st' t → time_ok t) →
    leader_run s e' st' gs → leader_run s e st gs
| leader_request e st count st' p l gs :
    0 < count < 2 ^ 32 → (∀ m o, load_ts st = Some (m, o) → logical o + count < 2 ^ 63) →
    try_getRespTS count st = (st', Some (p, l)) →
    leader_run s e st' gs → leader_run s e st (mkGrant p l count :: gs)
| leader_retry e st count st' gs :
    0 < count < 2 ^ 32 → (∀ m o, load_ts st = Some (m, o) → logical o + count < 2 ^ 63) →
    try_getRespTS count st = (st', None) →
    leader_run s e st' gs → leader_run s e st gs.

(** All of [g] is before all of [h]. *)
Definition grant_lt (g h : grant) : Prop :=
  g_physical g < g_physical h ∨ g_physical g = g_physical h ∧ g_logical g ≤ g_logical h - g_count h.

(** The state has given nothing beyond physical [p] and logical [l]. *)
Definition at_least (st : tsoState) (p l : Z) : Prop :=
  ∃ m o, load_ts st = Some (m, o) ∧ time_ok (physical o) ∧ 0 ≤ logical o ∧
    (p < ms (physical o) ∨ p = ms (physical o) ∧ l ≤ logical o).

Lemma update_at_least s e st now e' st' p l : clock_ok now → at_least st p l →
  updateTimestamp s now (e, st) = ((e', st'), inr ()) → (∀ t, current st' t → time_ok t) → at_least st' p l.
Proof.
  intros Hnow (m & o & Hl & Ht & Hlog & Hp). unfold updateTimestamp. rewrite Hl.
  destruct (update_next o now) as [next|] eqn:En; [|intros [= <- <-] _; by exists m, o].
  apply update_next_after in En; [|done..].
  assert (Hst : ∀ st0, (∀ t, current (store_ts next st0) t → time_ok t) → at_least (store_ts next st0) p l).
  { intros st0 Hok. exists (length (objs st0)), (mkAtomicObject next 0). rewrite load_store. cbn.
    assert (time_ok next) by (apply Hok; by apply current_store).
    pose proof (ms_step (physical o) next ltac:(done) ltac:(done) En). split_and!; [done..|]. left. lia. }
  destruct (must_save st next); [|intros [= <- <-]; apply Hst].
  destruct (saveTimestamp _ _ _) as [[e1 st1] [err|[]]]; intros [= <- <-]. apply Hst.
Qed.

Lemma add_at_least st m o count p l : 0 < count → logical o + count < 2 ^ 63 →
  load_ts st = Some (m, o) → time_ok (physical o) → 0 ≤ logical o →
  (p < ms (physical o) ∨ p = ms (physical o) ∧ l ≤ logical o + count) → at_least (add_logical m count st) p l.
Proof.
  intros Hc Hb [Hts Ho]%load_ts_Some Ht Hlog Hp. exists m, (bump count o).
  assert (Hk : logical (bump count o) = logical o + count) by (cbn; rewrite int64_small; lia).
  rewrite Hk. split_and!; [|done|lia|done].
  apply load_ts_Some. split; [done|]. apply add_logical_lookup. right. eauto.
Qed.

Lemma request_at_least st count st' resp p l : 0 < count → at_least st p l →
  (∀ m o, load_ts st = Some (m, o) → logical o + count < 2 ^ 63) →
  try_getRespTS count st = (st', resp) →
  match resp with
  | Some (q, k) => at_least st' q k ∧ (p < q ∨ p = q ∧ l ≤ k - count)
  | None => at_least st' p l
  end.
Proof.
  intros Hc Hat Hb. pose proof Hat as (m & o & Hl & Ht & Hlog & Hp). unfold try_getRespTS. rewrite Hl. specialize (Hb m o Hl).
  destruct (physical o =? zeroTime); [by intros [= <- <-]|].
  assert (Hk : resp_logical o count = logical o + count) by (unfold resp_logical; rewrite int64_small; lia).
  case_match; intros [= <- <-].
  - eapply add_at_least; [done..|lia].
  - change (resp_physical o) with (ms (physical o)). split; [|lia].
    eapply add_at_least; [done..|]. right. lia.
Qed.

Lemma leader_run_at_least s e st gs p l : at_least st p l → leader_run s e st gs →
  Forall (λ h, p < g_physical h ∨ p = g_physical h ∧ l ≤ g_logical h - g_count h) gs.
Proof.
  intros Hat Hr. revert p l Hat.
  induction Hr as [e st|e st now e' st' gs Hnow Hu Hok _ IH|e st count st' q k gs Hc Hb Htry _ IH
    |e st count st' gs Hc Hb Htry _ IH]; intros p l Hat.
  - constructor.
  - apply IH. by eapply update_at_least.
  - apply (request_at_least st count st' _ p l) in Htry as [Hat' Hlt]; [|lia|done..].
    constructor; [done|]. eapply Forall_impl; [by apply IH|]. cbn in *. intros h Hh. lia.
  - apply IH. by eapply request_at_least in Htry; [|lia|done..].
Qed.

(** The timestamps a leader gives are increasing: with any clock readings at
    its updates and any requests in between, each response is entirely after
    every earlier one. *)
Theorem leader_monotonic s e st gs t : current st t → time_ok t →
  (∀ m o, load_ts st = Some (m, o) → 0 ≤ logical o) →
  leader_run s e st gs → StronglySorted grant_lt gs.
Proof.
  intros Hc Ht Hlog Hr. destruct Hc as (m & o & Hl & Hp).
  assert (Hat : at_least st (ms t - 1) 0).
  { exists m, o. rewrite Hp. split_and!; [done..|by eapply Hlog|left; lia]. }
  clear Ht Hlog m o Hl Hp. revert Hat. generalize (ms t - 1) 0. intros p l.
  revert p l. induction Hr as [e st|e st now e' st' gs Hnow Hu Hok Hr IH|e st count st' q k gs Hc Hb Htry Hr IH
    |e st count st' gs Hc Hb Htry Hr IH]; intros p l Hat.
  - constructor.
  - eapply IH. by eapply update_at_least.
  - apply (request_at_least st count st' _ p l) in Htry as [Hat' _]; [|lia|done..].
    constructor; [by eapply IH|]. by eapply leader_run_at_least.
  - eapply IH. by eapply request_at_least in Htry; [|lia|done..].
Qed.
End leader.

(** ** Requests are answered *)

(** A leader is ready for a request. *)
Definition ready (count : Z) (st : tsoState) : Prop :=
  ∃ m o, load_ts st = Some (m, o) ∧ physical o ≠ zeroTime ∧ resp_logical o count < maxLogical.

Lemma try_ready count st : ready count st → ∃ st' resp, try_getRespTS count st = (st', Some resp).
Proof.
  intros (m & o & Hl & Hp & Hlog). unfold try_getRespTS. rewrite Hl.
  destruct (Z.eqb_spec (physical o) zeroTime); [done|].
  destruct (Z.leb_spec maxLogical (resp_logical o count)); [lia|]. eauto.
Qed.

Lemma try_unready count st : (∀ m o, load_ts st = Some (m, o) → physical o = zeroTime) →
  try_getRespTS count st = (st, None).
Proof.
  intros H. unfold try_getRespTS. destruct (load_ts st) as [[m o]|]; [|done].
  by rewrite (H m o eq_refl), Z.eqb_refl.
Qed.

Lemma getRespTS_loop_ready fuel env count st k : (k + 1 < fuel)%nat →
  (∀ st, ready count (env (maxRetryCount - fuel + k)%nat st)) → (fuel ≤ maxRetryCount)%nat →
  ∃ st' resp, getRespTS_loop fuel env count st = (st', inr resp).
Proof.
  revert st k. induction fuel as [|fuel IH]; intros st k Hk Hr Hf; [lia|]. cbn [getRespTS_loop].
  destruct (try_getRespTS count st) as [st1 [resp|]]; [eauto|]. destruct k as [|k].
  - destruct fuel as [|fuel]; [lia|]. cbn [getRespTS_loop].
    specialize (Hr st1). rewrite Nat.add_0_r in Hr. apply try_ready in Hr as (st2 & resp & ->). eauto.
  - apply (IH _ k); [lia| |lia]. intros st'. replace (maxRetryCount - fuel + k)%nat with (maxRetryCount - S fuel + S k)%nat by lia. done.
Qed.

(** C25: A request is answered when the oracle becomes ready in time: if after one
    of the first 99 sleeps the leader has synchronised and the logical part has
    room for the request, [getRespTS] returns a timestamp, whatever the state
    before; if the oracle is never synchronised, and for the count 0, it returns
    an error. *)
Theorem getRespTS_answers env count st k : (k < 99)%nat → 0 < count →
  (∀ st, ready count (env k st)) →
  (∃ st' resp, getRespTS env count st = (st', inr resp)) ∧
  (∀ env', (∀ i st, ts (env' i st) = None) → ts st = None →
     (getRespTS env' count st).2 = inl (Error "can not get timestamp")) ∧
  getRespTS env 0 st = (st, inl (Error "tso count should be positive")).
Proof.
  intros Hk Hc Hr. unfold getRespTS at 1 2. destruct (Z.eqb_spec count 0); [lia|]. split_and!.
  - apply (getRespTS_loop_ready _ _ _ _ k); [unfold maxRetryCount; lia|by rewrite Nat.sub_diag|done].
  - intros env' Henv. generalize maxRetryCount. intros fuel. revert st.
    induction fuel as [|fuel IH]; intros st Hts; [done|]. cbn [getRespTS_loop].
    rewrite try_unready; [by apply IH|]. intros m o [? _]%load_ts_Some. congruence.
  - done.
Qed.

(** ** The handlers as runs of steps *)

Section handlers.
Context {E : Type} `{!Etcd E, !EtcdLaws E}.
Variable root : bytes.
Implicit Types (e : E).

Lemma syncTimestamp_run e srv reqs gs i s st now e' st' r :
  srv !! i = Some (mkTsoServer s st PSync) → clock_ok now →
  (∀ e1 last, loadTimestamp s e = (e1, inr last) → time_ok (sync_next last now + TsoSaveInterval s)) →
  syncTimestamp s now (e, st) = ((e', st'), r) →
  tso_run root (mkTsoWorld e srv reqs gs)
    (mkTsoWorld e' (<[i := mkTsoServer s st' (match r with inr _ => PServe | inl _ => PIdle end)]> srv) reqs gs).
Proof.
  intros Hs Hnow Ht. unfold syncTimestamp. destruct (loadTimestamp s e) as [e1 rl] eqn:El.
  pose proof (tso_sync_load root e srv reqs gs i s st e1 rl Hs El) as H1.
  destruct rl as [err|last]; [intros [= <- <- <-]; by apply rtc_once|].
  specialize (Ht e1 last eq_refl). set (next := sync_next last now) in *.
  destruct (saveTimestamp s _ (e1, st)) as [[e2 st2] rs] eqn:Es.
  set (srv1 := <[i := mkTsoServer s st (PSyncLoaded last)]> srv) in *.
  assert (Hs1 : srv1 !! i = Some (mkTsoServer s st (PSyncLoaded last))) by apply lookup_insert_eq.
  pose proof (tso_sync_save root e1 srv1 reqs gs i s st last now e2 st2 rs Hs1 Hnow Ht Es) as H2.
  unfold srv1 in H2. rewrite insert_insert_eq in H2. fold next in H2.
  destruct rs as [err|[]]; intros [= <- <- <-].
  - eapply rtc_l; [exact H1|]. by apply rtc_once.
  - eapply rtc_l; [exact H1|]. eapply rtc_l; [exact H2|]. apply rtc_once.
    rewrite <-(insert_insert_eq srv i (mkTsoServer s (store_ts next st2) PServe) (mkTsoServer s st2 (PSyncSaved next))).
    apply tso_sync_store, lookup_insert_eq.
Qed.

(** An update that returns an error makes [campaignLeader] return, with its
    deferred store. *)
Lemma updateTimestamp_run e srv reqs gs i s st l prev now e' st' r :
  srv !! i = Some (mkTsoServer s st PServe) → clock_ok now → load_ts st = Some (l, prev) →
  (∀ next, update_next prev now = Some next → time_ok (next + TsoSaveInterval s)) →
  updateTimestamp s now (e, st) = ((e', st'), r) →
  tso_run root (mkTsoWorld e srv reqs gs)
    (mkTsoWorld e' (<[i := match r with
       | inr _ => mkTsoServer s st' PServe
       | inl _ => mkTsoServer s (store_ts zeroTime st') PIdle end]> srv) reqs gs).
Proof.
  intros Hs Hnow Hl Ht. unfold updateTimestamp. rewrite Hl.
  destruct (update_next prev now) as [next|] eqn:En.
  2:{ intros [= <- <- <-]. rewrite insert_id by done. apply rtc_refl. }
  specialize (Ht next eq_refl).
  pose proof (tso_update_start root e srv reqs gs i s st l prev now next Hs Hnow Hl En Ht) as H1.
  assert (Hstore : ∀ e0 st0, tso_step root (mkTsoWorld e0 (<[i := mkTsoServer s st0 (PUpdateSaved next)]> srv) reqs gs)
    (mkTsoWorld e0 (<[i := mkTsoServer s (store_ts next st0) PServe]> srv) reqs gs)).
  { intros e0 st0. rewrite <-(insert_insert_eq srv i (mkTsoServer s (store_ts next st0) PServe) (mkTsoServer s st0 (PUpdateSaved next))).
    apply tso_update_store, lookup_insert_eq. }
  destruct (must_save st next).
  2:{ intros [= <- <- <-]. eapply rtc_l; [exact H1|]. apply rtc_once, Hstore. }
  destruct (saveTimestamp s _ (e, st)) as [[e2 st2] rs] eqn:Es.
  pose proof (tso_update_save root e (<[i := mkTsoServer s st (PUpdate next)]> srv) reqs gs i s st next e2 st2 rs
    (lookup_insert_eq _ _ _) Es) as H2. rewrite insert_insert_eq in H2.
  destruct rs as [err|[]]; intros [= <- <- <-]; (eapply rtc_l; [exact H1|]); (eapply rtc_l; [exact H2|]); apply rtc_once.
  - rewrite <-(insert_insert_eq srv i (mkTsoServer s (store_ts zeroTime st2) PIdle) (mkTsoServer s st2 PExit)).
    eapply tso_exit; [apply lookup_insert_eq|by right].
  - apply Hstore.
Qed.

(** One round of a request is a load and an addition. *)
Lemma try_getRespTS_run e srv reqs gs i s st pc count st' resp :
  srv !! i = Some (mkTsoServer s st pc) → 0 < count < 2 ^ 32 →
  (∀ m o, load_ts st = Some (m, o) → logical o + count < 2 ^ 63) →
  try_getRespTS count st = (st', resp) →
  tso_run root (mkTsoWorld e srv reqs gs)
    (mkTsoWorld e (<[i := mkTsoServer s st' pc]> srv) reqs
       (match resp with Some (p, l) => mkGrant p l count :: gs | None => gs end)).
Proof.
  intros Hs Hc Hb. unfold try_getRespTS. destruct (load_ts st) as [[m o]|] eqn:El.
  2:{ intros [= <- <-]. rewrite insert_id by done. apply rtc_refl. }
  specialize (Hb m o eq_refl).
  destruct (Z.eqb_spec (physical o) zeroTime) as [Hz|Hz].
  { intros [= <- <-]. rewrite insert_id by done. apply rtc_refl. }
  pose proof (tso_request_load root e srv reqs gs i s st pc m o count Hs El Hz Hc) as H1.
  apply load_ts_Some in El as [_ Ho].
  pose proof (tso_request_add root e srv [] reqs gs i s st pc m o count Hs Ho Hb) as H2. cbn [app] in H2.
  destruct (maxLogical <=? resp_logical o count); intros [= <- <-]; by eapply rtc_l; [exact H1|]; apply rtc_once.
Qed.
End handlers.


(** ** A run with two leaders

    Server 1 leads, its lease expires while a request holds its object, server 2
    takes over with a clock that is behind, and then the old request is
    answered. *)
Module TsoDemo.
Import MapEtcd.
Definition root : bytes := str "/pd/1".
Definition cfg (value : string) : serverCfg := mkServerCfg root (str value) 3000000000.
Definition idle (s : serverCfg) : tso_server := mkTsoServer s tso_init PIdle.
Definition servers : gmap Z tso_server := {[ 1 := idle (cfg "a"); 2 := idle (cfg "b") ]}.
Definition start : tso_world etcd := mkTsoWorld (mkEtcd ∅ []) servers [] [].

Lemma clean : clean_root root.
Proof. exists [str "pd"; str "1"]. split_and!; [done| |reflexivity]. apply (bool_decide_unpack _). exact I. Qed.

Lemma start_ok : tso_start root zeroTime start.
Proof.
  split; cbn [tw_etcd tw_servers tw_reqs tw_grants start].
  - exact I.
  - right. split; [done|vm_compute; reflexivity].
  - intros i sv. unfold servers. rewrite lookup_insert_Some, lookup_singleton_Some.
    by intros [[_ <-]|[_ [_ <-]]].
  - intros i j sv sv'. unfold servers. rewrite !lookup_insert_Some, !lookup_singleton_Some.
    intros [[<- <-]|[_ [<- <-]]] [[<- <-]|[_ [<- <-]]]; done.
  - done.
Qed.

Definition second : Z := 1000000000.
Definition nowA : Z := 1560000000 * second.
Definition nowB : Z := 1559999990 * second.

Definition after_campaign (value : string) (e : etcd) : etcd := (campaignTxn (cfg value) e).1.
Definition e1 : etcd := after_campaign "a" (mkEtcd ∅ []).
Definition sA : etcd * tsoState := (syncTimestamp (cfg "a") nowA (e1, tso_init)).1.
Definition e2 : etcd := mkEtcd (delete (getLeaderPath (cfg "a")) (e_map (fst sA))) [].
Definition e3 : etcd := after_campaign "b" e2.
Definition sB : etcd * tsoState := (syncTimestamp (cfg "b") nowB (e3, tso_init)).1.


Lemma sync_ok value now e e' last : loadTimestamp (cfg value) e = (e', inr last) → clock_ok now →
  (time_ok (sync_next last now + 3 * second)) → ∀ e1 t, loadTimestamp (cfg value) e = (e1, inr t) →
  time_ok (sync_next t now + TsoSaveInterval (cfg value)).
Proof. intros H _ Ht e1' t H'. rewrite H in H'. injection H' as _ <-. exact Ht. Qed.

Lemma run_ok : ∃ w, tso_run root start w ∧
  tw_grants w = [mkGrant 1560000000000 10 10; mkGrant 1560000003001 5 5].
Proof.
  eexists. split.
  - eapply rtc_l; [apply (tso_campaign root _ _ _ _ 1 (cfg "a") tso_init e1 (inr ())); vm_compute; reflexivity|].
    etrans.
    { apply (syncTimestamp_run root e1 _ [] [] 1 (cfg "a") tso_init nowA (fst sA) (snd sA) (inr ())).
      - apply lookup_insert_eq.
      - by vm_compute.
      - eapply (sync_ok "a" nowA e1 e1 zeroTime); [vm_compute; reflexivity|by vm_compute|by vm_compute].
      - vm_compute. reflexivity. }
    eapply rtc_l.
    { apply (tso_request_load root _ _ _ _ 1 (cfg "a") (snd sA) PServe 0 (mkAtomicObject nowA 0) 10);
        [apply lookup_insert_eq|vm_compute; reflexivity|by vm_compute|by vm_compute]. }
    eapply rtc_l; [apply (tso_env root _ _ _ _ e2); [exact I|vm_compute; reflexivity|left; vm_compute; reflexivity]|].
    eapply rtc_l; [apply (tso_campaign root _ _ _ _ 2 (cfg "b") tso_init e3 (inr ())); vm_compute; reflexivity|].
    etrans.
    { apply (syncTimestamp_run root e3 _ _ _ 2 (cfg "b") tso_init nowB (fst sB) (snd sB) (inr ())).
      - apply lookup_insert_eq.
      - by vm_compute.
      - eapply (sync_ok "b" nowB e3 e3 (nowA + 3 * second)); [vm_compute; reflexivity|by vm_compute|by vm_compute].
      - vm_compute. reflexivity. }
    etrans.
    { apply (try_getRespTS_run root _ _ _ _ 2 (cfg "b") (snd sB) PServe 5 (add_logical 0 5 (snd sB)) (Some (1560000003001, 5)));
        [apply lookup_insert_eq|done| |vm_compute; reflexivity].
      intros m o H. vm_compute in H. injection H as <- <-. by vm_compute. }
    apply rtc_once.
    apply (tso_request_add root _ _ [] [] _ 1 (cfg "a") (snd sA) PServe 0 (mkAtomicObject nowA 0) 10);
      [|vm_compute; reflexivity|by vm_compute].
    vm_compute. reflexivity.
  - vm_compute. reflexivity.
Qed.

Lemma tso_unique_witness : ∃ w, tso_run root start w ∧
  tw_grants w !! 0%nat = Some (mkGrant 1560000000000 10 10) ∧ tw_grants w !! 1%nat = Some (mkGrant 1560000003001 5 5) ∧
  ∀ t, granted (mkGrant 1560000000000 10 10) t → granted (mkGrant 1560000003001 5 5) t → 0%nat = 1%nat.
Proof.
  destruct run_ok as (w & Hr & Hg). exists w. rewrite Hg. split_and!; [exact Hr|reflexivity..|]. intros t H1 H2.
  apply (tso_unique root clean zeroTime start w 0 1 (mkGrant 1560000000000 10 10) (mkGrant 1560000003001 5 5) t
    start_ok Hr); [by rewrite Hg..|exact H1|exact H2].
Defined.

(** The state of server 1 after it synchronised, and its next update. *)
Definition serve1 : tso_world etcd :=
  mkTsoWorld (fst sA) (<[1 := mkTsoServer (cfg "a") (snd sA) PServe]>
    (<[1 := mkTsoServer (cfg "a") tso_init PSync]> servers)) [] [].

Lemma serve1_run : tso_run root start serve1.
Proof.
  eapply rtc_l; [apply (tso_campaign root _ _ _ _ 1 (cfg "a") tso_init e1 (inr ())); vm_compute; reflexivity|].
  apply (syncTimestamp_run root e1 _ [] [] 1 (cfg "a") tso_init nowA (fst sA) (snd sA) (inr ())).
  - apply lookup_insert_eq.
  - by vm_compute.
  - eapply (sync_ok "a" nowA e1 e1 zeroTime); [vm_compute; reflexivity|by vm_compute|by vm_compute].
  - vm_compute. reflexivity.
Qed.

Lemma tso_window_witness : ∃ w2, tso_step root serve1 w2 ∧
  ∃ S1 S2, saved_is (timestamp_path root) S1 (etcd_view (tw_etcd serve1)) ∧
    saved_is (timestamp_path root) S2 (etcd_view (tw_etcd w2)) ∧ zeroTime ≤ S1 ≤ S2 ∧
    ∀ i sv, tw_servers serve1 !! i = Some sv → pc_serving (sv_pc sv) = true →
      ∃ t, current (sv_tso sv) t ∧ t < lastSavedTime (sv_tso sv) ≤ S1 ∧
      ∀ sv' t', tw_servers w2 !! i = Some sv' → pc_serving (sv_pc sv') = true → current (sv_tso sv') t' → t ≤ t'.
Proof.
  assert (∃ w2, tso_step root serve1 w2) as (w2 & Hst).
  { eexists. apply (tso_update_start root _ _ _ _ 1 (cfg "a") (snd sA) 0 (mkAtomicObject nowA 0) (nowA + second) (nowA + second));
      [apply lookup_insert_eq|by vm_compute|vm_compute; reflexivity..|by vm_compute]. }
  exists w2. split; [exact Hst|].
  exact (tso_window root clean zeroTime start serve1 w2 start_ok serve1_run Hst).
Defined.

(** A request, an update 50ms later, and another request. *)
Definition st1 : tsoState := store_ts nowA (set_lastSaved (nowA + 3 * second) tso_init).

Lemma leader_monotonic_witness :
  StronglySorted grant_lt [mkGrant 1560000000000 3 3; mkGrant 1560000000050 2 2].
Proof.
  apply (leader_monotonic (cfg "a") (mkEtcd ∅ []) st1 _ nowA).
  - by apply current_store.
  - by vm_compute.
  - intros m o H. vm_compute in H. injection H as <- <-. by vm_compute.
  - eapply (leader_request _ _ _ 3); [done| |vm_compute; reflexivity|].
    { intros m o H. vm_compute in H. injection H as <- <-. by vm_compute. }
    eapply (leader_update _ _ _ (nowA + 50 * Millisecond)); [by vm_compute|vm_compute; reflexivity| |].
    { intros t (m & o & H & <-). vm_compute in H. injection H as <- <-. by vm_compute. }
    eapply (leader_request _ _ _ 2); [done| |vm_compute; reflexivity|constructor].
    intros m o H. vm_compute in H. injection H as <- <-. by vm_compute.
Defined.

(** The oracle is synchronised during the fourth sleep. *)
Lemma getRespTS_answers_witness : ∃ st' resp,
  getRespTS (λ i st, if (i =? 3)%nat then st1 else st) 7 tso_init = (st', inr resp).
Proof.
  apply (getRespTS_answers (λ i st, if (i =? 3)%nat then st1 else st) 7 tso_init 3); [lia|done|].
  intros st. exists 0%nat, (mkAtomicObject nowA 0). split_and!; [vm_compute; reflexivity|by vm_compute|by vm_compute].
Defined.
End TsoDemo.
