(* ===== verification/Operator.v ===== *)
(** * Operators

    server/schedule/operator.go and operator_kind.go: the steps of an operator,
    when a step is finished and what it changes on the stores, the operator and
    its progress, the functions that create operators, and the influence of
    pending operators (the type of operator_controller.go).  The cluster a
    creator asks is the class [Cluster].  Iteration over a Go map takes the order
    as an argument, as does the random choice of a leader. *)

From S2P Require Import Prelude GoBytes Metapb Region Strconv KV.

(** ** Kinds *)

Definition OpLeader : Z := Z.shiftl 1 0.
Definition OpRegion : Z := Z.shiftl 1 1.
Definition OpAdmin : Z := Z.shiftl 1 2.
Definition OpHotRegion : Z := Z.shiftl 1 3.
Definition OpAdjacent : Z := Z.shiftl 1 4.
Definition OpReplica : Z := Z.shiftl 1 5.
Definition OpBalance : Z := Z.shiftl 1 6.
Definition OpMerge : Z := Z.shiftl 1 7.
Definition OpRange : Z := Z.shiftl 1 8.
Definition opMax : Z := Z.shiftl 1 9.

Definition flagToName : list (Z * bytes) :=
  [(OpLeader, str "leader"); (OpRegion, str "region"); (OpAdmin, str "admin");
   (OpHotRegion, str "hot-region"); (OpAdjacent, str "adjacent"); (OpReplica, str "replica");
   (OpBalance, str "balance"); (OpMerge, str "merge"); (OpRange, str "range")].

Definition nameToFlag : list (bytes * Z) :=
  [(str "leader", OpLeader); (str "region", OpRegion); (str "admin", OpAdmin);
   (str "hot-region", OpHotRegion); (str "adjacent", OpAdjacent); (str "replica", OpReplica);
   (str "balance", OpBalance); (str "merge", OpMerge); (str "range", OpRange)].

(** The lookup in a literal map. *)
Definition assoc {A B} `{!EqDecision A} (l : list (A * B)) (a : A) : option B :=
  snd <$> find_first (λ p : A * B, bool_decide (p.1 = a)) l.

(** The flags of the loop [for flag := 1; flag < opMax; flag <<= 1]. *)
Definition kind_flags : list Z := (λ i, Z.shiftl 1 (Z.of_nat i)) <$> seq 0 9.

Definition comma : Byte.byte := Byte.x2c.

(** [strings.Join] and [strings.Split] with a one-byte separator. *)
Fixpoint join_sep (sep : Byte.byte) (l : list bytes) : bytes :=
  match l with
  | [] => []
  | [x] => x
  | x :: l' => x ++ sep :: join_sep sep l'
  end.

Fixpoint split_sep (sep : Byte.byte) (s cur : bytes) : list bytes :=
  match s with
  | [] => [cur]
  | c :: s' => if bool_decide (c = sep) then cur :: split_sep sep s' [] else split_sep sep s' (cur ++ [c])
  end.

Definition Kind_String (k : Z) : bytes :=
  let flagNames := omap (λ flag,
    if Z.land k flag =? 0 then None else Some (default [] (assoc flagToName flag))) kind_flags in
  match flagNames with
  | [] => str "unknown"
  | _ => join_sep comma flagNames
  end.

Fixpoint parse_flags (names : list bytes) (k : Z) : result Z :=
  match names with
  | [] => inr k
  | flagName :: names' =>
      match assoc nameToFlag flagName with
      | None => inl (Error "unknown flag name")
      | Some flag => parse_flags names' (Z.lor k flag)
      end
  end.

Definition ParseOperatorKind (s : bytes) : result Z := parse_flags (split_sep comma s []) 0.

(** ** Influence *)

Definition LeaderKind : Z := 0.
Definition RegionKind : Z := 1.

Record StoreInfluence := mkStoreInfluence {
  RegionSize : Z;
  RegionCount : Z;
  LeaderSize : Z;
  LeaderCount : Z;
  StepCost : Z;
}.

Definition zero_influence : StoreInfluence := mkStoreInfluence 0 0 0 0 0.

Definition ResourceSize (s : StoreInfluence) (kind : Z) : Z :=
  if kind =? LeaderKind then LeaderSize s
  else if kind =? RegionKind then RegionSize s
  else 0.

(** The pointers of the map are not shared, so it is a map of values; the
    counters are [int64]. *)
Abbreviation OpInfluence := (gmap Z StoreInfluence).

Definition GetStoreInfluence (m : OpInfluence) (id : Z) : StoreInfluence := default zero_influence (m !! id).

(** The fields changed by the amounts of [d]. *)
Definition add_influence (s d : StoreInfluence) : StoreInfluence :=
  mkStoreInfluence (int64 (RegionSize s + RegionSize d)) (int64 (RegionCount s + RegionCount d))
    (int64 (LeaderSize s + LeaderSize d)) (int64 (LeaderCount s + LeaderCount d))
    (int64 (StepCost s + StepCost d)).

Definition change_influence (m : OpInfluence) (id : Z) (d : StoreInfluence) : OpInfluence :=
  <[id := add_influence (GetStoreInfluence m id) d]> m.

(** ** Steps *)

Definition RegionInfluence : Z := 1000.
Definition smallRegionInfluence : Z := 200.
Definition smallRegionThreshold : Z := 20.

Inductive OperatorStep :=
| TransferLeader (FromStore ToStore : Z)
| AddPeer (ToStore PeerID : Z)
| AddLearner (ToStore PeerID : Z)
| PromoteLearner (ToStore PeerID : Z)
| RemovePeer (FromStore : Z)
| MergeRegion (FromRegion ToRegion : Region) (IsPassive : bool)
| SplitRegion (SplitStart SplitEnd : bytes) (Policy : Z)
| AddLightPeer (ToStore PeerID : Z)
| AddLightLearner (ToStore PeerID : Z).

(** *** [IsFinish] of each step *)

Definition TransferLeader_IsFinish (toStore : Z) (region : RegionInfo) : bool :=
  Peer_GetStoreId (GetLeader region) =? toStore.

Definition AddPeer_IsFinish (toStore peerID : Z) (region : RegionInfo) : bool :=
  match GetStoreVoter region toStore with
  | None => false
  | Some p =>
      if negb (Peer_Id p =? peerID) then false
      else match GetPendingVoter region (Peer_Id p) with None => true | Some _ => false end
  end.

Definition AddLearner_IsFinish (toStore peerID : Z) (region : RegionInfo) : bool :=
  match GetStoreLearner region toStore with
  | None => false
  | Some p =>
      if negb (Peer_Id p =? peerID) then false
      else match GetPendingLearner region (Peer_Id p) with None => true | Some _ => false end
  end.

Definition PromoteLearner_IsFinish (toStore peerID : Z) (region : RegionInfo) : bool :=
  match GetStoreVoter region toStore with
  | None => false
  | Some p => Peer_Id p =? peerID
  end.

Definition RemovePeer_IsFinish (fromStore : Z) (region : RegionInfo) : bool :=
  match GetStorePeer region fromStore with None => true | Some _ => false end.

Definition MergeRegion_IsFinish (toRegion : Region) (isPassive : bool) (region : RegionInfo) : bool :=
  if isPassive then
    negb (Equal (GetStartKey region) (StartKey toRegion)) || negb (Equal (GetEndKey region) (EndKey toRegion))
  else false.

Definition SplitRegion_IsFinish (startKey endKey : bytes) (region : RegionInfo) : bool :=
  negb (Equal (GetStartKey region) startKey) || negb (Equal (GetEndKey region) endKey).

Definition AddLightPeer_IsFinish (toStore peerID : Z) (region : RegionInfo) : bool :=
  match GetStoreVoter region toStore with
  | None => false
  | Some p =>
      if negb (Peer_Id p =? peerID) then false
      else match GetPendingVoter region (Peer_Id p) with None => true | Some _ => false end
  end.

Definition AddLightLearner_IsFinish (toStore peerID : Z) (region : RegionInfo) : bool :=
  match GetStoreLearner region toStore with
  | None => false
  | Some p =>
      if negb (Peer_Id p =? peerID) then false
      else match GetPendingLearner region (Peer_Id p) with None => true | Some _ => false end
  end.

Definition IsFinish (step : OperatorStep) : RegionInfo → bool :=
  match step with
  | TransferLeader _ toStore => TransferLeader_IsFinish toStore
  | AddPeer toStore peerID => AddPeer_IsFinish toStore peerID
  | AddLearner toStore peerID => AddLearner_IsFinish toStore peerID
  | PromoteLearner toStore peerID => PromoteLearner_IsFinish toStore peerID
  | RemovePeer fromStore => RemovePeer_IsFinish fromStore
  | MergeRegion _ toRegion isPassive => MergeRegion_IsFinish toRegion isPassive
  | SplitRegion startKey endKey _ => SplitRegion_IsFinish startKey endKey
  | AddLightPeer toStore peerID => AddLightPeer_IsFinish toStore peerID
  | AddLightLearner toStore peerID => AddLightLearner_IsFinish toStore peerID
  end.

(** *** [Influence] of each step *)

Definition TransferLeader_Influence (fromStore toStore : Z) (m : OpInfluence) (region : RegionInfo) : OpInfluence :=
  let m := change_influence m fromStore (mkStoreInfluence 0 0 (- GetApproximateSize region) (-1) 0) in
  change_influence m toStore (mkStoreInfluence 0 0 (GetApproximateSize region) 1 0).

(** The cost of moving a region of this size. *)
Definition step_cost (regionSize : Z) : Z :=
  if smallRegionThreshold <? regionSize then RegionInfluence
  else if (regionSize <=? smallRegionThreshold) && (EmptyRegionApproximateSize <? regionSize)
  then smallRegionInfluence
  else 0.

Definition AddPeer_Influence (toStore : Z) (m : OpInfluence) (region : RegionInfo) : OpInfluence :=
  let regionSize := GetApproximateSize region in
  change_influence m toStore (mkStoreInfluence regionSize 1 0 0 (step_cost regionSize)).

Definition AddLearner_Influence (toStore : Z) (m : OpInfluence) (region : RegionInfo) : OpInfluence :=
  let regionSize := GetApproximateSize region in
  change_influence m toStore (mkStoreInfluence regionSize 1 0 0 (step_cost regionSize)).

Definition RemovePeer_Influence (fromStore : Z) (m : OpInfluence) (region : RegionInfo) : OpInfluence :=
  change_influence m fromStore (mkStoreInfluence (- GetApproximateSize region) (-1) 0 0 0).

(** The loop over the peers in [MergeRegion] and [SplitRegion], with [d] = -1 or 1. *)
Definition peers_influence (d : Z) (m : OpInfluence) (region : RegionInfo) : OpInfluence :=
  foldl (λ m p, change_influence m (Peer_StoreId p)
    (mkStoreInfluence 0 d 0 (if Peer_GetId (GetLeader region) =? Peer_Id p then d else 0) 0)) m (GetPeers region).

Definition MergeRegion_Influence (isPassive : bool) (m : OpInfluence) (region : RegionInfo) : OpInfluence :=
  if isPassive then peers_influence (-1) m region else m.

Definition SplitRegion_Influence (m : OpInfluence) (region : RegionInfo) : OpInfluence := peers_influence 1 m region.

Definition AddLightPeer_Influence (toStore : Z) (m : OpInfluence) (region : RegionInfo) : OpInfluence :=
  change_influence m toStore (mkStoreInfluence (GetApproximateSize region) 1 0 0 0).

Definition AddLightLearner_Influence (toStore : Z) (m : OpInfluence) (region : RegionInfo) : OpInfluence :=
  change_influence m toStore (mkStoreInfluence (GetApproximateSize region) 1 0 0 0).

Definition Influence (step : OperatorStep) : OpInfluence → RegionInfo → OpInfluence :=
  match step with
  | TransferLeader fromStore toStore => TransferLeader_Influence fromStore toStore
  | AddPeer toStore _ => AddPeer_Influence toStore
  | AddLearner toStore _ => AddLearner_Influence toStore
  | PromoteLearner _ _ => λ m _, m
  | RemovePeer fromStore => RemovePeer_Influence fromStore
  | MergeRegion _ _ isPassive => MergeRegion_Influence isPassive
  | SplitRegion _ _ _ => SplitRegion_Influence
  | AddLightPeer toStore _ => AddLightPeer_Influence toStore
  | AddLightLearner toStore _ => AddLightLearner_Influence toStore
  end.

(** ** Operators *)

Definition Second : Z := 1000000000.
Definition LeaderOperatorWaitTime : Z := 10 * Second.
Definition RegionOperatorWaitTime : Z := 10 * 60 * Second.

Definition LowPriority : Z := 0.
Definition NormalPriority : Z := 1.
Definition HighPriority : Z := 2.

(** [startTime] is [None] for the zero time; [currentStep] is an [int32] that
    starts at 0 and is at most the number of steps. *)
Record Operator := mkOperator {
  op_desc : string;
  op_regionID : Z;
  op_regionEpoch : option RegionEpoch;
  op_kind : Z;
  op_steps : list OperatorStep;
  op_currentStep : nat;
  op_createTime : Z;
  op_startTime : option Z;
  op_stepTime : Z;
  op_level : Z;
}.

Definition NewOperator (desc : string) (regionID : Z) (regionEpoch : option RegionEpoch) (kind : Z)
    (steps : list OperatorStep) (now : Z) : Operator :=
  mkOperator desc regionID regionEpoch kind steps 0 now None now NormalPriority.

Definition set_currentStep (k : nat) (now : Z) (o : Operator) : Operator :=
  mkOperator (op_desc o) (op_regionID o) (op_regionEpoch o) (op_kind o) (op_steps o) k
    (op_createTime o) (op_startTime o) now (op_level o).

Definition AttachKind (kind : Z) (o : Operator) : Operator :=
  mkOperator (op_desc o) (op_regionID o) (op_regionEpoch o) (Z.lor (op_kind o) kind) (op_steps o) (op_currentStep o)
    (op_createTime o) (op_startTime o) (op_stepTime o) (op_level o).

Definition SetStartTime (t : Z) (o : Operator) : Operator :=
  mkOperator (op_desc o) (op_regionID o) (op_regionEpoch o) (op_kind o) (op_steps o) (op_currentStep o)
    (op_createTime o) (Some t) (op_stepTime o) (op_level o).

Definition SetPriorityLevel (level : Z) (o : Operator) : Operator :=
  mkOperator (op_desc o) (op_regionID o) (op_regionEpoch o) (op_kind o) (op_steps o) (op_currentStep o)
    (op_createTime o) (op_startTime o) (op_stepTime o) level.

Definition ElapsedTime (o : Operator) (now : Z) : Z := now - op_createTime o.

Definition Step (o : Operator) (i : Z) : option OperatorStep :=
  if (0 <=? i) && (i <? Z.of_nat (length (op_steps o))) then op_steps o !! Z.to_nat i else None.

(** [Check]; the loop goes over the steps from the current one. *)
Fixpoint Check_loop (rest : list OperatorStep) (step : nat) (region : RegionInfo) (now : Z) (o : Operator)
    : Operator * option OperatorStep :=
  match rest with
  | [] => (o, None)
  | s :: rest' =>
      if IsFinish s region then Check_loop rest' (S step) region now (set_currentStep (S step) now o)
      else (o, Some s)
  end.

Definition Check (o : Operator) (region : RegionInfo) (now : Z) : Operator * option OperatorStep :=
  Check_loop (drop (op_currentStep o) (op_steps o)) (op_currentStep o) region now o.

Definition Operator_IsFinish (o : Operator) : bool := (length (op_steps o) <=? op_currentStep o)%nat.

Definition IsTimeout (o : Operator) (now : Z) : bool :=
  if Operator_IsFinish o then false
  else match op_startTime o with
  | None => false
  | Some start =>
      if negb (Z.land (op_kind o) OpRegion =? 0) then RegionOperatorWaitTime <? now - start
      else LeaderOperatorWaitTime <? now - start
  end.

Definition UnfinishedInfluence (o : Operator) (m : OpInfluence) (region : RegionInfo) : OpInfluence :=
  foldl (λ m s, if IsFinish s region then m else Influence s m region) m (drop (op_currentStep o) (op_steps o)).

Definition TotalInfluence (o : Operator) (m : OpInfluence) (region : RegionInfo) : OpInfluence :=
  foldl (λ m s, Influence s m region) m (op_steps o).

(** *** History *)

Record OperatorHistory := mkOperatorHistory {
  FinishTime : Z;
  From : Z;
  To : Z;
  HistoryKind : Z;
}.

Definition History (o : Operator) (now : Z) : list OperatorHistory :=
  let '(histories, addPeerStores, removePeerStores) :=
    foldl (λ '(histories, addPeerStores, removePeerStores) step,
      match step with
      | TransferLeader fromStore toStore =>
          (histories ++ [mkOperatorHistory now fromStore toStore LeaderKind], addPeerStores, removePeerStores)
      | AddPeer toStore _ | AddLightPeer toStore _ | AddLearner toStore _ | AddLightLearner toStore _ =>
          (histories, addPeerStores ++ [toStore], removePeerStores)
      | RemovePeer fromStore => (histories, addPeerStores, removePeerStores ++ [fromStore])
      | _ => (histories, addPeerStores, removePeerStores)
      end) ([], [], []) (op_steps o) in
  foldl (λ histories i,
    match addPeerStores !! i, removePeerStores !! i with
    | Some add, Some remove => histories ++ [mkOperatorHistory now remove add RegionKind]
    | _, _ => histories
    end) histories (seq 0 (length addPeerStores)).

(** ** Validity *)

Fixpoint CheckOperatorValid_loop (steps : list OperatorStep) (removeStores : list Z) : bool :=
  match steps with
  | [] => true
  | step :: steps' =>
      match step with
      | TransferLeader fromStore toStore =>
          if existsb (λ store, (store =? fromStore) || (store =? toStore)) removeStores then false
          else CheckOperatorValid_loop steps' removeStores
      | RemovePeer fromStore => CheckOperatorValid_loop steps' (removeStores ++ [fromStore])
      | _ => CheckOperatorValid_loop steps' removeStores
      end
  end.

Definition CheckOperatorValid (o : Operator) : bool := CheckOperatorValid_loop (op_steps o) [].

(** ** Creation *)

Definition RejectLeader : string := "reject-leader".

(** What the creators ask of the cluster: [GetStoreLabels] is [GetStore] and the
    store's labels, [AllocPeer] allocates an id and can fail. *)
Class Cluster (C : Type) := {
  IsRaftLearnerEnabled : C → bool;
  CheckLabelProperty : C → string → list StoreLabel → bool;
  GetStoreLabels : C → Z → option (list StoreLabel);
  AllocPeer : Z → M C Peer;
}.

Section create.
Context {C : Type} `{!Cluster C}.
Implicit Types (c : C) (region : RegionInfo).

Definition CreateAddPeerSteps (newStore peerID : Z) c : list OperatorStep :=
  if IsRaftLearnerEnabled c then [AddLearner newStore peerID; PromoteLearner newStore peerID]
  else [AddPeer newStore peerID].

Definition CreateAddLightPeerSteps (newStore peerID : Z) c : list OperatorStep :=
  if IsRaftLearnerEnabled c then [AddLightLearner newStore peerID; PromoteLearner newStore peerID]
  else [AddLightPeer newStore peerID].

Definition CreateAddPeerOperator desc c region (peerID toStoreID kind now : Z) : Operator :=
  NewOperator desc (GetID region) (GetRegionEpoch region) (Z.lor kind OpRegion)
    (CreateAddPeerSteps toStoreID peerID c) now.

Definition CreateAddLearnerOperator desc region (peerID toStoreID kind now : Z) : Operator :=
  NewOperator desc (GetID region) (GetRegionEpoch region) (Z.lor kind OpRegion) [AddLearner toStoreID peerID] now.

Definition CreatePromoteLearnerOperator desc region (peer : Peer) (now : Z) : Operator :=
  NewOperator desc (GetID region) (GetRegionEpoch region) OpRegion
    [PromoteLearner (Peer_StoreId peer) (Peer_Id peer)] now.

Definition CreateTransferLeaderOperator desc region (sourceStoreID targetStoreID kind now : Z) : Operator :=
  NewOperator desc (GetID region) (GetRegionEpoch region) (Z.lor kind OpLeader)
    [TransferLeader sourceStoreID targetStoreID] now.

(** [policy] is the value of the check policy's name. *)
Definition CreateSplitRegionOperator desc region (kind policy now : Z) : Operator :=
  NewOperator desc (GetID region) (GetRegionEpoch region) kind
    [SplitRegion (GetStartKey region) (GetEndKey region) policy] now.

(** [getRegionFollowerIDs] ranges over the followers in some order. *)
Definition is_FollowerIDs region (ids : list Z) : Prop := ids ≡ₚ (map_to_list (GetFollowers region)).*1.

Definition removePeerSteps c region (storeID : Z) (followerIDs : list Z) : result (Z * list OperatorStep) :=
  let finish kind steps := inr (Z.lor kind OpRegion, steps ++ [RemovePeer storeID]) in
  match GetLeader region with
  | Some l =>
      if Peer_StoreId l =? storeID then
        let suitable id :=
          match GetStoreLabels c id with
          | Some labels => negb (CheckLabelProperty c RejectLeader labels)
          | None => false
          end in
        match find_first suitable followerIDs with
        | Some id => finish OpLeader [TransferLeader storeID id]
        | None => inl (Error "no suitable follower to become region leader")
        end
      else finish 0 []
  | None => finish 0 []
  end.

Definition CreateRemovePeerOperator desc c (kind : Z) region (storeID : Z) (followerIDs : list Z) (now : Z) : result Operator :=
  match removePeerSteps c region storeID followerIDs with
  | inl err => inl err
  | inr (removeKind, steps) =>
      inr (NewOperator desc (GetID region) (GetRegionEpoch region) (Z.lor removeKind kind) steps now)
  end.

Definition CreateMovePeerOperator desc c region (kind oldStore newStore peerID : Z) (followerIDs : list Z) (now : Z)
    : result Operator :=
  match removePeerSteps c region oldStore (followerIDs ++ [newStore]) with
  | inl err => inl err
  | inr (removeKind, steps) =>
      let st := CreateAddPeerSteps newStore peerID c in
      inr (NewOperator desc (GetID region) (GetRegionEpoch region) (Z.lor (Z.lor removeKind kind) OpRegion) (st ++ steps) now)
  end.

Definition CreateMoveLeaderOperator desc c region (kind oldStore newStore peerID now : Z) : result Operator :=
  match removePeerSteps c region oldStore [newStore] with
  | inl err => inl err
  | inr (removeKind, steps) =>
      let st := CreateAddPeerSteps newStore peerID c ++ [TransferLeader oldStore newStore] in
      inr (NewOperator desc (GetID region) (GetRegionEpoch region)
        (Z.lor (Z.lor (Z.lor removeKind kind) OpLeader) OpRegion) (st ++ steps) now)
  end.

(** The steps that add a peer allocated on the store. *)
Definition alloc_add_steps (storeID : Z) : M C (list OperatorStep) := λ c,
  match AllocPeer storeID c with
  | (c', inl err) => (c', inl err)
  | (c', inr peer) =>
      (c', inr (if IsRaftLearnerEnabled c'
                then [AddLearner storeID (Peer_Id peer); PromoteLearner storeID (Peer_Id peer)]
                else [AddPeer storeID (Peer_Id peer)]))
  end.

(** [order] and [order'] are the orders of the two loops over the store ids. *)
Fixpoint move_add_steps region (order : list Z) (steps : list OperatorStep) : M C (list OperatorStep) :=
  match order with
  | [] => mret steps
  | id :: order' =>
      match GetStorePeer region id with
      | Some _ => move_add_steps region order' steps
      | None => st ← alloc_add_steps id; move_add_steps region order' (steps ++ st)
      end
  end.

Definition CreateMoveRegionOperator desc region (kind : Z) (storeIDs : gset Z) (order order' : list Z) (now : Z) : M C Operator :=
  steps ← move_add_steps region order [];
  let steps := foldl (λ steps peer,
    if decide (Peer_StoreId peer ∈ storeIDs) then steps
    else
      let steps :=
        if Peer_GetId (GetLeader region) =? Peer_Id peer then
          match order' with
          | [] => steps
          | targetID :: _ => steps ++ [TransferLeader (Peer_StoreId peer) targetID]
          end
        else steps in
      steps ++ [RemovePeer (Peer_StoreId peer)]) steps (GetPeers region) in
  mret (NewOperator desc (GetID region) (GetRegionEpoch region) (Z.lor kind OpRegion) steps now).

Definition getIntersectionStores (a b : list Peer) : gset Z :=
  let hash := foldl (λ hash peer, {[Peer_StoreId peer]} ∪ hash) (∅ : gset Z) a in
  foldl (λ intersection peer,
    if decide (Peer_StoreId peer ∈ hash) then {[Peer_StoreId peer]} ∪ intersection else intersection) ∅ b.

(** The loop over the target's peers: the steps to add, the first added store, the kind. *)
Fixpoint match_adds (intersection : gset Z) (targetPeers : list Peer) (toAdds : list (list OperatorStep))
    (targetLeader kind : Z) : M C (list (list OperatorStep) * Z * Z) :=
  match targetPeers with
  | [] => mret (toAdds, targetLeader, kind)
  | peer :: targetPeers' =>
      let storeID := Peer_StoreId peer in
      if decide (storeID ∈ intersection) then match_adds intersection targetPeers' toAdds targetLeader kind
      else
        addSteps ← alloc_add_steps storeID;
        match_adds intersection targetPeers' (toAdds ++ [addSteps])
          (if targetLeader =? 0 then storeID else targetLeader) (Z.lor kind OpRegion)
  end.

(** The loop over the intersection, in the order given. *)
Fixpoint match_leader (order : list Z) (leaderID targetLeader : Z) : Z :=
  match order with
  | [] => targetLeader
  | storeID :: order' => if storeID =? leaderID then 0 else match_leader order' leaderID storeID
  end.

(** The loop that removes the redundant peers; [toAdds[index]] panics out of range. *)
Fixpoint match_removes (intersection : gset Z) (sourcePeers : list Peer) (toAdds : list (list OperatorStep))
    (targetLeader leaderID : Z) (steps : list OperatorStep) (kind : Z) (index : nat)
    : result (list OperatorStep * Z * nat) :=
  match sourcePeers with
  | [] => inr (steps, kind, index)
  | peer :: sourcePeers' =>
      let storeID := Peer_StoreId peer in
      if decide (storeID ∈ intersection) then
        match_removes intersection sourcePeers' toAdds targetLeader leaderID steps kind index
      else if negb (targetLeader =? 0) && (storeID =? leaderID) then
        match_removes intersection sourcePeers' toAdds targetLeader leaderID steps kind index
      else
        match toAdds !! index with
        | None => inl (Panic "index out of range")
        | Some add =>
            match_removes intersection sourcePeers' toAdds targetLeader leaderID
              (steps ++ add ++ [RemovePeer storeID]) (Z.lor kind OpRegion) (S index)
        end
  end.

(** The steps after the additions are known. *)
Definition match_finish (source : RegionInfo) (intersection : gset Z) (order : list Z)
    (toAdds : list (list OperatorStep)) (targetLeader kind : Z) : result (list OperatorStep * Z) :=
  let leaderID := Peer_GetStoreId (GetLeader source) in
  let targetLeader := match_leader order leaderID targetLeader in
  let '(steps, kind, targetLeader) :=
    if negb (size intersection =? 0)%nat && negb (targetLeader =? 0)
    then ([TransferLeader leaderID targetLeader], Z.lor kind OpLeader, 0)
    else ([], kind, targetLeader) in
  match match_removes intersection (GetPeers source) toAdds targetLeader leaderID steps kind 0 with
  | inl err => inl err
  | inr (steps, kind, index) =>
      let r :=
        if negb (targetLeader =? 0) then
          match toAdds !! index with
          | None => inl (Panic "index out of range")
          | Some add =>
              inr (steps ++ add ++ [TransferLeader leaderID targetLeader; RemovePeer leaderID],
                   Z.lor kind (Z.lor OpLeader OpRegion), S index)
          end
        else inr (steps, kind, index) in
      match r with
      | inl err => inl err
      | inr (steps, kind, index) =>
          if negb (index =? length toAdds)%nat then inl (Error "wrong count of add steps")
          else inr (steps, kind)
      end
  end.

(** [order] is the order of the loop over the intersection. *)
Definition matchPeerSteps (source target : RegionInfo) (order : list Z) : M C (list OperatorStep * Z) :=
  let sourcePeers := GetPeers source in
  let targetPeers := GetPeers target in
  if negb (length sourcePeers =? length targetPeers)%nat then mfail (Error "mismatch count of peer")
  else
    let intersection := getIntersectionStores sourcePeers targetPeers in
    '(toAdds, targetLeader, kind) ← match_adds intersection targetPeers [] 0 0;
    lift_result (match_finish source intersection order toAdds targetLeader kind).

Definition CreateMergeRegionOperator desc (source target : RegionInfo) (kind : Z) (order : list Z) (now : Z) : M C (list Operator) :=
  '(steps, kinds) ← matchPeerSteps source target order;
  let k := Z.lor (Z.lor kinds kind) OpMerge in
  mret [NewOperator desc (GetID source) (GetRegionEpoch source) k
          (steps ++ [MergeRegion (GetMeta source) (GetMeta target) false]) now;
        NewOperator desc (GetID target) (GetRegionEpoch target) k
          [MergeRegion (GetMeta source) (GetMeta target) true] now].

(** *** Scatter *)

(** The loop [for j, peer := range targetPeers]; the state is the steps, the
    deferred steps and the kind. *)
Fixpoint scatter_loop c (originStoreIDs : gset Z) (originLeaderStoreID targetLeaderID : Z)
    (targetPeers replacedPeers : list Peer) (j : nat) (steps deferSteps : list OperatorStep) (kind : Z)
    : result (list OperatorStep * list OperatorStep * Z) :=
  match targetPeers with
  | [] => inr (steps, deferSteps, kind)
  | peer :: targetPeers' =>
      let skip := scatter_loop c originStoreIDs originLeaderStoreID targetLeaderID targetPeers' replacedPeers (S j)
                    steps deferSteps kind in
      if Peer_Id peer =? targetLeaderID then skip
      else if decide (Peer_StoreId peer ∈ originStoreIDs) then skip
      else
        match replacedPeers !! j with
        | None => inl (Panic "index out of range")
        | Some replaced =>
            let st := CreateAddLightPeerSteps (Peer_StoreId peer) (Peer_Id peer) c ++ [RemovePeer (Peer_StoreId replaced)] in
            if Peer_StoreId replaced =? originLeaderStoreID then
              scatter_loop c originStoreIDs originLeaderStoreID targetLeaderID targetPeers' replacedPeers (S j)
                steps (deferSteps ++ st) (Z.lor kind (Z.lor OpRegion OpLeader))
            else
              scatter_loop c originStoreIDs originLeaderStoreID targetLeaderID targetPeers' replacedPeers (S j)
                (steps ++ st) deferSteps (Z.lor kind OpRegion)
        end
  end.

(** [i] is the value of [rand.Intn(len(targetPeers))]. *)
Definition CreateScatterRegionOperator desc c (origin : RegionInfo) (replacedPeers targetPeers : list Peer) (i : nat) (now : Z)
    : result (option Operator) :=
  match targetPeers !! i with
  | None => inl (Panic "invalid argument to Intn")
  | Some targetLeaderPeer =>
      let originLeaderStoreID := Peer_GetStoreId (GetLeader origin) in
      let originStoreIDs := GetStoreIds origin in
      let sameLeader := Peer_StoreId targetLeaderPeer =? originLeaderStoreID in
      if sameLeader && forallb (λ peer, bool_decide (Peer_StoreId peer ∈ originStoreIDs)) targetPeers then inr None
      else
        let first :=
          if decide (Peer_StoreId targetLeaderPeer ∈ originStoreIDs) then
            if sameLeader then inr ([], [], 0)
            else inr ([TransferLeader originLeaderStoreID (Peer_StoreId targetLeaderPeer)], [], OpLeader)
          else
            match replacedPeers !! i with
            | None => inl (Panic "index out of range")
            | Some replaced =>
                inr (CreateAddLightPeerSteps (Peer_StoreId targetLeaderPeer) (Peer_Id targetLeaderPeer) c,
                     [TransferLeader originLeaderStoreID (Peer_StoreId targetLeaderPeer);
                      RemovePeer (Peer_StoreId replaced)], Z.lor OpLeader OpRegion)
            end in
        match first with
        | inl err => inl err
        | inr (steps, deferSteps, kind) =>
            match scatter_loop c originStoreIDs originLeaderStoreID (Peer_Id targetLeaderPeer) targetPeers replacedPeers 0
                    steps deferSteps kind with
            | inl err => inl err
            | inr (steps, deferSteps, kind) =>
                inr (Some (NewOperator desc (GetID origin) (GetRegionEpoch origin) kind (steps ++ deferSteps) now))
            end
        end
  end.
End create.
