(* ===== verification/OperatorProps.v ===== *)
(** * Operators do what they say

    The placement of a region's peers, what TiKV does to it for each step, and
    the theorems: the operators that are created move the peers where they should
    go, never leave the region with fewer voters than it had and never remove the
    leader; the progress of an operator; the influence; the names of kinds. *)

From S2P Require Import Prelude GoBytes Metapb Region Strconv KV Operator.

(** ** Executing steps *)

Record placement := mkPlacement {
  pl_voters : gset Z;
  pl_learners : gset Z;
  pl_leader : Z;
}.

(** The change of membership or leader a step asks for, refused when the raft
    group would refuse it: a store has at most one peer, only a learner is
    promoted, only a voter becomes leader, and the leader is not removed. *)
Definition exec_step (s : OperatorStep) (pl : placement) : option placement :=
  let '(mkPlacement vs ls l) := pl in
  match s with
  | TransferLeader _ toStore => if decide (toStore ∈ vs) then Some (mkPlacement vs ls toStore) else None
  | AddPeer toStore _ | AddLightPeer toStore _ =>
      if decide (toStore ∈ vs ∪ ls) then None else Some (mkPlacement ({[toStore]} ∪ vs) ls l)
  | AddLearner toStore _ | AddLightLearner toStore _ =>
      if decide (toStore ∈ vs ∪ ls) then None else Some (mkPlacement vs ({[toStore]} ∪ ls) l)
  | PromoteLearner toStore _ =>
      if decide (toStore ∈ ls) then Some (mkPlacement ({[toStore]} ∪ vs) (ls ∖ {[toStore]}) l) else None
  | RemovePeer fromStore =>
      if decide (fromStore ∈ vs ∪ ls ∧ fromStore ≠ l) then Some (mkPlacement (vs ∖ {[fromStore]}) (ls ∖ {[fromStore]}) l)
      else None
  | MergeRegion _ _ _ | SplitRegion _ _ _ => Some pl
  end.

(** At least [n] voters, one of which leads. *)
Definition safe (n : nat) (pl : placement) : Prop :=
  (n ≤ size (pl_voters pl))%nat ∧ pl_leader pl ∈ pl_voters pl.

(** All steps are accepted, and every placement on the way is safe. *)
Inductive exec_safe (n : nat) : list OperatorStep → placement → placement → Prop :=
| es_nil pl : exec_safe n [] pl pl
| es_cons s l pl pl1 pl2 :
    exec_step s pl = Some pl1 → safe n pl1 → exec_safe n l pl1 pl2 → exec_safe n (s :: l) pl pl2.

Lemma exec_safe_app n l1 l2 pl pl1 pl2 :
  exec_safe n l1 pl pl1 → exec_safe n l2 pl1 pl2 → exec_safe n (l1 ++ l2) pl pl2.
Proof. induction 1 as [|s l p p1 p2 ? ? ? IH]; intros; [done|]. cbn. eapply es_cons; [done..|by apply IH]. Qed.

Lemma exec_safe_weaken n m steps a b : (n ≤ m)%nat → exec_safe m steps a b → exec_safe n steps a b.
Proof.
  intros Hnm. induction 1 as [|s l pl pl1 pl2 Hs [Hm Hl] _ IH]; [constructor|].
  apply (es_cons n s l pl pl1 pl2 Hs); [|done]. split; [lia|done].
Qed.

(** Steps that put a voter on a store. *)
Definition adds_peer (store : Z) (steps : list OperatorStep) : Prop :=
  (∃ p, steps = [AddPeer store p] ∨ steps = [AddLightPeer store p]) ∨
  (∃ p q, steps = [AddLearner store p; PromoteLearner store q] ∨ steps = [AddLightLearner store p; PromoteLearner store q]).

Lemma exec_adds n store steps vs l : adds_peer store steps → store ∉ vs → safe n (mkPlacement vs ∅ l) →
  exec_safe n steps (mkPlacement vs ∅ l) (mkPlacement ({[store]} ∪ vs) ∅ l).
Proof.
  intros Hadd Hs [Hn Hl]. cbn in Hn, Hl.
  assert (Hsize : size ({[store]} ∪ vs) = S (size vs)) by (rewrite size_union, size_singleton by set_solver; lia).
  assert (Hsafe : safe n (mkPlacement ({[store]} ∪ vs) ∅ l)) by (split; cbn; [lia|set_solver]).
  destruct Hadd as [(p & [->| ->])|(p & q & [->| ->])].
  1,2: eapply es_cons; [cbn; by rewrite decide_False by set_solver|done|constructor].
  all: eapply es_cons; [cbn; by rewrite decide_False by set_solver|by split|].
  all: assert (Hpromote : exec_step (PromoteLearner store q) (mkPlacement vs ({[store]} ∪ ∅) l) =
    Some (mkPlacement ({[store]} ∪ vs) ∅ l)) by (cbn; rewrite decide_True by set_solver; do 2 f_equal; set_solver).
  all: eapply es_cons; [exact Hpromote|done|constructor].
Qed.

Lemma exec_remove n store vs l : store ∈ vs → store ≠ l → l ∈ vs → (n < size vs)%nat →
  exec_safe n [RemovePeer store] (mkPlacement vs ∅ l) (mkPlacement (vs ∖ {[store]}) ∅ l).
Proof.
  intros Hs Hne Hl Hn. eapply es_cons; [| |constructor].
  - cbn. rewrite decide_True by (split; [set_solver|done]). f_equal. f_equal. set_solver.
  - split; cbn; [|set_solver]. rewrite size_difference, size_singleton by set_solver. lia.
Qed.

Lemma exec_transfer n from to vs l : to ∈ vs → (n ≤ size vs)%nat →
  exec_safe n [TransferLeader from to] (mkPlacement vs ∅ l) (mkPlacement vs ∅ to).
Proof.
  intros Hs Hn. eapply es_cons; [cbn; by rewrite decide_True|by split|constructor].
Qed.

(** Replacing peers one by one. *)
Definition replace_steps (adds : list (list OperatorStep)) (removes : list Z) : list OperatorStep :=
  mjoin (zip_with (λ add r, add ++ [RemovePeer r]) adds removes).

Lemma exec_replace n stores adds removes : Forall2 adds_peer stores adds → ∀ vs l,
  length removes = length stores → NoDup stores → NoDup removes →
  (∀ s, s ∈ stores → s ∉ vs) → (∀ r, r ∈ removes → r ∈ vs ∧ r ≠ l) → safe n (mkPlacement vs ∅ l) →
  exec_safe n (replace_steps adds removes) (mkPlacement vs ∅ l)
    (mkPlacement ((vs ∪ list_to_set stores) ∖ list_to_set removes) ∅ l).
Proof.
  intros Hadds. revert removes. induction Hadds as [|s add stores adds Hadd Hadds IH];
    intros [|r removes] vs l Hlen Hnd Hnd' Hnew Hrm Hsafe; try done.
  - cbn. replace ((vs ∪ ∅) ∖ ∅) with vs by set_solver. constructor.
  - apply NoDup_cons in Hnd as [Hs Hnd], Hnd' as [Hr Hnd'].
    assert (Hsv : s ∉ vs) by (apply Hnew; by left). destruct (Hrm r) as [Hrv Hrl]; [by left|].
    destruct Hsafe as [Hn Hl]. cbn in Hn, Hl.
    assert (Hsize : size ({[s]} ∪ vs) = S (size vs)) by (rewrite size_union, size_singleton by set_solver; lia).
    unfold replace_steps. cbn [zip_with mjoin list_join]. rewrite <-app_assoc.
    eapply exec_safe_app; [by apply exec_adds|]. eapply exec_safe_app.
    + apply exec_remove; [set_solver|done|set_solver|lia].
    + replace ((vs ∪ list_to_set (s :: stores)) ∖ list_to_set (r :: removes))
        with (((({[s]} ∪ vs) ∖ {[r]}) ∪ list_to_set stores) ∖ list_to_set removes).
      2:{ apply leibniz_equiv. assert (r ∉ (list_to_set stores : gset Z)) by
            (rewrite elem_of_list_to_set; intros Hin; by apply (Hnew r); [right|]). cbn. set_solver. }
      apply IH; try done.
      * cbn in Hlen. lia.
      * intros s' Hs'. assert (s' ∉ vs) by (apply Hnew; by right). set_solver.
      * intros r' Hr'. destruct (Hrm r') as [? ?]; [by right|]. set_solver.
      * split; cbn; [|set_solver]. rewrite size_difference, size_singleton by set_solver. lia.
Qed.

(** ** Matching the peers of two regions *)

Definition stores (region : RegionInfo) : list Z := Peer_StoreId <$> GetPeers region.

Lemma store_set_fold (l : list Peer) (acc : gset Z) x :
  x ∈ foldl (λ hash peer, {[Peer_StoreId peer]} ∪ hash) acc l ↔ x ∈ acc ∨ x ∈ Peer_StoreId <$> l.
Proof.
  revert acc. induction l as [|p l IH]; intros acc; cbn.
  - rewrite elem_of_nil. tauto.
  - rewrite IH, elem_of_union, elem_of_singleton, elem_of_cons. tauto.
Qed.

Lemma elem_of_intersection a b x :
  x ∈ getIntersectionStores a b ↔ x ∈ Peer_StoreId <$> a ∧ x ∈ Peer_StoreId <$> b.
Proof.
  unfold getIntersectionStores. set (hash := foldl _ _ a).
  assert (Hh : ∀ y, y ∈ hash ↔ y ∈ Peer_StoreId <$> a).
  { intros y. unfold hash. rewrite store_set_fold, elem_of_empty. tauto. }
  rewrite <-Hh. generalize hash. clear. intros hash.
  assert (H : ∀ acc : gset Z, x ∈ foldl (λ intersection peer,
    if decide (Peer_StoreId peer ∈ hash) then {[Peer_StoreId peer]} ∪ intersection else intersection) acc b ↔
    x ∈ acc ∨ x ∈ hash ∧ x ∈ Peer_StoreId <$> b).
  { induction b as [|p b IH]; intros acc; cbn; [rewrite elem_of_nil; tauto|].
    rewrite IH, elem_of_cons. case_decide; rewrite ?elem_of_union, ?elem_of_singleton; naive_solver. }
  rewrite H, elem_of_empty. tauto.
Qed.

Lemma length_filter_split {A} (P : A → Prop) `{!∀ x, Decision (P x)} (l : list A) :
  length l = (length (filter P l) + length (filter (λ x, ¬ P x) l))%nat.
Proof.
  induction l as [|x l IH]; [done|]. rewrite !filter_cons. repeat case_decide; cbn; try tauto; lia.
Qed.

(** Lists of the same length that share the elements of [I] have as many others. *)
Lemma length_outside (a b : list Z) (I : gset Z) : NoDup a → NoDup b → length a = length b →
  (∀ x, x ∈ I ↔ x ∈ a ∧ x ∈ b) →
  length (filter (λ x, x ∉ I) a) = length (filter (λ x, x ∉ I) b).
Proof.
  intros Ha Hb Hlen HI.
  pose proof (length_filter_split (.∈ I) a). pose proof (length_filter_split (.∈ I) b).
  assert (filter (.∈ I) a ≡ₚ filter (.∈ I) b) as Hp.
  { apply NoDup_Permutation; [by apply NoDup_filter..|]. intros x. rewrite !list_elem_of_filter, HI. tauto. }
  apply Permutation_length in Hp. lia.
Qed.

Section matching.
Context {C : Type} `{!Cluster C}.

Lemma alloc_add_steps_spec s c c' r : alloc_add_steps s c = (c', r) →
  match r with
  | inr steps => adds_peer s steps
  | inl err => ∃ c1, AllocPeer s c = (c1, inl err)
  end.
Proof.
  unfold alloc_add_steps. destruct (AllocPeer s c) as [c1 [err|p]]; intros [= <- <-]; [eauto|].
  destruct (IsRaftLearnerEnabled c1); [right; eauto|left; eauto].
Qed.

Definition new_stores (I : gset Z) (l : list Peer) : list Z := filter (λ x, x ∉ I) (Peer_StoreId <$> l).

Lemma match_adds_spec I (l : list Peer) : Forall (λ p, Peer_StoreId p ≠ 0) l → ∀ toAdds tl kind c c' r,
  match_adds I l toAdds tl kind c = (c', r) →
  match r with
  | inr (toAdds', tl', _) => ∃ adds, Forall2 adds_peer (new_stores I l) adds ∧ toAdds' = toAdds ++ adds ∧
      tl' = if tl =? 0 then default 0 (head (new_stores I l)) else tl
  | inl err => ∃ s c1 c2, AllocPeer s c1 = (c2, inl err)
  end.
Proof.
  unfold new_stores. induction 1 as [|p l Hp Hl IH]; intros toAdds tl kind c c' r; cbn [match_adds].
  - intros [= <- <-]. exists []. rewrite app_nil_r. split_and!; [constructor|done|]. by destruct (Z.eqb_spec tl 0) as [->|].
  - cbn [fmap list_fmap]. rewrite filter_cons. destruct (decide (Peer_StoreId p ∈ I)) as [Hin|Hin].
    + intros H. rewrite decide_False by tauto. by apply IH in H.
    + rewrite decide_True by done. rewrite M_bind_eq. destruct (alloc_add_steps _ c) as [c1 [err|add]] eqn:Ea.
      * intros [= <- <-]. apply alloc_add_steps_spec in Ea as [c2 ?]. eauto.
      * apply alloc_add_steps_spec in Ea. intros H. apply IH in H. destruct r as [err|[[toAdds' tl'] k]]; [done|].
        destruct H as (adds & Hadds & -> & ->). exists (add :: adds). split_and!; [by constructor|by rewrite <-app_assoc|].
        cbn. destruct (Z.eqb_spec tl 0) as [->|Hne]; [by apply Z.eqb_neq in Hp as ->|by apply Z.eqb_neq in Hne as ->].
Qed.

Lemma match_leader_spec order leaderID tl : Forall (λ s, s ≠ 0) order →
  let t := match_leader order leaderID tl in
  (leaderID ∈ order → t = 0) ∧ (leaderID ∉ order → order ≠ [] → t ∈ order) ∧ (order = [] → t = tl).
Proof.
  revert tl. induction order as [|s order IH]; intros tl H0; cbn.
  - split_and!; [|done|done]. by intros ?%not_elem_of_nil.
  - apply Forall_cons in H0 as [Hs H0]. destruct (Z.eqb_spec s leaderID) as [->|Hne].
    { split_and!; [done| |done]. intros Hn. destruct Hn. by left. }
    destruct (IH s H0) as (IH1 & IH2 & IH3). split_and!.
    + intros [->|?]%elem_of_cons; auto. done.
    + intros Hn _. destruct order as [|y order]; [rewrite IH3 by done; by left|].
      right. apply IH2; [|done]. intros ?. apply Hn. by right.
    + done.
Qed.

(** The redundant stores, the leader's kept when it is to be the last. *)
Definition old_stores (I : gset Z) (tl leaderID : Z) (l : list Peer) : list Z :=
  filter (λ x, (x ∉ I) ∧ ¬ (tl ≠ 0 ∧ x = leaderID)) (Peer_StoreId <$> l).

Lemma match_removes_spec I toAdds tl leaderID (l : list Peer) : ∀ steps kind index,
  (index + length (old_stores I tl leaderID l) ≤ length toAdds)%nat →
  ∃ kind', match_removes I l toAdds tl leaderID steps kind index =
    inr (steps ++ replace_steps (drop index toAdds) (old_stores I tl leaderID l), kind',
         (index + length (old_stores I tl leaderID l))%nat).
Proof.
  unfold old_stores. induction l as [|p l IH]; intros steps kind index; cbn [match_removes fmap list_fmap].
  - intros _. exists kind. unfold replace_steps. rewrite filter_nil, zip_with_nil_r, app_nil_r, Nat.add_0_r. done.
  - rewrite filter_cons. destruct (decide (Peer_StoreId p ∈ I)) as [Hin|Hin].
    + rewrite decide_False by tauto. apply IH.
    + destruct (negb (tl =? 0) && (Peer_StoreId p =? leaderID)) eqn:Eb.
      * apply andb_true_iff in Eb as [Ht%negb_true_iff%Z.eqb_neq Hp%Z.eqb_eq]. rewrite decide_False by tauto. apply IH.
      * apply andb_false_iff in Eb. assert (Hok : (Peer_StoreId p ∉ I) ∧ ¬ (tl ≠ 0 ∧ Peer_StoreId p = leaderID)).
        { split; [done|]. intros [Ht Hp]. destruct Eb as [Eb|Eb]; [apply negb_false_iff, Z.eqb_eq in Eb; done|].
          by apply Z.eqb_neq in Eb. }
        rewrite decide_True by exact Hok. cbn [length]. intros Hlen.
        destruct (lookup_lt_is_Some_2 toAdds index) as [add Hadd]; [lia|]. rewrite Hadd.
        edestruct (IH (steps ++ add ++ [RemovePeer (Peer_StoreId p)])) as [kind' ->]; [lia|].
        exists kind'. rewrite (drop_S toAdds add index Hadd). unfold replace_steps. cbn [zip_with mjoin list_join].
        by rewrite <-!app_assoc, Nat.add_succ_r.
Qed.

(** Source and target of a match: one peer per store, no store 0, and the leader
    among the source's peers. *)
Record matchable (source target : RegionInfo) (order : list Z) : Prop := {
  ma_source : NoDup (stores source);
  ma_target : NoDup (stores target);
  ma_zero : (0 ∉ stores source) ∧ (0 ∉ stores target);
  ma_leader : Peer_GetStoreId (GetLeader source) ∈ stores source;
  ma_order : order ≡ₚ elements (getIntersectionStores (GetPeers source) (GetPeers target));
}.

(** The peers of a region without learners. *)
Definition voters_of (region : RegionInfo) : placement :=
  mkPlacement (list_to_set (stores region)) ∅ (Peer_GetStoreId (GetLeader region)).

Lemma stores_nonzero region : 0 ∉ stores region → Forall (λ p, Peer_StoreId p ≠ 0) (GetPeers region).
Proof.
  intros H. apply list.Forall_forall. intros p Hp Hz. apply H. unfold stores. rewrite list_elem_of_fmap. by exists p.
Qed.

Lemma size_stores region : NoDup (stores region) → size (list_to_set (stores region) : gset Z) = length (stores region).
Proof. intros. by apply size_list_to_set. Qed.

Section finish.
Variables (source target : RegionInfo) (order : list Z) (toAdds : list (list OperatorStep)).
Hypothesis Hma : matchable source target order.
Let I := getIntersectionStores (GetPeers source) (GetPeers target).
Let A := filter (λ x, x ∉ I) (stores target).
Let R := filter (λ x, x ∉ I) (stores source).
Let n := length (stores source).
Let leaderID := Peer_GetStoreId (GetLeader source).
Hypothesis Hlen : length (stores source) = length (stores target).
Hypothesis Hadds : Forall2 adds_peer A toAdds.

Lemma in_I x : x ∈ I ↔ x ∈ stores source ∧ x ∈ stores target.
Proof. apply elem_of_intersection. Qed.

Lemma length_AR : length R = length A.
Proof. apply length_outside; try apply Hma; [done|apply in_I]. Qed.

Lemma in_A x : x ∈ A ↔ x ∈ stores target ∧ (x ∉ stores source).
Proof. unfold A. rewrite list_elem_of_filter, in_I. tauto. Qed.

Lemma in_R x : x ∈ R ↔ x ∈ stores source ∧ (x ∉ stores target).
Proof. unfold R. rewrite list_elem_of_filter, in_I. tauto. Qed.

Lemma voters_target (vs : gset Z) : (∀ x, x ∈ vs ↔ x ∈ stores target) → vs = list_to_set (stores target).
Proof. intros H. apply leibniz_equiv. intros x. rewrite H, elem_of_list_to_set. done. Qed.

(** With the leader [l] in the intersection all redundant peers are replaced. *)
Lemma exec_keep l : l ∈ I →
  exec_safe n (replace_steps toAdds R) (mkPlacement (list_to_set (stores source)) ∅ l)
    (mkPlacement (list_to_set (stores target)) ∅ l).
Proof.
  intros Hl. rewrite <-(voters_target ((list_to_set (stores source) ∪ list_to_set A) ∖ list_to_set R)).
  - apply exec_replace; [done|apply length_AR|apply NoDup_filter, Hma|apply NoDup_filter, Hma| | |].
    + intros s Hs%in_A. rewrite elem_of_list_to_set. tauto.
    + intros r Hr%in_R. rewrite elem_of_list_to_set. split; [tauto|]. intros ->. apply in_I in Hl. tauto.
    + split; cbn; [rewrite size_stores by apply Hma; done|]. apply elem_of_list_to_set. by apply in_I in Hl as [? _].
  - intros x. rewrite elem_of_difference, elem_of_union, !elem_of_list_to_set, in_A, in_R.
    destruct (decide (x ∈ stores source)), (decide (x ∈ stores target)); tauto.
Qed.

(** Without intersection the leader's peer is the last one replaced. *)
Lemma exec_leader_last : (∀ x, x ∉ I) →
  ∃ add t A', A = t :: A' ∧
  let R' := filter (λ x, (x ∉ I) ∧ ¬ (t ≠ 0 ∧ x = leaderID)) (stores source) in
  t ≠ 0 ∧ S (length R') = length toAdds ∧ toAdds !! length R' = Some add ∧
  exec_safe n (replace_steps toAdds R' ++ add ++ [TransferLeader leaderID t; RemovePeer leaderID])
    (voters_of source) (mkPlacement (list_to_set (stores target)) ∅ t).
Proof.
  intros HI. pose proof (ma_leader _ _ _ Hma) as Hl. fold leaderID in Hl.
  assert (HR : ∀ x, x ∈ R ↔ x ∈ stores source) by (intros x; unfold R; rewrite list_elem_of_filter; specialize (HI x); tauto).
  assert (HA : ∀ x, x ∈ A ↔ x ∈ stores target) by (intros x; unfold A; rewrite list_elem_of_filter; specialize (HI x); tauto).
  assert (Hdisj : ∀ x, x ∈ stores source → x ∉ stores target) by (intros x ? ?; apply (HI x), in_I; done).
  destruct A as [|t A'] eqn:EA.
  { assert (Hx : leaderID ∈ R) by by apply HR. pose proof length_AR as Hlr. rewrite EA in Hlr. destruct R; [|done].
    by apply not_elem_of_nil in Hx. }
  assert (Ht : t ∈ stores target) by (apply HA; by left).
  assert (Ht0 : t ≠ 0) by (intros ->; by apply (ma_zero _ _ _ Hma)).
  set (R' := filter (λ x, (x ∉ I) ∧ ¬ (t ≠ 0 ∧ x = leaderID)) (stores source)).
  assert (HR' : ∀ x, x ∈ R' ↔ x ∈ stores source ∧ x ≠ leaderID).
  { intros x. unfold R'. rewrite list_elem_of_filter. specialize (HI x). tauto. }
  assert (Hperm : R ≡ₚ leaderID :: R').
  { apply NoDup_Permutation; [apply NoDup_filter, Hma| |].
    - constructor; [rewrite HR'; tauto|apply NoDup_filter, Hma].
    - intros x. rewrite elem_of_cons, HR, HR'. destruct (decide (x = leaderID)) as [->|]; tauto. }
  pose proof (Permutation_length Hperm) as Hlr. cbn in Hlr. pose proof length_AR as Har. rewrite EA in Har.
  pose proof (Forall2_length _ _ _ Hadds) as Hla.
  destruct (lookup_lt_is_Some_2 toAdds (length R')) as [add Hadd]; [lia|].
  exists add, t, A'. split; [done|]. cbn zeta. fold R'. split_and!; [done|lia|done|].
  set (k := length R') in *.
  assert (Hsplit : toAdds = take k toAdds ++ [add]).
  { rewrite <-(take_S_r _ _ _ Hadd). symmetry. apply take_ge. lia. }
  assert (HAsplit : ∃ last, t :: A' = take k (t :: A') ++ [last]).
  { destruct (lookup_lt_is_Some_2 (t :: A') k) as [a Ha]; [lia|]. exists a.
    rewrite <-(take_S_r _ _ _ Ha). symmetry. apply take_ge. lia. }
  destruct HAsplit as [a Ha]. set (A0 := take k (t :: A')) in *.
  assert (Hrep : replace_steps toAdds R' = replace_steps (take k toAdds) R').
  { unfold replace_steps. f_equal. rewrite Hsplit at 1. rewrite <-(app_nil_r R') at 1.
    rewrite zip_with_app; [by rewrite zip_with_nil_r, app_nil_r|]. rewrite length_take. lia. }
  rewrite Hrep. rewrite Hsplit, Ha in Hadds. apply Forall2_app_inv in Hadds as [HA0 Ha0];
    [|unfold A0; rewrite !length_take, Hla; done]. apply Forall2_cons_1 in Ha0 as [Ha0 _].
  assert (Hnd : NoDup (A0 ++ [a])) by (rewrite <-Ha, <-EA; apply NoDup_filter, Hma).
  apply NoDup_app in Hnd as (HndA & Hna & _).
  assert (HinA : ∀ x, x ∈ A0 ∨ x = a ↔ x ∈ stores target).
  { intros x. rewrite <-HA, Ha, elem_of_app, list_elem_of_singleton. done. }
  eapply exec_safe_app; [apply (exec_replace n A0); try done|].
  - unfold A0. rewrite length_take, Hla. lia.
  - apply NoDup_filter, Hma.
  - intros x Hx. rewrite elem_of_list_to_set. intros Hs. apply (Hdisj x Hs), HinA. by left.
  - intros r Hr%HR'. by rewrite elem_of_list_to_set.
  - split; cbn; [by rewrite size_stores by apply Hma|by apply elem_of_list_to_set].
  - fold leaderID. set (vs := (_ ∪ _) ∖ _).
    assert (Hvs : ∀ x, x ∈ vs ↔ x = leaderID ∨ x ∈ A0).
    { intros x. unfold vs. rewrite elem_of_difference, elem_of_union, !elem_of_list_to_set, HR'.
      destruct (decide (x = leaderID)) as [->|]; [tauto|]. destruct (decide (x ∈ A0)) as [Hx|]; [|tauto].
      assert (x ∉ stores source) by (intros Hs; apply (Hdisj x Hs), HinA; by left). tauto. }
    assert (Hla0 : leaderID ∉ A0) by (intros Hx; apply (Hdisj leaderID Hl), HinA; by left).
    assert (Hlea : leaderID ≠ a) by (intros ->; apply (Hdisj a Hl), HinA; by right).
    assert (Hsize : (size vs = n)%nat).
    { replace vs with (list_to_set (leaderID :: A0) : gset Z).
      2:{ apply leibniz_equiv. intros x. rewrite Hvs, elem_of_list_to_set, elem_of_cons. done. }
      rewrite size_list_to_set by by constructor. pose proof (f_equal length Ha) as HlA.
      rewrite length_app, <-EA in HlA. cbn [length] in *. unfold n. rewrite Hlen.
      replace A with (stores target) in HlA; [lia|]. symmetry. apply filter_all. intros x _. apply HI. }
    eapply exec_safe_app; [apply exec_adds; [done| |]|].
    + rewrite Hvs. intros [->|?]; [done|]. apply (Hna a); [done|]. by left.
    + split; cbn; [lia|]. apply Hvs. by left.
    + assert (Ht0' : t ∈ A0 ∨ t = a) by by apply HinA.
      assert (Hsize' : size ({[a]} ∪ vs) = S n).
      { rewrite size_union, size_singleton by (apply disjoint_singleton_l; rewrite Hvs; intros [->|?]; [done|];
          apply (Hna a); [done|by left]). lia. }
      assert (Htv : t ∈ {[a]} ∪ vs) by (rewrite elem_of_union, elem_of_singleton, Hvs; tauto).
      change [TransferLeader leaderID t; RemovePeer leaderID] with ([TransferLeader leaderID t] ++ [RemovePeer leaderID]).
      eapply exec_safe_app; [by apply exec_transfer; [|lia]|].
      rewrite <-(voters_target (({[a]} ∪ vs) ∖ {[leaderID]})).
      * apply exec_remove; [rewrite elem_of_union, Hvs; tauto| |done|lia].
        intros <-. by apply (Hdisj leaderID Hl).
      * intros x. rewrite elem_of_difference, elem_of_union, !elem_of_singleton, Hvs, <-HinA.
        destruct (decide (x = leaderID)) as [->|]; [|tauto]. split; [tauto|]. intros [?|?]; done.
Qed.

Lemma match_finish_spec kind : ∃ steps kind' l,
  match_finish source I order toAdds (default 0 (head A)) kind = inr (steps, kind') ∧
  exec_safe n steps (voters_of source) (mkPlacement (list_to_set (stores target)) ∅ l) ∧ l ∈ stores target.
Proof.
  pose proof (Forall2_length _ _ _ Hadds) as Hla. pose proof length_AR as Hlr.
  assert (Hord : ∀ x, x ∈ order ↔ x ∈ I) by (intros x; rewrite (ma_order _ _ _ Hma), elem_of_elements; done).
  assert (Hnz : Forall (λ s, s ≠ 0) order).
  { apply list.Forall_forall. intros x Hx ->. apply Hord, in_I in Hx as [Hx _]. by apply (proj1 (ma_zero _ _ _ Hma)). }
  assert (HRold : old_stores I 0 leaderID (GetPeers source) = R).
  { apply list_filter_iff. intros x. split; [tauto|]. intros ?. split; [done|]. tauto. }
  unfold match_finish. fold leaderID.
  destruct (match_leader_spec order leaderID (default 0 (head A)) Hnz) as (Hin & Hout & Hnil).
  set (t := match_leader order leaderID _) in *.
  destruct (decide (order = [])) as [Hempty|Hne].
  - assert (HI : ∀ x, x ∉ I) by (intros x Hx%Hord; rewrite Hempty in Hx; by apply not_elem_of_nil in Hx).
    assert (size I = 0%nat) as -> by (apply size_empty_iff, elem_of_equiv_empty, HI). cbn [Nat.eqb negb andb].
    destruct (exec_leader_last HI) as (add & t' & A' & HA & Ht0 & HlR & Hadd & Hexec).
    assert (Htt : t = t') by (by rewrite (Hnil Hempty), HA). rewrite Htt.
    edestruct (match_removes_spec I toAdds t' leaderID (GetPeers source) [] kind 0) as [kind' ->].
    { unfold old_stores. fold (stores source). lia. }
    cbn [app]. rewrite drop_0. unfold old_stores. fold (stores source).
    apply Z.eqb_neq in Ht0 as Ht0b. rewrite Ht0b. cbn [negb Nat.add]. rewrite Hadd.
    rewrite HlR, Nat.eqb_refl. cbn [negb]. eexists _, _, t'. split_and!; [reflexivity|exact Hexec|].
    apply (in_A t'). rewrite HA. by left.
  - assert (HIne : size I ≠ 0%nat).
    { intros Hs%size_empty_iff. destruct order as [|x ?]; [done|]. assert (Hx : x ∈ I) by (apply Hord; by left).
      by apply (proj1 (elem_of_equiv_empty I) Hs) in Hx. }
    apply Nat.eqb_neq in HIne as ->. cbn [negb andb].
    assert (Hfin : ∀ steps kind l, l ∈ I →
      exec_safe n steps (voters_of source) (mkPlacement (list_to_set (stores source)) ∅ l) →
      ∃ steps' kind' l', match match_removes I (GetPeers source) toAdds 0 leaderID steps kind 0 with
        | inl err => inl err
        | inr (steps, kind, index) =>
            if negb (index =? length toAdds)%nat then inl (Error "wrong count of add steps") else inr (steps, kind)
        end = inr (steps', kind') ∧
      exec_safe n steps' (voters_of source) (mkPlacement (list_to_set (stores target)) ∅ l') ∧ l' ∈ stores target).
    { intros steps k l Hl Hex. edestruct (match_removes_spec I toAdds 0 leaderID (GetPeers source) steps k 0) as [k' ->];
        rewrite HRold; [lia|]. cbn [Nat.add]. rewrite Hlr, Hla, Nat.eqb_refl, drop_0. cbn [negb].
      eexists _, _, l. split_and!; [done| |by apply in_I in Hl as [_ ?]]. eapply exec_safe_app; [exact Hex|by apply exec_keep]. }
    destruct (decide (leaderID ∈ order)) as [Hl|Hl].
    + rewrite (Hin Hl). cbn [Z.eqb negb]. apply (Hfin [] kind leaderID); [by apply Hord|constructor].
    + specialize (Hout Hl Hne). assert (Ht0 : t ≠ 0) by (rewrite list.Forall_forall in Hnz; by apply Hnz).
      apply Z.eqb_neq in Ht0 as ->. cbn [negb Z.eqb].
      apply (Hfin [TransferLeader leaderID t] (Z.lor kind OpLeader) t); [by apply Hord|].
      apply exec_transfer; [apply elem_of_list_to_set; by apply Hord, in_I in Hout as [? _]|]. by rewrite size_stores by apply Hma.
Qed.
End finish.

(** The steps that prepare the merge of a region without learners: unless the
    peer counts differ or a peer id cannot be allocated, [matchPeerSteps]
    succeeds without panic, in whatever order it visits the intersection, and
    its steps are all accepted and move the peers to exactly the target's stores,
    with the leader among them; on the way the region never has fewer voters
    than before and its leader is never removed. *)
Lemma matchPeerSteps_correct source target order (c : C) :
  matchable source target order → length (stores source) = length (stores target) →
  match matchPeerSteps source target order c with
  | (_, inr (steps, _)) => ∃ l,
      exec_safe (length (stores source)) steps (voters_of source) (mkPlacement (list_to_set (stores target)) ∅ l) ∧
      l ∈ stores target
  | (_, inl err) => ∃ s c1 c2, AllocPeer s c1 = (c2, inl err)
  end.
Proof.
  intros Hma Hlen. unfold matchPeerSteps. unfold stores in Hlen. rewrite !length_fmap in Hlen.
  rewrite Hlen, Nat.eqb_refl. cbn [negb]. rewrite M_bind_eq.
  destruct (match_adds _ _ _ _ _ c) as [c1 r] eqn:Ea.
  apply match_adds_spec in Ea; [|by apply stores_nonzero, (ma_zero _ _ _ Hma)].
  destruct r as [err|[[toAdds tl] kind]]; [done|]. destruct Ea as (adds & Hadds & -> & ->). cbn [app Z.eqb].
  unfold lift_result. destruct (match_finish_spec source target order adds Hma) with kind as (steps & k & l & Hf & He & Hl).
  - unfold stores. by rewrite !length_fmap.
  - done.
  - unfold new_stores. fold (stores target). rewrite Hf. eauto.
Qed.
End matching.

(** ** Moving one peer *)

(** A region with one voter per store and no learner, led by one of its peers. *)
Record plain_region (region : RegionInfo) : Prop := {
  pr_nodup : NoDup (stores region);
  pr_voters : GetVoters region = GetPeers region;
  pr_leader : ∃ l, GetLeader region = Some l ∧ l ∈ GetPeers region;
}.

Lemma same_store region p q : NoDup (stores region) → p ∈ GetPeers region → q ∈ GetPeers region →
  Peer_StoreId p = Peer_StoreId q → p = q.
Proof.
  unfold stores. intros Hnd [i Hi]%list_elem_of_lookup [j Hj]%list_elem_of_lookup Heq.
  assert (i = j) as ->.
  { eapply (NoDup_lookup _ _ _ (Peer_StoreId p)); [exact Hnd|by rewrite list_lookup_fmap, Hi|].
    by rewrite list_lookup_fmap, Hj, Heq. }
  congruence.
Qed.

Lemma elem_of_followers region id : is_Some (GetFollowers region !! id) →
  ∃ p, p ∈ GetVoters region ∧ Peer_StoreId p = id ∧ is_follower region p = true.
Proof.
  unfold GetFollowers. assert (H : ∀ l (acc : gmap Z Peer), is_Some (foldl (λ followers peer,
    if is_follower region peer then <[Peer_StoreId peer := peer]> followers else followers) acc l !! id) →
    is_Some (acc !! id) ∨ ∃ p, p ∈ l ∧ Peer_StoreId p = id ∧ is_follower region p = true).
  { induction l as [|p l IH]; intros acc; cbn; [by left|]. intros [Hacc|(q & Hq & ?)]%IH.
    - destruct (is_follower region p) eqn:Ef; [|by left]. destruct (decide (Peer_StoreId p = id)) as [<-|Hne].
      + right. exists p. split; [by left|done].
      + rewrite lookup_insert_ne in Hacc by done. by left.
    - right. exists q. split; [by right|done]. }
  intros [[? Hx]|?]%H; [by rewrite lookup_empty in Hx|done].
Qed.

(** Followers are on other stores than the leader. *)
Lemma follower_id_store region l ids id : plain_region region → GetLeader region = Some l → l ∈ GetPeers region →
  is_FollowerIDs region ids → id ∈ ids → id ∈ stores region ∧ id ≠ Peer_StoreId l.
Proof.
  intros [Hnd Hv _] Hl Hin Hids Hid. unfold is_FollowerIDs in Hids. rewrite Hids in Hid.
  apply list_elem_of_fmap in Hid as ([id' p'] & -> & Hp%elem_of_map_to_list). cbn.
  destruct (elem_of_followers region id') as (p & Hpv & <- & Hf); [by eexists|].
  rewrite Hv in Hpv. split; [unfold stores; rewrite list_elem_of_fmap; by exists p|]. intros Heq.
  assert (p = l) as -> by (by eapply same_store). unfold is_follower in Hf. unfold GetLeader in Hl.
  rewrite Hl, Z.eqb_refl in Hf. done.
Qed.

Section moving.
Context {C : Type} `{!Cluster C}.
Implicit Types (c : C).

(** The steps that remove a peer make it hand over the leadership first. *)
Lemma removePeerSteps_spec c region old ids kind steps l :
  removePeerSteps c region old ids = inr (kind, steps) → GetLeader region = Some l →
  steps = [RemovePeer old] ∧ Peer_StoreId l ≠ old ∨
  ∃ id, id ∈ ids ∧ Peer_StoreId l = old ∧ steps = [TransferLeader old id; RemovePeer old].
Proof.
  unfold removePeerSteps. intros Hr Hl. rewrite Hl in Hr. destruct (Z.eqb_spec (Peer_StoreId l) old) as [He|He].
  - destruct (find_first _ ids) as [id|] eqn:Ef; [|done]. injection Hr as <- <-. right. apply find_first_Some in Ef as [? _]. eauto.
  - injection Hr as <- <-. by left.
Qed.

(** Removing [old] from the voters [vs], the successor being one of them. *)
Lemma exec_remove_steps n vs old (ids : list Z) steps l :
  steps = [RemovePeer old] ∧ l ≠ old ∨ (∃ id, id ∈ ids ∧ l = old ∧ steps = [TransferLeader old id; RemovePeer old]) →
  old ∈ vs → l ∈ vs → (n < size vs)%nat → (∀ id, l = old → id ∈ ids → id ∈ vs ∧ id ≠ old) →
  ∃ l', exec_safe n steps (mkPlacement vs ∅ l) (mkPlacement (vs ∖ {[old]}) ∅ l') ∧ l' ≠ old.
Proof.
  intros [[-> Hne]|(id & Hid & -> & ->)] Hold Hl Hn Hids.
  - exists l. split; [|done]. by apply exec_remove.
  - destruct (Hids id eq_refl Hid) as [Hv Hne]. exists id. split; [|done].
    change [TransferLeader old id; RemovePeer old] with ([TransferLeader old id] ++ [RemovePeer old]).
    eapply exec_safe_app; [by apply exec_transfer; [|lia]|]. by apply exec_remove.
Qed.

Lemma CreateAddPeerSteps_adds c store peer : adds_peer store (CreateAddPeerSteps store peer c).
Proof. unfold CreateAddPeerSteps. destruct (IsRaftLearnerEnabled c); [right; eauto|left; eauto]. Qed.

(** *** One peer *)

Section one_peer.
Variables (desc : string) (region : RegionInfo) (ids : list Z).
Hypothesis Hpr : plain_region region.
Hypothesis Hids : is_FollowerIDs region ids.
Let n := length (stores region).
Let vs := list_to_set (stores region) : gset Z.

Lemma plain_leader : ∃ l, GetLeader region = Some l ∧ Peer_StoreId l ∈ vs ∧
  ∀ id, id ∈ ids → id ∈ vs ∧ id ≠ Peer_StoreId l.
Proof.
  destruct (pr_leader _ Hpr) as (l & Hl & Hlin). exists l. split_and!; [done| |].
  - apply elem_of_list_to_set. unfold stores. rewrite list_elem_of_fmap. by exists l.
  - intros id Hid. destruct (follower_id_store _ _ _ _ Hpr Hl Hlin Hids Hid). split; [by apply elem_of_list_to_set|done].
Qed.

Lemma plain_size : size vs = n.
Proof. apply size_stores, (pr_nodup _ Hpr). Qed.

(** Adding a peer on a store without one. *)
Lemma add_peer_safe c new peer : new ∉ stores region →
  exec_safe n (CreateAddPeerSteps new peer c) (voters_of region) (mkPlacement ({[new]} ∪ vs) ∅ (Peer_GetStoreId (GetLeader region))).
Proof.
  intros Hnew. destruct plain_leader as (l & Hl & Hlv & _). unfold voters_of. rewrite Hl.
  apply exec_adds; [apply CreateAddPeerSteps_adds|unfold vs; by rewrite elem_of_list_to_set|].
  split; cbn; [by rewrite plain_size|done].
Qed.

Lemma remove_peer_safe c kind old now op : old ∈ stores region →
  CreateRemovePeerOperator desc c kind region old ids now = inr op →
  ∃ l, exec_safe (n - 1) (op_steps op) (voters_of region) (mkPlacement (vs ∖ {[old]}) ∅ l) ∧ l ≠ old.
Proof.
  intros Hold. destruct plain_leader as (l & Hl & Hlv & Hfol).
  assert (Hpos : (0 < size vs)%nat).
  { destruct (decide (size vs = 0%nat)) as [Hz|]; [|lia]. apply size_empty_iff in Hz. set_solver. }
  unfold CreateRemovePeerOperator. destruct (removePeerSteps _ _ _ _) as [?|[k steps]] eqn:Er; [done|]. intros [= <-].
  cbn [op_steps NewOperator]. eapply removePeerSteps_spec in Er; [|done]. unfold voters_of. rewrite Hl.
  eapply (exec_remove_steps (n - 1)); [exact Er|by apply elem_of_list_to_set|done|rewrite plain_size in *; lia|].
  intros id <- Hid. by apply Hfol.
Qed.

Lemma size_added new : new ∉ stores region → size ({[new]} ∪ vs) = S n.
Proof.
  intros Hnew. rewrite size_union, size_singleton, plain_size; [lia|].
  apply disjoint_singleton_l. unfold vs; by rewrite elem_of_list_to_set.
Qed.

Lemma move_peer_safe c kind old new peer now op : old ∈ stores region → new ∉ stores region →
  CreateMovePeerOperator desc c region kind old new peer ids now = inr op →
  ∃ l, exec_safe n (op_steps op) (voters_of region) (mkPlacement (({[new]} ∪ vs) ∖ {[old]}) ∅ l) ∧ l ≠ old.
Proof.
  intros Hold Hnew. destruct plain_leader as (l & Hl & Hlv & Hfol). pose proof (size_added new Hnew) as Hsize.
  pose proof (add_peer_safe c new peer Hnew) as Hadd. rewrite Hl in Hadd. cbn in Hadd.
  assert (Hne : new ≠ old) by congruence. apply (elem_of_list_to_set (C := gset Z)) in Hold. fold vs in Hold.
  unfold CreateMovePeerOperator. destruct (removePeerSteps _ _ _ _) as [?|[k steps]] eqn:Er; [done|]. intros [= <-].
  cbn [op_steps NewOperator]. eapply removePeerSteps_spec in Er; [|done].
  destruct (exec_remove_steps n ({[new]} ∪ vs) old (ids ++ [new]) steps (Peer_StoreId l)) as (l' & Hex & Hl');
    [exact Er|set_solver|set_solver|lia| |by exists l'; split; [by eapply exec_safe_app|]].
  intros id Heq [Hid|Hid%list_elem_of_singleton]%elem_of_app; [|subst id; set_solver]. apply Hfol in Hid. set_solver.
Qed.

Lemma move_leader_safe c kind old new peer now op : old ∈ stores region → new ∉ stores region →
  CreateMoveLeaderOperator desc c region kind old new peer now = inr op →
  ∃ l, exec_safe n (op_steps op) (voters_of region) (mkPlacement (({[new]} ∪ vs) ∖ {[old]}) ∅ l) ∧ l = new.
Proof.
  intros Hold Hnew. destruct plain_leader as (l & Hl & Hlv & Hfol). pose proof (size_added new Hnew) as Hsize.
  pose proof (add_peer_safe c new peer Hnew) as Hadd.
  assert (Hne : new ≠ old) by congruence. apply (elem_of_list_to_set (C := gset Z)) in Hold. fold vs in Hold.
  unfold CreateMoveLeaderOperator. destruct (removePeerSteps _ _ _ _) as [?|[k steps]] eqn:Er; [done|]. intros [= <-].
  cbn [op_steps NewOperator]. eapply removePeerSteps_spec in Er; [|done]. exists new. split; [|done].
  rewrite <-app_assoc. eapply exec_safe_app; [exact Hadd|]. eapply exec_safe_app; [by apply exec_transfer; [set_solver|lia]|].
  destruct Er as [[-> _]|(id & Hid%list_elem_of_singleton & _ & ->)]; [|subst id].
  - apply exec_remove; [set_solver|done|set_solver|lia].
  - change [TransferLeader old new; RemovePeer old] with ([TransferLeader old new] ++ [RemovePeer old]).
    eapply exec_safe_app; [by apply exec_transfer; [set_solver|lia]|]. apply exec_remove; [set_solver|done|set_solver|lia].
Qed.
End one_peer.
End moving.

(** ** Moving a region *)

Section move_region.
Context {C : Type} `{!Cluster C}.
Variables (region : RegionInfo) (storeIDs : gset Z).

Lemma GetStorePeer_None id : GetStorePeer region id = None ↔ id ∉ stores region.
Proof.
  unfold GetStorePeer, stores, GetPeers. induction (Peers (meta region)) as [|p l IH]; cbn.
  - split; [intros _; apply not_elem_of_nil|done].
  - rewrite not_elem_of_cons. destruct (Z.eqb_spec (Peer_StoreId p) id); [split; [done|by intros [? _]]|].
    rewrite IH. split; [intros; split; [done..|]|]; tauto.
Qed.

Definition missing (order : list Z) : list Z := filter (λ id, id ∉ stores region) order.

Lemma move_add_steps_spec order : ∀ steps (c c' : C) steps', move_add_steps region order steps c = (c', inr steps') →
  ∃ adds, Forall2 adds_peer (missing order) adds ∧ steps' = steps ++ mjoin adds.
Proof.
  unfold missing. induction order as [|id order IH]; intros steps c c' steps'; cbn [move_add_steps].
  - intros [= <- <-]. exists []. rewrite app_nil_r. split; [constructor|done].
  - rewrite filter_cons. pose proof (GetStorePeer_None id) as Hid. destruct (GetStorePeer region id) as [p|].
    + rewrite decide_False; [apply IH|]. intros H%Hid. done.
    + rewrite decide_True by by apply Hid. rewrite M_bind_eq. destruct (alloc_add_steps id c) as [c1 [?|st]] eqn:Ea; [done|].
      intros (adds & Hadds & ->)%IH. apply alloc_add_steps_spec in Ea. exists (st :: adds).
      split; [by constructor|]. cbn [mjoin list_join]. by rewrite app_assoc.
Qed.

Lemma exec_adds_all n news adds : Forall2 adds_peer news adds → ∀ vs l, NoDup news → (∀ s, s ∈ news → s ∉ vs) →
  safe n (mkPlacement vs ∅ l) →
  exec_safe n (mjoin adds) (mkPlacement vs ∅ l) (mkPlacement (vs ∪ list_to_set news) ∅ l).
Proof.
  induction 1 as [|s add news adds Hadd _ IH]; intros vs l Hnd Hnew [Hn Hl]; cbn in Hn, Hl.
  - cbn. replace (vs ∪ ∅) with vs by set_solver. constructor.
  - apply NoDup_cons in Hnd as [Hs Hnd]. assert (Hsv : s ∉ vs) by (apply Hnew; by left).
    assert (size ({[s]} ∪ vs) = S (size vs)) by (rewrite size_union, size_singleton by set_solver; lia).
    cbn [mjoin list_join]. eapply exec_safe_app; [by apply exec_adds|].
    replace (vs ∪ list_to_set (s :: news)) with (({[s]} ∪ vs) ∪ list_to_set news) by (cbn; set_solver).
    apply IH; [done| |split; cbn; [lia|set_solver]].
    intros x Hx. assert (x ∉ vs) by (apply Hnew; by right). set_solver.
Qed.

(** The steps of the loop that removes the redundant peers. *)
Definition remove_one (target : Z) (p : Peer) : list OperatorStep :=
  if decide (Peer_StoreId p ∈ storeIDs) then []
  else (if Peer_GetId (GetLeader region) =? Peer_Id p then [TransferLeader (Peer_StoreId p) target] else []) ++
       [RemovePeer (Peer_StoreId p)].

Definition redundant (peers : list Peer) : list Z := filter (λ s, s ∉ storeIDs) (Peer_StoreId <$> peers).

Lemma exec_remove_all target (peers : list Peer) : ∀ vs l, NoDup (Peer_StoreId <$> peers) →
  (∀ p, p ∈ peers → Peer_StoreId p ∈ vs) → storeIDs ⊆ vs → target ∈ storeIDs → l ∈ vs →
  (∀ p, p ∈ peers → Peer_StoreId p = l → Peer_StoreId p ∉ storeIDs → Peer_GetId (GetLeader region) = Peer_Id p) →
  ∃ l', exec_safe (size storeIDs) (mjoin (remove_one target <$> peers)) (mkPlacement vs ∅ l)
    (mkPlacement (vs ∖ list_to_set (redundant peers)) ∅ l').
Proof.
  unfold redundant. induction peers as [|p peers IH]; intros vs l Hnd Hin Hsub Ht Hl Hlead; cbn [fmap list_fmap mjoin list_join].
  - exists l. rewrite filter_nil. cbn. replace (vs ∖ ∅) with vs by set_solver. constructor.
  - apply NoDup_cons in Hnd as [Hp Hnd]. rewrite filter_cons. unfold remove_one at 1.
    assert (Hpv : Peer_StoreId p ∈ vs) by (apply Hin; by left).
    destruct (decide (Peer_StoreId p ∈ storeIDs)) as [Hs|Hs].
    { rewrite decide_False by tauto. apply IH; try done; intros q Hq; [apply Hin|apply Hlead]; by right. }
    rewrite decide_True by done.
    assert (Hlt : (size storeIDs < size vs)%nat) by (apply subset_size; split; [done|]; intros H; by apply Hs, H).
    assert (Hhand : ∃ l1, l1 ∈ vs ∧ l1 ≠ Peer_StoreId p ∧ (l1 = l ∨ l1 = target) ∧
      exec_safe (size storeIDs) (if Peer_GetId (GetLeader region) =? Peer_Id p then [TransferLeader (Peer_StoreId p) target] else [])
        (mkPlacement vs ∅ l) (mkPlacement vs ∅ l1)).
    { destruct (Z.eqb_spec (Peer_GetId (GetLeader region)) (Peer_Id p)) as [He|He].
      - exists target. split_and!; [set_solver|congruence|by right|]. apply exec_transfer; [set_solver|lia].
      - exists l. split_and!; [done| |by left|constructor]. intros ->. apply He, (Hlead p); [by left|done..]. }
    destruct Hhand as (l1 & Hl1 & Hne & Hl1' & Hex).
    destruct (IH (vs ∖ {[Peer_StoreId p]}) l1) as (l' & Hex'); [done| |set_solver|done|set_solver| |].
    + intros q Hq. assert (Peer_StoreId q ∈ vs) by (apply Hin; by right).
      assert (Peer_StoreId q ≠ Peer_StoreId p); [|set_solver]. intros Heq. apply Hp, list_elem_of_fmap. by exists q.
    + intros q Hq Hql Hqs. destruct Hl1' as [-> | ->]; [by apply Hlead; [right|..]|]. congruence.
    + exists l'. rewrite <-app_assoc. eapply exec_safe_app; [exact Hex|]. eapply exec_safe_app; [by apply exec_remove|].
      replace (vs ∖ list_to_set (Peer_StoreId p :: filter (λ s, s ∉ storeIDs) (Peer_StoreId <$> peers)))
        with (vs ∖ {[Peer_StoreId p]} ∖ list_to_set (filter (λ s, s ∉ storeIDs) (Peer_StoreId <$> peers))) by (cbn; set_solver).
      done.
Qed.

Lemma remove_fold target order (peers : list Peer) steps :
  foldl (λ steps peer,
    if decide (Peer_StoreId peer ∈ storeIDs) then steps
    else
      let steps :=
        if Peer_GetId (GetLeader region) =? Peer_Id peer then
          match target :: order with
          | [] => steps
          | targetID :: _ => steps ++ [TransferLeader (Peer_StoreId peer) targetID]
          end
        else steps in
      steps ++ [RemovePeer (Peer_StoreId peer)]) steps peers = steps ++ mjoin (remove_one target <$> peers).
Proof.
  revert steps. induction peers as [|p peers IH]; intros steps; cbn [foldl fmap list_fmap mjoin list_join]; [by rewrite app_nil_r|].
  rewrite IH. unfold remove_one at 2. destruct (decide _); [done|].
  destruct (_ =? _); cbn; by rewrite <-!app_assoc.
Qed.

(** The operator that moves a region without learners to given stores, the
    loops over the stores in any orders: when peer ids can be allocated, all its
    steps are accepted, the region ends up on exactly these stores, and on the way
    it always has at least as many voters as it starts or ends with, whichever is
    less, and a leader among them. *)
Lemma move_region_correct desc kind order order' now (c c' : C) op :
  plain_region region → storeIDs ≠ ∅ → order ≡ₚ elements storeIDs → order' ≡ₚ elements storeIDs →
  CreateMoveRegionOperator desc region kind storeIDs order order' now c = (c', inr op) →
  ∃ l, exec_safe (Nat.min (length (stores region)) (size storeIDs)) (op_steps op) (voters_of region)
    (mkPlacement storeIDs ∅ l).
Proof.
  intros Hpr Hne Ho Ho'. unfold CreateMoveRegionOperator. rewrite M_bind_eq.
  destruct (move_add_steps region order [] c) as [c1 [?|steps]] eqn:Ea; [done|].
  apply move_add_steps_spec in Ea as (adds & Hadds & ->). intros [= <- <-]. cbn [op_steps NewOperator].
  destruct order' as [|target order'].
  { destruct Hne. apply leibniz_equiv, elements_empty_iff. symmetry. by apply Permutation_nil_l. }
  assert (Ht : target ∈ storeIDs) by (apply elem_of_elements; rewrite <-Ho'; by left).
  rewrite (remove_fold target order'). destruct (pr_leader _ Hpr) as (l & Hl & Hlin). set (n := Nat.min _ _).
  assert (Hls : Peer_StoreId l ∈ stores region) by (unfold stores; rewrite list_elem_of_fmap; by exists l).
  assert (Hweak : (n ≤ size storeIDs)%nat) by (unfold n; lia).
  assert (Hmiss : ∀ s, s ∈ missing order ↔ s ∈ storeIDs ∧ (s ∉ stores region)).
  { intros s. unfold missing. rewrite list_elem_of_filter, Ho, elem_of_elements. tauto. }
  destruct (exec_remove_all target (GetPeers region) (list_to_set (stores region) ∪ list_to_set (missing order)) (Peer_StoreId l))
    as (l' & Hex); try done.
  - apply (pr_nodup _ Hpr).
  - intros p Hp. apply elem_of_union_l, elem_of_list_to_set. unfold stores. rewrite list_elem_of_fmap. by exists p.
  - intros s Hs. rewrite elem_of_union, !elem_of_list_to_set, Hmiss. destruct (decide (s ∈ stores region)); tauto.
  - apply elem_of_union_l. by apply elem_of_list_to_set.
  - intros p Hp Heq _. by rewrite (same_store region p l (pr_nodup _ Hpr) Hp Hlin Heq), Hl.
  - assert (Hfinal : (list_to_set (stores region) ∪ list_to_set (missing order)) ∖
        list_to_set (redundant (GetPeers region)) = storeIDs).
    { apply leibniz_equiv. intros s. rewrite elem_of_difference, elem_of_union, !elem_of_list_to_set, Hmiss.
      unfold redundant. fold (stores region). rewrite list_elem_of_filter.
      destruct (decide (s ∈ stores region)), (decide (s ∈ storeIDs)); tauto. }
    rewrite Hfinal in Hex. exists l'. cbn [app]. eapply exec_safe_app; [|by eapply exec_safe_weaken].
    unfold voters_of. rewrite Hl.
    apply (exec_adds_all n (missing order)); [done| |intros s [_ ?]%Hmiss; by rewrite elem_of_list_to_set|].
    + apply NoDup_filter. rewrite Ho. apply NoDup_elements.
    + split; cbn; [rewrite size_stores by apply (pr_nodup _ Hpr); unfold n; lia|by apply elem_of_list_to_set].
Qed.
End move_region.

(** ** Progress *)

Lemma Check_loop_spec region now rest : ∀ pre o, op_steps o = pre ++ rest → op_currentStep o = length pre →
  let '(o', r) := Check_loop rest (length pre) region now o in
  ∃ k, (k ≤ length rest)%nat ∧ op_currentStep o' = (length pre + k)%nat ∧
    Forall (λ s, IsFinish s region = true) (take k rest) ∧ r = rest !! k ∧
    (∀ s, r = Some s → IsFinish s region = false) ∧
    ∃ t, o' = set_currentStep (length pre + k) t o.
Proof.
  induction rest as [|s rest IH]; intros pre o Ho Hc; cbn [Check_loop].
  - exists 0%nat. rewrite Nat.add_0_r. split_and!; [done|done|constructor|done|done|].
    exists (op_stepTime o). rewrite <-Hc. by destruct o.
  - destruct (IsFinish s region) eqn:Ef.
    + specialize (IH (pre ++ [s]) (set_currentStep (S (length pre)) now o)).
      rewrite length_app in IH. cbn [length] in IH. rewrite Nat.add_1_r in IH.
      destruct (Check_loop rest (S (length pre)) region now _) as [o' r].
      destruct IH as (k & Hk & Hc' & Hfin & Hr & Hun & t & ->).
      { cbn. rewrite Ho. by rewrite <-app_assoc. }
      { done. }
      exists (S k). split_and!; [cbn; lia|cbn; lia|by constructor|done|done|]. exists t.
      by replace (length pre + S k)%nat with (S (length pre) + k)%nat by lia.
    + exists 0%nat. rewrite Nat.add_0_r. split_and!; [lia|done|constructor|done|by intros ? [= <-]|].
      exists (op_stepTime o). rewrite <-Hc. by destruct o.
Qed.

(** [Check] advances an operator over exactly the finished steps: it changes
    nothing but the progress, never goes back, every step it passes is finished
    for the region, it returns the first step that is not, and it returns none
    exactly when the operator is then finished. *)
Theorem Check_progress o region now : (op_currentStep o ≤ length (op_steps o))%nat →
  let '(o', r) := Check o region now in
  (op_currentStep o ≤ op_currentStep o' ≤ length (op_steps o))%nat ∧
  (∀ i s, (op_currentStep o ≤ i < op_currentStep o')%nat → op_steps o !! i = Some s → IsFinish s region = true) ∧
  r = op_steps o !! op_currentStep o' ∧ (∀ s, r = Some s → IsFinish s region = false) ∧
  (Operator_IsFinish o' = true ↔ r = None) ∧
  ∃ t, o' = set_currentStep (op_currentStep o') t o.
Proof.
  intros Hle. unfold Check. set (k0 := op_currentStep o) in *.
  pose proof (Check_loop_spec region now (drop k0 (op_steps o)) (take k0 (op_steps o)) o) as H.
  rewrite take_drop, length_take_le in H by lia. specialize (H eq_refl eq_refl).
  destruct (Check_loop _ _ _ _ _) as [o' r]. destruct H as (k & Hk & Hc & Hfin & Hr & Hun & t & ->).
  rewrite length_drop in Hk. rewrite lookup_drop in Hr. cbn [op_currentStep set_currentStep] in *. split_and!; [lia|lia| |done|done| |by exists t].
  - intros i s Hi Hs. rewrite Forall_lookup in Hfin. apply (Hfin (i - k0)%nat).
    rewrite lookup_take_lt by lia. rewrite lookup_drop. by replace (k0 + (i - k0))%nat with i by lia.
  - unfold Operator_IsFinish. cbn. rewrite Nat.leb_le, Hr, lookup_ge_None. done.
Qed.

(** ** Names of kinds *)

(** The name of a non-empty kind, the names of its flags separated by commas,
    is parsed back to the kind; the name of the empty kind is not a kind. *)
Theorem kind_roundtrip k : 0 ≤ k < opMax →
  ParseOperatorKind (Kind_String k) = if k =? 0 then inl (Error "unknown flag name") else inr k.
Proof.
  intros Hk. assert (Hall : forallb (λ k, bool_decide (ParseOperatorKind (Kind_String k) =
    if k =? 0 then inl (Error "unknown flag name") else inr k)) (Z.of_nat <$> seq 0 512) = true) by (vm_compute; reflexivity).
  rewrite forallb_forall in Hall. eapply bool_decide_eq_true_1, Hall. apply list_elem_of_In, list_elem_of_fmap.
  exists (Z.to_nat k). change opMax with 512 in Hk. rewrite elem_of_seq. lia.
Qed.

(** ** Influence adds up *)

Definition total (f : StoreInfluence → Z) (m : OpInfluence) : Z := map_fold (λ _ s acc, f s + acc) 0 m.

Definition field_bound (B : Z) (s : StoreInfluence) : Prop :=
  - B ≤ RegionSize s ≤ B ∧ - B ≤ RegionCount s ≤ B ∧ - B ≤ LeaderSize s ≤ B ∧ - B ≤ LeaderCount s ≤ B ∧ - B ≤ StepCost s ≤ B.

Definition influence_bound (B : Z) (m : OpInfluence) : Prop := map_Forall (λ _, field_bound B) m.

Lemma total_insert f m id s : total f (<[id := s]> m) = total f m - from_option f 0 (m !! id) + f s.
Proof.
  assert (Hnew : ∀ m : OpInfluence, m !! id = None → total f (<[id := s]> m) = total f m + f s).
  { intros m' Hm. unfold total. rewrite map_fold_insert_L; [lia|intros; lia|done]. }
  destruct (m !! id) as [s0|] eqn:E; cbn; [|rewrite Hnew by done; lia].
  rewrite <-insert_delete_eq, Hnew by apply lookup_delete_eq.
  unfold total. rewrite (map_fold_delete_L _ _ id s0 m); [lia|intros; lia|done].
Qed.

(** The amounts [d] are added exactly while the counters do not overflow. *)
Lemma change_influence_total B D m id d : influence_bound B m → field_bound D d → 0 ≤ B → B + D < 2 ^ 63 →
  influence_bound (B + D) (change_influence m id d) ∧
  Forall (λ f, total f (change_influence m id d) = total f m + f d)
    [RegionSize; RegionCount; LeaderSize; LeaderCount; StepCost].
Proof.
  intros Hm Hd HB Hsum. unfold change_influence.
  assert (Hs : field_bound B (GetStoreInfluence m id)).
  { unfold GetStoreInfluence. destruct (m !! id) as [s0|] eqn:E; [by apply (Hm id)|].
    cbn. unfold field_bound, zero_influence. cbn. lia. }
  assert (Heq : add_influence (GetStoreInfluence m id) d =
    let s := GetStoreInfluence m id in
    mkStoreInfluence (RegionSize s + RegionSize d) (RegionCount s + RegionCount d) (LeaderSize s + LeaderSize d)
      (LeaderCount s + LeaderCount d) (StepCost s + StepCost d)).
  { unfold add_influence, field_bound in *. cbn zeta. rewrite !int64_small by lia. done. }
  split.
  - apply map_Forall_insert_2; [|eapply map_Forall_impl; [exact Hm|]; unfold field_bound in *; intros; lia].
    rewrite Heq. unfold field_bound in *. cbn. lia.
  - assert (Hf : ∀ f, f zero_influence = 0 → f (add_influence (GetStoreInfluence m id) d) = f (GetStoreInfluence m id) + f d →
      total f (<[id := add_influence (GetStoreInfluence m id) d]> m) = total f m + f d).
    { intros f H0 Hadd. rewrite total_insert, Hadd. unfold GetStoreInfluence. destruct (m !! id); cbn; lia. }
    repeat constructor; apply Hf; try done; by rewrite Heq.
Qed.

(** What a step that moves peers or the leader adds, over all stores. *)
Definition step_total (size : Z) (s : OperatorStep) : StoreInfluence :=
  match s with
  | AddPeer _ _ | AddLearner _ _ => mkStoreInfluence size 1 0 0 (step_cost size)
  | AddLightPeer _ _ | AddLightLearner _ _ => mkStoreInfluence size 1 0 0 0
  | RemovePeer _ => mkStoreInfluence (- size) (-1) 0 0 0
  | _ => zero_influence
  end.

Definition moves (s : OperatorStep) : Prop :=
  match s with MergeRegion _ _ _ | SplitRegion _ _ _ => False | _ => True end.

Definition fields : list (StoreInfluence → Z) := [RegionSize; RegionCount; LeaderSize; LeaderCount; StepCost].

Lemma step_cost_range size : 0 ≤ step_cost size ≤ RegionInfluence.
Proof. unfold step_cost, RegionInfluence, smallRegionInfluence. repeat case_match; lia. Qed.

Lemma Influence_total B m region s : let size := GetApproximateSize region in
  influence_bound B m → 0 ≤ B → 0 ≤ size → B + 2 * (size + RegionInfluence) < 2 ^ 63 → moves s →
  influence_bound (B + 2 * (size + RegionInfluence)) (Influence s m region) ∧
  Forall (λ f, total f (Influence s m region) = total f m + f (step_total size s)) fields.
Proof.
  intros size Hm HB Hsz Hsum Hs. pose proof (step_cost_range size) as Hcost. assert (HR : RegionInfluence = 1000) by done.
  assert (Hweak : ∀ B' m', B' ≤ B + 2 * (size + RegionInfluence) → influence_bound B' m' →
    influence_bound (B + 2 * (size + RegionInfluence)) m').
  { intros B' m' HB' Hm'. eapply map_Forall_impl; [exact Hm'|]. unfold field_bound. intros; lia. }
  assert (Hone : ∀ id d, field_bound (size + RegionInfluence) d →
    influence_bound (B + 2 * (size + RegionInfluence)) (change_influence m id d) ∧
    Forall (λ f, total f (change_influence m id d) = total f m + f d) fields).
  { intros id d Hd. destruct (change_influence_total B (size + RegionInfluence) m id d) as [? ?]; try done; [lia|].
    split; [|done]. eapply Hweak; [|done]. lia. }
  destruct s; cbn [Influence step_total]; try done.
  - unfold TransferLeader_Influence. fold size.
    destruct (change_influence_total B (size + RegionInfluence) m FromStore (mkStoreInfluence 0 0 (- size) (-1) 0)) as [Hb1 Hf1];
      [done|unfold field_bound; cbn; lia|done|lia|].
    destruct (change_influence_total (B + (size + RegionInfluence)) (size + RegionInfluence) _ ToStore (mkStoreInfluence 0 0 size 1 0) Hb1)
      as [Hb2 Hf2]; [unfold field_bound; cbn; lia|lia|lia|].
    split; [eapply Hweak; [|exact Hb2]; lia|].
    rewrite !Forall_cons, Forall_nil in Hf1, Hf2. cbn in Hf1, Hf2. unfold fields. rewrite !Forall_cons, Forall_nil. cbn. lia.
  - apply Hone. unfold field_bound. fold size. cbn. lia.
  - apply Hone. unfold field_bound. fold size. cbn. lia.
  - split; [eapply Hweak; [|exact Hm]; lia|]. unfold fields. rewrite !Forall_cons, Forall_nil. cbn. lia.
  - apply Hone. unfold field_bound. fold size. cbn. lia.
  - apply Hone. unfold field_bound. fold size. cbn. lia.
  - apply Hone. unfold field_bound. fold size. cbn. lia.
Qed.

(** The influence of an operator that moves peers and leaders adds up: over
    all stores it gains as many regions (and their size) as its steps add minus
    those they remove, no leader, and the step cost of the peers added that are
    not light, while the [int64] counters cannot overflow. *)
Theorem influence_balanced o region : let size := GetApproximateSize region in
  Forall moves (op_steps o) → 0 ≤ size → Z.of_nat (length (op_steps o)) * (2 * (size + RegionInfluence)) < 2 ^ 63 →
  Forall (λ f, total f (TotalInfluence o ∅ region) = foldr (λ s acc, f (step_total size s) + acc) 0 (op_steps o)) fields.
Proof.
  intros size Hs Hsz Hb. unfold TotalInfluence. assert (HR : RegionInfluence = 1000) by done.
  assert (H : ∀ B m, influence_bound B m → 0 ≤ B → B + Z.of_nat (length (op_steps o)) * (2 * (size + RegionInfluence)) < 2 ^ 63 →
    Forall (λ f, total f (foldl (λ m s, Influence s m region) m (op_steps o)) =
      total f m + foldr (λ s acc, f (step_total size s) + acc) 0 (op_steps o)) fields).
  { clear Hb. induction Hs as [|s l Hs Hl IH]; intros B m Hm HB Hbd; cbn [foldl foldr].
    - apply Forall_true. intros f. lia.
    - cbn [length] in Hbd.
      destruct (Influence_total B m region s) as [Hb1 Hf1]; [done|done|done| |done|]; [fold size; lia|].
      fold size in Hb1, Hf1. specialize (IH _ _ Hb1 ltac:(lia) ltac:(lia)).
      apply Forall_forall. intros f Hf. rewrite Forall_forall in IH, Hf1. rewrite (IH f Hf), (Hf1 f Hf). lia. }
  specialize (H 0 ∅ (map_Forall_empty _) ltac:(lia) Hb). eapply Forall_impl; [exact H|].
  intros f ->. unfold total. rewrite map_fold_empty. lia.
Qed.

(** ** Examples *)

Module OperatorDemo.
(** A cluster that counts peer ids up; store 4 rejects leaders. *)
Definition cluster := Z.

#[export] Instance ops : Cluster cluster := {
  IsRaftLearnerEnabled _ := true;
  CheckLabelProperty _ typ labels := bool_decide (typ = RejectLeader) && bool_decide (labels ≠ []);
  GetStoreLabels _ id := Some (if id =? 4 then [mkStoreLabel (str "reject") (str "leader")] else []);
  AllocPeer s c := (c + 1, inr (mkPeer (c + 1) s false));
}.

Definition region (id : Z) (start stop : bytes) (stores : list Z) (leader : Z) : RegionInfo :=
  let peers := (λ s, mkPeer (10 * id + s) s false) <$> stores in
  NewRegionInfo (mkRegion id start stop (Some (mkRegionEpoch 1 1)) peers) (Some (mkPeer (10 * id + leader) leader false)) [].

Definition source : RegionInfo := region 1 (str "a") (str "b") [1; 2; 3] 1.
Definition target : RegionInfo := region 2 (str "b") (str "c") [2; 4; 5] 4.

Lemma plain : plain_region source.
Proof.
  split.
  - apply (bool_decide_unpack _). exact I.
  - reflexivity.
  - eexists. split; [reflexivity|]. left.
Qed.

(** The first two steps are done, the third is not. *)
Definition moved : RegionInfo :=
  region 1 (str "a") (str "b") [1; 2; 3; 4] 2.
Definition op : Operator := NewOperator "x" 1 None 0 [TransferLeader 1 2; PromoteLearner 4 14; RemovePeer 1] 0.

Lemma Check_progress_witness :
  snd (Check op moved 5) = Some (RemovePeer 1) ∧
  let '(o', r) := Check op moved 5 in
  (op_currentStep op ≤ op_currentStep o' ≤ length (op_steps op))%nat ∧
  (∀ i s, (op_currentStep op ≤ i < op_currentStep o')%nat → op_steps op !! i = Some s → IsFinish s moved = true) ∧
  r = op_steps op !! op_currentStep o' ∧ (∀ s, r = Some s → IsFinish s moved = false) ∧
  (Operator_IsFinish o' = true ↔ r = None) ∧
  ∃ t, o' = set_currentStep (op_currentStep o') t op.
Proof. split; [vm_compute; reflexivity|]. apply (Check_progress op moved 5). cbn. lia. Defined.

(** Three peers replaced in a region of size 96. *)
Definition big : RegionInfo := Region.Clone source [SetApproximateSize 96].
Definition swap : Operator := NewOperator "x" 1 None 0
  [TransferLeader 1 2; AddLearner 4 14; PromoteLearner 4 14; RemovePeer 1; AddLightPeer 5 15] 0.

Lemma influence_balanced_witness :
  total RegionCount (TotalInfluence swap ∅ big) = 1 ∧
  Forall (λ f, total f (TotalInfluence swap ∅ big) = foldr (λ s acc, f (step_total 96 s) + acc) 0 (op_steps swap)) fields.
Proof.
  split; [vm_compute; reflexivity|]. apply (influence_balanced swap big); [|by vm_compute..]. repeat constructor.
Defined.

Lemma kind_roundtrip_witness : ParseOperatorKind (str "leader,merge") = inr (Z.lor OpLeader OpMerge).
Proof. apply (kind_roundtrip (Z.lor OpLeader OpMerge)). by vm_compute. Defined.
End OperatorDemo.
