(* ===== verification/Float.v ===== *)
(** * Float64

    Go's [float64] as IEEE binary64 with rounding to nearest, by the specification
    floats of the standard library, and the conversions from and to integers. *)

From S2P Require Import Prelude.
From Corelib Require Import SpecFloat.

Definition f64 := spec_float.

#[export] Instance f64_eq_dec : EqDecision f64.
Proof. solve_decision. Defined.

Definition f64_add : f64 → f64 → f64 := SFadd 53 1024.
Definition f64_sub : f64 → f64 → f64 := SFsub 53 1024.
Definition f64_mul : f64 → f64 → f64 := SFmul 53 1024.
Definition f64_div : f64 → f64 → f64 := SFdiv 53 1024.
Definition f64_ltb : f64 → f64 → bool := SFltb.
Definition f64_eqb : f64 → f64 → bool := SFeqb.
(** [x >= y] *)
Definition f64_geb (x y : f64) : bool := SFleb y x.
(** [float64(z)] *)
Definition f64_of_Z (z : Z) : f64 := binary_normalize 53 1024 z 0 false.

Lemma SFcompare_antisym (x y : f64) : SFcompare x y = option_map CompOpp (SFcompare y x).
Proof.
  destruct x as [[]|[]| |[] m e], y as [[]|[]| |[] m' e']; try done; cbn.
  all: rewrite (Z.compare_antisym e' e); destruct (e' ?= e); cbn; try done.
  all: pose proof (Pos.compare_antisym m' m) as Hm; unfold Pos.compare in Hm; rewrite Hm.
  all: by destruct (Pos.compare_cont Eq m' m).
Qed.

Lemma SFcompare_None (x y : f64) : SFcompare x y = None → x = S754_nan ∨ y = S754_nan.
Proof. destruct x as [[]|[]| |[] m e], y as [[]|[]| |[] m' e']; cbn; auto; repeat case_match; done. Qed.

(** [int64(x)] truncates; a value out of range, an infinity or a NaN gives the
    smallest integer, as on amd64. *)
Definition int64_of_f64 (x : f64) : Z :=
  match x with
  | S754_zero _ => 0
  | S754_infinity _ | S754_nan => - 2 ^ 63
  | S754_finite s m e =>
      let a := if 0 <=? e then Z.shiftl (Z.pos m) e else Z.shiftr (Z.pos m) (- e) in
      let z := if s then - a else a in
      if bool_decide (- 2 ^ 63 ≤ z < 2 ^ 63) then z else - 2 ^ 63
  end.

(** [x <= y] *)
Definition f64_leb : f64 → f64 → bool := SFleb.

(** [uint64(x)] truncates; for a value out of range it gives what amd64 does,
    the wrapped negative integer or [2^63]. *)
Definition uint64_of_f64 (x : f64) : Z :=
  match x with
  | S754_zero _ => 0
  | S754_infinity _ | S754_nan => 2 ^ 63
  | S754_finite s m e =>
      let a := if 0 <=? e then Z.shiftl (Z.pos m) e else Z.shiftr (Z.pos m) (- e) in
      let z := if s then - a else a in
      if bool_decide (- 2 ^ 63 ≤ z < 2 ^ 64) then uint64 z else 2 ^ 63
  end.

(** [math.Max] *)
Definition f64_Max (x y : f64) : f64 :=
  match x, y with
  | S754_infinity false, _ | _, S754_infinity false => S754_infinity false
  | S754_nan, _ | _, S754_nan => S754_nan
  | S754_zero sx, S754_zero _ => if sx then y else x
  | _, _ => if f64_ltb y x then x else y
  end.
