(* ===== verification/FloatInt.v ===== *)
(** * Integers in float64

    Sums and comparisons of non-negative integers below [2^53] are exact. *)

From S2P Require Import Prelude Float.
From Corelib Require Import SpecFloat.
From Stdlib Require Import Zpower.

Abbreviation digits p := (Z.pos (digits2_pos p)).

Lemma digits_bounds p : 2 ^ (digits p - 1) ≤ Z.pos p < 2 ^ digits p.
Proof.
  induction p as [p IH|p IH|]; cbn [digits2_pos]; [| |done].
  all: rewrite Pos2Z.inj_succ; replace (Z.succ (digits p) - 1) with (Z.succ (digits p - 1)) by lia.
  all: rewrite !Z.pow_succ_r by lia; lia.
Qed.

Lemma digits_unique p n : 0 < n → 2 ^ (n - 1) ≤ Z.pos p < 2 ^ n → digits p = n.
Proof.
  intros Hn Hp. pose proof (digits_bounds p) as Hd.
  destruct (Z.lt_trichotomy (digits p) n) as [H|[H|H]]; [|done|].
  - assert (2 ^ digits p ≤ 2 ^ (n - 1)) by (apply Z.pow_le_mono_r; lia). lia.
  - assert (2 ^ n ≤ 2 ^ (digits p - 1)) by (apply Z.pow_le_mono_r; lia). lia.
Qed.

Lemma digits_scale p q k : 0 ≤ k → Z.pos q = Z.pos p * 2 ^ k → digits q = digits p + k.
Proof.
  intros Hk Hq. pose proof (digits_bounds p) as [Hlo Hhi]. apply digits_unique; [lia|]. rewrite Hq.
  replace (digits p + k - 1) with ((digits p - 1) + k) by lia. rewrite !Z.pow_add_r by lia.
  assert (0 < 2 ^ k) by (apply Z.pow_pos_nonneg; lia). nia.
Qed.

(** ** Shifting out zeros *)

Lemma iter_pos_nat {A} (f : A → A) p x : iter_pos f p x = Nat.iter (Pos.to_nat p) f x.
Proof.
  revert x. induction p as [p IH|p IH|]; intros x; cbn [iter_pos]; [| |done].
  - rewrite !IH, <-Nat.iter_add, Pos2Nat.inj_xI, <-Nat.iter_succ_r. f_equal. lia.
  - rewrite !IH, <-Nat.iter_add, Pos2Nat.inj_xO. f_equal. lia.
Qed.

Lemma shr_1_even p : shr_1 {| shr_m := Z.pos p * 2; shr_r := false; shr_s := false |}
  = {| shr_m := Z.pos p; shr_r := false; shr_s := false |}.
Proof. by rewrite Z.mul_comm. Qed.

Lemma iter_shr_exact n p : Nat.iter n shr_1 {| shr_m := Z.pos p * 2 ^ Z.of_nat n; shr_r := false; shr_s := false |}
  = {| shr_m := Z.pos p; shr_r := false; shr_s := false |}.
Proof.
  induction n as [|n IH]; [cbn; by rewrite Z.mul_1_r|]. rewrite Nat.iter_succ_r, <-IH. f_equal.
  rewrite Nat2Z.inj_succ, Z.pow_succ_r by lia.
  destruct (Z.pos p * 2 ^ Z.of_nat n) as [|q|q] eqn:E; [| |].
  1,3: assert (0 < 2 ^ Z.of_nat n) by (apply Z.pow_pos_nonneg; lia); nia.
  replace (Z.pos p * (2 * 2 ^ Z.of_nat n)) with (Z.pos q * 2) by lia. apply shr_1_even.
Qed.

(** ** The representation of an integer *)

Definition canon (V : positive) : f64 :=
  S754_finite false (Z.to_pos (Z.pos V * 2 ^ (53 - digits V))) (digits V - 53).

Lemma digits_le V : Z.pos V < 2 ^ 53 → digits V ≤ 53.
Proof.
  intros HV. pose proof (digits_bounds V) as [Hlo _]. destruct (Z.le_gt_cases (digits V) 53) as [|H]; [done|].
  assert (2 ^ 53 ≤ 2 ^ (digits V - 1)) by (apply Z.pow_le_mono_r; lia). lia.
Qed.

Lemma canon_mantissa V : Z.pos V < 2 ^ 53 → Z.pos (Z.to_pos (Z.pos V * 2 ^ (53 - digits V))) = Z.pos V * 2 ^ (53 - digits V).
Proof.
  intros HV%digits_le. apply Z2Pos.id. assert (0 < 2 ^ (53 - digits V)) by (apply Z.pow_pos_nonneg; lia). lia.
Qed.

Lemma fexp_digits V : Z.pos V < 2 ^ 53 → fexp 53 1024 (digits V) = digits V - 53.
Proof. intros _. unfold fexp, emin. lia. Qed.

(** A shift by whole zeros. *)
Lemma shr_fexp_exact V m e : Z.pos V < 2 ^ 53 → e ≤ digits V - 53 → Z.pos m = Z.pos V * 2 ^ (- e) →
  shr_fexp 53 1024 (Z.pos m) e loc_Exact =
    ({| shr_m := Z.pos V * 2 ^ (53 - digits V); shr_r := false; shr_s := false |}, digits V - 53).
Proof.
  intros HV He Hm. pose proof (digits_le V HV) as Hd. unfold shr_fexp. cbn [Zdigits2 shr_record_of_loc].
  rewrite (digits_scale V m (- e)) by (done || lia). replace (digits V + - e + e) with (digits V) by lia.
  rewrite fexp_digits by done. rewrite <-(canon_mantissa V HV). set (q := Z.to_pos _).
  assert (Z.pos m = Z.pos q * 2 ^ (digits V - 53 - e)) as Hq.
  { unfold q. rewrite (canon_mantissa V HV), Hm, <-Z.mul_assoc, <-Z.pow_add_r by lia. f_equal. f_equal. lia. }
  destruct (digits V - 53 - e) as [|k|k] eqn:Ek; [| |lia].
  - cbn. rewrite Hq. f_equal; [|lia]. f_equal. by rewrite Z.mul_1_r.
  - unfold shr. rewrite iter_pos_nat, Hq, <-(positive_nat_Z k). rewrite iter_shr_exact. f_equal. lia.
Qed.

Lemma round_aux_exact V m e : Z.pos V < 2 ^ 53 → e ≤ digits V - 53 → Z.pos m = Z.pos V * 2 ^ (- e) →
  binary_round_aux 53 1024 false (Z.pos m) e loc_Exact = canon V.
Proof.
  intros HV He Hm. pose proof (digits_le V HV) as Hd. unfold binary_round_aux. rewrite (shr_fexp_exact V m e) by done.
  cbn [shr_m loc_of_shr_record round_nearest_even]. rewrite <-(canon_mantissa V HV).
  rewrite (shr_fexp_exact V _ (digits V - 53)); [|done|lia|rewrite (canon_mantissa V HV); f_equal; f_equal; lia].
  cbn [shr_m]. rewrite <-(canon_mantissa V HV). unfold canon.
  destruct (Z.leb_spec (digits V - 53) (1024 - 53)); [done|lia].
Qed.

Lemma round_exact V m e : Z.pos V < 2 ^ 53 → e ≤ 0 → Z.pos m = Z.pos V * 2 ^ (- e) →
  binary_round 53 1024 false m e = canon V.
Proof.
  intros HV He Hm. pose proof (digits_le V HV) as Hd. unfold binary_round, shl_align.
  rewrite (digits_scale V m (- e)) by (done || lia). replace (digits V + - e + e) with (digits V) by lia.
  rewrite fexp_digits by done. destruct (digits V - 53 - e) as [|k|k] eqn:Ek; [apply round_aux_exact; (done || lia)..|].
  apply round_aux_exact; [done|lia|]. change (Pos.iter xO m k) with (shift_pos k m).
  rewrite shift_pos_correct, Hm, Z.mul_comm, <-Z.mul_assoc. change (Z.pow_pos 2 k) with (2 ^ Z.pos k).
  rewrite <-Z.pow_add_r by lia. f_equal. f_equal. lia.
Qed.

Lemma of_Z_canon V : Z.pos V < 2 ^ 53 → f64_of_Z (Z.pos V) = canon V.
Proof. intros HV. unfold f64_of_Z, binary_normalize. apply round_exact; [done|lia|]. by rewrite Z.mul_1_r. Qed.

Lemma align_exact V e : Z.pos V < 2 ^ 53 → e ≤ digits V - 53 →
  Z.pos (fst (shl_align (Z.to_pos (Z.pos V * 2 ^ (53 - digits V))) (digits V - 53) e)) = Z.pos V * 2 ^ (- e).
Proof.
  intros HV He. pose proof (digits_le V HV) as Hd. unfold shl_align. destruct (e - (digits V - 53)) as [|k|k] eqn:Ek; [|lia|].
  - cbn [fst]. rewrite canon_mantissa by done. f_equal. f_equal. lia.
  - cbn [fst]. change (Pos.iter xO ?x k) with (shift_pos k x). rewrite shift_pos_correct, canon_mantissa by done.
    change (Z.pow_pos 2 k) with (2 ^ Z.pos k). rewrite Z.mul_comm, <-Z.mul_assoc, <-Z.pow_add_r by lia. f_equal. f_equal. lia.
Qed.

Lemma canon_add A B : Z.pos A + Z.pos B < 2 ^ 53 → f64_add (canon A) (canon B) = canon (A + B).
Proof.
  intros H. assert (Z.pos A < 2 ^ 53) as HA by lia. assert (Z.pos B < 2 ^ 53) as HB by lia.
  transitivity (binary_normalize 53 1024
    (Z.pos (fst (shl_align (Z.to_pos (Z.pos A * 2 ^ (53 - digits A))) (digits A - 53) (Z.min (digits A - 53) (digits B - 53)))) +
     Z.pos (fst (shl_align (Z.to_pos (Z.pos B * 2 ^ (53 - digits B))) (digits B - 53) (Z.min (digits A - 53) (digits B - 53)))))
    (Z.min (digits A - 53) (digits B - 53)) false); [done|]. set (ez := Z.min (digits A - 53) (digits B - 53)).
  rewrite !align_exact by (done || lia). rewrite <-Z.mul_add_distr_r.
  pose proof (digits_le A HA). pose proof (digits_le B HB).
  destruct ((Z.pos A + Z.pos B) * 2 ^ (- ez)) as [|m|m] eqn:Em.
  1,3: assert (0 < 2 ^ (- ez)) by (apply Z.pow_pos_nonneg; lia); nia.
  cbn [binary_normalize]. apply round_exact; [by rewrite Pos2Z.inj_add|lia|]. by rewrite Pos2Z.inj_add.
Qed.

Lemma canon_compare A B : Z.pos A < 2 ^ 53 → Z.pos B < 2 ^ 53 → SFcompare (canon A) (canon B) = Some (Z.pos A ?= Z.pos B).
Proof.
  intros HA HB. unfold SFcompare, canon. pose proof (digits_bounds A) as [HA1 HA2]. pose proof (digits_bounds B) as [HB1 HB2].
  destruct (Z.compare_spec (digits A - 53) (digits B - 53)) as [E|E|E].
  - assert (digits A = digits B) as Ed by lia. pose proof (digits_le A HA).
    assert (0 < 2 ^ (53 - digits A)) by (apply Z.pow_pos_nonneg; lia).
    f_equal. change (Pos.compare_cont Eq ?x ?y) with (Z.pos x ?= Z.pos y). rewrite !canon_mantissa by done. rewrite <-Ed.
    destruct (Z.compare_spec (Z.pos A) (Z.pos B)) as [E'|E'|E'];
      [by rewrite E', Z.compare_refl|apply Z.compare_lt_iff; nia|apply Z.compare_gt_iff; nia].
  - assert (2 ^ digits A ≤ 2 ^ (digits B - 1)) by (apply Z.pow_le_mono_r; lia). f_equal. symmetry. apply Z.compare_lt_iff. lia.
  - assert (2 ^ digits B ≤ 2 ^ (digits A - 1)) by (apply Z.pow_le_mono_r; lia). f_equal. symmetry. apply Z.compare_gt_iff. lia.
Qed.

(** ** On [Z] *)

Lemma f64_add_int a b : 0 ≤ a → 0 ≤ b → a + b < 2 ^ 53 → f64_add (f64_of_Z a) (f64_of_Z b) = f64_of_Z (a + b).
Proof.
  intros Ha Hb Hs. destruct a as [|A|A]; [| |lia].
  - destruct b as [|B|B]; [done| |lia]. rewrite Z.add_0_l, of_Z_canon by lia. reflexivity.
  - destruct b as [|B|B]; [|rewrite !of_Z_canon by lia|lia].
    + rewrite Z.add_0_r. rewrite of_Z_canon by lia. reflexivity.
    + rewrite canon_add by lia. rewrite <-Pos2Z.inj_add. by rewrite of_Z_canon.
Qed.

Lemma f64_compare_int a b : 0 ≤ a < 2 ^ 53 → 0 ≤ b < 2 ^ 53 → SFcompare (f64_of_Z a) (f64_of_Z b) = Some (a ?= b).
Proof.
  intros Ha Hb. destruct a as [|A|A]; [| |lia]; (destruct b as [|B|B]; [| |lia]); rewrite ?of_Z_canon by lia;
    first [apply canon_compare; lia|reflexivity].
Qed.

Lemma f64_ltb_int a b : 0 ≤ a < 2 ^ 53 → 0 ≤ b < 2 ^ 53 → f64_ltb (f64_of_Z a) (f64_of_Z b) = (a <? b).
Proof. intros Ha Hb. unfold f64_ltb, SFltb. rewrite f64_compare_int by done. unfold Z.ltb. by destruct (a ?= b). Qed.

(** ** Negative integers, and division by one *)

Lemma of_Z_opp V : f64_of_Z (Z.neg V) = SFopp (f64_of_Z (Z.pos V)).
Proof.
  unfold f64_of_Z, binary_normalize, binary_round. destruct (shl_align _ _ _) as [m e].
  unfold binary_round_aux. destruct (shr_fexp _ _ (Z.pos m) _ _) as [r e1]. destruct (shr_fexp _ _ _ _ _) as [r2 e2].
  destruct (shr_m r2); [done| |done]. by destruct (e2 <=? _).
Qed.

Lemma SFcompare_opp x y : SFcompare (SFopp x) (SFopp y) = option_map CompOpp (SFcompare x y).
Proof.
  destruct x as [[]|[]| |[] m e], y as [[]|[]| |[] m' e']; try done; cbn.
  all: destruct (e ?= e'); cbn; try done; destruct (Pos.compare_cont Eq m m'); done.
Qed.

Lemma f64_compare_signed a b : - 2 ^ 53 < a < 2 ^ 53 → - 2 ^ 53 < b < 2 ^ 53 → SFcompare (f64_of_Z a) (f64_of_Z b) = Some (a ?= b).
Proof.
  intros Ha Hb. destruct (Z.le_gt_cases 0 a), (Z.le_gt_cases 0 b); [apply f64_compare_int; lia|..].
  - destruct b as [|B|B]; [lia..|]. rewrite of_Z_opp, of_Z_canon by lia. destruct a as [|A|A]; [done| |lia]. by rewrite of_Z_canon by lia.
  - destruct a as [|A|A]; [lia..|]. rewrite of_Z_opp, of_Z_canon by lia. destruct b as [|B|B]; [done| |lia]. by rewrite of_Z_canon by lia.
  - destruct a as [|A|A]; [lia..|]. destruct b as [|B|B]; [lia..|]. rewrite !of_Z_opp, SFcompare_opp, f64_compare_int by lia.
    done.
Qed.

Lemma f64_ltb_signed a b : - 2 ^ 53 < a < 2 ^ 53 → - 2 ^ 53 < b < 2 ^ 53 → f64_ltb (f64_of_Z a) (f64_of_Z b) = (a <? b).
Proof. intros Ha Hb. unfold f64_ltb, SFltb. rewrite f64_compare_signed by done. unfold Z.ltb. by destruct (a ?= b). Qed.

Lemma f64_leb_int a b : 0 ≤ a < 2 ^ 53 → 0 ≤ b < 2 ^ 53 → f64_leb (f64_of_Z a) (f64_of_Z b) = (a <=? b).
Proof. intros Ha Hb. unfold f64_leb, SFleb. rewrite f64_compare_int by done. unfold Z.leb. by destruct (a ?= b). Qed.

Lemma canon_div_one V : Z.pos V < 2 ^ 53 → f64_div (canon V) (f64_of_Z 1) = canon V.
Proof.
  intros HV. pose proof (digits_le V HV) as Hd. pose proof (canon_mantissa V HV) as Hm.
  change (f64_of_Z 1) with (S754_finite false (Z.to_pos (2 ^ 52)) (-52)). unfold f64_div, SFdiv, canon.
  set (m := Z.to_pos (Z.pos V * 2 ^ (53 - digits V))) in *. unfold SFdiv_core_binary. cbn [xorb].
  change (Zdigits2 (Z.pos m)) with (digits m). change (Zdigits2 (Z.pos (Z.to_pos (2 ^ 52)))) with 53.
  rewrite (digits_scale V m (53 - digits V)) by (done || lia).
  replace (digits V + (53 - digits V) + (digits V - 53) - (53 + -52)) with (digits V - 1) by lia.
  assert (Hf : fexp 53 1024 (digits V - 1) = digits V - 54).
  { unfold fexp, emin. pose proof (digits_bounds V). assert (0 < digits V); [|lia]. destruct (Z.lt_trichotomy (digits V) 0) as [|[|]]; [| |done].
    - assert (2 ^ digits V = 0) by by apply Z.pow_neg_r. lia.
    - rewrite H0 in H. cbn in H. lia. }
  rewrite Hf. replace (Z.min (digits V - 54) (digits V - 53 - -52)) with (digits V - 54) by lia.
  replace (digits V - 53 - -52 - (digits V - 54)) with 53 by lia.
  assert (Hq : Z.div_eucl (Z.shiftl (Z.pos m) 53) (Z.pos (Z.to_pos (2 ^ 52))) = (Z.pos m * 2, 0)).
  { change (Z.pos (Z.to_pos (2 ^ 52))) with (2 ^ 52). rewrite Z.shiftl_mul_pow2 by lia.
    pose proof (Z_div_mod (Z.pos m * 2 ^ 53) (2 ^ 52) ltac:(lia)) as Hdm. destruct (Z.div_eucl _ _) as [q r]. f_equal; lia. }
  cbv beta iota. rewrite Hq. cbn beta iota.
  change (new_location (Z.pos (Z.to_pos (2 ^ 52))) 0) with loc_Exact. change (Z.pos m * 2) with (Z.pos (m * 2)).
  change (S754_finite false m (digits V - 53)) with (canon V). apply round_aux_exact; [done|lia|].
  rewrite Pos2Z.inj_mul, Hm, <-Z.mul_assoc. change (Z.pos 2) with (2 ^ 1). rewrite <-Z.pow_add_r by lia. f_equal. f_equal. lia.
Qed.

Lemma div_one_opp x : f64_div (SFopp x) (f64_of_Z 1) = SFopp (f64_div x (f64_of_Z 1)).
Proof.
  destruct x as [sx|sx| |sx m e]; [by destruct sx..|done|]. change (f64_of_Z 1) with (S754_finite false (Z.to_pos (2 ^ 52)) (-52)).
  unfold f64_div, SFdiv, SFopp. destruct (SFdiv_core_binary _ _ _ _ _ _) as [[q e'] l]. rewrite !xorb_false_r.
  unfold binary_round_aux. destruct (shr_fexp _ _ q _ _) as [r e1]. destruct (shr_fexp _ _ _ _ _) as [r2 e2].
  destruct (shr_m r2); [done| |done]. by destruct (e2 <=? _).
Qed.

Lemma f64_div_one a : - 2 ^ 53 < a < 2 ^ 53 → f64_div (f64_of_Z a) (f64_of_Z 1) = f64_of_Z a.
Proof.
  intros Ha. destruct a as [|A|A]; [done| |].
  - rewrite of_Z_canon by lia. apply canon_div_one. lia.
  - rewrite of_Z_opp, div_one_opp, of_Z_canon by lia. by rewrite canon_div_one by lia.
Qed.
