(* ===== verification/WaitingOperator.v ===== *)
(** * Waiting operators

    server/schedule/waiting_operator.go: operators wait in one queue per priority
    and are picked at random, the queues weighted 1, 4 and 9, with the arithmetic
    of [float64].  A merge is a pair of operators that wait and are picked together. *)

From S2P Require Import Prelude GoBytes Metapb Region Strconv KV Operator Float.
From Corelib Require Import SpecFloat.

(** ** Operations *)

Definition PriorityWeight : list f64 := [f64_of_Z 1; f64_of_Z 4; f64_of_Z 9].

Record Bucket (A : Type) := mkBucket { weight : f64; b_ops : list A }.
Record RandBuckets (A : Type) := mkRandBuckets { totalWeight : f64; buckets : list (Bucket A) }.
Arguments mkBucket {A} _ _.
Arguments weight {A} _.
Arguments b_ops {A} _.
Arguments mkRandBuckets {A} _ _.
Arguments totalWeight {A} _.
Arguments buckets {A} _.

Section buckets.
(** The operators are pointers; [level] and [kind] read the operator. *)
Context {A : Type} (level kind : A → Z).

Definition NewRandBuckets : RandBuckets A :=
  mkRandBuckets (f64_of_Z 0) ((λ w, mkBucket w []) <$> PriorityWeight).

Definition PutOperator (op : A) (b : RandBuckets A) : result (RandBuckets A) :=
  let priority := level op in
  match (if 0 <=? priority then buckets b !! Z.to_nat priority else None) with
  | None => inl (Panic "index out of range")
  | Some bucket =>
      let total := if (length (b_ops bucket) =? 0)%nat then f64_add (totalWeight b) (weight bucket) else totalWeight b in
      inr (mkRandBuckets total
        (<[Z.to_nat priority := mkBucket (weight bucket) (b_ops bucket ++ [op])]> (buckets b)))
  end.

Definition ListOperator (b : RandBuckets A) : list A := mjoin (b_ops <$> buckets b).

(** The operators taken from the front of a queue: one, or the two of a merge. *)
Definition take_ops (ops : list A) : result (list A * list A) :=
  match ops with
  | [] => inl (Panic "index out of range")
  | op :: ops' =>
      if negb (Z.land (kind op) OpMerge =? 0) then
        match ops' with
        | [] => inl (Panic "index out of range")
        | op' :: ops'' => inr ([op; op'], ops'')
        end
      else inr ([op], ops')
  end.

(** The loop over the buckets; [past] are those before the current one. *)
Fixpoint GetOperator_loop (total r sum : f64) (past rest : list (Bucket A)) (b : RandBuckets A)
    : result (RandBuckets A * option (list A)) :=
  match rest with
  | [] => inr (b, None)
  | bucket :: rest' =>
      if (length (b_ops bucket) =? 0)%nat then GetOperator_loop total r sum (past ++ [bucket]) rest' b
      else
        let proportion := f64_div (weight bucket) total in
        if f64_geb r sum && f64_ltb r (f64_add sum proportion) then
          match take_ops (b_ops bucket) with
          | inl err => inl err
          | inr (res, ops') =>
              let total' := if (length ops' =? 0)%nat then f64_sub total (weight bucket) else total in
              inr (mkRandBuckets total' (past ++ mkBucket (weight bucket) ops' :: rest'), Some res)
          end
        else GetOperator_loop total r (f64_add sum proportion) (past ++ [bucket]) rest' b
  end.

(** [r] is [rand.Float64()]. *)
Definition GetOperator (r : f64) (b : RandBuckets A) : result (RandBuckets A * option (list A)) :=
  if f64_eqb (totalWeight b) (f64_of_Z 0) then inr (b, None)
  else GetOperator_loop (totalWeight b) r (f64_of_Z 0) [] (buckets b) b.

(** ** Specification

    A queue of groups per priority.  A group is an operator that is no merge, or
    the two operators of a merge. *)

Definition group (g : list A) : Prop :=
  match g with
  | [op] => Z.land (kind op) OpMerge = 0
  | [op; op'] => Z.land (kind op) OpMerge ≠ 0
  | _ => False
  end.

(** The weight of the non-empty ones of the three queues. *)
Definition weight_of (e1 e2 e3 : bool) : Z := (if e1 then 0 else 1) + (if e2 then 0 else 4) + (if e3 then 0 else 9).

Definition is_nil {B} (l : list B) : bool := match l with [] => true | _ => false end.

Definition refines (b : RandBuckets A) (q1 q2 q3 : list (list A)) : Prop :=
  b = mkRandBuckets (f64_of_Z (weight_of (is_nil q1) (is_nil q2) (is_nil q3)))
        [mkBucket (f64_of_Z 1) (mjoin q1); mkBucket (f64_of_Z 4) (mjoin q2); mkBucket (f64_of_Z 9) (mjoin q3)] ∧
  Forall group q1 ∧ Forall group q2 ∧ Forall group q3.

(** A number of [0, 1). *)
Definition unit_float (r : f64) : Prop := f64_geb r (f64_of_Z 0) = true ∧ f64_ltb r (f64_of_Z 1) = true.

Lemma group_nonempty g : group g → ∃ op g', g = op :: g'.
Proof. destruct g as [|? ?]; [done|eauto]. Qed.

Lemma mjoin_length (q : list (list A)) : Forall group q → (length (mjoin q) =? 0)%nat = is_nil q.
Proof.
  intros [|g q' Hg Hq]; [done|]. destruct (group_nonempty g Hg) as (op & g' & ->). done.
Qed.

Lemma take_group g q : group g → take_ops (g ++ q) = inr (g, q).
Proof.
  unfold group, take_ops. destruct g as [|op [|op' [|]]]; try done; cbn; intros Hk.
  - by rewrite Hk.
  - by apply Z.eqb_neq in Hk as ->.
Qed.

(** The comparisons of the loop partition [0, 1): where the previous test failed
    the next bound holds. *)
Lemma geb_of_not_ltb r x : unit_float r → f64_eqb x x = true → f64_ltb r x = false → f64_geb r x = true.
Proof.
  unfold unit_float, f64_geb, f64_ltb, f64_eqb, SFltb, SFleb, SFeqb. intros [_ Hr1] Hx Hlt.
  rewrite (SFcompare_antisym x r). destruct (SFcompare r x) as [[]|] eqn:E; try done.
  apply SFcompare_None in E as [-> | ->]; done.
Qed.

(** *** Putting *)

Fixpoint put_group (g : list A) (b : RandBuckets A) : result (RandBuckets A) :=
  match g with
  | [] => inr b
  | op :: g' =>
      match PutOperator op b with
      | inl err => inl err
      | inr b' => put_group g' b'
      end
  end.

(** The state with some operators [rest] of a group already in a queue. *)
Definition put_state (q1 q2 q3 : list (list A)) (r1 r2 r3 : list A) : RandBuckets A :=
  mkRandBuckets (f64_of_Z (weight_of (is_nil q1 && is_nil r1) (is_nil q2 && is_nil r2) (is_nil q3 && is_nil r3)))
    [mkBucket (f64_of_Z 1) (mjoin q1 ++ r1); mkBucket (f64_of_Z 4) (mjoin q2 ++ r2); mkBucket (f64_of_Z 9) (mjoin q3 ++ r3)].

Lemma app_length_nil q (r : list A) : Forall group q → (length (mjoin q ++ r) =? 0)%nat = is_nil q && is_nil r.
Proof.
  intros Hq. rewrite length_app. pose proof (mjoin_length q Hq) as Hl. destruct (is_nil q); cbn [andb].
  - apply Nat.eqb_eq in Hl as ->. by destruct r.
  - apply Nat.eqb_neq in Hl. apply Nat.eqb_neq. lia.
Qed.

Lemma is_nil_snoc {B} (l : list B) x : is_nil (l ++ [x]) = false.
Proof. by destruct l. Qed.

Lemma put_one q1 q2 q3 r1 r2 r3 op : Forall group q1 → Forall group q2 → Forall group q3 → 0 ≤ level op < 3 →
  PutOperator op (put_state q1 q2 q3 r1 r2 r3) = inr
    (if level op =? 0 then put_state q1 q2 q3 (r1 ++ [op]) r2 r3
     else if level op =? 1 then put_state q1 q2 q3 r1 (r2 ++ [op]) r3
     else put_state q1 q2 q3 r1 r2 (r3 ++ [op])).
Proof.
  intros H1 H2 H3 Hl. unfold PutOperator, put_state.
  assert (level op = 0 ∨ level op = 1 ∨ level op = 2) as [E | [E | E]] by lia; rewrite E;
    change (Z.to_nat 0) with 0%nat; change (Z.to_nat 1) with 1%nat; change (Z.to_nat 2) with 2%nat;
    cbn -[f64_of_Z f64_add Nat.eqb length mjoin]; rewrite app_length_nil by done;
    rewrite is_nil_snoc, andb_false_r, <-app_assoc; do 2 f_equal;
    by destruct (is_nil q1 && is_nil r1), (is_nil q2 && is_nil r2), (is_nil q3 && is_nil r3).
Qed.

(** A group of one priority is appended to its queue. *)
Lemma put_group_refines b q1 q2 q3 g l : refines b q1 q2 q3 → group g → Forall (λ op, level op = l) g → 0 ≤ l < 3 →
  ∃ b', put_group g b = inr b' ∧
    refines b' (if l =? 0 then q1 ++ [g] else q1) (if l =? 1 then q2 ++ [g] else q2) (if l =? 2 then q3 ++ [g] else q3).
Proof.
  intros (-> & H1 & H2 & H3) Hg Hlev Hl.
  assert (Hstart : mkRandBuckets (f64_of_Z (weight_of (is_nil q1) (is_nil q2) (is_nil q3)))
    [mkBucket (f64_of_Z 1) (mjoin q1); mkBucket (f64_of_Z 4) (mjoin q2); mkBucket (f64_of_Z 9) (mjoin q3)] =
    put_state q1 q2 q3 [] [] []) by (unfold put_state; by rewrite !andb_true_r, !app_nil_r).
  rewrite Hstart.
  set (r k := if l =? k then g else []).
  assert (Hput : put_group g (put_state q1 q2 q3 [] [] []) = inr (put_state q1 q2 q3 (r 0) (r 1) (r 2))).
  { destruct (group_nonempty g Hg) as (op & g' & Heq). unfold r. clear r.
    destruct g as [|op1 [|op2 [|]]]; try done; cbn [put_group].
    - rewrite Forall_singleton in Hlev. rewrite put_one by (done || lia). rewrite Hlev.
      assert (l = 0 ∨ l = 1 ∨ l = 2) as [-> | [-> | ->]] by lia; done.
    - rewrite Forall_cons, Forall_singleton in Hlev. destruct Hlev as [Hl1 Hl2]. rewrite put_one by (done || lia). rewrite Hl1.
      assert (l = 0 ∨ l = 1 ∨ l = 2) as [-> | [-> | ->]] by lia; cbn [Z.eqb Pos.eqb];
        rewrite put_one by (done || lia); by rewrite Hl2. }
  rewrite Hput. eexists. split; [done|]. unfold refines, put_state, r.
  assert (Hnil : is_nil g = false) by (by destruct (group_nonempty g Hg) as (? & ? & ->)).
  assert (Hq : ∀ q : list (list A), mjoin (q ++ [g]) = mjoin q ++ g) by (intros q; rewrite join_app; cbn; by rewrite app_nil_r).
  assert (l = 0 ∨ l = 1 ∨ l = 2) as [-> | [-> | ->]] by lia; cbn [Z.eqb Pos.eqb];
    rewrite Hnil, is_nil_snoc, ?andb_false_r, ?andb_true_r, ?app_nil_r, Hq;
    (split; [done|]); rewrite ?Forall_app, ?Forall_singleton; done.
Qed.

(** *** Getting *)

(** A non-empty queue in the loop: its first group is taken, or the test of the
    next bucket starts where the one of this bucket ends. *)
Lemma loop_nonempty total r sum past w g q rest b : Forall group (g :: q) → unit_float r → f64_geb r sum = true →
  let next := f64_add sum (f64_div w total) in f64_eqb next next = true →
  GetOperator_loop total r sum past (mkBucket w (mjoin (g :: q)) :: rest) b =
    inr (mkRandBuckets (if is_nil q then f64_sub total w else total) (past ++ mkBucket w (mjoin q) :: rest), Some g) ∨
  f64_ltb r next = false ∧ f64_geb r next = true ∧
  GetOperator_loop total r sum past (mkBucket w (mjoin (g :: q)) :: rest) b =
    GetOperator_loop total r next (past ++ [mkBucket w (mjoin (g :: q))]) rest b.
Proof.
  intros Hg Hr Hsum next Hnext. cbn [GetOperator_loop b_ops weight]. rewrite (mjoin_length _ Hg). cbn [is_nil].
  fold next. rewrite Hsum. cbn [andb]. destruct (f64_ltb r next) eqn:E.
  - left. apply Forall_cons in Hg as [Hg Hq]. change (mjoin (g :: q)) with (g ++ mjoin q). rewrite take_group by done.
    by rewrite (mjoin_length q Hq).
  - right. split_and!; [done|by apply geb_of_not_ltb|done].
Qed.

Lemma loop_empty total r sum past w rest (b : RandBuckets A) :
  GetOperator_loop total r sum past (mkBucket w [] :: rest) b =
  GetOperator_loop total r sum (past ++ [mkBucket w []]) rest b.
Proof. done. Qed.

(** The weights after a group is taken from a queue. *)
Lemma weight_sub e1 e2 e3 (k : Z) : k = 1 ∧ e1 = false ∨ k = 4 ∧ e2 = false ∨ k = 9 ∧ e3 = false →
  f64_sub (f64_of_Z (weight_of e1 e2 e3)) (f64_of_Z k) =
  f64_of_Z (weight_of (e1 || (k =? 1)) (e2 || (k =? 4)) (e3 || (k =? 9))).
Proof. intros [[-> E]|[[-> E]|[-> E]]]; destruct e1, e2, e3; try discriminate E; vm_compute; reflexivity. Qed.

Ltac loop_step H :=
  rewrite ?loop_empty;
  match goal with
  | Hr : unit_float ?r, Hs : f64_geb ?r ?sum = true, Hg : Forall group (?g :: ?q)
    |- context [GetOperator_loop ?total ?r ?sum ?past (mkBucket ?w (mjoin (?g :: ?q)) :: ?rest) ?b] =>
      destruct (loop_nonempty total r sum past w g q rest b Hg Hr Hs) as [H|(? & ? & H)];
      [vm_compute; reflexivity|rewrite H; clear H|rewrite H; clear H Hs]
  end.

Lemma get_refines b q1 q2 q3 r : refines b q1 q2 q3 → unit_float r →
  q1 = [] ∧ q2 = [] ∧ q3 = [] ∧ GetOperator r b = inr (b, None) ∨
  ∃ g b', GetOperator r b = inr (b', Some g) ∧
    ((∃ q, q1 = g :: q ∧ refines b' q q2 q3) ∨ (∃ q, q2 = g :: q ∧ refines b' q1 q q3) ∨
     (∃ q, q3 = g :: q ∧ refines b' q1 q2 q)).
Proof.
  intros (-> & H1 & H2 & H3) Hr. unfold GetOperator. cbn [totalWeight buckets]. pose proof Hr as [H0 Hlt].
  set (b := mkRandBuckets _ _).
  assert (Hend : ∀ x, f64_ltb r x = false → x = f64_of_Z 1 → False) by (intros x Hx ->; congruence).
  destruct q1 as [|g1 q1], q2 as [|g2 q2], q3 as [|g3 q3]; [by left|right..].
  all: match goal with |- context [f64_eqb ?x ?y] => replace (f64_eqb x y) with false by (vm_compute; reflexivity) end.
  all: change (mjoin []) with (@nil A).
  all: repeat (loop_step H; [eexists _, _; split; [done|]|]).
  all: try (exfalso; eapply Hend; [eassumption|vm_compute; reflexivity]).
  all: repeat match goal with H : Forall group (_ :: _) |- _ => apply Forall_cons in H as [? ?] end.
  all: first [left; eexists; split; [reflexivity|] | right; left; eexists; split; [reflexivity|]
             | right; right; eexists; split; [reflexivity|]].
  all: match goal with |- context [is_nil ?q] => destruct q end; (split; [|split_and!; repeat (assumption || apply Forall_cons_2 || apply Forall_nil_2)]);
    cbn [app is_nil]; match goal with |- mkRandBuckets ?a ?l = mkRandBuckets ?a' ?l' =>
      replace a with a' by (vm_compute; reflexivity); reflexivity end.
Qed.

Lemma refines_ListOperator b q1 q2 q3 : refines b q1 q2 q3 → ListOperator b = mjoin (q1 ++ q2 ++ q3).
Proof.
  intros (-> & _). unfold ListOperator. cbn [buckets fmap list_fmap b_ops]. rewrite !join_app. cbn. by rewrite app_nil_r.
Qed.

(** ** Sequences of puts and gets *)

(** Groups are put, and got with random numbers; what was got, in order. *)
Inductive wop_run : RandBuckets A → list (list A) → list (list A) → RandBuckets A → Prop :=
| wop_nil b : wop_run b [] [] b
| wop_put b g l b1 puts gets b' :
    group g → Forall (λ op, level op = l) g → 0 ≤ l < 3 → put_group g b = inr b1 →
    wop_run b1 puts gets b' → wop_run b (g :: puts) gets b'
| wop_get b r b1 g puts gets b' :
    unit_float r → GetOperator r b = inr (b1, Some g) →
    wop_run b1 puts gets b' → wop_run b puts (g :: gets) b'.

Lemma wop_run_refines b puts gets b' q1 q2 q3 : refines b q1 q2 q3 → wop_run b puts gets b' →
  ∃ p1 p2 p3, refines b' p1 p2 p3 ∧ q1 ++ q2 ++ q3 ++ puts ≡ₚ gets ++ p1 ++ p2 ++ p3.
Proof.
  intros Href Hr. revert q1 q2 q3 Href.
  induction Hr as [b|b g l b1 puts gets b' Hg Hlev Hl Hput Hr IH|b r b1 g puts gets b' Hr0 Hget Hr IH]; intros q1 q2 q3 Href.
  - exists q1, q2, q3. split; [done|]. by rewrite app_nil_r.
  - destruct (put_group_refines b q1 q2 q3 g l Href Hg Hlev Hl) as (b2 & Hp & Href'). rewrite Hput in Hp. injection Hp as <-.
    destruct (IH _ _ _ Href') as (p1 & p2 & p3 & Hp & Hperm). exists p1, p2, p3. split; [done|]. rewrite <-Hperm.
    assert (l = 0 ∨ l = 1 ∨ l = 2) as [-> | [-> | ->]] by lia; cbn [Z.eqb Pos.eqb]; solve_Permutation.
  - destruct (get_refines b q1 q2 q3 r Href Hr0) as [(_ & _ & _ & H)|(g' & b2 & H & Hcase)]; rewrite H in Hget; [done|].
    injection Hget as <- <-.
    destruct Hcase as [(q & -> & Href')|[(q & -> & Href')|(q & -> & Href')]];
      destruct (IH _ _ _ Href') as (p1 & p2 & p3 & Hp & Hperm); exists p1, p2, p3; (split; [done|]);
      cbn [app]; rewrite <-Hperm; solve_Permutation.
Qed.

(** The waiting operators, from the empty state, with puts of single operators
    or merge pairs at any valid priority and gets with any random numbers of
    [0, 1): every group comes out at most once, exactly as it was put (a merge
    never without its second operator), none is lost, and a get returns nothing
    only when nothing waits: floating point never skips all the queues. *)
Theorem waiting_operators_kept puts gets b : wop_run NewRandBuckets puts gets b →
  ∃ waiting, puts ≡ₚ gets ++ waiting ∧ ListOperator b = mjoin waiting ∧ Forall group waiting ∧
  ∀ r, unit_float r →
    match GetOperator r b with
    | inr (_, Some g) => g ∈ waiting
    | inr (b', None) => waiting = [] ∧ b' = b
    | inl _ => False
    end.
Proof.
  intros Hr. destruct (wop_run_refines NewRandBuckets puts gets b [] [] []) as (p1 & p2 & p3 & Hp & Hperm); [by split|done|].
  exists (p1 ++ p2 ++ p3). pose proof Hp as (-> & H1 & H2 & H3). split_and!.
  - done.
  - by apply refines_ListOperator.
  - by rewrite !Forall_app.
  - intros r Hu. destruct (get_refines _ _ _ _ r Hp Hu) as [(-> & -> & -> & ->)|(g & b' & -> & Hcase)]; [done|].
    rewrite !elem_of_app. destruct Hcase as [(q & -> & _)|[(q & -> & _)|(q & -> & _)]]; [left|right; left|right; right]; by left.
Qed.
End buckets.

(** Two operators and a merge wait; a number near 1 picks from the queue of the
    highest priority. *)
Module WopDemo.
Definition level (op : Z) : Z := op mod 10.
Definition kind (op : Z) : Z := if 100 <=? op then OpMerge else OpLeader.
Definition near_one : f64 := f64_div (f64_of_Z 99) (f64_of_Z 100).
Definition after (g : list Z) (b : RandBuckets Z) : RandBuckets Z :=
  match put_group level g b with inr b' => b' | inl _ => b end.
Definition b3 : RandBuckets Z := after [11] (after [102; 112] (after [10] NewRandBuckets)).

Lemma waiting_operators_kept_witness : ∃ b, GetOperator kind near_one b3 = inr (b, Some [102; 112]) ∧
  ∃ waiting, [[10]; [102; 112]; [11]] ≡ₚ [[102; 112]] ++ waiting ∧ ListOperator b = mjoin waiting ∧ Forall (group kind) waiting ∧
  ∀ r, unit_float r →
    match GetOperator kind r b with
    | inr (_, Some g) => g ∈ waiting
    | inr (b', None) => waiting = [] ∧ b' = b
    | inl _ => False
    end.
Proof.
  eexists. split; [vm_compute; reflexivity|].
  apply (waiting_operators_kept level kind [[10]; [102; 112]; [11]] [[102; 112]]).
  eapply (wop_put _ _ _ [10] 0); [done|by repeat constructor|lia|vm_compute; reflexivity|].
  eapply (wop_put _ _ _ [102; 112] 2); [done|by repeat constructor|lia|vm_compute; reflexivity|].
  eapply (wop_put _ _ _ [11] 1); [done|by repeat constructor|lia|vm_compute; reflexivity|].
  eapply (wop_get _ _ _ near_one); [by split; vm_compute|vm_compute; reflexivity|constructor].
Defined.
End WopDemo.
