(* ===== verification/Heap.v ===== *)
(** * container/heap

    The functions of Go's [container/heap] on a slice ordered by a time, and that
    they keep the heap order and return the earliest item. *)

From S2P Require Import Prelude.

(** ** Operations *)

Section heap.
Context {A : Type} (key : A → Z).
Implicit Type l : list A.

Definition heap_Less l (i j : nat) : bool :=
  match l !! i, l !! j with
  | Some x, Some y => key x <? key y
  | _, _ => false
  end.

Definition heap_Swap l (i j : nat) : list A :=
  match l !! i, l !! j with
  | Some x, Some y => <[i := y]> (<[j := x]> l)
  | _, _ => l
  end.

(** [up]; [fuel] bounds the depth. *)
Fixpoint heap_up (fuel : nat) l (j : nat) : list A :=
  match fuel with
  | O => l
  | S fuel' =>
      let i := ((j - 1) / 2)%nat in
      if (i =? j)%nat || negb (heap_Less l j i) then l
      else heap_up fuel' (heap_Swap l i j) i
  end.

Fixpoint heap_down (fuel : nat) l (i n : nat) : list A :=
  match fuel with
  | O => l
  | S fuel' =>
      let j1 := (2 * i + 1)%nat in
      if (n <=? j1)%nat then l
      else
        let j2 := S j1 in
        let j := if (j2 <? n)%nat && heap_Less l j2 j1 then j2 else j1 in
        if negb (heap_Less l j i) then l else heap_down fuel' (heap_Swap l i j) j n
  end.

Definition heap_Push l (x : A) : list A := heap_up (S (length l)) (l ++ [x]) (length l).

(** [None] is the panic on an empty heap. *)
Definition heap_Pop l : option (A * list A) :=
  match length l with
  | O => None
  | S n =>
      let l2 := heap_down (S n) (heap_Swap l 0 n) 0 n in
      x ← l2 !! n; Some (x, take n l2)
  end.

(** ** Order *)

Definition child (p c : nat) : Prop := c = (2 * p + 1)%nat ∨ c = (2 * p + 2)%nat.

(** The time at an index. *)
Definition at_ l (i : nat) : Z := (key <$> l) !!! i.

Definition heap_ok l : Prop := ∀ p c, child p c → (c < length l)%nat → at_ l p ≤ at_ l c.

Lemma at_lookup l i x : l !! i = Some x → at_ l i = key x.
Proof. intros H. unfold at_. apply list_lookup_total_correct. by rewrite list_lookup_fmap, H. Qed.

Lemma heap_Less_at l i j : (i < length l)%nat → (j < length l)%nat → heap_Less l i j = (at_ l i <? at_ l j).
Proof.
  intros [x Hx]%lookup_lt_is_Some [y Hy]%lookup_lt_is_Some. unfold heap_Less. rewrite Hx, Hy.
  by rewrite (at_lookup _ _ _ Hx), (at_lookup _ _ _ Hy).
Qed.

Lemma heap_Swap_length l i j : length (heap_Swap l i j) = length l.
Proof. unfold heap_Swap. repeat case_match; by rewrite ?length_insert. Qed.

Lemma heap_Swap_lookup l i j k : (i < length l)%nat → (j < length l)%nat →
  heap_Swap l i j !! k = l !! (if decide (k = i) then j else if decide (k = j) then i else k).
Proof.
  intros Hi Hj. destruct (lookup_lt_is_Some_2 _ _ Hi) as [x Hx], (lookup_lt_is_Some_2 _ _ Hj) as [y Hy].
  unfold heap_Swap. rewrite Hx, Hy. case_decide as E; [subst k|].
  { rewrite list_lookup_insert_eq by (rewrite length_insert; lia). done. }
  rewrite list_lookup_insert_ne by done. case_decide as E'; [subst k|].
  { by rewrite list_lookup_insert_eq by lia. }
  by rewrite list_lookup_insert_ne.
Qed.

Lemma heap_Swap_at l i j k : (i < length l)%nat → (j < length l)%nat →
  at_ (heap_Swap l i j) k = at_ l (if decide (k = i) then j else if decide (k = j) then i else k).
Proof.
  intros Hi Hj. unfold at_. rewrite !list_lookup_total_alt, !list_lookup_fmap. by rewrite heap_Swap_lookup.
Qed.

Lemma heap_Swap_perm l i j : heap_Swap l i j ≡ₚ l.
Proof.
  destruct (decide (i < length l ∧ j < length l)%nat) as [[Hi Hj]|Hn].
  - apply Permutation_inj. rewrite heap_Swap_length. split; [done|].
    exists (λ k, if decide (k = i) then j else if decide (k = j) then i else k). split.
    + intros a b. repeat case_decide; congruence.
    + intros k. by apply heap_Swap_lookup.
  - unfold heap_Swap. destruct (l !! i) eqn:Ei; [|done]. destruct (l !! j) eqn:Ej; [|done].
    apply lookup_lt_Some in Ei, Ej. tauto.
Qed.

(** *** Up *)

(** The order holds except between [j] and its parent. *)
Record up_inv l (j : nat) : Prop := {
  up_len : (j < length l)%nat;
  up_other : ∀ p c, child p c → (c < length l)%nat → c ≠ j → at_ l p ≤ at_ l c;
  up_skip : ∀ p c, child p j → child j c → (c < length l)%nat → at_ l p ≤ at_ l c;
}.

Lemma parent_child j : (0 < j)%nat → child ((j - 1) / 2) j.
Proof.
  intros. unfold child. pose proof (Nat.div_mod_eq (j - 1) 2). pose proof (Nat.mod_upper_bound (j - 1) 2). lia.
Qed.

Lemma up_step l j p : up_inv l j → child p j → at_ l j < at_ l p → up_inv (heap_Swap l p j) p.
Proof.
  intros [Hlen Ho Hs] Hc Hlt.
  assert (Hp : (p < length l)%nat) by (unfold child in *; lia).
  assert (Hpj : p ≠ j) by (unfold child in *; lia).
  split; rewrite ?heap_Swap_length; [done|..].
  - intros q c Hqc Hcl Hcp. rewrite !heap_Swap_at by done. repeat case_decide; subst; try (unfold child in *; lia).
    + assert (j = c ∨ j ≠ c) as [->|Hj] by lia; [lia|]. pose proof (Ho p c Hqc Hcl). lia.
    + by apply Hs.
    + by apply Ho.
  - intros q c Hqp Hpc Hcl. rewrite !heap_Swap_at by done.
    assert (Hqp' : at_ l q ≤ at_ l p) by (apply Ho; [done|lia|done]).
    repeat case_decide; subst; try (unfold child in *; lia).
    pose proof (Ho p c Hpc Hcl). lia.
Qed.

Lemma heap_up_spec fuel l j : (j < fuel)%nat → up_inv l j → heap_ok (heap_up fuel l j) ∧ heap_up fuel l j ≡ₚ l.
Proof.
  revert l j. induction fuel as [|fuel IH]; intros l j Hf Hinv; [lia|]. cbn [heap_up].
  pose proof Hinv as [Hlen Ho Hs].
  destruct (Nat.eqb_spec ((j - 1) / 2) j) as [E|E]; cbn [orb].
  { split; [|done]. intros p c Hpc Hc. apply Ho; [done..|]. intros ->.
    assert (child ((j - 1) / 2) j) by (apply parent_child; unfold child in *; lia). unfold child in *; lia. }
  assert (Hj : (0 < j)%nat) by (destruct j; [done|lia]).
  pose proof (parent_child j Hj) as Hpar. set (p := ((j - 1) / 2)%nat) in *.
  assert (Hp : (p < j)%nat) by (unfold child in Hpar; lia).
  rewrite heap_Less_at by lia. destruct (Z.ltb_spec (at_ l j) (at_ l p)) as [Hlt|Hge]; cbn [negb].
  - destruct (IH (heap_Swap l p j) p) as [Hok Hperm]; [lia|by apply up_step|].
    split; [done|]. by rewrite Hperm, heap_Swap_perm.
  - split; [|done]. intros q c Hqc Hc. destruct (decide (c = j)) as [->|Hne]; [|by apply Ho].
    assert (q = p) as -> by (unfold child in *; lia). done.
Qed.

(** *** Down *)

(** The order of the first [n] holds except between [i] and its children. *)
Record down_inv l (i n : nat) : Prop := {
  down_len : (n ≤ length l)%nat;
  down_other : ∀ p c, child p c → (c < n)%nat → p ≠ i → at_ l p ≤ at_ l c;
  down_skip : ∀ p c, child p i → child i c → (c < n)%nat → at_ l p ≤ at_ l c;
}.

Definition heap_ok_upto (n : nat) l : Prop := ∀ p c, child p c → (c < n)%nat → at_ l p ≤ at_ l c.

Lemma down_step l i n j : down_inv l i n → child i j → (j < n)%nat → at_ l j < at_ l i →
  (∀ c, child i c → (c < n)%nat → at_ l j ≤ at_ l c) → down_inv (heap_Swap l i j) j n.
Proof.
  intros [Hlen Ho Hs] Hc Hj Hlt Hmin.
  assert (i < length l ∧ j < length l)%nat as [? ?] by (unfold child in *; lia).
  assert (i ≠ j) by (unfold child in *; lia).
  split; rewrite ?heap_Swap_length; [done|..].
  - intros p c Hpc Hcn Hpj. rewrite !heap_Swap_at by done. repeat case_decide; subst; try (unfold child in *; lia).
    + by apply Hmin.
    + by apply Hs.
    + by apply Ho.
  - intros p c Hpj Hjc Hcn. rewrite !heap_Swap_at by done.
    assert (p = i) as -> by (unfold child in *; lia). repeat case_decide; subst; try (unfold child in *; lia).
    by apply Ho.
Qed.

Lemma heap_down_spec fuel l i n : (n ≤ fuel + i)%nat → down_inv l i n →
  heap_ok_upto n (heap_down fuel l i n) ∧ heap_down fuel l i n ≡ₚ l ∧
  (∀ k, (n ≤ k)%nat → heap_down fuel l i n !! k = l !! k).
Proof.
  revert l i. induction fuel as [|fuel IH]; intros l i Hf Hinv; cbn [heap_down]; pose proof Hinv as [Hlen Ho Hs].
  { split_and!; [|done..]. intros p c Hpc Hc. apply Ho; [done..|]. unfold child in *; lia. }
  set (j1 := (2 * i + 1)%nat). destruct (Nat.leb_spec n j1) as [Hn|Hn].
  { split_and!; [|done..]. intros p c Hpc Hc. apply Ho; [done..|]. unfold child in *; lia. }
  set (j := if (S j1 <? n)%nat && heap_Less l (S j1) j1 then S j1 else j1).
  assert (Hj : child i j ∧ (j < n)%nat ∧ ∀ c, child i c → (c < n)%nat → at_ l j ≤ at_ l c).
  { unfold j. destruct (Nat.ltb_spec (S j1) n) as [H2|H2]; cbn [andb].
    - rewrite heap_Less_at by lia. destruct (Z.ltb_spec (at_ l (S j1)) (at_ l j1)).
      all: split_and!; [unfold child; lia|lia|]; intros c [-> | ->] _;
        replace (2 * i + 2)%nat with (S j1) by lia; fold j1; lia.
    - split_and!; [unfold child; lia|lia|]. intros c [-> | ->] ?; fold j1; lia. }
  destruct Hj as (Hc & Hjn & Hmin).
  assert (i < n)%nat by (unfold child in *; lia).
  rewrite heap_Less_at by lia. destruct (Z.ltb_spec (at_ l j) (at_ l i)) as [Hlt|Hge]; cbn [negb].
  - destruct (IH (heap_Swap l i j) j) as (Hok & Hperm & Hrest); [unfold child in *; lia|by apply down_step|].
    split_and!; [done|by rewrite Hperm, heap_Swap_perm|]. intros k Hk. rewrite Hrest by done.
    rewrite heap_Swap_lookup by lia. repeat case_decide; by subst; lia || done.
  - split_and!; [|done..]. intros p c Hpc Hcn. destruct (decide (p = i)) as [->|Hne]; [|by apply Ho].
    pose proof (Hmin c Hpc Hcn). lia.
Qed.

(** ** Push and pop *)

Lemma at_app l l' k : (k < length l)%nat → at_ (l ++ l') k = at_ l k.
Proof. intros. unfold at_. rewrite fmap_app. by rewrite lookup_total_app_l by (rewrite length_fmap; lia). Qed.

Lemma heap_Push_spec l x : heap_ok l → heap_ok (heap_Push l x) ∧ heap_Push l x ≡ₚ x :: l.
Proof.
  intros Hok. destruct (heap_up_spec (S (length l)) (l ++ [x]) (length l)) as [H1 H2]; [lia| |].
  - split; rewrite ?length_app; cbn [length]; [lia|..].
    + intros p c Hpc Hc Hne. rewrite !at_app by (unfold child in *; lia). apply Hok; [done|lia].
    + intros p c _ Hc ?. unfold child in *; lia.
  - split; [done|]. unfold heap_Push. rewrite H2. by rewrite Permutation_app_comm.
Qed.

Lemma heap_min l i : heap_ok l → (i < length l)%nat → at_ l 0 ≤ at_ l i.
Proof.
  intros Hok. induction (lt_wf i) as [i _ IH]. intros Hi. destruct i as [|i]; [done|].
  pose proof (parent_child (S i)) as Hp. set (p := ((S i - 1) / 2)%nat) in *.
  assert (Hc : child p (S i)) by (apply Hp; lia). pose proof (Hok p (S i) Hc Hi).
  pose proof (IH p). unfold child in Hc. lia.
Qed.

Lemma heap_take_ok n l : heap_ok_upto n l → heap_ok (take n l).
Proof.
  intros Hok p c Hpc. rewrite length_take. intros Hc.
  assert (Hat : ∀ k, (k < n)%nat → at_ (take n l) k = at_ l k).
  { intros k Hk. unfold at_. rewrite !list_lookup_total_alt, fmap_take, lookup_take_lt by done. done. }
  rewrite !Hat by (unfold child in *; lia). apply Hok; [done|lia].
Qed.

(** A non-empty heap gives its earliest item. *)
Lemma heap_Pop_spec l : heap_ok l → l ≠ [] →
  ∃ x l', heap_Pop l = Some (x, l') ∧ heap_ok l' ∧ l ≡ₚ x :: l' ∧ ∀ y, y ∈ l → key x ≤ key y.
Proof.
  intros Hok Hne. unfold heap_Pop. destruct (length l) as [|n] eqn:Hlen; [by destruct l|].
  destruct (lookup_lt_is_Some_2 l 0) as [x Hx]; [lia|].
  destruct (heap_down_spec (S n) (heap_Swap l 0 n) 0 n) as (Hd & Hperm & Hrest); [lia|..].
  { split; rewrite ?heap_Swap_length; [lia|..].
    - intros p c Hpc Hc Hp. rewrite !heap_Swap_at by lia. repeat case_decide; try (unfold child in *; lia).
      apply Hok; [done|lia].
    - intros p c Hp. unfold child in Hp; lia. }
  set (l2 := heap_down _ _ _ _) in *.
  assert (Hl2 : l2 !! n = Some x).
  { rewrite Hrest by done. rewrite heap_Swap_lookup by lia. by repeat case_decide; subst; try done. }
  rewrite Hl2. cbn. exists x, (take n l2). split_and!; [done|by apply heap_take_ok|..].
  - rewrite heap_Swap_perm in Hperm. rewrite <-Hperm. assert (Hlen2 : length l2 = S n) by (by rewrite Hperm).
    rewrite <-(take_drop n l2) at 1. rewrite (drop_S _ _ _ Hl2), (drop_ge l2 (S n)) by lia.
    by rewrite Permutation_app_comm.
  - intros y [i Hi]%list_elem_of_lookup. rewrite <-(at_lookup _ _ _ Hx), <-(at_lookup _ _ _ Hi).
    apply heap_min; [done|]. by eapply lookup_lt_Some.
Qed.
End heap.
