(* ===== verification/OperatorController.v ===== *)
(** * The operator controller

    server/schedule/operator_controller.go and operator_queue.go, and
    [checkOperators] of server/cluster.go, which runs on the controller.

    Operators are shared: the heap [oc_heap] holds them and a pointer is an index.
    What the controller reads from outside, the clock, the cluster, the random
    generator and the iteration order of a Go map, is a stream [env] of snapshots;
    every read takes the next one, so the cluster may change between any two
    reads, also while the controller is locked.  The rate limiter
    (juju/ratelimit) is the class [RateLimit].  Sent commands are appended to
    [sent]. *)

From S2P Require Import Prelude GoBytes Metapb Region Strconv KV Cache Operator Float WaitingOperator Heap.

(** ** Data *)

Inductive OperatorStatus := SUCCESS | TIMEOUT | CANCEL | REPLACE | RUNNING.

Record OperatorWithStatus := mkOperatorWithStatus { ows_Op : nat; ows_Status : OperatorStatus }.

Record operatorWithTime := mkOperatorWithTime { item_op : nat; item_time : Z }.

(** A pointer outside the heap does not exist; this gives it a value. *)
#[export] Instance Operator_inhabited : Inhabited Operator := populate (mkOperator "" 0 None 0 [] 0 0 None 0 0).

Inductive ConfChangeType := AddNode | RemoveNode | AddLearnerNode.

(** [pdpb.RegionHeartbeatResponse], the parts the controller fills. *)
Inductive RegionHeartbeatResponse :=
| CmdTransferLeader (peer : option Peer)
| CmdChangePeer (changeType : ConfChangeType) (peer : option Peer)
| CmdMerge (target : Region)
| CmdSplitRegion (policy : Z).

Definition historyKeepTime : Z := 5 * 60 * Second.
Definition slowNotifyInterval : Z := 5 * Second.
Definition fastNotifyInterval : Z := 2 * Second.
Definition StoreBalanceBaseTime : f64 := f64_of_Z 60.
Definition operatorStatusRemainTime : Z := 10 * 60 * Second.

(** What one read from outside can see. *)
Record Snapshot := mkSnapshot {
  sn_now : Z;
  sn_GetRegion : Z → option RegionInfo;
  sn_StoreTombstone : Z → option bool;
  sn_GetSchedulerMaxWaitingOperator : Z;
  sn_GetStoreBalanceRate : f64;
  sn_Float64 : f64;
  sn_order : gset Z → list Z;
}.

(** [ratelimit.Bucket]; the time of the call is an argument.  The constructor
    panics ([None]) on a rate it cannot represent. *)
Class RateLimit (B : Type) := {
  rl_NewBucketWithRate : f64 → Z → Z → option B;
  rl_Available : B → Z → B * Z;
  rl_Take : B → Z → Z → B;
  rl_Rate : B → f64;
}.

Record OperatorController (B : Type) := mkOC {
  oc_tick : nat;
  oc_heap : list Operator;
  operators : gmap Z nat;
  histories : list OperatorHistory;
  counts : gmap Z Z;
  opRecords : TTL OperatorWithStatus;
  storesLimit : gmap Z B;
  overloadStatus : list Z;
  wop : RandBuckets nat;
  wopStatus : gmap string Z;
  opNotifierQueue : list operatorWithTime;
  sent : list (RegionInfo * RegionHeartbeatResponse);
}.
Arguments mkOC {B} _ _ _ _ _ _ _ _ _ _ _ _.
Arguments oc_tick {B} _.
Arguments oc_heap {B} _.
Arguments operators {B} _.
Arguments histories {B} _.
Arguments counts {B} _.
Arguments opRecords {B} _.
Arguments storesLimit {B} _.
Arguments overloadStatus {B} _.
Arguments wop {B} _.
Arguments wopStatus {B} _.
Arguments opNotifierQueue {B} _.
Arguments sent {B} _.

(** ** Commands *)

Definition add_cmd (region : RegionInfo) (toStore : Z) (cmd : RegionHeartbeatResponse) : option RegionHeartbeatResponse :=
  match GetStorePeer region toStore with
  | Some _ => None
  | None => Some cmd
  end.

(** What [SendScheduleCommand] sends. *)
Definition schedule_command (region : RegionInfo) (step : OperatorStep) : option RegionHeartbeatResponse :=
  match step with
  | TransferLeader _ toStore => Some (CmdTransferLeader (GetStorePeer region toStore))
  | AddPeer toStore peerID | AddLightPeer toStore peerID =>
      add_cmd region toStore (CmdChangePeer AddNode (Some (mkPeer peerID toStore false)))
  | AddLearner toStore peerID | AddLightLearner toStore peerID =>
      add_cmd region toStore (CmdChangePeer AddLearnerNode (Some (mkPeer peerID toStore true)))
  | PromoteLearner toStore peerID => Some (CmdChangePeer AddNode (Some (mkPeer peerID toStore false)))
  | RemovePeer fromStore => Some (CmdChangePeer RemoveNode (GetStorePeer region fromStore))
  | MergeRegion _ toRegion isPassive => if isPassive then None else Some (CmdMerge toRegion)
  | SplitRegion _ _ policy => Some (CmdSplitRegion policy)
  end.

Definition getNextPushOperatorTime (step : option OperatorStep) (now : Z) : Z :=
  match step with
  | Some (TransferLeader _ _) | Some (PromoteLearner _ _) => now + fastNotifyInterval
  | _ => now + slowNotifyInterval
  end.

Definition isHigherPriorityOperator (new old : Operator) : bool := op_level old <? op_level new.

(** [counts[op.Kind()]++] over the running operators. *)
Definition count_kinds (kinds : list Z) : gmap Z Z :=
  foldl (λ m k, <[k := uint64 (default 0 (m !! k) + 1)]> m) ∅ kinds.

(** The capacity of a store's bucket. *)
Definition limit_capacity (rate : f64) : Z :=
  if f64_ltb (f64_of_Z 1) rate then int64_of_f64 (f64_mul rate (f64_of_Z RegionInfluence)) else RegionInfluence.

Module OC.
Section oc.
Context {B : Type} `{!RateLimit B} (env : nat → Snapshot).
Implicit Types (s : OperatorController B) (ops : list nat) (p : nat).

Definition NewOperatorController (heap : list Operator) : OperatorController B :=
  mkOC 0 heap ∅ [] ∅ (Ttl.NewTTL (60 * Second) operatorStatusRemainTime) ∅ [] NewRandBuckets ∅ [] [].

(** *** Fields *)

Definition set_heap (h : list Operator) : M (OperatorController B) unit := λ s,
  (mkOC (oc_tick s) h (operators s) (histories s) (counts s) (opRecords s) (storesLimit s)
    (overloadStatus s) (wop s) (wopStatus s) (opNotifierQueue s) (sent s), inr ()).
Definition set_operators (m : gmap Z nat) : M (OperatorController B) unit := λ s,
  (mkOC (oc_tick s) (oc_heap s) m (histories s) (counts s) (opRecords s) (storesLimit s)
    (overloadStatus s) (wop s) (wopStatus s) (opNotifierQueue s) (sent s), inr ()).
Definition set_histories (l : list OperatorHistory) : M (OperatorController B) unit := λ s,
  (mkOC (oc_tick s) (oc_heap s) (operators s) l (counts s) (opRecords s) (storesLimit s)
    (overloadStatus s) (wop s) (wopStatus s) (opNotifierQueue s) (sent s), inr ()).
Definition set_counts (m : gmap Z Z) : M (OperatorController B) unit := λ s,
  (mkOC (oc_tick s) (oc_heap s) (operators s) (histories s) m (opRecords s) (storesLimit s)
    (overloadStatus s) (wop s) (wopStatus s) (opNotifierQueue s) (sent s), inr ()).
Definition set_records (r : TTL OperatorWithStatus) : M (OperatorController B) unit := λ s,
  (mkOC (oc_tick s) (oc_heap s) (operators s) (histories s) (counts s) r (storesLimit s)
    (overloadStatus s) (wop s) (wopStatus s) (opNotifierQueue s) (sent s), inr ()).
Definition set_limit (storeID : Z) (b : B) : M (OperatorController B) unit := λ s,
  (mkOC (oc_tick s) (oc_heap s) (operators s) (histories s) (counts s) (opRecords s)
    (<[storeID := b]> (storesLimit s)) (overloadStatus s) (wop s) (wopStatus s) (opNotifierQueue s) (sent s), inr ()).
Definition AttachOverloadStatus (storeID : Z) : M (OperatorController B) unit := λ s,
  (mkOC (oc_tick s) (oc_heap s) (operators s) (histories s) (counts s) (opRecords s) (storesLimit s)
    (overloadStatus s ++ [storeID]) (wop s) (wopStatus s) (opNotifierQueue s) (sent s), inr ()).
Definition set_wop (w : RandBuckets nat) : M (OperatorController B) unit := λ s,
  (mkOC (oc_tick s) (oc_heap s) (operators s) (histories s) (counts s) (opRecords s) (storesLimit s)
    (overloadStatus s) w (wopStatus s) (opNotifierQueue s) (sent s), inr ()).
(** [wopStatus.ops[desc] += d] *)
Definition add_wopStatus (desc : string) (d : Z) : M (OperatorController B) unit := λ s,
  (mkOC (oc_tick s) (oc_heap s) (operators s) (histories s) (counts s) (opRecords s) (storesLimit s)
    (overloadStatus s) (wop s) (<[desc := uint64 (default 0 (wopStatus s !! desc) + d)]> (wopStatus s))
    (opNotifierQueue s) (sent s), inr ()).
Definition set_queue (q : list operatorWithTime) : M (OperatorController B) unit := λ s,
  (mkOC (oc_tick s) (oc_heap s) (operators s) (histories s) (counts s) (opRecords s) (storesLimit s)
    (overloadStatus s) (wop s) (wopStatus s) q (sent s), inr ()).
Definition SendMsg (region : RegionInfo) (cmd : RegionHeartbeatResponse) : M (OperatorController B) unit := λ s,
  (mkOC (oc_tick s) (oc_heap s) (operators s) (histories s) (counts s) (opRecords s) (storesLimit s)
    (overloadStatus s) (wop s) (wopStatus s) (opNotifierQueue s) (sent s ++ [(region, cmd)]), inr ()).

Definition get : M (OperatorController B) (OperatorController B) := λ s, (s, inr s).

(** The next snapshot. *)
Definition read : M (OperatorController B) Snapshot := λ s,
  (mkOC (S (oc_tick s)) (oc_heap s) (operators s) (histories s) (counts s) (opRecords s) (storesLimit s)
    (overloadStatus s) (wop s) (wopStatus s) (opNotifierQueue s) (sent s), inr (env (oc_tick s))).

Definition time_Now : M (OperatorController B) Z := sn ← read; mret (sn_now sn).
Definition cluster_GetRegion (id : Z) : M (OperatorController B) (option RegionInfo) :=
  sn ← read; mret (sn_GetRegion sn id).
Definition range_map (ids : gset Z) : M (OperatorController B) (list Z) := sn ← read; mret (sn_order sn ids).

Definition deref p : M (OperatorController B) Operator := λ s, (s, inr (oc_heap s !!! p)).
Definition assign p (o : Operator) : M (OperatorController B) unit :=
  s ← get; set_heap (<[p := o]> (oc_heap s)).

(** The fields of an operator the waiting queues read. *)
Definition level_of (h : list Operator) p : Z := op_level (h !!! p).
Definition kind_of (h : list Operator) p : Z := op_kind (h !!! p).

(** [for _, x := range l]: the effects of the body in order. *)
Fixpoint for_each {A} (f : A → M (OperatorController B) unit) (l : list A) : M (OperatorController B) unit :=
  match l with
  | [] => mret ()
  | x :: l' => _ ← f x; for_each f l'
  end.

(** *** Records *)

Definition Records_Put p (status : OperatorStatus) : M (OperatorController B) unit :=
  o ← deref p;
  now ← time_Now;
  s ← get;
  set_records (Ttl.Put (opRecords s) now (op_regionID o) (Some (mkOperatorWithStatus p status))).

Definition Records_Get (id : Z) : M (OperatorController B) (option OperatorWithStatus) :=
  now ← time_Now;
  s ← get;
  mret (match Ttl.Get (opRecords s) now id with (v, true) => v | (_, false) => None end).

(** *** Progress and commands *)

(** [op.Check(region)] on the shared operator. *)
Definition op_Check p (region : RegionInfo) : M (OperatorController B) (option OperatorStep) :=
  o ← deref p;
  now ← time_Now;
  _ ← assign p (Check o region now).1;
  mret (Check o region now).2.

Definition op_IsTimeout p : M (OperatorController B) bool :=
  o ← deref p;
  now ← time_Now;
  mret (IsTimeout o now).

Definition SendScheduleCommand (region : RegionInfo) (step : OperatorStep) : M (OperatorController B) unit :=
  match schedule_command region step with
  | Some cmd => SendMsg region cmd
  | None => mret ()
  end.

(** *** Influence *)

Fixpoint total_influence ops (m : OpInfluence) : M (OperatorController B) OpInfluence :=
  match ops with
  | [] => mret m
  | p :: ops' =>
      o ← deref p;
      region ← cluster_GetRegion (op_regionID o);
      total_influence ops' (match region with Some r => TotalInfluence o m r | None => m end)
  end.

Definition NewTotalOpInfluence ops : M (OperatorController B) OpInfluence := total_influence ops ∅.

Fixpoint unfinished_influence ops (m : OpInfluence) : M (OperatorController B) OpInfluence :=
  match ops with
  | [] => mret m
  | p :: ops' =>
      timeout ← op_IsTimeout p;
      o ← deref p;
      if negb timeout && negb (Operator_IsFinish o) then
        region ← cluster_GetRegion (op_regionID o);
        unfinished_influence ops' (match region with Some r => UnfinishedInfluence o m r | None => m end)
      else unfinished_influence ops' m
  end.

Definition NewUnfinishedOpInfluence ops : M (OperatorController B) OpInfluence := unfinished_influence ops ∅.

(** The operators that are neither finished nor timed out and whose region is known. *)
Fixpoint pending_operators ops : M (OperatorController B) (list nat) :=
  match ops with
  | [] => mret []
  | p :: ops' =>
      timeout ← op_IsTimeout p;
      o ← deref p;
      if negb timeout && negb (Operator_IsFinish o) then
        region ← cluster_GetRegion (op_regionID o);
        res ← pending_operators ops';
        mret (match region with Some _ => p :: res | None => res end)
      else pending_operators ops'
  end.

(** The running operators, in the order of a map iteration. *)
Definition GetOperators : M (OperatorController B) (list nat) :=
  s ← get;
  ids ← range_map (dom (operators s));
  mret (omap (λ id, operators s !! id) ids).

Definition GetOpInfluence : M (OperatorController B) OpInfluence :=
  ops ← GetOperators;
  res ← pending_operators ops;
  NewUnfinishedOpInfluence res.

(** *** Store limits *)

Definition newStoreLimit (storeID : Z) (rate : f64) : M (OperatorController B) unit :=
  now ← time_Now;
  match rl_NewBucketWithRate (f64_mul rate (f64_of_Z RegionInfluence)) (limit_capacity rate) now with
  | None => mfail (Panic "cannot find suitable quantum")
  | Some b => set_limit storeID b
  end.

Definition getOrCreateStoreLimit (storeID : Z) : M (OperatorController B) unit :=
  s ← get;
  match storesLimit s !! storeID with
  | Some _ => mret ()
  | None =>
      sn ← read;
      _ ← newStoreLimit storeID (f64_div (sn_GetStoreBalanceRate sn) StoreBalanceBaseTime);
      AttachOverloadStatus storeID
  end.

(** [oc.storesLimit[storeID].Available()] and [Take]; the pointer of an absent
    bucket is nil. *)
Definition limit_Available (storeID : Z) : M (OperatorController B) Z :=
  now ← time_Now;
  s ← get;
  match storesLimit s !! storeID with
  | None => mfail (Panic "nil pointer dereference")
  | Some b => _ ← set_limit storeID (rl_Available b now).1; mret (rl_Available b now).2
  end.

Definition limit_Take (storeID count : Z) : M (OperatorController B) unit :=
  now ← time_Now;
  s ← get;
  match storesLimit s !! storeID with
  | None => mfail (Panic "nil pointer dereference")
  | Some b => set_limit storeID (rl_Take b now count)
  end.

Fixpoint exceed_loop (ids : list Z) (m : OpInfluence) : M (OperatorController B) bool :=
  match ids with
  | [] => mret false
  | storeID :: ids' =>
      let stepCost := StepCost (GetStoreInfluence m storeID) in
      if stepCost =? 0 then exceed_loop ids' m
      else
        _ ← getOrCreateStoreLimit storeID;
        available ← limit_Available storeID;
        if available <? stepCost then mret true else exceed_loop ids' m
  end.

Definition exceedStoreLimit ops : M (OperatorController B) bool :=
  m ← NewTotalOpInfluence ops;
  ids ← range_map (dom m);
  exceed_loop ids m.

Definition take_cost (m : OpInfluence) (storeID : Z) : M (OperatorController B) unit :=
  let stepCost := StepCost (GetStoreInfluence m storeID) in
  if stepCost =? 0 then mret () else limit_Take storeID stepCost.

Definition SetAllStoresLimit (rate : f64) : M (OperatorController B) unit :=
  s ← get;
  ids ← range_map (dom (storesLimit s));
  for_each (λ storeID, newStoreLimit storeID rate) ids.

Definition SetStoreLimit (storeID : Z) (rate : f64) : M (OperatorController B) unit := newStoreLimit storeID rate.

(** [store.IsTombstone()] dereferences the store. *)
Fixpoint stores_limit_loop (ids : list Z) (ret : gmap Z f64) : M (OperatorController B) (gmap Z f64) :=
  match ids with
  | [] => mret ret
  | storeID :: ids' =>
      sn ← read;
      s ← get;
      match sn_StoreTombstone sn storeID, storesLimit s !! storeID with
      | Some tombstone, Some limit =>
          stores_limit_loop ids'
            (if tombstone then ret else <[storeID := f64_div (rl_Rate limit) (f64_of_Z RegionInfluence)]> ret)
      | _, _ => mfail (Panic "nil pointer dereference")
      end
  end.

Definition GetAllStoresLimit : M (OperatorController B) (gmap Z f64) :=
  s ← get;
  ids ← range_map (dom (storesLimit s));
  stores_limit_loop ids ∅.

(** *** Running operators *)

Definition updateCounts : M (OperatorController B) unit :=
  s ← get;
  set_counts (count_kinds (kind_of (oc_heap s) <$> (map_to_list (operators s)).*2)).

Definition OperatorCount (mask : Z) : M (OperatorController B) Z :=
  s ← get;
  mret (foldl (λ total '(k, count), if Z.land k mask =? 0 then total else uint64 (total + count))
    0 (map_to_list (counts s))).

Definition removeOperatorLocked p : M (OperatorController B) unit :=
  o ← deref p;
  s ← get;
  _ ← set_operators (delete (op_regionID o) (operators s));
  updateCounts.

Definition RemoveOperator p : M (OperatorController B) unit := removeOperatorLocked p.
Definition RemoveTimeoutOperator p : M (OperatorController B) unit := removeOperatorLocked p.

Definition GetOperator (regionID : Z) : M (OperatorController B) (option nat) :=
  s ← get; mret (operators s !! regionID).

Definition GetWaitingOperators : M (OperatorController B) (list nat) := s ← get; mret (ListOperator (wop s)).

Definition GetOperatorStatus (id : Z) : M (OperatorController B) (option OperatorWithStatus) :=
  s ← get;
  match operators s !! id with
  | Some op => mret (Some (mkOperatorWithStatus op RUNNING))
  | None => Records_Get id
  end.

Fixpoint checkAddOperator ops : M (OperatorController B) bool :=
  match ops with
  | [] => mret true
  | p :: ops' =>
      op ← deref p;
      region ← cluster_GetRegion (op_regionID op);
      match region with
      | None => mret false
      | Some region =>
          if negb (Epoch_GetVersion (GetRegionEpoch region) =? Epoch_GetVersion (op_regionEpoch op))
             || negb (Epoch_GetConfVer (GetRegionEpoch region) =? Epoch_GetConfVer (op_regionEpoch op)) then mret false
          else
            s ← get;
            match operators s !! op_regionID op with
            | None => checkAddOperator ops'
            | Some old =>
                old ← deref old;
                if isHigherPriorityOperator op old then checkAddOperator ops' else mret false
            end
      end
  end.

(** The step of the operator for the region, sent if there is one. *)
Definition send_first p (region : option RegionInfo) : M (OperatorController B) (option OperatorStep) :=
  match region with
  | None => mret None
  | Some region =>
      step ← op_Check p region;
      _ ← match step with Some st => SendScheduleCommand region st | None => mret () end;
      mret step
  end.

Definition queue_Push (item : operatorWithTime) : M (OperatorController B) unit :=
  s ← get; set_queue (heap_Push item_time (opNotifierQueue s) item).

(** The operator of the region that a new one replaces. *)
Definition replace_old (regionID : Z) : M (OperatorController B) unit :=
  s ← get;
  match operators s !! regionID with
  | Some old => _ ← Records_Put old REPLACE; removeOperatorLocked old
  | None => mret ()
  end.

Definition addOperatorLocked p : M (OperatorController B) unit :=
  op ← deref p;
  let regionID := op_regionID op in
  _ ← replace_old regionID;
  s ← get;
  _ ← set_operators (<[regionID := p]> (operators s));
  now ← time_Now;
  op ← deref p;
  _ ← assign p (SetStartTime now op);
  m ← NewTotalOpInfluence [p];
  ids ← range_map (dom m);
  _ ← for_each (take_cost m) ids;
  _ ← updateCounts;
  region ← cluster_GetRegion regionID;
  step ← send_first p region;
  now ← time_Now;
  queue_Push (mkOperatorWithTime p (getNextPushOperatorTime step now)).

(** [exceedStoreLimit(ops...) || !checkAddOperator(ops...)] *)
Definition cannot_add ops : M (OperatorController B) bool :=
  exceed ← exceedStoreLimit ops;
  if exceed : bool then mret true
  else ok ← checkAddOperator ops; mret (negb ok).

Definition cancel_all ops : M (OperatorController B) unit := for_each (λ p, Records_Put p CANCEL) ops.

Definition AddOperator ops : M (OperatorController B) bool :=
  refused ← cannot_add ops;
  if refused : bool then _ ← cancel_all ops; mret false
  else _ ← for_each addOperatorLocked ops; mret true.

(** *** Waiting operators *)

Definition first_desc ops : M (OperatorController B) string :=
  match ops with
  | [] => mfail (Panic "index out of range")
  | p :: _ => o ← deref p; mret (op_desc o)
  end.

Definition wop_Put p : M (OperatorController B) unit :=
  s ← get;
  w ← lift_result (PutOperator (level_of (oc_heap s)) p (wop s));
  set_wop w.

Definition wop_Get : M (OperatorController B) (option (list nat)) :=
  sn ← read;
  s ← get;
  w ← lift_result (WaitingOperator.GetOperator (kind_of (oc_heap s)) (sn_Float64 sn) (wop s));
  _ ← set_wop w.1;
  mret w.2.

(** The loop that takes waiting operators until some can be added. *)
Fixpoint promote_loop (fuel : nat) : M (OperatorController B) (list nat) :=
  match fuel with
  | O => mfail (Error "out of fuel")
  | S fuel' =>
      ops ← wop_Get;
      match ops with
      | None => mret []
      | Some ops =>
          refused ← cannot_add ops;
          if refused : bool then
            _ ← cancel_all ops;
            desc ← first_desc ops;
            _ ← add_wopStatus desc (-1);
            promote_loop fuel'
          else
            desc ← first_desc ops;
            _ ← add_wopStatus desc (-1);
            mret ops
      end
  end.

Definition PromoteWaitingOperator : M (OperatorController B) unit :=
  s ← get;
  ops ← promote_loop (S (length (ListOperator (wop s))));
  for_each addOperatorLocked ops.

(** [AddWaitingOperator] up to the release of the lock. *)
Definition AddWaitingOperator_locked ops : M (OperatorController B) bool :=
  ok ← checkAddOperator ops;
  if negb ok then _ ← cancel_all ops; mret false
  else
    desc ← first_desc ops;
    sn ← read;
    s ← get;
    if sn_GetSchedulerMaxWaitingOperator sn <=? default 0 (wopStatus s !! desc) then mret false
    else
      _ ← for_each wop_Put (take 2 ops);
      _ ← add_wopStatus desc 1;
      mret true.

Definition AddWaitingOperator ops : M (OperatorController B) bool :=
  added ← AddWaitingOperator_locked ops;
  if added : bool then _ ← PromoteWaitingOperator; mret true else mret false.

(** *** Dispatch *)

Definition pushHistory p : M (OperatorController B) unit :=
  o ← deref p;
  now ← time_Now;
  s ← get;
  set_histories (reverse (History o now) ++ histories s).

(** The loop from the back of the list, here the front of [l]. *)
Fixpoint prune_loop (l : list OperatorHistory) : M (OperatorController B) (list OperatorHistory) :=
  match l with
  | [] => mret []
  | h :: l' =>
      now ← time_Now;
      if historyKeepTime <? now - FinishTime h then prune_loop l' else mret l
  end.

Definition PruneHistory : M (OperatorController B) unit :=
  s ← get;
  l ← prune_loop (reverse (histories s));
  set_histories (reverse l).

Definition GetHistory (start : Z) : M (OperatorController B) (list OperatorHistory) :=
  s ← get;
  mret (iter_while (λ h acc, if FinishTime h <? start then (acc, false) else (acc ++ [h], true)) (histories s) []).

Definition Dispatch (region : RegionInfo) : M (OperatorController B) unit :=
  op ← GetOperator (GetID region);
  match op with
  | None => mret ()
  | Some p =>
      timeout ← op_IsTimeout p;
      step ← op_Check p region;
      match step, timeout : bool with
      | Some st, false => SendScheduleCommand region st
      | _, _ =>
          o ← deref p;
          if Operator_IsFinish o then
            _ ← pushHistory p;
            _ ← Records_Put p SUCCESS;
            _ ← RemoveOperator p;
            PromoteWaitingOperator
          else if timeout then
            _ ← RemoveTimeoutOperator p;
            _ ← Records_Put p TIMEOUT;
            PromoteWaitingOperator
          else mret ()
      end
  end.

Definition queue_Pop : M (OperatorController B) operatorWithTime :=
  s ← get;
  match heap_Pop item_time (opNotifierQueue s) with
  | None => mfail (Panic "index out of range")
  | Some (item, q) => _ ← set_queue q; mret item
  end.

Definition pollNeedDispatchRegion : M (OperatorController B) (option RegionInfo * bool) :=
  s ← get;
  match opNotifierQueue s with
  | [] => mret (None, false)
  | _ :: _ =>
      item ← queue_Pop;
      item_o ← deref (item_op item);
      let regionID := op_regionID item_o in
      s ← get;
      match operators s !! regionID with
      | None => mret (None, true)
      | Some op =>
          r ← cluster_GetRegion regionID;
          match r with
          | None => mret (None, true)
          | Some r =>
              step ← op_Check op r;
              match step with
              | None => mret (None, true)
              | Some _ =>
                  now ← time_Now;
                  if now <? item_time item then _ ← queue_Push item; mret (None, false)
                  else
                    _ ← queue_Push (mkOperatorWithTime (item_op item) (getNextPushOperatorTime step now));
                    mret (Some r, true)
              end
          end
      end
  end.

Fixpoint PushOperators (fuel : nat) : M (OperatorController B) unit :=
  match fuel with
  | O => mfail (Error "out of fuel")
  | S fuel' =>
      rn ← pollNeedDispatchRegion;
      match rn with
      | (_, false) => mret ()
      | (None, true) => PushOperators fuel'
      | (Some r, true) => _ ← Dispatch r; PushOperators fuel'
      end
  end.

(** [RaftCluster.checkOperators]. *)
Definition check_operator p : M (OperatorController B) unit :=
  o ← deref p;
  region ← cluster_GetRegion (op_regionID o);
  match region with
  | None => RemoveOperator p
  | Some _ => timeout ← op_IsTimeout p; if timeout : bool then RemoveTimeoutOperator p else mret ()
  end.

Definition checkOperators : M (OperatorController B) unit :=
  ops ← GetOperators;
  for_each check_operator ops.
End oc.
End OC.
