(* ===== verification/OperatorControllerInv.v ===== *)
(** * The operator controller: its invariant

    A weakest-precondition calculus for the monad of the controller, what each
    operation leaves alone, and that every operation keeps the invariant:
    operators are filed under their region, the counts are those of the running
    operators, the waiting queues and their counters agree, and the notifier queue
    is a heap.  Where the cluster does not change during a call the operations do
    not panic. *)

From S2P Require Import Prelude GoBytes Metapb Region Strconv KV Cache Operator Float WaitingOperator Heap OperatorController.

(** ** Reasoning about the monad

    [wp E m s Q]: running [m] in [s] ends in [Q] or fails with an error of [E]. *)

Section wp.
Context {S : Type}.

Definition wp {A} (E : go_error → Prop) (m : M S A) (s : S) (Q : A → S → Prop) : Prop :=
  match m s with
  | (s', inr a) => Q a s'
  | (_, inl e) => E e
  end.

Lemma wp_bind {A A'} E (m : M S A) (f : A → M S A') s Q :
  wp E m s (λ a s', wp E (f a) s' Q) → wp E (x ← m; f x) s Q.
Proof. unfold wp. rewrite M_bind_eq. by destruct (m s) as [s' [e|a]]. Qed.

Lemma wp_ret {A} E (a : A) s (Q : A → S → Prop) : Q a s → wp E (mret a) s Q.
Proof. done. Qed.

Lemma wp_mono {A} E (m : M S A) s (Q Q' : A → S → Prop) :
  wp E m s Q → (∀ a s', Q a s' → Q' a s') → wp E m s Q'.
Proof. unfold wp. destruct (m s) as [s' [e|a]]; auto. Qed.

Lemma wp_run {A} E (m : M S A) s Q s' a : wp E m s Q → m s = (s', inr a) → Q a s'.
Proof. unfold wp. by intros H Heq; rewrite Heq in H. Qed.
End wp.

(** The body of a loop keeps [I]. *)
Lemma wp_for_each {B A} E (f : A → M (OperatorController B) unit) l (I : OperatorController B → Prop) s :
  I s → (∀ x s, x ∈ l → I s → wp E (f x) s (λ _, I)) → wp E (OC.for_each f l) s (λ _, I).
Proof.
  revert s. induction l as [|x l IH]; intros s Hs Hf; [done|]. cbn [OC.for_each]. apply wp_bind.
  eapply wp_mono; [by apply Hf; [left|]|]. intros [] s' Hs'. apply IH; [done|]. intros y s'' Hy. by apply Hf; right.
Qed.

(** The errors allowed: panics, or none. *)
Definition is_panic (e : go_error) : Prop := match e with Panic _ => True | Error _ => False end.
Definition no_error (e : go_error) : Prop := False.

(** The rate limiter can represent the rate of a store.  It documents that it
    cannot represent every rate. *)
Definition accepts (B : Type) `{!RateLimit B} (rate : f64) : Prop :=
  ∀ now, is_Some (rl_NewBucketWithRate (B := B) (f64_mul rate (f64_of_Z RegionInfluence)) (limit_capacity rate) now).

(** A cluster that does not change, and whose configured balance rate the rate
    limiter can represent. *)
Record calm {B} `{!RateLimit B} (env : nat → Snapshot) : Prop := {
  calm_regions : ∀ t t' id, sn_GetRegion (env t) id = sn_GetRegion (env t') id;
  calm_limits : ∀ t, accepts B (f64_div (sn_GetStoreBalanceRate (env t)) StoreBalanceBaseTime);
}.

(** Either panics are allowed or the environment is calm. *)
Definition mode (B : Type) `{!RateLimit B} (E : go_error → Prop) (env : nat → Snapshot) : Prop :=
  calm (B := B) env ∨ ∀ msg, E (Panic msg).

(** ** What a step leaves alone *)

(** The part of an operator that never changes. *)
Definition op_fixed (o : Operator) := (op_desc o, op_regionID o, op_regionEpoch o, op_kind o, op_steps o, op_level o).

Section frame.
Context {B : Type} (E : go_error → Prop).
Implicit Types (s : OperatorController B).

Record frame s s' : Prop := {
  fr_heap : op_fixed <$> oc_heap s' = op_fixed <$> oc_heap s;
  fr_operators : operators s' = operators s;
  fr_counts : counts s' = counts s;
  fr_wop : wop s' = wop s;
  fr_wopStatus : wopStatus s' = wopStatus s;
  fr_queue : opNotifierQueue s' = opNotifierQueue s;
  fr_tick : (oc_tick s ≤ oc_tick s')%nat;
  fr_limits : dom (storesLimit s) ⊆ dom (storesLimit s');
}.

#[export] Instance frame_preorder : PreOrder frame.
Proof. split; [done|]. intros s1 s2 s3 [] []. split; (congruence || lia || set_solver). Qed.

(** Whatever its result, [m] changes nothing the invariant mentions, and its
    errors are in [E]. *)
Definition frames {A} (m : M (OperatorController B) A) : Prop :=
  ∀ s s' r, m s = (s', r) → frame s s' ∧ ∀ e, r = inl e → E e.

Lemma frames_ret {A} (a : A) : frames (mret a).
Proof. by intros s s' r [= <- <-]. Qed.

Lemma frames_bind {A A'} (m : M (OperatorController B) A) (f : A → M (OperatorController B) A') :
  frames m → (∀ a, frames (f a)) → frames (x ← m; f x).
Proof.
  intros Hm Hf s s' r. rewrite M_bind_eq.
  destruct (m s) as [s1 [e|a]] eqn:Heq; [intros [= <- <-]|intros H]; apply Hm in Heq as [E1 E2].
  - split; [done|]. intros ? [= <-]. by apply E2.
  - apply Hf in H as [H1 H2]. split; [by etrans|done].
Qed.

Lemma frames_primitive {A} (m : M (OperatorController B) A) :
  (∀ s, frame s (m s).1 ∧ ∀ e, (m s).2 = inl e → E e) → frames m.
Proof. intros Hm s s' r Heq. specialize (Hm s). by rewrite Heq in Hm. Qed.

Lemma wp_frames {A} (m : M (OperatorController B) A) s (Q : A → OperatorController B → Prop) :
  frames m → (∀ a s', frame s s' → Q a s') → wp E m s Q.
Proof.
  unfold wp. intros Hm HQ. destruct (m s) as [s' [e|a]] eqn:Heq; apply Hm in Heq as [E1 E2]; auto.
Qed.
End frame.

Create HintDb frames.
#[export] Hint Resolve frames_ret : frames.

(** Solves [frames] goals by the structure of the program. *)
Ltac frames :=
  repeat first
    [ progress eauto with frames nocore
    | apply frames_bind; [|intros ?]
    | match goal with |- frames _ (match ?x with _ => _ end) => destruct x end ].

Section primitives.
Context {B : Type} (E : go_error → Prop) (env : nat → Snapshot).

Lemma frames_get_state : frames (B := B) E OC.get.
Proof. by apply frames_primitive. Qed.
Lemma frames_read : frames (B := B) E (OC.read env).
Proof. apply frames_primitive. split; [split; cbn; [done..|lia|done]|done]. Qed.
Lemma frames_deref p : frames (B := B) E (OC.deref p).
Proof. by apply frames_primitive. Qed.
Lemma frames_set_records r : frames (B := B) E (OC.set_records r).
Proof. by apply frames_primitive. Qed.
Lemma frames_set_histories l : frames (B := B) E (OC.set_histories l).
Proof. by apply frames_primitive. Qed.
Lemma frame_set_limit id b (s : OperatorController B) : frame s (OC.set_limit id b s).1.
Proof. split; try done. cbn. rewrite dom_insert_L. set_solver. Qed.
Lemma frames_set_limit id b : frames (B := B) E (OC.set_limit id b).
Proof. apply frames_primitive. intros s. split; [apply frame_set_limit|done]. Qed.
Lemma frames_Attach id : frames (B := B) E (OC.AttachOverloadStatus id).
Proof. by apply frames_primitive. Qed.
Lemma frames_SendMsg r c : frames (B := B) E (OC.SendMsg r c).
Proof. by apply frames_primitive. Qed.
End primitives.

#[export] Hint Resolve frames_get_state frames_read frames_deref frames_set_records frames_set_histories
  frames_set_limit frames_Attach frames_SendMsg : frames.

Section frames_derived.
Context {B : Type} `{!RateLimit B} (E : go_error → Prop) (env : nat → Snapshot).
Implicit Types (s : OperatorController B) (ops : list nat) (p : nat).

Lemma frames_for_each {A} (f : A → M (OperatorController B) unit) l : (∀ x, frames E (f x)) → frames E (OC.for_each f l).
Proof. intros Hf. induction l; cbn; frames. Qed.

(** A change of an operator that keeps its fixed part. *)
Lemma frame_assign p o s : op_fixed o = op_fixed (oc_heap s !!! p) → frame s (OC.assign p o s).1.
Proof.
  intros Ho. split; try done. change (op_fixed <$> <[p := o]> (oc_heap s) = op_fixed <$> oc_heap s).
  rewrite list_fmap_insert, Ho. destruct (oc_heap s !! p) as [o'|] eqn:Hp.
  - apply list_insert_id. by rewrite list_lookup_fmap, Hp, (list_lookup_total_correct _ _ _ Hp).
  - apply list_insert_ge. rewrite length_fmap. by apply lookup_ge_None.
Qed.

Lemma Check_fixed o region now : op_fixed (Check o region now).1 = op_fixed o.
Proof.
  unfold Check. generalize (drop (op_currentStep o) (op_steps o)) as rest. generalize (op_currentStep o) as k.
  intros k rest. revert k o. induction rest as [|st rest IH]; intros k o; cbn; [done|].
  destruct (IsFinish st region); [|done]. by rewrite IH.
Qed.

Lemma frames_op_Check p region : frames (B := B) E (OC.op_Check env p region).
Proof.
  apply frames_primitive. intros s. split; [|done]. etrans; [by apply (frames_read E env s _ _ eq_refl)|].
  apply (frame_assign p _ (OC.read env s).1). apply Check_fixed.
Qed.

Lemma frames_Records_Put p st : frames (B := B) E (OC.Records_Put env p st).
Proof. unfold OC.Records_Put, OC.time_Now. frames. Qed.

Lemma frames_GetRegion id : frames (B := B) E (OC.cluster_GetRegion env id).
Proof. unfold OC.cluster_GetRegion. frames. Qed.

Lemma frames_time_Now : frames (B := B) E (OC.time_Now env).
Proof. unfold OC.time_Now. frames. Qed.

Lemma frames_range_map X : frames (B := B) E (OC.range_map env X).
Proof. unfold OC.range_map. frames. Qed.

Lemma frames_op_IsTimeout p : frames (B := B) E (OC.op_IsTimeout env p).
Proof. unfold OC.op_IsTimeout, OC.time_Now. frames. Qed.

Lemma frames_Send r st : frames (B := B) E (OC.SendScheduleCommand r st).
Proof. unfold OC.SendScheduleCommand. frames. Qed.

Hint Resolve frames_for_each frames_op_Check frames_Records_Put frames_GetRegion frames_time_Now
  frames_range_map frames_op_IsTimeout frames_Send : frames.

Lemma frames_total_influence ops m : frames (B := B) E (OC.total_influence env ops m).
Proof. revert m. induction ops; intros m; cbn; frames. Qed.

Lemma frames_checkAddOperator ops : frames (B := B) E (OC.checkAddOperator env ops).
Proof. induction ops; cbn; frames. Qed.

Lemma frames_send_first p region : frames (B := B) E (OC.send_first env p region).
Proof. unfold OC.send_first. frames. Qed.

Lemma frames_cancel_all ops : frames (B := B) E (OC.cancel_all env ops).
Proof. unfold OC.cancel_all. frames. Qed.

Lemma frames_pushHistory p : frames (B := B) E (OC.pushHistory env p).
Proof. unfold OC.pushHistory. frames. Qed.

Lemma frames_PruneHistory : frames (B := B) E (OC.PruneHistory env).
Proof.
  assert (∀ l, frames (B := B) E (OC.prune_loop env l)) by (induction l; cbn; frames).
  unfold OC.PruneHistory. frames.
Qed.

Lemma frames_GetOperators : frames (B := B) E (OC.GetOperators env).
Proof. unfold OC.GetOperators. frames. Qed.

(** The operations on buckets, where a bucket can be created. *)
Lemma frames_newStoreLimit id rate : (∀ msg, E (Panic msg)) → frames (B := B) E (OC.newStoreLimit env id rate).
Proof.
  intros Hp. unfold OC.newStoreLimit. apply frames_bind; [by frames|]. intros now.
  destruct (rl_NewBucketWithRate _ _ now) eqn:Hnew; [by frames|]. intros s s' r [= <- <-]. split; [done|]. intros e [= <-].
  by apply Hp.
Qed.

Lemma frames_SetAllStoresLimit rate : (∀ msg, E (Panic msg)) → frames (B := B) E (OC.SetAllStoresLimit env rate).
Proof. intros Hp. pose proof (λ id, frames_newStoreLimit id rate Hp). unfold OC.SetAllStoresLimit. frames. Qed.
End frames_derived.

#[export] Hint Resolve frames_for_each frames_op_Check frames_Records_Put frames_GetRegion frames_time_Now
  frames_range_map frames_op_IsTimeout frames_Send frames_total_influence frames_newStoreLimit
  frames_checkAddOperator frames_send_first frames_cancel_all frames_pushHistory
  frames_PruneHistory frames_SetAllStoresLimit frames_GetOperators : frames.

(** The operations the proofs below look into. *)
Section steps.
Context {B : Type} (E : go_error → Prop) (env : nat → Snapshot).
Implicit Types (s : OperatorController B).

Lemma wp_get {A} (f : OperatorController B → M (OperatorController B) A) s Q :
  wp E (f s) s Q → wp E (s ← OC.get; f s) s Q.
Proof. done. Qed.

Lemma wp_deref {A} p (f : Operator → M (OperatorController B) A) s Q :
  wp E (f (oc_heap s !!! p)) s Q → wp E (o ← OC.deref p; f o) s Q.
Proof. done. Qed.

Lemma wp_read {A} (f : Snapshot → M (OperatorController B) A) s Q :
  (∀ s', frame s s' → oc_heap s' = oc_heap s → storesLimit s' = storesLimit s →
    wp E (f (env (oc_tick s))) s' Q) → wp E (sn ← OC.read env; f sn) s Q.
Proof. intros HQ. apply (HQ (OC.read env s).1); [|done..]. by apply (frames_read E env s _ _ eq_refl). Qed.

Lemma wp_time_Now {A} (f : Z → M (OperatorController B) A) s Q :
  (∀ s', frame s s' → oc_heap s' = oc_heap s → storesLimit s' = storesLimit s →
    wp E (f (sn_now (env (oc_tick s)))) s' Q) → wp E (now ← OC.time_Now env; f now) s Q.
Proof. intros HQ. apply wp_bind, wp_read. intros s' Hf Hh Hl. by apply wp_ret, HQ. Qed.

Lemma wp_time_Now_records {A} (f : Z → M (OperatorController B) A) s Q :
  (∀ s', frame s s' → oc_heap s' = oc_heap s → opRecords s' = opRecords s →
    wp E (f (sn_now (env (oc_tick s)))) s' Q) → wp E (now ← OC.time_Now env; f now) s Q.
Proof. intros HQ. apply (HQ (OC.read env s).1); [|done..]. by apply (frames_read E env s _ _ eq_refl). Qed.

Lemma wp_GetRegion {A} id (f : option RegionInfo → M (OperatorController B) A) s Q :
  (∀ s', frame s s' → oc_heap s' = oc_heap s → storesLimit s' = storesLimit s → wp E (f (sn_GetRegion (env (oc_tick s)) id)) s' Q) →
  wp E (r ← OC.cluster_GetRegion env id; f r) s Q.
Proof. intros HQ. apply wp_bind, wp_read. intros s' Hf Hh Hl. by apply wp_ret, HQ. Qed.

Lemma wp_range_map {A} X (f : list Z → M (OperatorController B) A) s Q :
  (∀ s', frame s s' → oc_heap s' = oc_heap s → storesLimit s' = storesLimit s → wp E (f (sn_order (env (oc_tick s)) X)) s' Q) →
  wp E (ids ← OC.range_map env X; f ids) s Q.
Proof. intros HQ. apply wp_bind, wp_read. intros s' Hf Hh Hl. by apply wp_ret, HQ. Qed.
End steps.

(** ** The cost of operators *)

(** What a step costs on a store, and an operator for the region a view gives. *)
Definition cost_at (r : RegionInfo) (id : Z) (st : OperatorStep) : Z :=
  match st with
  | AddPeer toStore _ | AddLearner toStore _ => if toStore =? id then step_cost (GetApproximateSize r) else 0
  | _ => 0
  end.

Definition op_cost (view : Z → option RegionInfo) (o : Operator) (id : Z) : Z :=
  match view (op_regionID o) with
  | Some r => sumZ (cost_at r id) (op_steps o)
  | None => 0
  end.

Lemma step_cost_bounds size : 0 ≤ step_cost size ≤ 1000.
Proof. unfold step_cost, RegionInfluence, smallRegionInfluence. repeat case_match; lia. Qed.

Lemma cost_at_range r id st : 0 ≤ cost_at r id st ≤ 1000.
Proof. pose proof (step_cost_bounds (GetApproximateSize r)). destruct st; cbn; repeat case_match; lia. Qed.

Lemma sum_cost_range r id steps : 0 ≤ sumZ (cost_at r id) steps ≤ 1000 * Z.of_nat (length steps).
Proof.
  induction steps as [|st steps IH]; [done|]. rewrite sumZ_cons. cbn [length]. pose proof (cost_at_range r id st). lia.
Qed.

Abbreviation stepCost m id := (StepCost (GetStoreInfluence m id)).

Lemma stepCost_empty id : stepCost ∅ id = 0.
Proof. unfold GetStoreInfluence. by rewrite lookup_empty. Qed.

Lemma change_StepCost m i d id :
  stepCost (change_influence m i d) id = if i =? id then int64 (stepCost m id + StepCost d) else stepCost m id.
Proof.
  unfold change_influence, GetStoreInfluence at 1. destruct (Z.eqb_spec i id) as [->|Hne].
  - by rewrite lookup_insert_eq.
  - by rewrite lookup_insert_ne.
Qed.

Lemma change_StepCost_0 m i d id : StepCost d = 0 → - 2 ^ 63 ≤ stepCost m id < 2 ^ 63 →
  stepCost (change_influence m i d) id = stepCost m id.
Proof. intros Hd Hr. rewrite change_StepCost, Hd, Z.add_0_r, int64_small by done. by case_match. Qed.

Lemma peers_StepCost d m r id : - 2 ^ 63 ≤ stepCost m id < 2 ^ 63 → stepCost (peers_influence d m r) id = stepCost m id.
Proof.
  unfold peers_influence. generalize (GetPeers r) as ps. intros ps. revert m. induction ps as [|p ps IH]; intros m Hm; [done|].
  cbn [foldl]. rewrite IH; rewrite change_StepCost_0 by done; done.
Qed.

Lemma Influence_StepCost st m r id : 0 ≤ stepCost m id → stepCost m id + 1000 < 2 ^ 63 →
  stepCost (Influence st m r) id = stepCost m id + cost_at r id st.
Proof.
  intros H0 H1. pose proof (step_cost_bounds (GetApproximateSize r)).
  assert (Hadd : ∀ to size, stepCost (change_influence m to (mkStoreInfluence size 1 0 0 (step_cost (GetApproximateSize r)))) id =
    stepCost m id + (if to =? id then step_cost (GetApproximateSize r) else 0)).
  { intros to size. rewrite change_StepCost. destruct (to =? id); [|lia]. cbn [StepCost]. apply int64_small. lia. }
  destruct st; cbn [Influence cost_at]; rewrite ?Z.add_0_r; try apply Hadd.
  - unfold TransferLeader_Influence. rewrite !change_StepCost_0; try done; rewrite ?change_StepCost_0; (done || lia).
  - done.
  - unfold RemovePeer_Influence. rewrite change_StepCost_0; (done || lia).
  - unfold MergeRegion_Influence. destruct IsPassive; [rewrite peers_StepCost; (done || lia)|done].
  - unfold SplitRegion_Influence. rewrite peers_StepCost; (done || lia).
  - unfold AddLightPeer_Influence. rewrite change_StepCost_0; (done || lia).
  - unfold AddLightLearner_Influence. rewrite change_StepCost_0; (done || lia).
Qed.

Lemma TotalInfluence_StepCost o m r id : 0 ≤ stepCost m id → stepCost m id + 1000 * Z.of_nat (length (op_steps o)) < 2 ^ 63 →
  stepCost (TotalInfluence o m r) id = stepCost m id + sumZ (cost_at r id) (op_steps o).
Proof.
  unfold TotalInfluence. generalize (op_steps o) as steps. intros steps. revert m.
  induction steps as [|st steps IH]; intros m H0 H1; [cbn; lia|]. cbn [foldl length] in *. rewrite sumZ_cons.
  pose proof (cost_at_range r id st). rewrite IH; rewrite Influence_StepCost by lia; lia.
Qed.

Lemma sum_le_mem {A} (f : A → Z) l x : (∀ y, 0 ≤ f y) → x ∈ l → f x ≤ sumZ f l.
Proof.
  intros Hf. assert (0 ≤ sumZ f l) by (clear x; induction l as [|y l IH]; [done|]; rewrite sumZ_cons; specialize (Hf y); lia).
  induction l as [|y l IH]; intros Hx; [by apply elem_of_nil in Hx|]. rewrite sumZ_cons in *.
  pose proof (Hf y). assert (0 ≤ sumZ f l) by (clear - Hf; induction l as [|z l IH]; [done|]; rewrite sumZ_cons; specialize (Hf z); lia).
  apply elem_of_cons in Hx as [->|Hx]; [lia|]. specialize (IH ltac:(done) Hx). lia.
Qed.

Section limits.
Context {B : Type} `{!RateLimit B} (E : go_error → Prop) (env : nat → Snapshot) (Henv : ∀ t X, sn_order (env t) X ≡ₚ elements X).
Implicit Types (s : OperatorController B) (ops : list nat) (p : nat).

(** The operators of the heap have at most [maxInt32] steps ([currentStep] is an
    [int32]). *)
Definition steps_ok (h : list Operator) : Prop := ∀ p, Z.of_nat (length (op_steps (h !!! p))) < 2 ^ 31.

Definition view : Z → option RegionInfo := sn_GetRegion (env 0).

(** Every store on which the operator costs something has a bucket. *)
Definition buckets_for s p : Prop := ∀ id, op_cost view (oc_heap s !!! p) id ≠ 0 → id ∈ dom (storesLimit s).

Lemma fixed_total (h h' : list Operator) p : op_fixed <$> h' = op_fixed <$> h → op_fixed (h' !!! p) = op_fixed (h !!! p).
Proof.
  intros Heq. assert (H : (op_fixed <$> h') !! p = (op_fixed <$> h) !! p) by (by rewrite Heq). rewrite !list_lookup_fmap in H.
  rewrite !list_lookup_total_alt. destruct (h' !! p) as [o'|], (h !! p) as [o|]; try done. by apply (inj Some) in H.
Qed.

Lemma fixed_fields o o' : op_fixed o' = op_fixed o →
  op_desc o' = op_desc o ∧ op_regionID o' = op_regionID o ∧ op_kind o' = op_kind o ∧ op_level o' = op_level o ∧
  op_steps o' = op_steps o ∧ op_regionEpoch o' = op_regionEpoch o.
Proof. unfold op_fixed. by intros [= -> -> -> -> -> ->]. Qed.

Lemma op_cost_frame s s' p id : frame s s' → op_cost view (oc_heap s' !!! p) id = op_cost view (oc_heap s !!! p) id.
Proof.
  intros Hf. destruct (fixed_fields _ _ (fixed_total _ _ p (fr_heap _ _ Hf))) as (_ & Hr & _ & _ & Hs & _).
  unfold op_cost. by rewrite Hr, Hs.
Qed.

Lemma buckets_for_frame s s' p : frame s s' → buckets_for s p → buckets_for s' p.
Proof. intros Hf Hb id. rewrite (op_cost_frame s s') by done. intros Hid%Hb. by apply (fr_limits _ _ Hf). Qed.

Lemma steps_ok_frame s s' : frame s s' → steps_ok (oc_heap s) → steps_ok (oc_heap s').
Proof.
  intros Hf Hs p. destruct (fixed_fields _ _ (fixed_total _ _ p (fr_heap _ _ Hf))) as (_ & _ & _ & _ & -> & _). apply Hs.
Qed.

Lemma op_cost_range h p id : steps_ok h → 0 ≤ op_cost view (h !!! p) id ≤ 1000 * 2 ^ 31.
Proof.
  intros Hs. unfold op_cost. specialize (Hs p). destruct (view _) as [r|]; [|lia]. pose proof (sum_cost_range r id (op_steps (h !!! p))). lia.
Qed.

(** The regions as they are seen from a state on, one reading for each operator,
    and the cost of the operators for these. *)
Definition seen s (views : list (Z → option RegionInfo)) : Prop :=
  Forall (λ v, ∃ t, (oc_tick s ≤ t)%nat ∧ v = sn_GetRegion (env t)) views.
Definition costs s ops (views : list (Z → option RegionInfo)) (id : Z) : Z :=
  sumZ (λ vp, op_cost vp.1 (oc_heap s !!! vp.2) id) (zip views ops).

Lemma calm_costs s ops views id : calm (B := B) env → seen s views → length views = length ops →
  costs s ops views id = sumZ (λ p, op_cost view (oc_heap s !!! p) id) ops.
Proof.
  intros Hcalm Hv. revert ops. induction Hv as [|v views (t & _ & ->) _ IH]; intros [|p ops] Hlen; try done.
  unfold costs in *. cbn [zip zip_with]. rewrite !sumZ_cons, IH by (cbn in Hlen; lia). unfold op_cost, view. cbn.
  by rewrite (calm_regions _ Hcalm t 0).
Qed.

Lemma seen_frame s s' views : frame s s' → seen s' views → seen s views.
Proof.
  intros Hf Hv. eapply Forall_impl; [exact Hv|]. cbv beta. intros v (t & Ht & ->). exists t. split; [|done]. pose proof (fr_tick _ _ Hf). lia.
Qed.

(** The sum over the operators, as [NewTotalOpInfluence] computes it. *)
Lemma wp_total_influence ops m s : steps_ok (oc_heap s) →
  (∀ id, 0 ≤ stepCost m id ∧ stepCost m id + Z.of_nat (length ops) * (1000 * 2 ^ 31) < 2 ^ 63) →
  wp E (OC.total_influence env ops m) s (λ m' s', frame s s' ∧ storesLimit s' = storesLimit s ∧
    ∃ views, seen s views ∧ length views = length ops ∧ ∀ id, stepCost m' id = stepCost m id + costs s ops views id).
Proof.
  revert m s. induction ops as [|p ops IH]; intros m s Hs Hm; cbn [OC.total_influence].
  { apply wp_ret. split; [done|]. split; [done|]. exists []. split; [constructor|]. split; [done|]. intros id. cbn. lia. }
  apply wp_deref, wp_GetRegion. intros s1 Hf1 Hh1 Hl1. set (o := oc_heap s !!! p). pose proof (Hs p) as Hp. fold o in Hp.
  set (region := sn_GetRegion _ _).
  assert (Hcost : ∀ r id, stepCost (TotalInfluence o m r) id = stepCost m id + sumZ (cost_at r id) (op_steps o) ∧
    0 ≤ sumZ (cost_at r id) (op_steps o) ≤ 1000 * 2 ^ 31).
  { intros r id. specialize (Hm id). cbn [length] in Hm. pose proof (sum_cost_range r id (op_steps o)).
    rewrite TotalInfluence_StepCost by lia. lia. }
  eapply wp_mono; [apply IH|].
  - by rewrite Hh1.
  - intros id. specialize (Hm id). cbn [length] in Hm. destruct region as [r|]; [destruct (Hcost r id)|]; lia.
  - cbv beta. intros m' s2 (Hf2 & Hl2 & views & Hv & Hlen & Hm'). split; [by etrans|]. split; [congruence|].
    exists (sn_GetRegion (env (oc_tick s)) :: views). split; [constructor; [by exists (oc_tick s)|by apply (seen_frame s s1)]|].
    split; [cbn; lia|]. intros id. rewrite Hm'. unfold costs. cbn [zip zip_with]. rewrite sumZ_cons, Hh1. cbn [fst snd]. fold o.
    unfold op_cost at 2. fold region. destruct region as [r|]; [destruct (Hcost r id)|]; lia.
Qed.

(** *** Buckets *)

(** The bucket of a store: the one it has, or a new one with the configured rate. *)
Definition store_bucket s (id : Z) (b : B) : Prop :=
  storesLimit s !! id = Some b ∨ storesLimit s !! id = None ∧ ∃ t now, (oc_tick s ≤ t)%nat ∧
    let rate := f64_div (sn_GetStoreBalanceRate (env t)) StoreBalanceBaseTime in
    rl_NewBucketWithRate (f64_mul rate (f64_of_Z RegionInfluence)) (limit_capacity rate) now = Some b.

Definition same_limits (X : gset Z) s s' : Prop := ∀ id, id ∉ X → storesLimit s' !! id = storesLimit s !! id.

Lemma store_bucket_same s s' X id b : frame s s' → same_limits X s s' → id ∉ X → store_bucket s' id b → store_bucket s id b.
Proof.
  intros Hf Hl Hid. unfold store_bucket. rewrite Hl by done. intros [?|(? & t & now & Ht & ?)]; [by left|right].
  split; [done|]. exists t, now. pose proof (fr_tick _ _ Hf). split; [lia|done].
Qed.

Lemma wp_getOrCreate id s : mode B E env →
  wp E (OC.getOrCreateStoreLimit env id) s (λ _ s', frame s s' ∧ same_limits {[id]} s s' ∧
    ∃ b, storesLimit s' !! id = Some b ∧ store_bucket s id b).
Proof.
  intros Hmode. apply wp_get. destruct (storesLimit s !! id) as [b|] eqn:Hb.
  { apply wp_ret. split; [done|]. split; [done|]. exists b. split; [done|]. by left. }
  apply wp_read. intros s1 Hf1 _ Hl1. apply wp_bind. unfold OC.newStoreLimit. apply wp_time_Now. intros s2 Hf2 _ Hl2.
  destruct (rl_NewBucketWithRate _ _ _) as [b|] eqn:Hnew.
  - split; [|split].
    + etrans; [exact Hf1|]. etrans; [exact Hf2|]. etrans; [apply (frame_set_limit id b)|]. by split.
    + intros id' Hne%not_elem_of_singleton. cbn. rewrite lookup_insert_ne by done. congruence.
    + exists b. split; [apply lookup_insert_eq|]. right. split; [done|]. exists (oc_tick s). eexists. split; [done|exact Hnew].
  - destruct Hmode as [[_ Hl]|Hp]; [|by apply Hp]. assert (Hs : is_Some (None : option B)) by (rewrite <-Hnew; apply Hl). by destruct Hs.
Qed.

Lemma wp_limit_Available id b s : storesLimit s !! id = Some b →
  wp E (OC.limit_Available env id) s (λ a s', frame s s' ∧ same_limits {[id]} s s' ∧ id ∈ dom (storesLimit s') ∧
    a = (rl_Available b (sn_now (env (oc_tick s)))).2).
Proof.
  intros Hb. apply wp_time_Now. intros s1 Hf1 _ Hl1. apply wp_get. rewrite Hl1, Hb. apply wp_bind. split_and!; [| |cbn; rewrite dom_insert_L; set_solver|done].
  - etrans; [exact Hf1|]. apply frame_set_limit.
  - intros id' Hne%not_elem_of_singleton. cbn. rewrite lookup_insert_ne by done. by rewrite Hl1.
Qed.

Lemma same_limits_trans X X' s1 s2 s3 : same_limits X s1 s2 → same_limits X' s2 s3 → same_limits (X ∪ X') s1 s3.
Proof. intros H1 H2 id Hid. rewrite H2, H1; set_solver. Qed.

Lemma wp_exceed_loop ids m s : mode B E env → NoDup ids →
  wp E (OC.exceed_loop env ids m) s (λ b s', frame s s' ∧
    if b : bool then ∃ id b t, (oc_tick s ≤ t)%nat ∧ store_bucket s id b ∧ (rl_Available (B := B) b (sn_now (env t))).2 < stepCost m id
    else ∀ id, id ∈ ids → stepCost m id ≠ 0 → id ∈ dom (storesLimit s')).
Proof.
  intros Hmode Hnd.
  enough (Hgen : wp E (OC.exceed_loop env ids m) s (λ b s', frame s s' ∧
    if b : bool then ∃ id b t, (oc_tick s ≤ t)%nat ∧ id ∈ ids ∧ store_bucket s id b ∧ (rl_Available (B := B) b (sn_now (env t))).2 < stepCost m id
    else ∀ id, id ∈ ids → stepCost m id ≠ 0 → id ∈ dom (storesLimit s'))).
  { eapply wp_mono; [exact Hgen|]. cbv beta. intros [|] s' [Hf Hb]; (split; [done|]); [|done].
    destruct Hb as (id & b & t & ? & _ & ? & ?). by exists id, b, t. }
  revert s. induction Hnd as [|id ids Hnin Hnd IH]; intros s; cbn [OC.exceed_loop].
  { apply wp_ret. split; [done|]. by intros id ?%elem_of_nil. }
  destruct (Z.eqb_spec (stepCost m id) 0) as [H0|H0].
  { eapply wp_mono; [apply IH|]. cbv beta. intros b s' [Hf Hb]. split; [done|]. destruct b.
    - destruct Hb as (id' & bk & t & ? & ? & ? & ?). exists id', bk, t. split_and!; try done. by right.
    - intros id' [->|Hin]%elem_of_cons; [done|by apply Hb]. }
  apply wp_bind. eapply wp_mono; [by apply wp_getOrCreate|]. cbv beta. intros _ s1 (Hf1 & Hsame1 & bk & Hbk & Hbucket).
  apply wp_bind. eapply wp_mono; [by apply wp_limit_Available|]. cbv beta. intros a s2 (Hf2 & Hsame2 & Hdom & Ha).
  destruct (Z.ltb_spec a (stepCost m id)) as [Hlt|Hge].
  { apply wp_ret. split; [by etrans|]. exists id, bk, (oc_tick s1). rewrite <-Ha. split_and!; try done; [apply (fr_tick _ _ Hf1)|by left]. }
  eapply wp_mono; [apply IH|]. cbv beta. intros b s' [Hf Hb]. split; [by do 2 (etrans; [eassumption|])|]. destruct b.
  - destruct Hb as (id' & bk' & t & Ht & Hin & Hb' & Hlt). exists id', bk', t. pose proof (fr_tick _ _ Hf1). pose proof (fr_tick _ _ Hf2).
    split_and!; [lia|by right| |done].
    apply (store_bucket_same s s2 ({[id]} ∪ {[id]})); [by etrans|by eapply same_limits_trans| |done]. set_solver.
  - intros id' [->|Hin]%elem_of_cons Hne; [|by apply Hb]. by apply (fr_limits _ _ Hf).
Qed.

(** The bucket of a store holds less than the cost of the operators, for the
    regions as they are seen during the call. *)
Definition limit_exceeded s ops : Prop :=
  ∃ id b t views, (oc_tick s ≤ t)%nat ∧ store_bucket s id b ∧ seen s views ∧ length views = length ops ∧
    (rl_Available (B := B) b (sn_now (env t))).2 < costs s ops views id.

(** The limit of no store is exceeded: all the buckets the operators need exist. *)
Lemma wp_exceedStoreLimit ops s : mode B E env → steps_ok (oc_heap s) → (length ops ≤ 2)%nat →
  wp E (OC.exceedStoreLimit env ops) s (λ b s', frame s s' ∧
    (b = false → calm (B := B) env → ∀ p, p ∈ ops → buckets_for s' p) ∧ (b = true → limit_exceeded s ops)).
Proof.
  intros Hmode Hs Hlen. apply wp_bind. eapply wp_mono; [apply wp_total_influence; [done|]|].
  { intros id. rewrite stepCost_empty. lia. }
  cbv beta. intros m s1 (Hf1 & Hl1 & views & Hv & Hlv & Hm). setoid_rewrite stepCost_empty in Hm.
  apply wp_range_map. intros s2 Hf2 _ Hl2. eapply wp_mono; [apply wp_exceed_loop; [done|]|].
  { rewrite Henv. apply NoDup_elements. }
  cbv beta. intros b s3 [Hf3 Hb]. assert (Hf : frame s s3) by (by do 2 (etrans; [eassumption|])). split; [done|].
  split; intros ->.
  - intros Hcalm p Hp id. rewrite (op_cost_frame s s3) by done. intros Hne. setoid_rewrite (calm_costs s ops views) in Hm; [|done..].
    assert (Hge := sum_le_mem (λ p, op_cost view (oc_heap s !!! p) id) ops p (λ q, proj1 (op_cost_range (oc_heap s) q id Hs)) Hp).
    pose proof (op_cost_range (oc_heap s) p id Hs). specialize (Hm id). apply Hb; [|cbn in *; lia].
    rewrite Henv. apply elem_of_elements, elem_of_dom. unfold GetStoreInfluence in Hm. destruct (m !! id); [done|]. cbn in Hm, Hge. lia.
  - destruct Hb as (id & b & t & Ht & Hbk & Hlt). exists id, b, t, views. pose proof (fr_tick _ _ Hf1). pose proof (fr_tick _ _ Hf2).
    split_and!; try done; [lia| |rewrite Hm in Hlt; lia].
    apply (store_bucket_same s s2 ∅); [etrans; [exact Hf1|exact Hf2]| |set_solver|done]. intros id' _. congruence.
Qed.

(** Taking the cost does not panic where the buckets exist. *)
Lemma wp_take_costs m ids s : mode B E env → (calm (B := B) env → ∀ id, stepCost m id ≠ 0 → id ∈ dom (storesLimit s)) →
  wp E (OC.for_each (OC.take_cost env m) ids) s (λ _ s', frame s s').
Proof.
  intros Hmode. revert s. induction ids as [|id ids IH]; intros s Hb; [by apply wp_ret|]. cbn [OC.for_each]. apply wp_bind.
  eapply (wp_mono _ _ _ (λ _ s', frame s s')).
  - unfold OC.take_cost. destruct (Z.eqb_spec (stepCost m id) 0); [by apply wp_ret|]. apply wp_time_Now. intros s1 Hf1 _ Hl1.
    apply wp_get. rewrite Hl1. destruct (storesLimit s !! id) as [b|] eqn:Hid.
    + cut (frame s (OC.set_limit id (rl_Take b (sn_now (env (oc_tick s))) (stepCost m id)) s1).1); [done|].
      etrans; [exact Hf1|]. apply frame_set_limit.
    + destruct Hmode as [Hc|Hp]; [|by apply Hp]. specialize (Hb Hc id ltac:(done)). by apply not_elem_of_dom in Hid.
  - intros [] s1 Hf1. eapply wp_mono; [apply IH|by intros [] s2 Hf2; etrans].
    intros Hc id' Hne. by apply (fr_limits _ _ Hf1), Hb.
Qed.

(** *** Admission *)

Definition epoch_match (region : RegionInfo) (o : Operator) : Prop :=
  Epoch_GetVersion (GetRegionEpoch region) = Epoch_GetVersion (op_regionEpoch o) ∧
  Epoch_GetConfVer (GetRegionEpoch region) = Epoch_GetConfVer (op_regionEpoch o).

(** The region is known, with the epoch of the operator, and what runs on it has a
    lower priority. *)
Definition can_add s p : Prop :=
  let o := oc_heap s !!! p in
  (∃ t region, (oc_tick s ≤ t)%nat ∧ sn_GetRegion (env t) (op_regionID o) = Some region ∧ epoch_match region o) ∧
  ∀ old, operators s !! op_regionID o = Some old → op_level (oc_heap s !!! old) < op_level o.

Definition not_admitted s p : Prop :=
  let o := oc_heap s !!! p in
  (∃ t, (oc_tick s ≤ t)%nat ∧ ∀ region, sn_GetRegion (env t) (op_regionID o) = Some region → ¬ epoch_match region o) ∨
  ∃ old, operators s !! op_regionID o = Some old ∧ op_level o ≤ op_level (oc_heap s !!! old).

Lemma frame_op s s' p : frame s s' → op_fixed (oc_heap s' !!! p) = op_fixed (oc_heap s !!! p).
Proof. intros Hf. apply fixed_total, Hf. Qed.

Lemma epoch_match_fixed region o o' : op_fixed o' = op_fixed o → epoch_match region o' ↔ epoch_match region o.
Proof. intros (_ & _ & _ & _ & _ & He)%fixed_fields. unfold epoch_match. by rewrite He. Qed.

Lemma can_add_frame s s' p : frame s s' → can_add s' p → can_add s p.
Proof.
  intros Hf [(t & region & Ht & Hr & He) Hold]. pose proof (frame_op s s' p Hf) as Hp.
  destruct (fixed_fields _ _ Hp) as (_ & Hrid & _ & Hlev & _). rewrite Hrid in *. split.
  - exists t, region. pose proof (fr_tick _ _ Hf). split_and!; [lia|done|]. by apply (epoch_match_fixed _ _ _ Hp).
  - intros old Ho. specialize (Hold old). rewrite (fr_operators _ _ Hf), Hlev in Hold.
    destruct (fixed_fields _ _ (frame_op s s' old Hf)) as (_ & _ & _ & Hl & _). rewrite Hl in Hold. auto.
Qed.

Lemma not_admitted_frame s s' p : frame s s' → not_admitted s' p → not_admitted s p.
Proof.
  intros Hf H. pose proof (frame_op s s' p Hf) as Hp. destruct (fixed_fields _ _ Hp) as (_ & Hrid & _ & Hlev & _).
  unfold not_admitted in *. rewrite Hrid in *. destruct H as [(t & Ht & He)|(old & Ho & Hle)]; [left|right].
  - exists t. pose proof (fr_tick _ _ Hf). split; [lia|]. intros region Hr%He. by rewrite <-(epoch_match_fixed _ _ _ Hp).
  - exists old. rewrite (fr_operators _ _ Hf) in Ho. split; [done|].
    destruct (fixed_fields _ _ (frame_op s s' old Hf)) as (_ & _ & _ & Hl & _). rewrite Hl in Hle. congruence.
Qed.

Lemma wp_checkAddOperator ops s :
  wp E (OC.checkAddOperator env ops) s (λ b s', frame s s' ∧
    if b : bool then ∀ p, p ∈ ops → can_add s p else ∃ p, p ∈ ops ∧ not_admitted s p).
Proof.
  revert s. induction ops as [|p ops IH]; intros s; cbn [OC.checkAddOperator].
  { apply wp_ret. split; [done|]. by intros p ?%elem_of_nil. }
  apply wp_deref, wp_GetRegion. intros s1 Hf1 Hh1 _. set (o := oc_heap s !!! p).
  destruct (sn_GetRegion (env (oc_tick s)) (op_regionID o)) as [region|] eqn:Hr.
  2:{ apply wp_ret. split; [done|]. exists p. split; [by left|]. left. exists (oc_tick s). split; [done|]. fold o. by rewrite Hr. }
  destruct (negb _ || negb _) eqn:He.
  { apply wp_ret. split; [done|]. exists p. split; [by left|]. left. exists (oc_tick s). split; [done|]. fold o. rewrite Hr.
    intros region' [= <-] [H1 H2]. rewrite H1, H2, !Z.eqb_refl in He. done. }
  apply orb_false_iff in He as [H1%negb_false_iff%Z.eqb_eq H2%negb_false_iff%Z.eqb_eq].
  assert (Hp : ∀ old_ok : ∀ old, operators s !! op_regionID o = Some old → op_level (oc_heap s !!! old) < op_level o, can_add s p).
  { intros Hold. split; [|exact Hold]. by exists (oc_tick s), region. }
  assert (Hrest : (∀ old, operators s !! op_regionID o = Some old → op_level (oc_heap s !!! old) < op_level o) →
    wp E (OC.checkAddOperator env ops) s1 (λ b s', frame s s' ∧
      if b : bool then ∀ q, q ∈ p :: ops → can_add s q else ∃ q, q ∈ p :: ops ∧ not_admitted s q)).
  { intros Hold. eapply wp_mono; [apply IH|]. cbv beta. intros b s' [Hf Hb]. split; [by etrans|]. destruct b.
    - intros q [->|Hq]%elem_of_cons; [by apply Hp|]. eapply can_add_frame; [done|by apply Hb].
    - destruct Hb as (q & Hq & Hb). exists q. split; [by right|]. by eapply not_admitted_frame. }
  apply wp_get. rewrite (fr_operators _ _ Hf1). destruct (operators s !! op_regionID o) as [old|] eqn:Hold; [|by apply Hrest].
  apply wp_deref. rewrite Hh1. unfold isHigherPriorityOperator.
  destruct (Z.ltb_spec (op_level (oc_heap s !!! old)) (op_level o)) as [Hlt|Hge].
  - apply Hrest. by intros ? [= <-].
  - apply wp_ret. split; [done|]. exists p. split; [by left|]. right. fold o. eauto.
Qed.

Lemma wp_cannot_add ops s : mode B E env → steps_ok (oc_heap s) → (length ops ≤ 2)%nat →
  wp E (OC.cannot_add env ops) s (λ b s', frame s s' ∧
    if b : bool then limit_exceeded s ops ∨ ∃ p, p ∈ ops ∧ not_admitted s p
    else (calm (B := B) env → ∀ p, p ∈ ops → buckets_for s' p) ∧ ∀ p, p ∈ ops → can_add s p).
Proof.
  intros Hmode Hs Hlen. apply wp_bind. eapply wp_mono; [by apply wp_exceedStoreLimit|]. cbv beta.
  intros exceed s1 (Hf1 & Hb1 & Hex). destruct exceed; [apply wp_ret; split; [done|]; left; by apply Hex|].
  apply wp_bind. eapply wp_mono; [apply wp_checkAddOperator|]. cbv beta. intros ok s2 [Hf2 Hok]. apply wp_ret. split; [by etrans|].
  destruct ok; cbn [negb].
  - split; [|intros p Hp; by eapply can_add_frame, Hok]. intros Hc p Hp. eapply buckets_for_frame; [done|by apply Hb1].
  - right. destruct Hok as (p & Hp & Hn). exists p. split; [done|]. by eapply not_admitted_frame.
Qed.
End limits.

(** ** The invariant *)

Lemma uint64_add_l x y : uint64 (uint64 x + y) = uint64 (x + y).
Proof. unfold uint64. by rewrite Zplus_mod_idemp_l. Qed.

(** The description a group of waiting operators is counted under. *)
Definition desc_of (h : list Operator) (g : list nat) : string :=
  match g with
  | p :: _ => op_desc (h !!! p)
  | [] => ""
  end.

Definition count_desc (h : list Operator) (d : string) (gs : list (list nat)) : Z :=
  Z.of_nat (length (filter (λ g, desc_of h g = d) gs)).

Lemma count_desc_cons h d g gs : count_desc h d (g :: gs) = count_desc h d gs + (if decide (desc_of h g = d) then 1 else 0).
Proof. unfold count_desc. rewrite filter_cons. case_decide; cbn [length]; lia. Qed.

#[export] Instance count_desc_perm h d : Proper ((≡ₚ) ==> (=)) (count_desc h d).
Proof. intros l l' Hp. unfold count_desc. by rewrite Hp. Qed.

(** The operators of a group are in the heap. *)
Definition in_heap (h : list Operator) (g : list nat) : Prop := Forall (λ p, (p < length h)%nat) g.

(** The later heap has the operators of the earlier one, with the same fixed part. *)
Definition heap_ext (h h' : list Operator) : Prop :=
  ∀ p, (p < length h)%nat → (p < length h')%nat ∧ op_fixed (h' !!! p) = op_fixed (h !!! p).

Lemma heap_ext_same h h' : op_fixed <$> h' = op_fixed <$> h → heap_ext h h'.
Proof.
  intros Heq p Hp. split; [|by apply fixed_total]. apply (f_equal length) in Heq. rewrite !length_fmap in Heq. lia.
Qed.

Lemma heap_ext_app h l : heap_ext h (h ++ l).
Proof. intros p Hp. rewrite length_app, lookup_total_app_l by done. split; [lia|done]. Qed.

Section inv.
Context {B : Type} `{!RateLimit B}.
Implicit Types (s : OperatorController B) (p : nat) (h : list Operator).

(** The waiting operators, with [extra] the groups taken from the queues whose
    counters are not decremented yet. *)
Definition waiting_ok s (extra : list (list nat)) : Prop :=
  ∃ q1 q2 q3, refines (OC.kind_of (oc_heap s)) (wop s) q1 q2 q3 ∧
    Forall (in_heap (oc_heap s)) (extra ++ q1 ++ q2 ++ q3) ∧
    ∀ d, default 0 (wopStatus s !! d) = uint64 (count_desc (oc_heap s) d (extra ++ q1 ++ q2 ++ q3)).

Record oc_core s (extra : list (list nat)) : Prop := {
  inv_keyed : ∀ rid p, operators s !! rid = Some p → (p < length (oc_heap s))%nat ∧ op_regionID (oc_heap s !!! p) = rid;
  inv_waiting : waiting_ok s extra;
  inv_queue : heap_ok item_time (opNotifierQueue s);
  inv_items : in_heap (oc_heap s) (item_op <$> opNotifierQueue s);
  inv_steps : steps_ok (oc_heap s);
}.

Definition running_kinds s : list Z := OC.kind_of (oc_heap s) <$> (map_to_list (operators s)).*2.
Definition counts_ok s : Prop := counts s = count_kinds (running_kinds s).

Definition oc_inv s (extra : list (list nat)) : Prop := oc_core s extra ∧ counts_ok s.

Lemma kind_of_ext h h' p : heap_ext h h' → (p < length h)%nat → OC.kind_of h' p = OC.kind_of h p.
Proof. intros Hext Hp. destruct (Hext p Hp) as [_ (_ & _ & Hk & _)%fixed_fields]. done. Qed.

Lemma desc_of_ext h h' g : heap_ext h h' → in_heap h g → desc_of h' g = desc_of h g.
Proof. intros Hext [|p g' Hp _]; [done|]. by destruct (Hext p Hp) as [_ (Hd & _)%fixed_fields]. Qed.

Lemma in_heap_ext h h' g : heap_ext h h' → in_heap h g → in_heap h' g.
Proof. intros Hext Hg. eapply Forall_impl; [exact Hg|]. intros p Hp. by apply Hext. Qed.

Lemma count_desc_ext h h' d gs : heap_ext h h' → Forall (in_heap h) gs → count_desc h' d gs = count_desc h d gs.
Proof.
  intros Hext Hv. unfold count_desc. do 2 f_equal. apply filter_ext_in. intros g Hg.
  rewrite list.Forall_forall in Hv. by rewrite (desc_of_ext h h' g Hext (Hv g Hg)).
Qed.

Lemma groups_ext h h' q : heap_ext h h' → Forall (in_heap h) q →
  Forall (group (OC.kind_of h)) q → Forall (group (OC.kind_of h')) q.
Proof.
  intros Hext Hv Hg. rewrite list.Forall_forall in *. intros g Hin. specialize (Hg g Hin). specialize (Hv g Hin).
  unfold group in *. destruct g as [|p [|p' [|]]]; try done; apply Forall_cons_1 in Hv as [Hp _]; by rewrite (kind_of_ext h).
Qed.

(** The core of the invariant depends on the heap only through the fixed part. *)
Lemma oc_core_stable s s' extra : heap_ext (oc_heap s) (oc_heap s') → steps_ok (oc_heap s') → operators s' = operators s →
  wop s' = wop s → wopStatus s' = wopStatus s → opNotifierQueue s' = opNotifierQueue s → oc_core s extra → oc_core s' extra.
Proof.
  intros Hext Hst Ho Hw Hs Hq [Hk (q1 & q2 & q3 & Href & Hv & Hc) Hh Hi _]. split.
  - rewrite Ho. intros rid p Hp. destruct (Hk rid p Hp) as (Hlt & <-).
    by destruct (Hext p Hlt) as (Hlt' & (_ & Hr & _)%fixed_fields).
  - exists q1, q2, q3. split_and!.
    + destruct Href as (Heq & H1 & H2 & H3). rewrite !Forall_app in Hv. destruct Hv as (_ & Hv1 & Hv2 & Hv3).
      split; [by rewrite Hw|]. split_and!; by eapply groups_ext.
    + eapply Forall_impl; [exact Hv|]. intros g. by apply in_heap_ext.
    + intros d. rewrite Hs, Hc. by rewrite (count_desc_ext _ _ _ _ Hext Hv).
  - by rewrite Hq.
  - rewrite Hq. by eapply in_heap_ext.
  - done.
Qed.

Lemma running_kinds_ext s s' extra : heap_ext (oc_heap s) (oc_heap s') → operators s' = operators s → oc_core s extra →
  running_kinds s' = running_kinds s.
Proof.
  intros Hext Ho [Hk _ _ _]. unfold running_kinds. rewrite Ho. apply list_fmap_ext. intros i p Hp.
  apply list_elem_of_lookup_2, list_elem_of_fmap in Hp as ([rid p'] & -> & Hin%elem_of_map_to_list).
  destruct (Hk _ _ Hin). by apply kind_of_ext.
Qed.

Lemma oc_core_frame s s' extra : frame s s' → oc_core s extra → oc_core s' extra.
Proof.
  intros Hf Hc. pose proof Hf as [Hh ? _ ? ? ? _ _]. apply (oc_core_stable s); try done; [by apply heap_ext_same|].
  eapply steps_ok_frame; [done|apply Hc].
Qed.

Lemma oc_inv_stable s s' extra : heap_ext (oc_heap s) (oc_heap s') → operators s' = operators s → counts s' = counts s →
  oc_core s extra → counts_ok s → counts_ok s'.
Proof.
  intros Hext Ho Hcs Hc Hn. unfold counts_ok in *. rewrite Hcs, Hn. f_equal. symmetry. by eapply running_kinds_ext.
Qed.

Lemma oc_inv_frame s s' extra : frame s s' → oc_inv s extra → oc_inv s' extra.
Proof.
  intros Hf [Hc Hn]. split; [by eapply oc_core_frame|]. eapply oc_inv_stable; [apply heap_ext_same, Hf|apply Hf|apply Hf|done..].
Qed.
End inv.

(** ** Adding and removing *)

(** What the environment promises: the order of a map iteration is one of its
    keys, and [rand.Float64] is in [0, 1). *)
Record env_ok (env : nat → Snapshot) : Prop := {
  env_order : ∀ t X, sn_order (env t) X ≡ₚ elements X;
  env_rand : ∀ t, unit_float (sn_Float64 (env t));
}.

(** The heap keeps its fixed part, and at most [k] items due two seconds after
    some later reading of the clock join the notifier queue. *)
Record grown {B} (env : nat → Snapshot) (k : nat) (s s' : OperatorController B) : Prop := {
  gr_heap : op_fixed <$> oc_heap s' = op_fixed <$> oc_heap s;
  gr_tick : (oc_tick s ≤ oc_tick s')%nat;
  gr_limits : dom (storesLimit s) ⊆ dom (storesLimit s');
  gr_queue : ∃ new, opNotifierQueue s' ≡ₚ new ++ opNotifierQueue s ∧ (length new ≤ k)%nat ∧
    Forall (λ it, ∃ t, (oc_tick s ≤ t)%nat ∧ sn_now (env t) + fastNotifyInterval ≤ item_time it) new;
}.

Lemma grown_trans {B} env k1 k2 (s1 s2 s3 : OperatorController B) :
  grown env k1 s1 s2 → grown env k2 s2 s3 → grown env (k1 + k2) s1 s3.
Proof.
  intros [H1 T1 L1 (n1 & Q1 & N1 & F1)] [H2 T2 L2 (n2 & Q2 & N2 & F2)]. split; [congruence|lia|set_solver|].
  exists (n2 ++ n1). split_and!.
  - by rewrite Q2, Q1, app_assoc.
  - rewrite length_app. lia.
  - apply Forall_app. split; [|done]. eapply Forall_impl; [exact F2|]. intros it (t & Ht & Hn). exists t. split; [lia|done].
Qed.

Lemma grown_le {B} env k k' (s s' : OperatorController B) : (k ≤ k')%nat → grown env k s s' → grown env k' s s'.
Proof. intros Hk [H T L (n & Q & N & F)]. split; [done..|]. exists n. split_and!; [done|lia|done]. Qed.

Lemma grown_frame {B} env (s s' : OperatorController B) : frame s s' → grown env 0 s s'.
Proof. intros Hf. split; [apply Hf..|]. exists []. split_and!; [by rewrite (fr_queue _ _ Hf)|done|done]. Qed.

(** Passes an operation that changes nothing the invariant mentions. *)
Ltac wp_frame a s Hf := apply wp_bind, wp_frames; [by eauto with frames|intros a s Hf].

(** Chains [frame] hypotheses. *)
Ltac frame_trans := repeat (first [eassumption | etrans; [eassumption|]]).

Section keep.
Context {B : Type} `{!RateLimit B} (E : go_error → Prop) (env : nat → Snapshot).
Context (Henv : env_ok env) (Hmode : mode B E env).
Implicit Types (s : OperatorController B) (ops : list nat) (p : nat).

Lemma oc_core_operators s m extra : oc_core s extra →
  (∀ rid p, m !! rid = Some p → (p < length (oc_heap s))%nat ∧ op_regionID (oc_heap s !!! p) = rid) →
  oc_core (OC.set_operators m s).1 extra.
Proof. intros [_ Hw Hq Hi Hs] Hm. by split. Qed.

Lemma oc_core_delete s rid extra : oc_core s extra → oc_core (OC.set_operators (delete rid (operators s)) s).1 extra.
Proof.
  intros Hc. apply oc_core_operators; [done|]. intros r p [_ Hp]%lookup_delete_Some. by apply (inv_keyed _ _ Hc).
Qed.

Lemma oc_inv_updateCounts s extra : oc_core s extra → oc_inv (OC.updateCounts s).1 extra.
Proof. intros Hc. split; [|done]. apply (oc_core_stable s); [by apply heap_ext_same|apply Hc|done..]. Qed.

(** [removeOperatorLocked] with what it changes besides the counts. *)
Lemma wp_removeOperatorLocked p s extra : oc_core s extra →
  wp E (OC.removeOperatorLocked p) s (λ _ s', oc_inv s' extra ∧ grown env 0 s s' ∧
    operators s' = delete (op_regionID (oc_heap s !!! p)) (operators s)).
Proof.
  intros Hc. apply wp_deref, wp_get, wp_bind. split; [|split; [|done]].
  - by apply (oc_inv_updateCounts (OC.set_operators (delete (op_regionID (oc_heap s !!! p)) (operators s)) s).1), oc_core_delete.
  - split; [done..|]. by exists [].
Qed.

Lemma wp_replace_old rid s extra : oc_inv s extra →
  wp E (OC.replace_old env rid) s (λ _ s', oc_inv s' extra ∧ grown env 0 s s' ∧ operators s' = delete rid (operators s)).
Proof.
  intros Hinv. apply wp_get. destruct (operators s !! rid) as [old|] eqn:Hold.
  - wp_frame a s1 Hf. apply (oc_inv_frame _ _ _ Hf) in Hinv as Hinv1.
    eapply wp_mono; [by apply wp_removeOperatorLocked, Hinv1|]. cbv beta. intros _ s2 (Hi & Hg & Ho). split; [done|]. split.
    + by apply (grown_trans env 0 0 s s1 s2); [apply grown_frame|].
    + rewrite Ho, (fr_operators _ _ Hf). f_equal. destruct (inv_keyed _ _ (proj1 Hinv1) rid old) as [_ Hr]; [|done].
      by rewrite (fr_operators _ _ Hf).
  - apply wp_ret. split; [done|]. split; [by apply grown_frame|]. by rewrite delete_id.
Qed.

Lemma wp_queue_Push item s extra : oc_inv s extra → (item_op item < length (oc_heap s))%nat →
  wp E (OC.queue_Push item) s (λ _ s', oc_inv s' extra ∧ operators s' = operators s ∧ oc_heap s' = oc_heap s ∧
    oc_tick s' = oc_tick s ∧ storesLimit s' = storesLimit s ∧ opNotifierQueue s' ≡ₚ item :: opNotifierQueue s).
Proof.
  intros [[Hk Hw Hq Hi Hs] Hn] Hitem.
  destruct (heap_Push_spec item_time (opNotifierQueue s) item Hq) as [Hok Hperm].
  split; [|split_and!; done]. split; [|done]. split; [done..| |done].
  change (in_heap (oc_heap s) (item_op <$> heap_Push item_time (opNotifierQueue s) item)). unfold in_heap.
  rewrite Hperm. by constructor.
Qed.

Lemma next_push_time step now : now + fastNotifyInterval ≤ getNextPushOperatorTime step now.
Proof. unfold getNextPushOperatorTime, slowNotifyInterval, fastNotifyInterval, Second. repeat case_match; lia. Qed.

(** The second half of [addOperatorLocked], from the update of the counts. *)
Lemma wp_add_tail p s extra : oc_core s extra → (p < length (oc_heap s))%nat →
  wp E (_ ← OC.updateCounts; region ← OC.cluster_GetRegion env (op_regionID (oc_heap s !!! p)); step ← OC.send_first env p region;
        now ← OC.time_Now env; OC.queue_Push (mkOperatorWithTime p (getNextPushOperatorTime step now))) s
    (λ _ s', oc_inv s' extra ∧ grown env 1 s s' ∧ operators s' = operators s).
Proof.
  intros Hc Hp. apply wp_bind. apply oc_inv_updateCounts in Hc as Hinv. set (s1 := (OC.updateCounts s).1) in *.
  change (wp E OC.updateCounts s ?Q) with (Q () s1). cbv beta. wp_frame region s2 Hf2. wp_frame step s3 Hf3.
  apply wp_time_Now. intros s4 Hf4 _ _. assert (Hf : frame s1 s4) by frame_trans.
  apply (oc_inv_frame _ _ _ Hf) in Hinv.
  assert (Hlen : length (oc_heap s4) = length (oc_heap s)) by (by rewrite <-!(length_fmap op_fixed), (fr_heap _ _ Hf)).
  eapply wp_mono; [apply wp_queue_Push; [done|by rewrite Hlen]|]. cbv beta.
  intros _ s5 (Hi & Ho & Hh & Ht & Hl & Hq). split; [done|]. split; [|by rewrite Ho, (fr_operators _ _ Hf)].
  pose proof (fr_tick _ _ Hf) as Htick. split.
  - by rewrite Hh, (fr_heap _ _ Hf).
  - rewrite Ht. done.
  - rewrite Hl. apply (fr_limits _ _ Hf).
  - eexists [mkOperatorWithTime p (getNextPushOperatorTime step (sn_now (env (oc_tick s3))))].
    split; [by rewrite Hq, (fr_queue _ _ Hf)|]. split; [done|]. apply Forall_singleton.
    exists (oc_tick s3). split; [|apply next_push_time]. etrans; [apply (fr_tick _ _ Hf2)|apply (fr_tick _ _ Hf3)].
Qed.

Lemma wp_addOperatorLocked p s extra : oc_inv s extra → (p < length (oc_heap s))%nat → (calm (B := B) env → buckets_for env s p) →
  wp E (OC.addOperatorLocked env p) s (λ _ s', oc_inv s' extra ∧ grown env 1 s s' ∧
    operators s' = <[op_regionID (oc_heap s !!! p) := p]> (operators s)).
Proof.
  intros Hinv Hp Hb. apply wp_deref. cbv zeta. set (rid := op_regionID (oc_heap s !!! p)). apply wp_bind.
  eapply wp_mono; [by apply wp_replace_old|]. cbv beta. intros _ s1 ([Hc1 _] & Hg1 & Ho1).
  assert (Hlen1 : length (oc_heap s1) = length (oc_heap s)) by (by rewrite <-!(length_fmap op_fixed), (gr_heap _ _ _ _ Hg1)).
  destruct (fixed_fields _ _ (fixed_total _ _ p (gr_heap _ _ _ _ Hg1))) as (_ & Hr1 & _ & _ & Hs1 & _).
  apply wp_get, wp_bind. set (s2 := (OC.set_operators (<[rid := p]> (operators s1)) s1).1).
  assert (Hc2 : oc_core s2 extra).
  { apply oc_core_operators; [done|]. intros r q [[<- <-]|[_ Hq]]%lookup_insert_Some; [by rewrite Hr1; split; [lia|]|].
    by apply (inv_keyed _ _ Hc1). }
  change (wp E (OC.set_operators (<[rid := p]> (operators s1))) s1 ?Q) with (Q () s2). cbv beta.
  apply wp_time_Now. intros s3 Hf3 _ _. apply wp_deref, wp_bind.
  set (now := sn_now _). pose proof (frame_assign p (SetStartTime now (oc_heap s3 !!! p)) s3 eq_refl) as Hf4.
  set (s4 := (OC.assign p (SetStartTime now (oc_heap s3 !!! p)) s3).1) in *.
  change (wp E (OC.assign p (SetStartTime now (oc_heap s3 !!! p))) s3 ?Q) with (Q () s4). cbv beta.
  assert (Hf24 : frame s2 s4) by frame_trans. apply wp_bind.
  assert (Hst4 : steps_ok (oc_heap s4)) by (eapply steps_ok_frame; [done|apply Hc2]).
  eapply wp_mono; [apply wp_total_influence; [done|]|].
  { intros id. rewrite stepCost_empty. cbn [length]. lia. }
  cbv beta. intros m s5 (Hf5 & _ & views & Hviews & Hlen5 & Hm). apply wp_range_map. intros s6 Hf6 _ _. apply wp_bind.
  assert (Hf26 : frame s2 s6) by frame_trans.
  eapply wp_mono; [apply wp_take_costs; [done|]|].
  { intros Hcalm id. rewrite Hm, stepCost_empty, (calm_costs env s4 [p] views id Hcalm Hviews Hlen5). cbn [sumZ foldr]. rewrite Z.add_0_r, Z.add_0_l.
    rewrite (op_cost_frame env s2 s4) by done. intros Hne. apply (fr_limits _ _ Hf26), (gr_limits _ _ _ _ Hg1), Hb; [done|].
    unfold op_cost in *. change (oc_heap s2) with (oc_heap s1) in Hne. by rewrite Hr1, Hs1 in Hne. }
  cbv beta. intros [] s7 Hf7. assert (Hf27 : frame s2 s7) by frame_trans.
  assert (Hr7 : op_regionID (oc_heap s7 !!! p) = rid).
  { destruct (fixed_fields _ _ (frame_op s2 s7 p Hf27)) as (_ & -> & _). exact Hr1. }
  rewrite <-Hr7.
  eapply wp_mono; [apply wp_add_tail; [by eapply oc_core_frame|]|].
  { rewrite <-(length_fmap op_fixed), (fr_heap _ _ Hf27), length_fmap. change (oc_heap s2) with (oc_heap s1). lia. }
  cbv beta. intros _ s8 (Hi & Hg8 & Ho8). split; [done|]. split.
  - assert (Hg2 : grown env 0 s1 s2) by (split; [done..|]; by exists []).
    exact (grown_trans env 0 1 _ _ _ (grown_trans env 0 0 _ _ _ Hg1 Hg2) (grown_trans env 0 1 _ _ _ (grown_frame env _ _ Hf27) Hg8)).
  - rewrite Ho8, (fr_operators _ _ Hf27). cbn. by rewrite Hr7, Ho1, insert_delete_eq.
Qed.

(** The running operators after the operators of a group are added. *)
Definition adds (h : list Operator) ops (m : gmap Z nat) : gmap Z nat :=
  foldl (λ m p, <[op_regionID (h !!! p) := p]> m) m ops.

Lemma adds_fixed h h' ops m : op_fixed <$> h' = op_fixed <$> h → adds h' ops m = adds h ops m.
Proof.
  intros Hh. unfold adds. revert m. induction ops as [|p ops IH]; intros m; [done|]. cbn [foldl].
  destruct (fixed_fields _ _ (fixed_total _ _ p Hh)) as (_ & -> & _). apply IH.
Qed.

Lemma grown_length k s s' : grown env k s s' → length (oc_heap s') = length (oc_heap s).
Proof. intros Hg. by rewrite <-!(length_fmap op_fixed), (gr_heap _ _ _ _ Hg). Qed.

Lemma buckets_for_grown k s s' p : grown env k s s' → buckets_for env s p → buckets_for env s' p.
Proof.
  intros Hg Hb id. destruct (fixed_fields _ _ (fixed_total _ _ p (gr_heap _ _ _ _ Hg))) as (_ & Hr & _ & _ & Hs & _).
  unfold op_cost. rewrite Hr, Hs. intros Hid. by apply (gr_limits _ _ _ _ Hg), Hb.
Qed.

Lemma wp_adds ops s extra : oc_inv s extra → in_heap (oc_heap s) ops → (calm (B := B) env → ∀ p, p ∈ ops → buckets_for env s p) →
  wp E (OC.for_each (OC.addOperatorLocked env) ops) s (λ _ s', oc_inv s' extra ∧ grown env (length ops) s s' ∧
    operators s' = adds (oc_heap s) ops (operators s)).
Proof.
  revert s. induction ops as [|p ops IH]; intros s Hinv Hin Hb; cbn [OC.for_each].
  { apply wp_ret. split; [done|]. split; [by apply grown_frame|done]. }
  apply Forall_cons in Hin as [Hp Hin]. apply wp_bind. eapply wp_mono; [apply wp_addOperatorLocked; [done..|]|].
  { intros Hc. by apply Hb; [|left]. }
  cbv beta. intros _ s1 (Hi1 & Hg1 & Ho1). eapply wp_mono; [apply IH; [done|..]|].
  - unfold in_heap. by rewrite (grown_length _ _ _ Hg1).
  - intros Hc q Hq. eapply buckets_for_grown; [done|]. by apply Hb; [|right].
  - cbv beta. intros _ s2 (Hi2 & Hg2 & Ho2). split; [done|]. split; [exact (grown_trans _ 1 _ _ _ _ Hg1 Hg2)|].
    rewrite Ho2, Ho1, (adds_fixed _ _ _ _ (gr_heap _ _ _ _ Hg1)). done.
Qed.

(** The record of a region. *)
Definition record_of s (rid : Z) : option OperatorWithStatus := it ← ttl_items (opRecords s) !! rid; ttl_value it.

Lemma wp_cancel_all ops s : wp E (OC.cancel_all env ops) s (λ _ s', frame s s' ∧
  ∀ p, p ∈ ops → ∃ q, q ∈ ops ∧ op_regionID (oc_heap s !!! q) = op_regionID (oc_heap s !!! p) ∧
    record_of s' (op_regionID (oc_heap s !!! p)) = Some (mkOperatorWithStatus q CANCEL)).
Proof.
  assert (H : wp E (OC.cancel_all env ops) s (λ _ s', frame s s' ∧ oc_heap s' = oc_heap s ∧ ∀ rid,
    if decide (rid ∈ (λ p, op_regionID (oc_heap s !!! p)) <$> ops)
    then ∃ q, q ∈ ops ∧ op_regionID (oc_heap s !!! q) = rid ∧ record_of s' rid = Some (mkOperatorWithStatus q CANCEL)
    else record_of s' rid = record_of s rid)).
  { revert s. induction ops as [|p ops IH]; intros s; [done|]. cbn [OC.cancel_all OC.for_each]. apply wp_bind, wp_deref, wp_time_Now_records.
    intros s1 Hf1 Hh1 Hrec1. apply wp_get. set (o := oc_heap s !!! p).
    set (s2 := (OC.set_records (Ttl.Put (opRecords s1) (sn_now (env (oc_tick s))) (op_regionID o) (Some (mkOperatorWithStatus p CANCEL))) s1).1).
    assert (Hrec : ∀ rid, record_of s2 rid = if decide (rid = op_regionID o) then Some (mkOperatorWithStatus p CANCEL) else record_of s1 rid).
    { intros rid. unfold record_of, s2. cbn. case_decide as Hr; [by rewrite Hr, lookup_insert_eq|by rewrite lookup_insert_ne]. }
    assert (Hf2 : frame s s2) by (etrans; [exact Hf1|by split]). change (oc_heap s2) with (oc_heap s1) in *.
    change (wp E (OC.cancel_all env ops) s2 (λ _ s', frame s s' ∧ oc_heap s' = oc_heap s ∧ ∀ rid,
      if decide (rid ∈ (λ p, op_regionID (oc_heap s !!! p)) <$> p :: ops)
      then ∃ q, q ∈ p :: ops ∧ op_regionID (oc_heap s !!! q) = rid ∧ record_of s' rid = Some (mkOperatorWithStatus q CANCEL)
      else record_of s' rid = record_of s rid)).
    eapply wp_mono; [apply IH|]. cbv beta. change (oc_heap s2) with (oc_heap s1). rewrite Hh1. intros _ s3 (Hf3 & Hh3 & Hr3).
    split; [by etrans|]. split; [done|]. intros rid. specialize (Hr3 rid). rewrite fmap_cons.
    destruct (decide (rid ∈ (λ p, op_regionID (oc_heap s !!! p)) <$> ops)) as [Hin|Hnin].
    - destruct Hr3 as (q & Hq & Hqr & Hrec3). rewrite decide_True by (by right). exists q. split_and!; [by right|done..].
    - rewrite Hrec in Hr3. destruct (decide (rid = op_regionID o)) as [->|Hne].
      + rewrite decide_True by (by left). exists p. split_and!; [by left|done..].
      + rewrite decide_False by (by intros [?|?]%elem_of_cons). rewrite Hr3. unfold record_of. by rewrite Hrec1. }
  eapply wp_mono; [exact H|]. cbv beta. intros _ s' (Hf & _ & Hr). split; [done|]. intros p Hp.
  specialize (Hr (op_regionID (oc_heap s !!! p))). rewrite decide_True in Hr; [|apply list_elem_of_fmap; eauto].
  destruct Hr as (q & ? & ? & ?). eauto.
Qed.

Lemma wp_AddOperator ops s extra : oc_inv s extra → in_heap (oc_heap s) ops → (length ops ≤ 2)%nat →
  wp E (OC.AddOperator env ops) s (λ b s', oc_inv s' extra ∧ grown env 2 s s' ∧
    if b : bool then (∀ p, p ∈ ops → can_add env s p) ∧ operators s' = adds (oc_heap s) ops (operators s)
    else (limit_exceeded env s ops ∨ ∃ p, p ∈ ops ∧ not_admitted env s p) ∧
      frame s s' ∧ ∀ p, p ∈ ops → ∃ q, q ∈ ops ∧ op_regionID (oc_heap s !!! q) = op_regionID (oc_heap s !!! p) ∧
        record_of s' (op_regionID (oc_heap s !!! p)) = Some (mkOperatorWithStatus q CANCEL)).
Proof.
  intros Hinv Hin Hlen. apply wp_bind. eapply wp_mono; [apply wp_cannot_add; [apply Henv|done|apply Hinv|done]|]. cbv beta.
  intros refused s1 [Hf1 Hr1]. pose proof (oc_inv_frame _ _ _ Hf1 Hinv) as Hinv1. destruct refused; apply wp_bind.
  - eapply wp_mono; [apply wp_cancel_all|]. cbv beta. intros _ s2 [Hf2 Hrec]. apply wp_ret.
    assert (Hf : frame s s2) by frame_trans.
    split; [by eapply oc_inv_frame|]. split; [by apply (grown_le _ 0); [lia|apply grown_frame]|]. split; [done|]. split; [done|].
    intros p Hp. destruct (Hrec p Hp) as (q & Hq & Heq & Hr). exists q.
    destruct (fixed_fields _ _ (frame_op s s1 p Hf1)) as (_ & Hp1 & _), (fixed_fields _ _ (frame_op s s1 q Hf1)) as (_ & Hq1 & _).
    rewrite Hp1, Hq1 in *. done.
  - destruct Hr1 as [Hb Hcan]. eapply wp_mono; [apply wp_adds; [done| |done]|].
    { unfold in_heap. by rewrite <-(length_fmap op_fixed), (fr_heap _ _ Hf1), length_fmap. }
    cbv beta. intros _ s2 (Hi2 & Hg2 & Ho2). apply wp_ret. split; [done|]. split.
    + apply (grown_le _ (0 + length ops)); [lia|]. exact (grown_trans _ _ _ _ _ _ (grown_frame _ _ _ Hf1) Hg2).
    + split; [done|]. by rewrite Ho2, (adds_fixed _ _ _ _ (fr_heap _ _ Hf1)), (fr_operators _ _ Hf1).
Qed.
End keep.

(** ** Waiting operators *)

Lemma PutOperator_panic {A} (level : A → Z) op b e : PutOperator level op b = inl e → ∃ msg, e = Panic msg.
Proof. unfold PutOperator. destruct (if 0 <=? level op then _ else _); [done|]. intros [= <-]. eauto. Qed.

Section waiting.
Context {B : Type} `{!RateLimit B} (E : go_error → Prop) (env : nat → Snapshot).
Context (Henv : env_ok env) (Hmode : mode B E env).
Implicit Types (s : OperatorController B) (ops : list nat) (p : nat).

(** Only the queues of waiting operators and their counters change. *)
Lemma oc_inv_waiting s s' extra extra' : oc_inv s extra → oc_heap s' = oc_heap s → operators s' = operators s →
  counts s' = counts s → opNotifierQueue s' = opNotifierQueue s → waiting_ok s' extra' → oc_inv s' extra'.
Proof.
  intros [[Hk _ Hq Hi Hs] Hn] Hh Ho Hc Hqu Hw. split.
  - split; [by rewrite Ho, Hh|done|by rewrite Hqu|by rewrite Hqu, Hh|by rewrite Hh].
  - unfold counts_ok, running_kinds in *. by rewrite Hc, Hn, Hh, Ho.
Qed.

(** What taking from the queues keeps besides the invariant. *)
Definition keeps s s' : Prop :=
  op_fixed <$> oc_heap s' = op_fixed <$> oc_heap s ∧ operators s' = operators s ∧ opNotifierQueue s' = opNotifierQueue s ∧
  (oc_tick s ≤ oc_tick s')%nat ∧ dom (storesLimit s) ⊆ dom (storesLimit s').

Lemma keeps_frame s s' : frame s s' → keeps s s'.
Proof. by intros []. Qed.

Lemma keeps_trans s1 s2 s3 : keeps s1 s2 → keeps s2 s3 → keeps s1 s3.
Proof. intros (? & ? & ? & ? & ?) (? & ? & ? & ? & ?). split_and!; (congruence || lia || set_solver). Qed.

Lemma keeps_grown s s' : keeps s s' → grown env 0 s s'.
Proof. intros (Hh & Ho & Hq & Ht & Hl). split; [done..|]. exists []. by rewrite Hq. Qed.

Lemma wp_wop_Get s : oc_inv s [] →
  wp E (OC.wop_Get env) s (λ r s', keeps s s' ∧
    match r with
    | None => oc_inv s' [] ∧ ListOperator (wop s) = []
    | Some g => oc_inv s' [g] ∧ (length (ListOperator (wop s')) < length (ListOperator (wop s)))%nat ∧
        in_heap (oc_heap s') g ∧ (length g ≤ 2)%nat ∧ g ≠ []
    end).
Proof.
  intros Hinv. apply wp_read. intros s1 Hf _ _. apply wp_get. pose proof (env_rand _ Henv (oc_tick s)) as Hr.
  rewrite <-(fr_wop _ _ Hf). apply (oc_inv_frame _ _ _ Hf) in Hinv.
  pose proof Hinv as [[_ (q1 & q2 & q3 & Href & Hv & Hc) _ _ _] _].
  pose proof (refines_ListOperator _ _ _ _ _ Href) as HL. set (r := sn_Float64 (env (oc_tick s))) in *. clearbody r.
  assert (Hk : ∀ w, keeps s (OC.set_wop w s1).1) by (intros w; apply (keeps_trans _ s1); [by apply keeps_frame|done]).
  destruct (get_refines _ _ _ _ _ r Href Hr) as [(-> & -> & -> & Hg)|(g & b' & Hg & Hcase)]; unfold wp, lift_result; rewrite M_bind_eq, Hg; cbv iota beta;
    (split; [apply Hk|]).
  - split; [|done]. eapply oc_inv_waiting; [exact Hinv|done..|]. by exists [], [], [].
  - assert (Hw : ∃ w1 w2 w3, refines (OC.kind_of (oc_heap s1)) b' w1 w2 w3 ∧ q1 ++ q2 ++ q3 ≡ₚ g :: w1 ++ w2 ++ w3 ∧ group (OC.kind_of (oc_heap s1)) g).
    { destruct Href as (_ & H1 & H2 & H3). destruct Hcase as [(q & -> & Hq)|[(q & -> & Hq)|(q & -> & Hq)]];
        eexists _, _, _; (split; [exact Hq|]); (split; [solve_Permutation|]); by eapply Forall_inv. }
    destruct Hw as (w1 & w2 & w3 & Hp & Hperm & Hgr). cbn [app] in *. rewrite Hperm in Hv. split_and!.
    + eapply oc_inv_waiting; [exact Hinv|done..|]. exists w1, w2, w3. split; [done|]. split; [done|].
      intros d. rewrite Hc. by rewrite Hperm.
    + rewrite HL. cbn [wop OC.set_wop fst]. rewrite (refines_ListOperator _ _ _ _ _ Hp), Hperm.
      destruct (group_nonempty _ _ Hgr) as (op & g' & ->).
      change (mjoin ((op :: g') :: w1 ++ w2 ++ w3)) with ((op :: g') ++ mjoin (w1 ++ w2 ++ w3)).
      rewrite length_app. cbn [length]. lia.
    + by apply Forall_inv in Hv.
    + unfold group in Hgr. destruct g as [|? [|? [|]]]; cbn; (done || lia).
    + by intros ->.
Qed.

Lemma wp_first_desc {A} s g (f : string → M (OperatorController B) A) Q : g ≠ [] → wp E (f (desc_of (oc_heap s) g)) s Q →
  wp E (d ← OC.first_desc g; f d) s Q.
Proof. by destruct g. Qed.

(** The counter of a group taken from the queues is decremented. *)
Lemma oc_inv_decrement s g : oc_inv s [g] → oc_inv (OC.add_wopStatus (desc_of (oc_heap s) g) (-1) s).1 [].
Proof.
  intros Hinv. pose proof Hinv as [[_ (q1 & q2 & q3 & Href & Hv & Hc) _ _ _] _]. apply Forall_cons_1 in Hv as [_ Hv].
  eapply oc_inv_waiting; [exact Hinv|done..|]. exists q1, q2, q3. split; [done|]. split; [done|].
  intros d. cbn [OC.add_wopStatus fst wopStatus oc_heap app]. rewrite Hc. cbn [app] in *.
  destruct (decide (desc_of (oc_heap s) g = d)) as [<-|Hne].
  - rewrite lookup_insert_eq. cbn [default from_option id]. rewrite uint64_add_l, count_desc_cons, decide_True by done. f_equal. lia.
  - rewrite lookup_insert_ne by done. rewrite Hc. cbn [app]. rewrite count_desc_cons, decide_False by done. f_equal. lia.
Qed.

Lemma wp_promote_loop fuel s : oc_inv s [] → (length (ListOperator (wop s)) < fuel)%nat →
  wp E (OC.promote_loop env fuel) s (λ ops s', oc_inv s' [] ∧ keeps s s' ∧ (length ops ≤ 2)%nat ∧ in_heap (oc_heap s') ops ∧
    (calm (B := B) env → ∀ p, p ∈ ops → buckets_for env s' p)).
Proof.
  revert s. induction fuel as [|fuel IH]; intros s Hinv Hfuel; [lia|]. cbn [OC.promote_loop]. apply wp_bind.
  eapply wp_mono; [by apply wp_wop_Get|]. cbv beta. intros [g|] s1 [Hk1 Hs1].
  2:{ apply wp_ret. split; [apply Hs1|]. split; [done|]. split; [cbn; lia|]. split; [constructor|]. by intros _ p ?%elem_of_nil. }
  destruct Hs1 as (Hinv1 & Hlen & Hin & Hg2 & Hne). apply wp_bind. eapply wp_mono; [apply wp_cannot_add; [apply Henv|done|apply Hinv1|done]|].
  cbv beta. intros refused s2 [Hf2 Hr]. pose proof (oc_inv_frame _ _ _ Hf2 Hinv1) as Hinv2.
  assert (Hk2 : keeps s s2) by (apply (keeps_trans _ s1); [done|by apply keeps_frame]). destruct refused.
  - wp_frame a s3 Hf3. pose proof (oc_inv_frame _ _ _ Hf3 Hinv2) as Hinv3. apply wp_first_desc; [done|]. apply wp_bind.
    change (wp E (OC.add_wopStatus (desc_of (oc_heap s3) g) (-1)) s3 ?Q) with (Q () (OC.add_wopStatus (desc_of (oc_heap s3) g) (-1) s3).1).
    eapply wp_mono; [apply (IH (OC.add_wopStatus (desc_of (oc_heap s3) g) (-1) s3).1); [by apply oc_inv_decrement|]|].
    { cbn. rewrite (fr_wop _ _ Hf3), (fr_wop _ _ Hf2). lia. }
    cbv beta. intros ops s4 (Hi & Hk4 & Hrest). split; [done|]. split; [|done].
    apply (keeps_trans _ s3); [|done]. apply (keeps_trans _ s2); [done|by apply keeps_frame].
  - apply wp_first_desc; [done|]. apply wp_bind. split; [by apply oc_inv_decrement|]. split; [done|]. split; [done|].
    split; [|apply Hr]. eapply in_heap_ext; [|exact Hin]. apply heap_ext_same, Hf2.
Qed.

Lemma wp_PromoteWaitingOperator s : oc_inv s [] →
  wp E (OC.PromoteWaitingOperator env) s (λ _ s', oc_inv s' [] ∧ grown env 2 s s').
Proof.
  intros Hinv. apply wp_get, wp_bind. eapply wp_mono; [apply wp_promote_loop; [done|lia]|]. cbv beta.
  intros ops s1 (Hinv1 & Hk & Hlen & Hin & Hb). eapply wp_mono; [by apply wp_adds|]. cbv beta. intros _ s2 (Hi & Hg & _).
  split; [done|]. apply (grown_le _ (0 + length ops)); [lia|]. exact (grown_trans _ _ _ _ _ _ (keeps_grown _ _ Hk) Hg).
Qed.

(** The operators passed to [AddWaitingOperator]: one, or the two of a merge, of a
    priority in range. *)
Definition waiting_group (h : list Operator) ops : Prop :=
  group (OC.kind_of h) ops ∧ in_heap h ops ∧ ∃ l, 0 ≤ l < 3 ∧ Forall (λ p, OC.level_of h p = l) ops.

Lemma waiting_group_ext h h' ops : heap_ext h h' → waiting_group h ops → waiting_group h' ops.
Proof.
  intros Hext (Hg & Hv & l & Hl & Hlev). split_and!.
  - apply Forall_singleton. apply (groups_ext h); rewrite ?Forall_singleton; done.
  - by eapply in_heap_ext.
  - exists l. split; [done|]. unfold in_heap in Hv. rewrite list.Forall_forall in *. intros p Hp. rewrite <-(Hlev p Hp).
    by destruct (Hext p (Hv p Hp)) as [_ (_ & _ & _ & He & _)%fixed_fields].
Qed.

(** Putting the operators one by one. *)
Lemma wp_puts g s w : put_group (OC.level_of (oc_heap s)) g (wop s) = inr w →
  wp E (OC.for_each (B := B) OC.wop_Put g) s (λ _ s',
    wop s' = w ∧ oc_heap s' = oc_heap s ∧ operators s' = operators s ∧
    counts s' = counts s ∧ wopStatus s' = wopStatus s ∧ opNotifierQueue s' = opNotifierQueue s).
Proof.
  revert s. induction g as [|p g IH]; intros s; cbn [OC.for_each put_group]; [by intros [= <-]|].
  destruct (PutOperator _ p (wop s)) as [e|w1] eqn:Hput; [done|]. intros Hw. apply wp_bind, wp_get.
  unfold wp at 1, lift_result. rewrite M_bind_eq, Hput. exact (IH (OC.set_wop w1 s).1 Hw).
Qed.

(** A group joins the queues and its counter is incremented. *)
Lemma oc_inv_put s s' ops w : oc_inv s [] → waiting_group (oc_heap s) ops →
  put_group (OC.level_of (oc_heap s)) ops (wop s) = inr w →
  wop s' = w → oc_heap s' = oc_heap s → operators s' = operators s → counts s' = counts s →
  wopStatus s' = wopStatus s → opNotifierQueue s' = opNotifierQueue s →
  oc_inv (OC.add_wopStatus (desc_of (oc_heap s) ops) 1 s').1 [].
Proof.
  intros Hinv (Hgr & Hv & l & Hl & Hlev) Hput Hw Hh Ho Hc Hs Hq.
  pose proof Hinv as [[_ (q1 & q2 & q3 & Href & Hv2 & Hc2) _ _ _] _].
  destruct (put_group_refines _ _ _ _ _ _ _ _ Href Hgr Hlev Hl) as (b' & Hput' & Href').
  rewrite Hput in Hput'. injection Hput' as <-. subst w.
  eapply oc_inv_waiting; [exact Hinv|done..|]. eexists _, _, _. cbn [OC.add_wopStatus fst wop oc_heap].
  rewrite Hh. split; [exact Href'|]. cbn [app] in *.
  match goal with |- Forall _ ?l ∧ _ => assert (Hperm : l ≡ₚ ops :: q1 ++ q2 ++ q3) end.
  { assert (l = 0 ∨ l = 1 ∨ l = 2) as [-> | [-> | ->]] by lia; cbn [Z.eqb Pos.eqb]; solve_Permutation. }
  rewrite Hperm. split; [by constructor|]. intros d. rewrite Hperm, count_desc_cons.
  cbn [wopStatus]. rewrite Hs, !Hc2.
  case_decide as Heq; [subst d; rewrite lookup_insert_eq; cbn; by rewrite uint64_add_l|].
  rewrite lookup_insert_ne by done. rewrite Hc2. f_equal. lia.
Qed.

Lemma wp_AddWaitingOperator_locked ops s : oc_inv s [] → waiting_group (oc_heap s) ops →
  wp E (OC.AddWaitingOperator_locked env ops) s (λ _ s', oc_inv s' []).
Proof.
  intros Hinv Hg. wp_frame ok s1 Hf1. pose proof (oc_inv_frame _ _ _ Hf1 Hinv) as Hinv1. destruct ok; cbn [negb].
  2:{ wp_frame a s2 Hf2. by eapply oc_inv_frame. }
  apply wp_first_desc; [by destruct Hg as [? _]; destruct ops|]. apply wp_read. intros s2 Hf2 Hh2 _.
  pose proof (oc_inv_frame _ _ _ Hf2 Hinv1) as Hinv2. apply wp_get. destruct (_ <=? _); [by apply wp_ret|].
  assert (Hext : heap_ext (oc_heap s) (oc_heap s2)) by (apply heap_ext_same; by rewrite (fr_heap _ _ Hf2), (fr_heap _ _ Hf1)).
  pose proof (waiting_group_ext _ _ _ Hext Hg) as Hg2.
  replace (take 2 ops) with ops by (by destruct Hg as [Hgr _], ops as [|? [|? [|]]]).
  pose proof Hinv2 as [[_ (q1 & q2 & q3 & Href & _ & _) _ _ _] _]. pose proof Hg2 as (Hgr & _ & l & Hl & Hlev).
  destruct (put_group_refines _ _ _ _ _ _ _ _ Href Hgr Hlev Hl) as (w & Hput & _).
  apply wp_bind. eapply wp_mono; [by apply wp_puts|]. cbv beta. intros _ s3 (Hw & Hh & Ho & Hc & Hs & Hq). apply wp_bind.
  rewrite <-Hh2. exact (oc_inv_put s2 s3 ops w Hinv2 Hg2 Hput Hw Hh Ho Hc Hs Hq).
Qed.
End waiting.

(** ** Dispatch and the notifier queue *)

Section dispatch.
Context {B : Type} `{!RateLimit B} (E : go_error → Prop) (env : nat → Snapshot).
Context (Henv : env_ok env) (Hmode : mode B E env).
Implicit Types (s : OperatorController B) (p : nat).

Lemma grown_0_r k s1 s2 s3 : grown env k s1 s2 → frame s2 s3 → grown env k s1 s3.
Proof. intros H1 H2. apply (grown_le _ (k + 0)); [lia|]. exact (grown_trans _ _ _ _ _ _ H1 (grown_frame _ _ _ H2)). Qed.

Lemma grown_0_l k s1 s2 s3 : frame s1 s2 → grown env k s2 s3 → grown env k s1 s3.
Proof. intros H1 H2. exact (grown_trans _ 0 k _ _ _ (grown_frame _ _ _ H1) H2). Qed.

Lemma wp_Dispatch region s : oc_inv s [] → wp E (OC.Dispatch env region) s (λ _ s', oc_inv s' [] ∧ grown env 2 s s').
Proof.
  intros Hinv. apply wp_bind, wp_get, wp_ret. destruct (operators s !! GetID region) as [p|].
  2:{ apply wp_ret. split; [done|]. by apply (grown_le _ 0); [lia|apply grown_frame]. }
  wp_frame timeout s1 Hf1. wp_frame step s2 Hf2. assert (Hf : frame s s2) by frame_trans.
  pose proof (oc_inv_frame _ _ _ Hf Hinv) as Hinv2.
  assert (Hdone : oc_inv s2 [] ∧ grown env 2 s s2) by (split; [done|]; by apply (grown_le _ 0); [lia|apply grown_frame]).
  assert (Hend : wp E
    (o ← OC.deref p;
     if Operator_IsFinish o then
       _ ← OC.pushHistory env p; _ ← OC.Records_Put env p SUCCESS; _ ← OC.RemoveOperator p; OC.PromoteWaitingOperator env
     else if timeout : bool then
       _ ← OC.RemoveTimeoutOperator p; _ ← OC.Records_Put env p TIMEOUT; OC.PromoteWaitingOperator env
     else mret ()) s2 (λ _ s', oc_inv s' [] ∧ grown env 2 s s')).
  { apply wp_deref. destruct (Operator_IsFinish _).
    - wp_frame a s3 Hf3. wp_frame b s4 Hf4. assert (Hf' : frame s s4) by frame_trans.
      apply wp_bind. eapply wp_mono; [by apply wp_removeOperatorLocked; apply (oc_inv_frame _ _ _ Hf' Hinv)|]. cbv beta.
      intros _ s5 (Hi & Hg & _). eapply wp_mono; [by apply wp_PromoteWaitingOperator|]. cbv beta. intros _ s6 [Hi6 Hg6]. split; [done|].
      exact (grown_trans _ 0 2 _ _ _ (grown_0_l _ _ _ _ Hf' Hg) Hg6).
    - destruct timeout; [|by apply wp_ret].
      apply wp_bind. eapply wp_mono; [by apply wp_removeOperatorLocked, Hinv2|]. cbv beta. intros _ s3 (Hi & Hg & _).
      wp_frame b s4 Hf4. pose proof (oc_inv_frame _ _ _ Hf4 Hi) as Hi4.
      eapply wp_mono; [by apply wp_PromoteWaitingOperator|]. cbv beta. intros _ s5 [Hi5 Hg5]. split; [done|].
      exact (grown_trans _ 0 2 _ _ _ (grown_0_l _ _ _ _ Hf (grown_0_r _ _ _ _ Hg Hf4)) Hg5). }
  destruct step as [st|]; [|exact Hend]. destruct timeout; [exact Hend|].
  eapply wp_frames; [by eauto with frames|]. intros _ s3 Hf3. split; [by eapply oc_inv_frame|].
  eapply grown_0_r; [apply Hdone|done].
Qed.

Lemma Check_None o region now : (Check o region now).2 = None → Operator_IsFinish (Check o region now).1 = true.
Proof.
  unfold Check. assert (H : ∀ rest k o, op_currentStep o = k → rest = drop k (op_steps o) →
    (Check_loop rest k region now o).2 = None → Operator_IsFinish (Check_loop rest k region now o).1 = true).
  { intros rest. induction rest as [|st rest IH]; intros k o' Hk Hrest; cbn [Check_loop].
    - intros _. unfold Operator_IsFinish. apply Nat.leb_le. apply (f_equal length) in Hrest.
      rewrite length_drop in Hrest. cbn [fst length] in *. lia.
    - destruct (IsFinish st region); [|done]. apply IH; [done|]. cbn [op_steps set_currentStep].
      by rewrite <-Nat.add_1_r, <-drop_drop, <-Hrest. }
  by apply H.
Qed.

(** What a poll of the notifier queue does, by its result. *)
Definition poll_spec s s' (rn : option RegionInfo * bool) : Prop :=
  match rn with
  | (None, false) =>
      opNotifierQueue s' ≡ₚ opNotifierQueue s ∧
      (opNotifierQueue s = [] ∨ ∃ t, (oc_tick s ≤ t)%nat ∧ ∀ it, it ∈ opNotifierQueue s → sn_now (env t) < item_time it)
  | (None, true) =>
      ∃ item, opNotifierQueue s ≡ₚ item :: opNotifierQueue s' ∧
        let rid := op_regionID (oc_heap s !!! item_op item) in
        (operators s !! rid = None ∨ (∃ t, (oc_tick s ≤ t)%nat ∧ sn_GetRegion (env t) rid = None) ∨
         ∃ p, operators s !! rid = Some p ∧ Operator_IsFinish (oc_heap s' !!! p) = true)
  | (Some r, true) =>
      ∃ item t q time, (oc_tick s ≤ t)%nat ∧ opNotifierQueue s ≡ₚ item :: q ∧
        (∀ it, it ∈ opNotifierQueue s → item_time item ≤ item_time it) ∧ item_time item ≤ sn_now (env t) ∧
        opNotifierQueue s' ≡ₚ mkOperatorWithTime (item_op item) time :: q ∧ sn_now (env t) + fastNotifyInterval ≤ time ∧
        is_Some (operators s !! op_regionID (oc_heap s !!! item_op item))
  | (Some _, false) => False
  end.

Lemma wp_op_Check {A} p region (f : option OperatorStep → M (OperatorController B) A) s Q : (p < length (oc_heap s))%nat →
  (∀ s' step, frame s s' → (step = None → Operator_IsFinish (oc_heap s' !!! p) = true) → wp E (f step) s' Q) →
  wp E (step ← OC.op_Check env p region; f step) s Q.
Proof.
  intros Hp HQ. set (o := oc_heap s !!! p). set (now := sn_now (env (oc_tick s))).
  apply (HQ (OC.op_Check env p region s).1 (Check o region now).2).
  - by apply (frames_op_Check E env p region s _ _ eq_refl).
  - intros Hn. change (Operator_IsFinish ((<[p := (Check o region now).1]> (oc_heap s) : list Operator) !!! p) = true).
    rewrite list_lookup_total_insert_eq by done. by apply Check_None.
Qed.

(** The state after a pop. *)
Lemma oc_inv_pop s extra item q : oc_inv s extra → heap_ok item_time q → opNotifierQueue s ≡ₚ item :: q →
  oc_inv (OC.set_queue q s).1 extra ∧ (item_op item < length (oc_heap s))%nat.
Proof.
  intros [[Hk Hw Hq Hi Hs] Hn] Hok Hperm. unfold in_heap in Hi. rewrite Hperm in Hi. apply Forall_cons in Hi as [H1 H2].
  split; [|exact H1]. split; [|exact Hn]. by split.
Qed.

Lemma wp_poll s extra : oc_inv s extra →
  wp E (OC.pollNeedDispatchRegion env) s (λ rn s', oc_inv s' extra ∧ (oc_tick s ≤ oc_tick s')%nat ∧ poll_spec s s' rn).
Proof.
  intros Hinv. apply wp_get. destruct (opNotifierQueue s) as [|x l] eqn:Hqueue.
  { apply wp_ret. unfold poll_spec. rewrite Hqueue. split_and!; [done|done|done|by left]. }
  destruct (heap_Pop_spec item_time (opNotifierQueue s)) as (item & q & Hpop & Hok & Hperm & Hmin); [apply Hinv|by rewrite Hqueue|].
  destruct (oc_inv_pop s extra item q Hinv Hok Hperm) as [Hinv1 Hitem].
  apply wp_bind, wp_get. rewrite Hpop. apply wp_bind. set (s1 := (OC.set_queue q s).1) in *.
  change (wp E (OC.set_queue q) s ?Q) with (Q () s1). cbv beta. apply wp_ret, wp_deref. cbv zeta.
  change (oc_heap s1) with (oc_heap s). set (rid := op_regionID (oc_heap s !!! item_op item)). apply wp_get.
  change (operators s1) with (operators s). change (oc_heap s1) with (oc_heap s) in *. clear Hqueue x l.
  assert (Hdrop : ∀ s', frame s1 s' → (operators s !! rid = None ∨ (∃ t, (oc_tick s ≤ t)%nat ∧ sn_GetRegion (env t) rid = None) ∨
     ∃ p, operators s !! rid = Some p ∧ Operator_IsFinish (oc_heap s' !!! p) = true) →
     wp E (mret (None, true)) s' (λ rn s', oc_inv s' extra ∧ (oc_tick s ≤ oc_tick s')%nat ∧ poll_spec s s' rn)).
  { intros s' Hf Hreason. apply wp_ret. split; [by eapply oc_inv_frame|]. split; [apply Hf|]. exists item. split; [|done].
    by rewrite (fr_queue _ _ Hf). }
  destruct (operators s !! rid) as [p|] eqn:Hrun; [|by apply Hdrop; [done|left]].
  apply wp_GetRegion. intros s2 Hf2 Hh2 _. destruct (sn_GetRegion _ rid) as [r|] eqn:Hr.
  2:{ apply Hdrop; [done|]. right; left. by exists (oc_tick s). }
  apply wp_op_Check; [rewrite Hh2; by apply (inv_keyed _ _ (proj1 Hinv) rid)|]. intros s3 step Hf3 Hfin.
  assert (Hf13 : frame s1 s3) by frame_trans.
  destruct step as [st|]; [|apply Hdrop; [done|]; right; right; eauto].
  apply wp_time_Now. intros s4 Hf4 _ _. assert (Hf14 : frame s1 s4) by frame_trans.
  pose proof (oc_inv_frame _ _ _ Hf14 Hinv1) as Hinv4.
  assert (Hlen4 : (item_op item < length (oc_heap s4))%nat) by (by rewrite <-(length_fmap op_fixed), (fr_heap _ _ Hf14), length_fmap).
  assert (Ht3 : (oc_tick s ≤ oc_tick s3)%nat) by (apply Hf13). assert (Ht4 : (oc_tick s ≤ oc_tick s4)%nat) by (apply Hf14).
  destruct (Z.ltb_spec (sn_now (env (oc_tick s3))) (item_time item)) as [Hlt|Hge]; apply wp_bind;
    (eapply wp_mono; [by apply wp_queue_Push|]); cbv beta; intros _ s5 (Hi5 & _ & _ & Ht5 & _ & Hq5); apply wp_ret;
    (split; [done|]); (split; [by rewrite Ht5|]); rewrite (fr_queue _ _ Hf14) in Hq5.
  - split; [by rewrite Hq5, Hperm|]. right. exists (oc_tick s3). split; [done|]. intros it Hit. specialize (Hmin it Hit). lia.
  - eexists item, (oc_tick s3), q, _. split_and!; [done..|exact Hq5|apply next_push_time|]. fold rid. rewrite Hrun. eauto.
Qed.

(** *** [PushOperators] ends

    If the clock advances less than two seconds, an item is dispatched at most
    once: the items due before [T] are dispatched or dropped, the others, and
    those the dispatches add, only dropped. *)

Definition due (T : Z) (q : list operatorWithTime) : nat := length (filter (λ it, item_time it < T) q).
Definition push_measure (T : Z) (q : list operatorWithTime) : nat := (4 * due T q + length q)%nat.

#[local] Instance push_measure_perm T : Proper ((≡ₚ) ==> (=)) (push_measure T).
Proof. intros q q' Hq. unfold push_measure, due. by rewrite Hq. Qed.

Lemma due_app T q q' : due T (q ++ q') = (due T q + due T q')%nat.
Proof. unfold due. by rewrite filter_app, length_app. Qed.

Lemma due_later T q : Forall (λ it, T ≤ item_time it) q → due T q = 0%nat.
Proof. unfold due. induction 1 as [|it q Hit _ IH]; [done|]. rewrite filter_cons_False by lia. done. Qed.

Lemma grown_measure T k s s' : grown env k s s' → (∀ t, (oc_tick s ≤ t)%nat → T ≤ sn_now (env t) + fastNotifyInterval) →
  (push_measure T (opNotifierQueue s') ≤ push_measure T (opNotifierQueue s) + k)%nat.
Proof.
  intros [_ _ _ (new & Hq & Hlen & Hnew)] Hclock. rewrite Hq. unfold push_measure. rewrite due_app, length_app, due_later; [lia|].
  eapply Forall_impl; [exact Hnew|]. intros it (t & Ht & Hn). specialize (Hclock t Ht). cbv beta. lia.
Qed.

Lemma wp_PushOperators T fuel s : oc_inv s [] →
  (∀ t, (oc_tick s ≤ t)%nat → T - fastNotifyInterval ≤ sn_now (env t) < T) →
  (push_measure T (opNotifierQueue s) < fuel)%nat →
  wp E (OC.PushOperators env fuel) s (λ _ s', oc_inv s' []).
Proof.
  revert s. induction fuel as [|fuel IH]; intros s Hinv Hclock Hfuel; [lia|]. cbn [OC.PushOperators]. apply wp_bind.
  eapply wp_mono; [by apply wp_poll|]. cbv beta. intros [[r|] [|]] s1 (Hinv1 & Ht1 & Hspec); [|done| |by apply wp_ret].
  - destruct Hspec as (item & t & q & time & Ht & Hq & _ & Hdue & Hq1 & Htime & _).
    apply wp_bind. eapply wp_mono; [by apply wp_Dispatch|]. cbv beta. intros _ s2 [Hinv2 Hg2].
    pose proof (gr_tick _ _ _ _ Hg2) as Ht2. apply IH; [done|intros t' Ht'; apply Hclock; lia|].
    assert (Hm : (push_measure T (opNotifierQueue s2) ≤ push_measure T (opNotifierQueue s1) + 2)%nat).
    { apply grown_measure; [done|]. intros t' Ht'. specialize (Hclock t' ltac:(lia)). lia. }
    rewrite Hq1 in Hm. rewrite Hq in Hfuel. unfold push_measure, due in *. specialize (Hclock t Ht).
    rewrite filter_cons_False in Hm by (cbn; lia). rewrite filter_cons_True in Hfuel by lia. cbn [length] in *. lia.
  - destruct Hspec as (item & Hq & _). apply IH; [done|intros t' Ht'; apply Hclock; lia|].
    rewrite Hq in Hfuel. unfold push_measure, due in *. rewrite filter_cons in Hfuel. case_decide; cbn [length] in *; lia.
Qed.
End dispatch.

(** ** Counting *)

Section count.
Context (mask : Z).

Definition masked (kc : Z * Z) : Z := if Z.land kc.1 mask =? 0 then 0 else kc.2.
Definition masked_sum (m : gmap Z Z) : Z := sumZ masked (map_to_list m).

Lemma masked_sum_delete m k v : m !! k = Some v → masked_sum m = masked (k, v) + masked_sum (delete k m).
Proof. intros Hk. unfold masked_sum. by rewrite <-(map_to_list_delete m k v Hk). Qed.

Lemma masked_sum_insert m k d : uint64 (masked_sum (<[k := uint64 (default 0 (m !! k) + d)]> m)) =
  uint64 (masked_sum m + masked (k, d)).
Proof.
  assert (Hi : masked_sum (<[k := uint64 (default 0 (m !! k) + d)]> m) =
    masked (k, uint64 (default 0 (m !! k) + d)) + masked_sum (delete k m)).
  { rewrite (masked_sum_delete _ k (uint64 (default 0 (m !! k) + d))) by apply lookup_insert_eq. by rewrite delete_insert_eq. }
  rewrite Hi. assert (Hm : masked_sum m = masked (k, default 0 (m !! k)) + masked_sum (delete k m)).
  { destruct (m !! k) as [v|] eqn:E; [by apply masked_sum_delete|]. rewrite delete_id by done. unfold masked. cbn.
    destruct (_ =? 0); lia. }
  rewrite Hm. unfold masked, uint64. cbn [fst snd]. destruct (Z.land k mask =? 0); [f_equal; lia|].
  rewrite Zplus_mod_idemp_l. f_equal. lia.
Qed.

Lemma count_kinds_sum kinds :
  uint64 (masked_sum (count_kinds kinds)) = uint64 (Z.of_nat (length (filter (λ k, Z.land k mask ≠ 0) kinds))).
Proof.
  induction kinds as [|k kinds IH] using rev_ind; [done|]. unfold count_kinds in *. rewrite foldl_snoc, masked_sum_insert.
  rewrite <-uint64_add_l, IH, uint64_add_l, filter_app, length_app. unfold masked. cbn [fst snd].
  destruct (Z.eqb_spec (Z.land k mask) 0) as [H|H].
  - rewrite (filter_cons_False _ k) by tauto. f_equal. cbn. lia.
  - rewrite (filter_cons_True _ k) by done. f_equal. cbn. lia.
Qed.

Lemma count_fold l t : uint64 t = t →
  foldl (λ total '(k, count), if Z.land k mask =? 0 then total else uint64 (total + count)) t l = uint64 (t + sumZ masked l).
Proof.
  revert t. induction l as [|[k c] l IH]; intros t Ht; cbn [foldl]; [by rewrite Z.add_0_r|]. rewrite sumZ_cons. unfold masked at 1. cbn [fst snd].
  destruct (_ =? 0).
  - by rewrite IH.
  - rewrite IH by (apply uint64_small, uint64_range). rewrite uint64_add_l. f_equal. lia.
Qed.
End count.

Lemma OperatorCount_running {B} `{!RateLimit B} mask (s : OperatorController B) : counts_ok s →
  OC.OperatorCount mask s =
    (s, inr (uint64 (Z.of_nat (length (filter (λ k, Z.land k mask ≠ 0) (running_kinds s)))))).
Proof.
  intros Hc. unfold OC.OperatorCount. rewrite M_bind_eq. cbn. rewrite count_fold by done.
  rewrite Z.add_0_l, Hc. by rewrite <-count_kinds_sum.
Qed.
