(* ===== verification/OperatorControllerProps.v ===== *)
(** * Theorems on the operator controller

    The steps of the controller in any interleaving, the outcome of adding
    operators, the polling of the notifier queue, and what goes wrong when the
    cluster changes in between. *)

From S2P Require Import Prelude GoBytes Metapb Region Strconv KV Cache Operator Float WaitingOperator Heap OperatorController OperatorControllerInv.
From Corelib Require Import SpecFloat.

(** ** Interleavings

    A step is a method that holds the lock, or one of the unlocked accesses of
    [Dispatch] and [checkOperators]: progress and time of an operator, its record,
    a command.  A new operator may appear at any time. *)

Section calls.
Context {B : Type} `{!RateLimit B} (env : nat → Snapshot).
Implicit Types (s : OperatorController B) (ops : list nat) (p : nat).

(** The methods a step can run. *)
Inductive oc_method : ∀ A, M (OperatorController B) A → Prop :=
| call_read : oc_method _ (OC.read env)
| call_RemoveOperator p : oc_method _ (OC.RemoveOperator p)
| call_RemoveTimeoutOperator p : oc_method _ (OC.RemoveTimeoutOperator p)
| call_Promote : oc_method _ (OC.PromoteWaitingOperator env)
| call_Put p st : oc_method _ (OC.Records_Put env p st)
| call_Check p region : oc_method _ (OC.op_Check env p region)
| call_Send region st : oc_method _ (OC.SendScheduleCommand region st)
| call_pushHistory p : oc_method _ (OC.pushHistory env p)
| call_PruneHistory : oc_method _ (OC.PruneHistory env)
| call_SetStoreLimit id rate : oc_method _ (OC.SetStoreLimit env id rate)
| call_SetAllStoresLimit rate : oc_method _ (OC.SetAllStoresLimit env rate)
| call_poll : oc_method _ (OC.pollNeedDispatchRegion env).

Inductive oc_step s : OperatorController B → Prop :=
| step_new o : Z.of_nat (length (op_steps o)) < 2 ^ 31 → oc_step s (OC.set_heap (oc_heap s ++ [o]) s).1
| step_method A (m : M (OperatorController B) A) s' a : oc_method A m → m s = (s', inr a) → oc_step s s'
| step_AddOperator ops s' b : in_heap (oc_heap s) ops → (length ops ≤ 2)%nat →
    OC.AddOperator env ops s = (s', inr b) → oc_step s s'
| step_AddWaitingOperator ops s' b : waiting_group (oc_heap s) ops →
    OC.AddWaitingOperator_locked env ops s = (s', inr b) → oc_step s s'
| step_gc now : oc_step s (OC.set_records (Ttl.doGC_tick (opRecords s) now) s).1.

Lemma steps_ok_app h o : steps_ok h → Z.of_nat (length (op_steps o)) < 2 ^ 31 → steps_ok (h ++ [o]).
Proof.
  intros Hs Ho p. destruct (decide (p < length h)%nat) as [Hp|Hp]; [by rewrite lookup_total_app_l|].
  rewrite list_lookup_total_alt. destruct ((h ++ [o]) !! p) as [o'|] eqn:E; [|cbn; lia]. cbn.
  rewrite lookup_app_r in E by lia. destruct (p - length h)%nat; [by injection E as <-|done].
Qed.

Lemma method_inv A (m : M (OperatorController B) A) s : env_ok env → oc_method A m → oc_inv s [] →
  wp is_panic m s (λ _ s', oc_inv s' []).
Proof.
  intros Henv Hm Hinv. assert (Hp : ∀ msg, is_panic (Panic msg)) by done. assert (Hmode : mode B is_panic env) by (by right).
  assert (Hframe : ∀ A' (m' : M (OperatorController B) A'), frames is_panic m' → wp is_panic m' s (λ _ s', oc_inv s' [])).
  { intros A' m' Hf. apply wp_frames; [done|]. intros a s' Hs. by eapply oc_inv_frame. }
  destruct Hm; try (apply Hframe; by eauto with frames).
  1,2: eapply wp_mono; [by apply (wp_removeOperatorLocked _ env), Hinv|by cbv beta; intros _ s' [? _]].
  - eapply wp_mono; [by apply wp_PromoteWaitingOperator|by cbv beta; intros _ s' [? _]].
  - eapply wp_mono; [by apply wp_poll|by cbv beta; intros _ s' [? _]].
Qed.

Lemma oc_step_inv s s' : env_ok env → oc_step s s' → oc_inv s [] → oc_inv s' [].
Proof.
  intros Henv Hstep Hinv. assert (Hmode : mode B is_panic env) by (by right). destruct Hstep as [o Ho|A m s' a Hm Heq|ops s' b Hin Hlen Heq|ops s' b Hg Heq|now].
  - pose proof Hinv as [Hc Hn]. pose proof (heap_ext_app (oc_heap s) [o]) as Hext. split.
    + apply (oc_core_stable s); [done|by apply steps_ok_app; [apply Hc|]|done..].
    + by apply (oc_inv_stable s _ []).
  - eapply (wp_run _ _ _ (λ _ s', oc_inv s' [])); [by apply method_inv|exact Heq].
  - eapply (wp_run is_panic) in Heq; [|by apply (wp_AddOperator _ _ Henv Hmode ops s [])]. apply Heq.
  - eapply (wp_run is_panic) in Heq; [|by apply (wp_AddWaitingOperator_locked _ _ ops s)]. apply Heq.
  - eapply oc_inv_frame; [|exact Hinv]. by split.
Qed.

Lemma oc_inv_init : oc_inv (OC.NewOperatorController (B := B) []) [].
Proof.
  split; [|done]. split.
  - intros rid p Hp. change ((∅ : gmap Z nat) !! rid = Some p) in Hp. by rewrite lookup_empty in Hp.
  - exists [], [], []. split; [by split|]. split; [done|]. intros d. cbn. by rewrite lookup_empty.
  - intros p c _ Hc. cbn in Hc. lia.
  - constructor.
  - intros p. by destruct p.
Qed.

(** *** The methods that release the lock are sequences of steps *)

Abbreviation steps := (rtc oc_step).

Lemma wp_step {A A'} s0 s (m : M (OperatorController B) A) (f : A → M (OperatorController B) A') Q :
  oc_method A m → steps s0 s → (∀ a s', steps s0 s' → wp (λ _, True) (f a) s' Q) → wp (λ _, True) (x ← m; f x) s Q.
Proof.
  intros Hm Hs HQ. apply wp_bind. unfold wp at 1. destruct (m s) as [s' [e|a]] eqn:E; [done|]. apply HQ.
  eapply rtc_r; [exact Hs|]. by eapply step_method.
Qed.

Lemma wp_step_end {A} s0 s (m : M (OperatorController B) A) : oc_method A m → steps s0 s → wp (λ _, True) m s (λ _, steps s0).
Proof. intros Hm Hs. unfold wp. destruct (m s) as [s' [e|a]] eqn:E; [done|]. eapply rtc_r; [exact Hs|]. by eapply step_method. Qed.

Ltac step := first [eapply wp_step; [constructor|eassumption|intros ? ? ?] | by eapply wp_step_end; [constructor|]].

Lemma Dispatch_steps region s0 s : steps s0 s → wp (λ _, True) (OC.Dispatch env region) s (λ _, steps s0).
Proof.
  intros Hs. apply wp_bind, wp_get, wp_ret. destruct (operators s !! GetID region) as [p|]; [|done].
  apply wp_bind, wp_deref. unfold OC.time_Now. apply wp_bind. step. apply wp_ret, wp_ret. step.
  assert (Hend : ∀ timeout : bool, wp (λ _, True)
    (o ← OC.deref p;
     if Operator_IsFinish o then
       _ ← OC.pushHistory env p; _ ← OC.Records_Put env p SUCCESS; _ ← OC.RemoveOperator p; OC.PromoteWaitingOperator env
     else if timeout then
       _ ← OC.RemoveTimeoutOperator p; _ ← OC.Records_Put env p TIMEOUT; OC.PromoteWaitingOperator env
     else mret ()) s'0 (λ _, steps s0)).
  { intros timeout. apply wp_deref. destruct (Operator_IsFinish _); [do 4 step|]. destruct timeout; [do 3 step|done]. }
  destruct a0; [|apply Hend]. destruct (IsTimeout _ _); [apply (Hend true)|step].
Qed.

Lemma PushOperators_steps fuel s0 s : steps s0 s → wp (λ _, True) (OC.PushOperators env fuel) s (λ _, steps s0).
Proof.
  revert s. induction fuel as [|fuel IH]; intros s Hs; [done|]. cbn [OC.PushOperators]. step.
  destruct a as [[r|] [|]]; [|done|by apply IH|done].
  apply wp_bind. eapply wp_mono; [by apply Dispatch_steps|]. cbv beta. intros _ s2 Hs2. by apply IH.
Qed.

Lemma AddWaitingOperator_steps ops s : waiting_group (oc_heap s) ops →
  wp (λ _, True) (OC.AddWaitingOperator env ops) s (λ _, steps s).
Proof.
  intros Hg. apply wp_bind. unfold wp at 1. destruct (OC.AddWaitingOperator_locked env ops s) as [s1 [e|b]] eqn:E; [done|].
  assert (Hs : steps s s1) by (eapply rtc_once, step_AddWaitingOperator; eassumption). destruct b; [|by apply wp_ret]. step. by apply wp_ret.
Qed.

Lemma checkOperators_steps s0 s : steps s0 s → wp (λ _, True) (OC.checkOperators env) s (λ _, steps s0).
Proof.
  intros Hs. apply wp_bind, wp_get, wp_bind. unfold OC.range_map. step. apply wp_ret, wp_ret.
  apply (wp_for_each _ _ _ (steps s0)); [done|]. intros p s1 _ Hs1.
  apply wp_deref. unfold OC.cluster_GetRegion. apply wp_bind. step. apply wp_ret.
  destruct (sn_GetRegion _ _); [|step]. apply wp_bind, wp_deref. unfold OC.time_Now. apply wp_bind. step. apply wp_ret, wp_ret.
  destruct (IsTimeout _ _); [step|done].
Qed.
End calls.

(** ** Theorems *)

Definition reachable {B} `{!RateLimit B} (env : nat → Snapshot) : OperatorController B → Prop :=
  rtc (oc_step env) (OC.NewOperatorController []).

Lemma reachable_inv {B} `{!RateLimit B} env (s : OperatorController B) : env_ok env → reachable env s → oc_inv s [].
Proof.
  intros Henv Hr. unfold reachable in Hr. revert Hr. generalize (oc_inv_init (B := B)). generalize (OC.NewOperatorController (B := B) []).
  intros s0 H0 Hr. induction Hr as [|s0 s1 s2 Hstep _ IH]; [done|]. apply IH. by eapply oc_step_inv.
Qed.

(** A result that holds in both modes: what goes wrong is a panic, and only when
    the environment is not calm. *)
Lemma wp_modes {B A} `{!RateLimit B} env (m : M (OperatorController B) A) s (Q : A → OperatorController B → Prop) :
  (∀ E, mode B E env → wp E m s Q) → wp (λ e, is_panic e ∧ ¬ calm (B := B) env) m s Q.
Proof.
  intros H. pose proof (H is_panic ltac:(by right)) as Hp. unfold wp in *. destruct (m s) as [s' [e|a]] eqn:E; [|done].
  split; [done|]. intros Hcalm. exact (H no_error ltac:(by left)).
Qed.

Section theorems.
Context {B : Type} `{!RateLimit B} (env : nat → Snapshot).
Implicit Types (s : OperatorController B) (ops : list nat) (p : nat).

(** C17: Whatever the interleaving of the controller's methods and of the parts of
    [Dispatch] and [checkOperators] that do not hold the lock, and however the
    cluster changes: operators run under the id of their region; [OperatorCount]
    of any mask is the number of running operators with a kind in it; the waiting
    operators are whole groups (a merge with both operators), and the counter of
    each description is the number of its waiting groups; [Dispatch],
    [PushOperators] and [checkOperators] lead to such states again. *)
Theorem controller_invariant s : env_ok env → reachable env s →
  (∀ rid p, operators s !! rid = Some p → (p < length (oc_heap s))%nat ∧ op_regionID (oc_heap s !!! p) = rid) ∧
  (∀ mask, OC.OperatorCount mask s =
    (s, inr (uint64 (Z.of_nat (length (filter (λ p, Z.land (op_kind (oc_heap s !!! p)) mask ≠ 0) (map_to_list (operators s)).*2)))))) ∧
  (∃ waiting, OC.GetWaitingOperators s = (s, inr (mjoin waiting)) ∧ Forall (group (OC.kind_of (oc_heap s))) waiting ∧
    ∀ d, default 0 (wopStatus s !! d) = uint64 (count_desc (oc_heap s) d waiting)) ∧
  (∀ region fuel s', OC.Dispatch env region s = (s', inr ()) ∨ OC.PushOperators env fuel s = (s', inr ()) ∨
    OC.checkOperators env s = (s', inr ()) → reachable env s').
Proof.
  intros Henv Hr. destruct (reachable_inv env s Henv Hr) as [[Hk (q1 & q2 & q3 & Href & _ & Hc) _ _ _] Hn]. split_and!.
  - done.
  - intros mask. rewrite OperatorCount_running by done. unfold running_kinds.
    rewrite <-(filter_fmap_comm (OC.kind_of (oc_heap s)) (λ p, Z.land (op_kind (oc_heap s !!! p)) mask ≠ 0) (λ k, Z.land k mask ≠ 0)) by done.
    by rewrite length_fmap.
  - exists (q1 ++ q2 ++ q3). split_and!; [|by destruct Href as (_ & ? & ? & ?); rewrite !Forall_app|done].
    unfold OC.GetWaitingOperators. rewrite M_bind_eq. cbn [OC.get]. by rewrite (refines_ListOperator _ _ _ _ _ Href).
  - intros region fuel s' [H|[H|H]]; (refine (wp_run (λ _, True) _ s (λ _, reachable env) s' () _ H)).
    + by apply Dispatch_steps.
    + by apply PushOperators_steps.
    + by apply checkOperators_steps.
Qed.

(** C29: [AddOperator] of one or two operators, in any reachable state, adds all of
    them or none.  It adds them only if every region is known with the epoch of
    its operator and runs no operator of the same or a higher priority; what ran
    there is replaced.  It refuses only if a store's limit is exceeded or one of
    these checks fails, then nothing that runs or waits changes and the operators
    are recorded as cancelled.  A limit is exceeded if the bucket of a store, or a
    new one with the configured rate, holds less than the operators cost there.
    It does not panic if the regions do not change during the call and the rate
    limiter can represent the configured rate. *)
Theorem AddOperator_correct s ops : env_ok env → reachable env s → in_heap (oc_heap s) ops → (length ops ≤ 2)%nat →
  match OC.AddOperator env ops s with
  | (s', inr true) =>
      (∀ p, p ∈ ops → can_add env s p) ∧
      operators s' = foldl (λ m p, <[op_regionID (oc_heap s !!! p) := p]> m) (operators s) ops
  | (s', inr false) =>
      (limit_exceeded env s ops ∨ ∃ p, p ∈ ops ∧ not_admitted env s p) ∧
      operators s' = operators s ∧ counts s' = counts s ∧ wop s' = wop s ∧ opNotifierQueue s' = opNotifierQueue s ∧
      ∀ p, p ∈ ops → ∃ q, q ∈ ops ∧ op_regionID (oc_heap s !!! q) = op_regionID (oc_heap s !!! p) ∧
        record_of s' (op_regionID (oc_heap s !!! p)) = Some (mkOperatorWithStatus q CANCEL)
  | (_, inl e) => is_panic e ∧ ¬ calm (B := B) env
  end.
Proof.
  intros Henv Hr Hin Hlen. pose proof (reachable_inv env s Henv Hr) as Hinv.
  pose proof (wp_modes env (OC.AddOperator env ops) s _ (λ E Hm, wp_AddOperator E env Henv Hm ops s [] Hinv Hin Hlen)) as H.
  unfold wp in H. destruct (OC.AddOperator env ops s) as [s' [e|[]]]; [done|apply H|].
  destruct H as (_ & _ & Hreason & [] & Hrec). done.
Qed.

(** [PushOperators] ends: with a loop bound of five times the length of the
    notifier queue it returns, provided the clock does not advance by two seconds
    in the meantime, or panics because the cluster changed.  Each poll handles
    the item with the earliest time; it hands out a region only when its time has
    come, and then sets the next time at least two seconds later; an item leaves
    the queue only when its region has no operator, is unknown, or its operator is
    finished. *)
Theorem PushOperators_ends s T : env_ok env → reachable env s →
  (∀ t, (oc_tick s ≤ t)%nat → T - fastNotifyInterval ≤ sn_now (env t) < T) →
  match OC.PushOperators env (S (5 * length (opNotifierQueue s))) s with
  | (s', inr _) => reachable env s'
  | (_, inl e) => is_panic e ∧ ¬ calm (B := B) env
  end ∧
  match OC.pollNeedDispatchRegion env s with
  | (s', inr rn) => poll_spec env s s' rn
  | (_, inl e) => False
  end.
Proof.
  intros Henv Hr Hclock. pose proof (reachable_inv env s Henv Hr) as Hinv. split.
  - set (fuel := S (5 * length (opNotifierQueue s))).
    assert (Hfuel : (push_measure T (opNotifierQueue s) < fuel)%nat).
    { unfold push_measure, due, fuel. pose proof (length_filter (λ it, item_time it < T) (opNotifierQueue s)). lia. }
    pose proof (wp_modes env (OC.PushOperators env fuel) s _ (λ E Hm, wp_PushOperators E env Henv Hm T fuel s Hinv Hclock Hfuel)) as H.
    pose proof (PushOperators_steps env fuel _ s Hr) as Hs. unfold wp in *. destruct (OC.PushOperators env fuel s) as [s' [e|[]]]; done.
  - pose proof (wp_poll no_error env s [] Hinv) as H. unfold wp in H.
    destruct (OC.pollNeedDispatchRegion env s) as [s' [e|rn]]; [done|]. apply H.
Qed.

(** [GetAllStoresLimit] after a store that has a limit was removed from the cluster:
    the store is nil and [IsTombstone] panics. *)
Lemma GetAllStoresLimit_removed_store s id : env_ok env → is_Some (storesLimit s !! id) →
  (∀ t, sn_StoreTombstone (env t) id = None) →
  ∃ s', OC.GetAllStoresLimit env s = (s', inl (Panic "nil pointer dereference")).
Proof.
  intros Henv Hid Hnone. assert (H : ∀ ids ret s1, id ∈ ids →
    ∃ s', OC.stores_limit_loop env ids ret s1 = (s', inl (Panic "nil pointer dereference"))).
  { induction ids as [|x ids IH]; intros ret s1 Hin; [by apply elem_of_nil in Hin|]. cbn [OC.stores_limit_loop].
    rewrite M_bind_eq. cbn [OC.read]. rewrite M_bind_eq. cbn [OC.get storesLimit].
    destruct (decide (x = id)) as [->|Hne]; [rewrite Hnone; by eexists|]. apply elem_of_cons in Hin as [?|Hin]; [done|].
    destruct (sn_StoreTombstone _ x); [|by eexists]. destruct (storesLimit s1 !! x); [by apply IH|by eexists]. }
  unfold OC.GetAllStoresLimit. rewrite M_bind_eq. cbn [OC.get]. rewrite M_bind_eq. unfold OC.range_map. rewrite M_bind_eq.
  cbn [OC.read mret M_ret]. apply H. rewrite (env_order _ Henv). by apply elem_of_elements, elem_of_dom.
Qed.
End theorems.

(** ** Examples

    A limiter that never refills, a cluster with one region on three stores. *)

Module ControllerDemo.
#[export] Instance limiter : RateLimit Z := {
  rl_NewBucketWithRate _ capacity _ := Some capacity;
  rl_Available b _ := (b, b);
  rl_Take b _ count := b - count;
  rl_Rate _ := f64_of_Z 1000;
}.

Definition region (size leader : Z) : RegionInfo :=
  NewRegionInfo (mkRegion 1 (str "a") (str "b") (Some (mkRegionEpoch 1 1)) ((λ s, mkPeer (10 + s) s false) <$> [1; 2; 3]))
    (Some (mkPeer (10 + leader) leader false)) [SetApproximateSize size].

Definition snapshot (size leader : Z) : Snapshot :=
  mkSnapshot 0 (λ id, if id =? 1 then Some (region size leader) else None)
    (λ id, if id <=? 4 then Some false else None) 10 (f64_of_Z 15) (f64_of_Z 0) elements.

(** A cluster that does not change. *)
Definition still : nat → Snapshot := λ _, snapshot 50 1.

(** The region is empty until the third read, then it has a size. *)
Definition growing : nat → Snapshot := λ t, snapshot (if (t <? 3)%nat then 1 else 50) 1.

Definition mk_op (level : Z) (steps : list OperatorStep) : Operator :=
  SetPriorityLevel level (NewOperator "demo" 1 (Some (mkRegionEpoch 1 1)) OpRegion steps 0).

Definition add : Operator := mk_op NormalPriority [AddPeer 4 14].
Definition transfer : Operator := mk_op NormalPriority [TransferLeader 1 2].
Definition urgent : Operator := mk_op HighPriority [RemovePeer 3].

Definition with_ops (ops : list Operator) : OperatorController Z :=
  foldl (λ s o, (OC.set_heap (oc_heap s ++ [o]) s).1) (OC.NewOperatorController []) ops.

Lemma still_ok : env_ok still.
Proof. split; [done|]. by split; vm_compute. Qed.
Lemma growing_ok : env_ok growing.
Proof. split; [done|]. by split; vm_compute. Qed.

Lemma with_ops_reachable env ops : Forall (λ o, Z.of_nat (length (op_steps o)) < 2 ^ 31) ops → reachable env (with_ops ops).
Proof.
  intros Hops. unfold with_ops, reachable. assert (H : ∀ s, rtc (oc_step env) (OC.NewOperatorController []) s →
    rtc (oc_step env) (OC.NewOperatorController []) (foldl (λ s o, (OC.set_heap (oc_heap s ++ [o]) s).1) s ops)).
  { induction Hops as [|o ops Ho Hops IH]; intros s Hs; [done|]. cbn [foldl]. apply IH. eapply rtc_r; [exact Hs|]. by apply step_new. }
  by apply H.
Qed.

(** The state after a method that returns. *)
Lemma method_reachable {A} env (m : M (OperatorController Z) A) s a : reachable env s → oc_method env A m →
  snd (m s) = inr a → reachable env (fst (m s)).
Proof.
  intros Hs Hm Ha. eapply rtc_r; [exact Hs|]. eapply step_method; [exact Hm|]. rewrite <-Ha. apply surjective_pairing.
Qed.

Lemma add_reachable env p s b : reachable env s → (p < length (oc_heap s))%nat →
  snd (OC.AddOperator env [p] s) = inr b → reachable env (fst (OC.AddOperator env [p] s)).
Proof.
  intros Hs Hp Ha. eapply rtc_r; [exact Hs|]. eapply (step_AddOperator _ _ [p]); [by apply Forall_singleton|cbn; lia|].
  rewrite <-Ha. apply surjective_pairing.
Qed.

Definition s_add : OperatorController Z := with_ops [add].

Lemma s_add_reachable env : reachable env s_add.
Proof. apply with_ops_reachable. by repeat constructor. Qed.

Definition s_running : OperatorController Z := fst (OC.AddOperator still [0%nat] s_add).

Lemma s_running_reachable : reachable still s_running.
Proof. eapply add_reachable; [apply s_add_reachable|cbn; lia|vm_compute; reflexivity]. Qed.

Lemma controller_invariant_witness : operators s_running !! 1 = Some 0%nat ∧
  snd (OC.OperatorCount OpRegion s_running) = inr 1 ∧
  ∃ waiting, OC.GetWaitingOperators s_running = (s_running, inr (mjoin waiting)) ∧ Forall (group (OC.kind_of (oc_heap s_running))) waiting ∧
    ∀ d, default 0 (wopStatus s_running !! d) = uint64 (count_desc (oc_heap s_running) d waiting).
Proof.
  destruct (controller_invariant still s_running still_ok s_running_reachable) as (_ & _ & Hw & _).
  split; [vm_compute; reflexivity|]. split; [vm_compute; reflexivity|exact Hw].
Defined.

Lemma AddOperator_correct_witness : snd (OC.AddOperator still [0%nat] s_add) = inr true ∧ can_add still s_add 0 ∧
  operators (fst (OC.AddOperator still [0%nat] s_add)) !! 1 = Some 0%nat.
Proof.
  assert (Hr : snd (OC.AddOperator still [0%nat] s_add) = inr true) by (vm_compute; reflexivity). split; [exact Hr|].
  pose proof (AddOperator_correct still s_add [0%nat] still_ok (s_add_reachable still)) as H.
  destruct (OC.AddOperator still [0%nat] s_add) as [s' r]. cbn [fst snd] in *. subst r.
  destruct H as [Hc Ho]; [apply Forall_singleton; cbn; lia|cbn; lia|]. split; [apply Hc; by left|]. rewrite Ho. vm_compute. reflexivity.
Defined.

Lemma PushOperators_ends_witness : length (opNotifierQueue s_running) = 1%nat ∧
  match OC.PushOperators still (S (5 * length (opNotifierQueue s_running))) s_running with
  | (s', inr _) => reachable still s'
  | (_, inl e) => is_panic e ∧ ¬ calm (B := Z) still
  end.
Proof.
  split; [vm_compute; reflexivity|].
  assert (Hclock : ∀ t, (oc_tick s_running ≤ t)%nat → 1 - fastNotifyInterval ≤ sn_now (still t) < 1) by (intros t _; by split).
  destruct (PushOperators_ends still s_running 1 still_ok s_running_reachable Hclock) as [H _].
  exact H.
Defined.

(** The states of a [Dispatch] of operator 0, finished for the region [region 50
    2], with operator 1 added in between. *)
Definition r1 : OperatorController Z := fst (OC.AddOperator still [0%nat] (with_ops [transfer; urgent])).
Definition r2 : OperatorController Z := fst (OC.op_Check still 0%nat (region 50 2) r1).
Definition r3 : OperatorController Z := fst (OC.AddOperator still [1%nat] r2).
Definition r4 : OperatorController Z := fst (OC.pushHistory still 0%nat r3).
Definition r5 : OperatorController Z := fst (OC.Records_Put still 0%nat SUCCESS r4).
Definition r6 : OperatorController Z := fst (OC.RemoveOperator 0%nat r5).

Lemma r6_reachable : reachable still r6.
Proof.
  do 2 (eapply method_reachable; [|constructor|vm_compute; reflexivity]).
  eapply method_reachable; [|constructor|vm_compute; reflexivity].
  eapply add_reachable; [|vm_compute; lia|vm_compute; reflexivity].
  eapply method_reachable; [|constructor|vm_compute; reflexivity].
  eapply add_reachable; [|cbn; lia|vm_compute; reflexivity]. apply with_ops_reachable. by repeat constructor.
Qed.

(** Two calls that overlap a change.  [AddOperator] panics when the region of
    the operator gets a size between the check of the store limits and the use of
    the limit: the bucket of the target store does not exist.  And an operator
    that replaces another while [Dispatch] has found that one finished is removed
    in its place: it is not finished, does not run any more, and the record of its
    region is the success of the other. *)
Theorem controller_races :
  (env_ok growing ∧ reachable growing s_add ∧
   ∃ s', OC.AddOperator growing [0%nat] s_add = (s', inl (Panic "nil pointer dereference"))) ∧
  (operators r3 !! 1 = Some 1%nat ∧ reachable still r6 ∧
   operators r6 !! 1 = None ∧ Operator_IsFinish (oc_heap r6 !!! 1%nat) = false ∧
   record_of r6 1 = Some (mkOperatorWithStatus 0 SUCCESS)).
Proof.
  split.
  - split; [apply growing_ok|]. split; [apply s_add_reachable|].
    exists (fst (OC.AddOperator growing [0%nat] s_add)).
    assert (H : snd (OC.AddOperator growing [0%nat] s_add) = inl (Panic "nil pointer dereference")) by (vm_compute; reflexivity).
    rewrite <-H. apply surjective_pairing.
  - split; [vm_compute; reflexivity|]. split; [apply r6_reachable|]. split_and!; vm_compute; reflexivity.
Qed.
End ControllerDemo.
