(* ===== verification/Strings.v ===== *)
(** * Unicode strings: [utf8.DecodeRuneInString] and [strings.EqualFold]

    Store labels are compared with [strings.EqualFold].  A string is decoded
    rune by rune, an ill-formed byte being U+FFFD of width one.  The case
    folding data of package [unicode] is generated from the Unicode tables: its
    entry point [unicode.SimpleFold] is a parameter, with the documentation of
    the function as laws. *)

From S2P Require Import Prelude GoBytes Strconv.

(** ** UTF-8 *)

Definition RuneError : Z := 65533.
Definition RuneSelf : Z := 128.

(** The table [first] and its [acceptRanges]: the width of the sequence a
    byte starts and the range its second byte lies in. *)
Definition utf8_first (b : Z) : option (nat * (Z * Z)) :=
  if b <? 194 then None
  else if b <=? 223 then Some (2%nat, (128, 191))
  else if b =? 224 then Some (3%nat, (160, 191))
  else if b =? 237 then Some (3%nat, (128, 159))
  else if b <=? 239 then Some (3%nat, (128, 191))
  else if b =? 240 then Some (4%nat, (144, 191))
  else if b <=? 243 then Some (4%nat, (128, 191))
  else if b =? 244 then Some (4%nat, (128, 143))
  else None.

Definition continuation (b : Z) : bool := (128 <=? b) && (b <=? 191).

(** The first rune of a non-empty string and the rest. *)
Definition DecodeRune (b0 : Byte.byte) (s : bytes) : Z * bytes :=
  let v := byte_val in
  let low (b : Byte.byte) := Z.land (v b) 63 in
  if v b0 <? RuneSelf then (v b0, s)
  else
    match utf8_first (v b0), s with
    | Some (n, (lo, hi)), b1 :: s1 =>
        if negb ((lo <=? v b1) && (v b1 <=? hi)) then (RuneError, s)
        else
          match n, s1 with
          | 2%nat, _ => (Z.lor (Z.shiftl (Z.land (v b0) 31) 6) (low b1), s1)
          | 3%nat, b2 :: s2 =>
              if continuation (v b2)
              then (Z.lor (Z.shiftl (Z.land (v b0) 15) 12) (Z.lor (Z.shiftl (low b1) 6) (low b2)), s2)
              else (RuneError, s)
          | 4%nat, b2 :: b3 :: s3 =>
              if continuation (v b2) && continuation (v b3)
              then (Z.lor (Z.shiftl (Z.land (v b0) 7) 18)
                      (Z.lor (Z.shiftl (low b1) 12) (Z.lor (Z.shiftl (low b2) 6) (low b3))), s3)
              else (RuneError, s)
          | _, _ => (RuneError, s)
          end
    | _, _ => (RuneError, s)
    end.

Fixpoint runes_loop (fuel : nat) (s : bytes) : list Z :=
  match fuel, s with
  | S fuel, b :: s => let '(r, s) := DecodeRune b s in r :: runes_loop fuel s
  | _, _ => []
  end.

(** The runes of a string.  Each takes at least a byte, so the length of the
    string is fuel enough. *)
Definition runes (s : bytes) : list Z := runes_loop (length s) s.

(** ** Case folding *)

Class Unicode := { SimpleFold : Z → Z }.

(** Among the code points equivalent to [r], [SimpleFold r] is the smallest one
    greater than [r] if there is one, or else the smallest one. *)
Class UnicodeLaws `{!Unicode} := {
  fold_equiv : Z → Z → Prop;
  fold_equiv_equivalence :: Equivalence fold_equiv;
  SimpleFold_equiv r : fold_equiv r (SimpleFold r);
  SimpleFold_next r r' : fold_equiv r r' → r < r' → r < SimpleFold r ≤ r';
  SimpleFold_wrap r r' : fold_equiv r r' → SimpleFold r ≤ r → SimpleFold r ≤ r';
  fold_ascii a b : 0 ≤ a < b → b < 128 → fold_equiv a b ↔ 65 ≤ a ≤ 90 ∧ b = a + 32;
}.

Section fold.
Context `{!Unicode}.

(** [for r != sr && r < tr { r = unicode.SimpleFold(r) }]: the runes of a class
    grow until they wrap around, so [tr - sr] rounds are enough. *)
Fixpoint fold_loop (fuel : nat) (sr r tr : Z) : Z :=
  match fuel with
  | O => r
  | S fuel => if negb (r =? sr) && (r <? tr) then fold_loop fuel sr (SimpleFold r) tr else r
  end.

Definition rune_EqualFold (sr tr : Z) : bool :=
  if tr =? sr then true
  else
    let '(sr, tr) := if tr <? sr then (tr, sr) else (sr, tr) in
    if tr <? RuneSelf then (65 <=? sr) && (sr <=? 90) && (tr =? sr + 97 - 65)
    else fold_loop (Z.to_nat (tr - sr)) sr (SimpleFold sr) tr =? tr.

Fixpoint runes_EqualFold (s t : list Z) : bool :=
  match s, t with
  | sr :: s, tr :: t => if rune_EqualFold sr tr then runes_EqualFold s t else false
  | [], [] => true
  | _, _ => false
  end.

(** [strings.EqualFold] *)
Definition EqualFold (s t : bytes) : bool := runes_EqualFold (runes s) (runes t).
End fold.

(** ** [EqualFold] is an equivalence *)

Lemma DecodeRune_range b s : 0 ≤ (DecodeRune b s).1.
Proof.
  pose proof (byte_val_range b).
  unfold DecodeRune, RuneError; repeat case_match; cbn; try lia.
  all: rewrite ?Z.lor_nonneg, ?Z.shiftl_nonneg, ?Z.land_nonneg; lia.
Qed.

Lemma runes_range s : Forall (λ r, 0 ≤ r) (runes s).
Proof.
  unfold runes. generalize (length s) as n. intros n. revert s.
  induction n as [|n IH]; intros [|b s]; cbn; try by constructor.
  pose proof (DecodeRune_range b s). destruct (DecodeRune b s) as [r s']; cbn in *. by constructor.
Qed.

Section fold_laws.
Context `{!Unicode, !UnicodeLaws}.

Lemma fold_loop_class fuel sr r tr : fold_equiv sr r → fold_equiv sr (fold_loop fuel sr r tr).
Proof.
  revert r. induction fuel as [|fuel IH]; intros r Hr; cbn; [done|].
  case_match; [|done]. apply IH. by rewrite Hr at 1; apply SimpleFold_equiv.
Qed.

Lemma fold_loop_reaches fuel sr r tr : fold_equiv sr tr → fold_equiv sr r → sr < r ≤ tr →
  tr - r ≤ Z.of_nat fuel → fold_loop fuel sr r tr = tr.
Proof.
  revert r. induction fuel as [|fuel IH]; intros r Htr Hr Hle Hfuel; cbn; [lia|].
  destruct (Z.eqb_spec r sr); [lia|]. destruct (Z.ltb_spec r tr); cbn; [|lia].
  assert (fold_equiv r tr) as Hrt by by rewrite <- Hr.
  pose proof (SimpleFold_next r tr Hrt ltac:(lia)).
  apply IH; [done|by rewrite Hr at 1; apply SimpleFold_equiv|lia|lia].
Qed.

Lemma rune_EqualFold_spec sr tr : 0 ≤ sr → 0 ≤ tr → rune_EqualFold sr tr = true ↔ fold_equiv sr tr.
Proof.
  intros Hs Ht. unfold rune_EqualFold. destruct (Z.eqb_spec tr sr) as [->|Hne]; [done|].
  assert (∀ a b, 0 ≤ a < b →
    (if b <? RuneSelf then (65 <=? a) && (a <=? 90) && (b =? a + 97 - 65)
     else fold_loop (Z.to_nat (b - a)) a (SimpleFold a) b =? b) = true ↔ fold_equiv a b) as Hlt.
  { intros a b Hab. unfold RuneSelf. destruct (Z.ltb_spec b 128).
    - rewrite fold_ascii by lia. rewrite !andb_true_iff. lia.
    - rewrite Z.eqb_eq. split.
      + intros <-. apply fold_loop_class, SimpleFold_equiv.
      + intros Heq. pose proof (SimpleFold_next a b Heq).
        apply fold_loop_reaches; [done|apply SimpleFold_equiv|lia|lia]. }
  destruct (Z.ltb_spec tr sr); rewrite Hlt by lia; [|done]. by split; symmetry.
Qed.

Lemma EqualFold_spec s t : EqualFold s t = true ↔ Forall2 fold_equiv (runes s) (runes t).
Proof.
  unfold EqualFold. generalize (runes_range s) (runes_range t). generalize (runes s) (runes t).
  induction l as [|a l IH]; intros [|b l'] Hl Hl'; cbn; try by (split; [done|inversion 1]).
  inversion Hl; inversion Hl'; subst. rewrite Forall2_cons.
  rewrite <- (rune_EqualFold_spec a b), <- IH by done. by destruct (rune_EqualFold a b); naive_solver.
Qed.

(** Case-insensitive equality of strings. *)
Definition fold_eq (s t : bytes) : Prop := EqualFold s t = true.

#[export] Instance fold_eq_equivalence : Equivalence fold_eq.
Proof.
  unfold fold_eq. split.
  - intros s. rewrite EqualFold_spec. reflexivity.
  - intros s t. rewrite !EqualFold_spec. apply symmetry.
  - intros s t u. rewrite !EqualFold_spec. apply transitivity.
Qed.

#[export] Instance EqualFold_proper : Proper (fold_eq ==> fold_eq ==> eq) EqualFold.
Proof.
  intros s s' Hs t t' Ht. apply eq_true_iff_eq.
  change (fold_eq s t ↔ fold_eq s' t'). by rewrite Hs, Ht.
Qed.
End fold_laws.

(** ** The folding of the Latin letters *)

(** The classes of the ASCII letters, with the Kelvin sign in the class of [k] and
    the long [s] in the class of [s]; no other rune folds. *)
Module Latin.
Definition fold (r : Z) : Z :=
  if r =? 107 then 8490 else if r =? 8490 then 75
  else if r =? 115 then 383 else if r =? 383 then 83
  else if (65 <=? r) && (r <=? 90) then r + 32
  else if (97 <=? r) && (r <=? 122) then r - 32
  else r.

Definition canon (r : Z) : Z :=
  if r =? 8490 then 75 else if r =? 383 then 83
  else if (97 <=? r) && (r <=? 122) then r - 32 else r.

#[export] Instance latin : Unicode := { SimpleFold := fold }.

Ltac latin_cases :=
  repeat match goal with
  | |- context [?a =? ?b] => destruct (Z.eqb_spec a b)
  | |- context [?a <=? ?b] => destruct (Z.leb_spec a b)
  end; cbn; try lia.

#[export] Instance latin_laws : UnicodeLaws.
Proof.
  refine {| fold_equiv a b := canon a = canon b |}.
  - split; red; congruence.
  - intros r. cbn. remember (fold r) as f eqn:Hf. revert Hf. unfold fold; latin_cases;
      intros ->; unfold canon; latin_cases.
  - intros r r'. cbn. unfold fold, canon. latin_cases.
  - intros r r'. cbn. unfold fold, canon. latin_cases.
  - intros a b. cbn. unfold canon. latin_cases.
Defined.

Example kelvin : EqualFold (str "RACK") [Byte.x72; Byte.x61; Byte.x63; Byte.xe2; Byte.x84; Byte.xaa] = true.
Proof. vm_compute. reflexivity. Qed.
End Latin.
