(* ===== verification/Store.v ===== *)
(** * Stores (server/core/store.go, store_option.go)

    A [StoreInfo] points to a [metapb.Store] message.  [Clone] copies the record
    and shares the message, and four of the options write to the message in
    place, so the messages live in a heap that the operations thread; the labels
    of a message belong to it.  The statistics of a store are replaced, never
    written to. *)

From S2P Require Import Prelude GoBytes Strconv Strings Float KV Metapb.
From Corelib Require Import SpecFloat.

(** ** The heap of store messages *)

Abbreviation loc := positive.
Abbreviation heap := (gmap loc Store).

(** What the getters of a nil message return. *)
Definition zeroStore : Store := mkStore 0 [] Up [] [].

Definition deref (h : heap) (l : loc) : Store := default zeroStore (h !! l).

(** [&message]: a location that is not in use. *)
Definition alloc (h : heap) (m : Store) : heap * loc :=
  let l := fresh (dom h) in (<[l := m]> h, l).

Definition write (l : loc) (f : Store → Store) (h : heap) : heap := alter f l h.

(** ** Time *)

(** [time.Since] on a clock that shows [now], saturated to an [int64]. *)
Definition time_Sub (now t : Z) : Z := Z.max (- 2 ^ 63) (Z.min (2 ^ 63 - 1) (now - t)).

(** [time.Time{}], year 1, in nanoseconds since 1970. *)
Definition zeroTime : Z := -62135596800 * 1000000000.

(** ** StoreInfo *)

(** [overloaded] is the reference of a function object. *)
Record StoreInfo := mkStoreInfo {
  st_meta : loc;
  st_stats : option StoreStats;
  blocked : bool;
  leaderCount : Z;
  regionCount : Z;
  leaderSize : Z;
  regionSize : Z;
  pendingPeerCount : Z;
  lastHeartbeatTS : Z;
  leaderWeight : f64;
  regionWeight : f64;
  overloaded : option nat;
}.

#[export] Instance StoreInfo_eq_dec : EqDecision StoreInfo.
Proof. solve_decision. Defined.

Definition StoreCreateOption : Type := heap → StoreInfo → heap * StoreInfo.

Definition store_opts (opts : list StoreCreateOption) (h : heap) (s : StoreInfo) : heap * StoreInfo :=
  foldl (λ '(h, s) opt, opt h s) (h, s) opts.

Definition NewStoreInfo (h : heap) (store : loc) (opts : list StoreCreateOption) : heap * StoreInfo :=
  store_opts opts h
    (mkStoreInfo store (Some noStats) false 0 0 0 0 0 zeroTime (f64_of_Z 1) (f64_of_Z 1) None).

(** The copy shares the message of the original. *)
Definition Store_Clone (h : heap) (s : StoreInfo) (opts : list StoreCreateOption) : heap * StoreInfo :=
  store_opts opts h s.

(** *** Options that write to the shared message *)

Definition SetStoreAddress (address : bytes) : StoreCreateOption := λ h s,
  (write (st_meta s) (λ m, mkStore (Store_Id m) address (State m) (Labels m) (Store_Version m)) h, s).
Definition SetStoreLabels (labels : list StoreLabel) : StoreCreateOption := λ h s,
  (write (st_meta s) (λ m, mkStore (Store_Id m) (Address m) (State m) labels (Store_Version m)) h, s).
Definition SetStoreVersion (version : bytes) : StoreCreateOption := λ h s,
  (write (st_meta s) (λ m, mkStore (Store_Id m) (Address m) (State m) (Labels m) version) h, s).
Definition SetStoreState (state : StoreState) : StoreCreateOption := λ h s,
  (write (st_meta s) (λ m, mkStore (Store_Id m) (Address m) state (Labels m) (Store_Version m)) h, s).

(** *** Options that write to the copy *)

Definition SetStoreBlocked (b : bool) : StoreCreateOption := λ h s,
  (h, mkStoreInfo (st_meta s) (st_stats s) b (leaderCount s) (regionCount s) (leaderSize s)
        (regionSize s) (pendingPeerCount s) (lastHeartbeatTS s) (leaderWeight s) (regionWeight s) (overloaded s)).
Definition SetStoreBlock : StoreCreateOption := SetStoreBlocked true.
Definition SetStoreUnBlock : StoreCreateOption := SetStoreBlocked false.
Definition SetLeaderCount (n : Z) : StoreCreateOption := λ h s,
  (h, mkStoreInfo (st_meta s) (st_stats s) (blocked s) n (regionCount s) (leaderSize s)
        (regionSize s) (pendingPeerCount s) (lastHeartbeatTS s) (leaderWeight s) (regionWeight s) (overloaded s)).
Definition SetRegionCount (n : Z) : StoreCreateOption := λ h s,
  (h, mkStoreInfo (st_meta s) (st_stats s) (blocked s) (leaderCount s) n (leaderSize s)
        (regionSize s) (pendingPeerCount s) (lastHeartbeatTS s) (leaderWeight s) (regionWeight s) (overloaded s)).
Definition SetPendingPeerCount (n : Z) : StoreCreateOption := λ h s,
  (h, mkStoreInfo (st_meta s) (st_stats s) (blocked s) (leaderCount s) (regionCount s) (leaderSize s)
        (regionSize s) n (lastHeartbeatTS s) (leaderWeight s) (regionWeight s) (overloaded s)).
Definition SetLeaderSize (n : Z) : StoreCreateOption := λ h s,
  (h, mkStoreInfo (st_meta s) (st_stats s) (blocked s) (leaderCount s) (regionCount s) n
        (regionSize s) (pendingPeerCount s) (lastHeartbeatTS s) (leaderWeight s) (regionWeight s) (overloaded s)).
Definition SetRegionSize (n : Z) : StoreCreateOption := λ h s,
  (h, mkStoreInfo (st_meta s) (st_stats s) (blocked s) (leaderCount s) (regionCount s) (leaderSize s)
        n (pendingPeerCount s) (lastHeartbeatTS s) (leaderWeight s) (regionWeight s) (overloaded s)).
Definition SetLeaderWeight (w : f64) : StoreCreateOption := λ h s,
  (h, mkStoreInfo (st_meta s) (st_stats s) (blocked s) (leaderCount s) (regionCount s) (leaderSize s)
        (regionSize s) (pendingPeerCount s) (lastHeartbeatTS s) w (regionWeight s) (overloaded s)).
Definition SetRegionWeight (w : f64) : StoreCreateOption := λ h s,
  (h, mkStoreInfo (st_meta s) (st_stats s) (blocked s) (leaderCount s) (regionCount s) (leaderSize s)
        (regionSize s) (pendingPeerCount s) (lastHeartbeatTS s) (leaderWeight s) w (overloaded s)).
Definition SetLastHeartbeatTS (t : Z) : StoreCreateOption := λ h s,
  (h, mkStoreInfo (st_meta s) (st_stats s) (blocked s) (leaderCount s) (regionCount s) (leaderSize s)
        (regionSize s) (pendingPeerCount s) t (leaderWeight s) (regionWeight s) (overloaded s)).
Definition SetStoreStats (stats : option StoreStats) : StoreCreateOption := λ h s,
  (h, mkStoreInfo (st_meta s) stats (blocked s) (leaderCount s) (regionCount s) (leaderSize s)
        (regionSize s) (pendingPeerCount s) (lastHeartbeatTS s) (leaderWeight s) (regionWeight s) (overloaded s)).
Definition SetOverloadStatus (f : nat) : StoreCreateOption := λ h s,
  (h, mkStoreInfo (st_meta s) (st_stats s) (blocked s) (leaderCount s) (regionCount s) (leaderSize s)
        (regionSize s) (pendingPeerCount s) (lastHeartbeatTS s) (leaderWeight s) (regionWeight s) (Some f)).

(** ** Reading a store *)

Section read.
Variable h : heap.
Implicit Types s : StoreInfo.

Definition store_GetState s : StoreState := State (deref h (st_meta s)).
Definition store_GetID s : Z := Store_Id (deref h (st_meta s)).
Definition store_GetAddress s : bytes := Address (deref h (st_meta s)).
Definition store_GetVersion s : bytes := Store_Version (deref h (st_meta s)).
Definition store_GetLabels s : list StoreLabel := Labels (deref h (st_meta s)).
(** The getters of the statistics read zero on nil. *)
Definition store_stats s : StoreStats := default noStats (st_stats s).

Definition IsUp s : bool := bool_decide (store_GetState s = Up).
Definition IsOffline s : bool := bool_decide (store_GetState s = Offline).
Definition IsTombstone s : bool := bool_decide (store_GetState s = Tombstone).

(** [call] gives what each function object returns at the moment. *)
Definition IsOverloaded (call : nat → bool) s : bool :=
  match overloaded s with None => false | Some f => call f end.

Definition DownTime (now : Z) s : Z := time_Sub now (lastHeartbeatTS s).
Definition storeDisconnectDuration : Z := 20 * 1000000000.
Definition storeUnhealthDuration : Z := 600 * 1000000000.
Definition IsDisconnected (now : Z) s : bool := storeDisconnectDuration <? DownTime now s.
Definition IsUnhealth (now : Z) s : bool := storeUnhealthDuration <? DownTime now s.

Definition GetUptime s : Z :=
  let uptime := time_Sub (lastHeartbeatTS s) (StartTime (store_stats s) * 1000000000) in
  if 0 <? uptime then uptime else 0.

(** *** Scores *)

Definition minWeight : f64 := f64_div (f64_of_Z 1) (f64_of_Z 1000000).
Definition maxScore : f64 := f64_of_Z (1024 * 1024 * 1024).

Definition LeaderScore s (delta : Z) : f64 :=
  f64_div (f64_of_Z (int64 (leaderSize s + delta))) (f64_Max (leaderWeight s) minWeight).

Definition RegionScore s (highSpaceRatio lowSpaceRatio : f64) (delta : Z) : f64 :=
  let mb (x : Z) := f64_div (f64_of_Z x) (f64_of_Z (2 ^ 20)) in
  let available := mb (Available (store_stats s)) in
  let used := mb (UsedSize (store_stats s)) in
  let capacity := mb (Capacity (store_stats s)) in
  let amplification :=
    if regionSize s =? 0 then f64_of_Z 1 else f64_div (f64_of_Z (regionSize s)) used in
  let highSpaceBound := f64_mul (f64_sub (f64_of_Z 1) highSpaceRatio) capacity in
  let lowSpaceBound := f64_mul (f64_sub (f64_of_Z 1) lowSpaceRatio) capacity in
  let left := f64_sub available (f64_div (f64_of_Z delta) amplification) in
  let score :=
    if f64_geb left highSpaceBound then f64_of_Z (int64 (regionSize s + delta))
    else if f64_leb left lowSpaceBound then f64_sub maxScore left
    else
      let x1 := f64_mul (f64_sub (f64_add used available) highSpaceBound) amplification in
      let y1 := f64_mul (f64_sub (f64_add used available) highSpaceBound) amplification in
      let x2 := f64_mul (f64_sub (f64_add used available) lowSpaceBound) amplification in
      let y2 := f64_sub maxScore lowSpaceBound in
      let k := f64_div (f64_sub y2 y1) (f64_sub x2 x1) in
      let b := f64_sub y1 (f64_mul k x1) in
      f64_add (f64_mul k (f64_of_Z (int64 (regionSize s + delta)))) b in
  f64_div score (f64_Max (regionWeight s) minWeight).

Definition AvailableRatio s : f64 :=
  if Capacity (store_stats s) =? 0 then f64_of_Z 0
  else f64_div (f64_of_Z (Available (store_stats s))) (f64_of_Z (Capacity (store_stats s))).

Definition IsLowSpace (lowSpaceRatio : f64) s : bool :=
  bool_decide (is_Some (st_stats s)) && f64_ltb (AvailableRatio s) (f64_sub (f64_of_Z 1) lowSpaceRatio).

(** [LeaderKind] is 0 and [RegionKind] is 1. *)
Definition store_ResourceCount s (kind : Z) : Z :=
  if kind =? 0 then uint64 (leaderCount s) else if kind =? 1 then uint64 (regionCount s) else 0.
Definition store_ResourceSize s (kind : Z) : Z :=
  if kind =? 0 then leaderSize s else if kind =? 1 then regionSize s else 0.
Definition ResourceScore s (kind : Z) (highSpaceRatio lowSpaceRatio : f64) (delta : Z) : f64 :=
  if kind =? 0 then LeaderScore s delta
  else if kind =? 1 then RegionScore s highSpaceRatio lowSpaceRatio delta
  else f64_of_Z 0.
Definition ResourceWeight s (kind : Z) : f64 :=
  let positive w := if f64_leb w (f64_of_Z 0) then minWeight else w in
  if kind =? 0 then positive (leaderWeight s)
  else if kind =? 1 then positive (regionWeight s)
  else f64_of_Z 0.

(** *** Labels *)

Context `{!Unicode}.

Definition label_value (labels : list StoreLabel) (key : bytes) : bytes :=
  match find_first (λ label, EqualFold (Label_Key label) key) labels with
  | Some label => Label_Value label
  | None => []
  end.

Definition GetLabelValue s (key : bytes) : bytes := label_value (store_GetLabels s) key.

Fixpoint CompareLocation_loop s other (i : Z) (labels : list bytes) : Z :=
  match labels with
  | [] => -1
  | key :: labels =>
      let v1 := GetLabelValue s key in
      let v2 := GetLabelValue other key in
      if negb (bool_decide (v1 = [])) && negb (bool_decide (v2 = [])) && negb (EqualFold v1 v2) then i
      else CompareLocation_loop s other (i + 1) labels
  end.

Definition CompareLocation s other (labels : list bytes) : Z := CompareLocation_loop s other 0 labels.

(** One round of the loop: the value of the first label with the key is
    overwritten in place, or the label is appended. *)
Fixpoint merge_label (storeLabels : list StoreLabel) (newLabel : StoreLabel) : list StoreLabel :=
  match storeLabels with
  | [] => [newLabel]
  | label :: rest =>
      if EqualFold (Label_Key label) (Label_Key newLabel)
      then mkStoreLabel (Label_Key label) (Label_Value newLabel) :: rest
      else label :: merge_label rest newLabel
  end.

Definition merge_labels (storeLabels labels : list StoreLabel) : list StoreLabel :=
  foldl merge_label storeLabels labels.

(** The labels of the message are overwritten; the appended ones are only in the
    slice that is returned. *)
Definition MergeLabels s (labels : list StoreLabel) : heap * list StoreLabel :=
  let storeLabels := store_GetLabels s in
  let merged := merge_labels storeLabels labels in
  ((SetStoreLabels (take (length storeLabels) merged) h s).1, merged).
End read.

(** ** StoresInfo *)

Abbreviation StoresInfo := (gmap Z StoreInfo).

Definition storeNotFound : go_error := Error "store not found".
Definition storeBlocked : go_error := Error "store is blocked".

(** The operations run over the heap and the map of stores. *)
Abbreviation MS := (M (heap * StoresInfo)).

Definition NewStoresInfo : StoresInfo := ∅.
Definition stores_GetStore (ss : StoresInfo) (storeID : Z) : option StoreInfo := ss !! storeID.
Definition SetStore (store : StoreInfo) : MS unit := λ '(h, ss),
  ((h, <[store_GetID h store := store]> ss), inr ()).
Definition stores_DeleteStore (store : StoreInfo) : MS unit := λ '(h, ss),
  ((h, delete (store_GetID h store) ss), inr ()).

(** The stores in the order the map is ranged over, an order the language does
    not fix: an operation that depends on it takes the permutation. *)
Definition stores_GetStores (ss : StoresInfo) : list StoreInfo := (map_to_list ss).*2.

(** [if store, ok := s.stores[storeID]; ok { s.stores[storeID] = store.Clone(opts...) }] *)
Definition update_store (storeID : Z) (opts : list StoreCreateOption) : MS unit := λ '(h, ss),
  match ss !! storeID with
  | None => ((h, ss), inr ())
  | Some store => let '(h, store) := Store_Clone h store opts in ((h, <[storeID := store]> ss), inr ())
  end.

Definition stores_BlockStore (storeID : Z) : MS unit := λ '(h, ss),
  match ss !! storeID with
  | None => ((h, ss), inl storeNotFound)
  | Some store =>
      if blocked store then ((h, ss), inl storeBlocked)
      else let '(h, store) := Store_Clone h store [SetStoreBlock] in ((h, <[storeID := store]> ss), inr ())
  end.

(** [log.Fatal] ends the process. *)
Definition stores_UnblockStore (storeID : Z) : MS unit := λ '(h, ss),
  match ss !! storeID with
  | None => ((h, ss), inl (Panic "store is unblocked, but it is not found"))
  | Some store =>
      let '(h, store) := Store_Clone h store [SetStoreUnBlock] in ((h, <[storeID := store]> ss), inr ())
  end.

Definition stores_AttachOverloadStatus (storeID : Z) (f : nat) : MS unit :=
  update_store storeID [SetOverloadStatus f].
Definition stores_SetLeaderCount (storeID n : Z) : MS unit := update_store storeID [SetLeaderCount n].
Definition stores_SetRegionCount (storeID n : Z) : MS unit := update_store storeID [SetRegionCount n].
Definition stores_SetPendingPeerCount (storeID n : Z) : MS unit := update_store storeID [SetPendingPeerCount n].
Definition stores_SetLeaderSize (storeID n : Z) : MS unit := update_store storeID [SetLeaderSize n].
Definition stores_SetRegionSize (storeID n : Z) : MS unit := update_store storeID [SetRegionSize n].

Definition UpdateStoreStatusLocked (storeID leaderCount regionCount pendingPeerCount leaderSize regionSize : Z) :
    MS unit := λ '(h, ss),
  match ss !! storeID with
  | None => ((h, ss), inr ())
  | Some store =>
      let '(h, newStore) := Store_Clone h store
        [SetLeaderCount leaderCount; SetRegionCount regionCount; SetPendingPeerCount pendingPeerCount;
         SetLeaderSize leaderSize; SetRegionSize regionSize] in
      SetStore newStore (h, ss)
  end.
