(* ===== verification/StoreStorage.v ===== *)
(** * Loading the stores (server/core/storage.go)

    [LoadStores], which reads the saved stores page by page together with their
    weights, and [SaveStoreWeight].  The text of a [float64] in its shortest form
    (strconv) is a parameter with its documented round trip. *)

From S2P Require Import Prelude GoBytes BTree Strconv Strings Float KV Metapb Region RegionTree RegionMap RegionsInfo Storage StorageProps Store.

(** [strconv.FormatFloat(x, 'f', -1, 64)] and [strconv.ParseFloat(s, 64)]: the
    digits necessary to identify the value. *)
Class FloatText := {
  FormatFloat : f64 → bytes;
  ParseFloat : bytes → result f64;
}.
Class FloatTextLaws `{!FloatText} : Prop := {
  ParseFloat_FormatFloat x : FormatFloat x ≠ [] ∧ ParseFloat (FormatFloat x) = inr x;
}.

Section load.
Context {S : Type} `{!KVBase S} `{!Proto Store} `{!FloatText}.

Definition loadFloatWithDefaultValue (path : bytes) (def : f64) : M S f64 :=
  res ← Load path;
  if bool_decide (res = []) then mret def else lift_result (ParseFloat res).

Definition SaveStoreWeight (storeID : Z) (leader region : f64) : M S unit :=
  Save (storeLeaderWeightPath storeID) (FormatFloat leader);;
  Save (storeRegionWeightPath storeID) (FormatFloat region).

(** The store, the heap and the stores loaded so far. *)
Abbreviation ML := (M (S * (heap * StoresInfo))).
Definition ls_kv {A} (m : M S A) : ML A := λ '(s, c), let '(s, r) := m s in ((s, c), r).
Definition ls_stores {A} (m : M (heap * StoresInfo) A) : ML A := λ '(s, c), let '(c, r) := m c in ((s, c), r).

Definition new_store (m : Store) (leaderWeight regionWeight : f64) : M (heap * StoresInfo) StoreInfo := λ '(h, ss),
  let '(h, l) := alloc h m in
  let '(h, store) := NewStoreInfo h l [SetLeaderWeight leaderWeight; SetRegionWeight regionWeight] in
  ((h, ss), inr store).

Fixpoint load_stores_page (res : list bytes) (nextID : Z) : ML Z :=
  match res with
  | [] => mret nextID
  | s :: res =>
      store ← lift_result (Unmarshal s);
      leaderWeight ← ls_kv (loadFloatWithDefaultValue (storeLeaderWeightPath (Store_Id store)) (f64_of_Z 1));
      regionWeight ← ls_kv (loadFloatWithDefaultValue (storeRegionWeightPath (Store_Id store)) (f64_of_Z 1));
      newStoreInfo ← ls_stores (new_store store leaderWeight regionWeight);
      ls_stores (SetStore newStoreInfo);;
      load_stores_page res (uint64 (Store_Id store + 1))
  end.

(** [fuel] bounds the number of pages. *)
Fixpoint LoadStores_loop (fuel : nat) (nextID : Z) : ML unit :=
  match fuel with
  | O => mfail (Error "out of fuel")
  | Datatypes.S fuel =>
      page ← ls_kv (LoadRange (storePath nextID) (storePath maxUint64) minKVRangeLimit);
      nextID ← load_stores_page page.2 nextID;
      if Z.of_nat (length page.2) <? minKVRangeLimit then mret () else LoadStores_loop fuel nextID
  end.

Definition LoadStores (fuel : nat) : ML unit := LoadStores_loop fuel 0.
End load.

(** ** Store keys are ordered as store ids *)

Lemma storePath_lt a b : is_uint64 a → is_uint64 b → (storePath a < storePath b)%key ↔ a < b.
Proof.
  intros. unfold key_lt. rewrite !storePath_eq, Compare_app_same, Compare_Sprintf_020d by done. lia.
Qed.

Lemma storePath_le a b : is_uint64 a → is_uint64 b → (storePath a ≤ storePath b)%key ↔ a ≤ b.
Proof.
  intros. unfold key_le. rewrite !storePath_eq, Compare_app_same, Compare_Sprintf_020d by done. lia.
Qed.

#[local] Opaque storePath.

(** Rewrites comparisons of store keys to comparisons of ids. *)
Ltac store_keys := rewrite ?storePath_le, ?storePath_lt; unfold is_uint64, maxUint64 in *; lia.

Section load_spec.
Context {S : Type} `{!KVBase S, !KVLaws S} `{!Proto Store} `{!FloatText}.
Implicit Types (s : S) (h : heap) (ss : StoresInfo) (V : gmap bytes bytes).

(** Every key of the store range holds a store under its own id. *)
Definition store_keys_ok V : Prop := ∀ k b,
  V !! k = Some b → (storePath 0 ≤ k)%key → (k < storePath maxUint64)%key →
  ∃ m, Unmarshal b = inr m ∧ k = storePath (Store_Id m) ∧ 0 ≤ Store_Id m < maxUint64.

(** The weight saved under a key, one when there is none. *)
Definition weight_at V (path : bytes) : result f64 :=
  match default [] (V !! path) with
  | [] => inr (f64_of_Z 1)
  | b => ParseFloat b
  end.

(** The record of a store that was just loaded. *)
Definition loaded_store V h (id : Z) (st : StoreInfo) : Prop :=
  ∃ l m b lw rw, st = mkStoreInfo l (Some noStats) false 0 0 0 0 0 zeroTime lw rw None ∧
    h !! l = Some m ∧ V !! storePath id = Some b ∧ Unmarshal b = inr m ∧ Store_Id m = id ∧
    weight_at V (storeLeaderWeightPath id) = inr lw ∧ weight_at V (storeRegionWeightPath id) = inr rw.

Record stores_loaded V h ss (n : Z) : Prop := {
  sl_next : 0 ≤ n ≤ maxUint64;
  sl_some id st : ss !! id = Some st → 0 ≤ id < n ∧ loaded_store V h id st;
  sl_none id : 0 ≤ id < n → ss !! id = None → V !! storePath id = None;
}.

(** The errors a load can end in. *)
Definition load_failed (e : go_error) : Prop :=
  (∃ s k s', Load k s = (s', inl e)) ∨ (∃ s k k' n s', LoadRange k k' n s = (s', inl e)) ∨
  (∃ b, ParseFloat b = inl e).

Lemma loadFloat_spec s path s' r : kv_ok s →
  loadFloatWithDefaultValue path (f64_of_Z 1) s = (s', r) →
  kv_ok s' ∧ kv_view s' = kv_view s ∧
  match r with inr w => weight_at (kv_view s) path = inr w | inl e => load_failed e end.
Proof.
  intros Hok. unfold loadFloatWithDefaultValue. rewrite M_bind_eq.
  destruct (Load path s) as [s1 [e|v]] eqn:E; destruct (Load_law _ _ _ _ Hok E) as (Hok1 & Hv & Hval).
  { intros [= <- <-]. split; [done|]. split; [done|]. left. eauto. }
  specialize (Hval v eq_refl). unfold weight_at. rewrite <- Hval.
  case_bool_decide as Hnil; [subst v; rewrite Hnil|]; intros [= <- <-]; (split; [done|]; split; [done|]); [done|].
  destruct v as [|x v]; [done|]. destruct (ParseFloat (x :: v)) eqn:Hp; [|done]. right; right. eauto.
Qed.

Lemma new_store_spec m lw rw h ss : ∃ l,
  h !! l = None ∧
  new_store m lw rw (h, ss) = ((<[l := m]> h, ss),
    inr (mkStoreInfo l (Some noStats) false 0 0 0 0 0 zeroTime lw rw None)).
Proof. exists (fresh (dom h)). split; [|done]. apply not_elem_of_dom, is_fresh. Qed.

Lemma loaded_store_alloc V h l m id st : h !! l = None → loaded_store V h id st → loaded_store V (<[l := m]> h) id st.
Proof.
  intros Hl (l' & m' & b & lw & rw & -> & Hm & ?). exists l', m', b, lw, rw. split; [done|]. split; [|done].
  rewrite lookup_insert_ne; [done|]. intros ->. by rewrite Hm in Hl.
Qed.

(** One loaded store. *)
Lemma stores_loaded_step V h ss n l m b lw rw : stores_loaded V h ss n → h !! l = None →
  n ≤ Store_Id m < maxUint64 → V !! storePath (Store_Id m) = Some b → Unmarshal b = inr m →
  (∀ id, n ≤ id < Store_Id m → V !! storePath id = None) →
  weight_at V (storeLeaderWeightPath (Store_Id m)) = inr lw →
  weight_at V (storeRegionWeightPath (Store_Id m)) = inr rw →
  stores_loaded V (<[l := m]> h)
    (<[Store_Id m := mkStoreInfo l (Some noStats) false 0 0 0 0 0 zeroTime lw rw None]> ss) (Store_Id m + 1).
Proof.
  intros [Hn Hs Hno] Hl Hid Hb Hu Hgap Hlw Hrw. split; [lia|..].
  - intros id st. destruct (decide (id = Store_Id m)) as [->|Hne].
    + rewrite lookup_insert_eq. intros [= <-]. split; [lia|].
      exists l, m, b, lw, rw. by rewrite lookup_insert_eq.
    + rewrite lookup_insert_ne by done. intros [? ?]%Hs. split; [lia|]. by apply loaded_store_alloc.
  - intros id Hr. destruct (decide (id = Store_Id m)) as [->|Hne]; [by rewrite lookup_insert_eq|].
    rewrite lookup_insert_ne by done. intros Hnone. destruct (decide (id < n)); [apply Hno|apply Hgap]; done || lia.
Qed.

Variable V0 : gmap bytes bytes.
Hypothesis HV0 : store_keys_ok V0.

(** What the load of a page or of everything ends in. *)
Definition stores_end {A} (P : heap → StoresInfo → A → Prop) (o : S * (heap * StoresInfo) * result A) : Prop :=
  kv_ok o.1.1 ∧ kv_view o.1.1 = V0 ∧
  match o.2 with inr a => P o.1.2.1 o.1.2.2 a | inl e => load_failed e end.

Lemma page_store l n k b : 0 ≤ n ≤ maxUint64 → page_of (storePath maxUint64) V0 (storePath n) l → (k, b) ∈ l →
  ∃ m, Unmarshal b = inr m ∧ k = storePath (Store_Id m) ∧ n ≤ Store_Id m < maxUint64 ∧ V0 !! k = Some b.
Proof.
  intros Hn Hp Hk. destruct (pg_in _ _ _ _ Hp _ Hk) as (E & Hlo & Hhi). simpl in *.
  assert (storePath 0 ≤ storePath n)%key by store_keys.
  destruct (HV0 k b E) as (m & Hm & -> & Hid); [key_order|done|]. exists m. split_and!; try done; [|lia].
  revert Hlo. store_keys.
Qed.

Lemma load_stores_page_spec l s h ss n : kv_ok s → kv_view s = V0 → stores_loaded V0 h ss n →
  page_of (storePath maxUint64) V0 (storePath n) l →
  stores_end (λ h' ss' n', stores_loaded V0 h' ss' n' ∧ n ≤ n' ∧ ∀ p, p ∈ l → (p.1 < storePath n')%key)
    (load_stores_page (l.*2) n (s, (h, ss))).
Proof.
  revert s h ss n. induction l as [|[k b] l IH]; intros s h ss n Hok Hv Hld Hp.
  { split; [done|]. split; [done|]. cbn. split_and!; [done|lia|set_solver]. }
  pose proof (sl_next _ _ _ _ Hld) as Hn.
  destruct (page_store ((k, b) :: l) n k b Hn Hp) as (m & Hm & -> & Hid & Hb); [by left|].
  cbn [fmap list_fmap load_stores_page snd]. rewrite M_bind_eq. unfold lift_result at 1. rewrite Hm.
  rewrite M_bind_eq. unfold ls_kv at 1.
  destruct (loadFloatWithDefaultValue _ _ s) as [s1 [e|lw]] eqn:E1;
    destruct (loadFloat_spec _ _ _ _ Hok E1) as (Hok1 & Hv1 & Hw1); rewrite Hv in Hv1; [done|].
  rewrite M_bind_eq. unfold ls_kv at 1.
  destruct (loadFloatWithDefaultValue _ _ s1) as [s2 [e|rw]] eqn:E2;
    destruct (loadFloat_spec _ _ _ _ Hok1 E2) as (Hok2 & Hv2 & Hw2); rewrite Hv1 in Hv2; [done|].
  rewrite Hv in Hw1. rewrite Hv1 in Hw2.
  destruct (new_store_spec m lw rw h ss) as (loc & Hloc & Hnew).
  rewrite M_bind_eq. unfold ls_stores at 1. rewrite Hnew, M_bind_eq. unfold ls_stores at 1, SetStore at 1.
  lazy beta iota. unfold store_GetID, deref. cbn [st_meta]. rewrite lookup_insert_eq. cbn [default from_option id].
  rewrite uint64_small by (unfold maxUint64 in *; lia).
  assert (stores_loaded V0 (<[loc := m]> h)
    (<[Store_Id m := mkStoreInfo loc (Some noStats) false 0 0 0 0 0 zeroTime lw rw None]> ss) (Store_Id m + 1)) as Hld'.
  { apply (stores_loaded_step V0 h ss n loc m b lw rw); try done. intros id Hgap.
    eapply (page_first _ _ _ _ _ _ _ Hp); store_keys. }
  assert (page_of (storePath maxUint64) V0 (storePath (Store_Id m + 1)) l) as Hp'.
  { eapply (page_tail _ _ _ _ _ _ _ Hp); [store_keys|cbn; store_keys| |done].
    intros [k' b'] Hq. destruct (page_store _ n k' b' Hn Hp) as (m' & _ & -> & Hid' & _); [by right|].
    pose proof (pg_sorted _ _ _ _ Hp) as Hsort. inversion Hsort as [|?? _ Hf]; subst.
    rewrite list.Forall_forall in Hf. apply Hf in Hq. cbn in Hq |- *. revert Hq. store_keys. }
  destruct (IH s2 _ _ _ Hok2 Hv2 Hld' Hp') as (Hok3 & Hv3 & Hres). split; [done|]. split; [done|].
  destruct (load_stores_page _ _ _) as [[s3 [h3 ss3]] [e|n3]]; [done|]. cbn in *.
  destruct Hres as (Hld3 & Hle & Hall). pose proof (sl_next _ _ _ _ Hld3).
  split; [done|]. split; [lia|]. intros p [->|Hin]%elem_of_cons; [cbn; store_keys|by apply Hall].
Qed.

(** The stored pairs from an id on. *)
Definition stores_pending (n : Z) : gmap bytes bytes :=
  filter (λ p, (storePath n ≤ p.1)%key ∧ (p.1 < storePath maxUint64)%key) V0.

Lemma stores_pending_shrinks n n' p l : page_of (storePath maxUint64) V0 (storePath n) (p :: l) →
  0 ≤ n ≤ n' → n' ≤ maxUint64 → (p.1 < storePath n')%key →
  (size (stores_pending n') < size (stores_pending n))%nat.
Proof.
  intros Hp Hn Hn' Hlt. apply map_subset_size.
  destruct (pg_in _ _ _ _ Hp p) as (E & H1 & H2); [by left|].
  assert (storePath n ≤ storePath n')%key by store_keys.
  apply strict_spec_alt. split.
  - apply map_filter_subseteq_ext. intros k b _ [??]. simpl in *. split; [key_order|done].
  - intros E'. assert (stores_pending n !! p.1 = Some p.2) as Hk by by apply map_lookup_filter_Some.
    rewrite <- E' in Hk. apply map_lookup_filter_Some in Hk as [_ [Hk _]]. simpl in Hk. key_order.
Qed.

Definition all_stores_loaded h ss : Prop :=
  ∃ n, stores_loaded V0 h ss n ∧ ∀ id, n ≤ id < maxUint64 → V0 !! storePath id = None.

Lemma LoadStores_loop_spec fuel s h ss n : kv_ok s → kv_view s = V0 → stores_loaded V0 h ss n →
  (size (stores_pending n) < fuel)%nat →
  stores_end (λ h' ss' _, all_stores_loaded h' ss') (LoadStores_loop fuel n (s, (h, ss))).
Proof.
  revert s h ss n. induction fuel as [|fuel IH]; intros s h ss n Hok Hv Hld Hf; [lia|].
  cbn [LoadStores_loop]. rewrite M_bind_eq. unfold ls_kv at 1.
  destruct (LoadRange (storePath n) (storePath maxUint64) minKVRangeLimit s) as [s1 r] eqn:El.
  assert (1 ≤ minKVRangeLimit) as H1 by (unfold minKVRangeLimit; lia).
  destruct (LoadRange_law _ _ _ _ _ _ Hok H1 El) as (Hok1 & Hv1 & Hr). rewrite Hv in *.
  destruct r as [e|[ks vs]].
  { split; [done|]. split; [done|]. cbn. right; left. eauto 10. }
  destruct (Hr ks vs eq_refl) as (l & Hl & [= -> ->]). lazy beta iota. cbn [snd].
  rewrite <- !fmap_take. pose proof (range_page _ _ _ _ (Z.to_nat minKVRangeLimit) Hl) as Hp.
  rewrite M_bind_eq. pose proof (sl_next _ _ _ _ Hld) as Hn.
  pose proof (load_stores_page_spec _ _ _ _ _ Hok1 Hv1 Hld Hp) as (Hok2 & Hv2 & Hres).
  destruct (load_stores_page _ _ _) as [[s2 [h2 ss2]] [e|n2]]; [done|]. cbn [fst snd] in *.
  destruct Hres as (Hld2 & Hn2 & Hall). pose proof (sl_next _ _ _ _ Hld2) as Hn2'.
  rewrite length_fmap, length_take. destruct (Z.ltb_spec (Z.of_nat (Z.to_nat minKVRangeLimit `min` length l)) minKVRangeLimit).
  - split; [done|]. split; [done|]. cbn. exists n2. split; [done|]. intros id Hid.
    destruct (V0 !! storePath id) as [b|] eqn:E; [|done]. destruct Hl as [_ Hl].
    assert ((storePath id, b) ∈ l) as Hin by (apply Hl; split_and!; [done|store_keys|store_keys]).
    rewrite take_ge in Hall by (unfold minKVRangeLimit in *; lia). apply Hall in Hin. cbn in Hin.
    exfalso. revert Hin. store_keys.
  - apply IH; [done..|]. destruct l as [|p l]; [unfold minKVRangeLimit in *; cbn in *; lia|].
    change (Z.to_nat minKVRangeLimit) with (Datatypes.S 99) in Hp, Hall. cbn [take] in Hp, Hall.
    pose proof (stores_pending_shrinks n n2 p (take 99 l) Hp ltac:(lia) ltac:(lia) (Hall p ltac:(left))). lia.
Qed.
End load_spec.

Section load_theorem.
Context {S : Type} `{!KVBase S, !KVLaws S} `{!Proto Store} `{!FloatText}.

(** Loading the stores into an empty cache from a storage whose store keys hold
    their stores ends, within one page per stored pair and one more, in success or
    in an error of the storage or of the text of a weight, and changes nothing in
    the storage.  On success the cache has exactly the saved stores, each with the
    saved message, its own message object, its saved weights or one, and no
    statistics. *)
Theorem LoadStores_correct (s : S) (fuel : nat) :
  kv_ok s → store_keys_ok (kv_view s) → (size (kv_view s) < fuel)%nat →
  let '((s', (h, ss)), r) := LoadStores fuel (s, (∅, ∅)) in
  kv_ok s' ∧ kv_view s' = kv_view s ∧
  match r with
  | inl e => load_failed e
  | inr _ => ∀ id, 0 ≤ id < maxUint64 →
      match ss !! id with
      | Some st => loaded_store (kv_view s) h id st
      | None => kv_view s !! storePath id = None
      end
  end.
Proof.
  intros Hok Hk Hf.
  assert (stores_loaded (kv_view s) ∅ ∅ 0) as Hld.
  { split; [unfold maxUint64; lia|by intros ??; rewrite lookup_empty|intros; lia]. }
  assert (size (stores_pending (kv_view s) 0) ≤ size (kv_view s))%nat by apply map_size_filter.
  destruct (LoadStores_loop_spec (kv_view s) Hk fuel s ∅ ∅ 0 Hok eq_refl Hld) as (Hok' & Hv' & Hr); [lia|].
  unfold LoadStores. destruct (LoadStores_loop fuel 0 _) as [[s' [h ss]] [e|u]]; [done|].
  split; [done|]. split; [done|]. cbn in Hr. destruct Hr as (n & Hl & Hend). intros id Hid.
  destruct (ss !! id) as [st|] eqn:E; [by apply (sl_some _ _ _ _ Hl) in E as [_ ?]|].
  destruct (decide (id < n)); [apply (sl_none _ _ _ _ Hl)|apply Hend]; done || lia.
Qed.
End load_theorem.

(** ** An instance *)

Module LoadStoresDemo.
Import SortedList.

#[local] Instance demo_proto : Proto Store := {
  Marshal m := inr [byte_of_Z (Store_Id m)];
  Unmarshal b := match b with [x] => inr (mkStore (byte_val x) [] Up [] []) | _ => inl (Error "proto") end;
}.
#[local] Instance demo_float : FloatText := {
  FormatFloat x := if f64_eqb x (f64_of_Z 2) then str "2" else str "1";
  ParseFloat b := if bool_decide (b = str "2") then inr (f64_of_Z 2) else inr (f64_of_Z 1);
}.

Definition ops : list kv_op :=
  [OpSave (storePath 1) [Byte.x01]; OpSave (storePath 4) [Byte.x04];
   OpSave (storeLeaderWeightPath 4) (str "2")].
Definition kv : memoryKV (list memoryKVItem) := run_ops ops NewMemoryKV.

Lemma keys_ok : store_keys_ok (kv_view kv).
Proof.
  assert (kv_view kv = spec_ops ops) as -> by apply (run_ops_view ops).
  unfold spec_ops. cbn [ops foldl]. intros k b Hk Hlo Hhi.
  rewrite !lookup_insert_Some, lookup_empty in Hk.
  destruct Hk as [[<- <-]|[_ [[<- <-]|[_ [[<- <-]|[_ ?]]]]]]; [|..|done].
  - exfalso. revert Hhi. vm_compute. done.
  - exists (mkStore 4 [] Up [] []). split_and!; [by vm_compute|done|by vm_compute|by vm_compute].
  - exists (mkStore 1 [] Up [] []). split_and!; [by vm_compute|done|by vm_compute|by vm_compute].
Qed.

Lemma LoadStores_correct_witness :
  ∃ h st, (LoadStores 10 (kv, (∅, ∅))).1.2.1 = h ∧ (LoadStores 10 (kv, (∅, ∅))).1.2.2 !! 4 = Some st ∧
    loaded_store (kv_view kv) h 4 st.
Proof.
  pose proof (LoadStores_correct kv 10) as H.
  destruct (LoadStores 10 (kv, (∅, ∅))) as [[s' [h ss]] [e|u]] eqn:E; [vm_compute in E; discriminate|].
  destruct H as (_ & _ & H).
  - apply (run_ops_view ops).
  - exact keys_ok.
  - vm_compute. lia.
  - specialize (H 4 ltac:(unfold maxUint64; lia)). cbn [fst snd].
    destruct (ss !! 4) as [st|] eqn:E4.
    + exists h, st. split; [reflexivity|]. split; [reflexivity|]. exact H.
    + exfalso. assert (kv_view kv !! storePath 4 = Some [Byte.x04]) as Hs; [|congruence].
      replace (kv_view kv) with (spec_ops ops) by (symmetry; apply (run_ops_view ops)). vm_compute. reflexivity.
Defined.
End LoadStoresDemo.
