(* ===== verification/Statistics.v ===== *)
(** * Statistics (server/statistics)

    The status index of the regions and their label isolation levels
    (region_collection.go), the rolling flow rates of the stores (util.go,
    store.go), the cache of hot regions (hot_cache.go) and the summary of a key
    range (region.go).  The median of package montanaflynn/stats is a
    parameter.  The gauges of the metrics are not modelled. *)

From S2P Require Import Prelude GoBytes BTree Strconv Strings Float KV Metapb Region RegionTree RegionMap RegionsInfo Cache Store.

(** ** namespace.Classifier *)

(** What the modelled code asks of the interface: the namespace of a store, of a
    region, all namespaces, whether one exists, and whether two regions may
    merge. *)
Class Classifier := {
  GetAllNamespaces : list bytes;
  GetStoreNamespace : heap → StoreInfo → bytes;
  GetRegionNamespace : RegionInfo → bytes;
  IsNamespaceExist : bytes → bool;
  AllowMerge : RegionInfo → RegionInfo → bool;
}.

Definition DefaultNamespace : bytes := str "global".

Definition DefaultClassifier : Classifier := {|
  GetAllNamespaces := [DefaultNamespace];
  GetStoreNamespace _ _ := DefaultNamespace;
  GetRegionNamespace _ := DefaultNamespace;
  IsNamespaceExist name := bool_decide (name = DefaultNamespace);
  AllowMerge _ _ := true;
|}.

(** ** RegionStatistics *)

Definition MissPeer : Z := 1.
Definition ExtraPeer : Z := 2.
Definition DownPeer : Z := 4.
Definition PendingPeer : Z := 8.
Definition OfflinePeer : Z := 16.
Definition IncorrectNamespace : Z := 32.
Definition LearnerPeer : Z := 64.

(** The inner maps of [stats] are all made by the constructor: a missing one is
    an empty one. *)
Record RegionStatistics := mkRegionStatistics {
  rs_stats : gmap Z (gmap Z RegionInfo);
  rs_index : gmap Z Z;
}.

Definition NewRegionStatistics : RegionStatistics := mkRegionStatistics ∅ ∅.

Definition stats_of (stats : gmap Z (gmap Z RegionInfo)) (typ : Z) : gmap Z RegionInfo :=
  default ∅ (stats !! typ).

Definition GetRegionStatsByType (r : RegionStatistics) (typ : Z) : list RegionInfo :=
  (map_to_list (stats_of (rs_stats r) typ)).*2.

(** [for typ := 1; typ <= deleteIndex; typ <<= 1]: [typ] is a [uint32], so
    there are at most 32 rounds for an index below [2^31]. *)
Fixpoint deleteEntry_loop (fuel : nat) (typ deleteIndex regionID : Z) (stats : gmap Z (gmap Z RegionInfo)) :
    gmap Z (gmap Z RegionInfo) :=
  match fuel with
  | O => stats
  | S fuel =>
      if typ <=? deleteIndex then
        let stats :=
          if Z.land deleteIndex typ =? 0 then stats
          else <[typ := delete regionID (stats_of stats typ)]> stats in
        deleteEntry_loop fuel (Z.shiftl typ 1) deleteIndex regionID stats
      else stats
  end.

Definition deleteEntry (deleteIndex regionID : Z) (stats : gmap Z (gmap Z RegionInfo)) :=
  deleteEntry_loop 32 1 deleteIndex regionID stats.

(** [r.stats[typ][regionID] = region; peerTypeIndex |= typ] *)
Definition mark (region : RegionInfo) (typ : Z) (acc : gmap Z (gmap Z RegionInfo) * Z) :=
  (<[typ := <[GetID region := region]> (stats_of acc.1 typ)]> acc.1, Z.lor acc.2 typ).

Section region_statistics.
Context `{!Classifier}.

(** The loop over the stores breaks at the first one of another namespace. *)
Fixpoint observe_stores (h : heap) (region : RegionInfo) (ns : bytes) (stores : list StoreInfo)
    (acc : gmap Z (gmap Z RegionInfo) * Z) : gmap Z (gmap Z RegionInfo) * Z :=
  match stores with
  | [] => acc
  | store :: stores =>
      let acc :=
        if IsOffline h store then
          match GetStorePeer region (store_GetID h store) with
          | Some _ => mark region OfflinePeer acc
          | None => acc
          end
        else acc in
      if bool_decide (GetStoreNamespace h store = ns) then observe_stores h region ns stores acc
      else mark region IncorrectNamespace acc
  end.

(** [maxReplicas] is [opt.GetMaxReplicas]. *)
Definition Observe (maxReplicas : bytes → Z) (h : heap) (r : RegionStatistics) (region : RegionInfo)
    (stores : list StoreInfo) : RegionStatistics :=
  let regionID := GetID region in
  let ns := GetRegionNamespace region in
  let peers := Z.of_nat (length (GetPeers region)) in
  let acc := (rs_stats r, 0) in
  let acc :=
    if peers <? maxReplicas ns then mark region MissPeer acc
    else if maxReplicas ns <? peers then mark region ExtraPeer acc
    else acc in
  let acc := if bool_decide (GetDownPeers region = []) then acc else mark region DownPeer acc in
  let acc := if bool_decide (GetPendingPeers region = []) then acc else mark region PendingPeer acc in
  let acc := if bool_decide (GetLearners region = []) then acc else mark region LearnerPeer acc in
  let '(stats, peerTypeIndex) := observe_stores h region ns stores acc in
  let deleteIndex :=
    match rs_index r !! regionID with
    | Some oldIndex => Z.ldiff oldIndex peerTypeIndex
    | None => 0
    end in
  mkRegionStatistics (deleteEntry deleteIndex regionID stats) (<[regionID := peerTypeIndex]> (rs_index r)).
End region_statistics.

(** The index keeps its entry. *)
Definition ClearDefunctRegion (r : RegionStatistics) (regionID : Z) : RegionStatistics :=
  match rs_index r !! regionID with
  | Some oldIndex => mkRegionStatistics (deleteEntry oldIndex regionID (rs_stats r)) (rs_index r)
  | None => r
  end.

(** ** LabelLevelStatistics *)

Record LabelLevelStatistics := mkLabelLevelStatistics {
  regionLabelLevelStats : gmap Z Z;
  labelLevelCounter : gmap Z Z;
}.

Definition NewLabelLevelStatistics : LabelLevelStatistics := mkLabelLevelStatistics ∅ ∅.

(** [m[k] += d] on a map of integers. *)
Definition bump (k d : Z) (m : gmap Z Z) : gmap Z Z := <[k := int64 (default 0 (m !! k) + d)]> m.

Section label_levels.
Context `{!Unicode}.

(** The groups of the map in some order: the result only depends on the groups
    as a set, and the level only on whether there are any. *)
Definition notIsolatedStoresWithLabel (h : heap) (stores : list StoreInfo) (label : bytes) :
    list (list StoreInfo) :=
  let m : gmap bytes (list StoreInfo) := foldl (λ m s,
    let labelValue := GetLabelValue h s label in
    if bool_decide (labelValue = []) then m
    else <[labelValue := default [] (m !! labelValue) ++ [s]]> m) ∅ stores in
  filter (λ g, 1 < length g)%nat (map_to_list m).*2.

Fixpoint isolation_loop (h : heap) (queueStores : list (list StoreInfo)) (level : Z) (labels : list bytes) : Z :=
  match labels with
  | [] => 0
  | label :: labels =>
      let newQueueStores := mjoin ((λ stores, notIsolatedStoresWithLabel h stores label) <$> queueStores) in
      if bool_decide (newQueueStores = []) then level + 1
      else isolation_loop h newQueueStores (level + 1) labels
  end.

Definition getRegionLabelIsolationLevel (h : heap) (stores : list StoreInfo) (labels : list bytes) : Z :=
  if bool_decide (stores = []) || bool_decide (labels = []) then 0
  else isolation_loop h [stores] 0 labels.

Definition label_Observe (h : heap) (l : LabelLevelStatistics) (region : RegionInfo) (stores : list StoreInfo)
    (labels : list bytes) : LabelLevelStatistics :=
  let regionID := GetID region in
  let regionLabelLevel := getRegionLabelIsolationLevel h stores labels in
  let record counter :=
    mkLabelLevelStatistics (<[regionID := regionLabelLevel]> (regionLabelLevelStats l))
      (bump regionLabelLevel 1 counter) in
  match regionLabelLevelStats l !! regionID with
  | Some level =>
      if level =? regionLabelLevel then l else record (bump level (-1) (labelLevelCounter l))
  | None => record (labelLevelCounter l)
  end.
End label_levels.

Definition label_ClearDefunctRegion (l : LabelLevelStatistics) (regionID : Z) : LabelLevelStatistics :=
  match regionLabelLevelStats l !! regionID with
  | Some level =>
      mkLabelLevelStatistics (delete regionID (regionLabelLevelStats l)) (bump level (-1) (labelLevelCounter l))
  | None => l
  end.

(** ** RollingStats *)

Record RollingStats := mkRollingStats { records : list f64; rolling_size : nat; rolling_count : nat }.

Definition NewRollingStats (size : nat) : RollingStats := mkRollingStats (replicate size (f64_of_Z 0)) size 0.

Definition Rolling_Add (r : RollingStats) (n : f64) : RollingStats :=
  mkRollingStats (<[(rolling_count r mod rolling_size r)%nat := n]> (records r)) (rolling_size r)
    (S (rolling_count r)).

(** [stats.Median] sorts a copy of its input. *)
Class Stats := { Median : list f64 → f64 }.

Definition Rolling_Median `{!Stats} (r : RollingStats) : f64 :=
  if (rolling_count r =? 0)%nat then f64_of_Z 0
  else Median (if (rolling_count r <? rolling_size r)%nat then take (rolling_count r) (records r) else records r).

(** ** StoresStats *)

Record RollingStoreStats := mkRollingStoreStats {
  rs_bytesWriteRate : RollingStats;
  rs_bytesReadRate : RollingStats;
  rs_keysWriteRate : RollingStats;
  rs_keysReadRate : RollingStats;
}.

Definition newRollingStoreStats : RollingStoreStats :=
  let r := NewRollingStats 3 in mkRollingStoreStats r r r r.

(** Reading a field of a nil message panics; the getters before it do not, and
    return on a nil or empty interval. *)
Definition RollingStoreStats_Observe (r : RollingStoreStats) (stats : option StoreStats) : RollingStoreStats :=
  match stats with
  | None => r
  | Some st =>
      let statInterval := Interval st in
      let interval := uint64 (from_option EndTimestamp 0 statInterval - from_option StartTimestamp 0 statInterval) in
      if interval =? 0 then r
      else
        mkRollingStoreStats
          (Rolling_Add (rs_bytesWriteRate r) (f64_of_Z (BytesWritten st / interval)))
          (Rolling_Add (rs_bytesReadRate r) (f64_of_Z (BytesRead st / interval)))
          (Rolling_Add (rs_keysWriteRate r) (f64_of_Z (KeysWritten st / interval)))
          (Rolling_Add (rs_keysReadRate r) (f64_of_Z (KeysRead st / interval)))
  end.

Record StoresStats := mkStoresStats {
  rollingStoresStats : gmap Z RollingStoreStats;
  bytesReadRate : f64;
  bytesWriteRate : f64;
}.

Definition NewStoresStats : StoresStats := mkStoresStats ∅ (f64_of_Z 0) (f64_of_Z 0).

Definition CreateRollingStoreStats (s : StoresStats) (storeID : Z) : StoresStats :=
  mkStoresStats (<[storeID := newRollingStoreStats]> (rollingStoresStats s)) (bytesReadRate s) (bytesWriteRate s).

Definition RemoveRollingStoreStats (s : StoresStats) (storeID : Z) : StoresStats :=
  mkStoresStats (delete storeID (rollingStoresStats s)) (bytesReadRate s) (bytesWriteRate s).

(** Locking the statistics of a store that has none panics, unless the interval
    is empty. *)
Definition StoresStats_Observe (s : StoresStats) (storeID : Z) (stats : option StoreStats) : option StoresStats :=
  match rollingStoresStats s !! storeID with
  | Some r => Some (mkStoresStats (<[storeID := RollingStoreStats_Observe r stats]> (rollingStoresStats s))
                     (bytesReadRate s) (bytesWriteRate s))
  | None =>
      let statInterval := stats ≫= Interval in
      if uint64 (from_option EndTimestamp 0 statInterval - from_option StartTimestamp 0 statInterval) =? 0
      then Some s else None
  end.

Section rates.
Context `{!Stats}.

Definition GetBytesRate (r : RollingStoreStats) : f64 * f64 :=
  (Rolling_Median (rs_bytesWriteRate r), Rolling_Median (rs_bytesReadRate r)).

(** The stores in the order the map is ranged over; floating point addition
    depends on it. *)
Definition UpdateTotalBytesRate (h : heap) (stores : list StoreInfo) (s : StoresStats) : option StoresStats :=
  total ← foldlM (λ total store,
    if IsUp h store then
      r ← rollingStoresStats s !! store_GetID h store;
      let '(writeRate, readRate) := GetBytesRate r in
      Some (f64_add total.1 writeRate, f64_add total.2 readRate)
    else Some total) (f64_of_Z 0, f64_of_Z 0) stores;
  Some (mkStoresStats (rollingStoresStats s) total.2 total.1).

Definition GetStoresBytesWriteStat (s : StoresStats) : gmap Z Z :=
  (λ r, uint64_of_f64 (GetBytesRate r).1) <$> rollingStoresStats s.
Definition GetStoresBytesReadStat (s : StoresStats) : gmap Z Z :=
  (λ r, uint64_of_f64 (GetBytesRate r).2) <$> rollingStoresStats s.
Definition GetStoresKeysWriteStat (s : StoresStats) : gmap Z Z :=
  (λ r, uint64_of_f64 (Rolling_Median (rs_keysWriteRate r))) <$> rollingStoresStats s.
Definition GetStoresKeysReadStat (s : StoresStats) : gmap Z Z :=
  (λ r, uint64_of_f64 (Rolling_Median (rs_keysReadRate r))) <$> rollingStoresStats s.
End rates.

(** ** HotSpotCache *)

(** [Stats] points to rolling statistics that an item hands on to the item that
    replaces it. *)
Record RegionStat := mkRegionStat {
  stat_RegionID : Z;
  FlowBytes : Z;
  HotDegree : Z;
  LastUpdateTime : Z;
  stat_StoreID : Z;
  AntiCount : Z;
  stat_Version : Z;
  stat_Stats : option loc;
}.

Definition NewRegionStat (now : Z) (region : RegionInfo) (flowBytes antiCount : Z) : RegionStat :=
  mkRegionStat (GetID region) flowBytes 0 now (Peer_GetStoreId (GetLeader region)) antiCount
    (Epoch_GetVersion (GetRegionEpoch region)) None.

Inductive FlowKind := WriteFlow | ReadFlow.

(** The cache and the heap of the rolling statistics. *)
Record HotSpotCache := mkHotSpotCache {
  writeFlow : threadSafeCache RegionStat;
  readFlow : threadSafeCache RegionStat;
  rolling : gmap loc RollingStats;
}.

Definition RegionHeartBeatReportInterval : Z := 60.
Definition statCacheMaxLen : Z := 1000.
Definition hotWriteRegionMinFlowRate : Z := 16 * 1024.
Definition hotReadRegionMinFlowRate : Z := 128 * 1024.
Definition minHotRegionReportInterval : Z := 3.
Definition hotRegionAntiCount : Z := 1.
Definition rollingWindowsSize : nat := 5.

Definition NewHotSpotCache : option HotSpotCache :=
  w ← NewCache statCacheMaxLen TwoQueueCache;
  r ← NewCache statCacheMaxLen TwoQueueCache;
  Some (mkHotSpotCache w r ∅).

Definition calculateWriteHotThreshold (stats : StoresStats) : Z :=
  let divisor := f64_mul (f64_of_Z statCacheMaxLen) (f64_of_Z 2) in
  let hotRegionThreshold := uint64_of_f64 (f64_div (bytesWriteRate stats) divisor) in
  if hotRegionThreshold <? hotWriteRegionMinFlowRate then hotWriteRegionMinFlowRate else hotRegionThreshold.

Definition calculateReadHotThreshold (stats : StoresStats) : Z :=
  let divisor := f64_of_Z statCacheMaxLen in
  let hotRegionThreshold := uint64_of_f64 (f64_div (bytesReadRate stats) divisor) in
  if hotRegionThreshold <? hotReadRegionMinFlowRate then hotReadRegionMinFlowRate else hotRegionThreshold.

(** [newItem.Stats.Add(float64(flowBytes))]; on a nil pointer it panics. *)
Definition stats_Add (w : HotSpotCache) (item : RegionStat) (flowBytes : Z) : option HotSpotCache :=
  l ← stat_Stats item;
  r ← rolling w !! l;
  Some (mkHotSpotCache (writeFlow w) (readFlow w) (<[l := Rolling_Add r (f64_of_Z flowBytes)]> (rolling w))).

(** The cache afterwards (the rolling statistics are written here, before the item
    is put), whether to update, and the item. *)
Definition isNeedUpdateStatCache (now : Z) (w : HotSpotCache) (region : RegionInfo)
    (flowBytes hotRegionThreshold : Z) (oldItem : option RegionStat) :
    option (HotSpotCache * (bool * option RegionStat)) :=
  let fresh_item := NewRegionStat now region flowBytes hotRegionAntiCount in
  let with_degree (d anti : Z) (st : option loc) :=
    mkRegionStat (stat_RegionID fresh_item) flowBytes d now (stat_StoreID fresh_item) anti
      (stat_Version fresh_item) st in
  let newItem :=
    match oldItem with
    | Some old => with_degree (int64 (HotDegree old + 1)) hotRegionAntiCount (stat_Stats old)
    | None => fresh_item
    end in
  if hotRegionThreshold <=? flowBytes then
    match oldItem with
    | None =>
        let l := fresh (dom (rolling w)) in
        let w := mkHotSpotCache (writeFlow w) (readFlow w) (<[l := NewRollingStats rollingWindowsSize]> (rolling w)) in
        let newItem := with_degree 0 hotRegionAntiCount (Some l) in
        w ← stats_Add w newItem flowBytes;
        Some (w, (true, Some newItem))
    | Some _ =>
        w ← stats_Add w newItem flowBytes;
        Some (w, (true, Some newItem))
    end
  else
    match oldItem with
    | None => Some (w, (false, Some newItem))
    | Some old =>
        if AntiCount old <=? 0 then Some (w, (true, None))
        else
          let newItem := with_degree (int64 (HotDegree old - 1)) (int64 (AntiCount old - 1)) (stat_Stats old) in
          w ← stats_Add w newItem flowBytes;
          Some (w, (true, Some newItem))
    end.

(** [Duration.Seconds] *)
Definition Seconds (d : Z) : f64 :=
  f64_add (f64_of_Z (Z.quot d 1000000000)) (f64_div (f64_of_Z (Z.rem d 1000000000)) (f64_of_Z 1000000000)).

(** The common body of [CheckWrite] and [CheckRead]: the two differ in the flow,
    the cache and the threshold.  Asserting the type of a nil value panics. *)
Definition check_flow (simulating : bool) (now : Z) (w : HotSpotCache) (region : RegionInfo) (flow : Z)
    (c : threadSafeCache RegionStat) (threshold : Z) : option (HotSpotCache * (bool * option RegionStat)) :=
  let per_sec (interval : f64) := uint64_of_f64 (f64_div (f64_of_Z flow) interval) in
  let usual := per_sec (f64_of_Z RegionHeartBeatReportInterval) in
  match c_Peek c (GetID region) with
  | (_, false) => isNeedUpdateStatCache now w region usual threshold None
  | (None, true) => None
  | (Some value, true) =>
      if simulating then isNeedUpdateStatCache now w region usual threshold (Some value)
      else
        let interval := Seconds (time_Sub now (LastUpdateTime value)) in
        if f64_ltb interval (f64_of_Z minHotRegionReportInterval) then Some (w, (false, None))
        else isNeedUpdateStatCache now w region (per_sec interval) threshold (Some value)
  end.

Definition CheckWrite (simulating : bool) (now : Z) (w : HotSpotCache) (region : RegionInfo) (stats : StoresStats) :=
  check_flow simulating now w region (GetBytesWritten region) (writeFlow w) (calculateWriteHotThreshold stats).

Definition CheckRead (simulating : bool) (now : Z) (w : HotSpotCache) (region : RegionInfo) (stats : StoresStats) :=
  check_flow simulating now w region (GetBytesRead region) (readFlow w) (calculateReadHotThreshold stats).

Definition Update (w : HotSpotCache) (key : Z) (item : option RegionStat) (kind : FlowKind) : HotSpotCache :=
  let set (c : threadSafeCache RegionStat) : threadSafeCache RegionStat :=
    match item with None => c_Remove (V:=RegionStat) c key | Some item => c_Put c key (Some item) end in
  match kind with
  | WriteFlow => mkHotSpotCache (set (writeFlow w)) (readFlow w) (rolling w)
  | ReadFlow => mkHotSpotCache (writeFlow w) (set (readFlow w)) (rolling w)
  end.

(** [None]: the assertion of the type of a nil value panics. *)
Definition HotSpot_RegionStats (w : HotSpotCache) (kind : FlowKind) : option (list RegionStat) :=
  mapM Value (c_Elems (match kind with WriteFlow => writeFlow w | ReadFlow => readFlow w end)).

(** [perm] is [rand.Perm(len(stats))]. *)
Definition RandHotRegionFromStore (perm : nat → list nat) (w : HotSpotCache) (storeID : Z) (kind : FlowKind)
    (hotThreshold : Z) : option (option RegionStat) :=
  stats ← HotSpot_RegionStats w kind;
  let picked := omap (λ i, stats !! i) (perm (length stats)) in
  Some (find_first (λ st, (hotThreshold <=? HotDegree st) && (stat_StoreID st =? storeID)) picked).

Definition IsRegionHot (w : HotSpotCache) (id hotThreshold : Z) : option bool :=
  let hot (v : option RegionStat) : option bool := st ← v; Some (hotThreshold <=? HotDegree st) in
  let read :=
    match c_Peek (readFlow w) id with
    | (v, true) => hot v
    | (_, false) => Some false
    end in
  match c_Peek (writeFlow w) id with
  | (v, true) => b ← hot v; if b : bool then Some true else read
  | (_, false) => read
  end.

(** ** RegionStats *)

Record RegionStats := mkRegionStats {
  Count : Z;
  EmptyCount : Z;
  StorageSize : Z;
  StorageKeys : Z;
  StoreLeaderCount : gmap Z Z;
  StorePeerCount : gmap Z Z;
  StoreLeaderSize : gmap Z Z;
  StoreLeaderKeys : gmap Z Z;
  StorePeerSize : gmap Z Z;
  StorePeerKeys : gmap Z Z;
}.

Definition newRegionStats : RegionStats := mkRegionStats 0 0 0 0 ∅ ∅ ∅ ∅ ∅ ∅.

Definition RegionStats_Observe (s : RegionStats) (r : RegionInfo) : RegionStats :=
  let keys := GetApproximateKeys r in
  let size := GetApproximateSize r in
  let at_leader (d : Z) (m : gmap Z Z) :=
    match GetLeader r with Some l => bump (Peer_StoreId l) d m | None => m end in
  let at_peers (d : Z) (m : gmap Z Z) := foldl (λ m p, bump (Peer_StoreId p) d m) m (GetPeers r) in
  mkRegionStats (int64 (Count s + 1))
    (if size <=? EmptyRegionApproximateSize then int64 (EmptyCount s + 1) else EmptyCount s)
    (int64 (StorageSize s + size)) (int64 (StorageKeys s + keys))
    (at_leader 1 (StoreLeaderCount s)) (at_peers 1 (StorePeerCount s))
    (at_leader size (StoreLeaderSize s)) (at_leader keys (StoreLeaderKeys s))
    (at_peers size (StorePeerSize s)) (at_peers keys (StorePeerKeys s)).

Definition GetRegionStats {T} `{!BTreeOps Region T} (r : RegionsInfo T) (startKey endKey : bytes) : RegionStats :=
  foldl RegionStats_Observe newRegionStats (ScanRangeWithEndKey r startKey endKey).
