(* ===== verification/StatisticsProps.v ===== *)
(** * Properties of the statistics

    A ring of rolling statistics holds the last values added; the level counters
    count the regions of each level; a region is indexed under exactly the types
    its last observation gave it; the hot region cache never meets a nil item. *)

From S2P Require Import Prelude GoBytes BTree Strconv Strings Float KV Metapb Region RegionTree RegionMap RegionsInfo Cache CacheProps Store Statistics.

(** ** Rolling statistics *)

Section rolling.
Variable size : nat.
Hypothesis Hsize : (0 < size)%nat.
Implicit Types (hist : list f64).

Definition rolling_run hist : RollingStats := foldl Rolling_Add (NewRollingStats size) hist.

(** The last [size] values, padded with zeros in front. *)
Definition window hist : list f64 := drop (length hist) (replicate size (f64_of_Z 0) ++ hist).

Lemma window_length hist : length (window hist) = size.
Proof. unfold window. rewrite length_drop, length_app, length_replicate. lia. Qed.

Lemma window_snoc hist x : window (hist ++ [x]) = drop 1 (window hist) ++ [x].
Proof.
  unfold window. rewrite drop_drop, length_app. cbn. rewrite (assoc_L (++)).
  rewrite drop_app_le; [|rewrite length_app, length_replicate; lia]. done.
Qed.

(** Writing at the oldest place of the ring. *)
Lemma rotate_insert (w : list f64) r x : length w = size → (r < size)%nat →
  <[r := x]> (drop (size - r) w ++ take (size - r) w) =
  drop (size - S r) (drop 1 w ++ [x]) ++ take (size - S r) (drop 1 w ++ [x]).
Proof.
  intros Hw Hr. destruct w as [|a w]; [cbn in Hw; lia|]. cbn in Hw.
  rewrite insert_app_r_alt by (rewrite length_drop; cbn; lia). rewrite length_drop. cbn [length].
  replace (r - (S (length w) - (size - r)))%nat with O by lia.
  destruct (size - r)%nat as [|k] eqn:Ek; [lia|]. cbn [drop take].
  replace (size - S r)%nat with k by lia. cbn [drop].
  rewrite drop_0, drop_app_le, take_app_le by lia. rewrite <- (assoc_L (++)). done.
Qed.

Lemma rolling_run_spec hist :
  rolling_run hist =
    mkRollingStats (let r := (length hist mod size)%nat in
                    drop (size - r) (window hist) ++ take (size - r) (window hist)) size (length hist).
Proof.
  induction hist as [|x hist IH] using rev_ind.
  - unfold rolling_run, NewRollingStats, window. cbn [foldl length]. cbv zeta.
    rewrite Nat.Div0.mod_0_l, Nat.sub_0_r, drop_0, app_nil_r.
    by rewrite drop_ge, take_ge by (rewrite length_replicate; lia).
  - unfold rolling_run in *. rewrite foldl_snoc, IH. unfold Rolling_Add. cbn [records rolling_size rolling_count].
    rewrite length_app. cbn [length]. rewrite Nat.add_1_r. f_equal.
    assert (length hist mod size < size)%nat as Hr by (apply Nat.mod_upper_bound; lia).
    rewrite rotate_insert by (done || apply window_length). rewrite window_snoc.
    destruct (decide (S (length hist mod size) = size)) as [He|Hne].
    + assert (S (length hist) mod size = 0)%nat as ->.
      { rewrite <- Nat.add_1_r, Nat.Div0.add_mod. destruct (decide (size = 1)%nat) as [E|].
        - by rewrite E, !Nat.mod_1_r.
        - rewrite (Nat.mod_small 1) by lia. replace (length hist mod size + 1)%nat with size by lia.
          apply Nat.Div0.mod_same. }
      rewrite He, Nat.sub_0_r, Nat.sub_diag. cbn [drop take].
      assert (length (drop 1 (window hist) ++ [x]) = size) as Hl.
      { rewrite length_app, length_drop, window_length. cbn. lia. }
      rewrite (drop_ge _ size), (take_ge _ size) by lia. by rewrite app_nil_r.
    + assert (S (length hist) mod size = S (length hist mod size))%nat as ->; [|done].
      rewrite <- Nat.add_1_r, Nat.Div0.add_mod, (Nat.mod_small 1), Nat.add_1_r by lia. apply Nat.mod_small. lia.
Qed.

Definition last_values hist : list f64 := drop (length hist - size) hist.

(** The values the median of a ring is taken of. *)
Lemma rolling_values hist : hist ≠ [] →
  let r := rolling_run hist in
  (if (rolling_count r <? rolling_size r)%nat then take (rolling_count r) (records r) else records r) ≡ₚ last_values hist.
Proof.
  intros Hne. rewrite rolling_run_spec. cbn [records rolling_size rolling_count]. unfold last_values, window.
  destruct (Nat.ltb_spec (length hist) size) as [Hlt|Hge].
  - rewrite Nat.mod_small by done. replace (length hist - size)%nat with O by lia.
    rewrite drop_0, (drop_app_le (replicate size _)), drop_replicate by (rewrite length_replicate; lia).
    rewrite drop_app_length' by (by rewrite length_replicate).
    by rewrite take_app_length.
  - assert (drop (length hist) (replicate size (f64_of_Z 0) ++ hist) = drop (length hist - size) hist) as ->.
    { rewrite drop_app_ge, length_replicate by (rewrite length_replicate; lia). done. }
    rewrite (comm (++)), take_drop. done.
Qed.
End rolling.

(** The median of rolling statistics of window [size], after any sequence of
    values, is zero when there is none and otherwise the median of the last [size]
    values, for any median that does not depend on the order of its input. *)
Theorem rolling_median `{!Stats} (size : nat) (hist : list f64) :
  (0 < size)%nat → (∀ l l', l ≡ₚ l' → Median l = Median l') →
  Rolling_Median (foldl Rolling_Add (NewRollingStats size) hist) =
    if decide (hist = []) then f64_of_Z 0 else Median (last_values size hist).
Proof.
  intros Hs Hmed. change (foldl Rolling_Add (NewRollingStats size) hist) with (rolling_run size hist).
  case_decide as Hnil; [by subst|]. unfold Rolling_Median.
  pose proof (rolling_values size Hs hist Hnil) as Hperm. cbn zeta in Hperm.
  rewrite (rolling_run_spec size Hs hist) in *. cbn [rolling_count] in *.
  destruct (Nat.eqb_spec (length hist) 0) as [Hz|_]; [by apply nil_length_inv in Hz|]. by apply Hmed.
Qed.

(** ** Label levels *)

(** The number of regions of a level. *)
Definition level_count (m : gmap Z Z) (level : Z) : Z := Z.of_nat (size (filter (λ p : Z * Z, p.2 = level) m)).

Definition counters_ok (l : LabelLevelStatistics) : Prop :=
  ∀ level, default 0 (labelLevelCounter l !! level) = level_count (regionLabelLevelStats l) level.

Lemma level_count_insert m id v level : m !! id = None →
  level_count (<[id := v]> m) level = level_count m level + (if decide (v = level) then 1 else 0).
Proof.
  intros Hm. unfold level_count. case_decide as Hv.
  - rewrite map_filter_insert_True by done.
    rewrite map_size_insert_None; [lia|]. apply map_lookup_filter_None. by left.
  - rewrite map_filter_insert_False by done. rewrite delete_id by done. lia.
Qed.

Lemma level_count_delete m id v level : m !! id = Some v →
  level_count (delete id m) level = level_count m level - (if decide (v = level) then 1 else 0).
Proof.
  intros Hm. rewrite <- (insert_delete_id m id v Hm) at 2.
  rewrite level_count_insert by apply lookup_delete_eq. lia.
Qed.

Lemma level_count_bound m level : 0 ≤ level_count m level ≤ Z.of_nat (size m).
Proof. unfold level_count. pose proof (map_size_filter (λ p : Z * Z, p.2 = level) m). lia. Qed.

Lemma bump_lookup k d m level :
  default 0 (bump k d m !! level) = if decide (k = level) then int64 (default 0 (m !! level) + d) else default 0 (m !! level).
Proof.
  unfold bump. case_decide as Hk; [subst; by rewrite lookup_insert_eq|by rewrite lookup_insert_ne].
Qed.

Lemma record_level l id v : counters_ok l → regionLabelLevelStats l !! id = None →
  Z.of_nat (size (regionLabelLevelStats l)) < 2 ^ 63 - 1 →
  counters_ok (mkLabelLevelStatistics (<[id := v]> (regionLabelLevelStats l)) (bump v 1 (labelLevelCounter l))).
Proof.
  intros Hok Hid Hsz level. cbn. rewrite bump_lookup, Hok, level_count_insert by done.
  pose proof (level_count_bound (regionLabelLevelStats l) level).
  case_decide; [rewrite int64_small|]; lia.
Qed.

Lemma clear_level l id : counters_ok l → Z.of_nat (size (regionLabelLevelStats l)) < 2 ^ 63 - 1 →
  counters_ok (label_ClearDefunctRegion l id) ∧
  regionLabelLevelStats (label_ClearDefunctRegion l id) = delete id (regionLabelLevelStats l).
Proof.
  intros Hok Hsz. unfold label_ClearDefunctRegion. destruct (regionLabelLevelStats l !! id) as [v|] eqn:Hid.
  - split; [|done]. intros level. cbn. rewrite bump_lookup, Hok, (level_count_delete _ id v) by done.
    pose proof (level_count_bound (regionLabelLevelStats l) level).
    case_decide; [rewrite int64_small|]; lia.
  - split; [done|]. by rewrite delete_id.
Qed.

Section levels.
Context `{!Unicode}.

Inductive level_op :=
| LevelObserve (h : heap) (region : RegionInfo) (stores : list StoreInfo) (labels : list bytes)
| LevelClear (id : Z).

Definition level_step (l : LabelLevelStatistics) (o : level_op) : LabelLevelStatistics :=
  match o with
  | LevelObserve h region stores labels => label_Observe h l region stores labels
  | LevelClear id => label_ClearDefunctRegion l id
  end.

(** What the level of each region should be. *)
Definition level_spec (m : gmap Z Z) (o : level_op) : gmap Z Z :=
  match o with
  | LevelObserve h region stores labels => <[GetID region := getRegionLabelIsolationLevel h stores labels]> m
  | LevelClear id => delete id m
  end.

Lemma level_step_ok l o : counters_ok l → Z.of_nat (size (regionLabelLevelStats l)) < 2 ^ 63 - 1 →
  counters_ok (level_step l o) ∧ regionLabelLevelStats (level_step l o) = level_spec (regionLabelLevelStats l) o.
Proof.
  intros Hok Hsz. destruct o as [h region stores labels|id]; [|by apply clear_level].
  cbn. unfold label_Observe. set (v := getRegionLabelIsolationLevel h stores labels).
  destruct (regionLabelLevelStats l !! GetID region) as [w|] eqn:Hid.
  - destruct (Z.eqb_spec w v) as [->|Hne]; [split; [done|]; by rewrite insert_id|].
    destruct (clear_level l (GetID region) Hok Hsz) as [Hok' Hm]. unfold label_ClearDefunctRegion in Hok', Hm.
    rewrite Hid in Hok', Hm.
    pose proof (record_level _ (GetID region) v Hok') as Hrec. rewrite Hm in Hrec. cbn in Hrec.
    rewrite insert_delete_eq in Hrec. split; [|done]. apply Hrec; [apply lookup_delete_eq|].
    rewrite map_size_delete, Hid. cbn. lia.
  - split; [|done]. by apply record_level.
Qed.

(** After any sequence of observations and removals, fewer than [2^63 - 1] of
    them, every region that was observed and not removed since has the isolation
    level of its last observation, and the counter of each level is the number of
    regions that have it. *)
Theorem label_levels_counted (ops : list level_op) :
  Z.of_nat (length ops) < 2 ^ 63 - 1 →
  let l := foldl level_step NewLabelLevelStatistics ops in
  regionLabelLevelStats l = foldl level_spec ∅ ops ∧
  ∀ level, default 0 (labelLevelCounter l !! level) = level_count (regionLabelLevelStats l) level.
Proof.
  intros Hlen. cbn zeta.
  enough (let l := foldl level_step NewLabelLevelStatistics ops in
    regionLabelLevelStats l = foldl level_spec ∅ ops ∧ counters_ok l ∧
    (size (regionLabelLevelStats l) ≤ length ops)%nat) as (? & ? & _) by done.
  induction ops as [|o ops IH] using rev_ind; [done|].
  rewrite length_app in Hlen. cbn in Hlen. rewrite !foldl_snoc, length_app. destruct IH as (Hm & Hok & Hsz); [lia|].
  destruct (level_step_ok _ o Hok) as [Hok' Hm']; [lia|]. split; [by rewrite Hm', Hm|]. split; [done|].
  rewrite Hm'. destruct o as [h region stores labels|id]; cbn.
  - rewrite map_size_insert. destruct (_ !! _); cbn; lia.
  - rewrite map_size_delete. destruct (_ !! _); cbn; lia.
Qed.
End levels.

(** ** The status index of the regions *)

Implicit Types stats : gmap Z (gmap Z RegionInfo).

Lemma stats_of_insert stats typ m typ' :
  stats_of (<[typ := m]> stats) typ' = if decide (typ = typ') then m else stats_of stats typ'.
Proof. unfold stats_of. case_decide; [subst; by rewrite lookup_insert_eq|by rewrite lookup_insert_ne]. Qed.

Lemma land_pow2 x k : 0 ≤ k → (Z.land x (2 ^ k) =? 0) = negb (Z.testbit x k).
Proof.
  intros Hk. destruct (Z.testbit x k) eqn:Hb; cbn.
  - apply Z.eqb_neq. intros Hz. assert (Z.testbit (Z.land x (2 ^ k)) k = true) as Ht; [|by rewrite Hz, Z.bits_0 in Ht].
    by rewrite Z.land_spec, Z.pow2_bits_true, Hb.
  - apply Z.eqb_eq. apply Z.bits_inj'. intros n Hn. rewrite Z.land_spec, Z.bits_0.
    destruct (decide (n = k)) as [->|Hne]; [by rewrite Hb|].
    by rewrite Z.pow2_bits_false, andb_false_r.
Qed.

Lemma testbit_le x k : 0 ≤ x → 0 ≤ k → Z.testbit x k = true → 2 ^ k ≤ x.
Proof.
  intros Hx Hk Hb. destruct (Z.le_gt_cases (2 ^ k) x) as [|Hlt]; [done|].
  destruct (decide (x = 0)) as [->|]; [by rewrite Z.bits_0 in Hb|].
  rewrite Z.bits_above_log2 in Hb; [done|done|]. by apply Z.log2_lt_pow2; lia.
Qed.

Lemma deleteEntry_loop_spec fuel k idx id stats j : 0 ≤ idx → 0 ≤ k → 0 ≤ j →
  stats_of (deleteEntry_loop fuel (2 ^ k) idx id stats) (2 ^ j) =
    if decide (k ≤ j < k + Z.of_nat fuel ∧ Z.testbit idx j = true) then delete id (stats_of stats (2 ^ j))
    else stats_of stats (2 ^ j).
Proof.
  intros Hidx. revert k stats. induction fuel as [|fuel IH]; intros k stats Hk Hj; cbn [deleteEntry_loop].
  { rewrite decide_False by lia. done. }
  destruct (Z.leb_spec (2 ^ k) idx) as [Hle|Hgt].
  - rewrite land_pow2 by done.
    replace (Z.shiftl (2 ^ k) 1) with (2 ^ (k + 1)) by (rewrite Z.shiftl_mul_pow2, <- Z.pow_add_r; lia).
    rewrite IH by lia. destruct (decide (k = j)) as [->|Hne].
    + rewrite decide_False by lia. destruct (Z.testbit idx j) eqn:Hb; cbn.
      * rewrite decide_True by (split; [lia|done]). by rewrite stats_of_insert, decide_True.
      * by rewrite decide_False by (by intros [_ ?]).
    + assert (stats_of (if negb (Z.testbit idx k) then stats else <[2 ^ k := delete id (stats_of stats (2 ^ k))]> stats)
        (2 ^ j) = stats_of stats (2 ^ j)) as ->.
      { destruct (Z.testbit idx k); cbn; [|done]. rewrite stats_of_insert, decide_False; [done|].
        intros Hp. apply Hne. by apply (Z.pow_inj_r 2); lia. }
      destruct (decide (k + 1 ≤ j < k + 1 + Z.of_nat fuel ∧ Z.testbit idx j = true)) as [[??]|Hn].
      * by rewrite decide_True by (split; [lia|done]).
      * rewrite decide_False; [done|]. intros [??]. apply Hn. split; [lia|done].
  - rewrite decide_False; [done|]. intros [Hr Hb]. apply testbit_le in Hb; [|lia..].
    assert (2 ^ k ≤ 2 ^ j) by (apply Z.pow_le_mono_r; lia). lia.
Qed.

Lemma deleteEntry_spec idx id stats j : 0 ≤ idx → 0 ≤ j < 32 →
  stats_of (deleteEntry idx id stats) (2 ^ j) =
    if Z.testbit idx j then delete id (stats_of stats (2 ^ j)) else stats_of stats (2 ^ j).
Proof.
  intros Hidx Hj. unfold deleteEntry. change 1 with (2 ^ 0). rewrite deleteEntry_loop_spec by lia.
  destruct (Z.testbit idx j); [rewrite decide_True by (split; [lia|done])|rewrite decide_False by (by intros [_ ?])]; done.
Qed.

#[local] Opaque deleteEntry.

(** A region that is filed is filed under its index. *)
Definition status_ok (r : RegionStatistics) : Prop :=
  (∀ id j x, 0 ≤ j < 7 → stats_of (rs_stats r) (2 ^ j) !! id = Some x →
     ∃ idx, rs_index r !! id = Some idx ∧ Z.testbit idx j = true) ∧
  (∀ id idx, rs_index r !! id = Some idx → 0 ≤ idx).

(** What the accumulator of an observation holds: the types marked so far. *)
Definition marked stats0 (region : RegionInfo) (acc : gmap Z (gmap Z RegionInfo) * Z) (types : Z → bool) : Prop :=
  0 ≤ acc.2 ∧
  ∀ j, 0 ≤ j < 7 → Z.testbit acc.2 j = types j ∧
    stats_of acc.1 (2 ^ j) =
      if types j then <[GetID region := region]> (stats_of stats0 (2 ^ j)) else stats_of stats0 (2 ^ j).

Lemma marked_mark stats0 region acc types k : 0 ≤ k → marked stats0 region acc types →
  marked stats0 region (mark region (2 ^ k) acc) (λ j, (j =? k) || types j).
Proof.
  intros Hk [Hpos Hm]. split; [cbn; apply Z.lor_nonneg; pose proof (Z.pow_nonneg 2 k); lia|].
  intros j Hj. destruct (Hm j Hj) as [Hb Hs]. cbn. rewrite Z.lor_spec, Hb, stats_of_insert.
  destruct (Z.eqb_spec j k) as [->|Hne]; cbn.
  - rewrite Z.pow2_bits_true, orb_true_r by lia. split; [done|]. rewrite decide_True by done. rewrite Hs.
    destruct (types k); [by rewrite insert_insert_eq|done].
  - rewrite Z.pow2_bits_false, orb_false_r by lia. split; [done|]. rewrite decide_False; [done|].
    intros Hp. apply Hne. symmetry. by apply (Z.pow_inj_r 2); lia.
Qed.

Lemma marked_if stats0 region acc types k (b : bool) : 0 ≤ k → marked stats0 region acc types →
  marked stats0 region (if b then mark region (2 ^ k) acc else acc) (λ j, ((j =? k) && b) || types j).
Proof.
  intros Hk Hm. destruct b.
  - destruct (marked_mark _ _ _ _ k Hk Hm) as [Hp Hj]. split; [done|]. intros j. by rewrite andb_true_r; apply Hj.
  - destruct Hm as [Hp Hj]. split; [done|]. intros j. by rewrite andb_false_r; apply Hj.
Qed.

Lemma marked_ext stats0 region acc types types' :
  marked stats0 region acc types → (∀ j, 0 ≤ j < 7 → types j = types' j) → marked stats0 region acc types'.
Proof. intros [Hp Hm] He. split; [done|]. intros j Hj. rewrite <- He by done. by apply Hm. Qed.

Section status.
Context `{!Classifier}.

(** What the loop over the stores sees before it breaks. *)
Fixpoint offline_seen (h : heap) (region : RegionInfo) (ns : bytes) (stores : list StoreInfo) : bool :=
  match stores with
  | [] => false
  | st :: stores =>
      IsOffline h st && bool_decide (is_Some (GetStorePeer region (store_GetID h st)))
      || bool_decide (GetStoreNamespace h st = ns) && offline_seen h region ns stores
  end.

Definition foreign_seen (h : heap) (ns : bytes) (stores : list StoreInfo) : bool :=
  existsb (λ st, negb (bool_decide (GetStoreNamespace h st = ns))) stores.

Lemma observe_stores_marked stats0 h region ns stores acc types :
  marked stats0 region acc types →
  marked stats0 region (observe_stores h region ns stores acc)
    (λ j, (j =? 4) && offline_seen h region ns stores || (j =? 5) && foreign_seen h ns stores || types j).
Proof.
  revert acc types. induction stores as [|st stores IH]; intros acc types Hm; cbn [observe_stores].
  { eapply marked_ext; [exact Hm|]. intros j _. cbn. by rewrite !andb_false_r. }
  set (b := IsOffline h st && bool_decide (is_Some (GetStorePeer region (store_GetID h st)))).
  assert ((if IsOffline h st then match GetStorePeer region (store_GetID h st) with
           | Some _ => mark region OfflinePeer acc | None => acc end else acc) =
          if b then mark region (2 ^ 4) acc else acc) as ->.
  { unfold b. destruct (IsOffline h st); [|done]. by destruct (GetStorePeer region (store_GetID h st)). }
  pose proof (marked_if _ _ _ _ 4 b ltac:(lia) Hm) as Hm'. cbn [offline_seen foreign_seen existsb]. fold b.
  destruct (bool_decide (GetStoreNamespace h st = ns)); cbn [negb orb andb].
  - eapply marked_ext; [apply IH, Hm'|]. intros j _. cbn beta. unfold foreign_seen.
    destruct (j =? 4), (j =? 5), b, (types j), (offline_seen h region ns stores), (existsb _ stores); done.
  - eapply marked_ext; [exact (marked_mark _ _ _ _ 5 ltac:(lia) Hm')|]. intros j _. cbn beta.
    destruct (j =? 4), (j =? 5), b, (types j); done.
Qed.

(** The types of a region: [2^j] is the type [j] of the enumeration. *)
Definition region_types (maxReplicas : bytes → Z) (h : heap) (region : RegionInfo) (stores : list StoreInfo) (j : Z) : bool :=
  let ns := GetRegionNamespace region in
  let peers := Z.of_nat (length (GetPeers region)) in
  (j =? 0) && (peers <? maxReplicas ns)
  || (j =? 1) && (maxReplicas ns <? peers)
  || (j =? 2) && negb (bool_decide (GetDownPeers region = []))
  || (j =? 3) && negb (bool_decide (GetPendingPeers region = []))
  || (j =? 4) && offline_seen h region ns stores
  || (j =? 5) && foreign_seen h ns stores
  || (j =? 6) && negb (bool_decide (GetLearners region = [])).

(** The accumulator at the end of an observation. *)
Definition observe_acc (maxReplicas : bytes → Z) (h : heap) (r : RegionStatistics) (region : RegionInfo)
    (stores : list StoreInfo) : gmap Z (gmap Z RegionInfo) * Z :=
  let ns := GetRegionNamespace region in
  let peers := Z.of_nat (length (GetPeers region)) in
  let acc := (rs_stats r, 0) in
  let acc :=
    if peers <? maxReplicas ns then mark region MissPeer acc
    else if maxReplicas ns <? peers then mark region ExtraPeer acc
    else acc in
  let acc := if bool_decide (GetDownPeers region = []) then acc else mark region DownPeer acc in
  let acc := if bool_decide (GetPendingPeers region = []) then acc else mark region PendingPeer acc in
  let acc := if bool_decide (GetLearners region = []) then acc else mark region LearnerPeer acc in
  observe_stores h region ns stores acc.

Lemma Observe_acc maxReplicas h r region stores :
  Observe maxReplicas h r region stores =
    let acc := observe_acc maxReplicas h r region stores in
    mkRegionStatistics
      (deleteEntry (from_option (λ old, Z.ldiff old acc.2) 0 (rs_index r !! GetID region)) (GetID region) acc.1)
      (<[GetID region := acc.2]> (rs_index r)).
Proof.
  unfold Observe. cbv zeta. fold (observe_acc maxReplicas h r region stores).
  destruct (observe_acc maxReplicas h r region stores) as [stats idx]. cbn [fst snd].
  by destruct (rs_index r !! GetID region).
Qed.

Lemma marked_unless stats0 region acc types k (b : bool) : 0 ≤ k → marked stats0 region acc types →
  marked stats0 region (if b then acc else mark region (2 ^ k) acc) (λ j, ((j =? k) && negb b) || types j).
Proof. intros Hk Hm. pose proof (marked_if _ _ _ _ k (negb b) Hk Hm) as Hm'. by destruct b. Qed.

Lemma observe_acc_marked maxReplicas h r region stores :
  marked (rs_stats r) region (observe_acc maxReplicas h r region stores) (region_types maxReplicas h region stores).
Proof.
  unfold observe_acc. cbv zeta.
  set (ns := GetRegionNamespace region). set (peers := Z.of_nat (length (GetPeers region))).
  assert (marked (rs_stats r) region (rs_stats r, 0) (λ _, false)) as H0.
  { split; [done|]. intros j _. cbn. by rewrite Z.bits_0. }
  assert (marked (rs_stats r) region
    (if peers <? maxReplicas ns then mark region MissPeer (rs_stats r, 0)
     else if maxReplicas ns <? peers then mark region ExtraPeer (rs_stats r, 0) else (rs_stats r, 0))
    (λ j, (j =? 0) && (peers <? maxReplicas ns) || (j =? 1) && (maxReplicas ns <? peers))) as H1.
  { destruct (Z.ltb_spec peers (maxReplicas ns)), (Z.ltb_spec (maxReplicas ns) peers); try lia.
    - eapply marked_ext; [exact (marked_mark _ _ _ _ 0 ltac:(lia) H0)|]. intros j _. cbn beta. by destruct (j =? 0), (j =? 1).
    - eapply marked_ext; [exact (marked_mark _ _ _ _ 1 ltac:(lia) H0)|]. intros j _. cbn beta. by destruct (j =? 0), (j =? 1).
    - eapply marked_ext; [exact H0|]. intros j _. cbn beta. by destruct (j =? 0), (j =? 1). }
  pose proof (marked_unless _ _ _ _ 2 (bool_decide (GetDownPeers region = [])) ltac:(lia) H1) as H2.
  pose proof (marked_unless _ _ _ _ 3 (bool_decide (GetPendingPeers region = [])) ltac:(lia) H2) as H3.
  pose proof (marked_unless _ _ _ _ 6 (bool_decide (GetLearners region = [])) ltac:(lia) H3) as H4.
  eapply marked_ext; [exact (observe_stores_marked _ h _ ns stores _ _ H4)|].
  intros j Hj. unfold region_types. fold ns. fold peers. cbn beta.
  assert (j = 0 ∨ j = 1 ∨ j = 2 ∨ j = 3 ∨ j = 4 ∨ j = 5 ∨ j = 6) as Hcase by lia.
  destruct Hcase as [->|[->|[->|[->|[->|[->| ->]]]]]]; cbn; rewrite ?orb_false_r; done.
Qed.

(** The files of a region after an observation. *)
Lemma Observe_files (maxReplicas : bytes → Z) (h : heap) (r : RegionStatistics) (region : RegionInfo)
    (stores : list StoreInfo) j : status_ok r → 0 ≤ j < 7 →
  let r' := Observe maxReplicas h r region stores in
  (stats_of (rs_stats r') (2 ^ j) !! GetID region =
     if region_types maxReplicas h region stores j then Some region else None) ∧
  (∀ id, id ≠ GetID region → stats_of (rs_stats r') (2 ^ j) !! id = stats_of (rs_stats r) (2 ^ j) !! id).
Proof.
  intros [Hst Hpos] Hj. cbv zeta. rewrite Observe_acc.
  destruct (observe_acc_marked maxReplicas h r region stores) as [Hacc Hm]. cbv zeta.
  set (acc := observe_acc maxReplicas h r region stores) in *.
  set (del := from_option (λ old, Z.ldiff old acc.2) 0 (rs_index r !! GetID region)).
  assert (0 ≤ del) as Hdel.
  { unfold del. destruct (rs_index r !! GetID region) as [old|] eqn:Ho; [|done]. cbn. apply Z.ldiff_nonneg.
    left. by eapply Hpos. }
  cbn [rs_stats]. rewrite deleteEntry_spec by lia. destruct (Hm j Hj) as [Hb Hs]. rewrite Hs.
  assert (Z.testbit del j = match rs_index r !! GetID region with
    | Some old => Z.testbit old j && negb (region_types maxReplicas h region stores j) | None => false end) as ->.
  { unfold del. destruct (rs_index r !! GetID region); cbn; [by rewrite Z.ldiff_spec, Hb|by rewrite Z.bits_0]. }
  destruct (region_types maxReplicas h region stores j) eqn:Ht.
  - assert (match rs_index r !! GetID region with Some old => Z.testbit old j && negb true | None => false end = false)
      as -> by (case_match; cbn; by rewrite ?andb_false_r).
    split; [by rewrite lookup_insert_eq|]. intros id Hid. by rewrite lookup_insert_ne.
  - split; [|intros id Hid; case_match; [by rewrite lookup_delete_ne|done]].
    destruct (stats_of (rs_stats r) (2 ^ j) !! GetID region) as [x|] eqn:Hx.
    + destruct (Hst _ _ _ Hj Hx) as (idx & -> & ->). cbn. apply lookup_delete_eq.
    + case_match; [apply lookup_delete_eq|done].
Qed.

Lemma Observe_ok (maxReplicas : bytes → Z) (h : heap) (r : RegionStatistics) (region : RegionInfo)
    (stores : list StoreInfo) : status_ok r → status_ok (Observe maxReplicas h r region stores).
Proof.
  intros Hok. pose proof (λ j, Observe_files maxReplicas h r region stores j Hok) as Hmain. destruct Hok as [Hst Hpos].
  cbv zeta in Hmain. rewrite Observe_acc in *.
  destruct (observe_acc_marked maxReplicas h r region stores) as [Hacc Hm].
  set (acc := observe_acc maxReplicas h r region stores) in *. cbv zeta in *. cbn [rs_stats] in Hmain. split; cbn.
  - intros id j x Hj. destruct (decide (id = GetID region)) as [->|Hne].
    + rewrite (proj1 (Hmain j Hj)), lookup_insert_eq. destruct (region_types maxReplicas h region stores j) eqn:Ht; [|done].
      intros _. exists acc.2. split; [done|]. destruct (Hm j Hj) as [-> _]. done.
    + rewrite (proj2 (Hmain j Hj)), lookup_insert_ne by done. by apply Hst.
  - intros id idx. destruct (decide (id = GetID region)) as [->|Hne].
    + rewrite lookup_insert_eq. by intros [= <-].
    + rewrite lookup_insert_ne by done. apply Hpos.
Qed.

(** Observing a region files it under exactly the types that describe it
    (missing, extra, down, pending or learner peers, an offline peer, a peer in
    another namespace) and under no other, leaves every other region as it was,
    and keeps the index consistent.  The offline peers are those on the stores up
    to the first one of another namespace. *)
Theorem region_status_correct (maxReplicas : bytes → Z) (h : heap) (r : RegionStatistics)
    (region : RegionInfo) (stores : list StoreInfo) :
  status_ok r →
  let r' := Observe maxReplicas h r region stores in
  status_ok r' ∧
  ∀ j, 0 ≤ j < 7 →
    (stats_of (rs_stats r') (2 ^ j) !! GetID region =
       if region_types maxReplicas h region stores j then Some region else None) ∧
    (∀ id, id ≠ GetID region → stats_of (rs_stats r') (2 ^ j) !! id = stats_of (rs_stats r) (2 ^ j) !! id).
Proof. intros Hok. split; [by apply Observe_ok|]. intros j Hj. by apply Observe_files. Qed.

Lemma ClearDefunctRegion_ok r id : status_ok r →
  status_ok (ClearDefunctRegion r id) ∧
  ∀ j, 0 ≤ j < 7 → stats_of (rs_stats (ClearDefunctRegion r id)) (2 ^ j) = delete id (stats_of (rs_stats r) (2 ^ j)).
Proof.
  intros [Hst Hpos]. unfold ClearDefunctRegion. destruct (rs_index r !! id) as [idx|] eqn:Hi.
  - assert (∀ j, 0 ≤ j < 7 →
      stats_of (deleteEntry idx id (rs_stats r)) (2 ^ j) = delete id (stats_of (rs_stats r) (2 ^ j))) as Hd.
    { intros j Hj. rewrite deleteEntry_spec by (lia || by eapply Hpos). destruct (Z.testbit idx j) eqn:Hb; [done|].
      rewrite delete_id; [done|]. destruct (stats_of (rs_stats r) (2 ^ j) !! id) as [x|] eqn:Hx; [|done].
      destruct (Hst _ _ _ Hj Hx) as (idx' & Hi' & Hb'). rewrite Hi in Hi'. simplify_eq. by rewrite Hb in Hb'. }
    split; [|exact Hd]. split; cbn; [|exact Hpos]. intros id' j x Hj. rewrite Hd by done.
    intros [_ Hx]%lookup_delete_Some. by eapply Hst.
  - split; [done|]. intros j Hj. rewrite delete_id; [done|].
    destruct (stats_of (rs_stats r) (2 ^ j) !! id) as [x|] eqn:Hx; [|done].
    destruct (Hst _ _ _ Hj Hx) as (idx' & Hi' & _). by rewrite Hi in Hi'.
Qed.
End status.

(** ** The hot region cache *)

Definition flow (w : HotSpotCache) (kind : FlowKind) : threadSafeCache RegionStat :=
  match kind with WriteFlow => writeFlow w | ReadFlow => readFlow w end.

(** The rolling statistics of an item exist. *)
Definition item_ok (w : HotSpotCache) (item : RegionStat) : Prop :=
  ∃ l, stat_Stats item = Some l ∧ is_Some (rolling w !! l).

Record hot_ok (w : HotSpotCache) : Prop := {
  hot_cache kind : c_ok (flow w kind);
  hot_items kind it : it ∈ c_Elems (flow w kind) → ∃ item, Value it = Some item ∧ item_ok w item;
}.

(** A later state of the cache: no rolling statistics are lost. *)
Definition hot_le (w w' : HotSpotCache) : Prop := ∀ l, is_Some (rolling w !! l) → is_Some (rolling w' !! l).

#[export] Instance hot_le_preorder : PreOrder hot_le.
Proof. split; [by intros w l|intros w1 w2 w3 H1 H2 l Hl; by apply H2, H1]. Qed.

Lemma item_ok_mono w w' item : hot_le w w' → item_ok w item → item_ok w' item.
Proof. intros Hle (l & ? & ?). exists l. by split; [|apply Hle]. Qed.

(** What a check gives: the caches are untouched, and the item to put is good. *)
Definition checked (w : HotSpotCache) (o : option (HotSpotCache * (bool * option RegionStat))) : Prop :=
  ∃ w' b it, o = Some (w', (b, it)) ∧ hot_ok w' ∧ hot_le w w' ∧
    (b = true → match it with Some item => item_ok w' item | None => True end).

Lemma hot_ok_rolling w w' : hot_ok w → hot_le w w' → (∀ kind, flow w' kind = flow w kind) → hot_ok w'.
Proof.
  intros [Hc Hi] Hle Hf. split; intros kind; rewrite Hf; [done|].
  intros it (item & Hv & Hit)%Hi. exists item. split; [done|]. by eapply item_ok_mono.
Qed.

Lemma stats_Add_ok w item flowBytes : hot_ok w → item_ok w item →
  ∃ w', stats_Add w item flowBytes = Some w' ∧ hot_ok w' ∧ hot_le w w' ∧ item_ok w' item.
Proof.
  intros Hw (l & Hl & r & Hr). unfold stats_Add. rewrite Hl. cbn. rewrite Hr. cbn.
  set (w' := mkHotSpotCache _ _ _). assert (hot_le w w') as Hle.
  { intros l' Hl'. cbn. destruct (decide (l = l')) as [->|]; [by rewrite lookup_insert_eq|by rewrite lookup_insert_ne]. }
  exists w'. split; [done|]. split; [apply (hot_ok_rolling w w' Hw Hle); by intros []|]. split; [done|].
  exists l. split; [done|]. apply Hle. by rewrite Hr.
Qed.

Lemma isNeedUpdateStatCache_checked now w region flowBytes threshold old :
  hot_ok w → (∀ item, old = Some item → item_ok w item) →
  checked w (isNeedUpdateStatCache now w region flowBytes threshold old).
Proof.
  intros Hw Hold. unfold isNeedUpdateStatCache.
  assert (∀ w1 item, hot_ok w1 → hot_le w w1 → item_ok w1 item →
    checked w (w2 ← stats_Add w1 item flowBytes; Some (w2, (true, Some item)))) as Hadd.
  { intros w1 item Hw1 Hle Hit. destruct (stats_Add_ok w1 item flowBytes Hw1 Hit) as (w2 & -> & Hw2 & Hle2 & Hit2).
    exists w2, true, (Some item). cbn. split; [done|]. split; [done|]. split; [by etransitivity|done]. }
  destruct (threshold <=? flowBytes), old as [old|].
  - apply Hadd; [done|done|]. destruct (Hold old eq_refl) as (l & Hl & Hr). by exists l.
  - cbn zeta. set (l := fresh (dom (rolling w))).
    assert (hot_le w (mkHotSpotCache (writeFlow w) (readFlow w) (<[l := NewRollingStats rollingWindowsSize]> (rolling w)))) as Hle.
    { intros l' Hl'. cbn. destruct (decide (l = l')) as [->|]; [by rewrite lookup_insert_eq|by rewrite lookup_insert_ne]. }
    apply Hadd; [apply (hot_ok_rolling w _ Hw Hle); by intros []|done|].
    exists l. split; [done|]. cbn. by rewrite lookup_insert_eq.
  - destruct (Hold old eq_refl) as (l & Hl & Hr). destruct (AntiCount old <=? 0).
    + by exists w, true, None.
    + apply Hadd; [done|done|]. by exists l.
  - exists w, false. eexists. done.
Qed.

Lemma check_flow_checked simulating now w region bytes kind threshold : hot_ok w →
  checked w (check_flow simulating now w region bytes (flow w kind) threshold).
Proof.
  intros Hw. unfold check_flow.
  pose proof (c_Peek_law (flow w kind) (GetID region) (hot_cache _ Hw kind)) as Hp.
  destruct (c_Peek (flow w kind) (GetID region)) as [v ok]. destruct Hp as [Ht _]. destruct ok.
  - destruct (hot_items _ Hw kind _ (Ht eq_refl)) as (item & Hv & Hit). cbn in Hv. subst v.
    assert (∀ item', Some item = Some item' → item_ok w item') as Hold by (intros ? [= <-]; done).
    destruct simulating; [by apply isNeedUpdateStatCache_checked|].
    destruct (f64_ltb _ _); [by exists w, false, None|by apply isNeedUpdateStatCache_checked].
  - assert (∀ item, None = Some item → item_ok w item) as Hold by done.
    destruct v; by apply isNeedUpdateStatCache_checked.
Qed.

Lemma CheckWrite_checked simulating now w region st : hot_ok w → checked w (CheckWrite simulating now w region st).
Proof. intros Hw. apply (check_flow_checked _ _ _ _ _ WriteFlow). done. Qed.

Lemma CheckRead_checked simulating now w region st : hot_ok w → checked w (CheckRead simulating now w region st).
Proof. intros Hw. apply (check_flow_checked _ _ _ _ _ ReadFlow). done. Qed.

Lemma Update_ok w key it kind : hot_ok w → match it with Some item => item_ok w item | None => True end →
  hot_ok (Update w key it kind) ∧ hot_le w (Update w key it kind).
Proof.
  intros Hw Hit. split; [|intros l; by destruct kind].
  assert (∀ kind', c_ok (flow (Update w key it kind) kind') ∧
    ∀ i, i ∈ c_Elems (flow (Update w key it kind) kind') → i ∈ c_Elems (flow w kind') ∨
      ∃ item, it = Some item ∧ Value i = Some item) as Hnew.
  { intros kind'. assert (kind' = kind ∨ flow (Update w key it kind) kind' = flow w kind') as [->| ->]
      by (destruct kind, kind'; (by left) || (by right)); [|by split; [apply Hw|auto]].
    assert (flow (Update w key it kind) kind =
      match it with None => c_Remove (V:=RegionStat) (flow w kind) key | Some item => c_Put (flow w kind) key (Some item) end)
      as -> by by destruct kind. pose proof (hot_cache _ Hw kind) as Hc. destruct it as [item|].
    - destruct (c_Put_law (flow w kind) key (Some item) Hc) as (Hok & _ & _ & Hall). split; [done|].
      intros i [->|[Hi _]]%Hall; [right; by exists item|by left].
    - destruct (c_Remove_law (flow w kind) key Hc) as (Hok & _ & Hall). split; [done|].
      intros i [Hi _]%Hall. by left. }
  assert (rolling (Update w key it kind) = rolling w) as Hr by by destruct kind.
  split; intros kind'; [apply Hnew|]. intros i Hi. destruct (proj2 (Hnew kind') i Hi) as [Hin|(item & -> & Hv)].
  - destruct (hot_items _ Hw kind' i Hin) as (item & Hv & l & Hl & Hs). exists item. split; [done|].
    exists l. by rewrite Hr.
  - exists item. split; [done|]. destruct Hit as (l & Hl & Hs). exists l. by rewrite Hr.
Qed.

Lemma NewHotSpotCache_ok : ∃ w, NewHotSpotCache = Some w ∧ hot_ok w.
Proof.
  eexists. split; [reflexivity|]. split.
  - intros []; (apply newTwoQueue_ok; done).
  - intros [] it Hit; cbn in Hit; by apply elem_of_nil in Hit.
Qed.

(** ** Instances *)

Module StatisticsDemo.
Import Latin.

(** The median of one value. *)
#[local] Instance demo_stats : Stats := { Median l := match l with [x] => x | _ => f64_of_Z 0 end }.

Lemma rolling_median_witness :
  Rolling_Median (foldl Rolling_Add (NewRollingStats 1) [f64_of_Z 3; f64_of_Z 5]) = f64_of_Z 5.
Proof.
  rewrite (rolling_median 1 [f64_of_Z 3; f64_of_Z 5]).
  - vm_compute. reflexivity.
  - lia.
  - intros l l' Hl. destruct l as [|x [|y l]].
    + apply Permutation_nil_l in Hl. by subst.
    + apply Permutation_singleton_l in Hl. by subst.
    + pose proof (Permutation_length Hl). destruct l' as [|x' [|y' l']]; [cbn in *; lia..|reflexivity].
Defined.

Definition zone (z : string) : Store := mkStore 1 [] Up [mkStoreLabel (str "zone") (str z)] [].
Definition demo_heap : heap := <[1%positive := zone "a"]> (<[2%positive := zone "b"]> ∅).
Definition store_at (l : loc) : StoreInfo := (NewStoreInfo demo_heap l []).2.
Definition demo_region (id : Z) : RegionInfo :=
  NewRegionInfo (mkRegion id [] [] None [mkPeer 11 1 false; mkPeer 12 2 false]) None [].
Definition demo_ops : list level_op :=
  [LevelObserve demo_heap (demo_region 1) [store_at 1; store_at 2] [str "zone"];
   LevelObserve demo_heap (demo_region 2) [store_at 1; store_at 1] [str "zone"];
   LevelObserve demo_heap (demo_region 3) [store_at 1; store_at 2] [str "zone"];
   LevelClear 3].

Lemma label_levels_counted_witness :
  let l := foldl level_step NewLabelLevelStatistics demo_ops in
  default 0 (labelLevelCounter l !! 1) = level_count (regionLabelLevelStats l) 1.
Proof. apply (label_levels_counted demo_ops). cbn. lia. Defined.

#[local] Instance demo_classifier : Classifier := DefaultClassifier.

Lemma empty_status_ok : status_ok NewRegionStatistics.
Proof. split; cbn; intros *; unfold stats_of; cbn; rewrite ?lookup_empty; done. Qed.

Lemma region_status_correct_witness :
  stats_of (rs_stats (Observe (λ _, 3) demo_heap NewRegionStatistics (demo_region 1) [])) (2 ^ 0) !! 1
    = Some (demo_region 1).
Proof.
  destruct (region_status_correct (λ _, 3) demo_heap NewRegionStatistics (demo_region 1) [] empty_status_ok) as [_ H].
  destruct (H 0) as [H1 _]; [lia|]. exact H1.
Defined.
End StatisticsDemo.
