(* ===== verification/Config.v ===== *)
(** * Versions, schedule configuration and its dynamic options

    server/version.go; the schedule, replication, namespace and label-property
    sections of server/config.go with their defaults and validation;
    server/option.go, the options every component reads; and the methods of
    server/server.go that change an option, persist it and roll back.  Semantic
    versions (go-semver), the metadata of a TOML file and the JSON encoding of
    the configuration are parameters. *)

From S2P Require Import Prelude GoBytes BTree Strconv Float KV Metapb Region RegionTree RegionMap RegionsInfo Storage Statistics.
From Corelib Require Import SpecFloat.

(** ** Versions (version.go) *)

Class Semver (V : Type) := {
  NewVersion : bytes → result V;
  LessThan : V → V → bool;
  Major : V → Z;
  Minor : V → Z;
}.

(** Versions are ordered by their major number, then by their minor number, and
    versions of the same minor are ordered among themselves. *)
Class SemverLaws (V : Type) `{!Semver V} : Prop := {
  LessThan_irrefl v : LessThan v v = false;
  LessThan_trans u v w : LessThan u v = true → LessThan v w = true → LessThan u w = true;
  LessThan_total u v w : LessThan u v = true → LessThan u w = true ∨ LessThan w v = true;
  LessThan_major u v : Major u < Major v → LessThan u v = true;
  LessThan_minor u v : Major u = Major v → Minor u < Minor v → LessThan u v = true;
}.

Inductive Feature := Base | Version2_0 | RegionMerge | RaftLearner | BatchSplit.

Definition featuresDict (f : Feature) : bytes :=
  match f with
  | Base => str "1.0.0"
  | Version2_0 | RegionMerge | RaftLearner => str "2.0.0"
  | BatchSplit => str "2.1.0-rc.1"
  end.

Section version.
Context {V : Type} `{!Semver V}.

(** [semver.New] panics where [NewVersion] fails. *)
Definition ParseVersion (v : bytes) : result V :=
  match v with
  | [] =>
      match NewVersion (featuresDict Base) with
      | inr v => inr v
      | inl _ => inl (Panic "illegal version")
      end
  | b :: rest => NewVersion (if bool_decide (b = Byte.x76) then rest else v)
  end.

(** [log.Fatal] on an illegal string. *)
Definition MustParseVersion (v : bytes) : result V :=
  match ParseVersion v with
  | inr ver => inr ver
  | inl _ => inl (Panic "version string is illegal")
  end.

Definition MinSupportedVersion (f : Feature) : result V := MustParseVersion (featuresDict f).

Definition IsCompatible (clusterVersion v : V) : bool :=
  if LessThan clusterVersion v then true
  else (Major clusterVersion =? Major v) && (Minor clusterVersion =? Minor v).
End version.

(** ** Configuration sections (config.go) *)

(** A nil slice of arguments is not an empty one to [reflect.DeepEqual]. *)
Record SchedulerConfig := mkSchedulerConfig {
  sc_Type : bytes;
  sc_Args : option (list bytes);
  sc_Disable : bool;
}.

#[export] Instance SchedulerConfig_eq_dec : EqDecision SchedulerConfig.
Proof. solve_decision. Defined.

Record ScheduleConfig := mkScheduleConfig {
  MaxSnapshotCount : Z;
  MaxPendingPeerCount : Z;
  MaxMergeRegionSize : Z;
  MaxMergeRegionKeys : Z;
  SplitMergeInterval : Z;
  EnableOneWayMerge : bool;
  PatrolRegionInterval : Z;
  MaxStoreDownTime : Z;
  LeaderScheduleLimit : Z;
  RegionScheduleLimit : Z;
  ReplicaScheduleLimit : Z;
  MergeScheduleLimit : Z;
  HotRegionScheduleLimit : Z;
  HotRegionCacheHitsThreshold : Z;
  StoreBalanceRate : f64;
  TolerantSizeRatio : f64;
  LowSpaceRatio : f64;
  HighSpaceRatio : f64;
  SchedulerMaxWaitingOperator : Z;
  DisableLearner : bool;
  DisableRemoveDownReplica : bool;
  DisableReplaceOfflineReplica : bool;
  DisableMakeUpReplica : bool;
  DisableRemoveExtraReplica : bool;
  DisableLocationReplacement : bool;
  DisableNamespaceRelocation : bool;
  Schedulers : list SchedulerConfig;
}.

Definition set_Schedulers (l : list SchedulerConfig) (c : ScheduleConfig) : ScheduleConfig :=
  mkScheduleConfig (MaxSnapshotCount c) (MaxPendingPeerCount c) (MaxMergeRegionSize c) (MaxMergeRegionKeys c)
    (SplitMergeInterval c) (EnableOneWayMerge c) (PatrolRegionInterval c) (MaxStoreDownTime c)
    (LeaderScheduleLimit c) (RegionScheduleLimit c) (ReplicaScheduleLimit c) (MergeScheduleLimit c)
    (HotRegionScheduleLimit c) (HotRegionCacheHitsThreshold c) (StoreBalanceRate c) (TolerantSizeRatio c)
    (LowSpaceRatio c) (HighSpaceRatio c) (SchedulerMaxWaitingOperator c) (DisableLearner c)
    (DisableRemoveDownReplica c) (DisableReplaceOfflineReplica c) (DisableMakeUpReplica c)
    (DisableRemoveExtraReplica c) (DisableLocationReplacement c) (DisableNamespaceRelocation c) l.

Record ReplicationConfig := mkReplicationConfig {
  MaxReplicas : Z;
  LocationLabels : list bytes;
  StrictlyMatchLabel : bool;
}.

Record NamespaceConfig := mkNamespaceConfig {
  ns_LeaderScheduleLimit : Z;
  ns_RegionScheduleLimit : Z;
  ns_ReplicaScheduleLimit : Z;
  ns_MergeScheduleLimit : Z;
  ns_HotRegionScheduleLimit : Z;
  ns_MaxReplicas : Z;
}.

Record PDServerConfig := mkPDServerConfig { UseRegionStorage : bool }.

(** A nil map is not an empty one to [encoding/json]. *)
Definition LabelPropertyConfig : Type := option (gmap bytes (list StoreLabel)).

(** *** Defaults *)

(** [configMetaData]: whether a key of a section is given in the file; nothing is
    without a file. *)
Definition IsDefined (meta : option (list bytes → bool)) (path : list bytes) (key : string) : bool :=
  match meta with None => false | Some m => m (path ++ [str key]) end.

Definition adjustZ (v defValue : Z) : Z := if v =? 0 then defValue else v.
Definition adjustFloat64 (v defValue : f64) : f64 := if f64_eqb v (f64_of_Z 0) then defValue else v.
Definition adjustSchedulers (v defValue : list SchedulerConfig) : list SchedulerConfig :=
  if bool_decide (v = []) then defValue else v.

Definition defaultSchedulers : list SchedulerConfig :=
  (λ t, mkSchedulerConfig (str t) None false) <$> ["balance-region"; "balance-leader"; "hot-region"; "label"].

Definition IsDefaultScheduler (typ : bytes) : bool :=
  bool_decide (typ ∈ sc_Type <$> defaultSchedulers).

(** A decimal literal. *)
Definition tenths (n : Z) : f64 := f64_div (f64_of_Z n) (f64_of_Z 10).

Definition Millisecond : Z := 1000000.
Definition Minute : Z := 60 * 1000 * Millisecond.

Section schedule_config.
(** [schedule.IsSchedulerRegistered] *)
Variable IsSchedulerRegistered : bytes → bool.

Definition ScheduleConfig_validate (c : ScheduleConfig) : result () :=
  let one := f64_of_Z 1 in
  let zero := f64_of_Z 0 in
  if f64_ltb (TolerantSizeRatio c) zero then inl (Error "tolerant-size-ratio should be nonnegative")
  else if f64_ltb (LowSpaceRatio c) zero || f64_ltb one (LowSpaceRatio c)
  then inl (Error "low-space-ratio should between 0 and 1")
  else if f64_ltb (HighSpaceRatio c) zero || f64_ltb one (HighSpaceRatio c)
  then inl (Error "high-space-ratio should between 0 and 1")
  else if f64_leb (LowSpaceRatio c) (HighSpaceRatio c)
  then inl (Error "low-space-ratio should be larger than high-space-ratio")
  else
    match find_first (λ s, negb (IsSchedulerRegistered (sc_Type s))) (Schedulers c) with
    | Some _ => inl (Error "create func is not registered, maybe misspelled")
    | None => inr ()
    end.

Definition ScheduleConfig_adjust (meta : option (list bytes → bool)) (c : ScheduleConfig) : ScheduleConfig * result () :=
  let defined := IsDefined meta [str "schedule"] in
  let u64 key v def := if defined key then v else adjustZ v def in
  let c := mkScheduleConfig
    (u64 "max-snapshot-count" (MaxSnapshotCount c) 3)
    (u64 "max-pending-peer-count" (MaxPendingPeerCount c) 16)
    (u64 "max-merge-region-size" (MaxMergeRegionSize c) 20)
    (u64 "max-merge-region-keys" (MaxMergeRegionKeys c) 200000)
    (adjustZ (SplitMergeInterval c) (60 * Minute))
    (EnableOneWayMerge c)
    (adjustZ (PatrolRegionInterval c) (100 * Millisecond))
    (adjustZ (MaxStoreDownTime c) (30 * Minute))
    (u64 "leader-schedule-limit" (LeaderScheduleLimit c) 4)
    (u64 "region-schedule-limit" (RegionScheduleLimit c) 64)
    (u64 "replica-schedule-limit" (ReplicaScheduleLimit c) 64)
    (u64 "merge-schedule-limit" (MergeScheduleLimit c) 8)
    (u64 "hot-region-schedule-limit" (HotRegionScheduleLimit c) 4)
    (u64 "hot-region-cache-hits-threshold" (HotRegionCacheHitsThreshold c) 3)
    (adjustFloat64 (StoreBalanceRate c) (f64_of_Z 15))
    (if defined "tolerant-size-ratio" then TolerantSizeRatio c
     else adjustFloat64 (TolerantSizeRatio c) (f64_of_Z 0))
    (adjustFloat64 (LowSpaceRatio c) (tenths 8))
    (adjustFloat64 (HighSpaceRatio c) (tenths 6))
    (u64 "scheduler-max-waiting-operator" (SchedulerMaxWaitingOperator c) 3)
    (DisableLearner c) (DisableRemoveDownReplica c) (DisableReplaceOfflineReplica c) (DisableMakeUpReplica c)
    (DisableRemoveExtraReplica c) (DisableLocationReplacement c) (DisableNamespaceRelocation c)
    (adjustSchedulers (Schedulers c) defaultSchedulers) in
  (c, ScheduleConfig_validate c).
End schedule_config.

(** *** Labels (util.go) *)

Definition alnum (b : Byte.byte) : bool :=
  let v := byte_val b in
  (65 <=? v) && (v <=? 90) || (97 <=? v) && (v <=? 122) || (48 <=? v) && (v <=? 57).

(** [-A-Za-z0-9_./] *)
Definition label_char (b : Byte.byte) : bool :=
  alnum b || bool_decide (b ∈ [Byte.x2d; Byte.x5f; Byte.x2e; Byte.x2f]).

(** The pattern [^[A-Za-z0-9]([-A-Za-z0-9_./]*[A-Za-z0-9])?$]: an alphanumeric
    character, then nothing or any label characters and an alphanumeric one. *)
Definition label_match (s : bytes) : bool :=
  match s with
  | [] => false
  | b :: rest =>
      alnum b && match last rest with
                 | None => true
                 | Some e => forallb label_char (take (length rest - 1) rest) && alnum e
                 end
  end.

Definition ValidateLabelString (s : bytes) : result () :=
  if label_match s then inr () else inl (Error "invalid label").

Fixpoint ValidateLabels (labels : list StoreLabel) : result () :=
  match labels with
  | [] => inr ()
  | label :: labels =>
      match ValidateLabelString (Label_Key label) with
      | inl err => inl err
      | inr _ =>
          match ValidateLabelString (Label_Value label) with
          | inl err => inl err
          | inr _ => ValidateLabels labels
          end
      end
  end.

Fixpoint validate_labels (labels : list bytes) : result () :=
  match labels with
  | [] => inr ()
  | label :: labels =>
      match ValidateLabelString label with inl err => inl err | inr _ => validate_labels labels end
  end.

Definition ReplicationConfig_validate (c : ReplicationConfig) : result () := validate_labels (LocationLabels c).

Definition ReplicationConfig_adjust (meta : option (list bytes → bool)) (c : ReplicationConfig) :
    ReplicationConfig * result () :=
  let c := mkReplicationConfig (adjustZ (MaxReplicas c) 3) (LocationLabels c)
    (if IsDefined meta [str "replication"] "strictly-match-label" then StrictlyMatchLabel c else false) in
  (c, ReplicationConfig_validate c).

Definition PDServerConfig_adjust (meta : option (list bytes → bool)) (c : PDServerConfig) : PDServerConfig :=
  if IsDefined meta [str "pd-server"] "use-region-storage" then c else mkPDServerConfig true.

(** ** Dynamic options (option.go) *)

(** What is persisted of [Config]; the other fields are zero. *)
Record Config (V : Type) := mkConfig {
  cfg_Schedule : ScheduleConfig;
  cfg_Replication : ReplicationConfig;
  cfg_Namespace : gmap bytes NamespaceConfig;
  cfg_LabelProperty : LabelPropertyConfig;
  cfg_ClusterVersion : V;
  cfg_PDServerCfg : PDServerConfig;
}.
Arguments mkConfig {V}.
Arguments cfg_Schedule {V}.
Arguments cfg_Replication {V}.
Arguments cfg_Namespace {V}.
Arguments cfg_LabelProperty {V}.
Arguments cfg_ClusterVersion {V}.
Arguments cfg_PDServerCfg {V}.

(** The atomic values of [scheduleOption]. *)
Record scheduleOption (V : Type) := mkScheduleOption {
  o_v : ScheduleConfig;
  o_rep : ReplicationConfig;
  o_ns : gmap bytes NamespaceConfig;
  o_labelProperty : LabelPropertyConfig;
  o_clusterVersion : V;
  o_pdServerConfig : PDServerConfig;
}.
Arguments mkScheduleOption {V}.
Arguments o_v {V}.
Arguments o_rep {V}.
Arguments o_ns {V}.
Arguments o_labelProperty {V}.
Arguments o_clusterVersion {V}.
Arguments o_pdServerConfig {V}.

(** The JSON encoding of the configuration.  [json_Unmarshal] decodes into a
    configuration that already has values. *)
Class ConfigJson (V : Type) := {
  json_Marshal : Config V → result bytes;
  json_Unmarshal : bytes → Config V → result (Config V);
}.

(** Decoding into a map keeps the entries of the map that the text does not have;
    [null] makes it nil. *)
Class ConfigJsonLaws (V : Type) `{!ConfigJson V} : Prop := {
  json_roundtrip c b p : json_Marshal c = inr b →
    b ≠ [] ∧
    json_Unmarshal b p = inr (mkConfig (cfg_Schedule c) (cfg_Replication c) (cfg_Namespace c ∪ cfg_Namespace p)
      (match cfg_LabelProperty c with
       | None => None
       | Some m => Some (m ∪ default ∅ (cfg_LabelProperty p))
       end)
      (cfg_ClusterVersion c) (cfg_PDServerCfg c));
}.

Section option.
Context {V : Type}.
Implicit Types o : scheduleOption V.

Definition newScheduleOption (cfg : Config V) : scheduleOption V :=
  mkScheduleOption (cfg_Schedule cfg) (cfg_Replication cfg) (cfg_Namespace cfg) (cfg_LabelProperty cfg)
    (cfg_ClusterVersion cfg) (cfg_PDServerCfg cfg).

Definition opt_store (c : ScheduleConfig) o : scheduleOption V :=
  mkScheduleOption c (o_rep o) (o_ns o) (o_labelProperty o) (o_clusterVersion o) (o_pdServerConfig o).
Definition opt_rep_store (c : ReplicationConfig) o : scheduleOption V :=
  mkScheduleOption (o_v o) c (o_ns o) (o_labelProperty o) (o_clusterVersion o) (o_pdServerConfig o).
Definition opt_ns_set (ns : gmap bytes NamespaceConfig) o : scheduleOption V :=
  mkScheduleOption (o_v o) (o_rep o) ns (o_labelProperty o) (o_clusterVersion o) (o_pdServerConfig o).
Definition opt_labelProperty_store (l : LabelPropertyConfig) o : scheduleOption V :=
  mkScheduleOption (o_v o) (o_rep o) (o_ns o) l (o_clusterVersion o) (o_pdServerConfig o).
Definition opt_SetClusterVersion (v : V) o : scheduleOption V :=
  mkScheduleOption (o_v o) (o_rep o) (o_ns o) (o_labelProperty o) v (o_pdServerConfig o).
Definition opt_pdServerConfig_store (c : PDServerConfig) o : scheduleOption V :=
  mkScheduleOption (o_v o) (o_rep o) (o_ns o) (o_labelProperty o) (o_clusterVersion o) c.

(** The limits of a namespace override the global ones; [int(uint64)] wraps. *)
Definition GetMaxReplicas o (name : bytes) : Z :=
  match o_ns o !! name with Some n => int64 (ns_MaxReplicas n) | None => int64 (MaxReplicas (o_rep o)) end.
Definition GetLeaderScheduleLimit o (name : bytes) : Z :=
  match o_ns o !! name with Some n => ns_LeaderScheduleLimit n | None => LeaderScheduleLimit (o_v o) end.
Definition GetRegionScheduleLimit o (name : bytes) : Z :=
  match o_ns o !! name with Some n => ns_RegionScheduleLimit n | None => RegionScheduleLimit (o_v o) end.
Definition GetReplicaScheduleLimit o (name : bytes) : Z :=
  match o_ns o !! name with Some n => ns_ReplicaScheduleLimit n | None => ReplicaScheduleLimit (o_v o) end.
Definition GetMergeScheduleLimit o (name : bytes) : Z :=
  match o_ns o !! name with Some n => ns_MergeScheduleLimit n | None => MergeScheduleLimit (o_v o) end.
Definition GetHotRegionScheduleLimit o (name : bytes) : Z :=
  match o_ns o !! name with Some n => ns_HotRegionScheduleLimit n | None => HotRegionScheduleLimit (o_v o) end.

Definition SetMaxReplicas (replicas : Z) o : scheduleOption V :=
  opt_rep_store (mkReplicationConfig (uint64 replicas) (LocationLabels (o_rep o)) (StrictlyMatchLabel (o_rep o))) o.

Definition NamespaceConfig_adjust o (c : NamespaceConfig) : NamespaceConfig :=
  mkNamespaceConfig
    (adjustZ (ns_LeaderScheduleLimit c) (GetLeaderScheduleLimit o DefaultNamespace))
    (adjustZ (ns_RegionScheduleLimit c) (GetRegionScheduleLimit o DefaultNamespace))
    (adjustZ (ns_ReplicaScheduleLimit c) (GetReplicaScheduleLimit o DefaultNamespace))
    (adjustZ (ns_MergeScheduleLimit c) (GetMergeScheduleLimit o DefaultNamespace))
    (adjustZ (ns_HotRegionScheduleLimit c) (GetHotRegionScheduleLimit o DefaultNamespace))
    (adjustZ (ns_MaxReplicas c) (uint64 (GetMaxReplicas o DefaultNamespace))).

(** *** Schedulers *)

(** The loop over the schedulers: [None] when it finds the scheduler enabled,
    the changed list when it finds it disabled, the extended list at the end. *)
Fixpoint add_scheduler (tp : bytes) (args : option (list bytes)) (l : list SchedulerConfig) :
    option (list SchedulerConfig) :=
  match l with
  | [] => Some [mkSchedulerConfig tp args false]
  | c :: l =>
      if bool_decide (c = mkSchedulerConfig tp args false) then None
      else if bool_decide (c = mkSchedulerConfig tp args true) then Some (mkSchedulerConfig tp args false :: l)
      else cons c <$> add_scheduler tp args l
  end.

Definition AddSchedulerCfg (tp : bytes) (args : option (list bytes)) o : scheduleOption V :=
  match add_scheduler tp args (Schedulers (o_v o)) with
  | None => o
  | Some l => opt_store (set_Schedulers l (o_v o)) o
  end.

(** [create] is [schedule.CreateScheduler]: the name and the type of the
    scheduler made, or an error. *)
Fixpoint remove_scheduler (create : bytes → option (list bytes) → result (bytes * bytes)) (name : bytes)
    (l : list SchedulerConfig) : result (option (list SchedulerConfig)) :=
  match l with
  | [] => inr None
  | c :: l =>
      match create (sc_Type c) (sc_Args c) with
      | inl err => inl err
      | inr (tmp_name, tmp_type) =>
          if bool_decide (tmp_name = name) then
            inr (Some (if IsDefaultScheduler tmp_type then mkSchedulerConfig (sc_Type c) (sc_Args c) true :: l else l))
          else
            match remove_scheduler create name l with
            | inl err => inl err
            | inr l' => inr (cons c <$> l')
            end
      end
  end.

Definition RemoveSchedulerCfg (create : bytes → option (list bytes) → result (bytes * bytes)) (name : bytes) o :
    result (scheduleOption V) :=
  match remove_scheduler create name (Schedulers (o_v o)) with
  | inl err => inl err
  | inr None => inr o
  | inr (Some l) => inr (opt_store (set_Schedulers l (o_v o)) o)
  end.

(** *** Label properties *)

Definition labels_of (c : LabelPropertyConfig) (typ : bytes) : list StoreLabel :=
  default [] (c ≫= (.!! typ)).

Definition SetLabelProperty (typ labelKey labelValue : bytes) o : scheduleOption V :=
  let l := mkStoreLabel labelKey labelValue in
  let cfg := default ∅ (o_labelProperty o) in
  if bool_decide (l ∈ labels_of (Some cfg) typ) then o
  else opt_labelProperty_store (Some (<[typ := labels_of (Some cfg) typ ++ [l]]> cfg)) o.

Definition DeleteLabelProperty (typ labelKey labelValue : bytes) o : scheduleOption V :=
  let cfg := default ∅ (o_labelProperty o) in
  let left := filter (λ l, l ≠ mkStoreLabel labelKey labelValue) (labels_of (Some cfg) typ) in
  opt_labelProperty_store (Some (if bool_decide (left = []) then delete typ cfg else <[typ := left]> cfg)) o.

Definition opt_CheckLabelProperty o (typ : bytes) (labels : list StoreLabel) : bool :=
  existsb (λ cfg, existsb (λ l, bool_decide (Label_Key l = Label_Key cfg ∧ Label_Value l = Label_Value cfg)) labels)
    (labels_of (o_labelProperty o) typ).

(** *** Reloading *)

Definition same_scheduler (s ps : SchedulerConfig) : bool :=
  bool_decide (sc_Type s = sc_Type ps ∧ sc_Args s = sc_Args ps).

Definition adjusted_schedulers (mine persistent : list SchedulerConfig) : list SchedulerConfig :=
  let mine := (λ s,
    match find_first (same_scheduler s) persistent with
    | Some ps => mkSchedulerConfig (sc_Type s) (sc_Args s) (sc_Disable ps)
    | None => s
    end) <$> mine in
  mine ++ filter (λ ps, find_first (λ s, same_scheduler s ps) mine = None) persistent.

(** The options and the loaded configuration afterwards. *)
Definition adjustScheduleCfg o (persistentCfg : Config V) : scheduleOption V * Config V :=
  let l := adjusted_schedulers (Schedulers (o_v o)) (Schedulers (cfg_Schedule persistentCfg)) in
  (opt_store (set_Schedulers l (o_v o)) o,
   mkConfig (set_Schedulers l (cfg_Schedule persistentCfg)) (cfg_Replication persistentCfg)
     (cfg_Namespace persistentCfg) (cfg_LabelProperty persistentCfg) (cfg_ClusterVersion persistentCfg)
     (cfg_PDServerCfg persistentCfg)).
End option.

(** ** Persisting (storage.go, option.go) *)

(** The server's options and its storage. *)
Section server.
Context {S V : Type} `{!KVBase S} `{!ConfigJson V} `{!Semver V}.
Variable IsSchedulerRegistered : bytes → bool.
Abbreviation MO := (M (scheduleOption V * S)).

Definition on_storage {A} (m : M S A) : MO A := λ '(o, s), let '(s, r) := m s in ((o, s), r).
Definition modify (f : scheduleOption V → scheduleOption V) : MO unit := λ '(o, s), ((f o, s), inr ()).
Definition options : MO (scheduleOption V) := λ '(o, s), ((o, s), inr o).

Definition SaveConfig (cfg : Config V) : M S unit :=
  value ← lift_result (json_Marshal cfg);
  Save configPath value.

(** [None]: there is no configuration in the storage. *)
Definition LoadConfig (cfg : Config V) : M S (option (Config V)) :=
  value ← Load configPath;
  if bool_decide (value = []) then mret None
  else
    cfg ← lift_result (json_Unmarshal value cfg);
    mret (Some cfg).

Definition current_config (o : scheduleOption V) : Config V :=
  mkConfig (o_v o) (o_rep o) (o_ns o) (o_labelProperty o) (o_clusterVersion o) (o_pdServerConfig o).

Definition persist : MO unit :=
  o ← options;
  on_storage (SaveConfig (current_config o)).

(** The label properties are cloned, which makes a nil map an empty one. *)
Definition reload : MO unit :=
  o ← options;
  let cfg := mkConfig (o_v o) (o_rep o) (o_ns o) (Some (default ∅ (o_labelProperty o))) (o_clusterVersion o)
    (o_pdServerConfig o) in
  loaded ← on_storage (LoadConfig cfg);
  match loaded with
  | None => modify (λ o, (adjustScheduleCfg o cfg).1)
  | Some cfg =>
      modify (λ o,
        let '(o, cfg) := adjustScheduleCfg o cfg in
        mkScheduleOption (cfg_Schedule cfg) (cfg_Replication cfg) (cfg_Namespace cfg ∪ o_ns o)
          (cfg_LabelProperty cfg) (cfg_ClusterVersion cfg) (cfg_PDServerCfg cfg))
  end.

(** ** Changing an option (server.go) *)

(** [if err := s.scheduleOpt.persist(s.storage); err != nil { undo; return err }] *)
Definition persist_or (undo : scheduleOption V → scheduleOption V) : MO unit :=
  r ← mcatch persist;
  match r with
  | inl err => modify undo;; mfail err
  | inr _ => mret ()
  end.

Definition SetScheduleConfig (cfg : ScheduleConfig) : MO unit :=
  lift_result (ScheduleConfig_validate IsSchedulerRegistered cfg);;
  old ← options;
  modify (opt_store cfg);;
  persist_or (opt_store (o_v old)).

Definition SetReplicationConfig (cfg : ReplicationConfig) : MO unit :=
  lift_result (ReplicationConfig_validate cfg);;
  old ← options;
  modify (opt_rep_store cfg);;
  persist_or (opt_rep_store (o_rep old)).

Definition SetPDServerConfig (cfg : PDServerConfig) : MO unit :=
  old ← options;
  modify (opt_pdServerConfig_store cfg);;
  persist_or (opt_pdServerConfig_store (o_pdServerConfig old)).

Definition GetNamespaceConfig (o : scheduleOption V) (name : bytes) : NamespaceConfig :=
  match o_ns o !! name with
  | None => mkNamespaceConfig 0 0 0 0 0 0
  | Some _ =>
      mkNamespaceConfig (GetLeaderScheduleLimit o name) (GetRegionScheduleLimit o name)
        (GetReplicaScheduleLimit o name) (GetMergeScheduleLimit o name) (GetHotRegionScheduleLimit o name)
        (uint64 (GetMaxReplicas o name))
  end.

Definition GetNamespaceConfigWithAdjust (o : scheduleOption V) (name : bytes) : NamespaceConfig :=
  NamespaceConfig_adjust o (GetNamespaceConfig o name).

Definition ns_Store (name : bytes) (cfg : NamespaceConfig) (o : scheduleOption V) : scheduleOption V :=
  opt_ns_set (<[name := cfg]> (o_ns o)) o.
Definition ns_Delete (name : bytes) (o : scheduleOption V) : scheduleOption V :=
  opt_ns_set (delete name (o_ns o)) o.

Definition SetNamespaceConfig (name : bytes) (cfg : NamespaceConfig) : MO unit :=
  o ← options;
  modify (ns_Store name cfg);;
  match o_ns o !! name with
  | Some old => persist_or (ns_Store name old)
  | None => persist_or (ns_Delete name)
  end.

Definition DeleteNamespaceConfig (name : bytes) : MO unit :=
  o ← options;
  match o_ns o !! name with
  | Some cfg => modify (ns_Delete name);; persist_or (ns_Store name cfg)
  | None => mret ()
  end.

Definition server_SetLabelProperty (typ labelKey labelValue : bytes) : MO unit :=
  modify (SetLabelProperty typ labelKey labelValue);;
  persist_or (DeleteLabelProperty typ labelKey labelValue).

Definition server_DeleteLabelProperty (typ labelKey labelValue : bytes) : MO unit :=
  modify (DeleteLabelProperty typ labelKey labelValue);;
  persist_or (SetLabelProperty typ labelKey labelValue).

Definition SetClusterVersion (v : bytes) : MO unit :=
  version ← lift_result (ParseVersion v);
  old ← options;
  modify (opt_SetClusterVersion version);;
  persist_or (opt_SetClusterVersion (o_clusterVersion old)).
End server.
