(* ===== verification/ConfigProps.v ===== *)
(** * Changing and reloading the options

    A change that cannot be persisted leaves the options as they were, with the
    exception of the label properties; a change that is persisted is what the
    storage holds; reloading gives back what was persisted, over what the server
    still remembers. *)

From S2P Require Import Prelude GoBytes BTree Strconv Float KV Metapb Storage Statistics Config.

Section transactions.
Context {S V : Type} `{!KVBase S, !KVLaws S} `{!ConfigJson V} `{!Semver V}.
Variable registered : bytes → bool.
Implicit Types (o : scheduleOption V) (s : S).

(** The storage holds the encoding of a configuration. *)
Definition stored_config s (cfg : Config V) : Prop :=
  ∃ b, json_Marshal cfg = inr b ∧ kv_view s !! configPath = Some b.

Lemma SaveConfig_spec cfg s s' r : kv_ok s → SaveConfig cfg s = (s', r) →
  kv_ok s' ∧ (r = inr () → stored_config s' cfg).
Proof.
  intros Hok. unfold SaveConfig. rewrite M_bind_eq. unfold lift_result.
  destruct (json_Marshal cfg) as [e|b] eqn:Hb; [by intros [= <- <-]|].
  intros Hs. destruct (Save_law _ _ _ _ _ Hok Hs) as [Hok' Hview]. split; [done|].
  intros ->. exists b. split; [done|]. destruct Hview as [->|[_ [e He]]]; [|done].
  apply lookup_insert_eq.
Qed.

Lemma persist_or_spec undo o s o' s' r : kv_ok s → persist_or undo (o, s) = ((o', s'), r) →
  kv_ok s' ∧ match r with inl _ => o' = undo o | inr _ => o' = o ∧ stored_config s' (current_config o) end.
Proof.
  intros Hok. unfold persist_or, persist, mcatch. rewrite M_bind_eq, M_bind_eq. cbn.
  destruct (SaveConfig (current_config o) s) as [s1 r1] eqn:Hs.
  destruct (SaveConfig_spec _ _ _ _ Hok Hs) as [Hok1 Hst].
  destruct r1 as [e|[]]; cbn; intros [= <- <- <-]; auto.
Qed.

(** ** The commands that change an option *)

Inductive option_cmd :=
| CmdSchedule (cfg : ScheduleConfig)
| CmdReplication (cfg : ReplicationConfig)
| CmdPDServer (cfg : PDServerConfig)
| CmdNamespace (name : bytes) (cfg : NamespaceConfig)
| CmdDeleteNamespace (name : bytes)
| CmdVersion (v : bytes).

Definition run_cmd (c : option_cmd) : M (scheduleOption V * S) unit :=
  match c with
  | CmdSchedule cfg => SetScheduleConfig registered cfg
  | CmdReplication cfg => SetReplicationConfig cfg
  | CmdPDServer cfg => SetPDServerConfig cfg
  | CmdNamespace name cfg => SetNamespaceConfig name cfg
  | CmdDeleteNamespace name => DeleteNamespaceConfig name
  | CmdVersion v => SetClusterVersion v
  end.

(** What a command that succeeds does to the options. *)
Definition cmd_effect (c : option_cmd) o : scheduleOption V :=
  match c with
  | CmdSchedule cfg => opt_store cfg o
  | CmdReplication cfg => opt_rep_store cfg o
  | CmdPDServer cfg => opt_pdServerConfig_store cfg o
  | CmdNamespace name cfg => ns_Store name cfg o
  | CmdDeleteNamespace name => ns_Delete name o
  | CmdVersion v => match ParseVersion v with inr v => opt_SetClusterVersion v o | inl _ => o end
  end.

(** A change and its undoing. *)
Lemma change_spec f undo o s o' s' r : kv_ok s → undo (f o) = o →
  (modify f;; persist_or undo) (o, s) = ((o', s'), r) →
  kv_ok s' ∧ match r with
             | inl _ => o' = o
             | inr _ => o' = f o ∧ stored_config s' (current_config o')
             end.
Proof.
  intros Hok Hundo Hrun. change ((modify f;; persist_or undo) (o, s)) with (persist_or undo (f o, s)) in Hrun.
  destruct (persist_or_spec _ _ _ _ _ _ Hok Hrun) as [Hok' Hr]. split; [done|].
  destruct r; [by rewrite Hr|]. by destruct Hr as [-> ?].
Qed.

Lemma ns_restore o name cfg old : o_ns o !! name = Some old → ns_Store name old (ns_Store name cfg o) = o.
Proof. intros. destruct o; unfold ns_Store, opt_ns_set; cbn in *. by rewrite insert_insert_eq, insert_id. Qed.

Lemma ns_forget o name cfg : o_ns o !! name = None → ns_Delete name (ns_Store name cfg o) = o.
Proof. intros. destruct o; unfold ns_Delete, ns_Store, opt_ns_set; cbn in *. by rewrite delete_insert_id. Qed.

Lemma ns_undelete o name cfg : o_ns o !! name = Some cfg → ns_Store name cfg (ns_Delete name o) = o.
Proof. intros. destruct o; unfold ns_Delete, ns_Store, opt_ns_set; cbn in *. by rewrite insert_delete_id. Qed.

(** Every command that changes the schedule, replication, server or namespace
    configuration or the cluster version is atomic with respect to its storage:
    when it returns an error the options are exactly what they were, and when it
    succeeds they have the requested change and the storage holds them. *)
Theorem option_commands_atomic (c : option_cmd) o s o' s' r :
  kv_ok s → run_cmd c (o, s) = ((o', s'), r) →
  kv_ok s' ∧
  match r with
  | inl _ => o' = o
  | inr _ => o' = cmd_effect c o ∧ (stored_config s' (current_config o') ∨ o' = o ∧ s' = s)
  end.
Proof.
  intros Hok Hrun.
  assert (∀ f undo, undo (f o) = o → cmd_effect c o = f o →
    (modify f;; persist_or undo) (o, s) = ((o', s'), r) →
    kv_ok s' ∧ match r with
               | inl _ => o' = o
               | inr _ => o' = cmd_effect c o ∧ (stored_config s' (current_config o') ∨ o' = o ∧ s' = s)
               end) as Hchange.
  { intros f undo Hundo Heff Hm. destruct (change_spec f undo o s o' s' r Hok Hundo Hm) as [Hok' Hr].
    split; [done|]. destruct r; [done|]. rewrite Heff. naive_solver. }
  destruct c; cbn [run_cmd] in Hrun.
  - unfold SetScheduleConfig in Hrun. rewrite M_bind_eq in Hrun. unfold lift_result in Hrun.
    destruct (ScheduleConfig_validate registered cfg); [by simplify_eq|].
    eapply Hchange; [| |exact Hrun]; [by destruct o|done].
  - unfold SetReplicationConfig in Hrun. rewrite M_bind_eq in Hrun. unfold lift_result in Hrun.
    destruct (ReplicationConfig_validate cfg); [by simplify_eq|].
    eapply Hchange; [| |exact Hrun]; [by destruct o|done].
  - eapply Hchange; [| |exact Hrun]; [by destruct o|done].
  - unfold SetNamespaceConfig in Hrun. rewrite M_bind_eq in Hrun. cbn [options] in Hrun.
    destruct (o_ns o !! name) as [old|] eqn:Hns; (eapply Hchange; [| |exact Hrun]; [|done]).
    + by apply ns_restore.
    + by apply ns_forget.
  - unfold DeleteNamespaceConfig in Hrun. rewrite M_bind_eq in Hrun. cbn [options] in Hrun.
    destruct (o_ns o !! name) as [old|] eqn:Hns.
    + eapply Hchange; [| |exact Hrun]; [by apply ns_undelete|done].
    + injection Hrun as <- <- <-. split; [done|]. split; [|by right].
      destruct o; unfold cmd_effect, ns_Delete, opt_ns_set; cbn in *. by rewrite delete_id.
  - unfold SetClusterVersion in Hrun. rewrite M_bind_eq in Hrun. unfold lift_result in Hrun.
    destruct (ParseVersion v) as [e|ver] eqn:Hv; [by simplify_eq|].
    eapply Hchange; [| |exact Hrun]; [by destruct o|]. cbn. by rewrite Hv.
Qed.
End transactions.

(** ** Label properties *)

Section label_property.
Context {S V : Type} `{!KVBase S, !KVLaws S} `{!ConfigJson V}.
Implicit Types (o : scheduleOption V) (s : S).

Definition has_label o (typ k v : bytes) : Prop := mkStoreLabel k v ∈ labels_of (o_labelProperty o) typ.

Lemma has_label_Delete o typ k v : ¬ has_label (DeleteLabelProperty typ k v o) typ k v.
Proof.
  unfold has_label, DeleteLabelProperty, labels_of; cbn. case_bool_decide as Hl; cbn.
  - rewrite lookup_delete_eq. cbn. set_solver.
  - rewrite lookup_insert_eq. cbn. rewrite list_elem_of_filter. naive_solver.
Qed.

Lemma has_label_Set o typ k v : has_label (SetLabelProperty typ k v o) typ k v.
Proof.
  unfold has_label, SetLabelProperty. case_bool_decide as Hl; cbn.
  - unfold labels_of in *. by destruct (o_labelProperty o).
  - rewrite lookup_insert_eq. cbn. set_solver.
Qed.

Lemma has_label_Set_other o typ k v typ' k' v' : (typ', k', v') ≠ (typ, k, v) →
  has_label (SetLabelProperty typ k v o) typ' k' v' ↔ has_label o typ' k' v'.
Proof.
  intros Hne. unfold has_label, SetLabelProperty. case_bool_decide; [done|]. cbn.
  unfold labels_of; cbn. destruct (decide (typ' = typ)) as [->|Ht].
  - rewrite lookup_insert_eq; cbn. rewrite elem_of_app, list_elem_of_singleton.
    destruct (o_labelProperty o); cbn; naive_solver.
  - rewrite lookup_insert_ne by done. by destruct (o_labelProperty o).
Qed.

Lemma has_label_Delete_other o typ k v typ' k' v' : (typ', k', v') ≠ (typ, k, v) →
  has_label (DeleteLabelProperty typ k v o) typ' k' v' ↔ has_label o typ' k' v'.
Proof.
  intros Hne. unfold has_label, DeleteLabelProperty, labels_of; cbn.
  set (cfg := default ∅ (o_labelProperty o)).
  assert (default [] (o_labelProperty o ≫= (.!! typ')) = default [] (cfg !! typ')) as -> by
    by subst cfg; destruct (o_labelProperty o).
  destruct (decide (typ' = typ)) as [->|Ht].
  - assert (mkStoreLabel k' v' ∈ filter (λ l, l ≠ mkStoreLabel k v) (default [] (cfg !! typ)) ↔
      mkStoreLabel k' v' ∈ default [] (cfg !! typ)) as Hf by (rewrite list_elem_of_filter; naive_solver).
    case_bool_decide as Hl; cbn.
    + rewrite lookup_delete_eq. rewrite <- Hf, Hl. done.
    + by rewrite lookup_insert_eq.
  - case_bool_decide; cbn; [by rewrite lookup_delete_ne|by rewrite lookup_insert_ne].
Qed.

(** Setting and deleting a label property change that property only, and take
    effect when they are persisted; but when persisting fails the undoing is not
    the identity: a failed [SetLabelProperty] leaves the property deleted even if it
    was set before the call, and a failed [DeleteLabelProperty] leaves it set even
    if it was not. *)
Theorem label_property_rollback o s typ k v set o' s' r :
  kv_ok s →
  (if set : bool then server_SetLabelProperty typ k v (o, s) else server_DeleteLabelProperty typ k v (o, s))
    = ((o', s'), r) →
  (∀ typ' k' v', (typ', k', v') ≠ (typ, k, v) → has_label o' typ' k' v' ↔ has_label o typ' k' v') ∧
  match r with
  | inr _ => (has_label o' typ k v ↔ set = true) ∧ stored_config s' (current_config o')
  | inl _ => has_label o' typ k v ↔ set = false
  end.
Proof.
  intros Hok Hrun. destruct set.
  - change (persist_or (DeleteLabelProperty typ k v) (SetLabelProperty typ k v o, s) = ((o', s'), r)) in Hrun.
    destruct (persist_or_spec _ _ _ _ _ _ Hok Hrun) as [_ Hr]. destruct r.
    + rewrite Hr. split; [|by split; [intros ?%has_label_Delete|]].
      intros. by rewrite has_label_Delete_other, has_label_Set_other.
    + destruct Hr as [-> ?]. split; [intros; by apply has_label_Set_other|].
      split; [|done]. split; [done|intros _; apply has_label_Set].
  - change (persist_or (SetLabelProperty typ k v) (DeleteLabelProperty typ k v o, s) = ((o', s'), r)) in Hrun.
    destruct (persist_or_spec _ _ _ _ _ _ Hok Hrun) as [_ Hr]. destruct r.
    + rewrite Hr. split; [|by split; [|intros _; apply has_label_Set]].
      intros. by rewrite has_label_Set_other, has_label_Delete_other.
    + destruct Hr as [-> ?]. split; [intros; by apply has_label_Delete_other|].
      split; [|done]. split; [intros ?%has_label_Delete; done|done].
Qed.
End label_property.

(** ** Reloading *)

(** At most one entry per scheduler type and arguments. *)
Definition scheduler_key (c : SchedulerConfig) : bytes * option (list bytes) := (sc_Type c, sc_Args c).

Lemma same_scheduler_spec c d : same_scheduler c d = true ↔ scheduler_key c = scheduler_key d.
Proof.
  unfold same_scheduler, scheduler_key. rewrite bool_decide_eq_true.
  split; [intros [-> ->]|intros [= -> ->]]; done.
Qed.

(** The schedulers after a reload: those the server knows, disabled or not as the
    persisted entry says, then the persisted ones it did not know. *)
Lemma adjusted_schedulers_spec mine pers c : NoDup (scheduler_key <$> pers) →
  c ∈ adjusted_schedulers mine pers ↔
    (c ∈ pers ∨ c ∈ mine ∧ scheduler_key c ∉ scheduler_key <$> pers).
Proof.
  intros Hnd. unfold adjusted_schedulers.
  set (adj := λ s, match find_first (same_scheduler s) pers with
                   | Some ps => mkSchedulerConfig (sc_Type s) (sc_Args s) (sc_Disable ps)
                   | None => s
                   end).
  assert (∀ m, scheduler_key (adj m) = scheduler_key m) as Hkey.
  { intros m. unfold adj. by case_match. }
  assert (∀ m p, p ∈ pers → scheduler_key m = scheduler_key p → adj m = p) as Hadj.
  { intros m p Hp Hk. unfold adj. destruct (find_first _ pers) as [q|] eqn:Hf.
    - apply find_first_Some in Hf as [Hq Hs%same_scheduler_spec].
      assert (q = p) as ->; [|destruct m, p; unfold scheduler_key in Hk; by simplify_eq/=].
      apply (NoDup_fmap_inj scheduler_key pers); [done|done|done|by rewrite <- Hs].
    - rewrite find_first_None in Hf. destruct (same_scheduler m p) eqn:Hs.
      + by rewrite Hf in Hs.
      + by rewrite (proj2 (same_scheduler_spec m p)) in Hs. }
  assert (∀ m, scheduler_key m ∉ scheduler_key <$> pers → adj m = m) as Hfresh.
  { intros m Hm. unfold adj. destruct (find_first _ pers) as [q|] eqn:Hf; [|done].
    apply find_first_Some in Hf as [Hq Hs%same_scheduler_spec]. destruct Hm. rewrite Hs. by apply list_elem_of_fmap_2. }
  rewrite elem_of_app, list_elem_of_filter, list_elem_of_fmap. split.
  - intros [(m & -> & Hm)|[_ Hp]]; [|by left].
    destruct (decide (scheduler_key m ∈ scheduler_key <$> pers)) as [(p & Hk & Hp)%list_elem_of_fmap|Hn].
    + left. by rewrite (Hadj m p).
    + right. by rewrite Hfresh.
  - intros [Hp|[Hm Hn]].
    + destruct (find_first (λ s, same_scheduler s c) (adj <$> mine)) as [q|] eqn:Hf; [left|by right].
      apply find_first_Some in Hf as [(m & -> & Hm)%list_elem_of_fmap Hs%same_scheduler_spec].
      exists m. rewrite Hkey in Hs. split; [|done]. by rewrite (Hadj m c).
    + left. exists c. by rewrite Hfresh.
Qed.

Section reload.
Context {S V : Type} `{!KVBase S, !KVLaws S} `{!ConfigJson V, !ConfigJsonLaws V}.
Implicit Types (o : scheduleOption V) (s : S).

(** The entry of a union of label properties. *)
Definition reloaded_labels (c : Config V) o (typ : bytes) : list StoreLabel :=
  match cfg_LabelProperty c with
  | None => []
  | Some m => match m !! typ with Some l => l | None => labels_of (o_labelProperty o) typ end
  end.

Lemma LoadConfig_spec s s' cfg c r : kv_ok s → stored_config s c → LoadConfig cfg s = (s', r) →
  kv_ok s' ∧ kv_view s' = kv_view s ∧
  ∀ loaded, r = inr loaded → loaded = Some (mkConfig (cfg_Schedule c) (cfg_Replication c)
      (cfg_Namespace c ∪ cfg_Namespace cfg)
      (match cfg_LabelProperty c with None => None | Some m => Some (m ∪ default ∅ (cfg_LabelProperty cfg)) end)
      (cfg_ClusterVersion c) (cfg_PDServerCfg c)).
Proof.
  intros Hok (b & Hb & Hview) Hrun. unfold LoadConfig in Hrun. rewrite M_bind_eq in Hrun.
  destruct (Load configPath s) as [s1 [e|v]] eqn:Hl;
    destruct (Load_law _ _ _ _ Hok Hl) as (Hok1 & Hv1 & Hval); [by simplify_eq|].
  destruct (json_roundtrip c b cfg Hb) as [Hne Hu].
  rewrite (Hval v eq_refl), Hview in Hrun. cbn [default] in Hrun.
  case_bool_decide; [done|]. rewrite M_bind_eq in Hrun. unfold lift_result in Hrun.
  cbn [default from_option id] in Hrun. rewrite Hu in Hrun.
  injection Hrun as <- <-. split; [done|]. split; [done|]. by intros ? [= <-].
Qed.

Lemma reload_loaded o s s' o' r c : kv_ok s → stored_config s c → reload (o, s) = ((o', s'), r) →
  kv_ok s' ∧
  match r with
  | inl _ => o' = o
  | inr _ =>
      o' = mkScheduleOption
        (set_Schedulers (adjusted_schedulers (Schedulers (o_v o)) (Schedulers (cfg_Schedule c))) (cfg_Schedule c))
        (cfg_Replication c) (cfg_Namespace c ∪ o_ns o)
        (match cfg_LabelProperty c with None => None | Some m => Some (m ∪ default ∅ (o_labelProperty o)) end)
        (cfg_ClusterVersion c) (cfg_PDServerCfg c)
  end.
Proof.
  intros Hok Hst Hrun. unfold reload in Hrun. rewrite M_bind_eq in Hrun. cbn [options] in Hrun.
  rewrite M_bind_eq in Hrun. unfold on_storage in Hrun.
  destruct (LoadConfig _ s) as [s1 [e|loaded]] eqn:Hl;
    destruct (LoadConfig_spec _ _ _ _ _ Hok Hst Hl) as (Hok1 & _ & Hload); [by simplify_eq|].
  rewrite (Hload loaded eq_refl) in Hrun. cbn in Hrun. simplify_eq. split; [done|].
  f_equal. by rewrite <- (assoc_L (∪)), (idemp_L (∪)).
Qed.

(** Reloading the options when a server becomes the leader takes over every
    scalar of the persisted configuration, and fails without changing anything
    when the storage fails; but namespaces, label properties and schedulers that
    the server remembers and that the persisted configuration no longer has are
    kept, so what another leader deleted comes back. *)
Theorem reload_keeps_deleted o s s' o' c : kv_ok s → stored_config s c →
  NoDup (scheduler_key <$> Schedulers (cfg_Schedule c)) →
  reload (o, s) = ((o', s'), inr ()) →
  set_Schedulers [] (o_v o') = set_Schedulers [] (cfg_Schedule c) ∧
  o_rep o' = cfg_Replication c ∧ o_clusterVersion o' = cfg_ClusterVersion c ∧
  o_pdServerConfig o' = cfg_PDServerCfg c ∧
  (∀ x, x ∈ Schedulers (o_v o') ↔ x ∈ Schedulers (cfg_Schedule c) ∨
     x ∈ Schedulers (o_v o) ∧ scheduler_key x ∉ scheduler_key <$> Schedulers (cfg_Schedule c)) ∧
  (∀ name, o_ns o' !! name = match cfg_Namespace c !! name with Some n => Some n | None => o_ns o !! name end) ∧
  (∀ typ, labels_of (o_labelProperty o') typ = reloaded_labels c o typ).
Proof.
  intros Hok Hst Hnd Hrun. destruct (reload_loaded _ _ _ _ _ _ Hok Hst Hrun) as [_ ->]. cbn.
  repeat split; try done.
  - by apply adjusted_schedulers_spec.
  - by apply adjusted_schedulers_spec.
  - intros name. rewrite lookup_union. by destruct (cfg_Namespace c !! name), (o_ns o !! name).
  - intros typ. unfold reloaded_labels, labels_of. destruct (cfg_LabelProperty c) as [m|]; [|done]. cbn.
    rewrite lookup_union. destruct (m !! typ) as [l|], (o_labelProperty o) as [m'|]; cbn; try done.
    + by destruct (m' !! typ).
    + by destruct (m' !! typ).
Qed.

Lemma adjusted_schedulers_self l : NoDup (scheduler_key <$> l) → adjusted_schedulers l l = l.
Proof.
  intros Hnd. unfold adjusted_schedulers.
  match goal with |- (?f <$> _) ++ _ = _ => assert (f <$> l = l) as -> end.
  { rewrite <- (list_fmap_id l) at 2. apply list_fmap_ext. intros i c Hc. apply list_elem_of_lookup_2 in Hc.
    destruct (find_first _ l) as [q|] eqn:Hf; [|done].
    apply find_first_Some in Hf as [Hq Hs%same_scheduler_spec].
    rewrite (NoDup_fmap_inj scheduler_key l q c) by done. by destruct c. }
  rewrite filter_none; [by rewrite app_nil_r|].
  intros c Hc Hf. rewrite find_first_None in Hf. specialize (Hf c Hc).
  by rewrite (proj2 (same_scheduler_spec c c)) in Hf.
Qed.

(** Options that a server persists and reloads are unchanged. *)
Theorem persist_reload o s o1 s1 o2 s2 : kv_ok s →
  NoDup (scheduler_key <$> Schedulers (o_v o)) →
  persist (o, s) = ((o1, s1), inr ()) → reload (o1, s1) = ((o2, s2), inr ()) → o1 = o ∧ o2 = o.
Proof.
  intros Hok Hnd Hp Hr. unfold persist in Hp. rewrite M_bind_eq in Hp. cbn in Hp.
  destruct (SaveConfig (current_config o) s) as [s' r] eqn:Hs. injection Hp as <- <- ->.
  destruct (SaveConfig_spec _ _ _ _ Hok Hs) as [Hok1 Hst]. specialize (Hst eq_refl).
  split; [done|]. destruct (reload_loaded _ _ _ _ _ _ Hok1 Hst Hr) as [_ ->]. cbn.
  rewrite adjusted_schedulers_self, (idemp_L (∪)) by done.
  destruct o as [v ? ? [m|] ? ?]; cbn; rewrite ?(idemp_L (∪)); by destruct v.
Qed.
End reload.

(** ** An instance *)

Module ConfigDemo.
Import SortedList.
#[export] Instance ScheduleConfig_eq_dec : EqDecision ScheduleConfig.
Proof. solve_decision. Defined.
#[export] Instance ReplicationConfig_eq_dec : EqDecision ReplicationConfig.
Proof. solve_decision. Defined.
#[export] Instance NamespaceConfig_eq_dec : EqDecision NamespaceConfig.
Proof. solve_decision. Defined.
#[export] Instance PDServerConfig_eq_dec : EqDecision PDServerConfig.
Proof. solve_decision. Defined.
#[export] Instance Config_eq_dec : EqDecision (Config Z).
Proof. solve_decision. Defined.

Definition schedule0 : ScheduleConfig :=
  (ScheduleConfig_adjust (λ _, true) None
     (mkScheduleConfig 0 0 0 0 0 false 0 0 0 0 0 0 0 0 (f64_of_Z 0) (f64_of_Z 0) (f64_of_Z 0) (f64_of_Z 0) 0
        false false false false false false false [])).1.
Definition ns1 : bytes := str "ns1".
Definition cfg0 : Config Z :=
  mkConfig schedule0 (mkReplicationConfig 3 [str "zone"] false) ∅ (Some ∅) 2 (mkPDServerConfig true).
Definition with_ns (c : Config Z) : Config Z :=
  mkConfig (cfg_Schedule c) (cfg_Replication c) {[ ns1 := mkNamespaceConfig 1 2 3 4 5 6 ]}
    (cfg_LabelProperty c) (cfg_ClusterVersion c) (cfg_PDServerCfg c).

(** An encoding of two configurations. *)
Definition marshal (c : Config Z) : result bytes :=
  if bool_decide (c = cfg0) then inr [Byte.x00]
  else if bool_decide (c = with_ns cfg0) then inr [Byte.x01]
  else inl (Error "unsupported value").
Definition merge (c p : Config Z) : Config Z :=
  mkConfig (cfg_Schedule c) (cfg_Replication c) (cfg_Namespace c ∪ cfg_Namespace p)
    (match cfg_LabelProperty c with None => None | Some m => Some (m ∪ default ∅ (cfg_LabelProperty p)) end)
    (cfg_ClusterVersion c) (cfg_PDServerCfg c).
#[export] Instance demo_json : ConfigJson Z := {
  json_Marshal := marshal;
  json_Unmarshal b p :=
    if bool_decide (b = [Byte.x00]) then inr (merge cfg0 p)
    else if bool_decide (b = [Byte.x01]) then inr (merge (with_ns cfg0) p)
    else inl (Error "syntax error");
}.
#[export] Instance demo_json_laws : ConfigJsonLaws Z.
Proof.
  split. intros c b p. cbn. unfold marshal. case_bool_decide as H1; [intros [= <-]; by subst|].
  case_bool_decide as H2; [|done]. intros [= <-]. by subst.
Qed.
#[export] Instance demo_semver : Semver Z := {
  NewVersion b := inr (Z.of_nat (length b));
  LessThan := Z.ltb;
  Major v := v;
  Minor _ := 0;
}.

Definition kv0 : memoryKV (list memoryKVItem) := NewMemoryKV.
Lemma kv0_ok : kv_ok kv0.
Proof. apply bt_New_ok. Qed.

Definition o0 : scheduleOption Z := newScheduleOption cfg0.
Definition o1 : scheduleOption Z := newScheduleOption (with_ns cfg0).

Lemma option_commands_atomic_witness :
  kv_ok kv0 ∧
  let '((o', s'), r) := run_cmd (λ _, true) (CmdNamespace ns1 (mkNamespaceConfig 1 2 3 4 5 6)) (o0, kv0) in
  r = inr () ∧ o' = ns_Store ns1 (mkNamespaceConfig 1 2 3 4 5 6) o0.
Proof.
  pose proof kv0_ok as Hok.
  split; [exact Hok|].
  destruct (run_cmd (λ _, true) (CmdNamespace ns1 (mkNamespaceConfig 1 2 3 4 5 6)) (o0, kv0))
    as [[o' s'] [e|[]]] eqn:E; [vm_compute in E; discriminate|].
  split; [reflexivity|].
  destruct (option_commands_atomic (λ _, true) _ _ _ _ _ _ Hok E) as [_ [H _]]. exact H.
Defined.

(** The label is set; setting it again fails and deletes it. *)
Definition o_label : scheduleOption Z := SetLabelProperty ns1 (str "k") (str "v") o0.

Lemma label_property_rollback_witness :
  has_label o_label ns1 (str "k") (str "v") ∧
  ∃ o' e, (server_SetLabelProperty ns1 (str "k") (str "v") (o_label, kv0)).1.1 = o' ∧
    (server_SetLabelProperty ns1 (str "k") (str "v") (o_label, kv0)).2 = inl e ∧
    ¬ has_label o' ns1 (str "k") (str "v").
Proof.
  split; [apply has_label_Set|].
  destruct (server_SetLabelProperty ns1 (str "k") (str "v") (o_label, kv0)) as [[o' s'] [e|u]] eqn:E;
    [|vm_compute in E; discriminate].
  exists o', e. split; [reflexivity|]. split; [reflexivity|].
  destruct (label_property_rollback o_label kv0 ns1 (str "k") (str "v") true o' s' (inl e)) as [_ H].
  - exact kv0_ok.
  - exact E.
  - intros Hl. apply H in Hl. discriminate.
Defined.

Definition kv1 : memoryKV (list memoryKVItem) := (SaveConfig cfg0 kv0).1.

Lemma kv1_ok : kv_ok kv1 ∧ stored_config kv1 cfg0.
Proof.
  destruct (SaveConfig cfg0 kv0) as [s r] eqn:E. assert (kv1 = s) as -> by (unfold kv1; by rewrite E).
  assert (r = inr ()) as -> by (vm_compute in E; by injection E).
  destruct (SaveConfig_spec cfg0 kv0 s (inr ()) kv0_ok E) as [H1 H2]. by split; [|apply H2].
Qed.

(** The persisted configuration has no namespace; the server remembers one. *)
Lemma reload_keeps_deleted_witness :
  cfg_Namespace cfg0 !! ns1 = None ∧
  o_ns (reload (o1, kv1)).1.1 !! ns1 = Some (mkNamespaceConfig 1 2 3 4 5 6).
Proof.
  split; [reflexivity|].
  destruct (reload (o1, kv1)) as [[o' s'] [e|[]]] eqn:E; [vm_compute in E; discriminate|].
  destruct kv1_ok as [Hok Hst].
  destruct (reload_keeps_deleted o1 kv1 s' o' cfg0 Hok Hst) as (_ & _ & _ & _ & _ & H & _).
  - refine (bool_decide_unpack _ _). vm_compute. exact I.
  - exact E.
  - cbn [fst]. rewrite H. reflexivity.
Defined.

Lemma persist_reload_witness :
  let '((p1, s1), r1) := persist (o0, kv0) in
  let '((p2, s2), r2) := reload (p1, s1) in
  r1 = inr () ∧ r2 = inr () ∧ p2 = o0.
Proof.
  destruct (persist (o0, kv0)) as [[p1 s1] [e|[]]] eqn:E; [vm_compute in E; discriminate|].
  destruct (reload (p1, s1)) as [[p2 s2] [e|[]]] eqn:E2.
  - vm_compute in E. injection E as <- <-. vm_compute in E2. discriminate.
  - split; [reflexivity|]. split; [reflexivity|].
    destruct (persist_reload o0 kv0 p1 s1 p2 s2 kv0_ok) as [_ H].
    + refine (bool_decide_unpack _ _). vm_compute. exact I.
    + exact E.
    + exact E2.
    + exact H.
Defined.
End ConfigDemo.
