(* ===== verification/ClusterInfo.v ===== *)
(** * The cached cluster (server/cluster_info.go, server/core/basic_cluster.go)

    [clusterInfo]: the stores, the regions, the statistics and the storage of a
    cluster, and the handlers of store and region heartbeats.  A method that
    holds the lock throughout is one step; [handleRegionHeartbeat] reads under
    the read lock, saves without a lock and commits under the write lock, and is
    the composition of these three steps. *)

From S2P Require Import Prelude GoBytes BTree Strconv Strings Float KV Metapb Region RegionTree RegionMap RegionsInfo Cache Storage Store StoreStorage Statistics Config.
From Corelib Require Import SpecFloat.

(** ** prepareChecker *)

Record prepareChecker := mkPrepareChecker {
  reactiveRegions : gmap Z Z;
  pc_start : Z;
  pc_sum : Z;
  pc_isPrepared : bool;
}.

Definition newPrepareChecker (now : Z) : prepareChecker := mkPrepareChecker ∅ now 0 false.

Definition collect (region : RegionInfo) (checker : prepareChecker) : prepareChecker :=
  mkPrepareChecker (foldl (λ m p, bump (Peer_StoreId p) 1 m) (reactiveRegions checker) (GetPeers region))
    (pc_start checker) (int64 (pc_sum checker + 1)) (pc_isPrepared checker).

Definition collectFactor : f64 := tenths 8.
Definition collectTimeout : Z := 5 * Minute.

(** ** clusterInfo *)

(** A region heartbeat is sent to the syncer over [changedRegions], a channel with
    room for 10000 regions; its content is the list, oldest first. *)
Record clusterInfo (S D T V : Type) := mkClusterInfo {
  ci_heap : heap;
  ci_stores : StoresInfo;
  ci_regions : RegionsInfo T;
  ci_storage : option (Storage S D);
  ci_meta : ClusterMeta;
  ci_opt : scheduleOption V;
  ci_regionStats : option RegionStatistics;
  ci_labelLevelStats : LabelLevelStatistics;
  ci_storesStats : StoresStats;
  ci_prepareChecker : prepareChecker;
  ci_changedRegions : list RegionInfo;
  ci_hotSpotCache : HotSpotCache;
}.
Arguments mkClusterInfo {S D T V}.
Arguments ci_heap {S D T V}.
Arguments ci_stores {S D T V}.
Arguments ci_regions {S D T V}.
Arguments ci_storage {S D T V}.
Arguments ci_meta {S D T V}.
Arguments ci_opt {S D T V}.
Arguments ci_regionStats {S D T V}.
Arguments ci_labelLevelStats {S D T V}.
Arguments ci_storesStats {S D T V}.
Arguments ci_prepareChecker {S D T V}.
Arguments ci_changedRegions {S D T V}.
Arguments ci_hotSpotCache {S D T V}.

Definition defaultChangedRegionsLimit : Z := 10000.

Section cluster.
Context {S D T V : Type} `{!KVBase S} `{!LevelDB D} `{!BTreeOps Region T}.
Context `{!Proto Region, !Proto Store, !Proto ClusterMeta} `{!Unicode} `{!Stats} `{!FloatText}.
Context `{!Classifier} `{!ConfigJson V} `{!Semver V}.
(** The order in which the map of stores is ranged over. *)
Variable range : list StoreInfo → list StoreInfo.

Abbreviation clusterInfo := (clusterInfo S D T V).
Abbreviation MC := (M clusterInfo).
Implicit Types c : clusterInfo.

(** *** Access to the parts *)

Definition set_stores (h : heap) (ss : StoresInfo) c : clusterInfo :=
  mkClusterInfo h ss (ci_regions c) (ci_storage c) (ci_meta c) (ci_opt c) (ci_regionStats c)
    (ci_labelLevelStats c) (ci_storesStats c) (ci_prepareChecker c) (ci_changedRegions c) (ci_hotSpotCache c).
Definition set_regions (r : RegionsInfo T) c : clusterInfo :=
  mkClusterInfo (ci_heap c) (ci_stores c) r (ci_storage c) (ci_meta c) (ci_opt c) (ci_regionStats c)
    (ci_labelLevelStats c) (ci_storesStats c) (ci_prepareChecker c) (ci_changedRegions c) (ci_hotSpotCache c).
Definition set_storage (s : Storage S D) c : clusterInfo :=
  mkClusterInfo (ci_heap c) (ci_stores c) (ci_regions c) (Some s) (ci_meta c) (ci_opt c) (ci_regionStats c)
    (ci_labelLevelStats c) (ci_storesStats c) (ci_prepareChecker c) (ci_changedRegions c) (ci_hotSpotCache c).
Definition set_cluster_meta (m : ClusterMeta) c : clusterInfo :=
  mkClusterInfo (ci_heap c) (ci_stores c) (ci_regions c) (ci_storage c) m (ci_opt c) (ci_regionStats c)
    (ci_labelLevelStats c) (ci_storesStats c) (ci_prepareChecker c) (ci_changedRegions c) (ci_hotSpotCache c).
Definition set_opt (o : scheduleOption V) c : clusterInfo :=
  mkClusterInfo (ci_heap c) (ci_stores c) (ci_regions c) (ci_storage c) (ci_meta c) o (ci_regionStats c)
    (ci_labelLevelStats c) (ci_storesStats c) (ci_prepareChecker c) (ci_changedRegions c) (ci_hotSpotCache c).
Definition set_statistics (rs : option RegionStatistics) (ls : LabelLevelStatistics) c : clusterInfo :=
  mkClusterInfo (ci_heap c) (ci_stores c) (ci_regions c) (ci_storage c) (ci_meta c) (ci_opt c) rs
    ls (ci_storesStats c) (ci_prepareChecker c) (ci_changedRegions c) (ci_hotSpotCache c).
Definition set_storesStats (s : StoresStats) c : clusterInfo :=
  mkClusterInfo (ci_heap c) (ci_stores c) (ci_regions c) (ci_storage c) (ci_meta c) (ci_opt c) (ci_regionStats c)
    (ci_labelLevelStats c) s (ci_prepareChecker c) (ci_changedRegions c) (ci_hotSpotCache c).
Definition set_prepareChecker (p : prepareChecker) c : clusterInfo :=
  mkClusterInfo (ci_heap c) (ci_stores c) (ci_regions c) (ci_storage c) (ci_meta c) (ci_opt c) (ci_regionStats c)
    (ci_labelLevelStats c) (ci_storesStats c) p (ci_changedRegions c) (ci_hotSpotCache c).
Definition set_changedRegions (l : list RegionInfo) c : clusterInfo :=
  mkClusterInfo (ci_heap c) (ci_stores c) (ci_regions c) (ci_storage c) (ci_meta c) (ci_opt c) (ci_regionStats c)
    (ci_labelLevelStats c) (ci_storesStats c) (ci_prepareChecker c) l (ci_hotSpotCache c).
Definition set_hotSpotCache (w : HotSpotCache) c : clusterInfo :=
  mkClusterInfo (ci_heap c) (ci_stores c) (ci_regions c) (ci_storage c) (ci_meta c) (ci_opt c) (ci_regionStats c)
    (ci_labelLevelStats c) (ci_storesStats c) (ci_prepareChecker c) (ci_changedRegions c) w.

Definition get : MC clusterInfo := λ c, (c, inr c).
Definition update (f : clusterInfo → clusterInfo) : MC unit := λ c, (f c, inr ()).
(** A computation that may panic. *)
Definition update_opt (msg : string) (f : clusterInfo → option clusterInfo) : MC unit := λ c,
  match f c with Some c' => (c', inr ()) | None => (c, inl (Panic msg)) end.
Definition on_stores {A} (m : M (heap * StoresInfo) A) : MC A := λ c,
  let '((h, ss), r) := m (ci_heap c, ci_stores c) in (set_stores h ss c, r).
(** [if c.storage != nil { if err := ...; err != nil { return err } }] *)
Definition if_storage (m : M (Storage S D) unit) : MC unit := λ c,
  match ci_storage c with
  | None => (c, inr ())
  | Some s => let '(s, r) := m s in (set_storage s c, r)
  end.
Definition on_base {A} (m : M S A) : M (Storage S D) A := with_base m.

(** *** Creation *)

Definition newClusterInfo (now : Z) (opt : scheduleOption V) (storage : option (Storage S D)) : option clusterInfo :=
  w ← NewHotSpotCache;
  Some (mkClusterInfo ∅ NewStoresInfo NewRegionsInfo storage (mkClusterMeta 0 0) opt None
    NewLabelLevelStatistics NewStoresStats (newPrepareChecker now) [] w).

(** [loadClusterInfo] on the cluster just created; [false] when the cluster is not
    bootstrapped.  [fuel] bounds the pages that are read. *)
Definition loadClusterInfo (fuel : nat) : MC bool := λ c,
  match ci_storage c with
  | None => (c, inl (Panic "nil storage"))
  | Some s =>
      match LoadMeta s with
      | (s, inl err) => (set_storage s c, inl err)
      | (s, inr None) => (set_storage s c, inr false)
      | (s, inr (Some meta)) =>
          let '((b, (h, ss)), r) := LoadStores fuel (st_Base s, (ci_heap c, ci_stores c)) in
          let s := mkStorage b (st_regionStorage s) (st_useRegionStorage s) in
          let c := set_stores h ss (set_cluster_meta meta c) in
          match r with
          | inl err => (set_storage s c, inl err)
          | inr _ =>
              let '((s, ri), r) := LoadRegions fuel (s, ci_regions c) in
              let c := set_regions ri (set_storage s c) in
              match r with
              | inl err => (c, inl err)
              | inr _ =>
                  let stats := foldl (λ st store, CreateRollingStoreStats st (store_GetID (ci_heap c) store))
                    (ci_storesStats c) (range (stores_GetStores (ci_stores c))) in
                  (set_storesStats stats c, inr true)
              end
          end
      end
  end.

(** *** Versions *)

Variable PDReleaseVersion : bytes.

(** Only logs, but stops the process on an illegal release version. *)
Definition CheckPDVersion : result () :=
  if bool_decide (PDReleaseVersion = str "None") then
    match MinSupportedVersion (V:=V) Base with inl err => inl err | inr _ => inr () end
  else
    match MustParseVersion (V:=V) PDReleaseVersion with inl err => inl err | inr _ => inr () end.

Fixpoint min_version (h : heap) (stores : list StoreInfo) (minVersion : option V) : result (option V) :=
  match stores with
  | [] => inr minVersion
  | s :: stores =>
      if IsTombstone h s then min_version h stores minVersion
      else
        match MustParseVersion (store_GetVersion h s) with
        | inl err => inl err
        | inr v =>
            match minVersion with
            | None => min_version h stores (Some v)
            | Some m => min_version h stores (Some (if LessThan v m then v else m))
            end
        end
  end.

(** The minimum is dereferenced even if there is none. *)
Definition OnStoreVersionChange : MC unit := λ c,
  let clusterVersion := o_clusterVersion (ci_opt c) in
  match min_version (ci_heap c) (range (stores_GetStores (ci_stores c))) None with
  | inl err => (c, inl err)
  | inr None => (c, inl (Panic "nil minVersion"))
  | inr (Some minVersion) =>
      if LessThan clusterVersion minVersion then
        let o := opt_SetClusterVersion minVersion (ci_opt c) in
        let c := set_opt o c in
        match ci_storage c with
        | None => (c, inl (Panic "nil storage"))
        | Some s =>
            let '(s, _) := on_base (SaveConfig (current_config o)) s in
            (set_storage s c, CheckPDVersion)
        end
      else (c, inr ())
  end.

Definition IsFeatureSupported (f : Feature) : MC bool := λ c,
  match MinSupportedVersion f with
  | inl err => (c, inl err)
  | inr minSupportVersion => (c, inr (negb (LessThan (o_clusterVersion (ci_opt c)) minSupportVersion)))
  end.

(** [alloc] is the outcome of [c.id.Alloc()]. *)
Definition ci_AllocPeer (alloc : result Z) (storeID : Z) : result Peer :=
  match alloc with inl err => inl err | inr peerID => inr (mkPeer peerID storeID false) end.

Definition ci_IsRaftLearnerEnabled : MC bool :=
  supported ← IsFeatureSupported RaftLearner;
  c ← get;
  mret (supported && negb (DisableLearner (o_v (ci_opt c)))).

Definition putMetaLocked (meta : ClusterMeta) : MC unit :=
  if_storage (SaveMeta meta);;
  update (set_cluster_meta meta).

(** *** Stores *)

Definition ci_GetStore c (storeID : Z) : option StoreInfo := stores_GetStore (ci_stores c) storeID.
Definition ci_GetStores c : list StoreInfo := range (stores_GetStores (ci_stores c)).

Definition putStoreLocked (store : StoreInfo) : MC unit :=
  c ← get;
  if_storage (SaveStore Store_Id (deref (ci_heap c) (st_meta store)));;
  on_stores (SetStore store);;
  c ← get;
  update (set_storesStats (CreateRollingStoreStats (ci_storesStats c) (store_GetID (ci_heap c) store))).

Definition deleteStoreLocked (store : StoreInfo) : MC unit :=
  c ← get;
  if_storage (DeleteStore Store_Id (deref (ci_heap c) (st_meta store)));;
  on_stores (stores_DeleteStore store);;
  c ← get;
  update (set_storesStats (RemoveRollingStoreStats (ci_storesStats c) (store_GetID (ci_heap c) store))).

Definition BlockStore (storeID : Z) : MC unit := on_stores (stores_BlockStore storeID).
Definition UnblockStore (storeID : Z) : MC unit := on_stores (stores_UnblockStore storeID).
Definition AttachOverloadStatus (storeID : Z) (f : nat) : MC unit := on_stores (stores_AttachOverloadStatus storeID f).

Definition getRegionStoresLocked c (region : RegionInfo) : list StoreInfo :=
  omap (λ p, stores_GetStore (ci_stores c) (Peer_StoreId p)) (GetPeers region).
Definition takeRegionStoresLocked c (region : RegionInfo) : list StoreInfo :=
  omap (λ p, ci_stores c !! Peer_StoreId p) (GetPeers region).
Definition GetLeaderStore c (region : RegionInfo) : option StoreInfo :=
  stores_GetStore (ci_stores c) (Peer_GetStoreId (GetLeader region)).
(** In the order of ranging over the map of followers. *)
Definition GetFollowerStores c (region : RegionInfo) : list StoreInfo :=
  omap (stores_GetStore (ci_stores c)) (map_to_list (GetFollowers region)).*1.

(** *** Regions *)

Definition putRegionLocked (now : Z) (region : RegionInfo) : MC unit :=
  if_storage (SaveRegion now (GetMeta region));;
  update_opt "SetRegion" (λ c, r ← SetRegion (ci_regions c) region; Some (set_regions r.1 c)).

Definition dropRegion (id : Z) : MC unit :=
  update_opt "RemoveRegion" (λ c,
    match GetRegion (ci_regions c) id with
    | None => Some c
    | Some region => r ← RemoveRegion (ci_regions c) region; Some (set_regions r c)
    end).

Definition getRegionStats c (startKey endKey : bytes) : RegionStats := GetRegionStats (ci_regions c) startKey endKey.

Definition ci_IsRegionHot c (id : Z) : option bool :=
  IsRegionHot (ci_hotSpotCache c) id (int64 (HotRegionCacheHitsThreshold (o_v (ci_opt c)))).

Definition ci_RandHotRegionFromStore (perm : nat → list nat) c (store : Z) (kind : FlowKind) : option (option RegionInfo) :=
  r ← RandHotRegionFromStore perm (ci_hotSpotCache c) store kind (int64 (HotRegionCacheHitsThreshold (o_v (ci_opt c))));
  Some (st ← r; GetRegion (ci_regions c) (stat_RegionID st)).

(** *** Preparation *)

Fixpoint stores_prepared c (stores : list StoreInfo) : bool :=
  match stores with
  | [] => true
  | store :: stores =>
      if negb (IsUp (ci_heap c) store) then stores_prepared c stores
      else
        let storeID := store_GetID (ci_heap c) store in
        let active := default 0 (reactiveRegions (ci_prepareChecker c) !! storeID) in
        if f64_ltb (f64_of_Z active) (f64_mul (f64_of_Z (Z.of_nat (GetStoreRegionCount (ci_regions c) storeID))) collectFactor)
        then false
        else stores_prepared c stores
  end.

Definition isPrepared (now : Z) : MC bool := λ c,
  let checker := ci_prepareChecker c in
  if pc_isPrepared checker || (collectTimeout <? time_Sub now (pc_start checker)) then (c, inr true)
  else if f64_ltb (f64_of_Z (pc_sum checker)) (f64_mul (f64_of_Z (Z.of_nat (Length (ci_regions c)))) collectFactor)
  then (c, inr false)
  else if negb (stores_prepared c (ci_GetStores c)) then (c, inr false)
  else
    (set_prepareChecker (mkPrepareChecker (reactiveRegions checker) (pc_start checker) (pc_sum checker) true) c, inr true).

(** *** Store heartbeats *)

Definition handleStoreHeartbeat (now : Z) (stats : option StoreStats) : MC unit :=
  c ← get;
  let storeID := from_option Stats_StoreId 0 stats in
  match stores_GetStore (ci_stores c) storeID with
  | None => mfail storeNotFound
  | Some store =>
      let '(h, newStore) := Store_Clone (ci_heap c) store [SetStoreStats stats; SetLastHeartbeatTS now] in
      on_stores (λ '(_, ss), SetStore newStore (h, ss));;
      update_opt "nil RollingStoreStats" (λ c,
        st ← StoresStats_Observe (ci_storesStats c) (store_GetID (ci_heap c) newStore) (st_stats newStore);
        st ← UpdateTotalBytesRate (ci_heap c) (ci_GetStores c) st;
        Some (set_storesStats st c))
  end.

Definition updateStoreStatusLocked (id : Z) : MC unit := λ c,
  let r := ci_regions c in
  on_stores (UpdateStoreStatusLocked id (Z.of_nat (GetStoreLeaderCount r id)) (Z.of_nat (GetStoreRegionCount r id))
    (Z.of_nat (GetStorePendingPeerCount r id)) (GetStoreLeaderRegionSize r id) (GetStoreRegionSize r id)) c.

(** *** Region heartbeats *)

Definition ErrRegionIsStale : go_error := Error "region is stale".

(** What a heartbeat reads under the read lock: the cached region and what to do
    with the hot region caches. *)
Record heartbeat_read := mkHeartbeatRead {
  hr_origin : option RegionInfo;
  hr_isWriteUpdate : bool;
  hr_writeItem : option RegionStat;
  hr_isReadUpdate : bool;
  hr_readItem : option RegionStat;
}.

Variable simulating : bool.

Definition check_status (f : HotSpotCache → StoresStats → option (HotSpotCache * (bool * option RegionStat))) :
    MC (bool * option RegionStat) := λ c,
  match f (ci_hotSpotCache c) (ci_storesStats c) with
  | None => (c, inl (Panic "nil hot region item"))
  | Some (w, r) => (set_hotSpotCache w c, inr r)
  end.

Definition heartbeat_check (now : Z) (region : RegionInfo) : MC heartbeat_read :=
  c ← get;
  let origin := GetRegion (ci_regions c) (GetID region) in
  let version r := Epoch_GetVersion (Epoch r) in
  let stale :=
    match origin with
    | Some _ => None
    | None => find_first (λ item, version (GetMeta region) <? version item) (GetOverlaps (ci_regions c) region)
    end in
  match stale with
  | Some _ => mfail ErrRegionIsStale
  | None =>
      w ← check_status (λ w st, CheckWrite simulating now w region st);
      r ← check_status (λ w st, CheckRead simulating now w region st);
      mret (mkHeartbeatRead origin w.1 w.2 r.1 r.2)
  end.

(** Whether to save to the storage, to save to the cache, and whether the region
    is new; an error when the region is older than the cached one. *)
Definition heartbeat_decide (region : RegionInfo) (origin : option RegionInfo) : result (bool * bool * bool) :=
  match origin with
  | None => inr (true, true, true)
  | Some origin =>
      let r := GetRegionEpoch region in
      let o := GetRegionEpoch origin in
      if (Epoch_GetVersion r <? Epoch_GetVersion o) || (Epoch_GetConfVer r <? Epoch_GetConfVer o)
      then inl ErrRegionIsStale
      else
        let newer := (Epoch_GetVersion o <? Epoch_GetVersion r) || (Epoch_GetConfVer o <? Epoch_GetConfVer r) in
        let leader_changed := negb (Peer_GetId (GetLeader region) =? Peer_GetId (GetLeader origin)) in
        let isNew := leader_changed && (Peer_GetId (GetLeader origin) =? 0) in
        let sick x := negb (bool_decide (GetDownPeers x = [])) || negb (bool_decide (GetPendingPeers x = [])) in
        let peers_changed := negb (length (GetPeers region) =? length (GetPeers origin))%nat in
        let saveKV := newer || peers_changed in
        let saveCache := newer || leader_changed || sick region || sick origin || peers_changed
          || negb (GetApproximateSize region =? GetApproximateSize origin)
          || negb (GetApproximateKeys region =? GetApproximateKeys origin) in
        inr (saveKV, saveCache, isNew)
  end.

(** An error of the storage is logged; a full channel drops the region. *)
Definition heartbeat_save (now : Z) (region : RegionInfo) : MC unit := λ c,
  match ci_storage c with
  | None => (c, inr ())
  | Some s =>
      let '(s, r) := SaveRegion now (GetMeta region) s in
      let c := set_storage s c in
      match r with
      | inl (Panic msg) => (c, inl (Panic msg))
      | _ =>
          if Z.of_nat (length (ci_changedRegions c)) <? defaultChangedRegionsLimit
          then (set_changedRegions (ci_changedRegions c ++ [region]) c, inr ())
          else (c, inr ())
      end
  end.

(** Errors of the storage are logged. *)
Fixpoint delete_overlaps (overlaps : list Region) : M (Storage S D) unit :=
  match overlaps with
  | [] => mret ()
  | item :: overlaps =>
      r ← mcatch (DeleteRegion item);
      match r with
      | inl (Panic msg) => mfail (Panic msg)
      | _ => delete_overlaps overlaps
      end
  end.

Fixpoint update_statuses (ids : list Z) : MC unit :=
  match ids with
  | [] => mret ()
  | id :: ids => updateStoreStatusLocked id;; update_statuses ids
  end.

Definition heartbeat_cache (region : RegionInfo) (origin : option RegionInfo) : MC unit :=
  c ← get;
  match SetRegion (ci_regions c) region with
  | None => mfail (Panic "SetRegion")
  | Some (r, overlaps) =>
      update (set_regions r);;
      if_storage (delete_overlaps overlaps);;
      update (λ c, set_statistics
        ((λ rs, foldl ClearDefunctRegion rs (Region_Id <$> overlaps)) <$> ci_regionStats c)
        (foldl label_ClearDefunctRegion (ci_labelLevelStats c) (Region_Id <$> overlaps)) c);;
      match origin with
      | Some origin => update_statuses (Peer_StoreId <$> GetPeers origin)
      | None => mret ()
      end;;
      update_statuses (Peer_StoreId <$> GetPeers region)
  end.

(** Under the write lock. *)
Definition heartbeat_commit (region : RegionInfo) (read : heartbeat_read) (saveCache isNew : bool) : MC unit :=
  (if isNew then update (λ c, set_prepareChecker (collect region (ci_prepareChecker c)) c) else mret ());;
  (if saveCache then heartbeat_cache region (hr_origin read) else mret ());;
  update (λ c, set_statistics
    ((λ rs, Observe (GetMaxReplicas (ci_opt c)) (ci_heap c) rs region (takeRegionStoresLocked c region)) <$> ci_regionStats c)
    (ci_labelLevelStats c) c);;
  update (λ c, if hr_isWriteUpdate read
    then set_hotSpotCache (Update (ci_hotSpotCache c) (GetID region) (hr_writeItem read) WriteFlow) c else c);;
  update (λ c, if hr_isReadUpdate read
    then set_hotSpotCache (Update (ci_hotSpotCache c) (GetID region) (hr_readItem read) ReadFlow) c else c).

(** After the read lock was released. *)
Definition heartbeat_apply (now : Z) (region : RegionInfo) (read : heartbeat_read) : MC unit :=
  d ← lift_result (heartbeat_decide region (hr_origin read));
  let '(saveKV, saveCache, isNew) := d in
  (if saveKV : bool then heartbeat_save now region else mret ());;
  if negb (hr_isWriteUpdate read) && negb (hr_isReadUpdate read) && negb saveCache && negb isNew then mret ()
  else heartbeat_commit region read saveCache isNew.

Definition handleRegionHeartbeat (now : Z) (region : RegionInfo) : MC unit :=
  read ← heartbeat_check now region;
  heartbeat_apply now region read.

Definition updateRegionsLabelLevelStats (regions : list RegionInfo) : MC unit :=
  update (λ c, set_statistics (ci_regionStats c)
    (foldl (λ l region, label_Observe (ci_heap c) l region (takeRegionStoresLocked c region)
       (LocationLabels (o_rep (ci_opt c)))) (ci_labelLevelStats c) regions) c).
End cluster.
