(* ===== verification/ClusterInfoProps.v ===== *)
(** * Properties of the cached cluster

    The invariant of the cached cluster, the effect of a region heartbeat on it,
    and what happens when two heartbeats of a region interleave. *)

From S2P Require Import Prelude GoBytes BTree Strconv Strings Float KV Metapb Region RegionTree RegionMap RegionsInfo RegionsInfoProps Cache CacheProps Storage Store StoreStorage Statistics StatisticsProps Config ConfigProps ClusterInfo.

Section cluster.
Context {S D T V : Type} `{!KVBase S} `{!LevelDB D} `{!BTreeOps Region T, !BTreeLaws Region T}.
Context `{!Proto Region, !Proto Store, !Proto ClusterMeta} `{!Unicode} `{!Stats} `{!FloatText}.
Context `{!Classifier} `{!ConfigJson V} `{!Semver V}.
Variable range : list StoreInfo → list StoreInfo.
Variable simulating : bool.
Abbreviation clusterInfo := (clusterInfo S D T V).
Implicit Types (c : clusterInfo) (v : gmap Z RegionInfo) (region x y z : RegionInfo).

(** ** The invariant *)

(** Every cached store points to a message with its own id. *)
Definition stores_wf (h : heap) (ss : StoresInfo) : Prop :=
  ∀ id st, ss !! id = Some st → ∃ m, h !! st_meta st = Some m ∧ Store_Id m = id.

(** The cluster caches the regions [v]. *)
Record cluster_ok c v : Prop := {
  ck_regions : represents (ci_regions c) v;
  ck_stores : stores_wf (ci_heap c) (ci_stores c);
  ck_rolling id : is_Some (ci_stores c !! id) → is_Some (rollingStoresStats (ci_storesStats c) !! id);
  ck_hot : hot_ok (ci_hotSpotCache c);
  ck_status rs : ci_regionStats c = Some rs → status_ok rs;
}.

(** The parts that reading and saving a heartbeat leave alone. *)
Record same_core c c' : Prop := {
  sc_heap : ci_heap c' = ci_heap c;
  sc_stores : ci_stores c' = ci_stores c;
  sc_regions : ci_regions c' = ci_regions c;
  sc_storesStats : ci_storesStats c' = ci_storesStats c;
  sc_regionStats : ci_regionStats c' = ci_regionStats c;
}.

#[export] Instance same_core_preorder : PreOrder same_core.
Proof.
  split; [by split|]. intros c1 c2 c3 [] []. split; by etrans.
Qed.

Lemma same_core_ok c c' v : cluster_ok c v → same_core c c' → hot_ok (ci_hotSpotCache c') → cluster_ok c' v.
Proof. intros [] [E1 E2 E3 E4 E5] Hh. split; rewrite ?E1, ?E2, ?E3, ?E4, ?E5; done. Qed.

Lemma cluster_ok_unique c v v' : cluster_ok c v → cluster_ok c v' → v = v'.
Proof. intros [[[] _] _ _ _ _] [[[] _] _ _ _ _]. by subst. Qed.

Lemma stores_wf_ID h ss id st : stores_wf h ss → ss !! id = Some st → store_GetID h st = id.
Proof. intros Hwf (m & Hm & <-)%Hwf. unfold store_GetID, deref. by rewrite Hm. Qed.

(** An insertion that keeps the message. *)
Lemma stores_wf_insert h ss id st st' : stores_wf h ss → ss !! id = Some st → st_meta st' = st_meta st →
  stores_wf h (<[id := st']> ss).
Proof.
  intros Hwf Hid Hm id' st''. destruct (decide (id = id')) as [->|Hne].
  - rewrite lookup_insert_eq. intros [= <-]. rewrite Hm. by apply Hwf.
  - rewrite lookup_insert_ne by done. by apply Hwf.
Qed.

(** ** Store statuses *)

(** The record of a store with the counts of the cached regions. *)
Definition with_status v (id : Z) (st : StoreInfo) : StoreInfo :=
  mkStoreInfo (st_meta st) (st_stats st) (blocked st)
    (Z.of_nat (size (with_role leads id v)))
    (Z.of_nat (size (with_role leads id v) + size (with_role follows id v) + size (with_role learns id v)))
    (int64 (total_size (with_role leads id v)))
    (int64 (total_size (with_role leads id v) + total_size (with_role follows id v) + total_size (with_role learns id v)))
    (Z.of_nat (size (with_role pends id v)))
    (lastHeartbeatTS st) (leaderWeight st) (regionWeight st) (overloaded st).

Lemma updateStoreStatusLocked_eq c v id : cluster_ok c v →
  updateStoreStatusLocked id c = (set_stores (ci_heap c) (alter (with_status v id) id (ci_stores c)) c, inr ()).
Proof.
  intros Hok. pose proof (ck_regions _ _ Hok) as Hr.
  destruct (store_counts _ _ id Hr) as (Hl & Hf & Hle & Hp). destruct (store_sizes _ _ id Hr) as (Hls & _ & _ & Hs).
  unfold updateStoreStatusLocked, on_stores, UpdateStoreStatusLocked.
  destruct (ci_stores c !! id) as [st|] eqn:Hst.
  - pose proof (stores_wf_ID _ _ id st (ck_stores _ _ Hok) Hst) as Hid. unfold store_GetID in Hid.
    unfold SetStore, store_GetID, Store_Clone, store_opts.
    cbn [foldl SetLeaderCount SetRegionCount SetPendingPeerCount SetLeaderSize SetRegionSize st_meta].
    rewrite Hid. f_equal. f_equal.
    apply map_eq. intros id'. destruct (decide (id = id')) as [<-|Hne].
    + rewrite lookup_insert_eq, lookup_alter_eq, Hst. cbn. unfold with_status, GetStoreRegionCount.
      rewrite Hl, Hf, Hle, Hp, Hls, Hs. done.
    + by rewrite lookup_insert_ne, lookup_alter_ne.
  - f_equal. f_equal. apply map_eq. intros id'. destruct (decide (id = id')) as [<-|Hne].
    + by rewrite lookup_alter_eq, Hst.
    + by rewrite lookup_alter_ne.
Qed.

Lemma set_status_ok c v id : cluster_ok c v →
  cluster_ok (set_stores (ci_heap c) (alter (with_status v id) id (ci_stores c)) c) v.
Proof.
  intros []. split; cbn; [done| | |done|done].
  - intros id' st'. rewrite lookup_alter_Some. intros [(<- & st & Hst & ->)|[Hne Hst]]; [by apply (ck_stores0 id st)|by apply ck_stores0].
  - intros id' [st' Hst]. apply ck_rolling0. rewrite lookup_alter_Some in Hst. naive_solver.
Qed.

(** The stores after the statuses of [ids] were updated. *)
Definition statuses v (ids : list Z) (ss : StoresInfo) : StoresInfo :=
  foldl (λ ss id, alter (with_status v id) id ss) ss ids.

Lemma update_statuses_eq c v ids : cluster_ok c v →
  update_statuses ids c = (set_stores (ci_heap c) (statuses v ids (ci_stores c)) c, inr ()) ∧
  cluster_ok (set_stores (ci_heap c) (statuses v ids (ci_stores c)) c) v.
Proof.
  revert c. induction ids as [|id ids IH]; intros c Hok.
  - split; [by destruct c|]. by destruct Hok.
  - cbn [update_statuses]. rewrite M_bind_eq, (updateStoreStatusLocked_eq c v id Hok).
    destruct (IH _ (set_status_ok c v id Hok)) as [-> Hok']. done.
Qed.

Lemma with_status_idemp v id st : with_status v id (with_status v id st) = with_status v id st.
Proof. done. Qed.

Lemma statuses_lookup v ids ss id : statuses v ids ss !! id =
  if decide (id ∈ ids) then with_status v id <$> ss !! id else ss !! id.
Proof.
  unfold statuses. revert ss. induction ids as [|i ids IH]; intros ss; [done|]. cbn [foldl]. rewrite IH.
  destruct (decide (i = id)) as [->|Hne].
  - rewrite lookup_alter_eq, (decide_True (P:=id ∈ id :: ids)) by by left. case_decide; [|done].
    destruct (ss !! id); [|done]. cbn. by rewrite with_status_idemp.
  - rewrite lookup_alter_ne by done. destruct (decide (id ∈ ids)) as [Hin|Hnin].
    + by rewrite decide_True by by right.
    + rewrite decide_False; [done|]. by intros [->|?]%elem_of_cons.
Qed.

(** ** Region heartbeats *)

(** The storage panics instead of returning an error. *)
Definition storage_panic (e : go_error) : Prop := ∃ msg, e = Panic msg ∧
  ((∃ now r (s : Storage S D), (SaveRegion now r s).2 = inl e) ∨ (∃ r (s : Storage S D), (DeleteRegion r s).2 = inl e)).

Definition version x : Z := Epoch_GetVersion (GetRegionEpoch x).
Definition confver x : Z := Epoch_GetConfVer (GetRegionEpoch x).

(** The region is older than what is cached: than the region with its id or, for
    an unknown id, than a region it overlaps. *)
Definition stale region v : Prop :=
  match v !! GetID region with
  | Some o => version region < version o ∨ confver region < confver o
  | None => ∃ id z, v !! id = Some z ∧ overlap (meta region) (meta z) ∧ version region < version z
  end.

(** What two regions that need no update of the cache agree on. *)
Definition same_info x y : Prop :=
  version x = version y ∧ confver x = confver y ∧ Peer_GetId (GetLeader x) = Peer_GetId (GetLeader y) ∧
  length (GetPeers x) = length (GetPeers y) ∧ GetApproximateSize x = GetApproximateSize y ∧
  GetApproximateKeys x = GetApproximateKeys y ∧
  GetDownPeers x = [] ∧ GetPendingPeers x = [] ∧ GetDownPeers y = [] ∧ GetPendingPeers y = [].

(** What two regions that need no update of the storage agree on. *)
Definition same_meta x y : Prop :=
  version x = version y ∧ confver x = confver y ∧ length (GetPeers x) = length (GetPeers y).

(** The items a heartbeat read are good for the cache. *)
Definition read_ok c (rd : heartbeat_read) : Prop :=
  (hr_isWriteUpdate rd = true → match hr_writeItem rd with Some i => item_ok (ci_hotSpotCache c) i | None => True end) ∧
  (hr_isReadUpdate rd = true → match hr_readItem rd with Some i => item_ok (ci_hotSpotCache c) i | None => True end).

Lemma mpost_update (f : clusterInfo → clusterInfo) c Q : Q (f c) (inr ()) → mpost (update f) c Q.
Proof. done. Qed.

Lemma mpost_get c Q : Q c (inr c) → mpost get c Q.
Proof. done. Qed.

Lemma check_status_spec f c : hot_ok (ci_hotSpotCache c) →
  checked (ci_hotSpotCache c) (f (ci_hotSpotCache c) (ci_storesStats c)) →
  mpost (check_status f) c (λ c' r, ∃ b it, r = inr (b, it) ∧ same_core c c' ∧ ci_storage c' = ci_storage c ∧
    hot_ok (ci_hotSpotCache c') ∧ hot_le (ci_hotSpotCache c) (ci_hotSpotCache c') ∧
    (b = true → match it with Some i => item_ok (ci_hotSpotCache c') i | None => True end)).
Proof.
  intros Hh (w & b & it & Hf & Hw & Hle & Hit). unfold mpost, check_status. rewrite Hf. cbn.
  exists b, it. by split_and!.
Qed.

Lemma GetOverlaps_spec c v region (y : Region) : represents (ci_regions c) v →
  y ∈ GetOverlaps (ci_regions c) region ↔ ∃ id z, v !! id = Some z ∧ overlap (meta region) (meta z) ∧ meta z = y.
Proof.
  intros [_ [Hwf Hitems]]. unfold GetOverlaps, GetMeta. rewrite getOverlaps_spec by done.
  rewrite list_elem_of_filter, Hitems. naive_solver.
Qed.

Lemma heartbeat_check_spec now c v region : cluster_ok c v → region_wf region →
  mpost (heartbeat_check simulating now region) c (λ c' r,
    same_core c c' ∧ ci_storage c' = ci_storage c ∧ cluster_ok c' v ∧ hot_le (ci_hotSpotCache c) (ci_hotSpotCache c') ∧
    match r with
    | inl e => e = ErrRegionIsStale ∧ v !! GetID region = None ∧ stale region v
    | inr rd => hr_origin rd = v !! GetID region ∧ read_ok c' rd ∧ (v !! GetID region = None → ¬ stale region v)
    end).
Proof.
  intros Hok Hwf. pose proof (ck_regions _ _ Hok) as Hr. pose proof (ck_hot _ _ Hok) as Hh.
  unfold heartbeat_check. apply mpost_bind, mpost_get.
  rewrite (GetRegion_abs _ v) by apply Hr.
  set (st := match v !! GetID region with Some _ => None | None => find_first _ _ end).
  assert (match st with
          | Some _ => v !! GetID region = None ∧ stale region v
          | None => v !! GetID region = None → ¬ stale region v end) as Hst.
  { unfold st, stale. destruct (v !! GetID region) as [o|] eqn:Ho; [done|].
    destruct (find_first _ _) as [y|] eqn:Hf.
    - apply find_first_Some in Hf as [Hy Hlt]. split; [done|].
      rewrite (GetOverlaps_spec c v) in Hy by done. destruct Hy as (id & z & Hz & Hov & <-).
      exists id, z. split_and!; try done. unfold version, GetRegionEpoch, GetMeta in *. lia.
    - rewrite find_first_None in Hf. intros _ (id & z & Hz & Hov & Hlt).
      assert (meta z ∈ GetOverlaps (ci_regions c) region) as Hin
        by (apply (GetOverlaps_spec c v); eauto).
      apply Hf in Hin. unfold version, GetRegionEpoch, GetMeta in *. lia. }
  destruct st as [y|]; [by destruct Hst|].
  apply mpost_bind. eapply mpost_mono; [apply check_status_spec; [done|by apply CheckWrite_checked]|].
  intros c1 r1 (b1 & it1 & -> & Hc1 & Hs1 & Hh1 & Hle1 & Hi1).
  apply mpost_bind. eapply mpost_mono; [apply check_status_spec; [done|by apply CheckRead_checked]|].
  intros c2 r2 (b2 & it2 & -> & Hc2 & Hs2 & Hh2 & Hle2 & Hi2). cbn.
  assert (same_core c c2) as Hcore by by etrans.
  split; [done|]. split; [by etrans|]. split; [by eapply same_core_ok|]. split; [by etrans|]. split; [done|]. split; [|done].
  split; cbn; [|done]. intros E. specialize (Hi1 E). destruct it1; [|done]. by eapply item_ok_mono.
Qed.

Lemma heartbeat_decide_spec v region : (v !! GetID region = None → ¬ stale region v) →
  match heartbeat_decide region (v !! GetID region) with
  | inl e => e = ErrRegionIsStale ∧ stale region v
  | inr (saveKV, saveCache, isNew) => ¬ stale region v ∧ (saveKV = true → saveCache = true) ∧
      (saveKV = false → ∃ o, v !! GetID region = Some o ∧ same_meta region o) ∧
      (saveCache = false → ∃ o, v !! GetID region = Some o ∧ same_info region o)
  end.
Proof.
  intros Hns. unfold heartbeat_decide. destruct (v !! GetID region) as [o|] eqn:Ho; [|by split_and!; [apply Hns|..]].
  unfold stale. rewrite Ho. fold (version region) (version o) (confver region) (confver o).
  destruct (Z.ltb_spec (version region) (version o)); [cbn; auto|].
  destruct (Z.ltb_spec (confver region) (confver o)); [cbn; auto|]. cbn [orb].
  split; [lia|].
  set (newer := (version o <? version region) || (confver o <? confver region)). set (lc := negb (_ =? Peer_GetId (GetLeader o))). set (pc := negb (_ =? _)%nat).
  split_and!.
  - clearbody newer pc lc. intros [E|E]%orb_true_iff; rewrite E; rewrite ?orb_true_r; done.
  - rewrite !orb_false_iff. unfold newer, pc. rewrite orb_false_iff, negb_false_iff, Nat.eqb_eq, !Z.ltb_ge.
    intros [[] ?]. exists o. split; [done|]. split_and!; [lia..|done].
  - rewrite !orb_false_iff. intros ((((((Hn & Hl) & [Hd Hp]) & [Hd' Hp']) & Hpc) & Hs) & Hk).
    unfold newer, lc, pc in *. rewrite ?orb_false_iff, ?negb_false_iff in *.
    rewrite !bool_decide_eq_true in *. rewrite ?Z.eqb_eq, ?Nat.eqb_eq in *. exists o. split; [done|].
    unfold same_info. split_and!; done || lia.
Qed.

(** The storage after the region was saved. *)
Definition after_save (now : Z) region (st : option (Storage S D)) : option (Storage S D) :=
  (λ s, (SaveRegion now (GetMeta region) s).1) <$> st.

Lemma heartbeat_save_spec now c region :
  mpost (heartbeat_save now region) c (λ c' r,
    match r with
    | inl e => storage_panic e
    | inr _ => same_core c c' ∧ ci_hotSpotCache c' = ci_hotSpotCache c ∧ ci_storage c' = after_save now region (ci_storage c)
    end).
Proof.
  unfold mpost, heartbeat_save, after_save. destruct (ci_storage c) as [s|] eqn:Hc; [|by cbn; rewrite Hc].
  cbn. destruct (SaveRegion now (GetMeta region) s) as [s' r] eqn:Hs. cbn.
  destruct r as [[msg|msg]|u]; [by destruct (_ <? _); split_and!| |by destruct (_ <? _); split_and!].
  exists msg. split; [done|]. left. exists now, (GetMeta region), s. by rewrite Hs.
Qed.

(** The storage after the records of the overlapped regions were deleted. *)
Definition after_delete (overlaps : list Region) (st : option (Storage S D)) : option (Storage S D) :=
  (λ s, (delete_overlaps overlaps s).1) <$> st.

(** The regions a cached region replaces. *)
Definition replaces region v (overlaps : list Region) : Prop := ∀ y : Region, y ∈ overlaps ↔
  ∃ id z, v !! id = Some z ∧ id ≠ GetID region ∧ overlap (meta region) (meta z) ∧ meta z = y.

(** The stores whose status a heartbeat updates. *)
Definition touched (o : option RegionInfo) region : list Z :=
  match o with Some o => Peer_StoreId <$> GetPeers o | None => [] end ++ (Peer_StoreId <$> GetPeers region).

Lemma delete_overlaps_post overlaps s :
  mpost (delete_overlaps overlaps) s (λ _ r, match r with inl e => storage_panic e | inr _ => True end).
Proof.
  revert s. induction overlaps as [|y l IH]; intros s; [done|]. cbn [delete_overlaps].
  apply mpost_bind. unfold mpost at 1, mcatch. destruct (DeleteRegion y s) as [s' r] eqn:Hd. cbn [fst snd].
  destruct r as [[msg|msg]|u]; [apply IH| |apply IH].
  exists msg. split; [done|]. right. exists y, s. by rewrite Hd.
Qed.

Lemma clear_overlaps_ok (ids : list Z) rs : status_ok rs → status_ok (foldl ClearDefunctRegion rs ids).
Proof. revert rs. induction ids as [|id ids IH]; intros rs Hrs; [done|]. apply IH. by apply ClearDefunctRegion_ok. Qed.

Lemma if_storage_post (m : M (Storage S D) unit) c :
  (∀ s, mpost m s (λ _ r, match r with inl e => storage_panic e | inr _ => True end)) →
  mpost (if_storage m) c (λ c' r, match r with inl e => storage_panic e | inr _ =>
    same_core c c' ∧ ci_hotSpotCache c' = ci_hotSpotCache c ∧ ci_storage c' = (λ s, (m s).1) <$> ci_storage c end).
Proof.
  intros Hm. unfold mpost, if_storage. destruct (ci_storage c) as [s|] eqn:Hs; [|by cbn; rewrite Hs].
  specialize (Hm s). unfold mpost in Hm. cbn. destruct (m s) as [s' [e|u]]; cbn in *; [done|]. by split_and!.
Qed.

Lemma heartbeat_cache_spec c v region o : cluster_ok c v → region_wf region →
  mpost (heartbeat_cache region o) c (λ c' r,
    match r with
    | inl e => storage_panic e
    | inr _ => cluster_ok c' (spec_SetRegion region v) ∧ ci_heap c' = ci_heap c ∧
        ci_hotSpotCache c' = ci_hotSpotCache c ∧
        ci_stores c' = statuses (spec_SetRegion region v) (touched o region) (ci_stores c) ∧
        ∃ overlaps, replaces region v overlaps ∧ ci_storage c' = after_delete overlaps (ci_storage c)
    end).
Proof.
  intros Hok Hwf. destruct (SetRegion_represents _ v region (ck_regions _ _ Hok) Hwf) as (r & overlaps & Hset & Hr & Hov).
  unfold heartbeat_cache. apply mpost_bind, mpost_get. rewrite Hset.
  apply mpost_bind, mpost_update. set (v' := spec_SetRegion region v) in *.
  assert (cluster_ok (set_regions r c) v') as Hc0 by (destruct Hok; by split).
  apply mpost_bind. eapply mpost_mono; [apply if_storage_post, delete_overlaps_post|].
  intros c1 [e|[]]; [done|]. intros (Hcore & Hhot & Hst). cbn in Hhot, Hst.
  assert (cluster_ok c1 v') as Hc1 by (eapply same_core_ok; [done..|]; rewrite Hhot; apply Hok).
  apply mpost_bind, mpost_update. set (c2 := set_statistics _ _ c1).
  assert (cluster_ok c2 v') as Hc2.
  { destruct Hc1 as [? ? ? ? Hs]. split; try done. cbn. intros rs (rs0 & Hrs0 & ->)%fmap_Some.
    apply clear_overlaps_ok. by apply Hs. }
  apply mpost_bind. set (ids0 := match o with Some o => Peer_StoreId <$> GetPeers o | None => [] end).
  assert (match o with Some o => update_statuses (Peer_StoreId <$> GetPeers o) | None => mret () end
    = update_statuses (S:=S) (D:=D) (T:=T) (V:=V) ids0) as -> by (unfold ids0; by destruct o).
  destruct (update_statuses_eq c2 v' ids0 Hc2) as [Heq3 Hc3]. unfold mpost at 1. rewrite Heq3. cbn [fst snd].
  destruct (update_statuses_eq _ v' (Peer_StoreId <$> GetPeers region) Hc3) as [Heq4 Hc4].
  unfold mpost. rewrite Heq4. cbn [fst snd]. destruct Hcore as [Eh Es _ _ _]. split_and!; [done|done|done| |by exists overlaps].
  cbn. cbn in Es. rewrite Es. unfold statuses, touched. by rewrite foldl_app.
Qed.

(** The cluster after the write-locked part of a heartbeat, from the storage [st]. *)
Definition committed (saveCache : bool) (st : option (Storage S D)) c region o v c' : Prop :=
  ci_heap c' = ci_heap c ∧
  if saveCache then cluster_ok c' (spec_SetRegion region v) ∧
    ci_stores c' = statuses (spec_SetRegion region v) (touched o region) (ci_stores c) ∧
    ∃ overlaps, replaces region v overlaps ∧ ci_storage c' = after_delete overlaps st
  else cluster_ok c' v ∧ ci_stores c' = ci_stores c ∧ ci_storage c' = st.

(** The statistics are independent of the rest. *)
Lemma committed_statistics (saveCache : bool) st c region o v c2 rs l w :
  committed saveCache st c region o v c2 → hot_ok w → (∀ rs', rs = Some rs' → status_ok rs') →
  committed saveCache st c region o v (set_hotSpotCache w (set_statistics rs l c2)).
Proof.
  intros [Eh Hmain] Hw Hrs. split; [done|].
  assert (∀ v', cluster_ok c2 v' → cluster_ok (set_hotSpotCache w (set_statistics rs l c2)) v') as Hok
    by (intros v' []; by split).
  destruct saveCache; (split; [apply Hok, Hmain|apply Hmain]).
Qed.

Lemma committed_ok (saveCache : bool) st c region o v c' : committed saveCache st c region o v c' → ∃ v', cluster_ok c' v'.
Proof. intros [_ Hmain]. destruct saveCache; destruct Hmain; eauto. Qed.

Lemma heartbeat_commit_spec c v region rd (saveCache isNew : bool) :
  cluster_ok c v → region_wf region → read_ok c rd →
  mpost (heartbeat_commit region rd saveCache isNew) c (λ c' r,
    match r with inl e => storage_panic e | inr _ => committed saveCache (ci_storage c) c region (hr_origin rd) v c' ∧
      hot_le (ci_hotSpotCache c) (ci_hotSpotCache c') end).
Proof.
  intros Hok Hwf [Hw Hr]. unfold heartbeat_commit. apply mpost_bind.
  apply (mpost_mono _ _ (λ c1 r, r = inr () ∧ same_core c c1 ∧ ci_hotSpotCache c1 = ci_hotSpotCache c ∧ ci_storage c1 = ci_storage c)).
  { unfold mpost. destruct isNew; cbn; (split_and!; [done|by split|done|done]). }
  intros c1 r1 (-> & Hcore & Hhot & Hst). apply mpost_bind.
  assert (cluster_ok c1 v) as Hok1 by (eapply same_core_ok; [done..|]; rewrite Hhot; apply Hok).
  destruct Hcore as [Eh Es _ _ _].
  apply (mpost_mono _ _ (λ c2 r, match r with inl e => storage_panic e | inr _ =>
    ci_hotSpotCache c2 = ci_hotSpotCache c ∧ committed saveCache (ci_storage c) c region (hr_origin rd) v c2 end)).
  { destruct saveCache; [|split; [done|by split]]. eapply mpost_mono; [by apply (heartbeat_cache_spec c1 v)|].
    intros c2 [e|[]]; [done|]. unfold committed. rewrite Eh, Es, Hhot, Hst. intros (? & ? & ? & ? & ?). by split_and!. }
  intros c2 [e|[]]; [done|]. intros (Hhot2 & Hmain).
  destruct (committed_ok _ _ _ _ _ _ _ Hmain) as [v2 Hok2].
  apply mpost_bind, mpost_update. apply mpost_bind, mpost_update. apply mpost_update.
  set (rs := _ <$> ci_regionStats c2). assert (∀ rs', rs = Some rs' → status_ok rs') as Hrs.
  { intros rs' (rs0 & Hrs0 & ->)%fmap_Some. apply Observe_ok. by apply (ck_status _ _ Hok2). }
  rewrite <-Hhot2 in Hw, Hr |- *. pose proof (ck_hot _ _ Hok2) as Hh. set (w0 := ci_hotSpotCache c2) in *.
  set (w1 := if hr_isWriteUpdate rd then Update w0 (GetID region) (hr_writeItem rd) WriteFlow else w0).
  set (w2 := if hr_isReadUpdate rd then Update w1 (GetID region) (hr_readItem rd) ReadFlow else w1).
  assert (hot_ok w1 ∧ hot_le w0 w1) as [Hw1 Hle1].
  { unfold w1. destruct (hr_isWriteUpdate rd); [|done]. apply Update_ok; [done|by apply Hw]. }
  assert (hot_ok w2 ∧ hot_le w1 w2) as [Hw2 Hle2].
  { unfold w2. destruct (hr_isReadUpdate rd); [|done]. apply Update_ok; [done|]. specialize (Hr eq_refl).
    destruct (hr_readItem rd); [|done]. by eapply item_ok_mono. }
  pose proof (committed_statistics _ _ _ _ _ _ c2 rs (ci_labelLevelStats c2) w2 Hmain Hw2 Hrs) as Hfin.
  assert (hot_le w0 w2) as Hle by by etrans.
  unfold w2, w1, w0 in *. clear -Hfin Hle. destruct c2.
  destruct (hr_isWriteUpdate rd), (hr_isReadUpdate rd); (split; [exact Hfin|exact Hle]).
Qed.

Lemma read_ok_core c c' rd : ci_hotSpotCache c' = ci_hotSpotCache c → read_ok c rd → read_ok c' rd.
Proof. unfold read_ok. by intros ->. Qed.

Lemma heartbeat_apply_spec now c v region rd saveKV saveCache isNew :
  cluster_ok c v → region_wf region → read_ok c rd →
  heartbeat_decide region (hr_origin rd) = inr (saveKV, saveCache, isNew) →
  mpost (heartbeat_apply now region rd) c (λ c' r,
    match r with
    | inl e => storage_panic e
    | inr _ => hot_le (ci_hotSpotCache c) (ci_hotSpotCache c') ∧
        committed saveCache (if saveKV then after_save now region (ci_storage c) else ci_storage c) c region (hr_origin rd) v c'
    end).
Proof.
  intros Hok Hwf Hrd Hd. unfold heartbeat_apply. apply mpost_bind. unfold mpost at 1, lift_result.
  rewrite Hd. cbn [fst snd]. apply mpost_bind.
  apply (mpost_mono _ _ (λ c1 r, match r with inl e => storage_panic e | inr _ => same_core c c1 ∧
    ci_hotSpotCache c1 = ci_hotSpotCache c ∧
    ci_storage c1 = if saveKV then after_save now region (ci_storage c) else ci_storage c end)).
  { destruct saveKV; [apply heartbeat_save_spec|by split_and!]. }
  intros c1 [e|[]]; [done|]. intros (Hcore & Hhot & Hst). pose proof Hcore as [Eh Es _ _ _].
  assert (cluster_ok c1 v) as Hok1 by (eapply same_core_ok; [done..|]; rewrite Hhot; apply Hok).
  rewrite <-Hst, <-Hhot. destruct (_ && _) eqn:Hskip.
  - rewrite !andb_true_iff, !negb_true_iff in Hskip. destruct Hskip as [[_ ->] _]. by split_and!.
  - eapply mpost_mono; [apply (heartbeat_commit_spec c1 v); [done|done|by eapply read_ok_core]|].
    intros c2 [e|[]]; [done|]. unfold committed. rewrite Eh, Es. by intros [].
Qed.

(** A heartbeat that leaves the regions, the stores and the storage alone. *)
Definition unchanged c v c' : Prop :=
  cluster_ok c' v ∧ ci_heap c' = ci_heap c ∧ ci_stores c' = ci_stores c ∧ ci_storage c' = ci_storage c.

(** A heartbeat that replaces the regions the reported one overlaps: the statuses
    of the stores of its old and new peers are recomputed, its record is saved
    unless the cached one has the same epoch and as many peers, and the records of
    the replaced regions are deleted. *)
Definition updated (now : Z) c v region c' : Prop :=
  let v' := spec_SetRegion region v in
  cluster_ok c' v' ∧ ci_heap c' = ci_heap c ∧
  (∀ id, ci_stores c' !! id = if decide (id ∈ touched (v !! GetID region) region)
     then with_status v' id <$> ci_stores c !! id else ci_stores c !! id) ∧
  ∃ overlaps (save : bool), replaces region v overlaps ∧
    ci_storage c' = after_delete overlaps (if save then after_save now region (ci_storage c) else ci_storage c) ∧
    (save = false → ∃ o, v !! GetID region = Some o ∧ same_meta region o).

Lemma heartbeat_post now c v region : cluster_ok c v → region_wf region →
  mpost (handleRegionHeartbeat simulating now region) c (λ c' r,
    match r with
    | inl e => (e = ErrRegionIsStale ∧ stale region v ∧ unchanged c v c') ∨ (¬ stale region v ∧ storage_panic e)
    | inr _ => ¬ stale region v ∧ hot_le (ci_hotSpotCache c) (ci_hotSpotCache c') ∧
        (updated now c v region c' ∨
         unchanged c v c' ∧ ∃ o, v !! GetID region = Some o ∧ same_info region o)
    end).
Proof.
  intros Hok Hwf. unfold handleRegionHeartbeat. apply mpost_bind.
  eapply mpost_mono; [by apply heartbeat_check_spec|]. intros c1 r1 (Hcore & Hst & Hok1 & Hle1 & Hres).
  destruct Hcore as [Eh Es _ _ _]. destruct r1 as [e|rd].
  { destruct Hres as (-> & _ & Hs). left. by split_and!. }
  destruct Hres as (Hor & Hrd & Hns). pose proof (heartbeat_decide_spec v region Hns) as Hdec.
  rewrite <-Hor in Hdec. destruct (heartbeat_decide region (hr_origin rd)) as [e|[[saveKV saveCache] isNew]] eqn:Hd.
  { unfold mpost, heartbeat_apply. rewrite M_bind_eq. unfold lift_result. rewrite Hd. cbn.
    left. destruct Hdec. by split_and!. }
  destruct Hdec as (Hnst & Hkv & Hsame & Hinfo). rewrite Hor in Hsame, Hinfo.
  eapply mpost_mono; [by eapply heartbeat_apply_spec|]. intros c2 [e|[]]; [by right|].
  intros [Hle [Eh2 Hmain]]. split; [done|]. split; [by etrans|]. rewrite Eh, Es, Hst, Hor in *.
  destruct saveCache; [left|right].
  - destruct Hmain as (Hok2 & Hss & overlaps & Hov & Hst2). split; [done|]. split; [done|].
    split; [intros id; rewrite Hss; apply statuses_lookup|]. by exists overlaps, saveKV.
  - destruct saveKV; [by specialize (Hkv eq_refl)|]. destruct Hmain as (Hok2 & Hss & Hst2).
    split; [by split_and!|by apply Hinfo].
Qed.

(** Heartbeats never lower the epoch of a cached region. *)
Lemma spec_SetRegion_mono region v id x y : ¬ stale region v → v !! id = Some x → spec_SetRegion region v !! id = Some y →
  version x ≤ version y ∧ confver x ≤ confver y.
Proof.
  unfold stale, spec_SetRegion. intros Hns Hx. destruct (decide (GetID region = id)) as [<-|Hne].
  - rewrite lookup_insert_eq. intros [= <-]. rewrite Hx in Hns. lia.
  - rewrite lookup_insert_ne by done. intros [Hy _]%map_lookup_filter_Some. simplify_eq. lia.
Qed.

(** C2: a region heartbeat is rejected exactly when the region is older than the
    cached one or, if it is not cached, than a cached region it overlaps, and then
    changes neither the regions nor the stores nor the storage.  Otherwise the
    cache becomes the old one with the region in place of those it overlaps, with
    the statuses of the stores of its peers exact and the storage following it,
    unless the cached region says the same; no cached region's epoch decreases, the
    invariant of the cluster is kept, and the only possible failure is a panic of
    the storage. *)
Theorem heartbeat_correct (now : Z) (c : clusterInfo) (v : gmap Z RegionInfo) (region : RegionInfo) :
  cluster_ok c v → region_wf region →
  let '(c', r) := handleRegionHeartbeat simulating now region c in
  match r with
  | inl e => (e = ErrRegionIsStale ∧ stale region v ∧ unchanged c v c') ∨ (¬ stale region v ∧ storage_panic e)
  | inr _ => ¬ stale region v ∧
      (updated now c v region c' ∨
       unchanged c v c' ∧ ∃ o, v !! GetID region = Some o ∧ same_info region o) ∧
      (∀ v' id x y, cluster_ok c' v' → v !! id = Some x → v' !! id = Some y →
         version x ≤ version y ∧ confver x ≤ confver y)
  end.
Proof.
  intros Hok Hwf. pose proof (heartbeat_post now c v region Hok Hwf) as Hpost. unfold mpost in Hpost.
  destruct (handleRegionHeartbeat simulating now region c) as [c' [e|[]]]; [done|].
  destruct Hpost as (Hns & _ & Hcase). split; [done|]. split; [done|]. intros v' id x y Hv' Hx Hy.
  destruct Hcase as [[Hup _]|[[Hup _] _]]; pose proof (cluster_ok_unique _ _ _ Hv' Hup) as ->.
  - by eapply spec_SetRegion_mono.
  - simplify_eq. lia.
Qed.

(** ** Store counts *)

(** The counts and sizes of every store are those of the cached regions. *)
Definition counts_exact c v : Prop := ∀ id st, ci_stores c !! id = Some st → with_status v id st = st.

(** A store has a role in a region only through a peer. *)
Definition role_peers (role : Z → RegionInfo → Prop) : Prop :=
  ∀ s z, region_wf z → role s z → s ∈ Peer_StoreId <$> GetPeers z.

Lemma peer_store (p : Peer) z : p ∈ Peers (meta z) → Peer_StoreId p ∈ Peer_StoreId <$> GetPeers z.
Proof. intros Hp. apply list_elem_of_fmap. by exists p. Qed.

Lemma classified_peer (p : Peer) z : region_wf z → p ∈ voters z ∨ p ∈ learners z → p ∈ Peers (meta z).
Proof. intros [[Hv Hl] _ _]. rewrite Hv, Hl. by intros [[_ ?]%list_elem_of_filter|[_ ?]%list_elem_of_filter]. Qed.

Lemma leads_peers : role_peers leads.
Proof. intros s z Hz (p & Hp & _ & <-)%Exists_exists. apply peer_store, classified_peer; auto. Qed.
Lemma follows_peers : role_peers follows.
Proof. intros s z Hz (p & Hp & _ & <-)%Exists_exists. apply peer_store, classified_peer; auto. Qed.
Lemma learns_peers : role_peers learns.
Proof. intros s z Hz (p & Hp & <-)%Exists_exists. apply peer_store, classified_peer; auto. Qed.
Lemma pends_peers : role_peers pends.
Proof. intros s z Hz (p & Hp & <-)%Exists_exists. destruct (wf_pending _ Hz p Hp) as (q & Hq & <-). by apply peer_store. Qed.

(** A store none of the changed regions has a peer on keeps its regions. *)
Lemma with_role_SetRegion role `{!RelDecision role} s v region : role_peers role → region_wf region →
  (∀ id z, v !! id = Some z → region_wf z) →
  s ∉ Peer_StoreId <$> GetPeers region → 
  (∀ id z, v !! id = Some z → id = GetID region ∨ overlap (meta region) (meta z) → s ∉ Peer_StoreId <$> GetPeers z) →
  with_role role s (spec_SetRegion region v) = with_role role s v.
Proof.
  intros Hrole Hwf Hall Hr Ho. unfold with_role, spec_SetRegion, without_overlaps. apply map_eq. intros id.
  apply option_eq. intros x. rewrite !map_lookup_filter_Some. cbn. split; intros [Hx Hs].
  - destruct (decide (GetID region = id)) as [<-|Hne].
    + rewrite lookup_insert_eq in Hx. injection Hx as <-. by destruct Hr; apply Hrole.
    + rewrite lookup_insert_ne in Hx by done. apply map_lookup_filter_Some in Hx as [Hx _]. done.
  - split; [|done]. assert (¬ (id = GetID region ∨ overlap (meta region) (meta x))) as Hno.
    { intros Hor. apply (Ho id x Hx Hor). apply Hrole; [by eapply Hall|done]. }
    rewrite lookup_insert_ne by (intros <-; tauto). apply map_lookup_filter_Some. split; [done|]. cbn. tauto.
Qed.

(** A heartbeat keeps the counts and the sizes of all stores exact when the
    regions it replaces have their peers on stores of the reported region or of the
    cached one with its id.  The counts of other stores are not recomputed. *)
Theorem heartbeat_counts (now : Z) (c : clusterInfo) (v : gmap Z RegionInfo) (region : RegionInfo) :
  cluster_ok c v → region_wf region → counts_exact c v →
  (∀ id z p, v !! id = Some z → overlap (meta region) (meta z) → p ∈ GetPeers z →
     Peer_StoreId p ∈ touched (v !! GetID region) region) →
  let '(c', r) := handleRegionHeartbeat simulating now region c in
  match r with
  | inl e => e = ErrRegionIsStale ∧ cluster_ok c' v ∧ counts_exact c' v ∨ storage_panic e
  | inr _ => ∃ v', cluster_ok c' v' ∧ counts_exact c' v'
  end.
Proof.
  intros Hok Hwf Hc Hov. pose proof (heartbeat_post now c v region Hok Hwf) as Hpost. unfold mpost in Hpost.
  destruct (handleRegionHeartbeat simulating now region c) as [c' [e|[]]].
  { destruct Hpost as [(-> & _ & Hun & _ & Hs & _)|[_ Hp]]; [left|by right]. split_and!; [done|done|].
    intros id st. cbn in Hs. rewrite Hs. apply Hc. }
  destruct Hpost as (_ & _ & [(Hup & _ & Hs & _)|[(Hun & _ & Hs & _) _]]).
  2: { exists v. split; [done|]. intros id st. cbn in Hs. rewrite Hs. apply Hc. }
  exists (spec_SetRegion region v). split; [done|]. intros id st. cbn in Hs. rewrite Hs. case_decide as Hin.
  { intros (st0 & _ & ->)%fmap_Some. apply with_status_idemp. }
  intros Hst. rewrite <-(Hc id st Hst) at 2. unfold touched in *. rewrite elem_of_app in Hin.
  assert (∀ role (Hd : RelDecision role), role_peers role →
    with_role role id (spec_SetRegion region v) = with_role role id v) as Hrole.
  { intros role Hd Hrp. apply with_role_SetRegion; [done|done|apply (ck_regions _ _ Hok)|tauto|].
    intros id' z Hz [->|Hoz] Hpe.
    - apply Hin. left. by rewrite Hz.
    - apply list_elem_of_fmap in Hpe as (p & -> & Hp). specialize (Hov id' z p Hz Hoz Hp).
      rewrite elem_of_app in Hov. tauto. }
  unfold with_status. by rewrite !Hrole by (apply leads_peers || apply follows_peers || apply learns_peers || apply pends_peers).
Qed.

(** ** Stale information that replaces newer one *)

(** The overlap check is made for uncached regions only.  The heartbeat of a
    cached region, newer than the cached one, evicts an overlapping region whose
    version is greater than its own; the heartbeat of an uncached region with the
    same range and epoch would be rejected. *)
Theorem heartbeat_evicts_newer (now : Z) (c : clusterInfo) (v : gmap Z RegionInfo) (region o z : RegionInfo) (id : Z) :
  cluster_ok c v → region_wf region →
  v !! GetID region = Some o → version o < version region → confver o ≤ confver region →
  v !! id = Some z → id ≠ GetID region → overlap (meta region) (meta z) → version region < version z →
  stale region (delete (GetID region) v) ∧
  let '(c', r) := handleRegionHeartbeat simulating now region c in
  match r with
  | inl e => storage_panic e
  | inr _ => GetRegion (ci_regions c') id = None
  end.
Proof.
  intros Hok Hwf Ho Hlt Hle Hz Hne Hov Hnew. split.
  { unfold stale. rewrite lookup_delete_eq. exists id, z. by rewrite lookup_delete_ne. }
  pose proof (heartbeat_post now c v region Hok Hwf) as Hpost. unfold mpost in Hpost.
  destruct (handleRegionHeartbeat simulating now region c) as [c' [e|[]]].
  all: cbn [fst snd] in Hpost.
  { destruct Hpost as [(_ & Hs & _)|[_ ?]]; [|done]. unfold stale in Hs. rewrite Ho in Hs. lia. }
  destruct Hpost as (_ & _ & [[Hup _]|[_ (o' & Ho' & [Hv _])]]); [|simplify_eq; lia].
  rewrite (GetRegion_abs _ _ id (proj1 (ck_regions _ _ Hup))). unfold spec_SetRegion.
  rewrite lookup_insert_ne by done. apply map_lookup_filter_None. right. intros z' Hz'. cbn.
  simplify_eq. tauto.
Qed.

(** The checks of a heartbeat do not depend on the cache it is applied to later. *)
Lemma read_ok_le c c' rd : hot_le (ci_hotSpotCache c) (ci_hotSpotCache c') → read_ok c rd → read_ok c' rd.
Proof.
  intros Hle [Hw Hr]. split; intros E; [specialize (Hw E); destruct (hr_writeItem rd)|specialize (Hr E); destruct (hr_readItem rd)];
    try done; by eapply item_ok_mono.
Qed.

(** The lock is released between the check and the update of a heartbeat.
    When a newer heartbeat of the same region is handled in between, the older
    region is cached at the end although it is stale by then. *)
Theorem heartbeat_race (now now' : Z) (c : clusterInfo) (v : gmap Z RegionInfo) (old new o : RegionInfo) :
  cluster_ok c v → region_wf old → region_wf new → GetID new = GetID old →
  v !! GetID old = Some o → version o < version old → version old < version new →
  confver o ≤ confver old → confver old ≤ confver new →
  let '(c', r) := (read ← heartbeat_check simulating now old;
                   handleRegionHeartbeat simulating now' new;;
                   heartbeat_apply now old read) c in
  stale old (spec_SetRegion new v) ∧
  match r with
  | inl e => storage_panic e
  | inr _ => GetRegion (ci_regions c') (GetID old) = Some old
  end.
Proof.
  intros Hok Hwo Hwn Hid Ho H1' H2' H3' H4'.
  match goal with |- let '(c', r) := ?m c in _ => enough (mpost m c (λ c' r, match r with
    inl e => storage_panic e | inr _ => GetRegion (ci_regions c') (GetID old) = Some old end)) as Hpost end.
  { unfold mpost in Hpost. match goal with |- let '(c', r) := ?x in _ => destruct x as [c' r] end. split; [|done]. unfold stale, spec_SetRegion.
    rewrite <-Hid, lookup_insert_eq. lia. }
  assert (¬ stale old v ∧ ¬ stale new v) as [Hso Hsn] by (unfold stale; rewrite Hid, Ho; lia).
  apply mpost_bind. eapply mpost_mono; [by apply heartbeat_check_spec|].
  intros c1 [e|rd] (_ & _ & Hok1 & _ & Hrd); [destruct Hrd as (_ & Hn & _); congruence|]. destruct Hrd as (Hor & Hrd & Hns).
  apply mpost_bind. eapply mpost_mono; [by apply heartbeat_post|].
  intros c2 [e|[]]; [by intros [(_ & Hs & _)|[_ ?]]|].
  intros (_ & Hle & [[Hok2 _]|[_ (o' & Ho' & [Hv _])]]); [|rewrite Hid in Ho'; simplify_eq; lia].
  pose proof (heartbeat_decide_spec v old Hns) as Hdec. rewrite <-Hor in Hdec.
  destruct (heartbeat_decide old (hr_origin rd)) as [e|[[saveKV saveCache] isNew]] eqn:Hd; [by destruct Hdec|].
  destruct Hdec as (_ & _ & _ & Hinfo).
  destruct saveCache; [|destruct (Hinfo eq_refl) as (o' & Ho' & [Hv _]); rewrite Hor in Ho'; simplify_eq; lia].
  eapply mpost_mono; [eapply heartbeat_apply_spec; [exact Hok2|done|by eapply read_ok_le|exact Hd]|].
  intros c3 [e|[]]; [done|]. intros (_ & _ & Hok3 & _).
  rewrite (GetRegion_abs _ _ _ (proj1 (ck_regions _ _ Hok3))). apply lookup_insert_eq.
Qed.

(** The cluster with a store's record replaced. *)
Definition with_store (id : Z) (store : StoreInfo) c : clusterInfo :=
  set_storesStats (CreateRollingStoreStats (ci_storesStats c) id) (set_stores (ci_heap c) (<[id := store]> (ci_stores c)) c).

Lemma with_store_ok c v id store m : cluster_ok c v → ci_heap c !! st_meta store = Some m → Store_Id m = id →
  cluster_ok (with_store id store c) v.
Proof.
  intros [Hr Hs Hroll Hh Hst] Hm Hid. split; [done| | |done|done].
  - intros id' st'. cbn. destruct (decide (id = id')) as [<-|Hne].
    + rewrite lookup_insert_eq. intros [= <-]. by exists m.
    + rewrite lookup_insert_ne by done. apply Hs.
  - intros id'. cbn. rewrite !lookup_insert_is_Some'. intros [->|Hid']; [by left|right; by apply Hroll].
Qed.

(** Storing the record of a store: first to the storage, whose failure changes
    nothing else, then to the cache. *)
Lemma putStoreLocked_eq c store m : ci_heap c !! st_meta store = Some m →
  putStoreLocked store c =
    match ci_storage c with
    | None => (with_store (Store_Id m) store c, inr ())
    | Some s =>
        match SaveStore Store_Id m s with
        | (s', inl e) => (set_storage s' c, inl e)
        | (s', inr _) => (with_store (Store_Id m) store (set_storage s' c), inr ())
        end
    end.
Proof.
  intros Hm. unfold putStoreLocked. rewrite !M_bind_eq. cbn [get]. rewrite M_bind_eq. unfold deref, if_storage. rewrite Hm.
  cbn [from_option]. destruct (ci_storage c) as [s|] eqn:Hst.
  - destruct (SaveStore Store_Id m s) as [s' [e|[]]] eqn:E; cbn; rewrite E; [done|].
    rewrite M_bind_eq. cbn. rewrite M_bind_eq. cbn. unfold store_GetID, deref. by rewrite Hm.
  - rewrite M_bind_eq. cbn. rewrite M_bind_eq. cbn. unfold store_GetID, deref. by rewrite Hm.
Qed.

Lemma newClusterInfo_ok now opt (st : option (Storage S D)) :
  ∃ c, newClusterInfo now opt st = Some c ∧ cluster_ok c ∅ ∧ ci_storage c = st.
Proof.
  destruct NewHotSpotCache_ok as (w & Hw & Hok). unfold newClusterInfo. rewrite Hw. eexists. split; [done|].
  split; [|done]. split; cbn; [apply NewRegionsInfo_represents|done| |done|done].
  intros id. rewrite lookup_empty. by intros [].
Qed.
End cluster.

(** ** Instances *)

Module ClusterDemo.
Import SortedList Latin MemLevel ConfigDemo.

#[export] Instance demo_stats : Stats := { Median l := default (f64_of_Z 0) (head l) }.
#[export] Instance demo_classifier : Classifier := DefaultClassifier.
#[export] Instance demo_proto : Proto Region := {
  Marshal r := inr [byte_of_Z (Region_Id r)];
  Unmarshal b := inl (Error "proto");
}.

Abbreviation cluster := (clusterInfo (memoryKV (list memoryKVItem)) db (list Region) Z).
Definition c0 : option cluster := newClusterInfo 0 o0 (Some (mkStorage NewMemoryKV None 0)).

Definition demo_region (id : Z) (lo hi : bytes) (ver store : Z) : RegionInfo :=
  let p := mkPeer (10 * id) store false in
  NewRegionInfo (mkRegion id lo hi (Some (mkRegionEpoch 1 ver)) [p]) (Some p) [].
Definition after (region : RegionInfo) (c : option cluster) : option cluster :=
  c ← c; Some (handleRegionHeartbeat false 0 region c).1.

(** The cluster caches exactly [v]. *)
Definition caches (c : option cluster) (v : gmap Z RegionInfo) : Prop := ∃ c', c = Some c' ∧ cluster_ok c' v.

Definition succeeds (region : RegionInfo) (c : option cluster) : bool :=
  match c with
  | Some c => match (handleRegionHeartbeat false 0 region c).2 with inr _ => true | inl _ => false end
  | None => false
  end.

Lemma caches_after region c v : region_wf region → v !! GetID region = None → succeeds region c = true →
  caches c v → caches (after region c) (spec_SetRegion region v).
Proof.
  intros Hwf Hnone Hs (c' & -> & Hok). pose proof (heartbeat_post false 0 c' v region Hok Hwf) as Hpost.
  unfold mpost in Hpost. cbn in Hs |- *. destruct (handleRegionHeartbeat false 0 region c') as [c'' [e|[]]]; [done|].
  cbn in *. exists c''. split; [done|]. destruct Hpost as (_ & _ & [[Hup _]|[_ (o & Ho & _)]]); [done|congruence].
Qed.

Definition kA : bytes := [Byte.x61].
Definition kM : bytes := [Byte.x6d].
Definition kZ : bytes := [Byte.x7a].
(** Two adjacent regions. *)
Definition left_ : RegionInfo := demo_region 1 kA kM 5 1.
Definition right_ : RegionInfo := demo_region 2 kM kZ 9 2.
Definition c2 : option cluster := after right_ (after left_ c0).
Definition v2 : gmap Z RegionInfo := spec_SetRegion right_ (spec_SetRegion left_ ∅).

Lemma demo_region_wf id lo hi ver store : hi = [] ∨ key_lt lo hi → region_wf (demo_region id lo hi ver store).
Proof. intros H. split; [apply NewRegionInfo_classified|exact H|]. by intros p Hp%elem_of_nil. Qed.

Lemma c2_ok : caches c2 v2.
Proof.
  apply caches_after; [by apply demo_region_wf; right|done|by vm_compute|].
  apply caches_after; [by apply demo_region_wf; right|done|by vm_compute|].
  destruct (newClusterInfo_ok (T:=list Region) 0 o0 (Some (mkStorage (D:=db) NewMemoryKV None 0))) as (c & Hc & Hok & _).
  exists c. by split.
Qed.

(** Newer reports of the left region: the same range, and the whole range. *)
Definition moved : RegionInfo := demo_region 1 kA kM 6 1.
Definition grown : RegionInfo := demo_region 1 kA kZ 7 1.

Lemma heartbeat_correct_witness :
  ∃ c c', c2 = Some c ∧ handleRegionHeartbeat false 0 moved c = (c', inr ()) ∧ updated 0 c v2 moved c'.
Proof.
  destruct c2_ok as (c & Hc & Hok).
  assert (succeeds moved c2 = true) as Hs by (vm_compute; reflexivity). rewrite Hc in Hs. unfold succeeds in Hs.
  pose proof (heartbeat_correct false 0 c v2 moved Hok) as H.
  destruct (handleRegionHeartbeat false 0 moved c) as [c' [e|[]]] eqn:E; [cbn in Hs; discriminate Hs|].
  exists c, c'. split; [exact Hc|]. split; [exact E|].
  destruct H as (_ & [Hup|[_ (o & Ho & Hv & _)]] & _).
  - apply demo_region_wf. right. vm_compute. reflexivity.
  - exact Hup.
  - assert (v2 !! GetID moved = Some left_) as Hl by (vm_compute; reflexivity).
    rewrite Hl in Ho. injection Ho as <-. vm_compute in Hv. discriminate.
Defined.

Lemma heartbeat_evicts_newer_witness :
  ∃ c c', c2 = Some c ∧ handleRegionHeartbeat false 0 grown c = (c', inr ()) ∧
    GetRegion (ci_regions c) 2 = Some right_ ∧ version grown < version right_ ∧ GetRegion (ci_regions c') 2 = None.
Proof.
  destruct c2_ok as (c & Hc & Hok).
  assert (succeeds grown c2 = true) as Hs by (vm_compute; reflexivity). rewrite Hc in Hs. unfold succeeds in Hs.
  destruct (heartbeat_evicts_newer false 0 c v2 grown left_ right_ 2) as [_ H].
  - exact Hok.
  - apply demo_region_wf. right. vm_compute. reflexivity.
  - vm_compute. reflexivity.
  - vm_compute. reflexivity.
  - vm_compute. discriminate.
  - vm_compute. reflexivity.
  - vm_compute. discriminate.
  - refine (bool_decide_unpack _ _). vm_compute. exact I.
  - vm_compute. reflexivity.
  - destruct (handleRegionHeartbeat false 0 grown c) as [c' [e|[]]] eqn:E; [cbn in Hs; discriminate Hs|].
    exists c, c'. split; [exact Hc|]. split; [exact E|].
    split; [|split; [vm_compute; reflexivity|exact H]].
    rewrite (GetRegion_abs _ _ _ (proj1 (ck_regions _ _ Hok))). vm_compute. reflexivity.
Defined.

Lemma heartbeat_race_witness :
  ∃ c, c2 = Some c ∧
    stale moved (spec_SetRegion (demo_region 1 kA kM 7 1) v2) ∧
    let '(c', r) := (read ← heartbeat_check false 0 moved;
                     handleRegionHeartbeat false 0 (demo_region 1 kA kM 7 1);;
                     heartbeat_apply 0 moved read) c in
    match r with inl e => True | inr _ => GetRegion (ci_regions c') 1 = Some moved end.
Proof.
  destruct c2_ok as (c & Hc & Hok). exists c. split; [exact Hc|].
  pose proof (heartbeat_race false 0 0 c v2 moved (demo_region 1 kA kM 7 1) left_ Hok) as H.
  match type of H with context [let '(c', r) := ?x in _] => destruct x as [c' r] end.
  destruct H as [Hst H].
  - apply demo_region_wf. right. vm_compute. reflexivity.
  - apply demo_region_wf. right. vm_compute. reflexivity.
  - reflexivity.
  - vm_compute. reflexivity.
  - vm_compute. reflexivity.
  - vm_compute. reflexivity.
  - vm_compute. discriminate.
  - vm_compute. discriminate.
  - split; [exact Hst|]. destruct r; [exact I|exact H].
Defined.

(** A store and no region. *)
Definition h1 : heap := {[ 1%positive := mkStore 1 (str "a") Up [] [] ]}.
Definition store1 : StoreInfo := (NewStoreInfo h1 1%positive []).2.
Definition c_store : option cluster := c ← c0; Some (with_store 1 store1 (set_stores h1 ∅ c)).

Lemma c_store_ok : caches c_store ∅.
Proof.
  destruct (newClusterInfo_ok (T:=list Region) 0 o0 (Some (mkStorage (D:=db) NewMemoryKV None 0))) as (c & Hc & Hok & _).
  unfold c_store. unfold c0. rewrite Hc. eexists. split; [reflexivity|].
  eapply with_store_ok; [|reflexivity|reflexivity]. destruct Hok. split; try done.
  intros id. cbn. rewrite lookup_empty. by intros [].
Qed.

Lemma heartbeat_counts_witness :
  ∃ c c' v', c_store = Some c ∧ handleRegionHeartbeat false 0 left_ c = (c', inr ()) ∧
    cluster_ok c' v' ∧ counts_exact c' v'.
Proof.
  destruct c_store_ok as (c & Hc & Hok).
  assert (succeeds left_ c_store = true) as Hs by (vm_compute; reflexivity). rewrite Hc in Hs. unfold succeeds in Hs.
  pose proof (heartbeat_counts false 0 c ∅ left_ Hok) as H.
  destruct (handleRegionHeartbeat false 0 left_ c) as [c' [e|[]]] eqn:E; [cbn in Hs; discriminate Hs|].
  destruct H as (v' & H1 & H2).
  - apply demo_region_wf. right. vm_compute. reflexivity.
  - assert (ci_stores c = {[ 1 := store1 ]}) as Hst
      by (unfold c_store, c0 in Hc; cbn in Hc; injection Hc as <-; reflexivity).
    intros id st Hid. rewrite Hst in Hid. apply lookup_singleton_Some in Hid as [<- <-]. vm_compute. reflexivity.
  - intros id z p Hz. rewrite lookup_empty in Hz. discriminate.
  - exists c, c', v'. split; [exact Hc|]. split; [exact E|]. split; [exact H1|exact H2].
Defined.
End ClusterDemo.
