(* ===== verification/RaftCluster.v ===== *)
(** * The cluster (server/cluster.go, server/cluster_worker.go)

    [RaftCluster]: registration, removal and weights of stores, the background
    check of offline stores, and the requests of region splits.  The store
    commands hold the read lock of the cluster only, so they run over the cached
    cluster like its own methods.  The requests of splits also use the id
    allocator and the cache of recent splits of the merge checker. *)

From S2P Require Import Prelude GoBytes BTree Strconv Strings Float KV Metapb Region RegionTree RegionMap RegionsInfo Cache Storage Store StoreStorage Statistics Config ClusterInfo.

(** ** Requests *)

(** [pdpb.BootstrapRequest]. *)
Record BootstrapRequest := mkBootstrapRequest { boot_Store : option Store; boot_Region : option Region }.

Definition checkBootstrapRequest (req : BootstrapRequest) : result unit :=
  match boot_Store req with
  | None => inl (Error "missing store meta for bootstrap")
  | Some storeMeta =>
      if Store_Id storeMeta =? 0 then inl (Error "invalid zero store id")
      else
        match boot_Region req with
        | None => inl (Error "missing region meta for bootstrap")
        | Some regionMeta =>
            if negb (bool_decide (StartKey regionMeta = [])) || negb (bool_decide (EndKey regionMeta = []))
            then inl (Error "invalid first region key range, must all be empty for bootstrap")
            else if Region_Id regionMeta =? 0 then inl (Error "invalid zero region id")
            else
              match Peers regionMeta with
              | [peer] =>
                  if negb (Peer_StoreId peer =? Store_Id storeMeta) then inl (Error "invalid peer store id")
                  else if Peer_Id peer =? 0 then inl (Error "invalid zero peer id")
                  else inr ()
              | _ => inl (Error "invalid first region peer count, must be 1")
              end
        end
  end.

(** ** Reported splits *)

Definition invalidSplit : go_error := Error "invalid split region".

Definition checkSplitRegion (l r : option Region) : result unit :=
  match l, r with
  | Some l, Some r =>
      if negb (bool_decide (EndKey l = StartKey r)) then inl invalidSplit
      else if bool_decide (EndKey r = []) || bool_decide (StartKey l < EndKey r)%key then inr ()
      else inl invalidSplit
  | _, _ => inl invalidSplit
  end.

Fixpoint check_splits (l : Region) (regions : list Region) : result unit :=
  match regions with
  | [] => inr ()
  | r :: regions =>
      if negb (bool_decide (EndKey l = StartKey r)) then inl invalidSplit
      else if negb (bool_decide (EndKey r = [])) && negb (bool_decide (StartKey l < EndKey r)%key)
      then inl invalidSplit
      else check_splits r regions
  end.

Definition checkSplitRegions (regions : list Region) : result unit :=
  match regions with
  | l :: (_ :: _) as rest => check_splits l rest
  | _ => inl invalidSplit
  end.

(** ** Store commands *)

Section stores.
Context {S D T V : Type} `{!KVBase S} `{!LevelDB D} `{!BTreeOps Region T}.
Context `{!Proto Region, !Proto Store} `{!Unicode} `{!FloatText} `{!Semver V}.
Abbreviation clusterInfo := (clusterInfo S D T V).
Abbreviation MC := (M clusterInfo).

(** The order in which the map of stores is ranged over. *)
Variable range : list StoreInfo → list StoreInfo.

Definition set_heap (h : heap) (c : clusterInfo) : clusterInfo := set_stores h (ci_stores c) c.

(** The record to register: a new one, or the cached one with the address, the
    version and the labels of the request; the options write to the message the
    cached record shares. *)
Definition put_record (store : Store) (c : clusterInfo) : heap * StoreInfo :=
  match ci_GetStore c (Store_Id store) with
  | None =>
      let '(h, l) := alloc (ci_heap c) store in
      NewStoreInfo h l []
  | Some s =>
      let '(h, labels) := MergeLabels (ci_heap c) s (Labels store) in
      Store_Clone h s [SetStoreAddress (Address store); SetStoreVersion (Store_Version store); SetStoreLabels labels]
  end.

(** The check of the location labels; without strict matching it only warns. *)
Definition check_labels (h : heap) (s : StoreInfo) (locationLabels : list bytes) (strict : bool) : result unit :=
  if strict then
    if forallb (λ k, negb (bool_decide (GetLabelValue h s k = []))) locationLabels then
      if forallb (λ label, bool_decide (Label_Key label ∈ locationLabels)) (store_GetLabels h s) then inr ()
      else inl (Error "key matching the label was not found in the PD")
    else inl (Error "label configuration is incorrect, need to specify the key")
  else inr ().

Definition duplicated_address (store : Store) (c : clusterInfo) : bool :=
  existsb (λ s, negb (IsTombstone (ci_heap c) s) && negb (store_GetID (ci_heap c) s =? Store_Id store) &&
                bool_decide (store_GetAddress (ci_heap c) s = Address store)) (ci_GetStores range c).

(** The checks of [putStore] before it changes anything. *)
Definition put_check (store : Store) : MC unit :=
  if Store_Id store =? 0 then mfail (Error "invalid put store")
  else
    match ParseVersion (V:=V) (Store_Version store) with
    | inl (Panic msg) => mfail (Panic msg)
    | inl (Error _) => mfail (Error "invalid put store")
    | inr v =>
        c ← get;
        if negb (IsCompatible (o_clusterVersion (ci_opt c)) v) then mfail (Error "version should compatible with version")
        else if duplicated_address store c then mfail (Error "duplicated store address")
        else mret ()
    end.

Definition put_apply (store : Store) : MC unit :=
  c ← get;
  let '(h, s) := put_record store c in
  update (set_heap h);;
  lift_result (check_labels h s (LocationLabels (o_rep (ci_opt c))) (StrictlyMatchLabel (o_rep (ci_opt c))));;
  putStoreLocked s.

Definition putStore (store : Store) : MC unit := put_check store;; put_apply store.

Definition UpdateStoreLabels (storeID : Z) (labels : list StoreLabel) : MC unit :=
  c ← get;
  match ci_GetStore c storeID with
  | None => mfail (Error "invalid store ID, not found")
  | Some store =>
      let m := deref (ci_heap c) (st_meta store) in
      putStore (mkStore (Store_Id m) (Address m) (State m) labels (Store_Version m))
  end.

(** [store.Clone(SetStoreState(state))], which writes to the shared message, and
    [putStore]. *)
Definition put_state (store : StoreInfo) (state : StoreState) : MC unit :=
  c ← get;
  let '(h, newStore) := Store_Clone (ci_heap c) store [SetStoreState state] in
  update (set_heap h);;
  putStoreLocked newStore.

Definition RemoveStore (storeID : Z) : MC unit :=
  c ← get;
  match ci_GetStore c storeID with
  | None => mfail storeNotFound
  | Some store =>
      if IsOffline (ci_heap c) store then mret ()
      else if IsTombstone (ci_heap c) store then mfail (Error "store has been removed")
      else put_state store Offline
  end.

Definition BuryStore (storeID : Z) (force : bool) : MC unit :=
  c ← get;
  match ci_GetStore c storeID with
  | None => mfail storeNotFound
  | Some store =>
      if IsTombstone (ci_heap c) store then mret ()
      else if IsUp (ci_heap c) store && negb force
      then mfail (Error "store is still up, please remove store gracefully")
      else put_state store Tombstone
  end.

Definition raft_SetStoreState (storeID : Z) (state : StoreState) : MC unit :=
  c ← get;
  match ci_GetStore c storeID with
  | None => mfail storeNotFound
  | Some store => put_state store state
  end.

(** The server and the cached cluster share the storage. *)
Definition SetStoreWeight (storeID : Z) (leaderWeight regionWeight : f64) : MC unit :=
  c ← get;
  match ci_GetStore c storeID with
  | None => mfail storeNotFound
  | Some store =>
      if_storage (on_base (SaveStoreWeight storeID leaderWeight regionWeight));;
      let '(h, newStore) := Store_Clone (ci_heap c) store [SetLeaderWeight leaderWeight; SetRegionWeight regionWeight] in
      putStoreLocked newStore
  end.

(** The round of a store: an offline one without regions is buried; a failure is
    logged.  The numbers that are counted are only used for a warning. *)
Definition check_store (store : StoreInfo) : MC unit :=
  c ← get;
  if IsTombstone (ci_heap c) store || IsUp (ci_heap c) store then mret ()
  else if (GetStoreRegionCount (ci_regions c) (store_GetID (ci_heap c) store) =? 0)%nat then
    r ← mcatch (BuryStore (store_GetID (ci_heap c) store) false);
    match r with inl (Panic msg) => mfail (Panic msg) | _ => mret () end
  else mret ().

Fixpoint check_stores (stores : list StoreInfo) : MC unit :=
  match stores with
  | [] => mret ()
  | store :: stores => check_store store;; check_stores stores
  end.

Definition checkStores : MC unit :=
  c ← get;
  check_stores (ci_GetStores range c).

Definition remove_tombstone (store : StoreInfo) : MC unit :=
  c ← get;
  if IsTombstone (ci_heap c) store then deleteStoreLocked store else mret ().

Fixpoint remove_tombstones (stores : list StoreInfo) : MC unit :=
  match stores with
  | [] => mret ()
  | store :: stores => remove_tombstone store;; remove_tombstones stores
  end.

Definition RemoveTombStoneRecords : MC unit :=
  c ← get;
  remove_tombstones (ci_GetStores range c).

Definition raft_GetStore (c : clusterInfo) (storeID : Z) : result StoreInfo :=
  if storeID =? 0 then inl (Error "invalid zero store id")
  else
    match ci_GetStore c storeID with
    | None => inl (Error "invalid store ID, not found")
    | Some store => inr store
    end.

Definition isInitialized (c : clusterInfo) : bool :=
  (1 <? GetRegionCount (ci_regions c))%nat ||
  match SearchRegion (ci_regions c) [] with
  | None => false
  | Some region =>
      (int64 (MaxReplicas (o_rep (ci_opt c))) <=? Z.of_nat (length (GetVoters region))) &&
      bool_decide (GetPendingPeers region = [])
  end.

Definition putConfig (clusterID : Z) (meta : ClusterMeta) `{!Proto ClusterMeta} : MC unit :=
  if negb (Cluster_Id meta =? clusterID) then mfail (Error "invalid cluster, mismatch cluster id")
  else putMetaLocked meta.

(** [GetRegionByKey]: the region and its leader. *)
Definition GetRegionByKey (c : clusterInfo) (regionKey : bytes) : option (Region * option Peer) :=
  region ← SearchRegion (ci_regions c) regionKey;
  Some (GetMeta region, GetLeader region).

(** *** Regions *)

Definition validRequestRegion (reqRegion : Region) (c : clusterInfo) : result unit :=
  match GetRegionByKey c (StartKey reqRegion) with
  | None => inl (Error "region not found")
  | Some (region, _) =>
      if (Epoch_GetVersion (Epoch reqRegion) <? Epoch_GetVersion (Epoch region)) ||
         (Epoch_GetConfVer (Epoch reqRegion) <? Epoch_GetConfVer (Epoch region))
      then inl (Error "invalid region epoch")
      else inr ()
  end.
End stores.

(** ** Requests of splits *)

(** [core.IDAllocator]. *)
Class IDAllocator (A : Type) := { alloc_id : M A Z }.

(** What callers rely on: an id is given out once. *)
Class IDAllocatorLaws (A : Type) `{!IDAllocator A} := {
  issued : A → gset Z;
  alloc_id_fresh a a' id : alloc_id a = (a', inr id) → (id ∉ issued a) ∧ (issued a' = {[ id ]} ∪ issued a);
  alloc_id_error a a' e : alloc_id a = (a', inl e) → issued a ⊆ issued a';
}.

(** The allocator and the split cache of the merge checker. *)
Record splitState (A : Type) := mkSplitState { sp_ids : A; sp_cache : Ttl.IDTTL }.
Arguments mkSplitState {A}.
Arguments sp_ids {A}.
Arguments sp_cache {A}.

(** [pdpb.SplitID]: the id of a new region and of its peers. *)
Record SplitID := mkSplitID { NewRegionId : Z; NewPeerIds : list Z }.

Definition zeroRegion : Region := mkRegion 0 [] [] None [].

Section splits.
Context {S D T V A : Type} `{!BTreeOps Region T} `{!IDAllocator A}.
Abbreviation MSp := (M (splitState A)).
Implicit Types (c : clusterInfo S D T V).

Definition sp_Alloc : MSp Z := λ s,
  let '(a, r) := alloc_id (sp_ids s) in (mkSplitState a (sp_cache s), r).

Fixpoint alloc_ids (n : nat) : MSp (list Z) :=
  match n with
  | O => mret []
  | Datatypes.S n => id ← sp_Alloc; ids ← alloc_ids n; mret (id :: ids)
  end.

(** The regions do not merge for the split-merge interval. *)
Definition RecordRegionSplit c (now regionID : Z) : MSp unit := λ s,
  (mkSplitState (sp_ids s)
     (Ttl.PutWithTTL (sp_cache s) now regionID None (SplitMergeInterval (o_v (ci_opt c)))), inr ()).

(** [reqRegion] may be nil: its getters return zero values, reading a field of it
    panics. *)
Definition handleAskSplit c (now : Z) (reqRegion : option Region) : MSp SplitID :=
  lift_result (validRequestRegion (default zeroRegion reqRegion) c);;
  newRegionID ← sp_Alloc;
  match reqRegion with
  | None => mfail (Panic "nil region")
  | Some region =>
      peerIDs ← alloc_ids (length (Peers region));
      RecordRegionSplit c now (Region_Id region);;
      RecordRegionSplit c now newRegionID;;
      mret (mkSplitID newRegionID peerIDs)
  end.

Fixpoint ask_splits c (now : Z) (reqRegion : option Region) (splitCount : nat) : MSp (list SplitID) :=
  match splitCount with
  | O => mret []
  | Datatypes.S n =>
      r ← mcatch sp_Alloc;
      match r with
      | inl (Panic msg) => mfail (Panic msg)
      | inl (Error _) => mfail (Error "scheduler not found")
      | inr newRegionID =>
          match reqRegion with
          | None => mfail (Panic "nil region")
          | Some region =>
              peerIDs ← alloc_ids (length (Peers region));
              RecordRegionSplit c now newRegionID;;
              ids ← ask_splits c now reqRegion n;
              mret (mkSplitID newRegionID peerIDs :: ids)
          end
      end
  end.

Definition handleAskBatchSplit c (now : Z) (reqRegion : option Region) (splitCount : nat) : MSp (list SplitID) :=
  lift_result (validRequestRegion (default zeroRegion reqRegion) c);;
  RecordRegionSplit c now (Region_Id (default zeroRegion reqRegion));;
  ask_splits c now reqRegion splitCount.
End splits.
