(* ===== verification/RaftClusterProps.v ===== *)
(** * Properties of the cluster

    What the store commands do to the stores, also when they fail, and the ids
    and checks of region splits. *)

From S2P Require Import Prelude GoBytes BTree Strconv Strings Float KV Metapb Region RegionTree RegionMap RegionsInfo RegionsInfoProps Cache CacheProps Storage Store StoreStorage Statistics StatisticsProps Config ConfigProps ClusterInfo ClusterInfoProps RaftCluster.

Section stores.
Context {S D T V : Type} `{!KVBase S} `{!LevelDB D} `{!BTreeOps Region T, !BTreeLaws Region T}.
Context `{!Proto Region, !Proto Store} `{!Unicode} `{!FloatText} `{!Semver V}.
Variable range : list StoreInfo → list StoreInfo.
Hypothesis range_perm : ∀ l, range l ≡ₚ l.
Abbreviation clusterInfo := (clusterInfo S D T V).
Implicit Types (c : clusterInfo) (v : gmap Z RegionInfo) (store : StoreInfo) (m : Store) (id : Z).

(** The message of a cached store. *)
Definition meta_of c id : option Store := st ← ci_stores c !! id; ci_heap c !! st_meta st.

(** Where it is. *)
Definition loc_of c id : option loc := st_meta <$> ci_stores c !! id.
Definition same_locs c c' : Prop := ∀ id, loc_of c' id = loc_of c id.

Definition with_state (state : StoreState) m : Store :=
  mkStore (Store_Id m) (Address m) state (Labels m) (Store_Version m).

(** ** Writing to a message *)

Lemma store_message c v id store : cluster_ok c v → ci_stores c !! id = Some store →
  ∃ m, ci_heap c !! st_meta store = Some m ∧ Store_Id m = id ∧ meta_of c id = Some m ∧ deref (ci_heap c) (st_meta store) = m.
Proof.
  intros Hok Hst. destruct (ck_stores _ _ Hok id store Hst) as (m & Hm & Hid). exists m.
  split; [done|]. split; [done|]. unfold meta_of, deref. rewrite Hst. cbn. by rewrite Hm.
Qed.

(** Two cached stores do not share a message. *)
Lemma message_inj c v id id' store store' : cluster_ok c v → ci_stores c !! id = Some store →
  ci_stores c !! id' = Some store' → st_meta store = st_meta store' → id = id'.
Proof.
  intros Hok Ha Hb E. destruct (store_message _ _ _ _ Hok Ha) as (m & Hm & <- & _).
  destruct (store_message _ _ _ _ Hok Hb) as (m' & Hm' & <- & _). rewrite E in Hm. congruence.
Qed.

(** A write changes the message of one store. *)
Lemma write_spec c v id store f : cluster_ok c v → ci_stores c !! id = Some store →
  (∀ m, Store_Id (f m) = Store_Id m) →
  let c' := set_heap (write (st_meta store) f (ci_heap c)) c in
  cluster_ok c' v ∧ ∀ id', meta_of c' id' = if decide (id' = id) then f <$> meta_of c id else meta_of c id'.
Proof.
  intros Hok Hst Hf. split.
  - destruct Hok as [Hr Hs Hroll Hh Hrs]. split; try done. cbn. intros id' st' Hst'.
    destruct (Hs id' st' Hst') as (m & Hm & Hid). unfold write. destruct (decide (st_meta store = st_meta st')) as [->|Hne].
    + exists (f m). rewrite lookup_alter_eq, Hm. split; [done|]. by rewrite Hf.
    + exists m. by rewrite lookup_alter_ne.
  - intros id'. unfold meta_of. cbn. unfold write. case_decide as E.
    + subst id'. rewrite Hst. cbn. apply lookup_alter_eq.
    + destruct (ci_stores c !! id') as [st'|] eqn:Hst'; [|done]. cbn. apply lookup_alter_ne.
      intros El. apply E. by eapply (message_inj c v id' id st' store).
Qed.

(** ** Storing a record *)

Definition save_failed (e : go_error) : Prop :=
  ∃ m (s : Storage S D), (SaveStore Store_Id m s).2 = inl e.

Lemma putStoreLocked_post c v store m : cluster_ok c v → ci_heap c !! st_meta store = Some m →
  mpost (putStoreLocked store) c (λ c' r,
    cluster_ok c' v ∧ ci_heap c' = ci_heap c ∧ ci_regions c' = ci_regions c ∧ ci_opt c' = ci_opt c ∧
    match r with
    | inl e => ci_stores c' = ci_stores c ∧ save_failed e
    | inr _ => ci_stores c' = <[Store_Id m := store]> (ci_stores c)
    end).
Proof.
  intros Hok Hm. unfold mpost. rewrite (putStoreLocked_eq c store m Hm). destruct (ci_storage c) as [s|] eqn:Hs.
  - assert (∀ s', cluster_ok (set_storage s' c) v) as Hok' by (intros s'; destruct Hok; by split).
    destruct (SaveStore Store_Id m s) as [s' [e|[]]] eqn:E; cbn.
    + split_and!; try done. exists m, s. by rewrite E.
    + split; [by eapply with_store_ok|done].
  - cbn. split; [by eapply with_store_ok|done].
Qed.

(** The record of a cached store is replaced by one with the same message. *)
Lemma put_same c v id store store' : cluster_ok c v → ci_stores c !! id = Some store → st_meta store' = st_meta store →
  mpost (putStoreLocked store') c (λ c' r,
    cluster_ok c' v ∧ ci_regions c' = ci_regions c ∧ ci_opt c' = ci_opt c ∧ (∀ id', meta_of c' id' = meta_of c id') ∧
    same_locs c c' ∧
    match r with inl e => ci_stores c' = ci_stores c ∧ save_failed e | inr _ => ci_stores c' = <[id := store']> (ci_stores c) end).
Proof.
  intros Hok Hst Hmeta. destruct (store_message _ _ _ _ Hok Hst) as (m & Hm & Hid & _).
  eapply mpost_mono; [apply (putStoreLocked_post c v store' m); [done|by rewrite Hmeta]|].
  intros c' r (Hok' & Hh & Hr & Ho & Hres). rewrite Hid in Hres. assert (same_locs c c') as Hloc.
  { intros id'. unfold loc_of. destruct r as [e|[]]; [by destruct Hres as [-> _]|]. rewrite Hres.
    destruct (decide (id = id')) as [<-|Hne]; [rewrite lookup_insert_eq, Hst; cbn; by rewrite Hmeta|by rewrite lookup_insert_ne]. }
  split_and!; [done|done|done| |done|by destruct r]. intros id'. specialize (Hloc id'). unfold loc_of in Hloc. unfold meta_of.
  rewrite Hh. destruct (ci_stores c' !! id'), (ci_stores c !! id'); try done. injection Hloc as E. cbn. by rewrite E.
Qed.

Lemma put_state_post c v id store state : cluster_ok c v → ci_stores c !! id = Some store →
  mpost (put_state store state) c (λ c' r,
    cluster_ok c' v ∧ ci_regions c' = ci_regions c ∧ ci_opt c' = ci_opt c ∧
    (∀ id', meta_of c' id' = if decide (id' = id) then with_state state <$> meta_of c id else meta_of c id') ∧
    same_locs c c' ∧
    match r with inl e => save_failed e | inr _ => True end).
Proof.
  intros Hok Hst. unfold put_state. apply mpost_bind, mpost_get. cbn [Store_Clone store_opts foldl].
  unfold Store_Clone, store_opts. cbn [foldl SetStoreState]. apply mpost_bind, mpost_update.
  destruct (write_spec c v id store (with_state state) Hok Hst) as [Hok' Hmeta]; [done|].
  eapply mpost_mono; [by apply (put_same _ v id store)|]. intros c' r (H1 & H2 & H3 & H4 & H5 & H6).
  split_and!; [done|done|done| |done|by destruct r; [destruct H6|]]. intros id'. rewrite H4. apply Hmeta.
Qed.

(** ** Commands *)

Inductive store_cmd :=
  | CmdPut (store : Store)
  | CmdLabels (id : Z) (labels : list StoreLabel)
  | CmdRemove (id : Z)
  | CmdBury (id : Z) (force : bool)
  | CmdState (id : Z) (state : StoreState)
  | CmdWeight (id : Z) (leaderWeight regionWeight : f64)
  | CmdCheckStores
  | CmdRemoveTombstones.

Definition run_cmd (cmd : store_cmd) : M clusterInfo unit :=
  match cmd with
  | CmdPut store => putStore range store
  | CmdLabels id labels => UpdateStoreLabels range id labels
  | CmdRemove id => RemoveStore id
  | CmdBury id force => BuryStore id force
  | CmdState id state => raft_SetStoreState id state
  | CmdWeight id lw rw => SetStoreWeight id lw rw
  | CmdCheckStores => checkStores range
  | CmdRemoveTombstones => RemoveTombStoneRecords range
  end.

(** The changes of a store's state a command may make. *)
Definition may_change (cmd : store_cmd) c id (s s' : StoreState) : Prop :=
  match cmd with
  | CmdRemove i => i = id ∧ s = Up ∧ s' = Offline
  | CmdBury i force => i = id ∧ s' = Tombstone ∧ (s = Offline ∨ s = Up ∧ force = true)
  | CmdState i state => i = id ∧ s' = state
  | CmdCheckStores => s = Offline ∧ s' = Tombstone ∧ GetStoreRegionCount (ci_regions c) id = 0%nat
  | _ => False
  end.

(** The store a command registers. *)
Definition puts (cmd : store_cmd) id : Prop :=
  match cmd with
  | CmdPut store => id = Store_Id store
  | CmdLabels i _ => id = i
  | _ => False
  end.

(** The message of a store before and after a command. *)
Definition store_step (cmd : store_cmd) c id (o o' : option Store) : Prop :=
  match o, o' with
  | None, None => True
  | None, Some m' => puts cmd id ∧ Store_Id m' = id
  | Some m, None => cmd = CmdRemoveTombstones ∧ State m = Tombstone
  | Some m, Some m' =>
      Store_Id m' = id ∧ (State m' = State m ∨ may_change cmd c id (State m) (State m')) ∧
      (puts cmd id ∨ m' = with_state (State m') m)
  end.

(** The invariant and the frame of the commands: the stores that stay change
    their state only as the command may and nothing else unless it registers
    them, and only tombstones are removed. *)
Definition cmd_ok (cmd : store_cmd) c v c' : Prop :=
  cluster_ok c' v ∧ ci_regions c' = ci_regions c ∧ ci_opt c' = ci_opt c ∧
  ∀ id, store_step cmd c id (meta_of c id) (meta_of c' id).

Lemma meta_of_id c v id m : cluster_ok c v → meta_of c id = Some m → Store_Id m = id.
Proof.
  intros Hok. unfold meta_of. destruct (ci_stores c !! id) as [st|] eqn:Hst; [|done]. cbn. intros Hm.
  destruct (store_message _ _ _ _ Hok Hst) as (m' & Hm' & Hid & _). congruence.
Qed.

Lemma with_state_same m : m = with_state (State m) m.
Proof. by destruct m. Qed.

Lemma store_step_refl cmd c v id : cluster_ok c v → store_step cmd c id (meta_of c id) (meta_of c id).
Proof.
  intros Hok. destruct (meta_of c id) as [m|] eqn:Hm; [|done]. split_and!; [exact (meta_of_id c v id m Hok Hm)|by left|].
  right. apply with_state_same.
Qed.

Lemma cmd_ok_refl cmd c v : cluster_ok c v → cmd_ok cmd c v c.
Proof. intros Hok. split_and!; [done..|]. intros id. by eapply store_step_refl. Qed.

Lemma GetStore_cases c v id : cluster_ok c v →
  match ci_GetStore c id with
  | None => meta_of c id = None
  | Some store => ci_stores c !! id = Some store ∧ ∃ m, meta_of c id = Some m ∧ Store_Id m = id ∧ deref (ci_heap c) (st_meta store) = m
  end.
Proof.
  intros Hok. unfold ci_GetStore, stores_GetStore. destruct (ci_stores c !! id) as [store|] eqn:Hst.
  - split; [done|]. destruct (store_message _ _ _ _ Hok Hst) as (m & _ & ? & ? & ?). by exists m.
  - unfold meta_of. by rewrite Hst.
Qed.

(** A change of the state of one store. *)
Lemma put_state_cmd cmd c v id store m state : cluster_ok c v → ci_stores c !! id = Some store → meta_of c id = Some m →
  may_change cmd c id (State m) state →
  mpost (put_state store state) c (λ c' r, cmd_ok cmd c v c' ∧ same_locs c c' ∧ meta_of c' id = Some (with_state state m) ∧
    match r with inl e => save_failed e | inr _ => True end).
Proof.
  intros Hok Hst Hm Hmay. eapply mpost_mono; [by apply (put_state_post c v id)|].
  intros c' r (Hok' & Hr & Ho & Hmeta & Hloc & Herr). split; [|split; [done|split; [|done]]].
  - split_and!; [done..|]. intros id'. rewrite Hmeta. destruct (decide (id' = id)) as [->|Hne].
    + rewrite Hm. cbn. split_and!; [exact (meta_of_id c v id m Hok Hm)|by right|by right].
    + by eapply store_step_refl.
  - rewrite Hmeta, decide_True by done. by rewrite Hm.
Qed.

Lemma SetStoreState_post c v id state : cluster_ok c v →
  mpost (raft_SetStoreState id state) c (λ c' r, cmd_ok (CmdState id state) c v c' ∧
    match meta_of c id with
    | None => c' = c ∧ r = inl storeNotFound
    | Some m => meta_of c' id = Some (with_state state m) ∧ match r with inl e => save_failed e | inr _ => True end
    end).
Proof.
  intros Hok. unfold raft_SetStoreState. apply mpost_bind, mpost_get. pose proof (GetStore_cases c v id Hok) as Hc.
  destruct (ci_GetStore c id) as [store|]; [|by rewrite Hc; split; [apply cmd_ok_refl|]].
  destruct Hc as (Hst & m & Hm & _). rewrite Hm. eapply mpost_mono; [by apply (put_state_cmd (CmdState id state) c v id store m)|].
  by intros c' r (? & _ & ? & ?).
Qed.

Lemma RemoveStore_post c v id : cluster_ok c v →
  mpost (RemoveStore id) c (λ c' r, cmd_ok (CmdRemove id) c v c' ∧ same_locs c c' ∧
    match meta_of c id with
    | None => r = inl storeNotFound
    | Some m =>
        match State m with
        | Up => meta_of c' id = Some (with_state Offline m) ∧ match r with inl e => save_failed e | inr _ => True end
        | Offline => c' = c ∧ r = inr ()
        | Tombstone => c' = c ∧ ∃ msg, r = inl (Error msg)
        end
    end).
Proof.
  intros Hok. unfold RemoveStore. apply mpost_bind, mpost_get. pose proof (GetStore_cases c v id Hok) as Hc.
  destruct (ci_GetStore c id) as [store|]; [|by rewrite Hc; split; [apply cmd_ok_refl|]].
  destruct Hc as (Hst & m & Hm & Hid & Hd). rewrite Hm. unfold IsOffline, IsTombstone, store_GetState. rewrite Hd.
  pose proof (cmd_ok_refl (CmdRemove id) c v Hok) as Hrefl. destruct (State m) eqn:Hs; cbn.
  - eapply mpost_mono; [apply (put_state_cmd (CmdRemove id) c v id store m); [done..|]; by cbn; rewrite Hs|]. done.
  - done.
  - split; [done|]. split; [done|]. split; [done|]. by eexists.
Qed.

Lemma BuryStore_post c v id force : cluster_ok c v →
  mpost (BuryStore id force) c (λ c' r, cmd_ok (CmdBury id force) c v c' ∧ same_locs c c' ∧
    match meta_of c id with
    | None => r = inl storeNotFound
    | Some m =>
        match State m with
        | Tombstone => c' = c ∧ r = inr ()
        | s => if bool_decide (s = Up) && negb force then c' = c ∧ ∃ msg, r = inl (Error msg)
               else meta_of c' id = Some (with_state Tombstone m) ∧ match r with inl e => save_failed e | inr _ => True end
        end
    end).
Proof.
  intros Hok. unfold BuryStore. apply mpost_bind, mpost_get. pose proof (GetStore_cases c v id Hok) as Hc.
  destruct (ci_GetStore c id) as [store|]; [|by rewrite Hc; split; [apply cmd_ok_refl|]].
  destruct Hc as (Hst & m & Hm & Hid & Hd). rewrite Hm. unfold IsUp, IsTombstone, store_GetState. rewrite Hd.
  pose proof (cmd_ok_refl (CmdBury id force) c v Hok) as Hrefl.
  assert (may_change (CmdBury id force) c id (State m) Tombstone → mpost (put_state store Tombstone) c (λ c' r,
    cmd_ok (CmdBury id force) c v c' ∧ same_locs c c' ∧ meta_of c' id = Some (with_state Tombstone m) ∧
    match r with inl e => save_failed e | inr _ => True end)) as Hput by by apply put_state_cmd.
  destruct (State m) eqn:Hs; cbn.
  - destruct force; cbn; [|by split; [|split; [|split; [|eexists]]]]. apply Hput. cbn. auto.
  - apply Hput. cbn. auto.
  - done.
Qed.

(** ** Registration *)

(** The message of a store after it was registered. *)
Definition put_message (store : Store) (old : option Store) : Store :=
  match old with
  | None => store
  | Some m => mkStore (Store_Id m) (Address store) (State m) (merge_labels (Labels m) (Labels store)) (Store_Version store)
  end.

(** Registering a new store in the heap. *)
Lemma alloc_ok c v (store : Store) : cluster_ok c v →
  let '(h, l) := alloc (ci_heap c) store in
  cluster_ok (set_heap h c) v ∧ h !! l = Some store ∧ ∀ id', meta_of (set_heap h c) id' = meta_of c id'.
Proof.
  intros Hok. cbn. set (l := fresh (dom (ci_heap c))).
  assert (∀ id' st', ci_stores c !! id' = Some st' → l ≠ st_meta st') as Hne.
  { intros id' st' Hst' E. destruct (store_message _ _ _ _ Hok Hst') as (m & Hm & _).
    apply (is_fresh (dom (ci_heap c))). fold l. rewrite E. apply elem_of_dom. by exists m. }
  split_and!; [|apply lookup_insert_eq|].
  - destruct Hok as [Hr Hs Hroll Hh Hrs]. split; try done. cbn. intros id' st' Hst'.
    rewrite lookup_insert_ne by by eapply Hne. by apply Hs.
  - intros id'. unfold meta_of. cbn. destruct (ci_stores c !! id') as [st'|] eqn:Hst'; [|done]. cbn.
    by rewrite lookup_insert_ne by by eapply Hne.
Qed.

Lemma put_record_spec c v (store : Store) : cluster_ok c v →
  let '(h, s) := put_record store c in
  let m' := put_message store (meta_of c (Store_Id store)) in
  cluster_ok (set_heap h c) v ∧ h !! st_meta s = Some m' ∧ Store_Id m' = Store_Id store ∧
  ∀ id', meta_of (set_heap h c) id' =
    if decide (id' = Store_Id store) then const m' <$> meta_of c id' else meta_of c id'.
Proof.
  intros Hok. unfold put_record. pose proof (GetStore_cases c v (Store_Id store) Hok) as Hc.
  destruct (ci_GetStore c (Store_Id store)) as [s|].
  - destruct Hc as (Hst & m & Hm & Hid & Hd). rewrite Hm. cbn [put_message].
    unfold MergeLabels, Store_Clone, store_opts. cbn [foldl SetStoreAddress SetStoreVersion SetStoreLabels fst].
    unfold store_GetLabels. rewrite Hd. unfold write. rewrite !alter_alter_eq.
    set (f := _ ∘ _). destruct (write_spec c v (Store_Id store) s f Hok Hst) as [Hok' Hmeta]; [done|].
    split_and!; [done| |done|].
    + destruct (store_message _ _ _ _ Hok Hst) as (m0 & Hm0 & _ & Hm' & _). rewrite lookup_alter_eq, Hm0.
      assert (m0 = m) as -> by congruence. done.
    + intros id'. unfold write in Hmeta. rewrite Hmeta. case_decide as E; [|done]. subst id'. by rewrite Hm.
  - rewrite Hc. cbn [put_message]. pose proof (alloc_ok c v store Hok) as Ha. destruct (alloc (ci_heap c) store) as [h l].
    destruct Ha as (Hok' & Hl & Hmeta). cbn. split_and!; [done|done|done|]. intros id'. rewrite Hmeta.
    case_decide as E; [|done]. subst id'. by rewrite Hc.
Qed.

Lemma put_apply_post cmd c v (store : Store) : cluster_ok c v → puts cmd (Store_Id store) →
  mpost (put_apply store) c (λ c' r, cmd_ok cmd c v c' ∧
    (∀ id', id' ≠ Store_Id store → meta_of c' id' = meta_of c id') ∧
    let m' := put_message store (meta_of c (Store_Id store)) in
    meta_of c' (Store_Id store) = match r with inl _ => const m' <$> meta_of c (Store_Id store) | inr _ => Some m' end).
Proof.
  intros Hok Hputs. unfold put_apply. apply mpost_bind, mpost_get. pose proof (put_record_spec c v store Hok) as Hp.
  destruct (put_record store c) as [h s]. destruct Hp as (Hok1 & Hs & Hid & Hmeta).
  set (m' := put_message store (meta_of c (Store_Id store))) in *. set (c1 := set_heap h c) in *.
  assert (∀ c', cluster_ok c' v → ci_regions c' = ci_regions c → ci_opt c' = ci_opt c →
    (∀ id', meta_of c' id' = meta_of c1 id' ∨ id' = Store_Id store ∧ meta_of c' id' = Some m') →
    cmd_ok cmd c v c' ∧ (∀ id', id' ≠ Store_Id store → meta_of c' id' = meta_of c id')) as Hfin.
  { intros c' Hok' Hr Ho Hm'. split; [split_and!; [done..|]|].
    - intros id. destruct (decide (id = Store_Id store)) as [->|Hne].
      + destruct (Hm' (Store_Id store)) as [E|[_ E]]; rewrite E, ?Hmeta, ?decide_True by done;
          unfold m' in *; destruct (meta_of c (Store_Id store)) as [m|]; cbn in *; by auto.
      + assert (meta_of c' id = meta_of c id) as -> by (destruct (Hm' id) as [E|[? _]]; [by rewrite E, Hmeta, decide_False|done]).
        by eapply store_step_refl.
    - intros id' Hne. destruct (Hm' id') as [E|[? _]]; [by rewrite E, Hmeta, decide_False|done]. }
  apply mpost_bind, mpost_update. fold c1. apply mpost_bind. unfold mpost at 1, lift_result. cbn [fst snd].
  destruct (check_labels _ _ _ _) as [e|[]].
  { destruct (Hfin c1) as [? ?]; [done|done|done|by left|]. split_and!; [done|done|]. by rewrite Hmeta, decide_True. }
  eapply mpost_mono; [by apply (putStoreLocked_post c1 v s m')|].
  intros c' r (Hok' & Hh & Hr & Ho & Hres). rewrite Hid in Hres.
  assert (∀ id', meta_of c' id' = meta_of c1 id' ∨ id' = Store_Id store ∧ meta_of c' id' = Some m') as Hm'.
  { intros id'. unfold meta_of. rewrite Hh. destruct r as [e|[]]; [left; by destruct Hres as [-> _]|]. rewrite Hres.
    destruct (decide (Store_Id store = id')) as [<-|Hne]; [right|left; by rewrite lookup_insert_ne].
    split; [done|]. rewrite lookup_insert_eq. done. }
  destruct (Hfin c') as [? ?]; [done..|]. split_and!; [done|done|]. destruct r as [e|[]].
  - transitivity (meta_of c1 (Store_Id store)); [|by rewrite Hmeta, decide_True].
    unfold meta_of. rewrite Hh. by destruct Hres as [-> _].
  - unfold meta_of at 1. rewrite Hh, Hres, lookup_insert_eq. done.
Qed.

(** A registration is admitted. *)
Definition admitted c (store : Store) : Prop :=
  Store_Id store ≠ 0 ∧ (∃ w, ParseVersion (V:=V) (Store_Version store) = inr w ∧ IsCompatible (o_clusterVersion (ci_opt c)) w = true) ∧
  ∀ id m, meta_of c id = Some m → State m ≠ Tombstone → id ≠ Store_Id store → Address m ≠ Address store.

Lemma GetStores_elem c store : store ∈ ci_GetStores range c ↔ ∃ id, ci_stores c !! id = Some store.
Proof.
  unfold ci_GetStores, stores_GetStores. rewrite (range_perm _), list_elem_of_fmap. split.
  - intros ([id st] & -> & Hin%elem_of_map_to_list). by exists id.
  - intros (id & Hid). exists (id, store). split; [done|]. by apply elem_of_map_to_list.
Qed.

Lemma duplicated_address_spec c v (store : Store) : cluster_ok c v → duplicated_address range store c = false ↔
  ∀ id m, meta_of c id = Some m → State m ≠ Tombstone → id ≠ Store_Id store → Address m ≠ Address store.
Proof.
  intros Hok. unfold duplicated_address. rewrite <-not_true_iff_false, existsb_exists.
  setoid_rewrite <-list_elem_of_In. setoid_rewrite GetStores_elem. split.
  - intros Hno id m Hm Ht Hne Ha. apply Hno. unfold meta_of in Hm. destruct (ci_stores c !! id) as [st|] eqn:Hst; [|done].
    destruct (store_message _ _ _ _ Hok Hst) as (m' & Hm' & Hid & _ & Hd). cbn in Hm. assert (m' = m) as -> by congruence.
    exists st. split; [by exists id|]. unfold IsTombstone, store_GetState, store_GetID, store_GetAddress. rewrite Hd, Hid.
    rewrite !andb_true_iff, !negb_true_iff, bool_decide_eq_false, bool_decide_eq_true, Z.eqb_neq. done.
  - intros Hall (st & (id & Hst) & Hb). destruct (store_message _ _ _ _ Hok Hst) as (m & _ & Hid & Hm & Hd).
    unfold IsTombstone, store_GetState, store_GetID, store_GetAddress in Hb. rewrite Hd, Hid in Hb.
    rewrite !andb_true_iff, !negb_true_iff, bool_decide_eq_false, bool_decide_eq_true, Z.eqb_neq in Hb.
    destruct Hb as [[? ?] ?]. by apply (Hall id m).
Qed.

Lemma put_check_post c v (store : Store) : cluster_ok c v →
  mpost (put_check range store) c (λ c' r, c' = c ∧ match r with inl _ => ¬ admitted c store | inr _ => admitted c store end).
Proof.
  intros Hok. unfold put_check, admitted. destruct (Z.eqb_spec (Store_Id store) 0) as [E|E]; [by split; [|intros [? _]]|].
  destruct (ParseVersion (Store_Version store)) as [[msg|msg]|w];
    [by split; [|intros (_ & (? & ? & _) & _)]|by split; [|intros (_ & (? & ? & _) & _)]|].
  apply mpost_bind, mpost_get. destruct (IsCompatible _ w) eqn:Hw; cbn.
  2: { split; [done|]. intros (_ & (w' & [= <-] & ?) & _). congruence. }
  destruct (duplicated_address range store c) eqn:Hd.
  - split; [done|]. intros (_ & _ & Hall). rewrite <-(duplicated_address_spec c v) in Hall by done. congruence.
  - split; [done|]. split_and!; [done|by exists w|]. by apply (duplicated_address_spec c v).
Qed.

(** The outcome of a registration: a refused one changes nothing; one that fails
    later has changed the message of a store that was cached. *)
Definition registered c (store : Store) c' (r : result unit) : Prop :=
  let id := Store_Id store in
  let m' := put_message store (meta_of c id) in
  (∀ id', id' ≠ id → meta_of c' id' = meta_of c id') ∧
  match r with
  | inl _ => ¬ admitted c store ∧ c' = c ∨ admitted c store ∧ meta_of c' id = const m' <$> meta_of c id
  | inr _ => admitted c store ∧ meta_of c' id = Some m'
  end.

Lemma putStore_post cmd c v (store : Store) : cluster_ok c v → puts cmd (Store_Id store) →
  mpost (putStore range store) c (λ c' r, cmd_ok cmd c v c' ∧ registered c store c' r).
Proof.
  intros Hok Hputs. unfold putStore. apply mpost_bind. eapply mpost_mono; [by apply (put_check_post c v)|].
  intros c1 [e|[]] [-> Hadm].
  { split; [by apply cmd_ok_refl|]. split; [done|by left]. }
  eapply mpost_mono; [by apply (put_apply_post cmd c v)|]. intros c' r (Hcmd & Hne & Hm).
  split; [done|]. split; [done|]. destruct r as [e|[]]; [by right|by split].
Qed.

(** ** The other commands *)

Lemma UpdateStoreLabels_post c v id labels : cluster_ok c v →
  mpost (UpdateStoreLabels range id labels) c (λ c' r, cmd_ok (CmdLabels id labels) c v c' ∧
    match meta_of c id with
    | None => c' = c ∧ ∃ msg, r = inl (Error msg)
    | Some m => registered c (mkStore id (Address m) (State m) labels (Store_Version m)) c' r
    end).
Proof.
  intros Hok. unfold UpdateStoreLabels. apply mpost_bind, mpost_get. pose proof (GetStore_cases c v id Hok) as Hc.
  destruct (ci_GetStore c id) as [store|]; [|by rewrite Hc; split; [apply cmd_ok_refl|split; [|eexists]]].
  destruct Hc as (Hst & m & Hm & Hid & Hd). rewrite Hm, Hd, Hid. by apply putStore_post.
Qed.

Lemma if_storage_frame (f : M (Storage S D) unit) c :
  mpost (if_storage f) c (λ c' r, same_core c c' ∧ ci_hotSpotCache c' = ci_hotSpotCache c ∧ ci_opt c' = ci_opt c).
Proof. unfold mpost, if_storage. destruct (ci_storage c); [|done]. by destruct (f _). Qed.

Lemma same_core_cmd cmd c v c' : cluster_ok c v → same_core c c' → ci_hotSpotCache c' = ci_hotSpotCache c →
  ci_opt c' = ci_opt c → cmd_ok cmd c v c' ∧ ∀ id, meta_of c' id = meta_of c id.
Proof.
  intros Hok Hcore Hhot Ho. pose proof Hcore as [Eh Es Er _ _].
  assert (∀ id, meta_of c' id = meta_of c id) as Hm by (intros id; unfold meta_of; by rewrite Eh, Es).
  split; [|done]. split_and!; [|done|done|].
  - eapply same_core_ok; [done..|]. rewrite Hhot. apply Hok.
  - intros id. rewrite Hm. by eapply store_step_refl.
Qed.

Lemma SetStoreWeight_post c v id lw rw : cluster_ok c v →
  mpost (SetStoreWeight id lw rw) c (λ c' r, cmd_ok (CmdWeight id lw rw) c v c' ∧ (∀ id', meta_of c' id' = meta_of c id') ∧
    match r with
    | inl _ => ci_stores c' = ci_stores c
    | inr _ => ∃ store, ci_stores c !! id = Some store ∧ ∃ store', ci_stores c' = <[id := store']> (ci_stores c) ∧
        leaderWeight store' = lw ∧ regionWeight store' = rw ∧ st_meta store' = st_meta store
    end).
Proof.
  intros Hok. unfold SetStoreWeight. apply mpost_bind, mpost_get. pose proof (GetStore_cases c v id Hok) as Hc.
  destruct (ci_GetStore c id) as [store|]; [|by split; [apply cmd_ok_refl|]].
  destruct Hc as (Hst & m & Hm & Hid & Hd). apply mpost_bind. eapply mpost_mono; [apply if_storage_frame|].
  intros c1 r1 (Hcore & Hhot & Ho). destruct (same_core_cmd (CmdWeight id lw rw) c v c1) as [Hcmd Hmeta]; [done..|].
  destruct r1 as [e|[]]; [by split_and!; [..|apply Hcore]|]. cbn.
  assert (ci_stores c1 !! id = Some store) as Hst1 by (by rewrite (sc_stores _ _ Hcore)).
  eapply mpost_mono; [apply (put_same c1 v id store); [apply Hcmd|done|done]|].
  intros c2 r2 (Hok2 & Hr2 & Ho2 & Hm2 & _ & Hres). destruct Hcmd as (Hok1 & Hr1 & Ho1 & Hall). split; [|split].
  - split_and!; [done|by rewrite Hr2|by rewrite Ho2|]. intros id'. rewrite Hm2. by apply Hall.
  - intros id'. by rewrite Hm2.
  - rewrite (sc_stores _ _ Hcore) in Hres. destruct r2 as [e|[]]; [apply Hres|]. exists store. split; [done|].
    by eexists.
Qed.

(** *** checkStores *)

(** The record of a store, read earlier, that has the message of the cached one. *)
Definition known c id store : Prop := loc_of c id = Some (st_meta store).

Lemma known_meta c v id store : cluster_ok c v → known c id store →
  ∃ m, meta_of c id = Some m ∧ Store_Id m = id ∧ deref (ci_heap c) (st_meta store) = m.
Proof.
  unfold known, loc_of. intros Hok (store' & Hst & E)%fmap_Some. rewrite E.
  destruct (store_message _ _ _ _ Hok Hst) as (m & Hm & Hid & Hm' & Hd). by exists m.
Qed.

(** An offline store without a region. *)
Definition empty_offline c id : Prop :=
  ∃ m, meta_of c id = Some m ∧ State m = Offline ∧ GetStoreRegionCount (ci_regions c) id = 0%nat.

Lemma bury_check c c' v id : cmd_ok (CmdBury id false) c v c' → GetStoreRegionCount (ci_regions c) id = 0%nat →
  cmd_ok CmdCheckStores c v c'.
Proof.
  intros (Hok & Hr & Ho & Hall) Hc. split_and!; [done..|]. intros id'. specialize (Hall id'). unfold store_step in *.
  destruct (meta_of c id') as [m|], (meta_of c' id') as [m'|]; [|by destruct Hall|by destruct Hall|done].
  destruct Hall as (Hid & [E|(-> & E & [?|[_ ?]])] & Hst); [by split_and!; [|left|]|by split_and!; [|right|]|done].
Qed.

Lemma check_trans c0 c c' v : cmd_ok CmdCheckStores c0 v c → cmd_ok CmdCheckStores c v c' → cmd_ok CmdCheckStores c0 v c'.
Proof.
  intros (_ & Hr & Ho & Hall) (Hok' & Hr' & Ho' & Hall'). split_and!; [done|congruence|congruence|].
  intros id'. specialize (Hall id'). specialize (Hall' id'). unfold store_step in *.
  destruct (meta_of c0 id') as [m|], (meta_of c id') as [m1|], (meta_of c' id') as [m2|];
    [|by destruct Hall'|by destruct Hall|by destruct Hall|by destruct Hall|by destruct Hall|by destruct Hall'|done].
  destruct Hall as (Hid1 & Hs1 & [[]|Hw1]), Hall' as (Hid2 & Hs2 & [[]|Hw2]). cbn [may_change] in *. rewrite Hr in Hs2.
  split_and!; [done| |right; rewrite Hw2, Hw1; done].
  destruct Hs1 as [E1|(E1 & E1' & Hc1)], Hs2 as [E2|(E2 & E2' & Hc2)];
    [left; congruence|right; split_and!; congruence|right; split_and!; congruence|congruence].
Qed.

Lemma handled_stable c v c' id : cmd_ok CmdCheckStores c v c' → is_Some (meta_of c id) → ¬ empty_offline c id → ¬ empty_offline c' id.
Proof.
  intros (_ & Hr & _ & Hall) [m Hm] Hno (m' & Hm' & Hs & Hc). apply Hno. exists m. specialize (Hall id).
  rewrite Hm, Hm' in Hall. rewrite Hr in Hc. destruct Hall as (_ & [E|(? & E & _)] & _); [|congruence]. split_and!; [done|congruence|done].
Qed.

Lemma check_store_post c v id store : cluster_ok c v → known c id store →
  mpost (check_store store) c (λ c' r, cmd_ok CmdCheckStores c v c' ∧ same_locs c c' ∧
    match r with inl e => save_failed e | inr _ => ¬ empty_offline c' id end).
Proof.
  intros Hok Hk. pose proof (cmd_ok_refl CmdCheckStores c v Hok) as Hrefl. unfold check_store. apply mpost_bind, mpost_get.
  destruct (known_meta c v id store Hok Hk) as (m & Hm & Hid & Hd).
  unfold IsTombstone, IsUp, store_GetState, store_GetID. rewrite Hd, Hid.
  destruct (State m) eqn:Hs; cbn.
  1,3: change (cmd_ok CmdCheckStores c v c ∧ same_locs c c ∧ ¬ empty_offline c id); split_and!; [done|done|];
    intros (m' & Hm' & ? & _); congruence.
  match goal with |- context [(?a =? 0)%nat] => destruct (Nat.eqb_spec a 0) as [Hc|Hc] end.
  2: { split_and!; [done|done|]. by intros (m' & _ & _ & ?). }
  pose proof (BuryStore_post c v id false Hok) as Hb. rewrite Hm, Hs in Hb. cbn in Hb.
  apply mpost_bind. unfold mpost at 1, mcatch. unfold mpost in Hb. destruct (BuryStore id false c) as [c' r]. cbn in Hb |- *.
  destruct Hb as (Hcmd & Hloc & Hm' & Hr). pose proof (bury_check c c' v id Hcmd Hc) as Hcheck.
  assert (¬ empty_offline c' id) as Hno by (intros (m1 & Hm1 & ? & _); rewrite Hm' in Hm1; by simplify_eq).
  destruct r as [[msg|msg]|[]]; by split_and!.
Qed.

Lemma check_stores_post c v stores : cluster_ok c v → (∀ store, store ∈ stores → ∃ id, known c id store) →
  mpost (check_stores stores) c (λ c' r, cmd_ok CmdCheckStores c v c' ∧ same_locs c c' ∧
    match r with inl e => save_failed e | inr _ => ∀ id store, store ∈ stores → known c id store → ¬ empty_offline c' id end).
Proof.
  revert c. induction stores as [|store stores IH]; intros c Hok Hk.
  { split; [by apply cmd_ok_refl|]. split; [done|]. by intros id store Hin%elem_of_nil. }
  cbn [check_stores]. apply mpost_bind. destruct (Hk store) as [id0 Hk0]; [by left|].
  eapply mpost_mono; [by apply (check_store_post c v id0)|]. intros c1 [e|[]] (Hcmd1 & Hloc1 & Hr1); [done|].
  assert (∀ id st, known c1 id st ↔ known c id st) as Hkn by (intros id st; unfold known; by rewrite Hloc1).
  eapply mpost_mono; [apply (IH c1); [apply Hcmd1|]|].
  { intros st Hin. destruct (Hk st) as [id Hid]; [by right|]. exists id. by apply Hkn. }
  intros c2 r (Hcmd2 & Hloc2 & Hr2). split_and!; [by eapply check_trans|intros id; by rewrite Hloc2|].
  destruct r as [e|[]]; [done|]. intros id st Hin Hid. apply elem_of_cons in Hin as [->|Hin].
  - assert (id = id0) as ->.
    { destruct (known_meta c v id store Hok Hid) as (m & _ & <- & Hd). by destruct (known_meta c v id0 store Hok Hk0) as (m' & _ & <- & <-); subst. }
    eapply handled_stable; [exact Hcmd2| |done]. destruct (known_meta c1 v id0 store) as (m & Hm & _);
      [apply Hcmd1|by apply Hkn|by exists m].
  - apply (Hr2 id st Hin). by apply Hkn.
Qed.

Lemma checkStores_post c v : cluster_ok c v →
  mpost (checkStores range) c (λ c' r, cmd_ok CmdCheckStores c v c' ∧
    match r with inl e => save_failed e | inr _ => ∀ id, ¬ empty_offline c' id end).
Proof.
  intros Hok. unfold checkStores. apply mpost_bind, mpost_get. eapply mpost_mono; [apply (check_stores_post c v); [done|]|].
  { intros store (id & Hst)%GetStores_elem. exists id. unfold known, loc_of. by rewrite Hst. }
  intros c' r (Hcmd & Hloc & Hr). split; [done|]. destruct r as [e|[]]; [done|]. intros id Hemp.
  pose proof Hemp as (m & Hm & _). unfold meta_of in Hm. destruct (ci_stores c' !! id) as [st'|] eqn:Hst'; [|done].
  specialize (Hloc id). unfold loc_of in Hloc. rewrite Hst' in Hloc. destruct (ci_stores c !! id) as [st|] eqn:Hst; [|done].
  apply (Hr id st); [|unfold known, loc_of; by rewrite Hst|done]. apply GetStores_elem. by exists id.
Qed.

(** *** RemoveTombStoneRecords *)

(** The cluster after some tombstones were removed. *)
Definition pruned c v c' : Prop :=
  cluster_ok c' v ∧ ci_regions c' = ci_regions c ∧ ci_opt c' = ci_opt c ∧ ci_heap c' = ci_heap c ∧
  ∀ id, ci_stores c' !! id = ci_stores c !! id ∨
    ci_stores c' !! id = None ∧ ∃ m, meta_of c id = Some m ∧ State m = Tombstone.

Lemma pruned_cmd c v c' : cluster_ok c v → pruned c v c' → cmd_ok CmdRemoveTombstones c v c'.
Proof.
  intros Hok (Hok' & Hr & Ho & Hh & Hst). split_and!; [done..|]. intros id. pose proof (store_step_refl CmdRemoveTombstones c v id Hok) as Hrefl.
  unfold meta_of at 2. rewrite Hh. destruct (Hst id) as [->|[-> (m' & Hm' & Ht)]]; [done|]. by rewrite Hm'.
Qed.

Definition delete_failed (e : go_error) : Prop := ∃ m (s : Storage S D), (DeleteStore Store_Id m s).2 = inl e.

(** The cluster without a store. *)
Definition without_store id c : clusterInfo :=
  set_storesStats (RemoveRollingStoreStats (ci_storesStats c) id) (set_stores (ci_heap c) (delete id (ci_stores c)) c).

Lemma without_store_ok c v id : cluster_ok c v → cluster_ok (without_store id c) v.
Proof.
  intros [Hr Hs Hroll Hh Hst]. split; [done| | |done|done]; cbn.
  - intros id' st' [_ Hst']%lookup_delete_Some. by apply Hs.
  - intros id'. rewrite !lookup_delete_is_Some. intros [? ?]. split; [done|]. by apply Hroll.
Qed.

Lemma deleteStoreLocked_eq c store m : ci_heap c !! st_meta store = Some m →
  deleteStoreLocked store c =
    match ci_storage c with
    | None => (without_store (Store_Id m) c, inr ())
    | Some s =>
        match DeleteStore Store_Id m s with
        | (s', inl e) => (set_storage s' c, inl e)
        | (s', inr _) => (without_store (Store_Id m) (set_storage s' c), inr ())
        end
    end.
Proof.
  intros Hm. unfold deleteStoreLocked. rewrite !M_bind_eq. cbn [get]. rewrite M_bind_eq. unfold deref, if_storage. rewrite Hm.
  cbn [from_option]. destruct (ci_storage c) as [s|] eqn:Hst.
  - destruct (DeleteStore Store_Id m s) as [s' [e|[]]] eqn:E; cbn; rewrite E; [done|].
    rewrite M_bind_eq. cbn. rewrite M_bind_eq. cbn. unfold store_GetID, deref. by rewrite Hm.
  - rewrite M_bind_eq. cbn. rewrite M_bind_eq. cbn. unfold store_GetID, deref. by rewrite Hm.
Qed.

Lemma remove_tombstone_post c v store m : cluster_ok c v → ci_heap c !! st_meta store = Some m →
  (∀ m', meta_of c (Store_Id m) = Some m' → m' = m) →
  mpost (remove_tombstone store) c (λ c' r, pruned c v c' ∧
    match r with inl e => delete_failed e | inr _ => State m = Tombstone → ci_stores c' !! Store_Id m = None end).
Proof.
  intros Hok Hm Huniq. unfold remove_tombstone. apply mpost_bind, mpost_get.
  assert (pruned c v c) as Hrefl by (split_and!; try done; by left).
  unfold IsTombstone, store_GetState, deref. rewrite Hm. cbn. case_bool_decide as Ht; [|by split; [|intros ?]].
  assert (∀ s', pruned c v (set_storage s' c)) as Hsame
    by (intros s'; split_and!; try done; [destruct Hok; by split|by left]).
  assert (∀ c1, cluster_ok c1 v → ci_regions c1 = ci_regions c → ci_opt c1 = ci_opt c → ci_heap c1 = ci_heap c →
    ci_stores c1 = ci_stores c → pruned c v (without_store (Store_Id m) c1)) as Hdel.
  { intros c1 Hok1 Hr Ho Hh Hs. split_and!; [by apply without_store_ok|done..|]. intros id. cbn. rewrite Hs.
    destruct (decide (Store_Id m = id)) as [<-|Hne]; [|left; by apply lookup_delete_ne].
    destruct (ci_stores c !! Store_Id m) as [st|] eqn:Hst; [right|left; by rewrite lookup_delete_eq].
    split; [apply lookup_delete_eq|]. destruct (store_message _ _ _ _ Hok Hst) as (m' & _ & _ & Hm' & _).
    exists m'. split; [done|]. by rewrite (Huniq m' Hm'). }
  unfold mpost. rewrite (deleteStoreLocked_eq c store m Hm). destruct (ci_storage c) as [s|] eqn:Hstor.
  - destruct (DeleteStore Store_Id m s) as [s' [e|[]]] eqn:E; cbn.
    + split; [apply Hsame|]. exists m, s. by rewrite E.
    + split; [apply Hdel; try done; apply (Hsame s')|]. intros _. apply lookup_delete_eq.
  - cbn. split; [by apply Hdel|]. intros _. apply lookup_delete_eq.
Qed.

Lemma pruned_trans c0 c c' v : pruned c0 v c → pruned c v c' → pruned c0 v c'.
Proof.
  intros (_ & Hr & Ho & Hh & Hs) (Hok' & Hr' & Ho' & Hh' & Hs'). split_and!; [done|congruence..|]. intros id.
  destruct (Hs' id) as [->|[-> (m & Hm & Ht)]]; [apply Hs|]. right. split; [done|]. exists m. split; [|done].
  unfold meta_of in *. rewrite Hh in Hm. destruct (Hs id) as [<-|[E _]]; [done|]. by rewrite E in Hm.
Qed.

Lemma remove_tombstones_post c v stores : cluster_ok c v →
  (∀ store, store ∈ stores → ∃ m, ci_heap c !! st_meta store = Some m ∧ ∀ m', meta_of c (Store_Id m) = Some m' → m' = m) →
  mpost (remove_tombstones stores) c (λ c' r, pruned c v c' ∧
    match r with
    | inl e => delete_failed e
    | inr _ => ∀ store m, store ∈ stores → ci_heap c !! st_meta store = Some m → State m = Tombstone → ci_stores c' !! Store_Id m = None
    end).
Proof.
  revert c. induction stores as [|store stores IH]; intros c Hok Hk.
  { split; [split_and!; try done; by left|]. by intros store m Hin%elem_of_nil. }
  cbn [remove_tombstones]. apply mpost_bind. destruct (Hk store) as (m & Hm & Hu); [by left|].
  eapply mpost_mono; [by apply (remove_tombstone_post c v store m)|]. intros c1 [e|[]] (Hp1 & Hr1); [done|].
  pose proof Hp1 as (Hok1 & _ & _ & Hh1 & Hs1). eapply mpost_mono; [apply (IH c1 Hok1)|].
  { intros st Hin. destruct (Hk st) as (m1 & Hm1 & Hu1); [by right|]. exists m1. rewrite Hh1. split; [done|].
    intros m'. unfold meta_of. rewrite Hh1. destruct (Hs1 (Store_Id m1)) as [->|[-> _]]; [apply Hu1|done]. }
  intros c2 r (Hp2 & Hr2). split; [by eapply pruned_trans|]. destruct r as [e|[]]; [done|].
  intros st m1 Hin Hm1 Ht. apply elem_of_cons in Hin as [->|Hin]; [|apply (Hr2 st); [done|by rewrite Hh1|done]].
  assert (m1 = m) as -> by congruence. destruct Hp2 as (_ & _ & _ & _ & Hs2).
  destruct (Hs2 (Store_Id m)) as [->|[? _]]; [by apply Hr1|done].
Qed.

Lemma RemoveTombStoneRecords_post c v : cluster_ok c v →
  mpost (RemoveTombStoneRecords range) c (λ c' r, cmd_ok CmdRemoveTombstones c v c' ∧
    match r with inl e => delete_failed e | inr _ => ∀ id m, meta_of c' id = Some m → State m ≠ Tombstone end).
Proof.
  intros Hok. unfold RemoveTombStoneRecords. apply mpost_bind, mpost_get.
  eapply mpost_mono; [apply (remove_tombstones_post c v); [done|]|].
  { intros store (id & Hst)%GetStores_elem. destruct (store_message _ _ _ _ Hok Hst) as (m & Hm & Hid & Hm' & _).
    exists m. split; [done|]. intros m'. rewrite Hid, Hm'. by intros [= ->]. }
  intros c' r (Hp & Hr). split; [by apply pruned_cmd|]. destruct r as [e|[]]; [done|]. intros id m Hm Ht.
  destruct Hp as (_ & _ & _ & Hh & Hs). unfold meta_of in Hm. rewrite Hh in Hm.
  destruct (ci_stores c' !! id) as [st|] eqn:Hst; [|done]. destruct (Hs id) as [E|[? _]]; [|congruence]. rewrite Hst in E.
  destruct (store_message c v id st Hok (eq_sym E)) as (m1 & Hm1 & Hid & _). cbn in Hm. assert (m1 = m) as -> by congruence.
  assert (ci_stores c' !! Store_Id m = None) as Hnone; [|congruence]. apply (Hr st); [|done|done].
  apply GetStores_elem. by exists id.
Qed.

(** *** The theorems *)

(** What a command does to the store it names, and its errors. *)
Definition outcome (cmd : store_cmd) c c' (r : result unit) : Prop :=
  match cmd with
  | CmdPut store => registered c store c' r
  | CmdLabels id labels =>
      match meta_of c id with
      | None => c' = c ∧ ∃ msg, r = inl (Error msg)
      | Some m => registered c (mkStore id (Address m) (State m) labels (Store_Version m)) c' r
      end
  | CmdRemove id =>
      match meta_of c id with
      | None => r = inl storeNotFound
      | Some m =>
          match State m with
          | Up => meta_of c' id = Some (with_state Offline m) ∧ match r with inl e => save_failed e | inr _ => True end
          | Offline => c' = c ∧ r = inr ()
          | Tombstone => c' = c ∧ ∃ msg, r = inl (Error msg)
          end
      end
  | CmdBury id force =>
      match meta_of c id with
      | None => r = inl storeNotFound
      | Some m =>
          match State m with
          | Tombstone => c' = c ∧ r = inr ()
          | s => if bool_decide (s = Up) && negb force then c' = c ∧ ∃ msg, r = inl (Error msg)
                 else meta_of c' id = Some (with_state Tombstone m) ∧ match r with inl e => save_failed e | inr _ => True end
          end
      end
  | CmdState id state =>
      match meta_of c id with
      | None => c' = c ∧ r = inl storeNotFound
      | Some m => meta_of c' id = Some (with_state state m) ∧ match r with inl e => save_failed e | inr _ => True end
      end
  | CmdWeight id lw rw =>
      match r with
      | inl _ => ci_stores c' = ci_stores c
      | inr _ => ∃ store, ci_stores c !! id = Some store ∧ ∃ store', ci_stores c' = <[id := store']> (ci_stores c) ∧
          leaderWeight store' = lw ∧ regionWeight store' = rw ∧ st_meta store' = st_meta store
      end
  | CmdCheckStores => match r with inl e => save_failed e | inr _ => ∀ id, ¬ empty_offline c' id end
  | CmdRemoveTombstones =>
      match r with inl e => delete_failed e | inr _ => ∀ id m, meta_of c' id = Some m → State m ≠ Tombstone end
  end.

Lemma run_cmd_post cmd c v : cluster_ok c v → mpost (run_cmd cmd) c (λ c' r, cmd_ok cmd c v c' ∧ outcome cmd c c' r).
Proof.
  intros Hok. destruct cmd; cbn [run_cmd outcome].
  - by apply putStore_post.
  - by apply UpdateStoreLabels_post.
  - eapply mpost_mono; [by apply RemoveStore_post|]. by intros c' r (? & _ & ?).
  - eapply mpost_mono; [by apply BuryStore_post|]. by intros c' r (? & _ & ?).
  - by apply SetStoreState_post.
  - eapply mpost_mono; [by apply SetStoreWeight_post|]. by intros c' r (? & _ & ?).
  - by apply checkStores_post.
  - by apply RemoveTombStoneRecords_post.
Qed.

(** C18: every store command keeps the cluster consistent, leaves the regions and
    the options alone, and changes the stores as documented: a store goes from up to
    offline only by its removal, to tombstone only by its burial, which an up store
    needs force for, or by the background check when it is offline and holds no
    region, and to a state chosen at will, whatever its state is, only by the
    command that sets it; only a registration changes anything else of a store or
    adds one, and only tombstones are removed.  The background check leaves no empty
    offline store, and the removal of the tombstones leaves none. *)
Theorem store_commands (cmd : store_cmd) (c : clusterInfo) (v : gmap Z RegionInfo) :
  cluster_ok c v →
  let '(c', r) := run_cmd cmd c in
  cmd_ok cmd c v c' ∧ outcome cmd c c' r.
Proof. intros Hok. pose proof (run_cmd_post cmd c v Hok) as Hp. unfold mpost in Hp. by destruct (run_cmd cmd c). Qed.

(** The stores that are not tombstones have different addresses. *)
Definition addresses_unique c : Prop :=
  ∀ id id' m m', meta_of c id = Some m → meta_of c id' = Some m' →
    State m ≠ Tombstone → State m' ≠ Tombstone → Address m = Address m' → id = id'.

(** A store after a command: with the address it had, or registered. *)
Definition kept c id (m' : Store) : Prop :=
  ∃ m, meta_of c id = Some m ∧ Address m' = Address m ∧ (State m = Tombstone → State m' = Tombstone).
Definition put_anew c c' id (m' : Store) : Prop :=
  ∃ store : Store, admitted c store ∧ id = Store_Id store ∧ Address m' = Address store ∧
    ∀ id', id' ≠ id → meta_of c' id' = meta_of c id'.

(** The command sets the state of a store, and not to tombstone. *)
Definition sets_alive (cmd : store_cmd) : bool := match cmd with CmdState _ s => negb (bool_decide (s = Tombstone)) | _ => false end.

Lemma cmd_address cmd c v c' r id m' : sets_alive cmd = false → cluster_ok c v → cmd_ok cmd c v c' → outcome cmd c c' r →
  meta_of c' id = Some m' → kept c id m' ∨ put_anew c c' id m'.
Proof.
  intros Hsets Hok (_ & _ & _ & Hall) Hout Hm'. specialize (Hall id). rewrite Hm' in Hall.
  assert (∀ store : Store, id = Store_Id store → registered c store c' r → kept c id m' ∨ put_anew c c' id m') as Hreg.
  { intros store -> [Hne Hr]. destruct r as [e|[]].
    - destruct Hr as [[_ ->]|[Ha Hr]]; [left; by exists m'|]. right. exists store. split_and!; try done.
      rewrite Hm' in Hr. symmetry in Hr. apply fmap_Some in Hr as (m & Hm & ->). by rewrite Hm.
    - destruct Hr as [Ha Hr]. right. exists store. split_and!; try done. rewrite Hm' in Hr. injection Hr as ->.
      by destruct (meta_of c (Store_Id store)). }
  assert (puts cmd id → ∃ store : Store, id = Store_Id store ∧ (registered c store c' r ∨ c' = c)) as Hputs.
  { destruct cmd; cbn; try done; [intros ->; eauto|]. intros ->. cbn in Hout.
    destruct (meta_of c id0) as [m|]; [by eexists; split; [|by left]|]. destruct Hout as [-> _].
    exists (mkStore id0 [] Up [] []). split; [done|by right]. }
  assert (¬ puts cmd id → kept c id m') as Hno.
  { intros Hn. destruct (meta_of c id) as [m|] eqn:Hm; [|by destruct Hall]. destruct Hall as (_ & Hst & [?|Hw]); [done|].
    exists m. split_and!; [done|by rewrite Hw|]. intros Ht. destruct Hst as [->|Hst]; [done|]. destruct cmd; cbn in Hst; try done.
    - destruct Hst as (_ & E & _). congruence.
    - by destruct Hst as (_ & ? & _).
    - destruct Hst as [_ ->]. cbn in Hsets. by rewrite negb_false_iff, bool_decide_eq_true in Hsets.
    - by destruct Hst as (_ & ? & _). }
  assert (puts cmd id ∨ ¬ puts cmd id) as [Hp|Hn] by (destruct cmd; cbn; first [apply Z.eq_decidable|right; tauto]).
  - destruct (Hputs Hp) as (store & Hid & [Hr| ->]); [by eapply Hreg|]. left. by exists m'.
  - left. by apply Hno.
Qed.

(** Whatever commands run one after the other, with failures, no two stores that
    are not tombstones ever have the same address, unless the state of a store is
    set: that may revive a tombstone whose address was given away. *)
Theorem addresses_stay_unique (cmds : list store_cmd) (c : clusterInfo) (v : gmap Z RegionInfo) :
  cluster_ok c v → addresses_unique c → Forall (λ cmd, sets_alive cmd = false) cmds →
  addresses_unique (foldl (λ c cmd, (run_cmd cmd c).1) c cmds).
Proof.
  revert c. induction cmds as [|cmd cmds IH]; intros c Hok Hu Hno; [done|]. cbn [foldl]. apply Forall_cons in Hno as [Hno1 Hno].
  pose proof (run_cmd_post cmd c v Hok) as Hp. unfold mpost in Hp. destruct (run_cmd cmd c) as [c' r]. cbn [fst snd] in *.
  destruct Hp as [Hcmd Hout]. apply IH; [apply Hcmd| |done]. intros id id' m m' Hm Hm' Ht Ht' Ha.
  destruct (decide (id = id')) as [|Hne]; [done|]. exfalso.
  assert (∀ id id' m m', meta_of c' id = Some m → meta_of c' id' = Some m' → State m ≠ Tombstone → State m' ≠ Tombstone →
    Address m = Address m' → id ≠ id' →
    ¬ put_anew c c' id m) as Hput.
  { clear -Hok. intros id id' m m' Hm Hm' Ht Ht' Ha Hne (store & (_ & _ & Had) & Hid & Ea & Hsame).
    rewrite Hsame in Hm' by done. apply (Had id' m' Hm' Ht'); congruence. }
  destruct (cmd_address cmd c v c' r id m) as [(m0 & Hm0 & Ea & Es)|Hs]; [done..| |by eapply (Hput id id' m m')].
  destruct (cmd_address cmd c v c' r id' m') as [(m1 & Hm1 & Ea' & Es')|Hs]; [done..| |by eapply (Hput id' id m' m)].
  apply Hne, (Hu id id' m0 m1); try done; [by intros ?%Es|by intros ?%Es'|congruence].
Qed.

(** A command that returns an error may have done its work.  The options of a
    clone write to the message that the cached record shares, before the record is
    saved: an up store that is removed is offline afterwards, an offline one that is
    buried a tombstone, and an admitted registration has changed the address, the
    version and the labels of the cached store, whatever the command returns. *)
Theorem failed_commands_take_effect (c : clusterInfo) (v : gmap Z RegionInfo) (m : Store) :
  cluster_ok c v → meta_of c (Store_Id m) = Some m →
  (State m = Up → meta_of (RemoveStore (Store_Id m) c).1 (Store_Id m) = Some (with_state Offline m)) ∧
  (State m = Offline → meta_of (BuryStore (Store_Id m) false c).1 (Store_Id m) = Some (with_state Tombstone m)) ∧
  (∀ store : Store, Store_Id store = Store_Id m → admitted c store →
     meta_of (putStore range store c).1 (Store_Id m) = Some (put_message store (Some m))).
Proof.
  intros Hok Hm. split_and!.
  - intros Hs. destruct (RemoveStore_post c v (Store_Id m) Hok) as (_ & _ & Hr). rewrite Hm, Hs in Hr. apply Hr.
  - intros Hs. destruct (BuryStore_post c v (Store_Id m) false Hok) as (_ & _ & Hr). rewrite Hm, Hs in Hr. apply Hr.
  - intros store Hid Ha. destruct (putStore_post (CmdPut store) c v store Hok) as (_ & _ & Hr); [done|].
    rewrite Hid, Hm in Hr. destruct ((putStore range store c).2); [|apply Hr]. destruct Hr as [[? _]|[_ Hr]]; done.
Qed.
End stores.

(** ** Splits *)

Section splits.
Context {S D T V A : Type} `{!BTreeOps Region T} `{!IDAllocator A, !IDAllocatorLaws A}.
Implicit Types (c : clusterInfo S D T V) (s : splitState A) (ids : list Z) (id now : Z).

(** Fresh ids were given out. *)
Definition given s s' ids : Prop :=
  NoDup ids ∧ (∀ id, id ∈ ids → id ∉ issued (sp_ids s)) ∧ issued (sp_ids s') = list_to_set ids ∪ issued (sp_ids s).

Lemma given_nil s s' : issued (sp_ids s') = issued (sp_ids s) → given s s' [].
Proof. intros E. split_and!; [constructor|by intros id ?%elem_of_nil|]. rewrite E. set_solver. Qed.

Lemma given_app s s1 s2 ids1 ids2 : given s s1 ids1 → given s1 s2 ids2 → given s s2 (ids1 ++ ids2).
Proof.
  intros (Hn1 & Hf1 & Hi1) (Hn2 & Hf2 & Hi2). rewrite Hi1 in *. split_and!.
  - apply NoDup_app. split_and!; [done| |done]. intros id H1 H2. specialize (Hf2 id H2). set_solver.
  - intros id [Hin|Hin]%elem_of_app; [by apply Hf1|]. specialize (Hf2 id Hin). set_solver.
  - rewrite Hi2, list_to_set_app_L. set_solver.
Qed.

Lemma sp_Alloc_post s : mpost sp_Alloc s (λ s' r, sp_cache s' = sp_cache s ∧
  match r with inl e => ∃ a, (alloc_id a).2 = inl e | inr id => given s s' [id] end).
Proof.
  unfold mpost, sp_Alloc. destruct (alloc_id (sp_ids s)) as [a [e|id]] eqn:E; cbn; (split; [done|]).
  - exists (sp_ids s). by rewrite E.
  - apply alloc_id_fresh in E as [Hf Hi]. split_and!; [apply NoDup_singleton| |].
    + by intros id' ->%list_elem_of_singleton.
    + cbn. rewrite Hi. set_solver.
Qed.

Lemma alloc_ids_post n s : mpost (alloc_ids n) s (λ s' r, sp_cache s' = sp_cache s ∧
  match r with inl e => ∃ a, (alloc_id a).2 = inl e | inr ids => length ids = n ∧ given s s' ids end).
Proof.
  revert s. induction n as [|n IH]; intros s; cbn [alloc_ids].
  { split; [done|]. split; [done|]. by apply given_nil. }
  apply mpost_bind. eapply mpost_mono; [apply sp_Alloc_post|]. intros s1 [e|id] [Hc1 Hr1]; [done|].
  apply mpost_bind. eapply mpost_mono; [apply IH|]. intros s2 [e|ids] [Hc2 Hr2]; (split; [by transitivity (sp_cache s1)|]); [done|].
  destruct Hr2 as [Hlen Hg]. split; [cbn; congruence|]. by apply (given_app s s1 s2 [id] ids).
Qed.

(** The region will not be merged until the end of the interval. *)
Definition protected c now s id : Prop :=
  ∀ now', now' ≤ now + SplitMergeInterval (o_v (ci_opt c)) → Ttl.id_Exists (sp_cache s) now' id = true.

Lemma RecordRegionSplit_protects c now id s : protected c now (RecordRegionSplit c now id s).1 id ∧
  sp_ids (RecordRegionSplit c now id s).1 = sp_ids s ∧
  ∀ id', protected c now s id' → protected c now (RecordRegionSplit c now id s).1 id'.
Proof.
  assert (∀ id', id' = id ∨ protected c now s id' → protected c now (RecordRegionSplit c now id s).1 id') as Hp.
  { intros id' Hid now' Hn. unfold Ttl.id_Exists, Ttl.Get. cbn. destruct (decide (id = id')) as [<-|Hne].
    - rewrite lookup_insert_eq. cbn. destruct (Z.ltb_spec (now + SplitMergeInterval (o_v (ci_opt c))) now'); [lia|done].
    - rewrite lookup_insert_ne by done. destruct Hid as [->|Hid]; [done|]. exact (Hid now' Hn). }
  split_and!; [by apply Hp; left|done|]. intros id' Hid. by apply Hp; right.
Qed.

(** All ids of a response. *)
Definition split_ids (l : list SplitID) : list Z := mjoin ((λ x, NewRegionId x :: NewPeerIds x) <$> l).

Lemma ask_splits_post c now (region : Region) n s :
  mpost (ask_splits c now (Some region) n) s (λ s' r,
    (∀ id, protected c now s id → protected c now s' id) ∧
    match r with
    | inl e => ∃ a e', (alloc_id a).2 = inl e'
    | inr l => length l = n ∧ given s s' (split_ids l) ∧
        ∀ x, x ∈ l → length (NewPeerIds x) = length (Peers region) ∧ protected c now s' (NewRegionId x)
    end).
Proof.
  revert s. induction n as [|n IH]; intros s; cbn [ask_splits].
  { split; [done|]. split_and!; [done|by apply given_nil|by intros x ?%elem_of_nil]. }
  apply mpost_bind. unfold mpost at 1, mcatch. pose proof (sp_Alloc_post s) as Ha. unfold mpost in Ha.
  destruct (sp_Alloc s) as [s1 [[msg|msg]|id]]; cbn [fst snd] in *; destruct Ha as [Hc1 Hr1].
  1,2: destruct Hr1 as [a Hr1]; split; [intros id Hp; unfold protected; cbn; by rewrite Hc1|by exists a; eexists].
  apply mpost_bind. eapply mpost_mono; [apply alloc_ids_post|]. intros s2 [e|ids] [Hc2 Hr2].
  { destruct Hr2 as [a Hr2]. split; [intros id' Hp; unfold protected; by rewrite Hc2, Hc1|by exists a; eexists]. }
  destruct Hr2 as [Hlen Hg2]. apply mpost_bind.
  destruct (RecordRegionSplit_protects c now id s2) as (Hp3 & Hi3 & Hk3). unfold mpost at 1.
  set (s3 := (RecordRegionSplit c now id s2).1) in *. cbn [RecordRegionSplit snd].
  apply mpost_bind. eapply mpost_mono; [apply IH|]. intros s4 r [Hk4 Hr4].
  assert (∀ id', protected c now s id' → protected c now s4 id') as Hk.
  { intros id' Hp. apply Hk4, Hk3. unfold protected. by rewrite Hc2, Hc1. }
  destruct r as [e|l]; [by split|]. destruct Hr4 as (Hl & Hg4 & Hall). cbn. split; [done|]. split_and!; [cbn; congruence| |].
  - change (split_ids (mkSplitID id ids :: l)) with (([id] ++ ids) ++ split_ids l).
    eapply given_app; [by eapply given_app|]. destruct Hg4 as (? & Hf & Hi). rewrite Hi3 in Hf, Hi. by split_and!.
  - intros x [->|Hin]%elem_of_cons; [|by apply Hall]. cbn. split; [done|]. by apply Hk4.
Qed.

(** A request to split a region whose epoch is out of date changes nothing.
    Otherwise the response has, for each new region, a region id and as many peer
    ids as the region has peers, all different and never given out before, and
    the region and the new ones cannot be merged during the split-merge interval. *)
Theorem ask_split_correct (c : clusterInfo S D T V) (now : Z) (region : Region) (n : nat) (s : splitState A) :
  let '(s', r) := handleAskBatchSplit c now (Some region) n s in
  match validRequestRegion region c with
  | inl e => s' = s ∧ r = inl e
  | inr _ => protected c now s' (Region_Id region) ∧
      match r with
      | inl e => ∃ a e', (alloc_id a).2 = inl e'
      | inr l => length l = n ∧ NoDup (split_ids l) ∧ (∀ id, id ∈ split_ids l → id ∉ issued (sp_ids s)) ∧
          ∀ x, x ∈ l → length (NewPeerIds x) = length (Peers region) ∧ protected c now s' (NewRegionId x)
      end
  end.
Proof.
  unfold handleAskBatchSplit. rewrite M_bind_eq. unfold lift_result. cbn [default from_option id].
  destruct (validRequestRegion region c) as [e|[]]; [done|]. rewrite M_bind_eq.
  destruct (RecordRegionSplit_protects c now (Region_Id region) s) as (Hp & Hi & Hk).
  set (s1 := (RecordRegionSplit c now (Region_Id region) s).1) in *.
  replace (RecordRegionSplit c now (Region_Id region) s) with (s1, @inr go_error unit ()) by done.
  pose proof (ask_splits_post c now region n s1) as Hpost. unfold mpost in Hpost.
  destruct (ask_splits c now (Some region) n s1) as [s' r]. cbn [fst snd] in Hpost.
  destruct Hpost as [Hkeep Hr]. split; [by apply Hkeep|]. destruct r as [e|l]; [done|].
  destruct Hr as (Hl & (Hn & Hf & _) & Hall). rewrite Hi in Hf. by split_and!.
Qed.
End splits.

(** ** Reports of splits *)

(** Regions that follow each other; all but the last have an end. *)
Fixpoint adjacent (x : Region) (regions : list Region) : Prop :=
  match regions with
  | [] => True
  | y :: regions => EndKey x = StartKey y ∧ EndKey x ≠ [] ∧ adjacent y regions
  end.

(** The report of a split into non-empty ranges is accepted. *)
Lemma check_splits_accepts x regions : adjacent x regions → valid_range x → Forall valid_range regions →
  check_splits x regions = inr ().
Proof.
  revert x. induction regions as [|y regions IH]; intros x Ha Hx Hall; [done|]. destruct Ha as (E & Hne & Ha).
  apply Forall_cons in Hall as [Hy Hall]. cbn. rewrite bool_decide_true by done. cbn.
  assert (EndKey y = [] ∨ (StartKey x < EndKey y)%key) as Hxy.
  { destruct Hy as [Hy|Hy]; [by left|right]. destruct Hx as [Hx|Hx]; [done|]. rewrite E in Hx. key_order. }
  destruct Hxy as [Hxy|Hxy]; rewrite (bool_decide_true _ Hxy); cbn; rewrite ?andb_false_r; by apply IH.
Qed.

(** The check compares the start of a region with the end of the next one, never
    the two ends of a region: a report with an inverted range is accepted. *)
Lemma check_splits_inverted :
  ∃ regions, checkSplitRegions regions = inr () ∧ ¬ Forall valid_range regions.
Proof.
  exists [mkRegion 1 [Byte.x61] [Byte.x7a] None []; mkRegion 2 [Byte.x7a] [Byte.x6d] None []]. split; [by vm_compute|].
  rewrite !Forall_cons. intros (_ & [H|H] & _); [done|]. by vm_compute in H.
Qed.

(** ** Instances *)

Module RaftDemo.
Import SortedList Latin MemLevel ConfigDemo ClusterDemo.

(** An encoding that fails for offline stores. *)
#[local] Instance demo_store_proto : Proto Store := {
  Marshal m := if bool_decide (State m = Offline) then inl (Error "marshal") else inr [byte_of_Z (Store_Id m)];
  Unmarshal b := inl (Error "unmarshal");
}.
#[local] Instance demo_float : FloatText := { FormatFloat x := str "1"; ParseFloat b := inr (f64_of_Z 1) }.

Definition run := run_cmd (S:=memoryKV (list memoryKVItem)) (D:=db) (T:=list Region) (V:=Z) id.
Lemma id_perm (l : list StoreInfo) : id l ≡ₚ l.
Proof. done. Qed.

Definition m1 : Store := mkStore 1 (str "a") Up [] [].

Lemma c_store_meta : ∃ c, c_store = Some c ∧ cluster_ok c ∅ ∧ (∀ i, meta_of c i = if decide (i = 1) then Some m1 else None).
Proof.
  destruct c_store_ok as (c & Hc & Hok). exists c. split; [done|]. split; [done|]. unfold c_store, ClusterDemo.c0 in Hc. cbn in Hc.
  injection Hc as <-. intros i. unfold meta_of. cbn. case_decide as E; [by subst|]. by rewrite lookup_insert_ne.
Qed.

Lemma store_commands_witness :
  ∃ c, c_store = Some c ∧ let '(c', r) := run (CmdBury 1 true) c in
    cmd_ok (CmdBury 1 true) c ∅ c' ∧ meta_of c' 1 = Some (with_state Tombstone m1).
Proof.
  destruct c_store_meta as (c & Hc & Hok & Hm). exists c. split; [exact Hc|].
  pose proof (store_commands id id_perm (CmdBury 1 true) c ∅ Hok) as H. unfold run.
  destruct (run_cmd id (CmdBury 1 true) c) as [c' r]. destruct H as [H1 H2]. split; [exact H1|].
  cbn [outcome] in H2. rewrite Hm in H2. cbn in H2. exact (proj1 H2).
Defined.

(** A store with a used address is refused, then registered with another one. *)
Definition demo_cmds : list store_cmd :=
  [CmdPut (mkStore 2 (str "a") Up [] []); CmdPut (mkStore 2 (str "b") Up [] []); CmdRemove 1; CmdCheckStores].

Lemma addresses_stay_unique_witness :
  ∃ c, c_store = Some c ∧ addresses_unique c ∧
    addresses_unique (foldl (λ c cmd, (run_cmd id cmd c).1) c demo_cmds).
Proof.
  destruct c_store_meta as (c & Hc & Hok & Hm). exists c.
  assert (addresses_unique c) as Hu.
  { intros i j m m' Hi Hj _ _ _. rewrite Hm in Hi, Hj. repeat case_decide; congruence. }
  split; [exact Hc|]. split; [exact Hu|].
  apply (addresses_stay_unique id id_perm demo_cmds c ∅ Hok Hu). repeat constructor.
Defined.

(** Removing the store fails, and the store is offline. *)
Lemma failed_commands_take_effect_witness :
  ∃ c, c_store = Some c ∧ meta_of c 1 = Some m1 ∧ meta_of (RemoveStore 1 c).1 1 = Some (with_state Offline m1) ∧
    (match c_store with Some c => (RemoveStore 1 c).2 | None => inr () end) = inl (Error "marshal").
Proof.
  destruct c_store_meta as (c & Hc & Hok & Hm). exists c. split; [exact Hc|].
  assert (meta_of c 1 = Some m1) as Hm1 by (rewrite Hm; reflexivity). split; [exact Hm1|].
  split; [|vm_compute; reflexivity].
  apply (failed_commands_take_effect id id_perm c ∅ m1 Hok Hm1). reflexivity.
Defined.

(** Two registrations that run at the same time both pass the check of the address:
    the cluster ends with two stores of one address. *)
Definition both (a b : Store) : M cluster unit :=
  put_check id a;; put_check id b;; put_apply a;; put_apply b.
Definition A : Store := mkStore 2 (str "x") Up [] [].
Definition B : Store := mkStore 3 (str "x") Up [] [].

Lemma concurrent_registrations :
  ∃ c, c_store = Some c ∧ (both A B c).2 = inr () ∧ ¬ addresses_unique (both A B c).1.
Proof.
  destruct c_store_meta as (c & Hc & _). exists c. split; [done|].
  assert ((match c_store with Some c => match (both A B c).2 with inr _ => true | _ => false end | None => false end) = true) as Hr
    by by vm_compute.
  assert ((match c_store with Some c => (meta_of (both A B c).1 2, meta_of (both A B c).1 3) | None => (None, None) end)
    = (Some A, Some B)) as Hm by by vm_compute.
  rewrite Hc in Hr, Hm. injection Hm as HA HB. split.
  - destruct ((both A B c).2) as [e|[]]; [done|done].
  - intros Hu. discriminate (Hu 2 3 A B HA HB ltac:(done) ltac:(done) eq_refl).
Qed.

(** An allocator that counts. *)
#[local] Instance counter : IDAllocator nat := { alloc_id n := (Datatypes.S n, inr (Z.of_nat n)) }.
#[local, refine] Instance counter_laws : IDAllocatorLaws nat :=
  { issued n := list_to_set (Z.of_nat <$> seq 0 n) }.
Proof.
  - intros a a' i [= <- <-]. rewrite seq_S, fmap_app, list_to_set_app_L. split.
    + rewrite elem_of_list_to_set, list_elem_of_fmap. intros (y & Hy & Hin%elem_of_seq). lia.
    + cbn. set_solver.
  - done.
Defined.

(** A region that splits into three. *)
Lemma ask_split_correct_witness :
  ∃ c l, ClusterDemo.c2 = Some c ∧
    (handleAskBatchSplit c 0 (Some (meta left_)) 2 (mkSplitState 0%nat (Ttl.NewIDTTL 1 1))).2 = inr l ∧
    NoDup (split_ids l) ∧ length (split_ids l) = 4%nat.
Proof.
  destruct c2_ok as (c & Hc & Hok). exists c.
  assert ((match ClusterDemo.c2 with Some c => bool_decide (validRequestRegion (meta left_) c = inr ()) &&
      match (handleAskBatchSplit c 0 (Some (meta left_)) 2 (mkSplitState 0%nat (Ttl.NewIDTTL 1 1))).2 with
      inr l => (length (split_ids l) =? 4)%nat | inl _ => false end | None => false end) = true) as Hr
    by (vm_compute; reflexivity).
  rewrite Hc in Hr. apply andb_true_iff in Hr as [Hv Hr]. apply bool_decide_eq_true_1 in Hv.
  pose proof (ask_split_correct c 0 (meta left_) 2 (mkSplitState 0%nat (Ttl.NewIDTTL 1 1))) as H.
  destruct (handleAskBatchSplit c 0 (Some (meta left_)) 2 (mkSplitState 0%nat (Ttl.NewIDTTL 1 1))) as [s' [e|l]] eqn:E;
    [discriminate Hr|].
  rewrite Hv in H. destruct H as (_ & _ & Hn & _). exists l. split; [exact Hc|]. split; [reflexivity|]. split; [exact Hn|].
  apply Nat.eqb_eq. exact Hr.
Defined.
End RaftDemo.
