(* ===== verification/Schedule.v ===== *)
(** * Choosing stores (server/schedule: filters.go, replica.go, selector.go)

    The filters that say which stores may be the source or the target of a
    schedule, the score of a store's location relative to the stores of a region,
    and the selectors. *)

From S2P Require Import Prelude GoBytes BTree Strconv Strings Float KV Metapb Region RegionTree RegionMap RegionsInfo Cache Storage Store Statistics Config Operator.
From Corelib Require Import SpecFloat.

(** ** Options *)

(** The part of [schedule.Options] the filters and checkers read: the schedule
    section, and the answers of the replication section, which a namespace can
    override, and of the label properties. *)
Record Options := mkOptions {
  opt_cfg : ScheduleConfig;
  opt_MaxReplicas : Z;
  opt_LocationLabels : list bytes;
  opt_rejects : list StoreLabel → bool;
}.

(** ** math.Pow *)

(** The loop of [math.Pow] on an integer exponent: [a1] and [ae] are the fraction
    and the exponent of the result, [x1] and [xe] those of the current power. *)
Fixpoint pow_loop (fuel : nat) (i : Z) (a1 : f64) (ae : Z) (x1 : f64) (xe : Z) : f64 * Z :=
  match fuel with
  | O => (a1, ae)
  | S fuel =>
      if i =? 0 then (a1, ae)
      else
        let '(a1, ae) := if Z.odd i then (f64_mul a1 x1, ae + xe) else (a1, ae) in
        let x1 := f64_mul x1 x1 in
        let xe := 2 * xe in
        let '(x1, xe) := if f64_ltb x1 (f64_div (f64_of_Z 1) (f64_of_Z 2)) then (f64_add x1 x1, xe - 1) else (x1, xe) in
        pow_loop fuel (Z.shiftr i 1) a1 ae x1 xe
  end.

(** [math.Pow(x, float64(n))]; an exponent of 64 bits has at most 64 rounds. *)
Definition f64_Pow (x : f64) (n : Z) : f64 :=
  if (n =? 0) || f64_eqb x (f64_of_Z 1) then f64_of_Z 1
  else if n =? 1 then x
  else
    let '(x1, xe) := SFfrexp 53 1024 x in
    let '(a1, ae) := pow_loop 64 n (f64_of_Z 1) 0 x1 xe in
    SFldexp 53 1024 a1 ae.

(** ** Location scores (replica.go) *)

Section scores.
Context `{!Unicode}.
Variable h : heap.
Implicit Types (s other : StoreInfo) (stores : list StoreInfo) (labels : list bytes).

Definition replicaBaseScore : Z := 100.

Definition DistinctScore labels stores other : f64 :=
  foldl (λ score s,
    if store_GetID h s =? store_GetID h other then score
    else
      let index := CompareLocation h s other labels in
      if index =? -1 then score
      else f64_add score (f64_Pow (f64_of_Z replicaBaseScore) (Z.of_nat (length labels) - index - 1)))
    (f64_of_Z 0) stores.

Definition compareStoreScore (opt : Options) storeA (scoreA : f64) storeB (scoreB : f64) : Z :=
  let score s := RegionScore s (HighSpaceRatio (opt_cfg opt)) (LowSpaceRatio (opt_cfg opt)) 0 in
  if f64_ltb scoreB scoreA then 1
  else if f64_ltb scoreA scoreB then -1
  else if f64_ltb (score storeA) (score storeB) then 1
  else if f64_ltb (score storeB) (score storeA) then -1
  else 0.
End scores.

(** ** Filters (filters.go) *)

Definition BlacklistSource : Z := 1.
Definition BlacklistTarget : Z := 2.

(** One constructor per implementation of the interface. *)
Inductive Filter :=
  | excludedFilter (sources targets : gset Z)
  | blockFilter
  | overloadFilter
  | stateFilter
  | healthFilter
  | disconnectFilter
  | pendingPeerCountFilter
  | snapshotCountFilter
  | cacheFilter (cache : Ttl.IDTTL)
  | storageThresholdFilter
  | distinctScoreFilter (labels : list bytes) (stores : list StoreInfo) (safeScore : f64)
  | namespaceFilter (ns : bytes)
  | rejectLeaderFilter
  | StoreStateFilter (TransferLeader MoveRegion : bool)
  | BlacklistStoreFilter (blacklist : gset Z) (flag : Z).

Section filters.
Context `{!Unicode} `{!Classifier}.
(** The messages of the stores, the clock, and what the overload functions return. *)
Variable h : heap.
Variable now : Z.
Variable call : nat → bool.
Implicit Types (opt : Options) (store : StoreInfo).

(** [make] with the capacity [len(stores)-1] panics without stores. *)
Definition NewDistinctScoreFilter (labels : list bytes) (stores : list StoreInfo) (source : StoreInfo) : result Filter :=
  if (length stores =? 0)%nat then inl (Panic "makeslice: cap out of range")
  else
    let newStores := filter (λ s, store_GetID h s ≠ store_GetID h source) stores in
    inr (distinctScoreFilter labels newStores (DistinctScore h labels newStores source)).

Definition isBusy store : bool := IsBusy (store_stats store).

Definition health_filter opt store : bool :=
  isBusy store || (MaxStoreDownTime (opt_cfg opt) <? DownTime now store).

Definition pending_filter opt store : bool :=
  if MaxPendingPeerCount (opt_cfg opt) =? 0 then false
  else int64 (MaxPendingPeerCount (opt_cfg opt)) <? pendingPeerCount store.

Definition snapshot_filter opt store : bool :=
  let max := MaxSnapshotCount (opt_cfg opt) in
  let stats := store_stats store in
  (max <? SendingSnapCount stats) || (max <? ReceivingSnapCount stats) || (max <? ApplyingSnapCount stats).

Definition filterMoveRegion opt store : bool :=
  isBusy store || IsOverloaded call store || snapshot_filter opt store.

Definition state_FilterSource (transferLeader moveRegion : bool) opt store : bool :=
  if IsTombstone h store || (MaxStoreDownTime (opt_cfg opt) <? DownTime now store) then true
  else if transferLeader && (IsDisconnected now store || blocked store) then true
  else moveRegion && filterMoveRegion opt store.

Definition state_FilterTarget (transferLeader moveRegion : bool) opt store : bool :=
  if IsTombstone h store || IsOffline h store || (MaxStoreDownTime (opt_cfg opt) <? DownTime now store) then true
  else if transferLeader &&
    (IsDisconnected now store || blocked store || isBusy store || opt_rejects opt (store_GetLabels h store)) then true
  else if moveRegion then
    if (0 <? MaxPendingPeerCount (opt_cfg opt)) && (int64 (MaxPendingPeerCount (opt_cfg opt)) <? pendingPeerCount store)
    then true
    else filterMoveRegion opt store
  else false.

Definition filter_source (f : Filter) opt store : bool :=
  let id := store_GetID h store in
  match f with
  | excludedFilter sources _ => bool_decide (id ∈ sources)
  | blockFilter => blocked store
  | overloadFilter => IsOverloaded call store
  | stateFilter => IsTombstone h store
  | healthFilter => health_filter opt store
  | disconnectFilter => IsDisconnected now store
  | pendingPeerCountFilter => pending_filter opt store
  | snapshotCountFilter => snapshot_filter opt store
  | cacheFilter cache => Ttl.id_Exists cache now id
  | storageThresholdFilter => false
  | distinctScoreFilter _ _ _ => false
  | namespaceFilter ns => negb (bool_decide (GetStoreNamespace h store = ns))
  | rejectLeaderFilter => false
  | StoreStateFilter transferLeader moveRegion => state_FilterSource transferLeader moveRegion opt store
  | BlacklistStoreFilter blacklist flag =>
      if negb (Z.land flag BlacklistSource =? BlacklistSource) then false else bool_decide (id ∈ blacklist)
  end.

Definition filter_target (f : Filter) opt store : bool :=
  let id := store_GetID h store in
  match f with
  | excludedFilter _ targets => bool_decide (id ∈ targets)
  | blockFilter => blocked store
  | overloadFilter => IsOverloaded call store
  | stateFilter => negb (IsUp h store)
  | healthFilter => health_filter opt store
  | disconnectFilter => IsDisconnected now store
  | pendingPeerCountFilter => pending_filter opt store
  | snapshotCountFilter => snapshot_filter opt store
  | cacheFilter _ => false
  | storageThresholdFilter => IsLowSpace (LowSpaceRatio (opt_cfg opt)) store
  | distinctScoreFilter labels stores safeScore => f64_ltb (DistinctScore h labels stores store) safeScore
  | namespaceFilter ns => negb (bool_decide (GetStoreNamespace h store = ns))
  | rejectLeaderFilter => opt_rejects opt (store_GetLabels h store)
  | StoreStateFilter transferLeader moveRegion => state_FilterTarget transferLeader moveRegion opt store
  | BlacklistStoreFilter blacklist flag =>
      if negb (Z.land flag BlacklistTarget =? BlacklistTarget) then false else bool_decide (id ∈ blacklist)
  end.

Definition FilterSource opt store (filters : list Filter) : bool := existsb (λ f, filter_source f opt store) filters.
Definition FilterTarget opt store (filters : list Filter) : bool := existsb (λ f, filter_target f opt store) filters.

(** ** Selectors (selector.go) *)

(** The loops keep the best store so far. *)
Definition best_by (better : StoreInfo → StoreInfo → bool) (skip : StoreInfo → bool) (stores : list StoreInfo) : option StoreInfo :=
  foldl (λ best store,
    if skip store then best
    else match best with
         | None => Some store
         | Some b => if better store b then Some store else best
         end) None stores.

(** BalanceSelector *)
Definition balance_score (kind : Z) opt store : f64 :=
  ResourceScore store kind (HighSpaceRatio (opt_cfg opt)) (LowSpaceRatio (opt_cfg opt)) 0.

Definition Balance_SelectSource (kind : Z) (own : list Filter) opt (stores : list StoreInfo) (filters : list Filter) : option StoreInfo :=
  best_by (λ store best, f64_ltb (balance_score kind opt best) (balance_score kind opt store))
    (λ store, FilterSource opt store (filters ++ own)) stores.

Definition Balance_SelectTarget (kind : Z) (own : list Filter) opt (stores : list StoreInfo) (filters : list Filter) : option StoreInfo :=
  best_by (λ store best, f64_ltb (balance_score kind opt store) (balance_score kind opt best))
    (λ store, FilterTarget opt store (filters ++ own)) stores.

(** ReplicaSelector: the stores of the region, the location labels and its own
    filters, which are applied to the best store only. *)
Record ReplicaSelector := mkReplicaSelector {
  regionStores : list StoreInfo;
  rs_labels : list bytes;
  rs_filters : list Filter;
}.

Definition Replica_SelectSource (s : ReplicaSelector) opt (stores : list StoreInfo) : option StoreInfo :=
  let score store := DistinctScore h (rs_labels s) (regionStores s) store in
  best ← best_by (λ store best, compareStoreScore opt store (score store) best (score best) <? 0) (λ _, false) stores;
  if FilterSource opt best (rs_filters s) then None else Some best.

Definition Replica_SelectTarget (s : ReplicaSelector) opt (stores : list StoreInfo) (filters : list Filter) : option StoreInfo :=
  let score store := DistinctScore h (rs_labels s) (regionStores s) store in
  best ← best_by (λ store best, 0 <? compareStoreScore opt store (score store) best (score best))
    (λ store, FilterTarget opt store filters) stores;
  if FilterTarget opt best (rs_filters s) then None else Some best.

(** RandomSelector: [rand] is [rand.Int()]. *)
Definition randStore (rand : Z) (stores : list StoreInfo) : option StoreInfo :=
  stores !! Z.to_nat (rand mod Z.of_nat (length stores)).

Definition Random_SelectSource (rand : Z) (own : list Filter) opt (stores : list StoreInfo) : option StoreInfo :=
  randStore rand (filter (λ store, FilterSource opt store own = false) stores).

Definition Random_SelectTarget (rand : Z) (own : list Filter) opt (stores : list StoreInfo) (filters : list Filter) : option StoreInfo :=
  randStore rand (filter (λ store, FilterTarget opt store (filters ++ own) = false) stores).
End filters.

(** ** The cluster *)

(** What a scheduler or a checker reads of the cluster, the whole or the part of
    it in a namespace; the stores of a region's peers are always looked up in the
    whole ([v_peer_stores]). *)
Record View := mkView {
  v_heap : heap;
  v_stores : StoresInfo;
  v_peer_stores : StoresInfo;
  v_opt : Options;
  v_GetRegion : Z → option RegionInfo;
  v_ScanRegions : bytes → Z → option (list (option RegionInfo));
  v_ScanRangeWithEndKey : bytes → bytes → list RegionInfo;
  v_GetAdjacentRegions : RegionInfo → option RegionInfo * option RegionInfo;
  v_IsRegionHot : Z → bool;
}.

Definition v_GetStore (v : View) (id : Z) : option StoreInfo := v_stores v !! id.
Definition v_GetPeerStore (v : View) (id : Z) : option StoreInfo := v_peer_stores v !! id.
Definition v_GetRegionStores (v : View) (region : RegionInfo) : list StoreInfo :=
  omap (λ p, v_GetPeerStore v (Peer_StoreId p)) (GetPeers region).

(** The interface [schedule.Cluster]: what the operators ask, and the view. *)
Class ScheduleCluster (C : Type) `{!Cluster C} := { view : C → View }.

(** What the checkers and schedulers rely on.  The stores are kept under their
    ids, and those of the view are stores of the whole cluster. *)
Class ValidView (v : View) : Prop := {
  view_peer_id : ∀ id s, v_peer_stores v !! id = Some s → store_GetID (v_heap v) s = id;
  view_peer_stores : v_stores v ⊆ v_peer_stores v;
}.

(** The operators see the labels of the stores and the same label properties, and
    allocating a peer for a store changes nothing of the view and fails only with
    an error. *)
Class ScheduleClusterLaws (C : Type) `{!Cluster C, !ScheduleCluster C} := {
  view_labels : ∀ (c : C) id, GetStoreLabels c id = store_GetLabels (v_heap (view c)) <$> v_GetStore (view c) id;
  view_rejects : ∀ (c : C) labels, CheckLabelProperty c RejectLeader labels = opt_rejects (v_opt (view c)) labels;
  AllocPeer_view : ∀ (c : C) storeID, view (AllocPeer storeID c).1 = view c;
  AllocPeer_peer : ∀ (c : C) storeID p, (AllocPeer storeID c).2 = inr p →
    Peer_StoreId p = storeID ∧ Peer_IsLearner p = false;
  AllocPeer_error : ∀ (c : C) storeID msg, (AllocPeer storeID c).2 ≠ inl (Panic msg);
}.

Lemma view_store_id (v : View) `{!ValidView v} id s : v_stores v !! id = Some s → store_GetID (v_heap v) s = id.
Proof. intros Hs. eapply view_peer_id, lookup_weaken; [exact Hs|apply view_peer_stores]. Qed.
