(* ===== verification/ScheduleProps.v ===== *)
(** * Scores and selectors

    The floating point score of a location is an exact integer, and comparing
    scores compares, label by label, how many stores are elsewhere.  A selector
    returns an admissible store that no admissible store beats. *)

From S2P Require Import Prelude GoBytes BTree Strconv Strings Float FloatInt KV Metapb Region RegionTree RegionMap RegionsInfo Cache Storage Store Statistics Config Operator Schedule.
From Corelib Require Import SpecFloat.

(** ** The order of the floats *)

Definition f64_rank (x : f64) : Z * Z * Z :=
  match x with
  | S754_nan => (3, 0, 0)
  | S754_infinity true => (-2, 0, 0)
  | S754_finite true m e => (-1, - e, Z.neg m)
  | S754_zero _ => (0, 0, 0)
  | S754_finite false m e => (1, e, Z.pos m)
  | S754_infinity false => (2, 0, 0)
  end.

Definition rank_lt (p q : Z * Z * Z) : Prop :=
  p.1.1 < q.1.1 ∨ p.1.1 = q.1.1 ∧ (p.1.2 < q.1.2 ∨ p.1.2 = q.1.2 ∧ p.2 < q.2).

Lemma ltb_rank x y : x ≠ S754_nan → y ≠ S754_nan → f64_ltb x y = true ↔ rank_lt (f64_rank x) (f64_rank y).
Proof.
  intros Hx Hy. unfold f64_ltb, SFltb, rank_lt.
  destruct x as [[]|[]| |[] m e], y as [[]|[]| |[] m' e']; try done; cbn -[Z.lt]; try (split; [done|lia]); try (split; [lia|done]).
  - destruct (Z.compare_spec e e') as [->|?|?]; cbn -[Z.lt]; [|split; [done|lia]|split; [lia|done]].
    change (Pos.compare_cont Eq m m') with (m ?= m')%positive.
    destruct (Pos.compare_spec m m') as [->|?|?]; cbn -[Z.lt]; split; (done || lia).
  - destruct (Z.compare_spec e e') as [->|?|?]; cbn -[Z.lt]; [|split; [lia|done]|split; [done|lia]].
    change (Pos.compare_cont Eq m m') with (m ?= m')%positive.
    destruct (Pos.compare_spec m m') as [->|?|?]; cbn -[Z.lt]; split; (done || lia).
Qed.

Lemma rank_irrefl p : ¬ rank_lt p p.
Proof. unfold rank_lt. lia. Qed.
Lemma rank_trans p q r : rank_lt p q → rank_lt q r → rank_lt p r.
Proof. unfold rank_lt. lia. Qed.
Lemma rank_total p q : ¬ rank_lt p q → ¬ rank_lt q p → p = q.
Proof. destruct p as [[] ?], q as [[] ?]. unfold rank_lt. cbn. intros. do 2 f_equal; lia. Qed.
#[export] Instance rank_lt_dec p q : Decision (rank_lt p q).
Proof. unfold rank_lt. apply _. Defined.

Lemma of_Z_not_nan z : 0 ≤ z < 2 ^ 53 → f64_of_Z z ≠ S754_nan.
Proof. destruct z as [|p|p]; [done| |lia]. intros [_ Hp]. by rewrite of_Z_canon. Qed.

(** ** Counting by location *)

(** The value of a list of digits, the most significant first. *)
Fixpoint base100 (l : list Z) : Z :=
  match l with [] => 0 | d :: l => d * 100 ^ Z.of_nat (length l) + base100 l end.

Fixpoint lex_lt (a b : list Z) : Prop :=
  match a, b with x :: a, y :: b => x < y ∨ x = y ∧ lex_lt a b | _, _ => False end.

Lemma base100_bound l : Forall (λ d, 0 ≤ d < 100) l → 0 ≤ base100 l < 100 ^ Z.of_nat (length l).
Proof.
  induction 1 as [|d l Hd _ IH]; cbn [base100 length]; [done|]. rewrite Nat2Z.inj_succ, Z.pow_succ_r by lia. nia.
Qed.

Lemma base100_lex a b : length a = length b → Forall (λ d, 0 ≤ d < 100) a → Forall (λ d, 0 ≤ d < 100) b →
  base100 a < base100 b ↔ lex_lt a b.
Proof.
  revert b. induction a as [|x a IH]; intros [|y b]; try done.
  cbn [length lex_lt base100]. intros [= Hlen] [Hx Ha]%Forall_cons [Hy Hb]%Forall_cons. rewrite <-IH by done.
  pose proof (base100_bound a Ha). pose proof (base100_bound b Hb). rewrite Hlen in *. nia.
Qed.

Lemma base100_inj a b : length a = length b → Forall (λ d, 0 ≤ d < 100) a → Forall (λ d, 0 ≤ d < 100) b →
  base100 a = base100 b → a = b.
Proof.
  revert b. induction a as [|x a IH]; intros [|y b]; try done.
  cbn [length base100]. intros [= Hlen] [Hx Ha]%Forall_cons [Hy Hb]%Forall_cons Heq.
  pose proof (base100_bound a Ha). pose proof (base100_bound b Hb). rewrite Hlen in *.
  assert (x = y) as -> by nia. f_equal. apply IH; [done..|]. lia.
Qed.

Lemma base100_zeros (l : list nat) : base100 ((λ _, 0) <$> l) = 0.
Proof. induction l as [|i l IH]; [done|]. cbn [fmap list_fmap base100]. fold (fmap (M := list) (λ _ : nat, 0)). lia. Qed.

Lemma base100_add (f g : nat → Z) j n :
  base100 ((λ i, f i + g i) <$> seq j n) = base100 (f <$> seq j n) + base100 (g <$> seq j n).
Proof.
  revert j. induction n as [|n IH]; intros j; [done|]. cbn [seq fmap list_fmap base100].
  fold (fmap (M := list) (λ i, f i + g i)) (fmap (M := list) f) (fmap (M := list) g).
  rewrite IH, !length_fmap, !length_seq. lia.
Qed.

Lemma base100_unit k j n :
  base100 ((λ i, if Z.of_nat i =? k then 1 else 0) <$> seq j n) =
  if (Z.of_nat j <=? k) && (k <? Z.of_nat (j + n)) then 100 ^ (Z.of_nat (j + n) - 1 - k) else 0.
Proof.
  revert j. induction n as [|n IH]; intros j.
  - cbn. rewrite Nat.add_0_r. destruct (_ <=? _) eqn:?, (_ <? _) eqn:?; cbn; [lia|done..].
  - cbn [seq fmap list_fmap base100]. fold (fmap (M := list) (λ i : nat, if Z.of_nat i =? k then 1 else 0)).
    rewrite IH, length_fmap, length_seq. replace (S j + n)%nat with (j + S n)%nat by lia.
    destruct (Z.eqb_spec (Z.of_nat j) k) as [<-|Hne].
    + rewrite (proj2 (Z.leb_gt (Z.of_nat (S j)) _)), Z.leb_refl, (proj2 (Z.ltb_lt _ _)) by lia. cbn [andb].
      rewrite Z.mul_1_l, Z.add_0_r. f_equal. lia.
    + replace (Z.of_nat (S j) <=? k) with (Z.of_nat j <=? k) by (destruct (Z.leb_spec (Z.of_nat j) k), (Z.leb_spec (Z.of_nat (S j)) k); (done || lia)).
      by rewrite Z.mul_0_l, Z.add_0_l.
Qed.

(** The powers the scores are made of are exact. *)
Lemma Pow_exact k : 0 ≤ k < 7 → f64_Pow (f64_of_Z replicaBaseScore) k = f64_of_Z (100 ^ k).
Proof.
  intros Hk. assert (Hall : Forall (λ k, f64_Pow (f64_of_Z replicaBaseScore) k = f64_of_Z (100 ^ k)) (seqZ 0 7)).
  { refine (bool_decide_unpack _ _). vm_compute. exact I. }
  rewrite list.Forall_forall in Hall. apply Hall. rewrite elem_of_seqZ. lia.
Qed.

Section location.
Context `{!Unicode}.
Variable h : heap.
Variable labels : list bytes.
Implicit Types (s other : StoreInfo) (stores : list StoreInfo).

(** The stores other than [other] whose location differs from it first at label [i]. *)
Definition elsewhere stores other (i : nat) : list StoreInfo :=
  filter (λ s, store_GetID h s ≠ store_GetID h other ∧ CompareLocation h s other labels = Z.of_nat i) stores.

(** Their number, from the most significant label on. *)
Definition location_counts stores other : list Z :=
  (λ i, Z.of_nat (length (elsewhere stores other i))) <$> seq 0 (length labels).

Lemma CompareLocation_range s other : -1 ≤ CompareLocation h s other labels < Z.of_nat (length labels).
Proof.
  unfold CompareLocation. assert (Hloop : ∀ ls i, 0 ≤ i → let r := CompareLocation_loop h s other i ls in
    r = -1 ∨ i ≤ r < i + Z.of_nat (length ls)).
  { induction ls as [|k ls IH]; intros i Hi; cbn [CompareLocation_loop length]; [by left|].
    destruct (_ && _); [right; lia|]. destruct (IH (i + 1)) as [?|?]; [lia|by left|right; lia]. }
  destruct (Hloop labels 0); lia.
Qed.

Lemma counts_small stores other : (length stores < 100)%nat → Forall (λ d, 0 ≤ d < 100) (location_counts stores other).
Proof.
  intros Hlen. apply Forall_fmap, list.Forall_forall. intros i _. cbn.
  pose proof (length_filter (λ s, store_GetID h s ≠ store_GetID h other ∧ CompareLocation h s other labels = Z.of_nat i) stores).
  unfold elsewhere. lia.
Qed.

Lemma length_counts stores other : length (location_counts stores other) = length labels.
Proof. unfold location_counts. by rewrite length_fmap, length_seq. Qed.

(** One more store counts at its label. *)
Lemma counts_snoc stores other s :
  base100 (location_counts (stores ++ [s]) other) = base100 (location_counts stores other) +
    if store_GetID h s =? store_GetID h other then 0
    else let index := CompareLocation h s other labels in
         if index =? -1 then 0 else 100 ^ (Z.of_nat (length labels) - index - 1).
Proof.
  set (k := if store_GetID h s =? store_GetID h other then -1 else CompareLocation h s other labels).
  transitivity (base100 ((λ i, Z.of_nat (length (elsewhere stores other i)) + if Z.of_nat i =? k then 1 else 0) <$> seq 0 (length labels))).
  - f_equal. apply list_fmap_ext. intros _ i _. unfold elsewhere. rewrite filter_app, length_app, filter_cons, filter_nil.
    unfold k. destruct (Z.eqb_spec (store_GetID h s) (store_GetID h other)) as [He|He].
    + rewrite decide_False by tauto. rewrite (proj2 (Z.eqb_neq _ _)) by lia. cbn. lia.
    + destruct (Z.eqb_spec (Z.of_nat i) (CompareLocation h s other labels)) as [Hi|Hi].
      * rewrite decide_True by done. cbn. lia.
      * rewrite decide_False by (intros [_ ?]; congruence). cbn. lia.
  - rewrite base100_add, base100_unit. f_equal. unfold k. pose proof (CompareLocation_range s other) as Hr.
    destruct (_ =? store_GetID h other); [done|]. cbn zeta. cbn [Nat.add].
    destruct (Z.eqb_spec (CompareLocation h s other labels) (-1)) as [->|Hne]; [done|].
    rewrite (proj2 (Z.leb_le _ _)), (proj2 (Z.ltb_lt _ _)) by lia. cbn [andb]. f_equal. lia.
Qed.

Lemma DistinctScore_snoc stores other s : DistinctScore h labels (stores ++ [s]) other =
  let score := DistinctScore h labels stores other in
  if store_GetID h s =? store_GetID h other then score
  else let index := CompareLocation h s other labels in
       if index =? -1 then score
       else f64_add score (f64_Pow (f64_of_Z replicaBaseScore) (Z.of_nat (length labels) - index - 1)).
Proof. unfold DistinctScore. by rewrite foldl_app. Qed.

Hypothesis Hlabels : (length labels ≤ 7)%nat.

Lemma counts_bound stores other : (length stores < 100)%nat → 0 ≤ base100 (location_counts stores other) < 2 ^ 53.
Proof.
  intros Hlen. pose proof (base100_bound _ (counts_small stores other Hlen)) as Hb. rewrite length_counts in Hb.
  assert (100 ^ Z.of_nat (length labels) ≤ 100 ^ 7) by (apply Z.pow_le_mono_r; lia). lia.
Qed.

Lemma DistinctScore_counts stores other : (length stores < 100)%nat →
  DistinctScore h labels stores other = f64_of_Z (base100 (location_counts stores other)).
Proof.
  induction stores as [|s stores IH] using rev_ind; intros Hlen.
  - replace (base100 (location_counts [] other)) with 0; [done|]. unfold location_counts, elsewhere. cbn -[seq].
    symmetry. apply base100_zeros.
  - assert (Hlen' : (length stores < 100)%nat) by (rewrite length_app in Hlen; cbn in Hlen; lia).
    pose proof (counts_bound (stores ++ [s]) other Hlen) as Hb. rewrite DistinctScore_snoc.
    rewrite counts_snoc in *. rewrite (IH Hlen'). cbn zeta in *. pose proof (CompareLocation_range s other) as Hr.
    destruct (_ =? store_GetID h other); [by rewrite Z.add_0_r|].
    destruct (Z.eqb_spec (CompareLocation h s other labels) (-1)) as [_|Hne]; [by rewrite Z.add_0_r|].
    rewrite Pow_exact by lia. pose proof (counts_bound stores other Hlen') as Hb'.
    apply f64_add_int; [lia|apply Z.pow_nonneg; lia|lia].
Qed.

Lemma distinct_not_nan stores other : (length stores < 100)%nat → DistinctScore h labels stores other ≠ S754_nan.
Proof. intros Hlen. rewrite DistinctScore_counts by done. apply of_Z_not_nan. by apply counts_bound. Qed.

Lemma distinct_lt stores a b : (length stores < 100)%nat →
  f64_ltb (DistinctScore h labels stores a) (DistinctScore h labels stores b) = true ↔
  lex_lt (location_counts stores a) (location_counts stores b).
Proof.
  intros Hlen. rewrite !DistinctScore_counts, f64_ltb_int by (done || by apply counts_bound).
  rewrite Z.ltb_lt. apply base100_lex; [by rewrite !length_counts|by apply counts_small..].
Qed.

Lemma distinct_rank_eq stores a b : (length stores < 100)%nat →
  f64_rank (DistinctScore h labels stores a) = f64_rank (DistinctScore h labels stores b) ↔
  location_counts stores a = location_counts stores b.
Proof.
  intros Hlen. split; [|intros Heq; by rewrite !DistinctScore_counts, Heq by done].
  intros Hrank. apply base100_inj; [by rewrite !length_counts|by apply counts_small..|].
  pose proof (counts_bound stores a Hlen). pose proof (counts_bound stores b Hlen).
  destruct (Z.lt_trichotomy (base100 (location_counts stores a)) (base100 (location_counts stores b))) as [Hlt|[?|Hlt]]; [|done|];
    exfalso; apply Z.ltb_lt in Hlt; rewrite <-f64_ltb_int, <-!DistinctScore_counts in Hlt by done;
    apply ltb_rank in Hlt; try (by apply distinct_not_nan); rewrite Hrank in Hlt; by apply rank_irrefl in Hlt.
Qed.
End location.

(** ** The selectors' loop *)

Section best.
Variables (better : StoreInfo → StoreInfo → bool) (skip : StoreInfo → bool).
Implicit Types (stores : list StoreInfo).

Lemma best_by_snoc stores x : best_by better skip (stores ++ [x]) =
  let best := best_by better skip stores in
  if skip x then best
  else match best with None => Some x | Some b => if better x b then Some x else best end.
Proof. unfold best_by. by rewrite foldl_app. Qed.

Lemma best_by_elem stores b : best_by better skip stores = Some b → b ∈ stores ∧ skip b = false.
Proof.
  revert b. induction stores as [|x stores IH] using rev_ind; intros b; [done|]. rewrite best_by_snoc, elem_of_app, list_elem_of_singleton.
  cbn zeta. destruct (skip x) eqn:Es; [intros [? ?]%IH; auto|].
  destruct (best_by better skip stores) as [b'|]; [|intros [= <-]; auto].
  destruct (better x b'); [intros [= <-]; auto|intros [? ?]%IH; auto].
Qed.

Lemma best_by_None stores : best_by better skip stores = None ↔ ∀ s, s ∈ stores → skip s = true.
Proof.
  induction stores as [|x stores IH] using rev_ind; [split; [by intros _ s ?%not_elem_of_nil|done]|].
  rewrite best_by_snoc. cbn zeta. setoid_rewrite elem_of_app. setoid_rewrite list_elem_of_singleton.
  destruct (skip x) eqn:Es.
  - rewrite IH. split; [by intros Hs s [?| ->]; [apply Hs|]|intros Hs s ?; apply Hs; by left].
  - split; [|intros Hs; by rewrite Hs in Es by by right]. destruct (best_by _ _ _); [by destruct (better _ _)|done].
Qed.

(** Nothing that is not skipped is better. *)
Lemma best_by_max stores b :
  best_by better skip stores = Some b →
  (∀ x, x ∈ stores → better x x = false) →
  (∀ x y z, x ∈ stores → y ∈ stores → z ∈ stores → better x y = true → better y z = true → better x z = true) →
  ∀ s, s ∈ stores → skip s = false → better s b = false.
Proof.
  revert b. induction stores as [|x stores IH] using rev_ind; intros b Hb Hirr Htrans; [done|]. revert Hb.
  assert (Hin : ∀ y, y ∈ stores → y ∈ stores ++ [x]) by (intros; apply elem_of_app; by left).
  assert (Hx : x ∈ stores ++ [x]) by (apply elem_of_app; right; by left).
  rewrite best_by_snoc. cbn zeta. intros Hb s [Hs|Hs%list_elem_of_singleton]%elem_of_app Hk.
  - destruct (skip x); [eapply IH; eauto|]. destruct (best_by better skip stores) as [b'|] eqn:Eb.
    2:{ by rewrite (proj1 (best_by_None stores) Eb s Hs) in Hk. }
    destruct (best_by_elem _ _ Eb) as [Hb' _].
    assert (Hmax : better s b' = false) by (eapply IH; eauto).
    destruct (better x b') eqn:Ex; injection Hb as <-; [|done]. destruct (better s x) eqn:Esx; [|done].
    by rewrite <-Hmax, (Htrans s x b') by auto.
  - subst s. rewrite Hk in Hb. destruct (best_by better skip stores) as [b'|]; [|injection Hb as <-; by apply Hirr].
    destruct (better x b') eqn:Ex; injection Hb as <-; [by apply Hirr|done].
Qed.
End best.

(** ** The selectors *)

Section selectors.
Context `{!Unicode} `{!Classifier}.
Variable h : heap.
Variables (now : Z) (call : nat → bool).
Implicit Types (opt : Options) (stores : list StoreInfo).

Definition region_score opt (s : StoreInfo) : f64 :=
  RegionScore s (HighSpaceRatio (opt_cfg opt)) (LowSpaceRatio (opt_cfg opt)) 0.

Lemma ltb_irrefl x : f64_ltb x x = false.
Proof.
  destruct (f64_ltb x x) eqn:Hx; [|done]. destruct (decide (x = S754_nan)) as [->|Hn]; [done|].
  apply ltb_rank in Hx; [|done..]. by apply rank_irrefl in Hx.
Qed.

Lemma compare_rank opt a b sa sb : sa ≠ S754_nan → sb ≠ S754_nan →
  0 < compareStoreScore opt a sa b sb ↔
  rank_lt (f64_rank sb) (f64_rank sa) ∨
  f64_rank sa = f64_rank sb ∧ f64_ltb (region_score opt a) (region_score opt b) = true.
Proof.
  intros Hna Hnb. unfold compareStoreScore. cbn zeta. fold (region_score opt a) (region_score opt b).
  rewrite <-ltb_rank by done. destruct (f64_ltb sb sa) eqn:E1; [split; [by left|lia]|].
  destruct (f64_ltb sa sb) eqn:E2.
  { split; [lia|]. intros [?|[Hr _]]; [done|]. apply ltb_rank in E2; [|done..]. rewrite Hr in E2. by apply rank_irrefl in E2. }
  assert (Hr : f64_rank sa = f64_rank sb) by (apply rank_total; rewrite <-ltb_rank by done; congruence).
  destruct (f64_ltb (region_score opt a) (region_score opt b)); [split; [by right|lia]|].
  destruct (f64_ltb (region_score opt b) (region_score opt a)); (split; [lia|]); intros [?|[_ ?]]; done.
Qed.

(** [a] is a better location than [b]: more stores are elsewhere at the first label
    that tells them apart, or as good a location and a lower region score. *)
Definition better_location labels regionStores opt a b : Prop :=
  let counts := location_counts h labels regionStores in
  lex_lt (counts b) (counts a) ∨ counts a = counts b ∧ f64_ltb (region_score opt a) (region_score opt b) = true.

Section replica.
Variables (labels : list bytes) (regionStores : list StoreInfo) (opt : Options).
Hypothesis Hlabels : (length labels ≤ 7)%nat.
Hypothesis Hregion : (length regionStores < 100)%nat.
Let score s := DistinctScore h labels regionStores s.

Lemma compare_better a b :
  0 < compareStoreScore opt a (score a) b (score b) ↔ better_location labels regionStores opt a b.
Proof.
  unfold score, better_location. cbn zeta. rewrite compare_rank by by apply distinct_not_nan.
  rewrite <-distinct_lt, <-distinct_rank_eq, <-ltb_rank by (done || by apply distinct_not_nan). done.
Qed.

Lemma better_irrefl a : ¬ better_location labels regionStores opt a a.
Proof.
  unfold better_location. cbn zeta. rewrite <-distinct_lt, !ltb_irrefl by done. intros [?|[_ ?]]; done.
Qed.

Lemma better_trans a b c : region_score opt a ≠ S754_nan → region_score opt b ≠ S754_nan → region_score opt c ≠ S754_nan →
  better_location labels regionStores opt a b → better_location labels regionStores opt b c →
  better_location labels regionStores opt a c.
Proof.
  intros Ha Hb Hc. unfold better_location. cbn zeta. rewrite <-!distinct_lt by done. rewrite <-!distinct_rank_eq by done.
  rewrite !ltb_rank by (done || by apply distinct_not_nan).
  intros [H1|[H1 H1']] [H2|[H2 H2']].
  - left. exact (rank_trans _ _ _ H2 H1).
  - left. rewrite <-H2. exact H1.
  - left. rewrite H1. exact H2.
  - right. split; [exact (eq_trans H1 H2)|]. exact (rank_trans _ _ _ H1' H2').
Qed.
End replica.

Lemma ltb_asym x y : f64_ltb x y = true → f64_ltb y x = false.
Proof.
  intros Hxy. destruct (f64_ltb y x) eqn:Hyx; [|done].
  destruct (decide (x = S754_nan)) as [->|Hx]; [done|]. destruct (decide (y = S754_nan)) as [->|Hy]; [by destruct x|].
  apply ltb_rank in Hxy, Hyx; [|done..]. destruct (rank_irrefl _ (rank_trans _ _ _ Hxy Hyx)).
Qed.

Lemma ltb_trans x y z : f64_ltb x y = true → f64_ltb y z = true → f64_ltb x z = true.
Proof.
  intros Hxy Hyz. destruct (decide (x = S754_nan)) as [->|Hx]; [done|]. destruct (decide (y = S754_nan)) as [->|Hy]; [by destruct z|].
  destruct (decide (z = S754_nan)) as [->|Hz]; [by destruct y|]. apply ltb_rank in Hxy, Hyz; [|done..].
  apply ltb_rank; [done..|]. exact (rank_trans _ _ _ Hxy Hyz).
Qed.

Lemma compare_opp opt a b sa sb : compareStoreScore opt a sa b sb = - compareStoreScore opt b sb a sa.
Proof.
  unfold compareStoreScore. cbn zeta. fold (region_score opt a) (region_score opt b).
  destruct (f64_ltb sb sa) eqn:E1; [by rewrite (ltb_asym _ _ E1)|]. destruct (f64_ltb sa sb); [done|].
  destruct (f64_ltb (region_score opt a) (region_score opt b)) eqn:E2; [by rewrite (ltb_asym _ _ E2)|].
  by destruct (f64_ltb (region_score opt b) (region_score opt a)).
Qed.

Section choose.
Variables (labels : list bytes) (regionStores : list StoreInfo) (opt : Options) (stores : list StoreInfo).
Hypothesis Hlabels : (length labels ≤ 7)%nat.
Hypothesis Hregion : (length regionStores < 100)%nat.
Hypothesis Hnan : Forall (λ s, region_score opt s ≠ S754_nan) stores.
Let score s := DistinctScore h labels regionStores s.
Let better := better_location labels regionStores opt.

Lemma best_location skip b :
  best_by (λ store best, 0 <? compareStoreScore opt store (score store) best (score best)) skip stores = Some b →
  ∀ s, s ∈ stores → skip s = false → ¬ better s b.
Proof.
  intros Hb s Hs Hk. unfold better. rewrite <-compare_better by done. fold (score s) (score b).
  rewrite <-Z.ltb_nlt. refine (best_by_max _ _ _ _ Hb _ _ s Hs Hk).
  - intros x _. apply Z.ltb_nlt. intros Hx. apply (compare_better labels regionStores opt Hlabels Hregion) in Hx.
    by apply better_irrefl in Hx.
  - rewrite list.Forall_forall in Hnan. intros x y z Hx Hy Hz. rewrite !Z.ltb_lt. unfold score. rewrite !compare_better by done.
    apply better_trans; auto.
Qed.

Lemma worst_location skip b :
  best_by (λ store best, compareStoreScore opt store (score store) best (score best) <? 0) skip stores = Some b →
  ∀ s, s ∈ stores → skip s = false → ¬ better b s.
Proof.
  assert (Hlt : ∀ x y, (compareStoreScore opt x (score x) y (score y) <? 0) = true ↔ better y x).
  { intros x y. unfold better. rewrite <-compare_better by done. fold (score x) (score y). rewrite Z.ltb_lt, compare_opp. lia. }
  intros Hb s Hs Hk. rewrite <-Hlt. apply not_true_iff_false.
  refine (best_by_max _ _ _ _ Hb _ _ s Hs Hk).
  - intros x _. apply not_true_is_false. rewrite Hlt. by apply better_irrefl.
  - rewrite list.Forall_forall in Hnan. intros x y z Hx Hy Hz. rewrite !Hlt. intros Hyx Hzy. exact (better_trans labels regionStores opt
      Hlabels Hregion _ _ _ (Hnan _ Hz) (Hnan _ Hy) (Hnan _ Hx) Hzy Hyx).
Qed.
End choose.

(** Where the replica selector puts a peer and which one it takes away.  With
    at most seven location labels and fewer than a hundred stores of the region,
    and region scores that are numbers: the target passes all filters and no
    store that passes the filters given has a better location, where the first
    label at which the numbers of stores elsewhere differ decides and the region
    score breaks ties; the source is a store that has no worse location among
    the candidates.  No store is returned only if every store is filtered or the
    best one is rejected by the selector's own filters. *)
Theorem replica_select_correct labels regionStores own filters opt stores :
  (length labels ≤ 7)%nat → (length regionStores < 100)%nat → Forall (λ s, region_score opt s ≠ S754_nan) stores →
  let sel := mkReplicaSelector regionStores labels own in
  let passes s := FilterTarget h now call opt s filters = false in
  let best b := b ∈ stores ∧ passes b ∧ ∀ s, s ∈ stores → passes s → ¬ better_location labels regionStores opt s b in
  let worst b := b ∈ stores ∧ ∀ s, s ∈ stores → ¬ better_location labels regionStores opt b s in
  match Replica_SelectTarget h now call sel opt stores filters with
  | Some b => best b ∧ FilterTarget h now call opt b own = false
  | None => (∀ s, s ∈ stores → ¬ passes s) ∨ ∃ b, best b ∧ FilterTarget h now call opt b own = true
  end ∧
  match Replica_SelectSource h now call sel opt stores with
  | Some b => worst b ∧ FilterSource h now call opt b own = false
  | None => stores = [] ∨ ∃ b, worst b ∧ FilterSource h now call opt b own = true
  end.
Proof.
  intros Hlabels Hregion Hnan sel passes best worst. split.
  - unfold Replica_SelectTarget. destruct (best_by _ _ stores) as [b|] eqn:Eb.
    + assert (Hbest : best b).
      { destruct (best_by_elem _ _ _ _ Eb). split_and!; [done..|]. intros s Hs Hp. exact (best_location _ _ _ _ Hlabels Hregion Hnan _ _ Eb s Hs Hp). }
      cbn [mbind option_bind rs_filters sel]. destruct (FilterTarget h now call opt b own) eqn:Ef; [right; by exists b|done].
    + cbn. left. intros s Hs Hp. pose proof (proj1 (best_by_None _ _ _) Eb s Hs) as Hskip. cbn in Hskip. unfold passes in Hp. congruence.
  - unfold Replica_SelectSource. destruct (best_by _ _ stores) as [b|] eqn:Eb.
    + assert (Hworst : worst b).
      { destruct (best_by_elem _ _ _ _ Eb). split; [done|]. intros s Hs. by eapply (worst_location labels regionStores opt stores). }
      cbn [mbind option_bind rs_filters sel]. destruct (FilterSource h now call opt b own) eqn:Ef; [right; by exists b|done].
    + cbn. left. destruct stores as [|s ?]; [done|]. by pose proof (proj1 (best_by_None _ _ _) Eb s (list_elem_of_here _ _)).
Qed.
End selectors.

(** ** Stores that may lose and get leaders and peers *)

Section fit.
Variables (now : Z) (call : nat → bool) (v : View).
Implicit Types (s : StoreInfo).

(** The store is not removed and has been heard of lately. *)
Definition alive s : Prop := IsTombstone (v_heap v) s = false ∧ DownTime now s ≤ MaxStoreDownTime (opt_cfg (v_opt v)).

(** The store is connected and not blocked. *)
Definition connected s : Prop := DownTime now s ≤ storeDisconnectDuration ∧ blocked s = false.

(** The store is not busy, and its labels do not reject leaders. *)
Definition leadable s : Prop := isBusy s = false ∧ opt_rejects (v_opt v) (store_GetLabels (v_heap v) s) = false.

(** The store has room for snapshots, and is neither busy nor overloaded. *)
Definition has_room s : Prop :=
  let max := MaxSnapshotCount (opt_cfg (v_opt v)) in
  isBusy s = false ∧ IsOverloaded call s = false ∧ SendingSnapCount (store_stats s) ≤ max ∧
  ReceivingSnapCount (store_stats s) ≤ max ∧ ApplyingSnapCount (store_stats s) ≤ max.

(** Few of its peers are pending, if that is limited. *)
Definition few_pending s : Prop :=
  0 < MaxPendingPeerCount (opt_cfg (v_opt v)) → pendingPeerCount s ≤ int64 (MaxPendingPeerCount (opt_cfg (v_opt v))).

(** The store may give leaders away; may lead; may take a peer. *)
Definition leader_source s : Prop := alive s ∧ connected s.
Definition leader_target s : Prop := alive s ∧ IsOffline (v_heap v) s = false ∧ connected s ∧ leadable s.
Definition peer_target s : Prop := alive s ∧ IsOffline (v_heap v) s = false ∧ has_room s ∧ few_pending s.

Lemma filterMoveRegion_room s : filterMoveRegion call (v_opt v) s = false ↔ has_room s.
Proof. unfold filterMoveRegion, snapshot_filter, has_room. cbn zeta. rewrite !orb_false_iff, !Z.ltb_ge. tauto. Qed.

Lemma if_true_false (b b' : bool) : (if b then true else b') = false ↔ b = false ∧ b' = false.
Proof. destruct b, b'; intuition congruence. Qed.

Lemma implb_false (b b' : bool) : b && b' = false ↔ (b = true → b' = false).
Proof. destruct b, b'; intuition congruence. Qed.

(** What it means that the state of a store does not exclude it. *)
Lemma state_source_spec leader peer s : state_FilterSource (v_heap v) now call leader peer (v_opt v) s = false ↔
  alive s ∧ (leader = true → connected s) ∧ (peer = true → has_room s).
Proof.
  unfold state_FilterSource, alive, connected, IsDisconnected. rewrite !if_true_false, !implb_false, !orb_false_iff, filterMoveRegion_room, !Z.ltb_ge. tauto.
Qed.

Lemma state_target_spec leader peer s : state_FilterTarget (v_heap v) now call leader peer (v_opt v) s = false ↔
  alive s ∧ IsOffline (v_heap v) s = false ∧ (leader = true → connected s ∧ leadable s) ∧ (peer = true → has_room s ∧ few_pending s).
Proof.
  unfold state_FilterTarget, alive, connected, leadable, IsDisconnected. rewrite !if_true_false, !implb_false, !orb_false_iff, !Z.ltb_ge.
  assert (Hpeer : (if peer then if (0 <? MaxPendingPeerCount (opt_cfg (v_opt v))) && (int64 (MaxPendingPeerCount (opt_cfg (v_opt v))) <? pendingPeerCount s)
    then true else filterMoveRegion call (v_opt v) s else false) = false ↔ (peer = true → has_room s ∧ few_pending s)).
  { destruct peer; [|intuition congruence]. unfold few_pending. rewrite if_true_false, implb_false, filterMoveRegion_room, Z.ltb_lt, Z.ltb_ge. tauto. }
  rewrite Hpeer. tauto.
Qed.

Lemma leader_source_spec s : state_FilterSource (v_heap v) now call true false (v_opt v) s = false ↔ leader_source s.
Proof. rewrite state_source_spec. unfold leader_source. intuition congruence. Qed.

Lemma leader_target_spec s : state_FilterTarget (v_heap v) now call true false (v_opt v) s = false ↔ leader_target s.
Proof. rewrite state_target_spec. unfold leader_target. intuition congruence. Qed.

Lemma peer_target_spec s : state_FilterTarget (v_heap v) now call false true (v_opt v) s = false ↔ peer_target s.
Proof. rewrite state_target_spec. unfold peer_target. intuition congruence. Qed.
End fit.

(** ** A small cluster *)

Module ScheduleDemo.
Import Latin.
#[export] Instance demo_classifier : Classifier := DefaultClassifier.

(** The default configuration. *)
Definition cfg : ScheduleConfig :=
  (ScheduleConfig_adjust (λ _, true) None
    (mkScheduleConfig 0 0 0 0 0 false 0 0 0 0 0 0 0 0 (f64_of_Z 0) (f64_of_Z 0) (f64_of_Z 0) (f64_of_Z 0) 0
      false false false false false false false [])).1.
Definition opt : Options := mkOptions cfg 3 [str "zone"; str "host"] (λ _, false).

(** Four stores in two zones; the region has peers on the first two. *)
Definition meta (id : Z) (zone host : string) : Store :=
  mkStore id [] Up [mkStoreLabel (str "zone") (str zone); mkStoreLabel (str "host") (str host)] [].
Definition h : heap := list_to_map (M := gmap loc Store)
  [(1%positive, meta 1 "z1" "h1"); (2%positive, meta 2 "z1" "h2"); (3%positive, meta 3 "z1" "h3"); (4%positive, meta 4 "z2" "h4")].
Definition store (l : loc) : StoreInfo :=
  mkStoreInfo l (Some (mkStoreStats (Z.pos l) (2 ^ 40) (2 ^ 39) (2 ^ 38) 0 0 0 0 false 0 0 0 0 None)) false 0 0 0 0 0 0
    (f64_of_Z 1) (f64_of_Z 1) None.
Definition all : list StoreInfo := [store 1; store 2; store 3; store 4].
Definition placed : list StoreInfo := [store 1; store 2].
Definition own : list Filter := [healthFilter].
Definition new : list Filter := [stateFilter; excludedFilter ∅ {[1; 2]}].

(** Store 4, alone in its zone, is the best target, and stores 1 and 2 are as bad. *)
Lemma replica_select_correct_witness :
  let sel := mkReplicaSelector placed (opt_LocationLabels opt) own in
  Replica_SelectTarget h 0 (λ _, false) sel opt all new = Some (store 4) ∧
  ¬ better_location h (opt_LocationLabels opt) placed opt (store 3) (store 4) ∧
  ¬ better_location h (opt_LocationLabels opt) placed opt (store 1) (store 2).
Proof.
  intros sel.
  assert (Hnan : Forall (λ s, region_score opt s ≠ S754_nan) all) by (refine (bool_decide_unpack _ _); vm_compute; exact I).
  assert (Ht : Replica_SelectTarget h 0 (λ _, false) sel opt all new = Some (store 4)) by (vm_compute; reflexivity).
  assert (Hs : Replica_SelectSource h 0 (λ _, false) sel opt all = Some (store 1)) by (vm_compute; reflexivity).
  destruct (replica_select_correct h 0 (λ _, false) (opt_LocationLabels opt) placed own new opt all) as [Htarget Hsource];
    [cbn; lia|cbn; lia|exact Hnan|].
  fold sel in Htarget, Hsource. rewrite Ht in Htarget. rewrite Hs in Hsource.
  destruct Htarget as [(_ & _ & Hbest) _], Hsource as [[_ Hworst] _]. split_and!.
  - exact Ht.
  - apply Hbest; [right; right; left|vm_compute; reflexivity].
  - apply Hworst. right. left.
Defined.
End ScheduleDemo.
