(* ===== verification/Structure.v ===== *)
(** * Placement rules of the user (server/schedule: structure.go, region_filters.go; plugin/filters.go)

    The rules the plugin loads name a range of keys, an interval of time and
    stores by their labels.  The global map of the rules is read by the checkers
    and the schedulers, which leave the regions of active rules alone. *)

From S2P Require Import Prelude GoBytes Metapb Region Strconv KV Store Statistics Config Operator Schedule.

(** ** encoding/hex *)

Definition fromHexChar (c : Byte.byte) : option Z :=
  let z := byte_val c in
  if (48 <=? z) && (z <=? 57) then Some (z - 48)
  else if (97 <=? z) && (z <=? 102) then Some (z - 97 + 10)
  else if (65 <=? z) && (z <=? 70) then Some (z - 65 + 10)
  else None.

(** An odd length or a character that is no digit is an error. *)
Fixpoint hex_DecodeString (s : bytes) : option bytes :=
  match s with
  | [] => Some []
  | [_] => None
  | a :: b :: s =>
      hi ← fromHexChar a;
      lo ← fromHexChar b;
      rest ← hex_DecodeString s;
      Some (byte_of_Z (Z.lor (Z.shiftl hi 4) lo) :: rest)
  end.

(** ** Rules *)

(** Instants are nanoseconds. *)
Record TimeInterval := mkTimeInterval { iv_Begin : Z; iv_End : Z }.
Record Label := mkLabel { lb_Key : bytes; lb_Value : bytes }.

Record PluginInfo := mkPluginInfo {
  Persist : bool;
  KeyStart : bytes;
  KeyEnd : bytes;
  pi_Interval : option TimeInterval;
  (** The field [StoreLabel] of each element. *)
  pi_Stores : list (list Label);
  StoreIDs : list Z;
}.

#[export] Instance TimeInterval_eq_dec : EqDecision TimeInterval.
Proof. solve_decision. Defined.
#[export] Instance Label_eq_dec : EqDecision Label.
Proof. solve_decision. Defined.
#[export] Instance PluginInfo_eq_dec : EqDecision PluginInfo.
Proof. solve_decision. Defined.

Definition interval_GetBegin (t : option TimeInterval) : Z := from_option iv_Begin zeroTime t.
Definition interval_GetEnd (t : option TimeInterval) : Z := from_option iv_End zeroTime t.

(** The rules by name; a nil rule answers with nothing. *)
Abbreviation PluginsMap := (gmap bytes PluginInfo).

Definition GetInterval (p : option PluginInfo) : option TimeInterval := p ≫= pi_Interval.
Definition GetStoreIDs (p : option PluginInfo) : list Z := from_option StoreIDs [] p.
Definition GetKeyStart (p : option PluginInfo) : bytes := from_option KeyStart [] p.
Definition GetKeyEnd (p : option PluginInfo) : bytes := from_option KeyEnd [] p.

(** ** Stores by labels *)

(** How many pairs of a label of the store and a label asked for are equal. *)
Definition matching_labels (storeLabels : list StoreLabel) (storeLabel : list Label) : nat :=
  foldl (λ sum label,
    foldl (λ sum myLabel,
      if bool_decide (lb_Key myLabel = Label_Key label ∧ lb_Value myLabel = Label_Value label) then S sum else sum)
      sum storeLabel) 0%nat storeLabels.

(** [stores] is [cluster.GetStores()], in the order of the map's iteration. *)
Definition GetStoreByLabel (h : heap) (stores : list StoreInfo) (storeLabel : list Label) : option StoreInfo :=
  find_first (λ store, (matching_labels (store_GetLabels h store) storeLabel =? length storeLabel)%nat) stores.

(** The map of the stores is ranged over once per rule's store: [orders i] is the
    order for the i-th. *)
Definition UpdateStoreIDs (h : heap) (orders : nat → list StoreInfo) (p : option PluginInfo) : option PluginInfo :=
  p ← p;
  Some (mkPluginInfo (Persist p) (KeyStart p) (KeyEnd p) (pi_Interval p) (pi_Stores p)
    (omap (λ '(i, s), store_GetID h <$> GetStoreByLabel h (orders i) s) (imap pair (pi_Stores p)))).

(** ** Regions of a rule *)

Definition nil_region : go_error := Panic "invalid memory address or nil pointer dereference".

(** [ScanRegions(key, 1)]. *)
Definition scan_one (v : View) (key : bytes) : result (list (option RegionInfo)) :=
  match v_ScanRegions v key 1 with
  | None => inl (Panic "makeslice: cap out of range")
  | Some l => inr l
  end.

Definition GetRegionIDs (v : View) (keyStart keyEnd : bytes) : result (list Z) :=
  match hex_DecodeString keyStart, hex_DecodeString keyEnd with
  | Some startKey, Some endKey =>
      let regions := v_ScanRangeWithEndKey v startKey endKey in
      let regionIDs := GetID <$> regions in
      match last regions with
      | None =>
          lastRegion ← scan_one v startKey;
          match lastRegion with
          | [] => inr regionIDs
          | None :: _ => inl nil_region
          | Some r :: _ =>
              if (length (GetStartKey r) =? 0)%nat && (length (GetEndKey r) =? 0)%nat then inr regionIDs
              else inr (regionIDs ++ [GetID r])
          end
      | Some r =>
          let lastKey := GetEndKey r in
          if (length lastKey =? 0)%nat then inr regionIDs
          else
            lastRegion ← scan_one v lastKey;
            match lastRegion with
            | [] => inr regionIDs
            | None :: _ => inl nil_region
            | Some r :: _ => inr (regionIDs ++ [GetID r])
            end
      end
  | _, _ => inr []
  end.

(** ** Region filters *)

Definition isExists (id : Z) (ids : list Z) : bool := existsb (λ i, i =? id) ids.

(** [violentFilter.FilterSource] and [FilterTarget]. *)
Definition violent_filter (now : Z) (region : RegionInfo) (interval : option TimeInterval) (regionIDs : list Z) : bool :=
  match interval with
  | Some i => if (iv_End i <? now) || (now <? iv_Begin i) then false else isExists (GetID region) regionIDs
  | None => isExists (GetID region) regionIDs
  end.

(** A region filter decides by the region, the interval and the regions of a rule. *)
Definition RegionFilter : Type := RegionInfo → option TimeInterval → list Z → bool.

Definition RegionFilterSource (region : RegionInfo) (filters : list RegionFilter) (interval : option TimeInterval)
    (regionIDs : list Z) : bool :=
  existsb (λ f : RegionFilter, f region interval regionIDs) filters.

(** The loop of the checkers and schedulers over the rules, in the order of the
    map's iteration. *)
Fixpoint user_region (v : View) (filters : list RegionFilter) (rules : list (bytes * PluginInfo)) (region : RegionInfo)
    : result bool :=
  match rules with
  | [] => inr false
  | (_, p) :: rules =>
      regionIDs ← GetRegionIDs v (KeyStart p) (KeyEnd p);
      if RegionFilterSource region filters (pi_Interval p) regionIDs then inr true
      else user_region v filters rules region
  end.

(** ** The plugin's shared object *)

(** [path/filepath.Abs] and the package [plugin] are parameters; the object is
    opened once. *)
Section plugin.
Context {P Symbol : Type}.
Variable Abs : bytes → result bytes.
Variable Open : bytes → result P.
Variable Lookup : P → bytes → result Symbol.

Definition GetFunction (path funcName : bytes) : M (option P) Symbol :=
  λ Plugin,
    match Plugin with
    | Some p => (Plugin, Lookup p funcName)
    | None =>
        match (filePath ← Abs path; Open filePath) with
        | inl err => (None, inl err)
        | inr p => (Some p, Lookup p funcName)
        end
    end.
End plugin.
