(* ===== verification/Checkers.v ===== *)
(** * The checkers (server/checker)

    The replica, learner, merge and namespace checkers: each looks at one region
    and proposes an operator that brings it closer to what the options ask. *)

From S2P Require Import Prelude GoBytes BTree Strconv Strings Float KV Metapb Region RegionTree RegionMap RegionsInfo Cache Storage Store Statistics Config Operator Schedule Structure.

Section checkers.
Context `{!Unicode} `{!Classifier}.
Context {C : Type} `{!Cluster C} `{!ScheduleCluster C}.
Implicit Types (c : C) (region : RegionInfo) (filters : list Filter).
Abbreviation MC := (M C).

(** The clock, the answers of the stores' overload functions, the order of the
    i-th iteration over the map of stores, and the order of the region's
    followers. *)
Variable now : Z.
Variable call : nat → bool.
Variable range : nat → list StoreInfo → list StoreInfo.
Variable followerIDs : RegionInfo → list Z.

Definition cl_GetStores c (i : nat) : list StoreInfo := range i (stores_GetStores (v_stores (view c))).

(** [op, err := m]: with an error there is no operator. *)
Definition or_nil {A} (m : MC A) : MC (option A) := λ c,
  match m c with
  | (c', inr x) => (c', inr (Some x))
  | (c', inl (Error _)) => (c', inr None)
  | (c', inl (Panic msg)) => (c', inl (Panic msg))
  end.

(** ** The replica checker (replica_checker.go) *)

(** Whether the checker was made with a classifier. *)
Variable classified : bool.

Definition replica_filters : list Filter := [overloadFilter; healthFilter; snapshotCountFilter].

Definition add_filters filters region : list Filter :=
  filters ++ replica_filters ++ [stateFilter; pendingPeerCountFilter; excludedFilter ∅ (GetStoreIds region)] ++
  (if classified then [namespaceFilter (GetRegionNamespace region)] else []).

(** The id of the store and its score, or two zeros. *)
Definition selectBestStoreToAddReplica c (i : nat) region filters : Z * f64 :=
  let v := view c in
  let labels := opt_LocationLabels (v_opt v) in
  let regionStores := v_GetRegionStores v region in
  let selector := mkReplicaSelector regionStores labels replica_filters in
  match Replica_SelectTarget (v_heap v) now call selector (v_opt v) (cl_GetStores c i) (add_filters filters region) with
  | None => (0, f64_of_Z 0)
  | Some target => (store_GetID (v_heap v) target, DistinctScore (v_heap v) labels regionStores target)
  end.

Definition SelectBestReplacementStore c (i : nat) region (oldPeer : Peer) filters : Z * f64 :=
  let filters := filters ++ [excludedFilter ∅ (GetStoreIds region)] in
  let newRegion := Region.Clone region [WithRemoveStorePeer (Peer_StoreId oldPeer)] in
  selectBestStoreToAddReplica c i newRegion filters.

Definition selectBestPeerToAddReplica (i : nat) region filters : MC (option Peer) := λ c,
  let '(storeID, score) := selectBestStoreToAddReplica c i region filters in
  if storeID =? 0 then (c, inr None) else or_nil (AllocPeer storeID) c.

Definition selectWorstPeer c region : option Peer * f64 :=
  let v := view c in
  let labels := opt_LocationLabels (v_opt v) in
  let regionStores := v_GetRegionStores v region in
  let selector := mkReplicaSelector regionStores labels replica_filters in
  match Replica_SelectSource (v_heap v) now call selector (v_opt v) regionStores with
  | None => (None, f64_of_Z 0)
  | Some worstStore =>
      (GetStorePeer region (store_GetID (v_heap v) worstStore), DistinctScore (v_heap v) labels regionStores worstStore)
  end.

(** An operator that removes, or moves, a peer. *)
Definition remove_op (desc : string) region (storeID : Z) : MC (option Operator) :=
  or_nil (λ c, (c, CreateRemovePeerOperator desc c OpReplica region storeID (followerIDs region) now)).

Definition move_op (desc : string) (kind : Z) region (oldStore storeID : Z) : MC (option Operator) :=
  newPeer ← or_nil (AllocPeer storeID);
  match newPeer with
  | None => mret None
  | Some newPeer =>
      or_nil (λ c, (c, CreateMovePeerOperator desc c region kind oldStore (Peer_StoreId newPeer) (Peer_Id newPeer)
        (followerIDs region) now))
  end.

Definition fixPeer (i : nat) region (peer : Peer) (status : string) : MC (option Operator) := λ c,
  if opt_MaxReplicas (v_opt (view c)) <? Z.of_nat (length (GetPeers region))
  then remove_op ("remove-extra-" ++ status ++ "-replica")%string region (Peer_StoreId peer) c
  else if bool_decide (is_Some (GetPendingPeer region (Peer_Id peer)))
  then remove_op ("remove-pending-" ++ status ++ "-replica")%string region (Peer_StoreId peer) c
  else
    let '(storeID, _) := SelectBestReplacementStore c i region peer [storageThresholdFilter] in
    if storeID =? 0 then (c, inr None)
    else move_op ("replace-" ++ status ++ "-replica")%string OpReplica region (Peer_StoreId peer) storeID c.

(** [time.Duration.Seconds] *)
Definition Duration_Seconds (d : Z) : f64 :=
  f64_add (f64_of_Z (Z.quot d Second)) (f64_div (f64_of_Z (Z.rem d Second)) (f64_of_Z 1000000000)).

(** The first peer that is reported down, and whose store is down, for too long. *)
Fixpoint down_peer c (downs : list PeerStats) : option Peer :=
  match downs with
  | [] => None
  | stats :: downs =>
      match PeerStats_Peer stats with
      | None => down_peer c downs
      | Some peer =>
          match v_GetStore (view c) (Peer_StoreId peer) with
          | None => None
          | Some store =>
              let limit := MaxStoreDownTime (opt_cfg (v_opt (view c))) in
              if DownTime now store <? limit then down_peer c downs
              else if DownSeconds stats <? uint64_of_f64 (Duration_Seconds limit) then down_peer c downs
              else Some peer
          end
      end
  end.

Definition checkDownPeer region : MC (option Operator) := λ c,
  if DisableRemoveDownReplica (opt_cfg (v_opt (view c))) then (c, inr None)
  else match down_peer c (GetDownPeers region) with
       | None => (c, inr None)
       | Some peer => fixPeer 0 region peer "down" c
       end.

(** The first peer on a store that is not up, if no store before is lost. *)
Fixpoint offline_peer c (peers : list Peer) : option Peer :=
  match peers with
  | [] => None
  | peer :: peers =>
      match v_GetStore (view c) (Peer_StoreId peer) with
      | None => None
      | Some store => if IsUp (v_heap (view c)) store then offline_peer c peers else Some peer
      end
  end.

Definition checkOfflinePeer region : MC (option Operator) := λ c,
  if DisableReplaceOfflineReplica (opt_cfg (v_opt (view c))) then (c, inr None)
  else if negb (length (GetLearners region) =? 0)%nat then (c, inr None)
  else match offline_peer c (GetPeers region) with
       | None => (c, inr None)
       | Some peer => fixPeer 1 region peer "offline" c
       end.

Definition checkBestReplacement region : MC (option Operator) := λ c,
  if DisableLocationReplacement (opt_cfg (v_opt (view c))) then (c, inr None)
  else match selectWorstPeer c region with
       | (None, _) => (c, inr None)
       | (Some oldPeer, oldScore) =>
           let '(storeID, newScore) := SelectBestReplacementStore c 2 region oldPeer [storageThresholdFilter] in
           if storeID =? 0 then (c, inr None)
           else if f64_leb newScore oldScore then (c, inr None)
           else move_op "move-to-better-location" OpReplica region (Peer_StoreId oldPeer) storeID c
       end.

Definition add_op region (newPeer : Peer) : MC (option Operator) := λ c,
  (c, inr (Some (CreateAddPeerOperator "make-up-replica" c region (Peer_Id newPeer) (Peer_StoreId newPeer) OpReplica now))).

Definition make_up region : MC (option Operator) :=
  newPeer ← selectBestPeerToAddReplica 2 region [storageThresholdFilter];
  match newPeer with
  | None => mret None
  | Some newPeer => add_op region newPeer
  end.

(** The number of peers, then their locations. *)
Definition check_number region : MC (option Operator) := λ c,
  let v := view c in
  if (Z.of_nat (length (GetPeers region)) <? opt_MaxReplicas (v_opt v)) && negb (DisableMakeUpReplica (opt_cfg (v_opt v)))
  then make_up region c
  else if (opt_MaxReplicas (v_opt v) <? Z.of_nat (length (GetVoters region)))
     && negb (DisableRemoveExtraReplica (opt_cfg (v_opt v)))
  then match selectWorstPeer c region with
       | (None, _) => (c, inr None)
       | (Some oldPeer, _) => remove_op "remove-extra-replica" region (Peer_StoreId oldPeer) c
       end
  else checkBestReplacement region c.

Definition replica_Check region : MC (option Operator) :=
  op ← checkDownPeer region;
  match op with
  | Some op => mret (Some (SetPriorityLevel HighPriority op))
  | None =>
      op ← checkOfflinePeer region;
      match op with
      | Some op => mret (Some (SetPriorityLevel HighPriority op))
      | None => check_number region
      end
  end.

(** ** The learner checker (learner_checker.go) *)

Definition learner_Check region : option Operator :=
  p ← find_first (λ p, negb (bool_decide (is_Some (GetPendingLearner region (Peer_Id p))))) (GetLearners region);
  Some (NewOperator "promote-learner" (GetID region) (GetRegionEpoch region) OpRegion
    [PromoteLearner (Peer_StoreId p) (Peer_Id p)] now).

(** ** The merge checker (merge_checker.go) *)

Definition mergeBlockMarker : Z := 0.

(** [NewMergeChecker]: the cache of the regions split lately. *)
Definition NewMergeChecker c : Ttl.IDTTL :=
  Ttl.id_Put (Ttl.NewIDTTL (60 * Second) (SplitMergeInterval (opt_cfg (v_opt (view c))))) now mergeBlockMarker.

Definition no_special_peer region : bool :=
  (length (GetDownPeers region) =? 0)%nat && (length (GetPendingPeers region) =? 0)%nat && (length (GetLearners region) =? 0)%nat.

Definition checkTarget c region (adjacent target : option RegionInfo) : option RegionInfo :=
  match adjacent with
  | None => target
  | Some a =>
      if negb (v_IsRegionHot (view c) (GetID a)) && AllowMerge region a && no_special_peer a then
        if match target with None => true | Some t => GetApproximateSize a <? GetApproximateSize t end then
          if Z.of_nat (length (GetPeers a)) =? opt_MaxReplicas (v_opt (view c)) then adjacent else target
        else target
      else target
  end.

(** The guards of the region itself. *)
Definition merge_candidate c (splitCache : Ttl.IDTTL) region : bool :=
  let opt := v_opt (view c) in
  negb (Ttl.id_Exists splitCache now mergeBlockMarker) && negb (Ttl.id_Exists splitCache now (GetID region)) &&
  negb (GetApproximateSize region =? 0) &&
  negb ((int64 (MaxMergeRegionSize (opt_cfg opt)) <? GetApproximateSize region)
        || (int64 (MaxMergeRegionKeys (opt_cfg opt)) <? GetApproximateKeys region)) &&
  no_special_peer region &&
  (Z.of_nat (length (GetPeers region)) =? opt_MaxReplicas opt) &&
  negb (v_IsRegionHot (view c) (GetID region)).

Definition merge_target c region : option RegionInfo :=
  let '(prev, next) := v_GetAdjacentRegions (view c) region in
  let targetNext := checkTarget c region next None in
  let target := checkTarget c region prev None in
  if bool_decide (target ≠ targetNext) && EnableOneWayMerge (opt_cfg (v_opt (view c))) then targetNext else target.

(** [order] is the order of the stores the two regions share. *)
Definition merge_Check (splitCache : Ttl.IDTTL) (order : RegionInfo → list Z) region : MC (option (list Operator)) := λ c,
  if merge_candidate c splitCache region then
    match merge_target c region with
    | None => (c, inr None)
    | Some target => or_nil (CreateMergeRegionOperator "merge-region" region target OpMerge (order target) now) c
    end
  else (c, inr None).

(** ** The namespace checker (namespace_checker.go) *)

Definition namespace_filters : list Filter := [StoreStateFilter false true].

Definition getNamespaceStores c (i : nat) region : list StoreInfo :=
  let v := view c in
  filter (λ s, FilterTarget (v_heap v) now call (v_opt v) s [namespaceFilter (GetRegionNamespace region)] = false) (cl_GetStores c i).

Definition isExists_store c (stores : list StoreInfo) (storeID : Z) : bool :=
  existsb (λ s, store_GetID (v_heap (view c)) s =? storeID) stores.

(** [rand] is the draw of the random selector. *)
Definition SelectBestStoreToRelocate c (rand : Z) region (targets : list StoreInfo) : Z :=
  let v := view c in
  match Random_SelectTarget (v_heap v) now call rand namespace_filters (v_opt v) targets [excludedFilter ∅ (GetStoreIds region)] with
  | None => 0
  | Some target => store_GetID (v_heap v) target
  end.

(** [regionFilters] are the filters of the plugin, [rules] its rules. *)
Definition namespace_Check (rand : Z) (regionFilters : list RegionFilter) (rules : list (bytes * PluginInfo)) region
    : MC (option Operator) := λ c,
  if DisableNamespaceRelocation (opt_cfg (v_opt (view c))) then (c, inr None)
  else
    match (if (length regionFilters =? 0)%nat then inr false else user_region (view c) regionFilters rules region) with
    | inl err => (c, inl err)
    | inr true => (c, inr None)
    | inr false =>
        if negb classified || (length GetAllNamespaces =? 1)%nat then (c, inr None)
        else
          let targetStores := getNamespaceStores c 0 region in
          if (length targetStores =? 0)%nat then (c, inr None)
          else
            match find_first (λ p, negb (isExists_store c targetStores (Peer_StoreId p))) (GetPeers region) with
            | None => (c, inr None)
            | Some peer =>
                let storeID := SelectBestStoreToRelocate c rand region targetStores in
                if storeID =? 0 then (c, inr None)
                else move_op "make-namespace-relocation" OpReplica region (Peer_StoreId peer) storeID c
            end
    end.
End checkers.
