(* ===== verification/CheckersProps.v ===== *)
(** * What the checkers propose

    An operator of the replica checker runs without ever losing the leader or a
    voter it need not lose, adds peers only on stores that may take them, and
    removes them only for a reason; the checker makes up for missing replicas
    when it can. *)

From S2P Require Import Prelude GoBytes BTree Strconv Strings Float FloatInt KV Metapb Region RegionTree RegionMap RegionsInfo Cache Storage Store Statistics Config Operator OperatorProps Schedule ScheduleProps Structure Checkers.
From Corelib Require Import SpecFloat.

(** ** Computations that read the cluster and may allocate *)

Section yields.
Context {C : Type} `{!Cluster C, !ScheduleCluster C, !ScheduleClusterLaws C}.
Implicit Types c : C.

(** The computation returns, changes nothing of the view, and what it proposes
    satisfies [Q]. *)
Definition yields {A} (m : M C (option A)) c (Q : A → Prop) : Prop :=
  ∃ c' r, m c = (c', inr r) ∧ view c' = view c ∧ ∀ x, r = Some x → Q x.

Lemma yields_none {A} c (Q : A → Prop) : yields (λ c, (c, inr None)) c Q.
Proof. exists c, None. done. Qed.

Lemma yields_some {A} c (x : A) (Q : A → Prop) : Q x → yields (λ c, (c, inr (Some x))) c Q.
Proof. intros HQ. exists c, (Some x). split_and!; [done..|]. by intros ? [= <-]. Qed.

Lemma yields_mono {A} (m : M C (option A)) c (Q Q' : A → Prop) : yields m c Q → (∀ x, Q x → Q' x) → yields m c Q'.
Proof. intros (c' & r & Hm & Hv & HQ) H. exists c', r. auto. Qed.

Lemma yields_bind {A B} (m : M C (option A)) (f : option A → M C (option B)) c (Q : A → Prop) (Q' : B → Prop) :
  yields m c Q →
  (∀ c', view c' = view c → yields (f None) c' Q') →
  (∀ c' x, view c' = view c → Q x → yields (f (Some x)) c' Q') →
  yields (r ← m; f r) c Q'.
Proof.
  intros (c1 & r & Hm & Hv & HQ) Hnone Hsome.
  assert (Hf : yields (f r) c1 Q') by (destruct r as [x|]; auto).
  destruct Hf as (c2 & r' & Hf & Hv' & HQ'). exists c2, r'. split; [by rewrite M_bind_eq, Hm|].
  split; [congruence|done].
Qed.

Lemma yields_or_nil {A} (m : M C A) c (Q : A → Prop) :
  view (m c).1 = view c → (∀ msg, (m c).2 ≠ inl (Panic msg)) → (∀ x, (m c).2 = inr x → Q x) → yields (or_nil m) c Q.
Proof.
  unfold yields, or_nil. destruct (m c) as [c' [[msg|msg]|x]]; cbn; intros Hv Hp HQ.
  - exists c', None. done.
  - by destruct (Hp msg).
  - exists c', (Some x). split_and!; [done..|]. intros ? [= <-]. auto.
Qed.

Lemma yields_alloc c storeID : yields (or_nil (AllocPeer storeID)) c (λ p, Peer_StoreId p = storeID).
Proof. apply yields_or_nil; [apply AllocPeer_view|apply AllocPeer_error|]. intros p Hp. by destruct (AllocPeer_peer c storeID p Hp). Qed.
End yields.

(** ** The stores that may take a peer *)

Lemma elem_of_store_ids region id : id ∈ GetStoreIds region ↔ id ∈ stores region.
Proof. unfold GetStoreIds, stores, GetPeers. rewrite store_set_fold. set_solver. Qed.

Lemma clone_stores (region : RegionInfo) id : stores (Region.Clone region [WithRemoveStorePeer id]) = filter (λ s, s ≠ id) (stores region).
Proof.
  unfold stores, GetPeers. assert (Hf : ∀ l acc, foldl (λ peers peer, if negb (Peer_StoreId peer =? id) then peers ++ [peer] else peers) acc l
    = acc ++ filter (λ p, Peer_StoreId p ≠ id) l).
  { induction l as [|p l IH]; intros acc; cbn [foldl]; [by rewrite filter_nil, app_nil_r|]. rewrite IH, filter_cons.
    destruct (Z.eqb_spec (Peer_StoreId p) id); [by rewrite decide_False by tauto|]. rewrite decide_True by done. cbn. by rewrite <-app_assoc. }
  transitivity (Peer_StoreId <$> foldl (λ peers peer, if negb (Peer_StoreId peer =? id) then peers ++ [peer] else peers) [] (Peers (meta region))).
  - unfold Region.Clone. by rewrite classifyVoterAndLearner_eq.
  - rewrite Hf. by apply filter_fmap_comm.
Qed.

Lemma elem_of_region_stores (v : View) (region : RegionInfo) s : s ∈ v_GetRegionStores v region ↔
  ∃ p, p ∈ GetPeers region ∧ v_GetPeerStore v (Peer_StoreId p) = Some s.
Proof. unfold v_GetRegionStores. apply list_elem_of_omap. Qed.

Lemma GetStorePeer_Some region id p : GetStorePeer region id = Some p → p ∈ GetPeers region ∧ Peer_StoreId p = id.
Proof. unfold GetStorePeer. intros [? Hp]%find_first_Some. by apply Z.eqb_eq in Hp. Qed.

Section props.
Context `{!Unicode} `{!Classifier}.
Context {C : Type} `{!Cluster C, !ScheduleCluster C, !ScheduleClusterLaws C}.
Variables (now : Z) (call : nat → bool).
Variable range : nat → list StoreInfo → list StoreInfo.
Variable followerIDs : RegionInfo → list Z.
Variable classified : bool.
Hypothesis Hrange : ∀ i l, range i l ≡ₚ l.
(** The namespace of a region does not depend on its peers. *)
Hypothesis Hns : ∀ region id, GetRegionNamespace (Region.Clone region [WithRemoveStorePeer id]) = GetRegionNamespace region.
Implicit Types (c : C) (v : View) (region : RegionInfo).

(** The store is up, healthy, has space, few snapshots and pending peers, belongs
    to the region's namespace, and has no peer of the region. *)
Definition good_target v region (id : Z) : Prop :=
  ∃ s, v_GetStore v id = Some s ∧ (id ∉ stores region) ∧ IsUp (v_heap v) s = true ∧
    IsLowSpace (LowSpaceRatio (opt_cfg (v_opt v))) s = false ∧
    health_filter now (v_opt v) s = false ∧ snapshot_filter (v_opt v) s = false ∧
    pending_filter (v_opt v) s = false ∧ IsOverloaded call s = false ∧
    (classified = true → GetStoreNamespace (v_heap v) s = GetRegionNamespace region).

Lemma FilterTarget_app h opt s fs gs :
  FilterTarget h now call opt s (fs ++ gs) = FilterTarget h now call opt s fs || FilterTarget h now call opt s gs.
Proof. apply existsb_app. Qed.

(** What it means that no filter of the checker rejects a store. *)
Lemma add_filters_pass v region region' s :
  GetRegionNamespace region' = GetRegionNamespace region →
  store_GetID (v_heap v) s ∉ stores region → v_GetStore v (store_GetID (v_heap v) s) = Some s →
  FilterTarget (v_heap v) now call (v_opt v) s (add_filters classified [storageThresholdFilter] region') = false →
  good_target v region (store_GetID (v_heap v) s).
Proof.
  intros Hn Hid Hs. unfold add_filters, replica_filters. rewrite !FilterTarget_app, !orb_false_iff. cbn.
  rewrite !orb_false_iff, negb_false_iff. intros ((Hlow & _) & (Ho & Hh & Hsn & _) & (Hu & Hp & _) & Hc).
  exists s. split_and!; try done. intros ->. cbn in Hc. rewrite orb_false_r, negb_false_iff, bool_decide_eq_true in Hc. congruence.
Qed.

Lemma elem_of_cl_stores c `{!ValidView (view c)} i s : s ∈ cl_GetStores range c i →
  v_GetStore (view c) (store_GetID (v_heap (view c)) s) = Some s.
Proof.
  unfold cl_GetStores, stores_GetStores, v_GetStore. rewrite Hrange, list_elem_of_fmap.
  intros ([id s'] & -> & Hs%elem_of_map_to_list). cbn. by rewrite (view_store_id (view c) id s' Hs).
Qed.

(** The score of a store among the others of the region. *)
Definition score_in v region (s : StoreInfo) : f64 :=
  DistinctScore (v_heap v) (opt_LocationLabels (v_opt v)) (v_GetRegionStores v region) s.

Lemma select_target_elem v sel opt l fs s : Replica_SelectTarget (v_heap v) now call sel opt l fs = Some s →
  s ∈ l ∧ FilterTarget (v_heap v) now call opt s fs = false.
Proof.
  unfold Replica_SelectTarget. destruct (best_by _ _ l) as [b|] eqn:Eb; [|done]. cbn [mbind option_bind].
  destruct (FilterTarget _ _ _ _ b _); [done|]. intros [= <-]. by apply best_by_elem in Eb.
Qed.

Lemma selectBest_spec c `{!ValidView (view c)} i region fs id score :
  selectBestStoreToAddReplica now call range classified c i region fs = (id, score) → id ≠ 0 →
  ∃ s, v_GetStore (view c) id = Some s ∧ id = store_GetID (v_heap (view c)) s ∧
    FilterTarget (v_heap (view c)) now call (v_opt (view c)) s (add_filters classified fs region) = false ∧
    score = score_in (view c) region s.
Proof.
  unfold selectBestStoreToAddReplica. cbn zeta. destruct (Replica_SelectTarget _ _ _ _ _ _ _) as [s|] eqn:Es; intros [= <- <-] Hne; [|done].
  apply select_target_elem in Es as [Hs Hf]. exists s. split_and!; [by eapply (elem_of_cl_stores c)|done..].
Qed.

Lemma selectBest_good c `{!ValidView (view c)} i region id score :
  selectBestStoreToAddReplica now call range classified c i region [storageThresholdFilter] = (id, score) → id ≠ 0 →
  good_target (view c) region id.
Proof.
  intros Hsel Hne. apply (selectBest_spec c) in Hsel as (s & Hs & -> & Hf & _); [|done]. eapply (add_filters_pass _ _ region); try done.
  unfold add_filters in Hf. rewrite !FilterTarget_app, !orb_false_iff in Hf. destruct Hf as (_ & _ & Hx & _). cbn in Hx.
  rewrite !orb_false_iff, bool_decide_eq_false, elem_of_store_ids in Hx. clear followerIDs Hns. tauto.
Qed.

Lemma replacement_spec c `{!ValidView (view c)} i region (old : Peer) id score :
  SelectBestReplacementStore now call range classified c i region old [storageThresholdFilter] = (id, score) → id ≠ 0 →
  good_target (view c) region id ∧
  ∃ s, v_GetStore (view c) id = Some s ∧ score = score_in (view c) (Region.Clone region [WithRemoveStorePeer (Peer_StoreId old)]) s.
Proof.
  unfold SelectBestReplacementStore. cbn zeta. intros Hsel Hne. apply (selectBest_spec c) in Hsel as (s & Hs & -> & Hf & Hsc); [|done].
  split; [|by exists s]. unfold add_filters in Hf. rewrite <-!app_assoc in Hf. rewrite FilterTarget_app, FilterTarget_app in Hf.
  apply orb_false_iff in Hf as [Hl [Hx Hf]%orb_false_iff].
  eapply (add_filters_pass _ _ (Region.Clone region [WithRemoveStorePeer (Peer_StoreId old)])); [apply Hns| |done|].
  - intros Hin. cbn in Hx. rewrite orb_false_r, bool_decide_eq_false, elem_of_store_ids in Hx. done.
  - unfold add_filters. by rewrite FilterTarget_app, Hl.
Qed.

Lemma worst_spec c `{!ValidView (view c)} region p score : selectWorstPeer now call c region = (Some p, score) →
  p ∈ GetPeers region ∧
  ∃ s, s ∈ v_GetRegionStores (view c) region ∧ v_GetPeerStore (view c) (Peer_StoreId p) = Some s ∧ score = score_in (view c) region s.
Proof.
  unfold selectWorstPeer. cbn zeta. destruct (Replica_SelectSource _ _ _ _ _ _) as [s|] eqn:Es; [|done].
  intros [= Hp <-]. apply GetStorePeer_Some in Hp as [Hp Hid]. split; [done|].
  unfold Replica_SelectSource in Es. destruct (best_by _ _ _) as [b|] eqn:Eb; [|done]. cbn [mbind option_bind] in Es.
  destruct (FilterSource _ _ _ _ b _); [done|]. injection Es as ->. apply best_by_elem in Eb as [Hs _].
  exists s. split_and!; [done| |done]. apply elem_of_region_stores in Hs as (q & _ & Hq).
  pose proof (view_peer_id _ s Hq) as Hq'. congruence.
Qed.

(** ** What an operator does *)

(** The peer's store is lost for too long, or going away. *)
Definition unhealthy v (id : Z) : Prop :=
  ∃ s, v_GetStore v id = Some s ∧
    (MaxStoreDownTime (opt_cfg (v_opt v)) ≤ DownTime now s ∨ IsUp (v_heap v) s = false).

(** A peer too many, or one that never caught up on an unhealthy store. *)
Definition may_remove v region (id : Z) : Prop :=
  opt_MaxReplicas (v_opt v) < Z.of_nat (length (GetPeers region)) ∨
  unhealthy v id ∧ ∃ p, p ∈ GetPeers region ∧ Peer_StoreId p = id ∧ is_Some (GetPendingPeer region (Peer_Id p)).

(** The new store is at a better location with respect to the other peers. *)
Definition relocates v region (old new : Z) : Prop :=
  ∃ so sn, v_GetPeerStore v old = Some so ∧ v_GetPeerStore v new = Some sn ∧
    f64_leb (score_in v (Region.Clone region [WithRemoveStorePeer old]) sn) (score_in v region so) = false.

Inductive replica_change v region : list OperatorStep → Prop :=
| change_add new l steps : good_target v region new →
    Z.of_nat (length (stores region)) < opt_MaxReplicas (v_opt v) →
    exec_safe (length (stores region)) steps (voters_of region)
      (mkPlacement ({[new]} ∪ list_to_set (stores region)) ∅ l) →
    replica_change v region steps
| change_remove old l steps : old ∈ stores region → may_remove v region old →
    exec_safe (length (stores region) - 1) steps (voters_of region)
      (mkPlacement (list_to_set (stores region) ∖ {[old]}) ∅ l) → l ≠ old →
    replica_change v region steps
| change_move old new l steps : old ∈ stores region → good_target v region new →
    unhealthy v old ∨ relocates v region old new →
    exec_safe (length (stores region)) steps (voters_of region)
      (mkPlacement (({[new]} ∪ list_to_set (stores region)) ∖ {[old]}) ∅ l) → l ≠ old →
    replica_change v region steps.

(** A proposed operator is for the region as it was seen. *)
Definition proposes v region (op : Operator) : Prop :=
  op_regionID op = GetID region ∧ op_regionEpoch op = GetRegionEpoch region ∧ replica_change v region (op_steps op).

Section region.
Variable region : RegionInfo.
Hypothesis Hpr : plain_region region.
Hypothesis Hids : is_FollowerIDs region (followerIDs region).

Lemma length_stores : length (stores region) = length (GetPeers region).
Proof. unfold stores. by rewrite length_fmap. Qed.

Lemma peer_on_store p : p ∈ GetPeers region → Peer_StoreId p ∈ stores region.
Proof. intros Hp. unfold stores. rewrite list_elem_of_fmap. by exists p. Qed.

Lemma remove_op_yields c desc old : old ∈ stores region → may_remove (view c) region old →
  yields (remove_op now followerIDs desc region old) c (proposes (view c) region).
Proof.
  intros Hold Hmay. apply yields_or_nil; cbn; [done| |].
  - intros msg. unfold CreateRemovePeerOperator, removePeerSteps. repeat case_match; congruence.
  - intros op Hop. destruct (remove_peer_safe desc region (followerIDs region) Hpr Hids c _ _ _ _ Hold Hop) as (l & Hex & Hl).
    split_and!; [| |by eapply change_remove]; revert Hop; unfold CreateRemovePeerOperator; case_match; intros Hop; by simplify_eq; case_match; simplify_eq.
Qed.

(** The operator moves the peer on [old] to [new]. *)
Definition moves_peer (old new : Z) (op : Operator) : Prop :=
  op_regionID op = GetID region ∧ op_regionEpoch op = GetRegionEpoch region ∧
  ∃ l, exec_safe (length (stores region)) (op_steps op) (voters_of region)
         (mkPlacement (({[new]} ∪ list_to_set (stores region)) ∖ {[old]}) ∅ l) ∧ l ≠ old.

Lemma move_op_moves c desc kind old new : old ∈ stores region → new ∉ stores region →
  yields (move_op now followerIDs desc kind region old new) c (moves_peer old new).
Proof.
  intros Hold Hn. unfold move_op. eapply yields_bind; [apply yields_alloc|intros; apply yields_none|].
  intros c1 p Hv Hp. apply yields_or_nil; cbn; [done| |].
  - intros msg. unfold CreateMovePeerOperator, removePeerSteps. repeat case_match; congruence.
  - rewrite Hp. intros op Hop.
    destruct (move_peer_safe desc region (followerIDs region) Hpr Hids c1 _ _ _ _ _ _ Hold Hn Hop) as (l & Hex & Hl).
    split_and!; [| |by exists l]; revert Hop; unfold CreateMovePeerOperator; case_match; intros Hop; by simplify_eq; case_match; simplify_eq.
Qed.

Lemma move_op_yields c desc kind old new : old ∈ stores region → good_target (view c) region new →
  unhealthy (view c) old ∨ relocates (view c) region old new →
  yields (move_op now followerIDs desc kind region old new) c (proposes (view c) region).
Proof.
  intros Hold Hnew Hwhy. assert (Hn : new ∉ stores region) by by destruct Hnew as (? & ? & ? & _).
  eapply yields_mono; [by apply (move_op_moves c desc kind old new)|]. intros op (Hid & He & l & Hex & Hl).
  split_and!; [done..|]. by eapply change_move.
Qed.

Lemma fixPeer_yields c `{!ValidView (view c)} i p status : p ∈ GetPeers region → unhealthy (view c) (Peer_StoreId p) →
  yields (fixPeer now call range followerIDs classified i region p status) c (proposes (view c) region).
Proof.
  intros Hp Hun. pose proof (peer_on_store p Hp) as Hold. unfold fixPeer, yields.
  destruct (Z.ltb_spec (opt_MaxReplicas (v_opt (view c))) (Z.of_nat (length (GetPeers region)))) as [Hmax|Hmax].
  { apply (remove_op_yields c); [done|]. by left. }
  case_bool_decide as Hpend; [apply (remove_op_yields c); [done|]; right; eauto|].
  destruct (SelectBestReplacementStore _ _ _ _ _ _ _ _ _) as [id score] eqn:Esel.
  destruct (Z.eqb_spec id 0) as [->|Hne]; [by apply (yields_none c)|].
  apply (replacement_spec c) in Esel as [Hgood _]; [|done]. apply (move_op_yields c); [done..|]. by left.
Qed.

(** Down peers that a heartbeat reports are peers of the region. *)
Definition reported : Prop := ∀ stats p, stats ∈ GetDownPeers region → PeerStats_Peer stats = Some p → p ∈ GetPeers region.

Lemma down_peer_spec c downs p : down_peer now c downs = Some p →
  (∃ stats, stats ∈ downs ∧ PeerStats_Peer stats = Some p) ∧ unhealthy (view c) (Peer_StoreId p).
Proof.
  induction downs as [|stats downs IH]; cbn [down_peer]; [done|].
  assert (Hrec : down_peer now c downs = Some p → (∃ stats', stats' ∈ stats :: downs ∧ PeerStats_Peer stats' = Some p) ∧
    unhealthy (view c) (Peer_StoreId p)).
  { intros [(st & ? & ?) ?]%IH. split; [|done]. exists st. split; [by right|done]. }
  destruct (PeerStats_Peer stats) as [q|] eqn:Eq; [|done].
  destruct (v_GetStore (view c) (Peer_StoreId q)) as [s|] eqn:Es; [|done]. cbn zeta.
  destruct (Z.ltb_spec (DownTime now s) (MaxStoreDownTime (opt_cfg (v_opt (view c))))); [done|].
  destruct (_ <? _); [done|]. intros [= ->]. split; [exists stats; split; [by left|done]|]. exists s. auto.
Qed.

Lemma checkDownPeer_yields c `{!ValidView (view c)} : reported →
  yields (checkDownPeer now call range followerIDs classified region) c (proposes (view c) region).
Proof.
  intros Hrep. unfold checkDownPeer, yields. destruct (DisableRemoveDownReplica _); [by apply (yields_none c)|].
  destruct (down_peer now c (GetDownPeers region)) as [p|] eqn:Ep; [|by apply (yields_none c)].
  apply down_peer_spec in Ep as [(stats & Hst & Hp) Hun]. apply (fixPeer_yields c); [by eapply Hrep|done].
Qed.

Lemma offline_peer_spec c peers p : offline_peer c peers = Some p → p ∈ peers ∧ unhealthy (view c) (Peer_StoreId p).
Proof.
  induction peers as [|q peers IH]; cbn [offline_peer]; [done|].
  destruct (v_GetStore (view c) (Peer_StoreId q)) as [s|] eqn:Es; [|done].
  destruct (IsUp (v_heap (view c)) s) eqn:Eu; [intros [? ?]%IH; split; [by right|done]|].
  intros [= ->]. split; [by left|]. exists s. auto.
Qed.

Lemma checkOfflinePeer_yields c `{!ValidView (view c)} :
  yields (checkOfflinePeer now call range followerIDs classified region) c (proposes (view c) region).
Proof.
  unfold checkOfflinePeer, yields. destruct (DisableReplaceOfflineReplica _); [by apply (yields_none c)|].
  destruct (negb _); [by apply (yields_none c)|].
  destruct (offline_peer c (GetPeers region)) as [p|] eqn:Ep; [|by apply (yields_none c)].
  apply offline_peer_spec in Ep as [Hp Hun]. by apply (fixPeer_yields c).
Qed.

(** The operator moves a peer to a better location. *)
Definition relocates_peer c (op : Operator) : Prop :=
  ∃ old new, old ∈ stores region ∧ good_target (view c) region new ∧ relocates (view c) region old new ∧ moves_peer old new op.

Lemma checkBestReplacement_moves c `{!ValidView (view c)} :
  yields (checkBestReplacement now call range followerIDs classified region) c (relocates_peer c).
Proof.
  unfold checkBestReplacement, yields. destruct (DisableLocationReplacement _); [by apply (yields_none c)|].
  destruct (selectWorstPeer now call c region) as [[p|] oldScore] eqn:Ew; [|by apply (yields_none c)].
  apply (worst_spec c) in Ew as (Hp & so & _ & Hso & ->).
  destruct (SelectBestReplacementStore _ _ _ _ _ _ _ _ _) as [id newScore] eqn:Esel.
  destruct (Z.eqb_spec id 0) as [->|Hne]; [by apply (yields_none c)|].
  apply (replacement_spec c) in Esel as (Hgood & sn & Hsn & ->); [|done].
  destruct (f64_leb _ _) eqn:Ele; [by apply (yields_none c)|]. pose proof (peer_on_store p Hp) as Hold.
  assert (Hn : id ∉ stores region) by by destruct Hgood as (? & ? & ? & _).
  eapply (yields_mono (move_op _ _ _ _ _ _ _) c); [by apply (move_op_moves c)|]. intros op Hop.
  exists (Peer_StoreId p), id. split_and!; [done..| |done]. exists so, sn.
  split_and!; [done|by eapply lookup_weaken, view_peer_stores|done].
Qed.

Lemma checkBestReplacement_yields c `{!ValidView (view c)} :
  yields (checkBestReplacement now call range followerIDs classified region) c (proposes (view c) region).
Proof.
  eapply yields_mono; [by apply (checkBestReplacement_moves c)|]. intros op (old & new & Hold & Hgood & Hr & Hid & He & l & Hex & Hl).
  split_and!; [done..|]. eapply change_move; [done..|by right|done|done].
Qed.

Lemma make_up_yields c `{!ValidView (view c)} : Z.of_nat (length (GetPeers region)) < opt_MaxReplicas (v_opt (view c)) →
  yields (make_up now call range classified region) c (proposes (view c) region).
Proof.
  intros Hlt. unfold make_up. eapply (yields_bind _ _ c (λ p, good_target (view c) region (Peer_StoreId p))).
  - unfold selectBestPeerToAddReplica, yields. destruct (selectBestStoreToAddReplica _ _ _ _ _ _ _ _) as [id score] eqn:Esel.
    destruct (Z.eqb_spec id 0) as [->|Hne]; [by apply (yields_none c)|].
    apply (selectBest_good c) in Esel; [|done]. eapply (yields_mono (or_nil _) c _ _ (yields_alloc c _)). by intros p ->.
  - intros. apply yields_none.
  - intros c1 p Hv Hgood. apply (yields_some c1). split_and!; [done..|].
    assert (Hn : Peer_StoreId p ∉ stores region) by by destruct Hgood as (? & ? & ? & _).
    eapply change_add; [exact Hgood|by rewrite length_stores|].
    exact (add_peer_safe region (followerIDs region) Hpr Hids c1 _ (Peer_Id p) Hn).
Qed.

Lemma check_number_yields c `{!ValidView (view c)} :
  yields (check_number now call range followerIDs classified region) c (proposes (view c) region).
Proof.
  unfold check_number, yields. cbn zeta.
  destruct (Z.ltb_spec (Z.of_nat (length (GetPeers region))) (opt_MaxReplicas (v_opt (view c)))) as [Hlt|Hge];
    destruct (DisableMakeUpReplica _); cbn [andb negb]; try (by apply (make_up_yields c));
    destruct (Z.ltb_spec (opt_MaxReplicas (v_opt (view c))) (Z.of_nat (length (GetVoters region)))) as [Hgt|Hle];
    destruct (DisableRemoveExtraReplica _); cbn [andb negb]; try apply (checkBestReplacement_yields c).
  all: destruct (selectWorstPeer now call c region) as [[p|] score] eqn:Ew; [|by apply (yields_none c)].
  all: apply (worst_spec c) in Ew as [Hp _]; apply (remove_op_yields c); [by apply peer_on_store|left].
  all: by rewrite <-(pr_voters _ Hpr).
Qed.
End region.

Lemma replica_check_yields c `{!ValidView (view c)} region :
  plain_region region → is_FollowerIDs region (followerIDs region) → reported region →
  ∃ c' r, replica_Check now call range followerIDs classified region c = (c', inr r) ∧ view c' = view c ∧
    ∀ op, r = Some op → proposes (view c) region op.
Proof.
  intros Hpr Hids Hrep. apply (yields_bind _ _ c _ _ (checkDownPeer_yields region Hpr Hids c Hrep)).
  2:{ intros c1 op Hv Hop. by apply (yields_some c1 (SetPriorityLevel HighPriority op)). }
  intros c1 Hv1. rewrite <-Hv1 in *. apply (yields_bind _ _ c1 _ _ (checkOfflinePeer_yields region Hpr Hids c1)).
  2:{ intros c2 op Hv Hop. by apply (yields_some c2 (SetPriorityLevel HighPriority op)). }
  intros c2 Hv2. rewrite <-Hv2 in *. by apply check_number_yields.
Qed.

(** C4: The replica checker.  On a region without learners whose leader is one of
    its peers it always returns, allocates at most ids, and an operator it
    proposes is for the region's epoch and either adds a peer, when there are
    fewer than wanted, on a store that is up, healthy, has space and no peer of
    the region; or removes a peer, when there are more than wanted or the peer is
    pending on an unhealthy store; or replaces a peer that is on an unhealthy
    store or at a worse location by one on such a store.  All its steps are
    accepted, the leader is never removed, and adding or replacing never leaves
    fewer voters than before. *)
Theorem replica_check_safe c `{!ValidView (view c)} region :
  plain_region region → is_FollowerIDs region (followerIDs region) → reported region →
  ∃ c' r, replica_Check now call range followerIDs classified region c = (c', inr r) ∧ view c' = view c ∧
    ∀ op, r = Some op → proposes (view c) region op.
Proof. intros; by apply replica_check_yields. Qed.
End props.

(** ** Making up for missing replicas *)

Section progress.
Context `{!Unicode} `{!Classifier}.
Context {C : Type} `{!Cluster C, !ScheduleCluster C, !ScheduleClusterLaws C}.
Variables (now : Z) (call : nat → bool).
Variable range : nat → list StoreInfo → list StoreInfo.
Variable followerIDs : RegionInfo → list Z.
Variable classified : bool.
Hypothesis Hrange : ∀ i l, range i l ≡ₚ l.
Implicit Types (c : C) (region : RegionInfo).

Lemma good_target_passes c `{!ValidView (view c)} region id : good_target now call classified (view c) region id →
  ∃ s, v_GetStore (view c) id = Some s ∧
  FilterTarget (v_heap (view c)) now call (v_opt (view c)) s (add_filters classified [storageThresholdFilter] region) = false.
Proof.
  intros (s & Hs & Hn & Hup & Hlow & Hh & Hsn & Hp & Ho & Hns). exists s. split; [done|].
  unfold add_filters, replica_filters. rewrite !FilterTarget_app. cbn. rewrite Hlow, Ho, Hh, Hsn, Hup, Hp. cbn.
  pose proof (view_store_id (view c) id s Hs) as ->. rewrite bool_decide_eq_false_2 by by rewrite elem_of_store_ids.
  destruct classified; [|done]. cbn. rewrite Hns by done. by rewrite bool_decide_eq_true_2.
Qed.

Lemma selectBest_finds c `{!ValidView (view c)} i region id : good_target now call classified (view c) region id →
  (∀ id s, v_GetStore (view c) id = Some s → id ≠ 0) →
  ∃ id' score, selectBestStoreToAddReplica now call range classified c i region [storageThresholdFilter] = (id', score) ∧ id' ≠ 0.
Proof.
  intros Hgood Hzero. destruct (good_target_passes c region id Hgood) as (s & Hs & Hpass). unfold selectBestStoreToAddReplica. cbn zeta.
  assert (Hin : s ∈ cl_GetStores range c i).
  { unfold cl_GetStores, stores_GetStores. rewrite Hrange, list_elem_of_fmap. exists (id, s). split; [done|by apply elem_of_map_to_list]. }
  destruct (Replica_SelectTarget _ _ _ _ _ _ _) as [b|] eqn:Eb.
  - apply select_target_elem in Eb as [Hb _]. eexists _, _. split; [reflexivity|]. apply (Hzero _ b). exact (elem_of_cl_stores range Hrange c i b Hb).
  - exfalso. unfold Replica_SelectTarget in Eb. destruct (best_by _ _ _) as [b|] eqn:Eb'.
    + apply best_by_elem in Eb' as [_ Hb]. cbn [mbind option_bind rs_filters] in Eb. unfold add_filters in Hb.
      rewrite !FilterTarget_app, !orb_false_iff in Hb. destruct Hb as (_ & Hown & _). by rewrite Hown in Eb.
    + pose proof (proj1 (best_by_None _ _ _) Eb' s Hin) as Hskip. cbn beta in Hskip. congruence.
Qed.

Lemma no_unhealthy_no_fix c `{!ValidView (view c)} region :
  (∀ p, p ∈ GetPeers region → ¬ unhealthy now (view c) (Peer_StoreId p)) → reported region →
  checkDownPeer now call range followerIDs classified region c = (c, inr None) ∧
  checkOfflinePeer now call range followerIDs classified region c = (c, inr None).
Proof.
  intros Hup Hrep. unfold checkDownPeer, checkOfflinePeer. split.
  - destruct (DisableRemoveDownReplica _); [done|]. destruct (down_peer _ _ _) as [p|] eqn:Ep; [|done].
    apply down_peer_spec in Ep as [(stats & Hst & Hp) Hun]. by destruct (Hup p (Hrep stats p Hst Hp)).
  - destruct (DisableReplaceOfflineReplica _); [done|]. destruct (negb _); [done|]. destruct (offline_peer _ _) as [p|] eqn:Ep; [|done].
    apply (offline_peer_spec now) in Ep as [Hp Hun]. by destruct (Hup p Hp).
Qed.

(** C30: A region that misses replicas gets one.  If making up for replicas is
    enabled, no peer of the region is on an unhealthy store, the region has fewer
    peers than wanted, some store may take a peer and ids can be allocated, the
    checker proposes an operator for the region, as it was seen, that adds a peer
    on a store that may take one, as a learner first if the cluster has
    learners. *)
Theorem missing_replica_made_up c `{!ValidView (view c)} region id :
  (∀ p, p ∈ GetPeers region → ¬ unhealthy now (view c) (Peer_StoreId p)) → reported region →
  Z.of_nat (length (GetPeers region)) < opt_MaxReplicas (v_opt (view c)) →
  DisableMakeUpReplica (opt_cfg (v_opt (view c))) = false →
  good_target now call classified (view c) region id →
  (∀ id s, v_GetStore (view c) id = Some s → id ≠ 0) →
  (∀ id, ∃ c' p, AllocPeer id c = (c', inr p)) →
  ∃ c' op new peer, replica_Check now call range followerIDs classified region c = (c', inr (Some op)) ∧
    op_desc op = "make-up-replica"%string ∧ op_regionID op = GetID region ∧ op_regionEpoch op = GetRegionEpoch region ∧
    good_target now call classified (view c) region new ∧
    op_steps op = if IsRaftLearnerEnabled c' then [AddLearner new peer; PromoteLearner new peer] else [AddPeer new peer].
Proof.
  intros Hup Hrep Hlt Hen Hgood Hzero Halloc. destruct (no_unhealthy_no_fix c region Hup Hrep) as [Hdown Hoff].
  unfold replica_Check. rewrite M_bind_eq, Hdown. rewrite M_bind_eq, Hoff.
  unfold check_number. cbn zeta. rewrite (proj2 (Z.ltb_lt _ _) Hlt), Hen. cbn [andb negb].
  destruct (selectBest_finds c 2 region id Hgood Hzero) as (id' & score & Hsel & Hne).
  pose proof (selectBest_good now call range classified Hrange c 2 region id' score Hsel Hne) as Hnew. apply Z.eqb_neq in Hne.
  destruct (Halloc id') as (c' & p & Hal). unfold make_up. rewrite M_bind_eq. unfold selectBestPeerToAddReplica.
  rewrite Hsel, Hne. unfold or_nil. rewrite Hal. destruct (AllocPeer_peer c id' p) as [Hp _]; [by rewrite Hal|]. rewrite <-Hp in Hnew.
  eexists _, _, _, (Peer_Id p). split_and!; [reflexivity|done..|exact Hnew|reflexivity].
Qed.
End progress.

(** ** Merging *)

Section merge.
Context `{!Unicode} `{!Classifier}.
Context {C : Type} `{!Cluster C, !ScheduleCluster C, !ScheduleClusterLaws C}.
Variable now : Z.
Implicit Types (c : C) (v : View) (region a : RegionInfo).

(** A neighbour that the region may be merged into. *)
Definition mergeable v region a : bool :=
  negb (v_IsRegionHot v (GetID a)) && AllowMerge region a && no_special_peer a &&
  (Z.of_nat (length (GetPeers a)) =? opt_MaxReplicas (v_opt v)).

Definition eligible v region (a : option RegionInfo) : option RegionInfo :=
  a ← a; if mergeable v region a then Some a else None.

Lemma checkTarget_None c region (a : option RegionInfo) : checkTarget c region a None = eligible (view c) region a.
Proof.
  destruct a as [a|]; [|done]. unfold checkTarget, eligible, mergeable. cbn [mbind option_bind].
  destruct (_ && no_special_peer a); cbn [andb]; [|done]. by destruct (_ =? _).
Qed.

Lemma merge_target_eq c region : merge_target c region =
  let '(prev, next) := v_GetAdjacentRegions (view c) region in
  if EnableOneWayMerge (opt_cfg (v_opt (view c))) then eligible (view c) region next else eligible (view c) region prev.
Proof.
  unfold merge_target. destruct (v_GetAdjacentRegions (view c) region) as [prev next]. cbn zeta. rewrite !checkTarget_None.
  destruct (EnableOneWayMerge _); [|by rewrite andb_false_r]. rewrite andb_true_r. case_bool_decide as Hne; [done|].
  by destruct (decide (eligible (view c) region prev = eligible (view c) region next)).
Qed.

(** Which neighbour a region is merged into.  Without one-way merge it is the
    previous one or none: the next neighbour is never chosen, neither when the
    previous one may not be merged into nor when it is smaller; with one-way merge
    it is the next one or none. *)
Theorem merge_target_choice c region prev next :
  v_GetAdjacentRegions (view c) region = (prev, next) →
  (EnableOneWayMerge (opt_cfg (v_opt (view c))) = false →
     (∀ p, prev = Some p → mergeable (view c) region p = true → merge_target c region = Some p) ∧
     ((∀ p, prev = Some p → mergeable (view c) region p = false) → merge_target c region = None)) ∧
  (EnableOneWayMerge (opt_cfg (v_opt (view c))) = true →
     (∀ n, next = Some n → mergeable (view c) region n = true → merge_target c region = Some n) ∧
     ((∀ n, next = Some n → mergeable (view c) region n = false) → merge_target c region = None)).
Proof.
  intros Hadj. rewrite !merge_target_eq, Hadj. split; intros ->; (split; [intros ? -> Hm; cbn; by rewrite Hm|]).
  - intros Hm. destruct prev as [p|]; [|done]. cbn. by rewrite Hm.
  - intros Hm. destruct next as [p|]; [|done]. cbn. by rewrite Hm.
Qed.

Lemma alloc_add_steps_view s c : view (alloc_add_steps s c).1 = view c.
Proof. unfold alloc_add_steps. rewrite <-(AllocPeer_view c s). by destruct (AllocPeer s c) as [? [?|?]]. Qed.

Lemma match_adds_view I l : ∀ toAdds tl kind c, view (match_adds I l toAdds tl kind c).1 = view c.
Proof.
  induction l as [|p l IH]; intros toAdds tl kind c; cbn [match_adds]; [done|]. destruct (decide _); [apply IH|].
  rewrite M_bind_eq. pose proof (alloc_add_steps_view (Peer_StoreId p) c) as Hv.
  destruct (alloc_add_steps (Peer_StoreId p) c) as [c1 [?|?]]; [done|]. by rewrite IH.
Qed.

Lemma merge_op_view desc source target kind order c :
  view (CreateMergeRegionOperator desc source target kind order now c).1 = view c.
Proof.
  assert (Hm : view (matchPeerSteps source target order c).1 = view c).
  { unfold matchPeerSteps. destruct (negb _); [done|]. rewrite M_bind_eq.
    pose proof (match_adds_view (getIntersectionStores (GetPeers source) (GetPeers target)) (GetPeers target) [] 0 0 c) as Hv.
    by destruct (match_adds _ _ _ _ _ c) as [c1 [?|[[? ?] ?]]]. }
  unfold CreateMergeRegionOperator. rewrite M_bind_eq. by destruct (matchPeerSteps _ _ _ c) as [? [?|[? ?]]].
Qed.

(** The two operators of a merge: the region's peers move to the target's stores,
    then both regions are told to merge. *)
Definition merges region target (ops : list Operator) : Prop :=
  ∃ op op' steps l, ops = [op; op'] ∧
    op_regionID op = GetID region ∧ op_regionEpoch op = GetRegionEpoch region ∧
    op_regionID op' = GetID target ∧ op_regionEpoch op' = GetRegionEpoch target ∧
    op_steps op = steps ++ [MergeRegion (GetMeta region) (GetMeta target) false] ∧
    op_steps op' = [MergeRegion (GetMeta region) (GetMeta target) true] ∧
    exec_safe (length (stores region)) steps (voters_of region) (mkPlacement (list_to_set (stores target)) ∅ l) ∧
    l ∈ stores target.

Lemma merge_check_yields c region splitCache order :
  (∀ t, merge_target c region = Some t → matchable region t (order t)) →
  ∃ c' r, merge_Check now splitCache order region c = (c', inr r) ∧ view c' = view c ∧
    ∀ ops, r = Some ops → merge_candidate now c splitCache region = true ∧
      ∃ t, merge_target c region = Some t ∧ mergeable (view c) region t = true ∧ merges region t ops.
Proof.
  intros Hma. change (yields (merge_Check now splitCache order region) c (λ ops, merge_candidate now c splitCache region = true ∧
      ∃ t, merge_target c region = Some t ∧ mergeable (view c) region t = true ∧ merges region t ops)).
  unfold merge_Check, yields. destruct (merge_candidate now c splitCache region) eqn:Hcand; [|by apply (yields_none c)].
  destruct (merge_target c region) as [t|] eqn:Et; [|by apply (yields_none c)]. specialize (Hma t eq_refl).
  assert (Hm : mergeable (view c) region t = true).
  { rewrite merge_target_eq in Et. destruct (v_GetAdjacentRegions _ _) as [[p|] [n|]], (EnableOneWayMerge _); cbn in Et;
      try done; destruct (mergeable _ _ _) eqn:?; by simplify_eq. }
  assert (Hlen : length (stores region) = length (stores t)).
  { unfold mergeable in Hm. unfold merge_candidate in Hcand. rewrite !andb_true_iff, ?Z.eqb_eq in *. unfold stores.
    rewrite !length_fmap. lia. }
  pose proof (matchPeerSteps_correct region t (order t) c Hma Hlen) as Hspec.
  apply (yields_or_nil _ c); [apply merge_op_view|..]; unfold CreateMergeRegionOperator; rewrite M_bind_eq;
    destruct (matchPeerSteps region t (order t) c) as [c1 [err|[steps k]]]; cbn.
  - destruct Hspec as (s & c2 & c3 & Hal). intros msg [= ->]. by apply (AllocPeer_error c2 s msg); rewrite Hal.
  - done.
  - done.
  - intros ops [= <-]. split; [done|]. exists t. split_and!; [done..|]. destruct Hspec as (l & Hex & Hl).
    eexists _, _, steps, l. by split_and!.
Qed.

(** C31: The merge checker.  It always returns and allocates at most ids.  What it
    proposes is to merge a region that is small, whole and neither hot nor split
    lately, into a whole neighbour that is not hot either and has as many peers,
    as many as wanted; first the region's peers move to the neighbour's stores,
    never fewer voters than before and the leader never removed, then both
    regions are told to merge. *)
Theorem merge_check_correct c region splitCache order :
  (∀ t, merge_target c region = Some t → matchable region t (order t)) →
  ∃ c' r, merge_Check now splitCache order region c = (c', inr r) ∧ view c' = view c ∧
    ∀ ops, r = Some ops → merge_candidate now c splitCache region = true ∧
      ∃ t, merge_target c region = Some t ∧ mergeable (view c) region t = true ∧ merges region t ops.
Proof. intros; by apply merge_check_yields. Qed.
End merge.

(** ** Namespaces *)

Section namespaces.
Context `{!Unicode} `{!Classifier}.
Context {C : Type} `{!Cluster C, !ScheduleCluster C, !ScheduleClusterLaws C}.
Variables (now : Z) (call : nat → bool).
Variable range : nat → list StoreInfo → list StoreInfo.
Variable followerIDs : RegionInfo → list Z.
Variable classified : bool.
Hypothesis Hrange : ∀ i l, range i l ≡ₚ l.
Implicit Types (c : C) (v : View) (region : RegionInfo).

Definition in_namespace v region (id : Z) : Prop :=
  ∃ s, v_GetStore v id = Some s ∧ GetStoreNamespace (v_heap v) s = GetRegionNamespace region.

Lemma elem_of_namespace_stores c `{!ValidView (view c)} i region s : s ∈ getNamespaceStores now call range c i region ↔
  v_GetStore (view c) (store_GetID (v_heap (view c)) s) = Some s ∧
  GetStoreNamespace (v_heap (view c)) s = GetRegionNamespace region.
Proof.
  unfold getNamespaceStores. cbn zeta. rewrite list_elem_of_filter. cbn. rewrite orb_false_r, negb_false_iff, bool_decide_eq_true.
  split; [intros [? Hs]; split; [by eapply (elem_of_cl_stores range Hrange c)|done]|]. intros [Hs ?]. split; [done|].
  unfold cl_GetStores, stores_GetStores. rewrite Hrange, list_elem_of_fmap. eexists (_, s). split; [done|].
  by apply elem_of_map_to_list.
Qed.

Lemma relocate_spec c `{!ValidView (view c)} rand region id : SelectBestStoreToRelocate now call c rand region
    (getNamespaceStores now call range c 0 region) = id → id ≠ 0 →
  (id ∉ stores region) ∧ in_namespace (view c) region id ∧
  ∃ s, v_GetStore (view c) id = Some s ∧ state_FilterTarget (v_heap (view c)) now call false true (v_opt (view c)) s = false.
Proof.
  unfold SelectBestStoreToRelocate, Random_SelectTarget, randStore. cbn zeta.
  destruct (_ !! _) as [s|] eqn:Es; [|by intros <-]. intros <- _.
  apply list_elem_of_lookup_2, list_elem_of_filter in Es as [Hf Hs]. apply (elem_of_namespace_stores c) in Hs as [Hs Hn].
  rewrite FilterTarget_app, orb_false_iff in Hf. destruct Hf as [Hx Hst]. cbn in Hx, Hst.
  rewrite orb_false_r, bool_decide_eq_false, elem_of_store_ids in Hx. rewrite orb_false_r in Hst.
  split_and!; [done|by exists s|by exists s].
Qed.

Lemma namespace_check_yields c `{!ValidView (view c)} region rand regionFilters rules user :
  plain_region region → is_FollowerIDs region (followerIDs region) →
  (if (length regionFilters =? 0)%nat then inr false else user_region (view c) regionFilters rules region) = inr user →
  ∃ c' r, namespace_Check now call range followerIDs classified rand regionFilters rules region c = (c', inr r) ∧
    view c' = view c ∧
    ∀ op, r = Some op → user = false ∧ ∃ old new, old ∈ stores region ∧ ¬ in_namespace (view c) region old ∧
      (new ∉ stores region) ∧ in_namespace (view c) region new ∧
      (∃ s, v_GetStore (view c) new = Some s ∧ state_FilterTarget (v_heap (view c)) now call false true (v_opt (view c)) s = false) ∧
      moves_peer region old new op.
Proof.
  intros Hpr Hids Huser. unfold namespace_Check. cbn zeta. rewrite Huser.
  destruct (DisableNamespaceRelocation _); [by apply (yields_none c)|]. destruct user; [by apply (yields_none c)|].
  destruct (_ || _); [by apply (yields_none c)|]. destruct (length (getNamespaceStores now call range c 0 region) =? 0)%nat; [by apply (yields_none c)|].
  destruct (find_first _ (GetPeers region)) as [p|] eqn:Ep; [|by apply (yields_none c)].
  apply find_first_Some in Ep as [Hp Hout]. apply negb_true_iff in Hout.
  destruct (Z.eqb_spec (SelectBestStoreToRelocate now call c rand region (getNamespaceStores now call range c 0 region)) 0) as [|Hne];
    [by apply (yields_none c)|].
  destruct (relocate_spec c rand region _ eq_refl Hne) as (Hnew & Hns & Hfit).
  assert (Hold : Peer_StoreId p ∈ stores region) by (unfold stores; rewrite list_elem_of_fmap; by exists p).
  eapply (yields_mono _ c _ _ (move_op_moves now followerIDs region Hpr Hids c _ _ _ _ Hold Hnew)). intros op Hop.
  split; [done|]. eexists _, _. split_and!; [exact Hold| |exact Hnew|exact Hns|exact Hfit|exact Hop].
  intros (s & Hs & Heq). apply not_true_iff_false in Hout. apply Hout, existsb_exists. exists s.
  pose proof (view_store_id (view c) _ s Hs) as Hid. split; [|by apply Z.eqb_eq]. apply list_elem_of_In, (elem_of_namespace_stores c).
  by rewrite Hid.
Qed.

(** The namespace checker.  It leaves the regions of active user rules alone;
    otherwise it always returns, and an operator it proposes moves a peer that is
    on no store of the region's namespace to a store of the namespace that is fit
    for it and has no peer of the region, never with fewer voters than before. *)
Theorem namespace_check_correct c `{!ValidView (view c)} region rand regionFilters rules user :
  plain_region region → is_FollowerIDs region (followerIDs region) →
  (if (length regionFilters =? 0)%nat then inr false else user_region (view c) regionFilters rules region) = inr user →
  ∃ c' r, namespace_Check now call range followerIDs classified rand regionFilters rules region c = (c', inr r) ∧
    view c' = view c ∧
    ∀ op, r = Some op → user = false ∧ ∃ old new, old ∈ stores region ∧ ¬ in_namespace (view c) region old ∧
      (new ∉ stores region) ∧ in_namespace (view c) region new ∧
      (∃ s, v_GetStore (view c) new = Some s ∧ state_FilterTarget (v_heap (view c)) now call false true (v_opt (view c)) s = false) ∧
      moves_peer region old new op.
Proof. intros; by apply namespace_check_yields. Qed.
End namespaces.

(** ** Examples *)

Module CheckersDemo.
Import Latin.

(** Five stores in two zones; the last one belongs to another namespace, as does
    region 9. *)
Definition ns1 : bytes := str "ns1".
#[export] Instance classifier : Classifier := {|
  GetAllNamespaces := [DefaultNamespace; ns1];
  GetStoreNamespace h s := if store_GetID h s =? 5 then ns1 else DefaultNamespace;
  GetRegionNamespace r := if GetID r =? 9 then ns1 else DefaultNamespace;
  IsNamespaceExist name := bool_decide (name ∈ [DefaultNamespace; ns1]);
  AllowMerge _ _ := true;
|}.
Definition h : heap := <[5%positive := ScheduleDemo.meta 5 "z2" "h5"]> ScheduleDemo.h.
Definition all : StoresInfo := list_to_map (M := gmap Z StoreInfo)
  ((λ l, (Z.pos l, ScheduleDemo.store l)) <$> [1; 2; 3; 4; 5]%positive).

Definition region (id : Z) (start stop : bytes) (on : list Z) : RegionInfo :=
  let peers := (λ s, mkPeer (10 * id + s) s false) <$> on in
  NewRegionInfo (mkRegion id start stop (Some (mkRegionEpoch 1 1)) peers) (head peers) [SetApproximateSize 10].
Definition left_ : RegionInfo := region 1 (str "") (str "b") [1; 2; 4].
Definition mid : RegionInfo := region 2 (str "b") (str "c") [1; 2; 3].
Definition right_ : RegionInfo := region 3 (str "c") (str "d") [2; 3; 4].
Definition short : RegionInfo := region 4 (str "d") (str "e") [1; 2].
Definition foreign : RegionInfo := region 9 (str "e") (str "") [1; 2; 3].

Definition v : View := mkView h all all ScheduleDemo.opt (λ _, None) (λ _ _, Some []) (λ _ _, [])
  (λ r, if GetID r =? 2 then (Some left_, Some right_) else (None, None)) (λ _, false).

(** The state is the last id allocated. *)
Definition cluster := Z.
#[export] Instance ops : Cluster cluster := {
  IsRaftLearnerEnabled _ := true;
  CheckLabelProperty _ _ _ := false;
  GetStoreLabels _ id := store_GetLabels h <$> all !! id;
  AllocPeer s c := (c + 1, inr (mkPeer (c + 1) s false));
}.
#[export] Instance demo_view : ScheduleCluster cluster := {| view _ := v |}.
#[export] Instance demo_valid : ValidView v.
Proof.
  split; [|done]. change (map_Forall (λ id s, store_GetID h s = id) all). refine (bool_decide_unpack _ _). vm_compute. exact I.
Qed.
#[export] Instance demo_laws : ScheduleClusterLaws cluster.
Proof. split; try done. intros c s p Hp. cbn in Hp. by simplify_eq. Qed.

Definition ids (r : RegionInfo) : list Z := (map_to_list (GetFollowers r)).*1.
Lemma ids_ok r : is_FollowerIDs r (ids r).
Proof. unfold is_FollowerIDs, ids. reflexivity. Qed.
Definition order (i : nat) (l : list StoreInfo) : list StoreInfo := l.
Lemma order_ok i l : order i l ≡ₚ l.
Proof. done. Qed.
Definition quiet (f : nat) : bool := false.

Lemma ns_ok r id : GetRegionNamespace (Region.Clone r [WithRemoveStorePeer id]) = GetRegionNamespace r.
Proof. unfold GetRegionNamespace, classifier, GetID. unfold Region.Clone. by rewrite classifyVoterAndLearner_eq. Qed.

Ltac plain := split; [refine (bool_decide_unpack _ _); vm_compute; exact I|vm_compute; reflexivity|
  eexists; split; [reflexivity|left]].
Lemma plain_mid : plain_region mid.
Proof. plain. Qed.
Lemma plain_short : plain_region short.
Proof. plain. Qed.
Lemma plain_foreign : plain_region foreign.
Proof. plain. Qed.

Definition proposed {A} (r : cluster * result (option A)) : bool :=
  match r with (_, inr (Some _)) => true | _ => false end.

(** [mid] is moved out of its zone. *)
Lemma replica_check_safe_witness : ∃ op,
  (replica_Check 0 quiet order ids true mid 100).2 = inr (Some op) ∧ proposes 0 quiet true v mid op.
Proof.
  destruct (replica_check_safe 0 quiet order ids true order_ok ns_ok 100 mid plain_mid (ids_ok mid)) as (c' & r & E & _ & HQ).
  { intros stats p Hs. by apply not_elem_of_nil in Hs. }
  assert (Hsome : proposed (replica_Check 0 quiet order ids true mid 100) = true) by (vm_compute; reflexivity).
  rewrite E in Hsome |- *. destruct r as [op|]; [|discriminate Hsome]. exists op. split; [reflexivity|]. apply HQ. reflexivity.
Defined.

Lemma good_3 : good_target 0 quiet true v short 3.
Proof.
  exists (ScheduleDemo.store 3). split_and!; try (vm_compute; reflexivity).
  refine (bool_decide_unpack _ _). vm_compute. exact I.
Qed.

Lemma healthy_stores id : id ∈ stores short → ¬ unhealthy 0 v id.
Proof.
  intros Hid (s & Hs & Hor). revert Hid. assert (Hst : stores short = [1; 2]) by (vm_compute; reflexivity). rewrite Hst, !elem_of_cons.
  intros [->|[->|[]%not_elem_of_nil]]; vm_compute in Hs; injection Hs as <-; destruct Hor as [Hd|Hd]; vm_compute in Hd; congruence.
Qed.

(** [short] gets a third replica. *)
Lemma missing_replica_made_up_witness : ∃ c' op new peer,
  replica_Check 0 quiet order ids true short 100 = (c', inr (Some op)) ∧
  op_desc op = "make-up-replica"%string ∧ op_regionID op = GetID short ∧ op_regionEpoch op = GetRegionEpoch short ∧
  good_target 0 quiet true (view (C := cluster) 100) short new ∧
  op_steps op = if IsRaftLearnerEnabled c' then [AddLearner new peer; PromoteLearner new peer] else [AddPeer new peer].
Proof.
  refine (missing_replica_made_up 0 quiet order ids true order_ok 100 short 3 _ _ _ _ good_3 _ _).
  - intros p Hp. apply healthy_stores, list_elem_of_fmap. by exists p.
  - intros stats p Hs. by apply not_elem_of_nil in Hs.
  - vm_compute. reflexivity.
  - vm_compute. reflexivity.
  - intros id s Hs. change (v_GetStore v id = Some s) in Hs. revert id s Hs. unfold v_GetStore. change (v_stores v) with all.
    change (map_Forall (λ id _, id ≠ 0) all). refine (bool_decide_unpack _ _). vm_compute. exact I.
  - intros id. eexists _, _. reflexivity.
Defined.

(** Both neighbours of [mid] would do; it is merged into the previous one. *)
Lemma merge_target_choice_witness : merge_target (C := cluster) 100 mid = Some left_.
Proof.
  assert (Hadj : v_GetAdjacentRegions (view (C := cluster) 100) mid = (Some left_, Some right_)) by (vm_compute; reflexivity).
  destruct (merge_target_choice (C := cluster) 100 mid (Some left_) (Some right_) Hadj) as [Hprev _].
  apply Hprev; [reflexivity|reflexivity|vm_compute; reflexivity].
Defined.

Definition shared (t : RegionInfo) : list Z := elements (getIntersectionStores (GetPeers mid) (GetPeers t)).
Definition no_splits : Ttl.IDTTL := Ttl.NewIDTTL 60 60.

Lemma matchable_left : matchable mid left_ (shared left_).
Proof. split; [..|reflexivity]; try split; refine (bool_decide_unpack _ _); vm_compute; exact I. Qed.

Lemma merge_check_correct_witness : ∃ ops, (merge_Check (C := cluster) 0 no_splits shared mid 100).2 = inr (Some ops) ∧ merges mid left_ ops.
Proof.
  assert (Ht : merge_target (C := cluster) 100 mid = Some left_) by (vm_compute; reflexivity).
  destruct (merge_check_correct (C := cluster) 0 100 mid no_splits shared) as (c' & r & E & _ & HQ).
  { intros t. rewrite Ht. intros [= <-]. exact matchable_left. }
  assert (Hsome : proposed (merge_Check (C := cluster) 0 no_splits shared mid 100) = true) by (vm_compute; reflexivity).
  rewrite E in Hsome |- *. destruct r as [ops|]; [|discriminate Hsome]. exists ops. split; [reflexivity|].
  destruct (HQ ops eq_refl) as (_ & t & Ht' & _ & Hm). rewrite Ht in Ht'. injection Ht' as <-. exact Hm.
Defined.

(** A peer of [foreign] moves to the store of its namespace. *)
Lemma namespace_check_correct_witness : ∃ op old new,
  (namespace_Check 0 quiet order ids true 7 [] [] foreign 100).2 = inr (Some op) ∧
  in_namespace v foreign new ∧ ¬ in_namespace v foreign old ∧ moves_peer foreign old new op.
Proof.
  destruct (namespace_check_correct 0 quiet order ids true order_ok 100 foreign 7 [] [] false plain_foreign (ids_ok foreign) eq_refl)
    as (c' & r & E & _ & HQ).
  assert (Hsome : proposed (namespace_Check 0 quiet order ids true 7 [] [] foreign 100) = true) by (vm_compute; reflexivity).
  rewrite E in Hsome |- *. destruct r as [op|]; [|discriminate Hsome].
  destruct (HQ op eq_refl) as (_ & old & new & _ & Hold & _ & Hnew & _ & Hmv). exists op, old, new. split; [reflexivity|].
  split; [exact Hnew|]. split; [exact Hold|exact Hmv].
Defined.
End CheckersDemo.
