(* ===== verification/LocationProps.v ===== *)
(** * Relocations

    Moving peers to better locations comes to an end: each move of the replica
    checker strictly increases the isolation of the region's stores. *)

From S2P Require Import Prelude GoBytes BTree Strconv Strings Float FloatInt KV Metapb Region RegionTree RegionMap RegionsInfo Cache Storage Store Statistics Config Operator OperatorProps Schedule ScheduleProps Structure Checkers CheckersProps.
From Corelib Require Import SpecFloat.

(** ** Isolation *)

Section isolation.
Context `{!Unicode, !UnicodeLaws}.
Variables (h : heap) (labels : list bytes).
Implicit Types (s a : StoreInfo) (l : list StoreInfo).

(** How much two stores count for the isolation of each other. *)
Definition weight a s : Z :=
  if store_GetID h s =? store_GetID h a then 0
  else let index := CompareLocation h s a labels in
       if index =? -1 then 0 else 100 ^ (Z.of_nat (length labels) - index - 1).

Lemma EqualFold_sym x y : EqualFold x y = EqualFold y x.
Proof.
  apply eq_iff_eq_true. rewrite !EqualFold_spec. split; intros Hf; apply Forall2_flip;
    (eapply Forall2_impl; [exact Hf|]); intros ? ?; apply symmetry.
Qed.

Lemma CompareLocation_sym s a : CompareLocation h s a labels = CompareLocation h a s labels.
Proof.
  unfold CompareLocation. generalize 0. induction labels as [|k ls IH]; intros i; cbn [CompareLocation_loop]; [done|].
  rewrite EqualFold_sym, IH, (andb_comm (negb (bool_decide (GetLabelValue h s k = [])))). done.
Qed.

Lemma weight_sym s a : weight a s = weight s a.
Proof. unfold weight. by rewrite CompareLocation_sym, Z.eqb_sym. Qed.

Lemma weight_refl s : weight s s = 0.
Proof. unfold weight. by rewrite Z.eqb_refl. Qed.

Lemma weight_bound s a : (length labels ≤ 7)%nat → 0 ≤ weight a s ≤ 100 ^ 6.
Proof.
  intros Hl. unfold weight. pose proof (CompareLocation_range h labels s a) as Hr. cbn zeta.
  destruct (_ =? store_GetID h a); [lia|]. destruct (Z.eqb_spec (CompareLocation h s a labels) (-1)); [lia|].
  split; [apply Z.pow_nonneg; lia|]. apply Z.pow_le_mono_r; lia.
Qed.

Lemma counts_weight l a : base100 (location_counts h labels l a) = sumZ (weight a) l.
Proof.
  induction l as [|s l IH] using rev_ind; [|rewrite counts_snoc, sumZ_app, IH; cbn; unfold weight; lia].
  unfold location_counts, elsewhere. cbn -[seq]. apply base100_zeros.
Qed.

(** The isolation of a set of stores: that of all pairs. *)
Definition isolation l : Z := sumZ (λ a, sumZ (weight a) l) l.

#[export] Instance isolation_perm : Proper ((≡ₚ) ==> (=)) isolation.
Proof.
  intros l1 l2 Hl. unfold isolation. rewrite (sumZ_ext _ (λ a, sumZ (weight a) l2)); [by rewrite Hl|].
  intros a _. by rewrite Hl.
Qed.

Lemma isolation_cons s l : isolation (s :: l) = isolation l + 2 * sumZ (weight s) l.
Proof.
  unfold isolation. rewrite !sumZ_cons, weight_refl.
  rewrite (sumZ_ext (λ a, sumZ (weight a) (s :: l)) (λ a, weight s a + sumZ (weight a) l)), sumZ_add; [lia|].
  intros a _. by rewrite sumZ_cons, weight_sym.
Qed.

Lemma isolation_bound l : (length labels ≤ 7)%nat → 0 ≤ isolation l ≤ Z.of_nat (length l) * (Z.of_nat (length l) * 100 ^ 6).
Proof.
  intros Hl. unfold isolation. apply sumZ_bound. intros a _. apply sumZ_bound. intros s _. by apply weight_bound.
Qed.
End isolation.

(** ** Moves of the replica checker *)

Section relocation.
Context `{!Unicode, !UnicodeLaws}.
Variable v : View.
Let labels := opt_LocationLabels (v_opt v).
Hypothesis Hlabels : (length labels ≤ 7)%nat.
Implicit Types (r : RegionInfo).

Definition region_isolation r : Z := isolation (v_heap v) labels (v_GetRegionStores v r).

(** The region has moved the peer on [old] to [new], for a better location. *)
Definition relocation r r' : Prop :=
  ∃ old new, NoDup (stores r) ∧ (length (stores r) < 100)%nat ∧ old ∈ stores r ∧ relocates v r old new ∧
    stores r' ≡ₚ new :: filter (λ s, s ≠ old) (stores r).

Lemma region_stores_omap r : v_GetRegionStores v r = omap (v_GetPeerStore v) (stores r).
Proof. unfold v_GetRegionStores, stores. induction (GetPeers r) as [|p l IH]; [done|]. cbn. rewrite IH. done. Qed.

Lemma NoDup_split (l : list Z) x : NoDup l → x ∈ l → l ≡ₚ x :: filter (λ y, y ≠ x) l.
Proof.
  intros Hnd Hx. apply NoDup_Permutation; [done| |].
  - constructor; [rewrite list_elem_of_filter; tauto|by apply NoDup_filter].
  - intros y. rewrite elem_of_cons, list_elem_of_filter. destruct (decide (y = x)) as [->|]; tauto.
Qed.

Lemma length_omap_le {A B} (f : A → option B) l : (length (omap f l) ≤ length l)%nat.
Proof. induction l as [|x l IH]; cbn; [lia|]. destruct (f x); cbn; lia. Qed.

Lemma relocation_length r r' : relocation r r' → length (stores r') = length (stores r).
Proof.
  intros (old & new & Hnd & _ & Hold & _ & Hr'). apply Permutation_length in Hr'. rewrite Hr'.
  by rewrite (Permutation_length (NoDup_split _ old Hnd Hold)).
Qed.

Lemma relocation_isolates r r' : relocation r r' → region_isolation r < region_isolation r'.
Proof.
  intros (old & new & Hnd & Hlen & Hold & (so & sn & Hso & Hsn & Hle) & Hr').
  set (R := omap (v_GetPeerStore v) (filter (λ s, s ≠ old) (stores r))).
  assert (HR : (length R < 100)%nat).
  { unfold R. pose proof (length_omap_le (v_GetPeerStore v) (filter (λ s, s ≠ old) (stores r))).
    pose proof (length_filter (λ s, s ≠ old) (stores r)). lia. }
  assert (Hr : v_GetRegionStores v r ≡ₚ so :: R).
  { rewrite region_stores_omap, (NoDup_split _ old Hnd Hold) at 1. cbn. rewrite Hso. done. }
  assert (Hr2 : v_GetRegionStores v r' ≡ₚ sn :: R) by (rewrite region_stores_omap, Hr'; cbn; by rewrite Hsn).
  assert (HRl : (length (v_GetRegionStores v r) < 100)%nat).
  { rewrite region_stores_omap. pose proof (length_omap_le (v_GetPeerStore v) (stores r)). lia. }
  unfold score_in in Hle. rewrite (region_stores_omap (Region.Clone _ _)), clone_stores in Hle. fold R labels in Hle.
  rewrite !DistinctScore_counts, f64_leb_int in Hle by (done || by apply counts_bound).
  rewrite !counts_weight, Hr, sumZ_cons, weight_refl in Hle. apply Z.leb_gt in Hle.
  unfold region_isolation. rewrite Hr, Hr2, !isolation_cons. lia.
Qed.

Lemma relocations_bounded n r r' : nsteps relocation n r r' → Z.of_nat n ≤ 100 ^ 8.
Proof.
  assert (Hb : ∀ r, (length (stores r) < 100)%nat → 0 ≤ region_isolation r ≤ 100 ^ 8).
  { intros r0 Hr0. pose proof (isolation_bound (v_heap v) labels (v_GetRegionStores v r0) Hlabels) as Hi.
    pose proof (length_omap_le (v_GetPeerStore v) (stores r0)) as Hle. rewrite <-region_stores_omap in Hle. unfold region_isolation. nia. }
  intros Hn. assert (Hgo : n = 0%nat ∨ (length (stores r) < 100)%nat ∧ Z.of_nat n ≤ 100 ^ 8 - region_isolation r).
  { induction Hn as [|n r1 r2 r3 Hstep _ IH]; [by left|right].
    pose proof (relocation_isolates _ _ Hstep). pose proof (relocation_length _ _ Hstep) as Hl.
    destruct Hstep as (? & ? & _ & Hlen & _). split; [done|]. rewrite <-Hl in Hlen. pose proof (Hb r2 Hlen).
    destruct IH as [->|[_ ?]]; lia. }
  destruct Hgo as [->|[Hlen Hn']]; [lia|]. pose proof (Hb r Hlen). lia.
Qed.
End relocation.

(** ** What the replica checker proposes *)

(** The placement after the steps. *)
Definition exec_all (steps : list OperatorStep) (pl : placement) : option placement :=
  foldl (λ pl s, pl ≫= exec_step s) (Some pl) steps.

Lemma exec_safe_all n steps pl pl' : exec_safe n steps pl pl' → exec_all steps pl = Some pl'.
Proof. unfold exec_all. induction 1 as [|s l pl pl1 pl2 Hs _ _ IH]; [done|]. cbn. by rewrite Hs. Qed.

Section checker.
Context `{!Unicode, !UnicodeLaws} `{!Classifier}.
Context {C : Type} `{!Cluster C, !ScheduleCluster C, !ScheduleClusterLaws C}.
Hypothesis Hns : ∀ region id, GetRegionNamespace (Region.Clone region [WithRemoveStorePeer id]) = GetRegionNamespace region.
Variable v : View.
Context `{!ValidView v}.
Hypothesis Hlabels : (length (opt_LocationLabels (v_opt v)) ≤ 7)%nat.
Hypothesis Hmax : opt_MaxReplicas (v_opt v) < 100.
Implicit Types (r : RegionInfo).

(** A region with the right number of voters, all on healthy stores, for which the
    replica checker proposes an operator, and the region after its steps. *)
Definition relocated r r' : Prop :=
  ∃ (now : Z) (call : nat → bool) (range : nat → list StoreInfo → list StoreInfo) (followerIDs : RegionInfo → list Z)
    (classified : bool) (c c' : C) op l,
    view c = v ∧ (∀ i l, range i l ≡ₚ l) ∧ is_FollowerIDs r (followerIDs r) ∧
    plain_region r ∧ reported r ∧ Z.of_nat (length (GetPeers r)) = opt_MaxReplicas (v_opt v) ∧
    (∀ p, p ∈ GetPeers r → ¬ unhealthy now v (Peer_StoreId p)) ∧
    replica_Check now call range followerIDs classified r c = (c', inr (Some op)) ∧
    NoDup (stores r') ∧ exec_all (op_steps op) (voters_of r) = Some (mkPlacement (list_to_set (stores r')) ∅ l).

Lemma relocated_relocation r r' : relocated r r' → relocation v r r'.
Proof.
  intros (now & call & range & ids & classified & c & c' & op & l & Hv & Hrange & Hids & Hpr & Hrep & Hn & Hup & Hop & Hnd & Hex).
  subst v. destruct (no_unhealthy_no_fix now call range ids classified c r Hup Hrep) as [Hdown Hoff].
  unfold replica_Check in Hop. rewrite M_bind_eq, Hdown in Hop. rewrite M_bind_eq, Hoff in Hop.
  unfold check_number in Hop. cbn zeta in Hop. rewrite (pr_voters _ Hpr), Hn, !Z.ltb_irrefl in Hop. cbn [andb] in Hop.
  destruct (checkBestReplacement_moves now call range ids classified Hrange Hns r Hpr Hids c) as (c1 & o & E & _ & HQ).
  rewrite Hop in E. injection E as <- <-. destruct (HQ op eq_refl) as (old & new & Hold & Hgood & Hrel & _ & _ & l' & Hex' & _).
  apply exec_safe_all in Hex'. rewrite Hex in Hex'. injection Hex' as Hst _.
  assert (Hnew : new ∉ stores r) by by destruct Hgood as (? & ? & ? & _).
  pose proof (length_stores r). exists old, new. split_and!; [apply Hpr|lia|done..|].
  apply NoDup_Permutation; [done| |].
  - constructor; [rewrite list_elem_of_filter; tauto|]. apply NoDup_filter, Hpr.
  - intros x. rewrite elem_of_cons, list_elem_of_filter, <-(elem_of_list_to_set (C := gset Z) x (stores r')), Hst.
    rewrite elem_of_difference, elem_of_union, !elem_of_singleton, elem_of_list_to_set. destruct (decide (x = new)) as [->|]; [|tauto].
    split; [tauto|]. intros _. split; [by left|]. intros ->. done.
Qed.

(** C32: Relocations terminate.  The stores staying as they are, the replica checker
    can move the peers of a region that has the right number of voters, all on
    healthy stores, at most [100 ^ 8] times, if there are at most seven location
    labels and fewer than a hundred replicas: each operator that it proposes for
    such a region strictly increases the isolation of the region's stores. *)
Theorem relocations_terminate n r r' : nsteps relocated n r r' → Z.of_nat n ≤ 100 ^ 8.
Proof.
  intros Hn. apply (relocations_bounded v Hlabels n r r').
  induction Hn as [|n r1 r2 r3 Hstep _ IH]; [constructor|]. econstructor; [by apply relocated_relocation|exact IH].
Qed.
End checker.

(** ** Example *)

Module LocationDemo.
Import Latin.
Import CheckersDemo.

(** [mid] after the move of its first peer, from the only zone it is in, to another. *)
Definition mid' : RegionInfo := region 2 (str "b") (str "c") [3; 2; 4].

Definition proposal : Operator := default (NewOperator "" 0 None 0 [] 0)
  match (replica_Check 0 quiet order ids true mid 100).2 with inr o => o | _ => None end.

Lemma healthy_mid id : id ∈ stores mid → ¬ unhealthy 0 v id.
Proof.
  intros Hid (s & Hs & Hor). revert Hid. assert (Hst : stores mid = [1; 2; 3]) by (vm_compute; reflexivity). rewrite Hst, !elem_of_cons.
  intros [->|[->|[->|[]%not_elem_of_nil]]]; vm_compute in Hs; injection Hs as <-; destruct Hor as [Hd|Hd]; vm_compute in Hd; congruence.
Qed.

Lemma moved : relocated (C := cluster) v mid mid'.
Proof.
  exists 0, quiet, order, ids, true, 100, 101, proposal, 3. split_and!.
  - reflexivity.
  - exact order_ok.
  - apply ids_ok.
  - apply plain_mid.
  - intros stats p Hs. by apply not_elem_of_nil in Hs.
  - vm_compute. reflexivity.
  - intros p Hp. apply healthy_mid, list_elem_of_fmap. by exists p.
  - vm_compute. reflexivity.
  - refine (bool_decide_unpack _ _). vm_compute. exact I.
  - vm_compute. reflexivity.
Qed.

Lemma relocations_terminate_witness : nsteps (relocated (C := cluster) v) 1 mid mid' ∧ Z.of_nat 1 ≤ 100 ^ 8.
Proof.
  assert (Hs : nsteps (relocated (C := cluster) v) 1 mid mid') by (eapply nsteps_l; [exact moved|apply nsteps_O]).
  assert (Hl : (length (opt_LocationLabels (v_opt v)) ≤ 7)%nat) by (vm_compute; lia).
  assert (Hm : opt_MaxReplicas (v_opt v) < 100) by (vm_compute; reflexivity).
  split; [exact Hs|]. exact (relocations_terminate ns_ok v Hl Hm 1 mid mid' Hs).
Defined.
End LocationDemo.
