(* ===== verification/Plugin.v ===== *)
(** * The plugin of user schedulers (plugin/)

    The user's configuration of rules, its conflict checks, and the two
    schedulers that a rule becomes: one keeps leaders, the other whole regions, on
    the stores of the rule.  Decoding the TOML file is a parameter. *)

From S2P Require Import Prelude GoBytes BTree Strconv Strings Float KV Metapb Region RegionTree RegionMap RegionsInfo Cache Storage Store Statistics Config Operator Schedule Structure.

(** ** The configuration (user_config.go) *)

(** [moveLeader] and [moveRegion]. *)
Record rule := mkRule {
  rl_Persist : bool;
  rl_KeyStart : bytes;
  rl_KeyEnd : bytes;
  rl_Stores : list (list Label);
  rl_StartTime : Z;
  rl_EndTime : Z;
}.

Record dispatchConfig := mkDispatchConfig { Leaders : list rule; Regions : list rule }.

Record userConfig := mkUserConfig { uc_version : Z; uc_cfg : option dispatchConfig }.

Definition NewUserConfig : userConfig := mkUserConfig 1 None.

(** [a <= b] and [a < b] on strings. *)
Definition string_le (a b : bytes) : bool := Compare a b <=? 0.
Definition string_lt (a b : bytes) : bool := Compare a b <? 0.

Definition keys_overlap (a b : rule) : bool :=
  (string_le (rl_KeyStart a) (rl_KeyStart b) && string_lt (rl_KeyStart b) (rl_KeyEnd a)) ||
  (string_le (rl_KeyStart b) (rl_KeyStart a) && string_lt (rl_KeyStart a) (rl_KeyEnd b)).

(** [Before] or [Equal], and [After], of two intervals. *)
Definition times_overlap (begin1 end1 begin2 end2 : Z) : bool :=
  (((begin1 <? begin2) || (begin1 =? begin2)) && (begin2 <? end1)) ||
  (((begin2 <? begin1) || (begin2 =? begin1)) && (begin1 <? end2)).

Definition rules_conflict (a b : rule) : bool :=
  keys_overlap a b && times_overlap (rl_StartTime a) (rl_EndTime a) (rl_StartTime b) (rl_EndTime b).

(** The two nested loops with the test [i < j]. *)
Definition any_conflict (rules : list rule) : bool :=
  existsb (λ '(i, a), existsb (λ '(j, b), (i <? j)%nat && rules_conflict a b) (imap pair rules)) (imap pair rules).

Definition IfConflict (cfg : dispatchConfig) (maxReplicas : Z) : bool :=
  any_conflict (Leaders cfg) || any_conflict (Regions cfg) ||
  existsb (λ r, maxReplicas <? Z.of_nat (length (rl_Stores r))) (Regions cfg).

Definition IfNeedCheckStore (cfg : dispatchConfig) : list (nat * nat) :=
  mjoin (imap (λ i l, mjoin (imap (λ j r, if rules_conflict l r then [(i, j)] else []) (Regions cfg))) (Leaders cfg)).

Definition dash : Byte.byte := Byte.x2d.
Definition rule_name (kind : string) (i : nat) : bytes := str kind ++ dash :: FormatUint (Z.of_nat i) 10.

Definition rule_info (r : rule) : PluginInfo :=
  mkPluginInfo (rl_Persist r) (rl_KeyStart r) (rl_KeyEnd r) (Some (mkTimeInterval (rl_StartTime r) (rl_EndTime r)))
    (rl_Stores r) [].

Definition put_rules (kind : string) (rules : list rule) (m : PluginsMap) : PluginsMap :=
  foldl (λ m '(i, r), <[rule_name kind i := rule_info r]> m) m (imap pair rules).

(** [decode] is what resolving the path and decoding the file give.  The
    configuration is replaced even when it conflicts. *)
Definition uc_LoadConfig (decode : result dispatchConfig) (maxReplicas : Z) (uc : userConfig) (m : PluginsMap)
    : userConfig * PluginsMap * bool :=
  match decode with
  | inl _ => (uc, m, false)
  | inr cfg =>
      if IfConflict cfg maxReplicas then (mkUserConfig (uc_version uc) (Some cfg), m, false)
      else (mkUserConfig (uint64 (uc_version uc + 1)) (Some cfg),
            put_rules "Region" (Regions cfg) (put_rules "Leader" (Leaders cfg) ∅), true)
  end.

(** [orders k] is the order of the iteration over the stores for the rule's k-th. *)
Definition rule_stores (h : heap) (orders : nat → list StoreInfo) (r : rule) : list Z :=
  omap (λ '(k, s), store_GetID h <$> GetStoreByLabel h (orders k) s) (imap pair (rl_Stores r)).

(** A rule none of whose stores exists has no entry. *)
Definition put_stores (h : heap) (orders : bytes → nat → list StoreInfo) (kind : string) (rules : list rule)
    (m : gmap bytes (list Z)) : gmap bytes (list Z) :=
  foldl (λ m '(i, r),
    match rule_stores h (orders (rule_name kind i)) r with [] => m | ids => <[rule_name kind i := ids]> m end) m (imap pair rules).

Definition GetStoreId (h : heap) (orders : bytes → nat → list StoreInfo) (cfg : dispatchConfig) : gmap bytes (list Z) :=
  put_stores h orders "Region" (Regions cfg) (put_stores h orders "Leader" (Leaders cfg) ∅).

Definition put_intervals (kind : string) (rules : list rule) (m : gmap bytes TimeInterval) : gmap bytes TimeInterval :=
  foldl (λ m '(i, r), <[rule_name kind i := mkTimeInterval (rl_StartTime r) (rl_EndTime r)]> m) m (imap pair rules).

Definition uc_GetInterval (cfg : dispatchConfig) : gmap bytes TimeInterval :=
  put_intervals "Region" (Regions cfg) (put_intervals "Leader" (Leaders cfg) ∅).

(** ** The schedulers of the rules (read_user_config.go) *)

Definition IfOverlap (first second : list Z) : list Z :=
  mjoin ((λ i, omap (λ j, if i =? j then Some i else None) second) <$> first).

(** [moveLeaderUserScheduler] and [moveRegionUserScheduler]; [storeSeq] is of the
    former only. *)
Record userScheduler := mkUserScheduler {
  us_leader : bool;
  us_name : bytes;
  us_regionIDs : list Z;
  us_storeIDs : list Z;
  us_keyStart : bytes;
  us_keyEnd : bytes;
  us_storeSeq : nat;
  us_interval : option TimeInterval;
}.

Definition newMoveLeaderUserScheduler (name keyStart keyEnd : bytes) (storeIDs : list Z) (interval : option TimeInterval) : userScheduler :=
  mkUserScheduler true name [] storeIDs keyStart keyEnd 0 interval.
Definition newMoveRegionUserScheduler (name keyStart keyEnd : bytes) (storeIDs : list Z) (interval : option TimeInterval) : userScheduler :=
  mkUserScheduler false name [] storeIDs keyStart keyEnd 0 interval.

(** [strings.Split(str, "-")] *)
Definition split_name (name : bytes) : list bytes := split_sep dash name [].

Definition make_scheduler (p : option PluginInfo) (name : bytes) (storeIDs : list Z) (interval : option TimeInterval) : userScheduler :=
  let s := split_name name in
  let num := default [] (s !! 1%nat) in
  if bool_decide (head s = Some (str "Leader"))
  then newMoveLeaderUserScheduler (str "move-leader-use-scheduler-" ++ num) (GetKeyStart p) (GetKeyEnd p) storeIDs interval
  else newMoveRegionUserScheduler (str "move-region-use-scheduler-" ++ num) (GetKeyStart p) (GetKeyEnd p) storeIDs interval.

(** The loop over the map of stores, in the order given; [update] is
    [UpdateStoreIDs]. *)
Fixpoint produce (update : bytes → option PluginInfo → option PluginInfo) (intervals : gmap bytes TimeInterval)
    (storeMap : list (bytes * list Z)) (m : PluginsMap) : PluginsMap * list userScheduler :=
  match storeMap with
  | [] => (m, [])
  | (name, storeIDs) :: rest =>
      let m := match update name (m !! name) with None => m | Some p => <[name := p]> m end in
      let s := make_scheduler (m !! name) name storeIDs (intervals !! name) in
      let '(m, l) := produce update intervals rest m in
      (m, s :: l)
  end.

(** Whether each pair of rules of different kinds that overlap shares a store. *)
Definition adjustable (storeMap : gmap bytes (list Z)) (pairs : list (nat * nat)) : bool :=
  forallb (λ '(i, j),
    negb (length (IfOverlap (default [] (storeMap !! rule_name "Leader" i)) (default [] (storeMap !! rule_name "Region" j))) =? 0)%nat)
    pairs.

(** [orders] and [orders'] are the orders of the iterations over the stores, [range]
    that of the map of stores by rule. *)
Definition ProduceScheduler (h : heap) (orders orders' : bytes → nat → list StoreInfo)
    (range : gmap bytes (list Z) → list (bytes * list Z)) (cfg : dispatchConfig) (m : PluginsMap)
    : PluginsMap * list userScheduler :=
  let storeMap := GetStoreId h orders cfg in
  if adjustable storeMap (IfNeedCheckStore cfg)
  then produce (λ name, UpdateStoreIDs h (orders' name)) (uc_GetInterval cfg) (range storeMap) m
  else (∅, []).

(** ** The base of the schedulers (user_base_scheduler.go) *)

Definition MaxScheduleInterval : Z := 5 * Second.
Definition MinScheduleInterval : Z := 10 * 1000000.
Definition ScheduleIntervalFactor : f64 := f64_div (f64_of_Z 13) (f64_of_Z 10).

Definition minDuration (a b : Z) : Z := if a <? b then a else b.
Definition GetNextInterval (interval : Z) : Z :=
  minDuration (int64_of_f64 (f64_mul (f64_of_Z interval) ScheduleIntervalFactor)) MaxScheduleInterval.

(** ** Scheduling *)

(** Outside the interval of the rule nothing is scheduled. *)
Definition rule_active (now : Z) (interval : option TimeInterval) : bool :=
  match interval with
  | Some i => negb ((iv_End i <? now) || (now <? iv_Begin i))
  | None => true
  end.

Section schedule.
Context `{!Unicode} `{!Classifier}.
Context {C : Type} `{!Cluster C} `{!ScheduleCluster C}.
Implicit Types (c : C) (region : RegionInfo) (s : userScheduler).

(** The clock, the overload functions, the rules in the order of the i-th
    iteration, and the orders of the stores of a region and of the two loops of
    [CreateMoveRegionOperator]. *)
Variable now : Z.
Variable call : nat → bool.
Variable rules : nat → list (bytes * PluginInfo).
Variable region_order : RegionInfo → list Z.
Variables order order' : gset Z → list Z.

(** A filter dereferences the store. *)
Definition filter_source_nil c (store : option StoreInfo) (filters : list Filter) : result bool :=
  match store with
  | None => inl nil_region
  | Some s => inr (FilterSource (v_heap (view c)) now call (v_opt (view c)) s filters)
  end.
Definition filter_target_nil c (store : option StoreInfo) (filters : list Filter) : result bool :=
  match store with
  | None => inl nil_region
  | Some s => inr (FilterTarget (v_heap (view c)) now call (v_opt (view c)) s filters)
  end.

(** *** Leaders (move_leader.go) *)

(** The first store that the rule shares with a rule for the region, if any. *)
Fixpoint adjust_target c (interval : option TimeInterval) (storeIDs : list Z) (regionID targetID : Z)
    (rules : list (bytes * PluginInfo)) : result Z :=
  match rules with
  | [] => inr targetID
  | (name, p) :: rules =>
      if bool_decide (head (split_name name) = Some (str "Region")) then
        regionIDs ← GetRegionIDs (view c) (KeyStart p) (KeyEnd p);
        if isExists regionID regionIDs
           && times_overlap (interval_GetBegin interval) (interval_GetEnd interval)
                (interval_GetBegin (pi_Interval p)) (interval_GetEnd (pi_Interval p))
        then match IfOverlap storeIDs (StoreIDs p) with
             | x :: _ => inr x
             | [] => adjust_target c interval storeIDs regionID targetID rules
             end
        else adjust_target c interval storeIDs regionID targetID rules
      else adjust_target c interval storeIDs regionID targetID rules
  end.

Definition next_seq (storeIDs : list Z) (seq : nat) : nat :=
  if Z.of_nat seq <? Z.of_nat (length storeIDs) - 1 then S seq else 0%nat.

(** Both filters pass. *)
Definition both_pass c (source target : option StoreInfo) (filters : list Filter) : result bool :=
  bad ← filter_source_nil c source filters;
  if bad : bool then inr false
  else bad ← filter_target_nil c target filters; inr (negb bad).

(** The operator for a region whose leader is to move to [targetID]. *)
Definition move_leader region (sourceID targetID : Z) : M C (option Operator) := λ c,
  let source := v_GetStore (view c) sourceID in
  let target := v_GetStore (view c) targetID in
  if bool_decide (targetID ∈ GetStoreIds region) then
    match both_pass c source target [StoreStateFilter true false] with
    | inl err => (c, inl err)
    | inr false => (c, inr None)
    | inr true =>
        (c, inr (Some (SetPriorityLevel HighPriority
          (CreateTransferLeaderOperator "move-leader-user" region sourceID targetID OpLeader now))))
    end
  else
    match both_pass c source target [StoreStateFilter false true] with
    | inl err => (c, inl err)
    | inr false => (c, inr None)
    | inr true =>
        match AllocPeer targetID c with
        | (c', inl (Panic msg)) => (c', inl (Panic msg))
        | (c', inl (Error _)) => (c', inr None)
        | (c', inr destPeer) =>
            match CreateMoveLeaderOperator "move-leader-user" c' region OpAdmin sourceID targetID (Peer_Id destPeer) now with
            | inl (Panic msg) => (c', inl (Panic msg))
            | inl (Error _) => (c', inr None)
            | inr op => (c', inr (Some (SetPriorityLevel HighPriority op)))
            end
        end
    end.

(** The loop over the regions; [i] counts them, the state has the sequence number. *)
Fixpoint leader_loop s (i : nat) (regionIDs : list Z) : M (nat * C) (option Operator) := λ '(seq, c),
  match regionIDs with
  | [] => ((seq, c), inr None)
  | regionID :: regionIDs =>
      match v_GetRegion (view c) regionID with
      | None => leader_loop s (S i) regionIDs (seq, c)
      | Some region =>
          let sourceID := Peer_GetStoreId (GetLeader region) in
          if isExists sourceID (us_storeIDs s) then leader_loop s (S i) regionIDs (seq, c)
          else
            match us_storeIDs s !! seq with
            | None => ((seq, c), inl (Panic "index out of range"))
            | Some targetID =>
                match adjust_target c (us_interval s) (us_storeIDs s) regionID targetID (rules i) with
                | inl err => ((seq, c), inl err)
                | inr targetID =>
                    let seq := next_seq (us_storeIDs s) seq in
                    match move_leader region sourceID targetID c with
                    | (c', inl err) => ((seq, c'), inl err)
                    | (c', inr (Some op)) => ((seq, c'), inr (Some op))
                    | (c', inr None) => leader_loop s (S i) regionIDs (seq, c')
                    end
                end
            end
      end
  end.

Definition set_seq (seq : nat) s : userScheduler :=
  mkUserScheduler (us_leader s) (us_name s) (us_regionIDs s) (us_storeIDs s) (us_keyStart s) (us_keyEnd s) seq (us_interval s).
Definition set_regionIDs (ids : list Z) s : userScheduler :=
  mkUserScheduler (us_leader s) (us_name s) ids (us_storeIDs s) (us_keyStart s) (us_keyEnd s) (us_storeSeq s) (us_interval s).

Definition moveLeader_Schedule s c : userScheduler * C * result (option Operator) :=
  if negb (rule_active now (us_interval s)) then (s, c, inr None)
  else
    match GetRegionIDs (view c) (us_keyStart s) (us_keyEnd s) with
    | inl err => (s, c, inl err)
    | inr ids =>
        let s := set_regionIDs ids s in
        if (length (us_storeIDs s) =? 0)%nat then (s, c, inr None)
        else
          let '((seq, c'), r) := leader_loop s 0 ids (us_storeSeq s, c) in
          (set_seq seq s, c', r)
    end.

(** *** Regions (move_region.go) *)

Definition region_filters : list Filter := [StoreStateFilter false true].

(** The stores of the rule that may take a peer. *)
Fixpoint pass_targets c (ids : list Z) : result (list Z) :=
  match ids with
  | [] => inr []
  | id :: ids =>
      bad ← filter_target_nil c (v_GetStore (view c) id) region_filters;
      rest ← pass_targets c ids;
      inr (if bad : bool then rest else id :: rest)
  end.

Definition allExist (storeIDs : list Z) region : bool := forallb (λ id, bool_decide (id ∈ GetStoreIds region)) storeIDs.

(** The loop that keeps peers of the region until there are enough stores. *)
Fixpoint fill_stores c (replicas : Z) (ids : list Z) (storeMap : gset Z) : result (gset Z) :=
  match ids with
  | [] => inr storeMap
  | id :: ids =>
      if Z.of_nat (size storeMap) <? replicas then
        if bool_decide (id ∈ storeMap) then fill_stores c replicas ids storeMap
        else
          bad ← filter_target_nil c (v_GetStore (view c) id) region_filters;
          fill_stores c replicas ids (if bad : bool then storeMap else {[id]} ∪ storeMap)
      else inr storeMap
  end.

(** The loop over the regions; the map of the stores is one for all of them. *)
Fixpoint region_loop (storeIDs : list Z) (regionIDs : list Z) (storeMap : gset Z) : M C (option Operator) := λ c,
  match regionIDs with
  | [] => (c, inr None)
  | regionID :: regionIDs =>
      match v_GetRegion (view c) regionID with
      | None => region_loop storeIDs regionIDs storeMap c
      | Some region =>
          if allExist storeIDs region then region_loop storeIDs regionIDs storeMap c
          else
            let replicas := opt_MaxReplicas (v_opt (view c)) in
            match fill_stores c replicas (region_order region) storeMap with
            | inl err => (c, inl err)
            | inr storeMap =>
                if Z.of_nat (size storeMap) <? replicas then region_loop storeIDs regionIDs storeMap c
                else
                  match CreateMoveRegionOperator "move-region-user" region OpAdmin storeMap (order storeMap) (order' storeMap) now c with
                  | (c', inl (Panic msg)) => (c', inl (Panic msg))
                  | (c', inl (Error _)) => region_loop storeIDs regionIDs storeMap c'
                  | (c', inr op) => (c', inr (Some op))
                  end
            end
      end
  end.

Definition moveRegion_Schedule s c : userScheduler * C * result (option Operator) :=
  if negb (rule_active now (us_interval s)) then (s, c, inr None)
  else
    match GetRegionIDs (view c) (us_keyStart s) (us_keyEnd s) with
    | inl err => (s, c, inl err)
    | inr ids =>
        let s := set_regionIDs ids s in
        if (length (us_storeIDs s) =? 0)%nat then (s, c, inr None)
        else
          match pass_targets c (us_storeIDs s) with
          | inl err => (s, c, inl err)
          | inr storeIDs =>
              let storeMap := list_to_set storeIDs in
              if (size storeMap =? 0)%nat then (s, c, inr None)
              else let '(c', r) := region_loop storeIDs ids storeMap c in (s, c', r)
          end
    end.
End schedule.
