(* ===== verification/PluginProps.v ===== *)
(** * The user's rules

    Which regions a rule concerns, when two rules conflict, and what the
    schedulers of the rules do to a region. *)

From S2P Require Import Prelude GoBytes BTree Strconv Strings Float KV Metapb Region RegionTree RegionMap RegionsInfo RegionsInfoProps Cache Storage Store Statistics Config Operator OperatorProps Schedule ScheduleProps Structure Checkers CheckersProps Plugin.

(** ** Conflicts *)

(** The rule is about the key, written in hexadecimal, at the instant. *)
Definition covers (r : rule) (k : bytes) (t : Z) : Prop :=
  (rl_KeyStart r ≤ k)%key ∧ (k < rl_KeyEnd r)%key ∧ rl_StartTime r ≤ t < rl_EndTime r.

Lemma string_le_spec a b : string_le a b = true ↔ (a ≤ b)%key.
Proof. apply Z.leb_le. Qed.
Lemma string_lt_spec a b : string_lt a b = true ↔ (a < b)%key.
Proof. apply Z.ltb_lt. Qed.

Lemma times_overlap_spec b1 e1 b2 e2 : times_overlap b1 e1 b2 e2 = true ↔ b1 ≤ b2 < e1 ∨ b2 ≤ b1 < e2.
Proof. unfold times_overlap. rewrite !orb_true_iff, !andb_true_iff, !orb_true_iff, !Z.ltb_lt, !Z.eqb_eq. lia. Qed.

Lemma keys_overlap_spec a b : keys_overlap a b = true ↔
  (rl_KeyStart a ≤ rl_KeyStart b)%key ∧ (rl_KeyStart b < rl_KeyEnd a)%key ∨
  (rl_KeyStart b ≤ rl_KeyStart a)%key ∧ (rl_KeyStart a < rl_KeyEnd b)%key.
Proof. unfold keys_overlap. by rewrite orb_true_iff, !andb_true_iff, !string_le_spec, !string_lt_spec. Qed.

(** Rules with a range and an interval that are not empty. *)
Definition proper_rule (r : rule) : Prop := (rl_KeyStart r < rl_KeyEnd r)%key ∧ rl_StartTime r < rl_EndTime r.

Lemma rules_conflict_spec a b : proper_rule a → proper_rule b →
  rules_conflict a b = true ↔ ∃ k t, covers a k t ∧ covers b k t.
Proof.
  intros [Hka Hta] [Hkb Htb]. unfold rules_conflict. rewrite andb_true_iff, keys_overlap_spec, times_overlap_spec. split.
  - intros [Hk Ht]. set (t := Z.max (rl_StartTime a) (rl_StartTime b)).
    assert (Htt : rl_StartTime a ≤ t < rl_EndTime a ∧ rl_StartTime b ≤ t < rl_EndTime b) by lia.
    destruct Hk as [[H1 H2]|[H1 H2]]; [exists (rl_KeyStart b), t|exists (rl_KeyStart a), t];
      unfold covers; split_and!; try lia; try done; key_order.
  - intros (k & t & (Ha1 & Ha2 & Ha3) & (Hb1 & Hb2 & Hb3)). split; [|lia].
    destruct (decide (rl_KeyStart a ≤ rl_KeyStart b)%key) as [Hle|Hle%key_nle_lt]; [left|right]; split; key_order.
Qed.

Lemma any_conflict_spec rules : Forall proper_rule rules →
  any_conflict rules = false ↔
  ∀ i j a b k t, rules !! i = Some a → rules !! j = Some b → covers a k t → covers b k t → i = j.
Proof.
  intros Hp. rewrite Forall_lookup in Hp. unfold any_conflict. rewrite <-not_true_iff_false, existsb_exists. split.
  - intros Hno. assert (Hlt : ∀ i j a b k t, (i < j)%nat → rules !! i = Some a → rules !! j = Some b → covers a k t → covers b k t → False).
    { intros i j a b k t Hij Ha Hb Hca Hcb. apply Hno. exists (i, a). split.
      - apply list_elem_of_In, list_elem_of_lookup. exists i. by rewrite list_lookup_imap, Ha.
      - cbn. apply existsb_exists. exists (j, b). split; [apply list_elem_of_In, list_elem_of_lookup; exists j; by rewrite list_lookup_imap, Hb|].
        apply andb_true_iff. split; [by apply Nat.ltb_lt|]. apply rules_conflict_spec; [by eapply Hp..|by exists k, t]. }
    intros i j a b k t Ha Hb Hca Hcb. destruct (Nat.lt_trichotomy i j) as [?|[?|?]]; [|done|]; exfalso; eauto.
  - intros Hex ([i a] & Hin & Hc). cbn in Hc. apply existsb_exists in Hc as ([j b] & Hjn & [Hij%Nat.ltb_lt Hab]%andb_true_iff).
    apply list_elem_of_In, list_elem_of_lookup in Hin as [i' Hi], Hjn as [j' Hj]. rewrite list_lookup_imap in Hi, Hj.
    destruct (rules !! i') as [a'|] eqn:Ea; [|done]. destruct (rules !! j') as [b'|] eqn:Eb; [|done]. cbn in Hi, Hj. simplify_eq.
    apply rules_conflict_spec in Hab as (k & t & ? & ?); [|by eapply Hp..]. pose proof (Hex i j a b k t Ea Eb). naive_solver lia.
Qed.

(** ** Keys in hexadecimal *)

(** The digits that [hex.EncodeToString] prints. *)
Definition lower_hex (c : Byte.byte) : Prop := 48 ≤ byte_val c ≤ 57 ∨ 97 ≤ byte_val c ≤ 102.

Lemma fromHexChar_lower a : lower_hex a →
  ∃ d, fromHexChar a = Some d ∧ 0 ≤ d < 16 ∧ (byte_val a ≤ 57 ∧ d = byte_val a - 48 ∨ 97 ≤ byte_val a ∧ d = byte_val a - 87).
Proof.
  intros Ha. unfold fromHexChar. cbn zeta. destruct Ha as [Ha|Ha].
  - rewrite !(proj2 (Z.leb_le _ _)) by lia. cbn [andb]. eexists. split; [done|lia].
  - rewrite (proj2 (Z.leb_le 48 _)), (proj2 (Z.leb_gt _ 57)) by lia. cbn [andb].
    rewrite !(proj2 (Z.leb_le _ _)) by lia. cbn [andb]. eexists. split; [done|lia].
Qed.

Lemma byte_of_digits hi lo : 0 ≤ hi < 16 → 0 ≤ lo < 16 → byte_val (byte_of_Z (Z.lor (Z.shiftl hi 4) lo)) = 16 * hi + lo.
Proof.
  intros Hhi Hlo. rewrite byte_val_of_Z. assert (Hl : Z.land (Z.shiftl hi 4) lo = 0).
  { apply Z.bits_inj'. intros n Hn. rewrite Z.land_spec, Z.bits_0. destruct (Z.lt_ge_cases n 4); [by rewrite Z.shiftl_spec_low|].
    assert (Z.log2 lo < 4) by (destruct (decide (lo = 0)) as [->|]; [done|apply Z.log2_lt_pow2; lia]).
    rewrite (Z.bits_above_log2 lo) by lia. apply andb_false_r. }
  pose proof (Z.add_lor_land (Z.shiftl hi 4) lo) as Hor. rewrite Hl, Z.shiftl_mul_pow2, Z.add_0_r in Hor by lia.
  rewrite <-Z.shiftl_mul_pow2 in Hor at 1 by lia.
  rewrite Hor. rewrite Z.mod_small; lia.
Qed.

Lemma decode_cons a b s x : hex_DecodeString (a :: b :: s) = Some x →
  ∃ hi lo rest, fromHexChar a = Some hi ∧ fromHexChar b = Some lo ∧ hex_DecodeString s = Some rest ∧
    x = byte_of_Z (Z.lor (Z.shiftl hi 4) lo) :: rest.
Proof.
  cbn [hex_DecodeString]. destruct (fromHexChar a) as [hi|]; [|done]. destruct (fromHexChar b) as [lo|]; [|done].
  cbn [mbind option_bind]. destruct (hex_DecodeString s) as [rest|]; [|done]. intros [= <-]. eauto 10.
Qed.

(** The order of keys is that of their hexadecimal forms. *)
Lemma hex_compare s : Forall lower_hex s → ∀ t x y, Forall lower_hex t →
  hex_DecodeString s = Some x → hex_DecodeString t = Some y → Compare s t = Compare x y.
Proof.
  assert (H : ∀ n s, (length s < n)%nat → Forall lower_hex s → ∀ t x y, Forall lower_hex t →
    hex_DecodeString s = Some x → hex_DecodeString t = Some y → Compare s t = Compare x y);
    [|intros Hs; apply (H (S (length s))); [lia|done]].
  induction n as [|n IH]; [lia|]. clear s. intros [|a [|b s]] Hn Hs [|c [|d t]] x y Ht Hx Hy; try done.
  - by injection Hx as <-; injection Hy as <-.
  - injection Hx as <-. by apply decode_cons in Hy as (? & ? & ? & _ & _ & _ & ->).
  - injection Hy as <-. by apply decode_cons in Hx as (? & ? & ? & _ & _ & _ & ->).
  - apply decode_cons in Hx as (hi & lo & rx & Ea & Eb & Es & ->). apply decode_cons in Hy as (hi' & lo' & ry & Ec & Ed & Et & ->).
    apply Forall_cons in Hs as [Ha [Hb Hs]%Forall_cons]. apply Forall_cons in Ht as [Hc [Hd Ht]%Forall_cons].
    specialize (IH s ltac:(cbn in Hn; lia) Hs t rx ry Ht Es Et).
    destruct (fromHexChar_lower a Ha) as (? & Ea' & ? & ?), (fromHexChar_lower b Hb) as (? & Eb' & ? & ?),
      (fromHexChar_lower c Hc) as (? & Ec' & ? & ?), (fromHexChar_lower d Hd) as (? & Ed' & ? & ?). simplify_eq.
    cbn [Compare]. rewrite !byte_of_digits by done. rewrite IH.
    repeat (match goal with |- context [?x <? ?y] => destruct (Z.ltb_spec x y) end; try lia; try done).
Qed.

(** ** Loading the rules *)

(** Bounds in lower case, and nothing empty. *)
Record rule_wf (r : rule) : Prop := {
  rw_proper : proper_rule r;
  rw_start : Forall lower_hex (rl_KeyStart r) ∧ is_Some (hex_DecodeString (rl_KeyStart r));
  rw_end : Forall lower_hex (rl_KeyEnd r) ∧ is_Some (hex_DecodeString (rl_KeyEnd r));
}.

(** The rule is about a region key at an instant. *)
Definition rules_key (r : rule) (x : bytes) (t : Z) : Prop :=
  ∃ s e, hex_DecodeString (rl_KeyStart r) = Some s ∧ hex_DecodeString (rl_KeyEnd r) = Some e ∧
    (s ≤ x)%key ∧ (x < e)%key ∧ rl_StartTime r ≤ t < rl_EndTime r.

Lemma key_conflict a b x t : rule_wf a → rule_wf b → rules_key a x t → rules_key b x t → rules_conflict a b = true.
Proof.
  intros Ha Hb (sa & ea & Esa & Eea & Ha1 & Ha2 & Ha3) (sb & eb & Esb & Eeb & Hb1 & Hb2 & Hb3).
  unfold rules_conflict. rewrite andb_true_iff, keys_overlap_spec, times_overlap_spec. split; [|lia].
  destruct (rw_start a Ha) as [Lsa _], (rw_end a Ha) as [Lea _], (rw_start b Hb) as [Lsb _], (rw_end b Hb) as [Leb _].
  unfold key_le, key_lt in *.
  rewrite (hex_compare _ Lsa _ _ _ Lsb Esa Esb), (hex_compare _ Lsb _ _ _ Lea Esb Eea),
    (hex_compare _ Lsb _ _ _ Lsa Esb Esa), (hex_compare _ Lsa _ _ _ Leb Esa Eeb).
  fold (key_le sa sb) (key_lt sb ea) (key_le sb sa) (key_lt sa eb) (key_le sa x) (key_le sb x) (key_lt x ea) (key_lt x eb) in *.
  destruct (decide (sa ≤ sb)%key) as [Hle|Hle%key_nle_lt]; [left|right]; split; key_order.
Qed.

Lemma no_conflict_exclusive rules : Forall rule_wf rules → any_conflict rules = false →
  ∀ i j a b x t, rules !! i = Some a → rules !! j = Some b → rules_key a x t → rules_key b x t → i = j.
Proof.
  intros Hwf Hno i j a b x t Ha Hb Hka Hkb. rewrite any_conflict_spec in Hno.
  2:{ eapply Forall_impl; [exact Hwf|]. by intros r []. }
  rewrite Forall_lookup in Hwf. pose proof (Hwf i a Ha) as Hwa. pose proof (Hwf j b Hb) as Hwb.
  pose proof (key_conflict a b x t Hwa Hwb Hka Hkb) as Hc.
  apply rules_conflict_spec in Hc as (k & t' & Hk1 & Hk2); [|apply Hwa|apply Hwb]. by eapply Hno.
Qed.

(** Names tell rules apart. *)
Lemma rule_name_inj kind kind' i j : Z.of_nat i < 2 ^ 64 → Z.of_nat j < 2 ^ 64 → kind ∈ ["Leader"; "Region"]%string →
  kind' ∈ ["Leader"; "Region"]%string → rule_name kind i = rule_name kind' j → kind = kind' ∧ i = j.
Proof.
  assert (Hfmt : ∀ i j, Z.of_nat i < 2 ^ 64 → Z.of_nat j < 2 ^ 64 → FormatUint (Z.of_nat i) 10 = FormatUint (Z.of_nat j) 10 → i = j).
  { intros i' j' Hi Hj Heq. pose proof (ParseUint_FormatUint 10 (Z.of_nat i') (or_introl eq_refl) ltac:(lia)) as H1.
    rewrite Heq, ParseUint_FormatUint in H1 by (try (by left); lia). simplify_eq. lia. }
  intros Hi Hj Hk Hk'. unfold rule_name.
  repeat (apply elem_of_cons in Hk as [->|Hk]); try (by apply not_elem_of_nil in Hk);
    repeat (apply elem_of_cons in Hk' as [->|Hk']); try (by apply not_elem_of_nil in Hk'); intros Heq; cbn in Heq; simplify_eq; auto.
Qed.

Lemma put_rules_lookup kind rules m i r : Z.of_nat (length rules) < 2 ^ 64 → kind ∈ ["Leader"; "Region"]%string →
  rules !! i = Some r → put_rules kind rules m !! rule_name kind i = Some (rule_info r).
Proof.
  intros Hlen Hk. unfold put_rules. induction rules as [|x rules IH] using rev_ind; [done|].
  rewrite length_app in Hlen. cbn in Hlen. rewrite imap_app, foldl_app. cbn. rewrite Nat.add_0_r. intros Hr.
  destruct (decide (i = length rules)) as [->|Hne].
  - rewrite lookup_insert_eq. rewrite lookup_app_r, Nat.sub_diag in Hr by lia. by injection Hr as ->.
  - assert (i < length rules)%nat by (apply lookup_lt_Some in Hr; rewrite length_app in Hr; cbn in Hr; lia).
    rewrite lookup_insert_ne; [|intros Heq; apply rule_name_inj in Heq; [lia|lia|lia|done..]].
    apply IH; [lia|]. by rewrite lookup_app_l in Hr.
Qed.

Lemma put_rules_other kind kind' rules m i : Z.of_nat (length rules) < 2 ^ 64 → Z.of_nat i < 2 ^ 64 →
  kind ∈ ["Leader"; "Region"]%string → kind' ∈ ["Leader"; "Region"]%string → kind ≠ kind' →
  put_rules kind rules m !! rule_name kind' i = m !! rule_name kind' i.
Proof.
  intros Hlen Hi Hk Hk' Hne. unfold put_rules. induction rules as [|x rules IH] using rev_ind; [done|].
  rewrite length_app in Hlen. cbn in Hlen. rewrite imap_app, foldl_app. cbn. rewrite lookup_insert_ne; [apply IH; lia|].
  intros Heq. apply rule_name_inj in Heq as [? _]; [done|lia|lia|done..].
Qed.

(** Loading the user's rules.  On success the map has each rule under its name,
    no rule for regions names more stores than there are replicas, and if the
    bounds are written in lower case and no range or interval is empty, any key
    is at any instant the concern of at most one rule for leaders and at most one
    for regions.  A file that cannot be read or conflicts leaves the map alone. *)
Theorem LoadConfig_exclusive decode maxReplicas uc m :
  match uc_LoadConfig decode maxReplicas uc m with
  | (uc', m', true) => ∃ cfg, decode = inr cfg ∧ uc_cfg uc' = Some cfg ∧
      Forall (λ r, Z.of_nat (length (rl_Stores r)) ≤ maxReplicas) (Regions cfg) ∧
      (Z.of_nat (length (Leaders cfg)) < 2 ^ 64 → Z.of_nat (length (Regions cfg)) < 2 ^ 64 →
        (∀ i r, Leaders cfg !! i = Some r → m' !! rule_name "Leader" i = Some (rule_info r)) ∧
        (∀ i r, Regions cfg !! i = Some r → m' !! rule_name "Region" i = Some (rule_info r))) ∧
      ∀ rules, rules = Leaders cfg ∨ rules = Regions cfg → Forall rule_wf rules →
        ∀ i j a b x t, rules !! i = Some a → rules !! j = Some b → rules_key a x t → rules_key b x t → i = j
  | (uc', m', false) => m' = m ∧
      match decode with
      | inl _ => uc' = uc
      | inr cfg => IfConflict cfg maxReplicas = true ∧ uc_version uc' = uc_version uc
      end
  end.
Proof.
  unfold uc_LoadConfig. destruct decode as [err|cfg]; [done|]. destruct (IfConflict cfg maxReplicas) eqn:Hc; [done|].
  exists cfg. unfold IfConflict in Hc. rewrite !orb_false_iff in Hc. destruct Hc as [[Hl Hr] Hs]. split_and!; [done..| | |].
  - apply list.Forall_forall. intros r Hin. apply not_true_iff_false in Hs. rewrite existsb_exists in Hs.
    destruct (Z.le_gt_cases (Z.of_nat (length (rl_Stores r))) maxReplicas) as [|Hgt]; [done|]. destruct Hs.
    exists r. split; [by apply list_elem_of_In|by apply Z.ltb_lt].
  - assert (HL : "Leader"%string ∈ ["Leader"; "Region"]%string) by by left.
    assert (HR : "Region"%string ∈ ["Leader"; "Region"]%string) by by right; left.
    intros Hl64 Hr64. split; intros i r Hi; [|by apply put_rules_lookup].
    rewrite put_rules_other; [by apply put_rules_lookup|done| |done..]. apply lookup_lt_Some in Hi. lia.
  - intros rules [->| ->] Hwf; by apply no_conflict_exclusive.
Qed.

(** ** The regions of a rule *)

(** Consecutive ranges leave no hole. *)
Fixpoint contiguous (l : list Region) : Prop :=
  match l with
  | a :: (b :: _) as l' => EndKey a = StartKey b ∧ contiguous l'
  | _ => True
  end.

Section scanning.
Implicit Types (a b y : Region) (l : list Region) (e k : bytes).

Lemma contiguous_cons a l : contiguous (a :: l) → contiguous l ∧ (∀ b l', l = b :: l' → EndKey a = StartKey b).
Proof. destruct l as [|b l]; cbn; [done|]. intros [Heq ?]. split; [done|]. by intros ? ? [= <- _]. Qed.

Lemma items_suffix k l : StronglySorted before l → Forall valid_range l → contiguous l →
  contiguous (filter (λ y, (k ≤ StartKey y)%key) l).
Proof.
  induction 1 as [|a l Hs IH Ha]; intros Hv Hc; [done|]. rewrite filter_cons. apply Forall_cons in Hv as [Hva Hv].
  case_decide as Hk; [|apply IH; [done|by eapply contiguous_cons]].
  rewrite filter_all; [done|]. intros y Hy. rewrite list.Forall_forall in Ha. pose proof (before_start a y Hva (Ha y Hy)). key_order.
Qed.

Lemma past_end e b l : e ≠ [] → StronglySorted before (b :: l) → Forall valid_range (b :: l) → ¬ ends_before e b →
  filter (ends_before e) (b :: l) = [] ∧ filter (λ y, (StartKey y < e)%key) l = [].
Proof.
  intros He Hs Hv Hb. apply StronglySorted_inv in Hs as [_ Hs]. apply Forall_cons in Hv as [_ Hv]. rewrite list.Forall_forall in Hs, Hv.
  assert (Hy : ∀ y, y ∈ l → (e ≤ StartKey y)%key).
  { intros y Hin. destruct (Hs y Hin) as [Hne Hle]. destruct (decide (EndKey b < e)%key) as [Hlt|Hge%key_nlt_le].
    - destruct Hb. by right.
    - key_order. }
  rewrite filter_cons, decide_False by done. split; apply filter_none; intros y Hin.
  - intros [?|[? Hlt]]; [done|]. specialize (Hy y Hin). destruct (Hv y Hin); [done|key_order].
  - specialize (Hy y Hin). intros ?. key_order.
Qed.

(** The scan up to the end key, and the region after the last one scanned. *)
Lemma scan_and_next e rest : e ≠ [] → ∀ a, StronglySorted before (a :: rest) → Forall valid_range (a :: rest) →
  contiguous (a :: rest) → ends_before e a →
  ∃ z, last (filter (ends_before e) (a :: rest)) = Some z ∧ EndKey z ≠ [] ∧ (StartKey a < EndKey z)%key ∧
    a :: filter (λ y, (StartKey y < e)%key) rest =
      filter (ends_before e) (a :: rest) ++ take 1 (filter (λ y, (EndKey z ≤ StartKey y)%key) (a :: rest)).
Proof.
  intros He. induction rest as [|b rest IH]; intros a Hs Hv Hc Ha;
    (assert (Hae : EndKey a ≠ [] ∧ (EndKey a < e)%key) by by destruct Ha);
    (assert (Hva : (StartKey a < EndKey a)%key) by (destruct Hae as [? _]; by apply Forall_cons in Hv as [[?|?] _])).
  - exists a. rewrite filter_cons, decide_True, !filter_nil by done. split_and!; [done|tauto|done|].
    rewrite filter_cons, decide_False, filter_nil; [done|]. intros ?. key_order.
  - pose proof (StronglySorted_inv Hs) as [Hs' Hsa]. pose proof (proj2 (proj1 (Forall_cons _ _ _) Hv)) as Hv'.
    apply contiguous_cons in Hc as [Hc' Heq]. specialize (Heq b rest eq_refl).
    rewrite (filter_cons (ends_before e) a), decide_True by done. destruct (decide (ends_before e b)) as [Hb|Hb].
    + destruct (IH b Hs' Hv' Hc' Hb) as (z & Hz & Hne & Hlt & Hsplit). exists z.
      assert (Hab : (StartKey a < EndKey z)%key) by (rewrite <-Heq in Hlt; key_order).
      split_and!; [|done|done|].
      * destruct (filter (ends_before e) (b :: rest)) as [|w ws] eqn:Ew; [done|]. by rewrite last_cons_cons.
      * rewrite (filter_cons (λ y, (StartKey y < e)%key)), decide_True by (rewrite <-Heq; tauto).
        rewrite (filter_cons (λ y, (EndKey z ≤ StartKey y)%key) a), decide_False by (intros ?; key_order).
        cbn [app]. by rewrite <-Hsplit.
    + destruct (past_end e b rest He Hs' Hv' Hb) as [-> Hnil]. exists a. split_and!; [done|tauto|done|].
      rewrite (filter_cons (λ y, (StartKey y < e)%key)), decide_True, Hnil by (rewrite <-Heq; tauto).
      rewrite (filter_cons (λ y, (EndKey a ≤ StartKey y)%key) a), decide_False by (intros ?; key_order).
      rewrite filter_cons, decide_True by (rewrite Heq; key_order). done.
Qed.
End scanning.

Section user_regions.
Context {T : Type} `{!BTreeOps Region T, !BTreeLaws Region T}.
Variables (v : View) (r : RegionsInfo T).
Hypothesis Hscan : v_ScanRegions v = ScanRange r.
Hypothesis Hrange : v_ScanRangeWithEndKey v = ScanRangeWithEndKey r.
Hypothesis Hreach : reachable r.
Hypothesis Hcont : contiguous (bt_items (tree r)).

Lemma user_tree : tree_wf (tree r).
Proof. apply (proj2 (reachable_represents r Hreach)). Qed.

Lemma scan_one_spec k : ∃ xs, scan_one v k = inr (Some <$> xs) ∧ meta <$> xs = take 1 (items_from r k).
Proof.
  unfold scan_one. rewrite Hscan. destruct (ScanRange_spec r (abs r) k 1 (reachable_represents r Hreach)) as (xs & -> & Hm & _); [lia|].
  exists xs. done.
Qed.

Lemma items_from_ok k : StronglySorted before (items_from r k) ∧ Forall valid_range (items_from r k) ∧ contiguous (items_from r k).
Proof.
  destruct user_tree as [_ Hv Hs]. split_and!; [by apply StronglySorted_filter| |by apply items_suffix].
  apply list.Forall_forall. intros y [_ Hy]%list_elem_of_filter. rewrite list.Forall_forall in Hv. auto.
Qed.

Lemma items_from_from k k' : (k ≤ k')%key → items_from r k' = filter (λ y, (k' ≤ StartKey y)%key) (items_from r k).
Proof.
  intros Hk. unfold items_from. rewrite list_filter_filter. apply list_filter_iff. intros y. split; [|tauto]. intros ?. split; [done|key_order].
Qed.

Lemma ids_of xs (l : list Region) : meta <$> xs = l → GetID <$> xs = Region_Id <$> l.
Proof. intros <-. by rewrite <-list_fmap_compose. Qed.

(** The whole key space is one region. *)
Definition whole (a : Region) : Prop := StartKey a = [] ∧ EndKey a = [].

Lemma scanned_last k e z : last (filter (ends_before e) (items_from r k)) = Some z →
  ∃ x, last (ScanRangeWithEndKey r k e) = Some x ∧ meta x = z.
Proof.
  destruct (ScanRangeWithEndKey_spec r (abs r) k e (reachable_represents r Hreach)) as [<- _]. rewrite fmap_last.
  destruct (last (ScanRangeWithEndKey r k e)) as [x|]; [|done]. intros [= <-]. by exists x.
Qed.

Lemma empty_test (k : bytes) : (length k =? 0)%nat = bool_decide (k = []).
Proof. by destruct k. Qed.

(** A bounded range: the first region that starts in or after it, and those that
    start in it. *)
Lemma GetRegionIDs_bounded ks ke s e : hex_DecodeString ks = Some s → hex_DecodeString ke = Some e → e ≠ [] →
  GetRegionIDs v ks ke = inr (Region_Id <$>
    match items_from r s with
    | [] => []
    | a :: rest => if bool_decide (whole a) then [] else a :: filter (λ y, (StartKey y < e)%key) rest
    end).
Proof.
  intros Es Ee He. unfold GetRegionIDs. rewrite Es, Ee, Hrange. cbn zeta.
  destruct (ScanRangeWithEndKey_spec r (abs r) s e (reachable_represents r Hreach)) as [Hm _].
  destruct (items_from_ok s) as (Hs & Hv & Hc).
  destruct (scan_one_spec s) as (xs & Hxs & Hxm).
  pose proof (λ z, scanned_last s e z) as Hlast.
  assert (Hge : Forall (λ y, (s ≤ StartKey y)%key) (items_from r s)).
  { apply list.Forall_forall. by intros y [? _]%list_elem_of_filter. }
  pose proof (λ k, items_from_from s k) as Hfrom.
  destruct (items_from r s) as [|a rest] eqn:Ef.
  { rewrite filter_nil in Hm. apply fmap_nil_inv in Hm. rewrite Hm. cbn [last]. rewrite Hxs. cbn in Hxm. apply fmap_nil_inv in Hxm. by rewrite Hxm. }
  destruct (decide (ends_before e a)) as [Ha|Ha].
  - destruct (scan_and_next e rest He a Hs Hv Hc Ha) as (z & Hz & Hne & Hlt & Hsplit).
    destruct (Hlast z Hz) as (x & Hx & Hmx). rewrite Hx. cbn zeta. unfold GetEndKey. rewrite Hmx, empty_test, bool_decide_eq_false_2 by done.
    destruct (scan_one_spec (EndKey z)) as (ys & -> & Hym). cbn [mbind result_bind].
    rewrite bool_decide_eq_false_2 by (intros [_ Hw]; destruct Ha as [?|[? _]]; done).
    apply Forall_cons in Hge as [Hsa _]. rewrite (Hfrom (EndKey z)) in Hym by key_order.
    rewrite Hsplit, fmap_app, (ids_of _ _ Hm). rewrite <-Hym.
    assert (Hl : (length ys ≤ 1)%nat) by (rewrite <-(length_fmap meta), Hym, length_take; lia).
    destruct ys as [|y [|??]]; [by rewrite app_nil_r|done|cbn in Hl; lia].
  - destruct (past_end e a rest He Hs Hv Ha) as [Hnil Hnil2]. rewrite Hnil in Hm. apply fmap_nil_inv in Hm. rewrite Hm. cbn [last].
    rewrite Hxs. cbn [mbind result_bind]. cbn in Hxm. destruct xs as [|x [|??]]; try done. injection Hxm as Hxm.
    cbn [fmap list_fmap]. unfold GetStartKey, GetEndKey, GetID. rewrite Hxm, !empty_test, Hnil2.
    destruct (decide (whole a)) as [[Hw1 Hw2]|Hw].
    + rewrite (bool_decide_eq_true_2 (whole a)) by done. by rewrite !bool_decide_eq_true_2.
    + rewrite (bool_decide_eq_false_2 (whole a)) by done. unfold whole in Hw.
      destruct (decide (StartKey a = [])), (decide (EndKey a = [])); rewrite ?bool_decide_eq_true_2, ?bool_decide_eq_false_2 by done; try done; tauto.
Qed.

(** The regions of a rule with a bounded range, when the regions leave no hole
    and are more than one.  If some region starts in the range, they are exactly
    the regions that start in it.  Otherwise the range lies within one region, and
    the next region is returned, none of whose keys is in the range. *)
Theorem GetRegionIDs_regions ks ke s e :
  hex_DecodeString ks = Some s → hex_DecodeString ke = Some e → e ≠ [] → Forall (λ a, ¬ whole a) (bt_items (tree r)) →
  let starts := filter (λ y, (s ≤ StartKey y)%key ∧ (StartKey y < e)%key) (bt_items (tree r)) in
  (starts ≠ [] → GetRegionIDs v ks ke = inr (Region_Id <$> starts)) ∧
  (starts = [] → ∀ a, head (items_from r s) = Some a →
     GetRegionIDs v ks ke = inr [Region_Id a] ∧ ∀ k, in_range a k → ¬ ((s ≤ k)%key ∧ (k < e)%key)).
Proof.
  intros Es Ee He Hw starts. rewrite (GetRegionIDs_bounded ks ke s e Es Ee He).
  assert (Hst : starts = filter (λ y, (StartKey y < e)%key) (items_from r s)).
  { unfold starts, items_from. rewrite list_filter_filter. apply list_filter_iff. tauto. }
  rewrite Hst. destruct (items_from_ok s) as (Hs & Hv & _). rewrite list.Forall_forall in Hw.
  assert (Hin : ∀ y, y ∈ items_from r s → y ∈ bt_items (tree r)) by by intros y [_ ?]%list_elem_of_filter.
  destruct (items_from r s) as [|a rest]; [done|]. rewrite bool_decide_eq_false_2 by (apply Hw, Hin; by left). rewrite filter_cons.
  case_decide as Ha.
  - split; [done|]. discriminate.
  - assert (Hnone : filter (λ y, (StartKey y < e)%key) rest = []).
    { apply filter_none. intros y Hy Hlt. apply StronglySorted_inv in Hs as [_ Hs]. rewrite list.Forall_forall in Hs, Hv.
      pose proof (before_start a y (Hv a ltac:(by left)) (Hs y Hy)). key_order. }
    rewrite Hnone. split; [done|]. intros _ ? [= <-]. split; [done|]. intros k [Hk _] [_ Hlt]. key_order.
Qed.
End user_regions.

(** ** The schedulers of the rules *)

Section schedulers.
Context `{!Unicode} `{!Classifier}.
Context {C : Type} `{!Cluster C, !ScheduleCluster C, !ScheduleClusterLaws C}.
Variables (now : Z) (call : nat → bool).
Implicit Types (c : C) (v : View) (region : RegionInfo) (s : userScheduler).

(** The store may be the target of a leader, or of a peer. *)
Definition fit (transferLeader moveRegion : bool) v (id : Z) : Prop :=
  ∃ st, v_GetStore v id = Some st ∧ alive now v st ∧ IsOffline (v_heap v) st = false ∧
    (transferLeader = true → connected now st ∧ leadable v st) ∧ (moveRegion = true → has_room call v st ∧ few_pending v st).

Lemma fit_spec leader peer v id st : v_GetStore v id = Some st →
  state_FilterTarget (v_heap v) now call leader peer (v_opt v) st = false ↔ fit leader peer v id.
Proof.
  intros Hst. unfold fit. rewrite state_target_spec, Hst. split; [by eexists|]. by intros (? & [= <-] & ?).
Qed.

Lemma filter_target_fit c id : is_Some (v_GetStore (view c) id) →
  ∃ bad, filter_target_nil now call c (v_GetStore (view c) id) region_filters = inr bad ∧
    (bad = false ↔ fit false true (view c) id).
Proof.
  intros [st Hst]. rewrite Hst. eexists. split; [reflexivity|]. cbn. rewrite orb_false_r. by apply fit_spec.
Qed.

(** *** Regions *)

Section regions.
Variable region_order : RegionInfo → list Z.
Variables order order' : gset Z → list Z.
Hypothesis Horder : ∀ S, order S ≡ₚ elements S.
Hypothesis Horder' : ∀ S, order' S ≡ₚ elements S.
Hypothesis Hregion : ∀ region, region_order region ≡ₚ elements (GetStoreIds region).

Lemma pass_targets_spec c ids : (∀ id, id ∈ ids → is_Some (v_GetStore (view c) id)) →
  ∃ targets, pass_targets now call c ids = inr targets ∧ ∀ id, id ∈ targets ↔ id ∈ ids ∧ fit false true (view c) id.
Proof.
  induction ids as [|id ids IH]; intros Hknown; [exists []; split; [done|]; intros ?; by rewrite elem_of_nil; split; [|intros [? _]]|].
  destruct (filter_target_fit c id) as (bad & Hbad & Hfit); [apply Hknown; by left|].
  destruct IH as (rest & Hrest & Hin); [intros; apply Hknown; by right|].
  cbn [pass_targets]. rewrite Hbad. cbn [mbind result_bind]. rewrite Hrest. eexists. split; [reflexivity|].
  intros x. destruct bad; rewrite !elem_of_cons, Hin; [|naive_solver]. split; [tauto|]. intros [[->|?] Hx]; [by apply Hfit in Hx|done].
Qed.

Lemma fill_stores_spec c replicas ids : (∀ id, id ∈ ids → is_Some (v_GetStore (view c) id)) → ∀ storeMap : gset Z,
  ∃ S, fill_stores now call c replicas ids storeMap = inr S ∧ storeMap ⊆ S ∧
    Z.of_nat (size S) ≤ Z.max replicas (Z.of_nat (size storeMap)) ∧
    ∀ id, id ∈ S → id ∈ storeMap ∨ id ∈ ids ∧ fit false true (view c) id.
Proof.
  induction ids as [|id ids IH]; intros Hknown storeMap; cbn [fill_stores].
  { exists storeMap. split_and!; [done..|lia|by left]. }
  assert (Hids : ∀ id, id ∈ ids → is_Some (v_GetStore (view c) id)) by (intros; apply Hknown; by right).
  destruct (Z.ltb_spec (Z.of_nat (size storeMap)) replicas) as [Hlt|Hge].
  2:{ exists storeMap. split_and!; [done..|lia|by left]. }
  case_bool_decide as Hin.
  { destruct (IH Hids storeMap) as (S & -> & Hsub & Hsize & HS). exists S. split_and!; [done..|].
    intros x Hx. destruct (HS x Hx) as [?|[? ?]]; [by left|right; split; [by right|done]]. }
  destruct (filter_target_fit c id) as (bad & Hbad & Hfit); [apply Hknown; by left|]. rewrite Hbad. cbn [mbind result_bind].
  destruct bad.
  - destruct (IH Hids storeMap) as (S & -> & Hsub & Hsize & HS). exists S. split_and!; [done..|].
    intros x Hx. destruct (HS x Hx) as [?|[? ?]]; [by left|right; split; [by right|done]].
  - destruct (IH Hids ({[id]} ∪ storeMap)) as (S & -> & Hsub & Hsize & HS). exists S. split_and!; [done|set_solver| |].
    + rewrite size_union, size_singleton in Hsize by set_solver. lia.
    + intros x Hx. destruct (HS x Hx) as [[->%elem_of_singleton|?]%elem_of_union|[? ?]]; [right|by left|right; split; [by right|done]].
      split; [by left|by apply Hfit].
Qed.

(** The stores a rule moves a region to: all its stores that may take a peer, and
    others up to the number of replicas. *)
Definition rule_placement v (targets : list Z) (S : gset Z) : Prop :=
  list_to_set targets ⊆ S ∧ opt_MaxReplicas (v_opt v) ≤ Z.of_nat (size S) ∧
  Z.of_nat (size S) ≤ Z.max (opt_MaxReplicas (v_opt v)) (Z.of_nat (size (list_to_set targets : gset Z))) ∧
  ∀ id, id ∈ S → fit false true v id.

Definition moves_region v (ids targets : list Z) (op : Operator) : Prop :=
  ∃ id region S, id ∈ ids ∧ v_GetRegion v id = Some region ∧ op_regionID op = GetID region ∧
    op_regionEpoch op = GetRegionEpoch region ∧ ¬ (∀ t, t ∈ targets → t ∈ stores region) ∧ rule_placement v targets S ∧
    (plain_region region → ∃ l, exec_safe (Nat.min (length (stores region)) (size S)) (op_steps op) (voters_of region) (mkPlacement S ∅ l)).

Lemma move_add_steps_view region l : ∀ steps c, view (move_add_steps region l steps c).1 = view c.
Proof.
  induction l as [|id l IH]; intros steps c; cbn [move_add_steps]; [done|]. destruct (GetStorePeer region id); [apply IH|].
  rewrite M_bind_eq. pose proof (alloc_add_steps_view id c) as Hv. destruct (alloc_add_steps id c) as [c1 [?|?]]; [done|]. by rewrite IH.
Qed.

Lemma move_add_steps_error region l : ∀ steps c msg, (move_add_steps region l steps c).2 ≠ inl (Panic msg).
Proof.
  induction l as [|id l IH]; intros steps c msg; cbn [move_add_steps]; [done|]. destruct (GetStorePeer region id); [apply IH|].
  rewrite M_bind_eq. unfold alloc_add_steps at 1. pose proof (AllocPeer_error c id msg) as He.
  destruct (AllocPeer id c) as [c1 [?|?]]; cbn in *; [congruence|apply IH].
Qed.

Lemma allExist_spec targets region : allExist targets region = true ↔ ∀ t, t ∈ targets → t ∈ stores region.
Proof.
  unfold allExist. rewrite forallb_forall. setoid_rewrite <-list_elem_of_In. setoid_rewrite bool_decide_eq_true.
  by setoid_rewrite elem_of_store_ids.
Qed.

Lemma region_loop_yields v targets all ids : targets ≠ [] → (∀ id, id ∈ targets → fit false true v id) →
  (∀ id, id ∈ ids → id ∈ all) →
  (∀ id region st, id ∈ ids → v_GetRegion v id = Some region → st ∈ stores region → is_Some (v_GetStore v st)) →
  ∀ (storeMap : gset Z) c, view c = v → list_to_set targets ⊆ storeMap → (∀ id, id ∈ storeMap → fit false true v id) →
  Z.of_nat (size storeMap) ≤ Z.max (opt_MaxReplicas (v_opt v)) (Z.of_nat (size (list_to_set targets : gset Z))) →
  yields (region_loop now call region_order order order' targets ids storeMap) c (moves_region v all targets).
Proof.
  intros Hne Htargets. induction ids as [|id ids IH]; intros Hall Hknown storeMap c Hv Hsub Hfit Hsize; unfold yields; cbn [region_loop];
    [by apply (yields_none c)|].
  assert (IH' : ∀ (storeMap : gset Z) c, view c = v → list_to_set targets ⊆ storeMap → (∀ id, id ∈ storeMap → fit false true v id) →
    Z.of_nat (size storeMap) ≤ Z.max (opt_MaxReplicas (v_opt v)) (Z.of_nat (size (list_to_set targets : gset Z))) →
    yields (region_loop now call region_order order order' targets ids storeMap) c (moves_region v all targets)).
  { apply IH; [intros; apply Hall; by right|]. intros x region st Hx. apply Hknown. by right. } clear IH. subst v.
  destruct (v_GetRegion (view c) id) as [region|] eqn:Er; [|by apply IH'].
  destruct (allExist targets region) eqn:Eall; [by apply IH'|].
  destruct (fill_stores_spec c (opt_MaxReplicas (v_opt (view c))) (region_order region)) with storeMap as (S & HS & HsubS & HsizeS & HinS).
  { intros st. rewrite Hregion, elem_of_elements, elem_of_store_ids. intros Hst. by eapply (Hknown id); [left|..]. }
  rewrite HS. assert (HfitS : ∀ x, x ∈ S → fit false true (view c) x) by (intros x Hx; destruct (HinS x Hx) as [?|[_ ?]]; auto).
  assert (Hsub2 : list_to_set targets ⊆ S) by set_solver.
  assert (HsizeS2 : Z.of_nat (size S) ≤ Z.max (opt_MaxReplicas (v_opt (view c))) (Z.of_nat (size (list_to_set targets : gset Z)))) by lia.
  destruct (Z.ltb_spec (Z.of_nat (size S)) (opt_MaxReplicas (v_opt (view c)))) as [Hlt|Hge]; [by apply IH'|].
  destruct (CreateMoveRegionOperator _ _ _ _ _ _ _ c) as [c1 r] eqn:Eop.
  assert (Hv1 : view c1 = view c ∧ ∀ msg, r ≠ inl (Panic msg)).
  { revert Eop. unfold CreateMoveRegionOperator. rewrite M_bind_eq. pose proof (move_add_steps_view region (order S) [] c) as Hv1.
    pose proof (move_add_steps_error region (order S) [] c) as He. destruct (move_add_steps region (order S) [] c) as [c2 [?|?]]; cbn in *;
      intros [= <- <-]; (split; [congruence|]); intros msg; [intros [= ->]; by apply (He msg)|done]. }
  destruct Hv1 as [Hv1 Hnp]. destruct r as [[msg|msg]|op]; [| |].
  - destruct (IH' S c1) as (c2 & r & Hr & Hv2 & HQ); [done..|]. exists c2, r. split_and!; [done|congruence|done].
  - by destruct (Hnp msg).
  - exists c1, (Some op). split_and!; [done|congruence|]. intros ? [= <-]. exists id, region, S.
    assert (Hmeta : op_regionID op = GetID region ∧ op_regionEpoch op = GetRegionEpoch region).
    { revert Eop. unfold CreateMoveRegionOperator. rewrite M_bind_eq. destruct (move_add_steps _ _ _ _) as [? [?|?]]; [done|]. by intros [= _ <-]. }
    destruct Hmeta as [? ?]. split_and!; [apply Hall; by left|done..| | |].
    + rewrite <-allExist_spec. congruence.
    + split_and!; [done|lia|done|done].
    + intros Hpr. eapply move_region_correct; [done| |apply Horder|apply Horder'|exact Eop].
      destruct targets as [|t ?]; [done|]. set_solver.
Qed.

(** C33: The scheduler that moves regions.  If the stores of the rule and of the
    peers of its regions are known, it returns, changes at most the ids allocated,
    and proposes only while the rule is active.  An operator moves one of the rule's
    regions that misses a peer on some store of the rule fit for one: to all stores of
    the rule fit for one and others fit for a peer, as many as there are replicas
    or more if the rule names more; on a region with only voters, never with fewer
    of them than it starts or ends with and never without a leader. *)
Theorem moveRegion_correct s c ids :
  GetRegionIDs (view c) (us_keyStart s) (us_keyEnd s) = inr ids →
  (∀ id, id ∈ us_storeIDs s → is_Some (v_GetStore (view c) id)) →
  (∀ id region st, id ∈ ids → v_GetRegion (view c) id = Some region → st ∈ stores region → is_Some (v_GetStore (view c) st)) →
  ∃ s' c' r, moveRegion_Schedule now call region_order order order' s c = (s', c', inr r) ∧ view c' = view c ∧
    ∀ op, r = Some op → rule_active now (us_interval s) = true ∧
      ∃ targets, (∀ t, t ∈ targets ↔ t ∈ us_storeIDs s ∧ fit false true (view c) t) ∧ moves_region (view c) ids targets op.
Proof.
  intros Hids Hstores Hpeers. unfold moveRegion_Schedule. rewrite Hids. destruct (rule_active now (us_interval s)) eqn:Ea; cbn [negb].
  2:{ by eexists _, _, None. }
  cbn zeta. cbn [us_storeIDs set_regionIDs]. destruct (length (us_storeIDs s) =? 0)%nat; [by eexists _, _, None|].
  destruct (pass_targets_spec c (us_storeIDs s) Hstores) as (targets & -> & Htargets).
  destruct (Nat.eqb_spec (size (list_to_set targets : gset Z)) 0) as [Hz|Hz]; [by eexists _, _, None|].
  destruct (region_loop_yields (view c) targets ids ids) with (storeMap := list_to_set targets : gset Z) (c := c) as (c' & r & Hr & Hv & HQ); try done.
  - intros ->. done.
  - intros id Hid. by apply Htargets.
  - intros id Hid. apply elem_of_list_to_set in Hid. by apply Htargets.
  - lia.
  - rewrite Hr. eexists _, c', r. split_and!; [done..|]. intros op Hop. split; [done|]. exists targets. split; [exact Htargets|by apply HQ].
Qed.
End regions.

(** *** Leaders *)

Section leaders.
Variable rules : nat → list (bytes * PluginInfo).

Lemma IfOverlap_elem l1 l2 x : x ∈ IfOverlap l1 l2 ↔ x ∈ l1 ∧ x ∈ l2.
Proof.
  unfold IfOverlap. rewrite list_elem_of_join. split.
  - intros (l & Hx & (i & -> & Hi)%list_elem_of_fmap). apply list_elem_of_omap in Hx as (j & Hj & Hij).
    destruct (Z.eqb_spec i j); [|done]. by simplify_eq.
  - intros [H1 H2]. eexists. split; [|apply list_elem_of_fmap; by eexists]. apply list_elem_of_omap. exists x. by rewrite Z.eqb_refl.
Qed.

(** The regions of all rules can be listed. *)
Definition rules_listed v : Prop := ∀ i name p, (name, p) ∈ rules i → ∃ ids, GetRegionIDs v (KeyStart p) (KeyEnd p) = inr ids.

Lemma adjust_target_spec c interval storeIDs regionID targetID rs : targetID ∈ storeIDs →
  (∀ name p, (name, p) ∈ rs → ∃ ids, GetRegionIDs (view c) (KeyStart p) (KeyEnd p) = inr ids) →
  ∃ t, adjust_target c interval storeIDs regionID targetID rs = inr t ∧ t ∈ storeIDs.
Proof.
  intros Ht. induction rs as [|[name p] rs IH]; intros Hl; cbn [adjust_target]; [by exists targetID|].
  destruct IH as (t & Ht' & Hin); [intros ? ? ?; eapply Hl; by right|].
  case_bool_decide; [|by exists t]. destruct (Hl name p) as [ids ->]; [by left|]. cbn [mbind result_bind].
  destruct (_ && _); [|by exists t]. destruct (IfOverlap storeIDs (StoreIDs p)) as [|x l] eqn:Eo; [by exists t|].
  exists x. split; [done|]. apply (IfOverlap_elem storeIDs (StoreIDs p)). rewrite Eo. by left.
Qed.

(** The operator makes [target], a store of the rule, lead the region. *)
Definition leads_to v (storeIDs ids : list Z) (op : Operator) : Prop :=
  ∃ id region old target, id ∈ ids ∧ v_GetRegion v id = Some region ∧ op_regionID op = GetID region ∧
    op_regionEpoch op = GetRegionEpoch region ∧ old = Peer_GetStoreId (GetLeader region) ∧ (old ∉ storeIDs) ∧ target ∈ storeIDs ∧
    (target ∈ stores region ∧ fit true false v target ∨ (target ∉ stores region) ∧ fit false true v target) ∧
    (plain_region region → ∃ vs, exec_safe (length (stores region)) (op_steps op) (voters_of region) (mkPlacement vs ∅ target)).

Lemma both_pass_spec c source target tl mr : is_Some (v_GetStore (view c) source) → is_Some (v_GetStore (view c) target) →
  ∃ b, both_pass now call c (v_GetStore (view c) source) (v_GetStore (view c) target) [StoreStateFilter tl mr] = inr b ∧
    (b = true → fit tl mr (view c) target).
Proof.
  intros [so Hso] [st Hst]. rewrite Hso, Hst. unfold both_pass, filter_source_nil, filter_target_nil. cbn [mbind result_bind].
  destruct (FilterSource _ _ _ _ so _); [by exists false|]. eexists. split; [reflexivity|]. cbn. rewrite orb_false_r.
  intros Hf%negb_true_iff. by apply (fit_spec _ _ _ _ st).
Qed.

Lemma isExists_spec x l : isExists x l = true ↔ x ∈ l.
Proof.
  unfold isExists. rewrite existsb_exists. split; [intros (y & ?%list_elem_of_In & ->%Z.eqb_eq); done|].
  intros ?%list_elem_of_In. exists x. by rewrite Z.eqb_refl.
Qed.

Lemma move_leader_yields c id region target ids storeIDs : let old := Peer_GetStoreId (GetLeader region) in
  id ∈ ids → v_GetRegion (view c) id = Some region → (old ∉ storeIDs) → target ∈ storeIDs →
  is_Some (v_GetStore (view c) old) → is_Some (v_GetStore (view c) target) →
  yields (move_leader now call region old target) c (leads_to (view c) storeIDs ids).
Proof.
  intros old Hid Hreg Hold Htarget Hso Hst. unfold move_leader, yields. cbn zeta. case_bool_decide as Hin; rewrite elem_of_store_ids in Hin.
  - destruct (both_pass_spec c old target true false Hso Hst) as ([] & -> & Hfit); [|by apply (yields_none c)].
    apply (yields_some c). exists id, region, old, target. split_and!; [done..|left; by split; [|apply Hfit]|].
    intros Hpr. destruct (pr_leader _ Hpr) as (l & Hl & Hlin). eexists. cbn [op_steps SetPriorityLevel CreateTransferLeaderOperator NewOperator].
    apply exec_transfer; [by apply elem_of_list_to_set|]. by rewrite size_stores by apply Hpr.
  - destruct (both_pass_spec c old target false true Hso Hst) as ([] & -> & Hfit); [|by apply (yields_none c)].
    pose proof (AllocPeer_view c target) as Hv. pose proof (AllocPeer_error c target) as He.
    destruct (AllocPeer target c) as [c1 [[msg|msg]|p]]; cbn in Hv, He.
    + by exists c1, None.
    + by destruct (He msg).
    + destruct (CreateMoveLeaderOperator _ _ _ _ _ _ _ _) as [[msg|msg]|op] eqn:Eop.
      * by exists c1, None.
      * exfalso. revert Eop. unfold CreateMoveLeaderOperator, removePeerSteps. repeat case_match; congruence.
      * exists c1, (Some (SetPriorityLevel HighPriority op)). split_and!; [done..|]. intros ? [= <-].
        assert (Hmeta : op_regionID op = GetID region ∧ op_regionEpoch op = GetRegionEpoch region).
        { revert Eop. unfold CreateMoveLeaderOperator. destruct (removePeerSteps _ _ _ _) as [?|[??]]; [done|]. by intros [= <-]. }
        destruct Hmeta as [? ?]. exists id, region, old, target. split_and!; [done..|right; by split; [|apply Hfit]|].
        intros Hpr. destruct (pr_leader _ Hpr) as (l & Hl & Hlin).
        assert (Holdin : old ∈ stores region) by (unfold old, stores; rewrite Hl, list_elem_of_fmap; by exists l).
        assert (Hfol : is_FollowerIDs region (map_to_list (GetFollowers region)).*1) by (unfold is_FollowerIDs; reflexivity).
        destruct (move_leader_safe "move-leader-user" region _ Hpr Hfol c1 _ _ _ _ _ _ Holdin Hin Eop) as (l' & Hex & ->).
        by eexists.
Qed.

Lemma next_seq_range (storeIDs : list Z) seq : (seq < length storeIDs)%nat → (next_seq storeIDs seq < length storeIDs)%nat.
Proof. unfold next_seq. intros Hs. destruct (Z.ltb_spec (Z.of_nat seq) (Z.of_nat (length storeIDs) - 1)); lia. Qed.

Lemma leader_loop_spec v s all : rules_listed v → (∀ t, t ∈ us_storeIDs s → is_Some (v_GetStore v t)) → ∀ ids,
  (∀ id, id ∈ ids → id ∈ all) →
  (∀ id region, id ∈ ids → v_GetRegion v id = Some region → is_Some (v_GetStore v (Peer_GetStoreId (GetLeader region)))) →
  ∀ i seq c, view c = v → (seq < length (us_storeIDs s))%nat →
  ∃ seq' c' r, leader_loop now call rules s i ids (seq, c) = ((seq', c'), inr r) ∧ view c' = v ∧
    (seq' < length (us_storeIDs s))%nat ∧ ∀ op, r = Some op → leads_to v (us_storeIDs s) all op.
Proof.
  intros Hrules Hstores. induction ids as [|id ids IH]; intros Hall Hknown i seq c Hv Hseq; cbn [leader_loop]; [by exists seq, c, None|].
  assert (IH' : ∀ i seq c, view c = v → (seq < length (us_storeIDs s))%nat →
    ∃ seq' c' r, leader_loop now call rules s i ids (seq, c) = ((seq', c'), inr r) ∧ view c' = v ∧
    (seq' < length (us_storeIDs s))%nat ∧ ∀ op, r = Some op → leads_to v (us_storeIDs s) all op).
  { apply IH; [intros; apply Hall; by right|]. intros x region Hx. apply Hknown. by right. } clear IH. subst v.
  destruct (v_GetRegion (view c) id) as [region|] eqn:Er; [|by apply IH'].
  destruct (isExists _ (us_storeIDs s)) eqn:Ein; [by apply IH'|].
  destruct (lookup_lt_is_Some_2 (us_storeIDs s) seq Hseq) as [t0 Ht0]. rewrite Ht0.
  destruct (adjust_target_spec c (us_interval s) (us_storeIDs s) id t0 (rules i)) as (t & -> & Ht);
    [by eapply list_elem_of_lookup_2|intros; by eapply Hrules|]. cbn zeta.
  destruct (move_leader_yields c id region t all (us_storeIDs s)) as (c1 & r & -> & Hv1 & HQ); auto.
  - apply Hall. by left.
  - rewrite <-isExists_spec. congruence.
  - eapply (Hknown id); [by left|done].
  - pose proof (next_seq_range _ _ Hseq). destruct r as [op|]; [eexists _, _, (Some op); by split_and!|]. by apply IH'.
Qed.

(** The scheduler that moves leaders.  If the regions of the rules can be listed
    and the stores of the rule and of the leaders of its regions are known, it
    returns, its position in the list of stores stays in range, and an operator it
    proposes is for one of the rule's regions whose leader is on no store of the
    rule: it transfers the leadership to a peer on a store of the rule that may
    lead, or moves the leader to one that may take a peer, never with fewer voters
    than before. *)
Theorem moveLeader_correct s c ids :
  GetRegionIDs (view c) (us_keyStart s) (us_keyEnd s) = inr ids → rules_listed (view c) →
  (∀ t, t ∈ us_storeIDs s → is_Some (v_GetStore (view c) t)) →
  (∀ id region, id ∈ ids → v_GetRegion (view c) id = Some region →
     is_Some (v_GetStore (view c) (Peer_GetStoreId (GetLeader region)))) →
  (us_storeSeq s < length (us_storeIDs s))%nat →
  ∃ s' c' r, moveLeader_Schedule now call rules s c = (s', c', inr r) ∧ view c' = view c ∧
    us_storeIDs s' = us_storeIDs s ∧ (us_storeSeq s' < length (us_storeIDs s'))%nat ∧
    ∀ op, r = Some op → rule_active now (us_interval s) = true ∧ leads_to (view c) (us_storeIDs s) ids op.
Proof.
  intros Hids Hrules Hstores Hleaders Hseq. unfold moveLeader_Schedule. rewrite Hids.
  destruct (rule_active now (us_interval s)) eqn:Ea; cbn [negb]; [|by eexists _, _, None].
  cbn zeta. cbn [us_storeIDs set_regionIDs]. destruct (length (us_storeIDs s) =? 0)%nat; [by eexists _, _, None|].
  destruct (leader_loop_spec (view c) (set_regionIDs ids s) ids) with (ids := ids) (i := 0%nat) (seq := us_storeSeq s) (c := c)
    as (seq & c' & r & Hr & Hv & Hseq' & HQ); auto.
  cbn [us_storeSeq set_regionIDs]. rewrite Hr. eexists _, c', r. split_and!; [done..|]. intros op Hop. split; [done|by apply HQ].
Qed.

(** A region without a leader stops the scheduler that moves leaders: it looks
    for a store with the id 0 and dereferences what it does not find. *)
Theorem moveLeader_panics s c id ids region t :
  rule_active now (us_interval s) = true → GetRegionIDs (view c) (us_keyStart s) (us_keyEnd s) = inr (id :: ids) →
  v_GetRegion (view c) id = Some region → GetLeader region = None →
  v_GetStore (view c) 0 = None → (0 ∉ us_storeIDs s) → us_storeIDs s !! us_storeSeq s = Some t → rules_listed (view c) →
  ∃ s' c', moveLeader_Schedule now call rules s c = (s', c', inl nil_region).
Proof.
  intros Ha Hids Hreg Hlead Hz Hn0 Ht Hrules. unfold moveLeader_Schedule. rewrite Ha, Hids. cbn [negb].
  assert (Hlen : (length (us_storeIDs s) =? 0)%nat = false) by (apply Nat.eqb_neq; apply lookup_lt_Some in Ht; lia).
  cbn zeta. cbn [us_storeIDs us_storeSeq set_regionIDs]. rewrite Hlen. cbn [leader_loop us_storeIDs set_regionIDs]. rewrite Hreg, Hlead.
  change (Peer_GetStoreId None) with 0. destruct (isExists 0 (us_storeIDs s)) eqn:Ein; [by apply isExists_spec in Ein|]. rewrite Ht.
  destruct (adjust_target_spec c (us_interval s) (us_storeIDs s) id t (rules 0)) as (t' & Hadj & _);
    [by eapply list_elem_of_lookup_2|intros; by eapply Hrules|].
  cbn [us_interval set_regionIDs]. rewrite Hadj. cbn zeta. unfold move_leader. cbn zeta. rewrite Hz.
  assert (Hb : ∀ tl mr, both_pass now call c None (v_GetStore (view c) t') [StoreStateFilter tl mr] = inl nil_region) by done.
  rewrite !Hb. case_bool_decide; by eexists _, _.
Qed.
End leaders.
End schedulers.

(** ** Examples *)

Module PluginDemo.
Import Latin.
Import SortedList.

(** Two regions split at [m]; a rule about the keys from [a] to [b], inside the
    first one, gets the second one. *)
Definition regions_view : View :=
  mkView ∅ ∅ ∅ ScheduleDemo.opt (GetRegion Demo.cache) (ScanRange Demo.cache) (ScanRangeWithEndKey Demo.cache) (λ _, (None, None)) (λ _, false).

Lemma GetRegionIDs_regions_witness :
  GetRegionIDs regions_view (str "61") (str "62") = inr [2] ∧ ∀ k, in_range Demo.meta2 k → ¬ ((str "a" ≤ k)%key ∧ (k < str "b")%key).
Proof.
  assert (Hcont : contiguous (bt_items (tree Demo.cache))) by (vm_compute; split; [reflexivity|exact I]).
  assert (Hw : Forall (λ a, ¬ whole a) (bt_items (tree Demo.cache))) by (refine (bool_decide_unpack _ _); vm_compute; exact I).
  assert (Hs : filter (λ y, (str "a" ≤ StartKey y)%key ∧ (StartKey y < str "b")%key) (bt_items (tree Demo.cache)) = []) by (vm_compute; reflexivity).
  destruct (GetRegionIDs_regions regions_view Demo.cache eq_refl eq_refl Demo.cache_reachable Hcont (str "61") (str "62") (str "a") (str "b"))
    as [_ Hnone]; [vm_compute; reflexivity|vm_compute; reflexivity|discriminate|exact Hw|].
  apply (Hnone Hs Demo.meta2). vm_compute. reflexivity.
Defined.

(** Rules that conflict but are not found to.  An unbounded range and one
    inside it, and a range and the same one written in upper case, pass the check,
    and both rules of a pair are about the same region. *)
Theorem conflicts_missed :
  let mk s e := mkRule false (str s) (str e) [] 0 10 in
  any_conflict [mk "" ""; mk "6d" "7a"] = false ∧
  any_conflict [mk "6b" "6f"; mk "6B" "6F"] = false ∧
  Forall (λ r, GetRegionIDs regions_view (rl_KeyStart r) (rl_KeyEnd r) = inr [2]) [mk "6d" "7a"; mk "6b" "6f"; mk "6B" "6F"] ∧
  GetRegionIDs regions_view (str "") (str "") = inr [1; 2].
Proof. cbn zeta. split_and!; [..|refine (bool_decide_unpack _ _); vm_compute; exact I|]; vm_compute; reflexivity. Qed.

(** Seven stores, the second and third busy; two regions with a leader and one
    without. *)
Definition store (id : Z) (busy : bool) : StoreInfo :=
  mkStoreInfo (Z.to_pos id) (Some (mkStoreStats id (2 ^ 40) (2 ^ 39) (2 ^ 38) 0 0 0 0 busy 0 0 0 0 None)) false 0 0 0 0 0 0
    (f64_of_Z 1) (f64_of_Z 1) None.
Definition ids : list Z := [1; 2; 3; 4; 5; 6; 7].
Definition h : heap := list_to_map (M := gmap loc Store) ((λ id, (Z.to_pos id, mkStore id [] Up [] [])) <$> ids).
Definition all : StoresInfo := list_to_map (M := gmap Z StoreInfo) ((λ id, (id, store id ((id =? 2) || (id =? 3)))) <$> ids).

Definition region (id : Z) (on : list Z) (led : bool) : RegionInfo :=
  let peers := (λ s, mkPeer (10 * id + s) s false) <$> on in
  NewRegionInfo (mkRegion id [] [] (Some (mkRegionEpoch 1 1)) peers) (if led then head peers else None) [SetApproximateSize 10].
Definition first_ : RegionInfo := region 10 [1; 2; 3] true.
Definition second_ : RegionInfo := region 11 [5; 6; 7] true.
Definition orphan : RegionInfo := region 12 [5; 6; 7] false.

(** A rule whose range starts with [1] is about both regions, one with [2] about the
    last two, and one with [3] about the last. *)
Definition scan (k : bytes) : list RegionInfo :=
  if bool_decide (k = str "1") then [first_; second_] else if bool_decide (k = str "2") then [second_; orphan] else [orphan].
Definition v : View := mkView h all all ScheduleDemo.opt
  (λ id, list_to_map (M := gmap Z RegionInfo) [(10, first_); (11, second_); (12, orphan)] !! id)
  (λ _ _, Some []) (λ k _, scan k) (λ _, (None, None)) (λ _, false).

Definition cluster := Z.
#[export] Instance ops : Cluster cluster := {
  IsRaftLearnerEnabled _ := true;
  CheckLabelProperty _ _ _ := false;
  GetStoreLabels _ id := store_GetLabels h <$> all !! id;
  AllocPeer s c := (c + 1, inr (mkPeer (c + 1) s false));
}.
#[export] Instance demo_view : ScheduleCluster cluster := {| view _ := v |}.
#[export] Instance demo_laws : ScheduleClusterLaws cluster.
Proof. split; try done. intros c s p Hp. cbn in Hp. by simplify_eq. Qed.
#[export] Instance demo_classifier : Classifier := DefaultClassifier.

Definition quiet (f : nat) : bool := false.
Definition peers_order (r : RegionInfo) : list Z := elements (GetStoreIds r).
Definition order (S : gset Z) : list Z := elements S.
Lemma set_order_ok S : order S ≡ₚ elements S.
Proof. done. Qed.
Lemma peers_order_ok r : peers_order r ≡ₚ elements (GetStoreIds r).
Proof. done. Qed.

(** The rules name store 4. *)
Definition keep_region : userScheduler := newMoveRegionUserScheduler [] (str "31") [] [4] None.
Definition keep_second : userScheduler := newMoveRegionUserScheduler [] (str "32") [] [4] None.
Definition keep_leader : userScheduler := newMoveLeaderUserScheduler [] (str "31") [] [4] None.
Definition keep_orphan : userScheduler := newMoveLeaderUserScheduler [] (str "33") [] [4] None.

Definition known (l : list Z) : bool := forallb (λ id, bool_decide (is_Some (all !! id))) l.
Lemma known_all l : known l = true → ∀ id, id ∈ l → is_Some (v_GetStore v id).
Proof.
  unfold known. rewrite forallb_forall. intros Hl id Hid%list_elem_of_In. apply Hl in Hid. by apply bool_decide_eq_true in Hid.
Qed.
Lemma region_cases id r : v_GetRegion v id = Some r → r = first_ ∨ r = second_ ∨ r = orphan.
Proof.
  change (list_to_map (M := gmap Z RegionInfo) [(10, first_); (11, second_); (12, orphan)] !! id = Some r → r = first_ ∨ r = second_ ∨ r = orphan).
  intros Hr%elem_of_list_to_map_2. rewrite !elem_of_cons in Hr. destruct Hr as [[= _ ->]|[[= _ ->]|[[= _ ->]|Hr]]]; auto. by apply not_elem_of_nil in Hr.
Qed.

(** The second region alone is moved to store 4 and two of its own. *)
Lemma moveRegion_correct_witness : ∃ s' c' op, moveRegion_Schedule 0 quiet peers_order order order keep_second 100 = (s', c', inr (Some op)) ∧
  ∃ targets, moves_region 0 quiet v [11; 12] targets op.
Proof.
  destruct (moveRegion_correct 0 quiet peers_order order order set_order_ok set_order_ok peers_order_ok keep_second 100 [11; 12])
    as (s' & c' & r & E & _ & HQ).
  - vm_compute. reflexivity.
  - apply known_all. vm_compute. reflexivity.
  - intros id r st _ Hr. destruct (region_cases id r Hr) as [->|[->| ->]]; revert st; apply known_all; vm_compute; reflexivity.
  - assert (Hsome : (moveRegion_Schedule 0 quiet peers_order order order keep_second 100).2 ≠ inr None) by (vm_compute; discriminate).
    rewrite E in Hsome. destruct r as [op|]; [|by destruct Hsome]. exists s', c', op. split; [exact E|].
    destruct (HQ op eq_refl) as (_ & targets & _ & Hm). exists targets. exact Hm.
Defined.

(** The scheduler that moves regions mixes them up: the store of a peer of the
    first region, kept for it before it was given up, is used for the second one,
    which has no peer there and whose rule does not name it. *)
Theorem moveRegion_mixes : ∃ s' c' op peer, moveRegion_Schedule 0 quiet peers_order order order keep_region 100 = (s', c', inr (Some op)) ∧
  op_regionID op = GetID second_ ∧ AddLearner 1 peer ∈ op_steps op ∧ (1 ∉ us_storeIDs keep_region) ∧ (1 ∉ stores second_).
Proof.
  eexists _, _, _, _. split; [vm_compute; reflexivity|]. split; [reflexivity|].
  split; [repeat first [left|right]|]. split; refine (bool_decide_unpack _ _); vm_compute; exact I.
Qed.

Lemma no_rules : rules_listed (λ _, []) v.
Proof. by intros i name p Hp%not_elem_of_nil. Qed.

Lemma moveLeader_correct_witness : ∃ s' c' op, moveLeader_Schedule 0 quiet (λ _, []) keep_leader 100 = (s', c', inr (Some op)) ∧
  leads_to 0 quiet v [4] [10; 11] op.
Proof.
  destruct (moveLeader_correct 0 quiet (λ _, []) keep_leader 100 [10; 11]) as (s' & c' & r & E & _ & _ & _ & HQ).
  - vm_compute. reflexivity.
  - exact no_rules.
  - apply known_all. vm_compute. reflexivity.
  - intros id r Hid Hr. apply elem_of_cons in Hid as [->|Hid%list_elem_of_singleton]; [|subst id]; injection Hr as <-;
      refine (bool_decide_unpack _ _); vm_compute; exact I.
  - apply Nat.ltb_lt. vm_compute. reflexivity.
  - assert (Hsome : (moveLeader_Schedule 0 quiet (λ _, []) keep_leader 100).2 ≠ inr None) by (vm_compute; discriminate).
    rewrite E in Hsome. destruct r as [op|]; [|by destruct Hsome]. exists s', c', op. split; [exact E|]. exact (proj2 (HQ op eq_refl)).
Defined.

Lemma moveLeader_panics_witness : ∃ s' c', moveLeader_Schedule 0 quiet (λ _, []) keep_orphan 100 = (s', c', inl nil_region).
Proof.
  refine (moveLeader_panics 0 quiet (λ _, []) keep_orphan 100 12 [] orphan 4 _ _ _ _ _ _ _ no_rules); try (vm_compute; reflexivity).
  refine (bool_decide_unpack _ _). vm_compute. exact I.
Defined.
End PluginDemo.
