(* ===== verification/Schedulers.v ===== *)
(** * The schedulers (server/schedulers)

    base_scheduler.go, utils.go, balance_leader.go, balance_region.go, label.go,
    evict_leader.go, grant_leader.go, shuffle_leader.go, shuffle_region.go and
    random_merge.go: each scheduler looks at the cluster, or at the part of it in
    one namespace, and proposes an operator. *)

From S2P Require Import Prelude GoBytes BTree Strconv Strings Float KV Metapb Region RegionTree RegionMap RegionsInfo Cache Storage Store Statistics Config Operator Schedule Structure Checkers Plugin.

(** ** What the schedulers ask of the cluster besides the view *)

(** A random query takes the draws of the random generator; [None] is a panic. *)
Definition RandQuery : Type := (nat → nat) → Z → list RegionOption → option (option RegionInfo).

(** What the options set per namespace ([namespace.ScheduleOptions]). *)
Record Limits := mkLimits {
  l_LeaderScheduleLimit : Z;
  l_RegionScheduleLimit : Z;
  l_ReplicaScheduleLimit : Z;
  l_MergeScheduleLimit : Z;
  l_HotRegionScheduleLimit : Z;
  l_MaxReplicas : Z;
}.

(** The statistics of hot regions come with the median of their recent flow. *)
Record Queries := mkQueries {
  q_RandFollowerRegion : RandQuery;
  q_RandLeaderRegion : RandQuery;
  q_RandPendingRegion : RandQuery;
  q_GetAverageRegionSize : Z;
  q_GetStoreRegionCount : Z → Z;
  q_RegionWriteStats : list (RegionStat * f64);
  q_RegionReadStats : list (RegionStat * f64);
  q_Limits : Limits;
  q_GetOpt : bytes → Limits;
}.

Class SchedulerCluster (C : Type) `{!Cluster C, !ScheduleCluster C} := { queries : C → Queries }.

(** What a random query relies on: it does not panic, and a region it returns is
    one of the cluster that satisfies the options and has a peer in the given role
    on the store.  The regions with pending peers are not restricted to a namespace. *)
Definition query_ok (v : View) (role : Z → RegionInfo → Prop) (q : RandQuery) : Prop :=
  ∀ draws storeID opts, ∃ r, q draws storeID opts = Some r ∧
    ∀ region, r = Some region → v_GetRegion v (GetID region) = Some region ∧ role storeID region ∧
      is_Some (GetStorePeer region storeID) ∧ forallb (λ opt : RegionOption, opt region) opts = true.

Class ValidQueries (v : View) (q : Queries) : Prop := {
  follower_query : query_ok v follows (q_RandFollowerRegion q);
  leader_query : query_ok v leads (q_RandLeaderRegion q);
  pending_query : ∀ draws storeID opts, ∃ r, q_RandPendingRegion q draws storeID opts = Some r ∧
    ∀ region, r = Some region → is_Some (GetStorePeer region storeID);
}.

Class SchedulerClusterLaws (C : Type) `{!Cluster C, !ScheduleCluster C, !SchedulerCluster C} := {
  AllocPeer_queries : ∀ (c : C) storeID, queries (AllocPeer storeID c).1 = queries c;
}.

(** ** Intervals (base_scheduler.go) *)

Definition MinSlowScheduleInterval : Z := 3 * Second.

Inductive intervalGrowthType := exponentailGrowth | linearGrowth | zeroGrowth.

Definition intervalGrow (x maxInterval : Z) (typ : intervalGrowthType) : Z :=
  match typ with
  | exponentailGrowth => minDuration (int64_of_f64 (f64_mul (f64_of_Z x) ScheduleIntervalFactor)) maxInterval
  | linearGrowth => minDuration (int64 (x + MinSlowScheduleInterval)) maxInterval
  | zeroGrowth => x
  end.

Definition base_GetNextInterval (interval : Z) : Z := intervalGrow interval MaxScheduleInterval exponentailGrowth.

(** ** Helpers (utils.go) *)

(** 0.005; the tolerant ratio is at least 1. *)
Definition adjustRatio : f64 := f64_div (f64_of_Z 5) (f64_of_Z 1000).
Definition minTolerantSizeRatio : f64 := f64_of_Z 1.

Definition minUint64 (a b : Z) : Z := if a <? b then a else b.
Definition maxUint64 (a b : Z) : Z := if b <? a then a else b.

Definition isRegionUnhealthy (region : RegionInfo) : bool :=
  negb (length (GetDownPeers region) =? 0)%nat || negb (length (GetLearners region) =? 0)%nat.

Definition taintCacheGCInterval : Z := 5 * Second.
Definition taintCacheTTL : Z := 5 * 60 * Second.
Definition newTaintCache : Ttl.IDTTL := Ttl.NewIDTTL taintCacheGCInterval taintCacheTTL.

(** A random region, if there is one. *)
Definition random_region (q : option (option RegionInfo)) : result (option RegionInfo) :=
  match q with
  | None => inl (Panic "invalid argument to Intn")
  | Some r => inr r
  end.

(** ** Hits of the stores chosen in vain (balance_region.go) *)

Record hit := mkHit { lastTime : Z; hit_count : Z }.
Record hitsStoreBuilder := mkHits { hits : gmap bytes hit; hits_ttl : Z; hits_threshold : Z }.

Definition balanceRegionRetryLimit : nat := 10.
Definition hitsStoreTTL : Z := 5 * 60 * Second.
Definition hitsStoreCountThreshold : Z := 30 * Z.of_nat balanceRegionRetryLimit.

Definition newHitsStoreBuilder (ttl threshold : Z) : hitsStoreBuilder := mkHits ∅ ttl threshold.

Section hits.
Variables (h : heap) (now : Z).
Implicit Types (b : hitsStoreBuilder) (source target : option StoreInfo).

Definition getKey source target : bytes :=
  match source with
  | None => []
  | Some s =>
      let key := str "s" ++ FormatUint (store_GetID h s) 10 in
      match target with
      | None => key
      | Some t => key ++ str "->t" ++ FormatUint (store_GetID h t) 10
      end
  end.

Definition set_hits (m : gmap bytes hit) b : hitsStoreBuilder := mkHits m (hits_ttl b) (hits_threshold b).

Definition hits_filter b source target : hitsStoreBuilder * bool :=
  let key := getKey source target in
  if bool_decide (key = []) then (b, false)
  else
    match hits b !! key with
    | None => (b, false)
    | Some item =>
        (if hits_ttl b <? now - lastTime item then set_hits (delete key (hits b)) b else b,
         (now - lastTime item <=? hits_ttl b) && (hits_threshold b <=? hit_count item))
    end.

Definition hits_remove source target b : hitsStoreBuilder :=
  let key := getKey source target in
  if bool_decide (is_Some (hits b !! key)) && negb (bool_decide (key = [])) then set_hits (delete key (hits b)) b else b.

Definition hits_put source target b : hitsStoreBuilder :=
  let key := getKey source target in
  if bool_decide (key = []) then b
  else
    match hits b !! key with
    | Some item =>
        let count := if hits_ttl b <=? now - lastTime item then 0 else hit_count item + 1 in
        set_hits (<[key := mkHit now count]> (hits b)) b
    | None => set_hits (<[key := mkHit now 0]> (hits b)) b
    end.

(** The blacklist of the stores that [f] rejects. *)
Fixpoint blacklist (f : hitsStoreBuilder → StoreInfo → hitsStoreBuilder * bool) (stores : list StoreInfo) b
    : hitsStoreBuilder * gset Z :=
  match stores with
  | [] => (b, ∅)
  | s :: stores =>
      let '(b, rejected) := f b s in
      let '(b, ids) := blacklist f stores b in
      (b, if rejected then {[store_GetID h s]} ∪ ids else ids)
  end.

Definition buildSourceFilter (stores : list StoreInfo) b : hitsStoreBuilder * Filter :=
  let '(b, ids) := blacklist (λ b s, hits_filter b (Some s) None) stores b in (b, BlacklistStoreFilter ids BlacklistSource).

Definition buildTargetFilter (stores : list StoreInfo) source b : hitsStoreBuilder * Filter :=
  let '(b, ids) := blacklist (λ b t, hits_filter b source (Some t)) stores b in (b, BlacklistStoreFilter ids BlacklistTarget).
End hits.

Section schedulers.
Context `{!Unicode} `{!Classifier}.
Context {C : Type} `{!Cluster C, !ScheduleCluster C, !SchedulerCluster C}.
Implicit Types (c : C) (region : RegionInfo).

(** As for the checkers: the clock, the overload functions, the orders of the
    iterations over the map of stores and over the followers of a region. *)
Variable now : Z.
Variable call : nat → bool.
Variable range : nat → list StoreInfo → list StoreInfo.
Variable followerIDs : RegionInfo → list Z.
(** The draws of the i-th random query and of the i-th random selection, the order
    of an iteration over a set of store ids, and the rules of the plugin in the
    order of the i-th iteration. *)
Variable rand : nat → nat → nat.
Variable draw : nat → Z.
Variable order : gset Z → list Z.
Variable rules : nat → list (bytes * PluginInfo).
(** The filters of the plugin, if it is loaded, the answers of the operator
    controller: the number of running operators of a kind and their influence. *)
Variable regionFilters : list RegionFilter.
Variable count : Z → Z.
Variable influence : OpInfluence.

Definition v_GetFollowerStores (v : View) region : list StoreInfo := omap (v_GetPeerStore v) (followerIDs region).

(** The region belongs to a rule of the given kind, or of any kind. *)
Definition ruled (kind : option string) c (i : nat) region : result bool :=
  if (length regionFilters =? 0)%nat then inr false
  else
    user_region (view c) regionFilters
      (match kind with
       | None => rules i
       | Some k => filter (λ rule, head (split_name rule.1) = Some (str k)) (rules i)
       end) region.

Definition adjustTolerantRatio c (i : nat) : f64 :=
  let tolerantSizeRatio := TolerantSizeRatio (opt_cfg (v_opt (view c))) in
  if f64_eqb tolerantSizeRatio (f64_of_Z 0) then
    let maxRegionCount := foldl (λ m s,
      let regionCount := f64_of_Z (q_GetStoreRegionCount (queries c) (store_GetID (v_heap (view c)) s)) in
      if f64_ltb m regionCount then regionCount else m) (f64_of_Z 0) (cl_GetStores range c i) in
    let tolerantSizeRatio := f64_mul maxRegionCount adjustRatio in
    if f64_ltb tolerantSizeRatio minTolerantSizeRatio then minTolerantSizeRatio else tolerantSizeRatio
  else tolerantSizeRatio.

(** The size of the region as the balance sees it. *)
Definition balance_size c (i : nat) region : Z :=
  let size := Z.max (GetApproximateSize region) (q_GetAverageRegionSize (queries c)) in
  int64_of_f64 (f64_mul (f64_of_Z size) (adjustTolerantRatio c i)).

Definition shouldBalance c (i : nat) (source target : StoreInfo) region (kind : Z) : bool :=
  let v := view c in
  let size := balance_size c i region in
  let inf s := ResourceSize (GetStoreInfluence influence (store_GetID (v_heap v) s)) kind in
  let score s delta := ResourceScore s kind (HighSpaceRatio (opt_cfg (v_opt v))) (LowSpaceRatio (opt_cfg (v_opt v))) delta in
  f64_ltb (score target (int64 (inf target + size))) (score source (int64 (inf source - size))).

(** ** Leaders balanced (balance_leader.go) *)

Definition balanceLeaderRetryLimit : nat := 10.

Definition leader_filters (taint : Ttl.IDTTL) : list Filter := [StoreStateFilter true false; cacheFilter taint].

Definition bl_createOperator c (i : nat) region (source target : StoreInfo) : option Operator :=
  if v_IsRegionHot (view c) (GetID region) then None
  else if negb (shouldBalance c i source target region LeaderKind) then None
  else Some (CreateTransferLeaderOperator "balance-leader" region (Peer_GetStoreId (GetLeader region))
    (store_GetID (v_heap (view c)) target) OpBalance now).

Definition transferLeaderOut taint c (k : nat) (source : StoreInfo) : result (option Operator) :=
  let v := view c in
  region ← random_region (q_RandLeaderRegion (queries c) (rand k) (store_GetID (v_heap v) source) [HealthRegion]);
  match region with
  | None => inr None
  | Some region =>
      excluded ← ruled (Some "Leader"%string) c k region;
      if (excluded : bool) then inr None
      else
        match Balance_SelectTarget (v_heap v) now call LeaderKind (leader_filters taint) (v_opt v) (v_GetFollowerStores v region) [] with
        | None => inr None
        | Some target => inr (bl_createOperator c (S k) region source target)
        end
  end.

Definition transferLeaderIn c (k : nat) (target : StoreInfo) : result (option Operator) :=
  let v := view c in
  region ← random_region (q_RandFollowerRegion (queries c) (rand k) (store_GetID (v_heap v) target) [HealthRegion]);
  match region with
  | None => inr None
  | Some region =>
      excluded ← ruled (Some "Leader"%string) c k region;
      if (excluded : bool) then inr None
      else
        match v_GetStore v (Peer_GetStoreId (GetLeader region)) with
        | None => inr None
        | Some source => inr (bl_createOperator c (S k) region source target)
        end
  end.

(** The attempts, from the [k]-th query on. *)
Fixpoint balance_leader_loop taint c (source target : StoreInfo) (n k : nat) : result (option Operator) :=
  match n with
  | O => inr None
  | S n =>
      op ← transferLeaderOut taint c k source;
      match op with
      | Some op => inr (Some op)
      | None =>
          op ← transferLeaderIn c (S k) target;
          match op with
          | Some op => inr (Some op)
          | None => balance_leader_loop taint c source target n (S (S k))
          end
      end
  end.

(** The scheduler keeps the cache of tainted stores; it does not change the
    cluster. *)
Definition balanceLeader_Schedule c (taint : Ttl.IDTTL) : Ttl.IDTTL * result (option Operator) :=
  let v := view c in
  let stores := cl_GetStores range c 0 in
  let own := leader_filters taint in
  match Balance_SelectSource (v_heap v) now call LeaderKind own (v_opt v) stores [],
        Balance_SelectTarget (v_heap v) now call LeaderKind own (v_opt v) stores [] with
  | Some source, Some target =>
      match balance_leader_loop taint c source target balanceLeaderRetryLimit 0 with
      | inl err => (taint, inl err)
      | inr (Some op) => (taint, inr (Some op))
      | inr None =>
          (Ttl.id_Put (Ttl.id_Put taint now (store_GetID (v_heap v) source)) now (store_GetID (v_heap v) target), inr None)
      end
  | _, _ => (Ttl.Clear taint, inr None)
  end.

(** ** Regions balanced (balance_region.go) *)

Definition region_balance_filters : list Filter := [StoreStateFilter false true].

(** A region with a pending peer on the store, else one with a follower, else one
    led by it. *)
Definition balance_region_pick c (k : nat) (sourceID : Z) : result (option RegionInfo) :=
  let q := queries c in
  region ← random_region (q_RandPendingRegion q (rand k) sourceID [HealthRegionAllowPending]);
  match region with
  | Some _ => inr region
  | None =>
      region ← random_region (q_RandFollowerRegion q (rand (S k)) sourceID [HealthRegion]);
      match region with
      | Some _ => inr region
      | None => random_region (q_RandLeaderRegion q (rand (S (S k))) sourceID [HealthRegion])
      end
  end.

Definition zeroPeer : Peer := mkPeer 0 0 false.

(** The operator that moves the peer to [storeID], once the balance allows it. *)
Definition transfer_to region (oldPeer : option Peer) (source target : StoreInfo) (storeID : Z)
    : M (hitsStoreBuilder * C) (option Operator) := λ '(b, c),
  let h := v_heap (view c) in
  match move_op now followerIDs "balance-region" OpBalance region (Peer_GetStoreId oldPeer) storeID c with
  | (c', inl err) => ((b, c'), inl err)
  | (c', inr None) => ((b, c'), inr None)
  | (c', inr (Some op)) => ((hits_remove h (Some source) None (hits_remove h (Some source) (Some target) b), c'), inr (Some op))
  end.

Definition transferPeer (k : nat) region (oldPeer : option Peer) : M (hitsStoreBuilder * C) (option Operator) := λ '(b, c),
  let v := view c in
  let h := v_heap v in
  match v_GetStore v (Peer_GetStoreId oldPeer) with
  | None => ((b, c), inl nil_region)
  | Some source =>
      match NewDistinctScoreFilter h (opt_LocationLabels (v_opt v)) (v_GetRegionStores v region) source with
      | inl err => ((b, c), inl err)
      | inr scoreGuard =>
          let '(b, hitsFilter) := buildTargetFilter h now (cl_GetStores range c k) (Some source) b in
          let '(storeID, _) := SelectBestReplacementStore now call range false c (S k) region (default zeroPeer oldPeer)
            [scoreGuard; hitsFilter] in
          if storeID =? 0 then ((hits_put h now (Some source) None b, c), inr None)
          else
            match v_GetStore v storeID with
            | None => ((b, c), inl nil_region)
            | Some target =>
                if negb (shouldBalance c (S (S k)) source target region RegionKind)
                then ((hits_put h now (Some source) (Some target) b, c), inr None)
                else transfer_to region oldPeer source target storeID (b, c)
            end
      end
  end.

(** One attempt: the guards of the region, then the transfer. *)
Definition balance_region_try (k : nat) (source : StoreInfo) : M (hitsStoreBuilder * C) (option Operator) := λ '(b, c),
  let v := view c in
  let sourceID := store_GetID (v_heap v) source in
  let miss := (hits_put (v_heap v) now (Some source) None b, c) in
  match balance_region_pick c k sourceID with
  | inl err => ((b, c), inl err)
  | inr None => (miss, inr None)
  | inr (Some region) =>
      if negb (Z.of_nat (length (GetPeers region)) =? opt_MaxReplicas (v_opt v)) then (miss, inr None)
      else if v_IsRegionHot v (GetID region) then (miss, inr None)
      else
        match ruled None c k region with
        | inl err => ((b, c), inl err)
        | inr true => ((b, c), inr None)
        | inr false => transferPeer k region (GetStorePeer region sourceID) (b, c)
        end
  end.

Fixpoint balance_region_loop (source : StoreInfo) (n k : nat) : M (hitsStoreBuilder * C) (option Operator) :=
  match n with
  | O => mret None
  | S n =>
      op ← balance_region_try k source;
      match op with
      | Some op => mret (Some op)
      | None => balance_region_loop source n (3 + k)
      end
  end.

Definition balanceRegion_Schedule : M (hitsStoreBuilder * C) (option Operator) := λ '(b, c),
  let v := view c in
  let '(b, hitsFilter) := buildSourceFilter (v_heap v) now (cl_GetStores range c 1) b in
  match Balance_SelectSource (v_heap v) now call RegionKind region_balance_filters (v_opt v) (cl_GetStores range c 0) [hitsFilter] with
  | None => ((b, c), inr None)
  | Some source => balance_region_loop source balanceRegionRetryLimit 2 (b, c)
  end.

(** ** Leaders rejected by label (label.go) *)

Definition label_target c region : option StoreInfo :=
  let v := view c in
  let down := (λ s, Peer_GetStoreId (PeerStats_Peer s)) <$> GetDownPeers region in
  let pending := Peer_StoreId <$> GetPendingPeers region in
  Balance_SelectTarget (v_heap v) now call LeaderKind [StoreStateFilter true false] (v_opt v) (v_GetFollowerStores v region)
    [excludedFilter ∅ (list_to_set (down ++ pending))].

Fixpoint label_loop c (k : nat) (ids : list Z) : result (option Operator) :=
  match ids with
  | [] => inr None
  | id :: ids =>
      region ← random_region (q_RandLeaderRegion (queries c) (rand k) id []);
      match region with
      | None => label_loop c (S k) ids
      | Some region =>
          excluded ← ruled (Some "Leader"%string) c k region;
          if (excluded : bool) then label_loop c (S k) ids
          else
            match label_target c region with
            | None => label_loop c (S k) ids
            | Some target =>
                inr (Some (CreateTransferLeaderOperator "label-reject-leader" region id (store_GetID (v_heap (view c)) target) OpLeader now))
            end
      end
  end.

Definition reject_stores c : gset Z :=
  let v := view c in
  list_to_set (store_GetID (v_heap v) <$> filter (λ s, opt_rejects (v_opt v) (store_GetLabels (v_heap v) s) = true) (cl_GetStores range c 0)).

Definition label_Schedule c : result (option Operator) := label_loop c 0 (order (reject_stores c)).

(** ** Leaders of one store (evict_leader.go, grant_leader.go) *)

Definition evictLeader_Schedule (storeID : Z) c : result (option Operator) :=
  let v := view c in
  region ← random_region (q_RandLeaderRegion (queries c) (rand 0) storeID [HealthRegion]);
  match region with
  | None => inr None
  | Some region =>
      match Random_SelectTarget (v_heap v) now call (draw 0) [StoreStateFilter true false] (v_opt v) (v_GetFollowerStores v region) [] with
      | None => inr None
      | Some target =>
          inr (Some (SetPriorityLevel HighPriority (CreateTransferLeaderOperator "evict-leader" region
            (Peer_GetStoreId (GetLeader region)) (store_GetID (v_heap v) target) OpLeader now)))
      end
  end.

Definition grantLeader_Schedule (storeID : Z) c : result (option Operator) :=
  region ← random_region (q_RandFollowerRegion (queries c) (rand 0) storeID [HealthRegion]);
  match region with
  | None => inr None
  | Some region =>
      inr (Some (SetPriorityLevel HighPriority (CreateTransferLeaderOperator "grant-leader" region
        (Peer_GetStoreId (GetLeader region)) storeID OpLeader now)))
  end.

(** ** Shuffling (shuffle_leader.go, shuffle_region.go) *)

(** The source of the transfer is the id of the leader's peer, not of its store. *)
Definition shuffleLeader_Schedule c : result (option Operator) :=
  let v := view c in
  match Random_SelectTarget (v_heap v) now call (draw 0) [StoreStateFilter true false] (v_opt v) (cl_GetStores range c 0) [] with
  | None => inr None
  | Some targetStore =>
      let id := store_GetID (v_heap v) targetStore in
      region ← random_region (q_RandFollowerRegion (queries c) (rand 0) id [HealthRegion]);
      match region with
      | None => inr None
      | Some region =>
          inr (Some (SetPriorityLevel HighPriority (CreateTransferLeaderOperator "shuffle-leader" region
            (Peer_GetId (GetLeader region)) id OpAdmin now)))
      end
  end.

Definition scheduleRemovePeer c : result (option (RegionInfo * option Peer)) :=
  let v := view c in
  match Random_SelectSource (v_heap v) now call (draw 0) region_balance_filters (v_opt v) (cl_GetStores range c 0) with
  | None => inr None
  | Some source =>
      let id := store_GetID (v_heap v) source in
      region ← random_region (q_RandFollowerRegion (queries c) (rand 0) id [HealthRegion]);
      match region with
      | Some region => inr (Some (region, GetStorePeer region id))
      | None =>
          region ← random_region (q_RandLeaderRegion (queries c) (rand 1) id [HealthRegion]);
          inr ((λ region, (region, GetStorePeer region id)) <$> (region : option RegionInfo))
      end
  end.

(** The store [scheduleAddPeer] allocates a peer on. *)
Definition scheduleAddPeer c (excluded : gset Z) : option StoreInfo :=
  let v := view c in
  Random_SelectTarget (v_heap v) now call (draw 1) region_balance_filters (v_opt v) (cl_GetStores range c 1) [excludedFilter ∅ excluded].

Definition high_priority (m : M C (option Operator)) : M C (option Operator) :=
  op ← m; mret (SetPriorityLevel HighPriority <$> (op : option Operator)).

Definition shuffleRegion_Schedule : M C (option Operator) := λ c,
  match scheduleRemovePeer c with
  | inl err => (c, inl err)
  | inr None => (c, inr None)
  | inr (Some (region, oldPeer)) =>
      match scheduleAddPeer c (GetStoreIds region) with
      | None => (c, inr None)
      | Some target =>
          high_priority (move_op now followerIDs "shuffle-region" OpAdmin region (Peer_GetStoreId oldPeer)
            (store_GetID (v_heap (view c)) target)) c
      end
  end.

(** ** Merging at random (random_merge.go) *)

(** [even] is the toss of [rand.Int()%2 == 0]. *)
Definition random_merge_target c (even : bool) region : option RegionInfo :=
  let '(other, target) := v_GetAdjacentRegions (view c) region in
  if negb (EnableOneWayMerge (opt_cfg (v_opt (view c)))) &&
     (even && bool_decide (is_Some other) || bool_decide (target = None))
  then other else target.

(** [shared] is the order of the stores the two regions share. *)
Definition randomMerge_Schedule (even : bool) (shared : RegionInfo → RegionInfo → list Z) : M C (option (list Operator)) := λ c,
  let v := view c in
  match Random_SelectSource (v_heap v) now call (draw 0) region_balance_filters (v_opt v) (cl_GetStores range c 0) with
  | None => (c, inr None)
  | Some store =>
      match random_region (q_RandLeaderRegion (queries c) (rand 0) (store_GetID (v_heap v) store) [HealthRegion]) with
      | inl err => (c, inl err)
      | inr None => (c, inr None)
      | inr (Some region) =>
          match random_merge_target c even region with
          | None => (c, inr None)
          | Some target => or_nil (CreateMergeRegionOperator "random-merge" region target OpAdmin (shared region target) now) c
          end
      end
  end.

(** ** Limits ([IsScheduleAllowed]) *)

Definition leader_allowed c : bool := count OpLeader <? l_LeaderScheduleLimit (q_Limits (queries c)).
Definition region_allowed c : bool := count OpRegion <? l_RegionScheduleLimit (q_Limits (queries c)).
Definition merge_allowed c : bool := count OpMerge <? l_MergeScheduleLimit (q_Limits (queries c)).
End schedulers.
