(* ===== verification/SchedulersProps.v ===== *)
(** * What the schedulers propose

    The transfers of leaders go to followers that may lead and run safely, the
    balance of leaders does not undo what it did, and the balance of regions moves
    peers to stores that may take them without losing isolation. *)

From S2P Require Import Prelude GoBytes BTree Strconv Strings Float FloatInt KV Metapb Region RegionTree RegionMap RegionsInfo Cache Storage Store Statistics Config Operator OperatorProps Schedule ScheduleProps Structure Checkers CheckersProps LocationProps Plugin Schedulers.
From Corelib Require Import SpecFloat.

(** ** Selections *)

Section selections.
Context `{!Unicode} `{!Classifier}.
Variables (h : heap) (now : Z) (call : nat → bool).
Implicit Types (opt : Options) (own filters : list Filter) (l : list StoreInfo) (s : StoreInfo).

Lemma balance_source_elem kind own opt l filters s : Balance_SelectSource h now call kind own opt l filters = Some s →
  s ∈ l ∧ FilterSource h now call opt s (filters ++ own) = false.
Proof. apply best_by_elem. Qed.

Lemma balance_target_elem kind own opt l filters s : Balance_SelectTarget h now call kind own opt l filters = Some s →
  s ∈ l ∧ FilterTarget h now call opt s (filters ++ own) = false.
Proof. apply best_by_elem. Qed.

Lemma balance_source_max kind own opt l filters s : Balance_SelectSource h now call kind own opt l filters = Some s →
  ∀ x, x ∈ l → FilterSource h now call opt x (filters ++ own) = false → f64_ltb (balance_score kind opt s) (balance_score kind opt x) = false.
Proof. intros Hs. apply (best_by_max _ _ _ _ Hs); [intros; apply ltb_irrefl|]. intros x y z _ _ _ Hxy Hyz. exact (ltb_trans _ _ _ Hyz Hxy). Qed.

Lemma balance_target_min kind own opt l filters s : Balance_SelectTarget h now call kind own opt l filters = Some s →
  ∀ x, x ∈ l → FilterTarget h now call opt x (filters ++ own) = false → f64_ltb (balance_score kind opt x) (balance_score kind opt s) = false.
Proof. intros Hs. apply (best_by_max _ _ _ _ Hs); [intros; apply ltb_irrefl|]. intros x y z _ _ _. apply ltb_trans. Qed.

Lemma random_target_elem rand own opt l filters s : Random_SelectTarget h now call rand own opt l filters = Some s →
  s ∈ l ∧ FilterTarget h now call opt s (filters ++ own) = false.
Proof. unfold Random_SelectTarget, randStore. intros Hs%list_elem_of_lookup_2. apply list_elem_of_filter in Hs. tauto. Qed.

Lemma random_source_elem rand own opt l s : Random_SelectSource h now call rand own opt l = Some s →
  s ∈ l ∧ FilterSource h now call opt s own = false.
Proof. unfold Random_SelectSource, randStore. intros Hs%list_elem_of_lookup_2. apply list_elem_of_filter in Hs. tauto. Qed.
End selections.

(** ** Transfers of leaders *)

(** The store has a voter of the region that is not its leader. *)
Definition follower_on (region : RegionInfo) (id : Z) : Prop :=
  ∃ p, p ∈ GetVoters region ∧ Peer_StoreId p = id ∧ is_follower region p = true.

Lemma follower_ids_on region ids id : is_FollowerIDs region ids → id ∈ ids → follower_on region id.
Proof.
  unfold is_FollowerIDs. intros -> Hid. apply list_elem_of_fmap in Hid as ([id' p'] & -> & Hp%elem_of_map_to_list).
  apply elem_of_followers. by eexists.
Qed.

Lemma follows_on region id : follows id region → follower_on region id.
Proof.
  unfold follows. rewrite Exists_exists. intros (p & Hp & Hne & Hid). exists p. split_and!; [done..|].
  unfold is_follower. destruct (leader region) as [l|]; [|done]. cbn in Hne. apply negb_true_iff, Z.eqb_neq. congruence.
Qed.

(** The operator hands the leadership of the region to a follower; it runs safely if
    the region has only voters. *)
Definition hands_over (region : RegionInfo) (to : Z) (op : Operator) : Prop :=
  op_regionID op = GetID region ∧ op_regionEpoch op = GetRegionEpoch region ∧ follower_on region to ∧
  (plain_region region → to ≠ Peer_GetStoreId (GetLeader region) ∧
     exec_safe (length (stores region)) (op_steps op) (voters_of region) (mkPlacement (list_to_set (stores region)) ∅ to)).

Lemma transfer_op_hands region from to desc kind now : follower_on region to →
  hands_over region to (CreateTransferLeaderOperator desc region from to kind now).
Proof.
  intros Hf. split_and!; [done..|]. intros Hpr. destruct Hf as (p & Hp & <- & Hf).
  assert (Hin : Peer_StoreId p ∈ stores region) by (unfold stores; rewrite <-(pr_voters _ Hpr), list_elem_of_fmap; by exists p).
  split.
  - destruct (pr_leader _ Hpr) as (l & Hl & Hlin). rewrite Hl. cbn. intros Heq. unfold is_follower in Hf.
    assert (p = l) as -> by (eapply same_store; [apply (pr_nodup _ Hpr)|by rewrite <-(pr_voters _ Hpr)|done|done]).
    unfold GetLeader in Hl. by rewrite Hl, Z.eqb_refl in Hf.
  - cbn [CreateTransferLeaderOperator NewOperator op_steps]. apply exec_transfer; [by apply elem_of_list_to_set|].
    by rewrite (size_stores _ (pr_nodup _ Hpr)).
Qed.

(** The region is one of the cluster. *)
Definition transfers (v : View) (region : RegionInfo) (to : Z) (op : Operator) : Prop :=
  v_GetRegion v (GetID region) = Some region ∧ hands_over region to op.

Lemma transfer_op_transfers v region from to desc kind now :
  v_GetRegion v (GetID region) = Some region → follower_on region to →
  transfers v region to (CreateTransferLeaderOperator desc region from to kind now).
Proof. intros Hr Hf. split; [done|]. by apply transfer_op_hands. Qed.

Lemma transfers_priority v region to op level : transfers v region to op → transfers v region to (SetPriorityLevel level op).
Proof. done. Qed.

Section leaders.
Context `{!Unicode} `{!Classifier}.
Context {C : Type} `{!Cluster C, !ScheduleCluster C, !ScheduleClusterLaws C, !SchedulerCluster C, !SchedulerClusterLaws C}.
Variables (now : Z) (call : nat → bool).
Variable range : nat → list StoreInfo → list StoreInfo.
Variable followerIDs : RegionInfo → list Z.
Variable rand : nat → nat → nat.
Variable draw : nat → Z.
Variable order : gset Z → list Z.
Variable rules : nat → list (bytes * PluginInfo).
Variable regionFilters : list RegionFilter.
Variable influence : OpInfluence.
Hypothesis Hrange : ∀ i l, range i l ≡ₚ l.
Hypothesis Hids : ∀ region, is_FollowerIDs region (followerIDs region).
Hypothesis Horder : ∀ S, order S ≡ₚ elements S.
Implicit Types (c : C) (v : View) (region : RegionInfo).

(** The regions of the rules can be listed. *)
Definition rules_listed v : Prop := ∀ i name p, (name, p) ∈ rules i → ∃ ids, GetRegionIDs v (KeyStart p) (KeyEnd p) = inr ids.

Lemma user_region_total v filters (l : list (bytes * PluginInfo)) region :
  (∀ name p, (name, p) ∈ l → ∃ ids, GetRegionIDs v (KeyStart p) (KeyEnd p) = inr ids) →
  ∃ b, user_region v filters l region = inr b.
Proof.
  induction l as [|[name p] l IH]; intros Hl; cbn [user_region]; [by eexists|].
  destruct (Hl name p) as [ids ->]; [by left|]. cbn [mbind result_bind]. destruct (RegionFilterSource _ _ _ _); [by eexists|].
  apply IH. intros n q Hq. eapply Hl. by right.
Qed.

Lemma ruled_total kind c i region : rules_listed (view c) → ∃ b, ruled rules regionFilters kind c i region = inr b.
Proof.
  intros Hl. unfold ruled. destruct (_ =? 0)%nat; [by eexists|]. apply user_region_total.
  intros name p Hp. apply (Hl i name p). destruct kind; [|done]. by apply list_elem_of_filter in Hp as [_ ?].
Qed.

(** The result of a computation that reads the cluster only. *)
Definition offers {A} (r : result (option A)) (Q : A → Prop) : Prop := ∃ x, r = inr x ∧ ∀ y, x = Some y → Q y.

Lemma offers_none {A} (Q : A → Prop) : offers (inr None) Q.
Proof. by exists None. Qed.
Lemma offers_some {A} (Q : A → Prop) x : Q x → offers (inr (Some x)) Q.
Proof. intros HQ. exists (Some x). split; [done|]. by intros ? [= <-]. Qed.

Lemma query_bind {A} (v : View) role q draws storeID opts (f : option RegionInfo → result (option A)) Q : query_ok v role q →
  offers (f None) Q →
  (∀ region, v_GetRegion v (GetID region) = Some region → role storeID region →
     forallb (λ opt : RegionOption, opt region) opts = true → offers (f (Some region)) Q) →
  offers (region ← random_region (q draws storeID opts); f region) Q.
Proof.
  intros Hq Hnone Hsome. destruct (Hq draws storeID opts) as (r & -> & Hr). cbn.
  destruct r as [region|]; [|done]. destruct (Hr region eq_refl) as (? & ? & ? & ?). auto.
Qed.

Lemma ruled_bind {A} kind c i region (f : bool → result (option A)) Q : rules_listed (view c) →
  (∀ b, ruled rules regionFilters kind c i region = inr b → offers (f b) Q) →
  offers (b ← ruled rules regionFilters kind c i region; f b) Q.
Proof. intros Hl Hf. destruct (ruled_total kind c i region Hl) as [b Hb]. rewrite Hb. by apply Hf. Qed.

(** The store of the region's leader. *)
Definition led_by v region (source : StoreInfo) : Prop :=
  leads (store_GetID (v_heap v) source) region ∨ v_GetStore v (Peer_GetStoreId (GetLeader region)) = Some source.

(** The stores that may give leaders away, which must not be tainted, and those
    that may get some. *)
Definition gives_leader taint v (s : StoreInfo) : Prop :=
  v_GetStore v (store_GetID (v_heap v) s) = Some s ∧ leader_source now v s ∧ Ttl.id_Exists taint now (store_GetID (v_heap v) s) = false.
Definition gets_leader v (s : StoreInfo) : Prop := v_GetStore v (store_GetID (v_heap v) s) = Some s ∧ leader_target now v s.

(** No store of the kind has a higher, or a lower, score of its leaders. *)
Definition highest taint v (s : StoreInfo) : Prop :=
  gives_leader taint v s ∧ ∀ x, gives_leader taint v x → f64_ltb (LeaderScore s 0) (LeaderScore x 0) = false.
Definition lowest v (s : StoreInfo) : Prop :=
  gets_leader v s ∧ ∀ x, gets_leader v x → f64_ltb (LeaderScore x 0) (LeaderScore s 0) = false.

Definition small (z : Z) : Prop := - 2 ^ 50 < z < 2 ^ 50.

(** What the running operators will add to the leaders of the store. *)
Definition leader_influence c (s : StoreInfo) : Z := LeaderSize (GetStoreInfluence influence (store_GetID (v_heap (view c)) s)).

(** After a move of this size the source's leaders still have the higher score; with
    the default weights, the greater size. *)
Definition still_above c (moved : Z) (source target : StoreInfo) : Prop :=
  let si := leader_influence c source in let ti := leader_influence c target in
  f64_ltb (LeaderScore target (int64 (ti + moved))) (LeaderScore source (int64 (si - moved))) = true ∧
  (leaderWeight source = f64_of_Z 1 → leaderWeight target = f64_of_Z 1 → Forall small [leaderSize source; leaderSize target; si; ti; moved] →
   leaderSize target + ti + moved < leaderSize source + si - moved).

(** With the default weight the score is the size. *)
Lemma LeaderScore_default (s : StoreInfo) delta : leaderWeight s = f64_of_Z 1 → - 2 ^ 53 < leaderSize s + delta < 2 ^ 53 →
  LeaderScore s delta = f64_of_Z (leaderSize s + delta).
Proof.
  intros Hw Hb. unfold LeaderScore. rewrite Hw, int64_small by lia.
  change (f64_Max (f64_of_Z 1) minWeight) with (f64_of_Z 1). by apply f64_div_one.
Qed.

Lemma shouldBalance_above c i source target region : shouldBalance range influence c i source target region LeaderKind = true →
  still_above c (balance_size range c i region) source target.
Proof.
  intros Hb. split; [exact Hb|]. unfold shouldBalance, ResourceScore, ResourceSize in Hb. cbn [Z.eqb LeaderKind] in Hb. cbn zeta in Hb.
  fold (leader_influence c source) (leader_influence c target) in Hb. intros Hs Ht. rewrite !Forall_cons. unfold small. intros (? & ? & ? & ? & ? & _).
  rewrite !int64_small, !LeaderScore_default, f64_ltb_signed, Z.ltb_lt in Hb by (done || lia). lia.
Qed.

(** What the balance of leaders proposes: to move a leader from [source] to
    [target], one of which is at the end of the range of scores. *)
Definition balances_leader taint c op : Prop :=
  let v := view c in
  ∃ region source target i, transfers v region (store_GetID (v_heap v) target) op ∧ led_by v region source ∧
    HealthRegion region = true ∧ v_IsRegionHot v (GetID region) = false ∧
    ruled rules regionFilters (Some "Leader"%string) c i region = inr false ∧
    leader_target now v target ∧ (highest taint v source ∨ lowest v target) ∧
    still_above c (balance_size range c (S i) region) source target.

Lemma leader_filters_source taint v s : FilterSource (v_heap v) now call (v_opt v) s (leader_filters taint) = false ↔
  leader_source now v s ∧ Ttl.id_Exists taint now (store_GetID (v_heap v) s) = false.
Proof. unfold FilterSource, leader_filters. cbn [existsb filter_source]. rewrite orb_false_r, orb_false_iff, (leader_source_spec now call v s). done. Qed.

Lemma leader_filters_target taint v s :
  FilterTarget (v_heap v) now call (v_opt v) s (leader_filters taint) = false ↔ leader_target now v s.
Proof. unfold FilterTarget, leader_filters. cbn [existsb filter_target orb]. rewrite orb_false_r. apply leader_target_spec. Qed.

Lemma create_offers taint c i region source target :
  v_GetRegion (view c) (GetID region) = Some region → follower_on region (store_GetID (v_heap (view c)) target) →
  led_by (view c) region source → HealthRegion region = true → ruled rules regionFilters (Some "Leader"%string) c i region = inr false →
  leader_target now (view c) target → highest taint (view c) source ∨ lowest (view c) target →
  offers (inr (bl_createOperator now range influence c (S i) region source target)) (balances_leader taint c).
Proof.
  intros Hr Hf Hled Hh Hru Hfit Hend. unfold bl_createOperator. destruct (v_IsRegionHot _ _) eqn:Ehot; [apply offers_none|].
  destruct (shouldBalance _ _ _ _ _ _ _ _) eqn:Eb; [|apply offers_none]. apply offers_some.
  exists region, source, target, i. split_and!; try done; [by apply transfer_op_transfers|by apply shouldBalance_above].
Qed.

Lemma follower_stores_elem c `{!ValidView (view c)} region s : s ∈ v_GetFollowerStores followerIDs (view c) region →
  follower_on region (store_GetID (v_heap (view c)) s).
Proof.
  unfold v_GetFollowerStores. rewrite list_elem_of_omap. intros (id & Hid & Hs).
  rewrite (view_peer_id id s Hs). by eapply follower_ids_on.
Qed.

Lemma healthy_one region : forallb (λ opt : RegionOption, opt region) [HealthRegion] = true → HealthRegion region = true.
Proof. cbn. by rewrite andb_true_r. Qed.

Lemma transfer_out_offers taint c `{!ValidView (view c), !ValidQueries (view c) (queries c)} k source : rules_listed (view c) →
  highest taint (view c) source →
  offers (transferLeaderOut now call range followerIDs rand rules regionFilters influence taint c k source) (balances_leader taint c).
Proof.
  intros Hl Hhigh. unfold transferLeaderOut. cbn zeta. eapply (query_bind (view c)); [apply leader_query|apply offers_none|].
  intros region Hr Hlead Hh%healthy_one. apply ruled_bind; [done|]. intros [] Hru; [apply offers_none|].
  destruct (Balance_SelectTarget _ _ _ _ _ _ _ _) as [target|] eqn:Et; [|apply offers_none].
  apply balance_target_elem in Et as [Ht Hfit]. apply leader_filters_target in Hfit.
  apply create_offers; [done|by apply follower_stores_elem|by left|done..|by left].
Qed.

Lemma transfer_in_offers taint c `{!ValidView (view c), !ValidQueries (view c) (queries c)} k target : rules_listed (view c) →
  lowest (view c) target →
  offers (transferLeaderIn now range rand rules regionFilters influence c k target) (balances_leader taint c).
Proof.
  intros Hl Hlow. unfold transferLeaderIn. cbn zeta. eapply (query_bind (view c)); [apply follower_query|apply offers_none|].
  intros region Hr Hfol Hh%healthy_one. apply ruled_bind; [done|]. intros [] Hru; [apply offers_none|].
  destruct (v_GetStore _ _) as [source|] eqn:Es; [|apply offers_none].
  apply create_offers; [done|by apply follows_on|by right|done..|apply Hlow|by right].
Qed.

Lemma balance_leader_loop_offers taint c `{!ValidView (view c), !ValidQueries (view c) (queries c)} source target n k : rules_listed (view c) →
  highest taint (view c) source → lowest (view c) target →
  offers (balance_leader_loop now call range followerIDs rand rules regionFilters influence taint c source target n k)
    (balances_leader taint c).
Proof.
  intros Hl Hhigh Hlow. revert k. induction n as [|n IH]; intros k; cbn [balance_leader_loop]; [apply offers_none|].
  destruct (transfer_out_offers taint c k source Hl Hhigh) as ([op|] & -> & HQ); cbn [mbind result_bind]; [apply offers_some; auto|].
  destruct (transfer_in_offers taint c (S k) target Hl Hlow) as ([op|] & -> & HQ'); cbn [mbind result_bind]; [apply offers_some; auto|].
  apply IH.
Qed.

Lemma all_stores c i s : v_GetStore (view c) (store_GetID (v_heap (view c)) s) = Some s → s ∈ cl_GetStores range c i.
Proof.
  intros Hs. unfold cl_GetStores, stores_GetStores. rewrite Hrange, list_elem_of_fmap. eexists (_, s). split; [done|]. by apply elem_of_map_to_list.
Qed.

Lemma select_highest c `{!ValidView (view c)} taint :
  match Balance_SelectSource (v_heap (view c)) now call LeaderKind (leader_filters taint) (v_opt (view c)) (cl_GetStores range c 0) [] with
  | Some s => highest taint (view c) s
  | None => ∀ s, ¬ gives_leader taint (view c) s
  end.
Proof.
  destruct (Balance_SelectSource _ _ _ _ _ _ _ _) as [s|] eqn:Es.
  - pose proof (balance_source_max _ _ _ _ _ _ _ _ _ Es) as Hmax. apply balance_source_elem in Es as [Hs Hf].
    apply leader_filters_source in Hf as [? ?]. split; [split_and!; [by eapply (elem_of_cl_stores range Hrange c)|done..]|].
    intros x (Hx & ? & ?). apply (Hmax x); [by apply all_stores|]. by apply leader_filters_source.
  - intros s (Hs & Hg). pose proof (proj1 (best_by_None _ _ _) Es s (all_stores c 0 s Hs)) as Hskip. cbn beta in Hskip.
    apply leader_filters_source in Hg. cbn [app] in Hskip. congruence.
Qed.

Lemma select_lowest c `{!ValidView (view c)} taint :
  match Balance_SelectTarget (v_heap (view c)) now call LeaderKind (leader_filters taint) (v_opt (view c)) (cl_GetStores range c 0) [] with
  | Some s => lowest (view c) s
  | None => ∀ s, ¬ gets_leader (view c) s
  end.
Proof.
  destruct (Balance_SelectTarget _ _ _ _ _ _ _ _) as [s|] eqn:Es.
  - pose proof (balance_target_min _ _ _ _ _ _ _ _ _ Es) as Hmin. apply balance_target_elem in Es as [Hs Hf].
    apply leader_filters_target in Hf. split; [split; [by eapply (elem_of_cl_stores range Hrange c)|done]|].
    intros x (Hx & Hg). apply (Hmin x); [by apply all_stores|]. by apply leader_filters_target.
  - intros s (Hs & Hg). pose proof (proj1 (best_by_None _ _ _) Es s (all_stores c 0 s Hs)) as Hskip. cbn beta in Hskip.
    apply (leader_filters_target taint) in Hg. cbn [app] in Hskip. congruence.
Qed.

(** C6: The balance of leaders.  If the regions of the rules can be listed the
    scheduler returns, and an operator it proposes hands the leadership of a
    healthy region, neither hot nor under an active rule, to a follower on a store
    that is alive, connected, neither blocked, busy nor going away, and does not
    reject leaders; the leader's store has the highest score of those that may give
    leaders away, or the new one the lowest of those that may lead; and
    after the move, running operators included, the leader's store still has
    the higher score, which for default weights is the size.  If no untainted store may
    give leaders away or none may lead, the taints are cleared; if it finds no operator
    for the store with the highest score and that with the lowest, just these two
    are tainted. *)
Theorem balance_leader_correct c `{!ValidView (view c), !ValidQueries (view c) (queries c)} taint : rules_listed (view c) →
  let v := view c in
  ∃ taint' r, balanceLeader_Schedule now call range followerIDs rand rules regionFilters influence c taint = (taint', inr r) ∧
    (∀ op, r = Some op → taint' = taint ∧ balances_leader taint c op) ∧
    (r = None →
       (taint' = Ttl.Clear taint ∧ ((∀ s, ¬ gives_leader taint v s) ∨ ∀ s, ¬ gets_leader v s)) ∨
       ∃ source target, highest taint v source ∧ lowest v target ∧
         taint' = Ttl.id_Put (Ttl.id_Put taint now (store_GetID (v_heap v) source)) now (store_GetID (v_heap v) target)).
Proof.
  intros Hl. unfold balanceLeader_Schedule. cbn zeta. pose proof (select_highest c taint) as Hh. pose proof (select_lowest c taint) as Hlo.
  destruct (Balance_SelectSource _ _ _ _ _ _ _ _) as [source|]; [|eexists _, None; split_and!; [done..|]; intros _; left; split; [done|by left]].
  destruct (Balance_SelectTarget _ _ _ _ _ _ _ _) as [target|]; [|eexists _, None; split_and!; [done..|]; intros _; left; split; [done|by right]].
  destruct (balance_leader_loop_offers taint c source target balanceLeaderRetryLimit 0 Hl Hh Hlo) as ([op|] & -> & HQ).
  - eexists _, _. split_and!; [done| |done]. intros ? [= <-]. auto.
  - eexists _, _. split_and!; [done..|]. intros _. right. by eexists _, _.
Qed.

(** *** Leaders moved off or onto a store *)

(** The store may lead. *)
Definition may_lead v (id : Z) : Prop :=
  ∃ s, v_GetPeerStore v id = Some s ∧ leader_target now v s.

Lemma follower_may_lead c `{!ValidView (view c)} region fs s : s ∈ v_GetFollowerStores followerIDs (view c) region →
  FilterTarget (v_heap (view c)) now call (v_opt (view c)) s (fs ++ [StoreStateFilter true false]) = false →
  may_lead (view c) (store_GetID (v_heap (view c)) s).
Proof.
  unfold v_GetFollowerStores. rewrite list_elem_of_omap. intros (id & Hid & Hs) Hf. exists s.
  rewrite (view_peer_id id s Hs). split; [done|]. rewrite FilterTarget_app, orb_false_iff in Hf. destruct Hf as [_ Hf].
  cbn in Hf. rewrite orb_false_r in Hf. by apply (leader_target_spec now call).
Qed.

Lemma evict_offers storeID c `{!ValidView (view c), !ValidQueries (view c) (queries c)} : offers (evictLeader_Schedule now call followerIDs rand draw storeID c)
  (λ op, ∃ region to, leads storeID region ∧ HealthRegion region = true ∧ may_lead (view c) to ∧ transfers (view c) region to op).
Proof.
  unfold evictLeader_Schedule. cbn zeta. eapply (query_bind (view c)); [apply leader_query|apply offers_none|].
  intros region Hr Hlead Hh%healthy_one. destruct (Random_SelectTarget _ _ _ _ _ _ _ _) as [target|] eqn:Et; [|apply offers_none].
  apply random_target_elem in Et as [Ht Hf]. apply offers_some. exists region, (store_GetID (v_heap (view c)) target).
  split_and!; [done..|by eapply (follower_may_lead _ _ [])|].
  apply transfers_priority, transfer_op_transfers; [done|by apply follower_stores_elem].
Qed.

Lemma grant_offers storeID c `{!ValidView (view c), !ValidQueries (view c) (queries c)} : offers (grantLeader_Schedule now rand storeID c)
  (λ op, ∃ region, HealthRegion region = true ∧ transfers (view c) region storeID op).
Proof.
  unfold grantLeader_Schedule. eapply (query_bind (view c)); [apply follower_query|apply offers_none|].
  intros region Hr Hfol Hh%healthy_one. apply offers_some. exists region. split; [done|].
  apply transfers_priority, transfer_op_transfers; [done|by apply follows_on].
Qed.

Lemma shuffle_offers c `{!ValidView (view c), !ValidQueries (view c) (queries c)} : offers (shuffleLeader_Schedule now call range rand draw c)
  (λ op, ∃ region to, HealthRegion region = true ∧ is_Some (v_GetStore (view c) to) ∧ transfers (view c) region to op).
Proof.
  unfold shuffleLeader_Schedule. cbn zeta. destruct (Random_SelectTarget _ _ _ _ _ _ _ _) as [target|] eqn:Et; [|apply offers_none].
  apply random_target_elem in Et as [Ht _]. eapply (query_bind (view c)); [apply follower_query|apply offers_none|].
  intros region Hr Hfol Hh%healthy_one. apply offers_some. eexists region, _. split_and!; [done|by eexists; eapply (elem_of_cl_stores range Hrange c)|].
  apply transfers_priority, transfer_op_transfers; [done|by apply follows_on].
Qed.

(** The store rejects leaders by its labels. *)
Definition rejects v (id : Z) : Prop :=
  ∃ s, v_GetStore v id = Some s ∧ opt_rejects (v_opt v) (store_GetLabels (v_heap v) s) = true.

Lemma reject_stores_spec c `{!ValidView (view c)} id : id ∈ reject_stores range c → rejects (view c) id.
Proof.
  unfold reject_stores. cbn zeta. rewrite elem_of_list_to_set, list_elem_of_fmap. intros (s & -> & [Hr Hs]%list_elem_of_filter).
  exists s. split; [by eapply (elem_of_cl_stores range Hrange c)|done].
Qed.

Lemma label_loop_offers c `{!ValidView (view c), !ValidQueries (view c) (queries c)} ids k : rules_listed (view c) →
  offers (label_loop now call followerIDs rand rules regionFilters c k ids)
    (λ op, ∃ id region to, id ∈ ids ∧ leads id region ∧ may_lead (view c) to ∧
       (∀ p, p ∈ GetPendingPeers region → Peer_StoreId p ≠ to) ∧ transfers (view c) region to op).
Proof.
  intros Hl. revert k. induction ids as [|id ids IH]; intros k; cbn [label_loop]; [apply offers_none|].
  assert (IH' : offers (label_loop now call followerIDs rand rules regionFilters c (S k) ids)
    (λ op, ∃ id0 region to, id0 ∈ id :: ids ∧ leads id0 region ∧ may_lead (view c) to ∧
       (∀ p, p ∈ GetPendingPeers region → Peer_StoreId p ≠ to) ∧ transfers (view c) region to op)).
  { destruct (IH (S k)) as (r & Hr & HQ). exists r. split; [done|]. intros op Hop.
    destruct (HQ op Hop) as (id0 & region & to & Hin & Hrest). exists id0, region, to. split; [by right|done]. }
  eapply (query_bind (view c)); [apply leader_query|done|]. intros region Hr Hlead _. apply ruled_bind; [done|]. intros [] Hru; [done|].
  destruct (label_target _ _ _ _ _) as [target|] eqn:Et; [|done]. apply balance_target_elem in Et as [Ht Hf].
  apply offers_some. eexists id, region, _. split_and!; [by left|done|by eapply follower_may_lead| |].
  - cbn in Hf. rewrite orb_false_iff, bool_decide_eq_false, elem_of_list_to_set, elem_of_app in Hf. destruct Hf as [Hf _].
    intros p Hp Heq. apply Hf. right. rewrite list_elem_of_fmap. by exists p.
  - apply transfer_op_transfers; [done|by apply follower_stores_elem].
Qed.

(** The schedulers that move leaders off a store (by command, or because its
    labels reject leaders), onto a store, or at random: each returns, and an
    operator hands the leadership of a region of the cluster to a follower, of a
    region led by the store in question, to a store that may lead, and never to a
    pending peer. *)
Theorem leader_schedulers_correct c `{!ValidView (view c), !ValidQueries (view c) (queries c)} storeID : rules_listed (view c) →
  offers (evictLeader_Schedule now call followerIDs rand draw storeID c)
    (λ op, ∃ region to, leads storeID region ∧ HealthRegion region = true ∧ may_lead (view c) to ∧ transfers (view c) region to op) ∧
  offers (grantLeader_Schedule now rand storeID c) (λ op, ∃ region, HealthRegion region = true ∧ transfers (view c) region storeID op) ∧
  offers (label_Schedule now call range followerIDs rand order rules regionFilters c)
    (λ op, ∃ id region to, rejects (view c) id ∧ leads id region ∧ may_lead (view c) to ∧
       (∀ p, p ∈ GetPendingPeers region → Peer_StoreId p ≠ to) ∧ transfers (view c) region to op) ∧
  offers (shuffleLeader_Schedule now call range rand draw c)
    (λ op, ∃ region to, HealthRegion region = true ∧ is_Some (v_GetStore (view c) to) ∧ transfers (view c) region to op).
Proof.
  intros Hl. split_and!; [apply (evict_offers storeID c)|apply (grant_offers storeID c)| |apply (shuffle_offers c)].
  destruct (label_loop_offers c (order (reject_stores range c)) 0 Hl) as (r & Hr & HQ). exists r. split; [exact Hr|].
  intros op Hop. destruct (HQ op Hop) as (id & region & to & Hid & Hrest). exists id, region, to. split; [|done].
  rewrite Horder, elem_of_elements in Hid. by apply (reject_stores_spec c).
Qed.
End leaders.

(** ** The balance of leaders settles *)

Section settles.
Context `{!Unicode} `{!Classifier}.
Context {C : Type} `{!Cluster C, !ScheduleCluster C, !SchedulerCluster C}.
Variable range : nat → list StoreInfo → list StoreInfo.
Variable influence : OpInfluence.
Implicit Types (c : C) (region : RegionInfo).

Lemma shouldBalance_leader c i source target region :
  leaderWeight source = f64_of_Z 1 → leaderWeight target = f64_of_Z 1 →
  small (leaderSize source) → small (leaderSize target) → small (leader_influence influence c source) → small (leader_influence influence c target) →
  small (balance_size range c i region) →
  shouldBalance range influence c i source target region LeaderKind =
    (leaderSize target + leader_influence influence c target + balance_size range c i region
     <? leaderSize source + leader_influence influence c source - balance_size range c i region).
Proof.
  unfold small. intros Hw Hw' Hs Ht His Hit Hb. unfold shouldBalance, ResourceScore, ResourceSize. cbn [Z.eqb LeaderKind]. cbn zeta.
  fold (leader_influence influence c source) (leader_influence influence c target). rewrite !int64_small by lia.
  rewrite !LeaderScore_default, f64_ltb_signed by (done || lia). f_equal; lia.
Qed.

(** The balance of leaders settles.  With default weights, if it is willing to
    move the leader of a region from one store to another, then after the move, the
    sizes of the two stores having changed by the region's, it is not willing to
    move it back. *)
Theorem balance_leader_settles c i source target source' target' region :
  let size := GetApproximateSize region in
  leaderWeight source = f64_of_Z 1 → leaderWeight target = f64_of_Z 1 →
  leaderWeight source' = f64_of_Z 1 → leaderWeight target' = f64_of_Z 1 →
  st_meta source' = st_meta source → st_meta target' = st_meta target →
  leaderSize source' = leaderSize source - size → leaderSize target' = leaderSize target + size →
  0 ≤ size ≤ balance_size range c i region →
  small (leaderSize source) → small (leaderSize target) → small (leaderSize source') → small (leaderSize target') →
  small (leader_influence influence c source) → small (leader_influence influence c target) → small (balance_size range c i region) →
  shouldBalance range influence c i source target region LeaderKind = true →
  shouldBalance range influence c i target' source' region LeaderKind = false.
Proof.
  cbn zeta. intros Hw1 Hw2 Hw3 Hw4 Hm Hm' Hs Ht Hsize Hb1 Hb2 Hb3 Hb4 Hi1 Hi2 Hb.
  assert (Eis : leader_influence influence c source' = leader_influence influence c source) by (unfold leader_influence, store_GetID; by rewrite Hm).
  assert (Eit : leader_influence influence c target' = leader_influence influence c target) by (unfold leader_influence, store_GetID; by rewrite Hm').
  rewrite !shouldBalance_leader by (done || by rewrite ?Eis, ?Eit). rewrite Eis, Eit, Z.ltb_lt, Z.ltb_ge. lia.
Qed.
End settles.

(** ** The balance of regions *)

Section regions.
Context `{!Unicode} `{!Classifier}.
Context {C : Type} `{!Cluster C, !ScheduleCluster C, !ScheduleClusterLaws C, !SchedulerCluster C, !SchedulerClusterLaws C}.
Variables (now : Z) (call : nat → bool).
Variable range : nat → list StoreInfo → list StoreInfo.
Variable followerIDs : RegionInfo → list Z.
Variable rand : nat → nat → nat.
Variable rules : nat → list (bytes * PluginInfo).
Variable regionFilters : list RegionFilter.
Variable influence : OpInfluence.
Hypothesis Hrange : ∀ i l, range i l ≡ₚ l.
Hypothesis Hids : ∀ region, is_FollowerIDs region (followerIDs region).
Implicit Types (c : C) (v : View) (region : RegionInfo) (b : hitsStoreBuilder).

(** What allocating ids leaves alone. *)
Definition same c' c : Prop := view c' = view c ∧ queries c' = queries c.

Lemma same_refl c : same c c.
Proof. done. Qed.
Lemma same_trans c1 c2 c3 : same c1 c2 → same c2 c3 → same c1 c3.
Proof. unfold same. intros [] []. split; congruence. Qed.

Lemma shouldBalance_same c' c i source target region kind : same c' c →
  shouldBalance range influence c' i source target region kind = shouldBalance range influence c i source target region kind.
Proof. intros [Hv Hq]. unfold shouldBalance, balance_size, adjustTolerantRatio, cl_GetStores. by rewrite Hv, Hq. Qed.

Lemma ruled_same c' c kind i region : same c' c → ruled rules regionFilters kind c' i region = ruled rules regionFilters kind c i region.
Proof. intros [Hv _]. unfold ruled. by rewrite Hv. Qed.

Lemma or_nil_create c desc region kind old new peer :
  ∃ r, or_nil (λ c, (c, CreateMovePeerOperator desc c region kind old new peer (followerIDs region) now)) c = (c, inr r) ∧
    ∀ op, r = Some op → op_regionID op = GetID region ∧ op_regionEpoch op = GetRegionEpoch region.
Proof.
  unfold or_nil, CreateMovePeerOperator. destruct (removePeerSteps _ _ _ _) as [err|[k steps]] eqn:Er.
  - assert (∃ msg, err = Error msg) as [msg ->].
    { unfold removePeerSteps in Er. repeat case_match; simplify_eq; by eexists. }
    exists None. done.
  - eexists (Some _). split; [reflexivity|]. by intros ? [= <-].
Qed.

(** The operator that moves a peer, for any region. *)
Definition moves c region old new op : Prop :=
  op_regionID op = GetID region ∧ op_regionEpoch op = GetRegionEpoch region ∧ (plain_region region → moves_peer region old new op).

Lemma create_move_moves c c' desc region kind old new peer : old ∈ stores region → (new ∉ stores region) →
  (∃ msg, CreateMovePeerOperator desc c' region kind old new peer (followerIDs region) now = inl (Error msg)) ∨
  ∃ op, CreateMovePeerOperator desc c' region kind old new peer (followerIDs region) now = inr op ∧ moves c region old new op.
Proof.
  intros Hold Hnew. destruct (CreateMovePeerOperator _ _ _ _ _ _ _ _ _) as [err|op] eqn:E.
  - left. unfold CreateMovePeerOperator, removePeerSteps in E. repeat case_match; simplify_eq; by eexists.
  - right. exists op. split; [done|].
    assert (op_regionID op = GetID region ∧ op_regionEpoch op = GetRegionEpoch region) as [Hid He].
    { unfold CreateMovePeerOperator in E. repeat case_match; by simplify_eq. }
    split_and!; [done..|]. intros Hpr. split_and!; [done..|].
    by apply (move_peer_safe desc region (followerIDs region) Hpr (Hids region) c' _ _ _ _ _ _ Hold Hnew E).
Qed.

Lemma move_op_total c desc kind region old new : old ∈ stores region → (new ∉ stores region) →
  ∃ c' r, move_op now followerIDs desc kind region old new c = (c', inr r) ∧ same c' c ∧ ∀ op, r = Some op → moves c region old new op.
Proof.
  intros Hold Hnew.
  assert (∃ c' r, move_op now followerIDs desc kind region old new c = (c', inr r) ∧ same c' c ∧
    ∀ op, r = Some op → op_regionID op = GetID region ∧ op_regionEpoch op = GetRegionEpoch region) as (c' & r & Hm & Hs & HQ).
  { unfold move_op. rewrite M_bind_eq. unfold or_nil at 1.
    pose proof (AllocPeer_view c new) as Hv. pose proof (AllocPeer_queries c new) as Hq. pose proof (AllocPeer_error c new) as He.
    destruct (AllocPeer new c) as [c1 [[msg|msg]|p]]; cbn [fst snd] in Hv, Hq, He.
    - eexists _, None. split_and!; done.
    - by destruct (He msg).
    - destruct (or_nil_create c1 desc region kind old (Peer_StoreId p) (Peer_Id p)) as (r & Hr & HQ).
      exists c1, r. split_and!; [exact Hr|done|done]. }
  exists c', r. split_and!; [done..|]. intros op Hop. destruct (HQ op Hop) as [H1' H2']. split_and!; [done..|]. intros Hpr.
  destruct (move_op_moves now followerIDs region Hpr (Hids region) c desc kind old new Hold Hnew) as (c2 & r2 & Hm2 & _ & HQ2).
  rewrite Hm in Hm2. simplify_eq. by apply HQ2.
Qed.

(** The store is up, healthy, has few snapshots and pending peers and no peer of
    the region. *)
Definition fit_target v region (id : Z) : Prop :=
  ∃ s, v_GetStore v id = Some s ∧ (id ∉ stores region) ∧ IsUp (v_heap v) s = true ∧
    health_filter now (v_opt v) s = false ∧ snapshot_filter (v_opt v) s = false ∧
    pending_filter (v_opt v) s = false ∧ IsOverloaded call s = false.

(** The location of the new store is not worse than that of the old one. *)
Definition keeps_location v region (source target : StoreInfo) : Prop :=
  let others := filter (λ s, store_GetID (v_heap v) s ≠ store_GetID (v_heap v) source) (v_GetRegionStores v region) in
  let score := DistinctScore (v_heap v) (opt_LocationLabels (v_opt v)) others in
  f64_ltb (score target) (score source) = false.

Lemma replacement_fit c `{!ValidView (view c)} i region old scoreGuard hitsFilter id score source :
  NewDistinctScoreFilter (v_heap (view c)) (opt_LocationLabels (v_opt (view c))) (v_GetRegionStores (view c) region) source = inr scoreGuard →
  SelectBestReplacementStore now call range false c i region old [scoreGuard; hitsFilter] = (id, score) → id ≠ 0 →
  fit_target (view c) region id ∧ ∃ s, v_GetStore (view c) id = Some s ∧ keeps_location (view c) region source s.
Proof.
  unfold NewDistinctScoreFilter. destruct (_ =? 0)%nat; [done|]. intros [= <-]. unfold SelectBestReplacementStore. cbn zeta.
  intros Hsel Hne. eapply (selectBest_spec _ _ range false Hrange c) in Hsel as (s & Hs & -> & Hf & _); [|done].
  unfold add_filters, replica_filters in Hf. rewrite <-!app_assoc, !FilterTarget_app, !orb_false_iff in Hf. cbn in Hf.
  rewrite !orb_false_iff, negb_false_iff, bool_decide_eq_false, elem_of_store_ids in Hf.
  split; [exists s|exists s]; [|split; [done|by apply Hf]]. tauto.
Qed.

(** The scheduler keeps the hits beside the cluster. *)
Definition keeps {A} (m : M (hitsStoreBuilder * C) (option A)) c (Q : A → Prop) : Prop :=
  ∀ b, ∃ b' c' r, m (b, c) = ((b', c'), inr r) ∧ same c' c ∧ ∀ x, r = Some x → Q x.

Lemma transfer_to_keeps c region old source target storeID : Peer_GetStoreId old ∈ stores region → (storeID ∉ stores region) →
  keeps (transfer_to now followerIDs region old source target storeID) c (moves c region (Peer_GetStoreId old) storeID).
Proof.
  intros Hold Hnew b. unfold transfer_to.
  destruct (move_op_total c "balance-region" OpBalance region _ storeID Hold Hnew) as (c' & r & -> & Hs & HQ).
  destruct r as [op|]; eexists _, c', _; split_and!; [reflexivity|done| |reflexivity|done|done]. intros ? [= <-]. auto.
Qed.

(** What the balance of regions proposes. *)
Definition balances_region c op : Prop :=
  let v := view c in
  ∃ region old new source target i, old ∈ stores region ∧ v_GetStore v old = Some source ∧ v_GetStore v new = Some target ∧
    Z.of_nat (length (GetPeers region)) = opt_MaxReplicas (v_opt v) ∧ v_IsRegionHot v (GetID region) = false ∧
    ruled rules regionFilters None c i region = inr false ∧
    fit_target v region new ∧ keeps_location v region source target ∧
    shouldBalance range influence c (S (S i)) source target region RegionKind = true ∧ moves c region old new op.

Lemma transferPeer_keeps c `{!ValidView (view c)} k region (p : Peer) source : GetStorePeer region (Peer_StoreId p) = Some p →
  v_GetStore (view c) (Peer_StoreId p) = Some source →
  Z.of_nat (length (GetPeers region)) = opt_MaxReplicas (v_opt (view c)) → v_IsRegionHot (view c) (GetID region) = false →
  ruled rules regionFilters None c k region = inr false →
  keeps (transferPeer now call range followerIDs influence k region (Some p)) c (balances_region c).
Proof.
  intros Hp Hsource Hmax Hhot Hru b. apply GetStorePeer_Some in Hp as [Hp _].
  assert (Hold : Peer_StoreId p ∈ stores region) by (unfold stores; rewrite list_elem_of_fmap; by exists p).
  unfold transferPeer. cbn zeta. change (Peer_GetStoreId (Some p)) with (Peer_StoreId p). rewrite Hsource.
  assert (Hin : source ∈ v_GetRegionStores (view c) region).
  { apply elem_of_region_stores. exists p. split; [done|]. by eapply lookup_weaken, view_peer_stores. }
  destruct (NewDistinctScoreFilter _ _ _ _) as [err|scoreGuard] eqn:Eg.
  { unfold NewDistinctScoreFilter in Eg. destruct (v_GetRegionStores (view c) region); [by apply not_elem_of_nil in Hin|done]. }
  destruct (buildTargetFilter _ _ _ _ _) as [b1 hf]. cbn [from_option default].
  destruct (SelectBestReplacementStore _ _ _ _ _ _ _ _ _) as [id score] eqn:Esel.
  destruct (Z.eqb_spec id 0) as [->|Hne]; [eexists _, c, None; split_and!; done|].
  destruct (replacement_fit _ _ _ _ _ _ _ _ _ Eg Esel Hne) as (Hfit & target & Ht & Hkeep). rewrite Ht.
  destruct (shouldBalance _ _ _ _ _ _ _ _) eqn:Eb; cbn [negb]; [|eexists _, c, None; split_and!; done].
  assert (Hnew : id ∉ stores region) by by destruct Hfit as (? & ? & ? & _).
  destruct (transfer_to_keeps c region (Some p) source target id Hold Hnew b1) as (b' & c' & r & Hr & Hs & HQ).
  exists b', c', r. split_and!; [exact Hr|done|]. intros op Hop. exists region, (Peer_StoreId p), id, source, target, k.
  split_and!; try done. by apply HQ.
Qed.

Lemma pick_spec c `{!ValidQueries (view c) (queries c)} k sourceID : ∃ r, balance_region_pick rand c k sourceID = inr r ∧
  ∀ region, r = Some region → is_Some (GetStorePeer region sourceID).
Proof.
  unfold balance_region_pick. cbn zeta.
  destruct (pending_query (rand k) sourceID [HealthRegionAllowPending]) as (r1 & -> & Hr1). cbn [random_region mbind result_bind].
  destruct r1 as [region|]; [by exists (Some region)|].
  destruct (follower_query (rand (S k)) sourceID [HealthRegion]) as (r2 & -> & Hr2). cbn [random_region mbind result_bind].
  destruct r2 as [region|]; [exists (Some region); split; [done|]; intros ? [= <-]; by apply (Hr2 region)|].
  destruct (leader_query (rand (S (S k))) sourceID [HealthRegion]) as (r3 & -> & Hr3). exists r3. split; [done|].
  intros region ->. by apply (Hr3 region).
Qed.

Lemma try_keeps c `{!ValidView (view c), !ValidQueries (view c) (queries c)} k source : rules_listed rules (view c) → v_GetStore (view c) (store_GetID (v_heap (view c)) source) = Some source →
  keeps (balance_region_try now call range followerIDs rand rules regionFilters influence k source) c (balances_region c).
Proof.
  intros Hl Hs b. unfold balance_region_try. cbn zeta.
  assert (Hnone : ∀ b', ∃ b'' c' (r : option Operator), ((b', c), inr None) = ((b'', c'), inr r : result (option Operator)) ∧ same c' c ∧
    ∀ x, r = Some x → balances_region c x) by (intros b'; by exists b', c, None).
  destruct (pick_spec c k (store_GetID (v_heap (view c)) source)) as ([region|] & -> & Hp); [|apply Hnone].
  destruct (Z.eqb_spec (Z.of_nat (length (GetPeers region))) (opt_MaxReplicas (v_opt (view c)))) as [Hmax|]; cbn [negb]; [|apply Hnone].
  destruct (v_IsRegionHot _ _) eqn:Ehot; [apply Hnone|].
  destruct (ruled_total rules regionFilters None c k region Hl) as [[] Hru]; rewrite Hru; [apply Hnone|].
  destruct (Hp region eq_refl) as [p Hsp]. rewrite Hsp. pose proof (GetStorePeer_Some _ _ _ Hsp) as [_ Hid].
  rewrite <-Hid in Hs, Hsp. by apply (transferPeer_keeps c k region p source).
Qed.

Lemma balances_region_same c' c op : same c' c → balances_region c' op → balances_region c op.
Proof.
  intros Hs. unfold balances_region. cbn zeta. setoid_rewrite (shouldBalance_same _ _ _ _ _ _ _ Hs).
  setoid_rewrite (ruled_same _ _ _ _ _ Hs). by rewrite (proj1 Hs).
Qed.

Lemma region_loop_keeps source n : ∀ c `{!ValidView (view c), !ValidQueries (view c) (queries c)} k, rules_listed rules (view c) →
  v_GetStore (view c) (store_GetID (v_heap (view c)) source) = Some source →
  keeps (balance_region_loop now call range followerIDs rand rules regionFilters influence source n k) c (balances_region c).
Proof.
  induction n as [|n IH]; intros c Hvv Hvq k Hl Hs b; cbn [balance_region_loop]; [by exists b, c, None|].
  rewrite M_bind_eq. destruct (try_keeps c k source Hl Hs b) as (b1 & c1 & r & -> & Hsame & HQ).
  destruct r as [op|]; [exists b1, c1, (Some op); by split_and!|].
  assert (ValidView (view c1)) by by rewrite (proj1 Hsame).
  assert (ValidQueries (view c1) (queries c1)) by by rewrite (proj1 Hsame), (proj2 Hsame).
  destruct (IH c1 _ _ (3 + k)%nat) with (b := b1) as (b2 & c2 & r & Hr & Hsame2 & HQ2); [by rewrite (proj1 Hsame)..|].
  exists b2, c2, r. split_and!; [exact Hr|by eapply same_trans|]. intros op Hop. by eapply balances_region_same, HQ2.
Qed.

(** C12: The balance of regions.  If the regions of the rules can be listed the
    scheduler returns, allocates at most ids, and an operator it proposes moves the
    peer of a region with the right number of replicas, neither hot nor under an
    active rule, to a store that is up, healthy and not busy and has no peer of
    the region; the location of the new store is not worse than that of the old
    one, and the old store's score is still above the new one's after the move.
    The steps never leave fewer voters than before. *)
Theorem balance_region_correct c `{!ValidView (view c), !ValidQueries (view c) (queries c)} b : rules_listed rules (view c) →
  ∃ b' c' r, balanceRegion_Schedule now call range followerIDs rand rules regionFilters influence (b, c) = ((b', c'), inr r) ∧
    same c' c ∧ ∀ op, r = Some op → balances_region c op.
Proof.
  intros Hl. unfold balanceRegion_Schedule. cbn zeta. destruct (buildSourceFilter _ _ _ _) as [b1 hf].
  destruct (Balance_SelectSource _ _ _ _ _ _ _ _) as [source|] eqn:Es; [|by exists b1, c, None].
  apply balance_source_elem in Es as [Hs _]. apply (region_loop_keeps source balanceRegionRetryLimit c); [done|]. by eapply (elem_of_cl_stores range Hrange c).
Qed.

(** *** Shuffling regions *)

Variable draw : nat → Z.

Lemma remove_peer_spec c `{!ValidView (view c), !ValidQueries (view c) (queries c)} : ∃ r, scheduleRemovePeer now call range rand draw c = inr r ∧
  ∀ region old, r = Some (region, old) → v_GetRegion (view c) (GetID region) = Some region ∧ HealthRegion region = true ∧
    ∃ p, old = Some p ∧ p ∈ GetPeers region.
Proof.
  unfold scheduleRemovePeer. cbn zeta. destruct (Random_SelectSource _ _ _ _ _ _ _) as [source|]; [|by exists None].
  set (id := store_GetID _ _).
  assert (Hgo : ∀ region, v_GetRegion (view c) (GetID region) = Some region → is_Some (GetStorePeer region id) →
    forallb (λ opt : RegionOption, opt region) [HealthRegion] = true →
    v_GetRegion (view c) (GetID region) = Some region ∧ HealthRegion region = true ∧ ∃ p, GetStorePeer region id = Some p ∧ p ∈ GetPeers region).
  { intros region Hr [p Hp] Hh%healthy_one. split_and!; [done..|]. exists p. split; [done|]. by destruct (GetStorePeer_Some _ _ _ Hp). }
  destruct (follower_query (rand 0) id [HealthRegion]) as (r1 & -> & Hr1). cbn [random_region mbind result_bind].
  destruct r1 as [region|].
  { exists (Some (region, GetStorePeer region id)). split; [done|]. intros ? ? [= <- <-].
    destruct (Hr1 region eq_refl) as (Ha & _ & Hb & Hc). exact (Hgo region Ha Hb Hc). }
  destruct (leader_query (rand 1) id [HealthRegion]) as (r2 & -> & Hr2). cbn [random_region mbind result_bind].
  destruct r2 as [region|]; [|by exists None].
  exists (Some (region, GetStorePeer region id)). split; [done|]. intros ? ? [= <- <-].
  destruct (Hr2 region eq_refl) as (Ha & _ & Hb & Hc). exact (Hgo region Ha Hb Hc).
Qed.

(** Shuffling regions: an operator moves a peer of a healthy region to a store
    that may take it and has no peer of the region. *)
Theorem shuffle_region_correct c `{!ValidView (view c), !ValidQueries (view c) (queries c)} :
  yields (shuffleRegion_Schedule now call range followerIDs rand draw) c (λ op, ∃ region old new,
    v_GetRegion (view c) (GetID region) = Some region ∧ HealthRegion region = true ∧ old ∈ stores region ∧ (new ∉ stores region) ∧
    (∃ s, v_GetStore (view c) new = Some s ∧ state_FilterTarget (v_heap (view c)) now call false true (v_opt (view c)) s = false) ∧
    moves c region old new op).
Proof.
  unfold shuffleRegion_Schedule, yields. destruct (remove_peer_spec c) as ([[region old]|] & -> & Hr); [|by apply (yields_none c)].
  destruct (Hr region old eq_refl) as (Hreg & Hh & p & -> & Hp).
  assert (Hold : Peer_StoreId p ∈ stores region) by (unfold stores; rewrite list_elem_of_fmap; by exists p).
  destruct (scheduleAddPeer _ _ _ _ _ _) as [target|] eqn:Et; [|by apply (yields_none c)].
  apply random_target_elem in Et as [Ht Hf]. rewrite FilterTarget_app, orb_false_iff in Hf. cbn in Hf.
  rewrite !orb_false_r, bool_decide_eq_false, elem_of_store_ids in Hf. destruct Hf as [Hnew Hf].
  unfold high_priority. rewrite M_bind_eq. change (Peer_GetStoreId (Some p)) with (Peer_StoreId p).
  destruct (move_op_total c "shuffle-region" OpAdmin region _ _ Hold Hnew) as (c' & r & -> & [Hv _] & HQ).
  eexists c', _. split_and!; [reflexivity|done|]. intros x Hx. apply fmap_Some in Hx as (op & -> & ->).
  exists region, (Peer_StoreId p), (store_GetID (v_heap (view c)) target). split_and!; [done..| |].
  - exists target. split; [by eapply (elem_of_cl_stores range Hrange c)|done].
  - exact (HQ op eq_refl).
Qed.
End regions.
