(* ===== verification/NamespaceCluster.v ===== *)
(** * The part of the cluster in a namespace (server/namespace_cluster.go)

    A scheduler runs on the stores and regions of one namespace at a time.  The
    wrapper implements the interface of the schedulers on top of another
    implementation. *)

From S2P Require Import Prelude GoBytes BTree Strconv Strings Float KV Metapb Region RegionTree RegionMap RegionsInfo Cache Storage Store Statistics Config Operator OperatorProps Schedule ScheduleProps Structure Checkers CheckersProps Plugin Schedulers.

Record namespaceCluster (C : Type) := mkNamespaceCluster {
  nc_Cluster : C;
  nc_namespace : bytes;
  nc_stores : StoresInfo;
}.
Arguments mkNamespaceCluster {C}.
Arguments nc_Cluster {C}.
Arguments nc_namespace {C}.
Arguments nc_stores {C}.

Definition randRegionMaxRetry : nat := 10.

Section namespaces.
Context `{!Unicode} `{!Classifier}.
Context {C : Type} `{!Cluster C, !ScheduleCluster C, !SchedulerCluster C}.
Implicit Types (c : C) (nc : namespaceCluster C) (region : RegionInfo).

(** [stores] is [c.GetStores()]. *)
Definition newNamespaceCluster c (ns : bytes) (stores : list StoreInfo) : namespaceCluster C :=
  let h := v_heap (view c) in
  mkNamespaceCluster c ns
    (foldl (λ m s, if bool_decide (GetStoreNamespace h s = ns) then <[store_GetID h s := s]> m else m) ∅ stores).

Definition nc_checkRegion nc region : bool :=
  bool_decide (GetRegionNamespace region = nc_namespace nc) &&
  forallb (λ p, bool_decide (is_Some (nc_stores nc !! Peer_StoreId p))) (GetPeers region).

(** The retries of a random query; each takes its own draws. *)
Fixpoint rand_retry (q : RandQuery) (check : RegionInfo → bool) (n i : nat) (draws : nat → nat) (storeID : Z) (opts : list RegionOption)
    : option (option RegionInfo) :=
  match n with
  | O => Some None
  | S n =>
      r ← q (λ j, draws (i * randomRegionMaxRetry + j)%nat) storeID opts;
      match r with
      | None => Some None
      | Some region => if check region then Some (Some region) else rand_retry q check n (S i) draws storeID opts
      end
  end.

Definition nc_RandFollowerRegion nc : RandQuery := rand_retry (q_RandFollowerRegion (queries (nc_Cluster nc))) (nc_checkRegion nc) randRegionMaxRetry 0.
Definition nc_RandLeaderRegion nc : RandQuery := rand_retry (q_RandLeaderRegion (queries (nc_Cluster nc))) (nc_checkRegion nc) randRegionMaxRetry 0.

Definition nc_GetAverageRegionSize nc : Z :=
  let '(totalCount, totalSize) :=
    map_fold (λ _ s '(n, z), (int64 (n + int64 (regionCount s)), int64 (z + regionSize s))) (0, 0) (nc_stores nc) in
  if totalCount =? 0 then 0 else int64 (Z.quot totalSize totalCount).

Definition nc_GetRegion nc (id : Z) : option RegionInfo :=
  match v_GetRegion (view (nc_Cluster nc)) id with
  | Some r => if nc_checkRegion nc r then Some r else None
  | None => None
  end.

Definition nc_RegionWriteStats nc : list (RegionStat * f64) :=
  filter (λ st, is_Some (nc_GetRegion nc (stat_RegionID st.1))) (q_RegionWriteStats (queries (nc_Cluster nc))).

(** ** The interface *)

#[export] Instance nc_cluster : Cluster (namespaceCluster C) := {
  IsRaftLearnerEnabled nc := IsRaftLearnerEnabled (nc_Cluster nc);
  CheckLabelProperty nc := CheckLabelProperty (nc_Cluster nc);
  GetStoreLabels nc id := store_GetLabels (v_heap (view (nc_Cluster nc))) <$> nc_stores nc !! id;
  AllocPeer storeID nc :=
    let '(c, r) := AllocPeer storeID (nc_Cluster nc) in (mkNamespaceCluster c (nc_namespace nc) (nc_stores nc), r);
}.

(** The options of the namespace; the rest is the whole cluster's. *)
Definition nc_limits nc : Limits :=
  let q := queries (nc_Cluster nc) in
  let o := q_GetOpt q (nc_namespace nc) in
  mkLimits (l_LeaderScheduleLimit o) (l_RegionScheduleLimit o) (l_ReplicaScheduleLimit o) (l_MergeScheduleLimit o)
    (l_HotRegionScheduleLimit (q_Limits q)) (l_MaxReplicas o).

#[export] Instance nc_schedule : ScheduleCluster (namespaceCluster C) := {
  view nc :=
    let v := view (nc_Cluster nc) in
    let o := v_opt v in
    mkView (v_heap v) (nc_stores nc) (v_peer_stores v)
      (mkOptions (opt_cfg o) (l_MaxReplicas (nc_limits nc)) (opt_LocationLabels o) (opt_rejects o))
      (nc_GetRegion nc) (v_ScanRegions v) (v_ScanRangeWithEndKey v) (v_GetAdjacentRegions v) (v_IsRegionHot v);
}.

#[export] Instance nc_queries : SchedulerCluster (namespaceCluster C) := {
  queries nc :=
    let q := queries (nc_Cluster nc) in
    mkQueries (nc_RandFollowerRegion nc) (nc_RandLeaderRegion nc) (q_RandPendingRegion q)
      (nc_GetAverageRegionSize nc) (q_GetStoreRegionCount q) (nc_RegionWriteStats nc) (q_RegionReadStats q)
      (nc_limits nc) (q_GetOpt q);
}.

(** ** Running a scheduler *)

(** A scheduler with state [S]; the operators it proposes. *)
Abbreviation Schedule_on S := (M (S * namespaceCluster C) (option (list Operator))).

(** [perm] are the namespaces in random order; [order i] is the order in which the
    i-th iteration over the stores sees them. *)
Fixpoint scheduleByNamespace {S} (schedule : Schedule_on S) (order : nat → list StoreInfo → list StoreInfo)
    (perm : list bytes) (i : nat) : M (S * C) (option (list Operator)) := λ '(s, c),
  match perm with
  | [] => ((s, c), inr None)
  | ns :: perm =>
      let nc := newNamespaceCluster c ns (order i (stores_GetStores (v_stores (view c)))) in
      match schedule (s, nc) with
      | ((s, nc), inl err) => ((s, nc_Cluster nc), inl err)
      | ((s, nc), inr (Some ops)) => ((s, nc_Cluster nc), inr (Some ops))
      | ((s, nc), inr None) => scheduleByNamespace schedule order perm (Datatypes.S i) (s, nc_Cluster nc)
      end
  end.
End namespaces.
