(* ===== verification/NamespaceClusterProps.v ===== *)
(** * Namespaces confine the schedulers

    The part of the cluster in a namespace implements the interface of the
    schedulers whenever the whole does, and shows exactly the stores and regions of
    the namespace. *)

From S2P Require Import Prelude GoBytes BTree Strconv Strings Float KV Metapb Region RegionTree RegionMap RegionsInfo Cache Storage Store Statistics Config Operator OperatorProps Schedule ScheduleProps Structure Checkers CheckersProps Plugin Schedulers SchedulersProps NamespaceCluster.

Section namespaces.
Context `{!Unicode} `{!Classifier}.
Context {C : Type} `{!Cluster C, !ScheduleCluster C, !ScheduleClusterLaws C, !SchedulerCluster C, !SchedulerClusterLaws C}.
Implicit Types (c : C) (nc : namespaceCluster C) (region : RegionInfo) (ns : bytes).

(** ** The interface *)

Lemma nc_same nc c' : same c' (nc_Cluster nc) → same (mkNamespaceCluster c' (nc_namespace nc) (nc_stores nc)) nc.
Proof.
  destruct nc as [c ns stores]. intros [Hv Hq]. cbn [nc_Cluster] in Hv, Hq. split.
  - cbn [view nc_schedule nc_Cluster nc_stores nc_namespace]. unfold nc_limits, nc_GetRegion.
    cbn [nc_Cluster nc_namespace nc_stores]. by rewrite Hv, Hq.
  - cbn [queries nc_queries nc_Cluster nc_stores nc_namespace].
    unfold nc_limits, nc_RandFollowerRegion, nc_RandLeaderRegion, nc_RegionWriteStats, nc_GetRegion.
    cbn [nc_Cluster nc_namespace nc_stores]. by rewrite Hv, Hq.
Qed.

Lemma nc_alloc nc storeID : ∃ c', (AllocPeer storeID nc).1 = mkNamespaceCluster c' (nc_namespace nc) (nc_stores nc) ∧
  same c' (nc_Cluster nc) ∧ (AllocPeer storeID nc).2 = (AllocPeer storeID (nc_Cluster nc)).2.
Proof.
  exists (AllocPeer storeID (nc_Cluster nc)).1. cbn [AllocPeer nc_cluster]. pose proof (AllocPeer_view (nc_Cluster nc) storeID).
  pose proof (AllocPeer_queries (nc_Cluster nc) storeID). by destruct (AllocPeer storeID (nc_Cluster nc)).
Qed.

#[export] Instance nc_laws : ScheduleClusterLaws (namespaceCluster C).
Proof.
  split.
  - done.
  - intros nc labels. exact (view_rejects (nc_Cluster nc) labels).
  - intros nc storeID. destruct (nc_alloc nc storeID) as (c' & -> & Hs & _). by apply nc_same.
  - intros nc storeID p. destruct (nc_alloc nc storeID) as (c' & _ & _ & ->). exact (AllocPeer_peer (nc_Cluster nc) storeID p).
  - intros nc storeID msg. destruct (nc_alloc nc storeID) as (c' & _ & _ & ->). exact (AllocPeer_error (nc_Cluster nc) storeID msg).
Qed.

#[export] Instance nc_query_laws : SchedulerClusterLaws (namespaceCluster C).
Proof. split. intros nc storeID. destruct (nc_alloc nc storeID) as (c' & -> & Hs & _). by apply nc_same. Qed.

Lemma nc_checkRegion_spec nc region : nc_checkRegion nc region = true ↔
  GetRegionNamespace region = nc_namespace nc ∧ ∀ p, p ∈ GetPeers region → is_Some (nc_stores nc !! Peer_StoreId p).
Proof.
  unfold nc_checkRegion. rewrite andb_true_iff, bool_decide_eq_true, forallb_forall. setoid_rewrite bool_decide_eq_true.
  by setoid_rewrite <-list_elem_of_In.
Qed.

Lemma nc_GetRegion_Some nc id region : nc_GetRegion nc id = Some region ↔
  v_GetRegion (view (nc_Cluster nc)) id = Some region ∧ nc_checkRegion nc region = true.
Proof.
  unfold nc_GetRegion. destruct (v_GetRegion _ _) as [r|]; [|naive_solver]. destruct (nc_checkRegion nc r) eqn:E; naive_solver congruence.
Qed.

Lemma rand_retry_ok nc role q n : query_ok (view (nc_Cluster nc)) role q → ∀ i draws storeID opts,
  ∃ r, rand_retry q (nc_checkRegion nc) n i draws storeID opts = Some r ∧
    ∀ region, r = Some region → nc_GetRegion nc (GetID region) = Some region ∧ role storeID region ∧
      is_Some (GetStorePeer region storeID) ∧ forallb (λ opt : RegionOption, opt region) opts = true.
Proof.
  intros Hq. induction n as [|n IH]; intros i draws storeID opts; cbn [rand_retry]; [by exists None|].
  destruct (Hq (λ j, draws (i * randomRegionMaxRetry + j)%nat) storeID opts) as (r & -> & Hr). cbn [mbind option_bind].
  destruct r as [region|]; [|by exists None]. destruct (nc_checkRegion nc region) eqn:Ec; [|apply IH].
  exists (Some region). split; [done|]. intros ? [= <-]. destruct (Hr region eq_refl) as (? & ? & ? & ?).
  split_and!; [by apply nc_GetRegion_Some|done..].
Qed.

(** ** The part of a namespace *)

Section part.
Variables (c : C) (ns : bytes) (stores : list StoreInfo).
Context `{!ValidView (view c), !ValidQueries (view c) (queries c)}.
Hypothesis Hstores : stores ≡ₚ stores_GetStores (v_stores (view c)).
Let nc := newNamespaceCluster c ns stores.

Lemma elem_of_listed s : s ∈ stores ↔ v_stores (view c) !! store_GetID (v_heap (view c)) s = Some s.
Proof.
  rewrite Hstores. unfold stores_GetStores. rewrite list_elem_of_fmap. split.
  - intros ([id s'] & -> & Hs%elem_of_map_to_list). cbn. by rewrite (view_store_id (view c) id s' Hs).
  - intros Hs. exists (store_GetID (v_heap (view c)) s, s). split; [done|by apply elem_of_map_to_list].
Qed.

Lemma nc_stores_spec id s : nc_stores nc !! id = Some s ↔
  v_stores (view c) !! id = Some s ∧ GetStoreNamespace (v_heap (view c)) s = ns.
Proof.
  unfold nc, newNamespaceCluster. cbn [nc_stores]. set (h := v_heap (view c)).
  assert (Hf : ∀ l (m : StoresInfo), (∀ x, x ∈ l → x ∈ stores) →
    foldl (λ m s, if bool_decide (GetStoreNamespace h s = ns) then <[store_GetID h s := s]> m else m) m l !! id = Some s ↔
    s ∈ l ∧ store_GetID h s = id ∧ GetStoreNamespace h s = ns ∨
    m !! id = Some s ∧ (∀ x, x ∈ l → store_GetID h x = id → GetStoreNamespace h x = ns → x = s)).
  { induction l as [|x l IH]; intros m Hl; cbn [foldl].
    - split; [intros Hm; right; split; [done|]; by intros ? ?%not_elem_of_nil|]. intros [[?%not_elem_of_nil _]|[? _]]; done.
    - rewrite IH by (intros y Hy; apply Hl; by right).
      assert (Hone : ∀ y, y ∈ x :: l → store_GetID h y = store_GetID h x → y = x).
      { intros y Hy Heq. pose proof (proj1 (elem_of_listed y) (Hl y Hy)) as H1'. pose proof (proj1 (elem_of_listed x) (Hl x ltac:(by left))) as H2'.
        unfold h in Heq. rewrite Heq in H1'. congruence. }
      setoid_rewrite elem_of_cons. destruct (decide (GetStoreNamespace h x = ns)) as [Hns|Hns].
      + rewrite bool_decide_eq_true_2 by done. destruct (decide (store_GetID h x = id)) as [<-|Hid].
        * rewrite lookup_insert_eq. split.
          -- intros [(?&?&?)|[[= <-] Hu]]; [left; auto|]. left. auto.
          -- intros [([->|?]&?&?)|[Hm Hu]]; [|left; auto|].
             ++ right. split; [done|]. intros y Hy Heq _. apply Hone; [by right|done].
             ++ right. pose proof (Hu x (or_introl eq_refl) eq_refl Hns) as ->. split; [done|]. intros y Hy. apply Hu. by right.
        * rewrite lookup_insert_ne by done. naive_solver.
      + rewrite bool_decide_eq_false_2 by done. naive_solver. }
  rewrite Hf by done. rewrite lookup_empty. split.
  - intros [(Hs & <- & Hns)|[? _]]; [|done]. split; [by apply elem_of_listed|done].
  - intros [Hs Hns]. left. pose proof (view_store_id (view c) id s Hs) as Hid. split_and!; [|done|done].
    apply elem_of_listed. unfold h in *. by rewrite Hid.
Qed.

Lemma nc_valid : ValidView (view nc).
Proof.
  split; [exact (view_peer_id (v := view c))|]. cbn [view nc_schedule v_stores v_peer_stores]. apply map_subseteq_spec.
  intros id s [Hs _]%nc_stores_spec. eapply lookup_weaken; [exact Hs|apply view_peer_stores].
Qed.

Lemma nc_valid_queries : ValidQueries (view nc) (queries nc).
Proof.
  split.
  - intros draws storeID opts. eapply rand_retry_ok, follower_query.
  - intros draws storeID opts. eapply rand_retry_ok, leader_query.
  - exact (pending_query (v := view c) (q := queries c)).
Qed.

Definition in_ns (id : Z) : Prop := ∃ s, v_stores (view c) !! id = Some s ∧ GetStoreNamespace (v_heap (view c)) s = ns.

(** A region of the namespace with all its peers on stores of the namespace. *)
Definition ns_region region : Prop :=
  v_GetRegion (view c) (GetID region) = Some region ∧ GetRegionNamespace region = ns ∧ ∀ p, p ∈ GetPeers region → in_ns (Peer_StoreId p).

Lemma nc_region_confined id region : v_GetRegion (view nc) id = Some region ↔
  v_GetRegion (view c) id = Some region ∧ GetRegionNamespace region = ns ∧ ∀ p, p ∈ GetPeers region → in_ns (Peer_StoreId p).
Proof.
  change (v_GetRegion (view nc) id) with (nc_GetRegion nc id). rewrite nc_GetRegion_Some, nc_checkRegion_spec.
  change (nc_Cluster nc) with c. change (nc_namespace nc) with ns.
  assert (Hin : ∀ x, is_Some (nc_stores nc !! x) ↔ in_ns x) by (intros x; unfold in_ns, is_Some; by setoid_rewrite nc_stores_spec).
  by setoid_rewrite Hin.
Qed.

(** What a random query finds. *)
Lemma rand_confined role q draws storeID opts region : query_ok (view c) role q →
  rand_retry q (nc_checkRegion nc) randRegionMaxRetry 0 draws storeID opts = Some (Some region) →
  ns_region region ∧ role storeID region ∧ forallb (λ opt : RegionOption, opt region) opts = true.
Proof.
  intros Hq Hr. destruct (rand_retry_ok nc role q randRegionMaxRetry Hq 0 draws storeID opts) as (r & E & Hok). rewrite Hr in E.
  injection E as <-. destruct (Hok region eq_refl) as (Hg & ? & _ & ?). split_and!; [by apply nc_region_confined|done..].
Qed.

Lemma elem_of_write_stats st : st ∈ q_RegionWriteStats (queries nc) ↔
  st ∈ q_RegionWriteStats (queries c) ∧ is_Some (v_GetRegion (view nc) (stat_RegionID st.1)).
Proof.
  change (q_RegionWriteStats (queries nc)) with (nc_RegionWriteStats nc). unfold nc_RegionWriteStats. rewrite list_elem_of_filter.
  change (nc_Cluster nc) with c. change (v_GetRegion (view nc)) with (nc_GetRegion nc). tauto.
Qed.
End part.

End namespaces.
