(* ===== verification/HotRegion.v ===== *)
(** * Balancing hot regions (server/schedulers: hot_region.go, shuffle_hot_region.go)

    The scheduler counts the hot regions of each store and moves a peer or the
    leader of one of them from the store with most to one with fewer. *)

From S2P Require Import Prelude GoBytes BTree Strconv Strings Float KV Metapb Region RegionTree RegionMap RegionsInfo Cache Storage Store Statistics Config Operator Schedule Structure Checkers Plugin Schedulers.

(** ** Statistics *)

Record HotRegionsStat := mkHotRegionsStat {
  TotalFlowBytes : Z;
  RegionsCount : Z;
  RegionsStat : list RegionStat;
}.

Abbreviation StoreHotRegionsStat := (gmap Z HotRegionsStat).

Inductive BalanceType := hotWriteRegionBalance | hotReadRegionBalance.

(** [balanceHotRegionsScheduler] and its [storeStatistics]. *)
Record hotScheduler := mkHotScheduler {
  leaderLimit : Z;
  peerLimit : Z;
  readStatAsLeader : StoreHotRegionsStat;
  writeStatAsPeer : StoreHotRegionsStat;
  writeStatAsLeader : StoreHotRegionsStat;
}.

Definition newBalanceHotRegionsScheduler : hotScheduler := mkHotScheduler 1 1 ∅ ∅ ∅.

Definition set_leaderLimit (n : Z) (h : hotScheduler) : hotScheduler :=
  mkHotScheduler n (peerLimit h) (readStatAsLeader h) (writeStatAsPeer h) (writeStatAsLeader h).
Definition set_peerLimit (n : Z) (h : hotScheduler) : hotScheduler :=
  mkHotScheduler (leaderLimit h) n (readStatAsLeader h) (writeStatAsPeer h) (writeStatAsLeader h).

(** 0.75 and 0.9. *)
Definition hotRegionLimitFactor : f64 := f64_div (f64_of_Z 3) (f64_of_Z 4).
Definition hotRegionScheduleFactor : f64 := f64_div (f64_of_Z 9) (f64_of_Z 10).
Definition balanceHotRetryLimit : nat := 10.

(** The region under the store; its flow is the median, the total counts the last
    flow. *)
Definition add_stat (r : RegionStat) (median : f64) (stats : StoreHotRegionsStat) (storeID : Z) : StoreHotRegionsStat :=
  let old := default (mkHotRegionsStat 0 0 []) (stats !! storeID) in
  let s := mkRegionStat (stat_RegionID r) (uint64_of_f64 median) (HotDegree r) (LastUpdateTime r) storeID (AntiCount r) (stat_Version r) None in
  <[storeID := mkHotRegionsStat (uint64 (TotalFlowBytes old + FlowBytes r)) (RegionsCount old + 1) (RegionsStat old ++ [s])]> stats.

Definition hot_len (stats : StoreHotRegionsStat) (storeID : Z) : Z :=
  from_option (λ s, Z.of_nat (length (RegionsStat s))) 0 (stats !! storeID).
Definition hot_flow (stats : StoreHotRegionsStat) (storeID : Z) : Z := from_option TotalFlowBytes 0 (stats !! storeID).

(** The store with most hot regions, at least two, and of these one with the most
    flow; [ids] are the stores in the order of the iteration. *)
Definition select_src (stats : StoreHotRegionsStat) (best : Z * Z * Z) (storeID : Z) : Z * Z * Z :=
  let '(src, maxCount, maxFlow) := best in
  let count := hot_len stats storeID in
  let flow := hot_flow stats storeID in
  if (2 <=? count) && ((maxCount <? count) || ((count =? maxCount) && (maxFlow <? flow))) then (storeID, count, flow) else best.

Definition selectSrcStore (ids : list Z) (stats : StoreHotRegionsStat) : Z :=
  let '(src, _, _) := foldl (select_src stats) (0, 0, 0) ids in src.

(** A store without hot regions is taken at once. *)
Fixpoint select_dest (stats : StoreHotRegionsStat) (srcLen srcFlow regionFlowBytes : Z) (candidates : list Z)
    (dest minCount minFlow : Z) : Z :=
  match candidates with
  | [] => dest
  | storeID :: candidates =>
      match stats !! storeID with
      | None => storeID
      | Some s =>
          let len := Z.of_nat (length (RegionsStat s)) in
          let flow := TotalFlowBytes s in
          if (1 <? srcLen - len) && (len <? minCount) then
            select_dest stats srcLen srcFlow regionFlowBytes candidates storeID len flow
          else if (minCount =? len) && (flow <? minFlow) &&
                  (uint64 (flow + 2 * regionFlowBytes) <? uint64_of_f64 (f64_mul (f64_of_Z srcFlow) hotRegionScheduleFactor)) then
            select_dest stats srcLen srcFlow regionFlowBytes candidates storeID minCount flow
          else select_dest stats srcLen srcFlow regionFlowBytes candidates dest minCount minFlow
      end
  end.

Definition selectDestStore (candidates : list Z) (regionFlowBytes srcStoreID : Z) (stats : StoreHotRegionsStat) : Z :=
  select_dest stats (hot_len stats srcStoreID) (hot_flow stats srcStoreID) regionFlowBytes candidates 0 (2 ^ 31 - 1) (2 ^ 64 - 1).

Definition hot_adjustBalanceLimit (ids : list Z) (storeID : Z) (stats : StoreHotRegionsStat) : Z :=
  let total := foldl (λ t id, f64_add t (f64_of_Z (hot_len stats id))) (f64_of_Z 0) ids in
  let avg := f64_div total (f64_of_Z (Z.of_nat (size stats))) in
  let limit := uint64_of_f64 (f64_mul (f64_sub (f64_of_Z (hot_len stats storeID)) avg) hotRegionLimitFactor) in
  maxUint64 limit 1.

Section hot.
Context `{!Unicode} `{!Classifier}.
Context {C : Type} `{!Cluster C, !ScheduleCluster C, !SchedulerCluster C}.
Implicit Types (c : C) (h : hotScheduler) (region : RegionInfo) (stats : StoreHotRegionsStat).

(** As for the other schedulers; [ids i] is the order of the i-th iteration over the
    keys of a map of statistics, [perm i n] the i-th random permutation of [n]
    indices, [toss i] the i-th random bit (true for 0) and [draw i] the i-th random
    number. *)
Variable now : Z.
Variable call : nat → bool.
Variable range : nat → list StoreInfo → list StoreInfo.
Variable followerIDs : RegionInfo → list Z.
Variable ids : nat → gset Z → list Z.
Variable perm : nat → nat → list nat.
Variable toss : nat → bool.
Variable draw : nat → nat.
Variable rules : nat → list (bytes * PluginInfo).
Variable regionFilters : list RegionFilter.
Variable count : Z → Z.

Definition calcScore (items : list (RegionStat * f64)) c (kind : Z) : StoreHotRegionsStat :=
  foldl (λ stats '(r, median),
    if HotDegree r <? int64 (HotRegionCacheHitsThreshold (opt_cfg (v_opt (view c)))) then stats
    else
      match v_GetRegion (view c) (stat_RegionID r) with
      | None => stats
      | Some region =>
          foldl (add_stat r median) stats
            (if kind =? RegionKind then elements (GetStoreIds region)
             else if kind =? LeaderKind then [Peer_GetStoreId (GetLeader region)] else [])
      end) ∅ items.

Definition hot_allowBalanceLeader h c : bool :=
  let l := q_Limits (queries c) in
  (count OpHotRegion <? minUint64 (leaderLimit h) (l_HotRegionScheduleLimit l)) && (count OpLeader <? l_LeaderScheduleLimit l).
Definition hot_allowBalanceRegion h c : bool :=
  count OpHotRegion <? minUint64 (peerLimit h) (l_HotRegionScheduleLimit (q_Limits (queries c))).

Definition hot_IsScheduleAllowed h c : bool := hot_allowBalanceLeader h c || hot_allowBalanceRegion h c.

(** Each balancing iterates twice over the statistics: for the source and for the
    limit. *)
Definition stat_ids (i : nat) stats : list Z := ids i (dom stats).
Definition source_ids (i : nat) stats : list Z := stat_ids (2 * i) stats.
Definition limit_ids (i : nat) stats : list Z := stat_ids (S (2 * i)) stats.

(** The stores that may take a peer of the region instead of [srcStore]. *)
Definition peer_candidates (i : nat) region (srcStore : StoreInfo) c : result (list Z) :=
  let v := view c in
  scoreGuard ← NewDistinctScoreFilter (v_heap v) (opt_LocationLabels (v_opt v)) (v_GetRegionStores v region) srcStore;
  let filters := [StoreStateFilter false true; excludedFilter (GetStoreIds region) (GetStoreIds region); scoreGuard] in
  inr (store_GetID (v_heap v) <$> filter (λ s, FilterTarget (v_heap v) now call (v_opt v) s filters = false) (cl_GetStores range c i)).

(** The loop of [balanceByPeer] over the regions of the store: the first region
    with a destination. *)
Fixpoint by_peer_loop (i : nat) (srcStoreID : Z) stats c (indices : list nat) : result (option (RegionInfo * Z)) :=
  match indices with
  | [] => inr None
  | k :: indices =>
      match stats !! srcStoreID ≫= λ s, RegionsStat s !! k with
      | None => inl (Panic "index out of range")
      | Some rs =>
          match v_GetRegion (view c) (stat_RegionID rs) with
          | None => by_peer_loop i srcStoreID stats c indices
          | Some region =>
              if isRegionUnhealthy region then by_peer_loop i srcStoreID stats c indices
              else if negb (Z.of_nat (length (GetPeers region)) =? opt_MaxReplicas (v_opt (view c)))
              then by_peer_loop i srcStoreID stats c indices
              else
                match v_GetStore (view c) srcStoreID with
                | None => inl nil_region
                | Some srcStore =>
                    candidates ← peer_candidates i region srcStore c;
                    let dest := selectDestStore candidates (FlowBytes rs) srcStoreID stats in
                    if dest =? 0 then by_peer_loop i srcStoreID stats c indices else inr (Some (region, dest))
                end
          end
      end
  end.

Definition stat_len stats (storeID : Z) : nat := from_option (λ s, length (RegionsStat s)) 0%nat (stats !! storeID).

(** The region, the peer that leaves and the one that comes. *)
Definition balanceByPeer (i : nat) stats : M (hotScheduler * C) (option (RegionInfo * Peer * Peer)) := λ '(h, c),
  if negb (hot_allowBalanceRegion h c) then ((h, c), inr None)
  else
    let src := selectSrcStore (source_ids i stats) stats in
    if src =? 0 then ((h, c), inr None)
    else
      match by_peer_loop i src stats c (perm i (stat_len stats src)) with
      | inl err => ((h, c), inl err)
      | inr None => ((h, c), inr None)
      | inr (Some (region, dest)) =>
          let h := set_peerLimit (hot_adjustBalanceLimit (limit_ids i stats) src stats) h in
          match GetStorePeer region src with
          | None => ((h, c), inr None)
          | Some srcPeer =>
              match or_nil (AllocPeer dest) c with
              | (c, inl err) => ((h, c), inl err)
              | (c, inr None) => ((h, c), inr None)
              | (c, inr (Some destPeer)) => ((h, c), inr (Some (region, srcPeer, destPeer)))
              end
          end
      end.

Definition leader_candidates region c : list Z :=
  let v := view c in
  store_GetID (v_heap v) <$> filter (λ s, FilterTarget (v_heap v) now call (v_opt v) s [StoreStateFilter true false] = false)
    (v_GetFollowerStores followerIDs v region).

Fixpoint by_leader_loop (srcStoreID : Z) stats c (indices : list nat) : result (option (RegionInfo * Peer)) :=
  match indices with
  | [] => inr None
  | k :: indices =>
      match stats !! srcStoreID ≫= λ s, RegionsStat s !! k with
      | None => inl (Panic "index out of range")
      | Some rs =>
          match v_GetRegion (view c) (stat_RegionID rs) with
          | None => by_leader_loop srcStoreID stats c indices
          | Some region =>
              if isRegionUnhealthy region then by_leader_loop srcStoreID stats c indices
              else
                let candidates := leader_candidates region c in
                if (length candidates =? 0)%nat then by_leader_loop srcStoreID stats c indices
                else
                  let dest := selectDestStore candidates (FlowBytes rs) srcStoreID stats in
                  if dest =? 0 then by_leader_loop srcStoreID stats c indices
                  else
                    match GetStoreVoter region dest with
                    | Some destPeer => inr (Some (region, destPeer))
                    | None => by_leader_loop srcStoreID stats c indices
                    end
          end
      end
  end.

Definition balanceByLeader (i : nat) stats : M (hotScheduler * C) (option (RegionInfo * Peer)) := λ '(h, c),
  if negb (hot_allowBalanceLeader h c) then ((h, c), inr None)
  else
    let src := selectSrcStore (source_ids i stats) stats in
    if src =? 0 then ((h, c), inr None)
    else
      match by_leader_loop src stats c (perm i (stat_len stats src)) with
      | inl err => ((h, c), inl err)
      | inr None => ((h, c), inr None)
      | inr (Some x) => ((set_leaderLimit (hot_adjustBalanceLimit (limit_ids i stats) src stats) h, c), inr (Some x))
      end.

(** ** Operators *)

(** Outside the operator: not found or under a rule; inside it: none could be made. *)
Definition hot_leader_op (desc : string) (i : nat) stats : M (hotScheduler * C) (option (option Operator)) := λ hc,
  match balanceByLeader i stats hc with
  | (hc, inl err) => (hc, inl err)
  | (hc, inr None) => (hc, inr None)
  | (hc, inr (Some (region, newLeader))) =>
      match ruled rules regionFilters (Some "Leader"%string) hc.2 i region with
      | inl err => (hc, inl err)
      | inr true => (hc, inr None)
      | inr false =>
          (hc, inr (Some (Some (SetPriorityLevel HighPriority (CreateTransferLeaderOperator desc region
            (Peer_GetStoreId (GetLeader region)) (Peer_StoreId newLeader) OpHotRegion now)))))
      end
  end.

Definition hot_peer_op (desc : string) (i : nat) stats : M (hotScheduler * C) (option (option Operator)) := λ hc,
  match balanceByPeer i stats hc with
  | (hc, inl err) => (hc, inl err)
  | (hc, inr None) => (hc, inr None)
  | (hc, inr (Some (region, srcPeer, destPeer))) =>
      match ruled rules regionFilters None hc.2 i region with
      | inl err => (hc, inl err)
      | inr true => (hc, inr None)
      | inr false =>
          match CreateMovePeerOperator desc hc.2 region OpHotRegion (Peer_StoreId srcPeer) (Peer_StoreId destPeer) (Peer_Id destPeer)
                  (followerIDs region) now with
          | inl (Error _) => (hc, inr (Some None))
          | inl err => (hc, inl err)
          | inr op => (hc, inr (Some (Some (SetPriorityLevel HighPriority op))))
          end
      end
  end.

Definition balanceHotReadRegions : M (hotScheduler * C) (option Operator) := λ '(h, c),
  match hot_leader_op "transfer-hot-read-leader" 0 (readStatAsLeader h) (h, c) with
  | (hc, inl err) => (hc, inl err)
  | (hc, inr (Some op)) => (hc, inr op)
  | (hc, inr None) =>
      match hot_peer_op "move-hot-read-region" 1 (readStatAsLeader h) hc with
      | (hc, inl err) => (hc, inl err)
      | (hc, inr (Some op)) => (hc, inr op)
      | (hc, inr None) => (hc, inr None)
      end
  end.

Fixpoint hot_write_loop (n i : nat) : M (hotScheduler * C) (option Operator) := λ '(h, c),
  match n with
  | O => ((h, c), inr None)
  | S n =>
      match (if toss i then hot_peer_op "move-hot-write-region" i (writeStatAsPeer h)
             else hot_leader_op "transfer-hot-write-leader" i (writeStatAsLeader h)) (h, c) with
      | (hc, inl err) => (hc, inl err)
      | (hc, inr (Some op)) => (hc, inr op)
      | (hc, inr None) => hot_write_loop n (S i) hc
      end
  end.

Definition balanceHotWriteRegions : M (hotScheduler * C) (option Operator) := hot_write_loop balanceHotRetryLimit 0.

Definition hot_dispatch (typ : BalanceType) : M (hotScheduler * C) (option Operator) := λ '(h, c),
  let q := queries c in
  match typ with
  | hotReadRegionBalance =>
      let h := mkHotScheduler (leaderLimit h) (peerLimit h) (calcScore (q_RegionReadStats q) c LeaderKind) (writeStatAsPeer h) (writeStatAsLeader h) in
      balanceHotReadRegions (h, c)
  | hotWriteRegionBalance =>
      let h := mkHotScheduler (leaderLimit h) (peerLimit h) (readStatAsLeader h) (calcScore (q_RegionWriteStats q) c RegionKind)
        (calcScore (q_RegionWriteStats q) c LeaderKind) in
      balanceHotWriteRegions (h, c)
  end.

(** [types] are the kinds of balance of the scheduler, [k] the random number. *)
Definition hotRegion_Schedule (types : list BalanceType) (k : nat) : M (hotScheduler * C) (option Operator) :=
  match types !! (k mod length types)%nat with
  | Some typ => hot_dispatch typ
  | None => λ hc, (hc, inl (Panic "integer divide by zero"))
  end.

(** ** Shuffling hot regions *)

(** The scheduler also stores the statistics, but never reads them again. *)
Definition shuffleHot_IsScheduleAllowed (limit : Z) c : bool :=
  let l := q_Limits (queries c) in
  (count OpHotRegion <? limit) && (count OpRegion <? l_RegionScheduleLimit l) && (count OpLeader <? l_LeaderScheduleLimit l).

(** The loop over the stores: the first one whose drawn region can be moved decides. *)
Fixpoint shuffle_hot_loop (i : nat) stats (stores : list Z) : M C (option Operator) := λ c,
  let v := view c in
  match stores with
  | [] => (c, inr None)
  | storeID :: stores =>
      match stats !! storeID ≫= λ s, RegionsStat s !! (draw i mod length (RegionsStat s))%nat with
      | None => (c, inl (Panic "invalid argument to Intn"))
      | Some r =>
          match v_GetRegion v (stat_RegionID r) with
          | None => shuffle_hot_loop (S i) stats stores c
          | Some region =>
              if negb (length (GetDownPeers region) =? 0)%nat || negb (length (GetPendingPeers region) =? 0)%nat
              then shuffle_hot_loop (S i) stats stores c
              else
                let srcStoreID := Peer_GetStoreId (GetLeader region) in
                match v_GetStore v srcStoreID with
                | None => (c, inl nil_region)
                | Some srcStore =>
                    match peer_candidates i region srcStore c with
                    | inl err => (c, inl err)
                    | inr dests =>
                        match dests !! (draw (S i) mod length dests)%nat with
                        | None => (c, inr None)
                        | Some dest =>
                            if (dest =? 0) || negb (bool_decide (is_Some (GetStorePeer region srcStoreID))) then (c, inr None)
                            else
                              (destPeer ← or_nil (AllocPeer dest);
                               match (destPeer : option Peer) with
                               | None => mret None
                               | Some p => or_nil (λ c, (c, CreateMoveLeaderOperator "random-move-hot-leader" c region (Z.lor OpRegion OpLeader)
                                   srcStoreID dest (Peer_Id p) now))
                               end) c
                        end
                    end
                end
          end
      end
  end.

Definition shuffleHotRegion_Schedule (types : list BalanceType) (k : nat) : M C (option Operator) := λ c,
  match types !! (k mod length types)%nat with
  | Some typ =>
      let items := match typ with hotReadRegionBalance => q_RegionReadStats (queries c) | hotWriteRegionBalance => q_RegionWriteStats (queries c) end in
      let stats := calcScore items c LeaderKind in
      shuffle_hot_loop 0 stats (stat_ids 0 stats) c
  | None => (c, inl (Panic "integer divide by zero"))
  end.
End hot.
