(* ===== verification/HotRegionProps.v ===== *)
(** * Hot regions move where there are fewer

    The statistics count the hot regions of every store; the source has the most,
    a destination at least two fewer, and the operators move a peer or the leader
    of a hot region safely to it. *)

From S2P Require Import Prelude GoBytes BTree Strconv Strings Float FloatInt KV Metapb Region RegionTree RegionMap RegionsInfo Cache Storage Store Statistics Config Operator OperatorProps Schedule ScheduleProps Structure Checkers CheckersProps Plugin Schedulers SchedulersProps HotRegion.

(** ** The choice of the stores *)

Section choice.
Implicit Types (stats : StoreHotRegionsStat).

Lemma hot_len_nonneg stats id : 0 ≤ hot_len stats id.
Proof. unfold hot_len. destruct (stats !! id); cbn; lia. Qed.

Lemma hot_len_ids stats ids id : ids ≡ₚ elements (dom stats) → id ∉ ids → hot_len stats id = 0.
Proof. intros ->. rewrite elem_of_elements, not_elem_of_dom. unfold hot_len. by intros ->. Qed.

(** The order of the choice: more regions, or as many and no less flow. *)
Definition hotter (a b : Z * Z) : Prop := b.1 < a.1 ∨ b.1 = a.1 ∧ b.2 ≤ a.2.

Definition hotness stats (id : Z) : Z * Z := (hot_len stats id, hot_flow stats id).

Lemma hotter_trans a b c : hotter a b → hotter b c → hotter a c.
Proof. unfold hotter. lia. Qed.

Lemma select_src_step stats src n f x src' n' f' : select_src stats (src, n, f) x = (src', n', f') →
  (src' = src ∧ (n', f') = (n, f) ∨ src' = x ∧ (n', f') = hotness stats x ∧ 2 ≤ n') ∧ hotter (n', f') (n, f) ∧
  (2 ≤ hot_len stats x → hotter (n', f') (hotness stats x)).
Proof.
  unfold select_src, hotter, hotness. cbn [fst snd].
  destruct (Z.leb_spec 2 (hot_len stats x)), (Z.ltb_spec n (hot_len stats x)), (Z.eqb_spec (hot_len stats x) n),
    (Z.ltb_spec f (hot_flow stats x)); cbn [andb orb]; intros [= <- <- <-]; (split_and!; [by auto|lia|lia]).
Qed.

Lemma select_src_spec stats ids src n f src' n' f' : foldl (select_src stats) (src, n, f) ids = (src', n', f') →
  (src' = src ∧ (n', f') = (n, f) ∨ src' ∈ ids ∧ (n', f') = hotness stats src' ∧ 2 ≤ n') ∧ hotter (n', f') (n, f) ∧
  ∀ id, id ∈ ids → 2 ≤ hot_len stats id → hotter (n', f') (hotness stats id).
Proof.
  revert src n f. induction ids as [|x ids IH]; cbn [foldl]; intros src n f.
  - intros [= <- <- <-]. split_and!; [by left|right; cbn; lia|]. by intros ? ?%not_elem_of_nil.
  - destruct (select_src stats (src, n, f) x) as [[s1 n1] f1] eqn:E. apply select_src_step in E as (Hs & Hh & Hx).
    intros (Hin & Hle & Hall)%IH. setoid_rewrite elem_of_cons. split_and!; [|by eapply hotter_trans|].
    + destruct Hin as [[-> Heq]|(?&?&?)]; [|by auto]. injection Heq as -> ->. destruct Hs as [?|(-> & ? & ?)]; auto.
    + intros id [->|Hid] H2; [|by auto]. eapply hotter_trans; [done|auto].
Qed.

Lemma selectSrcStore_spec stats ids src : ids ≡ₚ elements (dom stats) → selectSrcStore ids stats = src → src ≠ 0 →
  2 ≤ hot_len stats src ∧ ∀ id, hotter (hotness stats src) (hotness stats id) ∨ hot_len stats id < 2.
Proof.
  intros Hids Hsel Hne. unfold selectSrcStore in Hsel. destruct (foldl _ _ _) as [[s n] f] eqn:E. subst s.
  apply select_src_spec in E as ([[? _]|(Hin & Heq & H2)] & _ & Hall); [done|]. rewrite <-Heq. injection Heq as -> ->.
  split; [done|]. intros id. destruct (decide (2 ≤ hot_len stats id)); [|right; lia]. left. apply Hall; [|done].
  destruct (decide (id ∈ ids)) as [|Hni]; [done|]. rewrite (hot_len_ids _ _ _ Hids Hni) in *. lia.
Qed.

Lemma select_dest_spec stats n f rf cands dest m mf r : n < 2 ^ 31 - 1 → 2 ≤ n → (∀ id, hot_len stats id ≤ n) →
  m = 2 ^ 31 - 1 ∨ m + 2 ≤ n → select_dest stats n f rf cands dest m mf = r → r = dest ∨ r ∈ cands ∧ hot_len stats r + 2 ≤ n.
Proof.
  intros Hn H2 Hall. revert dest m mf. induction cands as [|x cands IH]; cbn [select_dest]; intros dest m mf Hm; [by left|].
  assert (Hlen : ∀ s, stats !! x = Some s → hot_len stats x = Z.of_nat (length (RegionsStat s))) by (unfold hot_len; by intros s ->).
  setoid_rewrite elem_of_cons. destruct (stats !! x) as [s|] eqn:Es.
  2:{ intros <-. right. split; [by left|]. unfold hot_len. rewrite Es. cbn. lia. }
  specialize (Hlen s eq_refl). rewrite <-Hlen. pose proof (Hall x).
  assert (Hgo : ∀ d m mf, m = 2 ^ 31 - 1 ∨ m + 2 ≤ n → d = dest ∨ d = x ∧ hot_len stats x + 2 ≤ n →
    select_dest stats n f rf cands d m mf = r → r = dest ∨ (r = x ∨ r ∈ cands) ∧ hot_len stats r + 2 ≤ n).
  { intros d m' mf' Hm' Hd Hr. apply IH in Hr as [->|[? ?]]; [|by auto|done]. destruct Hd as [->|[-> ?]]; auto. }
  destruct (Z.ltb_spec 1 (n - hot_len stats x)), (Z.ltb_spec (hot_len stats x) m); cbn [andb]; [apply Hgo; [lia|right; split; [done|lia]]|..];
    (destruct (Z.eqb_spec m (hot_len stats x)); cbn [andb]; [case_match; (apply Hgo; [done|]); [right; split; [done|lia]|by left]|by apply Hgo; [|left]]).
Qed.

(** A destination is a candidate with at least two hot regions fewer than the
    source. *)
Lemma selectDestStore_spec stats ids src cands rf dest : ids ≡ₚ elements (dom stats) → selectSrcStore ids stats = src → src ≠ 0 →
  hot_len stats src < 2 ^ 31 - 1 → selectDestStore cands rf src stats = dest → dest ≠ 0 →
  dest ∈ cands ∧ hot_len stats dest + 2 ≤ hot_len stats src.
Proof.
  intros Hids Hsrc Hne Hb Hd Hdne. destruct (selectSrcStore_spec _ _ _ Hids Hsrc Hne) as [H2 Hall].
  assert (Hle : ∀ id, hot_len stats id ≤ hot_len stats src).
  { intros id. destruct (Hall id) as [Hh|Hh]; unfold hotter, hotness in Hh; cbn in Hh; lia. }
  destruct (select_dest_spec _ _ _ _ _ _ _ _ _ Hb H2 Hle (or_introl eq_refl) Hd) as [?|?]; done.
Qed.
End choice.

(** ** The statistics *)

Section statistics.
Context `{!Unicode} `{!Classifier}.
Context {C : Type} `{!Cluster C, !ScheduleCluster C, !SchedulerCluster C}.
Implicit Types (c : C) (region : RegionInfo) (stats : StoreHotRegionsStat) (item : RegionStat * f64).

Definition entries stats (id : Z) : list RegionStat := from_option RegionsStat [] (stats !! id).

(** The stores on which a region of the given kind counts. *)
Definition role_stores (kind : Z) region : list Z :=
  if kind =? RegionKind then elements (GetStoreIds region)
  else if kind =? LeaderKind then [Peer_GetStoreId (GetLeader region)] else [].

(** The region is hot often enough, and counts on the store. *)
Definition hot_on c (kind id : Z) item : bool :=
  negb (HotDegree item.1 <? int64 (HotRegionCacheHitsThreshold (opt_cfg (v_opt (view c))))) &&
  match v_GetRegion (view c) (stat_RegionID item.1) with
  | Some region => bool_decide (id ∈ role_stores kind region)
  | None => false
  end.

Definition total_flow (items : list (RegionStat * f64)) : Z := foldr (λ item n, FlowBytes item.1 + n) 0 items.

Lemma total_flow_app l k : total_flow (l ++ k) = total_flow l + total_flow k.
Proof. induction l as [|x l IH]; cbn; [done|]. fold (total_flow (l ++ k)) (total_flow l). lia. Qed.

Lemma role_stores_nodup kind region : NoDup (role_stores kind region).
Proof. unfold role_stores. repeat case_match; [apply NoDup_elements|apply NoDup_singleton|constructor]. Qed.

Lemma add_stats_lookup r m l id : NoDup l → ∀ stats,
  entries (foldl (add_stat r m) stats l) id = entries stats id ++
    (if decide (id ∈ l) then [mkRegionStat (stat_RegionID r) (uint64_of_f64 m) (HotDegree r) (LastUpdateTime r) id (AntiCount r) (stat_Version r) None] else []) ∧
  (0 ≤ hot_flow stats id < 2 ^ 64 →
   hot_flow (foldl (add_stat r m) stats l) id = if decide (id ∈ l) then uint64 (hot_flow stats id + FlowBytes r) else hot_flow stats id).
Proof.
  induction 1 as [|x l Hx Hl IH]; intros stats; cbn [foldl].
  { rewrite decide_False by by apply not_elem_of_nil. by rewrite app_nil_r, decide_False by by apply not_elem_of_nil. }
  destruct (IH (add_stat r m stats x)) as [-> Hflow]. destruct (decide (id = x)) as [->|Hne].
  - rewrite !(decide_False (P := x ∈ l)), !(decide_True (P := x ∈ x :: l)) in * by (done || by left).
    unfold entries, hot_flow, add_stat in *. rewrite lookup_insert_eq in *. cbn in *. rewrite app_nil_r. split.
    + by destruct (stats !! x).
    + intros _. rewrite Hflow by apply Z.mod_pos_bound, eq_refl. by destruct (stats !! x).
  - assert (Hsame : add_stat r m stats x !! id = stats !! id) by (unfold add_stat; by rewrite lookup_insert_ne).
    assert (Hiff : id ∈ x :: l ↔ id ∈ l) by (rewrite elem_of_cons; naive_solver).
    rewrite !(decide_ext (id ∈ x :: l) (id ∈ l)) by done. unfold entries, hot_flow in *. rewrite Hsame in *. done.
Qed.

Lemma calcScore_snoc items item c kind : calcScore (items ++ [item]) c kind =
  if HotDegree item.1 <? int64 (HotRegionCacheHitsThreshold (opt_cfg (v_opt (view c)))) then calcScore items c kind
  else match v_GetRegion (view c) (stat_RegionID item.1) with
       | None => calcScore items c kind
       | Some region => foldl (add_stat item.1 item.2) (calcScore items c kind) (role_stores kind region)
       end.
Proof. unfold calcScore. rewrite foldl_snoc. by destruct item. Qed.

(** The statistics of a store list, in order, exactly the hot regions with a peer
    on it, or led by it, whose heat reached the threshold, and add up their flow. *)
Lemma calcScore_correct items c kind id :
  let l := filter (λ item, hot_on c kind id item = true) items in
  stat_RegionID <$> entries (calcScore items c kind) id = (λ item, stat_RegionID item.1) <$> l ∧
  hot_flow (calcScore items c kind) id = uint64 (total_flow l).
Proof.
  cbn zeta. induction items as [|item items [IHe IHf]] using rev_ind; [done|].
  rewrite calcScore_snoc, filter_app, fmap_app, total_flow_app, list.filter_cons, list.filter_nil.
  assert (Hb : 0 ≤ hot_flow (calcScore items c kind) id < 2 ^ 64) by (rewrite IHf; by apply Z.mod_pos_bound).
  assert (Hsame : hot_on c kind id item = false →
    stat_RegionID <$> entries (calcScore items c kind) id = ((λ item, stat_RegionID item.1) <$> filter (λ item, hot_on c kind id item = true) items) ++
      ((λ item, stat_RegionID item.1) <$> (if decide (hot_on c kind id item = true) then [item] else [])) ∧
    hot_flow (calcScore items c kind) id = uint64 (total_flow (filter (λ item, hot_on c kind id item = true) items) +
      total_flow (if decide (hot_on c kind id item = true) then [item] else []))).
  { intros ->. rewrite decide_False by done. cbn. by rewrite app_nil_r, Z.add_0_r. }
  unfold hot_on in *. destruct (_ <? _); [by apply Hsame|]. destruct (v_GetRegion _ _) as [region|]; [|by apply Hsame]. cbn [andb negb] in *.
  destruct (add_stats_lookup item.1 item.2 _ id (role_stores_nodup kind region) (calcScore items c kind)) as [He Hf].
  rewrite He, (Hf Hb), fmap_app, IHe, IHf. destruct (decide (id ∈ role_stores kind region)) as [Hin|Hin].
  - rewrite bool_decide_eq_true_2, decide_True by done. cbn. split; [done|]. unfold uint64. rewrite Zplus_mod_idemp_l. f_equal. lia.
  - rewrite bool_decide_eq_false_2, decide_False by done. cbn. by rewrite app_nil_r, Z.add_0_r.
Qed.

Lemma entry_hot items c kind id rs : rs ∈ entries (calcScore items c kind) id →
  ∃ region, v_GetRegion (view c) (stat_RegionID rs) = Some region ∧ id ∈ role_stores kind region.
Proof.
  intros Hrs. destruct (calcScore_correct items c kind id) as [He _].
  assert (Hin : stat_RegionID rs ∈ stat_RegionID <$> entries (calcScore items c kind) id) by (rewrite list_elem_of_fmap; by exists rs).
  rewrite He, list_elem_of_fmap in Hin. destruct Hin as (item & -> & [Hh _]%list_elem_of_filter).
  unfold hot_on in Hh. apply andb_true_iff in Hh as [_ Hh]. destruct (v_GetRegion _ _) as [region|]; [|done].
  exists region. split; [done|]. by apply bool_decide_eq_true in Hh.
Qed.
End statistics.

(** ** The operators *)

Section operators.
Context `{!Unicode} `{!Classifier}.
Context {C : Type} `{!Cluster C, !ScheduleCluster C, !ScheduleClusterLaws C, !SchedulerCluster C, !SchedulerClusterLaws C}.
Variables (now : Z) (call : nat → bool).
Variable range : nat → list StoreInfo → list StoreInfo.
Variable followerIDs : RegionInfo → list Z.
Variable ids : nat → gset Z → list Z.
Variable perm : nat → nat → list nat.
Variable toss : nat → bool.
Variable rules : nat → list (bytes * PluginInfo).
Variable regionFilters : list RegionFilter.
Variable count : Z → Z.
Hypothesis Hrange : ∀ i l, range i l ≡ₚ l.
Hypothesis Hfollow : ∀ region, is_FollowerIDs region (followerIDs region).
Hypothesis Hids : ∀ i S, ids i S ≡ₚ elements S.
Hypothesis Hperm : ∀ i n, perm i n ≡ₚ seq 0 n.
Implicit Types (c : C) (v : View) (region : RegionInfo) (stats : StoreHotRegionsStat) (h : hotScheduler).

(** The stores of the regions are in the cluster, and leaders are peers. *)
Definition stores_known v : Prop := ∀ id region, v_GetRegion v id = Some region →
  GetID region = id ∧ (∀ p, p ∈ GetPeers region → is_Some (v_GetStore v (Peer_StoreId p))) ∧
  ∀ l, GetLeader region = Some l → l ∈ GetPeers region.

(** The statistics of regions of the cluster that have a peer on their store. *)
Definition stats_of_cluster c stats : Prop := ∀ id rs, rs ∈ entries stats id →
  ∃ region, v_GetRegion (view c) (stat_RegionID rs) = Some region ∧ (id ≠ 0 → id ∈ stores region).

Lemma calcScore_of_cluster items c kind : stores_known (view c) → stats_of_cluster c (calcScore items c kind).
Proof.
  intros Hk id rs Hrs. apply entry_hot in Hrs as (region & Hr & Hin). exists region. split; [done|]. intros Hne.
  unfold role_stores in Hin. repeat case_match.
  - by rewrite elem_of_elements, elem_of_store_ids in Hin.
  - apply list_elem_of_singleton in Hin as ->. destruct (GetLeader region) as [l|] eqn:El; [|done].
    unfold stores. rewrite list_elem_of_fmap. exists l. split; [done|]. by eapply Hk.
  - by apply not_elem_of_nil in Hin.
Qed.

(** The store has most hot regions, the other at least two fewer. *)
Definition cools stats (src dest : Z) : Prop :=
  (∀ id, hot_len stats id ≤ hot_len stats src) ∧ hot_len stats dest + 2 ≤ hot_len stats src.

Definition few stats : Prop := ∀ id, hot_len stats id < 2 ^ 31 - 1.

Lemma source_cools i stats src cands rf dest : few stats → selectSrcStore (source_ids ids i stats) stats = src → src ≠ 0 →
  selectDestStore cands rf src stats = dest → dest ≠ 0 → dest ∈ cands ∧ cools stats src dest.
Proof.
  intros Hfew Hsrc Hne Hd Hdne. pose proof (Hids (2 * i) (dom stats)) as Hp.
  destruct (selectDestStore_spec _ _ _ _ _ _ Hp Hsrc Hne (Hfew src) Hd Hdne) as [Hin Hgap].
  destruct (selectSrcStore_spec _ _ _ Hp Hsrc Hne) as [H2 Hall]. split; [done|]. split; [|done].
  intros id. destruct (Hall id) as [Hh|Hh]; unfold hotter, hotness in Hh; cbn in Hh; lia.
Qed.

Lemma index_valid i stats id k : k ∈ perm i (stat_len stats id) → ∃ rs, stats !! id ≫= (λ s, RegionsStat s !! k) = Some rs ∧ rs ∈ entries stats id.
Proof.
  rewrite Hperm, elem_of_seq. unfold stat_len, entries. destruct (stats !! id) as [s|]; cbn; [|lia]. intros Hk.
  destruct (lookup_lt_is_Some_2 (RegionsStat s) k ltac:(lia)) as [rs Hrs]. exists rs. split; [done|]. by eapply list_elem_of_lookup_2.
Qed.

(** The store may take the place of [source] for a peer of the region. *)
Definition replaces v region (source : StoreInfo) (id : Z) : Prop :=
  ∃ s, v_GetStore v id = Some s ∧ (id ∉ stores region) ∧
    state_FilterTarget (v_heap v) now call false true (v_opt v) s = false ∧ keeps_location v region source s.

Lemma peer_candidates_spec c `{!ValidView (view c)} i region source : (v_GetRegionStores (view c) region ≠ []) →
  ∃ l, peer_candidates now call range i region source c = inr l ∧ ∀ id, id ∈ l → replaces (view c) region source id.
Proof.
  intros Hne. unfold peer_candidates, NewDistinctScoreFilter. cbn zeta.
  destruct (v_GetRegionStores (view c) region) as [|x l] eqn:E; [done|]. cbn [length Nat.eqb mbind result_bind]. rewrite <-E.
  eexists. split; [reflexivity|]. intros id Hid. apply list_elem_of_fmap in Hid as (s & -> & [Hf Hs]%list_elem_of_filter).
  cbn in Hf. rewrite !orb_false_iff, bool_decide_eq_false, elem_of_store_ids in Hf. exists s.
  split_and!; [by eapply (elem_of_cl_stores range Hrange c)|tauto..].
Qed.

Lemma region_stores_nonempty c `{!ValidView (view c)} region id : stores_known (view c) → v_GetRegion (view c) (GetID region) = Some region →
  id ∈ stores region → ∃ s, v_GetStore (view c) id = Some s ∧ v_GetRegionStores (view c) region ≠ [].
Proof.
  intros Hk Hr Hid. unfold stores in Hid. apply list_elem_of_fmap in Hid as (p & -> & Hp).
  destruct (Hk _ _ Hr) as (_ & Hs & _). destruct (Hs p Hp) as [s Hs']. exists s. split; [done|]. intros Hnil.
  assert (Hin : s ∈ v_GetRegionStores (view c) region).
  { apply elem_of_region_stores. exists p. split; [done|]. by eapply lookup_weaken, view_peer_stores. }
  rewrite Hnil in Hin. by apply not_elem_of_nil in Hin.
Qed.

(** A peer of a healthy region with the right number of replicas cools its store. *)
Definition cooling_peer c stats region (src dest : Z) : Prop :=
  let v := view c in
  v_GetRegion v (GetID region) = Some region ∧ isRegionUnhealthy region = false ∧
  Z.of_nat (length (GetPeers region)) = opt_MaxReplicas (v_opt v) ∧ src ∈ stores region ∧
  (∃ source, v_GetStore v src = Some source ∧ replaces v region source dest) ∧ cools stats src dest.

Lemma by_peer_loop_spec c `{!ValidView (view c)} i stats src : stores_known (view c) → stats_of_cluster c stats → few stats →
  selectSrcStore (source_ids ids i stats) stats = src → src ≠ 0 → ∀ ks, (∀ k, k ∈ ks → k ∈ perm i (stat_len stats src)) →
  offers (by_peer_loop now call range i src stats c ks) (λ '(region, dest), cooling_peer c stats region src dest).
Proof.
  intros Hk Hst Hfew Hsrc Hne. induction ks as [|k ks IH]; intros Hks; cbn [by_peer_loop]; [apply offers_none|].
  destruct (index_valid i stats src k) as (rs & -> & Hrs); [apply Hks; by left|].
  specialize (IH (λ k' Hk', Hks k' (list_elem_of_further _ _ _ Hk'))).
  destruct (Hst src rs Hrs) as (region & Hr & Hin). rewrite Hr. specialize (Hin Hne).
  destruct (Hk _ _ Hr) as (Hid & _). rewrite <-Hid in Hr.
  destruct (isRegionUnhealthy region) eqn:Eu; [exact IH|].
  destruct (Z.eqb_spec (Z.of_nat (length (GetPeers region))) (opt_MaxReplicas (v_opt (view c)))) as [Hmax|]; cbn [negb]; [|exact IH].
  destruct (region_stores_nonempty c region src Hk Hr Hin) as (source & Hs & Hnil). rewrite Hs.
  destruct (peer_candidates_spec c i region source Hnil) as (l & -> & Hl). cbn [mbind result_bind].
  destruct (Z.eqb_spec (selectDestStore l (FlowBytes rs) src stats) 0) as [|Hd]; [exact IH|].
  destruct (source_cools i stats src _ _ _ Hfew Hsrc Hne eq_refl Hd) as [Hdl Hcool].
  apply offers_some. split_and!; [done..| |done]. exists source. auto.
Qed.

(** *** Running the scheduler *)

(** The limits stay positive and the statistics as they are. *)
Definition alike h h' : Prop :=
  readStatAsLeader h' = readStatAsLeader h ∧ writeStatAsPeer h' = writeStatAsPeer h ∧ writeStatAsLeader h' = writeStatAsLeader h ∧
  (1 ≤ leaderLimit h → 1 ≤ leaderLimit h') ∧ (1 ≤ peerLimit h → 1 ≤ peerLimit h').

Lemma alike_refl h : alike h h.
Proof. done. Qed.
Lemma alike_trans h1 h2 h3 : alike h1 h2 → alike h2 h3 → alike h1 h3.
Proof. unfold alike. intuition congruence. Qed.

Lemma limit_positive l id stats : 1 ≤ hot_adjustBalanceLimit l id stats.
Proof. unfold hot_adjustBalanceLimit, maxUint64. case_match; lia. Qed.

Lemma alike_peer h l id stats : alike h (set_peerLimit (hot_adjustBalanceLimit l id stats) h).
Proof. split_and!; try done. intros _. apply limit_positive. Qed.
Lemma alike_leader h l id stats : alike h (set_leaderLimit (hot_adjustBalanceLimit l id stats) h).
Proof. split_and!; try done. intros _. apply limit_positive. Qed.

Definition runs {A} (m : M (hotScheduler * C) (option A)) h c (Q : A → Prop) : Prop :=
  ∃ h' c' r, m (h, c) = ((h', c'), inr r) ∧ same c' c ∧ alike h h' ∧ ∀ x, r = Some x → Q x.

Lemma balanceByPeer_runs h c `{!ValidView (view c)} i stats : stores_known (view c) → stats_of_cluster c stats → few stats →
  runs (balanceByPeer now call range ids perm count i stats) h c
    (λ '(region, p, p'), cooling_peer c stats region (Peer_StoreId p) (Peer_StoreId p')).
Proof.
  intros Hk Hst Hfew. unfold balanceByPeer, runs. destruct (hot_allowBalanceRegion _ _ _); cbn [negb]; [|by exists h, c, None].
  set (src := selectSrcStore _ _). destruct (Z.eqb_spec src 0) as [|Hne]; [by exists h, c, None|].
  destruct (by_peer_loop_spec c i stats src Hk Hst Hfew eq_refl Hne (perm i (stat_len stats src))) as (r & -> & Hr); [done|].
  destruct r as [[region dest]|]; [|by exists h, c, None]. specialize (Hr _ eq_refl).
  destruct (GetStorePeer region src) as [p|] eqn:Ep; [|eexists _, c, None; split_and!; [done|done|apply alike_peer|done]].
  apply GetStorePeer_Some in Ep as [_ Hp]. unfold or_nil.
  pose proof (AllocPeer_view c dest) as Hv. pose proof (AllocPeer_queries c dest) as Hq.
  pose proof (AllocPeer_error c dest) as He. pose proof (AllocPeer_peer c dest) as Hpe.
  destruct (AllocPeer dest c) as [c1 [[msg|msg]|q]]; cbn [fst snd] in *.
  - eexists _, c1, None. split_and!; [done|done|apply alike_peer|done].
  - by destruct (He msg).
  - eexists _, c1, _. split_and!; [done|done|apply alike_peer|]. intros ? [= <-]. rewrite Hp. by destruct (Hpe q eq_refl) as [-> _].
Qed.

(** What the move of a hot peer is. *)
Definition hot_move c stats op : Prop := ∃ region src dest i, cooling_peer c stats region src dest ∧
  ruled rules regionFilters None c i region = inr false ∧ moves c region src dest op.

Lemma hot_peer_op_runs desc h c `{!ValidView (view c)} i stats : rules_listed rules (view c) →
  stores_known (view c) → stats_of_cluster c stats → few stats →
  runs (hot_peer_op now call range followerIDs ids perm rules regionFilters count desc i stats) h c
    (λ r, ∀ op, r = Some op → hot_move c stats op).
Proof.
  intros Hl Hk Hst Hfew. unfold hot_peer_op, runs.
  destruct (balanceByPeer_runs h c i stats Hk Hst Hfew) as (h' & c' & r & -> & Hs & Ha & Hr).
  destruct r as [[[region p] p']|]; [|by exists h', c', None]. specialize (Hr _ eq_refl). cbn [snd].
  rewrite (ruled_same rules regionFilters _ _ _ _ _ Hs).
  destruct (ruled_total rules regionFilters None c i region Hl) as [[] Hru]; rewrite Hru; [by exists h', c', None|].
  assert (Hold : Peer_StoreId p ∈ stores region) by by destruct Hr as (_ & _ & _ & ? & _).
  assert (Hnew : Peer_StoreId p' ∉ stores region) by by destruct Hr as (_ & _ & _ & _ & (? & _ & ? & _ & ? & _) & _).
  destruct (create_move_moves now followerIDs Hfollow c c' desc region OpHotRegion _ _ (Peer_Id p') Hold Hnew) as [[msg ->]|(op & -> & Hop)].
  - eexists h', c', (Some None). split_and!; [done..|]. by intros ? [= <-].
  - eexists h', c', (Some (Some _)). split_and!; [done..|]. intros ? [= <-] ? [= <-].
    exists region, (Peer_StoreId p), (Peer_StoreId p'), i. done.
Qed.

(** *** Leaders *)

(** A follower of a healthy region takes over the leadership and cools the store. *)
Definition cooling_leader c stats region (src dest : Z) : Prop :=
  v_GetRegion (view c) (GetID region) = Some region ∧ isRegionUnhealthy region = false ∧ src ∈ stores region ∧
  follower_on region dest ∧ may_lead now (view c) dest ∧ cools stats src dest.

Lemma leader_candidates_spec c `{!ValidView (view c)} region id : id ∈ leader_candidates now call followerIDs region c →
  follower_on region id ∧ may_lead now (view c) id.
Proof.
  unfold leader_candidates. cbn zeta. rewrite list_elem_of_fmap. intros (s & -> & [Hf Hs]%list_elem_of_filter).
  split; [by eapply (follower_stores_elem followerIDs Hfollow c)|]. by eapply (follower_may_lead now call followerIDs c region []).
Qed.

Lemma by_leader_loop_spec c `{!ValidView (view c)} i stats src : stores_known (view c) → stats_of_cluster c stats → few stats →
  selectSrcStore (source_ids ids i stats) stats = src → src ≠ 0 → ∀ ks, (∀ k, k ∈ ks → k ∈ perm i (stat_len stats src)) →
  offers (by_leader_loop now call followerIDs src stats c ks) (λ '(region, p), cooling_leader c stats region src (Peer_StoreId p)).
Proof.
  intros Hk Hst Hfew Hsrc Hne. induction ks as [|k ks IH]; intros Hks; cbn [by_leader_loop]; [apply offers_none|].
  destruct (index_valid i stats src k) as (rs & -> & Hrs); [apply Hks; by left|].
  specialize (IH (λ k' Hk', Hks k' (list_elem_of_further _ _ _ Hk'))).
  destruct (Hst src rs Hrs) as (region & Hr & Hin). rewrite Hr. specialize (Hin Hne).
  destruct (Hk _ _ Hr) as (Hid & _). rewrite <-Hid in Hr.
  destruct (isRegionUnhealthy region) eqn:Eu; [exact IH|]. cbn zeta. destruct (_ =? 0)%nat; [exact IH|].
  set (dest := selectDestStore _ _ _ _). destruct (Z.eqb_spec dest 0) as [|Hd]; [exact IH|].
  destruct (source_cools i stats src _ _ dest Hfew Hsrc Hne eq_refl Hd) as [Hdl Hcool].
  destruct (GetStoreVoter region dest) as [p|] eqn:Ep; [|exact IH]. apply offers_some.
  apply (leader_candidates_spec c) in Hdl as [Hfo Hml].
  apply find_first_Some in Ep as [_ ->%Z.eqb_eq]. done.
Qed.

Lemma balanceByLeader_runs h c `{!ValidView (view c)} i stats : stores_known (view c) → stats_of_cluster c stats → few stats →
  runs (balanceByLeader now call followerIDs ids perm count i stats) h c
    (λ '(region, p), ∃ src, cooling_leader c stats region src (Peer_StoreId p)).
Proof.
  intros Hk Hst Hfew. unfold balanceByLeader, runs. destruct (hot_allowBalanceLeader _ _ _); cbn [negb]; [|by exists h, c, None].
  set (src := selectSrcStore _ _). destruct (Z.eqb_spec src 0) as [|Hne]; [by exists h, c, None|].
  destruct (by_leader_loop_spec c i stats src Hk Hst Hfew eq_refl Hne (perm i (stat_len stats src))) as (r & -> & Hr); [done|].
  destruct r as [[region p]|]; [|by exists h, c, None]. eexists _, c, _. split_and!; [done|done|apply alike_leader|].
  intros ? [= <-]. exists src. by apply (Hr (region, p)).
Qed.

(** What the transfer of a hot leader is. *)
Definition hot_transfer c stats op : Prop := ∃ region src dest i, cooling_leader c stats region src dest ∧
  ruled rules regionFilters (Some "Leader"%string) c i region = inr false ∧ transfers (view c) region dest op.

Lemma hot_leader_op_runs desc h c `{!ValidView (view c)} i stats : rules_listed rules (view c) →
  stores_known (view c) → stats_of_cluster c stats → few stats →
  runs (hot_leader_op now call followerIDs ids perm rules regionFilters count desc i stats) h c
    (λ r, ∀ op, r = Some op → hot_transfer c stats op).
Proof.
  intros Hl Hk Hst Hfew. unfold hot_leader_op, runs.
  destruct (balanceByLeader_runs h c i stats Hk Hst Hfew) as (h' & c' & r & -> & Hs & Ha & Hr).
  destruct r as [[region p]|]; [|by exists h', c', None]. destruct (Hr _ eq_refl) as (src & Hc). cbn [snd].
  rewrite (ruled_same rules regionFilters _ _ _ _ _ Hs).
  destruct (ruled_total rules regionFilters (Some "Leader"%string) c i region Hl) as [[] Hru]; rewrite Hru; [by exists h', c', None|].
  eexists h', c', (Some (Some _)). split_and!; [done..|]. intros ? [= <-] ? [= <-].
  exists region, src, (Peer_StoreId p), i. split_and!; [done..|].
  apply transfers_priority. destruct Hc as (? & _ & _ & ? & _). by apply transfer_op_transfers.
Qed.

(** What the scheduler proposes: by the statistics of read flow, or of write flow. *)
Definition hot_proposal c op : Prop :=
  let q := queries c in
  let reads := calcScore (q_RegionReadStats q) c LeaderKind in
  hot_transfer c reads op ∨ hot_move c reads op ∨
  hot_transfer c (calcScore (q_RegionWriteStats q) c LeaderKind) op ∨ hot_move c (calcScore (q_RegionWriteStats q) c RegionKind) op.

(** There are fewer hot regions than the largest 32-bit number. *)
Definition few_hot c : Prop := Z.of_nat (length (q_RegionReadStats (queries c))) < 2 ^ 31 - 1 ∧ Z.of_nat (length (q_RegionWriteStats (queries c))) < 2 ^ 31 - 1.

Lemma calcScore_few items c kind : Z.of_nat (length items) < 2 ^ 31 - 1 → few (calcScore items c kind).
Proof.
  intros Hlen id. destruct (calcScore_correct items c kind id) as [He _]. apply (f_equal length) in He. rewrite !length_fmap in He.
  assert (hot_len (calcScore items c kind) id = Z.of_nat (length (entries (calcScore items c kind) id))) as ->.
  { unfold hot_len, entries. by destruct (_ !! id). }
  rewrite He. pose proof (length_filter (λ item, hot_on c kind id item = true) items). lia.
Qed.

Lemma hot_move_same c' c stats op : same c' c → hot_move c' stats op → hot_move c stats op.
Proof. intros Hs. unfold hot_move, cooling_peer. setoid_rewrite (ruled_same _ _ _ _ _ _ _ Hs). by rewrite (proj1 Hs). Qed.

Lemma hot_transfer_same c' c stats op : same c' c → hot_transfer c' stats op → hot_transfer c stats op.
Proof. intros Hs. unfold hot_transfer, cooling_leader. setoid_rewrite (ruled_same _ _ _ _ _ _ _ Hs). by rewrite (proj1 Hs). Qed.

Lemma read_runs h c `{!ValidView (view c)} : rules_listed rules (view c) → stores_known (view c) →
  stats_of_cluster c (readStatAsLeader h) → few (readStatAsLeader h) →
  runs (balanceHotReadRegions now call range followerIDs ids perm rules regionFilters count) h c
    (λ op, hot_transfer c (readStatAsLeader h) op ∨ hot_move c (readStatAsLeader h) op).
Proof.
  intros Hl Hk Hst Hfew. unfold balanceHotReadRegions, runs.
  destruct (hot_leader_op_runs "transfer-hot-read-leader" h c 0 _ Hl Hk Hst Hfew) as (h1 & c1 & r & -> & Hs & Ha & Hr).
  destruct r as [r|]; [exists h1, c1, r; split_and!; [done..|]; intros op ->; left; by apply (Hr (Some op))|].
  assert (ValidView (view c1)) by by rewrite (proj1 Hs).
  destruct (hot_peer_op_runs "move-hot-read-region" h1 c1 1 (readStatAsLeader h)) as (h2 & c2 & r & -> & Hs2 & Ha2 & Hr2).
  1-3: unfold stats_of_cluster; by rewrite (proj1 Hs).
  { done. }
  exists h2, c2. destruct r as [r|]; eexists; (split_and!; [done|by eapply same_trans|by eapply alike_trans|]); [|done].
  intros op ->. right. eapply hot_move_same; [done|]. by apply (Hr2 (Some op)).
Qed.

Lemma write_runs n : ∀ i h c `{!ValidView (view c)}, rules_listed rules (view c) → stores_known (view c) →
  stats_of_cluster c (writeStatAsLeader h) → few (writeStatAsLeader h) → stats_of_cluster c (writeStatAsPeer h) → few (writeStatAsPeer h) →
  runs (hot_write_loop now call range followerIDs ids perm toss rules regionFilters count n i) h c
    (λ op, hot_transfer c (writeStatAsLeader h) op ∨ hot_move c (writeStatAsPeer h) op).
Proof.
  induction n as [|n IH]; intros i h c Hvv Hl Hk Hst Hfew Hst' Hfew'; cbn [hot_write_loop]; [by exists h, c, None|].
  assert (runs (if toss i then hot_peer_op now call range followerIDs ids perm rules regionFilters count "move-hot-write-region" i (writeStatAsPeer h)
    else hot_leader_op now call followerIDs ids perm rules regionFilters count "transfer-hot-write-leader" i (writeStatAsLeader h)) h c
    (λ r, ∀ op, r = Some op → hot_transfer c (writeStatAsLeader h) op ∨ hot_move c (writeStatAsPeer h) op)) as (h1 & c1 & r & Hrun & Hs & Ha & Hr).
  { destruct (toss i).
    - destruct (hot_peer_op_runs "move-hot-write-region" h c i _ Hl Hk Hst' Hfew') as (h1 & c1 & r & ? & ? & ? & Hr).
      exists h1, c1, r. split_and!; [done..|]. intros x Hx op Hop. right. by eapply Hr.
    - destruct (hot_leader_op_runs "transfer-hot-write-leader" h c i _ Hl Hk Hst Hfew) as (h1 & c1 & r & ? & ? & ? & Hr).
      exists h1, c1, r. split_and!; [done..|]. intros x Hx op Hop. left. by eapply Hr. }
  unfold runs. rewrite Hrun. destruct r as [r|]; [exists h1, c1, r; split_and!; [done..|]; intros op ->; by apply (Hr (Some op))|].
  assert (ValidView (view c1)) by by rewrite (proj1 Hs). destruct Ha as (Ha1 & Ha2 & Ha3 & Ha4).
  destruct (IH (S i) h1 c1 _) as (h2 & c2 & r & Hr2 & Hs2 & Ha2' & HQ).
  1-6: rewrite ?Ha2, ?Ha3; unfold stats_of_cluster; by rewrite ?(proj1 Hs).
  exists h2, c2, r. split_and!; [exact Hr2|by eapply same_trans|by eapply alike_trans|]. intros op Hop. rewrite Ha2, Ha3 in HQ.
  destruct (HQ op Hop); [left; by eapply hot_transfer_same|right; by eapply hot_move_same].
Qed.

(** C15: The balance of hot regions.  If the regions of the rules can be listed and the
    stores of the regions are known, the scheduler returns, allocates at most ids
    and keeps its limits positive, and an operator it proposes moves a peer, or
    hands over the leadership, of a healthy region that is not under an active
    rule from a store with most hot regions to one with at least two fewer, so the
    difference never turns around.  The new store may take the peer and its
    location is not worse, or it has a follower and may lead; the steps are safe. *)
Theorem hot_region_correct types k h c `{!ValidView (view c)} : types ≠ [] → rules_listed rules (view c) → stores_known (view c) → few_hot c →
  ∃ h' c' r, hotRegion_Schedule now call range followerIDs ids perm toss rules regionFilters count types k (h, c) = ((h', c'), inr r) ∧
    same c' c ∧ (1 ≤ leaderLimit h → 1 ≤ leaderLimit h') ∧ (1 ≤ peerLimit h → 1 ≤ peerLimit h') ∧ ∀ op, r = Some op → hot_proposal c op.
Proof.
  intros Hty Hl Hk [Hread Hwrite]. unfold hotRegion_Schedule.
  destruct (lookup_lt_is_Some_2 types (k mod length types)) as [typ ->].
  { apply Nat.mod_upper_bound. by destruct types. }
  destruct typ; unfold hot_dispatch; cbn zeta.
  - edestruct (write_runs balanceHotRetryLimit 0 (mkHotScheduler (leaderLimit h) (peerLimit h) (readStatAsLeader h)
      (calcScore (q_RegionWriteStats (queries c)) c RegionKind) (calcScore (q_RegionWriteStats (queries c)) c LeaderKind)) c Hl Hk)
      as (h' & c' & r & Hr & Hs & Ha & HQ); [by apply calcScore_of_cluster|by apply calcScore_few|by apply calcScore_of_cluster|by apply calcScore_few|].
    exists h', c', r. split_and!; [exact Hr|done|apply Ha|apply Ha|]. intros op Hop. unfold hot_proposal. destruct (HQ op Hop); auto.
  - edestruct (read_runs (mkHotScheduler (leaderLimit h) (peerLimit h) (calcScore (q_RegionReadStats (queries c)) c LeaderKind)
      (writeStatAsPeer h) (writeStatAsLeader h)) c Hl Hk)
      as (h' & c' & r & Hr & Hs & Ha & HQ); [by apply calcScore_of_cluster|by apply calcScore_few|].
    exists h', c', r. split_and!; [exact Hr|done|apply Ha|apply Ha|]. intros op Hop. unfold hot_proposal. destruct (HQ op Hop); auto.
Qed.
End operators.
