(* ===== verification/Scatter.v ===== *)
(** * Scattering regions (server/schedule/region_scatterer.go)

    Before data is imported, the regions of a range are scattered: a peer stays if
    no region scattered before has taken its store, and otherwise moves to a store
    that none of them has taken. *)

From S2P Require Import Prelude GoBytes BTree Strconv Strings Float KV Metapb Region RegionTree RegionMap RegionsInfo Cache Storage Store Statistics Config Operator Schedule Structure Checkers.

(** [selectedStores]. *)
Abbreviation selectedStores := (gset Z).

Definition put (id : Z) (s : selectedStores) : bool * selectedStores :=
  if decide (id ∈ s) then (false, s) else (true, {[id]} ∪ s).
Definition newFilter (s : selectedStores) : Filter := excludedFilter ∅ s.

Section scatter.
Context `{!Unicode} `{!Classifier}.
Context {C : Type} `{!Cluster C, !ScheduleCluster C}.
Implicit Types (c : C) (region : RegionInfo) (selected : selectedStores) (stores : StoresInfo).

(** The clock, the overload functions, the order of the i-th iteration over the
    stores of the cluster and over a map of stores, and the i-th random number. *)
Variable now : Z.
Variable call : nat → bool.
Variable range : nat → list StoreInfo → list StoreInfo.
Variable order : nat → StoresInfo → list StoreInfo.
Variable draw : nat → nat.

Definition collectAvailableStores (i : nat) region selected c : StoresInfo :=
  let v := view c in
  let filters := [newFilter selected; excludedFilter ∅ (GetStoreIds region); namespaceFilter (GetRegionNamespace region); StoreStateFilter false false] in
  foldl (λ m s, if negb (FilterTarget (v_heap v) now call (v_opt v) s filters) && negb (isBusy s) then <[store_GetID (v_heap v) s := s]> m else m)
    ∅ (cl_GetStores range c i).

Definition selectPeerToReplace (i : nat) stores region (oldPeer : Peer) : M C (option Peer) := λ c,
  let v := view c in
  match v_GetStore v (Peer_StoreId oldPeer) with
  | None => (c, inl nil_region)
  | Some sourceStore =>
      match NewDistinctScoreFilter (v_heap v) (opt_LocationLabels (v_opt v)) (v_GetRegionStores v region) sourceStore with
      | inl err => (c, inl err)
      | inr scoreGuard =>
          let candidates := filter (λ s, filter_target (v_heap v) now call scoreGuard (v_opt v) s = false) (order i stores) in
          match candidates !! (draw i mod length candidates)%nat with
          | None => (c, inr None)
          | Some target => or_nil (AllocPeer (store_GetID (v_heap v) target)) c
          end
      end
  end.

(** The loop over the peers: [targetPeers] and the peers they replace. *)
Fixpoint scatter_peers (i : nat) region (peers : list Peer) stores (targetPeers replacedPeers : list Peer)
    : M (selectedStores * C) (list Peer * list Peer) := λ '(selected, c),
  match peers with
  | [] => ((selected, c), inr (targetPeers, replacedPeers))
  | peer :: peers =>
      let '(selected, stores) :=
        if decide (stores = ∅) then (∅, collectAvailableStores i region ∅ c) else (selected, stores) in
      match put (Peer_StoreId peer) selected with
      | (true, selected) =>
          scatter_peers (S i) region peers (delete (Peer_StoreId peer) stores) (targetPeers ++ [peer]) (replacedPeers ++ [peer]) (selected, c)
      | (false, selected) =>
          match selectPeerToReplace i stores region peer c with
          | (c, inl err) => ((selected, c), inl err)
          | (c, inr None) => scatter_peers (S i) region peers stores (targetPeers ++ [peer]) (replacedPeers ++ [peer]) (selected, c)
          | (c, inr (Some newPeer)) =>
              scatter_peers (S i) region peers (delete (Peer_StoreId newPeer) stores) (targetPeers ++ [newPeer]) (replacedPeers ++ [peer])
                ((put (Peer_StoreId newPeer) selected).2, c)
          end
      end
  end.

Definition scatterRegion region : M (selectedStores * C) (option Operator) := λ '(selected, c),
  let stores := collectAvailableStores 0 region selected c in
  match scatter_peers 1 region (GetPeers region) stores [] [] (selected, c) with
  | (sc, inl err) => (sc, inl err)
  | (sc, inr (targetPeers, replacedPeers)) =>
      match CreateScatterRegionOperator "scatter-region" sc.2 region replacedPeers targetPeers
              (draw 0 mod length targetPeers)%nat now with
      | inl err => (sc, inl err)
      | inr op => (sc, inr (SetPriorityLevel HighPriority <$> op))
      end
  end.

Definition Scatter region : M (selectedStores * C) (option Operator) := λ '(selected, c),
  let v := view c in
  if v_IsRegionHot v (GetID region) then ((selected, c), inl (Error "region is a hot region"))
  else if negb (Z.of_nat (length (GetPeers region)) =? opt_MaxReplicas (v_opt v))
  then ((selected, c), inl (Error "the number replicas of region is not expected"))
  else if bool_decide (GetLeader region = None) then ((selected, c), inl (Error "region has no leader"))
  else scatterRegion region (selected, c).
End scatter.
