(* ===== verification/ScatterProps.v ===== *)
(** * Scattering is safe

    The operator that scatters a region takes its peers one by one to the stores
    chosen for them, without ever losing a voter or removing the leader; the stores
    chosen are distinct, in the namespace of the region and not worse located. *)

From S2P Require Import Prelude GoBytes BTree Strconv Strings Float KV Metapb Region RegionTree RegionMap RegionsInfo Cache Storage Store Statistics Config Operator OperatorProps Schedule ScheduleProps Structure Checkers CheckersProps Plugin Schedulers SchedulersProps Scatter.

(** ** The operator *)

Lemma exec_safe_final n steps a b : exec_safe n steps a b → safe n a → safe n b.
Proof. induction 1; auto. Qed.

(** Two rounds of replacements are one. *)
Lemma rounds_one (vs n1 o1 n2 o2 : gset Z) : n1 ## vs → n2 ## vs → o1 ⊆ vs → o2 ⊆ vs →
  ((vs ∪ n1) ∖ o1 ∪ n2) ∖ o2 = (vs ∪ (n1 ∪ n2)) ∖ (o1 ∪ o2).
Proof. set_solver. Qed.

Lemma rounds_leader (vs n1 o1 n2 o2 : gset Z) t p : t ∉ vs → p ∈ vs → n1 ## vs → n2 ## vs → o1 ⊆ vs → o2 ⊆ vs →
  (((({[t]} ∪ vs ∪ n1) ∖ o1) ∖ {[p]}) ∪ n2) ∖ o2 = (vs ∪ ({[t]} ∪ (n1 ∪ n2))) ∖ ({[p]} ∪ (o1 ∪ o2)).
Proof. set_solver. Qed.

Section operator.
Context {C : Type} `{!Cluster C}.
Variable c : C.
Implicit Types (pairs : list (Peer * Peer)).

(** Pairs of a peer and the one that replaces it. *)
Definition olds pairs : list Z := (λ x, Peer_StoreId x.1) <$> pairs.
Definition news pairs : list Z := (λ x, Peer_StoreId x.2) <$> pairs.
Definition pair_steps (x : Peer * Peer) : list OperatorStep :=
  CreateAddLightPeerSteps (Peer_StoreId x.2) (Peer_Id x.2) c ++ [RemovePeer (Peer_StoreId x.1)].
Definition swap_steps pairs : list OperatorStep := pairs ≫= pair_steps.

Lemma light_adds store peer : adds_peer store (CreateAddLightPeerSteps store peer c).
Proof. unfold CreateAddLightPeerSteps. destruct (IsRaftLearnerEnabled c); [right; eauto|left; eauto]. Qed.

Lemma swap_steps_replace pairs :
  swap_steps pairs = replace_steps ((λ x, CreateAddLightPeerSteps (Peer_StoreId x.2) (Peer_Id x.2) c) <$> pairs) (olds pairs).
Proof. unfold swap_steps, replace_steps, olds. induction pairs as [|x pairs IH]; [done|]. cbn. by rewrite IH. Qed.

Lemma exec_swap n pairs vs l : NoDup (news pairs) → NoDup (olds pairs) → (∀ x, x ∈ pairs → Peer_StoreId x.2 ∉ vs) →
  (∀ x, x ∈ pairs → Peer_StoreId x.1 ∈ vs ∧ Peer_StoreId x.1 ≠ l) → safe n (mkPlacement vs ∅ l) →
  exec_safe n (swap_steps pairs) (mkPlacement vs ∅ l) (mkPlacement ((vs ∪ list_to_set (news pairs)) ∖ list_to_set (olds pairs)) ∅ l).
Proof.
  intros Hn Ho Hnew Hold Hsafe. rewrite swap_steps_replace. apply exec_replace; [|by unfold olds, news; rewrite !length_fmap|done..| | |done].
  - unfold news. clear. induction pairs as [|x pairs IH]; constructor; [apply light_adds|done].
  - intros s Hs. unfold news in Hs. apply list_elem_of_fmap in Hs as (x & -> & Hx). auto.
  - intros r Hr. unfold olds in Hr. apply list_elem_of_fmap in Hr as (x & -> & Hx). auto.
Qed.

(** What the loop of the operator appends, at once and deferred. *)
Lemma scatter_loop_spec (O : gset Z) origin tid replaced : ∀ targets ps j steps defer kind,
  drop j replaced = ps → length ps = length targets →
  let moved x := Peer_Id x.2 ≠ tid ∧ (Peer_StoreId x.2 ∉ O) in
  ∃ kind', scatter_loop c O origin tid targets replaced j steps defer kind =
    inr (steps ++ swap_steps (filter (λ x, moved x ∧ Peer_StoreId x.1 ≠ origin) (zip ps targets)),
         defer ++ swap_steps (filter (λ x, moved x ∧ Peer_StoreId x.1 = origin) (zip ps targets)), kind').
Proof.
  cbn zeta. induction targets as [|t targets IH]; intros ps j steps defer kind Hdrop Hlen; cbn [scatter_loop].
  { destruct ps; [|done]. exists kind. unfold swap_steps. cbn. by rewrite !app_nil_r. }
  destruct ps as [|p ps]; [done|]. cbn in Hlen.
  assert (Hj : replaced !! j = Some p) by (rewrite <-(Nat.add_0_r j), <-lookup_drop, Hdrop; done).
  assert (Hd : drop (S j) replaced = ps) by (rewrite <-(Nat.add_1_r j), <-drop_drop, Hdrop; done).
  assert (Hl : length ps = length targets) by lia. cbn [zip_with]. rewrite !list.filter_cons. cbn [fst snd].
  destruct (Z.eqb_spec (Peer_Id t) tid) as [Heq|Hne].
  { rewrite !decide_False by tauto. by apply IH. }
  destruct (decide (Peer_StoreId t ∈ O)) as [Hin|Hin].
  { rewrite !decide_False by tauto. by apply IH. }
  rewrite Hj. destruct (Z.eqb_spec (Peer_StoreId p) origin) as [Ho|Ho].
  - rewrite decide_False, decide_True by tauto. destruct (IH ps (S j) steps (defer ++ pair_steps (p, t)) (Z.lor kind (Z.lor OpRegion OpLeader)) Hd Hl) as [k Hk].
    exists k. rewrite <-app_assoc in Hk. exact Hk.
  - rewrite decide_True, decide_False by tauto. destruct (IH ps (S j) (steps ++ pair_steps (p, t)) defer (Z.lor kind OpRegion) Hd Hl) as [k Hk].
    exists k. rewrite <-app_assoc in Hk. exact Hk.
Qed.
End operator.

Section scattered.
Context {C : Type} `{!Cluster C}.
Variables (c : C) (desc : string) (now : Z) (origin : RegionInfo) (targets : list Peer).
Hypothesis Hpr : plain_region origin.
Hypothesis Hfit : Forall2 (λ p t, t = p ∨ (Peer_StoreId t ∉ stores origin)) (GetPeers origin) targets.
Hypothesis Hstores : NoDup (Peer_StoreId <$> targets).
Hypothesis Hids : NoDup (Peer_Id <$> targets).
Let vs := list_to_set (stores origin) : gset Z.
Let n := length (stores origin).
Let pairs := zip (GetPeers origin) targets.

Lemma pairs_fst : pairs.*1 = GetPeers origin.
Proof. apply fst_zip. by rewrite (Forall2_length _ _ _ Hfit). Qed.
Lemma pairs_snd : pairs.*2 = targets.
Proof. apply snd_zip. by rewrite (Forall2_length _ _ _ Hfit). Qed.
Lemma olds_pairs : olds pairs = stores origin.
Proof. unfold olds, stores. by rewrite <-pairs_fst, <-list_fmap_compose. Qed.
Lemma news_pairs : news pairs = Peer_StoreId <$> targets.
Proof. unfold news. by rewrite <-pairs_snd, <-list_fmap_compose. Qed.

Lemma pair_elem p t : (p, t) ∈ pairs → p ∈ GetPeers origin ∧ t ∈ targets ∧ (t = p ∨ (Peer_StoreId t ∉ stores origin)).
Proof.
  intros Hin. split_and!.
  - rewrite <-pairs_fst, list_elem_of_fmap. by exists (p, t).
  - rewrite <-pairs_snd, list_elem_of_fmap. by exists (p, t).
  - unfold pairs in Hin. apply list_elem_of_lookup in Hin as [i Hi]. apply lookup_zip_with_Some in Hi as (p' & t' & [= <- <-] & Hp & Ht).
    exact (Forall2_lookup_lr _ _ _ _ _ _ Hfit Hp Ht).
Qed.

Lemma pair_old_inj x y : x ∈ pairs → y ∈ pairs → Peer_StoreId x.1 = Peer_StoreId y.1 → x = y.
Proof.
  intros [i Hi]%list_elem_of_lookup [j Hj]%list_elem_of_lookup Heq. assert (i = j) as ->; [|congruence].
  pose proof (pr_nodup _ Hpr) as Hnd. rewrite <-olds_pairs in Hnd.
  eapply (NoDup_lookup _ _ _ (Peer_StoreId x.1)); [exact Hnd|unfold olds; by rewrite list_lookup_fmap, Hi|].
  unfold olds. by rewrite list_lookup_fmap, Hj, Heq.
Qed.

Lemma pair_id_inj x y : x ∈ pairs → y ∈ pairs → Peer_Id x.2 = Peer_Id y.2 → x = y.
Proof.
  intros [i Hi]%list_elem_of_lookup [j Hj]%list_elem_of_lookup Heq. assert (i = j) as ->; [|congruence].
  pose proof Hids as Hnd. rewrite <-pairs_snd, <-list_fmap_compose in Hnd.
  eapply (NoDup_lookup _ _ _ (Peer_Id x.2)); [exact Hnd|by rewrite list_lookup_fmap, Hi|].
  by rewrite list_lookup_fmap, Hj, Heq.
Qed.

Lemma nodup_sub {A} (f : Peer * Peer → A) (P : Peer * Peer → Prop) `{!∀ x, Decision (P x)} : NoDup (f <$> pairs) → NoDup (f <$> filter P pairs).
Proof. intros Hnd. eapply sublist_NoDup; [exact Hnd|]. apply fmap_sublist, sublist_filter. Qed.

(** Replacing all pairs whose store changes gives the targets. *)
Lemma placement_targets K : (∀ x, x ∈ K ↔ x ∈ pairs ∧ (Peer_StoreId x.2 ∉ stores origin)) →
  (vs ∪ list_to_set (news K)) ∖ list_to_set (olds K) = list_to_set (Peer_StoreId <$> targets).
Proof.
  intros HK. apply set_eq. intros id. unfold vs, news, olds.
  rewrite elem_of_difference, elem_of_union, !elem_of_list_to_set, !list_elem_of_fmap. split.
  - intros [[Hid|([p t] & -> & Hx)] Hno].
    + rewrite <-olds_pairs in Hid. unfold olds in Hid. apply list_elem_of_fmap in Hid as ([p t] & -> & Hx). cbn in *.
      destruct (pair_elem _ _ Hx) as (_ & Ht & [->|Hne]); [by exists p|]. exfalso. apply Hno. exists (p, t). split; [done|]. by apply HK.
    + apply HK in Hx as [Hx _]. apply pair_elem in Hx as (_ & Ht & _). by exists t.
  - intros (t & -> & Ht). rewrite <-pairs_snd in Ht. apply list_elem_of_fmap in Ht as ([p t'] & -> & Hx). cbn.
    destruct (pair_elem _ _ Hx) as (Hp & _ & [->|Hne]).
    + split; [left; unfold stores; rewrite list_elem_of_fmap; by exists p|]. intros (y & Heq & Hy). apply HK in Hy as [Hy Hyn].
      assert ((p, p) = y) as <- by by apply pair_old_inj. apply Hyn. unfold stores. rewrite list_elem_of_fmap. by exists p.
    + split; [right; exists (p, t'); split; [done|]; by apply HK|]. intros ([p' t2] & Heq & Hy). apply HK in Hy as [Hy _].
      apply Hne. rewrite Heq. apply pair_elem in Hy as (Hp' & _ & _). unfold stores. rewrite list_elem_of_fmap. by exists p'.
Qed.

(** Replacing some of the changed pairs, from a placement that has their old stores
    and not the new ones. *)
Lemma exec_some m (P : Peer * Peer → Prop) `{!∀ x, Decision (P x)} w l : (∀ x, x ∈ pairs → P x → Peer_StoreId x.2 ∉ w) →
  (∀ x, x ∈ pairs → P x → Peer_StoreId x.1 ∈ w ∧ Peer_StoreId x.1 ≠ l) → (m ≤ size w)%nat → l ∈ w →
  exec_safe m (swap_steps c (filter P pairs)) (mkPlacement w ∅ l)
    (mkPlacement ((w ∪ list_to_set (news (filter P pairs))) ∖ list_to_set (olds (filter P pairs))) ∅ l).
Proof.
  intros Hn Ho Hw Hl. apply exec_swap; [| | | |by split].
  - apply nodup_sub. fold (news pairs). by rewrite news_pairs.
  - apply nodup_sub. fold (olds pairs). rewrite olds_pairs. apply (pr_nodup _ Hpr).
  - intros x [HP Hx]%list_elem_of_filter. auto.
  - intros x [HP Hx]%list_elem_of_filter. auto.
Qed.

(** The stores that [P] frees and fills. *)
Lemma elem_of_news P `{!∀ x, Decision (P x)} id : id ∈ (list_to_set (news (filter P pairs)) : gset Z) ↔
  ∃ x, x ∈ pairs ∧ P x ∧ Peer_StoreId x.2 = id.
Proof. unfold news. rewrite elem_of_list_to_set, list_elem_of_fmap. setoid_rewrite list_elem_of_filter. naive_solver. Qed.
Lemma elem_of_olds P `{!∀ x, Decision (P x)} id : id ∈ (list_to_set (olds (filter P pairs)) : gset Z) ↔
  ∃ x, x ∈ pairs ∧ P x ∧ Peer_StoreId x.1 = id.
Proof. unfold olds. rewrite elem_of_list_to_set, list_elem_of_fmap. setoid_rewrite list_elem_of_filter. naive_solver. Qed.

Lemma old_in_vs x : x ∈ pairs → Peer_StoreId x.1 ∈ vs.
Proof.
  destruct x as [p t]. intros (Hp & _)%pair_elem. apply elem_of_list_to_set. unfold stores. rewrite list_elem_of_fmap. by exists p.
Qed.

Lemma pair_new_inj x y : x ∈ pairs → y ∈ pairs → Peer_StoreId x.2 = Peer_StoreId y.2 → x = y.
Proof.
  intros [i Hi]%list_elem_of_lookup [j Hj]%list_elem_of_lookup Heq. assert (i = j) as ->; [|congruence].
  pose proof Hstores as Hnd. rewrite <-news_pairs in Hnd.
  eapply (NoDup_lookup _ _ _ (Peer_StoreId x.2)); [exact Hnd|unfold news; by rewrite list_lookup_fmap, Hi|].
  unfold news. by rewrite list_lookup_fmap, Hj, Heq.
Qed.

Section leader.
Variables (p t : Peer).
Hypothesis Hpt : (p, t) ∈ pairs.
Let L := Peer_GetStoreId (GetLeader origin).
Let moved (x : Peer * Peer) : Prop := Peer_Id x.2 ≠ Peer_Id t ∧ (Peer_StoreId x.2 ∉ GetStoreIds origin).
Let now_ (x : Peer * Peer) : Prop := moved x ∧ Peer_StoreId x.1 ≠ L.
Let later (x : Peer * Peer) : Prop := moved x ∧ Peer_StoreId x.1 = L.

Lemma moved_spec x : x ∈ pairs → moved x → x ≠ (p, t) ∧ Peer_StoreId x.1 ∈ vs ∧ Peer_StoreId x.1 ≠ Peer_StoreId p ∧
  (Peer_StoreId x.2 ∉ vs) ∧ Peer_StoreId x.2 ≠ Peer_StoreId t.
Proof.
  intros Hx [Hid Hs]. rewrite elem_of_store_ids in Hs. assert (x ≠ (p, t)) by (intros ->; by apply Hid). split_and!; [done| | | |].
  - by apply old_in_vs.
  - intros Heq. by assert (x = (p, t)) by by apply pair_old_inj.
  - unfold vs. by rewrite elem_of_list_to_set.
  - intros Heq. by assert (x = (p, t)) by by apply pair_new_inj.
Qed.

Lemma leader_in_vs : L ∈ vs.
Proof.
  destruct (pr_leader _ Hpr) as (l & Hl & Hin). unfold L. rewrite Hl. apply elem_of_list_to_set. unfold stores.
  rewrite list_elem_of_fmap. by exists l.
Qed.

Lemma now_disjoint : (list_to_set (news (filter now_ pairs)) : gset Z) ## vs.
Proof. intros id (x & Hx & [Hm _] & <-)%elem_of_news. by destruct (moved_spec x Hx Hm) as (?&?&?&?&?). Qed.
Lemma later_disjoint : (list_to_set (news (filter later pairs)) : gset Z) ## vs.
Proof. intros id (x & Hx & [Hm _] & <-)%elem_of_news. by destruct (moved_spec x Hx Hm) as (?&?&?&?&?). Qed.
Lemma now_olds : (list_to_set (olds (filter now_ pairs)) : gset Z) ⊆ vs.
Proof. intros id (x & Hx & _ & <-)%elem_of_olds. by apply old_in_vs. Qed.
Lemma later_olds : (list_to_set (olds (filter later pairs)) : gset Z) ⊆ vs.
Proof. intros id (x & Hx & _ & <-)%elem_of_olds. by apply old_in_vs. Qed.

(** The leader stays on a store of the region. *)
Lemma exec_kept : Peer_StoreId t ∈ stores origin →
  exec_safe n (swap_steps c (filter now_ pairs) ++ swap_steps c (filter later pairs)) (mkPlacement vs ∅ (Peer_StoreId t))
    (mkPlacement (list_to_set (Peer_StoreId <$> targets)) ∅ (Peer_StoreId t)).
Proof.
  intros Ht. assert (Ept : p = t) by (apply pair_elem in Hpt as (_ & _ & [->|?]); done).
  assert (Hpv : Peer_StoreId t ∈ vs) by by apply elem_of_list_to_set.
  assert (Hsz : size vs = n) by by apply size_stores, (pr_nodup _ Hpr).
  set (w := (vs ∪ list_to_set (news (filter now_ pairs))) ∖ list_to_set (olds (filter now_ pairs))).
  assert (H1' : exec_safe n (swap_steps c (filter now_ pairs)) (mkPlacement vs ∅ (Peer_StoreId t)) (mkPlacement w ∅ (Peer_StoreId t))).
  { apply exec_some; [| |lia|done]; intros x Hx [Hm _]; destruct (moved_spec x Hx Hm) as (?&?&?&?&?); [done|by rewrite <-Ept]. }
  eapply exec_safe_app; [exact H1'|]. apply exec_safe_final in H1'; [|split; cbn; [lia|done]]. destruct H1' as [Hsize Hin]. cbn in Hsize, Hin.
  rewrite <-(placement_targets (filter now_ pairs ++ filter later pairs)).
  - unfold news, olds. rewrite !fmap_app, !list_to_set_app_L. fold (news (filter now_ pairs)) (olds (filter now_ pairs)) (news (filter later pairs)) (olds (filter later pairs)).
    rewrite <-rounds_one by (apply now_disjoint || apply later_disjoint || apply now_olds || apply later_olds).
    apply exec_some; [| |done..]; intros x Hx [Hm HL]; destruct (moved_spec x Hx Hm) as (?&?&?&?&?).
    + intros Hw. apply elem_of_difference in Hw as [[?|(y & Hy & [Hym HyL] & Heq)%elem_of_news]%elem_of_union _]; [done|].
      apply HyL. by rewrite (pair_new_inj y x Hy Hx Heq).
    + split; [|by rewrite <-Ept]. apply elem_of_difference. split; [by apply elem_of_union_l|].
      intros (y & Hy & [Hym HyL] & Heq)%elem_of_olds. apply HyL. by rewrite Heq.
  - intros x. rewrite elem_of_app, !list_elem_of_filter. unfold now_, later. split.
    + intros [[[[_ Hs] _] Hx]|[[[_ Hs] _] Hx]]; (split; [done|by rewrite <-elem_of_store_ids]).
    + intros [Hx Hs]. assert (moved x); [|destruct (decide (Peer_StoreId x.1 = L)); auto].
      split; [|by rewrite elem_of_store_ids]. intros Hid. assert (x = (p, t)) as -> by by apply pair_id_inj. done.
Qed.

Lemma after_now_size w : size w = S n → vs ⊆ w → (∀ x, x ∈ pairs → now_ x → Peer_StoreId x.2 ∉ w) →
  let w' := (w ∪ list_to_set (news (filter now_ pairs))) ∖ list_to_set (olds (filter now_ pairs)) in
  exec_safe (S n) (swap_steps c (filter now_ pairs)) (mkPlacement w ∅ L) (mkPlacement w' ∅ L) ∧ (S n ≤ size w')%nat ∧ L ∈ w'.
Proof.
  intros Hsz Hsub Hnew. cbn zeta. pose proof leader_in_vs as HL.
  assert (Hex : exec_safe (S n) (swap_steps c (filter now_ pairs)) (mkPlacement w ∅ L)
    (mkPlacement ((w ∪ list_to_set (news (filter now_ pairs))) ∖ list_to_set (olds (filter now_ pairs))) ∅ L)).
  { apply exec_some; [done| |lia|set_solver]. intros x Hx [Hm Hne]. destruct (moved_spec x Hx Hm) as (?&?&?&?&?). split; [set_solver|done]. }
  split; [done|]. apply exec_safe_final in Hex; [exact Hex|]. split; cbn; [lia|set_solver].
Qed.

(** The new leader is a new peer. *)
Lemma exec_new : (Peer_StoreId t ∉ stores origin) →
  exec_safe n (CreateAddLightPeerSteps (Peer_StoreId t) (Peer_Id t) c ++ swap_steps c (filter now_ pairs) ++
      [TransferLeader L (Peer_StoreId t); RemovePeer (Peer_StoreId p)] ++ swap_steps c (filter later pairs)) (mkPlacement vs ∅ L)
    (mkPlacement (list_to_set (Peer_StoreId <$> targets)) ∅ (Peer_StoreId t)).
Proof.
  intros Ht. assert (Htv : Peer_StoreId t ∉ vs) by (unfold vs; by rewrite elem_of_list_to_set).
  assert (Hpv : Peer_StoreId p ∈ vs) by by apply (old_in_vs (p, t)).
  assert (Hsz : size vs = n) by by apply size_stores, (pr_nodup _ Hpr).
  pose proof leader_in_vs as HL.
  pose proof (size_union_alt {[Peer_StoreId t]} vs) as Hsz'. rewrite size_singleton in Hsz'.
  replace (vs ∖ {[Peer_StoreId t]}) with vs in Hsz' by set_solver.
  eapply exec_safe_app; [by apply exec_adds; [apply light_adds|done|split; cbn; [lia|]]|].
  destruct (after_now_size ({[Peer_StoreId t]} ∪ vs)) as (Hex & Hsize & Hin); [lia|set_solver| |].
  { intros x Hx [Hm _]. destruct (moved_spec x Hx Hm) as (?&?&?&?&?). by rewrite elem_of_union, elem_of_singleton; intros [?|?]. }
  eapply exec_safe_app; [apply exec_safe_weaken with (S n); [lia|exact Hex]|].
  pose proof now_disjoint as Hd1. pose proof later_disjoint as Hd2. pose proof now_olds as Ho1. pose proof later_olds as Ho2.
  assert (Hpo : Peer_StoreId p ∉ (list_to_set (olds (filter now_ pairs)) : gset Z)).
  { intros (x & Hx & [Hm _] & Heq)%elem_of_olds. by destruct (moved_spec x Hx Hm) as (?&?&?&?&?). }
  assert (Hlater : ∀ x, x ∈ pairs → later x → (Peer_StoreId x.2 ∉ (list_to_set (news (filter now_ pairs)) : gset Z)) ∧
    (Peer_StoreId x.1 ∉ (list_to_set (olds (filter now_ pairs)) : gset Z))).
  { intros x Hx [Hm HxL]. split.
    - intros (y & Hy & [Hym HyL] & Heq)%elem_of_news. apply HyL. by rewrite (pair_new_inj y x Hy Hx Heq).
    - intros (y & Hy & [Hym HyL] & Heq)%elem_of_olds. apply HyL. by rewrite Heq. }
  set (n1 := list_to_set (news (filter now_ pairs)) : gset Z) in *. set (o1 := list_to_set (olds (filter now_ pairs)) : gset Z) in *.
  change ([TransferLeader L (Peer_StoreId t); RemovePeer (Peer_StoreId p)]) with ([TransferLeader L (Peer_StoreId t)] ++ [RemovePeer (Peer_StoreId p)]).
  assert (Hw : ∀ id, id ∈ ({[Peer_StoreId t]} ∪ vs ∪ n1) ∖ o1 ↔ ((id = Peer_StoreId t ∨ id ∈ vs) ∨ id ∈ n1) ∧ id ∉ o1)
    by (intros id; by rewrite elem_of_difference, !elem_of_union, elem_of_singleton).
  assert (Hto : Peer_StoreId t ∉ o1) by (intros Hin'; by apply Htv, Ho1).
  rewrite <-app_assoc. eapply exec_safe_app; [apply exec_transfer; [apply Hw; auto|lia]|].
  eapply exec_safe_app; [apply exec_remove; [apply Hw; auto|congruence|apply Hw; auto|lia]|].
  rewrite <-(placement_targets ((p, t) :: filter now_ pairs ++ filter later pairs)).
  - unfold news, olds. rewrite !fmap_cons, !fmap_app, !list_to_set_cons, !list_to_set_app_L. fold (news (filter now_ pairs)) (olds (filter now_ pairs)).
    fold n1 o1. fold (news (filter later pairs)) (olds (filter later pairs)). cbn [fst snd]. rewrite <-rounds_leader by done.
    apply exec_some.
    + intros x Hx Hlx. destruct (Hlater x Hx Hlx) as [? ?]. destruct Hlx as [Hm _]. destruct (moved_spec x Hx Hm) as (?&?&?&?&?).
      rewrite elem_of_difference, Hw. tauto.
    + intros x Hx Hlx. destruct (Hlater x Hx Hlx) as [? ?]. destruct Hlx as [Hm _]. destruct (moved_spec x Hx Hm) as (?&?&?&?&?).
      rewrite elem_of_difference, Hw, elem_of_singleton. split; [auto|]. intros Heq. by rewrite Heq in *.
    + rewrite size_difference, size_singleton by (apply singleton_subseteq_l, Hw; auto). lia.
    + rewrite elem_of_difference, Hw, elem_of_singleton. split; [auto|]. congruence.
  - intros x. rewrite elem_of_cons, elem_of_app, !list_elem_of_filter. unfold now_, later. split.
    + intros [->|[[[[_ Hs] _] Hx]|[[[_ Hs] _] Hx]]]; [done|..]; (split; [done|by rewrite <-elem_of_store_ids]).
    + intros [Hx Hs]. destruct (decide (x = (p, t))) as [|Hne]; [by left|]. right.
      assert (moved x); [|destruct (decide (Peer_StoreId x.1 = L)); auto].
      split; [|by rewrite elem_of_store_ids]. intros Hid. by assert (x = (p, t)) by by apply pair_id_inj.
Qed.
End leader.

(** The operator takes the peers to the targets and the leadership to the [i]-th,
    unless there is nothing to do. *)
Lemma scatter_operator i t : targets !! i = Some t →
  ∃ r, CreateScatterRegionOperator desc c origin (GetPeers origin) targets i now = inr r ∧
    (r = None → Peer_StoreId t = Peer_GetStoreId (GetLeader origin) ∧ ∀ x, x ∈ targets → Peer_StoreId x ∈ stores origin) ∧
    ∀ op, r = Some op → op_regionID op = GetID origin ∧ op_regionEpoch op = GetRegionEpoch origin ∧
      exec_safe n (op_steps op) (voters_of origin) (mkPlacement (list_to_set (Peer_StoreId <$> targets)) ∅ (Peer_StoreId t)).
Proof.
  intros Hi. unfold CreateScatterRegionOperator. rewrite Hi. cbn zeta.
  destruct (lookup_lt_is_Some_2 (GetPeers origin) i) as [p Hp].
  { rewrite (Forall2_length _ _ _ Hfit). by eapply lookup_lt_Some. }
  assert (Hpt : (p, t) ∈ pairs) by (apply list_elem_of_lookup; exists i; by apply lookup_zip_with_Some; exists p, t).
  destruct (_ && _) eqn:Esame.
  { apply andb_true_iff in Esame as [Hl%Z.eqb_eq Hall]. eexists. split; [reflexivity|]. split; [|done]. intros _. split; [done|].
    intros x Hx. rewrite forallb_forall in Hall. apply list_elem_of_In in Hx. specialize (Hall x Hx).
    by rewrite bool_decide_eq_true, elem_of_store_ids in Hall. }
  pose proof (λ steps defer kind, scatter_loop_spec c (GetStoreIds origin) (Peer_GetStoreId (GetLeader origin)) (Peer_Id t) (GetPeers origin) targets
    (GetPeers origin) 0 steps defer kind eq_refl (Forall2_length _ _ _ Hfit)) as Hloop. cbn zeta in Hloop.
  assert (Hvs : voters_of origin = mkPlacement vs ∅ (Peer_GetStoreId (GetLeader origin))) by done. rewrite Hvs.
  assert (Hsz : size vs = n) by by apply size_stores, (pr_nodup _ Hpr).
  destruct (decide (Peer_StoreId t ∈ GetStoreIds origin)) as [Hin|Hin]; rewrite elem_of_store_ids in Hin.
  - destruct (Z.eqb_spec (Peer_StoreId t) (Peer_GetStoreId (GetLeader origin))) as [Hl|Hl].
    + destruct (Hloop [] [] 0) as [k ->]. eexists. split; [reflexivity|]. split; [done|]. intros op [= <-]. split_and!; [done..|].
      pose proof (exec_kept p t Hpt Hin) as Hk. rewrite Hl in Hk |- *. exact Hk.
    + edestruct Hloop as [k ->]. eexists. split; [reflexivity|]. split; [done|]. intros op [= <-]. split_and!; [done..|].
      eapply (exec_safe_app _ [_]); [apply exec_transfer; [by apply elem_of_list_to_set|lia]|]. exact (exec_kept p t Hpt Hin).
  - rewrite Hp. edestruct Hloop as [k ->]. eexists. split; [reflexivity|]. split; [done|]. intros op [= <-]. split_and!; [done..|].
    cbn [NewOperator op_steps]. rewrite <-app_assoc. by apply exec_new.
Qed.
End scattered.

(** ** The choice of the stores *)

Section scatterer.
Context `{!Unicode} `{!Classifier}.
Context {C : Type} `{!Cluster C, !ScheduleCluster C, !ScheduleClusterLaws C}.
Variables (now : Z) (call : nat → bool).
Variable range : nat → list StoreInfo → list StoreInfo.
Variable order : nat → StoresInfo → list StoreInfo.
Variable draw : nat → nat.
Hypothesis Hrange : ∀ i l, range i l ≡ₚ l.
Hypothesis Horder : ∀ i m, order i m ≡ₚ (map_to_list m).*2.
(** The ids in use; an allocated one is new. *)
Variable used : C → Z → Prop.
Hypothesis used_mono : ∀ c storeID id, used c id → used (AllocPeer storeID c).1 id.
Hypothesis used_fresh : ∀ c storeID p, (AllocPeer storeID c).2 = inr p → ¬ used c (Peer_Id p) ∧ used (AllocPeer storeID c).1 (Peer_Id p).
Implicit Types (c : C) (v : View) (region : RegionInfo) (selected : selectedStores) (avail : StoresInfo).

(** A store that may take a peer of the region. *)
Definition available v region (id : Z) (s : StoreInfo) : Prop :=
  v_GetStore v id = Some s ∧ (id ∉ stores region) ∧ GetStoreNamespace (v_heap v) s = GetRegionNamespace region ∧
  alive now v s ∧ IsOffline (v_heap v) s = false ∧ isBusy s = false.

Lemma collect_spec c `{!ValidView (view c)} i region selected :
  map_Forall (available (view c) region) (collectAvailableStores now call range i region selected c).
Proof.
  unfold collectAvailableStores. cbn zeta. set (f := λ (m : StoresInfo) (s : StoreInfo), _).
  assert (Hgo : ∀ l m, (∀ s, s ∈ l → v_GetStore (view c) (store_GetID (v_heap (view c)) s) = Some s) →
    map_Forall (available (view c) region) m → map_Forall (available (view c) region) (foldl f m l)).
  { induction l as [|s l IH]; intros m Hl Hm; cbn [foldl]; [done|]. apply IH; [intros x Hx; apply Hl; by right|].
    unfold f at 1. destruct (_ && _) eqn:E; [|done]. apply andb_true_iff in E as [Ef%negb_true_iff Eb%negb_true_iff].
    apply map_Forall_insert_2; [|done]. unfold FilterTarget in Ef. cbn [existsb filter_target newFilter] in Ef.
    rewrite !orb_false_iff, !bool_decide_eq_false, negb_false_iff, bool_decide_eq_true, elem_of_store_ids, (state_target_spec now call) in Ef.
    split_and!; [apply Hl; by left|tauto..]. }
  apply Hgo; [|done]. intros s Hs. by eapply (elem_of_cl_stores range Hrange c).
Qed.

(** The peer stays, or moves to an available store that is not worse located. *)
Definition fits v region (p t : Peer) : Prop :=
  t = p ∨ ∃ source s, v_GetStore v (Peer_StoreId p) = Some source ∧ available v region (Peer_StoreId t) s ∧ keeps_location v region source s.

Lemma select_spec c `{!ValidView (view c)} i avail region p : is_Some (v_GetStore (view c) (Peer_StoreId p)) → p ∈ GetPeers region →
  map_Forall (available (view c) region) avail →
  ∃ c' r, selectPeerToReplace now call order draw i avail region p c = (c', inr r) ∧ view c' = view c ∧
    (∀ id, used c id → used c' id) ∧
    ∀ t, r = Some t → fits (view c) region p t ∧ is_Some (avail !! Peer_StoreId t) ∧ ¬ used c (Peer_Id t) ∧ used c' (Peer_Id t).
Proof.
  intros [source Hs] Hp Hav. unfold selectPeerToReplace. cbn zeta. rewrite Hs. unfold NewDistinctScoreFilter.
  assert (Hin : source ∈ v_GetRegionStores (view c) region).
  { apply elem_of_region_stores. exists p. split; [done|]. by eapply lookup_weaken, view_peer_stores. }
  destruct (Nat.eqb_spec (length (v_GetRegionStores (view c) region)) 0) as [Hlen|_].
  { apply nil_length_inv in Hlen. rewrite Hlen in Hin. by apply not_elem_of_nil in Hin. }
  set (l := filter _ (order i avail)). destruct (l !! _) as [target|] eqn:Et; [|by eexists c, None].
  apply list_elem_of_lookup_2 in Et. unfold l in Et. apply list_elem_of_filter in Et as [Hf Ht]. rewrite Horder, list_elem_of_fmap in Ht.
  destruct Ht as ([id s'] & Heq & Ht%elem_of_map_to_list). cbn in Heq. subst s'. pose proof (Hav _ _ Ht) as Ha.
  assert (store_GetID (v_heap (view c)) target = id) as -> by (by apply (view_store_id (view c)), Ha).
  unfold or_nil. pose proof (AllocPeer_view c id) as Hv. pose proof (AllocPeer_error c id) as He. pose proof (AllocPeer_peer c id) as Hpe.
  pose proof (used_mono c id) as Hm. pose proof (used_fresh c id) as Hu.
  destruct (AllocPeer id c) as [c1 [[msg|msg]|q]]; cbn [fst snd] in *; [by eexists c1, None|by destruct (He msg)|].
  eexists c1, (Some q). split_and!; [done..|]. intros ? [= <-]. destruct (Hpe q eq_refl) as [Hq _]. destruct (Hu q eq_refl) as [? ?].
  unfold fits. rewrite Hq. split_and!; [|by eexists|done|done]. right. exists source, target. split_and!; [done|apply Ha..|exact Hf].
Qed.

(** Until the choices are reset the stores left differ from those chosen; after that
    every peer of the region stays. *)
Definition scatter_inv selected avail (done targets : list Peer) : Prop :=
  (∀ id, is_Some (avail !! id) → id ∉ Peer_StoreId <$> targets) ∨ (∀ id, id ∈ selected → id ∈ Peer_StoreId <$> done).

(** The peers so far with their targets, on distinct stores. *)
Definition placed v region (done targets : list Peer) : Prop :=
  Forall2 (fits v region) done targets ∧ NoDup (Peer_StoreId <$> targets).

Lemma target_stores v region ps ts id : Forall2 (fits v region) ps ts → id ∈ Peer_StoreId <$> ts →
  id ∈ Peer_StoreId <$> ps ∨ (id ∉ stores region).
Proof.
  intros Hf (t & -> & [i Hi]%list_elem_of_lookup)%list_elem_of_fmap.
  destruct (Forall2_lookup_r _ _ _ _ _ Hf Hi) as (p & Hp%list_elem_of_lookup_2 & [->|(? & ? & _ & (_ & ? & _) & _)]); [left|by right].
  rewrite list_elem_of_fmap. by exists p.
Qed.

Lemma placed_stay v region ps ts p rest : NoDup (stores region) → GetPeers region = ps ++ p :: rest → placed v region ps ts →
  placed v region (ps ++ [p]) (ts ++ [p]).
Proof.
  intros Hnd Hpeers [Hf Hn]. split; [apply Forall2_app; [done|constructor; [by left|constructor]]|].
  rewrite fmap_app. apply NoDup_app. split_and!; [done| |apply NoDup_singleton]. intros id Hid Hp%list_elem_of_singleton. subst id.
  unfold stores in Hnd. rewrite Hpeers, fmap_app in Hnd. apply NoDup_app in Hnd as (_ & Hdis & _).
  destruct (target_stores _ _ _ _ _ Hf Hid) as [Hin|Hno]; [by apply (Hdis _ Hin); left|].
  apply Hno. unfold stores. rewrite Hpeers, list_elem_of_fmap. exists p. split; [done|]. apply elem_of_app. right. by left.
Qed.

Lemma placed_move v region ps ts p t : placed v region ps ts → fits v region p t → (Peer_StoreId t ∉ Peer_StoreId <$> ts) →
  placed v region (ps ++ [p]) (ts ++ [t]).
Proof.
  intros [Hf Hn] Hfit Hnew. split; [apply Forall2_app; [done|by constructor]|].
  rewrite fmap_app. apply NoDup_app. split_and!; [done| |apply NoDup_singleton]. by intros id Hid Ht%list_elem_of_singleton; subst id.
Qed.

(** The targets have distinct ids in use; those of new peers are not among the
    region's. *)
Definition ids_ok c region (ps ts : list Peer) : Prop :=
  NoDup (Peer_Id <$> ts) ∧ (∀ t, t ∈ ts → used c (Peer_Id t)) ∧ ∀ t, t ∈ ts → t ∈ ps ∨ (Peer_Id t ∉ Peer_Id <$> GetPeers region).

Lemma ids_stay c region ps ts p rest : NoDup (Peer_Id <$> GetPeers region) → GetPeers region = ps ++ p :: rest → used c (Peer_Id p) →
  ids_ok c region ps ts → ids_ok c region (ps ++ [p]) (ts ++ [p]).
Proof.
  intros Hnd Hpeers Hp (Hn & Hu & Hin). unfold ids_ok. setoid_rewrite elem_of_app. setoid_rewrite list_elem_of_singleton. split_and!.
  - rewrite fmap_app. apply NoDup_app. split_and!; [done| |apply NoDup_singleton]. intros id Hid Heq%list_elem_of_singleton. subst id.
    apply list_elem_of_fmap in Hid as (t & Heq & Ht). rewrite Hpeers, fmap_app in Hnd. apply NoDup_app in Hnd as (_ & Hdis & _).
    destruct (Hin t Ht) as [Hps|Hno].
    + apply (Hdis (Peer_Id p)); [rewrite list_elem_of_fmap; by exists t|by left].
    + apply Hno. rewrite <-Heq, Hpeers, list_elem_of_fmap. exists p. split; [done|]. apply elem_of_app. right. by left.
  - intros t [?| ->]; auto.
  - intros t [Ht| ->]; [|by auto]. destruct (Hin t Ht); auto.
Qed.

Lemma ids_move c c' region ps ts p t : (∀ id, used c id → used c' id) → ¬ used c (Peer_Id t) → used c' (Peer_Id t) →
  (∀ q, q ∈ GetPeers region → used c (Peer_Id q)) → ids_ok c region ps ts → ids_ok c' region (ps ++ [p]) (ts ++ [t]).
Proof.
  intros Hm Hno Hyes Hreg (Hn & Hu & Hin). unfold ids_ok. setoid_rewrite elem_of_app. setoid_rewrite list_elem_of_singleton. split_and!.
  - rewrite fmap_app. apply NoDup_app. split_and!; [done| |apply NoDup_singleton]. intros id Hid Heq%list_elem_of_singleton. subst id.
    apply list_elem_of_fmap in Hid as (x & Heq & Hx). apply Hno. rewrite Heq. by apply Hu.
  - intros x [?| ->]; auto.
  - intros x [Hx| ->]; [destruct (Hin x Hx); auto|]. right. intros (q & Heq & Hq)%list_elem_of_fmap. apply Hno. rewrite Heq. by apply Hreg.
Qed.

Lemma ids_mono c c' region ps ts : (∀ id, used c id → used c' id) → ids_ok c region ps ts → ids_ok c' region ps ts.
Proof. intros Hm (? & ? & ?). split_and!; auto. Qed.

Lemma scatter_peers_spec region : NoDup (stores region) → NoDup (Peer_Id <$> GetPeers region) →
  ∀ peers i c `{!ValidView (view c)} selected avail ps ts,
  (∀ p, p ∈ GetPeers region → is_Some (v_GetStore (view c) (Peer_StoreId p)) ∧ used c (Peer_Id p)) → GetPeers region = ps ++ peers →
  map_Forall (available (view c) region) avail → scatter_inv selected avail ps ts → placed (view c) region ps ts → ids_ok c region ps ts →
  ∃ sel' c' ts', scatter_peers now call range order draw i region peers avail ts ps (selected, c) = ((sel', c'), inr (ts', GetPeers region)) ∧
    view c' = view c ∧ placed (view c) region (GetPeers region) ts' ∧ NoDup (Peer_Id <$> ts').
Proof.
  intros Hnd Hndi. induction peers as [|p peers IH]; intros i c Hvv selected avail ps ts Hk Hpeers Hav Hinv Hpl Hids; cbn [scatter_peers].
  { rewrite app_nil_r in Hpeers. rewrite Hpeers. exists selected, c, ts. split_and!; [done..|apply Hids]. }
  assert (Hnext : GetPeers region = (ps ++ [p]) ++ peers) by by rewrite <-app_assoc.
  assert (Hp : p ∈ GetPeers region) by (rewrite Hpeers, elem_of_app; right; by left). destruct (Hk p Hp) as [Hsp Hup].
  assert (Hps : Peer_StoreId p ∉ Peer_StoreId <$> ps).
  { unfold stores in Hnd. rewrite Hpeers, fmap_app in Hnd. apply NoDup_app in Hnd as (_ & Hdis & _). intros Hin. apply (Hdis _ Hin). by left. }
  destruct (if decide (avail = ∅) then _ else _) as [sel av] eqn:Ereset.
  assert (map_Forall (available (view c) region) av ∧ scatter_inv sel av ps ts) as [Hav' Hinv'].
  { destruct (decide (avail = ∅)); simplify_eq; [|done]. split; [by apply (collect_spec c)|]. right. by intros id ?%not_elem_of_empty. }
  unfold put. destruct (decide (Peer_StoreId p ∈ sel)) as [Hsel|Hsel].
  - destruct Hinv' as [Hinv'|Hinv']; [|by destruct Hps; apply Hinv'].
    destruct (select_spec c i av region p Hsp Hp Hav') as (c' & r & -> & Hv & Hm & Hr). assert (ValidView (view c')) by by rewrite Hv.
    assert (Hk' : ∀ q, q ∈ GetPeers region → is_Some (v_GetStore (view c') (Peer_StoreId q)) ∧ used c' (Peer_Id q)).
    { intros q Hq. rewrite Hv. destruct (Hk q Hq). auto. }
    destruct r as [t|].
    + destruct (Hr t eq_refl) as (Hfit & Hin & Hno & Hyes). set (sel2 := (if decide (Peer_StoreId t ∈ sel) then _ else _).2).
      destruct (IH (S i) c' _ sel2 (delete (Peer_StoreId t) av) (ps ++ [p]) (ts ++ [t])) as (sel' & c2 & ts' & Hrun & Hv' & Hpl' & Hid').
      1: exact Hk'.
      1-5: rewrite ?Hv; try done.
      * by apply map_Forall_delete.
      * left. intros id [s Hs%lookup_delete_Some]. rewrite fmap_app, elem_of_app. intros [Hid| ->%list_elem_of_singleton]; [|tauto].
        apply (Hinv' id); [by eexists; apply Hs|done].
      * apply placed_move; [done..|]. by apply Hinv'.
      * apply ids_move with c; [done..| |done]. intros q Hq. by apply Hk.
      * exists sel', c2, ts'. split_and!; [exact Hrun|congruence|by rewrite Hv in Hpl'|done].
    + destruct (IH (S i) c' _ sel av (ps ++ [p]) (ts ++ [p])) as (sel' & c2 & ts' & Hrun & Hv' & Hpl' & Hid').
      1: exact Hk'.
      1-5: rewrite ?Hv; try done.
      * left. intros id Hid. rewrite fmap_app, elem_of_app. intros [?| ->%list_elem_of_singleton]; [by eapply Hinv'|].
        destruct Hid as [s Hs]. apply Hav' in Hs as (_ & Hno & _). apply Hno. unfold stores. rewrite list_elem_of_fmap. by exists p.
      * by eapply placed_stay.
      * eapply ids_mono; [exact Hm|]. by eapply ids_stay.
      * exists sel', c2, ts'. split_and!; [exact Hrun|congruence|by rewrite Hv in Hpl'|done].
  - destruct (IH (S i) c _ ({[Peer_StoreId p]} ∪ sel) (delete (Peer_StoreId p) av) (ps ++ [p]) (ts ++ [p])) as (sel' & c2 & ts' & Hrun & Hv' & Hpl' & Hid'); try done.
    + by apply map_Forall_delete.
    + destruct Hinv' as [Hinv'|Hinv'].
      * left. intros id [s Hs%lookup_delete_Some]. rewrite fmap_app, elem_of_app. intros [Hid| ->%list_elem_of_singleton]; [|tauto].
        apply (Hinv' id); [by eexists; apply Hs|done].
      * right. intros id. rewrite elem_of_union, elem_of_singleton, fmap_app, elem_of_app. intros [->|?]; [right; by left|left; auto].
    + by eapply placed_stay.
    + by eapply ids_stay.
    + by exists sel', c2, ts'.
Qed.

(** The region must not be scattered: it is hot, has another number of replicas
    than configured, or no leader. *)
Definition scatter_refused v region : Prop :=
  v_IsRegionHot v (GetID region) = true ∨ Z.of_nat (length (GetPeers region)) ≠ opt_MaxReplicas (v_opt v) ∨ GetLeader region = None.

(** The stores of the region are known, its peers are voters on distinct stores with
    distinct ids, allocated before, and one of them leads. *)
Definition scatterable c region : Prop :=
  plain_region region ∧ NoDup (Peer_Id <$> GetPeers region) ∧
  ∀ p, p ∈ GetPeers region → is_Some (v_GetStore (view c) (Peer_StoreId p)) ∧ used c (Peer_Id p).

(** The operator takes the peers of the region to those of [ts], and [leader] leads. *)
Definition scatters v region (ts : list Peer) (leader : Peer) (r : option Operator) : Prop :=
  Forall2 (fits v region) (GetPeers region) ts ∧ NoDup (Peer_StoreId <$> ts) ∧ leader ∈ ts ∧
  (r = None → Peer_StoreId leader = Peer_GetStoreId (GetLeader region) ∧ ∀ t, t ∈ ts → Peer_StoreId t ∈ stores region) ∧
  ∀ op, r = Some op → op_regionID op = GetID region ∧ op_regionEpoch op = GetRegionEpoch region ∧
    exec_safe (length (stores region)) (op_steps op) (voters_of region)
      (mkPlacement (list_to_set (Peer_StoreId <$> ts)) ∅ (Peer_StoreId leader)).

Lemma Scatter_refused c selected region : scatter_refused (view c) region →
  ∃ msg, Scatter now call range order draw region (selected, c) = ((selected, c), inl (Error msg)).
Proof.
  intros Hor. unfold Scatter. cbn zeta. destruct (v_IsRegionHot _ _) eqn:Ehot; [by eexists|]. destruct Hor as [?|Hor]; [congruence|].
  destruct (Z.eqb_spec (Z.of_nat (length (GetPeers region))) (opt_MaxReplicas (v_opt (view c)))); cbn [negb]; [|by eexists].
  destruct Hor as [?|Hl]; [done|]. rewrite bool_decide_eq_true_2 by done. by eexists.
Qed.

Lemma Scatter_scatters c `{!ValidView (view c)} selected region : ¬ scatter_refused (view c) region → scatterable c region →
  ∃ selected' c' ts leader r, Scatter now call range order draw region (selected, c) = ((selected', c'), inr r) ∧
    view c' = view c ∧ scatters (view c) region ts leader r.
Proof.
  intros Hok (Hpr & Hndi & Hk). unfold scatter_refused in Hok. unfold Scatter. cbn zeta. destruct (v_IsRegionHot _ _) eqn:Ehot; [destruct Hok; by left|].
  destruct (Z.eqb_spec (Z.of_nat (length (GetPeers region))) (opt_MaxReplicas (v_opt (view c)))) as [_|Hmax]; cbn [negb];
    [|destruct Hok; right; by left].
  destruct (pr_leader _ Hpr) as (l & Hl & Hlin). rewrite bool_decide_eq_false_2 by by rewrite Hl. unfold scatterRegion.
  destruct (scatter_peers_spec region (pr_nodup _ Hpr) Hndi (GetPeers region) 1 c selected (collectAvailableStores now call range 0 region selected c) [] [])
    as (sel' & c' & ts & -> & Hv & [Hf Hnd] & Hids); [done|done|by apply (collect_spec c)|left; intros id _ []%not_elem_of_nil|by split; [|constructor]| |].
  { split_and!; [constructor|..]; by intros t ?%not_elem_of_nil. }
  cbn [snd]. assert (Hlen : length ts = length (GetPeers region)) by by rewrite (Forall2_length _ _ _ Hf).
  assert (0 < length ts)%nat by (rewrite Hlen; destruct (GetPeers region); [by apply not_elem_of_nil in Hlin|cbn; lia]).
  destruct (lookup_lt_is_Some_2 ts (draw 0 mod length ts)) as [t Ht]; [apply Nat.mod_upper_bound; lia|].
  assert (Hf' : Forall2 (λ p t, t = p ∨ (Peer_StoreId t ∉ stores region)) (GetPeers region) ts).
  { eapply Forall2_impl; [exact Hf|]. intros p q [->|(? & ? & _ & (_ & ? & _) & _)]; auto. }
  destruct (scatter_operator c' "scatter-region" now region ts Hpr Hf' Hnd Hids _ t Ht) as (r & -> & Hnone & Hsome).
  eexists sel', c', ts, t, _. split_and!; [done..|]. split_and!; [done..|by eapply list_elem_of_lookup_2| |].
  - intros Hr. apply Hnone. by destruct r.
  - intros op Hop. destruct r as [o|]; [|done]. injection Hop as <-. exact (Hsome o eq_refl).
Qed.

(** C26: Scattering.  A hot region, one with another number of replicas than
    configured and one without leader are refused, and nothing changes.  Every
    other region is scattered, if its stores are known, its peers are voters on
    distinct stores with distinct ids, its leader is one of them and allocated ids
    are new: the call returns, having allocated at most ids, and there are distinct
    stores, one for each peer: that of the peer, or one in the namespace of the
    region that may take the peer, has none of the region and is not worse located.
    The operator takes the peers to these stores, never leaving fewer voters than
    there were nor removing the leader; there is no operator only if nothing moves. *)
Theorem scatter_correct c `{!ValidView (view c)} selected region :
  let result := Scatter now call range order draw region (selected, c) in
  (scatter_refused (view c) region → ∃ msg, result = ((selected, c), inl (Error msg))) ∧
  (¬ scatter_refused (view c) region → scatterable c region →
   ∃ selected' c' ts leader r, result = ((selected', c'), inr r) ∧ view c' = view c ∧ scatters (view c) region ts leader r).
Proof. split; [apply Scatter_refused|apply Scatter_scatters; done]. Qed.
End scatterer.
