(* ===== verification/Adjacent.v ===== *)
(** * Dispersing adjacent regions (server/schedulers/adjacent_region.go)

    The scheduler scans the regions in key order, looks for a run of adjacent
    regions led by one store, and moves the leaders of the run apart. *)

From S2P Require Import Prelude GoBytes BTree Strconv Strings Float KV Metapb Region RegionTree RegionMap RegionsInfo Cache Storage Store Statistics Config Operator Schedule Structure Checkers Plugin Schedulers.

Definition scanLimit : Z := 1000.
Definition defaultAdjacentPeerLimit : Z := 1.
Definition defaultAdjacentLeaderLimit : Z := 64.
Definition maxAdjacentSchedulerInterval : Z := 30 * Second.

(** The regions of the cached run not dispersed yet start at [a_head]. *)
Record adjacentState := mkAdjacentState {
  assignedStoreIds : list Z;
  a_regions : list RegionInfo;
  a_head : nat;
}.

Definition a_clear : adjacentState := mkAdjacentState [] [] 0.
Definition a_len (a : adjacentState) : Z := Z.of_nat (length (a_regions a)) - Z.of_nat (a_head a).

(** [cacheRegions] is nil before the first call, which then makes an empty one. *)
Record adjacentScheduler := mkAdjacentScheduler {
  a_leaderLimit : Z;
  a_peerLimit : Z;
  a_lastKey : bytes;
  cacheRegions : adjacentState;
  adjacentRegionsCount : Z;
}.

Definition newBalanceAdjacentRegionScheduler (args : list Z) : adjacentScheduler :=
  match args with
  | [l] => mkAdjacentScheduler l defaultAdjacentPeerLimit [] a_clear 0
  | [l; p] => mkAdjacentScheduler l p [] a_clear 0
  | _ => mkAdjacentScheduler defaultAdjacentLeaderLimit defaultAdjacentPeerLimit [] a_clear 0
  end.

Definition adjacent_GetNextInterval (interval : Z) : Z := intervalGrow interval maxAdjacentSchedulerInterval linearGrowth.

Definition set_cache (a : adjacentState) (s : adjacentScheduler) : adjacentScheduler :=
  mkAdjacentScheduler (a_leaderLimit s) (a_peerLimit s) (a_lastKey s) a (adjacentRegionsCount s).
Definition set_lastKey (k : bytes) (s : adjacentScheduler) : adjacentScheduler :=
  mkAdjacentScheduler (a_leaderLimit s) (a_peerLimit s) k (cacheRegions s) (adjacentRegionsCount s).
Definition set_count (n : Z) (s : adjacentScheduler) : adjacentScheduler :=
  mkAdjacentScheduler (a_leaderLimit s) (a_peerLimit s) (a_lastKey s) (cacheRegions s) n.

(** The regions are adjacent and led by one store. *)
Definition adjacent (r1 r2 : RegionInfo) : bool :=
  (Peer_GetStoreId (GetLeader r1) =? Peer_GetStoreId (GetLeader r2)) && bool_decide (GetEndKey r1 = GetStartKey r2).

(** The loop over [regions[1:]]: the current run, the longest one and its length.
    The run is not empty, [lastRegion] is its last region. *)
Fixpoint adjacent_runs (regions : list RegionInfo) (run longest : list RegionInfo) (maxLen : nat) : list RegionInfo * nat :=
  match regions with
  | [] => (longest, maxLen)
  | r :: rest =>
      let grow := match last run with Some lastRegion => adjacent lastRegion r | None => false end in
      let run := if grow then run ++ [r] else run in
      if grow && negb (length rest =? 0)%nat then adjacent_runs rest run longest maxLen
      else if (length run =? 1)%nat then adjacent_runs rest [r] longest maxLen
      else if (maxLen <? length run)%nat then adjacent_runs rest [r] run (length run)
      else adjacent_runs rest run longest maxLen
  end.

Section schedule.
Context `{!Unicode} `{!Classifier}.
Context {C : Type} `{!Cluster C, !ScheduleCluster C}.
Implicit Types (c : C) (s : adjacentScheduler) (region : RegionInfo).

(** As for the other schedulers; [perm] is the order of an iteration over followers. *)
Variable now : Z.
Variable call : nat → bool.
Variable range : nat → list StoreInfo → list StoreInfo.
Variable followerIDs : RegionInfo → list Z.
Variable perm : list Peer → list Peer.
Variable draw : nat → Z.
Variable count : Z → Z.

Definition adjacent_filters : list Filter := [StoreStateFilter true true].

Definition adjacent_allowBalanceLeader s : bool := count (Z.lor OpAdjacent OpLeader) <? a_leaderLimit s.
Definition allowBalancePeer s : bool := count (Z.lor OpAdjacent OpRegion) <? a_peerLimit s.
Definition adjacent_IsScheduleAllowed s : bool := adjacent_allowBalanceLeader s || allowBalancePeer s.

Definition unsafeToBalance c region : bool :=
  let v := view c in
  if negb (Z.of_nat (length (GetPeers region)) =? opt_MaxReplicas (v_opt v)) then true
  else
    match v_GetStore v (Peer_GetStoreId (GetLeader region)) with
    | None => true
    | Some store =>
        match Random_SelectSource (v_heap v) now call (draw 0) adjacent_filters (v_opt v) [store] with
        | None => true
        | Some _ => v_IsRegionHot v (GetID region)
        end
    end.

Definition disperseLeader s c (before after : RegionInfo) : option Operator :=
  let v := view c in
  if negb (adjacent_allowBalanceLeader s) then None
  else
    let diffPeers := perm (GetDiffFollowers before after) in
    if (length diffPeers =? 0)%nat then None
    else
      let storesInfo := omap (λ p, v_GetStore v (Peer_StoreId p)) diffPeers in
      match Random_SelectTarget (v_heap v) now call (draw 1) adjacent_filters (v_opt v) storesInfo [] with
      | None => None
      | Some target =>
          Some (SetPriorityLevel LowPriority (CreateTransferLeaderOperator "balance-adjacent-leader" before
            (Peer_GetStoreId (GetLeader before)) (store_GetID (v_heap v) target) OpAdjacent now))
      end.

Definition assign (id : Z) s : adjacentScheduler :=
  let a := cacheRegions s in set_cache (mkAdjacentState (assignedStoreIds a ++ [id]) (a_regions a) (a_head a)) s.

Definition dispersePeer region : M (adjacentScheduler * C) (option Operator) := λ '(s, c),
  let v := view c in
  if negb (allowBalancePeer s) then ((s, c), inr None)
  else
    let leaderStoreID := Peer_GetStoreId (GetLeader region) in
    match v_GetStore v leaderStoreID with
    | None => ((s, c), inr None)
    | Some source =>
        match NewDistinctScoreFilter (v_heap v) (opt_LocationLabels (v_opt v)) (v_GetRegionStores v region) source with
        | inl err => ((s, c), inl err)
        | inr scoreGuard =>
            let excludeStores := GetStoreIds region ∪ list_to_set (assignedStoreIds (cacheRegions s)) in
            match Random_SelectTarget (v_heap v) now call (draw 2) adjacent_filters (v_opt v) (cl_GetStores range c 0)
                    [excludedFilter ∅ excludeStores; scoreGuard] with
            | None => ((s, c), inr None)
            | Some target =>
                match or_nil (AllocPeer (store_GetID (v_heap v) target)) c with
                | (c, inl err) => ((s, c), inl err)
                | (c, inr None) => ((s, c), inr None)
                | (c, inr (Some newPeer)) =>
                    match CreateMovePeerOperator "balance-adjacent-peer" c region OpAdjacent leaderStoreID (Peer_StoreId newPeer)
                            (Peer_Id newPeer) (followerIDs region) now with
                    | inl (Error _) => ((assign (Peer_StoreId newPeer) s, c), inr None)
                    | inl err => ((assign (Peer_StoreId newPeer) s, c), inl err)
                    | inr op => ((assign (Peer_StoreId newPeer) s, c), inr (Some (SetPriorityLevel LowPriority op)))
                    end
                end
            end
        end
    end.

(** The deferred step to the next region of the run. *)
Definition advance (head : nat) (r2 : RegionInfo) s : adjacentScheduler :=
  let a := cacheRegions s in set_lastKey (GetStartKey r2) (set_cache (mkAdjacentState (assignedStoreIds a) (a_regions a) (S head)) s).

Definition forget_assigned s : adjacentScheduler :=
  let a := cacheRegions s in set_cache (mkAdjacentState [] (a_regions a) (a_head a)) s.

Definition process : M (adjacentScheduler * C) (option Operator) := λ '(s, c),
  if a_len (cacheRegions s) <? 2 then ((s, c), inr None)
  else
    let head := a_head (cacheRegions s) in
    match a_regions (cacheRegions s) !! head, a_regions (cacheRegions s) !! S head with
    | Some r1, Some r2 =>
        if bool_decide (GetLeader r1 = None) || bool_decide (GetLeader r2 = None) || unsafeToBalance c r1
        then ((advance head r2 s, c), inr None)
        else
          match disperseLeader s c r1 r2 with
          | Some op => ((advance head r2 s, c), inr (Some op))
          | None =>
              match dispersePeer r1 (s, c) with
              | ((s, c), inl err) => ((advance head r2 s, c), inl err)
              | ((s, c), inr (Some op)) => ((advance head r2 s, c), inr (Some op))
              | ((s, c), inr None) => ((advance head r2 (forget_assigned s), c), inr None)
              end
          end
    | _, _ => ((s, c), inl (Panic "index out of range"))
    end.

(** The regions of the scan; nil is dereferenced when it is reached. *)
Definition adjacent_Schedule : M (adjacentScheduler * C) (option Operator) := λ '(s, c),
  if 2 <=? a_len (cacheRegions s) then process (s, c)
  else
    let s := set_cache a_clear s in
    match v_ScanRegions (view c) (a_lastKey s) scanLimit with
    | None => ((s, c), inl (Panic "makeslice: cap out of range"))
    | Some regions =>
        if (length regions <=? 1)%nat then ((set_lastKey [] (set_count 0 s), c), inr None)
        else
          match mapM id regions with
          | Some (r0 :: rest) =>
              let '(longest, maxLen) := adjacent_runs rest [r0] [] 0 in
              let s := set_cache (mkAdjacentState [] longest 0) (set_lastKey (from_option GetStartKey (a_lastKey s) (last rest)) s) in
              process (set_count (adjacentRegionsCount s + Z.of_nat maxLen) s, c)
          | _ => ((s, c), inl nil_region)
          end
    end.
End schedule.
