(* ===== verification/AdjacentProps.v ===== *)
(** * Adjacent regions are moved apart

    The cached run is a chain of adjacent regions led by one store, and an operator
    of the scheduler takes the leader of a region to a store where the next region
    has no peer that could lead, or the leader's peer to a store the run has not
    used. *)

From S2P Require Import Prelude GoBytes BTree Strconv Strings Float KV Metapb Region RegionTree RegionMap RegionsInfo Cache Storage Store Statistics Config Operator OperatorProps Schedule ScheduleProps Structure Checkers CheckersProps Plugin Schedulers SchedulersProps Adjacent.

(** ** Runs *)

(** The second region follows the first and is led by the same store. *)
Definition next_to (r1 r2 : RegionInfo) : Prop :=
  Peer_GetStoreId (GetLeader r1) = Peer_GetStoreId (GetLeader r2) ∧ GetEndKey r1 = GetStartKey r2.

Lemma adjacent_spec r1 r2 : adjacent r1 r2 = true ↔ next_to r1 r2.
Proof. unfold adjacent. by rewrite andb_true_iff, Z.eqb_eq, bool_decide_eq_true. Qed.

(** Each region is next to the one before. *)
Definition chain (l : list RegionInfo) : Prop := ∀ i r1 r2, l !! i = Some r1 → l !! S i = Some r2 → next_to r1 r2.

Lemma chain_short l : (length l ≤ 1)%nat → chain l.
Proof. intros Hl i r1 r2 _ H2%lookup_lt_Some. lia. Qed.

Lemma chain_snoc l x r : chain l → last l = Some x → next_to x r → chain (l ++ [r]).
Proof.
  intros Hl Hlast Hadj i r1 r2 H1 H2. pose proof (lookup_lt_Some _ _ _ H2) as Hlt. rewrite length_app in Hlt. cbn in Hlt.
  rewrite last_lookup in Hlast. destruct (decide (S i < length l)%nat) as [Hi|Hi].
  - rewrite lookup_app_l in H1, H2 by lia. by eapply Hl.
  - assert (i = pred (length l)) as -> by lia. assert (0 < length l)%nat by lia.
    rewrite lookup_app_l in H1 by lia. rewrite lookup_app_r in H2 by lia.
    replace (S (pred (length l)) - length l)%nat with 0%nat in H2 by lia. cbn in H2. congruence.
Qed.

(** The longest run found is a chain of scanned regions, of the length counted. *)
Lemma adjacent_runs_spec regions : ∀ run longest n, chain run → chain longest → length longest = n →
  let '(longest', n') := adjacent_runs regions run longest n in
  chain longest' ∧ length longest' = n' ∧ (n ≤ n')%nat ∧ ∀ r, r ∈ longest' → r ∈ longest ∨ r ∈ run ∨ r ∈ regions.
Proof.
  induction regions as [|r rest IH]; intros run longest n Hrun Hlong Hlen; cbn [adjacent_runs]; [by split_and!; auto|].
  set (grow := match last run with Some x => adjacent x r | None => false end). set (run' := if grow then run ++ [r] else run).
  assert (Hrun' : chain run' ∧ ∀ x, x ∈ run' → x ∈ run ∨ x = r).
  { unfold run', grow. destruct (last run) as [x|] eqn:El; [|by auto]. destruct (adjacent x r) eqn:Ea; [|by auto].
    split; [by eapply chain_snoc, adjacent_spec|]. intros y. rewrite elem_of_app, list_elem_of_singleton. done. }
  destruct Hrun' as [Hrun' Hin].
  assert (Hgo : ∀ run2 longest2 n2, chain run2 → chain longest2 → length longest2 = n2 → (n ≤ n2)%nat →
    (∀ x, x ∈ run2 → x ∈ run ∨ x = r) → (∀ x, x ∈ longest2 → x ∈ longest ∨ x ∈ run ∨ x = r) →
    let '(longest', n') := adjacent_runs rest run2 longest2 n2 in
    chain longest' ∧ length longest' = n' ∧ (n ≤ n')%nat ∧ ∀ x, x ∈ longest' → x ∈ longest ∨ x ∈ run ∨ x ∈ r :: rest).
  { intros run2 longest2 n2 Hr2 Hl2 Hlen2 Hn2 Hin2 Hinl. pose proof (IH run2 longest2 n2 Hr2 Hl2 Hlen2) as Hres.
    destruct (adjacent_runs rest run2 longest2 n2) as [longest' n']. destruct Hres as (? & ? & ? & Hx).
    split_and!; [done|done|lia|]. intros x Hx'. rewrite elem_of_cons. destruct (Hx x Hx') as [Ha|[Ha|Ha]]; [|specialize (Hin2 x Ha); tauto|tauto].
    specialize (Hinl x Ha). tauto. }
  assert (Hone : ∀ x, x ∈ [r] → x ∈ run ∨ x = r) by (intros x ->%list_elem_of_singleton; by right).
  assert (Hkeep : ∀ x, x ∈ longest → x ∈ longest ∨ x ∈ run ∨ x = r) by auto.
  destruct (grow && _); [by apply Hgo|]. destruct (_ =? 1)%nat; [by apply Hgo; [apply chain_short|..]|].
  destruct (Nat.ltb_spec n (length run')); [|by apply Hgo].
  apply Hgo; [by apply chain_short|done|done|lia|done|]. intros x Hx. destruct (Hin x Hx); auto.
Qed.

(** ** Operators *)

Section operators.
Context `{!Unicode} `{!Classifier}.
Context {C : Type} `{!Cluster C, !ScheduleCluster C, !ScheduleClusterLaws C}.
Variables (now : Z) (call : nat → bool).
Variable range : nat → list StoreInfo → list StoreInfo.
Variable followerIDs : RegionInfo → list Z.
Variable perm : list Peer → list Peer.
Variable draw : nat → Z.
Variable count : Z → Z.
Hypothesis Hrange : ∀ i l, range i l ≡ₚ l.
Hypothesis Hfollow : ∀ region, is_FollowerIDs region (followerIDs region).
Hypothesis Hperm : ∀ l, perm l ≡ₚ l.
Implicit Types (c : C) (v : View) (region : RegionInfo) (s : adjacentScheduler).

(** Leaders are peers. *)
Definition led_by_peer region : Prop := ∀ l, GetLeader region = Some l → l ∈ GetPeers region.

(** A scan succeeds, and returns such regions. *)
Definition scans_ok v : Prop := ∀ key n, ∃ l, v_ScanRegions v key n = Some (Some <$> l) ∧ Forall led_by_peer l.

(** The store may lead and take peers. *)
Definition may_take v (id : Z) : Prop :=
  ∃ st : StoreInfo, v_GetStore v id = Some st ∧ leader_target now v st ∧ peer_target now call v st.

Lemma may_take_spec v (st : StoreInfo) : state_FilterTarget (v_heap v) now call true true (v_opt v) st = false →
  leader_target now v st ∧ peer_target now call v st.
Proof. rewrite state_target_spec. unfold leader_target, peer_target. clear. tauto. Qed.

(** The region has the wanted number of peers, is not hot, and its leader may leave. *)
Definition may_leave v region : Prop :=
  Z.of_nat (length (GetPeers region)) = opt_MaxReplicas (v_opt v) ∧ v_IsRegionHot v (GetID region) = false ∧
  ∃ st : StoreInfo, v_GetStore v (Peer_GetStoreId (GetLeader region)) = Some st ∧ leader_source now v st ∧ has_room call v st.

Lemma unsafe_spec c region : unsafeToBalance now call draw c region = false → may_leave (view c) region.
Proof.
  unfold unsafeToBalance. cbn zeta. destruct (Z.eqb_spec (Z.of_nat (length (GetPeers region))) (opt_MaxReplicas (v_opt (view c)))) as [Hn|]; cbn [negb]; [|done].
  destruct (v_GetStore _ _) as [st|] eqn:Es; [|done]. destruct (Random_SelectSource _ _ _ _ _ _ _) as [st'|] eqn:Er; [|done]. intros Hhot.
  apply random_source_elem in Er as [->%list_elem_of_singleton Hf]. split_and!; [done..|]. exists st. split; [done|].
  cbn in Hf. rewrite orb_false_r, (state_source_spec now call) in Hf. unfold leader_source. tauto.
Qed.

Lemma followers_fold region id l (acc : gmap Z Peer) :
  let f := foldl (λ followers peer, if is_follower region peer then <[Peer_StoreId peer := peer]> followers else followers) acc l in
  (∀ p, f !! id = Some p → acc !! id = Some p ∨ p ∈ l ∧ Peer_StoreId p = id ∧ is_follower region p = true) ∧
  (is_Some (acc !! id) ∨ (∃ p, p ∈ l ∧ Peer_StoreId p = id ∧ is_follower region p = true) → is_Some (f !! id)).
Proof.
  cbn zeta. revert acc. induction l as [|x l IH]; intros acc; cbn [foldl].
  { split; [by left|]. intros [?|(? & ?%not_elem_of_nil & _)]; done. }
  destruct (IH (if is_follower region x then <[Peer_StoreId x := x]> acc else acc)) as [IH1 IH2]. setoid_rewrite elem_of_cons. split.
  - intros p Hp. destruct (IH1 p Hp) as [Ha|(? & ? & ?)]; [|by auto]. destruct (is_follower region x) eqn:Ef; [|by auto].
    apply lookup_insert_Some in Ha as [[<- <-]|[_ ?]]; auto.
  - intros Hin. apply IH2. destruct Hin as [[y Hy]|(p & [->|Hp] & Hid & Hf)]; [left|left|right; eauto].
    + destruct (is_follower region x); [|by eexists]. destruct (decide (Peer_StoreId x = id)) as [<-|?]; [rewrite lookup_insert_eq|rewrite lookup_insert_ne by done]; by eexists.
    + rewrite Hf, <-Hid, lookup_insert_eq. by eexists.
Qed.

Lemma followers_spec region id : (∀ p, GetFollowers region !! id = Some p → Peer_StoreId p = id) ∧
  (is_Some (GetFollowers region !! id) ↔ follower_on region id).
Proof.
  destruct (followers_fold region id (GetVoters region) ∅) as [H1' H2']. fold (GetFollowers region) in H1', H2'. split.
  - intros p Hp. destruct (H1' p Hp) as [He|(_ & ? & _)]; [by rewrite lookup_empty in He|done].
  - split; [|intros Hf; apply H2'; right; exact Hf]. intros [p Hp]. destruct (H1' p Hp) as [He|?]; [by rewrite lookup_empty in He|by exists p].
Qed.

Lemma diff_followers_spec before after p : p ∈ GetDiffFollowers before after →
  follower_on before (Peer_StoreId p) ∧ ¬ follower_on after (Peer_StoreId p).
Proof.
  unfold GetDiffFollowers. set (f := λ (res : list Peer) (p : Peer), _).
  assert (Hgo : ∀ l acc, p ∈ foldl f acc l → p ∈ acc ∨ p ∈ l ∧ existsb (λ o, Peer_StoreId p =? Peer_StoreId o) (map_to_list (GetFollowers after)).*2 = false).
  { induction l as [|x l IH]; intros acc Hp; cbn [foldl] in Hp; [by left|]. rewrite elem_of_cons. destruct (IH _ Hp) as [Ha|[? ?]]; [|by auto].
    unfold f in Ha. cbn beta zeta in Ha. destruct (existsb (λ o, Peer_StoreId x =? Peer_StoreId o) _) eqn:E; cbn [negb] in Ha; [by left|].
    apply elem_of_app in Ha as [?| ->%list_elem_of_singleton]; auto. }
  intros Hp. destruct (Hgo _ _ Hp) as [?%not_elem_of_nil|[Hin Hno]]; [done|].
  apply list_elem_of_fmap in Hin as ([id q] & -> & Hq%elem_of_map_to_list). cbn [snd] in *.
  rewrite (proj1 (followers_spec before id) q Hq) in *. split; [apply followers_spec; by eexists|].
  intros [o Ho]%followers_spec. assert (existsb (λ o, id =? Peer_StoreId o) (map_to_list (GetFollowers after)).*2 = true); [|congruence].
  apply existsb_exists. exists o. split; [|by rewrite (proj1 (followers_spec after id) o Ho), Z.eqb_refl].
  apply list_elem_of_In, list_elem_of_fmap. exists (id, o). split; [done|by apply elem_of_map_to_list].
Qed.

Lemma disperseLeader_spec s c `{!ValidView (view c)} before after op : disperseLeader now call perm draw count s c before after = Some op →
  ∃ to, hands_over before to op ∧ ¬ follower_on after to ∧ may_take (view c) to.
Proof.
  unfold disperseLeader. cbn zeta. destruct (negb _); [done|]. destruct (_ =? 0)%nat; [done|].
  destruct (Random_SelectTarget _ _ _ _ _ _ _ _) as [target|] eqn:Et; [|done]. intros [= <-].
  apply random_target_elem in Et as [Ht Hf]. apply list_elem_of_omap in Ht as (p & Hp & Hs). rewrite Hperm in Hp.
  apply diff_followers_spec in Hp as [Hb Ha]. exists (Peer_StoreId p).
  rewrite (view_store_id (view c) _ _ Hs). split_and!; [|done|].
  - apply (transfer_op_hands before _ (Peer_StoreId p)). exact Hb.
  - exists target. split; [done|]. apply may_take_spec. cbn in Hf. by rewrite orb_false_r in Hf.
Qed.

(** The leader's peer moves to a store that was not used for the run [a], and is now. *)
Definition disperses_peer (a a' : adjacentState) c region op : Prop :=
  let v := view c in
  let old := Peer_GetStoreId (GetLeader region) in
  ∃ new source target, v_GetStore v old = Some source ∧ v_GetStore v new = Some target ∧ may_take v new ∧ (new ∉ stores region) ∧
    (new ∉ assignedStoreIds a) ∧ assignedStoreIds a' = assignedStoreIds a ++ [new] ∧
    keeps_location v region source target ∧ moves c region old new op.

Lemma dispersePeer_spec s c `{!ValidView (view c)} region : is_Some (GetLeader region) → led_by_peer region →
  ∃ s' c' r, dispersePeer now call range followerIDs draw count region (s, c) = ((s', c'), inr r) ∧ view c' = view c ∧
    a_regions (cacheRegions s') = a_regions (cacheRegions s) ∧
    ∀ op, r = Some op → disperses_peer (cacheRegions s) (cacheRegions s') c region op.
Proof.
  intros [l Hl] Hled. specialize (Hled l Hl). unfold dispersePeer. cbn zeta. destruct (negb _); [by eexists s, c, None|].
  rewrite Hl. change (Peer_GetStoreId (Some l)) with (Peer_StoreId l).
  destruct (v_GetStore (view c) (Peer_StoreId l)) as [source|] eqn:Es; [|by eexists s, c, None].
  assert (Hin : source ∈ v_GetRegionStores (view c) region).
  { apply elem_of_region_stores. exists l. split; [done|]. by eapply lookup_weaken, view_peer_stores. }
  unfold NewDistinctScoreFilter. destruct (Nat.eqb_spec (length (v_GetRegionStores (view c) region)) 0) as [Hlen|_].
  { apply nil_length_inv in Hlen. rewrite Hlen in Hin. by apply not_elem_of_nil in Hin. }
  destruct (Random_SelectTarget _ _ _ _ _ _ _ _) as [target|] eqn:Et; [|by eexists s, c, None].
  apply random_target_elem in Et as [Ht Hf]. rewrite FilterTarget_app, orb_false_iff in Hf. cbn in Hf.
  rewrite !orb_false_r, orb_false_iff, bool_decide_eq_false in Hf. destruct Hf as [[Hex Hloc] Hst].
  rewrite elem_of_union, elem_of_store_ids, elem_of_list_to_set in Hex. apply (elem_of_cl_stores range Hrange c) in Ht.
  set (id := store_GetID _ _) in *. assert (Hnew : id ∉ stores region) by tauto.
  assert (Hold : Peer_StoreId l ∈ stores region) by (unfold stores; rewrite list_elem_of_fmap; by exists l).
  unfold or_nil. pose proof (AllocPeer_view c id) as Hv. pose proof (AllocPeer_error c id) as He. pose proof (AllocPeer_peer c id) as Hpe.
  destruct (AllocPeer id c) as [c1 [[msg|msg]|q]]; cbn [fst snd] in *; [by eexists s, c1, None|by destruct (He msg)|].
  destruct (Hpe q eq_refl) as [-> _].
  destruct (create_move_moves now followerIDs Hfollow c c1 "balance-adjacent-peer" region OpAdjacent _ _ (Peer_Id q) Hold Hnew) as [[msg ->]|(op & -> & Hop)].
  - by eexists _, c1, None.
  - eexists _, c1, (Some _). split_and!; [done..|]. intros ? [= <-]. unfold disperses_peer. cbn zeta. rewrite Hl.
    exists id, source, target. split_and!; [done|done| |done|tauto|done|done|done].
    exists target. split; [done|]. by apply may_take_spec.
Qed.

(** What the scheduler proposes for the next two regions of the run [a]. *)
Definition disperses (a a' : adjacentState) c op : Prop :=
  ∃ r1 r2, a_regions a !! a_head a = Some r1 ∧ a_regions a !! S (a_head a) = Some r2 ∧ next_to r1 r2 ∧ may_leave (view c) r1 ∧
  ((∃ to, hands_over r1 to op ∧ ¬ follower_on r2 to ∧ may_take (view c) to ∧ assignedStoreIds a' = assignedStoreIds a) ∨
   disperses_peer a a' c r1 op).

(** A step through the run. *)
Definition works_on (a a' : adjacentState) c (r : option Operator) : Prop :=
  a_regions a' = a_regions a ∧ (2 ≤ a_len a → a_head a' = S (a_head a)) ∧ ∀ op, r = Some op → disperses a a' c op.

Lemma process_spec s c `{!ValidView (view c)} : chain (a_regions (cacheRegions s)) → Forall led_by_peer (a_regions (cacheRegions s)) →
  ∃ s' c' r, process now call range followerIDs perm draw count (s, c) = ((s', c'), inr r) ∧ view c' = view c ∧
    works_on (cacheRegions s) (cacheRegions s') c r.
Proof.
  intros Hch Hled. unfold process, works_on. destruct (Z.ltb_spec (a_len (cacheRegions s)) 2) as [|Hlen]; [eexists s, c, None; split_and!; done || lia|].
  pose proof Hlen as Hlen'. unfold a_len in Hlen'. set (head := a_head (cacheRegions s)) in *. cbn zeta.
  destruct (lookup_lt_is_Some_2 (a_regions (cacheRegions s)) head ltac:(lia)) as [r1 E1].
  destruct (lookup_lt_is_Some_2 (a_regions (cacheRegions s)) (S head) ltac:(lia)) as [r2 E2]. rewrite E1, E2.
  destruct (_ || _) eqn:Eskip; [by eexists _, c, None|]. rewrite !orb_false_iff, !bool_decide_eq_false in Eskip. destruct Eskip as [[Hl1 Hl2] Hsafe%unsafe_spec].
  assert (Hadj : next_to r1 r2) by by eapply Hch.
  destruct (disperseLeader _ _ _ _ _ _ _ _ _) as [op|] eqn:Eop.
  { eexists _, c, (Some op). split_and!; [reflexivity|done..|]. intros ? [= <-]. exists r1, r2. split_and!; [done..|]. left.
    apply (disperseLeader_spec s c) in Eop as (to & ? & ? & ?). by exists to. }
  assert (Hlp : led_by_peer r1) by (rewrite list.Forall_forall in Hled; by eapply Hled, list_elem_of_lookup_2).
  destruct (dispersePeer_spec s c r1) as (s' & c' & r & -> & Hv & Hreg & Hop); [by destruct (GetLeader r1)|done|].
  destruct r as [op|]; (eexists _, c', _; split_and!; [reflexivity|done|done|done|]); [|done].
  intros ? [= <-]. exists r1, r2. split_and!; [done..|]. right. exact (Hop op eq_refl).
Qed.

(** The run that a call works on: the cached one, if two of its regions are left, else
    a run of regions just scanned, for which no store has been used. *)
Definition run_for s c (a : adjacentState) : Prop :=
  if 2 <=? a_len (cacheRegions s) then a = cacheRegions s
  else assignedStoreIds a = [] ∧ a_head a = 0%nat ∧
    ∃ l, v_ScanRegions (view c) (a_lastKey s) scanLimit = Some (Some <$> l) ∧ a_regions a ⊆ l.

End operators.
