(* ===== verification/RangeCluster.v ===== *)
(** * Regions of a key range (server/schedule/range_cluster.go, server/schedulers/scatter_range.go)

    The scheduler of a key range runs the balance schedulers on a copy of the cluster
    that knows the regions of the range only. *)

From S2P Require Import Prelude GoBytes BTree Strconv Strings Float KV Metapb Region RegionTree RegionMap RegionsInfo Cache Storage Store Statistics Config Operator Schedule Structure.

Definition range_scanLimit : Z := 128.

Section range.
Context {T : Type} `{!BTreeOps Region T}.
Context {C : Type} `{!Cluster C, !ScheduleCluster C}.

Record RangeCluster := mkRangeCluster {
  rc_Cluster : C;
  rc_regions : RegionsInfo T;
  rc_tolerantSizeRatio : f64;
}.

(** The inner loop: the regions so far, the key to go on from, and whether the end
    is reached. *)
Fixpoint range_collect (endKey : bytes) (collect : list (option RegionInfo)) (scanKey : bytes) (regions : RegionsInfo T)
    : result (RegionsInfo T * bytes * bool) :=
  match collect with
  | [] => inr (regions, scanKey, false)
  | None :: _ => inl nil_region
  | Some r :: collect =>
      if bool_decide (GetStartKey r < endKey)%key then
        match SetRegion regions r with
        | None => inl nil_region
        | Some (regions, _) =>
            if bool_decide (GetEndKey r = []) then inr (regions, scanKey, true)
            else range_collect endKey collect (GetEndKey r) regions
        end
      else inr (regions, scanKey, true)
  end.

(** The outer loop; [None] is no fuel left. *)
Fixpoint range_loop (n : nat) (v : View) (endKey scanKey : bytes) (regions : RegionsInfo T) : option (result (RegionsInfo T)) :=
  match n with
  | O => None
  | S n =>
      match v_ScanRegions v scanKey range_scanLimit with
      | None => Some (inl (Panic "makeslice: cap out of range"))
      | Some [] => Some (inr regions)
      | Some collect =>
          match range_collect endKey collect scanKey regions with
          | inl err => Some (inl err)
          | inr (regions, _, true) => Some (inr regions)
          | inr (regions, scanKey, false) => range_loop n v endKey scanKey regions
          end
      end
  end.

Definition GenRangeCluster (n : nat) (c : C) (startKey endKey : bytes) : option (result RangeCluster) :=
  match range_loop n (view c) endKey startKey NewRegionsInfo with
  | None => None
  | Some (inl err) => Some (inl err)
  | Some (inr regions) => Some (inr (mkRangeCluster c regions (f64_of_Z 0)))
  end.

Definition SetTolerantSizeRatio (ratio : f64) (r : RangeCluster) : RangeCluster := mkRangeCluster (rc_Cluster r) (rc_regions r) ratio.

Definition rc_GetTolerantSizeRatio (r : RangeCluster) : f64 :=
  if negb (f64_eqb (rc_tolerantSizeRatio r) (f64_of_Z 0)) then rc_tolerantSizeRatio r
  else TolerantSizeRatio (opt_cfg (v_opt (view (rc_Cluster r)))).

(** The store with the counts and sizes of the range.  The used size is computed
    from the size of all regions of the store, as in the source. *)
Definition updateStoreInfo (r : RangeCluster) (h : heap) (s : StoreInfo) : StoreInfo :=
  let id := store_GetID h s in
  let used := f64_div (f64_of_Z (UsedSize (store_stats s))) (f64_of_Z (2 ^ 20)) in
  if f64_eqb used (f64_of_Z 0) then s
  else
    let amplification := f64_div (f64_of_Z (regionSize s)) used in
    let st := store_stats s in
    let newStats := mkStoreStats (Stats_StoreId st) (Capacity st) (uint64 (Capacity st - UsedSize st))
      (uint64 (uint64_of_f64 (f64_div (f64_of_Z (regionSize s)) amplification) * 2 ^ 20))
      (SendingSnapCount st) (ReceivingSnapCount st) (ApplyingSnapCount st) (StartTime st) (IsBusy st)
      (BytesWritten st) (BytesRead st) (KeysWritten st) (KeysRead st) (Interval st) in
    (Store_Clone h s [SetStoreStats (Some newStats);
       SetLeaderCount (Z.of_nat (GetStoreLeaderCount (rc_regions r) id)); SetRegionCount (Z.of_nat (GetStoreRegionCount (rc_regions r) id));
       SetPendingPeerCount (Z.of_nat (GetStorePendingPeerCount (rc_regions r) id));
       SetLeaderSize (GetStoreLeaderRegionSize (rc_regions r) id); SetRegionSize (GetStoreRegionSize (rc_regions r) id)]).2.

(** The result of [updateStoreInfo] is dropped here. *)
Definition rc_GetStore (r : RangeCluster) (id : Z) : option StoreInfo := v_GetStore (view (rc_Cluster r)) id.
Definition rc_GetRegionStores (r : RangeCluster) (region : RegionInfo) : list StoreInfo := v_GetRegionStores (view (rc_Cluster r)) region.

(** [stores] is [GetStores] of the cluster. *)
Definition rc_GetStores (r : RangeCluster) (stores : list StoreInfo) : list StoreInfo :=
  updateStoreInfo r (v_heap (view (rc_Cluster r))) <$> stores.

Definition rc_RandFollowerRegion (r : RangeCluster) (draws : nat → nat) (storeID : Z) (opts : list RegionOption) : option (option RegionInfo) :=
  RandFollowerRegion draws (rc_regions r) storeID opts.
Definition rc_RandLeaderRegion (r : RangeCluster) (draws : nat → nat) (storeID : Z) (opts : list RegionOption) : option (option RegionInfo) :=
  RandLeaderRegion draws (rc_regions r) storeID opts.
Definition rc_GetAverageRegionSize (r : RangeCluster) : Z := GetAverageRegionSize (rc_regions r).

(** ** The scheduler of a range *)

Record scatterRangeScheduler := mkScatterRange { rangeName : string; sr_startKey : bytes; sr_endKey : bytes }.

Definition SetDesc (desc : string) (o : Operator) : Operator :=
  mkOperator desc (op_regionID o) (op_regionEpoch o) (op_kind o) (op_steps o) (op_currentStep o) (op_createTime o) (op_startTime o)
    (op_stepTime o) (op_level o).

(** The first operator is renamed and counted as one of a range. *)
Definition in_range_op (desc : string) (ops : list Operator) : list Operator :=
  match ops with
  | [] => []
  | op :: ops => AttachKind OpRange (SetDesc desc op) :: ops
  end.

(** [balanceLeader] and [balanceRegion] are the schedulers in the fields of the
    source, with their states [L] and [R]. *)
Definition scatterRange_Schedule {L R : Type} (balanceLeader : M (L * RangeCluster) (list Operator)) (balanceRegion : M (R * RangeCluster) (list Operator))
    (n : nat) (s : scatterRangeScheduler) : L * R → C → option (result (L * R * C * list Operator)) := λ '(l, r) c,
  match GenRangeCluster n c (sr_startKey s) (sr_endKey s) with
  | None => None
  | Some (inl err) => Some (inl err)
  | Some (inr rc) =>
      match balanceLeader (l, SetTolerantSizeRatio (f64_of_Z 2) rc) with
      | (_, inl err) => Some (inl err)
      | ((l, rc), inr ops) =>
          if negb (length ops =? 0)%nat then
            Some (inr (l, r, rc_Cluster rc, in_range_op ("scatter-range-leader-" ++ rangeName s)%string ops))
          else
            match balanceRegion (r, rc) with
            | (_, inl err) => Some (inl err)
            | ((r, rc), inr ops) =>
                Some (inr (l, r, rc_Cluster rc, in_range_op ("scatter-range-region-" ++ rangeName s)%string ops))
            end
      end
  end.
End range.
