(* ===== verification/RangeClusterProps.v ===== *)
(** * The regions of a key range

    Collecting the regions of a range page by page ends and finds exactly the regions
    that start in the range. *)

From S2P Require Import Prelude GoBytes BTree Strconv Strings Float KV Metapb Region RegionTree RegionMap RegionsInfo RegionsInfoProps Cache Storage Store Statistics Config Operator Schedule Structure RangeCluster.

Section collect.
Context {T : Type} `{!BTreeOps Region T, !BTreeLaws Region T}.
Variable endKey : bytes.
Implicit Types (xs : list RegionInfo) (m : gmap Z RegionInfo) (regions : RegionsInfo T).

(** The regions that start before the end key. *)
Definition in_reach xs : list RegionInfo := filter (λ x, (GetStartKey x < endKey)%key) xs.
Definition adds xs m : gmap Z RegionInfo := foldl (λ m x, <[GetID x := x]> m) m xs.

(** The regions are in key order and apart from those of the map. *)
Definition ahead xs m : Prop :=
  StronglySorted before (meta <$> xs) ∧ Forall (λ x, region_wf x ∧ ∀ id y, m !! id = Some y → ¬ overlap (meta x) (meta y)) xs.

Lemma set_apart regions m x : represents regions m → region_wf x → (∀ id y, m !! id = Some y → ¬ overlap (meta x) (meta y)) →
  ∃ regions' l, SetRegion regions x = Some (regions', l) ∧ represents regions' (<[GetID x := x]> m).
Proof.
  intros Hr Hx Hm. destruct (SetRegion_represents regions m x Hr Hx) as (r' & l & -> & Hr' & _). exists r', l. split; [done|].
  unfold spec_SetRegion in Hr'. replace (without_overlaps x m) with m in Hr'; [done|]. symmetry. apply map_filter_id. intros i y Hy. by eapply Hm.
Qed.

Lemma ahead_cons x xs m : ahead (x :: xs) m → region_wf x ∧ (∀ id y, m !! id = Some y → ¬ overlap (meta x) (meta y)) ∧
  ahead xs (<[GetID x := x]> m) ∧ Forall (λ y, before (meta x) (meta y)) xs.
Proof.
  intros (Hs & Hf). rewrite fmap_cons in Hs. apply StronglySorted_inv in Hs as [Hs Hb]. apply Forall_cons in Hf as [[Hw Hm] Hf].
  rewrite Forall_fmap in Hb. split_and!; [done..| |done].
  split; [done|]. apply list.Forall_forall. intros y Hy. rewrite list.Forall_forall in Hf, Hb. destruct (Hf y Hy) as [Hwy Hmy].
  split; [done|]. intros id z [[<- <-]|[_ Hz]]%lookup_insert_Some; [|by eapply Hmy].
  apply not_overlap. right. by apply Hb.
Qed.

Lemma out_of_reach x y : region_wf x → before (meta x) (meta y) → ¬ (GetStartKey x < endKey)%key → ¬ (GetStartKey y < endKey)%key.
Proof. intros Hw Hb Hn Hy. pose proof (before_start _ _ (wf_range _ Hw) Hb). unfold GetStartKey in *. apply Hn. key_order. Qed.

(** One page: the regions in reach are added; at the end nothing that follows is in
    reach, otherwise the next page starts after the last region. *)
Lemma range_collect_spec xs : ∀ m regions sk, represents regions m → ahead xs m →
  ∃ regions' sk' fin, range_collect endKey (Some <$> xs) sk regions = inr (regions', sk', fin) ∧ represents regions' (adds (in_reach xs) m) ∧
    (if fin then ∀ y, Forall (λ x, before (meta x) (meta y)) xs → ¬ (GetStartKey y < endKey)%key
     else in_reach xs = xs ∧ match last xs with Some x => sk' = GetEndKey x ∧ GetEndKey x ≠ [] | None => sk' = sk end).
Proof.
  induction xs as [|x xs IH]; intros m regions sk Hr Ha; cbn [fmap list_fmap range_collect].
  { exists regions, sk, false. by split_and!. }
  destruct (ahead_cons x xs m Ha) as (Hw & Hm & Ha' & Hb). unfold in_reach. rewrite filter_cons.
  destruct (decide (GetStartKey x < endKey)%key) as [Hlt|Hge].
  - rewrite bool_decide_eq_true_2 by done. destruct (set_apart regions m x Hr Hw Hm) as (r1 & l & -> & Hr1).
    destruct (decide (GetEndKey x = [])) as [He|He].
    + rewrite bool_decide_eq_true_2 by done. exists r1, sk, true. split_and!; [done| |].
      * destruct xs as [|y xs]; [done|]. apply Forall_cons in Hb as [[? _] _]. by unfold GetEndKey in He.
      * intros y [[? _] _]%Forall_cons. by unfold GetEndKey in He.
    + rewrite bool_decide_eq_false_2 by done. destruct (IH _ r1 (GetEndKey x) Hr1 Ha') as (r2 & sk' & fin & -> & Hr2 & Hfin).
      exists r2, sk', fin. split_and!; [done|done|]. destruct fin.
      * intros y [_ Hy]%Forall_cons. by apply Hfin.
      * destruct Hfin as [Hall Hlast]. unfold in_reach in Hall. rewrite Hall. split; [done|]. rewrite last_cons.
        destruct (last xs) as [w|]; [done|]. by split.
  - rewrite bool_decide_eq_false_2 by done. exists regions, sk, true. rewrite list.Forall_forall in Hb. split_and!; [done| |].
    + rewrite filter_none; [done|]. intros y Hy. apply (out_of_reach x); auto.
    + intros y [Hy _]%Forall_cons. by apply (out_of_reach x).
Qed.

Lemma ahead_app xs ys m : ahead (xs ++ ys) m → ahead xs m ∧ ahead ys (adds xs m) ∧
  Forall (λ y, Forall (λ x, before (meta x) (meta y)) xs) ys.
Proof.
  revert m. induction xs as [|x xs IH]; intros m Ha; [split_and!; [split; constructor|done|by apply Forall_true]|].
  cbn [app] in Ha. pose proof Ha as [Hs Hf]. destruct (ahead_cons x (xs ++ ys) m Ha) as (Hw & Hm & Ha' & Hb).
  destruct (IH _ Ha') as ([Hsx _] & Hy & Hyx). apply Forall_app in Hb as [Hbx Hby]. split_and!; [split|done|].
  - rewrite fmap_cons. constructor; [done|]. by rewrite Forall_fmap.
  - by rewrite app_comm_cons, Forall_app in Hf; destruct Hf.
  - rewrite list.Forall_forall in Hyx, Hby |- *. intros y Hiny. constructor; auto.
Qed.
End collect.

Section gen.
Context {T : Type} `{!BTreeOps Region T, !BTreeLaws Region T}.
Context {C : Type} `{!Cluster C, !ScheduleCluster C}.
Variables (c : C) (r : RegionsInfo T) (endKey : bytes).
Hypothesis Hscan : v_ScanRegions (view c) = ScanRange r.
Hypothesis Hreach : reachable r.
Implicit Types (m : gmap Z RegionInfo) (regions : RegionsInfo T) (xs : list RegionInfo).

Lemma cache_tree : tree_wf (tree r).
Proof. apply (proj2 (reachable_represents r Hreach)). Qed.

(** The regions of the cache from a key on. *)
Lemma regions_from k : ∃ xs, meta <$> xs = items_from r k ∧ Forall (λ x, abs r !! GetID x = Some x) xs.
Proof.
  destruct (items_lookup r (abs r) (items_from r k) (reachable_represents r Hreach)) as (xs & _ & Hm & Hf); [|by exists xs].
  intros y [_ Hy]%list_elem_of_filter. done.
Qed.

Lemma same_metas xs ys : Forall (λ x, abs r !! GetID x = Some x) xs → Forall (λ x, abs r !! GetID x = Some x) ys →
  meta <$> xs = meta <$> ys → xs = ys.
Proof.
  revert ys. induction xs as [|x xs IH]; intros [|y ys] Hx Hy; try done. intros [= Hm Heq].
  apply Forall_cons in Hx as [Hx Hxs], Hy as [Hy Hys]. f_equal; [|by apply IH]. unfold GetID in *. rewrite Hm in Hx. congruence.
Qed.

(** After the last of the first regions come the others. *)
Lemma from_last k xs ys x m : meta <$> (xs ++ ys) = items_from r k → ahead (xs ++ ys) m → last xs = Some x → GetEndKey x ≠ [] →
  meta <$> ys = items_from r (GetEndKey x).
Proof.
  intros Hitems Ha Hlast Hne. destruct (ahead_app xs ys m Ha) as ([Hsx Hfx] & _ & Hyx).
  apply last_Some in Hlast as [xs' ->]. rewrite Forall_app, Forall_singleton in Hfx. destruct Hfx as [Hfx' [Hw _]].
  assert (Hv : (StartKey (meta x) < EndKey (meta x))%key) by by destruct (wf_range _ Hw).
  assert (Hk : (k ≤ StartKey (meta x))%key).
  { assert (Hin : meta x ∈ items_from r k) by (rewrite <-Hitems; apply list_elem_of_fmap_2, elem_of_app; left; apply elem_of_app; right; by left).
    by apply list_elem_of_filter in Hin as [? _]. }
  assert (items_from r (GetEndKey x) = filter (λ y, (GetEndKey x ≤ StartKey y)%key) (items_from r k)) as ->.
  { unfold items_from. rewrite list_filter_filter. apply list_filter_iff. intros y. split; [|tauto]. unfold GetEndKey. intros ?. split; [done|key_order]. }
  rewrite <-Hitems, fmap_app, filter_app, filter_none, filter_all; [done|..].
  - intros y (z & -> & Hz)%list_elem_of_fmap. rewrite list.Forall_forall in Hyx. specialize (Hyx z Hz).
    apply Forall_app in Hyx as [_ Hyx]. apply Forall_singleton in Hyx as [_ Hle]. exact Hle.
  - intros y Hy Hle. apply list_elem_of_fmap in Hy as (z & -> & [Hz| ->%list_elem_of_singleton]%elem_of_app); [|unfold GetEndKey in *; key_order].
    rewrite fmap_app in Hsx. apply StronglySorted_app in Hsx as (Hcross & _ & _).
    rewrite list.Forall_forall in Hfx'. destruct (Hfx' z Hz) as [Hwz _].
    assert (Hbz : before (meta z) (meta x)) by (apply Hcross; [by apply list_elem_of_fmap_2|by left]).
    pose proof (before_start _ _ (wf_range _ Hwz) Hbz). unfold GetEndKey in *. key_order.
Qed.

Lemma range_loop_spec n : ∀ k xs m regions, meta <$> xs = items_from r k → Forall (λ x, abs r !! GetID x = Some x) xs →
  represents regions m → ahead xs m → (length xs < n)%nat →
  ∃ regions', range_loop n (view c) endKey k regions = Some (inr regions') ∧ represents regions' (adds (in_reach endKey xs) m).
Proof.
  induction n as [|n IH]; intros k xs m regions Hitems Hknown Hr Ha Hn; [lia|]. cbn [range_loop]. rewrite Hscan.
  destruct (ScanRange_spec r (abs r) k range_scanLimit (reachable_represents r Hreach)) as (ys & -> & Hys & Hyk); [done|].
  assert (ys = take 128 xs) as ->.
  { apply same_metas; [done|by apply Forall_take|]. by rewrite Hys, <-Hitems, fmap_take. }
  assert (∃ ys zs, take 128 xs = ys ∧ xs = ys ++ zs ∧ (length zs < length xs ∨ xs = [])%nat) as (ys & zs & -> & -> & Hlen).
  { exists (take 128 xs), (drop 128 xs). split_and!; [done|by rewrite take_drop|]. destruct xs; [by right|left]. rewrite length_drop. cbn. lia. }
  destruct (ahead_app _ _ _ Ha) as (Hay & Haz & Hyz). unfold in_reach. rewrite filter_app. fold (in_reach endKey ys) (in_reach endKey zs).
  destruct (range_collect_spec endKey ys m regions k Hr Hay) as (r1 & k' & fin & Hcol & Hr1 & Hfin).
  destruct ys as [|y0 ys'] eqn:Eys.
  { cbn [app] in *. destruct Hlen as [?| ->]; [lia|]. by exists regions. }
  cbn [fmap list_fmap] in Hcol |- *. rewrite Hcol. destruct fin.
  - exists r1. split; [done|]. assert (in_reach endKey zs = []) as -> by (apply filter_none; intros y Hy; rewrite list.Forall_forall in Hyz; auto).
    by rewrite app_nil_r.
  - destruct Hfin as [Hall Hlast]. rewrite Hall in *. destruct (last (y0 :: ys')) as [x|] eqn:El; [|by apply last_None in El].
    destruct Hlast as [-> Hne]. apply Forall_app in Hknown as [_ Hkz]. destruct Hlen as [Hlen|?]; [|done].
    destruct (IH (GetEndKey x) zs (adds (y0 :: ys') m) r1) as (r2 & Hrun & Hr2); [by eapply from_last|done..|lia|].
    exists r2. split; [done|]. unfold adds in *. by rewrite foldl_app.
Qed.

Lemma adds_lookup xs m id y : Forall (λ x, abs r !! GetID x = Some x) xs → m ⊆ abs r →
  adds xs m !! id = Some y ↔ m !! id = Some y ∨ y ∈ xs ∧ GetID y = id.
Proof.
  revert m. unfold adds. induction xs as [|x xs IH]; intros m Hx Hm; cbn [foldl].
  { split; [by left|]. by intros [?|[?%not_elem_of_nil _]]. }
  apply Forall_cons in Hx as [Hx Hxs]. rewrite IH; [|done|by apply insert_subseteq_l].
  rewrite lookup_insert_Some, elem_of_cons. split; [naive_solver|]. intros [Hy|[[->|?] Hid]]; [|by auto|by auto].
  destruct (decide (GetID x = id)) as [Heq|]; [|by auto]. left. left. split; [done|].
  rewrite Heq in Hx. pose proof (lookup_weaken _ _ _ _ Hy Hm). congruence.
Qed.

End gen.
