(* ===== verification/Coordinator.v ===== *)
(** * The coordinator (server/coordinator.go, schedule/scheduler.go)

    It keeps the schedulers, each run by a goroutine of its own, and patrols the
    regions with the checkers.  What the schedulers and checkers propose goes to
    the operator controller. *)

From S2P Require Import Prelude GoBytes Strconv Strings Float KV Metapb Region RegionMap RegionsInfo Cache Storage Store Statistics Config Operator WaitingOperator OperatorController Schedule Structure Checkers Plugin Schedulers NamespaceCluster.

Definition maxScheduleRetries : nat := 10.
Definition patrolScanRegionLimit : Z := 128.

Definition errSchedulerExisted : go_error := Error "scheduler existed".
Definition errSchedulerNotFound : go_error := Error "scheduler not found".

(** ** The interface of the schedulers (schedule/scheduler.go) *)

(** [sch_IsScheduleAllowed] takes the counts of the operator controller the
    scheduler has a pointer to. *)
Class Scheduler (Sch C : Type) := {
  sch_GetName : Sch → bytes;
  sch_GetType : Sch → bytes;
  sch_GetMinInterval : Sch → Z;
  sch_GetNextInterval : Sch → Z → Z;
  sch_Prepare : Sch → M C unit;
  sch_Cleanup : Sch → C → C;
  sch_Schedule : M (Sch * namespaceCluster C) (option (list Operator));
  sch_IsScheduleAllowed : (Z → Z) → Sch → C → bool;
}.

(** What the patrol tells the cluster besides. *)
Class PatrolCluster (C : Type) := { patrol_updateLabelLevelStats : list RegionInfo → C → C }.

Section registry.
Context {Sch : Type}.

(** [schedulerMap]: the constructors by type. *)
Definition Registry : Type := gmap bytes (option (list bytes) → result Sch).

(** A type registered twice ends the process. *)
Definition RegisterScheduler (name : bytes) (createFn : option (list bytes) → result Sch) : M Registry unit := λ m,
  match m !! name with
  | Some _ => (m, inl (Panic "duplicated scheduler"))
  | None => (<[name := createFn]> m, inr ())
  end.

Definition IsSchedulerRegistered (m : Registry) (name : bytes) : bool := bool_decide (is_Some (m !! name)).

Definition CreateScheduler (m : Registry) (name : bytes) (args : option (list bytes)) : result Sch :=
  match m !! name with
  | None => inl (Error "create func is not registered")
  | Some fn => fn args
  end.
End registry.
Arguments Registry : clear implicits.

(** ** The operators the coordinator hands over *)

Section handover.
Context {B : Type} `{!RateLimit B} (env : nat → Snapshot).

(** New operators are allocated; their pointers. *)
Definition new_ops (ops : list Operator) : M (OperatorController B) (list nat) := λ s,
  ((OC.set_heap (oc_heap s ++ ops) s).1, inr (seq (length (oc_heap s)) (length ops))).

Definition hand_over (add : list nat → M (OperatorController B) bool) (ops : list Operator) : M (OperatorController B) bool :=
  ps ← new_ops ops; add ps.

Definition OperatorCount_of (s : OperatorController B) (mask : Z) : Z := match (OC.OperatorCount mask s).2 with inr n => n | inl _ => 0 end.
End handover.

(** ** The schedule controller *)

(** A controller is shared by the map of the coordinator and its goroutine:
    [sc_stopped] says that its context is cancelled, [sc_exited] that the
    goroutine has returned. *)
Record scheduleController (Sch : Type) := mkScheduleController {
  sc_Scheduler : Sch;
  sc_nextInterval : Z;
  sc_stopped : bool;
  sc_exited : bool;
}.
Arguments mkScheduleController {Sch}.
Arguments sc_Scheduler {Sch}.
Arguments sc_nextInterval {Sch}.
Arguments sc_stopped {Sch}.
Arguments sc_exited {Sch}.

Section controller.
Context `{!Unicode} `{!Classifier}.
Context {C Sch : Type} `{!Cluster C, !ScheduleCluster C, !SchedulerCluster C, !Scheduler Sch C}.
Implicit Types (s : scheduleController Sch) (c : C).

Definition GetInterval s : Z := sc_nextInterval s.
Definition set_scheduler (sch : Sch) (interval : Z) s : scheduleController Sch :=
  mkScheduleController sch interval (sc_stopped s) (sc_exited s).
Definition sc_Stop s : scheduleController Sch := mkScheduleController (sc_Scheduler s) (sc_nextInterval s) true (sc_exited s).
Definition sc_exit s : scheduleController Sch := mkScheduleController (sc_Scheduler s) (sc_nextInterval s) (sc_stopped s) true.

Definition AllowSchedule (count : Z → Z) s c : bool := sch_IsScheduleAllowed count (sc_Scheduler s) c.

(** [n] attempts are left, [i] are made; each sees the namespaces and the stores
    in an order of its own. *)
Fixpoint schedule_retry (order : nat → nat → list StoreInfo → list StoreInfo) (perm : nat → list bytes) (n i : nat)
    : M (Sch * C) (option (list Operator)) := λ '(sch, c),
  match n with
  | O => ((sch, c), inr None)
  | S n =>
      match scheduleByNamespace sch_Schedule (order i) (perm i) 0 (sch, c) with
      | ((sch, c), inr None) => schedule_retry order perm n (S i) (sch, c)
      | r => r
      end
  end.

Definition controller_Schedule (order : nat → nat → list StoreInfo → list StoreInfo) (perm : nat → list bytes)
    : M (scheduleController Sch * C) (option (list Operator)) := λ '(s, c),
  match schedule_retry order perm maxScheduleRetries 0 (sc_Scheduler s, c) with
  | ((sch, c), inl err) => ((set_scheduler sch (sc_nextInterval s) s, c), inl err)
  | ((sch, c), inr (Some ops)) => ((set_scheduler sch (sch_GetMinInterval (C := C) sch) s, c), inr (Some ops))
  | ((sch, c), inr None) => ((set_scheduler sch (sch_GetNextInterval (C := C) sch (sc_nextInterval s)) s, c), inr None)
  end.
End controller.

(** ** The coordinator *)

Record coordinator (B V C Sch : Type) := mkCoordinator {
  co_cluster : C;
  co_opt : scheduleOption V;
  co_opController : OperatorController B;
  co_controllers : list (scheduleController Sch);
  co_schedulers : gmap bytes nat;
  co_cancelled : bool;
}.
Arguments mkCoordinator {B V C Sch}.
Arguments co_cluster {B V C Sch}.
Arguments co_opt {B V C Sch}.
Arguments co_opController {B V C Sch}.
Arguments co_controllers {B V C Sch}.
Arguments co_schedulers {B V C Sch}.
Arguments co_cancelled {B V C Sch}.

Section coordinator.
Context `{!Unicode} `{!Classifier}.
Context {B V C Sch : Type} `{!RateLimit B} `{!Cluster C, !ScheduleCluster C, !SchedulerCluster C, !Scheduler Sch C}.
Variable env : nat → Snapshot.
Variable registry : Registry Sch.
Abbreviation coord := (coordinator B V C Sch).
Implicit Types (co : coord) (sch : Sch).

Definition newCoordinator (cluster : C) (opt : scheduleOption V) : coord :=
  mkCoordinator cluster opt (OC.NewOperatorController []) [] ∅ false.

Definition set_controllers (l : list (scheduleController Sch)) co : coord :=
  mkCoordinator (co_cluster co) (co_opt co) (co_opController co) l (co_schedulers co) (co_cancelled co).
Definition set_cluster (c : C) co : coord :=
  mkCoordinator c (co_opt co) (co_opController co) (co_controllers co) (co_schedulers co) (co_cancelled co).
Definition set_opController (oc : OperatorController B) co : coord :=
  mkCoordinator (co_cluster co) (co_opt co) oc (co_controllers co) (co_schedulers co) (co_cancelled co).
Definition set_schedulers (m : gmap bytes nat) co : coord :=
  mkCoordinator (co_cluster co) (co_opt co) (co_opController co) (co_controllers co) m (co_cancelled co).
Definition set_opt (o : scheduleOption V) co : coord :=
  mkCoordinator (co_cluster co) o (co_opController co) (co_controllers co) (co_schedulers co) (co_cancelled co).

(** A child of a cancelled context is cancelled. *)
Definition newScheduleController co sch : scheduleController Sch :=
  mkScheduleController sch (sch_GetMinInterval (C := C) sch) (co_cancelled co) false.

Definition getSchedulers co : list bytes := (map_to_list (co_schedulers co)).*1.

(** What [addScheduler] and [addUserScheduler] do last: prepare the scheduler, start
    its goroutine, enter it in the map and in the configuration. *)
Definition start_scheduler sch (args : option (list bytes)) : M coord unit := λ co,
  let s := newScheduleController co sch in
  match sch_Prepare sch (co_cluster co) with
  | (c, inl err) => (set_cluster c co, inl err)
  | (c, inr _) =>
      (mkCoordinator c (AddSchedulerCfg (sch_GetType (C := C) sch) args (co_opt co)) (co_opController co)
         (co_controllers co ++ [s]) (<[sch_GetName (C := C) sch := length (co_controllers co)]> (co_schedulers co)) (co_cancelled co), inr ())
  end.

Definition addScheduler sch (args : option (list bytes)) : M coord unit := λ co,
  match co_schedulers co !! sch_GetName (C := C) sch with
  | Some _ => (co, inl errSchedulerExisted)
  | None => start_scheduler sch args co
  end.

Definition create_name (typ : bytes) (args : option (list bytes)) : result (bytes * bytes) :=
  match CreateScheduler registry typ args with
  | inl err => inl err
  | inr sch => inr (sch_GetName (C := C) sch, sch_GetType (C := C) sch)
  end.

Definition removeScheduler (name : bytes) : M coord unit := λ co,
  match co_schedulers co !! name with
  | None => (co, inl errSchedulerNotFound)
  | Some i =>
      let co := set_schedulers (delete name (co_schedulers co)) (set_controllers (alter sc_Stop i (co_controllers co)) co) in
      match RemoveSchedulerCfg create_name name (co_opt co) with
      | inl err => (co, inl err)
      | inr o => (set_opt o co, inr ())
      end
  end.

(** [addUserScheduler]: the first part runs under the lock for reading and calls
    [removeScheduler], whose error is only logged; the second part runs under
    the lock. *)
Definition replace_user sch : M coord unit := λ co,
  match co_schedulers co !! sch_GetName (C := C) sch with
  | Some _ => ((removeScheduler (sch_GetName (C := C) sch) co).1, inr ())
  | None => (co, inr ())
  end.

Definition addUserScheduler sch (args : option (list bytes)) : M coord unit :=
  replace_user sch;; start_scheduler sch args.

(** The schedulers that the configuration of the user asks for; errors are logged. *)
Fixpoint add_user_schedulers (schs : list Sch) co : coord :=
  match schs with
  | [] => co
  | sch :: schs => add_user_schedulers schs (addUserScheduler sch None co).1
  end.

Definition co_stop co : coord :=
  mkCoordinator (co_cluster co) (co_opt co) (co_opController co) (sc_Stop <$> co_controllers co) (co_schedulers co) true.

(** *** The goroutines of the schedulers (runScheduler) *)

(** The timer of the goroutine fires. *)
Definition run_tick (order : nat → nat → list StoreInfo → list StoreInfo) (perm : nat → list bytes) (i : nat) : M coord unit := λ co,
  match co_controllers co !! i with
  | None => (co, inr ())
  | Some s =>
      if sc_exited s || negb (AllowSchedule (OperatorCount_of (co_opController co)) s (co_cluster co)) then (co, inr ())
      else
        let '((s, c), r) := controller_Schedule order perm (s, co_cluster co) in
        let co := set_cluster c (set_controllers (<[i := s]> (co_controllers co)) co) in
        match r with
        | inl err => (co, inl err)
        | inr None => (co, inr ())
        | inr (Some ops) =>
            let '(oc, r) := hand_over (OC.AddWaitingOperator env) ops (co_opController co) in
            (set_opController oc co, match r with inl err => inl err | inr _ => inr () end)
        end
  end.

(** The goroutine finds its context cancelled: it cleans up and returns. *)
Definition run_done (i : nat) co : coord :=
  match co_controllers co !! i with
  | None => co
  | Some s =>
      if sc_stopped s && negb (sc_exited s)
      then set_cluster (sch_Cleanup (sc_Scheduler s) (co_cluster co)) (set_controllers (<[i := sc_exit s]> (co_controllers co)) co)
      else co
  end.

(** *** Starting (run) *)

(** The loop over the configured schedulers: the ones that are kept. *)
Fixpoint run_schedulers (cfgs : list SchedulerConfig) co : coord * list SchedulerConfig :=
  match cfgs with
  | [] => (co, [])
  | cfg :: cfgs =>
      if sc_Disable cfg then let '(co, l) := run_schedulers cfgs co in (co, cfg :: l)
      else
        match CreateScheduler registry (sc_Type cfg) (sc_Args cfg) with
        | inl _ => run_schedulers cfgs co
        | inr sch =>
            match addScheduler sch (sc_Args cfg) co with
            | (co, inl _) => run_schedulers cfgs co
            | (co, inr _) => let '(co, l) := run_schedulers cfgs co in (co, cfg :: l)
            end
        end
  end.

(** [run] up to the start of the other goroutines, once the cluster is prepared:
    the configuration it stores at the end, and then persists ([persist] of the
    options), is the one it read at the start, without the entries that failed. *)
Definition run co : coord :=
  let cfg := o_v (co_opt co) in
  let '(co, l) := run_schedulers (Schedulers cfg) co in
  set_opt (opt_store (set_Schedulers l cfg) (co_opt co)) co.
End coordinator.

(** ** Checking regions *)

(** What the checkers read besides the cluster: the clock, the random draws, the
    iteration orders, and the rules of the plugin. *)
Record CheckInputs := mkCheckInputs {
  in_now : Z;
  in_call : nat → bool;
  in_range : nat → list StoreInfo → list StoreInfo;
  in_followerIDs : RegionInfo → list Z;
  in_rand : Z;
  in_regionFilters : list RegionFilter;
  in_rules : list (bytes * PluginInfo);
  in_order : RegionInfo → list Z;
}.

Section patrol.
Context `{!Unicode} `{!Classifier}.
Context {B C : Type} `{!RateLimit B} `{!Cluster C, !ScheduleCluster C, !SchedulerCluster C, !PatrolCluster C}.
Variable env : nat → Snapshot.
Variables (classified mergeSupported : bool) (splitCache : Ttl.IDTTL).
Abbreviation state := (OperatorController B * C)%type.
Implicit Types (c : C) (region : RegionInfo).

Definition on_oc {A} (m : M (OperatorController B) A) : M state A := λ '(oc, c), let '(oc, r) := m oc in ((oc, c), r).
Definition on_cluster {A} (m : M C A) : M state A := λ '(oc, c), let '(c, r) := m c in ((oc, c), r).

(** [opController.OperatorCount(mask) < limit] *)
Definition below (mask : Z) (limit : Limits → Z) : M state bool := λ '(oc, c),
  ((oc, c), inr (OperatorCount_of oc mask <? limit (q_Limits (queries c)))).

(** An operator of a checker, if there is one, is handed over; the operators added. *)
Definition propose (add : list nat → M (OperatorController B) bool) (ops : option (list Operator)) : M state bool :=
  match ops with
  | None => mret false
  | Some ops => on_oc (hand_over add ops)
  end.

(** A check that is made under a guard; [next] when it adds nothing. *)
Definition or_else (guard : M state bool) (check : M C (option (list Operator))) (next : M state bool) : M state bool :=
  ok ← guard;
  if ok : bool then
    ops ← on_cluster check;
    added ← propose (OC.AddWaitingOperator env) ops;
    if added : bool then mret true else next
  else next.

Definition one (m : M C (option Operator)) : M C (option (list Operator)) := op ← m; mret ((λ o, [o]) <$> op).

(** [inp i] are the inputs of the i-th checker. *)
Definition checkRegion (inp : nat → CheckInputs) region : M state bool :=
  added ← propose (OC.AddOperator env) ((λ o, [o]) <$> learner_Check (in_now (inp 0%nat)) region);
  if added : bool then mret true
  else
    or_else
      (leader ← below OpLeader l_LeaderScheduleLimit;
       if leader : bool then
         peers ← below OpRegion l_RegionScheduleLimit;
         if peers : bool then below OpReplica l_ReplicaScheduleLimit else mret false
       else mret false)
      (let e := inp 1%nat in
       one (namespace_Check (in_now e) (in_call e) (in_range e) (in_followerIDs e) classified (in_rand e)
         (in_regionFilters e) (in_rules e) region))
    (or_else
      (below OpReplica l_ReplicaScheduleLimit)
      (let e := inp 2%nat in one (replica_Check (in_now e) (in_call e) (in_range e) (in_followerIDs e) classified region))
    (or_else
      (if mergeSupported then below OpMerge l_MergeScheduleLimit else mret false)
      (let e := inp 3%nat in merge_Check (in_now e) splitCache (in_order e) region)
    (mret false))).

(** *** The patrol *)

(** The loop over a batch: the key after the last region that was looked at, and
    whether a check ended it. *)
Fixpoint patrol_batch (check : nat → RegionInfo → M state bool) (i : nat) (regions : list (option RegionInfo)) (key : bytes)
    : M state bytes :=
  match regions with
  | [] => mret key
  | None :: _ => mfail nil_region
  | Some region :: regions =>
      pending ← on_oc (OC.GetOperator (GetID region));
      match pending with
      | Some _ => patrol_batch check (S i) regions key
      | None =>
          let key := GetEndKey region in
          added ← check i region;
          if added : bool then mret key else patrol_batch check (S i) regions key
      end
  end.

(** One round of [patrolRegions]; the key of the next one. *)
Definition patrol_round (check : nat → RegionInfo → M state bool) (key : bytes) : M state bytes := λ '(oc, c),
  match v_ScanRegions (view c) key patrolScanRegionLimit with
  | None => ((oc, c), inl nil_region)
  | Some [] => ((oc, c), inr [])
  | Some regions =>
      match patrol_batch check 0 regions key (oc, c) with
      | ((oc, c), inl err) => ((oc, c), inl err)
      | ((oc, c), inr key) => ((oc, patrol_updateLabelLevelStats (omap id regions) c), inr key)
      end
  end.

Definition patrolRegions (inp : nat → nat → CheckInputs) : bytes → M state bytes := patrol_round (λ i, checkRegion (inp i)).

(** [n] rounds. *)
Fixpoint patrol (check : nat → nat → RegionInfo → M state bool) (n i : nat) (key : bytes) : M state bytes :=
  match n with
  | O => mret key
  | S n => key ← patrol_round (check i) key; patrol check n (S i) key
  end.
End patrol.
