(* ===== verification/Handler.v ===== *)
(** * The requests of administrators (server/handler.go)

    The handler looks up the coordinator, checks a request and hands an operator
    over to the operator controller.  Requests on schedulers change the
    coordinator and persist the configuration. *)

From S2P Require Import Prelude GoBytes Strconv Strings Float KV Metapb Region RegionMap RegionsInfo Cache Storage Store Statistics Config Operator WaitingOperator OperatorController Schedule Structure Checkers Plugin Schedulers NamespaceCluster Scatter Coordinator.

Definition ErrNotBootstrapped : go_error := Error "TiKV cluster not bootstrapped, please start TiKV first".
Definition ErrOperatorNotFound : go_error := Error "operator not found".
Definition ErrAddOperator : go_error := Error "failed to add operator, maybe already have one".
Definition ErrRegionNotAdjacent : go_error := Error "two regions are not adjacent".
Definition ErrRegionNotFound : go_error := Error "region not found".
Definition ErrRegionAbnormalPeer : go_error := Error "region has abnormal peer".
Definition ErrNoVoter : go_error := Error "region has no voter in store".
Definition ErrNoPeer : go_error := Error "region has no peer in store".
Definition ErrHasPeer : go_error := Error "region already has peer in store".
Definition ErrTooManyStores : go_error := Error "the number of stores is beyond the max replicas".
Definition StoreNotFoundErr : go_error := Error "store not found".
Definition StoreTombstonedErr : go_error := Error "store has been removed".

Section handler.
Context `{!Unicode} `{!Classifier}.
Context {B C : Type} `{!RateLimit B} `{!Cluster C, !ScheduleCluster C}.
Variable env : nat → Snapshot.
Variables (now : Z) (call : nat → bool) (range : nat → list StoreInfo → list StoreInfo).
Variable followerIDs : RegionInfo → list Z.
Implicit Types (region target : RegionInfo) (regionID storeID : Z).

(** What a request changes: the operator controller, and the stores the scatterer
    selected with the cluster. *)
Abbreviation state := (OperatorController B * (selectedStores * C))%type.

(** [getCoordinator]: there is none before the cluster is bootstrapped. *)
Definition getCoordinator {A} (m : M state A) : M (option state) A := λ s,
  match s with
  | None => (None, inl ErrNotBootstrapped)
  | Some st => let '(st, r) := m st in (Some st, r)
  end.

Definition on_c {A} (m : M C A) : M state A := λ '(oc, (selected, c)), let '(c, r) := m c in ((oc, (selected, c)), r).
Definition read_view : M state View := λ '(oc, (selected, c)), ((oc, (selected, c)), inr (view c)).
Definition read_cluster : M state C := λ '(oc, (selected, c)), ((oc, (selected, c)), inr c).

Definition get_region regionID : M state RegionInfo :=
  v ← read_view;
  match v_GetRegion v regionID with
  | None => mfail ErrRegionNotFound
  | Some region => mret region
  end.

(** The store exists and is not a tombstone. *)
Definition check_store storeID : M state unit :=
  v ← read_view;
  match v_GetStore v storeID with
  | None => mfail StoreNotFoundErr
  | Some store => if IsTombstone (v_heap v) store then mfail StoreTombstonedErr else mret ()
  end.

Fixpoint check_stores (ids : list Z) : M state unit :=
  match ids with
  | [] => mret ()
  | id :: ids => check_store id;; check_stores ids
  end.

Definition add_operators (ops : list Operator) : M state unit :=
  ok ← on_oc (hand_over (OC.AddOperator env) ops);
  if ok : bool then mret () else mfail ErrAddOperator.

(** ** Operators *)

Definition AddTransferLeaderOperator regionID storeID : M state unit :=
  region ← get_region regionID;
  match GetStoreVoter region storeID with
  | None => mfail ErrNoVoter
  | Some newLeader =>
      add_operators [CreateTransferLeaderOperator "admin-transfer-leader" region (Peer_GetStoreId (GetLeader region))
        (Peer_StoreId newLeader) OpAdmin now]
  end.

(** [orders] are the orders of the loops over the set of stores. *)
Definition AddTransferRegionOperator regionID (storeIDs : gset Z) (orders : nat → list Z) : M state unit :=
  region ← get_region regionID;
  v ← read_view;
  if opt_MaxReplicas (v_opt v) <? Z.of_nat (size storeIDs) then mfail ErrTooManyStores
  else
    check_stores (orders 0%nat);;
    op ← on_c (CreateMoveRegionOperator "admin-move-region" region OpAdmin storeIDs (orders 1%nat) (orders 2%nat) now);
    add_operators [op].

Definition AddTransferPeerOperator regionID (fromStoreID toStoreID : Z) : M state unit :=
  region ← get_region regionID;
  match GetStorePeer region fromStoreID with
  | None => mfail ErrNoPeer
  | Some _ =>
      check_store toStoreID;;
      newPeer ← on_c (AllocPeer toStoreID);
      c ← read_cluster;
      op ← lift_result (CreateMovePeerOperator "admin-move-peer" c region OpAdmin fromStoreID toStoreID (Peer_Id newPeer) (followerIDs region) now);
      add_operators [op]
  end.

Definition checkAdminAddPeerOperator regionID (toStoreID : Z) : M state RegionInfo :=
  region ← get_region regionID;
  match GetStorePeer region toStoreID with
  | Some _ => mfail ErrHasPeer
  | None => check_store toStoreID;; mret region
  end.

Definition AddAddPeerOperator regionID (toStoreID : Z) : M state unit :=
  region ← checkAdminAddPeerOperator regionID toStoreID;
  newPeer ← on_c (AllocPeer toStoreID);
  c ← read_cluster;
  add_operators [CreateAddPeerOperator "admin-add-peer" c region (Peer_Id newPeer) toStoreID OpAdmin now].

Definition AddAddLearnerOperator regionID (toStoreID : Z) : M state unit :=
  region ← checkAdminAddPeerOperator regionID toStoreID;
  c ← read_cluster;
  if negb (IsRaftLearnerEnabled c) then mfail ErrOperatorNotFound
  else
    newPeer ← on_c (AllocPeer toStoreID);
    add_operators [CreateAddLearnerOperator "admin-add-learner" region (Peer_Id newPeer) toStoreID OpAdmin now].

Definition AddRemovePeerOperator regionID (fromStoreID : Z) : M state unit :=
  region ← get_region regionID;
  match GetStorePeer region fromStoreID with
  | None => mfail ErrNoPeer
  | Some _ =>
      c ← read_cluster;
      op ← lift_result (CreateRemovePeerOperator "admin-remove-peer" c OpAdmin region fromStoreID (followerIDs region) now);
      add_operators [op]
  end.

(** A region that may be merged: all its peers are well and there are as many as
    wanted. *)
Definition normal_peers (v : View) region : bool :=
  (length (GetDownPeers region) =? 0)%nat && (length (GetPendingPeers region) =? 0)%nat && (length (GetLearners region) =? 0)%nat &&
  (Z.of_nat (length (GetPeers region)) =? opt_MaxReplicas (v_opt v)).

(** The guard as it is written. *)
Definition rejected_as_not_adjacent region target : bool :=
  (Equal (GetStartKey region) (GetEndKey target) || (length (GetStartKey region) =? 0)%nat) &&
  (Equal (GetEndKey region) (GetStartKey target) || (length (GetEndKey region) =? 0)%nat).

(** [order] is the order of the loop over the stores the regions share. *)
Definition AddMergeRegionOperator regionID (targetID : Z) (order : list Z) : M state unit :=
  region ← get_region regionID;
  target ← get_region targetID;
  v ← read_view;
  if negb (normal_peers v region) then mfail ErrRegionAbnormalPeer
  else if negb (normal_peers v target) then mfail ErrRegionAbnormalPeer
  else if rejected_as_not_adjacent region target then mfail ErrRegionNotAdjacent
  else
    ops ← on_c (CreateMergeRegionOperator "admin-merge-region" region target OpAdmin order now);
    add_operators ops.

Definition AddSplitRegionOperator regionID (policy : Z) : M state unit :=
  region ← get_region regionID;
  add_operators [CreateSplitRegionOperator "admin-split-region" region OpAdmin policy now].

Definition on_scatterer {A} (m : M (selectedStores * C) A) : M state A := λ '(oc, sc), let '(sc, r) := m sc in ((oc, sc), r).

(** [order] and [draw] are the choices of the scatterer. *)
Definition AddScatterRegionOperator (order : nat → StoresInfo → list StoreInfo) (draw : nat → nat) regionID : M state unit :=
  region ← get_region regionID;
  op ← on_scatterer (Scatter now call range order draw region);
  match op with
  | None => mret ()
  | Some op => add_operators [op]
  end.

Definition h_GetOperator regionID : M state nat :=
  op ← on_oc (OC.GetOperator regionID);
  match op with None => mfail ErrOperatorNotFound | Some op => mret op end.

Definition h_RemoveOperator regionID : M state unit :=
  op ← h_GetOperator regionID;
  on_oc (OC.RemoveOperator op).

Definition GetOperatorsOfKind (mask : Z) : M state (list nat) :=
  ops ← on_oc (OC.GetOperators env);
  oc ← on_oc OC.get;
  mret (filter (λ p, Z.land (op_kind (oc_heap oc !!! p)) mask ≠ 0) ops).
End handler.

(** ** Schedulers *)

Section scheduler_requests.
Context `{!Unicode} `{!Classifier}.
Context {B V C Sch S : Type} `{!RateLimit B} `{!Cluster C, !ScheduleCluster C, !SchedulerCluster C} `{!Scheduler Sch C}.
Context `{!KVBase S} `{!ConfigJson V} `{!Semver V}.
Variable registry : Registry Sch.
Abbreviation co_state := (coordinator B V C Sch * S)%type.

Definition on_co {A} (m : M (coordinator B V C Sch) A) : M co_state A := λ '(co, s), let '(co, r) := m co in ((co, s), r).

(** [h.opt.persist(c.cluster.storage)]: the options are those of the coordinator. *)
Definition persist_opt : M co_state unit := λ '(co, s), let '((_, s), r) := persist (co_opt co, s) in ((co, s), r).

(** The error of either step is logged and returned. *)
Definition h_AddScheduler (name : bytes) (args : option (list bytes)) : M co_state unit :=
  sch ← lift_result (CreateScheduler registry name args);
  on_co (addScheduler sch args);;
  persist_opt.

Definition h_RemoveScheduler (name : bytes) : M co_state unit :=
  on_co (removeScheduler registry name);;
  persist_opt.

Definition AddBalanceLeaderScheduler : M co_state unit := h_AddScheduler (str "balance-leader") None.
Definition AddBalanceRegionScheduler : M co_state unit := h_AddScheduler (str "balance-region") None.
Definition AddBalanceHotRegionScheduler : M co_state unit := h_AddScheduler (str "hot-region") None.
Definition AddLabelScheduler : M co_state unit := h_AddScheduler (str "label") None.
Definition AddScatterRangeScheduler (args : option (list bytes)) : M co_state unit := h_AddScheduler (str "scatter-range") args.
Definition AddAdjacentRegionScheduler (args : option (list bytes)) : M co_state unit := h_AddScheduler (str "adjacent-region") args.
Definition AddGrantLeaderScheduler (storeID : Z) : M co_state unit := h_AddScheduler (str "grant-leader") (Some [FormatUint storeID 10]).
Definition AddEvictLeaderScheduler (storeID : Z) : M co_state unit := h_AddScheduler (str "evict-leader") (Some [FormatUint storeID 10]).
Definition AddShuffleLeaderScheduler : M co_state unit := h_AddScheduler (str "shuffle-leader") None.
Definition AddShuffleRegionScheduler : M co_state unit := h_AddScheduler (str "shuffle-region") None.
Definition AddShuffleHotRegionScheduler (limit : Z) : M co_state unit :=
  h_AddScheduler (str "shuffle-hot-region") (Some [FormatUint limit 10]).
Definition AddRandomMergeScheduler : M co_state unit := h_AddScheduler (str "random-merge") None.
End scheduler_requests.
