(* ===== verification/CoordinatorProps.v ===== *)
(** * The coordinator: properties

    The map of the schedulers and their goroutines agree whatever the
    interleaving; the configuration lists the schedulers that run and a restart
    brings them back; the patrol visits every region unless operators are in the
    way; checking a region keeps the invariants of the operator controller. *)

From S2P Require Import Prelude GoBytes Strconv Strings Float KV Metapb Region RegionMap RegionsInfo Cache Storage Store Statistics Config Operator OperatorProps WaitingOperator OperatorController OperatorControllerInv OperatorControllerProps Schedule ScheduleProps Structure Checkers CheckersProps Plugin Schedulers SchedulersProps NamespaceCluster Coordinator.

(** The operators a scheduler or a checker proposes together: one that does not
    merge, or the two of a merge, of one priority. *)
Definition proposal (ops : list Operator) : Prop :=
  group op_kind ops ∧ Forall (λ o, Z.of_nat (length (op_steps o)) < 2 ^ 31) ops ∧
  ∃ l, 0 ≤ l < 3 ∧ Forall (λ o, op_level o = l) ops.

Section handover_props.
Context {B : Type} `{!RateLimit B} (env : nat → Snapshot).
Implicit Types (s : OperatorController B).

Lemma new_ops_steps s ops : Forall (λ o, Z.of_nat (length (op_steps o)) < 2 ^ 31) ops →
  rtc (oc_step env) s (OC.set_heap (oc_heap s ++ ops) s).1.
Proof.
  intros Hops. revert s. induction Hops as [|o ops Ho Hops IH]; intros s.
  - rewrite app_nil_r. destruct s. apply rtc_refl.
  - eapply rtc_l; [by apply (step_new env s o)|]. specialize (IH (OC.set_heap (oc_heap s ++ [o]) s).1).
    cbn in IH |- *. by rewrite <-app_assoc in IH.
Qed.

Lemma new_ops_lookup (h ops : list Operator) i o : ops !! i = Some o → (h ++ ops) !!! (length h + i)%nat = o.
Proof. intros Hi. rewrite list_lookup_total_alt, lookup_app_r by lia. replace (_ + i - _)%nat with i by lia. by rewrite Hi. Qed.

Lemma proposal_waiting (h ops : list Operator) : proposal ops →
  waiting_group (h ++ ops) (seq (length h) (length ops)).
Proof.
  intros (Hg & _ & l & Hl & Hlev).
  assert (Hat : ∀ i o, ops !! i = Some o → (h ++ ops) !!! (length h + i)%nat = o) by (intros i o; apply new_ops_lookup).
  split_and!.
  - unfold OC.kind_of. destruct ops as [|o [|o' [|]]]; try done; cbn; pose proof (Hat 0%nat o eq_refl) as H0;
      rewrite Nat.add_0_r in H0; by rewrite H0.
  - unfold in_heap. rewrite list.Forall_forall. intros p Hp%elem_of_seq. rewrite length_app. lia.
  - exists l. split; [done|]. apply list.Forall_forall. intros p Hp%elem_of_seq. unfold OC.level_of.
    destruct (lookup_lt_is_Some_2 ops (p - length h)) as [o Ho]; [lia|].
    replace p with (length h + (p - length h))%nat by lia. rewrite (Hat _ _ Ho). rewrite list.Forall_forall in Hlev. apply Hlev. by eapply list_elem_of_lookup_2.
Qed.

(** What the coordinator hands over keeps the controller in a reachable state. *)
Lemma hand_over_waiting s ops s' r : proposal ops → hand_over (OC.AddWaitingOperator env) ops s = (s', inr r) →
  rtc (oc_step env) s s'.
Proof.
  intros Hp. unfold hand_over. rewrite M_bind_eq. cbn [new_ops]. intros E.
  etrans; [by apply (new_ops_steps s ops), Hp|]. pose proof (proposal_waiting (oc_heap s) ops Hp) as Hw.
  refine (wp_run (λ _, True) _ _ (λ _, rtc (oc_step env) _) s' r _ E). by apply AddWaitingOperator_steps.
Qed.
End handover_props.

(** ** The schedulers and their goroutines *)

(** What the coordinator relies on: running a scheduler does not change its name,
    and what it proposes is a proposal. *)
Class SchedulerLaws (Sch C : Type) `{!Scheduler Sch C} : Prop := {
  Schedule_name : ∀ (sch : Sch) (nc : namespaceCluster C),
    sch_GetName (C := C) (sch_Schedule (sch, nc)).1.1 = sch_GetName (C := C) sch;
  Schedule_proposal : ∀ (sch : Sch) (nc : namespaceCluster C) ops, (sch_Schedule (sch, nc)).2 = inr (Some ops) → proposal ops;
}.

Section schedulers.
Context `{!Unicode} `{!Classifier}.
Context {B V C Sch : Type} `{!RateLimit B} `{!Cluster C, !ScheduleCluster C, !SchedulerCluster C, !Scheduler Sch C, !SchedulerLaws Sch C}.
Variable env : nat → Snapshot.
Variable registry : Registry Sch.
Abbreviation coord := (coordinator B V C Sch).
Abbreviation name_of := (sch_GetName (C := C)).
Implicit Types (co : coord) (sch : Sch) (s : scheduleController Sch) (c : C).

Lemma scheduleByNamespace_spec order perm i sch c :
  match scheduleByNamespace sch_Schedule order perm i (sch, c) with
  | ((sch', _), r) => name_of sch' = name_of sch ∧ ∀ ops, r = inr (Some ops) → proposal ops
  end.
Proof.
  revert i sch c. induction perm as [|ns perm IH]; intros i sch c; cbn [scheduleByNamespace]; [done|].
  set (nc := newNamespaceCluster _ _ _). pose proof (Schedule_name sch nc) as Hn. pose proof (Schedule_proposal sch nc) as Hp.
  destruct (sch_Schedule (sch, nc)) as [[sch1 nc1] [err|[ops|]]]; cbn in Hn, Hp.
  - done.
  - split; [done|]. intros ? [= <-]. by apply Hp.
  - specialize (IH (S i) sch1 (nc_Cluster nc1)). destruct (scheduleByNamespace _ _ _ _ _) as [[sch2 c2] r]. by rewrite <-Hn.
Qed.

Lemma schedule_retry_spec order perm n i sch c :
  match schedule_retry order perm n i (sch, c) with
  | ((sch', _), r) => name_of sch' = name_of sch ∧ ∀ ops, r = inr (Some ops) → proposal ops
  end.
Proof.
  revert i sch c. induction n as [|n IH]; intros i sch c; cbn [schedule_retry]; [done|].
  pose proof (scheduleByNamespace_spec (order i) (perm i) 0 sch c) as Hs.
  destruct (scheduleByNamespace _ _ _ _ _) as [[sch1 c1] [err|[ops|]]]; [done..|].
  specialize (IH (S i) sch1 c1). destruct (schedule_retry _ _ _ _ _) as [[sch2 c2] r]. destruct Hs as [<- _]. done.
Qed.

(** A controller is the same goroutine as before: only its scheduler has run. *)
Lemma controller_Schedule_spec order perm s c :
  match controller_Schedule order perm (s, c) with
  | ((s', _), r) => name_of (sc_Scheduler s') = name_of (sc_Scheduler s) ∧ sc_stopped s' = sc_stopped s ∧ sc_exited s' = sc_exited s ∧
      ∀ ops, r = inr (Some ops) → proposal ops
  end.
Proof.
  unfold controller_Schedule. pose proof (schedule_retry_spec order perm maxScheduleRetries 0 (sc_Scheduler s) c) as Hs.
  destruct (schedule_retry _ _ _ _ _) as [[sch1 c1] [err|[ops|]]]; destruct Hs as [Hn Hp]; split_and!; try done.
Qed.

(** *** The steps *)

(** The goroutine that adds the schedulers of the user: idle, between the two
    parts of [addUserScheduler] with the scheduler to remove first, or about to
    start it. *)
Inductive user_phase := UserIdle | UserRemove (sch : Sch) | UserStart (sch : Sch).

(** [user] are the names of the schedulers of the user; only that goroutine adds
    schedulers of such names.  A panic ends the process. *)
Inductive co_step (user : bytes → Prop) : coord * user_phase → coord * user_phase → Prop :=
| step_add co u sch args co' r : ¬ user (name_of sch) → addScheduler sch args co = (co', r) → co_step user (co, u) (co', u)
| step_remove co u name co' r : removeScheduler registry name co = (co', r) → co_step user (co, u) (co', u)
| step_user_found co sch i : user (name_of sch) → co_schedulers co !! name_of sch = Some i →
    co_step user (co, UserIdle) (co, UserRemove sch)
| step_user_remove co sch co' r : removeScheduler registry (name_of sch) co = (co', r) →
    co_step user (co, UserRemove sch) (co', UserStart sch)
| step_user_new co sch : user (name_of sch) → co_schedulers co !! name_of sch = None → co_step user (co, UserIdle) (co, UserStart sch)
| step_user_start co sch args co' r : start_scheduler sch args co = (co', r) → co_step user (co, UserStart sch) (co', UserIdle)
| step_tick co u order perm i co' : run_tick env order perm i co = (co', inr ()) → co_step user (co, u) (co', u)
| step_done co u i : co_step user (co, u) (run_done i co, u)
| step_stop co u : co_step user (co, u) (co_stop co, u)
| step_controller co u oc : oc_step env (co_opController co) oc → co_step user (co, u) (set_opController oc co, u).

(** The map has the goroutines that were not told to stop, under their names. *)
Record schedulers_inv co : Prop := {
  inv_entry : ∀ name i, co_schedulers co !! name = Some i → ∃ s, co_controllers co !! i = Some s ∧
    name_of (sc_Scheduler s) = name ∧ sc_stopped s = co_cancelled co;
  inv_live : ∀ i s, co_controllers co !! i = Some s → sc_stopped s = false → co_schedulers co !! name_of (sc_Scheduler s) = Some i;
  inv_exited : ∀ i s, co_controllers co !! i = Some s → sc_exited s = true → sc_stopped s = true;
  inv_controller : reachable env (co_opController co);
}.

Definition user_inv (user : bytes → Prop) co (u : user_phase) : Prop :=
  match u with
  | UserIdle => True
  | UserRemove sch => user (name_of sch)
  | UserStart sch => user (name_of sch) ∧ co_schedulers co !! name_of sch = None
  end.

Lemma start_scheduler_eq sch args co :
  (∃ c err, start_scheduler sch args co = (set_cluster c co, inl err)) ∨
  ∃ c, start_scheduler sch args co =
    (mkCoordinator c (AddSchedulerCfg (sch_GetType (C := C) sch) args (co_opt co)) (co_opController co)
       (co_controllers co ++ [newScheduleController co sch]) (<[name_of sch := length (co_controllers co)]> (co_schedulers co)) (co_cancelled co), inr ()).
Proof. unfold start_scheduler. destruct (sch_Prepare sch (co_cluster co)) as [c [err|[]]]; [left; by eexists _, _|right; by eexists]. Qed.

Lemma inv_start sch args co co' r : co_schedulers co !! name_of sch = None → schedulers_inv co →
  start_scheduler sch args co = (co', r) → schedulers_inv co'.
Proof.
  intros Hnone [H1 H2 H3 H4]. destruct (start_scheduler_eq sch args co) as [(c & err & ->)|(c & ->)]; intros [= <- <-]; [done|].
  split; cbn [co_schedulers co_controllers co_cancelled co_opController]; [| | |done].
  - intros name i. rewrite lookup_insert_Some. intros [[<- <-]|[Hne Hi]].
    + eexists. rewrite lookup_app_r by lia. by rewrite Nat.sub_diag.
    + destruct (H1 _ _ Hi) as (s & Hs & ? & ?). exists s. split; [|done]. apply lookup_app_l_Some, Hs.
  - intros i s Hs Hlive. apply lookup_app_Some in Hs as [Hs|[Hlen Hs]].
    + specialize (H2 i s Hs Hlive). rewrite lookup_insert_ne; [done|]. intros Heq. by rewrite <-Heq, Hnone in H2.
    + apply list_lookup_singleton_Some in Hs as [Hz <-]. cbn. rewrite lookup_insert_eq. f_equal. lia.
  - intros i s Hs Hex. apply lookup_app_Some in Hs as [Hs|[Hlen Hs]]; [by eapply H3|].
    by apply list_lookup_singleton_Some in Hs as [Hz <-].
Qed.

Lemma removeScheduler_eq name co i : co_schedulers co !! name = Some i →
  ∃ o r, removeScheduler registry name co =
    (set_opt o (set_schedulers (delete name (co_schedulers co)) (set_controllers (alter sc_Stop i (co_controllers co)) co)), r).
Proof.
  intros Hi. unfold removeScheduler. rewrite Hi. cbn zeta. destruct (RemoveSchedulerCfg _ _ _) as [err|o]; [|by eexists _, _].
  by exists (co_opt co), (inl err).
Qed.

Lemma inv_remove name co co' r : schedulers_inv co → removeScheduler registry name co = (co', r) →
  schedulers_inv co' ∧ co_schedulers co' !! name = None.
Proof.
  intros [H1 H2 H3 H4]. destruct (co_schedulers co !! name) as [i|] eqn:Hi.
  2:{ unfold removeScheduler. rewrite Hi. by intros [= <- <-]. }
  destruct (removeScheduler_eq name co i Hi) as (o & r' & ->). intros [= <- <-].
  split; [|by apply lookup_delete_eq]. destruct (H1 _ _ Hi) as (s0 & Hs0 & Hname & Hstop).
  split; cbn [co_schedulers co_controllers co_cancelled co_opController set_opt set_schedulers set_controllers]; [| | |done].
  - intros name' j [Hne Hj]%lookup_delete_Some. destruct (H1 _ _ Hj) as (s & Hs & Hn & Hst).
    exists s. split; [|done]. rewrite list_lookup_alter_ne; [done|]. intros ->. simplify_eq.
  - intros j s Hs Hlive. destruct (decide (j = i)) as [->|Hne].
    + rewrite list_lookup_alter_eq, Hs0 in Hs. by injection Hs as <-.
    + rewrite list_lookup_alter_ne in Hs by done. rewrite lookup_delete_ne; [by apply H2|]. intros ->.
      by rewrite (H2 j s Hs Hlive) in Hi; injection Hi as ->.
  - intros j s Hs Hex. destruct (decide (j = i)) as [->|Hne].
    + rewrite list_lookup_alter_eq, Hs0 in Hs. by injection Hs as <-.
    + rewrite list_lookup_alter_ne in Hs by done. by eapply H3.
Qed.

(** Replacing a controller by one of the same name and context. *)
Lemma inv_replace co i s s' c oc : schedulers_inv co → co_controllers co !! i = Some s →
  name_of (sc_Scheduler s') = name_of (sc_Scheduler s) → sc_stopped s' = sc_stopped s → (sc_exited s' = true → sc_stopped s = true) →
  reachable env oc →
  schedulers_inv (set_opController oc (set_cluster c (set_controllers (<[i := s']> (co_controllers co)) co))).
Proof.
  intros [H1 H2 H3 H4] Hs Hn Hst Hex Hoc. pose proof (lookup_lt_Some _ _ _ Hs) as Hlt.
  split; cbn [co_schedulers co_controllers co_cancelled co_opController set_opController set_cluster set_controllers]; [| | |done].
  - intros name j Hj. destruct (H1 _ _ Hj) as (t & Ht & Htn & Htst). destruct (decide (i = j)) as [<-|Hne].
    + exists s'. rewrite list_lookup_insert_eq by done. simplify_eq. by rewrite Hn, Hst.
    + exists t. by rewrite list_lookup_insert_ne.
  - intros j t Ht Hlive. apply list_lookup_insert_Some in Ht as [(<- & -> & _)|[Hne Ht]]; [|by apply H2].
    rewrite Hn. apply H2; [done|]. by rewrite <-Hst.
  - intros j t Ht He. apply list_lookup_insert_Some in Ht as [(<- & -> & _)|[Hne Ht]]; [|by eapply H3]. rewrite Hst. by apply Hex.
Qed.

Lemma inv_oc co oc : schedulers_inv co → reachable env oc → schedulers_inv (set_opController oc co).
Proof. by intros [H1 H2 H3 H4] ?; split. Qed.

Lemma inv_tick order perm i co co' : schedulers_inv co → run_tick env order perm i co = (co', inr ()) →
  schedulers_inv co' ∧ co_schedulers co' = co_schedulers co.
Proof.
  intros Hinv. unfold run_tick. destruct (co_controllers co !! i) as [s|] eqn:Hs; [|by intros [= <-]].
  destruct (_ || _) eqn:Hex; [by intros [= <-]|]. apply orb_false_iff in Hex as [Hex _].
  pose proof (controller_Schedule_spec order perm s (co_cluster co)) as Hspec.
  destruct (controller_Schedule _ _ _) as [[s' c] r]. destruct Hspec as (Hn & Hst & Hex' & Hp). cbn zeta.
  assert (Hrep : ∀ oc, reachable env oc →
    schedulers_inv (set_opController oc (set_cluster c (set_controllers (<[i := s']> (co_controllers co)) co)))).
  { intros oc Hoc. eapply inv_replace; try done. by rewrite Hex', Hex. }
  destruct r as [err|[ops|]]; [done| |].
  - destruct (hand_over _ ops _) as [oc [err|b]] eqn:E; [done|]. intros [= <-]. split; [|done]. apply Hrep.
    unfold reachable. etrans; [apply Hinv|]. eapply hand_over_waiting; [by apply Hp|exact E].
  - intros [= <-]. split; [|done]. destruct Hinv as [H1 H2 H3 H4]. exact (Hrep _ H4).
Qed.

Lemma inv_done i co : schedulers_inv co → schedulers_inv (run_done i co) ∧ co_schedulers (run_done i co) = co_schedulers co.
Proof.
  intros Hinv. unfold run_done. destruct (co_controllers co !! i) as [s|] eqn:Hs; [|done]. destruct (_ && _) eqn:Hb; [|done].
  apply andb_true_iff in Hb as [Hst _]. split; [|done].
  exact (inv_replace co i s (sc_exit s) _ _ Hinv Hs eq_refl eq_refl (λ _, Hst) (inv_controller _ Hinv)).
Qed.

Lemma inv_stop co : schedulers_inv co → schedulers_inv (co_stop co).
Proof.
  intros [H1 H2 H3 H4]. split; cbn [co_schedulers co_controllers co_cancelled co_opController co_stop]; [| | |done].
  - intros name i Hi. destruct (H1 _ _ Hi) as (s & Hs & Hn & _). exists (sc_Stop s). by rewrite list_lookup_fmap, Hs.
  - intros i s Hs Hlive. rewrite list_lookup_fmap in Hs. destruct (_ !! i); [|done]. by injection Hs as <-.
  - intros i s Hs _. rewrite list_lookup_fmap in Hs. destruct (_ !! i); [|done]. by injection Hs as <-.
Qed.

Lemma co_step_inv user st st' : co_step user st st' → schedulers_inv st.1 → user_inv user st.1 st.2 →
  schedulers_inv st'.1 ∧ user_inv user st'.1 st'.2.
Proof.
  assert (Hkeep : ∀ co co' u, co_schedulers co' = co_schedulers co → user_inv user co u → user_inv user co' u).
  { intros co co' [] Heq; cbn; [done..|]. by rewrite Heq. }
  intros Hstep Hinv Hu. destruct Hstep as [co u sch args co' r Hn E|co u name co' r E|co sch i Hn _|co sch co' r E|co sch Hn Hnone
    |co sch args co' r E|co u order perm i co' E|co u i|co u|co u oc Hoc]; cbn in *.
  - unfold addScheduler in E. destruct (co_schedulers co !! name_of sch) eqn:Hnone; [by simplify_eq|]. split; [by eapply inv_start|].
    destruct (start_scheduler_eq sch args co) as [(c & err & Heq)|(c & Heq)]; rewrite Heq in E; injection E as <- <-; [done|].
    destruct u as [|?|sch']; cbn in *; [done..|]. rewrite lookup_insert_ne; [done|]. intros Hsame. rewrite Hsame in Hn. by destruct Hu.
  - destruct (inv_remove _ _ _ _ Hinv E) as [Hinv' _]. split; [done|]. destruct u as [|?|sch]; [done..|]. cbn in *.
    destruct (co_schedulers co !! name) as [i|] eqn:Hi; [|by unfold removeScheduler in E; rewrite Hi in E; injection E as <- <-].
    destruct (removeScheduler_eq name co i Hi) as (o & r' & Heq). rewrite Heq in E. injection E as <- <-. cbn.
    rewrite lookup_delete_None. naive_solver.
  - done.
  - by destruct (inv_remove _ _ _ _ Hinv E) as [Hinv' Hnone].
  - done.
  - split; [|done]. by eapply inv_start; [apply Hu|..].
  - destruct (inv_tick _ _ _ _ _ Hinv E) as [Hinv' Heq]. split; [done|]. by eapply Hkeep.
  - destruct (inv_done i co Hinv) as [Hinv' Heq]. split; [done|]. by eapply Hkeep.
  - split; [by apply inv_stop|]. by apply (Hkeep co).
  - split; [|by apply (Hkeep co)]. apply inv_oc; [done|]. eapply rtc_r; [apply Hinv|exact Hoc].
Qed.

(** The states of the coordinator, from a new one. *)
Definition co_reachable (user : bytes → Prop) co u : Prop :=
  ∃ cluster opt, rtc (co_step user) (newCoordinator cluster opt, UserIdle) (co, u).

Lemma co_reachable_inv user co u : co_reachable user co u → schedulers_inv co.
Proof.
  intros (c & opt & Hr). assert (Hinit : schedulers_inv (newCoordinator c opt : coord)) by (split; [done..|apply rtc_refl]).
  cut (schedulers_inv (co, u).1 ∧ user_inv user (co, u).1 (co, u).2); [by intros [? _]|].
  refine (rtc_ind_r (λ st, schedulers_inv st.1 ∧ user_inv user st.1 st.2) (newCoordinator c opt, UserIdle) _ _ (co, u) Hr); [done|].
  intros st1 st2 _ Hs [Hi Hu]. by eapply co_step_inv.
Qed.

(** C8: Whatever the interleaving of requests to add and remove schedulers, of the
    goroutine that adds the schedulers of the user, of the timers and ends of the
    schedulers' goroutines and of the shutdown: while the coordinator is not
    stopped, its map lists under each name exactly the goroutine of that name that
    was not told to stop, so no two such goroutines have a name in common; after
    it stopped all goroutines are told to; a goroutine returns only when told to;
    and the operator controller is in one of its reachable states.  Removing a
    listed scheduler tells its goroutine to stop and frees the name, even when
    the configuration cannot be changed. *)
Theorem schedulers_correct user co u : co_reachable user co u →
  (co_cancelled co = false → ∀ name i, co_schedulers co !! name = Some i ↔
     ∃ s, co_controllers co !! i = Some s ∧ sc_stopped s = false ∧ name_of (sc_Scheduler s) = name) ∧
  (co_cancelled co = true → ∀ s, s ∈ co_controllers co → sc_stopped s = true) ∧
  (∀ s, s ∈ co_controllers co → sc_exited s = true → sc_stopped s = true) ∧
  reachable env (co_opController co) ∧
  (∀ name i, co_schedulers co !! name = Some i →
     let co' := (removeScheduler registry name co).1 in
     co_schedulers co' = delete name (co_schedulers co) ∧ ∃ s, co_controllers co' !! i = Some s ∧ sc_stopped s = true).
Proof.
  intros Hr. pose proof (co_reachable_inv _ _ _ Hr) as [H1 H2 H3 H4]. split_and!.
  - intros Hc name i. split.
    + intros Hi. destruct (H1 _ _ Hi) as (s & Hs & Hn & Hst). exists s. by rewrite Hst.
    + intros (s & Hs & Hst & <-). by apply H2.
  - intros Hc s Hs. destruct (sc_stopped s) eqn:Hst; [done|]. apply list_elem_of_lookup in Hs as [i Hi].
    destruct (H1 _ _ (H2 i s Hi Hst)) as (s' & Hs' & _ & Hst'). congruence.
  - intros s [i Hi]%list_elem_of_lookup. by eapply H3.
  - done.
  - intros name i Hi. destruct (removeScheduler_eq name co i Hi) as (o & r & ->). cbn. split; [done|].
    destruct (H1 _ _ Hi) as (s & Hs & _). exists (sc_Stop s). by rewrite list_lookup_alter_eq, Hs.
Qed.
End schedulers.

(** ** The schedulers and the configuration *)

Lemma add_scheduler_spec tp args l :
  match add_scheduler tp args l with
  | None => mkSchedulerConfig tp args false ∈ l
  | Some l' =>
      (∃ l1 l2, l = l1 ++ mkSchedulerConfig tp args true :: l2 ∧ l' = l1 ++ mkSchedulerConfig tp args false :: l2) ∨
      (l' = l ++ [mkSchedulerConfig tp args false] ∧ ∀ d, mkSchedulerConfig tp args d ∉ l)
  end.
Proof.
  induction l as [|c l IH]; cbn [add_scheduler].
  - right. split; [done|]. intros d. apply not_elem_of_nil.
  - case_bool_decide as H1; [by subst; left|]. case_bool_decide as H2; [subst; left; by exists [], l|].
    destruct (add_scheduler tp args l) as [l'|]; cbn; [|by right].
    destruct IH as [(l1 & l2 & -> & ->)|[-> Hn]]; [left; by exists (c :: l1), l2|right]. split; [done|].
    intros d. rewrite not_elem_of_cons. split; [|done]. by destruct d.
Qed.

Section configuration.
Context `{!Unicode} `{!Classifier}.
Context {B V C Sch : Type} `{!RateLimit B} `{!Cluster C, !ScheduleCluster C, !SchedulerCluster C, !Scheduler Sch C}.
Variable env : nat → Snapshot.
Variable registry : Registry Sch.
Abbreviation coord := (coordinator B V C Sch).
Abbreviation name_of := (sch_GetName (C := C)).
Abbreviation cfgs co := (Schedulers (o_v (co_opt co))).
Implicit Types (co : coord) (sch : Sch) (cfg : SchedulerConfig) (l : list SchedulerConfig).

(** The requests that are made: types with their arguments.  The constructor of a
    type makes schedulers of the type, and different requests make schedulers of
    different names. *)
Variable request : bytes → option (list bytes) → Prop.
Record registry_ok : Prop := {
  reg_type : ∀ tp args sch, CreateScheduler registry tp args = inr sch → sch_GetType (C := C) sch = tp;
  reg_inj : ∀ tp args tp' args' sch sch', request tp args → request tp' args' →
    CreateScheduler registry tp args = inr sch → CreateScheduler registry tp' args' = inr sch' →
    name_of sch = name_of sch' → tp = tp' ∧ args = args';
}.
Hypothesis Hreg : registry_ok.

Definition entry_name cfg : option bytes :=
  match CreateScheduler registry (sc_Type cfg) (sc_Args cfg) with inr sch => Some (name_of sch) | inl _ => None end.

Definition entries_ok l : Prop :=
  Forall (λ cfg, request (sc_Type cfg) (sc_Args cfg) ∧ is_Some (entry_name cfg)) l ∧ NoDup (entry_name <$> l).

Definition enabled l (name : bytes) : Prop := ∃ cfg, cfg ∈ l ∧ sc_Disable cfg = false ∧ entry_name cfg = Some name.

(** The configuration has the schedulers of the map enabled, and no others. *)
Definition config_inv co : Prop :=
  entries_ok (cfgs co) ∧ ∀ name, is_Some (co_schedulers co !! name) ↔ enabled (cfgs co) name.

Lemma entry_unique l cfg cfg' name : entries_ok l → cfg ∈ l → cfg' ∈ l →
  entry_name cfg = Some name → entry_name cfg' = Some name → cfg = cfg'.
Proof.
  intros [_ Hnd] [i Hi]%list_elem_of_lookup [j Hj]%list_elem_of_lookup Hn Hn'.
  assert (i = j) as ->; [|congruence]. apply (NoDup_lookup _ i j (Some name) Hnd); rewrite list_lookup_fmap; [by rewrite Hi, <-Hn|by rewrite Hj, <-Hn'].
Qed.

Lemma entry_disable tp args d d' : entry_name (mkSchedulerConfig tp args d) = entry_name (mkSchedulerConfig tp args d').
Proof. done. Qed.

Lemma entries_ok_app l1 cfg l2 : entries_ok (l1 ++ cfg :: l2) → entries_ok (l1 ++ l2).
Proof.
  intros [Hf Hnd]. rewrite Forall_app, Forall_cons in Hf. rewrite fmap_app, fmap_cons in Hnd.
  split; [rewrite Forall_app; naive_solver|]. rewrite fmap_app. eapply sublist_NoDup; [exact Hnd|].
  apply sublist_app; [done|]. by apply sublist_cons.
Qed.

Lemma entries_ok_toggle l1 tp args d d' l2 :
  entries_ok (l1 ++ mkSchedulerConfig tp args d :: l2) → entries_ok (l1 ++ mkSchedulerConfig tp args d' :: l2).
Proof.
  intros [Hf Hnd]. rewrite Forall_app, Forall_cons in Hf. rewrite fmap_app, fmap_cons in Hnd.
  split; [rewrite Forall_app, Forall_cons; exact Hf|]. rewrite fmap_app, fmap_cons. exact Hnd.
Qed.

(** Enabled names around one entry, whose name is of no other entry. *)
Lemma enabled_split l1 cfg l2 name name' : entries_ok (l1 ++ cfg :: l2) → entry_name cfg = Some name →
  (enabled (l1 ++ l2) name' ↔ name' ≠ name ∧ enabled (l1 ++ cfg :: l2) name') ∧
  (enabled (l1 ++ cfg :: l2) name ↔ sc_Disable cfg = false).
Proof.
  intros Hok Hn. assert (Huniq : ∀ cfg', cfg' ∈ l1 ++ l2 → entry_name cfg' ≠ Some name).
  { destruct Hok as [_ Hnd]. rewrite fmap_app, fmap_cons, Hn in Hnd.
    apply NoDup_app in Hnd as (_ & Hdis & Hnd). apply NoDup_cons in Hnd as [Hnot2 _].
    assert (Hnot : Some name ∉ (entry_name <$> l1) ++ (entry_name <$> l2)).
    { rewrite not_elem_of_app. split; [|done]. intros Hin. apply (Hdis _ Hin). by left. }
    intros cfg' Hin Heq. apply Hnot. rewrite <-fmap_app, <-Heq. by apply list_elem_of_fmap_2. }
  assert (Hmid : ∀ cfg', cfg' ∈ l1 ++ cfg :: l2 ↔ cfg' = cfg ∨ cfg' ∈ l1 ++ l2) by (intros; rewrite !elem_of_app, elem_of_cons; tauto).
  split; [split|split].
  - intros (cfg' & Hin & Hd & Hn'). split; [intros ->; by eapply Huniq|]. exists cfg'. rewrite Hmid. tauto.
  - intros (Hne & cfg' & [->|Hin]%Hmid & Hd & Hn'); [congruence|]. by exists cfg'.
  - intros (cfg' & [->|Hin]%Hmid & Hd & Hn'); [done|]. by destruct (Huniq _ Hin).
  - intros Hd. exists cfg. rewrite Hmid. tauto.
Qed.

(** *** Adding and removing *)

Lemma add_entries tp args l sch : entries_ok l → request tp args → CreateScheduler registry tp args = inr sch →
  ¬ enabled l (name_of sch) →
  ∃ l', add_scheduler tp args l = Some l' ∧ entries_ok l' ∧ ∀ name, enabled l' name ↔ name = name_of sch ∨ enabled l name.
Proof.
  intros Hok Hreq Hcr Hnew. set (new := mkSchedulerConfig tp args). assert (Hn : ∀ d, entry_name (new d) = Some (name_of sch)).
  { intros d. unfold entry_name. cbn. by rewrite Hcr. }
  pose proof (add_scheduler_spec tp args l) as Hadd. destruct (add_scheduler tp args l) as [l'|].
  2:{ destruct Hnew. exists (new false). by split_and!. }
  exists l'. split; [done|]. destruct Hadd as [(l1 & l2 & -> & ->)|[-> Hnone]].
  - assert (Hok' : entries_ok (l1 ++ new false :: l2)) by (by eapply entries_ok_toggle). split; [done|]. intros name.
    destruct (enabled_split _ _ _ _ name Hok (Hn true)) as [E1 _], (enabled_split _ _ _ _ name Hok' (Hn false)) as [E2 E3].
    destruct (decide (name = name_of sch)) as [->|Hne]; [tauto|]. tauto.
  - assert (Hfresh : Some (name_of sch) ∉ entry_name <$> l).
    { intros (cfg & Hc & Hin)%list_elem_of_fmap. destruct Hok as [Hf _]. rewrite list.Forall_forall in Hf.
      destruct (Hf cfg Hin) as [Hreq' _]. unfold entry_name in Hc. destruct (CreateScheduler registry (sc_Type cfg) (sc_Args cfg)) as [|sch'] eqn:Hcr'; [done|].
      injection Hc as Hname. destruct (reg_inj Hreg _ _ _ _ _ _ Hreq Hreq' Hcr Hcr' Hname) as [-> ->].
      apply (Hnone (sc_Disable cfg)). by destruct cfg. }
    destruct Hok as [Hf Hnd]. split; [split|].
    + rewrite Forall_app, Forall_singleton. split; [done|]. split; [done|]. by rewrite Hn.
    + rewrite fmap_app, NoDup_app. cbn. rewrite Hn. split_and!; [done| |apply NoDup_singleton]. intros x Hx Hx'%list_elem_of_singleton. by subst x.
    + intros name. unfold enabled. setoid_rewrite elem_of_app. setoid_rewrite list_elem_of_singleton. split.
      * intros (cfg & [Hin| ->] & Hd & Hc); [right; by exists cfg|left]. rewrite Hn in Hc. congruence.
      * intros [->|(cfg & Hin & Hc)]; [exists (new false); rewrite Hn; tauto|exists cfg; tauto].
Qed.

Lemma remove_entries name l : entries_ok l →
  match remove_scheduler (create_name registry) name l with
  | inl _ => False
  | inr None => ∀ cfg, cfg ∈ l → entry_name cfg ≠ Some name
  | inr (Some l') => ∃ l1 cfg l2, l = l1 ++ cfg :: l2 ∧ entry_name cfg = Some name ∧
      (l' = l1 ++ mkSchedulerConfig (sc_Type cfg) (sc_Args cfg) true :: l2 ∨ l' = l1 ++ l2)
  end.
Proof.
  induction l as [|cfg l IH]; intros Hok; cbn [remove_scheduler]; [intros ? []%not_elem_of_nil|].
  pose proof Hok as [[[_ [n Hn]] _]%Forall_cons _]. pose proof (entries_ok_app [] cfg l Hok) as Hok'.
  assert (Hc : ∃ t, create_name registry (sc_Type cfg) (sc_Args cfg) = inr (n, t)).
  { unfold entry_name in Hn. unfold create_name. destruct (CreateScheduler registry (sc_Type cfg) (sc_Args cfg)); [done|]. injection Hn as <-. by eexists. }
  destruct Hc as [t ->]. case_bool_decide as Heq.
  - subst n. exists [], cfg, l. split_and!; [done..|]. destruct (IsDefaultScheduler t); auto.
  - specialize (IH Hok'). destruct (remove_scheduler _ _ _) as [err|[l'|]]; cbn; [done| |].
    + destruct IH as (l1 & cfg' & l2 & -> & Hn' & Hl'). exists (cfg :: l1), cfg', l2. split_and!; [done..|]. destruct Hl' as [-> | ->]; auto.
    + intros cfg' [->|Hin]%elem_of_cons; [congruence|by apply IH].
Qed.

Lemma config_remove name co co' r : config_inv co → is_Some (co_schedulers co !! name) →
  removeScheduler registry name co = (co', r) → config_inv co' ∧ r = inr ().
Proof.
  clear env. intros [Hok Hlive] Hs. pose proof Hs as [i Hi]. apply Hlive in Hs as (cfg & Hin & Hd & Hn).
  unfold removeScheduler, RemoveSchedulerCfg. rewrite Hi. cbn zeta. cbn [co_opt set_schedulers set_controllers].
  pose proof (remove_entries name (cfgs co) Hok) as Hrem. destruct (remove_scheduler _ _ _) as [err|[l'|]]; [done| |].
  2:{ by destruct (Hrem _ Hin). }
  intros [= <- <-]. split; [|done]. destruct Hrem as (l1 & cfg' & l2 & Hl & Hn' & Hl').
  assert (cfg' = cfg) as ->.
  { eapply entry_unique; [exact Hok| |exact Hin|done..]. rewrite Hl. apply elem_of_app. right. by left. }
  rewrite Hl in Hok, Hlive. unfold config_inv. cbn [co_opt co_schedulers set_opt set_schedulers set_controllers opt_store o_v set_Schedulers Schedulers].
  assert (Hdel : ∀ name', is_Some (delete name (co_schedulers co) !! name') ↔ name' ≠ name ∧ is_Some (co_schedulers co !! name')).
  { intros name'. destruct (decide (name' = name)) as [->|Hne]; [rewrite lookup_delete_eq|rewrite lookup_delete_ne by done]; [|tauto].
    split; [by intros []|tauto]. }
  setoid_rewrite Hdel. setoid_rewrite Hlive.
  destruct Hl' as [-> | ->].
  - assert (Hok' : entries_ok (l1 ++ mkSchedulerConfig (sc_Type cfg) (sc_Args cfg) true :: l2)) by (apply (entries_ok_toggle _ _ _ (sc_Disable cfg)); destruct cfg; exact Hok).
    split; [done|]. intros name'. destruct (enabled_split _ _ _ _ name' Hok Hn) as [E1 _].
    destruct (enabled_split _ _ _ name name' Hok') as [E2 E3]; [by rewrite <-Hn; destruct cfg|].
    destruct (decide (name' = name)) as [->|Hne]; [|tauto]. rewrite E3. cbn. split; [tauto|done].
  - split; [by eapply entries_ok_app|]. intros name'. destruct (enabled_split _ _ _ _ name' Hok Hn) as [E1 _]. tauto.
Qed.

Lemma config_add tp args sch co co' r : config_inv co → request tp args → CreateScheduler registry tp args = inr sch →
  addScheduler sch args co = (co', r) → config_inv co'.
Proof.
  intros Hinv Hreq Hcr. unfold addScheduler. destruct (co_schedulers co !! name_of sch) eqn:Hnone; [by intros [= <- <-]|].
  destruct (start_scheduler_eq sch args co) as [(c & err & ->)|(c & ->)]; intros [= <- <-]; [done|]. destruct Hinv as [Hok Hlive].
  rewrite (reg_type Hreg _ _ _ Hcr). destruct (add_entries tp args (cfgs co) sch Hok Hreq Hcr) as (l' & Hadd & Hok' & Hen).
  { rewrite <-Hlive, Hnone. by intros []. }
  unfold config_inv, AddSchedulerCfg. cbn [co_opt co_schedulers]. rewrite Hadd. cbn [opt_store o_v set_Schedulers Schedulers].
  split; [done|]. intros name. rewrite Hen, <-Hlive, lookup_insert_is_Some. destruct (decide (name = name_of sch)); naive_solver.
Qed.

(** *** Starting *)

Lemma entries_ok_sublist l l' : l `sublist_of` l' → entries_ok l' → entries_ok l.
Proof.
  intros Hsub [Hf Hnd]. split.
  - rewrite list.Forall_forall in *. intros cfg Hc. apply Hf. by eapply elem_of_sublist.
  - eapply sublist_NoDup; [exact Hnd|]. by apply fmap_sublist.
Qed.

Lemma enabled_cons cfg l name : enabled (cfg :: l) name ↔ sc_Disable cfg = false ∧ entry_name cfg = Some name ∨ enabled l name.
Proof. unfold enabled. setoid_rewrite elem_of_cons. naive_solver. Qed.

Definition all_prepare : Prop := ∀ sch (c : C), (sch_Prepare sch c).2 = inr ().

Lemma run_schedulers_spec l co : entries_ok l → (∀ name, enabled l name → co_schedulers co !! name = None) →
  match run_schedulers registry l co with
  | (co', kept) => kept `sublist_of` l ∧
      (∀ name, is_Some (co_schedulers co' !! name) ↔ is_Some (co_schedulers co !! name) ∨ enabled kept name) ∧
      (all_prepare → kept = l)
  end.
Proof.
  revert co. induction l as [|cfg l IH]; intros co Hok Hfresh; cbn [run_schedulers].
  { split_and!; [done| |done]. intros name. split; [tauto|]. intros [?|(cfg & []%not_elem_of_nil & _)]; done. }
  pose proof (entries_ok_app [] cfg l Hok) as Hok'. setoid_rewrite enabled_cons in Hfresh.
  destruct (sc_Disable cfg) eqn:Hd.
  { specialize (IH co Hok' (λ name Hen, Hfresh name (or_intror Hen))). destruct (run_schedulers _ l co) as [co' kept]. destruct IH as (Hs & Hm & Ha).
    split_and!; [by apply sublist_skip| |by intros Hall; rewrite (Ha Hall)]. intros name. rewrite Hm, enabled_cons, Hd. naive_solver. }
  pose proof Hok as [[[_ [n Hn]] _]%Forall_cons _]. destruct (enabled_split [] cfg l n n Hok Hn) as [Hother _]. cbn in Hother.
  pose proof (Hfresh n (or_introl (conj eq_refl Hn))) as Hnone. pose proof Hn as Hcr. unfold entry_name in Hcr.
  destruct (CreateScheduler registry _ _) as [|sch]; [done|]. injection Hcr as <-. unfold addScheduler. rewrite Hnone.
  destruct (sch_Prepare sch (co_cluster co)) as [c p] eqn:Hp. unfold start_scheduler. rewrite Hp. cbn zeta. destruct p as [err|[]].
  - specialize (IH (set_cluster c co) Hok' (λ name Hen, Hfresh name (or_intror Hen))). destruct (run_schedulers _ l _) as [co' kept].
    destruct IH as (Hs & Hm & Ha). split_and!; [by apply sublist_cons|done|]. intros Hall. specialize (Hall sch (co_cluster co)). by rewrite Hp in Hall.
  - match goal with |- context [run_schedulers _ l ?c1] => specialize (IH c1 Hok') end. cbn [co_schedulers] in IH.
    destruct (run_schedulers _ l _) as [co' kept]. destruct IH as (Hs & Hm & Ha).
    { intros name Hen. rewrite lookup_insert_ne; [by apply Hfresh; right|]. intros <-. by apply Hother in Hen as [? _]. }
    split_and!; [by apply sublist_skip| |by intros Hall; rewrite (Ha Hall)]. intros name. rewrite Hm, enabled_cons, Hd, Hn, lookup_insert_is_Some.
    destruct (decide (name = name_of sch)); naive_solver.
Qed.

Lemma run_config co : entries_ok (cfgs co) → co_schedulers co = ∅ → config_inv (run registry co) ∧
  (all_prepare → cfgs (run registry co) = cfgs co).
Proof.
  intros Hok Hempty. unfold run. pose proof (run_schedulers_spec (cfgs co) co Hok) as Hrun.
  destruct (run_schedulers _ _ co) as [co' kept]. destruct Hrun as (Hs & Hm & Ha); [by rewrite Hempty|]. split; [|done]. split.
  - by eapply entries_ok_sublist.
  - intros name. cbn. rewrite Hm, Hempty, lookup_empty. split; [intros [[]|]; done|tauto].
Qed.

(** Requests to add and remove schedulers, and the goroutines of the schedulers. *)
Inductive request_step : coord → coord → Prop :=
| request_add co tp args sch co' r : request tp args → CreateScheduler registry tp args = inr sch →
    addScheduler sch args co = (co', r) → request_step co co'
| request_remove co name co' r : removeScheduler registry name co = (co', r) → request_step co co'
| request_tick co order perm i co' r : run_tick env order perm i co = (co', r) → request_step co co'
| request_done co i : request_step co (run_done i co)
| request_stop co : request_step co (co_stop co).

Lemma run_tick_fields order perm i co :
  co_schedulers (run_tick env order perm i co).1 = co_schedulers co ∧ co_opt (run_tick env order perm i co).1 = co_opt co.
Proof.
  unfold run_tick. destruct (co_controllers co !! i); [|done]. destruct (_ || _); [done|]. destruct (controller_Schedule _ _ _) as [[s' c] r]. cbn zeta.
  destruct r as [err|[ops|]]; [done| |done]. by destruct (hand_over _ _ _).
Qed.

Lemma request_step_config co co' : request_step co co' → config_inv co → config_inv co'.
Proof.
  assert (Hsame : ∀ co co', co_schedulers co' = co_schedulers co → co_opt co' = co_opt co → config_inv co → config_inv co').
  { unfold config_inv. by intros ? ? -> ->. }
  intros [co0 tp args sch co1 r Hreq Hcr E|co0 name co1 r E|co0 order perm i co1 r E|co0 i|co0] Hinv.
  - by eapply config_add.
  - destruct (co_schedulers co0 !! name) as [j|] eqn:Hj; [eapply config_remove; [done|by exists j|exact E]|].
    unfold removeScheduler in E. rewrite Hj in E. by injection E as <- <-.
  - destruct (run_tick_fields order perm i co0) as [Hs Ho]. rewrite E in Hs, Ho. by eapply Hsame.
  - apply (Hsame co0); [..|done]; unfold run_done; destruct (_ !! i); try done; by destruct (_ && _).
  - by apply (Hsame co0).
Qed.

(** The states the coordinator gets to when it is started with a configuration. *)
Definition started_from cluster opt co : Prop := rtc request_step (run registry (newCoordinator cluster opt)) co.

Lemma started_config cluster opt co : entries_ok (Schedulers (o_v opt)) → started_from cluster opt co → config_inv co.
Proof.
  intros Hok Hr. refine (rtc_ind_r config_inv _ _ _ _ Hr); [by apply (run_config (newCoordinator cluster opt))|].
  intros ? ? _. apply request_step_config.
Qed.

End configuration.

(** ** Intervals *)

(** The interval after [n] rounds in vain. *)
Definition interval_after (n : nat) : Z := Nat.iter n base_GetNextInterval MinScheduleInterval.

(** The intervals until the longest one is reached, after 24 rounds. *)
Lemma first_intervals : forallb (λ n, (MinScheduleInterval <=? interval_after n) && (interval_after n <=? MaxScheduleInterval)
  && (interval_after n <? interval_after (S n))) (seq 0 24) = true.
Proof. vm_compute. reflexivity. Qed.

Lemma interval_max : interval_after 24 = MaxScheduleInterval ∧ base_GetNextInterval MaxScheduleInterval = MaxScheduleInterval.
Proof. split; vm_compute; reflexivity. Qed.

Lemma interval_stays n : (24 ≤ n)%nat → interval_after n = MaxScheduleInterval.
Proof.
  intros Hn. replace n with ((n - 24) + 24)%nat by lia. generalize (n - 24)%nat as k. induction k as [|k IH]; [apply interval_max|].
  change (base_GetNextInterval (interval_after (k + 24)) = MaxScheduleInterval). rewrite IH. apply interval_max.
Qed.

Lemma interval_bounds n : MinScheduleInterval ≤ interval_after n ≤ MaxScheduleInterval ∧
  ((n < 24)%nat → interval_after n < interval_after (S n)).
Proof.
  destruct (decide (n < 24)%nat) as [Hn|Hn].
  - pose proof (proj1 (forallb_forall _ _) first_intervals n) as Hf. rewrite !andb_true_iff, !Z.leb_le, Z.ltb_lt in Hf.
    destruct Hf as [[??]?]; [apply in_seq; lia|]. by split_and!.
  - rewrite interval_stays by lia. split; [|lia]. vm_compute. split; discriminate.
Qed.

Section intervals.
Context `{!Unicode} `{!Classifier}.
Context {C Sch : Type} `{!Cluster C, !ScheduleCluster C, !SchedulerCluster C, !Scheduler Sch C}.
Implicit Types (s : scheduleController Sch) (c : C).

(** The rounds of a controller, from a new one: [n] in vain since it was made or
    since operators were proposed last. *)
Inductive rounds : nat → scheduleController Sch → Prop :=
| rounds_new sch stopped : rounds 0 (mkScheduleController sch (sch_GetMinInterval (C := C) sch) stopped false)
| rounds_found n s c order perm s' c' ops : rounds n s → controller_Schedule order perm (s, c) = ((s', c'), inr (Some ops)) → rounds 0 s'
| rounds_vain n s c order perm s' c' : rounds n s → controller_Schedule order perm (s, c) = ((s', c'), inr None) → rounds (S n) s'
| rounds_stop n s : rounds n s → rounds n (sc_Stop s)
| rounds_exit n s : rounds n s → rounds n (sc_exit s).

(** C35: How often a scheduler runs.  For a scheduler with the intervals of the base
    scheduler the interval is always between 10 milliseconds and 5 seconds: it is
    the shortest when operators were proposed in the last round, grows with every
    round in vain, and after 24 rounds in vain it is the longest and stays so. *)
Theorem interval_correct n s :
  (∀ sch : Sch, sch_GetMinInterval (C := C) sch = MinScheduleInterval ∧ ∀ i, sch_GetNextInterval (C := C) sch i = base_GetNextInterval i) →
  rounds n s →
  MinScheduleInterval ≤ GetInterval s ≤ MaxScheduleInterval ∧
  (n = 0%nat → GetInterval s = MinScheduleInterval) ∧
  ((24 ≤ n)%nat → GetInterval s = MaxScheduleInterval) ∧
  (∀ c order perm s' c', (n < 24)%nat → controller_Schedule order perm (s, c) = ((s', c'), inr None) → GetInterval s < GetInterval s').
Proof.
  intros Hbase Hr. assert (Hvain : ∀ s0 c order perm s' c', controller_Schedule order perm (s0, c) = ((s', c'), inr None) →
    GetInterval s' = base_GetNextInterval (GetInterval s0)).
  { intros s0 c order perm s' c'. unfold controller_Schedule. destruct (schedule_retry _ _ _ _ _) as [[sch c1] [err|[ops|]]]; [done..|].
    intros [= <- <-]. apply Hbase. }
  assert (Hi : GetInterval s = interval_after n).
  { induction Hr as [sch stopped|n s c order perm s' c' ops _ _ E|n s c order perm s' c' _ IH E|n s _ IH|n s _ IH]; [apply Hbase| | |done..].
    - revert E. unfold controller_Schedule. destruct (schedule_retry _ _ _ _ _) as [[sch c1] [err|[ops'|]]]; [done| |done].
      intros [= <- <- <-]. apply Hbase.
    - rewrite (Hvain _ _ _ _ _ _ E), IH. done. }
  destruct (interval_bounds n) as [[Hmin Hmax] Hlt]. rewrite Hi. split_and!; [done|done|by intros ->|apply interval_stays|].
  intros c order perm s' c' Hn E. rewrite (Hvain _ _ _ _ _ _ E), Hi. by apply Hlt.
Qed.
End intervals.
