(* ===== verification/PatrolProps.v ===== *)
(** * Checking and patrolling regions: properties

    What the checkers propose is fit for the operator controller, so checking a
    region leads it from one of its reachable states to another; and the patrol
    passes over all regions in key order unless operators are in its way. *)

From S2P Require Import Prelude GoBytes BTree Strconv Strings Float KV Metapb Region RegionTree RegionMap RegionsInfo RegionsInfoProps Cache Storage Store Statistics Config Operator OperatorProps WaitingOperator OperatorController OperatorControllerInv OperatorControllerProps Schedule ScheduleProps Structure Checkers CheckersProps Plugin Schedulers SchedulersProps NamespaceCluster RangeCluster RangeClusterProps Coordinator CoordinatorProps.

(** ** What the checkers propose *)

Section proposals.
Context `{!Unicode} `{!Classifier}.
Context {C : Type} `{!Cluster C, !ScheduleCluster C}.
Implicit Types (c : C) (region : RegionInfo).

(** Whatever the method proposes has the property. *)
Definition gives {A} (m : M C (option A)) (Q : A → Prop) : Prop := ∀ c c' x, m c = (c', inr (Some x)) → Q x.

Lemma gives_none {A} (Q : A → Prop) : gives (λ c, (c, inr None)) Q.
Proof. by intros c c' x. Qed.

Lemma gives_bind {A A'} (m : M C (option A)) (f : option A → M C (option A')) Q :
  (∀ r, (∃ c c', m c = (c', inr r)) → gives (f r) Q) → gives (x ← m; f x) Q.
Proof.
  intros Hf c c' x. rewrite M_bind_eq. destruct (m c) as [c1 [err|r]] eqn:E; [done|]. intros Hx. by eapply (Hf r); [by eexists _, _|].
Qed.

Lemma gives_or_nil {A} (m : M C A) (Q : A → Prop) : (∀ c c' x, m c = (c', inr x) → Q x) → gives (or_nil m) Q.
Proof. intros Hm c c' x. unfold or_nil. destruct (m c) as [c1 [[]|y]] eqn:E; try done. intros [= <- <-]. by eapply Hm. Qed.

(** An operator of normal or high priority that does not merge. *)
Definition plain_op (op : Operator) : Prop :=
  Z.land (op_kind op) OpMerge = 0 ∧ (length (op_steps op) ≤ 4)%nat ∧ (op_level op = NormalPriority ∨ op_level op = HighPriority).

Lemma plain_proposal op : plain_op op → proposal [op].
Proof.
  intros (Hk & Hs & Hl). split; [done|]. rewrite !Forall_singleton. split; [lia|]. exists (op_level op).
  split; [destruct Hl as [-> | ->]; vm_compute; split; congruence|]. by rewrite Forall_singleton.
Qed.

Lemma plain_raise op : plain_op op → plain_op (SetPriorityLevel HighPriority op).
Proof. intros (Hk & Hs & _). split_and!; [done..|by right]. Qed.

Lemma removePeerSteps_shape c region storeID ids kind steps : removePeerSteps c region storeID ids = inr (kind, steps) →
  (kind = OpRegion ∨ kind = Z.lor OpLeader OpRegion) ∧ (length steps ≤ 2)%nat.
Proof.
  unfold removePeerSteps. destruct (GetLeader region) as [l|]; [destruct (Peer_StoreId l =? storeID); [destruct (find_first _ _)|]|];
    intros [= <- <-]; cbn; (split; [|lia]); [by right|by left..].
Qed.

Lemma add_steps_length s p c : (length (CreateAddPeerSteps s p c) ≤ 2)%nat.
Proof. unfold CreateAddPeerSteps. destruct (IsRaftLearnerEnabled c); cbn; lia. Qed.

Lemma remove_op_plain now followerIDs desc region storeID : gives (remove_op now followerIDs desc region storeID) plain_op.
Proof.
  apply gives_or_nil. intros c c' op [= _ Hop]. unfold CreateRemovePeerOperator in Hop.
  destruct (removePeerSteps _ _ _ _) as [|[k steps]] eqn:E; [done|]. injection Hop as <-.
  apply removePeerSteps_shape in E as [Hk Hs]. split_and!; [by destruct Hk as [-> | ->]|cbn; lia|by left].
Qed.

Lemma move_op_plain now followerIDs desc region old new : gives (move_op now followerIDs desc OpReplica region old new) plain_op.
Proof.
  apply gives_bind. intros [p|] _; [|by intros c c' op]. apply gives_or_nil. intros c c' op [= _ Hop]. unfold CreateMovePeerOperator in Hop.
  destruct (removePeerSteps _ _ _ _) as [|[k steps]] eqn:E; [done|]. injection Hop as <-.
  apply removePeerSteps_shape in E as [Hk Hs]. pose proof (add_steps_length (Peer_StoreId p) (Peer_Id p) c) as Ha.
  split_and!; [by destruct Hk as [-> | ->]| |by left]. cbn [op_steps NewOperator]. rewrite length_app. lia.
Qed.

Lemma fixPeer_plain now call range followerIDs classified i region peer status :
  gives (fixPeer now call range followerIDs classified i region peer status) plain_op.
Proof.
  intros c c' op. unfold fixPeer. destruct (_ <? _); [apply remove_op_plain|]. destruct (bool_decide _); [apply remove_op_plain|].
  destruct (SelectBestReplacementStore _ _ _ _ _ _ _ _ _) as [id score]. destruct (id =? 0); [done|]. apply move_op_plain.
Qed.

Lemma check_number_plain now call range followerIDs classified region :
  gives (check_number now call range followerIDs classified region) plain_op.
Proof.
  intros c c' op. unfold check_number. cbn zeta. destruct (_ && _).
  { revert c c' op. change (gives (make_up now call range classified region) plain_op). apply gives_bind. intros [p|] _; [|by intros c c' op].
    intros c c' op [= _ <-]. pose proof (add_steps_length (Peer_StoreId p) (Peer_Id p) c) as Ha. split_and!; [done|cbn; lia|by left]. }
  destruct (_ && _).
  { destruct (selectWorstPeer _ _ _ _) as [[p|] score]; [|done]. apply remove_op_plain. }
  unfold checkBestReplacement. destruct (DisableLocationReplacement _); [done|]. destruct (selectWorstPeer _ _ _ _) as [[p|] score]; [|done].
  destruct (SelectBestReplacementStore _ _ _ _ _ _ _ _ _) as [id new]. destruct (id =? 0); [done|]. destruct (f64_leb _ _); [done|]. apply move_op_plain.
Qed.

Lemma replica_Check_plain now call range followerIDs classified region :
  gives (replica_Check now call range followerIDs classified region) plain_op.
Proof.
  apply gives_bind. intros [op|] (c & c' & E).
  { intros c1 c1' op' [= _ <-]. apply plain_raise. unfold checkDownPeer in E. destruct (DisableRemoveDownReplica _); [done|].
    destruct (down_peer _ _ _); [|done]. by eapply fixPeer_plain. }
  clear c c' E. apply gives_bind. intros [op|] (c & c' & E); [|apply check_number_plain].
  intros c1 c1' op' [= _ <-]. apply plain_raise. unfold checkOfflinePeer in E. destruct (DisableReplaceOfflineReplica _); [done|].
  destruct (negb _); [done|]. destruct (offline_peer _ _); [|done]. by eapply fixPeer_plain.
Qed.

Lemma namespace_Check_plain now call range followerIDs classified rand regionFilters rules region :
  gives (namespace_Check now call range followerIDs classified rand regionFilters rules region) plain_op.
Proof.
  intros c c' op. unfold namespace_Check. destruct (DisableNamespaceRelocation _); [done|].
  destruct (if (length regionFilters =? 0)%nat then _ else _) as [err|[|]]; [done..|]. destruct (_ || _); [done|]. cbn zeta.
  destruct (_ =? 0)%nat; [done|]. destruct (find_first _ _); [|done]. destruct (_ =? 0); [done|]. apply move_op_plain.
Qed.

Lemma learner_Check_plain now region op : learner_Check now region = Some op → plain_op op.
Proof.
  unfold learner_Check. destruct (find_first _ _); [|done]. intros [= <-]. split_and!; [done|cbn; lia|by left].
Qed.

(** *** Merges *)

Definition short (adds : list (list OperatorStep)) : Prop := Forall (λ l : list OperatorStep, (length l ≤ 2)%nat) adds.

Lemma match_adds_short inter peers toAdds leader kind c c' r : short toAdds →
  match_adds inter peers toAdds leader kind c = (c', inr r) → short r.1.1.
Proof.
  revert toAdds leader kind c. induction peers as [|p peers IH]; intros toAdds leader kind c Hs; cbn [match_adds].
  { by intros [= _ <-]. }
  destruct (decide _); [by apply IH|]. rewrite M_bind_eq. unfold alloc_add_steps. destruct (AllocPeer _ c) as [c1 [err|q]]; [done|].
  apply IH. unfold short. rewrite Forall_app, Forall_singleton. split; [done|]. destruct (IsRaftLearnerEnabled c1); cbn; lia.
Qed.

Lemma match_removes_short inter peers toAdds leader id steps kind index r : short toAdds →
  match_removes inter peers toAdds leader id steps kind index = inr r → (length r.1.1 ≤ length steps + 3 * length peers)%nat.
Proof.
  intros Hs. revert steps kind index. induction peers as [|p peers IH]; intros steps kind index; cbn [match_removes].
  { intros [= <-]. cbn. lia. }
  destruct (decide _); [intros E; apply IH in E; cbn [length]; lia|].
  destruct (_ && _); [intros E; apply IH in E; cbn [length]; lia|].
  destruct (toAdds !! index) as [add|] eqn:Ha; [|done]. intros E. apply IH in E. rewrite !length_app in E. cbn [length] in *.
  pose proof (Forall_lookup_1 _ _ _ _ Hs Ha) as Hlen. cbn in Hlen. lia.
Qed.

Lemma matchPeerSteps_short source target order c c' r : matchPeerSteps source target order c = (c', inr r) →
  (length r.1 ≤ 3 * length (GetPeers source) + 5)%nat.
Proof.
  unfold matchPeerSteps. destruct (negb _); [done|]. cbn zeta. rewrite M_bind_eq.
  destruct (match_adds _ _ _ _ _ c) as [c1 [err|[[toAdds leader] kind]]] eqn:Ea; [done|]. cbn [lift_result]. intros [= <- Hf].
  apply match_adds_short in Ea; [|constructor]. cbn in Ea. unfold match_finish in Hf.
  set (tl := match_leader _ _ _) in Hf. destruct (if _ && _ then _ else _) as [[steps0 kind0] leader0] eqn:E0.
  assert (length steps0 ≤ 1)%nat by (destruct (_ && _); injection E0 as <- _ _; cbn; lia).
  destruct (match_removes _ _ _ _ _ _ _ _) as [err|[[steps1 kind1] index]] eqn:Er; [done|].
  apply match_removes_short in Er; [|done]. cbn in Er. clear E0. revert Hf. destruct (negb (leader0 =? 0)).
  - destruct (toAdds !! index) as [add|] eqn:Hadd; [|done]. destruct (negb (S index =? _)%nat); [done|]. intros [= <-]. cbn.
    pose proof (Forall_lookup_1 _ _ _ _ Ea Hadd) as Hlen. cbn in Hlen. rewrite !length_app. cbn. lia.
  - destruct (negb (index =? _)%nat); [done|]. intros [= <-]. cbn. lia.
Qed.

Lemma merge_Check_proposal now splitCache order region : Z.of_nat (length (GetPeers region)) < 2 ^ 28 →
  gives (merge_Check now splitCache order region) proposal.
Proof.
  intros Hp c c' ops. unfold merge_Check. destruct (merge_candidate _ _ _ _); [|done]. destruct (merge_target c region) as [t|]; [|done].
  revert c c' ops. change (gives (or_nil (CreateMergeRegionOperator "merge-region" region t OpMerge (order t) now)) proposal).
  apply gives_or_nil. intros c c' ops. unfold CreateMergeRegionOperator. rewrite M_bind_eq.
  destruct (matchPeerSteps _ _ _ c) as [c1 [err|[steps k]]] eqn:E; [done|]. intros [= _ <-]. apply matchPeerSteps_short in E. cbn in E.
  split_and!.
  - cbn. intros H0'. apply (f_equal (λ z, Z.testbit z 7)) in H0'. rewrite Z.land_spec, !Z.lor_spec, !orb_true_r in H0'. done.
  - repeat constructor; cbn [op_steps NewOperator]; rewrite ?length_app; cbn; lia.
  - exists NormalPriority. split; [vm_compute; split; congruence|]. by repeat constructor.
Qed.

Lemma one_proposal (m : M C (option Operator)) : gives m plain_op → gives (one m) proposal.
Proof.
  intros Hm c c' ops. unfold one. rewrite M_bind_eq. destruct (m c) as [c1 [err|[op|]]] eqn:E; [done| |done].
  intros [= _ <-]. apply plain_proposal. by eapply Hm.
Qed.
End proposals.

(** ** Handing over *)

Lemma wp_and {S A} E (m : M S A) s (Q Q' : A → S → Prop) : wp E m s Q → wp (λ _, True) m s Q' → wp E m s (λ a s', Q a s' ∧ Q' a s').
Proof. unfold wp. by destruct (m s) as [s' [e|a]]. Qed.

Lemma wp_errors {S A} (E E' : go_error → Prop) (m : M S A) s Q : (∀ e, E e → E' e) → wp E m s Q → wp E' m s Q.
Proof. unfold wp. destruct (m s) as [s' [e|a]]; auto. Qed.

Section hand_over.
Context {B : Type} `{!RateLimit B} (env : nat → Snapshot).
Hypothesis Henv : env_ok env.
Implicit Types (s : OperatorController B) (ops : list Operator).

Lemma steps_inv s s' : rtc (oc_step env) s s' → oc_inv s [] → oc_inv s' [].
Proof. induction 1 as [|s1 s2 s3 Hs _ IH]; [done|]. intros Hi. by eapply IH, oc_step_inv. Qed.

Lemma locked_operators ps s : ps ≠ [] →
  wp (λ _, True) (OC.AddWaitingOperator_locked env ps) s (λ _ s', operators s' = operators s).
Proof.
  assert (Hputs : ∀ g s, wp (λ _, True) (OC.for_each (B := B) OC.wop_Put g) s (λ _ s', operators s' = operators s)).
  { induction g as [|p g IH]; intros t; [done|]. cbn [OC.for_each]. apply wp_bind. unfold OC.wop_Put at 1. apply wp_get, wp_bind.
    unfold wp at 1. cbn [lift_result]. destruct (PutOperator _ _ _) as [e|w]; [done|]. apply (IH (OC.set_wop w t).1). }
  intros Hne. wp_frame ok s1 Hf1. destruct ok; cbn [negb].
  2:{ wp_frame a s2 Hf2. apply wp_ret. by rewrite (fr_operators _ _ Hf2), (fr_operators _ _ Hf1). }
  apply wp_first_desc; [done|]. apply wp_read. intros s2 Hf2 _ _. apply wp_get.
  destruct (_ <=? _); [apply wp_ret; by rewrite (fr_operators _ _ Hf2), (fr_operators _ _ Hf1)|].
  apply wp_bind. eapply wp_mono; [apply Hputs|]. cbv beta. intros _ s3 Hs3. apply wp_bind, wp_ret. cbn.
  by rewrite Hs3, (fr_operators _ _ Hf2), (fr_operators _ _ Hf1).
Qed.

(** What follows from handing over a proposal. *)
Definition handed s (b : bool) s' : Prop :=
  rtc (oc_step env) s s' ∧ (b = false → operators s' = operators s).

Lemma wp_hand_over add ops s : oc_inv s [] → proposal ops →
  (∀ s1 ps, oc_inv s1 [] → waiting_group (oc_heap s1) ps → wp (λ e, is_panic e ∧ ¬ calm (B := B) env) (add ps) s1 (handed s1)) →
  wp (λ e, is_panic e ∧ ¬ calm (B := B) env) (hand_over add ops) s (handed s).
Proof.
  intros Hinv Hp Hadd. apply wp_bind. cbn [wp new_ops]. pose proof (new_ops_steps env s ops (proj1 (proj2 Hp))) as Hs.
  eapply wp_mono; [apply Hadd; [by eapply steps_inv|by apply (proposal_waiting (oc_heap s))]|]. intros b s' [Hs' Hb]. by split; [etrans|].
Qed.

Lemma wp_wait ps s : oc_inv s [] → waiting_group (oc_heap s) ps →
  wp (λ e, is_panic e ∧ ¬ calm (B := B) env) (OC.AddWaitingOperator env ps) s (handed s).
Proof.
  intros Hinv Hg. eapply wp_mono; [eapply wp_and; [|apply (AddWaitingOperator_steps env ps s Hg)]|].
  2:{ cbv beta. intros b s' [Hb Hs]. split; [exact Hs|exact Hb]. }
  apply wp_modes. intros E Hm. apply wp_bind.
  eapply wp_mono; [eapply wp_and; [apply (wp_AddWaitingOperator_locked E env ps s Hinv Hg)|apply locked_operators; by destruct Hg as [? _]; destruct ps]|].
  cbv beta. intros [|] s1 [Hinv1 Ho]; [|by apply wp_ret]. apply wp_bind.
  eapply wp_mono; [by apply (wp_PromoteWaitingOperator E env Henv Hm)|]. cbv beta. intros _ s2 _. by apply wp_ret.
Qed.

Lemma wp_add ps s : oc_inv s [] → waiting_group (oc_heap s) ps →
  wp (λ e, is_panic e ∧ ¬ calm (B := B) env) (OC.AddOperator env ps) s (handed s).
Proof.
  intros Hinv (Hg & Hin & _). assert (Hlen : (length ps ≤ 2)%nat) by (destruct ps as [|? [|? [|]]]; cbn in *; (lia || done)).
  pose proof (wp_modes env _ s _ (λ E Hm, wp_AddOperator E env Henv Hm ps s [] Hinv Hin Hlen)) as Hwp. unfold wp in *.
  destruct (OC.AddOperator env ps s) as [s' [e|b]] eqn:E; [done|]. split; [by eapply rtc_once, step_AddOperator|].
  intros ->. destruct Hwp as (_ & _ & _ & Hf & _). apply Hf.
Qed.
End hand_over.

(** ** Checking a region *)

Section check_region.
Context `{!Unicode} `{!Classifier}.
Context {B C : Type} `{!RateLimit B} `{!Cluster C, !ScheduleCluster C, !SchedulerCluster C, !ScheduleClusterLaws C}.
Variable env : nat → Snapshot.
Variables (classified mergeSupported : bool) (splitCache : Ttl.IDTTL).
Hypothesis Henv : env_ok env.
Abbreviation state := (OperatorController B * C)%type.
Implicit Types (oc : OperatorController B) (c : C) (region : RegionInfo) (inp : nat → CheckInputs).

(** A region the checkers can handle: its leader is one of its peers, it has no
    learners, the heartbeats report its own peers as down; the orders in which
    the checkers see stores and followers are orders of them, the rules of the
    plugin can be read, and the namespace of a region does not depend on where its
    peers are. *)
Record checkable inp c region : Prop := {
  ch_view : ValidView (view c);
  ch_plain : plain_region region;
  ch_reported : reported region;
  ch_range : ∀ i k l, in_range (inp i) k l ≡ₚ l;
  ch_followers : ∀ i, is_FollowerIDs region (in_followerIDs (inp i) region);
  ch_rules : ∃ user, (if (length (in_regionFilters (inp 1%nat)) =? 0)%nat then inr false
    else user_region (view c) (in_regionFilters (inp 1%nat)) (in_rules (inp 1%nat)) region) = inr user;
  ch_namespace : ∀ r id, GetRegionNamespace (Region.Clone r [WithRemoveStorePeer id]) = GetRegionNamespace r;
  ch_merge : ∀ t, merge_target c region = Some t → matchable region t (in_order (inp 3%nat) t);
}.

Lemma merge_target_view c c' region : view c' = view c → merge_target c' region = merge_target c region.
Proof. intros Hv. rewrite !merge_target_eq. by rewrite Hv. Qed.

Lemma checkable_view inp c c' region : view c' = view c → checkable inp c region → checkable inp c' region.
Proof.
  intros Hv [Hval Hpl Hrep Hrg Hfo Hru Hns Hme]. split; rewrite ?Hv; try done. intros t. rewrite (merge_target_view c); auto.
Qed.

(** What checking has done so far: [good] is what the absence of errors depends on. *)
Definition checked (good : Prop) oc c (b : bool) (st : state) : Prop :=
  rtc (oc_step env) oc st.1 ∧ (good → view st.2 = view c) ∧ (b = false → operators st.1 = operators oc).

Definition bad inp c region : go_error → Prop := λ _, checkable inp c region → ¬ calm (B := B) env.

Lemma checked_trans good oc c oc1 c1 b st : checked good oc c false (oc1, c1) → checked good oc1 c1 b st → checked good oc c b st.
Proof.
  intros (Hs1 & Hv1 & Ho1) (Hs2 & Hv2 & Ho2). split_and!.
  - by etrans.
  - intros Hg. rewrite (Hv2 Hg). exact (Hv1 Hg).
  - intros Hb. rewrite (Ho2 Hb). exact (Ho1 eq_refl).
Qed.

(** A check that proposes proposals, and returns on a checkable region. *)
Definition sound_check inp c region (check : M C (option (list Operator))) : Prop :=
  gives check proposal ∧ ∀ c', view c' = view c → checkable inp c' region → ∃ c2 r, check c' = (c2, inr r) ∧ view c2 = view c'.

Lemma wp_propose inp c region oc add ops : oc_inv oc [] → (∀ l, ops = Some l → proposal l) →
  (∀ s1 ps, oc_inv s1 [] → waiting_group (oc_heap s1) ps → wp (λ e, is_panic e ∧ ¬ calm (B := B) env) (add ps) s1 (handed env s1)) →
  wp (bad inp c region) (propose add ops) (oc, c) (checked (checkable inp c region) oc c).
Proof.
  intros Hinv Hops Hadd. destruct ops as [l|]; cbn [propose]; [|by apply wp_ret].
  pose proof (wp_hand_over env Henv add l oc Hinv (Hops l eq_refl) Hadd) as Hw. unfold wp, on_oc in *.
  destruct (hand_over add l oc) as [oc' [e|b]]; [by intros _; destruct Hw|]. by destruct Hw as [Hs Ho].
Qed.

Lemma wp_or_else inp c region oc guard check next : oc_inv oc [] → sound_check inp c region check →
  (∃ b, guard (oc, c) = ((oc, c), inr b)) →
  (∀ oc' c', oc_inv oc' [] → checked (checkable inp c region) oc c false (oc', c') →
     wp (bad inp c region) next (oc', c') (checked (checkable inp c region) oc c)) →
  wp (bad inp c region) (or_else env guard check next) (oc, c) (checked (checkable inp c region) oc c).
Proof.
  intros Hinv [Hgive Hret] [b Hg] Hnext. unfold or_else. apply wp_bind. unfold wp at 1. rewrite Hg. destruct b; [|by apply Hnext].
  apply wp_bind. unfold wp at 1, on_cluster. pose proof (Hret c eq_refl) as Hc. destruct (check c) as [c1 [e|r]] eqn:E.
  { intros Hch. by destruct (Hc Hch) as (? & ? & ? & _). }
  assert (Hc1 : checked (checkable inp c region) oc c false (oc, c1)).
  { split_and!; [apply rtc_refl| |done]. intros Hch. destruct (Hc Hch) as (? & ? & [= <- _] & ?). done. }
  apply wp_bind. eapply wp_mono; [eapply (wp_errors (bad inp c1 region)), (wp_propose inp c1 region oc (OC.AddWaitingOperator env) r)|].
  - intros e Hbad Hch. apply Hbad. eapply checkable_view; [|exact Hch]. by apply Hc1.
  - done.
  - intros l ->. by eapply Hgive.
  - intros. by apply wp_wait.
  - cbv beta. intros b [oc2 c2] Hst.
    assert (Hst' : checked (checkable inp c region) oc c b (oc2, c2)).
    { destruct Hc1 as (_ & Hv & _), Hst as (Hs & Hv2 & Ho). split_and!; [done| |done]. intros Hch.
      rewrite Hv2; [exact (Hv Hch)|]. by eapply checkable_view; [exact (Hv Hch)|]. }
    destruct b; [by apply wp_ret|]. apply Hnext; [|done]. exact (steps_inv env Henv oc oc2 (proj1 Hst') Hinv).
Qed.

Lemma or_else_skip guard check next (st : state) : guard st = (st, inr false) → or_else env guard check next st = next st.
Proof. intros Hg. unfold or_else. by rewrite M_bind_eq, Hg. Qed.

Lemma below_reads mask limit oc c : ∃ b, below mask limit (oc, c) = ((oc, c), inr b).
Proof. by eexists. Qed.

Lemma namespace_sound inp c region : sound_check inp c region
  (one (namespace_Check (in_now (inp 1%nat)) (in_call (inp 1%nat)) (in_range (inp 1%nat)) (in_followerIDs (inp 1%nat)) classified
    (in_rand (inp 1%nat)) (in_regionFilters (inp 1%nat)) (in_rules (inp 1%nat)) region)).
Proof.
  split; [apply one_proposal, namespace_Check_plain|]. intros c' _ [Hval Hpl Hrep Hrg Hfo [user Hru] Hns Hme].
  destruct (namespace_check_yields (in_now (inp 1%nat)) (in_call (inp 1%nat)) _ _ classified (Hrg 1%nat) c' region (in_rand (inp 1%nat)) _ _ user
    Hpl (Hfo 1%nat) Hru) as (c2 & r & E & Hv & _).
  unfold one. rewrite M_bind_eq, E. by eexists _, _.
Qed.

Lemma replica_sound inp c region : sound_check inp c region
  (one (replica_Check (in_now (inp 2%nat)) (in_call (inp 2%nat)) (in_range (inp 2%nat)) (in_followerIDs (inp 2%nat)) classified region)).
Proof.
  split; [apply one_proposal, replica_Check_plain|]. intros c' _ [Hval Hpl Hrep Hrg Hfo _ Hns Hme].
  destruct (replica_check_yields (in_now (inp 2%nat)) (in_call (inp 2%nat)) _ _ classified (Hrg 2%nat) Hns c' region Hpl (Hfo 2%nat) Hrep)
    as (c2 & r & E & Hv & _).
  unfold one. rewrite M_bind_eq, E. by eexists _, _.
Qed.

Lemma merge_sound inp c region : Z.of_nat (length (GetPeers region)) < 2 ^ 28 → sound_check inp c region
  (merge_Check (in_now (inp 3%nat)) splitCache (in_order (inp 3%nat)) region).
Proof.
  intros Hp. split; [by apply merge_Check_proposal|]. intros c' _ [Hval Hpl Hrep Hrg Hfo _ Hns Hme].
  destruct (merge_check_yields (in_now (inp 3%nat)) c' region splitCache _ Hme) as (c2 & r & E & Hv & _). by eexists _, _.
Qed.

Lemma wp_from inp c region oc oc1 c1 (m : M state bool) : checked (checkable inp c region) oc c false (oc1, c1) →
  wp (bad inp c1 region) m (oc1, c1) (checked (checkable inp c1 region) oc1 c1) →
  wp (bad inp c region) m (oc1, c1) (checked (checkable inp c region) oc c).
Proof.
  intros H1 Hm. assert (Hch : checkable inp c region → checkable inp c1 region).
  { intros Hch. by eapply checkable_view; [apply H1|]. }
  eapply wp_mono; [eapply wp_errors; [|exact Hm]|].
  - intros e Hbad Hc. by apply Hbad, Hch.
  - intros b st (Hs & Hv & Ho). apply (checked_trans _ _ _ oc1 c1); [done|]. split_and!; auto.
Qed.

Lemma wp_checkRegion inp region oc c : oc_inv oc [] → Z.of_nat (length (GetPeers region)) < 2 ^ 28 →
  wp (bad inp c region) (checkRegion env classified mergeSupported splitCache inp region) (oc, c) (checked (checkable inp c region) oc c).
Proof.
  intros Hinv Hp. unfold checkRegion. apply wp_bind. eapply wp_mono; [apply wp_propose; [done| |by intros; apply wp_add]|].
  { intros l Hl. destruct (learner_Check _ region) eqn:El; [|done]. injection Hl as <-. by eapply plain_proposal, learner_Check_plain. }
  cbv beta. intros [|] [oc1 c1] H1; [by apply wp_ret|]. pose proof (steps_inv env Henv _ _ (proj1 H1) Hinv) as Hinv1. cbn in Hinv1.
  eapply wp_from; [exact H1|]. apply wp_or_else; [done|apply namespace_sound| |].
  { rewrite M_bind_eq. cbn. destruct (_ <? _); [|by eexists]. rewrite M_bind_eq. cbn. destruct (_ <? _); by eexists. }
  intros oc2 c2 Hinv2 H2. eapply wp_from; [exact H2|]. apply wp_or_else; [done|apply replica_sound|apply below_reads|].
  intros oc3 c3 Hinv3 H3. eapply wp_from; [exact H3|]. apply wp_or_else; [done|by apply merge_sound| |].
  { destruct mergeSupported; [apply below_reads|by eexists]. }
  intros oc4 c4 _ H4. by apply wp_ret.
Qed.

(** C10: Checking a region, with every checker and the operator controller as they are,
    in any reachable state of the controller.  It returns if the checkers can handle
    the region, which then has no learners and a leader among its peers, the regions
    do not change in the meantime and the rate limiter can represent the configured
    rate.  When it returns, the controller is in a reachable state; the checkers have
    not changed the view of a cluster whose region they can handle; and when nothing
    was added, the running operators are those from before.  With the limits on
    replica and merge operators reached and no learner to promote, it does not
    change anything. *)
Theorem checkRegion_correct inp region oc c : reachable env oc → Z.of_nat (length (GetPeers region)) < 2 ^ 28 →
  let check := checkRegion env classified mergeSupported splitCache inp region (oc, c) in
  (checkable inp c region → calm (B := B) env → ∃ oc' c' added, check = ((oc', c'), inr added)) ∧
  (∀ oc' c' added, check = ((oc', c'), inr added) →
     reachable env oc' ∧ (checkable inp c region → view c' = view c) ∧ (added = false → operators oc' = operators oc)) ∧
  (let limits := q_Limits (queries c) in
   learner_Check (in_now (inp 0%nat)) region = None → l_ReplicaScheduleLimit limits ≤ OperatorCount_of oc OpReplica →
   l_MergeScheduleLimit limits ≤ OperatorCount_of oc OpMerge →
   check = ((oc, c), inr false)).
Proof.
  intros Hr Hp check. pose proof (wp_checkRegion inp region oc c (reachable_inv env oc Henv Hr) Hp) as Hw. unfold wp in Hw. fold check in Hw. split_and!.
  - intros Hch Hcalm. destruct check as [[oc' c'] [e|b]]; [by destruct (Hw Hch)|by eexists _, _, _].
  - intros oc' c' added E. rewrite E in Hw. destruct Hw as (Hs & Hv & Ho). split_and!; [|done..].
    unfold reachable in *. by etrans.
  - intros limits Hl Hrep Hmer. subst limits. apply Z.ltb_ge in Hrep, Hmer.
    assert (Hb : below OpReplica l_ReplicaScheduleLimit (oc, c) = ((oc, c), inr false)) by (unfold below; by rewrite Hrep).
    unfold check, checkRegion. rewrite M_bind_eq, Hl. cbn [fmap option_fmap option_map propose]. cbn beta iota.
    change ((mret false : M state bool) (oc, c)) with ((oc, c), inr false : result bool). cbn iota beta.
    rewrite or_else_skip; [rewrite or_else_skip; [rewrite or_else_skip; [done|]|exact Hb]|].
    + destruct mergeSupported; [|done]. unfold below. by rewrite Hmer.
    + rewrite M_bind_eq. destruct (below_reads OpLeader l_LeaderScheduleLimit oc c) as [[|] ->]; [|done].
      rewrite M_bind_eq. by destruct (below_reads OpRegion l_RegionScheduleLimit oc c) as [[|] ->].
Qed.
End check_region.

(** ** The patrol *)

(** Counting statistics does not change what the checkers see. *)
Class PatrolClusterLaws (C : Type) `{!Cluster C, !ScheduleCluster C, !PatrolCluster C} : Prop := {
  patrol_stats_view : ∀ (c : C) regions, view (patrol_updateLabelLevelStats regions c) = view c;
}.

Section patrol.
Context {T : Type} `{!BTreeOps Region T, !BTreeLaws Region T}.
Context {B C : Type} `{!RateLimit B} `{!Cluster C, !ScheduleCluster C, !PatrolCluster C, !PatrolClusterLaws C}.
Abbreviation state := (OperatorController B * C)%type.
Variables (r : RegionsInfo T) (v : View).
Hypothesis Hscan : v_ScanRegions v = ScanRange r.
Hypothesis Hreach : RegionsInfoProps.reachable r.
Variable check : nat → nat → RegionInfo → M state bool.
Variable inv : OperatorController B → Prop.
Hypothesis Hcheck : ∀ i j x oc c, abs r !! GetID x = Some x → inv oc → view c = v →
  ∃ oc' c' b, check i j x (oc, c) = ((oc', c'), inr b) ∧ inv oc' ∧ view c' = v.
Implicit Types (oc : OperatorController B) (c : C) (xs ys zs : list RegionInfo) (k : bytes).

Abbreviation known := (Forall (λ x, abs r !! GetID x = Some x)).

(** The region has an operator. *)
Definition pending oc (x : RegionInfo) : Prop := is_Some (operators oc !! GetID x).

(** The patrol passes over the regions in order: each is checked unless it has an
    operator when its turn comes. *)
Inductive swept : state → list RegionInfo → state → Prop :=
| swept_nil st : swept st [] st
| swept_pending oc c x xs st : pending oc x → swept (oc, c) xs st → swept (oc, c) (x :: xs) st
| swept_check i j oc c x xs st1 b st : ¬ pending oc x → check i j x (oc, c) = (st1, inr b) → swept st1 xs st → swept (oc, c) (x :: xs) st
| swept_stats oc c regions xs st : swept (oc, patrol_updateLabelLevelStats regions c) xs st → swept (oc, c) xs st.

Lemma swept_app st xs st1 ys st2 : swept st xs st1 → swept st1 ys st2 → swept st (xs ++ ys) st2.
Proof.
  induction 1; intros Hy; cbn; [done|by apply swept_pending; auto|by eapply swept_check; eauto|by eapply swept_stats; eauto].
Qed.

(** The last region of the list, or the key from before. *)
Definition key_after k xs : bytes := match last xs with Some x => GetEndKey x | None => k end.

Lemma key_after_cons k x xs : key_after k (x :: xs) = key_after (GetEndKey x) xs.
Proof. unfold key_after. rewrite last_cons. by destruct (last xs). Qed.

Lemma patrol_batch_spec i ys : ∀ j k oc c, known ys → inv oc → view c = v →
  ∃ oc' c' ys1 ys2, patrol_batch (check i) j (Some <$> ys) k (oc, c) = ((oc', c'), inr (key_after k ys1)) ∧ ys = ys1 ++ ys2 ∧
    swept (oc, c) ys1 (oc', c') ∧ inv oc' ∧ view c' = v ∧ (ys1 = [] → (oc', c') = (oc, c) ∧ Forall (pending oc) ys).
Proof.
  induction ys as [|x ys IH]; intros j k oc c Hk Hinv Hv; cbn [fmap list_fmap patrol_batch].
  { exists oc, c, [], []. split_and!; try done. constructor. }
  apply Forall_cons in Hk as [Hx Hk]. rewrite M_bind_eq. unfold on_oc at 1, OC.GetOperator. rewrite M_bind_eq. cbn [OC.get].
  change ((mret (operators oc !! GetID x) : M (OperatorController B) (option nat)) oc) with (oc, inr (operators oc !! GetID x) : result (option nat)). cbn iota beta.
  destruct (operators oc !! GetID x) as [p|] eqn:Ho.
  - assert (Hp : pending oc x) by by eexists. destruct (IH (S j) k oc c Hk Hinv Hv) as (oc' & c' & [|y ys1] & ys2 & E & -> & Hs & Hi & Hv' & Hnil).
    + destruct (Hnil eq_refl) as [[= -> ->] Hall]. exists oc, c, [], (x :: ys2). split_and!; try done. intros _. split; [done|by constructor].
    + exists oc', c', (x :: y :: ys1), ys2. assert (Hs' : swept (oc, c) (x :: y :: ys1) (oc', c')) by by apply swept_pending.
      replace (key_after k (x :: y :: ys1)) with (key_after k (y :: ys1)) by by rewrite !key_after_cons. by split_and!.
  - assert (Hp : ¬ pending oc x) by (unfold pending; rewrite Ho; by intros []).
    destruct (Hcheck i j x oc c Hx Hinv Hv) as (oc1 & c1 & b & Ec & Hinv1 & Hv1). rewrite M_bind_eq, Ec. destruct b.
    + exists oc1, c1, [x], ys. assert (Hs : swept (oc, c) [x] (oc1, c1)) by by eapply swept_check; [..|apply swept_nil].
      by split_and!.
    + destruct (IH (S j) (GetEndKey x) oc1 c1 Hk Hinv1 Hv1) as (oc' & c' & ys1 & ys2 & -> & -> & Hs & Hi & Hv' & _).
      exists oc', c', (x :: ys1), ys2. rewrite key_after_cons. assert (Hs' : swept (oc, c) (x :: ys1) (oc', c')) by by eapply swept_check.
      by split_and!.
Qed.

(** The regions from a key on, all known. *)
Definition from k xs : Prop := meta <$> xs = items_from r k ∧ known xs.

Lemma from_ahead k xs : from k xs → ahead xs ∅.
Proof.
  intros [Hi Hk]. split; [rewrite Hi; apply StronglySorted_filter, (cache_tree r Hreach)|].
  rewrite list.Forall_forall in *. intros x Hx. split; [|by intros ? ? ?]. eapply (cache_wf _ _ (proj1 (reachable_represents r Hreach))). by apply Hk.
Qed.

Lemma from_rest k ys zs : from k (ys ++ zs) → ys ≠ [] →
  (key_after k ys = [] → zs = []) ∧ (key_after k ys ≠ [] → from (key_after k ys) zs).
Proof.
  intros Hf Hne. pose proof (from_ahead _ _ Hf) as Ha. destruct Hf as [Hi Hk]. apply Forall_app in Hk as [Hky Hkz].
  unfold key_after. destruct (last ys) as [x|] eqn:El; [|by apply last_None in El]. split.
  - intros He. destruct zs as [|z zs]; [done|]. destruct (ahead_app ys (z :: zs) ∅ Ha) as (_ & _ & Hb).
    apply Forall_cons in Hb as [Hb _]. apply last_Some in El as [ys' ->]. apply Forall_app in Hb as [_ Hb].
    apply Forall_singleton in Hb as [Hb _]. by unfold GetEndKey in He.
  - intros He. split; [|done]. by eapply from_last.
Qed.

Lemma patrol_round_spec i k xs oc c : from k xs → inv oc → view c = v →
  ∃ oc' c' ys zs, xs = ys ++ zs ∧ swept (oc, c) ys (oc', c') ∧ inv oc' ∧ view c' = v ∧
    patrol_round (check i) k (oc, c) = ((oc', c'), inr (if (length xs =? 0)%nat then [] else key_after k ys)) ∧
    (ys = [] → oc' = oc ∧ Forall (pending oc) (take 128 xs)).
Proof.
  intros [Hi Hk] Hinv Hv. unfold patrol_round. rewrite Hv, Hscan.
  destruct (ScanRange_spec r (abs r) k patrolScanRegionLimit (reachable_represents r Hreach)) as (bs & -> & Hbs & Hbk); [done|].
  assert (bs = take 128 xs) as ->.
  { apply (same_metas r); [done|by apply Forall_take|]. by rewrite Hbs, <-Hi, fmap_take. }
  destruct xs as [|x xs].
  { exists oc, c, [], []. split_and!; [done|apply swept_nil|done|done|done|]. intros _. by split. }
  destruct (patrol_batch_spec i (take 128 (x :: xs)) 0 k oc c Hbk Hinv Hv) as (oc' & c' & ys & ys2 & E & Hsplit & Hs & Hi' & Hv' & Hnil).
  eexists oc', (patrol_updateLabelLevelStats _ c'), ys, (ys2 ++ drop 128 (x :: xs)). split_and!.
  - by rewrite app_assoc, <-Hsplit, take_drop.
  - rewrite <-(app_nil_r ys). eapply swept_app; [exact Hs|]. eapply swept_stats. constructor.
  - done.
  - by rewrite patrol_stats_view.
  - revert E. cbn [take fmap list_fmap]. intros ->. done.
  - intros Hys. destruct (Hnil Hys) as [[= -> _] Hall]. done.
Qed.

Lemma patrol_bind n i k st st1 k1 : patrol_round (check i) k st = (st1, inr k1) →
  patrol check (S n) i k st = patrol check n (S i) k1 st1.
Proof. intros E. cbn [patrol]. by rewrite M_bind_eq, E. Qed.

(** Where the patrol has come to: back at the start with all regions passed, or
    before a batch of regions that all have operators. *)
Definition arrived oc zs k : Prop :=
  zs = [] ∧ k = [] ∨ zs ≠ [] ∧ from k zs ∧ Forall (pending oc) (take 128 zs).

Lemma patrol_sweeps m : ∀ i k xs oc c, (length xs ≤ m)%nat → from k xs → inv oc → view c = v →
  ∃ n oc' c' ys zs k', (n ≤ S (length xs))%nat ∧ patrol check n i k (oc, c) = ((oc', c'), inr k') ∧ xs = ys ++ zs ∧
    swept (oc, c) ys (oc', c') ∧ inv oc' ∧ view c' = v ∧ arrived oc' zs k'.
Proof.
  induction m as [|m IH]; intros i k xs oc c Hm Hf Hinv Hv;
    destruct (patrol_round_spec i k xs oc c Hf Hinv Hv) as (oc1 & c1 & ys & zs & Hsplit & Hs & Hi1 & Hv1 & E & Hnil).
  { destruct xs; [|cbn in Hm; lia]. exists 1%nat, oc1, c1, [], [], []. symmetry in Hsplit. apply app_nil in Hsplit as [-> ->].
    split_and!; [lia|by rewrite (patrol_bind 0 _ _ _ _ _ E)|done..|by left]. }
  destruct xs as [|x xs].
  { apply (IH i k [] oc c); [cbn; lia|done..]. }
  cbn [length Nat.eqb] in E. destruct ys as [|y ys].
  { destruct (Hnil eq_refl) as [-> Hall]. exists 0%nat, oc, c, [], (x :: xs), k. split_and!; [lia|done|done|constructor|done..|]. by right. }
  rewrite Hsplit in Hf. destruct (from_rest k (y :: ys) zs Hf) as [Hend Hrest]; [done|].
  destruct (decide (key_after k (y :: ys) = [])) as [He|He].
  - rewrite He in E. exists 1%nat, oc1, c1, (y :: ys), zs, []. rewrite (Hend He), app_nil_r in *.
    split_and!; [lia|by rewrite (patrol_bind 0 _ _ _ _ _ E)|done..|by left].
  - assert (Hlen : (length zs < length (x :: xs))%nat) by (rewrite Hsplit, length_app; cbn; lia).
    destruct (IH (S i) _ zs oc1 c1 ltac:(lia) (Hrest He) Hi1 Hv1) as (n & oc2 & c2 & ys2 & zs2 & k2 & Hn & E2 & -> & Hs2 & Hi2 & Hv2 & Harr).
    exists (S n), oc2, c2, ((y :: ys) ++ ys2), zs2, k2.
    split_and!; [lia|by rewrite (patrol_bind _ _ _ _ _ _ E)|by rewrite Hsplit, app_assoc|by eapply swept_app|done..].
Qed.

Lemma batch_stays i ys j k oc c : Forall (pending oc) ys → patrol_batch (check i) j (Some <$> ys) k (oc, c) = ((oc, c), inr k).
Proof.
  intros Hp. revert j. induction Hp as [|x ys [p Hx] _ IH]; intros j; cbn [fmap list_fmap patrol_batch]; [done|].
  rewrite M_bind_eq. unfold on_oc at 1, OC.GetOperator. rewrite M_bind_eq. cbn. rewrite Hx. apply IH.
Qed.

(** Before such a batch the patrol stays for as long as the operators do. *)
Lemma patrol_stays n : ∀ i k zs oc c, view c = v → zs ≠ [] → from k zs → Forall (pending oc) (take 128 zs) →
  ∃ c', patrol check n i k (oc, c) = ((oc, c'), inr k).
Proof.
  induction n as [|n IH]; intros i k zs oc c Hv Hne Hf Hp; [by exists c|].
  assert (E : ∃ rs, patrol_round (check i) k (oc, c) = ((oc, patrol_updateLabelLevelStats rs c), inr k)).
  { pose proof Hf as [Hi Hk]. unfold patrol_round. rewrite Hv, Hscan.
    destruct (ScanRange_spec r (abs r) k patrolScanRegionLimit (reachable_represents r Hreach)) as (bs & -> & Hbs & Hbk); [done|].
    assert (bs = take 128 zs) as -> by (apply (same_metas r); [done|by apply Forall_take|]; by rewrite Hbs, <-Hi, fmap_take).
    pose proof (batch_stays i _ 0 k oc c Hp) as Hb. destruct zs as [|z zs]; [done|]. cbn [take fmap list_fmap] in *. rewrite Hb. by eexists. }
  destruct E as [rs E]. rewrite (patrol_bind _ _ _ _ _ _ E). eapply (IH (S i) k zs); [by rewrite patrol_stats_view|done..].
Qed.
End patrol.

Section patrol_regions.
Context `{!Unicode} `{!Classifier}.
Context {T : Type} `{!BTreeOps Region T, !BTreeLaws Region T}.
Context {B C : Type} `{!RateLimit B}.
Context `{!Cluster C, !ScheduleCluster C, !SchedulerCluster C, !PatrolCluster C, !ScheduleClusterLaws C, !PatrolClusterLaws C}.
Variable env : nat → Snapshot.
Variables (classified mergeSupported : bool) (splitCache : Ttl.IDTTL).
Variable inp : nat → nat → nat → CheckInputs.
Variables (r : RegionsInfo T) (c : C).
Implicit Types (oc : OperatorController B) (xs ys zs : list RegionInfo) (k : bytes).

Definition check_round (i j : nat) : RegionInfo → M (OperatorController B * C) bool :=
  checkRegion env classified mergeSupported splitCache (inp i j).

(** C9: The patrol with its checkers, starting anywhere in the life of the operator
    controller, on a cluster that does not change meanwhile: whose regions stay as
    they are, can all be handled by the checkers, so that they have no learners and a
    leader among their peers, and whose configured rate the rate limiter can
    represent.  The rounds never fail, and after at most one more round than there
    are regions the patrol is back at the start of the key space with
    every region, in key order, checked or found with an operator when its turn
    came; or it has passed some of the regions in this way and stands before a
    batch whose regions all have operators.  There it stays, without checking any
    region, for as long as these operators run. *)
Theorem patrol_correct oc : env_ok env → calm (B := B) env → reachable env oc → RegionsInfoProps.reachable r →
  v_ScanRegions (view c) = ScanRange r →
  (∀ id x, GetRegion r id = Some x → Z.of_nat (length (GetPeers x)) < 2 ^ 28 ∧ ∀ i j c', view c' = view c → checkable (inp i j) c' x) →
  ∃ xs n oc' c' ys zs k,
    (∀ id x, GetRegion r id = Some x → x ∈ xs) ∧ StronglySorted before (meta <$> xs) ∧ xs = ys ++ zs ∧ (n ≤ S (length xs))%nat ∧
    patrol check_round n 0 [] (oc, c) = ((oc', c'), inr k) ∧ reachable env oc' ∧ swept check_round (oc, c) ys (oc', c') ∧
    (zs = [] ∧ k = [] ∨
     zs ≠ [] ∧ Forall (pending oc') (take 128 zs) ∧ ∀ m, ∃ c'', patrol check_round m n k (oc', c') = ((oc', c''), inr k)).
Proof.
  intros Henv Hcalm Hoc Hr Hscan Hall. pose proof (reachable_represents r Hr) as Hrep.
  assert (Hcheck : ∀ i j x oc1 c1, abs r !! GetID x = Some x → reachable env oc1 → view c1 = view c →
    ∃ oc2 c2 b, check_round i j x (oc1, c1) = ((oc2, c2), inr b) ∧ reachable env oc2 ∧ view c2 = view c).
  { intros i j x oc1 c1 Hx Ho1 Hv1. rewrite <-(GetRegion_abs r (abs r)) in Hx by apply Hrep. destruct (Hall _ _ Hx) as [Hp Hch].
    pose proof (wp_checkRegion env classified mergeSupported splitCache Henv (inp i j) x oc1 c1 (reachable_inv env oc1 Henv Ho1) Hp) as Hw.
    unfold wp in Hw. fold (check_round i j) in Hw. destruct (check_round i j x (oc1, c1)) as [[oc2 c2] [e|b]].
    - by destruct (Hw (Hch i j c1 Hv1)).
    - destruct Hw as (Hs & Hv & _). exists oc2, c2, b. split_and!; [done| |]; [unfold reachable in *; by etrans|].
      rewrite <-Hv1. by apply Hv, Hch. }
  destruct (regions_from r Hr []) as (xs & Hi & Hk).
  destruct (patrol_sweeps r (view c) Hscan Hr check_round (reachable env) Hcheck (length xs) 0 [] xs oc c) as
    (n & oc' & c' & ys & zs & k & Hn & E & Hsplit & Hs & Ho' & Hv' & Harr); [done|by split|done..|].
  exists xs, n, oc', c', ys, zs, k. split_and!; [| |done..|].
  - intros id x Hx. rewrite (GetRegion_abs r (abs r)) in Hx by apply Hrep. pose proof (cache_id _ _ _ _ (proj1 Hrep) Hx) as Hid.
    assert (Hm : meta x ∈ items_from r []) by (apply list_elem_of_filter; split; [apply nil_key_le|]; by eapply region_tree_item; [apply Hrep|]).
    rewrite <-Hi in Hm. apply list_elem_of_fmap in Hm as (y & Heq & Hy). rewrite list.Forall_forall in Hk. specialize (Hk y Hy).
    unfold GetID in Hk, Hid. rewrite <-Heq, Hid in Hk. congruence.
  - rewrite Hi. apply StronglySorted_filter, (cache_tree r Hr).
  - destruct Harr as [?|(Hne & Hf & Hp)]; [by left|right]. split_and!; [done..|]. intros m. by eapply (patrol_stays r (view c)).
Qed.
End patrol_regions.
