(* ===== verification/HandlerProps.v ===== *)
(** * The requests of administrators: properties

    A request is refused without a trace among the running operators, or an
    operator that does what was asked runs on the region. *)

From S2P Require Import Prelude GoBytes Strconv Strings Float KV Metapb Region RegionMap RegionsInfo Cache Storage Store Statistics Config ConfigProps Operator OperatorProps WaitingOperator OperatorController OperatorControllerInv OperatorControllerProps Schedule ScheduleProps Structure Checkers CheckersProps Plugin Schedulers SchedulersProps NamespaceCluster Scatter ScatterProps Coordinator CoordinatorProps PatrolProps Handler.

(** ** Lengths *)

Section lengths.
Context `{!Unicode} `{!Classifier}.
Context {C : Type} `{!Cluster C, !ScheduleCluster C}.
Implicit Types (c : C) (region : RegionInfo).

Lemma move_add_steps_length region order : ∀ steps c c' steps', move_add_steps region order steps c = (c', inr steps') →
  (length steps' ≤ length steps + 2 * length order)%nat.
Proof.
  induction order as [|id order IH]; intros steps c c' steps'; cbn [move_add_steps]; [intros [= _ <-]; cbn; lia|].
  destruct (GetStorePeer region id); [intros E; apply IH in E; cbn; lia|]. rewrite M_bind_eq. unfold alloc_add_steps.
  destruct (AllocPeer id c) as [c1 [err|p]]; [done|]. intros E. apply IH in E. rewrite length_app in E.
  destruct (IsRaftLearnerEnabled c1); cbn in *; lia.
Qed.

Lemma move_region_length desc region kind storeIDs order order' now c c' op :
  CreateMoveRegionOperator desc region kind storeIDs order order' now c = (c', inr op) →
  (length (op_steps op) ≤ 2 * length order + 2 * length (GetPeers region))%nat.
Proof.
  unfold CreateMoveRegionOperator. rewrite M_bind_eq. destruct (move_add_steps region order [] c) as [c1 [err|steps]] eqn:E; [done|].
  apply move_add_steps_length in E. cbn zeta. intros [= _ <-]. cbn [op_steps NewOperator].
  assert (Hf : ∀ peers acc, (length (foldl (λ steps peer, if decide (Peer_StoreId peer ∈ storeIDs) then steps
      else (if (Peer_GetId (GetLeader region) =? Peer_Id peer)%Z
            then match order' with [] => steps | targetID :: _ => steps ++ [TransferLeader (Peer_StoreId peer) targetID] end
            else steps) ++ [RemovePeer (Peer_StoreId peer)]) acc peers) ≤ length acc + 2 * length peers)%nat).
  { induction peers as [|p peers IH]; intros acc; cbn [foldl length]; [lia|]. etrans; [apply IH|].
    destruct (decide _); [lia|]. rewrite length_app. destruct (_ =? _); [destruct order'; rewrite ?length_app|]; cbn; lia. }
  etrans; [apply Hf|]. cbn in E. lia.
Qed.

Lemma scatter_loop_length c ids l tl targets replaced : ∀ j steps defer kind r,
  scatter_loop c ids l tl targets replaced j steps defer kind = inr r →
  (length r.1.1 + length r.1.2 ≤ length steps + length defer + 3 * length targets)%nat.
Proof.
  induction targets as [|t targets IH]; intros j steps defer kind r; cbn [scatter_loop]; [intros [= <-]; cbn; lia|].
  destruct (_ =? _); [intros E; apply IH in E; cbn; lia|]. destruct (decide _); [intros E; apply IH in E; cbn; lia|].
  destruct (replaced !! j) as [p|]; [|done]. cbn zeta.
  assert (Ha : (length (CreateAddLightPeerSteps (Peer_StoreId t) (Peer_Id t) c) ≤ 2)%nat)
    by (unfold CreateAddLightPeerSteps; destruct (IsRaftLearnerEnabled c); cbn; lia).
  destruct (_ =? _); intros E; apply IH in E; rewrite !length_app in E; cbn in *; lia.
Qed.

Lemma scatter_peers_length now call range order draw i region peers : ∀ stores ts rs st st' r,
  scatter_peers now call range order draw i region peers stores ts rs st = (st', inr r) → length r.1 = (length ts + length peers)%nat.
Proof.
  revert i. induction peers as [|p peers IH]; intros i stores ts rs [selected c] st' r; cbn [scatter_peers].
  { intros [= _ <-]. cbn. lia. }
  destruct (if decide (stores = ∅) then _ else _) as [selected1 stores1]. destruct (put (Peer_StoreId p) selected1) as [[|] selected2].
  { intros E. apply IH in E. rewrite length_app in E. cbn in *. lia. }
  destruct (selectPeerToReplace _ _ _ _ _ _ _ _) as [c1 [err|[q|]]]; [done| |]; intros E; apply IH in E; rewrite length_app in E; cbn in *; lia.
Qed.
End lengths.

(** ** Requests *)

(** The requests for operators, with the orders and draws of their loops. *)
Inductive admin_request :=
| TransferLeaderReq (storeID : Z)
| TransferRegionReq (storeIDs : gset Z) (orders : nat → list Z)
| TransferPeerReq (fromStoreID toStoreID : Z)
| AddPeerReq (toStoreID : Z)
| AddLearnerReq (toStoreID : Z)
| RemovePeerReq (fromStoreID : Z)
| MergeReq (targetID : Z) (order : list Z)
| SplitReq (policy : Z)
| ScatterReq (order : nat → StoresInfo → list StoreInfo) (draw : nat → nat).

Section requests.
Context `{!Unicode} `{!Classifier}.
Context {B C : Type} `{!RateLimit B} `{!Cluster C, !ScheduleCluster C, !ScheduleClusterLaws C}.
Variable env : nat → Snapshot.
Variables (now : Z) (call : nat → bool) (range : nat → list StoreInfo → list StoreInfo).
Variable followerIDs : RegionInfo → list Z.
Hypothesis Hrange : ∀ i l, range i l ≡ₚ l.
Hypothesis Hids : ∀ region, is_FollowerIDs region (followerIDs region).
(** The ids in use; an allocated one is new. *)
Variable used : C → Z → Prop.
Hypothesis used_mono : ∀ c storeID id, used c id → used (AllocPeer storeID c).1 id.
Hypothesis used_fresh : ∀ c storeID p, (AllocPeer storeID c).2 = inr p → ¬ used c (Peer_Id p) ∧ used (AllocPeer storeID c).1 (Peer_Id p).
Abbreviation state := (OperatorController B * (selectedStores * C))%type.
Implicit Types (oc : OperatorController B) (c : C) (v : View) (region : RegionInfo) (st : state).

Definition request (q : admin_request) (regionID : Z) : M state unit :=
  match q with
  | TransferLeaderReq storeID => AddTransferLeaderOperator env now regionID storeID
  | TransferRegionReq storeIDs orders => AddTransferRegionOperator env now regionID storeIDs orders
  | TransferPeerReq from to => AddTransferPeerOperator env now followerIDs regionID from to
  | AddPeerReq to => AddAddPeerOperator env now regionID to
  | AddLearnerReq to => AddAddLearnerOperator env now regionID to
  | RemovePeerReq from => AddRemovePeerOperator env now followerIDs regionID from
  | MergeReq targetID order => AddMergeRegionOperator env now regionID targetID order
  | SplitReq policy => AddSplitRegionOperator env now regionID policy
  | ScatterReq order draw => AddScatterRegionOperator env now call range order draw regionID
  end.

Definition live v (id : Z) : Prop := ∃ s, v_GetStore v id = Some s ∧ IsTombstone (v_heap v) s = false.

(** The operator is for the region as it was seen. *)
Definition op_on region (op : Operator) : Prop := op_regionID op = GetID region ∧ op_regionEpoch op = GetRegionEpoch region.

(** The operator is safe on a region with only voters, keeps [n] of them on the way, and
    leads to peers on the stores [vs] and a leader with the property. *)
Definition reaches region (n : nat) (vs : gset Z) (Ql : Z → Prop) (op : Operator) : Prop :=
  op_on region op ∧
  (plain_region region → ∃ l, exec_safe n (op_steps op) (voters_of region) (mkPlacement vs ∅ l) ∧ Ql l).

(** What the scatterer proposes for a region that it may scatter. *)
Definition scattered c region (r : option Operator) : Prop :=
  ¬ scatter_refused (view c) region ∧ (∀ op, r = Some op → op_on region op) ∧
  (ValidView (view c) → scatterable used c region → ∃ ts leader, scatters now (view c) region ts leader r).

(** What the operators of a granted request do. *)
Definition granted c region (q : admin_request) (ops : list Operator) : Prop :=
  let v := view c in
  let n := length (stores region) in
  let vs : gset Z := list_to_set (stores region) in
  match q with
  | TransferLeaderReq storeID => is_Some (GetStoreVoter region storeID) ∧ ∃ op, ops = [op] ∧ reaches region n vs (λ l, l = storeID) op
  | TransferRegionReq storeIDs _ => Z.of_nat (size storeIDs) ≤ opt_MaxReplicas (v_opt v) ∧ (∀ id, id ∈ storeIDs → live v id) ∧
      ∃ op, ops = [op] ∧
        (storeIDs ≠ ∅ → reaches region (Nat.min n (size storeIDs)) storeIDs (λ _, True) op) ∧
        (storeIDs = ∅ → op_on region op ∧ op_steps op = RemovePeer <$> stores region)
  | TransferPeerReq from to => from ∈ stores region ∧ live v to ∧ ∃ op, ops = [op] ∧
      (to ∉ stores region → reaches region n (({[to]} ∪ vs) ∖ {[from]}) (λ l, l ≠ from) op) ∧
      (to ∈ stores region → op_on region op ∧ ∃ step rest, op_steps op = step :: rest ∧ exec_step step (voters_of region) = None)
  | AddPeerReq to => live v to ∧ (to ∉ stores region) ∧
      ∃ op, ops = [op] ∧ reaches region n ({[to]} ∪ vs) (λ l, l = Peer_GetStoreId (GetLeader region)) op
  | AddLearnerReq to => live v to ∧ (to ∉ stores region) ∧ ∃ op id, ops = [op] ∧ op_on region op ∧ op_steps op = [AddLearner to id]
  | RemovePeerReq from => from ∈ stores region ∧ ∃ op, ops = [op] ∧ reaches region (n - 1)%nat (vs ∖ {[from]}) (λ l, l ≠ from) op
  | MergeReq targetID order => ∃ target op op', v_GetRegion v targetID = Some target ∧
      normal_peers v region = true ∧ normal_peers v target = true ∧ rejected_as_not_adjacent region target = false ∧
      ops = [op; op'] ∧ op_on region op ∧ op_on target op' ∧ op_steps op' = [MergeRegion (GetMeta region) (GetMeta target) true] ∧
      (matchable region target order → merges region target ops)
  | SplitReq policy => ∃ op, ops = [op] ∧ op_on region op ∧ op_steps op = [SplitRegion (GetStartKey region) (GetEndKey region) policy]
  | ScatterReq _ _ => ∃ op, ops = [op] ∧ scattered c region (Some op)
  end.

Definition alloc_failed (e : go_error) : Prop := ∃ id (c c' : C), AllocPeer id c = (c', inl e).

(** The store leads, and no follower is on a store that may lead. *)
Definition must_lead v region (id : Z) : Prop := Peer_GetStoreId (GetLeader region) = id ∧
  ∀ f, is_Some (GetFollowers region !! f) → ∀ s, v_GetStore v f = Some s → opt_rejects (v_opt v) (store_GetLabels (v_heap v) s) = true.

(** Why a request is refused before the controller is asked. *)
Definition refusal (q : admin_request) (regionID : Z) c (e : go_error) : Prop :=
  let v := view c in
  match v_GetRegion v regionID with
  | None => True
  | Some region =>
      match q with
      | TransferLeaderReq storeID => GetStoreVoter region storeID = None
      | TransferRegionReq storeIDs _ => opt_MaxReplicas (v_opt v) < Z.of_nat (size storeIDs) ∨ (∃ id, id ∈ storeIDs ∧ ¬ live v id) ∨ alloc_failed e
      | TransferPeerReq from to => (from ∉ stores region) ∨ ¬ live v to ∨ alloc_failed e ∨ must_lead v region from
      | AddPeerReq to => to ∈ stores region ∨ ¬ live v to ∨ alloc_failed e
      | AddLearnerReq to => to ∈ stores region ∨ ¬ live v to ∨ alloc_failed e ∨ IsRaftLearnerEnabled c = false
      | RemovePeerReq from => (from ∉ stores region) ∨ must_lead v region from
      | MergeReq targetID order =>
          match v_GetRegion v targetID with
          | None => True
          | Some target => normal_peers v region = false ∨ normal_peers v target = false ∨ rejected_as_not_adjacent region target = true ∨
              (matchable region target order → alloc_failed e)
          end
      | SplitReq _ => False
      | ScatterReq _ _ => scatter_refused v region ∨ ¬ (ValidView v ∧ scatterable used c region)
      end
  end.

(** Refused, or nothing to do, or operators handed over. *)
Definition outcome (q : admin_request) (regionID : Z) oc (sel : selectedStores) c (res : state * result unit) : Prop :=
  (∃ sel' c' e, res = ((oc, (sel', c')), inl e) ∧ view c' = view c ∧ refusal q regionID c e) ∨
  (∃ sel' c' order draw region, res = ((oc, (sel', c')), inr ()) ∧ view c' = view c ∧ q = ScatterReq order draw ∧
     v_GetRegion (view c) regionID = Some region ∧ scattered c region None) ∨
  ∃ region ops sel' c', v_GetRegion (view c) regionID = Some region ∧ view c' = view c ∧ granted c region q ops ∧
    Forall (λ o, Z.of_nat (length (op_steps o)) < 2 ^ 31) ops ∧ (length ops ≤ 2)%nat ∧ res = add_operators env ops (oc, (sel', c')).

Lemma refused q regionID oc sel c sel' c' e : view c' = view c → refusal q regionID c e → outcome q regionID oc sel c ((oc, (sel', c')), inl e).
Proof. intros. left. by exists sel', c', e. Qed.

Lemma no_region q regionID oc sel c e : v_GetRegion (view c) regionID = None → outcome q regionID oc sel c ((oc, (sel, c)), inl e).
Proof. intros Hr. apply refused; [done|]. unfold refusal. by rewrite Hr. Qed.

Lemma handed_to q regionID oc sel c region ops sel' c' : v_GetRegion (view c) regionID = Some region → view c' = view c →
  granted c region q ops → Forall (λ o, Z.of_nat (length (op_steps o)) < 2 ^ 31) ops → (length ops ≤ 2)%nat →
  outcome q regionID oc sel c (add_operators env ops (oc, (sel', c'))).
Proof. intros. right. right. by exists region, ops, sel', c'. Qed.

Lemma bind_region {A} id (f : RegionInfo → M state A) oc sel c : (r ← get_region id; f r) (oc, (sel, c)) =
  match v_GetRegion (view c) id with None => ((oc, (sel, c)), inl ErrRegionNotFound) | Some r => f r (oc, (sel, c)) end.
Proof. rewrite M_bind_eq. unfold get_region. rewrite M_bind_eq. cbn. by destruct (v_GetRegion (view c) id). Qed.

Lemma check_store_cases id oc sel c : ¬ live (view c) id ∧ (∃ e, check_store id (oc, (sel, c)) = ((oc, (sel, c)), inl e)) ∨
  live (view c) id ∧ check_store (B := B) id (oc, (sel, c)) = ((oc, (sel, c)), inr ()).
Proof.
  unfold check_store, live. rewrite M_bind_eq. cbn. destruct (v_GetStore (view c) id) as [s|] eqn:Es.
  2:{ left. split; [by intros (? & ? & _)|by eexists]. }
  destruct (IsTombstone _ s) eqn:Et; [left|right; split; [by exists s|done]].
  split; [|by eexists]. intros (s' & [= <-] & ?). congruence.
Qed.

Lemma check_stores_cases ids oc sel c :
  (∃ id, id ∈ ids ∧ ¬ live (view c) id) ∧ (∃ e, check_stores ids (oc, (sel, c)) = ((oc, (sel, c)), inl e)) ∨
  Forall (live (view c)) ids ∧ check_stores (B := B) ids (oc, (sel, c)) = ((oc, (sel, c)), inr ()).
Proof.
  induction ids as [|id ids IH]; cbn [check_stores]; [by right|]. rewrite M_bind_eq.
  destruct (check_store_cases id oc sel c) as [[Hl [e ->]]|[Hl ->]]; [left; split; [exists id; split; [by left|done]|by eexists]|].
  destruct IH as [[(id' & Hid' & Hl') [e ->]]|[Hall ->]]; [left; split; [exists id'; split; [by right|done]|by eexists]|right]. by split; [constructor|].
Qed.

Lemma bind_on_c {A A'} (m : M C A) (f : A → M state A') oc sel c : (x ← on_c m; f x) (oc, (sel, c)) =
  match m c with (c', inl e) => ((oc, (sel, c')), inl e) | (c', inr x) => f x (oc, (sel, c')) end.
Proof. rewrite M_bind_eq. cbn. by destruct (m c) as [c' [e|x]]. Qed.

Lemma bind_cluster {A} (f : C → M state A) oc sel c : (x ← read_cluster; f x) (oc, (sel, c)) = f c (oc, (sel, c)).
Proof. done. Qed.
Lemma bind_view {A} (f : View → M state A) oc sel c : (x ← read_view; f x) (oc, (sel, c)) = f (view c) (oc, (sel, c)).
Proof. done. Qed.
Lemma bind_lift {A A'} (r : result A) (f : A → M state A') st : (x ← lift_result r; f x) st = match r with inl e => (st, inl e) | inr x => f x st end.
Proof. rewrite M_bind_eq. cbn. by destruct r. Qed.

Lemma GetStoreVoter_store region id p : GetStoreVoter region id = Some p → Peer_StoreId p = id.
Proof. unfold GetStoreVoter. intros [_ Hp]%find_first_Some. by apply Z.eqb_eq in Hp. Qed.

Lemma GetStorePeer_store region id p : GetStorePeer region id = Some p → id ∈ stores region.
Proof.
  intros Hp. destruct (decide (id ∈ stores region)) as [|Hn]; [done|]. apply GetStorePeer_None in Hn. congruence.
Qed.

(** The loops over a set or a map of stores see its elements. *)
Definition orders_ok (q : admin_request) : Prop :=
  match q with
  | TransferRegionReq storeIDs orders => ∀ i, orders i ≡ₚ elements storeIDs
  | ScatterReq order _ => ∀ i m, order i m ≡ₚ (map_to_list m).*2
  | _ => True
  end.

(** Regions and the number of replicas fit into memory. *)
Definition bounded v : Prop := opt_MaxReplicas (v_opt v) < 2 ^ 28 ∧
  ∀ id region, v_GetRegion v id = Some region → Z.of_nat (length (GetPeers region)) < 2 ^ 28.

Lemma one_short op : (length (op_steps op) ≤ 10)%nat → Forall (λ o, Z.of_nat (length (op_steps o)) < 2 ^ 31) [op].
Proof. intros Hl. apply Forall_singleton. lia. Qed.

(** A refusal of a request on a known region. *)
Ltac refuse Er := apply refused; [done|unfold refusal; rewrite Er].

Lemma no_peer_store region id : GetStorePeer region id = None → id ∉ stores region.
Proof. apply GetStorePeer_None. Qed.

Lemma remove_steps_error c c1 region id more e : view c1 = view c →
  removePeerSteps c1 region id (followerIDs region ++ more) = inl e → must_lead (view c) region id.
Proof.
  intros Hv. unfold removePeerSteps, must_lead. destruct (GetLeader region) as [l|]; [|done]. destruct (Z.eqb_spec (Peer_StoreId l) id) as [<-|]; [|done].
  cbn zeta. destruct (find_first _ _) eqn:Ef; [done|]. intros _. split; [done|]. intros f [q Hq] s Hs.
  assert (Hin : f ∈ followerIDs region ++ more).
  { apply elem_of_app. left. rewrite (Hids region). apply list_elem_of_fmap. exists (f, q). split; [done|by apply elem_of_map_to_list]. }
  pose proof (proj1 (find_first_None _ _) Ef f Hin) as Hn. cbn beta in Hn. rewrite view_labels, Hv, Hs in Hn. cbn in Hn.
  rewrite view_rejects, Hv in Hn. by apply negb_false_iff in Hn.
Qed.

Lemma leader_outcome regionID storeID oc sel c :
  outcome (TransferLeaderReq storeID) regionID oc sel c (request (TransferLeaderReq storeID) regionID (oc, (sel, c))).
Proof.
  cbn [request]. unfold AddTransferLeaderOperator. rewrite bind_region. destruct (v_GetRegion (view c) regionID) as [region|] eqn:Er; [|by apply no_region].
  destruct (GetStoreVoter region storeID) as [p|] eqn:Ep; [|by refuse Er]. pose proof (GetStoreVoter_store _ _ _ Ep) as Hp.
  eapply handed_to; [exact Er|done| |by repeat constructor; cbn; lia|cbn; lia]. split; [by eexists|]. eexists. split; [done|]. split; [done|].
  intros Hpr. exists storeID. split; [|done]. rewrite Hp. unfold voters_of. apply exec_transfer.
  - apply elem_of_list_to_set. unfold stores. rewrite list_elem_of_fmap. exists p. split; [done|]. rewrite <-(pr_voters _ Hpr).
    unfold GetStoreVoter in Ep. by apply find_first_Some in Ep as [? _].
  - by rewrite (plain_size region Hpr).
Qed.

Lemma add_outcome regionID to oc sel c : outcome (AddPeerReq to) regionID oc sel c (request (AddPeerReq to) regionID (oc, (sel, c))).
Proof.
  cbn [request]. unfold AddAddPeerOperator, checkAdminAddPeerOperator. rewrite M_bind_eq, bind_region.
  destruct (v_GetRegion (view c) regionID) as [region|] eqn:Er; [|by apply no_region].
  destruct (GetStorePeer region to) as [p|] eqn:Ep; [refuse Er; left; by eapply GetStorePeer_store|]. apply GetStorePeer_None in Ep. rewrite M_bind_eq.
  destruct (check_store_cases to oc sel c) as [[Hl [e ->]]|[Hlive ->]]; [refuse Er; tauto|]. cbn [mret M_ret].
  rewrite bind_on_c. pose proof (AllocPeer_view c to) as Hv. destruct (AllocPeer to c) as [c1 [e|p]] eqn:Ea; [refuse Er; right; right; by eexists _, _, _|].
  rewrite bind_cluster. eapply handed_to; [exact Er|done| |apply one_short|cbn; lia].
  - split_and!; [done..|]. eexists. split; [done|]. split; [done|]. intros Hpr. eexists. split; [by eapply add_peer_safe|done].
  - cbn [op_steps CreateAddPeerOperator NewOperator]. pose proof (add_steps_length to (Peer_Id p) c1). lia.
Qed.

Lemma learner_outcome regionID to oc sel c : outcome (AddLearnerReq to) regionID oc sel c (request (AddLearnerReq to) regionID (oc, (sel, c))).
Proof.
  cbn [request]. unfold AddAddLearnerOperator, checkAdminAddPeerOperator. rewrite M_bind_eq, bind_region.
  destruct (v_GetRegion (view c) regionID) as [region|] eqn:Er; [|by apply no_region].
  destruct (GetStorePeer region to) as [p|] eqn:Ep; [refuse Er; left; by eapply GetStorePeer_store|]. apply GetStorePeer_None in Ep. rewrite M_bind_eq.
  destruct (check_store_cases to oc sel c) as [[Hl [e ->]]|[Hlive ->]]; [refuse Er; tauto|]. cbn [mret M_ret]. rewrite bind_cluster.
  destruct (IsRaftLearnerEnabled c) eqn:El; cbn [negb]; [|refuse Er; tauto]. rewrite bind_on_c. pose proof (AllocPeer_view c to) as Hv.
  destruct (AllocPeer to c) as [c1 [e|p]] eqn:Ea; [refuse Er; right; right; left; by eexists _, _, _|].
  eapply handed_to; [exact Er|done| |apply one_short; cbn; lia|cbn; lia]. split_and!; [done..|]. by eexists _, _.
Qed.

Lemma remove_outcome regionID from oc sel c : outcome (RemovePeerReq from) regionID oc sel c (request (RemovePeerReq from) regionID (oc, (sel, c))).
Proof.
  cbn [request]. unfold AddRemovePeerOperator. rewrite bind_region. destruct (v_GetRegion (view c) regionID) as [region|] eqn:Er; [|by apply no_region].
  destruct (GetStorePeer region from) as [p|] eqn:Ep; [|refuse Er; left; by apply no_peer_store]. apply GetStorePeer_store in Ep. rewrite bind_cluster, bind_lift.
  destruct (CreateRemovePeerOperator _ _ _ _ _ _ _) as [e|op] eqn:Eop; pose proof Eop as Hop; unfold CreateRemovePeerOperator in Hop;
    destruct (removePeerSteps _ _ _ _) as [e'|[k steps]] eqn:Es; try done.
  { refuse Er. right. apply (remove_steps_error c c region from [] e'); [done|by rewrite app_nil_r]. }
  injection Hop as Hop. apply removePeerSteps_shape in Es as [_ Hs]. eapply handed_to; [exact Er|done| |apply one_short; rewrite <-Hop; cbn; lia|cbn; lia].
  split; [done|]. exists op. split; [done|]. split; [split; by rewrite <-Hop|]. intros Hpr. by eapply remove_peer_safe.
Qed.

(** A step that adds a peer on an occupied store is not accepted. *)
Lemma add_steps_rejected region to id c : to ∈ stores region →
  ∃ step rest, CreateAddPeerSteps to id c = step :: rest ∧ exec_step step (voters_of region) = None.
Proof.
  intros Hin. unfold CreateAddPeerSteps. destruct (IsRaftLearnerEnabled c); eexists _, _; (split; [done|]); cbn;
    rewrite decide_True; try done; set_solver.
Qed.

Lemma move_outcome regionID from to oc sel c :
  outcome (TransferPeerReq from to) regionID oc sel c (request (TransferPeerReq from to) regionID (oc, (sel, c))).
Proof.
  cbn [request]. unfold AddTransferPeerOperator. rewrite bind_region. destruct (v_GetRegion (view c) regionID) as [region|] eqn:Er; [|by apply no_region].
  destruct (GetStorePeer region from) as [p|] eqn:Ep; [|refuse Er; left; by apply no_peer_store]. apply GetStorePeer_store in Ep. rewrite M_bind_eq.
  destruct (check_store_cases to oc sel c) as [[Hl [e ->]]|[Hlive ->]]; [refuse Er; tauto|].
  rewrite bind_on_c. pose proof (AllocPeer_view c to) as Hv.
  destruct (AllocPeer to c) as [c1 [e|q]] eqn:Ea; [refuse Er; right; right; left; by eexists _, _, _|]. cbn in Hv. rewrite bind_cluster, bind_lift.
  destruct (CreateMovePeerOperator _ _ _ _ _ _ _ _ _) as [e|op] eqn:Eop; pose proof Eop as Hop; unfold CreateMovePeerOperator in Hop;
    destruct (removePeerSteps _ _ _ _) as [e'|[k steps]] eqn:Es; try done.
  { refuse Er. right. right. right. exact (remove_steps_error c c1 region from _ _ Hv Es). }
  injection Hop as Hop. apply removePeerSteps_shape in Es as [_ Hs]. eapply handed_to; [exact Er|done| |apply one_short|cbn; lia].
  - split_and!; [done..|]. exists op. split_and!; [done| |].
    + intros Hn. split; [split; by rewrite <-Hop|]. intros Hpr. by eapply move_peer_safe.
    + intros Hin. split; [split; by rewrite <-Hop|]. destruct (add_steps_rejected region to (Peer_Id q) c1 Hin) as (st & rest & Hst & Hrej).
      rewrite <-Hop. cbn [op_steps NewOperator]. rewrite Hst. by eexists _, _.
  - rewrite <-Hop. cbn [op_steps NewOperator]. rewrite length_app. pose proof (add_steps_length to (Peer_Id q) c1). lia.
Qed.

Lemma move_add_view region order : ∀ steps c, view (move_add_steps region order steps c).1 = view c.
Proof.
  induction order as [|id order IH]; intros steps c; cbn [move_add_steps]; [done|]. destruct (GetStorePeer region id); [apply IH|].
  rewrite M_bind_eq. pose proof (alloc_add_steps_view id c) as Hv. destruct (alloc_add_steps id c) as [c1 [e|st]]; [done|]. by rewrite IH.
Qed.

Lemma move_add_error region order : ∀ steps c c' e, move_add_steps region order steps c = (c', inl e) → alloc_failed e.
Proof.
  induction order as [|id order IH]; intros steps c c' e; cbn [move_add_steps]; [done|]. destruct (GetStorePeer region id); [apply IH|].
  rewrite M_bind_eq. unfold alloc_add_steps at 1. destruct (AllocPeer id c) as [c1 [e'|p]] eqn:Ea; [|apply IH].
  intros [= <- <-]. by eexists _, _, _.
Qed.

(** Without a store all peers are removed. *)
Lemma move_nowhere desc region kind now' c c' op : CreateMoveRegionOperator desc region kind ∅ [] [] now' c = (c', inr op) →
  op_steps op = RemovePeer <$> stores region.
Proof.
  unfold CreateMoveRegionOperator. rewrite M_bind_eq. cbn [move_add_steps mret M_ret]. cbn zeta. intros [= _ <-]. cbn [op_steps NewOperator].
  unfold stores. set (f := foldl _). assert (Hf : ∀ peers acc, f acc peers = acc ++ (RemovePeer <$> (Peer_StoreId <$> peers))).
  { induction peers as [|p peers IH]; intros acc; [by rewrite app_nil_r|]. unfold f in *. cbn [foldl]. rewrite IH.
    rewrite decide_False by set_solver. cbn. rewrite <-app_assoc. by destruct (_ =? _). }
  by rewrite Hf.
Qed.

Lemma region_outcome regionID storeIDs orders oc sel c : bounded (view c) → (∀ i, orders i ≡ₚ elements storeIDs) →
  outcome (TransferRegionReq storeIDs orders) regionID oc sel c (request (TransferRegionReq storeIDs orders) regionID (oc, (sel, c))).
Proof.
  intros [Hmax Hreg] Ho. cbn [request]. unfold AddTransferRegionOperator. rewrite bind_region.
  destruct (v_GetRegion (view c) regionID) as [region|] eqn:Er; [|by apply no_region]. rewrite bind_view.
  destruct (Z.ltb_spec (opt_MaxReplicas (v_opt (view c))) (Z.of_nat (size storeIDs))) as [|Hle]; [refuse Er; by left|]. rewrite M_bind_eq.
  destruct (check_stores_cases (orders 0%nat) oc sel c) as [[(id & Hid & Hl) [e ->]]|[Hlive ->]].
  { refuse Er. right. left. exists id. split; [|done]. by rewrite (Ho 0%nat), elem_of_elements in Hid. }
  rewrite bind_on_c. destruct (CreateMoveRegionOperator _ _ _ _ _ _ _ c) as [c1 r] eqn:Eop. pose proof Eop as Hop.
  unfold CreateMoveRegionOperator in Hop. rewrite M_bind_eq in Hop. pose proof (move_add_view region (orders 1%nat) [] c) as Hv.
  destruct (move_add_steps _ _ _ c) as [c2 [e|steps]] eqn:Ea; injection Hop as -> <-; cbn in Hv.
  { refuse Er. right. right. by eapply move_add_error. }
  pose proof (move_region_length _ _ _ _ _ _ _ _ _ _ Eop) as Hlen. eapply handed_to; [exact Er|done| | |cbn; lia].
  - split_and!; [done| |].
    + intros id Hid. rewrite list.Forall_forall in Hlive. apply Hlive. rewrite (Ho 0%nat). by apply elem_of_elements.
    + eexists. split; [done|]. split.
      * intros Hne. split; [done|]. intros Hpr.
        destruct (move_region_correct _ _ _ _ _ _ _ _ _ _ Hpr Hne (Ho 1%nat) (Ho 2%nat) Eop) as [l Hl]. by exists l.
      * intros ->. split; [done|]. apply (move_nowhere "admin-move-region" region OpAdmin now c c1).
        pose proof (Ho 1%nat) as H1'. pose proof (Ho 2%nat) as H2'. rewrite elements_empty in H1', H2'.
        apply Permutation_nil_r in H1', H2'. rewrite H1', H2' in Eop. rewrite H2'. exact Eop.
  - apply Forall_singleton. rewrite (Ho 1%nat) in Hlen. specialize (Hreg _ _ Er). unfold size, set_size in Hle. cbn in Hle. lia.
Qed.

Lemma merge_outcome regionID targetID order oc sel c : bounded (view c) →
  outcome (MergeReq targetID order) regionID oc sel c (request (MergeReq targetID order) regionID (oc, (sel, c))).
Proof.
  intros [_ Hreg]. cbn [request]. unfold AddMergeRegionOperator. rewrite bind_region.
  destruct (v_GetRegion (view c) regionID) as [region|] eqn:Er; [|by apply no_region]. rewrite bind_region.
  destruct (v_GetRegion (view c) targetID) as [target|] eqn:Et; [|refuse Er; by rewrite Et]. rewrite bind_view.
  destruct (normal_peers (view c) region) eqn:Hn1; cbn [negb]; [|refuse Er; rewrite Et; tauto].
  destruct (normal_peers (view c) target) eqn:Hn2; cbn [negb]; [|refuse Er; rewrite Et; tauto].
  destruct (rejected_as_not_adjacent region target) eqn:Hadj; [refuse Er; rewrite Et; tauto|]. rewrite bind_on_c.
  pose proof (merge_op_view now "admin-merge-region" region target OpAdmin order c) as Hv.
  assert (Hlen : length (stores region) = length (stores target)).
  { unfold normal_peers in Hn1, Hn2. rewrite !andb_true_iff, ?Z.eqb_eq in *. unfold stores. rewrite !length_fmap. lia. }
  pose proof (λ Hma, matchPeerSteps_correct region target order c Hma Hlen) as Hspec.
  destruct (CreateMergeRegionOperator _ _ _ _ _ _ c) as [c1 [e|ops]] eqn:Eop; cbn in Hv; unfold CreateMergeRegionOperator in Eop;
    rewrite M_bind_eq in Eop; destruct (matchPeerSteps region target order c) as [c2 [e'|[steps k]]] eqn:Em; try done; injection Eop as -> <-.
  { refuse Er. rewrite Et. right. right. right. intros Hma. destruct (Hspec Hma) as (id & c3 & c4 & Ha). by exists id, c3, c4. }
  eapply handed_to; [exact Er|done| | |cbn; lia].
  - eexists target, _, _. split_and!; [done..|]. intros Hma. destruct (Hspec Hma) as (l & Hex & Hl). eexists _, _, steps, l. by split_and!.
  - apply matchPeerSteps_short in Em. cbn in Em. specialize (Hreg _ _ Er).
    repeat constructor; cbn [op_steps NewOperator]; rewrite ?length_app; cbn; lia.
Qed.

Lemma split_outcome regionID policy oc sel c : outcome (SplitReq policy) regionID oc sel c (request (SplitReq policy) regionID (oc, (sel, c))).
Proof.
  cbn [request]. unfold AddSplitRegionOperator. rewrite bind_region. destruct (v_GetRegion (view c) regionID) as [region|] eqn:Er; [|by apply no_region].
  eapply handed_to; [exact Er|done|by eexists|apply one_short; cbn; lia|cbn; lia].
Qed.

Lemma replace_view i stores region p order draw c : view (selectPeerToReplace now call order draw i stores region p c).1 = view c.
Proof.
  unfold selectPeerToReplace. cbn zeta. destruct (v_GetStore _ _); [|done]. destruct (NewDistinctScoreFilter _ _ _ _); [done|].
  destruct (_ !! _); [|done]. unfold or_nil. pose proof (AllocPeer_view c (store_GetID (v_heap (view c)) s0)) as Hv.
  by destruct (AllocPeer _ c) as [c1 [[]|]].
Qed.

Lemma scatter_peers_view order draw region peers : ∀ i stores ts rs sel c,
  view (scatter_peers now call range order draw i region peers stores ts rs (sel, c)).1.2 = view c.
Proof.
  induction peers as [|p peers IH]; intros i stores ts rs sel c; cbn [scatter_peers]; [done|].
  destruct (if decide (stores = ∅) then _ else _) as [sel1 stores1]. destruct (put (Peer_StoreId p) sel1) as [[|] sel2]; [apply IH|].
  pose proof (replace_view i stores1 region p order draw c) as Hv. destruct (selectPeerToReplace _ _ _ _ _ _ _ _ c) as [c1 [e|[q|]]]; cbn in Hv; [done|by rewrite IH..].
Qed.

Lemma scatter_op_shape desc c region replaced targets i op : CreateScatterRegionOperator desc c region replaced targets i now = inr (Some op) →
  op_on region op ∧ (length (op_steps op) ≤ 3 * length targets + 4)%nat.
Proof.
  unfold CreateScatterRegionOperator. destruct (targets !! i) as [t|]; [|done]. cbn zeta. destruct (_ && _); [done|].
  destruct (if decide _ then _ else _) as [e|[[steps defer] k]] eqn:Ef; [done|].
  assert (Hfirst : (length steps + length defer ≤ 4)%nat).
  { revert Ef. destruct (decide _); [destruct (_ =? _); intros [= <- <- _]; cbn; lia|]. destruct (replaced !! i); [|done].
    intros [= <- <- _]. unfold CreateAddLightPeerSteps. destruct (IsRaftLearnerEnabled c); cbn; lia. }
  destruct (scatter_loop _ _ _ _ _ _ _ _ _ _) as [e|[[steps' defer'] k']] eqn:El; [done|]. intros [= <-].
  apply scatter_loop_length in El. cbn in *. rewrite length_app. split; [done|lia].
Qed.

Lemma Scatter_frame order draw region sel c :
  let '((_, c1), r) := Scatter now call range order draw region (sel, c) in
  view c1 = view c ∧ ∀ op, r = inr (Some op) → op_on region op ∧ (length (op_steps op) ≤ 3 * length (GetPeers region) + 4)%nat.
Proof.
  unfold Scatter. cbn zeta. destruct (v_IsRegionHot _ _); [done|]. destruct (negb _); [done|]. destruct (bool_decide _); [done|].
  unfold scatterRegion. cbn zeta. set (stores0 := collectAvailableStores _ _ _ _ _ _ _).
  pose proof (scatter_peers_view order draw region (GetPeers region) 1 stores0 [] [] sel c) as Hv.
  destruct (scatter_peers _ _ _ _ _ _ _ _ _ _ _ (sel, c)) as [[sel1 c1] [e|[ts rs]]] eqn:Es; cbn in Hv; [done|].
  apply scatter_peers_length in Es. cbn in Es.
  destruct (CreateScatterRegionOperator _ _ _ _ _ _ _) as [e|[op|]] eqn:Eop; (split; [done|]); intros ? [=]. subst.
  apply scatter_op_shape in Eop as [Hid Hlen]. split; [done|]. cbn. lia.
Qed.

#[local] Instance scatter_refused_dec v region : Decision (scatter_refused v region).
Proof. unfold scatter_refused. apply _. Defined.

Lemma Scatter_scattered order draw region sel c sel1 c1 r : (∀ i m, order i m ≡ₚ (map_to_list m).*2) →
  Scatter now call range order draw region (sel, c) = ((sel1, c1), r) →
  match r with
  | inl _ => scatter_refused (view c) region ∨ ¬ (ValidView (view c) ∧ scatterable used c region)
  | inr o => scattered c region o
  end.
Proof.
  intros Ho E. pose proof (Scatter_frame order draw region sel c) as Hf. rewrite E in Hf. destruct Hf as [_ Hop].
  destruct (decide (scatter_refused (view c) region)) as [Hr|Hr].
  { destruct (Scatter_refused now call range order draw c sel region Hr) as [msg E']. rewrite E in E'. injection E' as _ _ ->. by left. }
  assert (Hgo : ValidView (view c) → scatterable used c region → ∃ o ts leader, r = inr o ∧ scatters now (view c) region ts leader o).
  { intros Hval Hsc. destruct (Scatter_scatters now call range order draw Hrange Ho used used_mono used_fresh c sel region Hr Hsc)
      as (sel2 & c2 & ts & leader & o & E' & _ & Hs). rewrite E in E'. injection E' as _ _ ->. by exists o, ts, leader. }
  destruct r as [e|o].
  - right. intros [Hval Hsc]. by destruct (Hgo Hval Hsc) as (? & ? & ? & ? & _).
  - split_and!; [done| |].
    + intros op ->. by destruct (Hop op eq_refl).
    + intros Hval Hsc. destruct (Hgo Hval Hsc) as (? & ts & leader & [= <-] & ?). by exists ts, leader.
Qed.

Lemma scatter_outcome regionID order draw oc sel c : bounded (view c) → (∀ i m, order i m ≡ₚ (map_to_list m).*2) →
  outcome (ScatterReq order draw) regionID oc sel c (request (ScatterReq order draw) regionID (oc, (sel, c))).
Proof.
  intros [_ Hreg] Ho. cbn [request]. unfold AddScatterRegionOperator. rewrite bind_region.
  destruct (v_GetRegion (view c) regionID) as [region|] eqn:Er; [|by apply no_region]. rewrite M_bind_eq. cbn [on_scatterer].
  pose proof (Scatter_frame order draw region sel c) as Hf. destruct (Scatter _ _ _ _ _ _ _) as [[sel1 c1] r] eqn:Es.
  pose proof (Scatter_scattered order draw region sel c sel1 c1 r Ho Es) as Hsc. destruct Hf as [Hv Hop]. destruct r as [e|[op|]].
  - by refuse Er.
  - eapply handed_to; [exact Er|done|by exists op| |cbn; lia]. apply Forall_singleton. destruct (Hop op eq_refl) as [_ Hlen].
    specialize (Hreg _ _ Er). lia.
  - right. left. by exists sel1, c1, order, draw, region.
Qed.

Lemma request_outcome q regionID oc sel c : bounded (view c) → orders_ok q → outcome q regionID oc sel c (request q regionID (oc, (sel, c))).
Proof.
  intros Hb Ho. destruct q; [apply leader_outcome|by apply region_outcome|apply move_outcome|apply add_outcome|apply learner_outcome
    |apply remove_outcome|by apply merge_outcome|apply split_outcome|by apply scatter_outcome].
Qed.

(** *** Handing over *)

Lemma adds_other h ps (m : gmap Z nat) rid : (∀ p, p ∈ ps → op_regionID (h !!! p) ≠ rid) → adds h ps m !! rid = m !! rid.
Proof.
  revert m. induction ps as [|p ps IH]; intros m Hne; [done|]. cbn. fold (adds h ps (<[op_regionID (h !!! p) := p]> m)).
  rewrite IH by (intros q ?; apply Hne; by right). by rewrite lookup_insert_ne by (apply Hne; by left).
Qed.

Lemma adds_some h ps (m : gmap Z nat) p : p ∈ ps →
  ∃ q, q ∈ ps ∧ op_regionID (h !!! q) = op_regionID (h !!! p) ∧ adds h ps m !! op_regionID (h !!! p) = Some q.
Proof.
  induction ps as [|q ps IH] using rev_ind; [by intros ?%elem_of_nil|]. unfold adds. rewrite foldl_app. cbn. intros Hp.
  destruct (decide (op_regionID (h !!! q) = op_regionID (h !!! p))) as [He|Hne].
  - exists q. rewrite He, lookup_insert_eq. split_and!; [set_solver|done..].
  - apply elem_of_app in Hp as [Hp| ->%list_elem_of_singleton]; [|done]. destruct (IH Hp) as (q' & Hq' & ? & ?). exists q'.
    rewrite lookup_insert_ne by done. split_and!; [set_solver|done..].
Qed.

(** The operators [ops] run on their regions, the other regions are as before. *)
Definition runs_also (ops : list Operator) oc oc' : Prop :=
  (∀ rid, (∀ op, op ∈ ops → op_regionID op ≠ rid) → operators oc' !! rid = operators oc !! rid) ∧
  ∀ op, op ∈ ops → ∃ op' p, op' ∈ ops ∧ op_regionID op' = op_regionID op ∧ operators oc' !! op_regionID op = Some p ∧
    op_fixed (oc_heap oc' !!! p) = op_fixed op'.

Lemma new_pointers (h ops : list Operator) p : p ∈ seq (length h) (length ops) → (h ++ ops) !!! p ∈ ops.
Proof.
  intros [? ?]%elem_of_seq. destruct (lookup_lt_is_Some_2 ops (p - length h)) as [o Ho]; [lia|].
  rewrite <-(Nat.add_sub p (length h)), Nat.add_comm, <-Nat.add_sub_assoc by lia.
  rewrite (new_ops_lookup _ _ _ _ Ho). by eapply list_elem_of_lookup_2.
Qed.

Lemma adds_new h ops oc oc' : op_fixed <$> oc_heap oc' = op_fixed <$> (h ++ ops) →
  operators oc' = adds (h ++ ops) (seq (length h) (length ops)) (operators oc) → runs_also ops oc oc'.
Proof.
  intros Hh Ho. split.
  - intros rid Hne. rewrite Ho. apply adds_other. intros p Hp. by apply Hne, new_pointers.
  - intros op [i Hi]%list_elem_of_lookup. pose proof (new_ops_lookup h ops i op Hi) as Hp.
    destruct (adds_some (h ++ ops) (seq (length h) (length ops)) (operators oc) (length h + i)) as (q & Hq & He & Hl).
    { apply elem_of_seq. apply lookup_lt_Some in Hi. lia. }
    rewrite Hp in He, Hl. exists ((h ++ ops) !!! q), q. rewrite Ho. split_and!; [by apply new_pointers|done..|]. by apply fixed_total.
Qed.

Lemma add_operators_spec ops oc sel c oc' sel' c' r : env_ok env → reachable env oc →
  Forall (λ o, Z.of_nat (length (op_steps o)) < 2 ^ 31) ops → (length ops ≤ 2)%nat →
  add_operators env ops (oc, (sel, c)) = ((oc', (sel', c')), r) →
  c' = c ∧ match r with
  | inr () => reachable env oc' ∧ runs_also ops oc oc'
  | inl e => is_panic e ∧ ¬ calm (B := B) env ∨ reachable env oc' ∧ operators oc' = operators oc ∧ e = ErrAddOperator
  end.
Proof.
  intros Henv Hr Hops Hlen. unfold add_operators, hand_over. rewrite M_bind_eq. cbn [on_oc]. rewrite M_bind_eq. cbn [new_ops].
  set (s := (OC.set_heap (oc_heap oc ++ ops) oc).1). set (ps := seq _ _).
  pose proof (new_ops_steps env oc ops Hops : rtc (oc_step env) oc s) as Hs.
  assert (Hrs : reachable env s) by (unfold reachable in *; by etrans).
  assert (Hin : in_heap (oc_heap s) ps).
  { apply list.Forall_forall. intros p [_ ?]%elem_of_seq. cbn. rewrite length_app. lia. }
  assert (Hps : (length ps ≤ 2)%nat) by (unfold ps; by rewrite length_seq).
  pose proof (wp_modes env _ s _ (λ E Hm, wp_AddOperator E env Henv Hm ps s [] (reachable_inv env s Henv Hrs) Hin Hps)) as Hwp.
  unfold wp in Hwp. destruct (OC.AddOperator env ps s) as [s' [e|b]] eqn:Eadd; [intros [= -> _ <- <-]; split; [done|by left]|].
  assert (Hrs' : reachable env s') by (unfold reachable in *; eapply rtc_r; [exact Hrs|by eapply step_AddOperator]).
  destruct Hwp as (_ & Hg & Hb). destruct b; intros [= <- _ <- <-]; (split; [done|]).
  - split; [done|]. apply (adds_new (oc_heap oc)); [apply Hg|apply Hb].
  - right. split_and!; [done| |done]. destruct Hb as (_ & Hf & _). apply (fr_operators _ _ Hf).
Qed.


(** *** The guard of a merge *)

(** The regions have a border in common. *)
Definition borders (region target : RegionInfo) : Prop :=
  GetEndKey region = GetStartKey target ∨ GetEndKey target = GetStartKey region.

Lemma guard_spec region target : rejected_as_not_adjacent region target = true ↔
  (GetStartKey region = GetEndKey target ∨ GetStartKey region = []) ∧ (GetEndKey region = GetStartKey target ∨ GetEndKey region = []).
Proof.
  assert (Hnil : ∀ k : bytes, length k = 0%nat ↔ k = []) by (intros k; split; [apply nil_length_inv|by intros ->]).
  unfold rejected_as_not_adjacent. by rewrite andb_true_iff, !orb_true_iff, !Equal_true, !Nat.eqb_eq, !Hnil.
Qed.

(** C37: The guard of [AddMergeRegionOperator] is the wrong way round, on any cluster.
    For two regions with as many peers as wanted, all well: the first region of
    the key space and the one that begins where it ends are refused as not adjacent,
    and so are the last region and the one before; but two regions without a
    common border, the first of which is not the whole key space, get past the guard,
    and the operators of a merge are handed over unless an id cannot be allocated. *)
Theorem merge_guard_inverted regionID targetID order oc sel c region target :
  let v := view c in
  v_GetRegion v regionID = Some region → v_GetRegion v targetID = Some target →
  normal_peers v region = true → normal_peers v target = true →
  let result := AddMergeRegionOperator env now regionID targetID order (oc, (sel, c)) in
  (GetStartKey region = [] → GetEndKey region = GetStartKey target → result = ((oc, (sel, c)), inl ErrRegionNotAdjacent)) ∧
  (GetEndKey region = [] → GetEndKey target = GetStartKey region → result = ((oc, (sel, c)), inl ErrRegionNotAdjacent)) ∧
  (¬ borders region target → GetStartKey region ≠ [] ∨ GetEndKey region ≠ [] → matchable region target order →
   ∃ c', (∃ e, result = ((oc, (sel, c')), inl e) ∧ alloc_failed e) ∨
     ∃ ops, merges region target ops ∧ result = add_operators env ops (oc, (sel, c'))).
Proof.
  intros v Hr Ht Hn1 Hn2 result.
  assert (Hres : result = if rejected_as_not_adjacent region target then ((oc, (sel, c)), inl ErrRegionNotAdjacent)
    else (ops ← on_c (CreateMergeRegionOperator "admin-merge-region" region target OpAdmin order now); add_operators env ops) (oc, (sel, c))).
  { unfold result, AddMergeRegionOperator. rewrite bind_region. fold v. rewrite Hr, bind_region. fold v. rewrite Ht, bind_view. fold v. rewrite Hn1, Hn2. cbn [negb].
    by destruct (rejected_as_not_adjacent region target). }
  split_and!.
  - intros Hs He. rewrite Hres, (proj2 (guard_spec region target)); [done|]. split; [by right|by left].
  - intros He Hs. rewrite Hres, (proj2 (guard_spec region target)); [done|]. split; [by left|by right].
  - intros Hb Hk Hma. assert (Hg : rejected_as_not_adjacent region target = false).
    { apply not_true_is_false. rewrite guard_spec. unfold borders in Hb. intros [[?|Hs] [?|He]]; try (apply Hb; first [by left|by right]). by destruct Hk. }
    rewrite Hres, Hg, bind_on_c. unfold CreateMergeRegionOperator. rewrite M_bind_eq.
    assert (Hlen : length (stores region) = length (stores target)).
    { unfold normal_peers in Hn1, Hn2. rewrite !andb_true_iff, ?Z.eqb_eq in *. unfold stores. rewrite !length_fmap. lia. }
    pose proof (matchPeerSteps_correct region target order c Hma Hlen) as Hspec.
    destruct (matchPeerSteps region target order c) as [c1 [e|[steps k]]]; exists c1.
    + left. exists e. split; [done|]. destruct Hspec as (id & c3 & c4 & Ha). by exists id, c3, c4.
    + right. destruct Hspec as (l & Hex & Hl). eexists. split; [|reflexivity]. eexists _, _, steps, l. by split_and!.
Qed.
End requests.

(** ** Requests on schedulers *)

Section scheduler_requests.
Context `{!Unicode} `{!Classifier}.
Context {B V C Sch S : Type} `{!RateLimit B} `{!Cluster C, !ScheduleCluster C, !SchedulerCluster C, !Scheduler Sch C}.
Context `{!KVBase S, !KVLaws S} `{!ConfigJson V} `{!Semver V}.
Variable env : nat → Snapshot.
Variable registry : Registry Sch.
Variable allowed : bytes → option (list bytes) → Prop.
Hypothesis Hreg : registry_ok (C := C) registry allowed.
Abbreviation coord := (coordinator B V C Sch).
Implicit Types (co : coord) (s : S).

Inductive scheduler_request := AddSchedulerReq (tp : bytes) (args : option (list bytes)) | RemoveSchedulerReq (name : bytes).

Definition scheduler_handler (q : scheduler_request) : M (coord * S) unit :=
  match q with
  | AddSchedulerReq tp args => h_AddScheduler registry tp args
  | RemoveSchedulerReq name => h_RemoveScheduler registry name
  end.

(** The configuration in the storage enables the schedulers that run, and no
    others. *)
Definition persisted co s : Prop := ∃ cfg, stored_config s cfg ∧
  ∀ name, enabled (C := C) registry (Schedulers (cfg_Schedule cfg)) name ↔ is_Some (co_schedulers co !! name).

Lemma persist_opt_spec co s co' s' r : kv_ok s → config_inv registry allowed co → persist_opt (co, s) = ((co', s'), r) →
  co' = co ∧ kv_ok s' ∧ ((∃ e, r = inl e ∧ (SaveConfig (current_config (co_opt co)) s).2 = inl e) ∨ r = inr () ∧ persisted co s').
Proof.
  intros Hok [_ Hlive]. unfold persist_opt, persist. rewrite M_bind_eq. cbn.
  destruct (SaveConfig (current_config (co_opt co)) s) as [s1 r1] eqn:Es. intros [= <- <- <-].
  destruct (SaveConfig_spec _ _ _ _ Hok Es) as [Hok1 Hst]. split_and!; [done..|]. destruct r1 as [e|[]]; [left; by exists e|right].
  split; [done|]. eexists. split; [by apply Hst|]. intros name. symmetry. apply Hlive.
Qed.

(** What the request asks for. *)
Definition scheduler_done (q : scheduler_request) co co' : Prop :=
  match q with
  | AddSchedulerReq tp args => ∃ sch, CreateScheduler registry tp args = inr sch ∧
      co_schedulers co !! sch_GetName (C := C) sch = None ∧ is_Some (co_schedulers co' !! sch_GetName (C := C) sch)
  | RemoveSchedulerReq name => is_Some (co_schedulers co !! name) ∧ co_schedulers co' !! name = None
  end.

(** A request is refused and the map stays, or it is done and the rest is up to
    the storage. *)
Lemma scheduler_handler_cases q co s co' s' r :
  config_inv registry allowed co → kv_ok s →
  (match q with AddSchedulerReq tp args => allowed tp args | RemoveSchedulerReq _ => True end) →
  scheduler_handler q (co, s) = ((co', s'), r) →
  rtc (request_step env registry allowed) co co' ∧ kv_ok s' ∧
  ((∃ e, r = inl e) ∧ co_schedulers co' = co_schedulers co ∧ s' = s ∨
   scheduler_done q co co' ∧ ((∃ e, r = inl e ∧ (SaveConfig (current_config (co_opt co')) s).2 = inl e) ∨ r = inr () ∧ persisted co' s')).
Proof.
  intros Hinv Hok Hq. destruct q as [tp args|name]; cbn [scheduler_handler]; unfold h_AddScheduler, h_RemoveScheduler.
  - rewrite M_bind_eq. unfold lift_result. destruct (CreateScheduler registry tp args) as [e|sch] eqn:Ec;
      [intros [= <- <- <-]; split_and!; [apply rtc_refl|done|left; eauto]|].
    rewrite M_bind_eq. cbn [on_co]. destruct (addScheduler sch args co) as [co1 r1] eqn:Ea.
    pose proof (config_add registry allowed Hreg tp args sch co co1 r1 Hinv Hq Ec Ea) as Hinv1.
    assert (Hstep : rtc (request_step env registry allowed) co co1) by (by eapply rtc_once, request_add).
    destruct (co_schedulers co !! sch_GetName (C := C) sch) as [i|] eqn:Ei.
    { revert Ea. unfold addScheduler. rewrite Ei. intros [= <- <-] [= <- <- <-]. split_and!; [done..|left; eauto]. }
    destruct r1 as [e|[]].
    { intros [= <- <- <-]. split_and!; [done..|]. left. split_and!; [eauto| |done]. revert Ea. unfold addScheduler, start_scheduler.
      rewrite Ei. by destruct (sch_Prepare _ _) as [c1 [?|[]]]; intros [= <- ?]. }
    intros Hp. apply persist_opt_spec in Hp as (-> & Hok' & Hst); [|done..]. split_and!; [done..|]. right. split.
    + exists sch. split_and!; [done..|]. revert Ea. unfold addScheduler, start_scheduler.
      rewrite Ei. destruct (sch_Prepare _ _) as [c1 [e|[]]]; [done|]. intros [= <-]. cbn. rewrite (lookup_insert_eq (M := gmap bytes)). by eexists.
    + exact Hst.
  - rewrite M_bind_eq. cbn [on_co]. destruct (removeScheduler registry name co) as [co1 r1] eqn:Er.
    assert (Hstep : rtc (request_step env registry allowed) co co1) by (by eapply rtc_once, request_remove).
    destruct (co_schedulers co !! name) as [i|] eqn:Ei.
    2:{ unfold removeScheduler in Er. rewrite Ei in Er. injection Er as <- <-. intros [= <- <- <-]. split_and!; [done..|left; eauto]. }
    destruct (config_remove registry allowed name co co1 r1 Hinv ltac:(by eexists) Er) as [Hinv1 ->].
    intros Hp. apply persist_opt_spec in Hp as (-> & Hok' & Hst); [|done..]. split_and!; [done..|]. right. split; [|exact Hst].
    split; [by eexists|]. revert Er. unfold removeScheduler. rewrite Ei. cbn zeta.
    destruct (RemoveSchedulerCfg _ _ _); [done|]. intros [= <-]. apply (lookup_delete_eq (M := gmap bytes)).
Qed.

End scheduler_requests.
