(* ===== verification/SchedulersDemo.v ===== *)
(** * A cluster for the schedulers

    A concrete cluster that implements the interface of the schedulers, on which the
    theorems about them are applied. *)

From S2P Require Import Prelude GoBytes BTree Strconv Strings Float FloatInt KV Metapb Region RegionTree RegionMap RegionsInfo RegionsInfoProps Cache Storage Store Statistics Config Operator OperatorProps Schedule ScheduleProps Structure Checkers CheckersProps LocationProps Plugin Schedulers SchedulersProps NamespaceCluster NamespaceClusterProps HotRegion HotRegionProps Scatter ScatterProps Adjacent AdjacentProps RangeCluster RangeClusterProps.

Module SchedulersDemo.
Import Latin.

(** Five stores, the last one in another namespace, as is region 9; the first one
    leads all regions and holds most of the data, the fourth one is empty. *)
Definition ns1 : bytes := str "ns1".
#[export] Instance classifier : Classifier := {|
  GetAllNamespaces := [DefaultNamespace; ns1];
  GetStoreNamespace h s := if store_GetID h s =? 5 then ns1 else DefaultNamespace;
  GetRegionNamespace r := if GetID r =? 9 then ns1 else DefaultNamespace;
  IsNamespaceExist name := bool_decide (name ∈ [DefaultNamespace; ns1]);
  AllowMerge _ _ := true;
|}.

Definition store (id leaders regions : Z) : StoreInfo :=
  mkStoreInfo (Z.to_pos id) (Some (mkStoreStats id (2 ^ 40) (2 ^ 39) (2 ^ 38) 0 0 0 0 false 0 0 0 0 None)) false
    (leaders / 10) (regions / 10) leaders regions 0 0 (f64_of_Z 1) (f64_of_Z 1) None.
Definition h : heap := list_to_map (M := gmap loc Store) ((λ id, (Z.to_pos id, mkStore id [] Up [] [])) <$> [1; 2; 3; 4; 5]).
Definition all : StoresInfo := list_to_map (M := gmap Z StoreInfo)
  [(1, store 1 900 900); (2, store 2 100 600); (3, store 3 0 600); (4, store 4 0 0); (5, store 5 0 0)].

Definition region (id : Z) (start stop : string) (on : list Z) : RegionInfo :=
  let peers := (λ s, mkPeer (10 * id + s) s false) <$> on in
  NewRegionInfo (mkRegion id (str start) (str stop) (Some (mkRegionEpoch 1 1)) peers) (head peers) [SetApproximateSize 10].
Definition regions : list RegionInfo :=
  [region 1 "" "b" [1; 2; 3]; region 2 "b" "c" [1; 2; 3]; region 3 "c" "d" [1; 2; 3]; region 9 "d" "" [1; 2; 3]].

Definition find_region (P : RegionInfo → bool) : option RegionInfo := find_first P regions.

Definition v : View := mkView h all all (mkOptions ScheduleDemo.cfg 3 [] (λ _, false)) (λ id, find_region (λ r, GetID r =? id))
  (λ k n, Some (Some <$> take (Z.to_nat n) (filter (λ r, (k ≤ GetStartKey r)%key) regions))) (λ _ _, []) (λ _, (None, None)) (λ id, id =? 9).

(** A query returns the first region that fits. *)
Definition pick (role : Z → RegionInfo → bool) : RandQuery := λ _ storeID opts,
  Some (find_region (λ r, role storeID r && bool_decide (is_Some (GetStorePeer r storeID)) && forallb (λ opt : RegionOption, opt r) opts)).
Definition stat (id : Z) : RegionStat * f64 := (mkRegionStat id 100 5 0 1 0 1 None, f64_of_Z 100).
Definition limits : Limits := mkLimits 4 4 8 8 2 3.
Definition q : Queries := mkQueries
  (pick (λ s r, bool_decide (Exists (λ p, Peer_Id p ≠ Peer_GetId (leader r) ∧ Peer_StoreId p = s) (voters r))))
  (pick (λ s r, bool_decide (Exists (λ p, Peer_Id p = Peer_GetId (leader r) ∧ Peer_StoreId p = s) (voters r))))
  (pick (λ s r, false)) 10 (λ _, 3) [stat 1; stat 2; stat 3] [stat 1; stat 2; stat 3] limits (λ _, limits).

(** The state is the last id allocated. *)
Definition cluster := Z.
#[export] Instance ops : Cluster cluster := {
  IsRaftLearnerEnabled _ := true;
  CheckLabelProperty _ _ _ := false;
  GetStoreLabels _ id := store_GetLabels h <$> all !! id;
  AllocPeer s c := (c + 1, inr (mkPeer (c + 1) s false));
}.
#[export] Instance demo_view : ScheduleCluster cluster := {| view _ := v |}.
#[export] Instance demo_queries : SchedulerCluster cluster := {| queries _ := q |}.
#[export] Instance demo_laws : ScheduleClusterLaws cluster.
Proof. split; try done. intros c s p Hp. cbn in Hp. by simplify_eq. Qed.
#[export] Instance demo_query_laws : SchedulerClusterLaws cluster.
Proof. by split. Qed.

#[export] Instance demo_valid : ValidView v.
Proof.
  split; [|done]. change (map_Forall (λ id s, store_GetID h s = id) all). refine (bool_decide_unpack _ _). vm_compute. exact I.
Qed.

Lemma regions_found : Forall (λ r, find_region (λ x, GetID x =? GetID r) = Some r) regions.
Proof. refine (bool_decide_unpack _ _). vm_compute. exact I. Qed.

Lemma pick_ok (role : Z → RegionInfo → Prop) (b : Z → RegionInfo → bool) : (∀ s r, b s r = true → role s r) → query_ok v role (pick b).
Proof.
  intros Hb draws storeID opts. eexists. split; [reflexivity|]. intros r Hr. unfold find_region in Hr.
  apply find_first_Some in Hr as [Hin Hr]. rewrite !andb_true_iff, bool_decide_eq_true in Hr. destruct Hr as [[Hrole Hpeer] Hopts].
  pose proof (proj1 (list.Forall_forall _ _) regions_found r Hin). auto.
Qed.

#[export] Instance demo_valid_queries : ValidQueries v q.
Proof.
  split; [apply pick_ok|apply pick_ok|].
  - intros s r Hb. by apply bool_decide_eq_true in Hb.
  - intros s r Hb. by apply bool_decide_eq_true in Hb.
  - intros draws storeID opts. eexists. split; [reflexivity|]. intros r Hr. unfold find_region in Hr.
    by apply find_first_Some in Hr as [_ ?].
Qed.

Definition followers (r : RegionInfo) : list Z := (map_to_list (GetFollowers r)).*1.
Lemma followers_ok r : is_FollowerIDs r (followers r).
Proof. unfold is_FollowerIDs, followers. reflexivity. Qed.
Definition order (i : nat) (l : list StoreInfo) : list StoreInfo := l.
Lemma order_perm i l : order i l ≡ₚ l.
Proof. done. Qed.
Definition quiet (f : nat) : bool := false.
Definition rand (i j : nat) : nat := 0%nat.
Definition no_rules (i : nat) : list (bytes * PluginInfo) := [].
Lemma no_rules_listed : rules_listed no_rules (view (100 : cluster)).
Proof. intros i name p Hp. by apply not_elem_of_nil in Hp. Qed.
Definition idle : OpInfluence := ∅.
Definition fresh : Ttl.IDTTL := newTaintCache.
Definition some_op {A} (r : result (option A)) : bool := match r with inr (Some _) => true | _ => false end.

(** The first store hands over a leadership. *)
Lemma balance_leader_correct_witness : ∃ op,
  balanceLeader_Schedule (C := cluster) 0 quiet order followers rand no_rules [] idle 100 fresh = (fresh, inr (Some op)) ∧
  balances_leader (C := cluster) 0 order no_rules [] idle fresh 100 op.
Proof.
  destruct (balance_leader_correct (C := cluster) 0 quiet order followers rand no_rules [] idle order_perm followers_ok 100 fresh no_rules_listed)
    as (taint' & r & E & Hop & _).
  assert (Hsome : some_op (balanceLeader_Schedule (C := cluster) 0 quiet order followers rand no_rules [] idle 100 fresh).2 = true)
    by (vm_compute; reflexivity).
  rewrite E in Hsome |- *. destruct r as [op|]; [|discriminate Hsome]. exists op. destruct (Hop op eq_refl) as [-> Hb]. split; [reflexivity|exact Hb].
Defined.

Definition hits0 : hitsStoreBuilder := newHitsStoreBuilder hitsStoreTTL hitsStoreCountThreshold.

(** A peer on the first store moves to an empty one. *)
Lemma balance_region_correct_witness : ∃ op,
  (balanceRegion_Schedule (C := cluster) 0 quiet order followers rand no_rules [] idle (hits0, 100 : cluster)).2 = inr (Some op) ∧
  balances_region (C := cluster) 0 quiet order no_rules [] idle 100 op.
Proof.
  destruct (balance_region_correct (C := cluster) 0 quiet order followers rand no_rules [] idle order_perm followers_ok 100 hits0 no_rules_listed)
    as (b' & c' & r & E & _ & Hop).
  assert (Hsome : some_op (balanceRegion_Schedule (C := cluster) 0 quiet order followers rand no_rules [] idle (hits0, 100 : cluster)).2 = true)
    by (vm_compute; reflexivity).
  rewrite E in Hsome |- *. destruct r as [op|]; [|discriminate Hsome]. exists op. split; [reflexivity|]. exact (Hop op eq_refl).
Defined.

Definition draw0 (i : nat) : Z := 0.
Definition set_order (s : gset Z) : list Z := elements s.
Lemma set_order_perm s : set_order s ≡ₚ elements s.
Proof. done. Qed.

Lemma leader_schedulers_correct_witness : ∃ op region to,
  evictLeader_Schedule (C := cluster) 0 quiet followers rand draw0 1 100 = inr (Some op) ∧
  leads 1 region ∧ may_lead 0 v to ∧ transfers v region to op.
Proof.
  destruct (leader_schedulers_correct (C := cluster) 0 quiet order followers rand draw0 set_order no_rules [] order_perm followers_ok
    set_order_perm 100 1 no_rules_listed) as [(r & E & Hop) _].
  assert (Hsome : some_op (evictLeader_Schedule (C := cluster) 0 quiet followers rand draw0 1 100) = true) by (vm_compute; reflexivity).
  rewrite E in Hsome |- *. destruct r as [op|]; [|discriminate Hsome]. destruct (Hop op eq_refl) as (region & to & Hl & _ & Hm & Ht).
  exists op, region, to. split; [reflexivity|]. split; [exact Hl|]. split; [exact Hm|exact Ht].
Defined.

(** A leader of size 10 moves between stores with 900 and 100, and not back. *)
Lemma balance_leader_settles_witness :
  let r := region 1 "" "b" [1; 2; 3] in
  shouldBalance (C := cluster) order idle 100 0 (store 1 900 0) (store 2 100 0) r LeaderKind = true ∧
  shouldBalance (C := cluster) order idle 100 0 (store 2 110 0) (store 1 890 0) r LeaderKind = false.
Proof.
  cbn zeta.
  assert (Hyes : shouldBalance (C := cluster) order idle 100 0 (store 1 900 0) (store 2 100 0) (region 1 "" "b" [1; 2; 3]) LeaderKind = true)
    by (vm_compute; reflexivity).
  assert (Hsize : balance_size (C := cluster) order 100 0 (region 1 "" "b" [1; 2; 3]) = 10) by (vm_compute; reflexivity).
  split; [exact Hyes|].
  refine (balance_leader_settles (C := cluster) order idle 100 0 (store 1 900 0) (store 2 100 0) (store 1 890 0) (store 2 110 0)
    (region 1 "" "b" [1; 2; 3]) _ _ _ _ _ _ _ _ _ _ _ _ _ _ _ _ Hyes).
  all: try (vm_compute; reflexivity).
  all: rewrite ?Hsize; unfold small; vm_compute; (split; congruence).
Defined.


Definition map_order (i : nat) (s : gset Z) : list Z := elements s.
Lemma map_order_perm i s : map_order i s ≡ₚ elements s.
Proof. done. Qed.
Definition indices (i n : nat) : list nat := seq 0 n.
Lemma indices_perm i n : indices i n ≡ₚ seq 0 n.
Proof. done. Qed.
Definition heads (i : nat) : bool := true.
Definition none (kind : Z) : Z := 0.

Lemma demo_known : stores_known (view (100 : cluster)).
Proof.
  intros id r Hr. change (find_region (λ x, GetID x =? id) = Some r) in Hr. apply find_first_Some in Hr as [Hin Hid%Z.eqb_eq].
  split; [exact Hid|].
  assert (Hall : Forall (λ r, Forall (λ p, is_Some (all !! Peer_StoreId p)) (GetPeers r) ∧ GetLeader r = head (GetPeers r)) regions)
    by (refine (bool_decide_unpack _ _); vm_compute; exact I).
  rewrite list.Forall_forall in Hall. destruct (Hall r Hin) as [Hp Hl]. rewrite list.Forall_forall in Hp. split; [exact Hp|].
  intros l El. rewrite El in Hl. apply list_elem_of_lookup_2 with 0%nat. by destruct (GetPeers r).
Qed.

(** The first store has three hot regions and the fourth none: a peer moves. *)
Lemma hot_region_correct_witness : ∃ op,
  (hotRegion_Schedule (C := cluster) 0 quiet order followers map_order indices heads no_rules [] none
     [hotWriteRegionBalance; hotReadRegionBalance] 0 (newBalanceHotRegionsScheduler, 100 : cluster)).2 = inr (Some op) ∧
  hot_proposal (C := cluster) 0 quiet no_rules [] 100 op.
Proof.
  destruct (hot_region_correct (C := cluster) 0 quiet order followers map_order indices heads no_rules [] none order_perm followers_ok
    map_order_perm indices_perm [hotWriteRegionBalance; hotReadRegionBalance] 0 newBalanceHotRegionsScheduler 100)
    as (h' & c' & r & E & _ & _ & _ & Hop); [discriminate|exact no_rules_listed|exact demo_known|split; vm_compute; reflexivity|].
  assert (Hsome : some_op (hotRegion_Schedule (C := cluster) 0 quiet order followers map_order indices heads no_rules [] none
     [hotWriteRegionBalance; hotReadRegionBalance] 0 (newBalanceHotRegionsScheduler, 100 : cluster)).2 = true) by (vm_compute; reflexivity).
  rewrite E in Hsome |- *. destruct r as [op|]; [|discriminate Hsome]. exists op. split; [reflexivity|]. exact (Hop op eq_refl).
Defined.

Definition listed (i : nat) (m : StoresInfo) : list StoreInfo := (map_to_list m).*2.
Lemma listed_perm i m : listed i m ≡ₚ (map_to_list m).*2.
Proof. done. Qed.
Definition zeros (i : nat) : nat := 0%nat.

Definition in_use (c : cluster) (id : Z) : Prop := id ≤ c.
Lemma in_use_mono (c : cluster) s id : in_use c id → in_use (AllocPeer s c).1 id.
Proof. change (id ≤ c → id ≤ c + 1). lia. Qed.
Lemma in_use_fresh (c : cluster) s p : (AllocPeer s c).2 = inr p → ¬ in_use c (Peer_Id p) ∧ in_use (AllocPeer s c).1 (Peer_Id p).
Proof. intros [= <-]. change (¬ c + 1 ≤ c ∧ c + 1 ≤ c + 1). lia. Qed.

(** The stores of the region have been taken before: a peer moves to the fourth. *)
Lemma scatter_correct_witness : ∃ op ts leader,
  (Scatter (C := cluster) 0 quiet order listed zeros (region 1 "" "b" [1; 2; 3]) ({[1; 2; 3]}, 100 : cluster)).2 = inr (Some op) ∧
  exec_safe 3 (op_steps op) (voters_of (region 1 "" "b" [1; 2; 3])) (mkPlacement (list_to_set (Peer_StoreId <$> ts)) ∅ leader).
Proof.
  destruct (scatter_correct (C := cluster) 0 quiet order listed zeros order_perm listed_perm in_use in_use_mono in_use_fresh 100 {[1; 2; 3]} (region 1 "" "b" [1; 2; 3]))
    as [_ Hgo]. destruct Hgo as (sel & c' & ts & leader & r & E & _ & _ & _ & _ & _ & Hop).
  - intros [Hhot|[Hnum|Hl]]; [vm_compute in Hhot; discriminate Hhot|apply Hnum; vm_compute; reflexivity|vm_compute in Hl; discriminate Hl].
  - split_and!; [|refine (bool_decide_unpack _ _); vm_compute; exact I|].
    + split; [refine (bool_decide_unpack _ _); vm_compute; exact I|vm_compute; reflexivity|eexists; split; [reflexivity|left]].
    + intros p Hp. refine (proj1 (list.Forall_forall (λ p, is_Some (all !! Peer_StoreId p) ∧ Peer_Id p ≤ 100) _) _ p Hp).
      refine (bool_decide_unpack _ _). vm_compute. exact I.
  - assert (Hsome : some_op (Scatter (C := cluster) 0 quiet order listed zeros (region 1 "" "b" [1; 2; 3]) ({[1; 2; 3]}, 100 : cluster)).2 = true)
      by (vm_compute; reflexivity).
    rewrite E in Hsome |- *. destruct r as [op|]; [|discriminate Hsome]. exists op, ts, (Peer_StoreId leader). split; [reflexivity|].
    destruct (Hop op eq_refl) as (_ & _ & Hex). exact Hex.
Defined.

Definition as_listed (l : list Peer) : list Peer := l.
Lemma as_listed_perm l : as_listed l ≡ₚ l.
Proof. done. Qed.

Lemma demo_scans : scans_ok (view (100 : cluster)).
Proof.
  intros k n. eexists. split; [reflexivity|]. apply Forall_take. apply list.Forall_forall. intros r [_ Hr]%list_elem_of_filter.
  assert (Hall : Forall (λ r, GetLeader r = head (GetPeers r)) regions) by (refine (bool_decide_unpack _ _); vm_compute; exact I).
  rewrite list.Forall_forall in Hall. specialize (Hall r Hr). intros l El. rewrite El in Hall.
  apply list_elem_of_lookup_2 with 0%nat. by destruct (GetPeers r).
Qed.


(** Two runs of two regions, then one of four: the run of two found first is kept. *)
Definition led (id store : Z) (start stop : string) : RegionInfo :=
  let p := mkPeer id store false in NewRegionInfo (mkRegion id (str start) (str stop) None [p]) (Some p) [].
Definition scanned : list RegionInfo :=
  [led 1 1 "a" "b"; led 2 1 "b" "c"; led 3 2 "c" "d"; led 4 2 "d" "e"; led 5 1 "e" "f"; led 6 1 "f" "g"; led 7 1 "g" "h"; led 8 1 "h" "i"].

(** The longest run is missed.  When a run ends that is not longer than the longest
    one so far, the scheduler does not start a new one and compares all later
    regions with its last region: of the four adjacent regions at the end none is
    found, and the first run of two is dispersed. *)
Theorem adjacent_run_missed :
  adjacent_runs (tail scanned) (take 1 scanned) [] 0 = (take 2 scanned, 2%nat) ∧ chain (drop 4 scanned) ∧ length (drop 4 scanned) = 4%nat.
Proof.
  split_and!; [vm_compute; reflexivity| |reflexivity].
  intros i r1 r2 H1 H2. do 4 (destruct i as [|i]; [try discriminate H2; injection H1 as <-; injection H2 as <-; vm_compute; split; reflexivity|]). discriminate H2.
Qed.

Import SortedList.

(** The scans of a cache of two regions split at [m]. *)
Definition cached : Type := unit.
#[export] Instance cached_ops : Cluster cached := {
  IsRaftLearnerEnabled _ := true;
  CheckLabelProperty _ _ _ := false;
  GetStoreLabels _ _ := None;
  AllocPeer s c := (c, inr (mkPeer 1 s false));
}.
#[export] Instance cached_view : ScheduleCluster cached := {|
  view _ := mkView ∅ ∅ ∅ ScheduleDemo.opt (GetRegion Demo.cache) (ScanRange Demo.cache) (ScanRangeWithEndKey Demo.cache) (λ _, (None, None)) (λ _, false);
|}.

End SchedulersDemo.
