(* ===== verification/CoordinatorDemo.v ===== *)
(** * A coordinator

    Concrete schedulers, a registry and a cluster with two regions, on which the
    theorems about the coordinator and the patrol are applied. *)

From S2P Require Import Prelude GoBytes BTree Strconv Strings Float FloatInt KV Metapb Region RegionTree RegionMap RegionsInfo RegionsInfoProps Cache Storage Store Statistics Config Operator OperatorProps WaitingOperator OperatorController OperatorControllerInv OperatorControllerProps Schedule ScheduleProps Structure Checkers CheckersProps LocationProps Plugin Schedulers SchedulersProps NamespaceCluster RangeCluster RangeClusterProps Coordinator CoordinatorProps PatrolProps SchedulersDemo.

Module CoordinatorDemo.
Import Latin SortedList ControllerDemo.
#[local] Existing Instance SchedulersDemo.classifier.

(** ** The cluster *)

(** Four stores that may take peers; the first region has two peers, the second
    three, and three are wanted. *)
Definition r1 : RegionInfo := SchedulersDemo.region 1 "" "m" [1; 2].
Definition r2 : RegionInfo := SchedulersDemo.region 2 "m" "" [1; 2; 3].
Definition cache1 : RegionsInfo (list Region) := Demo.set NewRegionsInfo r1.
Definition cache : RegionsInfo (list Region) := Demo.set cache1 r2.

Lemma patrolled_reachable : RegionsInfoProps.reachable cache.
Proof.
  apply (reach_set cache1 r2 _ []).
  - apply (reach_set NewRegionsInfo r1 _ []); [apply reach_new| |vm_compute; reflexivity].
    split; [apply NewRegionInfo_classified|by right|by intros p Hp%not_elem_of_nil].
  - split; [apply NewRegionInfo_classified|by left|by intros p Hp%not_elem_of_nil].
  - vm_compute. reflexivity.
Qed.

Definition patrolled := Z.
Definition demo_v : View := mkView SchedulersDemo.h SchedulersDemo.all SchedulersDemo.all (mkOptions ScheduleDemo.cfg 3 [] (λ _, false))
  (GetRegion cache) (ScanRange cache) (ScanRangeWithEndKey cache) (λ _, (None, None)) (λ _, false).
#[export] Instance patrolled_ops : Cluster patrolled := {
  IsRaftLearnerEnabled _ := true;
  CheckLabelProperty _ _ _ := false;
  GetStoreLabels _ id := store_GetLabels SchedulersDemo.h <$> SchedulersDemo.all !! id;
  AllocPeer s c := (c + 1, inr (mkPeer (c + 1) s false));
}.
#[export] Instance patrolled_view : ScheduleCluster patrolled := {| view _ := demo_v |}.
#[export] Instance patrolled_queries : SchedulerCluster patrolled := {| queries _ := SchedulersDemo.q |}.
#[export] Instance patrolled_stats : PatrolCluster patrolled := {| patrol_updateLabelLevelStats _ c := c |}.
#[export] Instance patrolled_laws : ScheduleClusterLaws patrolled.
Proof. split; try done. intros c s p Hp. cbn in Hp. by simplify_eq. Qed.
#[export] Instance patrolled_stats_laws : PatrolClusterLaws patrolled.
Proof. by split. Qed.
#[export] Instance patrolled_valid : ValidView demo_v.
Proof. destruct SchedulersDemo.demo_valid as [Hid Hsub]. by split. Qed.

(** ** Checking and patrolling *)

Definition snap : Snapshot := mkSnapshot 0 (GetRegion cache) (λ _, Some false) 10 (f64_of_Z 15) (f64_of_Z 0) elements.
Definition env : nat → Snapshot := λ _, snap.
Lemma demo_env_ok : env_ok env.
Proof. split; [done|]. by split; vm_compute. Qed.
Lemma demo_calm : calm (B := Z) env.
Proof. split; [done|]. by eexists. Qed.

Definition inputs : CheckInputs := mkCheckInputs 0 SchedulersDemo.quiet SchedulersDemo.order SchedulersDemo.followers 0 [] [] (λ _, []).
Definition idle : OperatorController Z := OC.NewOperatorController [].
Lemma idle_reachable : reachable env idle.
Proof. apply rtc_refl. Qed.

Lemma regions_plain x : x ∈ [r1; r2] → plain_region x ∧ reported x ∧ Z.of_nat (length (GetPeers x)) < 2 ^ 28.
Proof.
  intros Hx. split_and!.
  - split.
    + revert x Hx. apply list.Forall_forall. refine (bool_decide_unpack _ _). vm_compute. exact I.
    + revert x Hx. apply list.Forall_forall. repeat constructor.
    + exists (mkPeer (10 * GetID x + 1) 1 false). revert x Hx. apply list.Forall_forall. refine (bool_decide_unpack _ _). vm_compute. exact I.
  - apply elem_of_cons in Hx as [->|Hx%list_elem_of_singleton]; [|subst x]; by intros ? ? ?%not_elem_of_nil.
  - revert x Hx. apply list.Forall_forall. refine (bool_decide_unpack _ _). vm_compute. exact I.
Qed.

Lemma demo_checkable x (c : patrolled) : x ∈ [r1; r2] → checkable (λ _, inputs) c x.
Proof.
  intros Hx. destruct (regions_plain x Hx) as (Hp & Hr & _). split; try done.
  - exact patrolled_valid.
  - intros _. apply SchedulersDemo.followers_ok.
  - by exists false.
  - intros r id. assert (Hid : GetID (Region.Clone r [WithRemoveStorePeer id]) = GetID r)
      by (unfold Region.Clone; by rewrite classifyVoterAndLearner_eq). cbn. by rewrite Hid.
Qed.

(** The first region gets its third peer. *)
Lemma checkRegion_correct_witness : ∃ oc' c',
  checkRegion env false true (Ttl.NewIDTTL 1 1) (λ _, inputs) r1 (idle, 100 : patrolled) = ((oc', c'), inr true) ∧
  is_Some (operators oc' !! 1) ∧ reachable env oc'.
Proof.
  assert (Hp : Z.of_nat (length (GetPeers r1)) < 2 ^ 28) by (vm_compute; reflexivity).
  destruct (checkRegion_correct (C := patrolled) env false true (Ttl.NewIDTTL 1 1) demo_env_ok (λ _, inputs) r1 idle 100 idle_reachable Hp)
    as (Hret & Hc & _).
  destruct (Hret (demo_checkable r1 100 ltac:(left)) demo_calm) as (oc' & c' & b & E).
  assert (Hr : (checkRegion env false true (Ttl.NewIDTTL 1 1) (λ _, inputs) r1 (idle, 100 : patrolled)).2 = inr true) by (vm_compute; reflexivity).
  assert (Ho : operators (checkRegion env false true (Ttl.NewIDTTL 1 1) (λ _, inputs) r1 (idle, 100 : patrolled)).1.1 !! 1 = Some 0%nat)
    by (vm_compute; reflexivity).
  rewrite E in Hr, Ho. cbn [fst snd] in Hr, Ho. injection Hr as ->. exists oc', c'. split; [exact E|]. split; [by eexists|]. exact (proj1 (Hc _ _ _ E)).
Defined.

Lemma cache_regions id x : GetRegion cache id = Some x → x ∈ [r1; r2].
Proof.
  intros Hx. rewrite (GetRegion_abs cache (abs cache)) in Hx by apply (reachable_represents cache patrolled_reachable).
  revert id x Hx. change (map_Forall (λ _ x, x ∈ [r1; r2]) (abs cache)). refine (bool_decide_unpack _ _). vm_compute. exact I.
Qed.

(** The patrol of the two regions. *)
Lemma patrol_correct_witness : ∃ n oc' c' k,
  patrol (check_round (B := Z) env false true (Ttl.NewIDTTL 1 1) (λ _ _ _, inputs)) n 0 [] (idle, 100 : patrolled) = ((oc', c'), inr k) ∧ reachable env oc'.
Proof.
  assert (Hscan : v_ScanRegions (view (100 : patrolled)) = ScanRange cache) by reflexivity.
  destruct (patrol_correct (C := patrolled) env false true (Ttl.NewIDTTL 1 1) (λ _ _ _, inputs) cache 100 idle demo_env_ok demo_calm idle_reachable
    patrolled_reachable Hscan) as (xs & n & oc' & c' & ys & zs & k & _ & _ & _ & _ & E & Hr & _).
  - intros id x Hx%cache_regions. split; [by apply regions_plain|]. intros i j c' _. by apply demo_checkable.
  - exists n, oc', c', k. split; [exact E|exact Hr].
Defined.

(** ** Schedulers *)

(** Built-in schedulers with a type and a name, which always propose the same
    operator, and the schedulers of the user, here with nothing to propose. *)
Inductive demo_sch := Builtin (typ name : bytes) | User (s : userScheduler).
Definition demo_op : Operator := CreateTransferLeaderOperator "demo" r1 1 2 0 0.
#[export] Instance demo_scheduler : Scheduler demo_sch patrolled := {
  sch_GetName s := match s with Builtin _ name => name | User s => us_name s end;
  sch_GetType s := match s with
    | Builtin typ _ => typ
    | User s => if us_leader s then str "move-leader-user" else str "move-region-user"
    end;
  sch_GetMinInterval _ := MinScheduleInterval;
  sch_GetNextInterval _ i := base_GetNextInterval i;
  sch_Prepare _ := mret ();
  sch_Cleanup _ c := c;
  sch_Schedule := λ '(s, nc), ((s, nc), inr (match s with Builtin _ _ => Some [demo_op] | User _ => None end));
  sch_IsScheduleAllowed _ _ _ := true;
}.
#[export] Instance demo_scheduler_laws : SchedulerLaws demo_sch patrolled.
Proof.
  split; [done|]. intros [typ name|s] nc ops Hs; [|discriminate Hs]. injection Hs as <-.
  apply plain_proposal. split_and!; [done|cbn; lia|by left].
Qed.

(** The constructors that are registered; those of the plugin make schedulers
    without a name. *)
Definition registry : Registry demo_sch :=
  <[str "balance-leader" := λ _, inr (Builtin (str "balance-leader") (str "balance-leader-scheduler"))]>
  (<[str "evict-leader" := λ args, match args with
     | Some [id] => inr (Builtin (str "evict-leader") (str "evict-leader-scheduler-" ++ id))
     | _ => inl (Error "should specify the store-id")
     end]>
  (<[str "move-leader-user" := λ _, inr (User (newMoveLeaderUserScheduler [] [] [] [] None))]>
  (∅ : gmap bytes (option (list bytes) → result demo_sch)))).

Definition leader_cfg : SchedulerConfig := mkSchedulerConfig (str "balance-leader") None false.
Definition evict_cfg (id : string) : SchedulerConfig := mkSchedulerConfig (str "evict-leader") (Some [str id]) false.
Definition opt : scheduleOption unit :=
  mkScheduleOption (set_Schedulers [leader_cfg] ScheduleDemo.cfg) (mkReplicationConfig 3 [] false) ∅ None tt (mkPDServerConfig false).
Abbreviation coord := (coordinator Z unit patrolled demo_sch).
Definition started : coord := run registry (newCoordinator 100 opt).

(** A request: the balance of leaders without arguments, the eviction from a store. *)
Definition demo_request (tp : bytes) (args : option (list bytes)) : Prop :=
  tp = str "balance-leader" ∧ args = None ∨ tp = str "evict-leader" ∧ ∃ id, args = Some [id].

Lemma create_leader : CreateScheduler registry (str "balance-leader") None = inr (Builtin (str "balance-leader") (str "balance-leader-scheduler")).
Proof. reflexivity. Qed.
Lemma create_evict id : CreateScheduler registry (str "evict-leader") (Some [id]) = inr (Builtin (str "evict-leader") (str "evict-leader-scheduler-" ++ id)).
Proof. reflexivity. Qed.

Lemma demo_registry_ok : registry_ok (C := patrolled) registry demo_request.
Proof.
  split.
  - intros tp args sch. unfold CreateScheduler. destruct (registry !! tp) as [fn|] eqn:E; [|done]. unfold registry in E.
    apply (lookup_insert_Some (M := gmap bytes)) in E as [[<- <-]|[_ E]]; [by intros [= <-]|]. apply (lookup_insert_Some (M := gmap bytes)) in E as [[<- <-]|[_ E]].
    { destruct args as [[|id [|]]|]; try done. by intros [= <-]. }
    apply (lookup_insert_Some (M := gmap bytes)) in E as [[<- <-]|[_ E]]; [by intros [= <-]|]. by rewrite lookup_empty in E.
  - intros tp args tp' args' sch sch' [[-> ->]|[-> [id ->]]] [[-> ->]|[-> [id' ->]]]; rewrite ?create_leader, ?create_evict;
      intros [= <-] [= <-] Hn; [done|discriminate Hn..|]. cbn in Hn. split; [done|]. by simplify_eq.
Qed.

Lemma demo_entries : entries_ok (C := patrolled) registry demo_request (Schedulers (o_v opt)).
Proof. split; [apply Forall_singleton; split; [by left|by eexists]|apply NoDup_singleton]. Qed.

Definition evicting : coord := (addScheduler (Builtin (str "evict-leader") (str "evict-leader-scheduler-2")) (Some [str "2"]) started).1.


Definition user_name : bytes := str "move-leader-user-scheduler-0".
Definition user_sch : demo_sch := User (newMoveLeaderUserScheduler user_name [] [] [1] None).
Definition w1 : coord := (addScheduler (Builtin (str "balance-leader") (str "balance-leader-scheduler")) None (newCoordinator 100 opt)).1.
Definition w2 : coord := (run_tick env (λ _ _ l, l) (λ _, [DefaultNamespace]) 0 w1).1.
Definition w3 : coord := (start_scheduler user_sch None w2).1.

(** The scheduler of the user runs beside another one, which has proposed. *)
Lemma schedulers_correct_witness : length (oc_heap (co_opController w3)) = 1%nat ∧ reachable env (co_opController w3) ∧
  ∃ s, co_controllers w3 !! 1%nat = Some s ∧ sc_stopped s = false ∧ sch_GetName (C := patrolled) (sc_Scheduler s) = user_name.
Proof.
  assert (Hr : co_reachable env registry (λ name, name = user_name) w3 UserIdle).
  { exists 100, opt. eapply rtc_l; [eapply (step_add _ _ _ _ UserIdle (Builtin (str "balance-leader") (str "balance-leader-scheduler")) None);
      [discriminate|apply surjective_pairing]|].
    eapply rtc_l; [eapply (step_tick _ _ _ w1 UserIdle (λ _ _ l, l) (λ _, [DefaultNamespace]) 0 w2)|].
    { assert (Hok : (run_tick env (λ _ _ l, l) (λ _, [DefaultNamespace]) 0 w1).2 = inr ()) by (vm_compute; reflexivity).
      rewrite <-Hok. apply surjective_pairing. }
    eapply rtc_l; [eapply (step_user_new _ _ _ w2 user_sch); [reflexivity|vm_compute; reflexivity]|].
    eapply rtc_once, (step_user_start _ _ _ w2 user_sch None). apply surjective_pairing. }
  destruct (schedulers_correct env registry (λ name, name = user_name) w3 UserIdle Hr) as (Hmap & _ & _ & Hoc & _).
  split; [vm_compute; reflexivity|]. split; [exact Hoc|]. apply Hmap; vm_compute; reflexivity.
Defined.

(** Ten rounds in vain of a scheduler of the user. *)
Lemma interval_correct_witness : ∃ s, rounds (C := patrolled) 1 s ∧ MinScheduleInterval ≤ GetInterval s ≤ MaxScheduleInterval.
Proof.
  set (s0 := mkScheduleController user_sch MinScheduleInterval false false).
  set (r := controller_Schedule (λ _ _ l, l) (λ _, [DefaultNamespace]) (s0, 100 : patrolled)).
  assert (Hr : rounds (C := patrolled) 1 r.1.1).
  { apply (rounds_vain 0 s0 100 (λ _ _ l, l) (λ _, [DefaultNamespace]) r.1.1 r.1.2); [exact (rounds_new user_sch false)|]. vm_compute. reflexivity. }
  exists r.1.1. split; [exact Hr|]. exact (proj1 (interval_correct (C := patrolled) 1 r.1.1 (λ _, conj eq_refl (λ _, eq_refl)) Hr)).
Defined.

(** The schedulers of the user stay in the configuration.  After a scheduler of
    the user was added and removed, nothing runs under its name, but its type is
    still enabled in the configuration, because the registered constructor makes
    a scheduler without a name.  When the coordinator is started again after the
    plugin was loaded, that scheduler, without a name and without a rule, runs. *)
Theorem user_scheduler_lingers :
  let added := (addUserScheduler registry user_sch None started).1 in
  let removed := removeScheduler registry user_name added in
  let again := run registry (newCoordinator 100 (co_opt removed.1) : coord) in
  co_schedulers added !! user_name = Some 1%nat ∧ removed.2 = inr () ∧ co_schedulers removed.1 !! user_name = None ∧
  mkSchedulerConfig (str "move-leader-user") None false ∈ Schedulers (o_v (co_opt removed.1)) ∧
  ∃ i s, co_schedulers again !! [] = Some i ∧ co_controllers again !! i = Some s ∧
    sc_Scheduler s = User (newMoveLeaderUserScheduler [] [] [] [] None) ∧ sc_stopped s = false.
Proof.
  cbv zeta. split_and!; [vm_compute; reflexivity..| |].
  - refine (bool_decide_unpack _ _). vm_compute. exact I.
  - exists 1%nat, (mkScheduleController (User (newMoveLeaderUserScheduler [] [] [] [] None)) MinScheduleInterval false false).
    split_and!; vm_compute; reflexivity.
Qed.
End CoordinatorDemo.
