(* ===== verification/HandlerDemo.v ===== *)
(** * Requests of an administrator

    The theorems about the requests applied to the cluster of the schedulers and to
    three of its regions. *)

From S2P Require Import Prelude GoBytes BTree Strconv Strings Float FloatInt KV Metapb Region RegionTree RegionMap RegionsInfo Cache Storage Store Statistics Config ConfigProps Operator OperatorProps WaitingOperator OperatorController OperatorControllerInv OperatorControllerProps Schedule ScheduleProps Structure Checkers CheckersProps LocationProps Plugin Schedulers SchedulersProps NamespaceCluster Scatter Coordinator CoordinatorProps PatrolProps Handler HandlerProps SchedulersDemo CoordinatorDemo.

Module HandlerDemo.
Import Latin ControllerDemo SchedulersDemo.
#[local] Existing Instances SchedulersDemo.classifier SchedulersDemo.ops SchedulersDemo.demo_view SchedulersDemo.demo_laws.

Definition snap : Snapshot := mkSnapshot 0 (v_GetRegion v) (λ _, Some false) 10 (f64_of_Z 15) (f64_of_Z 0) elements.
Definition env : nat → Snapshot := λ _, snap.
Lemma requests_env_ok : env_ok env.
Proof. split; [done|]. by split; vm_compute. Qed.

Definition state := (OperatorController Z * (selectedStores * cluster))%type.
Definition oc0 : OperatorController Z := OC.NewOperatorController [].
Definition sel0 : selectedStores := ∅.
Definition ask (q : admin_request) (regionID : Z) : state * result unit := request (C := cluster) env 0 quiet order followers q regionID (oc0, (sel0, 100 : cluster)).

Lemma demo_bounded : bounded (view (100 : cluster)).
Proof.
  split; [vm_compute; reflexivity|]. intros id r Hr. apply find_first_Some in Hr as [Hr _]. revert r Hr. apply list.Forall_forall.
  refine (bool_decide_unpack _ _). vm_compute. exact I.
Qed.

Lemma oc0_reachable : reachable env oc0.
Proof. apply rtc_refl. Qed.


Definition first_ : RegionInfo := default (region 1 "" "b" [1; 2; 3]) (v_GetRegion v 1).
Definition second_ : RegionInfo := default (region 1 "" "b" [1; 2; 3]) (v_GetRegion v 2).
Definition third_ : RegionInfo := default (region 1 "" "b" [1; 2; 3]) (v_GetRegion v 3).

(** The second region begins where the first one ends, and the request to merge
    these is refused; the third has no border with the first one, and the request is
    granted. *)
Lemma merge_guard_inverted_witness :
  (AddMergeRegionOperator (C := cluster) env 0 1 2 [1; 2; 3] (oc0, (sel0, 100 : cluster))).2 = inl ErrRegionNotAdjacent ∧
  ¬ borders first_ third_ ∧ ∃ c' ops, merges first_ third_ ops ∧
    AddMergeRegionOperator (C := cluster) env 0 1 3 [1; 2; 3] (oc0, (sel0, 100 : cluster)) = add_operators env ops (oc0, (sel0, c')).
Proof.
  assert (H1' : v_GetRegion (view (100 : cluster)) 1 = Some first_) by (vm_compute; reflexivity).
  assert (H2' : v_GetRegion (view (100 : cluster)) 2 = Some second_) by (vm_compute; reflexivity).
  assert (H3' : v_GetRegion (view (100 : cluster)) 3 = Some third_) by (vm_compute; reflexivity).
  assert (Hb : ¬ borders first_ third_) by (intros [Hb|Hb]; vm_compute in Hb; discriminate Hb).
  assert (Hma : matchable first_ third_ [1; 2; 3]).
  { split; [..|refine (bool_decide_unpack _ _); vm_compute; exact I]; try split; refine (bool_decide_unpack _ _); vm_compute; exact I. }
  split; [|split; [exact Hb|]].
  - pose proof (@merge_guard_inverted Z cluster limiter ops demo_view env 0 1 2 [1; 2; 3] oc0 sel0 100 first_ second_ H1' H2') as H.
    destruct H as (H & _); [vm_compute; reflexivity..|]. rewrite H; vm_compute; reflexivity.
  - pose proof (@merge_guard_inverted Z cluster limiter ops demo_view env 0 1 3 [1; 2; 3] oc0 sel0 100 first_ third_ H1' H3') as H.
    destruct H as (_ & _ & H); [vm_compute; reflexivity..|].
    destruct (H Hb) as (c' & [(e & _ & (id & c3 & c4 & Ha))|(ops' & Hm & Hrun)]); [|exact Hma|discriminate Ha|].
    + right. intros He. vm_compute in He. discriminate He.
    + exists c', ops'. split; [exact Hm|exact Hrun].
Defined.
End HandlerDemo.

(** A coordinator that balances leaders, on an empty storage. *)
Module SchedulerRequestsDemo.
Import Latin SortedList ControllerDemo ConfigDemo CoordinatorDemo.
#[local] Existing Instance SchedulersDemo.classifier.

(** The encoding writes the types of the schedulers. *)
#[local] Instance types_json : ConfigJson Z := {
  json_Marshal cfg := inr (mjoin ((λ c, sc_Type c ++ [Byte.x00]) <$> Schedulers (cfg_Schedule cfg)));
  json_Unmarshal _ cfg := inr cfg;
}.

Definition opt : scheduleOption Z :=
  mkScheduleOption (set_Schedulers [leader_cfg] ScheduleDemo.cfg) (mkReplicationConfig 3 [] false) ∅ None 0 (mkPDServerConfig false).
Definition co0 : coordinator Z Z patrolled demo_sch := run registry (newCoordinator 100 opt).
Definition evict : scheduler_request := AddSchedulerReq (str "evict-leader") (Some [str "2"]).

End SchedulerRequestsDemo.
