(* ===== verification/Namespaces.v ===== *)
(** * Namespaces of tables and stores (table/namespace_classifier.go, server/namespace/namespace.go)

    A namespace binds tables, and the meta data of the database, to stores.  The
    table classifier keeps the namespaces by name, saves each under its id and
    implements [namespace.Classifier].  A method that holds the lock is one step.
    The namespaces of the map are shared objects: a method changes the object
    before it saves it, so the change stays when saving fails.  The maps
    [TableIDs] and [StoreIDs] are used as sets.  The JSON text of a namespace is a
    parameter. *)

From S2P Require Import Prelude GoBytes BTree Strconv Strings Float KV Metapb Region RegionMap RegionsInfo Codec Storage Store Statistics RaftCluster.

(** ** Namespace *)

Record Namespace := mkNamespace {
  ns_ID : Z;
  ns_Name : bytes;
  ns_TableIDs : gset Z;
  ns_StoreIDs : gset Z;
  ns_Meta : bool;
}.

#[export] Instance Namespace_eq_dec : EqDecision Namespace.
Proof. solve_decision. Defined.

Definition NewNamespace (id : Z) (name : bytes) : Namespace := mkNamespace id name ∅ ∅ false.
Definition ns_GetName (ns : option Namespace) : bytes := match ns with Some ns => ns_Name ns | None => DefaultNamespace end.
Definition ns_GetID (ns : option Namespace) : Z := match ns with Some ns => ns_ID ns | None => 0 end.
Definition AddTableID (tableID : Z) (ns : Namespace) : Namespace :=
  mkNamespace (ns_ID ns) (ns_Name ns) ({[tableID]} ∪ ns_TableIDs ns) (ns_StoreIDs ns) (ns_Meta ns).
Definition AddStoreID (storeID : Z) (ns : Namespace) : Namespace :=
  mkNamespace (ns_ID ns) (ns_Name ns) (ns_TableIDs ns) ({[storeID]} ∪ ns_StoreIDs ns) (ns_Meta ns).
(** [delete(n.TableIDs, tableID)], [delete(n.StoreIDs, storeID)], [n.Meta = b]. *)
Definition DelTableID (tableID : Z) (ns : Namespace) : Namespace :=
  mkNamespace (ns_ID ns) (ns_Name ns) (ns_TableIDs ns ∖ {[tableID]}) (ns_StoreIDs ns) (ns_Meta ns).
Definition DelStoreID (storeID : Z) (ns : Namespace) : Namespace :=
  mkNamespace (ns_ID ns) (ns_Name ns) (ns_TableIDs ns) (ns_StoreIDs ns ∖ {[storeID]}) (ns_Meta ns).
Definition SetMeta (b : bool) (ns : Namespace) : Namespace :=
  mkNamespace (ns_ID ns) (ns_Name ns) (ns_TableIDs ns) (ns_StoreIDs ns) b.

(** [^\w+$]: letters, digits and the underscore. *)
Definition word_byte (c : Byte.byte) : bool :=
  let v := byte_val c in
  ((48 <=? v) && (v <=? 57)) || ((65 <=? v) && (v <=? 90)) || (v =? 95) || ((97 <=? v) && (v <=? 122)).
Definition word_name (name : bytes) : bool := negb (length name =? 0)%nat && forallb word_byte name.

(** [json.Marshal] and [json.Unmarshal] on a namespace; a name that is not UTF-8
    would not come back. *)
Class NamespaceJson := {
  ns_Marshal : Namespace → result bytes;
  ns_Unmarshal : bytes → result Namespace;
}.
Class NamespaceJsonLaws `{!NamespaceJson} : Prop := {
  ns_Unmarshal_Marshal ns b : word_name (ns_Name ns) = true → ns_Marshal ns = inr b → ns_Unmarshal b = inr ns;
}.

(** ** namespacesInfo *)

Abbreviation namespacesInfo := (gmap bytes Namespace).
Definition newNamespacesInfo : namespacesInfo := ∅.
Definition getNamespaceByName (m : namespacesInfo) (name : bytes) : option Namespace := m !! name.
Definition setNamespace (item : Namespace) (m : namespacesInfo) : namespacesInfo := <[ns_Name item := item]> m.
Definition getNamespaceCount (m : namespacesInfo) : Z := Z.of_nat (size m).
(** A loop over the map for an element with a property; its answer does not depend
    on the order. *)
Definition exists_ns (P : Namespace → bool) (m : namespacesInfo) : bool := existsb (λ p, P p.2) (map_to_list m).
Definition isTableIDExist (tableID : Z) : namespacesInfo → bool := exists_ns (λ ns, bool_decide (tableID ∈ ns_TableIDs ns)).
Definition isStoreIDExist (storeID : Z) : namespacesInfo → bool := exists_ns (λ ns, bool_decide (storeID ∈ ns_StoreIDs ns)).
Definition isMetaExist : namespacesInfo → bool := exists_ns ns_Meta.

(** [fmt.Sprintf("%20d", n)] pads with spaces. *)
Definition Sprintf_20d (n : Z) : bytes :=
  let s := FormatUint n 10 in replicate (20 - length s) Byte.x20 ++ s.
Definition namespacePath (nsID : Z) : bytes := Join [str "namespace"; Sprintf_20d nsID].

Definition kvRangeLimit : Z := 1000.

Section storage.
Context {S : Type} `{!KVBase S} `{!NamespaceJson}.

Definition saveNamespace (ns : Namespace) : M S unit :=
  value ← lift_result (ns_Marshal ns);
  Save (namespacePath (ns_GetID (Some ns))) value.

(** The storage and the namespaces loaded so far. *)
Abbreviation MN := (M (S * namespacesInfo)).

Fixpoint load_ns_page (res : list bytes) (nextID : Z) : MN Z :=
  match res with
  | [] => mret nextID
  | s :: res =>
      ns ← lift_result (ns_Unmarshal s);
      (λ '(st, m), ((st, setNamespace ns m), inr ()));;
      load_ns_page res (uint64 (ns_ID ns + 1))
  end.

(** [fuel] bounds the number of pages. *)
Fixpoint load_ns_loop (fuel : nat) (nextID rangeLimit : Z) : MN unit :=
  match fuel with
  | O => mfail (Error "out of fuel")
  | Datatypes.S fuel =>
      page ← (λ '(st, m), let '(st, r) := LoadRange (namespacePath nextID) (namespacePath maxUint64) rangeLimit st in ((st, m), r));
      nextID ← load_ns_page page.2 nextID;
      if Z.of_nat (length page.2) <? rangeLimit then mret () else load_ns_loop fuel nextID rangeLimit
  end.

Definition loadNamespaces (fuel : nat) (rangeLimit : Z) : MN unit := load_ns_loop fuel 0 rangeLimit.
End storage.

(** ** The table classifier *)

Definition ErrNamespaceName : go_error := Error "Name should be 0-9, a-z or A-Z".
Definition ErrNamespaceReserved : go_error := Error "reserved as default namespace".
Definition ErrNamespaceDuplicate : go_error := Error "Duplicate namespace Name".
Definition ErrNamespaceNotFound : go_error := Error "invalid namespace Name, not found".
Definition ErrTableExists : go_error := Error "Table ID already exists in this cluster".
Definition ErrTableNotIn : go_error := Error "Table ID is not belong to the namespace".
Definition ErrStoreExists : go_error := Error "Store ID already exists in this namespace".
Definition ErrStoreNotIn : go_error := Error "Store ID is not belong to the namespace".
Definition ErrMetaSet : go_error := Error "meta is already set".
Definition ErrMetaNotIn : go_error := Error "meta is not belong to the namespace".

(** The storage may be nil. *)
Record tableNamespaceClassifier (S A : Type) := mkTableClassifier {
  tc_nsInfo : namespacesInfo;
  tc_storage : option S;
  tc_idAlloc : A;
}.
Arguments mkTableClassifier {S A}.
Arguments tc_nsInfo {S A}.
Arguments tc_storage {S A}.
Arguments tc_idAlloc {S A}.

Section classifier.
Context {S A : Type} `{!KVBase S} `{!IDAllocator A} `{!NamespaceJson}.
Abbreviation tc := (tableNamespaceClassifier S A).
Implicit Types (c : tc) (ns : Namespace) (name : bytes).

Definition tc_set_info (m : namespacesInfo) c : tc := mkTableClassifier m (tc_storage c) (tc_idAlloc c).

Definition putNamespaceLocked ns : M tc unit := λ c,
  match tc_storage c with
  | None => (tc_set_info (setNamespace ns (tc_nsInfo c)) c, inr ())
  | Some s =>
      match saveNamespace ns s with
      | (s, inl err) => (mkTableClassifier (tc_nsInfo c) (Some s) (tc_idAlloc c), inl err)
      | (s, inr _) => (mkTableClassifier (setNamespace ns (tc_nsInfo c)) (Some s) (tc_idAlloc c), inr ())
      end
  end.

Definition tc_Alloc : M tc Z := λ c,
  let '(a, r) := alloc_id (tc_idAlloc c) in (mkTableClassifier (tc_nsInfo c) (tc_storage c) a, r).

Definition tc_info : M tc namespacesInfo := λ c, (c, inr (tc_nsInfo c)).

(** Writing to the object of a namespace. *)
Definition write_ns name ns : M tc unit := λ c, (tc_set_info (<[name := ns]> (tc_nsInfo c)) c, inr ()).

Definition CreateNamespace name : M tc unit :=
  if negb (word_name name) then mfail ErrNamespaceName
  else if bool_decide (name = DefaultNamespace) then mfail ErrNamespaceReserved
  else
    m ← tc_info;
    match getNamespaceByName m name with
    | Some _ => mfail ErrNamespaceDuplicate
    | None =>
        id ← tc_Alloc;
        putNamespaceLocked (NewNamespace id name)
    end.

Definition AddNamespaceTableID name (tableID : Z) : M tc unit :=
  m ← tc_info;
  match getNamespaceByName m name with
  | None => mfail ErrNamespaceNotFound
  | Some n =>
      if isTableIDExist tableID m then mfail ErrTableExists
      else write_ns name (AddTableID tableID n);; putNamespaceLocked (AddTableID tableID n)
  end.

Definition RemoveNamespaceTableID name (tableID : Z) : M tc unit :=
  m ← tc_info;
  match getNamespaceByName m name with
  | None => mfail ErrNamespaceNotFound
  | Some n =>
      if bool_decide (tableID ∈ ns_TableIDs n)
      then write_ns name (DelTableID tableID n);; putNamespaceLocked (DelTableID tableID n)
      else mfail ErrTableNotIn
  end.

Definition AddMetaToNamespace name : M tc unit :=
  m ← tc_info;
  match getNamespaceByName m name with
  | None => mfail ErrNamespaceNotFound
  | Some n =>
      if isMetaExist m then mfail ErrMetaSet
      else write_ns name (SetMeta true n);; putNamespaceLocked (SetMeta true n)
  end.

Definition RemoveMeta name : M tc unit :=
  m ← tc_info;
  match getNamespaceByName m name with
  | None => mfail ErrNamespaceNotFound
  | Some n =>
      if negb (ns_Meta n) then mfail ErrMetaNotIn
      else write_ns name (SetMeta false n);; putNamespaceLocked (SetMeta false n)
  end.

Definition AddNamespaceStoreID name (storeID : Z) : M tc unit :=
  m ← tc_info;
  match getNamespaceByName m name with
  | None => mfail ErrNamespaceNotFound
  | Some n =>
      if isStoreIDExist storeID m then mfail ErrStoreExists
      else write_ns name (AddStoreID storeID n);; putNamespaceLocked (AddStoreID storeID n)
  end.

Definition RemoveNamespaceStoreID name (storeID : Z) : M tc unit :=
  m ← tc_info;
  match getNamespaceByName m name with
  | None => mfail ErrNamespaceNotFound
  | Some n =>
      if bool_decide (storeID ∈ ns_StoreIDs n)
      then write_ns name (DelStoreID storeID n);; putNamespaceLocked (DelStoreID storeID n)
      else mfail ErrStoreNotIn
  end.

(** A nil storage panics. *)
Definition ReloadNamespaces (fuel : nat) : M tc unit := λ c,
  match tc_storage c with
  | None => (c, inl (Panic "invalid memory address or nil pointer dereference"))
  | Some s =>
      let '((s, m), r) := loadNamespaces fuel kvRangeLimit (s, newNamespacesInfo) in
      match r with
      | inl err => (mkTableClassifier (tc_nsInfo c) (Some s) (tc_idAlloc c), inl err)
      | inr _ => (mkTableClassifier m (Some s) (tc_idAlloc c), inr ())
      end
  end.

Definition NewTableNamespaceClassifier (fuel : nat) (s : S) (a : A) : S * result tc :=
  let '((s, m), r) := loadNamespaces fuel kvRangeLimit (s, newNamespacesInfo) in
  (s, match r with inl err => inl err | inr _ => inr (mkTableClassifier m (Some s) a) end).

(** ** The interface *)

(** [order] is the order of a loop over the map. *)
Variable order : namespacesInfo → list (bytes * Namespace).

Definition first_ns (P : Namespace → bool) (m : namespacesInfo) : bytes :=
  match find_first (λ p, P p.2) (order m) with Some (name, _) => name | None => DefaultNamespace end.

Definition tc_GetAllNamespaces c : list bytes := (order (tc_nsInfo c)).*1 ++ [DefaultNamespace].

Definition tc_GetStoreNamespace c (h : heap) (s : StoreInfo) : bytes :=
  first_ns (λ ns, bool_decide (store_GetID h s ∈ ns_StoreIDs ns)) (tc_nsInfo c).

Definition tc_GetRegionNamespace c (region : RegionInfo) : bytes :=
  let '(isMeta, tableID) := MetaOrTable (GetStartKey region) in
  if (tableID =? 0) && negb isMeta then DefaultNamespace
  else first_ns (λ ns, bool_decide (tableID ∈ ns_TableIDs ns) || (isMeta && ns_Meta ns)) (tc_nsInfo c).

Definition tc_AllowMerge (one other : RegionInfo) : bool := TableID (GetStartKey one) =? TableID (GetStartKey other).

Definition tc_IsNamespaceExist c name : bool := bool_decide (is_Some (getNamespaceByName (tc_nsInfo c) name)).

Definition tableClassifier c : Classifier := {|
  GetAllNamespaces := tc_GetAllNamespaces c;
  GetStoreNamespace := tc_GetStoreNamespace c;
  GetRegionNamespace := tc_GetRegionNamespace c;
  IsNamespaceExist := tc_IsNamespaceExist c;
  AllowMerge := tc_AllowMerge;
|}.
End classifier.

(** ** Registered classifiers *)

Section registry.
Context {F : Type}.
Definition RegisterClassifier (name : bytes) (createFn : F) (classifierMap : gmap bytes F) : result (gmap bytes F) :=
  match classifierMap !! name with
  | Some _ => inl (Panic "duplicated classifier name")
  | None => inr (<[name := createFn]> classifierMap)
  end.
Definition CreateClassifier (name : bytes) (classifierMap : gmap bytes F) : result F :=
  match classifierMap !! name with
  | None => inl (Error "create func is not registered")
  | Some fn => inr fn
  end.
End registry.
