(* ===== verification/NamespacesProps.v ===== *)
(** * Properties of the table classifier

    Every table, every store and the meta data belong to one namespace at most,
    whatever commands are run and fail, so the classifier does not depend on the
    order of a Go map; reloading gives back the namespaces in the storage; and what
    goes wrong when saving fails. *)

From S2P Require Import Prelude GoBytes BTree Strconv Strings Float KV Metapb Region RegionMap RegionsInfo Codec Storage StorageProps Store Statistics RaftCluster Namespaces.

(** ** Namespace keys are ordered as their ids *)

Definition space : Byte.byte := Byte.x20.

Lemma FormatUint_spec n : is_uint64 n →
  Forall is_digit (FormatUint n 10) ∧ dec_val (FormatUint n 10) = n ∧ (1 ≤ length (FormatUint n 10) ≤ 20)%nat.
Proof.
  unfold is_uint64. intros Hn. destruct (format_digits_dec 63 n) as [Hd Hv]; [change (Z.of_nat 64) with 64; lia|].
  pose proof (format_digits_length 64 20 n ltac:(lia) ltac:(change (Z.of_nat 20) with 20; lia)) as Hl.
  split_and!; [done..| |done]. pose proof (format_digits_nonempty 63 n 10 []) as Hne. unfold FormatUint.
  destruct (format_digits 64 n 10 []); [done|cbn; lia].
Qed.

(** The shorter number is the smaller one. *)
Lemma FormatUint_shorter a b : is_uint64 a → is_uint64 b →
  (length (FormatUint a 10) < length (FormatUint b 10))%nat → a < b.
Proof.
  intros Ha Hb Hlt. pose proof (FormatUint_spec a Ha) as (Hd & Hv & Hl). pose proof (FormatUint_spec b Hb) as (_ & _ & Hlb).
  pose proof (dec_val_range _ Hd) as Hr. rewrite Hv in Hr. destruct (Z.lt_ge_cases a b) as [|Hge]; [done|].
  pose proof (format_digits_length 64 (length (FormatUint a 10)) b ltac:(lia) ltac:(unfold is_uint64 in *; lia)) as H.
  unfold FormatUint in *. lia.
Qed.

Lemma Compare_padded k j s t : Forall is_digit s → Forall is_digit t → s ≠ [] → t ≠ [] → (k + length s = j + length t)%nat →
  Compare (replicate k space ++ s) (replicate j space ++ t) =
    if (k =? j)%nat then Compare s t else if (j <? k)%nat then -1 else 1.
Proof.
  intros Hs Ht Hns Hnt. revert j. induction k as [|k IH]; intros [|j] Hl; cbn [replicate app].
  - done.
  - destruct Hs as [|x s Hx Hs]; [done|]. cbn [Compare Nat.eqb Nat.ltb Nat.leb]. unfold is_digit in Hx.
    change (byte_val space) with 32. byte_cases; lia.
  - destruct Ht as [|x t Hx Ht]; [done|]. cbn [Compare Nat.eqb Nat.ltb Nat.leb]. unfold is_digit in Hx.
    change (byte_val space) with 32. byte_cases; lia.
  - cbn [Compare]. rewrite Z.ltb_irrefl. apply IH. lia.
Qed.

Lemma Compare_Sprintf_20d a b : is_uint64 a → is_uint64 b → Compare (Sprintf_20d a) (Sprintf_20d b) = Z.sgn (a - b).
Proof.
  intros Ha Hb. pose proof (FormatUint_spec a Ha) as (Hda & Hva & Hla). pose proof (FormatUint_spec b Hb) as (Hdb & Hvb & Hlb).
  unfold Sprintf_20d. rewrite Compare_padded; [|done|done|intros E; rewrite E in Hla; cbn in Hla; lia|intros E; rewrite E in Hlb; cbn in Hlb; lia|lia].
  destruct (Nat.eqb_spec (20 - length (FormatUint a 10)) (20 - length (FormatUint b 10))) as [Heq|Hne].
  - rewrite Compare_dec, Hva, Hvb by (done || lia). done.
  - destruct (Nat.ltb_spec (20 - length (FormatUint b 10)) (20 - length (FormatUint a 10))).
    + pose proof (FormatUint_shorter a b Ha Hb ltac:(lia)). lia.
    + pose proof (FormatUint_shorter b a Hb Ha ltac:(lia)). lia.
Qed.

Lemma Sprintf_20d_simple id : is_uint64 id → simple_elem (Sprintf_20d id).
Proof.
  intros Hid. pose proof (FormatUint_spec id Hid) as (Hd & _ & Hl). rewrite list.Forall_forall in Hd.
  assert (Hb : ∀ c, c ∈ Sprintf_20d id → c = space ∨ is_digit c).
  { intros c [[-> _]%elem_of_replicate|?%Hd]%elem_of_app; auto. }
  assert (Hlen : length (Sprintf_20d id) = 20%nat) by (unfold Sprintf_20d; rewrite length_app, length_replicate; lia).
  split_and!; [by intros E; rewrite E in Hlen| |by intros E; rewrite E in Hlen..].
  intros [Hc|Hc]%Hb; [done|]. unfold is_digit in Hc. change (byte_val slash) with 47 in Hc. lia.
Qed.

Lemma namespacePath_eq id : is_uint64 id → namespacePath id = str "namespace/" ++ Sprintf_20d id.
Proof.
  intros H. unfold namespacePath. rewrite Join_simple; [done|done|].
  apply Forall_cons_2; [by apply const_simple|apply Forall_cons_2; [by apply Sprintf_20d_simple|apply Forall_nil_2]].
Qed.

Lemma namespacePath_lt a b : is_uint64 a → is_uint64 b → (namespacePath a < namespacePath b)%key ↔ a < b.
Proof. intros. unfold key_lt. rewrite !namespacePath_eq, Compare_app_same, Compare_Sprintf_20d by done. lia. Qed.

Lemma namespacePath_le a b : is_uint64 a → is_uint64 b → (namespacePath a ≤ namespacePath b)%key ↔ a ≤ b.
Proof. intros. unfold key_le. rewrite !namespacePath_eq, Compare_app_same, Compare_Sprintf_20d by done. lia. Qed.

Lemma namespacePath_inj a b : is_uint64 a → is_uint64 b → namespacePath a = namespacePath b → a = b.
Proof.
  intros Ha Hb E. apply Z.le_antisymm; [apply (namespacePath_le a b)|apply (namespacePath_le b a)]; try done; rewrite E; key_order.
Qed.

#[local] Opaque namespacePath.

(** Rewrites comparisons of namespace keys to comparisons of ids. *)
Ltac ns_keys := rewrite ?namespacePath_le, ?namespacePath_lt; unfold is_uint64, maxUint64 in *; lia.

(** ** The invariant of the namespaces *)

(** Two namespaces share no table, no store, not the meta data and not the id. *)
Definition ns_apart (n n' : Namespace) : Prop :=
  ns_TableIDs n ## ns_TableIDs n' ∧ ns_StoreIDs n ## ns_StoreIDs n' ∧ (ns_Meta n = true → ns_Meta n' = false) ∧ ns_ID n ≠ ns_ID n'.

Record ns_inv (m : namespacesInfo) : Prop := {
  ni_name k n : m !! k = Some n → ns_Name n = k ∧ word_name k = true ∧ k ≠ DefaultNamespace;
  ni_apart k k' n n' : m !! k = Some n → m !! k' = Some n' → k ≠ k' → ns_apart n n';
}.

#[export] Instance ns_apart_sym : Symmetric ns_apart.
Proof.
  intros n n' (? & ? & Hm & ?). split_and!; [done..| |done]. intros Hn'. destruct (ns_Meta n); [|done]. by rewrite Hm in Hn'.
Qed.

Lemma ns_inv_insert m k n : ns_inv m → ns_Name n = k → word_name k = true → k ≠ DefaultNamespace →
  (∀ k' n', k' ≠ k → m !! k' = Some n' → ns_apart n n') → ns_inv (<[k := n]> m).
Proof.
  intros [Hname Hap] Hn Hw Hd Hnew. split.
  - intros k' n' [[<- <-]|[_ ?]]%lookup_insert_Some; auto.
  - intros k1 k2 n1 n2 [[<- <-]|[? H1]]%lookup_insert_Some [[<- <-]|[? H2]]%lookup_insert_Some Hne.
    + done.
    + by eapply Hnew.
    + symmetry. by eapply Hnew.
    + by eapply Hap.
Qed.

Lemma exists_ns_true (P : Namespace → bool) (m : namespacesInfo) : exists_ns P m = true ↔ ∃ k n, m !! k = Some n ∧ P n = true.
Proof.
  unfold exists_ns. rewrite existsb_exists. split.
  - intros ([k n] & Hin & HP). apply list_elem_of_In, elem_of_map_to_list in Hin. eauto.
  - intros (k & n & Hk & HP). exists (k, n). split; [|done]. by apply list_elem_of_In, elem_of_map_to_list.
Qed.

Lemma exists_ns_false (P : Namespace → bool) (m : namespacesInfo) : exists_ns P m = false ↔ ∀ k n, m !! k = Some n → P n = false.
Proof.
  rewrite <-not_true_iff_false, exists_ns_true. split.
  - intros H k n Hk. destruct (P n) eqn:E; [|done]. destruct H. eauto.
  - intros H (k & n & Hk & HP). by rewrite (H k n Hk) in HP.
Qed.

(** ** The commands *)

Inductive ns_cmd :=
| CmdCreate (name : bytes)
| CmdAddTable (name : bytes) (tableID : Z)
| CmdDelTable (name : bytes) (tableID : Z)
| CmdAddMeta (name : bytes)
| CmdDelMeta (name : bytes)
| CmdAddStore (name : bytes) (storeID : Z)
| CmdDelStore (name : bytes) (storeID : Z).

Definition cmd_name (q : ns_cmd) : bytes :=
  match q with
  | CmdCreate name | CmdAddTable name _ | CmdDelTable name _ | CmdAddMeta name | CmdDelMeta name | CmdAddStore name _ | CmdDelStore name _ => name
  end.

Definition is_create (q : ns_cmd) : bool := match q with CmdCreate _ => true | _ => false end.

(** The change a command makes to its namespace, and when it may. *)
Definition cmd_update (q : ns_cmd) (n : Namespace) : Namespace :=
  match q with
  | CmdCreate _ => n
  | CmdAddTable _ t => AddTableID t n
  | CmdDelTable _ t => DelTableID t n
  | CmdAddMeta _ => SetMeta true n
  | CmdDelMeta _ => SetMeta false n
  | CmdAddStore _ s => AddStoreID s n
  | CmdDelStore _ s => DelStoreID s n
  end.

Definition cmd_admits (q : ns_cmd) (m : namespacesInfo) (n : Namespace) : Prop :=
  match q with
  | CmdCreate _ => False
  | CmdAddTable _ t => ∀ k n', m !! k = Some n' → t ∉ ns_TableIDs n'
  | CmdDelTable _ t => t ∈ ns_TableIDs n
  | CmdAddMeta _ => ∀ k n', m !! k = Some n' → ns_Meta n' = false
  | CmdDelMeta _ => ns_Meta n = true
  | CmdAddStore _ s => ∀ k n', m !! k = Some n' → s ∉ ns_StoreIDs n'
  | CmdDelStore _ s => s ∈ ns_StoreIDs n
  end.

(** The effect of a command on the namespaces. *)
Definition ns_effect (q : ns_cmd) (m m' : namespacesInfo) : Prop :=
  match q with
  | CmdCreate name => word_name name = true ∧ name ≠ DefaultNamespace ∧ m !! name = None ∧
      ∃ id, (∀ k n, m !! k = Some n → ns_ID n ≠ id) ∧ m' = <[name := NewNamespace id name]> m
  | _ => ∃ n, m !! cmd_name q = Some n ∧ cmd_admits q m n ∧ m' = <[cmd_name q := cmd_update q n]> m
  end.

Lemma ns_effect_inv q m m' : ns_inv m → ns_effect q m m' → ns_inv m'.
Proof.
  intros Hinv. destruct (is_create q) eqn:Hq.
  - destruct q as [name| | | | | |]; try done. intros (Hw & Hd & Hnone & id & Hid & ->). apply ns_inv_insert; try done.
    intros k n Hne Hk. specialize (Hid k n Hk). split_and!; cbn; [set_solver..|done|done].
  - intros Heff. assert (∃ n, m !! cmd_name q = Some n ∧ cmd_admits q m n ∧ m' = <[cmd_name q := cmd_update q n]> m) as (n & Hn & Had & ->)
      by (by destruct q). destruct (ni_name m Hinv _ _ Hn) as (Hname & Hw & Hd). apply ns_inv_insert; try done; [by destruct q|].
    intros k n' Hne Hk. destruct (ni_apart m Hinv _ _ _ _ Hn Hk ltac:(done)) as (Ht & Hs & Hm & Hi).
    destruct q; cbn in *; split_and!; cbn; try done; try set_solver.
Qed.

Section commands.
Context {S A : Type} `{!KVBase S, !KVLaws S} `{!IDAllocator A, !IDAllocatorLaws A} `{!NamespaceJson, !NamespaceJsonLaws}.
Abbreviation tc := (tableNamespaceClassifier S A).
Implicit Types (c : tc) (q : ns_cmd) (ns : Namespace) (m : namespacesInfo) (V : gmap bytes bytes).

Definition run_ns_cmd q : M tc unit :=
  match q with
  | CmdCreate name => CreateNamespace name
  | CmdAddTable name t => AddNamespaceTableID name t
  | CmdDelTable name t => RemoveNamespaceTableID name t
  | CmdAddMeta name => AddMetaToNamespace name
  | CmdDelMeta name => RemoveMeta name
  | CmdAddStore name s => AddNamespaceStoreID name s
  | CmdDelStore name s => RemoveNamespaceStoreID name s
  end.

(** Ids are allocated below the largest one. *)
Hypothesis ids_small : ∀ (a a' : A) id, alloc_id a = (a', inr id) → 0 ≤ id < maxUint64.

Record tc_inv c : Prop := {
  ti_ns : ns_inv (tc_nsInfo c);
  ti_ids k n : tc_nsInfo c !! k = Some n → ns_ID n ∈ issued (tc_idAlloc c) ∧ 0 ≤ ns_ID n < maxUint64;
  ti_kv s : tc_storage c = Some s → kv_ok s;
}.

(** The storage holds the namespaces, each under its id, and no others. *)
Record synced V m : Prop := {
  sy_stored k b : V !! k = Some b → (namespacePath 0 ≤ k)%key → (k < namespacePath maxUint64)%key →
    ∃ ns, ns_Unmarshal b = inr ns ∧ k = namespacePath (ns_ID ns) ∧ 0 ≤ ns_ID ns < maxUint64 ∧ m !! ns_Name ns = Some ns;
  sy_known name ns : m !! name = Some ns → ∃ b, V !! namespacePath (ns_ID ns) = Some b ∧ ns_Unmarshal b = inr ns;
}.
Definition tc_synced c : Prop := ∃ s, tc_storage c = Some s ∧ synced (kv_view s) (tc_nsInfo c).

Lemma synced_insert V m ns b : synced V m → word_name (ns_Name ns) = true → ns_Marshal ns = inr b → 0 ≤ ns_ID ns < maxUint64 →
  (∀ k n, m !! k = Some n → 0 ≤ ns_ID n < maxUint64 ∧ (ns_ID n = ns_ID ns ↔ k = ns_Name ns)) →
  synced (<[namespacePath (ns_ID ns) := b]> V) (<[ns_Name ns := ns]> m).
Proof.
  intros [Hst Hkn] Hw Hb Hid Hfit. apply ns_Unmarshal_Marshal in Hb; [|done].
  assert (Hpath : ∀ n, 0 ≤ ns_ID n < maxUint64 → ns_ID n ≠ ns_ID ns → namespacePath (ns_ID ns) ≠ namespacePath (ns_ID n)).
  { intros n ? Hne Heq. apply namespacePath_inj in Heq; unfold is_uint64, maxUint64 in *; lia. }
  split.
  - intros k b' [[<- <-]|[Hne Hk]]%lookup_insert_Some Hlo Hhi.
    { exists ns. split_and!; try done; [lia..|]. by rewrite lookup_insert_eq. }
    destruct (Hst k b' Hk Hlo Hhi) as (n & Hu & -> & Hi & Hm). exists n. split_and!; try done; [lia..|].
    rewrite (lookup_insert_ne); [done|]. intros Heq. destruct (Hfit _ _ Hm) as [_ [_ Hn]]. by rewrite Hn in Hne.
  - intros name n [[<- <-]|[Hne Hm]]%lookup_insert_Some.
    { exists b. by rewrite lookup_insert_eq. }
    destruct (Hfit _ _ Hm) as [Hi Hn]. rewrite (lookup_insert_ne); [by eapply Hkn|]. apply Hpath; [done|]. intros ->%Hn. done.
Qed.

(** The errors of saving a namespace. *)
Definition save_error (e : go_error) : Prop := (∃ ns, ns_Marshal ns = inl e) ∨ ∃ s k v s', Save (S := S) k v s = (s', inl e).

(** The storage after a namespace was saved. *)
Definition saved ns c c' : Prop :=
  match tc_storage c, tc_storage c' with
  | None, None => True
  | Some s, Some s' => ∃ b, ns_Marshal ns = inr b ∧ kv_view s' = <[namespacePath (ns_ID ns) := b]> (kv_view s)
  | _, _ => False
  end.

Lemma put_spec ns c c' r : (∀ s, tc_storage c = Some s → kv_ok s) → putNamespaceLocked ns c = (c', r) →
  tc_idAlloc c' = tc_idAlloc c ∧ (∀ s, tc_storage c' = Some s → kv_ok s) ∧
  match r with
  | inr _ => tc_nsInfo c' = <[ns_Name ns := ns]> (tc_nsInfo c) ∧ saved ns c c'
  | inl e => tc_nsInfo c' = tc_nsInfo c ∧ save_error e
  end.
Proof.
  intros Hok. unfold putNamespaceLocked, saved. destruct (tc_storage c) as [s|] eqn:Es.
  2:{ intros [= <- <-]. cbn. by rewrite Es. }
  unfold saveNamespace. rewrite M_bind_eq. cbn [lift_result]. destruct (ns_Marshal ns) as [e|b] eqn:Eb.
  { intros [= <- <-]. split_and!; [done|by intros ? [= <-]; apply Hok|done|]. left. by exists ns. }
  destruct (Save _ b s) as [s' r'] eqn:Ew. destruct (Save_law _ _ _ _ _ (Hok s eq_refl) Ew) as [Hok' Hv].
  destruct r' as [e|[]]; intros [= <- <-]; cbn; (split_and!; [done|by intros ? [= <-]|done|]).
  - right. by eexists _, _, _, _.
  - destruct Hv as [Hv|[_ [? ?]]]; [|done]. by exists b.
Qed.

Lemma write_put name ns c : ns_Name ns = name → (write_ns name ns;; putNamespaceLocked ns) c =
  putNamespaceLocked ns (tc_set_info (<[name := ns]> (tc_nsInfo c)) c).
Proof. by rewrite M_bind_eq. Qed.

(** A command that has found its namespace. *)
Ltac ns_found En := rewrite M_bind_eq; cbn [tc_info]; unfold getNamespaceByName; rewrite En.

(** The commands on a namespace that exists have one shape. *)
Lemma run_update q c : is_create q = false → ns_inv (tc_nsInfo c) →
  (∃ e, run_ns_cmd q c = (c, inl e)) ∨
  ∃ n, tc_nsInfo c !! cmd_name q = Some n ∧ cmd_admits q (tc_nsInfo c) n ∧
    run_ns_cmd q c = putNamespaceLocked (cmd_update q n) (tc_set_info (<[cmd_name q := cmd_update q n]> (tc_nsInfo c)) c).
Proof.
  intros Hq Hinv. destruct (tc_nsInfo c !! cmd_name q) as [n|] eqn:En.
  2:{ left. destruct q; try done; eexists; cbn [run_ns_cmd cmd_name] in *; [unfold AddNamespaceTableID|unfold RemoveNamespaceTableID|unfold AddMetaToNamespace
      |unfold RemoveMeta|unfold AddNamespaceStoreID|unfold RemoveNamespaceStoreID]; by ns_found En. }
  destruct (ni_name _ Hinv _ _ En) as (Hname & _ & _).
  destruct q as [|name t|name t|name|name|name s|name s]; try done; cbn [run_ns_cmd cmd_name cmd_admits cmd_update] in *.
  - unfold AddNamespaceTableID. ns_found En.
    destruct (isTableIDExist t (tc_nsInfo c)) eqn:E; [left; by eexists|]. right. exists n. split_and!; [done| |by apply write_put].
    intros k n' Hk. by apply (proj1 (exists_ns_false _ _) E), bool_decide_eq_false in Hk.
  - unfold RemoveNamespaceTableID. ns_found En.
    case_bool_decide; [|left; by eexists]. right. exists n. split_and!; [done..|by apply write_put].
  - unfold AddMetaToNamespace. ns_found En.
    destruct (isMetaExist (tc_nsInfo c)) eqn:E; [left; by eexists|]. right. exists n. split_and!; [done| |by apply write_put].
    intros k n' Hk. by apply (proj1 (exists_ns_false _ _) E) in Hk.
  - unfold RemoveMeta. ns_found En.
    destruct (ns_Meta n) eqn:E; [|left; by eexists]. right. exists n. split_and!; [done..|by apply write_put].
  - unfold AddNamespaceStoreID. ns_found En.
    destruct (isStoreIDExist s (tc_nsInfo c)) eqn:E; [left; by eexists|]. right. exists n. split_and!; [done| |by apply write_put].
    intros k n' Hk. by apply (proj1 (exists_ns_false _ _) E), bool_decide_eq_false in Hk.
  - unfold RemoveNamespaceStoreID. ns_found En.
    case_bool_decide; [|left; by eexists]. right. exists n. split_and!; [done..|by apply write_put].
Qed.

Lemma synced_overwrite V m ns b : ns_inv m → synced V m → is_Some (m !! ns_Name ns) → (∀ n, m !! ns_Name ns = Some n → ns_ID n = ns_ID ns) →
  ns_Marshal ns = inr b → (∀ k n, m !! k = Some n → 0 ≤ ns_ID n < maxUint64) →
  synced (<[namespacePath (ns_ID ns) := b]> V) (<[ns_Name ns := ns]> m).
Proof.
  intros Hinv Hsy [n Hn] Hsame Hb Hids. specialize (Hsame n Hn). apply synced_insert; [done|by apply (ni_name m Hinv _ _ Hn)|done|rewrite <-Hsame; by eapply Hids|].
  intros k n' Hk. split; [by eapply Hids|]. split; [|intros ->; congruence]. intros Hi.
  destruct (decide (k = ns_Name ns)) as [|Hne]; [done|]. destruct (ni_apart m Hinv _ _ _ _ Hk Hn Hne) as (_ & _ & _ & ?). congruence.
Qed.

Lemma create_spec name c c' r : tc_inv c → CreateNamespace name c = (c', r) →
  tc_inv c' ∧ match r with
  | inr _ => ns_effect (CmdCreate name) (tc_nsInfo c) (tc_nsInfo c') ∧ (tc_synced c → tc_synced c')
  | inl _ => tc_nsInfo c' = tc_nsInfo c
  end.
Proof.
  intros Hc. unfold CreateNamespace. destruct (word_name name) eqn:Hw; cbn [negb]; [|by intros [= <- <-]].
  case_bool_decide as Hd; [by intros [= <- <-]|]. rewrite M_bind_eq. cbn [tc_info]. unfold getNamespaceByName.
  destruct (tc_nsInfo c !! name) eqn:En; [by intros [= <- <-]|]. rewrite M_bind_eq. unfold tc_Alloc. cbn.
  destruct (alloc_id (tc_idAlloc c)) as [a [e|id]] eqn:Ea.
  { intros [= <- <-]. split; [|done]. destruct Hc as [Hns Hids Hkv]. split; [done| |done]. cbn. intros k n Hk. destruct (Hids k n Hk).
    split; [|done]. by apply (alloc_id_error _ _ _ Ea). }
  pose proof (ids_small _ _ _ Ea) as Hsmall. destruct (alloc_id_fresh _ _ _ Ea) as [Hfresh Hiss]. destruct Hc as [Hns Hids Hkv].
  intros Hput. apply put_spec in Hput as (Halloc & Hkv' & Hr); [|done]. cbn in Halloc, Hr.
  assert (Hnew : ∀ k n, tc_nsInfo c !! k = Some n → ns_ID n ≠ id) by (intros k n Hk Heq; destruct (Hids k n Hk); congruence).
  assert (Hold : ∀ k n, tc_nsInfo c !! k = Some n → ns_ID n ∈ issued (tc_idAlloc c') ∧ 0 ≤ ns_ID n < maxUint64).
  { intros k n Hk. destruct (Hids k n Hk). rewrite Halloc, Hiss. set_solver. }
  destruct r as [e|[]]; destruct Hr as [Hm Hsv]; [split; [|done]; split; [by rewrite Hm|by rewrite Hm|done]|].
  assert (Heff : ns_effect (CmdCreate name) (tc_nsInfo c) (tc_nsInfo c')) by (split_and!; [done..|by exists id]).
  split; [|split; [done|]].
  - split; [by eapply ns_effect_inv| |done]. rewrite Hm. cbn. intros k n [[<- <-]|[_ Hk]]%lookup_insert_Some; [|by eapply Hold].
    cbn. rewrite Halloc, Hiss. split; [set_solver|done].
  - intros (s & Hs & Hsy). unfold saved in Hsv. cbn in Hsv. rewrite Hs in Hsv. destruct (tc_storage c') as [s'|] eqn:Hs'; [|done].
    destruct Hsv as (b & Hb & Hv). exists s'. split; [done|]. rewrite Hv, Hm. apply (synced_insert _ _ (NewNamespace id name)); try done.
    intros k n Hk. split; [by eapply Hold|]. cbn. split; [by intros ?%(Hnew k n)|]. intros ->. by rewrite En in Hk.
Qed.

Lemma update_spec q c c' r : is_create q = false → tc_inv c → run_ns_cmd q c = (c', r) →
  tc_inv c' ∧ match r with
  | inr _ => ns_effect q (tc_nsInfo c) (tc_nsInfo c') ∧ (tc_synced c → tc_synced c')
  | inl e => tc_nsInfo c' = tc_nsInfo c ∨ ns_effect q (tc_nsInfo c) (tc_nsInfo c') ∧ save_error e
  end.
Proof.
  intros Hq Hc Hrun. pose proof Hc as [Hns Hids Hkv].
  destruct (run_update q c Hq Hns) as [[e E]|(n & Hn & Had & E)]; rewrite E in Hrun; [injection Hrun as <- <-; auto|].
  apply put_spec in Hrun as (Halloc & Hkv' & Hr); [|done]. cbn in Halloc, Hr.
  destruct (ni_name _ Hns _ _ Hn) as (Hname & _).
  assert (Hupd : ns_Name (cmd_update q n) = cmd_name q ∧ ns_ID (cmd_update q n) = ns_ID n) by (by destruct q). destruct Hupd as [Hnm Hid].
  assert (Hm : tc_nsInfo c' = <[cmd_name q := cmd_update q n]> (tc_nsInfo c)).
  { destruct r as [e|[]]; destruct Hr as [-> _]; [done|]. by rewrite Hnm, insert_insert_eq. }
  assert (Heff : ns_effect q (tc_nsInfo c) (tc_nsInfo c')) by (rewrite Hm; destruct q; [done|by exists n..]).
  split.
  - split; [by eapply ns_effect_inv| |done]. rewrite Hm, Halloc. intros k n' [[<- <-]|[_ Hk]]%lookup_insert_Some; [|by eapply Hids].
    rewrite Hid. by eapply Hids.
  - destruct r as [e|[]]; [right; by destruct Hr|]. split; [done|]. intros (s & Hs & Hsy). destruct Hr as [_ Hsv]. unfold saved in Hsv. cbn in Hsv.
    rewrite Hs in Hsv. destruct (tc_storage c') as [s'|] eqn:Hs'; [|done]. destruct Hsv as (b & Hb & Hv). exists s'. split; [done|].
    rewrite Hv, Hm, <-Hnm. apply synced_overwrite; try done; rewrite ?Hnm; [by exists n|by intros n' Hn'; simplify_eq|].
    intros k n' Hk. by eapply Hids.
Qed.

(** ** Reloading *)

Section reload.
Variables (V0 : gmap bytes bytes) (m : namespacesInfo).
Hypothesis Hsync : synced V0 m.
Hypothesis Hm : ∀ k k' n n', m !! k = Some n → m !! k' = Some n' → k ≠ k' → ns_ID n ≠ ns_ID n'.
Hypothesis Hids : ∀ k n, m !! k = Some n → 0 ≤ ns_ID n < maxUint64.

(** The namespaces with an id below [n]. *)
Definition below_id (n : Z) : namespacesInfo := filter (λ p, ns_ID p.2 < n) m.

Lemma page_ns l n k b : 0 ≤ n ≤ maxUint64 → page_of (namespacePath maxUint64) V0 (namespacePath n) l → (k, b) ∈ l →
  ∃ ns, ns_Unmarshal b = inr ns ∧ k = namespacePath (ns_ID ns) ∧ n ≤ ns_ID ns < maxUint64 ∧ m !! ns_Name ns = Some ns.
Proof.
  intros Hn Hp Hk. destruct (pg_in _ _ _ _ Hp _ Hk) as (E & Hlo & Hhi). simpl in *.
  assert (namespacePath 0 ≤ namespacePath n)%key by ns_keys.
  destruct (sy_stored _ _ Hsync k b E) as (ns & Hu & -> & Hid & Hns); [key_order|done|]. exists ns. split_and!; try done; [|lia].
  revert Hlo. ns_keys.
Qed.

(** One loaded namespace. *)
Lemma below_id_step n ns : n ≤ ns_ID ns < maxUint64 → 0 ≤ n → m !! ns_Name ns = Some ns →
  (∀ id, n ≤ id < ns_ID ns → V0 !! namespacePath id = None) →
  <[ns_Name ns := ns]> (below_id n) = below_id (ns_ID ns + 1).
Proof.
  intros Hid Hn Hns Hgap. apply map_eq. intros k. apply option_eq. intros n'. unfold below_id.
  rewrite lookup_insert_Some, !map_lookup_filter_Some. cbn. split.
  - intros [[<- <-]|(Hne & Hk & Hlt)]; [split; [done|lia]|split; [done|lia]].
  - intros [Hk Hlt]. destruct (decide (k = ns_Name ns)) as [->|Hne]; [left; split; congruence|]. right. split; [done|]. split; [done|].
    pose proof (Hm _ _ _ _ Hk Hns Hne) as Hi. destruct (Z.lt_ge_cases (ns_ID n') n) as [|Hge]; [done|].
    destruct (sy_known _ _ Hsync k n' Hk) as (b & Hb & _). rewrite Hgap in Hb by lia. done.
Qed.

Lemma load_ns_page_spec l (s : S) n : 0 ≤ n ≤ maxUint64 → page_of (namespacePath maxUint64) V0 (namespacePath n) l →
  ∃ n', load_ns_page (l.*2) n (s, below_id n) = ((s, below_id n'), inr n') ∧ n ≤ n' ≤ maxUint64 ∧ ∀ p, p ∈ l → (p.1 < namespacePath n')%key.
Proof.
  revert n. induction l as [|[k b] l IH]; intros n Hn Hp.
  { exists n. split_and!; [done|lia|lia|set_solver]. }
  destruct (page_ns ((k, b) :: l) n k b Hn Hp) as (ns & Hu & -> & Hid & Hns); [by left|].
  cbn [fmap list_fmap load_ns_page snd]. rewrite M_bind_eq. unfold lift_result at 1. rewrite Hu, M_bind_eq. unfold setNamespace.
  rewrite uint64_small by (unfold maxUint64 in *; lia). rewrite below_id_step; [|lia|lia|done|].
  2:{ intros id Hgap. eapply (page_first _ _ _ _ _ _ _ Hp); ns_keys. }
  destruct (IH (ns_ID ns + 1)) as (n' & E & Hn' & Hall); [lia| |].
  { eapply (page_tail _ _ _ _ _ _ _ Hp); [ns_keys|cbn; ns_keys| |done].
    intros [k' b'] Hq. destruct (page_ns _ n k' b' Hn Hp) as (ns' & _ & -> & Hid' & _); [by right|].
    pose proof (pg_sorted _ _ _ _ Hp) as Hsort. inversion Hsort as [|?? _ Hf]; subst.
    rewrite list.Forall_forall in Hf. apply Hf in Hq. cbn in Hq |- *. revert Hq. ns_keys. }
  exists n'. split; [exact E|]. split; [lia|]. intros p [->|Hin]%elem_of_cons; [cbn; ns_keys|by apply Hall].
Qed.

(** The stored pairs from an id on. *)
Definition ns_pending (n : Z) : gmap bytes bytes :=
  filter (λ p, (namespacePath n ≤ p.1)%key ∧ (p.1 < namespacePath maxUint64)%key) V0.

Lemma ns_pending_shrinks n n' p l : page_of (namespacePath maxUint64) V0 (namespacePath n) (p :: l) →
  0 ≤ n ≤ n' → n' ≤ maxUint64 → (p.1 < namespacePath n')%key → (size (ns_pending n') < size (ns_pending n))%nat.
Proof.
  intros Hp Hn Hn' Hlt. apply map_subset_size. destruct (pg_in _ _ _ _ Hp p) as (E & H1 & H2); [by left|].
  assert (namespacePath n ≤ namespacePath n')%key by ns_keys. apply strict_spec_alt. split.
  - apply map_filter_subseteq_ext. intros k b _ [??]. simpl in *. split; [key_order|done].
  - intros E'. assert (ns_pending n !! p.1 = Some p.2) as Hk by by apply map_lookup_filter_Some.
    rewrite <- E' in Hk. apply map_lookup_filter_Some in Hk as [_ [Hk _]]. simpl in Hk. key_order.
Qed.

Lemma load_ns_loop_spec fuel limit s n : 1 ≤ limit → kv_ok s → kv_view s = V0 → 0 ≤ n ≤ maxUint64 → (size (ns_pending n) < fuel)%nat →
  ∃ s' m' r, load_ns_loop fuel n limit (s, below_id n) = ((s', m'), r) ∧ kv_ok s' ∧ kv_view s' = V0 ∧
    match r with inr _ => m' = m | inl e => ∃ s1 k k' j s2, LoadRange (S := S) k k' j s1 = (s2, inl e) end.
Proof.
  intros Hlim. revert s n. induction fuel as [|fuel IH]; intros s n Hok Hv Hn Hf; [lia|].
  cbn [load_ns_loop]. rewrite M_bind_eq. destruct (LoadRange (namespacePath n) (namespacePath maxUint64) limit s) as [s1 r] eqn:El.
  destruct (LoadRange_law _ _ _ _ _ _ Hok Hlim El) as (Hok1 & Hv1 & Hr). rewrite Hv in *.
  destruct r as [e|[ks vs]]; [by eexists _, _, (inl e); split_and!; [done..|eauto 10]|].
  destruct (Hr ks vs eq_refl) as (l & Hl & [= -> ->]). cbn [snd]. rewrite <-!fmap_take, M_bind_eq.
  pose proof (range_page _ _ _ _ (Z.to_nat limit) Hl) as Hp. destruct (load_ns_page_spec _ s1 n Hn Hp) as (n' & -> & Hn' & Hall).
  rewrite length_fmap, length_take. destruct (Z.ltb_spec (Z.of_nat (Z.to_nat limit `min` length l)) limit) as [Hshort|Hfull].
  - eexists _, _, (inr ()). split_and!; [done..|]. apply map_eq. intros k. apply option_eq. intros ns. unfold below_id.
    rewrite map_lookup_filter_Some. cbn. split; [tauto|]. intros Hk. split; [done|]. rewrite take_ge in Hall by lia.
    destruct (sy_known _ _ Hsync k ns Hk) as (b & Hb & Hu). destruct (Z.lt_ge_cases (ns_ID ns) n') as [|Hge]; [done|].
    pose proof (Hids k ns Hk) as Hid. destruct Hl as [_ Hl].
    assert (Hin : (namespacePath (ns_ID ns), b) ∈ l) by (apply Hl; split_and!; [done|ns_keys|ns_keys]).
    apply Hall in Hin. cbn in Hin. exfalso. revert Hin. ns_keys.
  - destruct l as [|p l]; [cbn in Hfull; lia|]. apply IH; [done..|lia|].
    destruct (Z.to_nat limit) as [|j] eqn:Ej; [lia|]. cbn [take] in Hp, Hall.
    pose proof (ns_pending_shrinks n n' p _ Hp ltac:(lia) ltac:(lia) (Hall p ltac:(left))). lia.
Qed.

(** A load from the first id on.  One page per stored pair and one more are enough. *)
Lemma loadNamespaces_spec fuel s : kv_ok s → kv_view s = V0 → (size V0 < fuel)%nat →
  ∃ s' m' r, loadNamespaces fuel kvRangeLimit (s, newNamespacesInfo) = ((s', m'), r) ∧
    match r with inr _ => m' = m | inl e => ∃ s1 k k' j s2, LoadRange (S := S) k k' j s1 = (s2, inl e) end.
Proof.
  intros Hok Hv Hf. assert (Hle : (size (ns_pending 0) ≤ size V0)%nat) by apply map_size_filter.
  assert (Hb0 : below_id 0 = newNamespacesInfo).
  { apply map_empty. intros k. apply map_lookup_filter_None. right. intros n Hk. cbn. pose proof (Hids k n Hk). lia. }
  destruct (load_ns_loop_spec fuel kvRangeLimit s 0) as (s' & m' & r & E & _ & _ & Hr); [done..|unfold maxUint64; lia|lia|].
  rewrite Hb0 in E. by exists s', m', r.
Qed.
End reload.

Lemma ns_ids_apart m : ns_inv m → ∀ k k' n n', m !! k = Some n → m !! k' = Some n' → k ≠ k' → ns_ID n ≠ ns_ID n'.
Proof. intros Hm k k' n n' Hk Hk' Hne. by destruct (ni_apart m Hm _ _ _ _ Hk Hk' Hne) as (_ & _ & _ & ?). Qed.

(** ** The theorems *)

(** C13: A command on the namespaces, in any state in which no two namespaces share a
    table, a store, the meta data or an id, leads to such a state, also when it
    fails.  If it returns no error, its effect is exactly the one asked for, and a
    storage that held the namespaces holds them again.  If it returns an error, the
    namespaces are as before, or it was the saving that failed and the effect on a
    namespace that existed has taken place in memory. *)
Theorem namespace_commands_correct q c c' r : tc_inv c → run_ns_cmd q c = (c', r) →
  tc_inv c' ∧
  match r with
  | inr _ => ns_effect q (tc_nsInfo c) (tc_nsInfo c') ∧ (tc_synced c → tc_synced c')
  | inl e => tc_nsInfo c' = tc_nsInfo c ∨ is_create q = false ∧ ns_effect q (tc_nsInfo c) (tc_nsInfo c') ∧ save_error e
  end.
Proof.
  intros Hc Hrun. destruct (is_create q) eqn:Hq.
  - destruct q; try done. apply create_spec in Hrun as [? Hr]; [|done]. split; [done|]. destruct r; [by left|done].
  - apply update_spec in Hrun as [? Hr]; [|done..]. split; [done|]. destruct r; [|done]. destruct Hr as [|[]]; [by left|right; by split_and!].
Qed.

(** Commands one after the other, whatever their results, and commands that all
    succeed. *)
Definition cmd_step c c' : Prop := ∃ q r, run_ns_cmd q c = (c', r).
Definition cmd_done c c' : Prop := ∃ q, run_ns_cmd q c = (c', inr ()).

Lemma cmd_inv q c c' r : tc_inv c → run_ns_cmd q c = (c', r) → tc_inv c' ∧ (r = inr () → tc_synced c → tc_synced c').
Proof.
  intros Hc Hrun. destruct (is_create q) eqn:Hq.
  - destruct q; try done. apply create_spec in Hrun as [? Hr]; [|done]. split; [done|]. intros ->. apply Hr.
  - apply update_spec in Hrun as [? Hr]; [|done..]. split; [done|]. intros ->. apply Hr.
Qed.

Lemma steps_tc_inv c c' : rtc cmd_step c c' → tc_inv c → tc_inv c'.
Proof. induction 1 as [|c1 c2 c3 (q & r & Hrun) _ IH]; [done|]. intros Hc. by apply IH, (cmd_inv q c1 c2 r). Qed.

Lemma done_synced c c' : rtc cmd_done c c' → tc_inv c → tc_synced c → tc_inv c' ∧ tc_synced c'.
Proof.
  induction 1 as [|c1 c2 c3 (q & Hrun) _ IH]; [done|]. intros Hc Hs. destruct (cmd_inv q c1 c2 _ Hc Hrun) as [? Hsy]. apply IH; [done|by apply Hsy].
Qed.

(** C39: After commands that all succeeded, starting from a storage that holds the
    namespaces, a classifier that is created on the storage, as after a restart or
    a change of the leader, has the same namespaces; it can only fail with an
    error of the storage.  Reloading changes nothing.  One page per stored pair and
    one more are enough. *)
Theorem namespaces_survive_restart c0 c s fuel (a : A) : tc_inv c0 → tc_synced c0 → rtc cmd_done c0 c →
  tc_storage c = Some s → (size (kv_view s) < fuel)%nat →
  (∃ s', NewTableNamespaceClassifier fuel s a = (s', inr (mkTableClassifier (tc_nsInfo c) (Some s') a)) ∨
    ∃ e, NewTableNamespaceClassifier fuel s a = (s', inl e) ∧ ∃ s1 k k' j s2, LoadRange (S := S) k k' j s1 = (s2, inl e)) ∧
  tc_nsInfo (ReloadNamespaces fuel c).1 = tc_nsInfo c.
Proof.
  intros Hc0 Hs0 Hrun Hs Hf. destruct (done_synced c0 c Hrun Hc0 Hs0) as [[Hns Hids Hkv] (s0 & Hs' & Hsy)].
  rewrite Hs in Hs'. injection Hs' as <-.
  destruct (loadNamespaces_spec (kv_view s) (tc_nsInfo c) Hsy (ns_ids_apart _ Hns) (λ k n Hk, proj2 (Hids k n Hk)) fuel s)
    as (s' & m' & r & E & Hr); [by apply Hkv|done..|].
  unfold NewTableNamespaceClassifier, ReloadNamespaces. rewrite Hs, E. split.
  - exists s'. destruct r as [e|[]]; [right; by exists e|left]. by subst m'.
  - destruct r as [e|[]]; [done|]. by subst m'.
Qed.

(** ** Classifying *)

Section classify.
Variable order : namespacesInfo → list (bytes * Namespace).
Hypothesis order_perm : ∀ m, order m ≡ₚ map_to_list m.

(** The name of the only namespace with a property, the default one if there is
    none. *)
Definition owner (P : Namespace → Prop) m (name : bytes) : Prop :=
  (∃ n, m !! name = Some n ∧ P n) ∨ (∀ k n, m !! k = Some n → ¬ P n) ∧ name = DefaultNamespace.

Lemma first_ns_owner (P : Namespace → bool) m : (∀ k k' n n', m !! k = Some n → m !! k' = Some n' → P n = true → P n' = true → k = k') →
  (∀ k n, m !! k = Some n → k ≠ DefaultNamespace) → ∀ name, first_ns order P m = name ↔ owner (λ n, P n = true) m name.
Proof.
  intros Huniq Hdef name. unfold first_ns, owner. destruct (find_first (λ p, P p.2) (order m)) as [[k n]|] eqn:E.
  - apply find_first_Some in E as [Hin HP]. rewrite order_perm in Hin. apply elem_of_map_to_list in Hin. cbn in HP. split.
    + intros <-. left. by exists n.
    + intros [(n' & Hn' & HP')|[Hno ->]]; [by apply (Huniq k name n n')|]. by destruct (Hno k n Hin).
  - rewrite find_first_None in E.
    assert (Hno : ∀ k n, m !! k = Some n → P n = false) by (intros k n Hk; apply (E (k, n)); by rewrite order_perm, elem_of_map_to_list).
    split; [intros <-; right; split; [|done]; intros k n Hk HP; by rewrite (Hno k n Hk) in HP|].
    intros [(n & Hn & HP)|[_ ->]]; [|done]. by rewrite (Hno _ _ Hn) in HP.
Qed.

Lemma owner_iff (P Q : Namespace → Prop) m name : (∀ k n, m !! k = Some n → P n ↔ Q n) → owner P m name ↔ owner Q m name.
Proof.
  intros HPQ. unfold owner. split; (intros [(n & Hn & HP)|[Hno ->]]; [left; exists n; split; [done|by apply (HPQ name)]|right; split; [|done]]);
    intros k n Hk HQ; eapply Hno; [done|by apply (HPQ k)|done|by apply (HPQ k)].
Qed.

Lemma region_owner c region name isMeta tableID : ns_inv (tc_nsInfo c) → MetaOrTable (GetStartKey region) = (isMeta, tableID) →
  (isMeta = true → ∀ k n, tc_nsInfo c !! k = Some n → 0 ∉ ns_TableIDs n) →
  tc_GetRegionNamespace order c region = name ↔
    owner (λ n, if isMeta then ns_Meta n = true else tableID ≠ 0 ∧ tableID ∈ ns_TableIDs n) (tc_nsInfo c) name.
Proof.
  intros Hns Ek Hzero. unfold tc_GetRegionNamespace. rewrite Ek.
  assert (Hdef : ∀ k n, tc_nsInfo c !! k = Some n → k ≠ DefaultNamespace) by (intros k n Hk; by apply (ni_name _ Hns k n)).
  destruct isMeta.
  - assert (tableID = 0) as ->.
    { revert Ek. unfold MetaOrTable. destruct (DecodeBytes _) as [|[? key]]; [done|]. destruct (HasPrefix key metaPrefix); [by intros [= <-]|].
      by destruct (HasPrefix key tablePrefix). }
    cbn [Z.eqb andb negb]. specialize (Hzero eq_refl). rewrite first_ns_owner; [|clear name|done].
    + apply owner_iff. intros k n Hk. specialize (Hzero k n Hk). by rewrite bool_decide_eq_false_2.
    + intros k k' n n' Hk Hk'. rewrite !bool_decide_eq_false_2 by eauto. cbn. intros Hm Hm'. destruct (decide (k = k')) as [|Hne]; [done|].
      destruct (ni_apart _ Hns _ _ _ _ Hk Hk' Hne) as (_ & _ & Hap & _). rewrite Hap in Hm'; done.
  - destruct (Z.eqb_spec tableID 0) as [->|Hnz]; cbn [andb negb].
    + unfold owner. split; [intros <-; right; split; [|done]; by intros k n _ []|]. by intros [(n & _ & [])|[_ ->]].
    + rewrite first_ns_owner; [|clear name|done].
      * apply owner_iff. intros k n _. rewrite orb_false_r, bool_decide_eq_true. tauto.
      * intros k k' n n' Hk Hk'. rewrite !orb_false_r, !bool_decide_eq_true. intros Ht Ht'. destruct (decide (k = k')) as [|Hne]; [done|].
        destruct (ni_apart _ Hns _ _ _ _ Hk Hk' Hne) as (Hap & _). set_solver.
Qed.

(** C38: After any commands, failed ones included, the classifier is unambiguous: all
    loops over the map of namespaces, in whatever order, give the same answers.
    The namespace of a store is the one that has the store, that of a region the
    one that has its table or, for a region of the meta data, the meta data, and
    the default namespace if there is none; for a region of the meta data this
    presumes that no namespace has a table of id 0.  Every namespace is listed
    once, and the answers are listed. *)
Theorem classifier_unambiguous c0 c : tc_inv c0 → rtc cmd_step c0 c →
  NoDup (tc_GetAllNamespaces order c) ∧
  (∀ name, name ∈ tc_GetAllNamespaces order c ↔ is_Some (tc_nsInfo c !! name) ∨ name = DefaultNamespace) ∧
  (∀ h st name, tc_GetStoreNamespace order c h st = name ↔ owner (λ n, store_GetID h st ∈ ns_StoreIDs n) (tc_nsInfo c) name) ∧
  (∀ region name isMeta tableID, MetaOrTable (GetStartKey region) = (isMeta, tableID) →
     (isMeta = true → ∀ k n, tc_nsInfo c !! k = Some n → 0 ∉ ns_TableIDs n) →
     tc_GetRegionNamespace order c region = name ↔
       owner (λ n, if isMeta then ns_Meta n = true else tableID ≠ 0 ∧ tableID ∈ ns_TableIDs n) (tc_nsInfo c) name).
Proof.
  intros Hc0 Hrun. destruct (steps_tc_inv c0 c Hrun Hc0) as [Hns _ _].
  assert (Hdef : ∀ k n, tc_nsInfo c !! k = Some n → k ≠ DefaultNamespace) by (intros k n Hk; by apply (ni_name _ Hns k n)).
  assert (Hin : ∀ name, name ∈ (order (tc_nsInfo c)).*1 ↔ is_Some (tc_nsInfo c !! name)).
  { intros name. rewrite order_perm, list_elem_of_fmap. split.
    - intros ([k n] & -> & Hk%elem_of_map_to_list). by exists n.
    - intros [n Hn]. exists (name, n). by rewrite elem_of_map_to_list. }
  split_and!.
  - unfold tc_GetAllNamespaces. apply NoDup_app. split_and!; [rewrite order_perm; apply NoDup_fst_map_to_list| |apply NoDup_singleton].
    intros name [n Hn]%Hin ->%list_elem_of_singleton. by apply Hdef in Hn.
  - intros name. unfold tc_GetAllNamespaces. by rewrite elem_of_app, Hin, list_elem_of_singleton.
  - intros h st name. unfold tc_GetStoreNamespace. rewrite first_ns_owner; [by unfold owner; setoid_rewrite bool_decide_eq_true| |done].
    intros k k' n n' Hk Hk' ?%bool_decide_eq_true ?%bool_decide_eq_true. destruct (decide (k = k')) as [|Hne]; [done|].
    destruct (ni_apart _ Hns _ _ _ _ Hk Hk' Hne) as (_ & ? & _). set_solver.
  - intros region name isMeta tableID Ek Hzero. by apply region_owner.
Qed.
End classify.

(** ** A removal that is not saved *)

(** A loop over the map that starts with a given name. *)
Definition name_first (name : bytes) m : list (bytes * Namespace) :=
  match m !! name with Some n => (name, n) :: map_to_list (delete name m) | None => map_to_list m end.

Lemma name_first_perm name m : name_first name m ≡ₚ map_to_list m.
Proof. unfold name_first. destruct (m !! name) as [n|] eqn:E; [by apply map_to_list_delete|done]. Qed.

Lemma name_first_region c region name n t : tc_nsInfo c !! name = Some n → t ∈ ns_TableIDs n → t ≠ 0 →
  MetaOrTable (GetStartKey region) = (false, t) → tc_GetRegionNamespace (name_first name) c region = name.
Proof.
  intros Hn Ht Hnz Hk. unfold tc_GetRegionNamespace. rewrite Hk. destruct (Z.eqb_spec t 0) as [|_]; [done|]. cbn [andb].
  unfold first_ns, name_first. rewrite Hn. cbn. by rewrite bool_decide_eq_true_2.
Qed.

(** The removal has taken effect in memory. *)
Lemma failed_removal c c1 a n t e : tc_inv c → tc_nsInfo c !! a = Some n → t ∈ ns_TableIDs n →
  RemoveNamespaceTableID a t c = (c1, inl e) → tc_nsInfo c1 = <[a := DelTableID t n]> (tc_nsInfo c) ∧ save_error e.
Proof.
  intros [Hns _ Hkv] Hn Ht. destruct (ni_name _ Hns _ _ Hn) as (Hname & _). unfold RemoveNamespaceTableID. ns_found Hn.
  rewrite bool_decide_eq_true_2, write_put by done. intros (_ & _ & ? & ?)%put_spec; done.
Qed.

(** The table can be added to another namespace. *)
Lemma add_after_removal c c1 c2 a b n n' t e r : tc_inv c → a ≠ b → tc_nsInfo c !! a = Some n → t ∈ ns_TableIDs n → tc_nsInfo c !! b = Some n' →
  RemoveNamespaceTableID a t c = (c1, inl e) → AddNamespaceTableID b t c1 = (c2, r) →
  tc_inv c2 ∧ tc_nsInfo c2 = <[b := AddTableID t n']> (<[a := DelTableID t n]> (tc_nsInfo c)) ∧
  match r with inl e => save_error e | inr _ => saved (AddTableID t n') c1 c2 end.
Proof.
  intros Hc Hab Hn Ht Hn' Hdel Hadd. destruct (failed_removal c c1 a n t e Hc Hn Ht Hdel) as [Hm1 _].
  destruct (cmd_inv (CmdDelTable a t) c c1 _ Hc Hdel) as [Hc1 _]. destruct (cmd_inv (CmdAddTable b t) c1 c2 _ Hc1 Hadd) as [Hc2 _].
  split; [done|]. revert Hadd. pose proof Hc as [Hns _ _]. pose proof Hc1 as [_ _ Hkv1]. destruct (ni_name _ Hns _ _ Hn') as (Hname & _).
  assert (Hb1 : tc_nsInfo c1 !! b = Some n') by (by rewrite Hm1, lookup_insert_ne).
  assert (Hfree : isTableIDExist t (tc_nsInfo c1) = false).
  { apply exists_ns_false. rewrite Hm1. intros k n1 [[<- <-]|[Hne Hk]]%lookup_insert_Some; apply bool_decide_eq_false; [cbn; set_solver|].
    destruct (ni_apart _ Hns _ _ _ _ Hn Hk Hne) as (Hap & _). set_solver. }
  unfold AddNamespaceTableID. ns_found Hb1. rewrite Hfree, write_put by done. intros (_ & _ & Hr)%put_spec; [|done]. cbn in Hr.
  rewrite Hm1 in Hr. destruct r as [e'|[]]; destruct Hr as [Hm2 Hsv]; (split; [|done]); [done|].
  by rewrite Hm2, Hname, insert_insert_eq.
Qed.

(** The storage holds the namespaces as if there had been no removal. *)
Lemma split_stored c c1 c2 b n' t s s1 s2 : tc_inv c → tc_synced c → tc_nsInfo c !! b = Some n' →
  tc_storage c = Some s → tc_storage c1 = Some s1 → tc_storage c2 = Some s2 → kv_view s1 = kv_view s →
  saved (AddTableID t n') c1 c2 → synced (kv_view s2) (<[b := AddTableID t n']> (tc_nsInfo c)).
Proof.
  intros [Hns Hids _] (s0 & Hs0 & Hsy) Hn' Hs Hs1 Hs2 Hv Hsv. rewrite Hs in Hs0. injection Hs0 as <-.
  unfold saved in Hsv. rewrite Hs1, Hs2 in Hsv. destruct Hsv as (bs & Hb & ->). rewrite Hv.
  destruct (ni_name _ Hns _ _ Hn') as (Hname & _). rewrite <-Hname at 1. change (ns_Name n') with (ns_Name (AddTableID t n')).
  apply synced_overwrite; [done|done|cbn; rewrite Hname..|done|intros k n Hk; by eapply Hids]; [by exists n'|by intros ? [= <-]%(eq_trans (eq_sym Hn'))].
Qed.

(** C40: A removal that fails puts a table into two namespaces.  When a table is to be
    removed from its namespace and the storage reports an error and has not written
    anything, the removal has taken effect in memory; adding the table to a second
    namespace then succeeds unless saving fails again.  Now the table is in the
    second namespace only, in memory; but a classifier created on the storage, if
    the storage can be read, has it in both namespaces, and the namespace of the
    table's regions is either, depending on the order of a Go map. *)
Theorem failed_removal_splits c c1 c2 a b n n' t e r s s1 : tc_inv c → tc_synced c → a ≠ b → t ≠ 0 →
  tc_nsInfo c !! a = Some n → t ∈ ns_TableIDs n → tc_nsInfo c !! b = Some n' →
  RemoveNamespaceTableID a t c = (c1, inl e) → tc_storage c = Some s → tc_storage c1 = Some s1 → kv_view s1 = kv_view s →
  AddNamespaceTableID b t c1 = (c2, r) →
  tc_nsInfo c2 = <[b := AddTableID t n']> (<[a := DelTableID t n]> (tc_nsInfo c)) ∧
  (∀ order region, (∀ m, order m ≡ₚ map_to_list m) → MetaOrTable (GetStartKey region) = (false, t) → tc_GetRegionNamespace order c2 region = b) ∧
  match r with
  | inl e => save_error e
  | inr _ => ∀ s2 fuel (ids : A) s3 (r3 : result tc), tc_storage c2 = Some s2 → (size (kv_view s2) < fuel)%nat →
      NewTableNamespaceClassifier fuel s2 ids = (s3, r3) →
      match r3 with
      | inl e => ∃ s k k' j s', LoadRange (S := S) k k' j s = (s', inl e)
      | inr c3 => tc_nsInfo c3 !! a = Some n ∧ tc_nsInfo c3 !! b = Some (AddTableID t n') ∧
          ∀ region name, MetaOrTable (GetStartKey region) = (false, t) → name = a ∨ name = b →
            ∃ order, (∀ m, order m ≡ₚ map_to_list m) ∧ tc_GetRegionNamespace order c3 region = name
      end
  end.
Proof.
  intros Hc Hsy Hab Hnz Hn Ht Hn' Hdel Hs Hs1 Hv Hadd.
  destruct (add_after_removal c c1 c2 a b n n' t e r Hc Hab Hn Ht Hn' Hdel Hadd) as (Hc2 & Hm2 & Hr). split_and!; [done| |].
  - intros order region Hperm Hk. apply (region_owner order Hperm c2 region b false t (ti_ns _ Hc2) Hk); [done|].
    left. exists (AddTableID t n'). rewrite Hm2, lookup_insert_eq. split_and!; [done..|cbn; set_solver].
  - destruct r as [|[]]; [done|]. intros s2 fuel ids s3 r3 Hs2 Hf. pose proof Hc as [Hns Hids _].
    pose proof (split_stored c c1 c2 b n' t s s1 s2 Hc Hsy Hn' Hs Hs1 Hs2 Hv Hr) as Hsy2.
    set (m := <[b := AddTableID t n']> (tc_nsInfo c)) in *.
    assert (Hold : ∀ k n3, m !! k = Some n3 → ∃ n4, tc_nsInfo c !! k = Some n4 ∧ ns_ID n3 = ns_ID n4).
    { intros k n3 [[<- <-]|[_ Hk]]%lookup_insert_Some; eauto. }
    destruct (loadNamespaces_spec (kv_view s2) m Hsy2) with (fuel := fuel) (s := s2) as (s' & m' & r & E & Hr'); [| |by eapply ti_kv|done..|].
    { intros k k' n3 n4 (? & Hk & ->)%Hold (? & Hk' & ->)%Hold Hne. by eapply ns_ids_apart. }
    { intros k n3 (? & Hk & ->)%Hold. by eapply Hids. }
    unfold NewTableNamespaceClassifier. rewrite E. intros [= <- <-]. destruct r as [|[]]; [done|]. subst m'. cbn.
    assert (Ha3 : m !! a = Some n) by (unfold m; by rewrite lookup_insert_ne).
    assert (Hb3 : m !! b = Some (AddTableID t n')) by apply lookup_insert_eq. split_and!; [done..|].
    intros region name Hk Hname. exists (name_first name). split; [apply name_first_perm|].
    destruct Hname as [-> | ->]; eapply name_first_region; try done. cbn. set_solver.
Qed.
End commands.
