(* ===== verification/NamespacesDemo.v ===== *)
(** * Namespaces on a storage that may fail

    An in-memory storage with a script of the writes that fail, on which the
    theorems about the table classifier are applied and a table comes to be in two
    namespaces. *)

From S2P Require Import Prelude GoBytes BTree Strconv Strings Float KV Metapb Region RegionMap RegionsInfo Codec Storage Store Statistics RaftCluster Namespaces NamespacesProps.

Module NamespacesDemo.
Import SortedList.

(** The storage and, for each write to come, whether it fails. *)
Abbreviation mem := (memoryKV (list memoryKVItem)).
Definition flaky : Type := mem * list bool.
Definition on_mem {A} (m : M mem A) : M flaky A := λ '(s, fails), let '(s, r) := m s in ((s, fails), r).
Definition unless_fails (m : M mem unit) : M flaky unit := λ '(s, fails),
  match fails with
  | true :: fails => ((s, fails), inl (Error "etcdserver: request timed out"))
  | _ => on_mem m (s, tail fails)
  end.
#[export] Instance flaky_Base : KVBase flaky := {
  Load k := on_mem (Load k);
  LoadRange k e limit := on_mem (LoadRange k e limit);
  Save k v := unless_fails (Save k v);
  Remove k := unless_fails (Remove k);
}.
#[export, refine] Instance flaky_laws : KVLaws flaky := {
  kv_ok s := kv_ok s.1;
  kv_view s := kv_view s.1;
}.
Proof.
  - intros [s f] k s' r Hok. cbn [Load flaky_Base on_mem]. destruct (Load k s) as [s1 r1] eqn:E. intros [= <- <-]. exact (Load_law _ _ _ _ Hok E).
  - intros [s f] k e limit s' r Hok Hlim. cbn [LoadRange flaky_Base on_mem]. destruct (LoadRange k e limit s) as [s1 r1] eqn:E.
    intros [= <- <-]. exact (LoadRange_law _ _ _ _ _ _ Hok Hlim E).
  - intros [s f] k v s' r Hok. cbn [Save flaky_Base unless_fails on_mem]. destruct (Save k v s) as [s1 r1] eqn:E.
    pose proof (Save_law _ _ _ _ _ Hok E) as Hlaw. destruct f as [|[|] f]; intros [= <- <-]; cbn; [done| |done]. split; [done|]. right. by split; [|eexists].
  - intros [s f] k s' r Hok. cbn [Remove flaky_Base unless_fails on_mem]. destruct (Remove k s) as [s1 r1] eqn:E.
    pose proof (Remove_law _ _ _ _ Hok E) as Hlaw. destruct f as [|[|] f]; intros [= <- <-]; cbn; [done| |done]. split; [done|]. right. by split; [|eexists].
Defined.

(** The last id allocated. *)
#[export] Instance ids : IDAllocator Z := {
  alloc_id a := if bool_decide (0 ≤ a < maxUint64 - 1) then (a + 1, inr (a + 1)) else (a, inl (Error "no more ids"));
}.
#[export, refine] Instance ids_laws : IDAllocatorLaws Z := { issued a := list_to_set (seqZ 1 a) }.
Proof.
  - intros a a' id. cbn. case_bool_decide as Ha; [|done]. intros [= <- <-]. split; [rewrite elem_of_list_to_set, elem_of_seqZ; lia|].
    apply set_eq. intros x. rewrite elem_of_union, elem_of_singleton, !elem_of_list_to_set, !elem_of_seqZ. lia.
  - intros a a' e. cbn. case_bool_decide; [done|]. by intros [= <- _].
Defined.
Lemma ids_below a a' id : alloc_id a = (a', inr id) → 0 ≤ id < maxUint64.
Proof. cbn. case_bool_decide; [|done]. intros [= _ <-]. lia. Qed.

(** An encoding of two namespaces, without and with the table 7. *)
Definition nsA : Namespace := NewNamespace 1 (str "a").
Definition nsB : Namespace := NewNamespace 2 (str "b").
Definition codes : list Namespace := [nsA; AddTableID 7 nsA; DelTableID 7 (AddTableID 7 nsA); nsB; AddTableID 7 nsB].
#[export] Instance codes_json : NamespaceJson := {
  ns_Marshal ns := match list_find (eq ns) codes with Some (i, _) => inr [byte_of_Z (Z.of_nat i)] | None => inl (Error "unsupported value") end;
  ns_Unmarshal b := match b with
    | [x] => match codes !! Z.to_nat (byte_val x) with Some ns => inr ns | None => inl (Error "syntax error") end
    | _ => inl (Error "syntax error")
    end;
}.
#[export] Instance codes_laws : NamespaceJsonLaws.
Proof.
  split. intros ns b _. unfold ns_Marshal, ns_Unmarshal, codes_json. destruct (list_find (eq ns) codes) as [[i ns']|] eqn:E; [|done]. intros [= <-].
  apply list_find_Some in E as (Hi & <- & _). rewrite byte_val_of_Z, Z.mod_small, Nat2Z.id, Hi; [done|].
  apply lookup_lt_Some in Hi. cbn in Hi. lia.
Qed.

Definition fresh (fails : list bool) : tableNamespaceClassifier flaky Z := mkTableClassifier ∅ (Some (NewMemoryKV, fails)) 0.
Lemma fresh_inv fails : tc_inv (fresh fails).
Proof.
  split; [split| |intros s [= <-]; exact (bt_New_ok 2)]; cbn; intros *; by rewrite lookup_empty.
Qed.
Lemma fresh_synced fails : tc_synced (fresh fails).
Proof.
  eexists. split; [reflexivity|]. split; cbn; [|intros *; by rewrite lookup_empty].
  intros *. unfold mem_view, mem_items. cbn. by rewrite lookup_empty.
Qed.

Abbreviation classifier := (tableNamespaceClassifier flaky Z).
Definition by_name (m : namespacesInfo) : list (bytes * Namespace) := map_to_list m.
Lemma by_name_perm m : by_name m ≡ₚ map_to_list m.
Proof. done. Qed.

Definition run1 (q : ns_cmd) (c : classifier) : classifier := (run_ns_cmd q c).1.
Definition bound : classifier := run1 (CmdAddTable (str "a") 7) (run1 (CmdCreate (str "a")) (fresh [])).

(** The table is added to the namespace. *)
Lemma namespace_commands_correct_witness :
  (run_ns_cmd (CmdAddTable (str "a") 7) (run1 (CmdCreate (str "a")) (fresh []))).2 = inr () ∧
  ns_effect (CmdAddTable (str "a") 7) (tc_nsInfo (run1 (CmdCreate (str "a")) (fresh []))) (tc_nsInfo bound).
Proof.
  destruct (namespace_commands_correct ids_below (CmdCreate (str "a")) (fresh []) (run1 (CmdCreate (str "a")) (fresh []))
    (run_ns_cmd (CmdCreate (str "a")) (fresh [])).2 (fresh_inv []) (surjective_pairing _)) as [H1 _].
  assert (Hok : (run_ns_cmd (CmdAddTable (str "a") 7) (run1 (CmdCreate (str "a")) (fresh []))).2 = inr ()) by (vm_compute; reflexivity).
  split; [exact Hok|].
  destruct (namespace_commands_correct ids_below (CmdAddTable (str "a") 7) _ bound (inr ()) H1) as [_ [H2 _]]; [|exact H2].
  rewrite <-Hok. apply surjective_pairing.
Defined.

Lemma bound_done : rtc cmd_done (fresh []) bound.
Proof.
  eapply rtc_l; [exists (CmdCreate (str "a"))|eapply rtc_once; exists (CmdAddTable (str "a") 7)].
  - assert (Hok : (run_ns_cmd (CmdCreate (str "a")) (fresh [])).2 = inr ()) by (vm_compute; reflexivity). rewrite <-Hok. apply surjective_pairing.
  - assert (Hok : (run_ns_cmd (CmdAddTable (str "a") 7) (run1 (CmdCreate (str "a")) (fresh []))).2 = inr ()) by (vm_compute; reflexivity).
    rewrite <-Hok. apply surjective_pairing.
Qed.

(** It is still there after a restart. *)
Lemma namespaces_survive_restart_witness : ∃ s s', tc_storage bound = Some s ∧
  NewTableNamespaceClassifier 10 s 5 = (s', inr (mkTableClassifier (tc_nsInfo bound) (Some s') 5)).
Proof.
  destruct (tc_storage bound) as [s|] eqn:Es; [|vm_compute in Es; discriminate Es].
  assert (Hs : (size (kv_view s) < 10)%nat).
  { assert (H : (size (from_option (kv_view (S := flaky)) ∅ (tc_storage bound)) < 10)%nat) by (vm_compute; lia). rewrite Es in H. exact H. }
  destruct (namespaces_survive_restart ids_below (fresh []) bound s 10 5 (fresh_inv []) (fresh_synced []) bound_done Es Hs) as [(s' & [E|(e & E & _)]) _].
  - exists s, s'. split; [reflexivity|exact E].
  - exfalso. assert (H : match tc_storage bound with Some s => (NewTableNamespaceClassifier 10 s 5).2 | None => inl (Error "") end = inl e)
      by (rewrite Es, E; reflexivity). vm_compute in H. discriminate H.
Defined.

Definition region7 : RegionInfo := NewRegionInfo (mkRegion 1 (EncodeBytes (GenerateTableKey 7)) [] None []) None [].

(** The region of the table belongs to the namespace. *)
Lemma classifier_unambiguous_witness : tc_GetRegionNamespace by_name bound region7 = str "a".
Proof.
  assert (Hrun : rtc cmd_step (fresh []) bound).
  { refine (rtc_subrel _ _ _ _ _ bound_done). intros c c' [q Hq]. by exists q, (inr ()). }
  destruct (classifier_unambiguous ids_below by_name by_name_perm (fresh []) bound (fresh_inv []) Hrun) as (_ & _ & _ & H).
  apply (H region7 (str "a") false 7); [vm_compute; reflexivity|discriminate|].
  left. exists (AddTableID 7 nsA). split; [vm_compute; reflexivity|]. split; [done|]. refine (bool_decide_unpack _ _). vm_compute. exact I.
Defined.

(** The fourth write fails. *)
Definition before : classifier :=
  foldl (λ c q, run1 q c) (fresh [false; false; false; true]) [CmdCreate (str "a"); CmdCreate (str "b"); CmdAddTable (str "a") 7].
Definition removed : classifier := run1 (CmdDelTable (str "a") 7) before.
Definition final : classifier := run1 (CmdAddTable (str "b") 7) removed.
Definition storage_of (c : classifier) : flaky := default (NewMemoryKV, []) (tc_storage c).

(** A command with its result. *)
Lemma run1_result q (c : classifier) r : (run_ns_cmd q c).2 = r → run_ns_cmd q c = (run1 q c, r).
Proof. intros <-. apply surjective_pairing. Qed.

Lemma storage_known c : is_Some (tc_storage c) → tc_storage c = Some (storage_of c).
Proof. intros [s Hs]. unfold storage_of. by rewrite Hs. Qed.

Lemma before_ok : tc_inv before ∧ tc_synced before.
Proof.
  refine (done_synced ids_below (fresh [false; false; false; true]) before _ (fresh_inv _) (fresh_synced _)).
  eapply rtc_l; [exists (CmdCreate (str "a")); apply run1_result; vm_compute; reflexivity|].
  eapply rtc_l; [exists (CmdCreate (str "b")); apply run1_result; vm_compute; reflexivity|].
  eapply rtc_once. exists (CmdAddTable (str "a") 7). apply run1_result. vm_compute. reflexivity.
Qed.

(** The table is removed from one namespace, which is not saved, and added to
    another; after a restart it is in both. *)
Lemma failed_removal_splits_witness : tc_GetRegionNamespace by_name final region7 = str "b" ∧
  ∃ c3, (NewTableNamespaceClassifier 10 (storage_of final) 2).2 = inr c3 ∧
    (∃ order, (∀ m, order m ≡ₚ map_to_list m) ∧ tc_GetRegionNamespace order c3 region7 = str "a") ∧
    (∃ order, (∀ m, order m ≡ₚ map_to_list m) ∧ tc_GetRegionNamespace order c3 region7 = str "b").
Proof.
  destruct before_ok as [Hinv Hsy].
  assert (Ha : tc_nsInfo before !! str "a" = Some (AddTableID 7 nsA)) by (vm_compute; reflexivity).
  assert (Hb : tc_nsInfo before !! str "b" = Some nsB) by (vm_compute; reflexivity).
  assert (Ht : 7 ∈ ns_TableIDs (AddTableID 7 nsA)) by (refine (bool_decide_unpack _ _); vm_compute; exact I).
  assert (Hdel : run_ns_cmd (CmdDelTable (str "a") 7) before = (removed, inl (Error "etcdserver: request timed out")))
    by (apply run1_result; vm_compute; reflexivity).
  assert (Hadd : run_ns_cmd (CmdAddTable (str "b") 7) removed = (final, inr ())) by (apply run1_result; vm_compute; reflexivity).
  assert (Hs0 : tc_storage before = Some (storage_of before)) by (apply storage_known; vm_compute; eexists; reflexivity).
  assert (Hs1 : tc_storage removed = Some (storage_of removed)) by (apply storage_known; vm_compute; eexists; reflexivity).
  assert (Hv : kv_view (storage_of removed) = kv_view (storage_of before))
    by (change (mem_view (storage_of removed).1 = mem_view (storage_of before).1); f_equal; vm_compute; reflexivity).
  destruct (failed_removal_splits ids_below before removed final (str "a") (str "b") (AddTableID 7 nsA) nsB 7 _ (inr ()) _ _
    Hinv Hsy ltac:(discriminate) ltac:(discriminate) Ha Ht Hb Hdel Hs0 Hs1 Hv Hadd) as (_ & H1 & H2).
  split; [apply H1; [exact by_name_perm|vm_compute; reflexivity]|].
  assert (Hs : (size (kv_view (storage_of final)) < 10)%nat) by (vm_compute; lia).
  destruct (NewTableNamespaceClassifier 10 (storage_of final) 2) as [s3 r3] eqn:E.
  specialize (H2 (storage_of final) 10%nat 2 s3 r3 ltac:(apply storage_known; vm_compute; eexists; reflexivity) Hs E).
  destruct r3 as [e|c3]; [exfalso; apply (f_equal snd) in E; vm_compute in E; discriminate E|].
  exists c3. split; [reflexivity|]. destruct H2 as (_ & _ & H3).
  split; apply H3; [vm_compute; reflexivity|left; reflexivity|vm_compute; reflexivity|right; reflexivity].
Defined.
End NamespacesDemo.
